(* ===== verification/_CoqProject ===== *)
-Q . S2P
Prelude.v
ReplTypes.v
Schema.v
Snapshots.v
Merge.v
Delta.v
Wire.v
Codec.v
Datagram.v
Ring.v
Control.v
Session.v
Shadow.v
Lod.v
Replicator.v
SyncStream.v
FileJournal.v
EntityId.v
IdGen.v
TopoSort.v
Loader.v
CompSort.v
Persist.v
Flusher.v
RedisWal.v
RedisWalQueue.v
SubjectSync.v
Subscription.v
GroupLock.v
GroupDispatch.v
Heap.v
Timer.v
RemoteProto.v
Rollback.v
Atomicity.v
EntityLife.v
LockOrder.v
ClockCache.v
ReadThrough.v
SnapshotCache.v
WorkerQueue.v
WorkerPool.v
Splice.v
Dispatcher.v
RefHMap.v
RefHMapProofs.v
Lifecycle.v
ConfigData.v
RateLimit.v
Components.v
Checkpoint.v
IMap.v
FastMap.v
Requests.v
