(* ===== verification/Prelude.v ===== *)
(** * cube-core: a verification development

    cube-core is the runtime of a game server.  This library models, in Rocq,
    the parts of it that carry state from the server to clients and to storage,
    translated function by function from the Go sources under [src/], and proves
    what makes them correct.

    ** The program and where it is modelled

    - *Replication* ([src/replication/]).  Business code writes a shadow store;
      a capture of it is a canonical snapshot of a room; a replicator keeps a
      ring of published snapshots, projects one per client, sends it as a full
      frame or as a delta against the snapshot the client acknowledged, cut
      into datagrams, and handles the acknowledgements.  [ReplTypes] is the data
      model and its limits, [Schema] the component schemas, [Snapshots] the
      canonical snapshots, [Merge] and [Delta] the diff of two snapshots and its
      application, [Wire], [Codec], [Datagram] and [Control] the byte formats
      with their checksums and the reassembler, [Ring] the published snapshots,
      [Session] the state kept per client, [Shadow] the store, [Lod] the
      level-of-detail projector, [Replicator] the whole, with the transport as
      an oracle over the calls made.
    - *Ordered streams* ([src/syncstream/]).  [SyncStream] models histories of
      packets per observer and stream: append, acknowledge, resynchronise,
      recover, export and import, expiry, and the write-ahead journal with its
      replay.  [FileJournal] models the journal on disk: generations of
      checkpoint and log files, with every point at which an operation can fail
      or the process can stop.
    - *Entities* ([src/entity/]).  [EntityId] models the kind registry and the
      layout of identifiers, [IdGen] the lock-free generator of unique numbers
      as interleavings of its atomic operations, [CompSort] the dependency
      order of components and its cache (with the generic copy of
      [src/misc/topologic_sort.go]).
    - *Synchronised subjects* ([src/entity/subject_sync.go],
      [src/entitysync/]).  [SubjectSync] models the dirty marks of an entity and
      the two-phase preparation of its updates, [Subscription] the coordinator
      that delivers snapshots and deltas to subscribers; what a packer and a
      reader promise is an interface ([SubjectSyncPacker], [SyncReader]).
    - *Group locks* ([src/lock/], [src/nest/]).  [GroupLock] models the reentrant
      mutex and the reference-counted manager of group locks as interleavings of
      its critical sections; [GroupDispatch] uses the mutex per group it refines
      and models handlers that run under group and entity locks while other
      goroutines move entities between groups.
    - *Transactions* ([src/nest/rollback.go], [src/nest/transaction.go],
      [src/nest/msg.go]).  [Rollback] models the transaction around a handler:
      the undo log, what is captured of the entities, the commit record, the
      hooks and the batch of remote writes; [Atomicity] has its theorems, for
      every application that keeps the laws stated there.
    - *Lifetime and locks of entities* ([src/entity/entity_base.go],
      [src/entity/entity_guard.go], [src/nest/cast.go]).  [EntityLife] models the
      word of references and flags and its use by dispatches, casts and
      removals, one atomic operation at a time; [LockOrder] the order in which
      goroutines lock entities.
    - *Remote entities* ([src/entity/remote_protocol.go],
      [src/entity/entity_remote.go]).  [RemoteProto] models versions and
      ownership, updated by compare-and-swap loops, and the commits that are
      sent to their storage.
    - *Caches* ([src/cache/], [src/entity/remote_snapshot.go]).  [ClockCache] models
      the sharded local cache with its clock eviction; [ReadThrough] the store
      that loads misses once for all who wait, over an interface of local stores
      ([Store], [LossyStore]) that the clock cache discharges; [SnapshotCache] the
      cache of remote snapshots built on both, with updates by deltas and
      goroutines that wait for a version.
    - *Timers* ([src/timer/]).  [Timer] models the scheduler with its deferred
      operations, on [Heap], the heap operations of the Go library over an
      interface with its laws.
    - *Checkpoints* ([src/checkpoint/]).  [Persist] models dirty masks, patches
      and save items, [Flusher] the save journal, the reduction of a batch to
      one operation per document and its writing with retries and requeueing,
      [Loader] the order and the levels in which collections are loaded.
      [TopoSort] is the queue loop that the loader and the component orders
      share, against an interface for tables of in-degrees.
      [RedisWal] models the Redis log of snapshots: durable submission,
      acknowledgement, replay and the expiry of keys; [RedisWalQueue] its queues and workers.
      [Checkpoint] puts them together: submitting, starting and stopping.
    - *Workers and messages* ([src/worker/], [src/misc/mpsc_queue.go],
      [src/nest/dispatcher.go]).  [WorkerQueue] models the lock-free queue of a
      worker and the goroutine that drains it, one atomic operation at a time,
      [WorkerPool] the pool of workers keyed by entity on top of it,
      [Dispatcher] the admission of messages and the queue of delayed ones with
      its loop, [Splice] the splitting of a broadcast into batches.  [Requests]
      follows requests and their reply channels through clients, workers,
      requeues and group transitions ([src/nest/client.go],
      [src/nest/nest_dispatch.go], [src/nest/group_transition.go]).
    - *Maps* ([src/map/]).  [IMap] has the interface as a class, its contract
      against finite maps, and the list and sharded implementations; [FastMap] is
      the open-addressing one.
    - *Structs in Redis* ([src/cache/ref_hmap.go]).  [RefHMap] models the mapping
      of struct types to hashes, the encoding of values, and setting, getting and
      deleting with the script or without it; [RefHMapProofs] has its theorems.
    - *Start and stop* ([src/lifecycle/], [src/entity/entity_base.go]).
      [Lifecycle] models groups of managers and the hooks of the process,
      [Components] the components of an entity on the same callbacks.
    - *Configuration tables* ([src/configdata/]).  [ConfigData] models tables and
      their indexes, definitions with dependencies, reloads, rollbacks and the
      listeners they ask.
    - *Rate limits* ([src/security/ratelimit.go]).  [RateLimit] models the token
      buckets, with calls that read the clock before they take the mutex.

    [Prelude] has what all files share: results, machine integers, sorting,
    tactics, hints and lemmas.

    ** Correspondence

    A Go struct is a [Record] with the fields of the source, prefixed by its
    initials; a method [T.M] is a definition [M] or [T_M] that takes the
    receiver and returns it with the results.  [(T, error)] is [result E T],
    errors being the sentinels the code compares.  Integers are [Z] with the
    wrap-around of their type written out ([u64!], [wrapi64]); maps are [gmap],
    slices lists, byte slices [list byte]; a pointer that is shared is a handle
    into a heap.  Clock readings, random numbers, the network, the disk, the
    storage backend and application callbacks are arguments.  Loops that are not
    structural take fuel: the probes of [FastMap] one unit per slot, the queue of
    [TopoSort] one unit per node, the chunking of [Flusher] one per item and the
    eviction of [ClockCache] one per record and entry, and the theorems show that
    it does not run out.  Schedules of [IdGen] are arbitrary; a goroutine that is
    not kept out of the critical section needs at most fourteen steps.  [Worker_exactly_once] and [Pool_same_key_in_order] hold for
    runs of fewer than 2^62 events, after which the 64-bit counters of the ring
    could wrap.

    ** What is shown

    Each theorem's comment states the conditions it needs, and names the theorem
    that shows what happens without them where there is one.

    - Values survive the way to the client: round trips of frames, datagrams,
      control messages and deltas, reassembly in any order with repetitions, and
      [Replicator.Replicator_end_to_end], which composes them.
    - State stays well formed over every sequence of calls: snapshots, the
      session history, the replicator and its transport, the ring, the streams,
      the component order.
    - Streams survive crashes: [SyncStream.Journal_crash_recovery],
      [FileJournal.FileHistoryJournal_refines] and
      [FileJournal.FileHistoryJournal_Record_atomic]; a resynchronised consumer
      converges ([SyncStream.Recover_converges]).
    - Saves are not lost on the way to storage:
      [Persist.DirtyTracker_bit_survives], [Flusher.processBatch_no_lost_save],
      [Checkpoint.Checkpoint_Submit_accounts], and [Flusher.dedup_sequential],
      the equivalence of a flushed batch with its items in order.
    - Messages that a worker accepts are handled once and in order ([WorkerQueue.Worker_exactly_once],
      [WorkerQueue.Worker_drains], [WorkerPool.Pool_same_key_in_order]), a
      broadcast reaches everyone once ([Splice.ForEachSpliceBatch_exact]), and
      delayed messages wait for their time within a bounded queue
      ([Dispatcher.Dispatcher_delay_queue]); every request is answered once
      ([Requests.Requests_answered_once]).
    - The maps are finite maps: [FastMap.FastMap_refines],
      [IMap.SafeMaps_refine].
    - A reload of the configuration happens as a whole or not at all
      ([ConfigData.Reload_transactional]) and the snapshot in use is complete
      ([ConfigData.ConfigStore_complete]).
    - Start and stop are nested: [Lifecycle.ManagerGroup_orderly],
      [Components.Components_nested], [Checkpoint.Checkpoint_orderly].
    - A struct read back from Redis is the struct that was set
      ([RefHMapProofs.RefHMap_Set_Get]) and a deleted one is gone
      ([RefHMapProofs.RefHMap_Set_Delete]); a rate limit is kept
      ([RateLimit.RateLimiter_bounded])
      as far as calls do not wait long for the lock.
    - Subscribers see what the server has: [Subscription.subscribers_in_step],
      [Subscription.FlushSubject_converges], and no mark of a change is lost
      ([SubjectSync.SubjectSync_mark_survives]).
    - Handlers are isolated: [GroupLock.group_locks_refine],
      [GroupDispatch.handlers_exclusive], [GroupDispatch.membership_stable];
      without broadcasts they never deadlock on entities
      ([LockOrder.lock_order_deadlock_free]), and they see live
      entities only ([EntityLife.handler_sees_live_entity]), which are cleared
      exactly once ([EntityLife.entity_cleared_once]).
    - Transactions are atomic ([Atomicity.invokeWithTransaction_atomic]) and end
      their batch of remote writes once ([Atomicity.remote_batch_protocol]);
      versions and ownership of a remote entity are linearizable
      ([RemoteProto.remote_base_linearizable]).
    - The cache of remote snapshots tells the truth
      ([SnapshotCache.RemoteSnapshotCache_truthful]) and wakes those who wait
      ([SnapshotCache.RemoteSnapshotCache_no_lost_wakeup]); below it, loads are
      coalesced ([ReadThrough.ReadThroughStore_single_flight]) and the clock cache
      is a bounded queue of live entries
      ([ClockCache.AtomicLocalStore_refines_queues],
      [ClockCache.AtomicLocalStore_bounded]).
    - Every due timer fires exactly once ([Timer.Tick_exact]), and the reported
      changes describe the persistent timers ([Timer.Scheduler_consistent]).
    - Records that were reported durable are replayed unless they are replaced,
      acknowledged or expire first
      ([RedisWal.SubmitDurable_replayed]), exactly once
      ([RedisWal.replayShard_exact]).
    - Identifiers are unique under every interleaving ([IdGen.IDGen_unique]), the
      generator is never left locked ([IdGen.IDGen_lone_progress]), and identifiers
      decode to what they were built from; dependency orders are exact.
    - Where the code does not do what it means to, a theorem evaluates the model
      on the input that shows it: sections of [Session], [Delta], [Codec],
      [Datagram], [FileJournal], [SyncStream], [EntityId], [CompSort], [Flusher],
      [RedisWal], [Subscription], [GroupDispatch], [Timer], [Atomicity],
      [LockOrder], [ClockCache], [ReadThrough], [SnapshotCache], [WorkerQueue],
      [Dispatcher], [Requests], [RefHMapProofs], [Lifecycle], [ConfigData] and
      [RateLimit] end with these.

    ** Not modelled

    Goroutines are modelled where interleavings matter to a theorem
    ([IdGen], [GroupLock], [GroupDispatch], [RedisWalQueue], [RemoteProto],
    [EntityLife], [LockOrder], [ReadThrough], [SnapshotCache], [WorkerQueue],
    [WorkerPool], [Dispatcher], [Requests], [RateLimit], the trackers of [Persist]);
    elsewhere a method
    runs from its first to its last step, as it does under its mutex.  Metrics
    and logging are left out.  The packages that wrap clients of external
    services (etcd, MongoDB, NATS, Redis, HTTP), the message bus on them,
    process assembly, administration and code generation are mostly calls to
    code outside the repository and are not modelled. *)

From stdpp Require Import base list gmap strings sorting.
From Stdlib Require Import ZArith Lia.
From Stdlib Require Strings.Byte.

(** ** Error results

    Go functions that return [(T, error)] are modelled as [result E T]; a
    wrapped error ([fmt.Errorf "%w: ..."]) is identified with the sentinel it
    wraps, which is what callers test with [errors.Is]. *)
Inductive result (E A : Type) : Type :=
| Ok (a : A)
| Err (e : E).

Arguments Ok {E A} a.
Arguments Err {E A} e.

#[export] Instance result_ret {E} : MRet (result E) := fun A a => Ok a.
#[export] Instance result_bind {E} : MBind (result E) := fun A B f m =>
  match m with
  | Ok a => f a
  | Err e => Err e
  end.

(** A loop that threads a state and stops at the first error. *)
Fixpoint foldM {E S D : Type} (step : S -> D -> result E S) (s : S) (ds : list D)
    : result E S :=
  match ds with
  | [] => Ok s
  | d :: ds' => s' ← step s d; foldM step s' ds'
  end.

Definition is_ok {E A} (r : result E A) : bool :=
  match r with Ok _ => true | Err _ => false end.

(** [if cond { return err }]: the early return of a guard. *)
Definition reject_if {E} (cond : bool) (e : E) : result E unit :=
  if cond then Err e else Ok tt.

(** ** Machine integers *)

Declare Scope gint_scope.
Delimit Scope gint_scope with gint.

(** Conversion to an unsigned type of [w] bits wraps around. *)
Definition wrapu (w z : Z) : Z := (z mod 2 ^ w)%Z.

Notation "'u8!' z" := (wrapu 8 z) (at level 9, z at level 9) : gint_scope.
Notation "'u16!' z" := (wrapu 16 z) (at level 9, z at level 9) : gint_scope.
Notation "'u32!' z" := (wrapu 32 z) (at level 9, z at level 9) : gint_scope.
Notation "'u64!' z" := (wrapu 64 z) (at level 9, z at level 9) : gint_scope.
Open Scope gint_scope.

(** Two's complement wrap-around of Go's 64-bit [int]/[int64]. *)
Definition wrapi64 (z : Z) : Z := ((z + 2 ^ 63) mod 2 ^ 64 - 2 ^ 63)%Z.

(** The values of an unsigned type of [w] bits. *)
Definition in_u (w z : Z) : Prop := (0 <= z < 2 ^ w)%Z.

#[export] Instance in_u_dec w z : Decision (in_u w z).
Proof. unfold in_u. apply _. Defined.

(** Go's [len]. *)
Definition len {A} (l : list A) : Z := Z.of_nat (length l).

#[global] Arguments wrapu : simpl never.
#[global] Arguments wrapi64 : simpl never.
#[global] Arguments len : simpl never.

(** ** [sort.Slice]

    The library sort is only specified up to the order of elements the
    comparison does not separate; the model is the stable insertion sort. *)
Section Sorting.
Context {A : Type} (less : A -> A -> bool).

Fixpoint insert_by (x : A) (l : list A) : list A :=
  match l with
  | [] => [x]
  | y :: l' => if less y x then y :: insert_by x l' else x :: y :: l'
  end.

Definition sort_slice (l : list A) : list A := foldr insert_by [] l.

(** Strictly increasing for [less]. *)
Definition strictly_sorted (l : list A) : Prop :=
  StronglySorted (fun a b => less a b = true) l.

End Sorting.

(** ** In-place insertion sort

    [for i := 1; i < len(s); i++ { for j := i; j > 0 && key(s[j]) < key(s[j-1]);
    j-- { swap } }]: the inner loop exchanges the element at [j] with its left
    neighbour while it is smaller. *)
Section InPlace.
Context {A : Type} (key : A -> Z).

Fixpoint sink_by (j : nat) (s : list A) : list A :=
  match j with
  | O => s
  | S j' =>
      match s !! j, s !! j' with
      | Some x, Some y =>
          if (key x <? key y)%Z then sink_by j' (<[j' := x]> (<[j := y]> s)) else s
      | _, _ => s
      end
  end.

Definition insertion_sort (s : list A) : list A :=
  foldl (fun acc i => sink_by i acc) s (seq 1 (length s - 1)).

Definition key_le (a b : A) : Prop := (key a <= key b)%Z.

End InPlace.

(** A comparison of [sort.Slice] that is a strict weak order. *)
Class StrictWeak {A} (less : A -> A -> bool) : Prop := {
  sw_irrefl : forall x, less x x = false;
  sw_trans : forall x y z, less x y = true -> less y z = true -> less x z = true;
  sw_incomp : forall x y z, less x y = false -> less y z = false -> less x z = false
}.

(** ** Tactics *)

(** Runs a bind whose first computation is known. *)
Ltac run_bind := cbn [mbind result_bind mret result_ret].

(** Splits every hypothesis of the form [m ≫= f = Ok a]. *)
Ltac ok_inv :=
  repeat match goal with
  | H : context [mbind _ ?m = Ok _] |- _ =>
      let E := fresh "E" in
      destruct m eqn:E; cbn [mbind result_bind] in H; [|discriminate H]
  | H : Ok _ = Ok _ |- _ => injection H as H; try subst
  | H : Err _ = Ok _ |- _ => discriminate H
  | H : (if ?b then Err _ else _) = Ok _ |- _ =>
      let E := fresh "E" in destruct b eqn:E; [discriminate H|]
  | H : reject_if ?b _ = Ok _ |- _ =>
      let E := fresh "E" in unfold reject_if in H; destruct b eqn:E; [discriminate H|]; clear H
  end.

(** Turns boolean comparisons on [Z] in the context into propositions. *)
Ltac bool_to_prop :=
  repeat match goal with
  | H : (_ || _) = false |- _ => apply orb_false_iff in H; destruct H
  | H : (_ && _) = true |- _ => apply andb_true_iff in H; destruct H
  | H : negb _ = true |- _ => apply negb_true_iff in H
  | H : negb _ = false |- _ => apply negb_false_iff in H
  | H : (_ <? _)%Z = true |- _ => apply Z.ltb_lt in H
  | H : (_ <? _)%Z = false |- _ => apply Z.ltb_ge in H
  | H : (_ <=? _)%Z = true |- _ => apply Z.leb_le in H
  | H : (_ <=? _)%Z = false |- _ => apply Z.leb_gt in H
  | H : (_ =? _)%Z = true |- _ => apply Z.eqb_eq in H
  | H : (_ =? _)%Z = false |- _ => apply Z.eqb_neq in H
  | H : bool_decide _ = true |- _ => apply bool_decide_eq_true in H
  | H : bool_decide _ = false |- _ => apply bool_decide_eq_false in H
  end.

(** Proves a closed decidable proposition by evaluation. *)
Ltac by_evaluation := refine (bool_decide_eq_true_1 _ _); vm_compute; reflexivity.

Create HintDb cube discriminated.
Create Rewrite HintDb clone.
#[export] Hint Constants Opaque : cube.
#[export] Hint Variables Opaque : cube.

(** ** Lemmas *)

Lemma foldM_app {E S D} (step : S -> D -> result E S) s ds es :
  foldM step s (ds ++ es) = s' ← foldM step s ds; foldM step s' es.
Proof.
  revert s. induction ds as [|d ds IH]; intros s; simpl; [done|].
  destruct (step s d); simpl; [apply IH|done].
Qed.

Lemma wrapu_small w z : in_u w z -> wrapu w z = z.
Proof. intros [??]. unfold wrapu. by apply Z.mod_small. Qed.

Lemma wrapu_range w z : (0 <= w)%Z -> in_u w (wrapu w z).
Proof. intros. unfold wrapu, in_u. apply Z.mod_pos_bound. lia. Qed.

Lemma wrapi64_small z : (- 2 ^ 63 <= z < 2 ^ 63)%Z -> wrapi64 z = z.
Proof. intros. unfold wrapi64. rewrite Z.mod_small; lia. Qed.

Lemma len_nonneg {A} (l : list A) : (0 <= len l)%Z.
Proof. unfold len. lia. Qed.

Lemma to_nat_len {A} (l : list A) : Z.to_nat (len l) = length l.
Proof. unfold len. lia. Qed.

Lemma len_nil {A} : len (@nil A) = 0%Z.
Proof. done. Qed.

Lemma len_cons {A} (x : A) l : len (x :: l) = (1 + len l)%Z.
Proof. unfold len. cbn. lia. Qed.

Lemma len_app {A} (l k : list A) : len (l ++ k) = (len l + len k)%Z.
Proof. unfold len. rewrite length_app. lia. Qed.

Lemma len_insert {A} i (x : A) l : len (<[i := x]> l) = len l.
Proof. unfold len. by rewrite length_insert. Qed.

Lemma bind_ok {E A B} (m : result E A) (k : A -> result E B) b :
  (m ≫= k) = Ok b <-> exists a, m = Ok a /\ k a = Ok b.
Proof. destruct m; cbn; naive_solver. Qed.

Lemma reject_bind {E A} b (e : E) (k : unit -> result E A) a :
  (reject_if b e ≫= k) = Ok a <-> b = false /\ k tt = Ok a.
Proof. destruct b; cbn; naive_solver. Qed.

Lemma reject_ok {E} b (e : E) u : reject_if b e = Ok u <-> b = false.
Proof. destruct b, u; cbn; naive_solver. Qed.

Lemma Sorted_drop {A} (R : A -> A -> Prop) n l : Sorted R l -> Sorted R (drop n l).
Proof.
  intros Hs. revert n. induction Hs as [|x l Hs IH Hh]; intros [|n]; cbn; try by constructor.
  apply IH.
Qed.

Lemma Sorted_snoc_last {A} (R : A -> A -> Prop) l x :
  Sorted R l -> (forall y, last l = Some y -> R y x) -> Sorted R (l ++ [x]).
Proof.
  induction 1 as [|y l Hs IH Hh]; intros Hl; cbn; [repeat constructor|].
  destruct l as [|z l]; cbn in *.
  - constructor; [by repeat constructor|]. constructor. by apply Hl.
  - constructor; [by apply IH|]. inversion Hh; subst. by constructor.
Qed.

Lemma last_drop {A} n (l : list A) : (n < length l)%nat -> last (drop n l) = last l.
Proof.
  revert n. induction l as [|x l IH]; intros [|n] Hn; cbn in *; [lia|lia|done|].
  rewrite IH by lia. destruct l; [cbn in Hn; lia|done].
Qed.

Lemma last_drop_Some {A} n (l : list A) x : last (drop n l) = Some x -> last l = Some x.
Proof.
  intros Hl. destruct (decide (n < length l)%nat); [by rewrite <-(last_drop n)|].
  by rewrite drop_ge in Hl by lia.
Qed.

Lemma len_drop {A} n (l : list A) : len (drop n l) = Z.max 0 (len l - Z.of_nat n)%Z.
Proof. unfold len. rewrite length_drop. lia. Qed.

Lemma wrapu_offset z : (exists k, u64! z = z + k * 2 ^ 64)%Z.
Proof. exists (- (z / 2 ^ 64))%Z. unfold wrapu. rewrite Z.mod_eq by lia. lia. Qed.

#[export] Hint Resolve wrapu_range len_nonneg : cube.

Section SortingLemmas.
Context {A : Type} (less : A -> A -> bool) `{!StrictWeak less}.
Implicit Types (x y : A) (l k : list A).

Lemma insert_by_perm x l : insert_by less x l ≡ₚ x :: l.
Proof.
  induction l as [|y l IH]; simpl; [done|].
  case_match; [|done]. rewrite IH. by constructor.
Qed.

Lemma sort_slice_perm l : sort_slice less l ≡ₚ l.
Proof.
  induction l as [|x l IH]; simpl; [done|].
  by rewrite insert_by_perm, IH.
Qed.

Lemma length_sort_slice l : length (sort_slice less l) = length l.
Proof. by rewrite sort_slice_perm. Qed.

Lemma less_asym x y : less x y = true -> less y x = false.
Proof.
  intros Hxy. destruct (less y x) eqn:Hyx; [|done].
  by rewrite <-(sw_irrefl x), (sw_trans _ _ _ Hxy Hyx).
Qed.

(** An element that is below every element of [l] stays in front. *)
Lemma insert_by_below x l :
  Forall (fun y => less x y = true) l -> insert_by less x l = x :: l.
Proof.
  intros Hall. destruct l as [|y l]; [done|]. simpl.
  apply Forall_cons in Hall as [Hxy _]. by rewrite (less_asym _ _ Hxy).
Qed.

Lemma sort_slice_sorted_id l : strictly_sorted less l -> sort_slice less l = l.
Proof.
  induction 1 as [|x l _ IH Hall]; [done|].
  simpl. rewrite IH. by apply insert_by_below.
Qed.

Lemma insert_by_sorted x l :
  StronglySorted (fun a b => less b a = false) l ->
  StronglySorted (fun a b => less b a = false) (insert_by less x l).
Proof.
  induction 1 as [|y l Hs IH Hall]; simpl; [repeat constructor|].
  destruct (less y x) eqn:Hyx; constructor; [done| |by constructor|].
  - rewrite insert_by_perm. constructor; [by apply less_asym|done].
  - constructor; [done|]. eapply Forall_impl; [exact Hall|].
    simpl. intros z Hz. by eapply sw_incomp.
Qed.

Lemma sort_slice_sorted l :
  StronglySorted (fun a b => less b a = false) (sort_slice less l).
Proof. induction l; simpl; [constructor|by apply insert_by_sorted]. Qed.

(** Sorting a permutation of a strictly sorted list recovers the list. *)
Lemma sort_slice_unique l k :
  (forall x y, x ∈ k -> y ∈ k -> less x y = false -> less y x = false -> x = y) ->
  strictly_sorted less k -> l ≡ₚ k -> sort_slice less l = k.
Proof.
  intros Htot Hk Hp.
  assert (Hs : StronglySorted (fun a b => less b a = false) (sort_slice less l))
    by apply sort_slice_sorted.
  assert (Hp' : sort_slice less l ≡ₚ k) by (by rewrite sort_slice_perm).
  clear Hp. revert Hs Hp'. generalize (sort_slice less l) as m. clear l. intros m.
  revert m. induction Hk as [|x k Hk IH Hall]; intros m Hm Hp.
  { by apply Permutation_nil_r in Hp. }
  destruct m as [|y m]; [by apply Permutation_nil_cons in Hp|].
  assert (y = x) as ->.
  { apply StronglySorted_inv in Hm as [_ Hy].
    assert (Hyin : y ∈ x :: k) by (rewrite <-Hp; left).
    assert (Hxin : x ∈ y :: m) by (rewrite Hp; left).
    apply elem_of_cons in Hyin as [|Hyin]; [done|].
    apply elem_of_cons in Hxin as [|Hxin]; [done|].
    rewrite Forall_forall in Hy, Hall.
    pose proof (Hy _ Hxin) as H1. pose proof (Hall _ Hyin) as H2. congruence. }
  f_equal. apply IH.
  - intros. apply Htot; [by right|by right|done|done].
  - by apply StronglySorted_inv in Hm as [? _].
  - by apply Permutation_cons_inv in Hp.
Qed.

End SortingLemmas.

(** ** Lemmas: insertion sort *)
Section InPlaceLemmas.
Context {A : Type} (key : A -> Z).
Implicit Types (x y z : A) (P Q l : list A).
Local Open Scope Z_scope.

Lemma sorted_after P y x Q :
  StronglySorted (key_le key) (P ++ y :: Q) -> key_le key y x -> Forall (key_le key x) Q ->
  StronglySorted (key_le key) (P ++ y :: x :: Q).
Proof.
  intros Hs Hyx HQ. induction P as [|z P IH]; cbn in *; apply StronglySorted_inv in Hs as [Hs Hz].
  - constructor; [by constructor|]. by constructor.
  - constructor; [by apply IH|]. rewrite !Forall_app, !Forall_cons in *.
    unfold key_le in *. naive_solver lia.
Qed.

(** The inner loop sinks [x] into the sorted list to its left; [Q] are the
    elements it has passed. *)
Lemma sink_by_spec P x Q rest :
  StronglySorted (key_le key) (P ++ Q) -> Forall (fun q => key x < key q) Q ->
  exists R, sink_by key (length P) (P ++ x :: Q ++ rest) = R ++ rest
    /\ StronglySorted (key_le key) R /\ R ≡ₚ x :: P ++ Q.
Proof.
  revert Q. induction P as [|y P IH] using rev_ind; intros Q Hs Hq.
  { exists (x :: Q). split_and!; [done| |done]. constructor; [done|].
    eapply Forall_impl; [exact Hq|]. unfold key_le. cbn. lia. }
  rewrite length_app. cbn [length]. rewrite Nat.add_1_r. cbn [sink_by].
  rewrite <-app_assoc in Hs |- *. cbn [app].
  assert (Hx : (P ++ y :: x :: Q ++ rest) !! S (length P) = Some x).
  { rewrite lookup_app_r by lia. by replace (S (length P) - length P)%nat with 1%nat by lia. }
  assert (Hy : (P ++ y :: x :: Q ++ rest) !! length P = Some y).
  { by rewrite lookup_app_r, Nat.sub_diag by lia. }
  rewrite Hx, Hy. destruct (Z.ltb_spec (key x) (key y)) as [Hlt|Hge].
  - destruct (IH (y :: Q)) as (R & HR & HRs & HRp); [done|by constructor|].
    exists R. split_and!; [|done|].
    + rewrite <-HR. f_equal. rewrite insert_app_r_alt by lia.
      replace (S (length P) - length P)%nat with 1%nat by lia. cbn [list_insert insert].
      by rewrite insert_app_r_alt, Nat.sub_diag by lia.
    + rewrite HRp. cbn. by rewrite <-app_assoc.
  - exists (P ++ y :: x :: Q). split_and!; [by rewrite <-app_assoc| |].
    + apply sorted_after; [done|done|]. eapply Forall_impl; [exact Hq|]. cbn. unfold key_le. lia.
    + rewrite <-app_assoc. cbn. by rewrite (Permutation_swap x y), <-Permutation_middle.
Qed.

(** The outer loop: the first [i] elements are sorted, the rest untouched. *)
Lemma insertion_sort_loop l k :
  (k < length l)%nat ->
  exists R, foldl (fun acc i => sink_by key i acc) l (seq 1 k) = R ++ drop (S k) l
    /\ StronglySorted (key_le key) R /\ R ≡ₚ take (S k) l.
Proof.
  induction k as [|k IH]; intros Hk.
  { destruct l as [|x l]; [cbn in Hk; lia|]. exists [x].
    split_and!; [done|repeat constructor|done]. }
  destruct IH as (R & HR & Hs & Hp); [lia|].
  rewrite seq_S, foldl_app, HR. cbn [foldl].
  destruct (lookup_lt_is_Some_2 l (S k)) as [x Hx]; [done|].
  rewrite (drop_S _ _ _ Hx).
  assert (HlenR : length R = (1 + k)%nat) by (rewrite Hp, length_take; lia).
  destruct (sink_by_spec R x [] (drop (S (S k)) l)) as (R' & HR' & Hs' & Hp').
  { by rewrite app_nil_r. }
  { done. }
  exists R'. rewrite <-HlenR. split_and!; [done|done|].
  rewrite Hp', app_nil_r, Hp, (take_S_r _ _ _ Hx). by rewrite <-Permutation_cons_append.
Qed.

Lemma insertion_sort_spec l :
  StronglySorted (key_le key) (insertion_sort key l) /\ insertion_sort key l ≡ₚ l.
Proof.
  destruct l as [|x l]; [by split; [constructor|]|]. unfold insertion_sort.
  destruct (insertion_sort_loop (x :: l) (length (x :: l) - 1)) as (R & -> & Hs & Hp); [cbn; lia|].
  replace (S (length (x :: l) - 1)) with (length (x :: l)) in * by (cbn; lia).
  rewrite drop_all, app_nil_r. split; [done|]. by rewrite Hp, take_ge.
Qed.

End InPlaceLemmas.

(** ** Maps built from lists of keyed values *)
Section Keyed.
Context {K A : Type} `{Countable K} (key : A -> K).
Implicit Types (l : list A) (x : A) (k : K).

Definition keyed_map l : gmap K A := list_to_map ((fun x => (key x, x)) <$> l).

Lemma keyed_map_cons x l : keyed_map (x :: l) = <[key x := x]> (keyed_map l).
Proof. done. Qed.

Lemma keyed_pairs_keys l : ((fun x => (key x, x)) <$> l).*1 = key <$> l.
Proof. by rewrite <-list_fmap_compose. Qed.

Lemma keyed_pairs_values l : ((fun x => (key x, x)) <$> l).*2 = l.
Proof. rewrite <-list_fmap_compose. apply list_fmap_id. Qed.

Lemma keyed_map_lookup l k x :
  NoDup (key <$> l) -> keyed_map l !! k = Some x <-> x ∈ l /\ key x = k.
Proof.
  intros Hnd. unfold keyed_map. rewrite <-elem_of_list_to_map by (by rewrite keyed_pairs_keys).
  rewrite list_elem_of_fmap. split; [|by intros [? <-]; eauto].
  by intros (y & [= -> ->] & Hy).
Qed.

Lemma keyed_map_lookup_None l k : keyed_map l !! k = None <-> k ∉ key <$> l.
Proof. unfold keyed_map. by rewrite <-not_elem_of_list_to_map, keyed_pairs_keys. Qed.

Lemma keyed_map_values l : NoDup (key <$> l) -> (map_to_list (keyed_map l)).*2 ≡ₚ l.
Proof.
  intros Hnd. unfold keyed_map. rewrite map_to_list_to_map by (by rewrite keyed_pairs_keys).
  by rewrite keyed_pairs_values.
Qed.

Lemma dom_keyed_map l : dom (keyed_map l) = list_to_set (C := gset K) (key <$> l).
Proof. unfold keyed_map. by rewrite dom_list_to_map_L, keyed_pairs_keys. Qed.

(** Loading a slice into a Go map, left to right. *)
Lemma keyed_map_load l m :
  NoDup (key <$> l) -> foldl (fun m x => <[key x := x]> m) m l = keyed_map l ∪ m.
Proof.
  revert m. induction l as [|x l IH]; intros m Hnd; csimpl.
  { unfold keyed_map. csimpl. by rewrite left_id_L by apply _. }
  apply NoDup_cons in Hnd as [Hx Hnd]. rewrite IH, keyed_map_cons by done.
  rewrite <-insert_union_l, insert_union_r; [done|]. by apply keyed_map_lookup_None.
Qed.

Lemma keyed_map_load_empty l :
  NoDup (key <$> l) -> foldl (fun m x => <[key x := x]> m) ∅ l = keyed_map l.
Proof. intros. rewrite keyed_map_load by done. apply (right_id_L ∅ (∪)). Qed.

Lemma sorted_NoDup_keys (less : A -> A -> bool) l :
  (forall a b, less a b = true -> key a <> key b) ->
  strictly_sorted less l -> NoDup (key <$> l).
Proof.
  intros Hless. induction 1 as [|x l _ IH Hall]; csimpl; constructor; [|done].
  intros (y & Heq & Hy)%list_elem_of_fmap. rewrite Forall_forall in Hall.
  by eapply Hless; [apply Hall|].
Qed.

Lemma keyed_map_perm l l' : NoDup (key <$> l) -> l ≡ₚ l' -> keyed_map l = keyed_map l'.
Proof.
  intros Hnd Hp. apply list_to_map_proper; [by rewrite keyed_pairs_keys|]. by rewrite Hp.
Qed.

(** Appending, overwriting and removing one element. *)
Lemma keyed_map_snoc l x :
  NoDup (key <$> l) -> keyed_map l !! key x = None ->
  keyed_map (l ++ [x]) = <[key x := x]> (keyed_map l) /\ NoDup (key <$> l ++ [x]).
Proof.
  intros Hnd Hx%keyed_map_lookup_None.
  assert (Hnd' : NoDup (key <$> x :: l)) by (by constructor).
  assert (Hp : l ++ [x] ≡ₚ x :: l) by (symmetry; apply Permutation_cons_append).
  assert (Hnd2 : NoDup (key <$> l ++ [x])) by (by rewrite Hp).
  split; [|done]. by rewrite (keyed_map_perm _ _ Hnd2 Hp).
Qed.

Lemma keyed_map_update l i x y :
  NoDup (key <$> l) -> l !! i = Some x -> key y = key x ->
  keyed_map (<[i := y]> l) = <[key x := y]> (keyed_map l) /\ NoDup (key <$> <[i := y]> l).
Proof.
  intros Hnd Hi Hk.
  assert (Hkeys : key <$> <[i := y]> l = key <$> l).
  { rewrite list_fmap_insert, Hk. apply list_insert_id. by rewrite list_lookup_fmap, Hi. }
  split; [|by rewrite Hkeys]. apply map_eq. intros k. apply option_eq. intros z.
  rewrite keyed_map_lookup by (by rewrite Hkeys).
  assert (Hlt : (i < length l)%nat) by (by eapply lookup_lt_Some).
  destruct (decide (k = key x)) as [->|Hne].
  - rewrite lookup_insert_eq. split.
    + intros [[j Hj]%list_elem_of_lookup Hz]. destruct (decide (j = i)) as [->|Hji].
      { by rewrite list_lookup_insert_eq in Hj. }
      rewrite list_lookup_insert_ne in Hj by done. exfalso. apply Hji.
      eapply NoDup_lookup; [exact Hnd| |]; rewrite list_lookup_fmap; [by rewrite Hj|rewrite Hi; cbn; by rewrite Hz].
    + intros [= <-]. split; [|done]. eapply list_elem_of_lookup_2. by apply list_lookup_insert_eq.
  - rewrite lookup_insert_ne, keyed_map_lookup by done. split; intros [[j Hj]%list_elem_of_lookup Hz].
    + destruct (decide (j = i)) as [->|Hji].
      { rewrite list_lookup_insert_eq in Hj by done. naive_solver. }
      rewrite list_lookup_insert_ne in Hj by done. split; [by eapply list_elem_of_lookup_2|done].
    + split; [|done]. apply list_elem_of_lookup_2 with j.
      destruct (decide (j = i)) as [->|Hji]; [naive_solver|]. by rewrite list_lookup_insert_ne.
Qed.

Lemma keyed_map_remove l i x :
  NoDup (key <$> l) -> l !! i = Some x ->
  keyed_map (take i l ++ drop (S i) l) = delete (key x) (keyed_map l)
  /\ NoDup (key <$> take i l ++ drop (S i) l).
Proof.
  intros Hnd Hi. pose proof (take_drop_middle l i x Hi) as Hl.
  assert (Hp : l ≡ₚ x :: (take i l ++ drop (S i) l)).
  { rewrite <-Hl at 1. symmetry. apply Permutation_middle. }
  rewrite (keyed_map_perm _ _ Hnd Hp), keyed_map_cons.
  rewrite Hp in Hnd. csimpl in Hnd. apply NoDup_cons in Hnd as [Hx Hnd].
  rewrite delete_insert_id; [done|]. by apply keyed_map_lookup_None.
Qed.

Lemma keyed_map_filter (P : K -> Prop) `{!forall k, Decision (P k)} l :
  NoDup (key <$> l) ->
  keyed_map (filter (fun x => P (key x)) l) = filter (fun e => P e.1) (keyed_map l)
  /\ NoDup (key <$> filter (fun x => P (key x)) l).
Proof.
  intros Hnd. assert (Hnd' : NoDup (key <$> filter (fun x => P (key x)) l)).
  { eapply sublist_NoDup; [exact Hnd|]. apply fmap_sublist, sublist_filter. }
  split; [|done]. apply map_eq. intros k. apply option_eq. intros z.
  rewrite keyed_map_lookup, map_lookup_filter_Some, keyed_map_lookup, list_elem_of_filter by done.
  cbn. naive_solver.
Qed.

End Keyed.

(** Pointwise related maps list related values, up to order. *)
Lemma map_values_related {K A B} `{Countable K} (R : A -> B -> Prop)
    (m1 : gmap K A) (m2 : gmap K B) :
  (forall k, option_Forall2 R (m1 !! k) (m2 !! k)) ->
  exists l, (map_to_list m1).*2 ≡ₚ l /\ Forall2 R l (map_to_list m2).*2.
Proof.
  revert m1. induction m2 as [|i y m2 Hi IH] using map_ind; intros m1 Hrel.
  { exists []. assert (m1 = ∅) as ->.
    { apply map_eq. intros k. specialize (Hrel k). rewrite lookup_empty in Hrel.
      inversion Hrel. by rewrite lookup_empty. }
    by rewrite !map_to_list_empty. }
  pose proof (Hrel i) as Hx. rewrite lookup_insert_eq in Hx.
  inversion Hx as [x y' Hxy Hm1 |]; subst. symmetry in Hm1.
  destruct (IH (delete i m1)) as (l & Hl & HR).
  { intros k. specialize (Hrel k). destruct (decide (k = i)) as [->|].
    - rewrite lookup_delete_eq, Hi. constructor.
    - by rewrite lookup_delete_ne, lookup_insert_ne in * by done. }
  pose proof (map_to_list_insert m2 i y Hi) as H2.
  pose proof (map_to_list_delete m1 i x Hm1) as H1.
  assert (Hp2 : (map_to_list (<[i:=y]> m2)).*2 ≡ₚ y :: (map_to_list m2).*2) by (by rewrite H2).
  destruct (Permutation_Forall2 (P := flip R) (symmetry Hp2)
              (l2 := x :: l)) as (l' & Hl' & HR').
  { constructor; [done|]. by apply Forall2_flip. }
  exists l'. split; [|by apply Forall2_flip].
  rewrite <-H1. csimpl. by rewrite Hl, Hl'.
Qed.

(** A loop that rejects repeated keys with a set of the keys seen so far. *)
Section UniqueLoop.
Context {E K A : Type} `{Countable K} (key : A -> K) (P : A -> Prop).
Context (step : gset K -> A -> result E (gset K)).
Hypothesis step_spec : forall seen x seen',
  step seen x = Ok seen' <-> P x /\ (key x ∉ seen) /\ seen' = {[key x]} ∪ seen.

Lemma foldM_unique_from l seen s :
  foldM step seen l = Ok s ->
  Forall P l /\ NoDup (key <$> l) /\ (forall x, x ∈ l -> key x ∉ seen).
Proof.
  revert seen. induction l as [|x l IH]; intros seen; csimpl.
  { intros _. split_and!; [constructor..|]. by intros x ?%not_elem_of_nil. }
  intros Hs. destruct (step seen x) as [seen'|] eqn:Hx; [|done].
  apply step_spec in Hx as (HP & Hk & ->). apply IH in Hs as (HF & Hnd & Hseen).
  split_and!; [by constructor| |].
  - constructor; [|done]. intros (y & Hy & Hin)%list_elem_of_fmap.
    apply (Hseen y Hin). rewrite Hy. set_solver.
  - intros y [->|Hy]%elem_of_cons; [done|]. specialize (Hseen _ Hy). set_solver.
Qed.

Lemma foldM_unique_to l seen :
  Forall P l -> NoDup (key <$> l) -> (forall x, x ∈ l -> key x ∉ seen) ->
  exists s, foldM step seen l = Ok s.
Proof.
  intros HF. revert seen. induction HF as [|x l HP HF IH]; intros seen Hnd Hseen; csimpl.
  { by eexists. }
  csimpl in Hnd. apply NoDup_cons in Hnd as [Hx Hnd].
  assert (Hstep : step seen x = Ok ({[key x]} ∪ seen)).
  { apply step_spec. split_and!; [done|apply Hseen; left|done]. }
  rewrite Hstep. apply IH; [done|]. intros y Hy [Heq%elem_of_singleton|Hin]%elem_of_union.
  - apply Hx. rewrite <-Heq. by apply list_elem_of_fmap_2.
  - apply (Hseen y); [by right|done].
Qed.

End UniqueLoop.

(** ** Sums over a list *)

Lemma sum_insert {A} (f : A -> nat) (l : list A) i x y :
  l !! i = Some x -> (sum_list_with f (<[i := y]> l) + f x = sum_list_with f l + f y)%nat.
Proof.
  revert i. induction l as [|z l IH]; intros [|i] Hi; [done|done| |].
  - injection Hi as ->. cbn. lia.
  - specialize (IH i Hi). change (<[S i := y]> (z :: l)) with (z :: <[i := y]> l). cbn. lia.
Qed.

Lemma sum_at_least {A} (f : A -> nat) (l : list A) i x : l !! i = Some x -> (f x <= sum_list_with f l)%nat.
Proof.
  revert i. induction l as [|z l IH]; intros [|i] Hi; cbn in *; [done|done| |].
  - injection Hi as ->. lia.
  - specialize (IH i Hi). lia.
Qed.

Lemma sum_zero {A} (f : A -> nat) (l : list A) : (forall i x, l !! i = Some x -> f x = 0%nat) -> sum_list_with f l = 0%nat.
Proof.
  intros Hf. induction l as [|x l IH]; [done|]. cbn. rewrite (Hf 0%nat x eq_refl), IH; [done|].
  intros i y Hi. by apply (Hf (S i)).
Qed.
