(* ===== verification/ReplTypes.v ===== *)
(** * Data model of the replication package

    [src/replication/types.go]: limits, object references, snapshots, delta
    frames and replication policies.  Enumerations of the source are [uint8]
    types whose values may be out of range (they arrive from the wire), so they
    stay integers with named constants. *)

From stdpp Require Import base list gmap strings sorting.
From Stdlib Require Import ZArith Lia.
From Stdlib Require Strings.Byte.
From S2P Require Import Prelude.

Local Open Scope Z_scope.

Abbreviation byte := Corelib.Init.Byte.byte.

#[export] Instance byte_eq_dec : EqDecision byte := Byte.byte_eq_dec.

(** ** Errors of the package *)
Inductive rerror :=
| ErrInvalidObjectRef | ErrObjectNotFound | ErrObjectLimit | ErrComponentLimit
| ErrComponentTooLarge | ErrFrameTooLarge | ErrInvalidFrame | ErrBaselineMismatch
| ErrSnapshotNotFound | ErrSessionNotFound | ErrInvalidAck | ErrInvalidControl
| ErrPreparedFrameStale | ErrInvalidDatagram | ErrChecksumMismatch | ErrFragmentLimit
| ErrReassemblyCapacity | ErrTransportMissing | ErrReplicatorClosed | ErrSchemaFrozen
| ErrInvalidLOD
  (* errors without a sentinel, by the place that creates them *)
| ErrTypeRegistered | ErrNameRegistered | ErrSessionRegistered
  (* an error of a collaborator (transport, projector, selector) *)
| ErrExternal (code : Z).

#[export] Instance rerror_eq_dec : EqDecision rerror.
Proof. solve_decision. Defined.

Abbreviation res := (result rerror).

Definition ProtocolVersion : Z := 1.
Definition DefaultSnapshotRateHz : Z := 20.
Definition DefaultMaxDatagram : Z := 1200.

(** ** Limits *)
Record Limits := mkLimits {
  MaxObjects : Z;
  MaxComponentsPerObject : Z;
  MaxComponentBytes : Z;
  MaxFrameBytes : Z;
  MaxDatagramBytes : Z;
  MaxFragments : Z;
  MaxInflightFrames : Z
}.

Definition DefaultLimits : Limits := {|
  MaxObjects := 100;
  MaxComponentsPerObject := 64;
  MaxComponentBytes := Z.shiftl 64 10;
  MaxFrameBytes := Z.shiftl 4 20;
  MaxDatagramBytes := DefaultMaxDatagram;
  MaxFragments := 64;
  MaxInflightFrames := 32
|}.

Definition normalizeLimits (limits : Limits) : Limits :=
  let pick v d := if v <=? 0 then d else v in
  let defaults := DefaultLimits in
  {| MaxObjects := pick (MaxObjects limits) (MaxObjects defaults);
     MaxComponentsPerObject :=
       pick (MaxComponentsPerObject limits) (MaxComponentsPerObject defaults);
     MaxComponentBytes := pick (MaxComponentBytes limits) (MaxComponentBytes defaults);
     MaxFrameBytes := pick (MaxFrameBytes limits) (MaxFrameBytes defaults);
     MaxDatagramBytes := pick (MaxDatagramBytes limits) (MaxDatagramBytes defaults);
     MaxFragments := pick (MaxFragments limits) (MaxFragments defaults);
     MaxInflightFrames := pick (MaxInflightFrames limits) (MaxInflightFrames defaults) |}.

#[global] Arguments normalizeLimits : simpl never.

(** ** Policies *)
Definition LaneState := 1.
Definition LaneLifecycle := 2.
Definition LaneEvent := 3.
Definition LaneStatic := 4.

Definition ReliabilityUnreliableLatest := 1.
Definition ReliabilityUnreliableEvent := 2.
Definition ReliabilityReliableOrdered := 3.

Definition PriorityCosmetic := 1.
Definition PriorityLow := 2.
Definition PriorityNormal := 3.
Definition PriorityHigh := 4.
Definition PriorityCritical := 5.

Definition VisibilityPublic := 1.
Definition VisibilityOwner := 2.
Definition VisibilityTeam := 3.
Definition VisibilitySpectator := 4.
Definition VisibilityCustom := 5.

Definition CodecRaw := 1.
Definition CodecGeneratedBitset := 2.
Definition CodecGeneratedDelta := 3.

Record ReplicationPolicy := mkPolicy {
  rp_Lane : Z;
  rp_Reliability : Z;
  rp_Priority : Z;
  rp_MaxRateHz : Z;
  rp_Visibility : Z;
  rp_Codec : Z
}.

Definition ReplicationPolicy_validate (p : ReplicationPolicy) : res unit :=
  if (rp_Lane p <? LaneState) || (LaneStatic <? rp_Lane p)
  then Err ErrInvalidFrame else
  if (rp_Reliability p <? ReliabilityUnreliableLatest)
     || (ReliabilityReliableOrdered <? rp_Reliability p)
  then Err ErrInvalidFrame else
  if (rp_Priority p <? PriorityCosmetic) || (PriorityCritical <? rp_Priority p)
  then Err ErrInvalidFrame else
  if (rp_Visibility p <? VisibilityPublic) || (VisibilityCustom <? rp_Visibility p)
  then Err ErrInvalidFrame else
  if (rp_Codec p <? CodecRaw) || (CodecGeneratedDelta <? rp_Codec p)
  then Err ErrInvalidFrame else
  Ok tt.

(** ** Object references *)
Record ObjectRef := mkRef {
  or_ID : Z;
  or_Generation : Z
}.

#[export] Instance ObjectRef_eq_dec : EqDecision ObjectRef.
Proof. solve_decision. Defined.

#[export] Instance ObjectRef_countable : Countable ObjectRef.
Proof.
  refine (inj_countable' (fun r => (or_ID r, or_Generation r))
            (fun p => mkRef p.1 p.2) _).
  by intros [].
Defined.

Definition ObjectRef_Valid (r : ObjectRef) : bool :=
  negb (or_ID r =? 0) && negb (or_Generation r =? 0).

Definition ObjectRef_Less (r other : ObjectRef) : bool :=
  if negb (or_ID r =? or_ID other) then or_ID r <? or_ID other
  else or_Generation r <? or_Generation other.

(** ** Snapshots *)
Record SnapshotMeta := mkMeta {
  sm_RoomID : Z;
  sm_Epoch : Z;
  sm_Tick : Z;
  sm_SchemaVersion : Z
}.

#[export] Instance SnapshotMeta_eq_dec : EqDecision SnapshotMeta.
Proof. solve_decision. Defined.

Definition SnapshotMeta_validate (m : SnapshotMeta) : res unit :=
  reject_if ((sm_RoomID m =? 0) || (sm_Epoch m =? 0) || (sm_Tick m =? 0)
             || (sm_SchemaVersion m =? 0)) ErrInvalidFrame.

Record ComponentState := mkComponent {
  cs_TypeID : Z;
  cs_SchemaVersion : Z;
  cs_Data : list byte
}.

#[export] Instance ComponentState_eq_dec : EqDecision ComponentState.
Proof. solve_decision. Defined.

Record ObjectState := mkObject {
  os_Ref : ObjectRef;
  os_Archetype : Z;
  os_Components : list ComponentState
}.

#[export] Instance ObjectState_eq_dec : EqDecision ObjectState.
Proof. solve_decision. Defined.

Record Snapshot := mkSnapshot {
  sn_Meta : SnapshotMeta;
  sn_Objects : list ObjectState
}.

#[export] Instance Snapshot_eq_dec : EqDecision Snapshot.
Proof. solve_decision. Defined.

Definition sn_Tick (s : Snapshot) : Z := sm_Tick (sn_Meta s).

(** ** Delta frames *)
Definition FrameFull := 1.
Definition FrameDelta := 2.

Definition ObjectCreate := 1.
Definition ObjectUpdate := 2.
Definition ObjectRemove := 3.

Definition ComponentSet := 1.
Definition ComponentRemove := 2.

Record ComponentDelta := mkComponentDelta {
  cd_Operation : Z;
  cd_TypeID : Z;
  cd_SchemaVersion : Z;
  cd_Data : list byte
}.

Record ObjectDelta := mkObjectDelta {
  od_Operation : Z;
  od_Ref : ObjectRef;
  od_Archetype : Z;
  od_Components : list ComponentDelta
}.

Record DeltaFrame := mkFrame {
  df_Meta : SnapshotMeta;
  df_Kind : Z;
  df_BaseTick : Z;
  df_Objects : list ObjectDelta
}.

Record SessionInfo := mkSessionInfo {
  si_ID : Z;
  si_OwnerID : Z;
  si_TeamID : Z;
  si_Roles : Z
}.

(** ** Typing: the values Go's static types allow *)
Definition wf_ref (r : ObjectRef) : Prop := in_u 16 (or_ID r) /\ in_u 16 (or_Generation r).

Definition wf_meta (m : SnapshotMeta) : Prop :=
  in_u 64 (sm_RoomID m) /\ in_u 32 (sm_Epoch m) /\ in_u 32 (sm_Tick m)
  /\ in_u 16 (sm_SchemaVersion m).

Definition wf_component (c : ComponentState) : Prop :=
  in_u 16 (cs_TypeID c) /\ in_u 16 (cs_SchemaVersion c).

Definition wf_object (o : ObjectState) : Prop :=
  wf_ref (os_Ref o) /\ in_u 16 (os_Archetype o) /\ Forall wf_component (os_Components o).

Definition wf_snapshot (s : Snapshot) : Prop :=
  wf_meta (sn_Meta s) /\ Forall wf_object (sn_Objects s).

Definition wf_cdelta (c : ComponentDelta) : Prop :=
  in_u 8 (cd_Operation c) /\ in_u 16 (cd_TypeID c) /\ in_u 16 (cd_SchemaVersion c).

Definition wf_odelta (o : ObjectDelta) : Prop :=
  in_u 8 (od_Operation o) /\ wf_ref (od_Ref o) /\ in_u 16 (od_Archetype o)
  /\ Forall wf_cdelta (od_Components o).

Definition wf_frame (f : DeltaFrame) : Prop :=
  wf_meta (df_Meta f) /\ in_u 8 (df_Kind f) /\ in_u 32 (df_BaseTick f)
  /\ Forall wf_odelta (df_Objects f).

#[export] Instance wf_ref_dec r : Decision (wf_ref r).
Proof. unfold wf_ref. apply _. Defined.
#[export] Instance wf_meta_dec m : Decision (wf_meta m).
Proof. unfold wf_meta. apply _. Defined.
#[export] Instance wf_component_dec c : Decision (wf_component c).
Proof. unfold wf_component. apply _. Defined.
#[export] Instance wf_object_dec o : Decision (wf_object o).
Proof. unfold wf_object. apply _. Defined.
#[export] Instance wf_snapshot_dec s : Decision (wf_snapshot s).
Proof. unfold wf_snapshot. apply _. Defined.
#[export] Instance wf_cdelta_dec c : Decision (wf_cdelta c).
Proof. unfold wf_cdelta. apply _. Defined.
#[export] Instance wf_odelta_dec o : Decision (wf_odelta o).
Proof. unfold wf_odelta. apply _. Defined.
#[export] Instance wf_frame_dec f : Decision (wf_frame f).
Proof. unfold wf_frame. apply _. Defined.

(** ** Lemmas *)

Lemma normalizeLimits_idemp l : normalizeLimits (normalizeLimits l) = normalizeLimits l.
Proof.
  unfold normalizeLimits; destruct l; simpl.
  f_equal; repeat case_match; bool_to_prop; try done; try lia.
Qed.

(** Every normalized limit is positive. *)
Lemma normalizeLimits_pos l :
  let n := normalizeLimits l in
  0 < MaxObjects n /\ 0 < MaxComponentsPerObject n /\ 0 < MaxComponentBytes n
  /\ 0 < MaxFrameBytes n /\ 0 < MaxDatagramBytes n /\ 0 < MaxFragments n
  /\ 0 < MaxInflightFrames n.
Proof.
  unfold normalizeLimits; destruct l; simpl.
  repeat split; case_match; bool_to_prop; first [lia | by vm_compute].
Qed.

Lemma ObjectRef_Less_spec a b :
  ObjectRef_Less a b = true <->
  or_ID a < or_ID b \/ (or_ID a = or_ID b /\ or_Generation a < or_Generation b).
Proof.
  unfold ObjectRef_Less. destruct (Z.eqb_spec (or_ID a) (or_ID b)); simpl;
    rewrite Z.ltb_lt; lia.
Qed.

Lemma ObjectRef_Less_false a b :
  ObjectRef_Less a b = false <->
  or_ID b < or_ID a \/ (or_ID a = or_ID b /\ or_Generation b <= or_Generation a).
Proof.
  unfold ObjectRef_Less. destruct (Z.eqb_spec (or_ID a) (or_ID b)); simpl;
    rewrite Z.ltb_ge; lia.
Qed.

#[export] Instance ObjectRef_Less_strict_weak : StrictWeak ObjectRef_Less.
Proof.
  split; [intros x|intros x y z..];
    rewrite ?ObjectRef_Less_false, ?ObjectRef_Less_spec; lia.
Qed.

Lemma ObjectRef_Less_total a b :
  ObjectRef_Less a b = false -> ObjectRef_Less b a = false -> a = b.
Proof.
  rewrite !ObjectRef_Less_false. destruct a, b; simpl; intros.
  f_equal; lia.
Qed.

Lemma SnapshotMeta_validate_ok m :
  SnapshotMeta_validate m = Ok tt <->
  sm_RoomID m <> 0 /\ sm_Epoch m <> 0 /\ sm_Tick m <> 0 /\ sm_SchemaVersion m <> 0.
Proof.
  unfold SnapshotMeta_validate, reject_if.
  destruct (Z.eqb_spec (sm_RoomID m) 0), (Z.eqb_spec (sm_Epoch m) 0),
    (Z.eqb_spec (sm_Tick m) 0), (Z.eqb_spec (sm_SchemaVersion m) 0); simpl;
    split; intros; first [done | discriminate | lia].
Qed.

Lemma SnapshotMeta_validate_unit m u :
  SnapshotMeta_validate m = Ok u -> SnapshotMeta_validate m = Ok tt.
Proof. by destruct u. Qed.
