(* ===== verification/Schema.v ===== *)
(** * The component schema registry

    [src/replication/schema.go]: schemas indexed by type and by name, and a
    listing sorted by type. *)

From stdpp Require Import base list gmap strings sorting.
From Stdlib Require Import ZArith Lia.
From S2P Require Import Prelude ReplTypes.

Local Open Scope Z_scope.

(** ** The schema registry *)
Record ComponentSchema := mkSchema {
  sc_TypeID : Z;
  sc_Name : string;
  sc_Version : Z;
  sc_MaxEncodedSize : Z;
  sc_Policy : ReplicationPolicy
}.

Definition ComponentSchema_validate (s : ComponentSchema) : res unit :=
  if (sc_TypeID s =? 0) || bool_decide (sc_Name s = EmptyString)
     || (sc_Version s =? 0) || (sc_MaxEncodedSize s =? 0)
  then Err ErrInvalidFrame
  else ReplicationPolicy_validate (sc_Policy s).

Record SchemaRegistry := mkRegistry {
  sr_byID : gmap Z ComponentSchema;
  sr_byName : gmap string Z
}.

Definition NewSchemaRegistry : SchemaRegistry := mkRegistry ∅ ∅.

(** Methods take the receiver as [option]: [None] is the nil registry. *)
Definition SchemaRegistry_Register (r : option SchemaRegistry) (schema : ComponentSchema)
    : res SchemaRegistry :=
  match r with
  | None => Err ErrInvalidFrame
  | Some r =>
      _ ← ComponentSchema_validate schema;
      match sr_byID r !! sc_TypeID schema with
      | Some _ => Err ErrTypeRegistered
      | None =>
          match sr_byName r !! sc_Name schema with
          | Some _ => Err ErrNameRegistered
          | None => Ok (mkRegistry (<[sc_TypeID schema := schema]> (sr_byID r))
                                   (<[sc_Name schema := sc_TypeID schema]> (sr_byName r)))
          end
      end
  end.

Definition SchemaRegistry_Lookup (r : option SchemaRegistry) (typeID : Z)
    : option ComponentSchema :=
  match r with
  | None => None
  | Some r => sr_byID r !! typeID
  end.

(** [r.byID[id]] yields the zero schema when [id] is absent; the invariant
    below shows this branch is unreachable, and the model keeps it visible by
    returning the inner option. *)
Definition SchemaRegistry_LookupName (r : option SchemaRegistry) (name : string)
    : option (option ComponentSchema) :=
  match r with
  | None => None
  | Some r =>
      match sr_byName r !! name with
      | None => None
      | Some id => Some (sr_byID r !! id)
      end
  end.

Definition sortSchemas (schemas : list ComponentSchema) : list ComponentSchema :=
  insertion_sort sc_TypeID schemas.

Definition SchemaRegistry_Snapshot (r : option SchemaRegistry) : list ComponentSchema :=
  match r with
  | None => []
  | Some r => sortSchemas (map_to_list (sr_byID r)).*2
  end.

(** The registry invariant: the two maps describe the same schemas, and every
    stored schema passed validation. *)
Record registry_inv (r : SchemaRegistry) : Prop := {
  ri_key : forall id s, sr_byID r !! id = Some s -> sc_TypeID s = id;
  ri_valid : forall id s, sr_byID r !! id = Some s -> ComponentSchema_validate s = Ok tt;
  ri_name : forall name id, sr_byName r !! name = Some id <->
              exists s, sr_byID r !! id = Some s /\ sc_Name s = name
}.

(** ** Lemmas: registration *)

Lemma registry_inv_New : registry_inv NewSchemaRegistry.
Proof.
  split; cbn; [by intros ?? ?%lookup_empty_Some..|].
  intros name id. rewrite lookup_empty. split; [done|]. intros (s & Hs & _).
  by rewrite lookup_empty in Hs.
Qed.

Lemma Register_iff r s r' :
  SchemaRegistry_Register (Some r) s = Ok r' <->
  ComponentSchema_validate s = Ok tt /\ sr_byID r !! sc_TypeID s = None
  /\ sr_byName r !! sc_Name s = None
  /\ r' = mkRegistry (<[sc_TypeID s := s]> (sr_byID r)) (<[sc_Name s := sc_TypeID s]> (sr_byName r)).
Proof.
  cbn. split.
  - intros H. ok_inv. destruct a. by repeat case_match; ok_inv.
  - intros (-> & -> & -> & ->). done.
Qed.

Lemma Register_inv r s r' :
  registry_inv r -> SchemaRegistry_Register (Some r) s = Ok r' -> registry_inv r'.
Proof.
  intros [Hk Hv Hn] (Hval & Hid & Hname & ->)%Register_iff. split; cbn.
  - intros id s' [[<- <-]|[_ Hs']]%lookup_insert_Some; eauto.
  - intros id s' [[<- <-]|[_ Hs']]%lookup_insert_Some; eauto.
  - intros name id. rewrite lookup_insert_Some. split.
    + intros [[<- <-]|[Hne Hl]].
      * exists s. by rewrite lookup_insert_eq.
      * apply Hn in Hl as (s' & Hs' & Hs'n). exists s'. rewrite lookup_insert_ne by congruence. done.
    + intros (s' & [[<- <-]|[Hne Hs']]%lookup_insert_Some & <-); [by left|].
      right. split; [|apply Hn; by exists s'].
      intros Heq. assert (Hsn : sr_byName r !! sc_Name s' = Some id) by (apply Hn; by exists s').
      rewrite <-Heq in Hsn. congruence.
Qed.

(** The registry after a sequence of registrations; a rejected one leaves it
    unchanged. *)
Definition registered (ss : list ComponentSchema) : SchemaRegistry :=
  foldl (fun r s => match SchemaRegistry_Register (Some r) s with Ok r' => r' | Err _ => r end)
    NewSchemaRegistry ss.

Lemma registered_inv ss : registry_inv (registered ss).
Proof.
  unfold registered. pose proof registry_inv_New as Hinv.
  revert Hinv. generalize NewSchemaRegistry as r. induction ss as [|s ss IH]; intros r Hr; [done|].
  cbn [foldl]. apply IH. case_match eqn:Hreg; [by eapply Register_inv|done].
Qed.

(** ** Properties *)

Definition sample_policy : ReplicationPolicy := mkPolicy 1 1 3 20 1 1.
Definition sample_schemas : list ComponentSchema :=
  [mkSchema 9 "hp" 1 64 sample_policy; mkSchema 3 "pos" 1 64 sample_policy].

(** Whatever is registered, in whatever order, the two indexes agree: looking a
    name up finds exactly the schema that the type index holds for it (never
    the zero schema), and every schema found passed validation. *)
Theorem SchemaRegistry_indexes_agree ss name s :
  let r := Some (registered ss) in
  SchemaRegistry_LookupName r name = Some s <->
  exists schema, s = Some schema /\ sc_Name schema = name
    /\ SchemaRegistry_Lookup r (sc_TypeID schema) = Some schema
    /\ ComponentSchema_validate schema = Ok tt.
Proof.
  cbn. destruct (registered_inv ss) as [Hk Hv Hn]. split.
  - destruct (sr_byName _ !! name) as [id|] eqn:Hname; [|done]. intros [= <-].
    apply Hn in Hname as (schema & Hs & Hsn). exists schema. rewrite (Hk _ _ Hs). eauto.
  - intros (schema & -> & <- & Hs & _).
    rewrite (proj2 (Hn (sc_Name schema) (sc_TypeID schema))) by (by exists schema). by rewrite Hs.
Qed.

(** Registration accepts a valid schema exactly when neither its type nor its
    name is taken, and then both lookups find it and nothing else changes. *)
Theorem SchemaRegistry_Register_exact ss schema :
  let r := registered ss in
  (is_ok (SchemaRegistry_Register (Some r) schema) = true <->
   ComponentSchema_validate schema = Ok tt
   /\ SchemaRegistry_Lookup (Some r) (sc_TypeID schema) = None
   /\ SchemaRegistry_LookupName (Some r) (sc_Name schema) = None)
  /\ forall r', SchemaRegistry_Register (Some r) schema = Ok r' ->
     SchemaRegistry_LookupName (Some r') (sc_Name schema) = Some (Some schema)
     /\ forall id, SchemaRegistry_Lookup (Some r') id =
          if id =? sc_TypeID schema then Some schema else SchemaRegistry_Lookup (Some r) id.
Proof.
  intros r. split.
  - destruct (SchemaRegistry_Register (Some r) schema) as [r'|] eqn:Hreg.
    + apply Register_iff in Hreg as (? & Hid & Hname & _). cbn. by rewrite Hid, Hname.
    + split; [done|]. intros (Hv & Hid & Hname). cbn in Hid, Hname.
      destruct (sr_byName r !! sc_Name schema) eqn:Hn; [done|].
      by rewrite (proj2 (Register_iff r schema _)) in Hreg by done.
  - intros r' (_ & _ & _ & ->)%Register_iff. cbn.
    rewrite !lookup_insert_eq. split; [done|]. intros id.
    destruct (Z.eqb_spec id (sc_TypeID schema)) as [->|Hne];
      [by rewrite lookup_insert_eq|by rewrite lookup_insert_ne].
Qed.

(** The listing of a registry holds every registered schema once, in strictly
    increasing order of type: the hand-written insertion sort sorts. *)
Theorem SchemaRegistry_Snapshot_sorted ss :
  let l := SchemaRegistry_Snapshot (Some (registered ss)) in
  StronglySorted (fun a b => sc_TypeID a < sc_TypeID b) l
  /\ forall schema, schema ∈ l <->
       SchemaRegistry_Lookup (Some (registered ss)) (sc_TypeID schema) = Some schema.
Proof.
  intros l. destruct (registered_inv ss) as [Hk Hv Hn].
  destruct (insertion_sort_spec sc_TypeID (map_to_list (sr_byID (registered ss))).*2) as [Hs Hp].
  change (insertion_sort _ _) with l in Hs, Hp.
  assert (Hin : forall schema, schema ∈ l <->
    sr_byID (registered ss) !! sc_TypeID schema = Some schema).
  { intros schema. rewrite Hp, list_elem_of_fmap. split.
    - intros ([id s] & -> & Hin%elem_of_map_to_list). cbn. by rewrite (Hk _ _ Hin).
    - intros Hl. exists (sc_TypeID schema, schema). split; [done|]. by apply elem_of_map_to_list. }
  split; [|exact Hin].
  assert (Hnd : NoDup (sc_TypeID <$> l)).
  { rewrite Hp. rewrite <-list_fmap_compose.
    assert (((fun p : Z * ComponentSchema => sc_TypeID p.2)) <$> map_to_list (sr_byID (registered ss))
            = (map_to_list (sr_byID (registered ss))).*1) as Heq.
    { apply list_fmap_ext. intros i [id s] Hi. cbn. apply (Hk id).
      apply elem_of_map_to_list. by eapply list_elem_of_lookup_2. }
    unfold compose. rewrite Heq. apply NoDup_fst_map_to_list. }
  clear -Hs Hnd. induction Hs as [|s l Hs IH Hall]; csimpl in *; [constructor|].
  apply NoDup_cons in Hnd as [Hni Hnd]. constructor; [by apply IH|].
  apply Forall_forall. intros s' Hs'. rewrite Forall_forall in Hall.
  pose proof (Hall s' Hs') as Hle. unfold key_le in Hle.
  assert (sc_TypeID s <> sc_TypeID s') by (intros Heq; apply Hni; rewrite Heq; by apply list_elem_of_fmap_2).
  lia.
Qed.

Example registry_sample :
  sc_Name <$> SchemaRegistry_Snapshot (Some (registered sample_schemas)) = ["pos"%string; "hp"%string].
Proof. vm_compute. reflexivity. Qed.
