(* ===== verification/Snapshots.v ===== *)
(** * Canonical snapshots

    [src/replication/snapshot.go]: [NewSnapshot] sorts, validates and deep-copies
    a room's objects.  The theorems show that the result does not depend on the
    order in which objects and components were supplied (the callers iterate
    over Go maps), that it is a fixed point of the constructor, and that it
    satisfies the well-formedness predicate [snapshot_inv]. *)

From stdpp Require Import base list gmap strings sorting.
From Stdlib Require Import ZArith Lia.
From S2P Require Import Prelude ReplTypes.

Local Open Scope Z_scope.

(** ** Definitions *)

(** Copies of byte slices are values, so a deep copy rebuilds the same value. *)
Definition cloneComponent (c : ComponentState) : ComponentState :=
  {| cs_TypeID := cs_TypeID c; cs_SchemaVersion := cs_SchemaVersion c;
     cs_Data := [] ++ cs_Data c |}.

Definition cloneObject (obj : ObjectState) : ObjectState :=
  {| os_Ref := os_Ref obj; os_Archetype := os_Archetype obj;
     os_Components := cloneComponent <$> os_Components obj |}.

Definition cloneObjects (objects : list ObjectState) : list ObjectState :=
  cloneObject <$> objects.

Definition Snapshot_Clone (s : Snapshot) : Snapshot :=
  {| sn_Meta := sn_Meta s; sn_Objects := cloneObjects (sn_Objects s) |}.

Definition component_less (a b : ComponentState) : bool := cs_TypeID a <? cs_TypeID b.
Definition object_less (a b : ObjectState) : bool := ObjectRef_Less (os_Ref a) (os_Ref b).

(** The inner loop of [NewSnapshot]: [last] is [None] on the first component;
    the result is the running size estimate. *)
Fixpoint checkComponents (limits : Limits) (last : option Z) (estimated : Z)
    (components : list ComponentState) : res Z :=
  match components with
  | [] => Ok estimated
  | c :: rest =>
      if (cs_TypeID c =? 0) || (cs_SchemaVersion c =? 0) then Err ErrInvalidFrame else
      if bool_decide (last = Some (cs_TypeID c)) then Err ErrInvalidFrame else
      if MaxComponentBytes limits <? len (cs_Data c) then Err ErrComponentTooLarge else
      let estimated := estimated + (12 + len (cs_Data c)) in
      if MaxFrameBytes limits <? estimated then Err ErrFrameTooLarge else
      checkComponents limits (Some (cs_TypeID c)) estimated rest
  end.

(** The outer loop: [last] is [None] on the first object.  The result is the
    list of objects with their components sorted. *)
Fixpoint checkObjects (limits : Limits) (last : option ObjectRef) (estimated : Z)
    (objects : list ObjectState) : res (list ObjectState) :=
  match objects with
  | [] => Ok []
  | obj :: rest =>
      let estimated := estimated + 9 in
      if negb (ObjectRef_Valid (os_Ref obj)) || (os_Archetype obj =? 0)
      then Err ErrInvalidObjectRef else
      if bool_decide (last = Some (os_Ref obj)) then Err ErrInvalidFrame else
      if MaxComponentsPerObject limits <? len (os_Components obj)
      then Err ErrComponentLimit else
      let components := sort_slice component_less (os_Components obj) in
      estimated ← checkComponents limits None estimated components;
      rest ← checkObjects limits (Some (os_Ref obj)) estimated rest;
      Ok (mkObject (os_Ref obj) (os_Archetype obj) components :: rest)
  end.

Definition NewSnapshot (meta : SnapshotMeta) (objects : list ObjectState) (limits : Limits)
    : res Snapshot :=
  _ ← SnapshotMeta_validate meta;
  let limits := normalizeLimits limits in
  if MaxObjects limits <? len objects then Err ErrObjectLimit else
  out ← checkObjects limits None 32 (sort_slice object_less (cloneObjects objects));
  Ok (mkSnapshot meta out).

(** ** Specification *)

Definition component_ok (limits : Limits) (c : ComponentState) : Prop :=
  cs_TypeID c <> 0 /\ cs_SchemaVersion c <> 0 /\ len (cs_Data c) <= MaxComponentBytes limits.

Definition object_ok (limits : Limits) (o : ObjectState) : Prop :=
  ObjectRef_Valid (os_Ref o) = true /\ os_Archetype o <> 0
  /\ len (os_Components o) <= MaxComponentsPerObject limits
  /\ strictly_sorted component_less (os_Components o)
  /\ Forall (component_ok limits) (os_Components o).

(** Well-formed snapshots under normalized limits. *)
Record snapshot_inv (limits : Limits) (s : Snapshot) : Prop := {
  si_meta : SnapshotMeta_validate (sn_Meta s) = Ok tt;
  si_count : len (sn_Objects s) <= MaxObjects limits;
  si_sorted : strictly_sorted object_less (sn_Objects s);
  si_objects : Forall (object_ok limits) (sn_Objects s)
}.

(** A snapshot is canonical when the constructor returns it unchanged. *)
Definition canonical (limits : Limits) (s : Snapshot) : Prop :=
  NewSnapshot (sn_Meta s) (sn_Objects s) limits = Ok s.

(** The same objects up to the order of objects and of their components. *)
Definition object_equiv (a b : ObjectState) : Prop :=
  os_Ref a = os_Ref b /\ os_Archetype a = os_Archetype b
  /\ os_Components a ≡ₚ os_Components b.

Definition objects_equiv (l k : list ObjectState) : Prop :=
  exists m, l ≡ₚ m /\ Forall2 object_equiv m k.

(** ** Lemmas *)

#[export] Instance component_less_strict_weak : StrictWeak component_less.
Proof.
  unfold component_less; split; intros *; rewrite ?Z.ltb_lt, ?Z.ltb_ge; lia.
Qed.

#[export] Instance object_less_strict_weak : StrictWeak object_less.
Proof.
  unfold object_less; split; intros *;
    [apply sw_irrefl|apply sw_trans|apply sw_incomp].
Qed.

Lemma cloneComponent_id c : cloneComponent c = c.
Proof. by destruct c. Qed.

Lemma cloneObject_id o : cloneObject o = o.
Proof.
  destruct o as [r a cs]; unfold cloneObject; simpl. f_equal.
  induction cs as [|c cs IH]; csimpl; [done|]. by rewrite cloneComponent_id, IH.
Qed.

Lemma cloneObjects_id l : cloneObjects l = l.
Proof.
  unfold cloneObjects.
  induction l as [|o l IH]; csimpl; [done|]. by rewrite cloneObject_id, IH.
Qed.

Lemma Snapshot_Clone_id s : Snapshot_Clone s = s.
Proof. destruct s. unfold Snapshot_Clone; simpl. by rewrite cloneObjects_id. Qed.

#[export] Hint Rewrite cloneComponent_id cloneObject_id cloneObjects_id Snapshot_Clone_id : clone.

(** Lists whose keys increase strictly have pairwise different keys. *)
Lemma components_sorted_unique l x y :
  strictly_sorted component_less l -> x ∈ l -> y ∈ l ->
  cs_TypeID x = cs_TypeID y -> x = y.
Proof.
  unfold strictly_sorted, component_less.
  induction 1 as [|z l _ IH Hall]; [by intros ?%not_elem_of_nil|].
  rewrite Forall_forall in Hall. intros [->|Hx]%elem_of_cons [->|Hy]%elem_of_cons Heq; auto.
  - apply Hall in Hy. apply Z.ltb_lt in Hy. lia.
  - apply Hall in Hx. apply Z.ltb_lt in Hx. lia.
Qed.

Lemma objects_sorted_unique l x y :
  strictly_sorted object_less l -> x ∈ l -> y ∈ l -> os_Ref x = os_Ref y -> x = y.
Proof.
  unfold strictly_sorted, object_less.
  induction 1 as [|z l _ IH Hall]; [by intros ?%not_elem_of_nil|].
  rewrite Forall_forall in Hall. intros [->|Hx]%elem_of_cons [->|Hy]%elem_of_cons Heq; auto.
  - apply Hall in Hy. rewrite Heq, sw_irrefl in Hy. done.
  - apply Hall in Hx. rewrite Heq, sw_irrefl in Hx. done.
Qed.

Lemma sort_components_unique l k :
  strictly_sorted component_less k -> l ≡ₚ k -> sort_slice component_less l = k.
Proof.
  intros Hs Hp. apply sort_slice_unique; [apply _| |done|done].
  unfold component_less. intros x y Hx Hy ?%Z.ltb_ge ?%Z.ltb_ge.
  eapply components_sorted_unique; [exact Hs|done|done|lia].
Qed.

Lemma sort_objects_unique l k :
  strictly_sorted object_less k -> l ≡ₚ k -> sort_slice object_less l = k.
Proof.
  intros Hs Hp. apply sort_slice_unique; [apply _| |done|done].
  intros x y Hx Hy ??. eapply objects_sorted_unique; [exact Hs|done|done|].
  by apply ObjectRef_Less_total.
Qed.

(** Sorting commutes with a relation that preserves the keys. *)
Lemma insert_objects_equiv x y l k :
  object_equiv x y -> Forall2 object_equiv l k ->
  Forall2 object_equiv (insert_by object_less x l) (insert_by object_less y k).
Proof.
  intros Hxy. induction 1 as [|a b l k Hab Hlk IH]; simpl; [by constructor|].
  assert (object_less b y = object_less a x) as ->.
  { unfold object_less. destruct Hxy as [-> _], Hab as [-> _]. done. }
  case_match; constructor; [done..| |by constructor]; done.
Qed.

Lemma sort_objects_equiv l k :
  Forall2 object_equiv l k ->
  Forall2 object_equiv (sort_slice object_less l) (sort_slice object_less k).
Proof. induction 1; simpl; [constructor|by apply insert_objects_equiv]. Qed.

(** *** The checking loops *)

Lemma checkComponents_ok limits last est cs e :
  checkComponents limits last est cs = Ok e ->
  Forall (component_ok limits) cs.
Proof.
  revert last est. induction cs as [|c cs IH]; intros last est; simpl; [by constructor|].
  intros H. ok_inv. bool_to_prop. constructor; [split_and!; [done..|lia]|by eapply IH].
Qed.

(** On a sorted list, the adjacent-duplicate test makes the order strict. *)
Lemma checkComponents_strict limits last est cs e :
  StronglySorted (fun a b => component_less b a = false) cs ->
  checkComponents limits last est cs = Ok e ->
  strictly_sorted component_less cs.
Proof.
  intros Hs. revert last est. unfold strictly_sorted.
  induction Hs as [|c cs Hs IH Hall]; intros last est; simpl; [by constructor|].
  intros H. ok_inv. constructor; [by eapply IH|].
  destruct cs as [|d cs]; [done|].
  assert (Hcd : component_less c d = true).
  { simpl in H. ok_inv. bool_to_prop. unfold component_less in *.
    apply Forall_cons in Hall as [Hd _]. apply Z.ltb_ge in Hd. apply Z.ltb_lt.
    assert (cs_TypeID c <> cs_TypeID d) by congruence. lia. }
  constructor; [done|].
  specialize (IH _ _ H). apply StronglySorted_inv in IH as [_ IH].
  eapply Forall_impl; [exact IH|]. intros z Hz. by eapply sw_trans.
Qed.

Lemma checkObjects_ok limits last est objs out :
  checkObjects limits last est objs = Ok out -> Forall (object_ok limits) out.
Proof.
  revert last est out. induction objs as [|o objs IH]; intros last est out; simpl.
  { intros [= <-]. constructor. }
  intros H. ok_inv. bool_to_prop. constructor; [|by eapply IH].
  split_and!; simpl; [done|done| | |by eapply checkComponents_ok].
  - unfold len. rewrite length_sort_slice. fold (len (os_Components o)). lia.
  - eapply checkComponents_strict; [apply sort_slice_sorted, _|done].
Qed.

Lemma checkObjects_equiv limits last est objs out :
  checkObjects limits last est objs = Ok out -> Forall2 object_equiv objs out.
Proof.
  revert last est out. induction objs as [|o objs IH]; intros last est out; simpl.
  { intros [= <-]. constructor. }
  intros H. ok_inv. constructor; [|by eapply IH].
  split_and!; simpl; [done|done|by rewrite sort_slice_perm].
Qed.

Lemma checkObjects_strict limits last est objs out :
  StronglySorted (fun a b => object_less b a = false) objs ->
  checkObjects limits last est objs = Ok out ->
  strictly_sorted object_less out.
Proof.
  intros Hs. revert last est out. unfold strictly_sorted.
  induction Hs as [|o objs Hs IH Hall]; intros last est out; simpl.
  { intros [= <-]. constructor. }
  intros H. ok_inv. rename a0 into out.
  pose proof (IH _ _ _ E3) as IH'. constructor; [done|].
  destruct objs as [|p objs]; simpl in E3; ok_inv; [constructor|].
  bool_to_prop. apply Forall_cons in Hall as [Hp _].
  assert (Hop : ObjectRef_Less (os_Ref o) (os_Ref p) = true).
  { destruct (ObjectRef_Less (os_Ref o) (os_Ref p)) eqn:Hlt; [done|].
    assert (os_Ref o = os_Ref p) by (by apply ObjectRef_Less_total). congruence. }
  constructor; [done|]. apply StronglySorted_inv in IH' as [_ IH'].
  eapply Forall_impl; [exact IH'|]. unfold object_less; simpl.
  intros z Hz. by eapply sw_trans.
Qed.

(** The outer loop depends on the components of an object only up to order. *)
Lemma checkObjects_compat limits last est objs out :
  Forall2 object_equiv objs out ->
  Forall (fun o => strictly_sorted component_less (os_Components o)) out ->
  checkObjects limits last est objs = checkObjects limits last est out.
Proof.
  intros Heq. revert last est.
  induction Heq as [|a b objs out (Hr & Ha & Hc) Heq IH]; intros last est Hs; simpl; [done|].
  apply Forall_cons in Hs as [Hb Hs].
  rewrite Hr, Ha, (sort_components_unique _ _ Hb Hc), (sort_slice_sorted_id _ _ Hb).
  replace (len (os_Components a)) with (len (os_Components b))
    by (unfold len; by rewrite Hc).
  repeat (case_match; try done).
  destruct (checkComponents _ _ _ _); simpl; [|done]. by rewrite IH.
Qed.

Lemma equiv_strictly_sorted m k :
  Forall2 object_equiv m k -> strictly_sorted object_less k -> strictly_sorted object_less m.
Proof.
  unfold strictly_sorted. intros Heq Hk. revert m Heq.
  induction Hk as [|b k Hk IH Hall]; intros m Heq.
  { apply Forall2_nil_inv_r in Heq as ->. constructor. }
  apply Forall2_cons_inv_r in Heq as (a & m' & Hab & Heq & ->).
  constructor; [by apply IH|]. clear IH Hk.
  induction Heq as [|c d m' k Hcd Heq IH]; [constructor|].
  apply Forall_cons in Hall as [Hd Hall]. constructor; [|by apply IH].
  unfold object_less in *. destruct Hab as [-> _], Hcd as [-> _]. done.
Qed.

Lemma sort_equiv_sorted l m k :
  l ≡ₚ m -> Forall2 object_equiv m k -> strictly_sorted object_less k ->
  Forall2 object_equiv (sort_slice object_less l) k.
Proof.
  intros Hp Heq Hk. pose proof (equiv_strictly_sorted _ _ Heq Hk) as Hm.
  pose proof (sort_objects_equiv _ _ Heq) as H.
  rewrite (sort_slice_sorted_id _ _ Hk) in H.
  assert (sort_slice object_less l = sort_slice object_less m) as ->; [|done].
  rewrite (sort_slice_sorted_id _ _ Hm). by apply sort_objects_unique.
Qed.

Lemma objects_equiv_length l k : objects_equiv l k -> len l = len k.
Proof. intros (m & Hp & Heq). unfold len. by rewrite Hp, (Forall2_length _ _ _ Heq). Qed.

#[export] Instance object_equiv_equivalence : Equivalence object_equiv.
Proof.
  unfold object_equiv. split.
  - by intros x.
  - intros x y (-> & -> & Hc). by split_and!.
  - intros x y z (-> & -> & Hc) (-> & -> & Hd). split_and!; [done..|]. by rewrite Hc.
Qed.

Lemma objects_equiv_perm l k : l ≡ₚ k -> objects_equiv l k.
Proof. intros Hp. exists k. split; [done|]. apply Forall_Forall2_diag, Forall_true. done. Qed.

Lemma Forall2_object_equiv_sym l k : Forall2 object_equiv l k -> Forall2 object_equiv k l.
Proof. induction 1; constructor; [by symmetry|done]. Qed.

Lemma Forall2_object_equiv_trans l k j :
  Forall2 object_equiv l k -> Forall2 object_equiv k j -> Forall2 object_equiv l j.
Proof.
  intros Hlk. revert j. induction Hlk; intros j; [done|].
  intros (z & j' & ? & ? & ->)%Forall2_cons_inv_l. constructor; [by etrans|by apply IHHlk].
Qed.

Lemma objects_equiv_trans l k j : objects_equiv l k -> objects_equiv k j -> objects_equiv l j.
Proof.
  intros (m & Hlm & Hmk) (n & Hkn & Hnj).
  destruct (Permutation_Forall2 Hkn (Forall2_object_equiv_sym _ _ Hmk)) as (m' & Hm & Hn).
  exists m'. split; [by rewrite Hlm|].
  apply Forall2_object_equiv_sym in Hn.
  by eapply Forall2_object_equiv_trans.
Qed.

Lemma objects_equiv_sym l k : objects_equiv l k -> objects_equiv k l.
Proof.
  intros (m & Hp & Heq).
  destruct (Permutation_Forall2 (symmetry Hp) Heq) as (k' & Hk & Hl).
  exists k'. split; [done|]. by apply Forall2_object_equiv_sym.
Qed.

(** The components of a successful construction. *)
Lemma NewSnapshot_inv meta objects limits s :
  NewSnapshot meta objects limits = Ok s ->
  SnapshotMeta_validate meta = Ok tt
  /\ len objects <= MaxObjects (normalizeLimits limits)
  /\ sn_Meta s = meta
  /\ checkObjects (normalizeLimits limits) None 32 (sort_slice object_less objects)
     = Ok (sn_Objects s).
Proof.
  unfold NewSnapshot. rewrite cloneObjects_id. intros H. ok_inv. bool_to_prop.
  destruct a. by split_and!.
Qed.

Lemma NewSnapshot_intro meta objects limits out :
  SnapshotMeta_validate meta = Ok tt ->
  len objects <= MaxObjects (normalizeLimits limits) ->
  checkObjects (normalizeLimits limits) None 32 (sort_slice object_less objects) = Ok out ->
  NewSnapshot meta objects limits = Ok (mkSnapshot meta out).
Proof.
  intros Hm Hl Hc. unfold NewSnapshot. rewrite Hm, cloneObjects_id. run_bind.
  destruct (Z.ltb_spec (MaxObjects (normalizeLimits limits)) (len objects)); [lia|].
  by rewrite Hc.
Qed.

Lemma NewSnapshot_snapshot_inv meta objects limits s :
  NewSnapshot meta objects limits = Ok s -> snapshot_inv (normalizeLimits limits) s.
Proof.
  intros (Hm & Hl & <- & Hc)%NewSnapshot_inv. split.
  - done.
  - apply checkObjects_equiv, Forall2_length in Hc. unfold len in *.
    rewrite <-Hc, length_sort_slice. done.
  - eapply checkObjects_strict; [apply sort_slice_sorted, _|done].
  - by eapply checkObjects_ok.
Qed.

Lemma NewSnapshot_objects_equiv meta objects limits s :
  NewSnapshot meta objects limits = Ok s -> objects_equiv objects (sn_Objects s).
Proof.
  intros (_ & _ & _ & Hc)%NewSnapshot_inv. exists (sort_slice object_less objects).
  split; [by rewrite sort_slice_perm|by eapply checkObjects_equiv].
Qed.

(** Any arrangement of the objects of a constructed snapshot yields it again. *)
Lemma NewSnapshot_rearranged meta objects limits s l :
  NewSnapshot meta objects limits = Ok s -> objects_equiv l (sn_Objects s) ->
  NewSnapshot meta l limits = Ok s.
Proof.
  intros H Heq. pose proof (NewSnapshot_snapshot_inv _ _ _ _ H) as Hinv.
  destruct (NewSnapshot_inv _ _ _ _ H) as (Hm & Hl & Hmeta & Hc).
  destruct s as [meta' out]; simpl in *; subst meta'.
  apply NewSnapshot_intro; [done|rewrite (objects_equiv_length _ _ Heq); apply Hinv|].
  destruct Hinv as [_ _ Hs Hok]; simpl in *. destruct Heq as (m & Hp & Heq).
  assert (Hcs : Forall (fun o => strictly_sorted component_less (os_Components o)) out).
  { eapply Forall_impl; [exact Hok|]. by intros ? (_ & _ & _ & ? & _). }
  rewrite (checkObjects_compat _ _ _ _ out); [|by eapply sort_equiv_sorted|done].
  rewrite <-(checkObjects_compat _ _ _ _ _ (checkObjects_equiv _ _ _ _ _ Hc) Hcs). done.
Qed.

Lemma NewSnapshot_canonical meta objects limits s :
  NewSnapshot meta objects limits = Ok s -> canonical limits s.
Proof.
  intros H. unfold canonical. destruct (NewSnapshot_inv _ _ _ _ H) as (_ & _ & -> & _).
  eapply NewSnapshot_rearranged; [done|by apply objects_equiv_perm].
Qed.

Lemma canonical_snapshot_inv limits s :
  canonical limits s -> snapshot_inv (normalizeLimits limits) s.
Proof. apply NewSnapshot_snapshot_inv. Qed.

(** *** The size estimate *)
Definition component_estimate (c : ComponentState) : Z := 12 + len (cs_Data c).

Definition object_estimate (o : ObjectState) : Z :=
  9 + foldr Z.add 0 (component_estimate <$> os_Components o).

Definition snapshot_estimate (s : Snapshot) : Z :=
  32 + foldr Z.add 0 (object_estimate <$> sn_Objects s).

Lemma component_estimates_nonneg cs : 0 <= foldr Z.add 0 (component_estimate <$> cs).
Proof.
  induction cs as [|c cs IH]; csimpl; [done|].
  unfold component_estimate at 1. pose proof (len_nonneg (cs_Data c)). lia.
Qed.

Lemma object_estimates_nonneg os : 0 <= foldr Z.add 0 (object_estimate <$> os).
Proof.
  induction os as [|o os IH]; csimpl; [done|]. unfold object_estimate at 1.
  pose proof (component_estimates_nonneg (os_Components o)). lia.
Qed.

Lemma checkComponents_complete limits last est cs :
  strictly_sorted component_less cs -> Forall (component_ok limits) cs ->
  (forall c, c ∈ cs -> last <> Some (cs_TypeID c)) ->
  est + foldr Z.add 0 (component_estimate <$> cs) <= MaxFrameBytes limits ->
  checkComponents limits last est cs
  = Ok (est + foldr Z.add 0 (component_estimate <$> cs)).
Proof.
  intros Hs. revert last est.
  induction Hs as [|c cs Hs IH Hall]; intros last est Hok Hlast Hest; csimpl.
  { f_equal. lia. }
  apply Forall_cons in Hok as [(Ht & Hv & Hd) Hok]. csimpl in Hest.
  pose proof (component_estimates_nonneg cs).
  rewrite (proj2 (Z.eqb_neq _ _) Ht), (proj2 (Z.eqb_neq _ _) Hv). simpl.
  rewrite bool_decide_false by (apply Hlast; left).
  rewrite (proj2 (Z.ltb_ge _ _) Hd). unfold component_estimate at 1 in Hest.
  rewrite (proj2 (Z.ltb_ge _ _)) by lia.
  rewrite IH; [f_equal; unfold component_estimate at 2; lia|done| |lia].
  intros d Hd' [= Heq]. rewrite Forall_forall in Hall. specialize (Hall _ Hd').
  unfold component_less in Hall. apply Z.ltb_lt in Hall. lia.
Qed.

Lemma checkObjects_complete limits last est objs :
  strictly_sorted object_less objs -> Forall (object_ok limits) objs ->
  (forall o, o ∈ objs -> last <> Some (os_Ref o)) ->
  est + foldr Z.add 0 (object_estimate <$> objs) <= MaxFrameBytes limits ->
  checkObjects limits last est objs = Ok objs.
Proof.
  intros Hs. revert last est.
  induction Hs as [|o objs Hs IH Hall]; intros last est Hok Hlast Hest; csimpl; [done|].
  apply Forall_cons in Hok as [(Hr & Ha & Hn & Hcs & Hc) Hok]. csimpl in Hest.
  pose proof (object_estimates_nonneg objs). unfold object_estimate at 1 in Hest.
  rewrite Hr, (proj2 (Z.eqb_neq _ _) Ha). simpl.
  rewrite bool_decide_false by (apply Hlast; left).
  rewrite (proj2 (Z.ltb_ge _ _) Hn), (sort_slice_sorted_id _ _ Hcs).
  rewrite checkComponents_complete; [|done|done|done|lia]. simpl.
  rewrite IH; [by destruct o|done| |lia].
  intros p Hp [= Heq]. rewrite Forall_forall in Hall. specialize (Hall _ Hp).
  unfold object_less in Hall. by rewrite Heq, sw_irrefl in Hall.
Qed.

Lemma snapshot_inv_canonical limits s :
  snapshot_inv (normalizeLimits limits) s ->
  snapshot_estimate s <= MaxFrameBytes (normalizeLimits limits) ->
  canonical limits s.
Proof.
  intros [Hm Hn Hs Hok] Hest. destruct s as [meta objs].
  unfold canonical. cbn [sn_Meta sn_Objects] in *.
  apply NewSnapshot_intro; [done|done|].
  rewrite (sort_slice_sorted_id _ _ Hs). by apply checkObjects_complete.
Qed.

(** ** Properties *)

(** Two small rooms used by the witnesses. *)
Definition sample_meta : SnapshotMeta := mkMeta 7 1 5 2.
Definition sample_objects : list ObjectState :=
  [ mkObject (mkRef 9 1) 3 [mkComponent 4 1 [Byte.x02]; mkComponent 2 1 [Byte.x01]];
    mkObject (mkRef 1 1) 3 [mkComponent 2 1 []] ].
Definition sample_snapshot : Snapshot := mkSnapshot sample_meta
  [ mkObject (mkRef 1 1) 3 [mkComponent 2 1 []];
    mkObject (mkRef 9 1) 3 [mkComponent 2 1 [Byte.x01]; mkComponent 4 1 [Byte.x02]] ].

(**  A snapshot that [NewSnapshot] returns has the requested metadata and
    exactly the supplied objects, strictly ordered by reference, each with its
    components strictly ordered by type, all identifiers valid and every count
    and payload within the normalized limits. *)
Theorem NewSnapshot_well_formed meta objects limits s :
  NewSnapshot meta objects limits = Ok s ->
  sn_Meta s = meta /\ objects_equiv objects (sn_Objects s)
  /\ snapshot_inv (normalizeLimits limits) s.
Proof.
  intros H. split_and!.
  - by apply NewSnapshot_inv in H as (_ & _ & ? & _).
  - by eapply NewSnapshot_objects_equiv.
  - by eapply NewSnapshot_snapshot_inv.
Qed.

Lemma NewSnapshot_well_formed_witness :
  sn_Meta sample_snapshot = sample_meta
  /\ objects_equiv sample_objects (sn_Objects sample_snapshot)
  /\ snapshot_inv (normalizeLimits DefaultLimits) sample_snapshot.
Proof. apply (NewSnapshot_well_formed _ _ DefaultLimits). vm_compute. reflexivity. Defined.

(**  The constructor is canonical: supplying the same objects in another
    order, with components in another order, gives the same snapshot, so the
    iteration order of the Go maps the callers read from is not observable. *)
Theorem NewSnapshot_order_independent meta l k limits s :
  NewSnapshot meta l limits = Ok s -> objects_equiv k l ->
  NewSnapshot meta k limits = Ok s.
Proof.
  intros H Heq. eapply NewSnapshot_rearranged; [done|].
  eapply objects_equiv_trans; [done|]. by eapply NewSnapshot_objects_equiv.
Qed.

Lemma NewSnapshot_order_independent_witness :
  NewSnapshot sample_meta (reverse sample_objects) DefaultLimits = Ok sample_snapshot.
Proof.
  apply (NewSnapshot_order_independent _ sample_objects).
  - vm_compute. reflexivity.
  - apply objects_equiv_perm. apply reverse_Permutation.
Defined.

(**  The constructor accepts every well-formed arrangement whose size
    estimate (32 bytes, 9 per object, 12 plus the payload per component) is
    within [MaxFrameBytes], and returns it unchanged. *)
Theorem NewSnapshot_complete limits s :
  snapshot_inv (normalizeLimits limits) s ->
  snapshot_estimate s <= MaxFrameBytes (normalizeLimits limits) ->
  NewSnapshot (sn_Meta s) (sn_Objects s) limits = Ok s.
Proof. apply snapshot_inv_canonical. Qed.

Lemma NewSnapshot_complete_witness :
  NewSnapshot sample_meta (sn_Objects sample_snapshot) DefaultLimits = Ok sample_snapshot.
Proof.
  apply (NewSnapshot_complete DefaultLimits sample_snapshot).
  - apply (canonical_snapshot_inv DefaultLimits). vm_compute. reflexivity.
  - vm_compute. discriminate.
Defined.
