(* ===== verification/Merge.v ===== *)
(** * Merging two sorted lists

    The delta builders of the replication package walk two lists sorted by key
    with two indices.  This file has the walk once, as a list of operations, and
    the theorem that replaying any rendering of the operations on a map keyed
    like the first list turns it into the map of the second list.  The component
    and the object level of [Delta.v] are both instances. *)

From stdpp Require Import base list gmap sorting.
From Stdlib Require Import Lia.
From S2P Require Import Prelude.

Section Merge.
Context {K A : Type} `{Countable K} (key : A -> K) (klt : K -> K -> bool).
Context `{!StrictWeak klt}.
Hypothesis klt_total : forall a b, klt a b = false -> klt b a = false -> a = b.
Implicit Types (bs cs : list A) (b c : A) (m : gmap K A) (k : K).

Inductive mop :=
| MAdd c        (* only in the second list *)
| MDel b        (* only in the first list *)
| MBoth b c.    (* in both lists, with the same key *)

Fixpoint merge_ops bs : list A -> list mop :=
  fix inner cs : list mop :=
  match bs, cs with
  | [], [] => []
  | [], c :: cs' => MAdd c :: inner cs'
  | b :: bs', [] => MDel b :: merge_ops bs' []
  | b :: bs', c :: cs' =>
      if klt (key b) (key c) then MDel b :: merge_ops bs' cs
      else if klt (key c) (key b) then MAdd c :: inner cs'
      else MBoth b c :: merge_ops bs' cs'
  end.

Definition sorted_keys l : Prop := strictly_sorted (fun a b : A => klt (key a) (key b)) l.

(** What a merge does to a map: the second list wins, keys only in the first
    list disappear, all other keys are untouched. *)
Definition merged bs cs m k : option A :=
  match keyed_map key cs !! k with
  | Some c => Some c
  | None => if decide (k ∈ key <$> bs) then None else m !! k
  end.

(** The effect of one operation, with values related to the wanted ones. *)
Definition mop_effect (R : A -> A -> Prop) m (op : mop) m' : Prop :=
  match op with
  | MAdd c | MBoth _ c => exists c', R c' c /\ m' = <[key c := c']> m
  | MDel b => m' = delete (key b) m
  end.

Lemma sorted_keys_cons_inv b bs :
  sorted_keys (b :: bs) ->
  sorted_keys bs /\ (forall x, x ∈ bs -> klt (key b) (key x) = true)
  /\ key b ∉ key <$> bs.
Proof.
  intros [Hs Hall]%StronglySorted_inv. rewrite Forall_forall in Hall. split_and!; [done..|].
  intros (x & Heq & Hx)%list_elem_of_fmap. specialize (Hall _ Hx); simpl in Hall.
  by rewrite Heq, sw_irrefl in Hall.
Qed.

Lemma merge_ops_cons_cons b bs c cs :
  merge_ops (b :: bs) (c :: cs) =
  if klt (key b) (key c) then MDel b :: merge_ops bs (c :: cs)
  else if klt (key c) (key b) then MAdd c :: merge_ops (b :: bs) cs
  else MBoth b c :: merge_ops bs cs.
Proof. done. Qed.

Lemma not_key_of_lt b bs c :
  klt (key c) (key b) = true -> (forall x, x ∈ bs -> klt (key b) (key x) = true) ->
  key c ∉ key <$> b :: bs.
Proof.
  intros Hcb Hlt (x & Heq & Hx)%list_elem_of_fmap.
  assert (klt (key c) (key x) = true) as Hcx.
  { apply elem_of_cons in Hx as [->|Hx]; [done|]. eapply sw_trans; [done|by apply Hlt]. }
  by rewrite Heq, sw_irrefl in Hcx.
Qed.

(** Every operation is about elements of the two lists. *)
Definition mop_within bs cs (op : mop) : Prop :=
  match op with
  | MAdd c => c ∈ cs
  | MDel b => b ∈ bs
  | MBoth b c => b ∈ bs /\ c ∈ cs /\ key b = key c
  end.

Definition mop_key (op : mop) : K :=
  match op with MAdd c | MBoth _ c => key c | MDel b => key b end.

Lemma mop_within_mono bs cs bs' cs' op :
  bs ⊆ bs' -> cs ⊆ cs' -> mop_within bs cs op -> mop_within bs' cs' op.
Proof. destruct op; simpl; set_solver. Qed.

(** The keys of the operations increase strictly, and there are at most as many
    operations as elements. *)
Lemma merge_ops_spec bs cs :
  sorted_keys bs -> sorted_keys cs ->
  Forall (mop_within bs cs) (merge_ops bs cs)
  /\ NoDup (mop_key <$> merge_ops bs cs)
  /\ (length (merge_ops bs cs) <= length bs + length cs)%nat.
Proof.
  assert (Hcons : forall bs cs bs' cs' op ops n,
    bs ⊆ bs' -> cs ⊆ cs' -> mop_within bs' cs' op ->
    mop_key op ∉ key <$> bs -> mop_key op ∉ key <$> cs ->
    Forall (mop_within bs cs) ops /\ NoDup (mop_key <$> ops) /\ (length ops <= n)%nat ->
    Forall (mop_within bs' cs') (op :: ops) /\ NoDup (mop_key <$> op :: ops)
    /\ (length (op :: ops) <= S n)%nat).
  { intros bs0 cs0 bs' cs' op ops n Hb Hc Hop Hkb Hkc (HF & Hnd & Hn). split_and!.
    - constructor; [done|]. eapply Forall_impl; [exact HF|]. intros o. by apply mop_within_mono.
    - csimpl. constructor; [|done]. intros (o & Heq & Ho)%list_elem_of_fmap.
      rewrite Forall_forall in HF. specialize (HF _ Ho).
      destruct o; simpl in *; rewrite Heq in *; set_solver by eauto using list_elem_of_fmap_2.
    - simpl. lia. }
  revert cs. induction bs as [|b bs IHb]; intros cs Hsb Hsc.
  { induction cs as [|c cs IHc]; [by repeat constructor|].
    apply sorted_keys_cons_inv in Hsc as (Hsc & _ & Hc).
    apply (Hcons [] cs); [set_solver..|done|]. by apply IHc. }
  pose proof (sorted_keys_cons_inv _ _ Hsb) as (Hsb' & Hltb & Hb).
  induction cs as [|c cs IHc].
  { apply (Hcons bs []); [set_solver..|]. by apply IHb. }
  pose proof (sorted_keys_cons_inv _ _ Hsc) as (Hsc' & Hltc & Hc).
  rewrite merge_ops_cons_cons.
  destruct (klt (key b) (key c)) eqn:Hbc; [|destruct (klt (key c) (key b)) eqn:Hcb].
  - apply (Hcons bs (c :: cs)); [set_solver..|by apply not_key_of_lt|]. by apply IHb.
  - replace (length (b :: bs) + length (c :: cs))%nat
      with (S (length (b :: bs) + length cs)) by (simpl; lia).
    apply (Hcons (b :: bs) cs); [set_solver..|by apply not_key_of_lt|done|]. by apply IHc.
  - assert (Hkey : key b = key c) by (by apply klt_total).
    destruct (Hcons bs cs (b :: bs) (c :: cs) (MBoth b c) (merge_ops bs cs)
      (length bs + length cs)%nat) as (? & ? & ?); [set_solver..| |done| |].
    + simpl. by rewrite <-Hkey.
    + by apply IHb.
    + split_and!; [done..|]. simpl in *. lia.
Qed.

Section Replay.
Context {E D : Type} (step : gmap K A -> D -> result E (gmap K A)) (render : mop -> list D).
Context (R : A -> A -> Prop) `{!PreOrder R} (X : gset K) (Pb Pc : A -> Prop).
Hypothesis add_ok : forall m c, dom m ⊆ X -> Pc c ->
  exists m', foldM step m (render (MAdd c)) = Ok m' /\ mop_effect R m (MAdd c) m'.
Hypothesis del_ok : forall m b, dom m ⊆ X -> Pb b ->
  exists m', foldM step m (render (MDel b)) = Ok m' /\ mop_effect R m (MDel b) m'.
Hypothesis both_ok : forall m b c, dom m ⊆ X -> Pb b -> Pc c -> key b = key c ->
  m !! key b = Some b ->
  exists m', foldM step m (render (MBoth b c)) = Ok m' /\ mop_effect R m (MBoth b c) m'.
Hypothesis Pc_X : forall c, Pc c -> key c ∈ X.

Definition replay m ops : result E (gmap K A) := foldM step m (concat (render <$> ops)).

(** Adding an element whose key is below every remaining key. *)
Lemma merged_add bs c cs m c' k :
  R c' c -> key c ∉ key <$> bs -> key c ∉ key <$> cs ->
  option_Forall2 R (merged bs cs (<[key c := c']> m) k) (merged bs (c :: cs) m k).
Proof.
  intros HR Hb Hc. unfold merged. rewrite keyed_map_cons, !lookup_insert.
  destruct (decide (key c = k)) as [<-|Hne].
  - rewrite (proj2 (keyed_map_lookup_None _ _ _) Hc), decide_False by done. by constructor.
  - destruct (keyed_map key cs !! k); [by constructor|]. reflexivity.
Qed.

Lemma merged_del b bs cs m k :
  merged bs cs (delete (key b) m) k = merged (b :: bs) cs m k.
Proof.
  unfold merged. destruct (keyed_map key cs !! k); [done|]. csimpl.
  destruct (decide (k = key b)) as [->|Hne].
  - rewrite (decide_True (P := key b ∈ key b :: _)) by left.
    rewrite lookup_delete_eq. by case_decide.
  - rewrite lookup_delete_ne by done.
    destruct (decide (k ∈ key <$> bs)); [rewrite decide_True by (by right); done|].
    by rewrite decide_False by (by intros [|]%elem_of_cons).
Qed.

Lemma merged_both b bs c cs m c' k :
  R c' c -> key b = key c -> key c ∉ key <$> bs -> key c ∉ key <$> cs ->
  option_Forall2 R (merged bs cs (<[key c := c']> m) k) (merged (b :: bs) (c :: cs) m k).
Proof.
  intros HR Hbc Hb Hc.
  pose proof (merged_add bs c cs m c' k HR Hb Hc) as Hadd.
  assert (merged (b :: bs) (c :: cs) m k = merged bs (c :: cs) m k) as ->; [|done].
  unfold merged. rewrite keyed_map_cons, !lookup_insert. case_decide; [done|].
  destruct (keyed_map key cs !! k); [done|]. csimpl. rewrite Hbc.
  destruct (decide (k ∈ key <$> bs)); [rewrite decide_True by (by right); done|].
  by rewrite decide_False by (by intros [|]%elem_of_cons).
Qed.

Lemma related_trans (x y z : option A) :
  option_Forall2 R x y -> option_Forall2 R y z -> option_Forall2 R x z.
Proof. destruct 1; inversion 1; constructor. by etrans. Qed.

(** One operation followed by the replay of the rest. *)
Lemma replay_cons m op ops bs cs (spec : K -> option A) :
  (exists m1, foldM step m (render op) = Ok m1
     /\ (forall k, option_Forall2 R (merged bs cs m1 k) (spec k))
     /\ exists m', replay m1 ops = Ok m'
          /\ forall k, option_Forall2 R (m' !! k) (merged bs cs m1 k)) ->
  exists m', replay m (op :: ops) = Ok m' /\ forall k, option_Forall2 R (m' !! k) (spec k).
Proof.
  intros (m1 & Hop & Hspec & m' & Hrest & Hm'). exists m'. split.
  - unfold replay. csimpl. rewrite foldM_app, Hop. done.
  - intros k. eapply related_trans; [apply Hm'|apply Hspec].
Qed.

Lemma dom_insert_within m k (c : A) : dom m ⊆ X -> k ∈ X -> dom (<[k := c]> m) ⊆ X.
Proof. rewrite dom_insert_L. set_solver. Qed.

Lemma dom_delete_within m k : dom m ⊆ X -> dom (delete k m) ⊆ X.
Proof. rewrite dom_delete_L. set_solver. Qed.

Hint Resolve dom_insert_within dom_delete_within : core.

Lemma replay_merge_nil cs m :
  sorted_keys cs -> Forall Pc cs -> dom m ⊆ X ->
  exists m', replay m (merge_ops [] cs) = Ok m'
    /\ forall k, option_Forall2 R (m' !! k) (merged [] cs m k).
Proof.
  revert m. induction cs as [|c cs IH]; intros m Hs HP HX.
  { exists m. split; [done|]. intros k. unfold merged, keyed_map. csimpl.
    rewrite lookup_empty. by destruct (m !! k); constructor. }
  apply sorted_keys_cons_inv in Hs as (Hs & _ & Hc). apply Forall_cons in HP as [Hp HP].
  destruct (add_ok m c HX Hp) as (m1 & Hop & c' & HR & ->).
  apply replay_cons with [] cs. eexists. split_and!; [exact Hop| |].
  - intros k. apply merged_add; [done|set_solver|done].
  - apply IH; auto.
Qed.

Lemma replay_del b bs cs m :
  sorted_keys (b :: bs) -> Pb b -> dom m ⊆ X ->
  (forall x, x ∈ b :: bs -> m !! key x = Some x) ->
  (forall m, (forall x, x ∈ bs -> m !! key x = Some x) -> dom m ⊆ X ->
     exists m', replay m (merge_ops bs cs) = Ok m'
       /\ forall k, option_Forall2 R (m' !! k) (merged bs cs m k)) ->
  exists m', replay m (MDel b :: merge_ops bs cs) = Ok m'
    /\ forall k, option_Forall2 R (m' !! k) (merged (b :: bs) cs m k).
Proof.
  intros (_ & _ & Hb)%sorted_keys_cons_inv Hp HX Hm IH.
  destruct (del_ok m b HX Hp) as (m1 & Hop & ->).
  apply replay_cons with bs cs. eexists. split_and!; [exact Hop| |].
  - intros k. rewrite merged_del. reflexivity.
  - apply IH; auto. intros x Hx. rewrite lookup_delete_ne; [apply Hm; by right|].
    intros Heq. apply Hb. rewrite Heq. by apply list_elem_of_fmap_2.
Qed.

Lemma replay_merge bs cs m :
  sorted_keys bs -> sorted_keys cs -> Forall Pb bs -> Forall Pc cs ->
  (forall b, b ∈ bs -> m !! key b = Some b) -> dom m ⊆ X ->
  exists m', replay m (merge_ops bs cs) = Ok m'
    /\ forall k, option_Forall2 R (m' !! k) (merged bs cs m k).
Proof.
  revert cs m. induction bs as [|b bs IHb]; intros cs m Hsb Hsc HPb HPc Hm HX.
  { by apply replay_merge_nil. }
  pose proof (sorted_keys_cons_inv _ _ Hsb) as (Hsb' & Hlt & Hb).
  pose proof (Forall_cons_1 _ _ _ HPb) as [Hpb HPb'].
  revert m Hm HX. induction cs as [|c cs IHc]; intros m Hm HX.
  { apply replay_del; auto. }
  pose proof (sorted_keys_cons_inv _ _ Hsc) as (Hsc' & _ & Hc).
  pose proof (Forall_cons_1 _ _ _ HPc) as [Hpc HPc'].
  rewrite merge_ops_cons_cons.
  destruct (klt (key b) (key c)) eqn:Hbc; [by apply replay_del; auto|].
  destruct (klt (key c) (key b)) eqn:Hcb.
  - destruct (add_ok m c HX Hpc) as (m1 & Hop & c' & HR & ->).
    pose proof (not_key_of_lt _ _ _ Hcb Hlt) as Hnot.
    apply replay_cons with (b :: bs) cs. eexists. split_and!; [exact Hop| |].
    + intros k. by apply merged_add.
    + apply IHc; auto. intros x Hx. rewrite lookup_insert_ne; [by apply Hm|].
      intros Heq. apply Hnot. rewrite Heq. by apply list_elem_of_fmap_2.
  - assert (Hkey : key b = key c) by (by apply klt_total).
    destruct (both_ok m b c HX Hpb Hpc Hkey) as (m1 & Hop & c' & HR & ->);
      [apply Hm; by left|].
    rewrite Hkey in Hb. apply replay_cons with bs cs. eexists. split_and!; [exact Hop| |].
    + intros k. by apply merged_both.
    + apply IHb; auto. intros x Hx. rewrite lookup_insert_ne; [apply Hm; by right|].
      intros Heq. apply Hb. rewrite Heq. by apply list_elem_of_fmap_2.
Qed.

Lemma sorted_keys_NoDup l : sorted_keys l -> NoDup (key <$> l).
Proof.
  apply sorted_NoDup_keys. intros a b Hlt Heq. by rewrite Heq, sw_irrefl in Hlt.
Qed.

(** Replaying on the map of the first list yields the values of the second. *)
Lemma replay_merge_values bs cs :
  (forall b, Pb b -> key b ∈ X) ->
  sorted_keys bs -> sorted_keys cs -> Forall Pb bs -> Forall Pc cs ->
  exists m', replay (keyed_map key bs) (merge_ops bs cs) = Ok m'
    /\ exists l, (map_to_list m').*2 ≡ₚ l /\ Forall2 R l cs.
Proof.
  intros Pb_X Hbs Hcs HPb HPc.
  destruct (replay_merge bs cs (keyed_map key bs)) as (m' & Hrun & Hm'); [done..| | |].
  { intros b Hb. apply keyed_map_lookup; [by apply sorted_keys_NoDup|done]. }
  { rewrite dom_keyed_map. intros k. rewrite elem_of_list_to_set.
    intros (b & -> & Hb)%list_elem_of_fmap. rewrite Forall_forall in HPb. auto. }
  exists m'. split; [done|].
  assert (Hrel : forall k, option_Forall2 R (m' !! k) (keyed_map key cs !! k)).
  { intros k. specialize (Hm' k). unfold merged in Hm'.
    destruct (keyed_map key cs !! k); [done|].
    case_decide as Hk; [done|]. apply keyed_map_lookup_None in Hk. by rewrite Hk in Hm'. }
  destruct (map_values_related R _ _ Hrel) as (l & Hl & HR).
  destruct (Permutation_Forall2 (P := flip R)
              (keyed_map_values key cs (sorted_keys_NoDup _ Hcs)) (l2 := l)) as (l' & Hl' & HR').
  { by apply Forall2_flip. }
  exists l'. split; [by rewrite Hl|by apply Forall2_flip].
Qed.

End Replay.
End Merge.
