(* ===== verification/Delta.v ===== *)
(** * Delta frames

    [src/replication/delta.go]: [BuildDelta] compares two sorted snapshots by a
    merge, [ApplyDelta] replays the resulting operations on a client's copy.
    The central theorem is the round trip; its side condition (room for the
    union of both object sets while the frame is replayed) is necessary, as the
    last theorem of the file shows. *)

From stdpp Require Import base list gmap strings sorting.
From Stdlib Require Import ZArith Lia.
From S2P Require Import Prelude ReplTypes Snapshots Merge.

Local Open Scope Z_scope.

(** ** Building *)

Definition setComponentDelta (component : ComponentState) : ComponentDelta :=
  {| cd_Operation := ComponentSet; cd_TypeID := cs_TypeID component;
     cd_SchemaVersion := cs_SchemaVersion component; cd_Data := [] ++ cs_Data component |}.

Definition removeComponentDelta (component : ComponentState) : ComponentDelta :=
  {| cd_Operation := ComponentRemove; cd_TypeID := cs_TypeID component;
     cd_SchemaVersion := 0; cd_Data := [] |}.

Definition createObjectDelta (obj : ObjectState) : ObjectDelta :=
  {| od_Operation := ObjectCreate; od_Ref := os_Ref obj; od_Archetype := os_Archetype obj;
     od_Components := setComponentDelta <$> os_Components obj |}.

Definition removeObjectDelta (obj : ObjectState) : ObjectDelta :=
  {| od_Operation := ObjectRemove; od_Ref := os_Ref obj; od_Archetype := 0;
     od_Components := [] |}.

Definition updateObjectDelta (obj : ObjectState) (cs : list ComponentDelta) : ObjectDelta :=
  {| od_Operation := ObjectUpdate; od_Ref := os_Ref obj; od_Archetype := os_Archetype obj;
     od_Components := cs |}.

(** The two-index loop of the source advances through both lists; the nested
    fixpoint is that loop on the remaining suffixes. *)
Fixpoint diffComponents (base : list ComponentState)
    : list ComponentState -> list ComponentDelta :=
  fix inner (current : list ComponentState) : list ComponentDelta :=
  match base, current with
  | [], [] => []
  | [], c :: current' => setComponentDelta c :: inner current'
  | b :: base', [] => removeComponentDelta b :: diffComponents base' []
  | b :: base', c :: current' =>
      if cs_TypeID b <? cs_TypeID c then removeComponentDelta b :: diffComponents base' current
      else if cs_TypeID c <? cs_TypeID b then setComponentDelta c :: inner current'
      else if negb (cs_SchemaVersion b =? cs_SchemaVersion c)
              || negb (bool_decide (cs_Data b = cs_Data c))
      then setComponentDelta c :: diffComponents base' current'
      else diffComponents base' current'
  end.

Fixpoint diffObjects (base : list ObjectState) : list ObjectState -> list ObjectDelta :=
  fix inner (current : list ObjectState) : list ObjectDelta :=
  match base, current with
  | [], [] => []
  | [], c :: current' => createObjectDelta c :: inner current'
  | b :: base', [] => removeObjectDelta b :: diffObjects base' []
  | b :: base', c :: current' =>
      if ObjectRef_Less (os_Ref b) (os_Ref c)
      then removeObjectDelta b :: diffObjects base' current
      else if ObjectRef_Less (os_Ref c) (os_Ref b)
      then createObjectDelta c :: inner current'
      else if negb (os_Archetype b =? os_Archetype c)
      then createObjectDelta c :: diffObjects base' current'
      else match diffComponents (os_Components b) (os_Components c) with
           | [] => diffObjects base' current'
           | components => updateObjectDelta c components :: diffObjects base' current'
           end
  end.

Definition BuildDelta (base : option Snapshot) (current : Snapshot) : res DeltaFrame :=
  _ ← SnapshotMeta_validate (sn_Meta current);
  match base with
  | None => Ok (mkFrame (sn_Meta current) FrameFull 0
                  (createObjectDelta <$> sn_Objects current))
  | Some base =>
      let bm := sn_Meta base in
      let cm := sn_Meta current in
      if negb (sm_RoomID bm =? sm_RoomID cm) || negb (sm_Epoch bm =? sm_Epoch cm)
         || negb (sm_SchemaVersion bm =? sm_SchemaVersion cm) || (sm_Tick cm <=? sm_Tick bm)
      then Err ErrBaselineMismatch
      else Ok (mkFrame cm FrameDelta (sm_Tick bm)
                 (diffObjects (sn_Objects base) (sn_Objects current)))
  end.

(** ** Applying *)

Definition stepComponentDelta (limits : Limits) (components : gmap Z ComponentState)
    (delta : ComponentDelta) : res (gmap Z ComponentState) :=
  if cd_TypeID delta =? 0 then Err ErrInvalidFrame else
  components ←
    (if cd_Operation delta =? ComponentSet then
       if (cd_SchemaVersion delta =? 0) || (MaxComponentBytes limits <? len (cd_Data delta))
       then Err ErrComponentTooLarge
       else Ok (<[cd_TypeID delta :=
                   mkComponent (cd_TypeID delta) (cd_SchemaVersion delta) (cd_Data delta)]>
                 components)
     else if cd_Operation delta =? ComponentRemove
     then Ok (delete (cd_TypeID delta) components)
     else Err ErrInvalidFrame);
  if MaxComponentsPerObject limits <? Z.of_nat (size components)
  then Err ErrComponentLimit
  else Ok components.

(** Later duplicates of a type win when the base slice is loaded, as in Go. *)
Definition loadComponents (base : list ComponentState) : gmap Z ComponentState :=
  foldl (fun m c => <[cs_TypeID c := cloneComponent c]> m) ∅ base.

Definition applyComponentDeltas (base : list ComponentState) (deltas : list ComponentDelta)
    (limits : Limits) : res (list ComponentState) :=
  components ← foldM (stepComponentDelta limits) (loadComponents base) deltas;
  Ok (map_to_list components).*2.

Definition stepObjectDelta (limits : Limits) (objects : gmap ObjectRef ObjectState)
    (delta : ObjectDelta) : res (gmap ObjectRef ObjectState) :=
  if negb (ObjectRef_Valid (od_Ref delta)) then Err ErrInvalidObjectRef else
  objects ←
    (if od_Operation delta =? ObjectCreate then
       if od_Archetype delta =? 0 then Err ErrInvalidObjectRef else
       components ← applyComponentDeltas [] (od_Components delta) limits;
       Ok (<[od_Ref delta := mkObject (od_Ref delta) (od_Archetype delta) components]> objects)
     else if od_Operation delta =? ObjectUpdate then
       match objects !! od_Ref delta with
       | None => Err ErrObjectNotFound
       | Some obj =>
           if negb (od_Archetype delta =? 0)
              && negb (od_Archetype delta =? os_Archetype obj)
           then Err ErrInvalidFrame else
           components ← applyComponentDeltas (os_Components obj) (od_Components delta) limits;
           Ok (<[od_Ref delta := mkObject (os_Ref obj) (os_Archetype obj) components]> objects)
       end
     else if od_Operation delta =? ObjectRemove
     then Ok (delete (od_Ref delta) objects)
     else Err ErrInvalidFrame);
  if MaxObjects limits <? Z.of_nat (size objects) then Err ErrObjectLimit else Ok objects.

Definition loadObjects (base : list ObjectState) : gmap ObjectRef ObjectState :=
  foldl (fun m o => <[os_Ref o := cloneObject o]> m) ∅ base.

(** The objects a frame starts from: none for a full frame, those of the
    matching baseline for a delta frame. *)
Definition startObjects (base : option Snapshot) (frame : DeltaFrame)
    : res (gmap ObjectRef ObjectState) :=
  if df_Kind frame =? FrameFull then
    if negb (df_BaseTick frame =? 0) then Err ErrInvalidFrame else Ok ∅
  else if df_Kind frame =? FrameDelta then
    match base with
    | None => Err ErrBaselineMismatch
    | Some b =>
        let bm := sn_Meta b in
        let fm := df_Meta frame in
        if (df_BaseTick frame =? 0) || negb (sm_Tick bm =? df_BaseTick frame)
           || negb (sm_RoomID bm =? sm_RoomID fm) || negb (sm_Epoch bm =? sm_Epoch fm)
           || negb (sm_SchemaVersion bm =? sm_SchemaVersion fm)
        then Err ErrBaselineMismatch
        else Ok (loadObjects (sn_Objects b))
    end
  else Err ErrInvalidFrame.

Definition ApplyDelta (base : option Snapshot) (frame : DeltaFrame) (limits : Limits)
    : res Snapshot :=
  let limits := normalizeLimits limits in
  _ ← SnapshotMeta_validate (df_Meta frame);
  objects ← startObjects base frame;
  objects ← foldM (stepObjectDelta limits) objects (df_Objects frame);
  NewSnapshot (df_Meta frame) (map_to_list objects).*2 limits.

(** ** Specification *)

Definition component_types (o : ObjectState) : gset Z :=
  list_to_set (cs_TypeID <$> os_Components o).
Definition object_refs (s : Snapshot) : gset ObjectRef :=
  list_to_set (os_Ref <$> sn_Objects s).

(** Room to hold the union of both states while the operations are replayed. *)
Definition delta_headroom (limits : Limits) (base current : Snapshot) : Prop :=
  Z.of_nat (size (object_refs base ∪ object_refs current)) <= MaxObjects limits
  /\ forall b c, b ∈ sn_Objects base -> c ∈ sn_Objects current -> os_Ref b = os_Ref c ->
       os_Archetype b = os_Archetype c ->
       Z.of_nat (size (component_types b ∪ component_types c))
         <= MaxComponentsPerObject limits.

(** ** Lemmas *)

Lemma types_NoDup l : strictly_sorted component_less l -> NoDup (cs_TypeID <$> l).
Proof.
  apply sorted_NoDup_keys. unfold component_less. intros a b ?%Z.ltb_lt. lia.
Qed.

Lemma refs_NoDup l : strictly_sorted object_less l -> NoDup (os_Ref <$> l).
Proof.
  apply sorted_NoDup_keys. unfold object_less. intros a b Hlt Heq.
  by rewrite Heq, sw_irrefl in Hlt.
Qed.

#[export] Hint Resolve types_NoDup refs_NoDup : core.

Lemma loadComponents_sorted l :
  strictly_sorted component_less l -> loadComponents l = keyed_map cs_TypeID l.
Proof.
  intros Hs. unfold loadComponents. rewrite <-keyed_map_load_empty by auto.
  generalize (∅ : gmap Z ComponentState). clear Hs.
  induction l as [|c l IH]; intros m; simpl; [done|]. by rewrite cloneComponent_id, IH.
Qed.

Lemma loadObjects_sorted l :
  strictly_sorted object_less l -> loadObjects l = keyed_map os_Ref l.
Proof.
  intros Hs. unfold loadObjects. rewrite <-keyed_map_load_empty by auto.
  generalize (∅ : gmap ObjectRef ObjectState). clear Hs.
  induction l as [|o l IH]; intros m; simpl; [done|]. by rewrite cloneObject_id, IH.
Qed.

(** Equations of the merge loops. *)
Lemma diffComponents_nil_cons c cs :
  diffComponents [] (c :: cs) = setComponentDelta c :: diffComponents [] cs.
Proof. done. Qed.

Lemma diffComponents_cons_nil b bs :
  diffComponents (b :: bs) [] = removeComponentDelta b :: diffComponents bs [].
Proof. done. Qed.

Lemma diffComponents_cons_cons b bs c cs :
  diffComponents (b :: bs) (c :: cs) =
  if cs_TypeID b <? cs_TypeID c then removeComponentDelta b :: diffComponents bs (c :: cs)
  else if cs_TypeID c <? cs_TypeID b then setComponentDelta c :: diffComponents (b :: bs) cs
  else if negb (cs_SchemaVersion b =? cs_SchemaVersion c)
          || negb (bool_decide (cs_Data b = cs_Data c))
  then setComponentDelta c :: diffComponents bs cs
  else diffComponents bs cs.
Proof. done. Qed.

Lemma diffObjects_nil_cons c cs :
  diffObjects [] (c :: cs) = createObjectDelta c :: diffObjects [] cs.
Proof. done. Qed.

Lemma diffObjects_cons_nil b bs :
  diffObjects (b :: bs) [] = removeObjectDelta b :: diffObjects bs [].
Proof. done. Qed.

Lemma diffObjects_cons_cons b bs c cs :
  diffObjects (b :: bs) (c :: cs) =
  if ObjectRef_Less (os_Ref b) (os_Ref c)
  then removeObjectDelta b :: diffObjects bs (c :: cs)
  else if ObjectRef_Less (os_Ref c) (os_Ref b)
  then createObjectDelta c :: diffObjects (b :: bs) cs
  else if negb (os_Archetype b =? os_Archetype c)
  then createObjectDelta c :: diffObjects bs cs
  else match diffComponents (os_Components b) (os_Components c) with
       | [] => diffObjects bs cs
       | components => updateObjectDelta c components :: diffObjects bs cs
       end.
Proof. done. Qed.

Lemma diffObjects_nil cs : diffObjects [] cs = createObjectDelta <$> cs.
Proof. induction cs as [|c cs IH]; [done|]. by rewrite diffObjects_nil_cons, IH. Qed.

Lemma diffComponents_nil cs : diffComponents [] cs = setComponentDelta <$> cs.
Proof. induction cs as [|c cs IH]; [done|]. by rewrite diffComponents_nil_cons, IH. Qed.

(** An empty component diff means equal components. *)
Lemma diffComponents_eq bs cs : diffComponents bs cs = [] -> bs = cs.
Proof.
  revert cs. induction bs as [|b bs IH]; intros cs.
  { rewrite diffComponents_nil. by destruct cs. }
  destruct cs as [|c cs]; [by rewrite diffComponents_cons_nil|].
  rewrite diffComponents_cons_cons. repeat case_match; try done.
  intros ->%IH. bool_to_prop. f_equal. destruct b, c; simpl in *. f_equal; [lia|done..].
Qed.

(** Single steps of the replay. *)
Lemma step_setComponent limits m c :
  component_ok limits c ->
  Z.of_nat (size (<[cs_TypeID c := c]> m)) <= MaxComponentsPerObject limits ->
  stepComponentDelta limits m (setComponentDelta c) = Ok (<[cs_TypeID c := c]> m).
Proof.
  intros (Ht & Hv & Hd) Hsize. unfold stepComponentDelta; cbn.
  rewrite (proj2 (Z.eqb_neq _ _) Ht), (proj2 (Z.eqb_neq _ _) Hv).
  rewrite (proj2 (Z.ltb_ge _ _) Hd). destruct c as [t v d]; cbn in *.
  by rewrite (proj2 (Z.ltb_ge _ _) Hsize).
Qed.

Lemma step_removeComponent limits m c :
  cs_TypeID c <> 0 ->
  Z.of_nat (size (delete (cs_TypeID c) m)) <= MaxComponentsPerObject limits ->
  stepComponentDelta limits m (removeComponentDelta c) = Ok (delete (cs_TypeID c) m).
Proof.
  intros Ht Hsize. unfold stepComponentDelta; cbn.
  by rewrite (proj2 (Z.eqb_neq _ _) Ht), (proj2 (Z.ltb_ge _ _) Hsize).
Qed.

(** A map whose domain is within a bounded set has a bounded size. *)
Lemma size_within {K A} `{Countable K} (m : gmap K A) (X : gset K) n :
  dom m ⊆ X -> Z.of_nat (size X) <= n -> Z.of_nat (size m) <= n.
Proof.
  intros Hsub Hn. rewrite <-size_dom. apply subseteq_size in Hsub. lia.
Qed.

(** *** The component level *)

Definition renderComponent (op : mop) : list ComponentDelta :=
  match op with
  | MAdd c => [setComponentDelta c]
  | MDel b => [removeComponentDelta b]
  | MBoth b c =>
      if negb (cs_SchemaVersion b =? cs_SchemaVersion c)
         || negb (bool_decide (cs_Data b = cs_Data c))
      then [setComponentDelta c] else []
  end.

Lemma diffComponents_merge bs cs :
  diffComponents bs cs = concat (renderComponent <$> merge_ops cs_TypeID Z.ltb bs cs).
Proof.
  revert cs. induction bs as [|b bs IHb]; intros cs.
  { induction cs as [|c cs IH]; [done|]. by rewrite diffComponents_nil_cons, IH. }
  induction cs as [|c cs IHc].
  { rewrite diffComponents_cons_nil, IHb. done. }
  rewrite diffComponents_cons_cons, merge_ops_cons_cons.
  destruct (cs_TypeID b <? cs_TypeID c); [by rewrite IHb|].
  destruct (cs_TypeID c <? cs_TypeID b); [by rewrite IHc|].
  csimpl. rewrite IHb. by case_match.
Qed.

#[export] Instance Zltb_strict_weak : StrictWeak Z.ltb.
Proof. split; intros *; rewrite ?Z.ltb_lt, ?Z.ltb_ge; lia. Qed.

Section ComponentReplay.
Context (limits : Limits) (X : gset Z).
Hypothesis X_small : Z.of_nat (size X) <= MaxComponentsPerObject limits.

Definition replayable (c : ComponentState) : Prop :=
  component_ok limits c /\ cs_TypeID c ∈ X.

Lemma replay_set m c :
  dom m ⊆ X -> replayable c ->
  exists m', foldM (stepComponentDelta limits) m [setComponentDelta c] = Ok m'
    /\ mop_effect cs_TypeID eq m (MAdd c) m'.
Proof.
  intros HX [Hok Hc]. eexists. split; [|by exists c]. simpl.
  rewrite step_setComponent; [done|done|].
  eapply size_within; [|done]. rewrite dom_insert_L. set_solver.
Qed.

Lemma replay_remove m b :
  dom m ⊆ X -> replayable b ->
  exists m', foldM (stepComponentDelta limits) m [removeComponentDelta b] = Ok m'
    /\ mop_effect cs_TypeID eq m (MDel b) m'.
Proof.
  intros HX [(Ht & _) Hc]. eexists. split; [|done]. simpl.
  rewrite step_removeComponent; [done|done|].
  eapply size_within; [|done]. rewrite dom_delete_L. set_solver.
Qed.

Lemma replay_both m b c :
  dom m ⊆ X -> replayable b -> replayable c -> cs_TypeID b = cs_TypeID c ->
  m !! cs_TypeID b = Some b ->
  exists m', foldM (stepComponentDelta limits) m (renderComponent (MBoth b c)) = Ok m'
    /\ mop_effect cs_TypeID eq m (MBoth b c) m'.
Proof.
  intros HX Hb Hc Hkey Hm. simpl renderComponent.
  case_match eqn:Hdiff; [by apply replay_set|]. bool_to_prop.
  assert (b = c) as <- by (destruct b, c; simpl in *; congruence).
  exists m. split; [done|]. exists b. split; [done|]. by rewrite insert_id.
Qed.

(** Replaying a component diff on the base gives the current components. *)
Lemma applyComponentDeltas_diff bs cs :
  strictly_sorted component_less bs -> strictly_sorted component_less cs ->
  Forall replayable bs -> Forall replayable cs ->
  exists out, applyComponentDeltas bs (diffComponents bs cs) limits = Ok out /\ out ≡ₚ cs.
Proof.
  intros Hbs Hcs Hbok Hcok. unfold applyComponentDeltas.
  rewrite loadComponents_sorted, diffComponents_merge by done.
  destruct (replay_merge_values cs_TypeID Z.ltb ltac:(intros; bool_to_prop; lia)
    (stepComponentDelta limits) renderComponent eq X replayable replayable
    replay_set replay_remove replay_both ltac:(by intros c [??]) bs cs)
    as (m' & Hrun & l & Hl & Heq); [by intros c [??]|done..|].
  unfold replay in Hrun. rewrite Hrun. eexists. split; [done|].
  rewrite Hl. by apply list_eq_Forall2 in Heq as ->.
Qed.

End ComponentReplay.

(** *** The object level *)

Definition renderObject (op : mop) : list ObjectDelta :=
  match op with
  | MAdd c => [createObjectDelta c]
  | MDel b => [removeObjectDelta b]
  | MBoth b c =>
      if negb (os_Archetype b =? os_Archetype c) then [createObjectDelta c]
      else match diffComponents (os_Components b) (os_Components c) with
           | [] => []
           | components => [updateObjectDelta c components]
           end
  end.

Lemma diffObjects_merge bs cs :
  diffObjects bs cs = concat (renderObject <$> merge_ops os_Ref ObjectRef_Less bs cs).
Proof.
  revert cs. induction bs as [|b bs IHb]; intros cs.
  { induction cs as [|c cs IH]; [done|]. by rewrite diffObjects_nil_cons, IH. }
  induction cs as [|c cs IHc].
  { rewrite diffObjects_cons_nil, IHb. done. }
  rewrite diffObjects_cons_cons, merge_ops_cons_cons.
  destruct (ObjectRef_Less (os_Ref b) (os_Ref c)); [by rewrite IHb|].
  destruct (ObjectRef_Less (os_Ref c) (os_Ref b)); [by rewrite IHc|].
  csimpl. rewrite IHb. by repeat case_match.
Qed.

Lemma component_types_size limits o :
  object_ok limits o -> Z.of_nat (size (component_types o)) <= MaxComponentsPerObject limits.
Proof.
  intros (_ & _ & Hn & Hs & _). unfold component_types.
  rewrite size_list_to_set by auto. rewrite length_fmap. done.
Qed.

Lemma components_replayable limits o (X : gset Z) :
  object_ok limits o -> component_types o ⊆ X ->
  Forall (replayable limits X) (os_Components o).
Proof.
  intros (_ & _ & _ & _ & Hok) HX. rewrite Forall_forall in Hok |- *. intros c Hc.
  split; [by apply Hok|]. apply HX. unfold component_types.
  apply elem_of_list_to_set. by apply list_elem_of_fmap_2.
Qed.

Ltac unfold_step f :=
  unfold stepObjectDelta, f; cbn [od_Ref od_Operation od_Archetype od_Components];
  cbv [ObjectCreate ObjectUpdate ObjectRemove]; cbn [Z.eqb Pos.eqb].

Lemma step_createObject limits m c :
  object_ok limits c ->
  Z.of_nat (size ({[os_Ref c]} ∪ dom m : gset ObjectRef)) <= MaxObjects limits ->
  exists c', object_equiv c' c /\
    stepObjectDelta limits m (createObjectDelta c) = Ok (<[os_Ref c := c']> m).
Proof.
  intros Hok Hsize. pose proof Hok as (Hr & Ha & _ & Hs & _).
  destruct (applyComponentDeltas_diff limits (component_types c)
    (component_types_size _ _ Hok) [] (os_Components c)) as (out & Hout & Hp);
    [constructor|done|constructor|by apply components_replayable|].
  exists (mkObject (os_Ref c) (os_Archetype c) out). split; [done|].
  rewrite diffComponents_nil in Hout. unfold_step createObjectDelta.
  rewrite Hr, (proj2 (Z.eqb_neq _ _) Ha), Hout. run_bind.
  rewrite <-(dom_insert_L m _ (mkObject (os_Ref c) (os_Archetype c) out)), size_dom in Hsize.
  by rewrite (proj2 (Z.ltb_ge _ _) Hsize).
Qed.

Lemma step_updateObject limits m b c :
  object_ok limits b -> object_ok limits c ->
  os_Ref b = os_Ref c -> os_Archetype b = os_Archetype c ->
  m !! os_Ref b = Some b ->
  Z.of_nat (size (component_types b ∪ component_types c)) <= MaxComponentsPerObject limits ->
  Z.of_nat (size ({[os_Ref c]} ∪ dom m : gset ObjectRef)) <= MaxObjects limits ->
  exists c', object_equiv c' c /\
    stepObjectDelta limits m
      (updateObjectDelta c (diffComponents (os_Components b) (os_Components c)))
    = Ok (<[os_Ref c := c']> m).
Proof.
  intros Hb Hc Hr Ha Hm HX Hsize. pose proof Hc as (Hv & Hz & _ & Hcs & _).
  destruct (applyComponentDeltas_diff limits _ HX (os_Components b) (os_Components c))
    as (out & Hout & Hp);
    [by destruct Hb as (_ & _ & _ & ? & _)|done|
     apply components_replayable; [done|set_solver]..|].
  exists (mkObject (os_Ref b) (os_Archetype b) out). split; [done|].
  unfold_step updateObjectDelta. rewrite Hv, <-Hr, Hm, Ha, Z.eqb_refl.
  rewrite andb_false_r, Hout. run_bind.
  rewrite <-(dom_insert_L m _ (mkObject (os_Ref b) (os_Archetype c) out)), size_dom in Hsize.
  rewrite <-Hr in Hsize. by rewrite (proj2 (Z.ltb_ge _ _) Hsize).
Qed.

Lemma step_removeObject limits m b :
  ObjectRef_Valid (os_Ref b) = true -> Z.of_nat (size m) <= MaxObjects limits ->
  stepObjectDelta limits m (removeObjectDelta b) = Ok (delete (os_Ref b) m).
Proof.
  intros Hr Hsize. unfold_step removeObjectDelta. rewrite Hr. run_bind.
  assert (Hs : Z.of_nat (size (delete (os_Ref b) m)) <= MaxObjects limits).
  { eapply size_within; [|by rewrite <-size_dom in Hsize]. rewrite dom_delete_L. set_solver. }
  by rewrite (proj2 (Z.ltb_ge _ _) Hs).
Qed.

Section ObjectReplay.
Context (limits : Limits) (X : gset ObjectRef) (base current : list ObjectState).
Hypothesis X_small : Z.of_nat (size X) <= MaxObjects limits.
Hypothesis room : forall b c, b ∈ base -> c ∈ current -> os_Ref b = os_Ref c ->
  os_Archetype b = os_Archetype c ->
  Z.of_nat (size (component_types b ∪ component_types c)) <= MaxComponentsPerObject limits.

Definition old_object (o : ObjectState) : Prop :=
  object_ok limits o /\ o ∈ base /\ os_Ref o ∈ X.
Definition new_object (o : ObjectState) : Prop :=
  object_ok limits o /\ o ∈ current /\ os_Ref o ∈ X.

Lemma within_X (m : gmap ObjectRef ObjectState) r :
  dom m ⊆ X -> r ∈ X -> Z.of_nat (size ({[r]} ∪ dom m : gset ObjectRef)) <= MaxObjects limits.
Proof.
  intros HX Hr. etrans; [|exact X_small]. apply inj_le, subseteq_size. set_solver.
Qed.

Lemma replay_create m c :
  dom m ⊆ X -> new_object c ->
  exists m', foldM (stepObjectDelta limits) m [createObjectDelta c] = Ok m'
    /\ mop_effect os_Ref object_equiv m (MAdd c) m'.
Proof.
  intros HX (Hok & _ & Hc).
  destruct (step_createObject limits m c Hok (within_X _ _ HX Hc)) as (c' & Heq & Hstep).
  eexists. split; [simpl; by rewrite Hstep|]. by exists c'.
Qed.

Lemma replay_drop m b :
  dom m ⊆ X -> old_object b ->
  exists m', foldM (stepObjectDelta limits) m [removeObjectDelta b] = Ok m'
    /\ mop_effect os_Ref object_equiv m (MDel b) m'.
Proof.
  intros HX ((Hr & _) & _ & Hb). eexists. split; [|done]. simpl.
  rewrite step_removeObject; [done|done|by eapply size_within].
Qed.

Lemma replay_change m b c :
  dom m ⊆ X -> old_object b -> new_object c -> os_Ref b = os_Ref c ->
  m !! os_Ref b = Some b ->
  exists m', foldM (stepObjectDelta limits) m (renderObject (MBoth b c)) = Ok m'
    /\ mop_effect os_Ref object_equiv m (MBoth b c) m'.
Proof.
  intros HX (Hbok & Hb & _) Hc Hr Hm. simpl renderObject.
  destruct (Z.eqb_spec (os_Archetype b) (os_Archetype c)) as [Ha|]; [|by apply replay_create].
  destruct Hc as (Hcok & Hc & HcX). simpl.
  destruct (diffComponents (os_Components b) (os_Components c)) as [|d ds] eqn:Hdiff.
  - apply diffComponents_eq in Hdiff.
    assert (b = c) as <- by (destruct b, c; simpl in *; congruence).
    exists m. split; [done|]. exists b. split; [done|]. by rewrite insert_id.
  - destruct (step_updateObject limits m b c) as (c' & Heq & Hstep);
      [done..|by apply room|by apply within_X|].
    rewrite Hdiff in Hstep. eexists. split; [simpl; by rewrite Hstep|]. by exists c'.
Qed.

(** Replaying an object diff gives the current objects up to order. *)
Lemma foldObjectDeltas_diff bs cs :
  strictly_sorted object_less bs -> strictly_sorted object_less cs ->
  Forall old_object bs -> Forall new_object cs ->
  exists m', foldM (stepObjectDelta limits) (keyed_map os_Ref bs) (diffObjects bs cs) = Ok m'
    /\ objects_equiv (map_to_list m').*2 cs.
Proof.
  intros Hbs Hcs Hbok Hcok. rewrite diffObjects_merge.
  destruct (replay_merge_values os_Ref ObjectRef_Less ObjectRef_Less_total
    (stepObjectDelta limits) renderObject object_equiv X old_object new_object
    replay_create replay_drop replay_change ltac:(by intros c (?&?&?)) bs cs)
    as (m' & Hrun & l & Hl & Heq); [by intros c (?&?&?)|done..|].
  exists m'. split; [done|]. by exists l.
Qed.

End ObjectReplay.

(** *** Whole frames *)

Lemma canonical_objects limits s :
  canonical limits s ->
  strictly_sorted object_less (sn_Objects s)
  /\ Forall (object_ok (normalizeLimits limits)) (sn_Objects s).
Proof. by intros [_ _ ??]%canonical_snapshot_inv. Qed.

(** The last step of [ApplyDelta] restores the canonical form. *)
Lemma NewSnapshot_finish limits s l :
  canonical limits s -> objects_equiv l (sn_Objects s) ->
  NewSnapshot (sn_Meta s) l (normalizeLimits limits) = Ok s.
Proof.
  intros Hc Hl. pose proof (NewSnapshot_rearranged _ _ _ _ _ Hc Hl) as H.
  unfold NewSnapshot in *. by rewrite normalizeLimits_idemp.
Qed.

Lemma object_refs_size limits s :
  canonical limits s ->
  Z.of_nat (size (object_refs s)) <= MaxObjects (normalizeLimits limits).
Proof.
  intros Hc. pose proof (canonical_objects _ _ Hc) as [Hs _].
  apply canonical_snapshot_inv in Hc as [_ Hn _ _].
  unfold object_refs. rewrite size_list_to_set by auto. by rewrite length_fmap.
Qed.

Lemma elem_of_object_refs o s : o ∈ sn_Objects s -> os_Ref o ∈ object_refs s.
Proof.
  intros Ho. unfold object_refs. apply elem_of_list_to_set. by apply list_elem_of_fmap_2.
Qed.

Lemma apply_build_none limits base current frame :
  canonical limits current -> BuildDelta None current = Ok frame ->
  ApplyDelta base frame limits = Ok current.
Proof.
  intros Hc Hb. pose proof (canonical_objects _ _ Hc) as [Hs Hok].
  unfold BuildDelta in Hb. ok_inv. unfold ApplyDelta. cbn [df_Meta df_Objects].
  rewrite E. run_bind. unfold startObjects. cbn [df_Kind df_BaseTick].
  rewrite Z.eqb_refl. cbn [Z.eqb negb]. run_bind. rewrite <-diffObjects_nil.
  destruct (foldObjectDeltas_diff (normalizeLimits limits) (object_refs current) []
    (sn_Objects current) (object_refs_size _ _ Hc)) with (bs := @nil ObjectState)
    (cs := sn_Objects current) as (m' & Hrun & Heq); [|constructor|done|constructor| |].
  - by intros b c ?%not_elem_of_nil.
  - rewrite Forall_forall in Hok |- *. intros o Ho.
    split_and!; [by apply Hok|done|by apply elem_of_object_refs].
  - change (keyed_map os_Ref (@nil ObjectState)) with (∅ : gmap ObjectRef ObjectState) in Hrun.
    rewrite Hrun. run_bind.
    by apply NewSnapshot_finish.
Qed.

Lemma apply_build_some limits base current frame :
  canonical limits base -> canonical limits current ->
  delta_headroom (normalizeLimits limits) base current ->
  BuildDelta (Some base) current = Ok frame ->
  ApplyDelta (Some base) frame limits = Ok current.
Proof.
  intros Hcb Hcc [HX Hroom] Hb.
  pose proof (canonical_objects _ _ Hcb) as [Hsb Hokb].
  pose proof (canonical_objects _ _ Hcc) as [Hsc Hokc].
  assert (Htick : sm_Tick (sn_Meta base) <> 0).
  { apply canonical_snapshot_inv in Hcb as [Hm _ _ _].
    by apply SnapshotMeta_validate_ok in Hm as (_ & _ & ? & _). }
  unfold BuildDelta in Hb. ok_inv. bool_to_prop. unfold ApplyDelta. cbn [df_Meta df_Objects].
  rewrite E. run_bind. unfold startObjects. cbn [df_Kind df_BaseTick df_Meta].
  cbv [FrameFull FrameDelta]. cbn [Z.eqb Pos.eqb].
  rewrite (proj2 (Z.eqb_neq _ _) Htick), Z.eqb_refl.
  rewrite (proj2 (Z.eqb_eq _ _)), (proj2 (Z.eqb_eq _ _)), (proj2 (Z.eqb_eq _ _)) by done.
  cbn [negb orb]. run_bind. rewrite loadObjects_sorted by done.
  destruct (foldObjectDeltas_diff (normalizeLimits limits)
    (object_refs base ∪ object_refs current) (sn_Objects base) (sn_Objects current) HX Hroom
    (sn_Objects base) (sn_Objects current)) as (m' & Hrun & Heq); [done..| | |].
  - rewrite Forall_forall in Hokb |- *. intros o Ho.
    split_and!; [by apply Hokb|done|]. apply elem_of_object_refs in Ho. set_solver.
  - rewrite Forall_forall in Hokc |- *. intros o Ho.
    split_and!; [by apply Hokc|done|]. apply elem_of_object_refs in Ho. set_solver.
  - rewrite Hrun. run_bind. by apply NewSnapshot_finish.
Qed.

Lemma diffComponents_refl cs : diffComponents cs cs = [].
Proof.
  induction cs as [|c cs IH]; [done|].
  by rewrite diffComponents_cons_cons, Z.ltb_irrefl, Z.eqb_refl, bool_decide_true, IH.
Qed.

Lemma diffObjects_eq bs cs : diffObjects bs cs = [] <-> bs = cs.
Proof.
  split; [|intros <-; induction bs as [|b bs IH]; [done|];
    by rewrite diffObjects_cons_cons, sw_irrefl, Z.eqb_refl, diffComponents_refl].
  revert cs. induction bs as [|b bs IH]; intros cs.
  { rewrite diffObjects_nil. by destruct cs. }
  destruct cs as [|c cs]; [by rewrite diffObjects_cons_nil|].
  rewrite diffObjects_cons_cons. repeat case_match; try done.
  intros ->%IH. bool_to_prop. f_equal.
  destruct b, c; simpl in *. f_equal; [|done|by apply diffComponents_eq].
  by apply ObjectRef_Less_total.
Qed.

(** ** Properties *)

(** A later state of the room of [sample_snapshot]: one object changed, one
    removed, one created. *)
Definition next_snapshot : Snapshot := mkSnapshot (mkMeta 7 1 6 2)
  [ mkObject (mkRef 1 1) 3 [mkComponent 2 1 [Byte.x05]; mkComponent 3 1 []];
    mkObject (mkRef 4 2) 8 [] ].

Definition expected_frame : DeltaFrame := mkFrame (mkMeta 7 1 6 2) FrameDelta 5
  [ updateObjectDelta (mkObject (mkRef 1 1) 3 [])
      [mkComponentDelta ComponentSet 2 1 [Byte.x05]; mkComponentDelta ComponentSet 3 1 []];
    createObjectDelta (mkObject (mkRef 4 2) 8 []);
    removeObjectDelta (mkObject (mkRef 9 1) 3 []) ].

Example BuildDelta_sample : BuildDelta (Some sample_snapshot) next_snapshot = Ok expected_frame.
Proof. vm_compute. reflexivity. Qed.

(** A full frame reproduces the snapshot it was built from on a client in any
    state. *)
Theorem ApplyDelta_full_roundtrip limits base current frame :
  canonical limits current -> BuildDelta None current = Ok frame ->
  ApplyDelta base frame limits = Ok current.
Proof. apply apply_build_none. Qed.

Lemma ApplyDelta_full_roundtrip_witness :
  exists frame, BuildDelta None sample_snapshot = Ok frame
    /\ ApplyDelta (Some next_snapshot) frame DefaultLimits = Ok sample_snapshot.
Proof.
  eexists. split; [vm_compute; reflexivity|].
  apply (ApplyDelta_full_roundtrip _ _ sample_snapshot); vm_compute; reflexivity.
Defined.

(** C4. A delta frame built from two canonical snapshots, applied to the first,
    gives exactly the second, when the limits leave room for the union of the
    two states ([delta_headroom]; [ApplyDelta_transient_limit] shows that the
    second alone being within the limits is not enough). *)
Theorem ApplyDelta_delta_roundtrip limits base current frame :
  canonical limits base -> canonical limits current ->
  delta_headroom (normalizeLimits limits) base current ->
  BuildDelta (Some base) current = Ok frame ->
  ApplyDelta (Some base) frame limits = Ok current.
Proof. apply apply_build_some. Qed.

Lemma sample_headroom :
  delta_headroom (normalizeLimits DefaultLimits) sample_snapshot next_snapshot.
Proof.
  split; [vm_compute; discriminate|]. intros b c Hb Hc _ _.
  repeat (apply elem_of_cons in Hb as [->|Hb];
    [repeat (apply elem_of_cons in Hc as [->|Hc]; [vm_compute; discriminate|]);
     by apply not_elem_of_nil in Hc|]).
  by apply not_elem_of_nil in Hb.
Qed.

Lemma ApplyDelta_delta_roundtrip_witness :
  ApplyDelta (Some sample_snapshot) expected_frame DefaultLimits = Ok next_snapshot.
Proof.
  apply (ApplyDelta_delta_roundtrip _ sample_snapshot).
  - vm_compute. reflexivity.
  - vm_compute. reflexivity.
  - apply sample_headroom.
  - vm_compute. reflexivity.
Defined.

(** A delta frame carries no operation exactly when the two snapshots hold the
    same objects: unchanged state costs no payload and every change is sent. *)
Theorem BuildDelta_empty_iff base current frame :
  BuildDelta (Some base) current = Ok frame ->
  df_Objects frame = [] <-> sn_Objects base = sn_Objects current.
Proof.
  unfold BuildDelta. intros H. ok_inv. cbn [df_Objects]. apply diffObjects_eq.
Qed.

Lemma BuildDelta_empty_iff_witness :
  df_Objects expected_frame = [] <-> sn_Objects sample_snapshot = sn_Objects next_snapshot.
Proof. apply BuildDelta_empty_iff. vm_compute. reflexivity. Defined.

(** A room whose [n] objects have the identifiers from [start] on. *)
Definition shifted_room (tick start : Z) (n : nat) : Snapshot :=
  mkSnapshot (mkMeta 7 1 tick 2)
    ((fun i => mkObject (mkRef (start + Z.of_nat i) 1) 1 []) <$> seq 0 n).

(** Without that room the round trip fails: two snapshots of 100 objects are
    both within the default limits and differ by a frame that the builder
    produces, but replaying it creates the 101st object before the first
    removal and [ApplyDelta] answers [ErrObjectLimit]. *)
Theorem ApplyDelta_transient_limit :
  exists base current frame,
    canonical DefaultLimits base /\ canonical DefaultLimits current
    /\ BuildDelta (Some base) current = Ok frame
    /\ ApplyDelta (Some base) frame DefaultLimits = Err ErrObjectLimit.
Proof.
  exists (shifted_room 1 101 100), (shifted_room 2 1 100). eexists.
  split_and!; [vm_compute; reflexivity..| |].
  - vm_compute. reflexivity.
  - vm_compute. reflexivity.
Qed.
