(* ===== verification/Wire.v ===== *)
(** * Bytes on the wire

    What the replication package uses of Go's [encoding/binary] (big endian
    integers), [hash/crc32] (the IEEE polynomial, reflected) and its own FNV-1a
    loop.  The lemmas are the round trips of the integer encoding and the fact
    that both checksums separate inputs that differ in a single byte. *)

From stdpp Require Import base list gmap.
From Stdlib Require Import ZArith Lia.
From Stdlib Require Strings.Byte.
From S2P Require Import Prelude ReplTypes.

Local Open Scope Z_scope.

(** ** Bytes and big-endian integers *)

Definition byte_val (b : byte) : Z := Z.of_N (Byte.to_N b).

Definition byte_of (z : Z) : byte :=
  match Byte.of_N (Z.to_N (z mod 256)) with
  | Some b => b
  | None => Byte.x00
  end.

(** [binary.BigEndian.PutUint]: the [n] low bytes of [z], most significant first. *)
Fixpoint be_put (n : nat) (z : Z) : list byte :=
  match n with
  | O => []
  | S n' => byte_of (Z.shiftr z (8 * Z.of_nat n')) :: be_put n' z
  end.

(** [binary.BigEndian.Uint] of all bytes of a slice. *)
Definition be_get (l : list byte) : Z :=
  foldl (fun acc b => acc * 256 + byte_val b) 0 l.

(** The slice [l[from:to]] of a packet. *)
Definition slice {A} (from to : nat) (l : list A) : list A := take (to - from) (drop from l).

(** ** CRC-32 (IEEE) *)

Definition crc_poly : Z := 0xEDB88320.

Definition crc_bit (c : Z) : Z :=
  if Z.testbit c 0 then Z.lxor (Z.shiftr c 1) crc_poly else Z.shiftr c 1.

Definition crc_table (i : Z) : Z := Nat.iter 8 crc_bit i.

Definition crc_byte (c : Z) (b : byte) : Z :=
  Z.lxor (crc_table (Z.lxor (Z.land c 255) (byte_val b))) (Z.shiftr c 8).

Definition crc32 (l : list byte) : Z :=
  Z.lxor (foldl crc_byte 0xFFFFFFFF l) 0xFFFFFFFF.

(** ** FNV-1a, 32 bits *)

Definition fnv_offset : Z := 2166136261.
Definition fnv_prime : Z := 16777619.

Definition fnv_byte (h : Z) (b : byte) : Z := u32! (Z.lxor h (byte_val b) * fnv_prime).

(** The check value of the CRC-32 catalogue, and FNV-1a of "foobar". *)
Example crc32_check :
  crc32 (byte_of <$> [49; 50; 51; 52; 53; 54; 55; 56; 57]) = 0xCBF43926.
Proof. vm_compute. reflexivity. Qed.

Example fnv_check :
  foldl fnv_byte fnv_offset (byte_of <$> [102; 111; 111; 98; 97; 114]) = 0xbf9cf968.
Proof. vm_compute. reflexivity. Qed.

(** ** Lemmas on bytes *)

Lemma byte_val_range b : 0 <= byte_val b < 256.
Proof. unfold byte_val. pose proof (Byte.to_N_bounded b). lia. Qed.

Lemma byte_of_val b : byte_of (byte_val b) = b.
Proof. by destruct b. Qed.

Lemma byte_val_of z : byte_val (byte_of z) = z mod 256.
Proof.
  unfold byte_of, byte_val. pose proof (Z.mod_pos_bound z 256 ltac:(lia)).
  destruct (Byte.of_N _) as [b|] eqn:Hb.
  - apply Byte.to_of_N in Hb. rewrite Hb. lia.
  - apply Byte.of_N_None_iff in Hb. lia.
Qed.

Lemma byte_val_inj a b : byte_val a = byte_val b -> a = b.
Proof. intros Heq. by rewrite <-(byte_of_val a), Heq, byte_of_val. Qed.

Lemma length_be_put n z : length (be_put n z) = n.
Proof. induction n; simpl; [done|]. by rewrite IHn. Qed.

Lemma len_be_put n z : len (be_put n z) = Z.of_nat n.
Proof. unfold len. by rewrite length_be_put. Qed.

Lemma be_get_acc acc l :
  foldl (fun acc b => acc * 256 + byte_val b) acc l
  = acc * 256 ^ Z.of_nat (length l) + be_get l.
Proof.
  unfold be_get. revert acc. induction l as [|b l IH]; intros acc; cbn [foldl length].
  { simpl. lia. }
  rewrite IH, (IH (0 * 256 + byte_val b)), Nat2Z.inj_succ, Z.pow_succ_r by lia. lia.
Qed.

Lemma be_get_cons b l : be_get (b :: l) = byte_val b * 256 ^ Z.of_nat (length l) + be_get l.
Proof. unfold be_get at 1. cbn [foldl]. rewrite be_get_acc. lia. Qed.

Lemma be_get_range l : 0 <= be_get l < 256 ^ Z.of_nat (length l).
Proof.
  induction l as [|b l IH]; [by vm_compute|].
  rewrite be_get_cons. cbn [length]. rewrite Nat2Z.inj_succ, Z.pow_succ_r by lia.
  pose proof (byte_val_range b). nia.
Qed.

Lemma pow256 n : 256 ^ Z.of_nat n = 2 ^ (8 * Z.of_nat n).
Proof. rewrite Z.pow_mul_r by lia. done. Qed.

Lemma be_get_put n z : be_get (be_put n z) = wrapu (8 * Z.of_nat n) z.
Proof.
  unfold wrapu. induction n as [|n IH]; cbn [be_put].
  { by rewrite Z.mod_1_r. }
  rewrite be_get_cons, length_be_put, IH, byte_val_of, pow256, Z.shiftr_div_pow2 by lia.
  replace (8 * Z.of_nat (S n)) with (8 * Z.of_nat n + 8) by lia.
  rewrite Z.pow_add_r by lia. change (2 ^ 8) with 256.
  rewrite Z.rem_mul_r by lia. lia.
Qed.

Lemma be_get_put_small n z : in_u (8 * Z.of_nat n) z -> be_get (be_put n z) = z.
Proof. intros. by rewrite be_get_put, wrapu_small. Qed.

Lemma be_put_small n x y :
  0 <= y < 256 ^ Z.of_nat n -> be_put n (x * 256 ^ Z.of_nat n + y) = be_put n y.
Proof.
  rewrite pow256. revert x y. induction n as [|n IH]; intros x y Hy; cbn [be_put]; [done|].
  replace (8 * Z.of_nat (S n)) with (8 + 8 * Z.of_nat n) in * by lia.
  rewrite Z.pow_add_r in * by lia. change (2 ^ 8) with 256 in *.
  assert (Hsplit : y = (y / 2 ^ (8 * Z.of_nat n)) * 2 ^ (8 * Z.of_nat n)
                       + y mod 2 ^ (8 * Z.of_nat n)).
  { pose proof (Z.div_mod y (2 ^ (8 * Z.of_nat n)) ltac:(lia)). lia. }
  pose proof (Z.mod_pos_bound y (2 ^ (8 * Z.of_nat n)) ltac:(lia)) as Hmod.
  f_equal.
  - apply byte_val_inj. rewrite !byte_val_of, !Z.shiftr_div_pow2 by lia.
    replace (x * (256 * 2 ^ (8 * Z.of_nat n)) + y)
      with (y + x * 256 * 2 ^ (8 * Z.of_nat n)) by lia.
    rewrite Z.div_add by lia. rewrite Z.mod_add by lia. done.
  - rewrite Hsplit at 1 2.
    rewrite (IH (y / 2 ^ (8 * Z.of_nat n))) by done.
    rewrite <-(IH (x * 256 + y / 2 ^ (8 * Z.of_nat n)) (y mod 2 ^ (8 * Z.of_nat n))) by done.
    f_equal. lia.
Qed.

Lemma be_put_get l : be_put (length l) (be_get l) = l.
Proof.
  induction l as [|b l IH]; [done|]. rewrite be_get_cons. cbn [length be_put].
  pose proof (be_get_range l). f_equal.
  - apply byte_val_inj. rewrite byte_val_of, Z.shiftr_div_pow2, <-pow256 by lia.
    rewrite Z.div_add_l, Z.div_small, Z.add_0_r by lia.
    apply Z.mod_small, byte_val_range.
  - by rewrite be_put_small.
Qed.

Lemma be_get_in_u l : in_u (8 * Z.of_nat (length l)) (be_get l).
Proof. unfold in_u. rewrite <-pow256. apply be_get_range. Qed.

(** ** Checksums separate single-byte changes *)

Lemma lxor_range w a b : 0 <= w -> in_u w a -> in_u w b -> in_u w (Z.lxor a b).
Proof.
  unfold in_u. intros Hw Ha Hb. split; [apply Z.lxor_nonneg; lia|].
  destruct (Z.le_gt_cases (2 ^ w) (Z.lxor a b)) as [Hge|]; [|lia]. exfalso.
  assert (Hz : Z.shiftr (Z.lxor a b) w = 0).
  { rewrite Z.shiftr_lxor, !Z.shiftr_div_pow2, !Z.div_small by lia. done. }
  rewrite Z.shiftr_div_pow2 in Hz by lia.
  apply Z.div_small_iff in Hz; lia.
Qed.

(** A fold whose step is injective in the state and in the input separates two
    inputs that differ in exactly one element. *)
Section Detect.
Context {S B : Type} (step : S -> B -> S) (P : S -> Prop).
Hypothesis step_P : forall s b, P s -> P (step s b).
Hypothesis step_state : forall s s' b, P s -> P s' -> step s b = step s' b -> s = s'.
Hypothesis step_input : forall s b b', P s -> step s b = step s b' -> b = b'.

Lemma fold_P s l : P s -> P (foldl step s l).
Proof. revert s. induction l; simpl; auto. Qed.

Lemma fold_state_inj s s' l : P s -> P s' -> foldl step s l = foldl step s' l -> s = s'.
Proof.
  revert s s'. induction l as [|b l IH]; intros s s' Hs Hs' Heq; [done|].
  cbn [foldl] in Heq. apply (step_state s s' b); [done|done|]. apply IH; auto.
Qed.

Lemma fold_detects s l1 b b' l2 :
  P s -> b <> b' -> foldl step s (l1 ++ b :: l2) <> foldl step s (l1 ++ b' :: l2).
Proof.
  intros Hs Hne Heq. rewrite !foldl_app in Heq. cbn [foldl] in Heq.
  pose proof (fold_P _ l1 Hs) as Hs'.
  apply Hne. eapply step_input; [exact Hs'|]. eapply fold_state_inj; [..|exact Heq]; auto.
Qed.

End Detect.

(** *** FNV-1a *)

Lemma fnv_mul_inj x y :
  in_u 32 x -> in_u 32 y -> u32! (x * fnv_prime) = u32! (y * fnv_prime) -> x = y.
Proof.
  intros Hx Hy Heq.
  assert (Hinv : forall z, in_u 32 z -> u32! (u32! (z * fnv_prime) * 899433627) = z).
  { intros z Hz. unfold wrapu, fnv_prime. rewrite Z.mul_mod_idemp_l by lia.
    rewrite <-Z.mul_assoc, <-Z.mul_mod_idemp_r by lia.
    change ((16777619 * 899433627) mod 2 ^ 32) with 1. rewrite Z.mul_1_r.
    by apply Z.mod_small. }
  by rewrite <-(Hinv x Hx), Heq, Hinv.
Qed.

Lemma lxor_byte_range h b : in_u 32 h -> in_u 32 (Z.lxor h (byte_val b)).
Proof.
  intros Hh. apply lxor_range; [lia|done|]. pose proof (byte_val_range b). unfold in_u. lia.
Qed.

Lemma lxor_cancel_r a b c : Z.lxor a c = Z.lxor b c -> a = b.
Proof.
  intros Heq. rewrite <-(Z.lxor_0_r a), <-(Z.lxor_nilpotent c), <-Z.lxor_assoc, Heq.
  by rewrite Z.lxor_assoc, Z.lxor_nilpotent, Z.lxor_0_r.
Qed.

Lemma lxor_cancel_l a b c : Z.lxor c a = Z.lxor c b -> a = b.
Proof. rewrite !(Z.lxor_comm c). apply lxor_cancel_r. Qed.

Lemma fnv_byte_range h b : in_u 32 (fnv_byte h b).
Proof. by apply wrapu_range. Qed.

Lemma fnv_detects h l1 b b' l2 :
  in_u 32 h -> b <> b' ->
  foldl fnv_byte h (l1 ++ b :: l2) <> foldl fnv_byte h (l1 ++ b' :: l2).
Proof.
  apply (fold_detects fnv_byte (in_u 32)).
  - intros. apply fnv_byte_range.
  - intros s s' c Hs Hs' Heq. apply fnv_mul_inj in Heq; [|by apply lxor_byte_range..].
    by apply lxor_cancel_r in Heq.
  - intros s c c' Hs Heq. apply fnv_mul_inj in Heq; [|by apply lxor_byte_range..].
    apply lxor_cancel_l in Heq. by apply byte_val_inj.
Qed.

(** *** CRC-32 *)

(** The 256 table entries fit 32 bits and differ in their top byte. *)
Definition crc_entries : list Z := crc_table <$> (Z.of_nat <$> seq 0 256).

Lemma crc_entries_range : Forall (in_u 32) crc_entries.
Proof. by_evaluation. Qed.

Lemma crc_entries_top : NoDup ((fun c => Z.shiftr c 24) <$> crc_entries).
Proof. by_evaluation. Qed.

Lemma crc_entries_lookup i :
  0 <= i < 256 -> crc_entries !! Z.to_nat i = Some (crc_table i).
Proof.
  intros Hi. unfold crc_entries. rewrite !list_lookup_fmap, lookup_seq_lt by lia.
  simpl. do 2 f_equal. lia.
Qed.

Lemma crc_table_range i : 0 <= i < 256 -> in_u 32 (crc_table i).
Proof.
  intros Hi. eapply Forall_lookup_1; [apply crc_entries_range|by apply crc_entries_lookup].
Qed.

Lemma crc_table_top_inj i j :
  0 <= i < 256 -> 0 <= j < 256 ->
  Z.shiftr (crc_table i) 24 = Z.shiftr (crc_table j) 24 -> i = j.
Proof.
  intros Hi Hj Heq.
  enough (Z.to_nat i = Z.to_nat j) by lia.
  eapply NoDup_lookup; [apply crc_entries_top| |];
    rewrite list_lookup_fmap, crc_entries_lookup by done; simpl; [done|by rewrite Heq].
Qed.

Definition crc_index (c : Z) (b : byte) : Z := Z.lxor (Z.land c 255) (byte_val b).

Lemma crc_index_range c b : 0 <= crc_index c b < 256.
Proof.
  apply (lxor_range 8); [lia| |apply byte_val_range].
  unfold in_u. change 255 with (Z.ones 8). rewrite Z.land_ones by lia.
  apply Z.mod_pos_bound. lia.
Qed.

Lemma crc_shift_range c : in_u 32 c -> in_u 24 (Z.shiftr c 8).
Proof.
  unfold in_u. intros Hc. rewrite Z.shiftr_div_pow2 by lia. split.
  - apply Z.div_pos; lia.
  - apply Z.div_lt_upper_bound; lia.
Qed.

Lemma crc_byte_range c b : in_u 32 c -> in_u 32 (crc_byte c b).
Proof.
  intros Hc. apply lxor_range; [lia|apply crc_table_range, crc_index_range|].
  apply crc_shift_range in Hc. unfold in_u in *. lia.
Qed.

(** The top byte of the new state is the top byte of the table entry. *)
Lemma crc_byte_index c c' b b' :
  in_u 32 c -> in_u 32 c' -> crc_byte c b = crc_byte c' b' ->
  crc_index c b = crc_index c' b' /\ Z.shiftr c 8 = Z.shiftr c' 8.
Proof.
  intros Hc Hc' Heq.
  assert (Htop : forall c b, in_u 32 c ->
    Z.shiftr (crc_byte c b) 24 = Z.shiftr (crc_table (crc_index c b)) 24).
  { intros d e Hd. unfold crc_byte. fold (crc_index d e). rewrite Z.shiftr_lxor.
    apply crc_shift_range in Hd. unfold in_u in Hd.
    rewrite (Z.shiftr_div_pow2 (Z.shiftr d 8)), (Z.div_small (Z.shiftr d 8)) by lia.
    apply Z.lxor_0_r. }
  assert (Hidx : crc_index c b = crc_index c' b').
  { apply crc_table_top_inj; [apply crc_index_range..|].
    by rewrite <-!Htop, Heq by done. }
  split; [done|]. unfold crc_byte in Heq. fold (crc_index c b) (crc_index c' b') in Heq.
  rewrite Hidx in Heq. by apply lxor_cancel_l in Heq.
Qed.

Lemma crc_detects l1 b b' l2 :
  b <> b' -> crc32 (l1 ++ b :: l2) <> crc32 (l1 ++ b' :: l2).
Proof.
  intros Hne Heq. unfold crc32 in Heq. apply lxor_cancel_r in Heq. revert Heq.
  apply (fold_detects crc_byte (in_u 32)); [apply crc_byte_range| | |by vm_compute|done].
  - intros s s' c Hs Hs' Heq. apply crc_byte_index in Heq as [Hidx Hshift]; [|done..].
    apply lxor_cancel_r in Hidx. revert Hidx Hshift. change 255 with (Z.ones 8).
    rewrite !Z.land_ones, !Z.shiftr_div_pow2 by lia. intros.
    rewrite (Z.div_mod s (2 ^ 8)), (Z.div_mod s' (2 ^ 8)) by lia. congruence.
  - intros s c c' Hs Heq. apply crc_byte_index in Heq as [Hidx _]; [|done..].
    apply lxor_cancel_l in Hidx. by apply byte_val_inj.
Qed.
