(* ===== verification/Codec.v ===== *)
(** * The frame codec

    [src/replication/codec.go]: validation, encoding and decoding of delta
    frames.  The theorems: decoding inverts encoding, every accepted byte string
    is the encoding of the frame it decodes to, and the frames the delta builder
    produces from canonical snapshots are valid. *)

From stdpp Require Import base list gmap strings sorting.
From Stdlib Require Import ZArith Lia.
From S2P Require Import Prelude ReplTypes Snapshots Wire Merge Delta.

Local Open Scope Z_scope.

Definition frameMagic : Z := 0x43525031.

Definition minInt (a b : Z) : Z := if a <? b then a else b.

(** ** Validation *)

Definition validateComponentDelta (limits : Limits) (objectOp : Z)
    (seen : gset Z) (c : ComponentDelta) : res (gset Z) :=
  if (cd_TypeID c =? 0) || (cd_Operation c <? ComponentSet) || (ComponentRemove <? cd_Operation c)
  then Err ErrInvalidFrame else
  if bool_decide (cd_TypeID c ∈ seen) then Err ErrInvalidFrame else
  if (objectOp =? ObjectCreate) && negb (cd_Operation c =? ComponentSet)
  then Err ErrInvalidFrame else
  if (cd_Operation c =? ComponentSet) && (cd_SchemaVersion c =? 0)
  then Err ErrInvalidFrame else
  if (cd_Operation c =? ComponentRemove)
     && (negb (cd_SchemaVersion c =? 0) || negb (len (cd_Data c) =? 0))
  then Err ErrInvalidFrame else
  if MaxComponentBytes limits <? len (cd_Data c) then Err ErrComponentTooLarge else
  Ok ({[cd_TypeID c]} ∪ seen).

Definition validateObjectDelta (limits : Limits) (kind : Z)
    (seen : gset ObjectRef) (obj : ObjectDelta) : res (gset ObjectRef) :=
  if negb (ObjectRef_Valid (od_Ref obj)) then Err ErrInvalidObjectRef else
  if (od_Operation obj <? ObjectCreate) || (ObjectRemove <? od_Operation obj)
  then Err ErrInvalidFrame else
  if bool_decide (od_Ref obj ∈ seen) then Err ErrInvalidFrame else
  if (kind =? FrameFull) && negb (od_Operation obj =? ObjectCreate)
  then Err ErrInvalidFrame else
  if (od_Operation obj =? ObjectCreate) && (od_Archetype obj =? 0)
  then Err ErrInvalidObjectRef else
  if (od_Operation obj =? ObjectRemove) && (0 <? len (od_Components obj))
  then Err ErrInvalidFrame else
  if wrapi64 (MaxComponentsPerObject limits * 2) <? len (od_Components obj)
  then Err ErrComponentLimit else
  _ ← foldM (validateComponentDelta limits (od_Operation obj)) ∅ (od_Components obj);
  Ok ({[od_Ref obj]} ∪ seen).

Definition validateDeltaFrame (frame : DeltaFrame) (limits : Limits) : res unit :=
  _ ← SnapshotMeta_validate (df_Meta frame);
  if negb (df_Kind frame =? FrameFull) && negb (df_Kind frame =? FrameDelta)
  then Err ErrInvalidFrame else
  if (df_Kind frame =? FrameFull) && negb (df_BaseTick frame =? 0)
  then Err ErrInvalidFrame else
  if (df_Kind frame =? FrameDelta)
     && ((df_BaseTick frame =? 0) || (sm_Tick (df_Meta frame) <=? df_BaseTick frame))
  then Err ErrBaselineMismatch else
  if wrapi64 (MaxObjects limits * 2) <? len (df_Objects frame) then Err ErrObjectLimit else
  _ ← foldM (validateObjectDelta limits (df_Kind frame)) ∅ (df_Objects frame);
  Ok tt.

(** ** Encoding *)

Definition componentHeader (c : ComponentDelta) : list byte :=
  be_put 1 (cd_Operation c) ++ be_put 2 (cd_TypeID c) ++ be_put 2 (cd_SchemaVersion c)
  ++ be_put 4 (len (cd_Data c)).

Definition encodeComponent (limits : Limits) (buffer : list byte) (c : ComponentDelta)
    : res (list byte) :=
  let buffer := buffer ++ componentHeader c ++ cd_Data c in
  if MaxFrameBytes limits <? len buffer then Err ErrFrameTooLarge else Ok buffer.

Definition objectHeader (obj : ObjectDelta) : list byte :=
  be_put 1 (od_Operation obj) ++ be_put 2 (or_ID (od_Ref obj))
  ++ be_put 2 (or_Generation (od_Ref obj)) ++ be_put 2 (od_Archetype obj)
  ++ be_put 2 (len (od_Components obj)).

Definition encodeObject (limits : Limits) (buffer : list byte) (obj : ObjectDelta)
    : res (list byte) :=
  if 65535 <? len (od_Components obj) then Err ErrComponentLimit else
  foldM (encodeComponent limits) (buffer ++ objectHeader obj) (od_Components obj).

Definition frameHeader (frame : DeltaFrame) : list byte :=
  let m := df_Meta frame in
  be_put 4 frameMagic ++ be_put 2 ProtocolVersion ++ be_put 1 (df_Kind frame) ++ be_put 1 0
  ++ be_put 8 (sm_RoomID m) ++ be_put 4 (sm_Epoch m) ++ be_put 4 (sm_Tick m)
  ++ be_put 4 (df_BaseTick frame) ++ be_put 2 (sm_SchemaVersion m)
  ++ be_put 2 (len (df_Objects frame)).

Definition EncodeFrame (frame : DeltaFrame) (limits : Limits) : res (list byte) :=
  let limits := normalizeLimits limits in
  _ ← validateDeltaFrame frame limits;
  if 65535 <? len (df_Objects frame) then Err ErrObjectLimit else
  foldM (encodeObject limits) (frameHeader frame) (df_Objects frame).

(** ** Decoding *)

(** [binary.Read] of an unsigned integer of [n] bytes from the reader. *)
Definition read (n : nat) (reader : list byte) : res (Z * list byte) :=
  if (length reader <? n)%nat then Err ErrInvalidFrame
  else Ok (be_get (take n reader), drop n reader).

(** A counted loop of decoders over the reader. *)
Fixpoint readN {A} (n : nat) (decode : list byte -> res (A * list byte)) (reader : list byte)
    : res (list A * list byte) :=
  match n with
  | O => Ok ([], reader)
  | S n' =>
      '(x, reader) ← decode reader;
      '(xs, reader) ← readN n' decode reader;
      Ok (x :: xs, reader)
  end.

Definition decodeComponent (limits : Limits) (reader : list byte)
    : res (ComponentDelta * list byte) :=
  '(operation, reader) ← read 1 reader;
  '(typeID, reader) ← read 2 reader;
  '(schemaVersion, reader) ← read 2 reader;
  '(payloadLength, reader) ← read 4 reader;
  if (u32! (MaxComponentBytes limits) <? payloadLength) || (len reader <? payloadLength)
  then Err ErrComponentTooLarge else
  let n := Z.to_nat payloadLength in
  Ok (mkComponentDelta operation typeID schemaVersion (take n reader), drop n reader).

Definition decodeObject (limits : Limits) (reader : list byte)
    : res (ObjectDelta * list byte) :=
  '(operation, reader) ← read 1 reader;
  '(id, reader) ← read 2 reader;
  '(generation, reader) ← read 2 reader;
  '(archetype, reader) ← read 2 reader;
  '(componentCount, reader) ← read 2 reader;
  if wrapi64 (MaxComponentsPerObject limits * 2) <? componentCount
  then Err ErrComponentLimit else
  '(components, reader) ← readN (Z.to_nat componentCount) (decodeComponent limits) reader;
  Ok (mkObjectDelta operation (mkRef id generation) archetype components, reader).

Definition DecodeFrame (data : list byte) (limits : Limits) : res DeltaFrame :=
  let limits := normalizeLimits limits in
  if (len data =? 0) || (MaxFrameBytes limits <? len data) then Err ErrFrameTooLarge else
  '(magic, reader) ← read 4 data;
  '(protocol, reader) ← read 2 reader;
  '(kind, reader) ← read 1 reader;
  '(reserved, reader) ← read 1 reader;
  '(roomID, reader) ← read 8 reader;
  '(epoch, reader) ← read 4 reader;
  '(tick, reader) ← read 4 reader;
  '(baseTick, reader) ← read 4 reader;
  '(schemaVersion, reader) ← read 2 reader;
  '(objectCount, reader) ← read 2 reader;
  if negb (magic =? frameMagic) || negb (protocol =? ProtocolVersion) || negb (reserved =? 0)
  then Err ErrInvalidFrame else
  if wrapi64 (MaxObjects limits * 2) <? objectCount then Err ErrObjectLimit else
  '(objects, reader) ← readN (Z.to_nat objectCount) (decodeObject limits) reader;
  if negb (len reader =? 0) then Err ErrInvalidFrame else
  let frame := mkFrame (mkMeta roomID epoch tick schemaVersion) kind baseTick objects in
  _ ← validateDeltaFrame frame limits;
  Ok frame.

(** ** Specification: the bytes of a frame *)

Definition componentBytes (c : ComponentDelta) : list byte := componentHeader c ++ cd_Data c.
Definition objectBytes (o : ObjectDelta) : list byte :=
  objectHeader o ++ concat (componentBytes <$> od_Components o).
Definition frameBytes (f : DeltaFrame) : list byte :=
  frameHeader f ++ concat (objectBytes <$> df_Objects f).

(** Counts and lengths that fit their fields on the wire. *)
Definition fits_component (c : ComponentDelta) : Prop := len (cd_Data c) < 2 ^ 32.
Definition fits_object (o : ObjectDelta) : Prop :=
  len (od_Components o) <= 65535 /\ Forall fits_component (od_Components o).
Definition fits_frame (f : DeltaFrame) : Prop :=
  len (df_Objects f) <= 65535 /\ Forall fits_object (df_Objects f).

(** ** Lemmas: the encoder writes the bytes of the frame *)

Lemma encodeComponents_bytes limits buffer cs out :
  foldM (encodeComponent limits) buffer cs = Ok out ->
  out = buffer ++ concat (componentBytes <$> cs).
Proof.
  revert buffer. induction cs as [|c cs IH]; intros buffer; csimpl.
  { intros [= ->]. by rewrite app_nil_r. }
  intros H. ok_inv. unfold encodeComponent in E. ok_inv. apply IH in H as ->.
  unfold componentBytes at 2. by rewrite <-!app_assoc.
Qed.

Lemma encodeObjects_bytes limits buffer os out :
  foldM (encodeObject limits) buffer os = Ok out ->
  out = buffer ++ concat (objectBytes <$> os)
  /\ Forall (fun o => len (od_Components o) <= 65535) os.
Proof.
  revert buffer. induction os as [|o os IH]; intros buffer; csimpl.
  { intros [= ->]. split; [by rewrite app_nil_r|constructor]. }
  intros H. ok_inv. unfold encodeObject in E. ok_inv. bool_to_prop.
  apply encodeComponents_bytes in E. subst a. apply IH in H as [-> Hos].
  split; [|by constructor]. unfold objectBytes at 2. by rewrite <-!app_assoc.
Qed.

Lemma EncodeFrame_bytes frame limits out :
  EncodeFrame frame limits = Ok out ->
  out = frameBytes frame /\ validateDeltaFrame frame (normalizeLimits limits) = Ok tt
  /\ len (df_Objects frame) <= 65535
  /\ Forall (fun o => len (od_Components o) <= 65535) (df_Objects frame).
Proof.
  unfold EncodeFrame. intros H. ok_inv. bool_to_prop. destruct a.
  apply encodeObjects_bytes in H as [-> ?]. by split_and!.
Qed.

Lemma encodeComponent_fit limits buffer c :
  len (buffer ++ componentBytes c) <= MaxFrameBytes limits ->
  encodeComponent limits buffer c = Ok (buffer ++ componentBytes c).
Proof.
  intros Hlen. unfold encodeComponent. fold (componentBytes c).
  by rewrite (proj2 (Z.ltb_ge _ _) Hlen).
Qed.

Lemma encodeComponents_fit limits buffer cs :
  len (buffer ++ concat (componentBytes <$> cs)) <= MaxFrameBytes limits ->
  foldM (encodeComponent limits) buffer cs
  = Ok (buffer ++ concat (componentBytes <$> cs)).
Proof.
  revert buffer. induction cs as [|c cs IH]; intros buffer Hlen.
  { csimpl. by rewrite app_nil_r. }
  rewrite fmap_cons in *. cbn [concat foldM] in *. rewrite app_assoc in Hlen |- *.
  pose proof (len_nonneg (concat (componentBytes <$> cs))).
  rewrite encodeComponent_fit by (rewrite len_app in Hlen; lia). run_bind. by apply IH.
Qed.

Lemma encodeObject_fit limits buffer o :
  len (od_Components o) <= 65535 ->
  len (buffer ++ objectBytes o) <= MaxFrameBytes limits ->
  encodeObject limits buffer o = Ok (buffer ++ objectBytes o).
Proof.
  intros Ho Hlen. unfold encodeObject. rewrite (proj2 (Z.ltb_ge _ _) Ho).
  unfold objectBytes in *. rewrite app_assoc in Hlen |- *. by apply encodeComponents_fit.
Qed.

Lemma encodeObjects_fit limits buffer os :
  Forall (fun o => len (od_Components o) <= 65535) os ->
  len (buffer ++ concat (objectBytes <$> os)) <= MaxFrameBytes limits ->
  foldM (encodeObject limits) buffer os = Ok (buffer ++ concat (objectBytes <$> os)).
Proof.
  intros Hos. revert buffer. induction Hos as [|o os Ho Hos IH]; intros buffer Hlen.
  { csimpl. by rewrite app_nil_r. }
  rewrite fmap_cons in *. cbn [concat foldM] in *. rewrite app_assoc in Hlen |- *.
  pose proof (len_nonneg (concat (objectBytes <$> os))).
  rewrite encodeObject_fit by (done || rewrite len_app in Hlen; lia). run_bind. by apply IH.
Qed.

(** ** Lemmas: validation *)

Definition cdelta_ok (limits : Limits) (objectOp : Z) (c : ComponentDelta) : Prop :=
  cd_TypeID c <> 0
  /\ (cd_Operation c = ComponentSet \/ cd_Operation c = ComponentRemove /\ objectOp <> ObjectCreate)
  /\ (cd_Operation c = ComponentSet -> cd_SchemaVersion c <> 0)
  /\ (cd_Operation c = ComponentRemove -> cd_SchemaVersion c = 0 /\ cd_Data c = [])
  /\ len (cd_Data c) <= MaxComponentBytes limits.

Definition odelta_ok (limits : Limits) (kind : Z) (o : ObjectDelta) : Prop :=
  ObjectRef_Valid (od_Ref o) = true
  /\ (od_Operation o = ObjectCreate
      \/ (od_Operation o = ObjectUpdate \/ od_Operation o = ObjectRemove) /\ kind <> FrameFull)
  /\ (od_Operation o = ObjectCreate -> od_Archetype o <> 0)
  /\ (od_Operation o = ObjectRemove -> od_Components o = [])
  /\ len (od_Components o) <= wrapi64 (MaxComponentsPerObject limits * 2)
  /\ Forall (cdelta_ok limits (od_Operation o)) (od_Components o)
  /\ NoDup (cd_TypeID <$> od_Components o).

Definition frame_ok (limits : Limits) (f : DeltaFrame) : Prop :=
  SnapshotMeta_validate (df_Meta f) = Ok tt
  /\ (df_Kind f = FrameFull /\ df_BaseTick f = 0
      \/ df_Kind f = FrameDelta /\ df_BaseTick f <> 0 /\ df_BaseTick f < sm_Tick (df_Meta f))
  /\ len (df_Objects f) <= wrapi64 (MaxObjects limits * 2)
  /\ Forall (odelta_ok limits (df_Kind f)) (df_Objects f)
  /\ NoDup (od_Ref <$> df_Objects f).

Lemma len_zero_nil {A} (l : list A) : len l = 0 <-> l = [].
Proof. destruct l; [done|]. rewrite len_cons. pose proof (len_nonneg l). split; [lia|done]. Qed.

Lemma validateComponentDelta_spec limits op seen c seen' :
  validateComponentDelta limits op seen c = Ok seen' <->
  cdelta_ok limits op c /\ (cd_TypeID c ∉ seen) /\ seen' = {[cd_TypeID c]} ∪ seen.
Proof.
  unfold validateComponentDelta, cdelta_ok. rewrite <-len_zero_nil.
  cbv [ComponentSet ComponentRemove ObjectCreate].
  split.
  - intros H. ok_inv. repeat match goal with
    | E : (_ && _) = false |- _ => apply andb_false_iff in E
    | E : _ \/ _ |- _ => destruct E
    end; bool_to_prop; split_and!; try done; lia.
  - intros ((Ht & Hop & Hset & Hrem & Hd) & Hseen & ->).
    rewrite (bool_decide_false _ Hseen).
    repeat match goal with |- context [?a =? ?b] => destruct (Z.eqb_spec a b) end;
    repeat match goal with |- context [?a <? ?b] => destruct (Z.ltb_spec a b) end;
    simpl; try done; lia.
Qed.

Lemma validateComponents_spec limits op cs :
  (exists s, foldM (validateComponentDelta limits op) ∅ cs = Ok s) <->
  Forall (cdelta_ok limits op) cs /\ NoDup (cd_TypeID <$> cs).
Proof.
  pose proof (validateComponentDelta_spec limits op) as Hstep. split.
  - intros [s Hs]. by apply (foldM_unique_from _ _ _ Hstep) in Hs as (? & ? & _).
  - intros [??]. apply (foldM_unique_to _ _ _ Hstep); [done..|]. set_solver.
Qed.

Lemma validateObjectDelta_spec limits kind seen o seen' :
  validateObjectDelta limits kind seen o = Ok seen' <->
  odelta_ok limits kind o /\ (od_Ref o ∉ seen) /\ seen' = {[od_Ref o]} ∪ seen.
Proof.
  unfold validateObjectDelta, odelta_ok.
  rewrite <-(validateComponents_spec limits (od_Operation o)), <-len_zero_nil.
  pose proof (len_nonneg (od_Components o)).
  cbv [ObjectCreate ObjectUpdate ObjectRemove FrameFull].
  split.
  - intros Hv. ok_inv. repeat match goal with
    | E : (_ && _) = false |- _ => apply andb_false_iff in E
    | E : _ \/ _ |- _ => destruct E
    end; bool_to_prop; split_and!; try done; try lia; by eexists.
  - intros ((Hr & Hop & Ha & Hrem & Hn & [s Hs]) & Hseen & ->).
    rewrite (bool_decide_false _ Hseen), Hr, Hs. run_bind.
    repeat match goal with |- context [?a =? ?b] => destruct (Z.eqb_spec a b) end;
    repeat match goal with |- context [?a <? ?b] => destruct (Z.ltb_spec a b) end;
    simpl; try done; lia.
Qed.

Lemma validateDeltaFrame_spec f limits :
  validateDeltaFrame f limits = Ok tt <-> frame_ok limits f.
Proof.
  pose proof (validateObjectDelta_spec limits (df_Kind f)) as Hstep.
  unfold validateDeltaFrame, frame_ok. cbv [FrameFull FrameDelta] in *. split.
  - intros Hv. ok_inv. destruct a.
    apply (foldM_unique_from _ _ _ Hstep) in E4 as (? & ? & _).
    repeat match goal with
    | E : (_ && _) = false |- _ => apply andb_false_iff in E
    | E : _ \/ _ |- _ => destruct E
    end; bool_to_prop; split_and!; try done; lia.
  - intros (Hm & Hk & Hn & Hok & Hnd). rewrite Hm. run_bind.
    destruct (foldM_unique_to _ _ _ Hstep _ ∅ Hok Hnd) as [s Hs]; [set_solver|].
    rewrite Hs. run_bind.
    repeat match goal with |- context [?a =? ?b] => destruct (Z.eqb_spec a b) end;
    repeat match goal with |- context [?a <=? ?b] => destruct (Z.leb_spec a b) end;
    repeat match goal with |- context [?a <? ?b] => destruct (Z.ltb_spec a b) end;
    simpl; try done; lia.
Qed.

(** ** Lemmas: the reader *)

Lemma read_app n a r : length a = n -> read n (a ++ r) = Ok (be_get a, r).
Proof.
  intros <-. unfold read. rewrite length_app, take_app_length, drop_app_length.
  by destruct (Nat.ltb_spec (length a + length r) (length a)); [lia|].
Qed.

Lemma read_be_put n z r : in_u (8 * Z.of_nat n) z -> read n (be_put n z ++ r) = Ok (z, r).
Proof. intros Hz. by rewrite read_app, be_get_put_small by (done || apply length_be_put). Qed.

Lemma read_inv n r z r' :
  read n r = Ok (z, r') -> r = be_put n z ++ r' /\ in_u (8 * Z.of_nat n) z.
Proof.
  unfold read. case_match eqn:Hn; [done|]. intros [= <- <-].
  apply Nat.ltb_ge in Hn.
  assert (Hlen : length (take n r) = n) by (rewrite length_take; lia).
  pose proof (be_put_get (take n r)) as Hp. pose proof (be_get_in_u (take n r)) as Hr.
  rewrite Hlen in *. by rewrite Hp, take_drop.
Qed.

Lemma readN_app {A} (decode : list byte -> res (A * list byte)) (bytes : A -> list byte)
    (xs : list A) r :
  (forall x r, x ∈ xs -> decode (bytes x ++ r) = Ok (x, r)) ->
  readN (length xs) decode (concat (bytes <$> xs) ++ r) = Ok (xs, r).
Proof.
  induction xs as [|x xs IH]; intros Hdec; [done|]. csimpl.
  rewrite <-app_assoc, Hdec by left. run_bind. rewrite IH; [done|].
  intros y r' Hy. apply Hdec. by right.
Qed.

Lemma readN_inv {A} (decode : list byte -> res (A * list byte)) (bytes : A -> list byte)
    (P : A -> Prop) n r xs r' :
  (forall r x r', decode r = Ok (x, r') -> r = bytes x ++ r' /\ P x) ->
  readN n decode r = Ok (xs, r') ->
  r = concat (bytes <$> xs) ++ r' /\ length xs = n /\ Forall P xs.
Proof.
  intros Hdec. revert r xs. induction n as [|n IH]; intros r xs; cbn [readN].
  { intros [= <- <-]. by split_and!. }
  intros H. destruct (decode r) as [[x r1]|] eqn:E1; [|done]. cbn in H.
  destruct (readN n decode r1) as [[ys r2]|] eqn:E2; [|done]. cbn in H.
  injection H as <- <-. apply Hdec in E1 as [-> HP]. apply IH in E2 as (-> & <- & HF).
  csimpl. rewrite <-app_assoc. split_and!; [done..|by constructor].
Qed.

(** ** Lemmas: decoding inverts encoding *)

Tactic Notation "read_inv_in" hyp(H) ident(z) ident(rest) :=
  match type of H with
  | mbind _ (read ?n ?r) = _ =>
      let E := fresh "E" in
      destruct (read n r) as [[z rest]|] eqn:E; cbn [mbind result_bind] in H;
      [|discriminate H]; apply read_inv in E as [-> ?]
  end.

Ltac read_step := rewrite <-?app_assoc; rewrite read_be_put by (done || lia); run_bind.

Lemma decodeComponent_bytes limits c r :
  wf_cdelta c -> len (cd_Data c) <= MaxComponentBytes limits -> MaxComponentBytes limits < 2 ^ 32 ->
  decodeComponent limits (componentBytes c ++ r) = Ok (c, r).
Proof.
  intros (Ho & Ht & Hv) Hd Hmax. unfold decodeComponent, componentBytes, componentHeader.
  pose proof (len_nonneg (cd_Data c)) as Hpos.
  do 3 read_step. rewrite <-?app_assoc.
  rewrite read_be_put by (unfold in_u; lia). run_bind.
  rewrite wrapu_small by (unfold in_u; lia).
  rewrite (proj2 (Z.ltb_ge _ _) Hd), (proj2 (Z.ltb_ge _ _))
    by (rewrite len_app; pose proof (len_nonneg r); lia).
  cbn [orb]. rewrite to_nat_len, take_app_length, drop_app_length.
  by destruct c.
Qed.

Lemma decodeComponent_inv limits r c r' :
  decodeComponent limits r = Ok (c, r') ->
  r = componentBytes c ++ r' /\ wf_cdelta c.
Proof.
  unfold decodeComponent. intros H.
  read_inv_in H op r1. read_inv_in H ty r2. read_inv_in H sv r3. read_inv_in H plen r4.
  case_match eqn:Hg; [done|]. injection H as <- <-. bool_to_prop.
  unfold componentBytes, componentHeader; cbn [cd_Operation cd_TypeID cd_SchemaVersion cd_Data].
  split; [|by split_and!]. rewrite <-!app_assoc.
  assert (Hlen : len (take (Z.to_nat plen) r4) = plen).
  { unfold in_u, len in *. rewrite length_take. lia. }
  by rewrite Hlen, take_drop.
Qed.

Lemma decodeObject_bytes limits o r :
  wf_odelta o -> len (od_Components o) <= 65535 ->
  len (od_Components o) <= wrapi64 (MaxComponentsPerObject limits * 2) ->
  Forall (fun c => len (cd_Data c) <= MaxComponentBytes limits) (od_Components o) ->
  MaxComponentBytes limits < 2 ^ 32 ->
  decodeObject limits (objectBytes o ++ r) = Ok (o, r).
Proof.
  intros (Ho & [Hi Hg] & Ha & Hcs) Hn Hlim Hd Hmax.
  unfold decodeObject, objectBytes, objectHeader. pose proof (len_nonneg (od_Components o)).
  do 4 read_step. rewrite <-?app_assoc.
  rewrite read_be_put by (unfold in_u; lia). run_bind.
  rewrite (proj2 (Z.ltb_ge _ _) Hlim). rewrite to_nat_len.
  rewrite (readN_app _ componentBytes).
  - run_bind. by destruct o as [? [] ? ?].
  - intros c r' Hc. rewrite Forall_forall in Hcs, Hd. apply decodeComponent_bytes; auto.
Qed.

Lemma decodeObject_inv limits r o r' :
  decodeObject limits r = Ok (o, r') ->
  r = objectBytes o ++ r' /\ (wf_odelta o /\ len (od_Components o) <= 65535).
Proof.
  unfold decodeObject. intros H.
  read_inv_in H op r1. read_inv_in H oid r2. read_inv_in H gen r3. read_inv_in H arch r4.
  read_inv_in H count r5.
  case_match eqn:Hg; [done|].
  destruct (readN _ _ _) as [[cs r'']|] eqn:E; cbn in H; [|done]. injection H as <- <-.
  apply (readN_inv _ componentBytes wf_cdelta) in E as (-> & Hlen & Hcs);
    [|intros; by eapply decodeComponent_inv].
  assert (Hcount : len cs = count) by (unfold in_u, len in *; lia).
  unfold objectBytes, objectHeader;
    cbn [od_Operation od_Ref od_Archetype od_Components or_ID or_Generation].
  rewrite Hcount, <-!app_assoc. split; [done|]. split; [by split_and!|]. unfold in_u in *. lia.
Qed.

Lemma len_frameHeader f : len (frameHeader f) = 32.
Proof. unfold frameHeader. rewrite !len_app, !len_be_put. lia. Qed.

Lemma DecodeFrame_bytes limits f :
  wf_frame f -> validateDeltaFrame f (normalizeLimits limits) = Ok tt ->
  len (df_Objects f) <= 65535 ->
  Forall (fun o => len (od_Components o) <= 65535) (df_Objects f) ->
  MaxComponentBytes (normalizeLimits limits) < 2 ^ 32 ->
  len (frameBytes f) <= MaxFrameBytes (normalizeLimits limits) ->
  DecodeFrame (frameBytes f) limits = Ok f.
Proof.
  intros ((Hroom & Hepoch & Htick & Hsv) & Hkind & Hbase & Hos) Hv Hn Hcs Hmax Hlen.
  pose proof Hv as (_ & _ & Hlim & Hok & _)%validateDeltaFrame_spec.
  assert (Hne : (len (frameBytes f) =? 0) = false).
  { apply Z.eqb_neq. unfold frameBytes. rewrite len_app, len_frameHeader.
    pose proof (len_nonneg (concat (objectBytes <$> df_Objects f))). lia. }
  unfold DecodeFrame. rewrite Hne, (proj2 (Z.ltb_ge _ _) Hlen). cbn [orb].
  unfold frameBytes, frameHeader. do 9 read_step. rewrite <-?app_assoc.
  pose proof (len_nonneg (df_Objects f)).
  rewrite read_be_put by (unfold in_u; lia). run_bind. rewrite !Z.eqb_refl. cbn [negb orb].
  rewrite (proj2 (Z.ltb_ge _ _) Hlim). rewrite to_nat_len.
  rewrite <-(app_nil_r (concat _)), (readN_app _ objectBytes).
  - run_bind. cbn [len length Z.eqb negb]. destruct f as [[] ? ? ?]; cbn in *. by rewrite Hv.
  - intros o r Ho. rewrite Forall_forall in Hos, Hok, Hcs.
    destruct (Hok _ Ho) as (_ & _ & _ & _ & Hcl & Hcok & _).
    apply decodeObject_bytes; auto. eapply Forall_impl; [exact Hcok|].
    by intros c (_ & _ & _ & _ & ?).
Qed.

Lemma DecodeFrame_inv data limits f :
  DecodeFrame data limits = Ok f ->
  data = frameBytes f /\ wf_frame f /\ validateDeltaFrame f (normalizeLimits limits) = Ok tt
  /\ len data <= MaxFrameBytes (normalizeLimits limits)
  /\ len (df_Objects f) <= 65535
  /\ Forall (fun o => len (od_Components o) <= 65535) (df_Objects f).
Proof.
  unfold DecodeFrame. intros H. case_match eqn:Hg; [done|].
  read_inv_in H magic r1. read_inv_in H proto r2. read_inv_in H kind r3.
  read_inv_in H reserved r4. read_inv_in H room r5. read_inv_in H epoch r6.
  read_inv_in H tick r7. read_inv_in H btick r8. read_inv_in H sver r9.
  read_inv_in H count r10.
  case_match eqn:Hmagic; [done|]. case_match eqn:Hlim; [done|].
  destruct (readN _ _ _) as [[os r]|] eqn:E; cbn [mbind result_bind] in H; [|done].
  case_match eqn:Hrest; [done|]. ok_inv. bool_to_prop. destruct a. subst.
  apply (readN_inv _ objectBytes (fun o => wf_odelta o /\ len (od_Components o) <= 65535))
    in E as (-> & Hlen & Hos); [|intros; by eapply decodeObject_inv].
  assert (Hcount : len os = count) by (unfold in_u, len in *; lia).
  apply len_zero_nil in Hrest. subst r. apply Forall_and in Hos as [Hwf Hcs].
  unfold frameBytes, frameHeader;
    cbn [df_Meta df_Kind df_BaseTick df_Objects sm_RoomID sm_Epoch sm_Tick sm_SchemaVersion].
  rewrite Hcount, app_nil_r, <-!app_assoc in *.
  split_and!; try done. unfold in_u in *. lia.
Qed.

(** ** Lemmas: built frames are valid *)

(** Rendering each operation to at most one delta keeps keys distinct. *)
Lemma render_keys {K A D} `{Countable K} (key : A -> K) (dkey : D -> K)
    (render : mop -> list D) ops :
  (forall op, render op = [] \/ exists d, render op = [d] /\ dkey d = mop_key key op) ->
  NoDup (mop_key key <$> ops) ->
  NoDup (dkey <$> concat (render <$> ops))
  /\ (length (concat (render <$> ops)) <= length ops)%nat.
Proof.
  intros Hr.
  induction ops as [|op ops IH]; csimpl; intros Hnd; [split; [constructor|done]|].
  apply NoDup_cons in Hnd as [Hop Hnd].
  assert (Hin' : forall k, k ∈ dkey <$> concat (render <$> ops) -> k ∈ mop_key key <$> ops).
  { clear -Hr. induction ops as [|op ops IH]; csimpl; [done|]. intros k. rewrite fmap_app.
    destruct (Hr op) as [->|(d & -> & <-)]; csimpl; set_solver. }
  destruct (IH Hnd) as [IH1 IH2].
  destruct (Hr op) as [->|(d & -> & Hd)]; csimpl; [split; [done|lia]|].
  split; [|lia]. constructor; [|done]. rewrite Hd. intros Hk. by apply Hop, Hin'.
Qed.

Definition small_limits (limits : Limits) : Prop :=
  0 < MaxObjects limits < 2 ^ 62 /\ 0 < MaxComponentsPerObject limits < 2 ^ 62.

Lemma setComponentDelta_ok limits op c :
  component_ok limits c -> cdelta_ok limits op (setComponentDelta c).
Proof.
  intros (Ht & Hv & Hd). unfold cdelta_ok, setComponentDelta; cbn. split_and!; try done.
  by left.
Qed.

Lemma removeComponentDelta_ok limits op c :
  component_ok limits c -> op <> ObjectCreate -> cdelta_ok limits op (removeComponentDelta c).
Proof.
  intros (Ht & Hv & Hd) Hop. unfold cdelta_ok, removeComponentDelta; cbn.
  pose proof (len_nonneg (cs_Data c)). split_and!; try done; [by right|]. rewrite len_nil. lia.
Qed.

Lemma diffComponents_ok limits op b c :
  object_ok limits b -> object_ok limits c -> op <> ObjectCreate ->
  let ds := diffComponents (os_Components b) (os_Components c) in
  Forall (cdelta_ok limits op) ds /\ NoDup (cd_TypeID <$> ds)
  /\ len ds <= len (os_Components b) + len (os_Components c).
Proof.
  intros (_ & _ & _ & Hsb & Hb) (_ & _ & _ & Hsc & Hc) Hop ds.
  destruct (merge_ops_spec cs_TypeID Z.ltb ltac:(intros; bool_to_prop; lia) _ _ Hsb Hsc)
    as (Hin & Hnd & Hlen).
  destruct (render_keys cs_TypeID cd_TypeID renderComponent
    (merge_ops cs_TypeID Z.ltb (os_Components b) (os_Components c))) as [Hk Hl]; [|exact Hnd|].
  { intros []; simpl; [right; by eexists..|]. case_match; [right; by eexists|by left]. }
  subst ds. rewrite diffComponents_merge. split_and!; [|done|unfold len; lia].
  apply Forall_concat, Forall_fmap. rewrite Forall_forall in Hb, Hc.
  rewrite Forall_forall in Hin |- *.
  intros o Ho. specialize (Hin _ Ho). unfold compose.
  destruct o as [x|x|x y]; simpl in *.
  - apply Forall_singleton, setComponentDelta_ok. auto.
  - apply Forall_singleton, removeComponentDelta_ok; auto.
  - case_match; [|done]. apply Forall_singleton, setComponentDelta_ok. naive_solver.
Qed.

Lemma createObjectDelta_ok limits kind o :
  small_limits limits -> object_ok limits o -> odelta_ok limits kind (createObjectDelta o).
Proof.
  intros [_ Hsm] (Hr & Ha & Hn & Hs & Hc). unfold odelta_ok, createObjectDelta; cbn.
  pose proof (len_nonneg (os_Components o)).
  assert (Hl : len (setComponentDelta <$> os_Components o) = len (os_Components o))
    by (unfold len; by rewrite length_fmap).
  rewrite wrapi64_small, Hl by lia.
  split_and!; try done; [by left|lia| |].
  - apply Forall_fmap. eapply Forall_impl; [exact Hc|]. intros c. apply setComponentDelta_ok.
  - rewrite <-list_fmap_compose. by apply types_NoDup.
Qed.

Lemma diffObjects_ok limits bs cs :
  small_limits limits -> Forall (object_ok limits) bs -> Forall (object_ok limits) cs ->
  strictly_sorted object_less bs -> strictly_sorted object_less cs ->
  let ds := diffObjects bs cs in
  Forall (odelta_ok limits FrameDelta) ds /\ NoDup (od_Ref <$> ds)
  /\ len ds <= len bs + len cs.
Proof.
  intros Hsm Hb Hc Hsb Hsc ds.
  destruct (merge_ops_spec os_Ref ObjectRef_Less ObjectRef_Less_total _ _ Hsb Hsc)
    as (Hin & Hnd & Hlen).
  destruct (render_keys os_Ref od_Ref renderObject
    (merge_ops os_Ref ObjectRef_Less bs cs)) as [Hk Hl]; [|exact Hnd|].
  { intros [x|x|x y]; simpl; [right; by eexists..|].
    destruct (negb _); [right; by eexists|].
    destruct (diffComponents _ _); [by left|right; by eexists]. }
  subst ds. rewrite diffObjects_merge. split_and!; [|done|unfold len; lia].
  apply Forall_concat, Forall_fmap. rewrite Forall_forall in Hb, Hc.
  rewrite Forall_forall in Hin |- *.
  intros o Ho. specialize (Hin _ Ho). unfold compose.
  destruct o as [x|x|x y]; simpl in *.
  - apply Forall_singleton, createObjectDelta_ok; auto.
  - apply Forall_singleton. destruct (Hb _ Hin) as (Hr & _).
    unfold odelta_ok, removeObjectDelta; cbn. destruct Hsm as [_ Hsm].
    rewrite wrapi64_small by lia.
    split_and!; try done; [right; split; [by right|done]|unfold len; simpl; lia|constructor].
  - destruct Hin as (Hx & Hy & Hkey). case_match; [|].
    { apply Forall_singleton, createObjectDelta_ok; auto. }
    destruct (diffComponents _ _) as [|d ds] eqn:Hd; [done|]. rewrite <-Hd.
    destruct (diffComponents_ok limits ObjectUpdate x y) as (Hok & Hndc & Hlc); auto.
    destruct (Hb _ Hx) as (_ & _ & Hnx & _), (Hc _ Hy) as (Hry & Hay & Hny & _).
    pose proof (len_nonneg (os_Components x)).
    apply Forall_singleton. unfold odelta_ok, updateObjectDelta; cbn [od_Ref od_Operation
      od_Archetype od_Components]. rewrite wrapi64_small by (destruct Hsm; lia).
    split_and!; try done; [right; split; [by left|done]|lia].
Qed.

Lemma BuildDelta_frame_ok limits base current frame :
  small_limits (normalizeLimits limits) ->
  (forall b, base = Some b -> canonical limits b) -> canonical limits current ->
  BuildDelta base current = Ok frame ->
  frame_ok (normalizeLimits limits) frame.
Proof.
  intros Hsm Hbase Hcur Hb. pose proof (canonical_objects _ _ Hcur) as [Hsc Hokc].
  pose proof (canonical_snapshot_inv _ _ Hcur) as [Hm Hn _ _].
  unfold BuildDelta in Hb. rewrite Hm in Hb. cbn [mbind result_bind] in Hb.
  destruct base as [b|].
  - specialize (Hbase b eq_refl). pose proof (canonical_objects _ _ Hbase) as [Hsb Hokb].
    pose proof (canonical_snapshot_inv _ _ Hbase) as [Hmb Hnb _ _].
    apply SnapshotMeta_validate_ok in Hmb as (_ & _ & Htick & _).
    ok_inv. bool_to_prop.
    destruct (diffObjects_ok _ _ _ Hsm Hokb Hokc Hsb Hsc) as (Hok & Hnd & Hlen).
    unfold frame_ok; cbn. rewrite wrapi64_small by (destruct Hsm; lia).
    split_and!; try done; [by right|lia].
  - ok_inv. unfold frame_ok; cbn. rewrite wrapi64_small by (destruct Hsm; lia).
    assert (Hl : len (createObjectDelta <$> sn_Objects current) = len (sn_Objects current))
      by (unfold len; by rewrite length_fmap).
    rewrite Hl. split_and!; try done; [by left|destruct Hsm; lia| |].
    + apply Forall_fmap. eapply Forall_impl; [exact Hokc|].
      intros o. by apply createObjectDelta_ok.
    + rewrite <-list_fmap_compose. by apply refs_NoDup.
Qed.

Lemma wf_setComponentDelta c : wf_component c -> wf_cdelta (setComponentDelta c).
Proof. intros [??]. by split_and!. Qed.

Lemma wf_diffComponents bs cs :
  Forall wf_component bs -> Forall wf_component cs ->
  Forall wf_cdelta (diffComponents bs cs).
Proof.
  intros Hb. revert cs. induction Hb as [|b bs [Hbt Hbv] Hb IHb]; intros cs Hc.
  { rewrite diffComponents_nil. apply Forall_fmap. eapply Forall_impl; [exact Hc|].
    apply wf_setComponentDelta. }
  assert (Hrem : wf_cdelta (removeComponentDelta b)) by (by split_and!).
  induction Hc as [|c cs Hcw Hc IHc].
  { rewrite diffComponents_cons_nil. constructor; [done|by apply IHb]. }
  rewrite diffComponents_cons_cons.
  repeat case_match; try constructor; auto using wf_setComponentDelta.
Qed.

Lemma wf_createObjectDelta o : wf_object o -> wf_odelta (createObjectDelta o).
Proof.
  intros (Hr & Ha & Hc). split_and!; [done..|]. cbn. apply Forall_fmap.
  eapply Forall_impl; [exact Hc|]. apply wf_setComponentDelta.
Qed.

Lemma wf_diffObjects bs cs :
  Forall wf_object bs -> Forall wf_object cs -> Forall wf_odelta (diffObjects bs cs).
Proof.
  intros Hb. revert cs. induction Hb as [|b bs Hbw Hb IHb]; intros cs Hc.
  { rewrite diffObjects_nil. apply Forall_fmap. eapply Forall_impl; [exact Hc|].
    apply wf_createObjectDelta. }
  assert (Hrem : wf_odelta (removeObjectDelta b)).
  { destruct Hbw as (? & _). by split_and!. }
  induction Hc as [|c cs Hcw Hc IHc].
  { rewrite diffObjects_cons_nil. constructor; [done|by apply IHb]. }
  rewrite diffObjects_cons_cons.
  repeat case_match; auto using wf_createObjectDelta; constructor;
    auto using wf_createObjectDelta.
  destruct Hcw as (Hr & Ha & Hcs), Hbw as (_ & _ & Hbs). split_and!; try done.
  cbn [od_Components updateObjectDelta]. match goal with
  | H : diffComponents _ _ = _ |- _ => rewrite <-H end.
  by apply wf_diffComponents.
Qed.

Lemma BuildDelta_wf base current frame :
  (forall b, base = Some b -> wf_snapshot b) -> wf_snapshot current ->
  BuildDelta base current = Ok frame -> wf_frame frame.
Proof.
  intros Hb [Hm Hc] H. unfold BuildDelta in H. ok_inv. destruct base as [b|]; ok_inv.
  - destruct (Hb b eq_refl) as [(_ & _ & Htick & _) Hbo]. split_and!; try done.
    by apply wf_diffObjects.
  - split_and!; try done. cbn. rewrite <-diffObjects_nil. by apply wf_diffObjects.
Qed.

(** ** Properties *)

(** C8. Decoding inverts encoding: a frame with fields in the range of their types that
    [EncodeFrame] accepts and whose bytes fit [MaxFrameBytes], which the encoder
    does not check ([EncodeFrame_may_exceed_limit]), decodes to itself under the
    same limits.  [MaxComponentBytes] is below 2^32, the range of the [uint32]
    conversion in the decoder. *)
Theorem DecodeFrame_EncodeFrame frame limits data :
  wf_frame frame -> EncodeFrame frame limits = Ok data ->
  len data <= MaxFrameBytes (normalizeLimits limits) ->
  MaxComponentBytes (normalizeLimits limits) < 2 ^ 32 ->
  DecodeFrame data limits = Ok frame.
Proof.
  intros Hwf (-> & Hv & Hn & Hcs)%EncodeFrame_bytes Hlen Hmax.
  by apply DecodeFrame_bytes.
Qed.

Lemma wf_expected_frame : wf_frame expected_frame.
Proof. by_evaluation. Qed.

Lemma DecodeFrame_EncodeFrame_witness :
  exists data, EncodeFrame expected_frame DefaultLimits = Ok data
    /\ len data = 78 /\ DecodeFrame data DefaultLimits = Ok expected_frame.
Proof.
  eexists. split; [vm_compute; reflexivity|]. split; [vm_compute; reflexivity|].
  apply (DecodeFrame_EncodeFrame expected_frame DefaultLimits).
  - apply wf_expected_frame.
  - vm_compute. reflexivity.
  - vm_compute. discriminate.
  - vm_compute. reflexivity.
Defined.

(** The wire format is canonical: a byte string the decoder accepts is exactly
    the encoding of the frame it returns, so no two byte strings decode to the
    same frame and the decoder's output has the types and passes the checks of
    the encoder's input. *)
Theorem EncodeFrame_DecodeFrame data limits frame :
  DecodeFrame data limits = Ok frame ->
  EncodeFrame frame limits = Ok data /\ wf_frame frame.
Proof.
  intros (-> & Hwf & Hv & Hlen & Hn & Hcs)%DecodeFrame_inv. split; [|done].
  unfold EncodeFrame. rewrite Hv. run_bind. rewrite (proj2 (Z.ltb_ge _ _) Hn).
  by apply encodeObjects_fit.
Qed.

Definition small_wire : list byte :=
  byte_of <$> [67;82;80;49; 0;1; 1; 0; 0;0;0;0;0;0;0;7; 0;0;0;1; 0;0;0;5; 0;0;0;0; 0;2; 0;0].

Lemma EncodeFrame_DecodeFrame_witness :
  EncodeFrame (mkFrame (mkMeta 7 1 5 2) FrameFull 0 []) DefaultLimits = Ok small_wire
  /\ wf_frame (mkFrame (mkMeta 7 1 5 2) FrameFull 0 []).
Proof. apply EncodeFrame_DecodeFrame. vm_compute. reflexivity. Defined.

(** The validator accepts exactly the frames of the protocol: metadata set, a
    full frame without baseline and with creations only or a delta frame with an
    earlier baseline, distinct object and component references, archetypes and
    schema versions set where required, removals without payload, and all counts
    and sizes within the limits. *)
Theorem validateDeltaFrame_exact frame limits :
  validateDeltaFrame frame limits = Ok tt <-> frame_ok limits frame.
Proof. apply validateDeltaFrame_spec. Qed.

(** The builder only produces valid frames: between canonical snapshots, the
    frame of [BuildDelta] passes the validation in front of the encoder. *)
Theorem BuildDelta_valid limits base current frame :
  small_limits (normalizeLimits limits) ->
  (forall b, base = Some b -> canonical limits b) -> canonical limits current ->
  BuildDelta base current = Ok frame ->
  validateDeltaFrame frame (normalizeLimits limits) = Ok tt.
Proof. intros. apply validateDeltaFrame_spec. by eapply BuildDelta_frame_ok. Qed.

Lemma BuildDelta_valid_witness :
  validateDeltaFrame expected_frame (normalizeLimits DefaultLimits) = Ok tt.
Proof.
  apply (BuildDelta_valid DefaultLimits (Some sample_snapshot) next_snapshot).
  - vm_compute. repeat split; discriminate || reflexivity.
  - intros b [= <-]. vm_compute. reflexivity.
  - vm_compute. reflexivity.
  - vm_compute. reflexivity.
Defined.

(** The size check of the encoder runs after each component only, so a frame of
    removals passes it at any length: the encoder can return more bytes than
    [MaxFrameBytes], which the decoder under the same limits refuses. *)
Theorem EncodeFrame_may_exceed_limit :
  exists frame limits data,
    EncodeFrame frame limits = Ok data
    /\ MaxFrameBytes (normalizeLimits limits) < len data
    /\ DecodeFrame data limits = Err ErrFrameTooLarge.
Proof.
  exists (mkFrame (mkMeta 7 1 6 2) FrameDelta 5 [removeObjectDelta (mkObject (mkRef 9 1) 3 [])]).
  exists (mkLimits 0 0 0 40 0 0 0). eexists.
  split; [vm_compute; reflexivity|]. split; vm_compute; reflexivity.
Qed.
