(* ===== verification/Datagram.v ===== *)
(** * Datagrams and reassembly

    [src/replication/datagram.go]: a frame is cut into checksummed datagrams and
    rebuilt from them.  Time is counted in nanoseconds from Go's zero time, so
    [IsZero] is equality with [0]; a reading of [time.Now] is an argument. *)

From stdpp Require Import base list gmap strings sorting.
From Stdlib Require Import ZArith Lia.
From S2P Require Import Prelude ReplTypes Snapshots Wire Delta Codec.

Local Open Scope Z_scope.

Definition datagramMagic : Z := 0x43524431.
Definition DatagramHeaderSize : Z := 42.
Definition DatagramFlagFull : Z := 1.

Record DatagramHeader := mkHeader {
  dh_Protocol : Z;
  dh_Flags : Z;
  dh_RoomID : Z;
  dh_Epoch : Z;
  dh_Tick : Z;
  dh_BaseTick : Z;
  dh_Sequence : Z;
  dh_ChunkIndex : Z;
  dh_ChunkCount : Z;
  dh_PayloadLen : Z;
  dh_Checksum : Z
}.

Definition zeroHeader : DatagramHeader := mkHeader 0 0 0 0 0 0 0 0 0 0 0.

(** ** Encoding *)

(** The checksum covers the packet with its own field read as zero. *)
Definition checksumDatagram (packet : list byte) : Z :=
  crc32 (take 38 packet ++ be_put 4 0 ++ drop 42 packet).

(** The first 38 bytes of a packet. *)
Definition headerBytes (h : DatagramHeader) : list byte :=
  be_put 4 datagramMagic ++ be_put 2 (dh_Protocol h) ++ be_put 2 (dh_Flags h)
  ++ be_put 8 (dh_RoomID h) ++ be_put 4 (dh_Epoch h) ++ be_put 4 (dh_Tick h)
  ++ be_put 4 (dh_BaseTick h) ++ be_put 4 (dh_Sequence h) ++ be_put 2 (dh_ChunkIndex h)
  ++ be_put 2 (dh_ChunkCount h) ++ be_put 2 (dh_PayloadLen h).

Definition encodeDatagram (header : DatagramHeader) (payload : list byte)
    : res (list byte) :=
  if negb (dh_Protocol header =? ProtocolVersion) || (dh_RoomID header =? 0)
     || (dh_Epoch header =? 0) || (dh_Tick header =? 0) || (dh_Sequence header =? 0)
     || (dh_ChunkCount header =? 0) || (dh_ChunkCount header <=? dh_ChunkIndex header)
     || negb (len payload =? dh_PayloadLen header)
  then Err ErrInvalidDatagram else
  let packet := headerBytes header ++ be_put 4 0 ++ payload in
  Ok (headerBytes header ++ be_put 4 (checksumDatagram packet) ++ payload).

Definition fragmentHeader (frame : DeltaFrame) (flags sequence i count plen : Z)
    : DatagramHeader :=
  let m := df_Meta frame in
  {| dh_Protocol := ProtocolVersion; dh_Flags := flags; dh_RoomID := sm_RoomID m;
     dh_Epoch := sm_Epoch m; dh_Tick := sm_Tick m; dh_BaseTick := df_BaseTick frame;
     dh_Sequence := sequence; dh_ChunkIndex := u16! i; dh_ChunkCount := u16! count;
     dh_PayloadLen := u16! plen; dh_Checksum := 0 |}.

(** The body of the fragment loop for index [i]. *)
Definition fragmentPacket (frame : DeltaFrame) (flags sequence count maxPayload maxDatagram : Z)
    (encoded : list byte) (i : nat) : res (list byte) :=
  let start := Z.of_nat i * maxPayload in
  let stop := minInt (start + maxPayload) (len encoded) in
  packet ← encodeDatagram (fragmentHeader frame flags sequence (Z.of_nat i) count (stop - start))
             (slice (Z.to_nat start) (Z.to_nat stop) encoded);
  if maxDatagram <? len packet then Err ErrInvalidDatagram else Ok packet.

Definition FragmentFrame (frame : DeltaFrame) (sequence : Z) (encoded : list byte)
    (maxDatagram : Z) (limits : Limits) : res (list (list byte)) :=
  let limits := normalizeLimits limits in
  if (sequence =? 0) || (len encoded =? 0) || (MaxFrameBytes limits <? len encoded)
  then Err ErrInvalidDatagram else
  let maxDatagram := if maxDatagram <=? 0 then DefaultMaxDatagram else maxDatagram in
  if MaxDatagramBytes limits <? maxDatagram then Err ErrInvalidDatagram else
  let maxPayload := maxDatagram - DatagramHeaderSize in
  if (maxPayload <=? 0) || (65535 <? maxPayload) then Err ErrInvalidDatagram else
  let count := (len encoded + maxPayload - 1) / maxPayload in
  if (count <=? 0) || (MaxFragments limits <? count) || (65535 <? count)
  then Err ErrFragmentLimit else
  let flags := if df_Kind frame =? FrameFull then Z.lor 0 DatagramFlagFull else 0 in
  mapM (fragmentPacket frame flags sequence count maxPayload maxDatagram encoded)
       (seq 0 (Z.to_nat count)).

(** ** Decoding *)

Definition parseHeader (packet : list byte) : DatagramHeader :=
  {| dh_Protocol := be_get (slice 4 6 packet);
     dh_Flags := be_get (slice 6 8 packet);
     dh_RoomID := be_get (slice 8 16 packet);
     dh_Epoch := be_get (slice 16 20 packet);
     dh_Tick := be_get (slice 20 24 packet);
     dh_BaseTick := be_get (slice 24 28 packet);
     dh_Sequence := be_get (slice 28 32 packet);
     dh_ChunkIndex := be_get (slice 32 34 packet);
     dh_ChunkCount := be_get (slice 34 36 packet);
     dh_PayloadLen := be_get (slice 36 38 packet);
     dh_Checksum := be_get (slice 38 42 packet) |}.

(** [copyPayload] chooses between a detached and an aliased payload; as values
    they are equal. *)
Definition decodeDatagram (packet : list byte) (limits : Limits) (copyPayload : bool)
    : res (DatagramHeader * list byte) :=
  let limits := normalizeLimits limits in
  if (len packet <? DatagramHeaderSize) || (MaxDatagramBytes limits <? len packet)
     || negb (be_get (slice 0 4 packet) =? datagramMagic)
  then Err ErrInvalidDatagram else
  let header := parseHeader packet in
  if negb (dh_Protocol header =? ProtocolVersion) || (dh_RoomID header =? 0)
     || (dh_Epoch header =? 0) || (dh_Tick header =? 0) || (dh_Sequence header =? 0)
     || (dh_ChunkCount header =? 0) || (MaxFragments limits <? dh_ChunkCount header)
     || (dh_ChunkCount header <=? dh_ChunkIndex header)
     || negb (dh_PayloadLen header =? len packet - DatagramHeaderSize)
     || negb (Z.land (dh_Flags header) 65534 =? 0)
  then Err ErrInvalidDatagram else
  if negb (checksumDatagram packet =? dh_Checksum header) then Err ErrChecksumMismatch else
  let payload := drop 42 packet in
  Ok (header, if copyPayload then [] ++ payload else payload).

Definition DecodeDatagram (packet : list byte) (limits : Limits)
    : res (DatagramHeader * list byte) := decodeDatagram packet limits true.

Definition InspectDatagram (packet : list byte) (limits : Limits) : res DatagramHeader :=
  '(header, _) ← decodeDatagram packet limits false; Ok header.

(** ** Reassembly *)

Record assemblyKey := mkKey {
  ak_session : Z;
  ak_roomID : Z;
  ak_epoch : Z;
  ak_tick : Z;
  ak_sequence : Z
}.

#[export] Instance assemblyKey_eq_dec : EqDecision assemblyKey.
Proof. solve_decision. Defined.

#[export] Instance assemblyKey_countable : Countable assemblyKey.
Proof.
  refine (inj_countable'
    (fun k => (ak_session k, ak_roomID k, ak_epoch k, ak_tick k, ak_sequence k))
    (fun '(a, b, c, d, e) => mkKey a b c d e) _).
  by intros [].
Defined.

(** A chunk slot is [None] while the Go slice is nil. *)
Record frameAssembly := mkAssembly {
  fa_header : DatagramHeader;
  fa_created : Z;
  fa_chunks : list (option (list byte));
  fa_received : Z;
  fa_total : Z
}.

Record Reassembler := mkReassembler {
  ra_limits : Limits;
  ra_ttl : Z;
  ra_inflight : gmap assemblyKey frameAssembly
}.

Definition NewReassembler (limits : Limits) (ttl : Z) : Reassembler :=
  mkReassembler (normalizeLimits limits) (if ttl <=? 0 then 2 * 10 ^ 9 else ttl) ∅.

Definition set_inflight (r : Reassembler) (m : gmap assemblyKey frameAssembly) : Reassembler :=
  mkReassembler (ra_limits r) (ra_ttl r) m.

(** [time.Time.Sub] saturates at the bounds of [int64]. *)
Definition time_sub (a b : Z) : Z := Z.max (- 2 ^ 63) (Z.min (2 ^ 63 - 1) (a - b)).

Definition expired (r : Reassembler) (now : Z) (a : frameAssembly) : bool :=
  ra_ttl r <=? time_sub now (fa_created a).

Definition expireLocked (r : Reassembler) (now : Z) : Reassembler * Z :=
  let kept := filter (fun '(_, a) => expired r now a = false) (ra_inflight r) in
  (set_inflight r kept, Z.of_nat (size (ra_inflight r)) - Z.of_nat (size kept)).

Definition time_or_now (now clock : Z) : Z := if now =? 0 then clock else now.

Definition Reassembler_Expire (r : option Reassembler) (now clock : Z)
    : option Reassembler * Z :=
  match r with
  | None => (None, 0)
  | Some r => let '(r', n) := expireLocked r (time_or_now now clock) in (Some r', n)
  end.

Definition Reassembler_Len (r : option Reassembler) : Z :=
  match r with None => 0 | Some r => Z.of_nat (size (ra_inflight r)) end.

(** The detached copy [append([]byte(nil), payload...)] is nil when empty. *)
Definition detached (payload : list byte) : option (list byte) :=
  match payload with [] => None | _ => Some payload end.

Definition chunk_bytes (c : option (list byte)) : list byte :=
  match c with Some b => b | None => [] end.

(** The part of [push] after the assembly was found or created. *)
Definition admitChunk (r : Reassembler) (key : assemblyKey) (a : frameAssembly)
    (header : DatagramHeader) (payload : list byte)
    : Reassembler * DatagramHeader * res (option (list byte)) :=
  let drop_key := set_inflight r (delete key (ra_inflight r)) in
  let keep a := set_inflight r (<[key := a]> (ra_inflight r)) in
  let index := Z.to_nat (dh_ChunkIndex header) in
  match fa_chunks a !! index with
  | Some (Some existing) =>
      if negb (bool_decide (existing = payload))
      then (drop_key, header, Err ErrInvalidDatagram)
      else (keep a, header, Ok None)
  | _ =>
      if MaxFrameBytes (ra_limits r) <? fa_total a + len payload
      then (drop_key, header, Err ErrFrameTooLarge) else
      let a := mkAssembly (fa_header a) (fa_created a)
                 (<[index := detached payload]> (fa_chunks a))
                 (fa_received a + 1) (fa_total a + len payload) in
      if negb (fa_received a =? len (fa_chunks a)) then (keep a, header, Ok None)
      else (drop_key, header, Ok (Some (concat (chunk_bytes <$> fa_chunks a))))
  end.

Definition assemblyKeyOf (session : Z) (h : DatagramHeader) : assemblyKey :=
  mkKey session (dh_RoomID h) (dh_Epoch h) (dh_Tick h) (dh_Sequence h).

Definition Reassembler_push (r : Reassembler) (session : Z) (packet : list byte) (now clock : Z)
    : Reassembler * DatagramHeader * res (option (list byte)) :=
  let now := time_or_now now clock in
  match DecodeDatagram packet (ra_limits r) with
  | Err e => (r, zeroHeader, Err e)
  | Ok (header, payload) =>
      if dh_ChunkCount header =? 1 then (r, header, Ok (Some payload)) else
      let key := assemblyKeyOf session header in
      let r := (expireLocked r now).1 in
      match ra_inflight r !! key with
      | None =>
          if MaxInflightFrames (ra_limits r) <=? Z.of_nat (size (ra_inflight r))
          then (r, header, Err ErrReassemblyCapacity)
          else admitChunk r key
                 (mkAssembly header now
                    (replicate (Z.to_nat (dh_ChunkCount header)) None) 0 0) header payload
      | Some a =>
          if negb (dh_ChunkCount (fa_header a) =? dh_ChunkCount header)
             || negb (dh_BaseTick (fa_header a) =? dh_BaseTick header)
             || negb (dh_Flags (fa_header a) =? dh_Flags header)
          then (set_inflight r (delete key (ra_inflight r)), header, Err ErrInvalidDatagram)
          else admitChunk r key a header payload
      end
  end.

Definition Reassembler_Push (r : option Reassembler) (packet : list byte) (now clock : Z)
    : option Reassembler * DatagramHeader * res (option (list byte)) :=
  match r with
  | None => (None, zeroHeader, Err ErrInvalidDatagram)
  | Some r => let '(r', h, o) := Reassembler_push r 0 packet now clock in (Some r', h, o)
  end.

Definition Reassembler_PushFor (r : option Reassembler) (session : Z) (packet : list byte)
    (now clock : Z) : option Reassembler * DatagramHeader * res (option (list byte)) :=
  if session =? 0 then (r, zeroHeader, Err ErrSessionNotFound) else
  match r with
  | None => (None, zeroHeader, Err ErrInvalidDatagram)
  | Some r => let '(r', h, o) := Reassembler_push r session packet now clock in (Some r', h, o)
  end.

(** ** Lemmas: the packet format *)

Lemma slice_here {A} n (x l : list A) : length x = n -> slice 0 n (x ++ l) = x.
Proof. intros <-. unfold slice. by rewrite Nat.sub_0_r, drop_0, take_app_length. Qed.

Lemma slice_skip {A} a b (x l : list A) :
  (length x <= a)%nat -> slice a b (x ++ l) = slice (a - length x) (b - length x) l.
Proof.
  intros Hn. unfold slice. rewrite drop_app_ge by done. f_equal. lia.
Qed.

(** Reads a field of a packet that is a concatenation of fields. *)
Ltac read_field :=
  repeat (rewrite slice_skip by (rewrite length_be_put; lia);
          rewrite length_be_put; cbn [Nat.sub]);
  rewrite slice_here by apply length_be_put;
  apply be_get_put_small; first [done | lia].

Ltac header_fields :=
  cbn [dh_Protocol dh_Flags dh_RoomID dh_Epoch dh_Tick dh_BaseTick dh_Sequence
       dh_ChunkIndex dh_ChunkCount dh_PayloadLen dh_Checksum] in *.

(** The values of the header's machine types. *)
Definition wf_header (h : DatagramHeader) : Prop :=
  in_u 16 (dh_Protocol h) /\ in_u 16 (dh_Flags h) /\ in_u 64 (dh_RoomID h)
  /\ in_u 32 (dh_Epoch h) /\ in_u 32 (dh_Tick h) /\ in_u 32 (dh_BaseTick h)
  /\ in_u 32 (dh_Sequence h) /\ in_u 16 (dh_ChunkIndex h) /\ in_u 16 (dh_ChunkCount h)
  /\ in_u 16 (dh_PayloadLen h) /\ in_u 32 (dh_Checksum h).

#[export] Instance wf_header_dec h : Decision (wf_header h).
Proof. unfold wf_header. apply _. Defined.

Definition packetBytes (h : DatagramHeader) (payload : list byte) : list byte :=
  headerBytes h ++ be_put 4 (dh_Checksum h) ++ payload.

(** The bytes the checksum is taken of. *)
Definition covered (packet : list byte) : list byte :=
  take 38 packet ++ be_put 4 0 ++ drop 42 packet.

Definition with_checksum (h : DatagramHeader) (c : Z) : DatagramHeader :=
  mkHeader (dh_Protocol h) (dh_Flags h) (dh_RoomID h) (dh_Epoch h) (dh_Tick h)
    (dh_BaseTick h) (dh_Sequence h) (dh_ChunkIndex h) (dh_ChunkCount h) (dh_PayloadLen h) c.

Lemma length_headerBytes h : length (headerBytes h) = 38%nat.
Proof. unfold headerBytes. by rewrite !length_app, !length_be_put. Qed.

Lemma length_packetBytes h p : length (packetBytes h p) = (42 + length p)%nat.
Proof. unfold packetBytes. by rewrite !length_app, length_headerBytes, length_be_put. Qed.

Lemma parseHeader_packetBytes h p : wf_header h -> parseHeader (packetBytes h p) = h.
Proof.
  intros (?&?&?&?&?&?&?&?&?&?&?). destruct h.
  unfold parseHeader, packetBytes, headerBytes; header_fields.
  rewrite <-!app_assoc. f_equal; read_field.
Qed.

Lemma magic_packetBytes h p : be_get (slice 0 4 (packetBytes h p)) = datagramMagic.
Proof.
  unfold packetBytes, headerBytes. rewrite <-!app_assoc.
  rewrite slice_here by apply length_be_put. by vm_compute.
Qed.

Lemma covered_packet (h c p : list byte) :
  length h = 38%nat -> length c = 4%nat -> covered (h ++ c ++ p) = h ++ be_put 4 0 ++ p.
Proof.
  intros Hh Hc. unfold covered.
  assert (take 38 (h ++ c ++ p) = h) as -> by (rewrite <-Hh; apply take_app_length).
  assert (drop 42 (h ++ c ++ p) = p) as ->; [|done].
  rewrite app_assoc. rewrite <-(drop_app_length (h ++ c) p) at 2. f_equal.
  rewrite length_app. lia.
Qed.

Lemma checksum_packetBytes h c p :
  checksumDatagram (packetBytes (with_checksum h c) p)
  = checksumDatagram (headerBytes h ++ be_put 4 0 ++ p).
Proof.
  unfold checksumDatagram, packetBytes, headerBytes. fold (headerBytes h).
  pose proof (covered_packet (headerBytes h) (be_put 4 c) p (length_headerBytes h)
                (length_be_put _ _)) as H1.
  pose proof (covered_packet (headerBytes h) (be_put 4 0) p (length_headerBytes h)
                (length_be_put _ _)) as H2.
  transitivity (crc32 (headerBytes h ++ be_put 4 0 ++ p)); [by rewrite <-H1|by rewrite <-H2].
Qed.

(** The decoder's conditions on a header. *)
Definition header_ok (limits : Limits) (h : DatagramHeader) (payload : list byte) : Prop :=
  dh_Protocol h = ProtocolVersion /\ dh_RoomID h <> 0 /\ dh_Epoch h <> 0 /\ dh_Tick h <> 0
  /\ dh_Sequence h <> 0 /\ 0 < dh_ChunkCount h <= MaxFragments limits
  /\ dh_ChunkIndex h < dh_ChunkCount h /\ dh_PayloadLen h = len payload
  /\ (dh_Flags h = 0 \/ dh_Flags h = DatagramFlagFull)
  /\ DatagramHeaderSize + len payload <= MaxDatagramBytes limits.

#[export] Instance header_ok_dec limits h payload : Decision (header_ok limits h payload).
Proof. unfold header_ok. apply _. Defined.

Lemma flags_known f : in_u 16 f -> Z.land f 65534 = 0 <-> f = 0 \/ f = DatagramFlagFull.
Proof.
  intros Hf. unfold DatagramFlagFull. split; [|by intros [->| ->]].
  intros Hland. assert (Hhi : f / 2 = 0).
  { assert (Hr : 0 <= f / 2 < 2 ^ 15).
    { unfold in_u in Hf. split; [apply Z.div_pos; lia|apply Z.div_lt_upper_bound; lia]. }
    rewrite <-(Z.mod_small (f / 2) (2 ^ 15)), <-Z.land_ones by lia.
    apply Z.bits_inj'. intros k Hk. rewrite Z.bits_0, <-(Z.bits_0 (k + 1)), <-Hland.
    rewrite !Z.land_spec. f_equal.
    - change 2 with (2 ^ 1). by rewrite Z.div_pow2_bits by lia.
    - change 65534 with (Z.ones 15 * 2 ^ 1). rewrite Z.mul_pow2_bits by lia. f_equal. lia. }
  pose proof (Z.mod_pos_bound f 2). pose proof (Z.div_mod f 2). lia.
Qed.

Lemma be_put_get_n n l : length l = n -> be_put n (be_get l) = l.
Proof. intros <-. apply be_put_get. Qed.

Lemma be_get_in_u_n n l : length l = n -> in_u (8 * Z.of_nat n) (be_get l).
Proof. intros <-. apply be_get_in_u. Qed.

Lemma length_slice {A} a b (l : list A) :
  (a <= b <= length l)%nat -> length (slice a b l) = (b - a)%nat.
Proof. intros. unfold slice. rewrite length_take, length_drop. lia. Qed.

Lemma slice_drop {A} a b (l : list A) :
  (a <= b)%nat -> slice a b l ++ drop b l = drop a l.
Proof.
  intros. unfold slice. replace (drop b l) with (drop (b - a) (drop a l)).
  - apply take_drop.
  - rewrite drop_drop. f_equal. lia.
Qed.

Lemma wf_parseHeader packet : (42 <= length packet)%nat -> wf_header (parseHeader packet).
Proof.
  intros Hlen. unfold wf_header, parseHeader; header_fields.
  split_and!; match goal with |- in_u _ (be_get (slice ?a ?b _)) =>
    apply (be_get_in_u_n (b - a)); apply length_slice; lia end.
Qed.

(** A packet with the magic is its parsed header, checksum and payload. *)
Lemma packetBytes_parseHeader packet :
  (42 <= length packet)%nat -> be_get (slice 0 4 packet) = datagramMagic ->
  packetBytes (parseHeader packet) (drop 42 packet) = packet.
Proof.
  intros Hlen Hmagic. unfold packetBytes, headerBytes, parseHeader;
  header_fields.
  rewrite <-Hmagic. rewrite !be_put_get_n by (rewrite length_slice; lia).
  rewrite <-!app_assoc. by rewrite !slice_drop, drop_0 by lia.
Qed.

Lemma decodeDatagram_iff packet limits cp h payload :
  decodeDatagram packet limits cp = Ok (h, payload) <->
  packet = packetBytes h payload /\ wf_header h
  /\ header_ok (normalizeLimits limits) h payload
  /\ checksumDatagram packet = dh_Checksum h.
Proof.
  unfold decodeDatagram, header_ok. unfold DatagramHeaderSize. split.
  - intros Hdec. ok_inv. bool_to_prop.
    assert (Hlen : (42 <= length packet)%nat) by (unfold len in *; lia).
    replace (if cp then drop 42 packet else drop 42 packet)
      with (drop 42 packet) by (by destruct cp).
    assert (len (drop 42 packet) = len packet - 42) as Hd
      by (unfold len; rewrite length_drop; lia).
    pose proof (wf_parseHeader packet Hlen) as Hwf.
    rewrite packetBytes_parseHeader by done.
    assert (Hc : in_u 16 (dh_ChunkCount (parseHeader packet))) by apply Hwf.
    unfold in_u in Hc. split_and!; try done; try lia.
    apply flags_known; [apply Hwf|done].
  - intros (-> & Hwf & (Hp & Hr & He & Ht & Hs & Hc & Hi & Hl & Hf & Hd) & Hsum).
    assert (Hlen : len (packetBytes h payload) = 42 + len payload)
      by (unfold len; rewrite length_packetBytes; lia).
    assert (drop 42 (packetBytes h payload) = payload) as Hdrop.
    { unfold packetBytes. rewrite app_assoc, drop_app_length'; [done|].
      rewrite length_app, length_headerBytes, length_be_put. done. }
    pose proof (len_nonneg payload).
    rewrite Hlen, magic_packetBytes, parseHeader_packetBytes, Hsum, Hdrop by done.
    apply flags_known in Hf; [|apply Hwf]. rewrite Hf, Hp, Hl.
    replace (42 + len payload - 42) with (len payload) by lia.
    rewrite !Z.eqb_refl. cbn [negb orb].
    repeat first [rewrite (proj2 (Z.eqb_neq _ _)) by lia | rewrite (proj2 (Z.ltb_ge _ _)) by lia
                 | rewrite (proj2 (Z.leb_gt _ _)) by lia]. cbn [orb].
    by destruct cp.
Qed.

Lemma encodeDatagram_inv h p packet :
  encodeDatagram h p = Ok packet ->
  packet = packetBytes (with_checksum h (checksumDatagram packet)) p.
Proof.
  unfold encodeDatagram. intros Henc. ok_inv.
  pose proof (checksum_packetBytes h (checksumDatagram (headerBytes h ++ be_put 4 0 ++ p)) p) as Hc.
  unfold packetBytes at 1 in Hc. unfold packetBytes. cbn [dh_Checksum with_checksum] in *.
  unfold headerBytes in *. cbn in Hc. cbn. by rewrite Hc.
Qed.

(** ** Lemmas: corruption *)

Lemma decode_checksum packet limits cp hp :
  decodeDatagram packet limits cp = Ok hp ->
  crc32 (covered packet) = be_get (slice 38 42 packet) /\ (42 <= length packet)%nat.
Proof.
  destruct hp as [h p]. intros (-> & Hwf & _ & Hsum)%decodeDatagram_iff.
  change (crc32 (covered (packetBytes h p))) with (checksumDatagram (packetBytes h p)).
  rewrite Hsum, length_packetBytes. split; [|lia].
  change (be_get _) with (dh_Checksum (parseHeader (packetBytes h p))).
  by rewrite parseHeader_packetBytes.
Qed.

(** The covered bytes and the checksum field of a packet, split at one byte. *)
Lemma covered_split l1 b l2 :
  covered (l1 ++ b :: l2) =
    (if (length l1 <? 38)%nat
     then l1 ++ b :: (take (37 - length l1) l2 ++ be_put 4 0 ++ drop (41 - length l1) l2)
     else if (length l1 <? 42)%nat
     then take 38 l1 ++ be_put 4 0 ++ drop (41 - length l1) l2
     else (take 38 l1 ++ be_put 4 0 ++ drop 42 l1) ++ b :: l2).
Proof.
  unfold covered. destruct (Nat.ltb_spec (length l1) 38); [|destruct (Nat.ltb_spec (length l1) 42)].
  - rewrite take_app_ge, drop_app_ge by lia.
    replace (38 - length l1)%nat with (S (37 - length l1)) by lia.
    replace (42 - length l1)%nat with (S (41 - length l1)) by lia.
    cbn [take drop]. by rewrite <-app_assoc.
  - rewrite take_app_le, drop_app_ge by lia.
    by replace (42 - length l1)%nat with (S (41 - length l1)) by lia.
  - rewrite take_app_le, drop_app_le by lia. by rewrite <-!app_assoc.
Qed.

Lemma checksum_field_split (l1 : list byte) b l2 :
  slice 38 42 (l1 ++ b :: l2) =
    (if (length l1 <? 38)%nat then slice (37 - length l1) (41 - length l1) l2
     else if (length l1 <? 42)%nat then drop 38 l1 ++ b :: take (41 - length l1) l2
     else slice 38 42 l1).
Proof.
  unfold slice. destruct (Nat.ltb_spec (length l1) 38); [|destruct (Nat.ltb_spec (length l1) 42)].
  - rewrite drop_app_ge by lia. replace (38 - length l1)%nat with (S (37 - length l1)) by lia.
    cbn [drop]. f_equal. lia.
  - rewrite drop_app_le by lia. rewrite take_app_ge by (rewrite length_drop; lia).
    rewrite length_drop.
    by replace (42 - 38 - (length l1 - 38))%nat with (S (41 - length l1)) by lia.
  - rewrite drop_app_le by lia. rewrite take_app_le by (rewrite length_drop; lia). done.
Qed.

Lemma be_get_inj l k : length l = length k -> be_get l = be_get k -> l = k.
Proof. intros Hlen Heq. by rewrite <-(be_put_get l), Hlen, Heq, be_put_get. Qed.

(** Two packets that differ in one byte do not both match their checksums. *)
Lemma checksum_separates l1 b b' l2 :
  b <> b' ->
  crc32 (covered (l1 ++ b :: l2)) = be_get (slice 38 42 (l1 ++ b :: l2)) ->
  crc32 (covered (l1 ++ b' :: l2)) <> be_get (slice 38 42 (l1 ++ b' :: l2)).
Proof.
  intros Hne. rewrite !covered_split, !checksum_field_split.
  destruct (Nat.ltb_spec (length l1) 38); [|destruct (Nat.ltb_spec (length l1) 42)].
  - intros <- Heq. by eapply crc_detects, symmetry.
  - intros -> Heq. apply be_get_inj in Heq; [|by rewrite !length_app].
    apply app_inv_head in Heq. by injection Heq.
  - intros <- Heq. by eapply crc_detects, symmetry.
Qed.


(** ** Lemmas: fragmentation *)

Section Chunks.
Context (m : nat) (encoded : list byte).

(** The [i]-th chunk of [m] bytes; the last one may be shorter. *)
Definition chunk_at (i : nat) : list byte := take m (drop (i * m) encoded).

Lemma chunk_at_slice i :
  (i * m <= length encoded)%nat ->
  slice (Z.to_nat (Z.of_nat i * Z.of_nat m))
        (Z.to_nat (minInt (Z.of_nat i * Z.of_nat m + Z.of_nat m) (len encoded))) encoded
  = chunk_at i.
Proof.
  intros Hi. unfold slice, chunk_at, minInt, len.
  replace (Z.to_nat (Z.of_nat i * Z.of_nat m)) with (i * m)%nat by lia.
  case_match; bool_to_prop; [f_equal; lia|].
  rewrite !take_ge; [done|rewrite length_drop; lia..].
Qed.

Lemma len_chunk_at i :
  (i * m <= length encoded)%nat ->
  len (chunk_at i) = minInt (Z.of_nat i * Z.of_nat m + Z.of_nat m) (len encoded)
                     - Z.of_nat i * Z.of_nat m.
Proof.
  intros Hi. unfold chunk_at, minInt, len. rewrite length_take, length_drop.
  case_match; bool_to_prop; lia.
Qed.

Lemma chunk_at_nonempty i : (0 < m)%nat -> (i * m < length encoded)%nat -> chunk_at i <> [].
Proof.
  intros Hm Hi Heq. apply (f_equal length) in Heq. unfold chunk_at in Heq.
  rewrite length_take, length_drop in Heq. simpl in Heq. lia.
Qed.

Lemma concat_chunks_take n : concat (chunk_at <$> seq 0 n) = take (n * m) encoded.
Proof.
  induction n as [|n IH]; [done|].
  rewrite seq_S, fmap_app, concat_app, IH. cbn. rewrite app_nil_r. unfold chunk_at.
  rewrite <-(take_drop (n * m) (take (m + n * m) encoded)), take_take, skipn_firstn_comm.
  f_equal; f_equal; lia.
Qed.

Lemma concat_chunks n :
  (length encoded <= n * m)%nat -> concat (chunk_at <$> seq 0 n) = encoded.
Proof. intros. rewrite concat_chunks_take. by apply take_ge. Qed.

End Chunks.

Lemma mapM_ok {A B} (f : A -> res B) l k : mapM f l = Ok k <-> Forall2 (fun x y => f x = Ok y) l k.
Proof.
  revert k. induction l as [|x l IH]; intros k; cbn.
  { split; [by intros [= <-]|by inversion 1]. }
  split.
  - intros H. ok_inv. injection H as <-. constructor; [done|]. by apply IH.
  - inversion 1 as [|? y ? k' Hy Hk]; subst. apply IH in Hk. by rewrite Hy, Hk.
Qed.

Lemma mapM_total {A B} (f : A -> res B) l :
  (forall x, x ∈ l -> exists y, f x = Ok y) -> exists k, mapM f l = Ok k.
Proof.
  induction l as [|x l IH]; intros Hall; cbn; [by eexists|].
  destruct (Hall x) as [y ->]; [left|]. destruct IH as [k ->]; [|by eexists].
  intros z Hz. apply Hall. by right.
Qed.

Definition frameFlags (frame : DeltaFrame) : Z :=
  if df_Kind frame =? FrameFull then Z.lor 0 DatagramFlagFull else 0.

(** The effective datagram size of a call. *)
Definition datagramSize (maxDatagram : Z) : Z :=
  if maxDatagram <=? 0 then DefaultMaxDatagram else maxDatagram.

(** What [packets] are as fragments of [encoded] in chunks of [m] bytes. *)
Record fragments_of (limits : Limits) (frame : DeltaFrame) (sequence : Z) (encoded : list byte)
    (m : nat) (packets : list (list byte)) : Prop := {
  fr_m : (0 < m)%nat;
  fr_count : (0 < length packets)%nat;
  fr_range : len packets <= MaxFragments (normalizeLimits limits) /\ len packets <= 65535;
  fr_bytes : len encoded <= MaxFrameBytes (normalizeLimits limits);
  fr_cover : (length encoded <= length packets * m)%nat;
  fr_tight : ((length packets - 1) * m < length encoded)%nat;
  fr_packet : forall i p, packets !! i = Some p -> exists c,
    DecodeDatagram p limits =
      Ok (with_checksum (fragmentHeader frame (frameFlags frame) sequence (Z.of_nat i)
            (len packets) (len (chunk_at m encoded i))) c, chunk_at m encoded i)
}.

(** The conditions under which a frame can be fragmented. *)
Definition fragmentable (limits : Limits) (frame : DeltaFrame) (sequence : Z)
    (encoded : list byte) (maxDatagram : Z) : Prop :=
  let limits := normalizeLimits limits in
  let m := datagramSize maxDatagram - DatagramHeaderSize in
  sm_RoomID (df_Meta frame) <> 0 /\ sm_Epoch (df_Meta frame) <> 0
  /\ sm_Tick (df_Meta frame) <> 0 /\ sequence <> 0
  /\ 0 < len encoded <= MaxFrameBytes limits
  /\ datagramSize maxDatagram <= MaxDatagramBytes limits
  /\ 0 < m <= 65535
  /\ (len encoded + m - 1) / m <= MaxFragments limits
  /\ (len encoded + m - 1) / m <= 65535.

#[export] Instance fragmentable_dec limits frame sequence encoded md :
  Decision (fragmentable limits frame sequence encoded md).
Proof. unfold fragmentable. apply _. Defined.

Lemma with_checksum_wf h c : wf_header h -> in_u 32 c -> wf_header (with_checksum h c).
Proof. intros (?&?&?&?&?&?&?&?&?&?&?) Hc. by split_and!. Qed.

Lemma crc32_range l : in_u 32 (crc32 l).
Proof.
  unfold crc32. apply lxor_range; [lia| |by vm_compute].
  apply (fold_P crc_byte (in_u 32)); [|by vm_compute]. intros s b Hs. by apply crc_byte_range.
Qed.

(** Encoding succeeds on an admissible header, and the packet decodes to it. *)
Lemma encodeDatagram_decodes limits h p :
  wf_header h -> header_ok (normalizeLimits limits) h p ->
  exists packet, encodeDatagram h p = Ok packet
    /\ DecodeDatagram packet limits = Ok (with_checksum h (checksumDatagram packet), p)
    /\ len packet = DatagramHeaderSize + len p.
Proof.
  intros Hwf Hok. pose proof Hok as (Hp & Hr & He & Ht & Hs & Hc & Hi & Hl & Hf & Hd).
  assert (exists packet, encodeDatagram h p = Ok packet) as [packet Henc].
  { unfold encodeDatagram. rewrite Hp, Hl, !Z.eqb_refl. cbn [negb orb].
    repeat first [rewrite (proj2 (Z.eqb_neq _ _)) by lia
                 | rewrite (proj2 (Z.leb_gt _ _)) by lia]. cbn [orb]. by eexists. }
  exists packet. split; [done|]. pose proof (encodeDatagram_inv _ _ _ Henc) as Heq. split.
  - apply decodeDatagram_iff. split_and!; [done| |done|done].
    apply with_checksum_wf; [done|apply crc32_range].
  - rewrite Heq. unfold len, DatagramHeaderSize. rewrite length_packetBytes. lia.
Qed.

Lemma fragmentHeader_wf frame flags sequence i count plen :
  wf_meta (df_Meta frame) -> in_u 32 (df_BaseTick frame) -> in_u 32 sequence -> in_u 16 flags ->
  wf_header (fragmentHeader frame flags sequence i count plen).
Proof.
  intros (?&?&?&?) ???. unfold wf_header, fragmentHeader; header_fields.
  split_and!; try done; by apply wrapu_range.
Qed.

Lemma frameFlags_known frame : frameFlags frame = 0 \/ frameFlags frame = DatagramFlagFull.
Proof. unfold frameFlags. case_match; auto. Qed.

(** The number of chunks: enough for all bytes, and the last is not empty. *)
Lemma chunk_count_spec L m :
  0 < L -> 0 < m ->
  let n := (L + m - 1) / m in 0 < n /\ L <= n * m /\ (n - 1) * m < L.
Proof.
  intros HL Hm n. pose proof (Z.div_mod (L + m - 1) m).
  pose proof (Z.mod_pos_bound (L + m - 1) m). subst n. nia.
Qed.

Section Fragmenting.
Context (limits : Limits) (frame : DeltaFrame) (sequence : Z) (encoded : list byte).
Context (maxDatagram : Z).
Hypothesis Hmeta : wf_meta (df_Meta frame).
Hypothesis Hbase : in_u 32 (df_BaseTick frame).
Hypothesis Hseq : in_u 32 sequence.
Let m : Z := datagramSize maxDatagram - DatagramHeaderSize.
Let count : Z := (len encoded + m - 1) / m.

Lemma fragmentPacket_decodes i :
  fragmentable limits frame sequence encoded maxDatagram -> Z.of_nat i < count ->
  let chunk := chunk_at (Z.to_nat m) encoded i in
  exists packet c,
    fragmentPacket frame (frameFlags frame) sequence count m (datagramSize maxDatagram) encoded i
      = Ok packet
    /\ DecodeDatagram packet limits
       = Ok (with_checksum (fragmentHeader frame (frameFlags frame) sequence (Z.of_nat i)
               count (len chunk)) c, chunk).
Proof.
  intros (Hr & He & Ht & Hs & HL & Hmax & Hm & Hn & Hn16) Hi chunk.
  fold m in Hm, Hn, Hn16. fold count in Hn, Hn16.
  destruct (chunk_count_spec (len encoded) m) as (Hpos & Hcov & Htight); [lia..|].
  fold count in Hpos, Hcov, Htight.
  assert (Him : (i * Z.to_nat m <= length encoded)%nat) by (unfold len in *; nia).
  assert (Hlen : len chunk <= m).
  { unfold chunk, chunk_at, len. rewrite length_take. lia. }
  unfold fragmentPacket. rewrite <-(Z2Nat.id m) by lia.
  rewrite chunk_at_slice, <-len_chunk_at by done. fold chunk.
  pose proof (len_nonneg chunk) as Hc0.
  destruct (encodeDatagram_decodes limits
    (fragmentHeader frame (frameFlags frame) sequence (Z.of_nat i) count (len chunk)) chunk)
    as (packet & -> & Hdec & Hplen).
  - apply fragmentHeader_wf; [done..|]. by destruct (frameFlags_known frame) as [-> | ->].
  - unfold header_ok, fragmentHeader; header_fields.
    rewrite !wrapu_small by (unfold in_u; lia). unfold m in *.
    split_and!; first [done | lia | apply frameFlags_known].
  - run_bind. exists packet, (checksumDatagram packet). rewrite Hdec. split; [|done].
    rewrite (proj2 (Z.ltb_ge _ _)); [done|]. unfold m in *. lia.
Qed.

Lemma FragmentFrame_fragmentable :
  fragmentable limits frame sequence encoded maxDatagram ->
  FragmentFrame frame sequence encoded maxDatagram limits =
    mapM (fragmentPacket frame (frameFlags frame) sequence count m (datagramSize maxDatagram)
            encoded) (seq 0 (Z.to_nat count)).
Proof.
  intros (Hr & He & Ht & Hs & HL & Hmax & Hm & Hn & Hn16).
  fold m in Hm, Hn, Hn16. fold count in Hn, Hn16.
  destruct (chunk_count_spec (len encoded) m) as (Hpos & _); [lia..|]. fold count in Hpos.
  unfold FragmentFrame. fold (datagramSize maxDatagram). fold m. fold count. fold (frameFlags frame).
  repeat first [rewrite (proj2 (Z.eqb_neq _ _)) by lia | rewrite (proj2 (Z.ltb_ge _ _)) by lia
               | rewrite (proj2 (Z.leb_gt _ _)) by lia].
  done.
Qed.

Lemma FragmentFrame_success :
  fragmentable limits frame sequence encoded maxDatagram ->
  exists packets, FragmentFrame frame sequence encoded maxDatagram limits = Ok packets
    /\ fragments_of limits frame sequence encoded (Z.to_nat m) packets.
Proof.
  intros Hfr. rewrite FragmentFrame_fragmentable by done.
  destruct (mapM_total (fragmentPacket frame (frameFlags frame) sequence count m
    (datagramSize maxDatagram) encoded) (seq 0 (Z.to_nat count))) as [packets Hall].
  { intros i [_ Hi]%elem_of_seq.
    destruct (fragmentPacket_decodes i Hfr) as (p & c & Hp & _); [lia|]. by exists p. }
  exists packets. split; [done|]. apply mapM_ok in Hall.
  pose proof Hfr as (Hr & He & Ht & Hs & HL & Hmax & Hm & Hn & Hn16).
  fold m in Hm, Hn, Hn16. fold count in Hn, Hn16.
  destruct (chunk_count_spec (len encoded) m) as (Hpos & Hcov & Htight); [lia..|].
  fold count in Hpos, Hcov, Htight.
  pose proof (Forall2_length _ _ _ Hall) as Hlen. rewrite length_seq in Hlen.
  assert (Hlp : len packets = count) by (unfold len; lia).
  split; [lia| |lia|lia| | |].
  - lia.
  - unfold len in *. nia.
  - unfold len in *. nia.
  - intros i p Hi. destruct (Forall2_lookup_r _ _ _ _ _ Hall Hi) as (j & Hj & Hp).
    apply lookup_seq in Hj as [-> Hj]. cbn in Hp.
    destruct (fragmentPacket_decodes i Hfr) as (p' & c & Hp' & Hdec); [lia|].
    exists c. rewrite Hlp. congruence.
Qed.

Lemma FragmentFrame_fragmentable_inv packets :
  FragmentFrame frame sequence encoded maxDatagram limits = Ok packets ->
  fragmentable limits frame sequence encoded maxDatagram.
Proof.
  unfold FragmentFrame. fold (datagramSize maxDatagram). fold m. fold count.
  intros H. ok_inv. bool_to_prop. apply mapM_ok in H.
  assert (Hn : Z.to_nat count = S (Z.to_nat count - 1)) by lia. rewrite Hn in H.
  cbn [seq] in H. apply Forall2_cons_inv_l in H as (p & ? & Hp & _).
  unfold fragmentPacket in Hp. ok_inv. unfold encodeDatagram in *. ok_inv.
  unfold fragmentHeader in *. header_fields. bool_to_prop.
  pose proof (len_nonneg encoded). unfold fragmentable. fold m. fold count.
  split_and!; first [done | lia].
Qed.

End Fragmenting.

(** ** Lemmas: slots of an assembly *)

Section Slots.
Context (n : nat) (chunk : nat -> list byte).
Implicit Types (S : gset nat) (k : nat).

(** The slots of an assembly that holds exactly the chunks in [S]. *)
Definition slots S : list (option (list byte)) :=
  (fun i => if bool_decide (i ∈ S) then Some (chunk i) else None) <$> seq 0 n.

Lemma length_slots S : length (slots S) = n.
Proof. unfold slots. by rewrite length_fmap, length_seq. Qed.

Lemma slots_lookup S k :
  (k < n)%nat ->
  slots S !! k = Some (if bool_decide (k ∈ S) then Some (chunk k) else None).
Proof. intros. unfold slots. by rewrite list_lookup_fmap, lookup_seq_lt. Qed.

Lemma slots_insert S k :
  (k < n)%nat -> <[k := Some (chunk k)]> (slots S) = slots ({[k]} ∪ S).
Proof.
  intros Hk. apply list_eq. intros i. destruct (decide (i < n)%nat) as [Hi|Hi].
  - destruct (decide (i = k)) as [->|Hne].
    + rewrite list_lookup_insert_eq by (by rewrite length_slots).
      rewrite slots_lookup by done. by rewrite bool_decide_eq_true_2 by set_solver.
    + rewrite list_lookup_insert_ne, !slots_lookup by done. do 2 f_equal.
      by rewrite (bool_decide_ext (i ∈ {[k]} ∪ S) (i ∈ S)) by set_solver.
  - rewrite !lookup_ge_None_2; rewrite ?length_insert, ?length_slots; lia || done.
Qed.

Lemma slots_empty : slots ∅ = replicate n None.
Proof.
  apply list_eq. intros i. destruct (decide (i < n)%nat) as [Hi|Hi].
  - rewrite slots_lookup, lookup_replicate_2 by done. done.
  - rewrite !lookup_ge_None_2; rewrite ?length_slots, ?length_replicate; lia || done.
Qed.

Definition slot_bytes (l : list (option (list byte))) : Z := len (concat (chunk_bytes <$> l)).

Lemma slot_bytes_replicate j : slot_bytes (replicate j None) = 0.
Proof. unfold slot_bytes. induction j as [|j IH]; [done|]. exact IH. Qed.

Lemma slot_bytes_insert l k c :
  l !! k = Some None -> slot_bytes (<[k := Some c]> l) = slot_bytes l + len c.
Proof.
  unfold slot_bytes. revert k. induction l as [|x l IH]; intros [|k] Hk; simplify_eq/=.
  - rewrite len_app. lia.
  - rewrite !len_app, IH by done. lia.
Qed.

Lemma slot_bytes_le S : slot_bytes (slots S) <= len (concat (chunk <$> seq 0 n)).
Proof.
  unfold slot_bytes, slots. generalize (seq 0 n) as l.
  induction l as [|i l IH]; cbn; [done|]. rewrite !len_app.
  case_match; cbn; rewrite ?len_nil; pose proof (len_nonneg (chunk i)); lia.
Qed.

Lemma slots_full S :
  (forall i, (i < n)%nat -> i ∈ S) -> concat (chunk_bytes <$> slots S) = concat (chunk <$> seq 0 n).
Proof.
  intros Hall. f_equal. unfold slots. rewrite <-list_fmap_compose.
  apply list_fmap_ext. intros i j Hj. apply lookup_seq in Hj as [-> Hj]. cbn.
  by rewrite bool_decide_eq_true_2 by auto.
Qed.

Lemma size_full S :
  (forall i, i ∈ S -> (i < n)%nat) ->
  (size S <= n)%nat /\ (size S = n <-> forall i, (i < n)%nat -> i ∈ S).
Proof.
  intros Hsub. set (full := list_to_set (C := gset nat) (seq 0 n)).
  assert (Hsize : size full = n).
  { unfold full. rewrite size_list_to_set by apply NoDup_seq. apply length_seq. }
  assert (Hin : forall i, i ∈ full <-> (i < n)%nat).
  { intros i. unfold full. rewrite elem_of_list_to_set, elem_of_seq. lia. }
  assert (Hle : S ⊆ full) by (intros i Hi; apply Hin; auto).
  split; [rewrite <-Hsize; by apply subseteq_size|]. split.
  - intros Heq i Hi. destruct (decide (i ∈ S)) as [|Hni]; [done|].
    assert (S ⊂ full) as Hlt%subset_size; [|lia].
    split; [done|]. intros Hrev. apply Hni, Hrev. by apply Hin.
  - intros Hall. rewrite <-Hsize. apply Nat.le_antisymm; apply subseteq_size; [done|].
    intros i Hi. apply Hall. by apply Hin.
Qed.

End Slots.

(** ** Reassembly of one frame amid other traffic *)

(** A packet handed to [push], with the time given and the clock's reading. *)
Record arrival := mkArrival {
  ar_session : Z;
  ar_packet : list byte;
  ar_now : Z;
  ar_clock : Z
}.

Definition arrive (r : Reassembler) (e : arrival)
    : Reassembler * DatagramHeader * res (option (list byte)) :=
  Reassembler_push r (ar_session e) (ar_packet e) (ar_now e) (ar_clock e).

Definition ar_time (e : arrival) : Z := time_or_now (ar_now e) (ar_clock e).

(** The reassembler after a sequence of arrivals. *)
Definition after (r : Reassembler) (es : list arrival) : Reassembler :=
  foldl (fun r e => (arrive r e).1.1) r es.

(** The packet does not belong to the assembly [key]. *)
Definition foreign (limits : Limits) (key : assemblyKey) (e : arrival) : Prop :=
  match DecodeDatagram (ar_packet e) limits with
  | Ok (h, _) => assemblyKeyOf (ar_session e) h <> key
  | Err _ => True
  end.

#[export] Instance foreign_dec limits key e : Decision (foreign limits key e).
Proof. unfold foreign. destruct (DecodeDatagram _ _) as [[]|]; apply _. Defined.

Definition frameKey (session : Z) (frame : DeltaFrame) (sequence : Z) : assemblyKey :=
  mkKey session (sm_RoomID (df_Meta frame)) (sm_Epoch (df_Meta frame))
    (sm_Tick (df_Meta frame)) sequence.

Lemma admitChunk_limits r key a h p :
  ra_limits (admitChunk r key a h p).1.1 = ra_limits r
  /\ ra_ttl (admitChunk r key a h p).1.1 = ra_ttl r.
Proof. unfold admitChunk. by repeat case_match. Qed.

Lemma arrive_limits r e :
  ra_limits (arrive r e).1.1 = ra_limits r /\ ra_ttl (arrive r e).1.1 = ra_ttl r.
Proof.
  unfold arrive, Reassembler_push. destruct (DecodeDatagram _ _) as [[h p]|]; [|done].
  repeat (case_match; try done);
    match goal with |- context [admitChunk ?r ?k ?a ?h ?p] =>
      destruct (admitChunk_limits r k a h p) as [-> ->] end; done.
Qed.

Lemma DecodeDatagram_normalized p limits :
  DecodeDatagram p (normalizeLimits limits) = DecodeDatagram p limits.
Proof. unfold DecodeDatagram, decodeDatagram. by rewrite normalizeLimits_idemp. Qed.

Lemma expireLocked_lookup r now key a :
  ra_inflight r !! key = Some a -> expired r now a = false ->
  ra_inflight (expireLocked r now).1 !! key = Some a.
Proof. intros. cbn. by apply map_lookup_filter_Some. Qed.

Lemma expireLocked_lookup_None r now key :
  ra_inflight r !! key = None -> ra_inflight (expireLocked r now).1 !! key = None.
Proof. intros. cbn. apply map_lookup_filter_None. by left. Qed.

Lemma expireLocked_size r now :
  (size (ra_inflight (expireLocked r now).1) <= size (ra_inflight r))%nat.
Proof. cbn. apply map_subseteq_size, map_filter_subseteq. Qed.

Lemma admitChunk_other r key a h p key' :
  key' <> key -> ra_inflight (admitChunk r key a h p).1.1 !! key' = ra_inflight r !! key'.
Proof.
  intros Hne. unfold admitChunk. repeat case_match; cbn;
    by rewrite ?lookup_insert_ne, ?lookup_delete_ne by done.
Qed.

(** Packets of other frames leave an unexpired assembly alone. *)
Lemma arrive_foreign limits r e key a :
  ra_limits r = normalizeLimits limits -> foreign limits key e ->
  ra_inflight r !! key = Some a -> expired r (ar_time e) a = false ->
  ra_inflight (arrive r e).1.1 !! key = Some a.
Proof.
  intros Hlim Hf Ha Hexp. unfold arrive, Reassembler_push, foreign in *.
  rewrite Hlim, DecodeDatagram_normalized.
  destruct (DecodeDatagram (ar_packet e) limits) as [[h p]|]; [|done].
  fold (ar_time e). pose proof (expireLocked_lookup r (ar_time e) key a Ha Hexp) as Hl.
  repeat (case_match; try done); cbn [fst];
    rewrite ?admitChunk_other by done; cbn [ra_inflight set_inflight];
    by rewrite ?lookup_delete_ne by done.
Qed.

Section Reassembling.
Context (limits : Limits) (frame : DeltaFrame) (sequence : Z) (encoded : list byte) (m : nat).
Context (packets : list (list byte)) (session : Z).
Hypothesis Hfrag : fragments_of limits frame sequence encoded m packets.
Hypothesis Hmany : (1 < length packets)%nat.
Let n := length packets.
Let chunk := chunk_at m encoded.
Let key := frameKey session frame sequence.
Implicit Types (S : gset nat).

(** The assembly of the frame that holds the chunks in [S]. *)
Definition assembly_of (h : DatagramHeader) (created : Z) S : frameAssembly :=
  mkAssembly h created (slots n chunk S) (Z.of_nat (size S)) (slot_bytes (slots n chunk S)).

Definition same_frame (h : DatagramHeader) : Prop :=
  dh_ChunkCount h = Z.of_nat n /\ dh_BaseTick h = df_BaseTick frame
  /\ dh_Flags h = frameFlags frame.

(** An arrival of the [i]-th fragment of the frame. *)
Definition own (i : nat) (e : arrival) : Prop :=
  ar_session e = session /\ packets !! i = Some (ar_packet e).

Lemma own_index i e : own i e -> (i < n)%nat.
Proof. intros [_ Hi]. by apply lookup_lt_Some in Hi. Qed.

Lemma own_decodes i e :
  own i e -> exists h, DecodeDatagram (ar_packet e) limits = Ok (h, chunk i)
    /\ same_frame h /\ dh_ChunkIndex h = Z.of_nat i /\ assemblyKeyOf session h = key.
Proof.
  intros [_ Hi]. destruct (fr_packet _ _ _ _ _ _ Hfrag _ _ Hi) as [c Hdec].
  pose proof (lookup_lt_Some _ _ _ Hi). destruct (fr_range _ _ _ _ _ _ Hfrag) as [_ H16].
  eexists. split; [exact Hdec|]. unfold same_frame, with_checksum, fragmentHeader; header_fields.
  rewrite !wrapu_small by (unfold in_u, len in *; lia). done.
Qed.

Lemma chunk_fits S i :
  (i < n)%nat -> i ∉ S ->
  slot_bytes (slots n chunk S) + len (chunk i) = slot_bytes (slots n chunk ({[i]} ∪ S))
  /\ slot_bytes (slots n chunk ({[i]} ∪ S)) <= MaxFrameBytes (normalizeLimits limits).
Proof.
  intros Hi HS.
  assert (Hslot : slots n chunk S !! i = Some None).
  { rewrite slots_lookup by done. by rewrite bool_decide_eq_false_2. }
  pose proof (slot_bytes_insert _ _ (chunk i) Hslot) as Hins.
  rewrite slots_insert in Hins by done. split; [done|].
  etransitivity; [apply slot_bytes_le|].
  unfold chunk, n. rewrite concat_chunks by apply Hfrag. apply Hfrag.
Qed.

Lemma chunk_nonempty i : (i < n)%nat -> chunk i <> [].
Proof.
  intros Hi. apply chunk_at_nonempty; [apply Hfrag|].
  pose proof (fr_tight _ _ _ _ _ _ Hfrag). unfold n in Hi. nia.
Qed.

Lemma admitChunk_own r h0 t S h i :
  ra_limits r = normalizeLimits limits -> (i < n)%nat -> dh_ChunkIndex h = Z.of_nat i ->
  (forall j, j ∈ S -> (j < n)%nat) ->
  admitChunk r key (assembly_of h0 t S) h (chunk i) =
    if bool_decide (i ∈ S) || negb (Z.of_nat (size ({[i]} ∪ S)) =? Z.of_nat n)
    then (set_inflight r (<[key := assembly_of h0 t ({[i]} ∪ S)]> (ra_inflight r)), h, Ok None)
    else (set_inflight r (delete key (ra_inflight r)), h, Ok (Some encoded)).
Proof.
  intros Hlim Hi Hidx HS. unfold admitChunk, assembly_of; cbn [fa_chunks fa_total fa_header
    fa_created fa_received]. rewrite Hidx, Nat2Z.id, slots_lookup by done.
  destruct (decide (i ∈ S)) as [Hin|Hni].
  { rewrite !bool_decide_eq_true_2 by done. cbn [negb orb].
    by replace ({[i]} ∪ S) with S by set_solver. }
  rewrite bool_decide_eq_false_2 by done. cbn [orb].
  destruct (chunk_fits S i Hi Hni) as [Hsum Hmax]. rewrite Hsum, Hlim.
  rewrite (proj2 (Z.ltb_ge _ _)) by lia.
  assert (detached (chunk i) = Some (chunk i)) as ->.
  { pose proof (chunk_nonempty i Hi). by destruct (chunk i). }
  rewrite slots_insert by done. unfold len. rewrite length_slots.
  assert (Hsz : size ({[i]} ∪ S) = Datatypes.S (size S)).
  { rewrite size_union by set_solver. by rewrite size_singleton. }
  replace (Z.of_nat (size S) + 1) with (Z.of_nat (size ({[i]} ∪ S))) by lia.
  destruct (Z.eqb_spec (Z.of_nat (size ({[i]} ∪ S))) (Z.of_nat n)) as [Heq|Hne]; [|done].
  cbn [negb]. rewrite slots_full.
  - unfold chunk, n. by rewrite concat_chunks by apply Hfrag.
  - apply size_full; [|lia]. intros j Hj. set_unfold. naive_solver.
Qed.

Lemma own_unique i j e : own i e -> own j e -> i = j.
Proof.
  intros Hi Hj. destruct (own_decodes _ _ Hi) as (h1 & Hd1 & _ & Hx1 & _).
  destruct (own_decodes _ _ Hj) as (h2 & Hd2 & _ & Hx2 & _).
  rewrite Hd1 in Hd2. injection Hd2 as -> _. lia.
Qed.

(** One of the frame's fragments arrives while others are still missing. *)
Lemma arrive_own_keep r e i h t S :
  ra_limits r = normalizeLimits limits -> own i e -> same_frame h ->
  ra_inflight r !! key = Some (assembly_of h t S) ->
  expired r (ar_time e) (assembly_of h t S) = false ->
  (forall j, j ∈ S -> (j < n)%nat) -> (exists k, (k < n)%nat /\ k <> i /\ k ∉ S) ->
  ra_inflight (arrive r e).1.1 !! key = Some (assembly_of h t ({[i]} ∪ S))
  /\ (arrive r e).2 = Ok None.
Proof.
  intros Hlim Hown (Hc & Hb & Hfl) Ha Hexp HS (k & Hk & Hki & HkS).
  pose proof (own_index _ _ Hown) as Hi.
  destruct (own_decodes _ _ Hown) as (h' & Hdec & (Hc' & Hb' & Hfl') & Hidx & Hkey).
  unfold arrive, Reassembler_push. destruct Hown as [-> _].
  rewrite Hlim, DecodeDatagram_normalized, Hdec, Hc', Hkey.
  rewrite (proj2 (Z.eqb_neq _ _)) by (unfold n; lia). fold (ar_time e).
  rewrite (expireLocked_lookup _ _ _ _ Ha Hexp).
  cbn [fa_header assembly_of]. rewrite Hc, Hb, Hfl, Hb', Hfl', !Z.eqb_refl. cbn [negb orb].
  fold (assembly_of h t S). rewrite admitChunk_own by done.
  rewrite (proj2 (Z.eqb_neq (Z.of_nat (size _)) _)).
  - rewrite orb_true_r. cbn. by rewrite lookup_insert_eq.
  - intros Heq. destruct (size_full n ({[i]} ∪ S)) as [_ [Hfull _]].
    { intros j Hj. set_unfold. naive_solver. }
    specialize (Hfull ltac:(lia) k Hk). set_solver.
Qed.

(** The first fragment opens the assembly when there is room. *)
Lemma arrive_own_start r e i :
  ra_limits r = normalizeLimits limits -> own i e -> ra_inflight r !! key = None ->
  Z.of_nat (size (ra_inflight r)) < MaxInflightFrames (normalizeLimits limits) ->
  (exists k, (k < n)%nat /\ k <> i) ->
  exists h, same_frame h
    /\ ra_inflight (arrive r e).1.1 !! key = Some (assembly_of h (ar_time e) {[i]})
    /\ (arrive r e).2 = Ok None.
Proof.
  intros Hlim Hown Ha Hsize (k & Hk & Hki).
  pose proof (own_index _ _ Hown) as Hi.
  destruct (own_decodes _ _ Hown) as (h & Hdec & Hsame & Hidx & Hkey).
  exists h. split; [done|]. destruct Hsame as (Hc & Hb & Hfl).
  unfold arrive, Reassembler_push. destruct Hown as [-> _].
  rewrite Hlim, DecodeDatagram_normalized, Hdec, Hc, Hkey.
  rewrite (proj2 (Z.eqb_neq _ _)) by (unfold n; lia). fold (ar_time e).
  rewrite (expireLocked_lookup_None _ _ _ Ha). pose proof (expireLocked_size r (ar_time e)).
  assert (Hlim' : ra_limits (expireLocked r (ar_time e)).1 = normalizeLimits limits) by done.
  rewrite Hlim', (proj2 (Z.leb_gt _ _)) by lia. rewrite Nat2Z.id.
  assert (mkAssembly h (ar_time e) (replicate n None) 0 0 = assembly_of h (ar_time e) ∅) as ->.
  { unfold assembly_of. rewrite slots_empty, slot_bytes_replicate. done. }
  rewrite admitChunk_own by done.
  rewrite !union_empty_r_L, size_singleton.
  rewrite (proj2 (Z.eqb_neq (Z.of_nat 1) _)) by (unfold n; lia).
  rewrite orb_true_r. cbn. by rewrite lookup_insert_eq.
Qed.

(** The last missing fragment completes the frame. *)
Lemma arrive_own_finish r e i h t S :
  ra_limits r = normalizeLimits limits -> own i e -> same_frame h ->
  ra_inflight r !! key = Some (assembly_of h t S) ->
  expired r (ar_time e) (assembly_of h t S) = false ->
  (forall j, j ∈ S -> (j < n)%nat) -> i ∉ S -> (forall j, (j < n)%nat -> j <> i -> j ∈ S) ->
  (arrive r e).2 = Ok (Some encoded) /\ ra_inflight (arrive r e).1.1 !! key = None.
Proof.
  intros Hlim Hown (Hc & Hb & Hfl) Ha Hexp HS HiS Hall.
  pose proof (own_index _ _ Hown) as Hi.
  destruct (own_decodes _ _ Hown) as (h' & Hdec & (Hc' & Hb' & Hfl') & Hidx & Hkey).
  unfold arrive, Reassembler_push. destruct Hown as [-> _].
  rewrite Hlim, DecodeDatagram_normalized, Hdec, Hc', Hkey.
  rewrite (proj2 (Z.eqb_neq _ _)) by (unfold n; lia). fold (ar_time e).
  rewrite (expireLocked_lookup _ _ _ _ Ha Hexp).
  cbn [fa_header assembly_of]. rewrite Hc, Hb, Hfl, Hb', Hfl', !Z.eqb_refl. cbn [negb orb].
  fold (assembly_of h t S). rewrite admitChunk_own by done.
  rewrite bool_decide_eq_false_2 by done.
  assert (size ({[i]} ∪ S) = n) as ->.
  { apply size_full; [intros; set_unfold; naive_solver|]. intros j Hj.
    destruct (decide (j = i)); set_solver. }
  rewrite Z.eqb_refl. cbn. by rewrite lookup_delete_eq.
Qed.

(** An arrival that cannot hurt the assembly started at time [t0], while the
    fragment [k] is withheld. *)
Definition harmless (ttl t0 : Z) (k : nat) (e : arrival) : Prop :=
  (foreign limits key e \/ exists i, own i e /\ i <> k) /\ time_sub (ar_time e) t0 < ttl.

Lemma after_limits r es :
  ra_limits (after r es) = ra_limits r /\ ra_ttl (after r es) = ra_ttl r.
Proof.
  revert r. induction es as [|e es IH]; intros r; [done|].
  change (after r (e :: es)) with (after (arrive r e).1.1 es).
  destruct (IH (arrive r e).1.1) as [-> ->]. apply arrive_limits.
Qed.

Lemma expired_time r now h t S :
  time_sub now t < ra_ttl r -> expired r now (assembly_of h t S) = false.
Proof. intros. unfold expired. cbn. by apply Z.leb_gt. Qed.

(** Harmless arrivals only add fragments to the assembly. *)
Lemma after_harmless r es h t0 S k :
  ra_limits r = normalizeLimits limits -> same_frame h -> (k < n)%nat -> k ∉ S ->
  (forall j, j ∈ S -> (j < n)%nat) ->
  ra_inflight r !! key = Some (assembly_of h t0 S) ->
  Forall (harmless (ra_ttl r) t0 k) es ->
  exists S', ra_inflight (after r es) !! key = Some (assembly_of h t0 S')
    /\ (k ∉ S') /\ (forall j, j ∈ S' -> (j < n)%nat) /\ S ⊆ S'
    /\ (forall i e, e ∈ es -> own i e -> i ∈ S').
Proof.
  intros Hlim Hh Hk HkS HS Ha Hall. revert r S Hlim HkS HS Ha Hall.
  induction es as [|e es IH]; intros r S Hlim HkS HS Ha Hall.
  { exists S. split_and!; try done. by intros i e ?%not_elem_of_nil. }
  apply Forall_cons in Hall as [[Hkind Htime] Hall].
  destruct (arrive_limits r e) as [Hl Ht]. change (after r (e :: es)) with (after (arrive r e).1.1 es).
  assert (exists S1, ra_inflight (arrive r e).1.1 !! key = Some (assembly_of h t0 S1)
    /\ (k ∉ S1) /\ (forall j, j ∈ S1 -> (j < n)%nat) /\ S ⊆ S1 /\ (forall i, own i e -> i ∈ S1))
    as (S1 & Ha1 & Hk1 & HS1 & Hsub & Hown1).
  { destruct Hkind as [Hf|(i & Hi & Hik)].
    - exists S. split_and!; try done.
      + eapply arrive_foreign; [done..|by apply expired_time].
      + intros i Hi. destruct (own_decodes _ _ Hi) as (h' & Hdec & _ & _ & Hkey).
        unfold foreign in Hf. rewrite Hdec in Hf. destruct Hi as [Hs _]. by rewrite Hs in Hf.
    - exists ({[i]} ∪ S). pose proof (own_index _ _ Hi).
      split_and!; [|set_solver|set_unfold; naive_solver|set_solver|].
      + eapply arrive_own_keep; [done..|by apply expired_time|done|by exists k].
      + intros j Hj. rewrite (own_unique _ _ _ Hj Hi). set_solver. }
  destruct (IH (arrive r e).1.1 S1) as (S' & Ha' & Hk' & HS' & Hsub' & Hown');
    [by rewrite Hl|done|done|done|by rewrite Ht|].
  exists S'. split_and!; [done..|set_solver|].
  intros i e' [->|He']%elem_of_cons Hi; [apply Hsub', Hown1, Hi|by eapply Hown'].
Qed.

(** A frame is rebuilt from its fragments in any order, with repetitions and
    any other packets in between, once the last one has arrived. *)
Lemma reassembly r e0 es e k :
  ra_limits r = normalizeLimits limits -> ra_inflight r !! key = None ->
  Z.of_nat (size (ra_inflight r)) < MaxInflightFrames (normalizeLimits limits) ->
  (exists i, own i e0 /\ i <> k) -> Forall (harmless (ra_ttl r) (ar_time e0) k) es ->
  own k e -> time_sub (ar_time e) (ar_time e0) < ra_ttl r ->
  (forall j, (j < n)%nat -> j <> k -> exists d, d ∈ e0 :: es /\ own j d) ->
  let r' := after r (e0 :: es) in
  (arrive r' e).2 = Ok (Some encoded) /\ ra_inflight (arrive r' e).1.1 !! key = None.
Proof.
  intros Hlim Ha Hsize (i & Hi & Hik) Hall Hk Htime Hcover r'.
  change r' with (after (arrive r e0).1.1 es). clear r'.
  pose proof (own_index _ _ Hk) as Hkn.
  destruct (arrive_own_start r e0 i Hlim Hi Ha Hsize) as (h & Hh & Ha0 & _); [by exists k|].
  destruct (arrive_limits r e0) as [Hl Ht].
  pose proof (own_index _ _ Hi) as Hin.
  destruct (after_harmless (arrive r e0).1.1 es h (ar_time e0) {[i]} k)
    as (S' & Ha' & HkS' & HS' & Hsub & Hown); [by rewrite Hl|done..| | |done|by rewrite Ht|].
  { set_solver. }
  { intros j ->%elem_of_singleton. done. }
  destruct (after_limits (arrive r e0).1.1 es) as [Hl' Ht'].
  eapply arrive_own_finish; [by rewrite Hl', Hl|done..| |done|done|].
  - apply expired_time. by rewrite Ht', Ht.
  - intros j Hj Hjk. destruct (Hcover j Hj Hjk) as (d & [->|Hd]%elem_of_cons & Hd').
    + rewrite (own_unique _ _ _ Hd' Hi). set_solver.
    + by eapply Hown.
Qed.

End Reassembling.

(** ** The reassembler's invariant *)

Definition assembly_inv (limits : Limits) (key : assemblyKey) (a : frameAssembly) : Prop :=
  assemblyKeyOf (ak_session key) (fa_header a) = key
  /\ len (fa_chunks a) = dh_ChunkCount (fa_header a)
  /\ 1 < dh_ChunkCount (fa_header a) <= MaxFragments limits
  /\ 0 <= fa_received a < dh_ChunkCount (fa_header a)
  /\ fa_total a = slot_bytes (fa_chunks a) /\ fa_total a <= MaxFrameBytes limits.

Record reassembler_inv (r : Reassembler) : Prop := {
  ra_normal : normalizeLimits (ra_limits r) = ra_limits r;
  ra_bounded : Z.of_nat (size (ra_inflight r)) <= MaxInflightFrames (ra_limits r);
  ra_assemblies : map_Forall (assembly_inv (ra_limits r)) (ra_inflight r)
}.

(** The bytes a reassembler holds on to. *)
Definition buffered (r : Reassembler) : Z :=
  foldr (fun a acc => slot_bytes (fa_chunks a) + acc) 0 (map_to_list (ra_inflight r)).*2.

Lemma reassembler_inv_buffered r :
  reassembler_inv r ->
  0 <= buffered r <= MaxInflightFrames (ra_limits r) * MaxFrameBytes (ra_limits r).
Proof.
  intros [Hn Hb Ha]. unfold buffered.
  assert (Hall : Forall (fun a => 0 <= slot_bytes (fa_chunks a) <= MaxFrameBytes (ra_limits r))
                   (map_to_list (ra_inflight r)).*2).
  { apply Forall_fmap, Forall_forall. intros [key a] Hin%elem_of_map_to_list.
    destruct (Ha key a Hin) as (_ & _ & _ & _ & Ht & Hm). cbn. rewrite <-Ht at 2.
    unfold slot_bytes. split; [apply len_nonneg|done]. }
  assert (Hlen : len (map_to_list (ra_inflight r)).*2 <= MaxInflightFrames (ra_limits r)).
  { unfold len. by rewrite length_fmap, length_map_to_list. }
  pose proof (normalizeLimits_pos (ra_limits r)) as Hpos. rewrite Hn in Hpos. cbn in Hpos.
  assert (Hsum : 0 <= foldr (fun a acc => slot_bytes (fa_chunks a) + acc) 0
                   (map_to_list (ra_inflight r)).*2
                 <= len (map_to_list (ra_inflight r)).*2 * MaxFrameBytes (ra_limits r)).
  { clear -Hall. induction Hall as [|a l Ha _ IH]; cbn; [done|]. rewrite len_cons. lia. }
  nia.
Qed.

Lemma expireLocked_inv r now : reassembler_inv r -> reassembler_inv (expireLocked r now).1.
Proof.
  intros [Hn Hb Ha]. split; [done| |].
  - etransitivity; [|exact Hb]. pose proof (expireLocked_size r now). cbn [ra_limits]. cbn in *. lia.
  - intros k a [Hk _]%map_lookup_filter_Some. by apply Ha.
Qed.

Lemma delete_inv r key :
  reassembler_inv r -> reassembler_inv (set_inflight r (delete key (ra_inflight r))).
Proof.
  intros [Hn Hb Ha]. split; cbn; [done| |by apply map_Forall_delete].
  etransitivity; [|exact Hb]. apply Nat2Z.inj_le, map_subseteq_size, delete_subseteq.
Qed.

Lemma insert_inv r key a :
  reassembler_inv r -> assembly_inv (ra_limits r) key a ->
  (is_Some (ra_inflight r !! key)
   \/ Z.of_nat (size (ra_inflight r)) < MaxInflightFrames (ra_limits r)) ->
  reassembler_inv (set_inflight r (<[key := a]> (ra_inflight r))).
Proof.
  intros [Hn Hb Ha] Hinv Hroom. split; cbn; [done| |].
  - destruct Hroom as [[b Hkey]|Hlt].
    + rewrite map_size_insert_Some; [done|by exists b].
    + rewrite map_size_insert. destruct (ra_inflight r !! key); unfold id; lia.
  - by apply map_Forall_insert_2.
Qed.

Lemma admitChunk_inv r key a h p :
  reassembler_inv r -> assembly_inv (ra_limits r) key a ->
  dh_ChunkCount (fa_header a) = dh_ChunkCount h -> 0 <= dh_ChunkIndex h < dh_ChunkCount h ->
  (is_Some (ra_inflight r !! key)
   \/ Z.of_nat (size (ra_inflight r)) < MaxInflightFrames (ra_limits r)) ->
  is_Some (fa_chunks a !! Z.to_nat (dh_ChunkIndex h))
  /\ reassembler_inv (admitChunk r key a h p).1.1.
Proof.
  intros Hr Ha Hcount Hidx Hroom. pose proof Ha as (Hk & Hl & Hc & Hrec & Ht & Hm).
  assert (His : is_Some (fa_chunks a !! Z.to_nat (dh_ChunkIndex h))).
  { apply lookup_lt_is_Some. unfold len in Hl. lia. }
  split; [done|]. destruct His as [[b|] Hslot]; unfold admitChunk; rewrite Hslot.
  { case_match; [by apply delete_inv|by apply insert_inv]. }
  case_match; [by apply delete_inv|]. bool_to_prop. cbn [fa_received fa_chunks fa_total].
  case_match eqn:Hdone; [|by apply delete_inv]. bool_to_prop.
  rewrite len_insert in Hdone. apply insert_inv; [done| |done].
  assert (Hbytes : slot_bytes (<[Z.to_nat (dh_ChunkIndex h) := detached p]> (fa_chunks a))
                   = slot_bytes (fa_chunks a) + len p).
  { destruct p as [|x p]; [|by apply slot_bytes_insert].
    cbn [detached]. rewrite list_insert_id by done. rewrite len_nil. lia. }
  unfold assembly_inv; cbn [fa_header fa_chunks fa_received fa_total]. rewrite len_insert.
  split_and!; first [done | lia].
Qed.

Lemma Reassembler_push_inv r session packet now clock :
  reassembler_inv r -> reassembler_inv (Reassembler_push r session packet now clock).1.1.
Proof.
  intros Hr. unfold Reassembler_push.
  destruct (DecodeDatagram packet (ra_limits r)) as [[h p]|] eqn:Hdec; [|done].
  apply decodeDatagram_iff in Hdec as (_ & Hwf & Hok & _). rewrite (ra_normal r Hr) in Hok.
  destruct Hok as (_ & _ & _ & _ & _ & Hc & Hi & _).
  assert (Hi0 : in_u 16 (dh_ChunkIndex h)) by apply Hwf. unfold in_u in Hi0.
  destruct (Z.eqb_spec (dh_ChunkCount h) 1) as [|Hone]; [done|].
  pose proof (expireLocked_inv r (time_or_now now clock) Hr) as Hr'.
  assert (Hlim : ra_limits (expireLocked r (time_or_now now clock)).1 = ra_limits r) by done.
  destruct (ra_inflight _ !! _) as [a|] eqn:Ha.
  - pose proof (ra_assemblies _ Hr' _ _ Ha) as Hinv.
    case_match eqn:Hguard; [by apply delete_inv|]. bool_to_prop.
    apply admitChunk_inv; [done|done|done|lia|by left].
  - case_match eqn:Hroom; [done|]. bool_to_prop.
    apply admitChunk_inv; [done| |done|lia|by right].
    unfold assembly_inv; cbn [fa_header fa_chunks fa_received fa_total].
    rewrite slot_bytes_replicate, Hlim. unfold len. rewrite length_replicate.
    pose proof (normalizeLimits_pos (ra_limits r)) as Hpos. rewrite (ra_normal r Hr) in Hpos.
    cbn in Hpos. split_and!; first [done | lia].
Qed.

Lemma NewReassembler_inv limits ttl : reassembler_inv (NewReassembler limits ttl).
Proof.
  split; [apply normalizeLimits_idemp| |apply map_Forall_empty].
  destruct (normalizeLimits_pos limits) as (_&_&_&_&_&_&?). cbn [ra_limits NewReassembler].
  cbn [ra_inflight NewReassembler]. rewrite map_size_empty. lia.
Qed.

(** The states a reassembler passes through. *)
Inductive reassembler_step : Reassembler -> Reassembler -> Prop :=
| step_push r session packet now clock :
    reassembler_step r (Reassembler_push r session packet now clock).1.1
| step_expire r now clock r' n :
    Reassembler_Expire (Some r) now clock = (Some r', n) -> reassembler_step r r'.

Lemma reassembler_step_inv r r' :
  reassembler_step r r' -> reassembler_inv r -> reassembler_inv r'.
Proof.
  intros [? ? ? ? ?|? ? ? ? ? Hexp] Hr; [by apply Reassembler_push_inv|].
  cbn in Hexp. injection Hexp as <- _. by apply expireLocked_inv.
Qed.

Lemma reassembler_steps_inv r r' :
  rtc reassembler_step r r' -> reassembler_inv r -> reassembler_inv r'.
Proof. induction 1; eauto using reassembler_step_inv. Qed.

(** ** Properties *)

(** A frame of 58 bytes, cut into three fragments. *)
Definition sample_encoded : list byte :=
  match EncodeFrame expected_frame DefaultLimits with Ok b => take 58 b | Err _ => [] end.

Definition sample_packets : list (list byte) :=
  match FragmentFrame expected_frame 9 sample_encoded 62 DefaultLimits with
  | Ok ps => ps | Err _ => [] end.

Definition sample_packet (i : nat) : list byte := default [] (sample_packets !! i).

Definition sample_arrival (i : nat) (now : Z) : arrival := mkArrival 4 (sample_packet i) now 0.

Definition sample_reassembler : Reassembler := NewReassembler DefaultLimits 1000.

Example sample_packets_count : length sample_packets = 3%nat.
Proof. vm_compute. reflexivity. Qed.

(** A packet decodes exactly when it is the encoding of an admissible header
    with its checksum and of a payload of the announced length; the header and
    payload returned are those that were encoded. *)
Theorem DecodeDatagram_encodeDatagram h payload limits :
  wf_header h -> header_ok (normalizeLimits limits) h payload ->
  exists packet, encodeDatagram h payload = Ok packet
    /\ DecodeDatagram packet limits = Ok (with_checksum h (checksumDatagram packet), payload)
    /\ InspectDatagram packet limits = Ok (with_checksum h (checksumDatagram packet))
    /\ len packet = DatagramHeaderSize + len payload.
Proof.
  intros Hwf Hok. destruct (encodeDatagram_decodes limits h payload Hwf Hok) as (p & He & Hd & Hl).
  exists p. split_and!; [done|done| |done]. unfold InspectDatagram.
  unfold DecodeDatagram in Hd. apply decodeDatagram_iff in Hd.
  by rewrite (proj2 (decodeDatagram_iff p limits false _ _) Hd).
Qed.

Lemma DecodeDatagram_encodeDatagram_witness :
  let h := mkHeader 1 1 7 1 6 0 9 0 2 3 0 in
  exists packet, encodeDatagram h [Byte.x61; Byte.x62; Byte.x63] = Ok packet
    /\ DecodeDatagram packet DefaultLimits
       = Ok (with_checksum h (checksumDatagram packet), [Byte.x61; Byte.x62; Byte.x63])
    /\ InspectDatagram packet DefaultLimits = Ok (with_checksum h (checksumDatagram packet))
    /\ len packet = DatagramHeaderSize + len [Byte.x61; Byte.x62; Byte.x63].
Proof. apply DecodeDatagram_encodeDatagram; by_evaluation. Defined.

(** C34. Changing any one byte of a packet that decodes makes it undecodable: the
    checksum protects the header, the checksum field itself and the payload. *)
Theorem DecodeDatagram_detects_corruption packet limits hp i b b' :
  DecodeDatagram packet limits = Ok hp -> packet !! i = Some b -> b <> b' ->
  is_ok (DecodeDatagram (<[i := b']> packet) limits) = false.
Proof.
  unfold DecodeDatagram. intros [Hsum _]%decode_checksum Hi Hne.
  destruct (decodeDatagram (<[i := b']> packet) limits true) as [hp'|] eqn:Hdec; [|done].
  apply decode_checksum in Hdec as [Hsum' _]. exfalso.
  rewrite insert_take_drop in Hsum' by (by eapply lookup_lt_Some).
  rewrite <-(take_drop_middle _ _ _ Hi) in Hsum.
  by apply (checksum_separates _ _ _ _ Hne Hsum).
Qed.

Lemma DecodeDatagram_detects_corruption_witness :
  is_ok (DecodeDatagram (<[45%nat := Byte.xff]> (sample_packet 1)) DefaultLimits) = false.
Proof.
  eapply (DecodeDatagram_detects_corruption (sample_packet 1));
    [vm_compute; reflexivity..|discriminate].
Defined.

(** Fragmenting succeeds exactly when the frame, the sequence number and the
    sizes are admissible; then every packet fits the datagram size and decodes
    to its chunk, numbered in order, and the chunks concatenate to the frame. *)
Theorem FragmentFrame_correct frame sequence encoded maxDatagram limits :
  wf_meta (df_Meta frame) -> in_u 32 (df_BaseTick frame) -> in_u 32 sequence ->
  (is_ok (FragmentFrame frame sequence encoded maxDatagram limits) = true
   <-> fragmentable limits frame sequence encoded maxDatagram)
  /\ forall packets, FragmentFrame frame sequence encoded maxDatagram limits = Ok packets ->
     exists chunks, concat chunks = encoded
       /\ Forall2 (fun packet chunk => chunk <> []
            /\ len packet = DatagramHeaderSize + len chunk
            /\ len packet <= datagramSize maxDatagram) packets chunks
       /\ forall i packet chunk, packets !! i = Some packet -> chunks !! i = Some chunk ->
          exists c, DecodeDatagram packet limits =
            Ok (with_checksum (fragmentHeader frame (frameFlags frame) sequence (Z.of_nat i)
                  (len packets) (len chunk)) c, chunk).
Proof.
  intros Hm Hb Hs. split.
  { split; [|intros Hf; by destruct (FragmentFrame_success _ _ _ _ _ Hm Hb Hs Hf) as (? & -> & _)].
    destruct (FragmentFrame _ _ _ _ _) eqn:Hf; [|done]. intros _.
    by eapply FragmentFrame_fragmentable_inv. }
  intros packets Hp. pose proof (FragmentFrame_fragmentable_inv _ _ _ _ _ _ Hp) as Hf.
  destruct (FragmentFrame_success _ _ _ _ _ Hm Hb Hs Hf) as (packets' & Hp' & Hfrag).
  assert (packets' = packets) as -> by congruence.
  set (m := Z.to_nat (datagramSize maxDatagram - DatagramHeaderSize)) in *.
  exists (chunk_at m encoded <$> seq 0 (length packets)).
  split; [apply concat_chunks, Hfrag|].
  assert (Hchunk : forall i c, (chunk_at m encoded <$> seq 0 (length packets)) !! i = Some c ->
    c = chunk_at m encoded i).
  { intros i c Hc. apply list_lookup_fmap_Some in Hc as (j & -> & Hj).
    by apply lookup_seq in Hj as [-> _]. }
  split.
  - apply Forall2_same_length_lookup. split; [by rewrite length_fmap, length_seq|].
    intros i packet chunk Hi ->%Hchunk.
    destruct (fr_packet _ _ _ _ _ _ Hfrag _ _ Hi) as [c Hdec].
    apply decodeDatagram_iff in Hdec as (-> & _).
    pose proof (lookup_lt_Some _ _ _ Hi). pose proof (fr_tight _ _ _ _ _ _ Hfrag).
    assert (Hlen : forall h p, len (packetBytes h p) = DatagramHeaderSize + len p).
    { intros. unfold len, DatagramHeaderSize. rewrite length_packetBytes. lia. }
    rewrite Hlen. split_and!; [|done|].
    + apply chunk_at_nonempty; [apply Hfrag|nia].
    + destruct Hf as (_ & _ & _ & _ & _ & _ & Hm' & _). unfold chunk_at, len.
      rewrite length_take. lia.
  - intros i packet chunk Hi ->%Hchunk. by apply Hfrag.
Qed.

Lemma FragmentFrame_correct_witness :
  is_ok (FragmentFrame expected_frame 9 sample_encoded 62 DefaultLimits) = true
  /\ exists chunks, concat chunks = sample_encoded /\ length chunks = length sample_packets.
Proof.
  destruct (FragmentFrame_correct expected_frame 9 sample_encoded 62 DefaultLimits)
    as [[_ Hok] Hall]; [by_evaluation..|].
  split; [apply Hok; by_evaluation|].
  destruct (Hall sample_packets) as (chunks & Hc & H2 & _); [vm_compute; reflexivity|].
  exists chunks. split; [exact Hc|]. symmetry. exact (Forall2_length _ _ _ H2).
Defined.

(** A fragmented frame is rebuilt from its packets arriving in any order, with
    repetitions and any other packets in between, as long as the reassembler
    has room for one more frame when the first fragment arrives and no later
    arrival is [ttl] or more after it: the arrival of the last missing
    fragment returns exactly the encoded frame and frees the assembly. *)
Theorem Reassembler_rebuilds_frame frame sequence encoded maxDatagram limits packets session
    r e0 es e k :
  wf_meta (df_Meta frame) -> in_u 32 (df_BaseTick frame) -> in_u 32 sequence ->
  FragmentFrame frame sequence encoded maxDatagram limits = Ok packets ->
  ra_limits r = normalizeLimits limits ->
  ra_inflight r !! frameKey session frame sequence = None ->
  Z.of_nat (size (ra_inflight r)) < MaxInflightFrames (normalizeLimits limits) ->
  (exists i, own packets session i e0 /\ i <> k) ->
  Forall (harmless limits frame sequence packets session (ra_ttl r) (ar_time e0) k) es ->
  own packets session k e -> time_sub (ar_time e) (ar_time e0) < ra_ttl r ->
  (forall j, (j < length packets)%nat -> j <> k ->
     exists d, d ∈ e0 :: es /\ own packets session j d) ->
  let r' := after r (e0 :: es) in
  (arrive r' e).2 = Ok (Some encoded)
  /\ ra_inflight (arrive r' e).1.1 !! frameKey session frame sequence = None.
Proof.
  intros Hm Hb Hs Hp Hlim Hnone Hsize (i & Hi & Hik) Hall Hk Htime Hcover.
  pose proof (FragmentFrame_fragmentable_inv _ _ _ _ _ _ Hp) as Hf.
  destruct (FragmentFrame_success _ _ _ _ _ Hm Hb Hs Hf) as (packets' & Hp' & Hfrag).
  assert (packets' = packets) as -> by congruence.
  eapply reassembly; eauto.
  pose proof (own_index _ _ _ _ Hi). pose proof (own_index _ _ _ _ Hk). lia.
Qed.

Lemma Reassembler_rebuilds_frame_witness :
  let es := [mkArrival 4 [] 120 0; sample_arrival 2 150; sample_arrival 0 160] in
  (arrive (after sample_reassembler (sample_arrival 2 100 :: es)) (sample_arrival 1 900)).2
  = Ok (Some sample_encoded).
Proof.
  intros es.
  assert (Hown : forall i now, (i < 3)%nat -> own sample_packets 4 i (sample_arrival i now)).
  { intros i now Hi. split; [reflexivity|]. unfold sample_arrival, sample_packet. cbn [ar_packet].
    destruct (lookup_lt_is_Some_2 sample_packets i) as [p Hp]; [by rewrite sample_packets_count|].
    by rewrite Hp. }
  eapply (Reassembler_rebuilds_frame expected_frame 9 sample_encoded 62 DefaultLimits
            sample_packets 4 sample_reassembler (sample_arrival 2 100) es (sample_arrival 1 900) 1).
  - by_evaluation.
  - by_evaluation.
  - by_evaluation.
  - vm_compute. reflexivity.
  - reflexivity.
  - reflexivity.
  - vm_compute. reflexivity.
  - exists 2%nat. split; [apply Hown; lia|discriminate].
  - repeat apply List.Forall_cons; [split; [left|]|split; [right; exists 2%nat|]
                              |split; [right; exists 0%nat|]|apply List.Forall_nil];
      first [split; [apply Hown; lia|discriminate] | by_evaluation].
  - apply Hown. lia.
  - vm_compute. reflexivity.
  - intros j Hj Hjk. rewrite sample_packets_count in Hj.
    destruct (decide (j = 2%nat)) as [->|].
    + exists (sample_arrival 2 100). split; [left|apply Hown; lia].
    + assert (j = 0%nat) as -> by lia.
      exists (sample_arrival 0 160). split; [right; right; right; left|apply Hown; lia].
Defined.

(** Whatever packets arrive and however expiry is called, a reassembler keeps
    at most [MaxInflightFrames] assemblies, each complete in its bookkeeping
    (slots as many as chunks, the byte count exact and within
    [MaxFrameBytes]), so it never buffers more than their product. *)
Theorem Reassembler_bounded limits ttl r :
  rtc reassembler_step (NewReassembler limits ttl) r ->
  reassembler_inv r
  /\ 0 <= buffered r <= MaxInflightFrames (ra_limits r) * MaxFrameBytes (ra_limits r).
Proof.
  intros Hsteps.
  assert (Hinv : reassembler_inv r) by (eapply reassembler_steps_inv; [done|apply NewReassembler_inv]).
  split; [done|by apply reassembler_inv_buffered].
Qed.

Lemma Reassembler_bounded_witness :
  let r := (Reassembler_push sample_reassembler 4 (sample_packet 1) 100 0).1.1 in
  reassembler_inv r
  /\ 0 <= buffered r <= MaxInflightFrames (ra_limits r) * MaxFrameBytes (ra_limits r).
Proof.
  intros r. apply (Reassembler_bounded DefaultLimits 1000). eapply rtc_l; [|apply rtc_refl].
  apply step_push.
Defined.

(** Expiry removes exactly the assemblies that are [ttl] old or older, and
    reports how many it removed. *)
Theorem Reassembler_Expire_exact r now clock :
  exists r' n, Reassembler_Expire (Some r) now clock = (Some r', n)
    /\ (forall key a, ra_inflight r' !! key = Some a <->
          ra_inflight r !! key = Some a
          /\ time_sub (time_or_now now clock) (fa_created a) < ra_ttl r)
    /\ n = Reassembler_Len (Some r) - Reassembler_Len (Some r') /\ 0 <= n.
Proof.
  eexists _, _. split; [reflexivity|]. cbn [expireLocked fst snd ra_inflight set_inflight Reassembler_Len].
  split_and!; [|done|].
  - intros key a. rewrite map_lookup_filter_Some. unfold expired. rewrite Z.leb_gt. done.
  - pose proof (expireLocked_size r (time_or_now now clock)). cbn in *. lia.
Qed.

(** A fragment without payload, received twice, completes a frame of two
    fragments: the detached copy of an empty payload is nil, the mark of an
    empty slot, so the repetition counts as a second fragment and the bytes of
    the missing one are lost. *)
Theorem Reassembler_counts_empty_chunk_twice :
  exists packet, encodeDatagram (mkHeader 1 0 7 1 6 5 9 0 2 0 0) [] = Ok packet
    /\ (arrive (after sample_reassembler [mkArrival 4 packet 100 0]) (mkArrival 4 packet 100 0)).2
       = Ok (Some []).
Proof. eexists. split; [vm_compute; reflexivity|]. vm_compute. reflexivity. Qed.
