(* ===== verification/Ring.v ===== *)
(** * The snapshot ring

    [src/replication/ring.go]: the last snapshots published, in order of tick,
    with an index from tick to position.  The specification is the log of all
    accepted snapshots since the last reset, of which the ring shows a window. *)

From stdpp Require Import base list gmap strings sorting.
From Stdlib Require Import ZArith Lia.
From S2P Require Import Prelude ReplTypes Snapshots.

Local Open Scope Z_scope.

Record SnapshotRing := mkRing {
  ring_capacity : Z;
  ring_items : list Snapshot;
  ring_byTick : gmap Z Z;
  ring_latest : Z
}.

Definition NewSnapshotRing (capacity : Z) : SnapshotRing :=
  mkRing (if capacity <=? 0 then 64 else capacity) [] ∅ 0.

(** The eviction of the oldest item when the ring is full.  [delete] of the
    tick of [items[0]] needs an item, which a full ring has. *)
Definition SnapshotRing_evict (r : SnapshotRing) : SnapshotRing :=
  if len (ring_items r) =? ring_capacity r then
    match ring_items r with
    | [] => r
    | oldest :: rest =>
        mkRing (ring_capacity r) rest
          ((fun index => index - 1) <$> delete (sn_Tick oldest) (ring_byTick r)) (ring_latest r)
    end
  else r.

Definition SnapshotRing_Add (r : option SnapshotRing) (snapshot : Snapshot) : res SnapshotRing :=
  match r with
  | None => Err ErrInvalidFrame
  | Some r =>
      _ ← SnapshotMeta_validate (sn_Meta snapshot);
      if negb (ring_latest r =? 0) && (sn_Tick snapshot <=? ring_latest r)
      then Err ErrBaselineMismatch else
      let r := SnapshotRing_evict r in
      let items := ring_items r ++ [Snapshot_Clone snapshot] in
      Ok (mkRing (ring_capacity r) items
            (<[sn_Tick snapshot := len items - 1]> (ring_byTick r)) (sn_Tick snapshot))
  end.

Definition SnapshotRing_Get (r : option SnapshotRing) (tick : Z) : option Snapshot :=
  match r with
  | None => None
  | Some r =>
      if tick =? 0 then None else
      match ring_byTick r !! tick with
      | None => None
      | Some index =>
          if (index <? 0) || (len (ring_items r) <=? index) then None
          else Snapshot_Clone <$> ring_items r !! Z.to_nat index
      end
  end.

Definition SnapshotRing_Latest (r : option SnapshotRing) : option Snapshot :=
  match r with
  | None => None
  | Some r =>
      if len (ring_items r) =? 0 then None
      else Snapshot_Clone <$> ring_items r !! Z.to_nat (len (ring_items r) - 1)
  end.

Definition SnapshotRing_LatestTick (r : option SnapshotRing) : Z :=
  match r with None => 0 | Some r => ring_latest r end.

Definition SnapshotRing_Len (r : option SnapshotRing) : Z :=
  match r with None => 0 | Some r => len (ring_items r) end.

Definition SnapshotRing_Reset (r : SnapshotRing) : SnapshotRing :=
  mkRing (ring_capacity r) [] ∅ 0.

(** ** Specification: the log of accepted snapshots *)

Definition log_tick (log : list Snapshot) : Z :=
  match last log with Some s => sn_Tick s | None => 0 end.

Definition log_add (log : list Snapshot) (s : Snapshot) : res (list Snapshot) :=
  _ ← SnapshotMeta_validate (sn_Meta s);
  if negb (log_tick log =? 0) && (sn_Tick s <=? log_tick log)
  then Err ErrBaselineMismatch else Ok (log ++ [s]).

(** The part of the log a ring of [capacity] items shows. *)
Definition window (capacity : Z) (log : list Snapshot) : list Snapshot :=
  drop (length log - Z.to_nat capacity) log.

Definition ticks_increase (log : list Snapshot) : Prop :=
  StronglySorted (fun a b => sn_Tick a < sn_Tick b) log
  /\ Forall (fun s => 0 < sn_Tick s) log.

Record ring_refines (r : SnapshotRing) (log : list Snapshot) : Prop := {
  rr_capacity : 0 < ring_capacity r;
  rr_items : ring_items r = window (ring_capacity r) log;
  rr_latest : ring_latest r = log_tick log;
  rr_ticks : ticks_increase log;
  rr_index : forall tick index, ring_byTick r !! tick = Some index <->
     0 <= index /\ exists s, ring_items r !! Z.to_nat index = Some s /\ sn_Tick s = tick
}.

(** ** Lemmas *)

Lemma ticks_increase_drop n log : ticks_increase log -> ticks_increase (drop n log).
Proof.
  intros [Hs Hp]. split; [|by apply Forall_drop].
  revert n. induction Hs as [|s log Hs IH Hall]; intros [|n]; cbn; [constructor..| |].
  - by constructor.
  - apply IH. by apply Forall_cons in Hp as [_ ?].
Qed.

Lemma ticks_increase_head s log :
  ticks_increase (s :: log) -> Forall (fun x => sn_Tick s < sn_Tick x) log.
Proof. intros [Hs _]. by apply StronglySorted_inv in Hs as [_ ?]. Qed.

Lemma log_tick_ge log s : ticks_increase log -> s ∈ log -> sn_Tick s <= log_tick log.
Proof.
  unfold log_tick. intros [Hs Hp] Hin. induction log as [|x log IH] using rev_ind.
  { by apply not_elem_of_nil in Hin. }
  rewrite last_snoc. apply elem_of_app in Hin as [Hin| ->%list_elem_of_singleton]; [|lia].
  assert (Hlt : sn_Tick s < sn_Tick x); [|lia].
  clear -Hs Hin. induction log as [|y log IH]; [by apply not_elem_of_nil in Hin|].
  cbn in Hs. apply StronglySorted_inv in Hs as [Hs Hall].
  apply elem_of_cons in Hin as [->|Hin]; [|by apply IH].
  rewrite Forall_app, Forall_singleton in Hall. apply Hall.
Qed.

Lemma log_tick_zero log : ticks_increase log -> log_tick log = 0 <-> log = [].
Proof.
  unfold log_tick. intros [_ Hp]. destruct log as [|x log _] using rev_ind; [done|].
  rewrite last_snoc. rewrite Forall_app, Forall_singleton in Hp.
  split; [lia|]. by intros [_ ?]%app_eq_nil.
Qed.

Lemma ticks_increase_snoc log s :
  ticks_increase log -> 0 < sn_Tick s -> (log = [] \/ log_tick log < sn_Tick s) ->
  ticks_increase (log ++ [s]).
Proof.
  intros Hlog Hs Hlast. pose proof Hlog as [Hsort Hpos]. split.
  2:{ apply Forall_app. split; [done|]. by repeat constructor. }
  assert (Hall : Forall (fun x => sn_Tick x < sn_Tick s) log).
  { apply Forall_forall. intros x Hx. pose proof (log_tick_ge log x Hlog Hx).
    destruct Hlast as [->|]; [by apply not_elem_of_nil in Hx|lia]. }
  clear -Hsort Hall. induction Hsort as [|x log Hsort IH Hx]; cbn; [repeat constructor|].
  apply Forall_cons in Hall as [Hxs Hall]. constructor; [by apply IH|].
  apply Forall_app. split; [done|]. by repeat constructor.
Qed.

(** Eviction drops the head and shifts the index by one. *)
Lemma evict_index r log :
  ring_refines r log ->
  forall tick index, ring_byTick (SnapshotRing_evict r) !! tick = Some index <->
    0 <= index /\ exists s, ring_items (SnapshotRing_evict r) !! Z.to_nat index = Some s
                            /\ sn_Tick s = tick.
Proof.
  intros [Hc Hi Hl Ht Hx] tick index. unfold SnapshotRing_evict.
  destruct (len (ring_items r) =? ring_capacity r); [|apply Hx].
  destruct (ring_items r) as [|oldest rest] eqn:Hitems; [rewrite Hitems; apply Hx|].
  cbn [ring_byTick ring_items].
  assert (Hhead : Forall (fun x => sn_Tick oldest < sn_Tick x) rest).
  { apply ticks_increase_head. rewrite Hi. by apply ticks_increase_drop. }
  rewrite lookup_fmap, fmap_Some. split.
  - intros (j & [Hne Hj]%lookup_delete_Some & ->). apply Hx in Hj as (Hj0 & s & Hs & Hst).
    destruct (decide (j = 0)) as [->|Hj]; [change (Z.to_nat 0) with 0%nat in Hs; by simplify_eq/=|].
    split; [lia|]. exists s. split; [|done].
    by replace (Z.to_nat j) with (S (Z.to_nat (j - 1))) in Hs by lia.
  - intros (H0 & s & Hs & Hst). exists (index + 1). split; [|lia].
    apply lookup_delete_Some. split.
    + rewrite Forall_forall in Hhead. pose proof (Hhead s (list_elem_of_lookup_2 _ _ _ Hs)). lia.
    + apply Hx. split; [lia|]. exists s. split; [|done].
      by replace (Z.to_nat (index + 1)) with (S (Z.to_nat index)) by lia.
Qed.

Lemma evict_items r log s :
  ring_refines r log ->
  ring_items (SnapshotRing_evict r) ++ [s] = window (ring_capacity r) (log ++ [s])
  /\ ring_capacity (SnapshotRing_evict r) = ring_capacity r.
Proof.
  intros [Hc Hi Hl Ht Hx]. unfold SnapshotRing_evict.
  set (c := Z.to_nat (ring_capacity r)).
  assert (Hwin : window (ring_capacity r) (log ++ [s]) = drop (length log + 1 - c) log ++ [s]).
  { unfold window. rewrite length_app. cbn [length]. fold c. rewrite drop_app_le; [done|].
    subst c. lia. }
  rewrite Hwin. unfold window in Hi. fold c in Hi.
  assert (Hlen : length (ring_items r) = Nat.min (length log) c).
  { rewrite Hi, length_drop. lia. }
  destruct (Z.eqb_spec (len (ring_items r)) (ring_capacity r)) as [Heq|Hne].
  - destruct (ring_items r) as [|oldest rest] eqn:Hitems; [unfold len in Heq; cbn in Heq; lia|].
    cbn [ring_items ring_capacity]. split; [|done]. f_equal.
    assert (Hrest : rest = drop 1 (drop (length log - c) log)) by (by rewrite <-Hi).
    rewrite Hrest, drop_drop. f_equal. unfold len in Heq. cbn in Hlen. subst c. cbn in *. lia.
  - split; [|done]. f_equal. rewrite Hi. f_equal. unfold len in Hne. subst c. lia.
Qed.

Lemma NewSnapshotRing_refines capacity : ring_refines (NewSnapshotRing capacity) [].
Proof.
  split; cbn; [case_match; bool_to_prop; lia|by unfold window|done|by repeat constructor|].
  intros tick index. rewrite lookup_empty. split; [done|]. intros (_ & s & Hs & _).
  by rewrite lookup_nil in Hs.
Qed.

Lemma SnapshotRing_Add_refines r log s :
  ring_refines r log -> wf_meta (sn_Meta s) ->
  match SnapshotRing_Add (Some r) s, log_add log s with
  | Ok r', Ok log' => ring_refines r' log' /\ ring_capacity r' = ring_capacity r
  | Err e, Err e' => e = e'
  | _, _ => False
  end.
Proof.
  intros Hr Hwf. pose proof Hr as [Hc Hi Hl Ht Hx]. cbn [SnapshotRing_Add]. unfold log_add.
  destruct (SnapshotMeta_validate (sn_Meta s)) as [[]|] eqn:Hval; [|done]. run_bind.
  rewrite Hl. destruct (negb _ && _) eqn:Hguard; [done|]. rewrite Snapshot_Clone_id.
  destruct (evict_items r log s Hr) as [Hitems Hcap].
  apply SnapshotMeta_validate_ok in Hval as (_ & _ & Htick & _).
  assert (Hpos : 0 < sn_Tick s).
  { destruct Hwf as (_ & _ & [? _] & _). unfold sn_Tick. lia. }
  assert (Hlast : log = [] \/ log_tick log < sn_Tick s).
  { rewrite <-log_tick_zero by done. apply andb_false_iff in Hguard as [Hg|Hg]; bool_to_prop; lia. }
  assert (Hti : ticks_increase (log ++ [s])) by (by apply ticks_increase_snoc).
  split; [|done]. split; cbn [ring_capacity ring_items ring_latest ring_byTick]; rewrite ?Hcap.
  - done.
  - done.
  - unfold log_tick. by rewrite last_snoc.
  - done.
  - intros tick index. pose proof (evict_index r log Hr tick index) as Hev.
    set (items := ring_items (SnapshotRing_evict r)) in *.
    assert (Hold : forall x, x ∈ items -> sn_Tick x < sn_Tick s).
    { intros x Hx'. assert (Hin : ticks_increase (items ++ [s]))
        by (rewrite Hitems; by apply ticks_increase_drop).
      clear -Hx' Hin. induction items as [|y l IH]; [by apply not_elem_of_nil in Hx'|].
      pose proof (ticks_increase_head _ _ Hin) as Hh. apply elem_of_cons in Hx' as [->|Hx'].
      - rewrite Forall_app, Forall_singleton in Hh. apply Hh.
      - apply IH; [done|]. by apply (ticks_increase_drop 1) in Hin. }
    rewrite lookup_insert_Some, Hev. rewrite len_app. change (len [s]) with 1. split.
    + intros [[<- <-]|[Hne (H0 & x & Hx1 & Hx2)]].
      * pose proof (len_nonneg items). split; [lia|]. exists s. split; [|done].
        replace (len items + 1 - 1) with (len items) by lia. rewrite to_nat_len.
        by rewrite lookup_app_r, Nat.sub_diag.
      * split; [done|]. exists x. split; [|done]. by apply lookup_app_l_Some.
    + intros (H0 & x & [Hx1|[Hge Hx1]]%lookup_app_Some & <-).
      * right. split; [|eauto]. pose proof (Hold x (list_elem_of_lookup_2 _ _ _ Hx1)). lia.
      * left. apply list_lookup_singleton_Some in Hx1 as [Hz <-]. split; [done|].
        unfold len. lia.
Qed.

Lemma SnapshotRing_Reset_refines r log :
  ring_refines r log -> ring_refines (SnapshotRing_Reset r) [].
Proof.
  intros [Hc _ _ _ _]. pose proof (NewSnapshotRing_refines (ring_capacity r)) as Hn.
  unfold NewSnapshotRing in Hn. unfold SnapshotRing_Reset.
  rewrite (proj2 (Z.leb_gt _ _)) in Hn by lia. exact Hn.
Qed.

Lemma SnapshotRing_Get_refines r log tick :
  ring_refines r log ->
  forall s, SnapshotRing_Get (Some r) tick = Some s <->
    s ∈ window (ring_capacity r) log /\ sn_Tick s = tick.
Proof.
  intros [Hc Hi Hl Ht Hx] s. cbn. rewrite <-Hi.
  assert (Hpos : forall x, x ∈ ring_items r -> 0 < sn_Tick x).
  { intros x Hin. rewrite Hi in Hin. destruct (ticks_increase_drop
      (length log - Z.to_nat (ring_capacity r)) log Ht) as [_ Hp].
    rewrite Forall_forall in Hp. by apply Hp. }
  assert (Huniq : forall i j x y, ring_items r !! i = Some x -> ring_items r !! j = Some y ->
    sn_Tick x = sn_Tick y -> i = j).
  { intros i j x y Hx1 Hy1 Heq.
    assert (Hx2 : ring_byTick r !! sn_Tick x = Some (Z.of_nat i))
      by (apply Hx; split; [lia|]; exists x; by rewrite Nat2Z.id).
    assert (Hy2 : ring_byTick r !! sn_Tick y = Some (Z.of_nat j))
      by (apply Hx; split; [lia|]; exists y; by rewrite Nat2Z.id).
    rewrite Heq in Hx2. rewrite Hx2 in Hy2. injection Hy2. lia. }
  destruct (Z.eqb_spec tick 0) as [->|Hne].
  { split; [done|]. intros [Hin Heq]. specialize (Hpos _ Hin). lia. }
  destruct (ring_byTick r !! tick) as [index|] eqn:Hidx.
  - apply Hx in Hidx as (H0 & x & Hx1 & Hx2).
    pose proof (lookup_lt_Some _ _ _ Hx1) as Hlt.
    rewrite (proj2 (Z.ltb_ge _ _)), (proj2 (Z.leb_gt _ _)) by (unfold len; lia). cbn [orb].
    rewrite Hx1. cbn. rewrite Snapshot_Clone_id. split.
    + intros [= <-]. split; [|done]. by eapply list_elem_of_lookup_2.
    + intros [[j Hj]%list_elem_of_lookup_1 Heq].
      assert (Z.to_nat index = j) as <- by (eapply Huniq; [done..|congruence]). congruence.
  - split; [done|]. intros [[j Hj]%list_elem_of_lookup_1 <-].
    assert (Hx2 : ring_byTick r !! sn_Tick s = Some (Z.of_nat j))
      by (apply Hx; split; [lia|]; exists s; by rewrite Nat2Z.id).
    congruence.
Qed.

Lemma last_drop_window c log : 0 < c -> last (window c log) = last log.
Proof.
  intros Hc. unfold window. destruct log as [|x log _] using rev_ind; [by rewrite drop_nil|].
  rewrite length_app. cbn [length]. rewrite drop_app_le by lia. by rewrite !last_snoc.
Qed.

Lemma SnapshotRing_Latest_refines r log :
  ring_refines r log -> SnapshotRing_Latest (Some r) = last log.
Proof.
  intros [Hc Hi Hl Ht Hx]. rewrite <-(last_drop_window (ring_capacity r) log), <-Hi by done.
  cbn. destruct (ring_items r) as [|x l _] using rev_ind; [done|].
  rewrite last_snoc, len_app. change (len [x]) with 1. pose proof (len_nonneg l).
  rewrite (proj2 (Z.eqb_neq _ _)) by lia.
  replace (len l + 1 - 1) with (len l) by lia.
  rewrite to_nat_len, lookup_app_r, Nat.sub_diag by done. cbn. by rewrite Snapshot_Clone_id.
Qed.

(** Sequences of calls, on the ring and on its specification; a rejected [Add]
    changes nothing. *)
Inductive ring_op := RingAdd (s : Snapshot) | RingReset.

Definition ring_step (r : SnapshotRing) (op : ring_op) : SnapshotRing :=
  match op with
  | RingAdd s => match SnapshotRing_Add (Some r) s with Ok r' => r' | Err _ => r end
  | RingReset => SnapshotRing_Reset r
  end.

Definition log_step (log : list Snapshot) (op : ring_op) : list Snapshot :=
  match op with
  | RingAdd s => match log_add log s with Ok log' => log' | Err _ => log end
  | RingReset => []
  end.

Definition wf_ring_op (op : ring_op) : Prop :=
  match op with RingAdd s => wf_meta (sn_Meta s) | RingReset => True end.

Lemma ring_step_refines r log op :
  ring_refines r log -> wf_ring_op op ->
  ring_refines (ring_step r op) (log_step log op)
  /\ ring_capacity (ring_step r op) = ring_capacity r.
Proof.
  intros Hr Hop. destruct op as [s|]; cbn in *.
  - pose proof (SnapshotRing_Add_refines r log s Hr Hop) as Hadd. cbn [SnapshotRing_Add] in Hadd.
    destruct (_ ← _; _) as [r'|]; destruct (log_add log s) as [log'|]; done.
  - split; [by eapply SnapshotRing_Reset_refines|done].
Qed.

Lemma ring_run_refines r log ops :
  ring_refines r log -> Forall wf_ring_op ops ->
  ring_refines (foldl ring_step r ops) (foldl log_step log ops)
  /\ ring_capacity (foldl ring_step r ops) = ring_capacity r.
Proof.
  intros Hr Hops. revert r log Hr. induction Hops as [|op ops Hop Hops IH]; intros r log Hr; [done|].
  cbn [foldl]. destruct (ring_step_refines r log op Hr Hop) as [Hr' Hc].
  destruct (IH _ _ Hr') as [Hr'' Hc']. by rewrite Hc', Hc.
Qed.

(** ** Properties *)

(** Refinement: after any sequence of additions and resets the ring answers
    every query from the log of the accepted snapshots: [Get] finds exactly the
    snapshots among the last [capacity] ones, by tick; [Latest], [LatestTick]
    and [Len] describe the end of the log; and the next [Add] is accepted or
    rejected, with the same error, as the log's. *)
Theorem SnapshotRing_refines_log capacity ops :
  Forall wf_ring_op ops ->
  let r := foldl ring_step (NewSnapshotRing capacity) ops in
  let log := foldl log_step [] ops in
  let c := if capacity <=? 0 then 64 else capacity in
  (forall tick s, SnapshotRing_Get (Some r) tick = Some s <-> s ∈ window c log /\ sn_Tick s = tick)
  /\ SnapshotRing_Latest (Some r) = last log
  /\ SnapshotRing_LatestTick (Some r) = log_tick log
  /\ SnapshotRing_Len (Some r) = Z.min (len log) c
  /\ ticks_increase log
  /\ forall s, wf_meta (sn_Meta s) ->
       match SnapshotRing_Add (Some r) s, log_add log s with
       | Ok _, Ok _ => True | Err e, Err e' => e = e' | _, _ => False
       end.
Proof.
  intros Hops r log c.
  destruct (ring_run_refines _ _ ops (NewSnapshotRing_refines capacity) Hops) as [Hr Hc].
  fold r log in Hr. fold r in Hc. cbn [ring_capacity NewSnapshotRing] in Hc. fold c in Hc.
  pose proof Hr as [Hc0 Hi Hl Ht Hx]. rewrite Hc in Hc0, Hi. split_and!.
  - intros tick s. rewrite <-Hc. by apply SnapshotRing_Get_refines.
  - by apply SnapshotRing_Latest_refines.
  - done.
  - cbn. rewrite Hi. unfold window, len. rewrite length_drop. lia.
  - done.
  - intros s Hs. pose proof (SnapshotRing_Add_refines r log s Hr Hs) as Hadd.
    destruct (SnapshotRing_Add (Some r) s), (log_add log s); done.
Qed.

Lemma SnapshotRing_refines_log_witness :
  let snap t := mkSnapshot (mkMeta 7 1 t 2) [] in
  let ops := [RingAdd (snap 3); RingAdd (snap 3); RingAdd (snap 5); RingAdd (snap 8)] in
  SnapshotRing_Latest (Some (foldl ring_step (NewSnapshotRing 2) ops)) = Some (snap 8).
Proof.
  intros snap ops. destruct (SnapshotRing_refines_log 2 ops) as (_ & Hlatest & _).
  - repeat apply List.Forall_cons; try apply List.Forall_nil; apply (bool_decide_eq_true_1 (wf_meta _));
      vm_compute; reflexivity.
  - rewrite Hlatest. vm_compute. reflexivity.
Defined.
