(* ===== verification/Control.v ===== *)
(** * Control messages

    [src/replication/control.go]: acknowledgements and resync requests of a
    client, in 32 bytes with a checksum.  The handler of a decoded message is
    in the session and replicator components. *)

From stdpp Require Import base list gmap strings sorting.
From Stdlib Require Import ZArith Lia.
From S2P Require Import Prelude ReplTypes Snapshots Wire Delta Codec Datagram.

Local Open Scope Z_scope.

Definition controlMagic : Z := 0x43524331.
Definition ControlMessageSize : Z := 32.

Definition ControlAck : Z := 1.
Definition ControlResync : Z := 2.

Definition ResyncUnknown : Z := 0.
Definition ResyncBaselineMissing : Z := 1.
Definition ResyncReassemblyExpired : Z := 2.
Definition ResyncDecodeFailure : Z := 3.
Definition ResyncSchemaMismatch : Z := 4.

Record ControlMessage := mkControl {
  cm_Type : Z;
  cm_Reason : Z;
  cm_RoomID : Z;
  cm_Epoch : Z;
  cm_Tick : Z;
  cm_Sequence : Z
}.

Definition IsControlPayload (raw : list byte) : bool :=
  (len raw =? ControlMessageSize) && (be_get (slice 0 4 raw) =? controlMagic).

Definition ControlMessage_validate (m : ControlMessage) : res unit :=
  if (negb (cm_Type m =? ControlAck) && negb (cm_Type m =? ControlResync))
     || (cm_RoomID m =? 0) || (cm_Epoch m =? 0) || (cm_Sequence m =? 0)
  then Err ErrInvalidControl else
  if (cm_Type m =? ControlAck) && ((cm_Tick m =? 0) || negb (cm_Reason m =? ResyncUnknown))
  then Err ErrInvalidControl else
  if (cm_Type m =? ControlResync) && (ResyncSchemaMismatch <? cm_Reason m)
  then Err ErrInvalidControl else
  Ok tt.

(** The loop reads the bytes from index 28 on as zero. *)
Definition checksumControl (raw : list byte) : Z :=
  if negb (len raw =? ControlMessageSize) then 0 else
  foldl fnv_byte fnv_offset (imap (fun index value => if (28 <=? index)%nat then Byte.x00 else value) raw).

(** The first 28 bytes of a message. *)
Definition controlBytes (m : ControlMessage) : list byte :=
  be_put 4 controlMagic ++ be_put 2 ProtocolVersion ++ be_put 1 (cm_Type m)
  ++ be_put 1 (cm_Reason m) ++ be_put 8 (cm_RoomID m) ++ be_put 4 (cm_Epoch m)
  ++ be_put 4 (cm_Tick m) ++ be_put 4 (cm_Sequence m).

Definition EncodeControl (message : ControlMessage) : res (list byte) :=
  _ ← ControlMessage_validate message;
  let raw := controlBytes message ++ be_put 4 0 in
  Ok (controlBytes message ++ be_put 4 (checksumControl raw)).

Definition DecodeControl (raw : list byte) : res ControlMessage :=
  if negb (len raw =? ControlMessageSize) || negb (be_get (slice 0 4 raw) =? controlMagic)
     || negb (be_get (slice 4 6 raw) =? ProtocolVersion)
  then Err ErrInvalidControl else
  if negb (checksumControl raw =? be_get (slice 28 32 raw)) then Err ErrChecksumMismatch else
  let message := {| cm_Type := be_get (slice 6 7 raw); cm_Reason := be_get (slice 7 8 raw);
                    cm_RoomID := be_get (slice 8 16 raw); cm_Epoch := be_get (slice 16 20 raw);
                    cm_Tick := be_get (slice 20 24 raw);
                    cm_Sequence := be_get (slice 24 28 raw) |} in
  _ ← ControlMessage_validate message;
  Ok message.

(** ** Specification *)

Definition wf_control (m : ControlMessage) : Prop :=
  in_u 8 (cm_Type m) /\ in_u 8 (cm_Reason m) /\ in_u 64 (cm_RoomID m) /\ in_u 32 (cm_Epoch m)
  /\ in_u 32 (cm_Tick m) /\ in_u 32 (cm_Sequence m).

#[export] Instance wf_control_dec m : Decision (wf_control m).
Proof. unfold wf_control. apply _. Defined.

(** A message that may be sent: an acknowledgement names a tick and no reason,
    a resync request one of the known reasons. *)
Definition control_ok (m : ControlMessage) : Prop :=
  cm_RoomID m <> 0 /\ cm_Epoch m <> 0 /\ cm_Sequence m <> 0
  /\ (cm_Type m = ControlAck /\ cm_Tick m <> 0 /\ cm_Reason m = ResyncUnknown
      \/ cm_Type m = ControlResync /\ cm_Reason m <= ResyncSchemaMismatch).

Lemma ControlMessage_validate_spec m : ControlMessage_validate m = Ok tt <-> control_ok m.
Proof.
  unfold ControlMessage_validate, control_ok, ControlAck, ControlResync, ResyncUnknown,
    ResyncSchemaMismatch. split.
  - intros H. ok_inv. bool_to_prop. split_and!; try done.
    destruct (Z.eqb_spec (cm_Type m) 1) as [Ht|]; cbn in *.
    + left. bool_to_prop. by split_and!.
    + destruct (Z.eqb_spec (cm_Type m) 2); [|done]. right. cbn in *. by bool_to_prop.
  - intros (Hr & He & Hs & Hk).
    rewrite (proj2 (Z.eqb_neq (cm_RoomID m) _)), (proj2 (Z.eqb_neq (cm_Epoch m) _)),
      (proj2 (Z.eqb_neq (cm_Sequence m) _)) by done.
    destruct Hk as [(-> & Ht & ->)|(-> & Hreason)]; cbn.
    + by rewrite (proj2 (Z.eqb_neq _ _)).
    + by rewrite (proj2 (Z.ltb_ge _ _)).
Qed.

(** ** Lemmas: the layout *)

Definition controlPacket (m : ControlMessage) (c : Z) : list byte := controlBytes m ++ be_put 4 c.

Lemma length_controlBytes m : length (controlBytes m) = 28%nat.
Proof. unfold controlBytes. by rewrite !length_app, !length_be_put. Qed.

Lemma checksumControl_take raw :
  len raw = ControlMessageSize ->
  checksumControl raw = foldl fnv_byte fnv_offset (take 28 raw ++ replicate 4 Byte.x00).
Proof.
  intros Hlen. unfold checksumControl. rewrite Hlen, Z.eqb_refl. cbn [negb].
  unfold len, ControlMessageSize in Hlen. f_equal.
  apply list_eq_same_length with 32%nat; rewrite ?length_imap, ?length_app, ?length_take,
    ?length_replicate; [lia..|].
  intros i x y Hi. rewrite list_lookup_imap, fmap_Some. intros (z & Hz & ->).
  destruct (Nat.leb_spec 28 i) as [Hge|Hlt].
  - rewrite lookup_app_r by (rewrite length_take; lia). rewrite length_take.
    rewrite lookup_replicate. intros [<- _]. done.
  - rewrite lookup_app_l by (rewrite length_take; lia). rewrite lookup_take_lt by done. congruence.
Qed.

Lemma len_controlPacket m c : len (controlPacket m c) = ControlMessageSize.
Proof.
  unfold len, controlPacket. by rewrite length_app, length_controlBytes, length_be_put.
Qed.

Lemma checksumControl_packet m c :
  checksumControl (controlPacket m c)
  = foldl fnv_byte fnv_offset (controlBytes m ++ replicate 4 Byte.x00).
Proof.
  rewrite checksumControl_take by apply len_controlPacket. unfold controlPacket.
  rewrite take_app_length'; [done|by rewrite length_controlBytes].
Qed.

Lemma EncodeControl_iff m raw :
  EncodeControl m = Ok raw <->
  control_ok m /\ raw = controlPacket m (checksumControl raw).
Proof.
  change (EncodeControl m) with
    (_ ← ControlMessage_validate m; Ok (controlPacket m (checksumControl (controlPacket m 0)))).
  rewrite <-ControlMessage_validate_spec. split.
  - intros H. ok_inv. destruct a. split; [done|]. by rewrite !checksumControl_packet.
  - intros [-> Hraw]. run_bind. f_equal. rewrite Hraw at 1.
    rewrite checksumControl_packet, <-(checksumControl_packet m (checksumControl raw)).
    by rewrite <-Hraw.
Qed.

Lemma DecodeControl_inv raw m :
  DecodeControl raw = Ok m ->
  wf_control m /\ control_ok m /\ len raw = ControlMessageSize
  /\ raw = controlPacket m (checksumControl raw).
Proof.
  unfold DecodeControl. intros H. ok_inv. destruct a. bool_to_prop.
  assert (Hlen : length raw = 32%nat) by (unfold len, ControlMessageSize in *; lia).
  split_and!.
  - unfold wf_control; cbn [cm_Type cm_Reason cm_RoomID cm_Epoch cm_Tick cm_Sequence].
    split_and!; match goal with |- in_u _ (be_get (slice ?a ?b _)) =>
      apply (be_get_in_u_n (b - a)); apply length_slice; lia end.
  - by apply ControlMessage_validate_spec.
  - done.
  - unfold controlPacket, controlBytes; cbn [cm_Type cm_Reason cm_RoomID cm_Epoch cm_Tick cm_Sequence].
    match goal with H : checksumControl raw = _ |- _ => rewrite H end.
    match goal with H : be_get (slice 0 4 raw) = _ |- _ => rewrite <-H end.
    match goal with H : be_get (slice 4 6 raw) = _ |- _ => rewrite <-H end.
    rewrite !be_put_get_n by (rewrite length_slice; lia). rewrite <-!app_assoc.
    replace (slice 28 32 raw) with (drop 28 raw) by (unfold slice; rewrite take_ge; [done|];
      rewrite length_drop; lia).
    by rewrite !slice_drop, drop_0 by lia.
Qed.

Lemma controlPacket_fields m c :
  wf_control m -> in_u 32 c ->
  let raw := controlPacket m c in
  be_get (slice 0 4 raw) = controlMagic /\ be_get (slice 4 6 raw) = ProtocolVersion
  /\ be_get (slice 6 7 raw) = cm_Type m /\ be_get (slice 7 8 raw) = cm_Reason m
  /\ be_get (slice 8 16 raw) = cm_RoomID m /\ be_get (slice 16 20 raw) = cm_Epoch m
  /\ be_get (slice 20 24 raw) = cm_Tick m /\ be_get (slice 24 28 raw) = cm_Sequence m
  /\ be_get (slice 28 32 raw) = c.
Proof.
  intros (Ht & Hr & Hro & He & Hti & Hs) Hc raw. unfold raw, controlPacket, controlBytes.
  rewrite <-(app_nil_r (be_put 4 c)), <-!app_assoc. split_and!; read_field.
Qed.

Lemma checksumControl_range raw : in_u 32 (checksumControl raw).
Proof.
  unfold checksumControl. case_match; [by vm_compute|].
  apply (fold_P fnv_byte (in_u 32)); [|by vm_compute]. intros. apply fnv_byte_range.
Qed.

Lemma DecodeControl_packet m :
  wf_control m -> control_ok m ->
  DecodeControl (controlPacket m (checksumControl (controlPacket m 0))) = Ok m.
Proof.
  intros Hwf Hok. unfold DecodeControl. set (c := checksumControl (controlPacket m 0)).
  destruct (controlPacket_fields m c Hwf (checksumControl_range _))
    as (-> & -> & -> & -> & -> & -> & -> & -> & ->).
  rewrite len_controlPacket, checksumControl_packet, <-(checksumControl_packet m 0), !Z.eqb_refl.
  cbn [negb orb]. destruct m; cbn [cm_Type cm_Reason cm_RoomID cm_Epoch
    cm_Tick cm_Sequence]. by rewrite (proj2 (ControlMessage_validate_spec _) Hok).
Qed.

(** ** Properties *)

Definition sample_control : ControlMessage := mkControl ControlAck ResyncUnknown 7 1 6 3.
Definition sample_raw : list byte :=
  match EncodeControl sample_control with Ok raw => raw | Err _ => [] end.

(** Decoding is the exact inverse of encoding: a payload decodes to a message
    precisely when it is the encoding of that message, which is then one that
    validates; every encoding is recognised by [IsControlPayload]. *)
Theorem DecodeControl_iff_EncodeControl raw m :
  (DecodeControl raw = Ok m <-> wf_control m /\ EncodeControl m = Ok raw)
  /\ (EncodeControl m = Ok raw -> control_ok m /\ IsControlPayload raw = true).
Proof.
  split.
  - rewrite EncodeControl_iff. split.
    + intros (Hwf & Hok & _ & Hraw)%DecodeControl_inv. done.
    + intros (Hwf & Hok & Hraw). rewrite Hraw.
      rewrite Hraw, checksumControl_packet, <-(checksumControl_packet m 0).
      by apply DecodeControl_packet.
  - rewrite EncodeControl_iff. intros [Hok Hraw]. split; [done|]. rewrite Hraw.
    unfold IsControlPayload. rewrite len_controlPacket, Z.eqb_refl.
    unfold controlPacket, controlBytes. rewrite <-!app_assoc, slice_here by apply length_be_put.
    by vm_compute.
Qed.

(** Changing any one byte of a control payload that decodes makes it
    undecodable. *)
Theorem DecodeControl_detects_corruption raw m i b b' :
  DecodeControl raw = Ok m -> raw !! i = Some b -> b <> b' ->
  is_ok (DecodeControl (<[i := b']> raw)) = false.
Proof.
  intros Hdec Hi Hne. destruct (DecodeControl (<[i := b']> raw)) as [m'|] eqn:Hdec'; [|done].
  exfalso. apply DecodeControl_inv in Hdec as (Hwf & _ & Hlen & Hraw).
  apply DecodeControl_inv in Hdec' as (Hwf' & _ & Hlen' & Hraw').
  assert (Hsum : forall x d, wf_control d -> x = controlPacket d (checksumControl x) ->
    checksumControl x = be_get (slice 28 32 x)).
  { intros x d Hd Hx. rewrite Hx at 2. symmetry. apply controlPacket_fields; [done|].
    apply checksumControl_range. }
  apply Hsum in Hraw; [|done]. apply Hsum in Hraw'; [|done]. clear Hsum.
  rewrite checksumControl_take in Hraw, Hraw' by done.
  pose proof (lookup_lt_Some _ _ _ Hi) as Hlt. rewrite len_insert in Hlen'.
  rewrite insert_take_drop in Hraw' by done. rewrite <-(take_drop_middle _ _ _ Hi) in Hraw.
  assert (Hl1 : length (take i raw) = i) by (rewrite length_take; lia).
  set (l1 := take i raw) in *. set (l2 := drop (S i) raw) in *. clearbody l1 l2.
  destruct (decide (i < 28)%nat) as [Hlo|Hhi].
  - rewrite !take_app_ge in * by lia. unfold slice in *. rewrite !drop_app_ge in * by lia.
    replace (28 - length l1)%nat with (S (27 - length l1)) in * by lia. cbn [take drop] in *.
    rewrite <-Hraw in Hraw'. rewrite <-!app_assoc in Hraw'. cbn [app] in Hraw'.
    symmetry in Hraw'. revert Hraw'. by apply fnv_detects.
  - rewrite !take_app_le in * by lia. rewrite Hraw in Hraw'. unfold slice in *.
    rewrite !drop_app_le in * by lia. apply be_get_inj in Hraw'; [|by rewrite !length_take, !length_app].
    rewrite !take_app_ge in Hraw' by (rewrite length_drop; unfold len, ControlMessageSize in *; lia).
    apply app_inv_head in Hraw'.
    replace (32 - 28 - length (drop 28 l1))%nat with (S (31 - length l1)) in Hraw'
      by (rewrite length_drop; unfold len, ControlMessageSize in *; lia).
    cbn [take] in Hraw'. congruence.
Qed.

Lemma DecodeControl_detects_corruption_witness :
  is_ok (DecodeControl (<[22%nat := Byte.xff]> sample_raw)) = false.
Proof.
  eapply (DecodeControl_detects_corruption sample_raw sample_control);
    [vm_compute; reflexivity..|discriminate].
Defined.
