(* ===== verification/Session.v ===== *)
(** * Session state

    [src/replication/session.go]: what the server knows about one client - the
    snapshots it was sent, the tick it acknowledged, and whether the next frame
    must be full.  Frames are sent by a prepare/commit transaction guarded by a
    sequence number and a generation. *)

From stdpp Require Import base list gmap strings sorting.
From Stdlib Require Import ZArith Lia.
From S2P Require Import Prelude ReplTypes Snapshots Wire Delta Codec Datagram Control.

Local Open Scope Z_scope.

Record SessionState := mkSession {
  ss_info : SessionInfo;
  ss_ackTick : Z;
  ss_lastSent : Z;
  ss_sequence : Z;
  ss_forceFull : bool;
  ss_closed : bool;
  ss_qualityTier : Z;
  ss_sent : gmap Z Snapshot;
  ss_sentOrder : list Z;
  ss_maxHistory : Z;
  ss_generation : Z;
  ss_committed : Z;
  ss_controlSeq : Z
}.

(** Field assignments of the methods. *)
Definition set_ack (s : SessionState) (ackTick : Z) (forceFull : bool) : SessionState :=
  mkSession (ss_info s) ackTick (ss_lastSent s) (ss_sequence s) forceFull (ss_closed s)
    (ss_qualityTier s) (ss_sent s) (ss_sentOrder s) (ss_maxHistory s) (ss_generation s)
    (ss_committed s) (ss_controlSeq s).

Definition set_controlSeq (s : SessionState) (q : Z) : SessionState :=
  mkSession (ss_info s) (ss_ackTick s) (ss_lastSent s) (ss_sequence s) (ss_forceFull s)
    (ss_closed s) (ss_qualityTier s) (ss_sent s) (ss_sentOrder s) (ss_maxHistory s)
    (ss_generation s) (ss_committed s) q.

Definition set_generation (s : SessionState) (forceFull : bool) (tier g : Z) : SessionState :=
  mkSession (ss_info s) (ss_ackTick s) (ss_lastSent s) (ss_sequence s) forceFull (ss_closed s)
    tier (ss_sent s) (ss_sentOrder s) (ss_maxHistory s) g (ss_committed s) (ss_controlSeq s).

Definition set_sequence (s : SessionState) (sequence : Z) (forceFull : bool) : SessionState :=
  mkSession (ss_info s) (ss_ackTick s) (ss_lastSent s) sequence forceFull (ss_closed s)
    (ss_qualityTier s) (ss_sent s) (ss_sentOrder s) (ss_maxHistory s) (ss_generation s)
    (ss_committed s) (ss_controlSeq s).

Definition set_sent (s : SessionState) (lastSent committed : Z) (sent : gmap Z Snapshot)
    (order : list Z) (forceFull : bool) : SessionState :=
  mkSession (ss_info s) (ss_ackTick s) lastSent (ss_sequence s) forceFull (ss_closed s)
    (ss_qualityTier s) sent order (ss_maxHistory s) (ss_generation s) committed (ss_controlSeq s).

Definition set_closed (s : SessionState) : SessionState :=
  mkSession (ss_info s) (ss_ackTick s) (ss_lastSent s) (ss_sequence s) (ss_forceFull s) true
    (ss_qualityTier s) ∅ [] (ss_maxHistory s) (ss_generation s) (ss_committed s) (ss_controlSeq s).

(** A method with a pointer receiver; [None] is the nil session. *)
Definition on_session {A} (s : option SessionState) (nil : A)
    (f : SessionState -> SessionState * A) : option SessionState * A :=
  match s with
  | None => (None, nil)
  | Some s => let '(s', a) := f s in (Some s', a)
  end.

Definition NewSessionState (info : SessionInfo) : res SessionState :=
  if si_ID info =? 0 then Err ErrSessionNotFound
  else Ok (mkSession info 0 0 0 true false 0 ∅ [] 64 0 0 0).

(** The acceptance of an acknowledged tick, shared by both entry points. *)
Definition acceptAck (s : SessionState) (tick : Z) : SessionState :=
  if ss_ackTick s <? tick then set_ack s tick false else s.

Definition handleControl (s : SessionState) (message : ControlMessage) (latestPublished : Z)
    : SessionState * res unit :=
  if ss_closed s then (s, Err ErrSessionNotFound) else
  if cm_Sequence message <=? ss_controlSeq s then (s, Err ErrInvalidControl) else
  let s := set_controlSeq s (cm_Sequence message) in
  if cm_Type message =? ControlAck then
    if (cm_Tick message =? 0) || (latestPublished <? cm_Tick message)
       || (ss_lastSent s <? cm_Tick message)
    then (s, Err ErrInvalidAck) else
    match ss_sent s !! cm_Tick message with
    | None => (s, Err ErrInvalidAck)
    | Some _ => (acceptAck s (cm_Tick message), Ok tt)
    end
  else if cm_Type message =? ControlResync then
    (set_generation s true (ss_qualityTier s) (u64! (ss_generation s + 1)), Ok tt)
  else (s, Err ErrInvalidControl).

Definition Acknowledge (s : SessionState) (tick latestPublished : Z) : SessionState * res unit :=
  if (tick =? 0) || (latestPublished <? tick) then (s, Err ErrInvalidAck) else
  if ss_closed s then (s, Err ErrSessionNotFound) else
  if ss_lastSent s <? tick then (s, Err ErrInvalidAck) else
  match ss_sent s !! tick with
  | None => (s, Err ErrInvalidAck)
  | Some _ => (acceptAck s tick, Ok tt)
  end.

Definition ForceFull (s : SessionState) : SessionState :=
  if ss_closed s then s
  else set_generation s true (ss_qualityTier s) (u64! (ss_generation s + 1)).

Definition SetQualityTier (s : SessionState) (tier : Z) : SessionState * res unit :=
  if ss_closed s then (s, Err ErrSessionNotFound) else
  if negb (ss_qualityTier s =? tier)
  then (set_generation s (ss_forceFull s) tier (u64! (ss_generation s + 1)), Ok tt)
  else (s, Ok tt).

(** The results of [prepare]. *)
Record Prepared := mkPrepared {
  pr_info : SessionInfo;
  pr_qualityTier : Z;
  pr_base : option Snapshot;
  pr_previous : option Snapshot;
  pr_sequence : Z;
  pr_generation : Z;
  pr_full : bool
}.

(** [s.sequence++], skipping zero. *)
Definition nextSequence (sequence : Z) : Z :=
  let sequence := u32! (sequence + 1) in
  if sequence =? 0 then u32! (sequence + 1) else sequence.

Definition prepare (s : SessionState) (targetTick : Z) : SessionState * res Prepared :=
  if ss_closed s then (s, Err ErrSessionNotFound) else
  let sequence := nextSequence (ss_sequence s) in
  let previous := Snapshot_Clone <$> ss_sent s !! ss_lastSent s in
  let full forced :=
    (set_sequence s sequence forced,
     Ok (mkPrepared (ss_info s) (ss_qualityTier s) None previous sequence (ss_generation s) true)) in
  if negb (ss_forceFull s) && negb (ss_ackTick s =? 0) && (ss_ackTick s <? targetTick) then
    match ss_sent s !! ss_ackTick s with
    | Some base =>
        (set_sequence s sequence (ss_forceFull s),
         Ok (mkPrepared (ss_info s) (ss_qualityTier s) (Some (Snapshot_Clone base)) previous
               sequence (ss_generation s) false))
    | None => full true
    end
  else full (ss_forceFull s).

(** The loop that evicts the oldest snapshots from the history. *)
Fixpoint trimHistory (maxHistory : Z) (order : list Z) (sent : gmap Z Snapshot)
    : list Z * gmap Z Snapshot :=
  match order with
  | [] => ([], sent)
  | oldest :: rest =>
      if maxHistory <? len order then trimHistory maxHistory rest (delete oldest sent)
      else (order, sent)
  end.

Definition commitPrepared (s : SessionState) (snapshot : Snapshot) (sequence generation : Z)
    (full : bool) : SessionState * res unit :=
  if ss_closed s then (s, Err ErrSessionNotFound) else
  if negb (generation =? ss_generation s) || (sequence <=? ss_committed s)
  then (s, Err ErrPreparedFrameStale) else
  let tick := sn_Tick snapshot in
  let lastSent := if ss_lastSent s <? tick then tick else ss_lastSent s in
  let order := match ss_sent s !! tick with
               | Some _ => ss_sentOrder s
               | None => ss_sentOrder s ++ [tick]
               end in
  let '(order, sent) :=
    trimHistory (ss_maxHistory s) order (<[tick := Snapshot_Clone snapshot]> (ss_sent s)) in
  (set_sent s lastSent sequence sent order (if full then false else ss_forceFull s), Ok tt).

Record SessionSnapshot := mkSessionSnapshot {
  sv_Info : SessionInfo;
  sv_AckTick : Z;
  sv_LastSent : Z;
  sv_Sequence : Z;
  sv_ForceFull : bool;
  sv_Closed : bool;
  sv_QualityTier : Z
}.

Definition zeroInfo : SessionInfo := mkSessionInfo 0 0 0 0.

(** ** The methods *)

Definition SessionState_handleControl (s : option SessionState) (m : ControlMessage) (latest : Z) :=
  on_session s (Err ErrSessionNotFound) (fun s => handleControl s m latest).

Definition SessionState_Info (s : option SessionState) : SessionInfo :=
  match s with None => zeroInfo | Some s => ss_info s end.

Definition SessionState_Acknowledge (s : option SessionState) (tick latest : Z) :=
  on_session s (Err ErrSessionNotFound) (fun s => Acknowledge s tick latest).

Definition SessionState_ForceFull (s : option SessionState) : option SessionState :=
  ForceFull <$> s.

Definition SessionState_SetQualityTier (s : option SessionState) (tier : Z) :=
  on_session s (Err ErrSessionNotFound) (fun s => SetQualityTier s tier).

Definition SessionState_QualityTier (s : option SessionState) : Z :=
  match s with None => 0 | Some s => ss_qualityTier s end.

Definition SessionState_prepare (s : option SessionState) (targetTick : Z) :=
  on_session s (Err ErrSessionNotFound) (fun s => prepare s targetTick).

Definition SessionState_commitPrepared (s : option SessionState) (snapshot : Snapshot)
    (sequence generation : Z) (full : bool) :=
  on_session s (Err ErrSessionNotFound)
    (fun s => commitPrepared s snapshot sequence generation full).

Definition SessionState_Close (s : option SessionState) : option SessionState :=
  set_closed <$> s.

Definition SessionState_Snapshot (s : option SessionState) : SessionSnapshot :=
  match s with
  | None => mkSessionSnapshot zeroInfo 0 0 0 false false 0
  | Some s => mkSessionSnapshot (ss_info s) (ss_ackTick s) (ss_lastSent s) (ss_sequence s)
                (ss_forceFull s) (ss_closed s) (ss_qualityTier s)
  end.

(** ** Histories

    The calls of a session, and what a client and a server can remember of
    them: the snapshots committed and the ticks acknowledged. *)

Inductive session_op :=
| OpControl (m : ControlMessage) (latest : Z)
| OpAcknowledge (tick latest : Z)
| OpForceFull
| OpSetQualityTier (tier : Z)
| OpPrepare (targetTick : Z)
| OpCommit (snapshot : Snapshot) (sequence generation : Z) (full : bool)
| OpClose.

Record history := mkHistory {
  hs_commits : list Snapshot;
  hs_acks : list Z
}.

Definition add_commit (h : history) (r : res unit) (snapshot : Snapshot) : history :=
  if is_ok r then mkHistory (hs_commits h ++ [snapshot]) (hs_acks h) else h.

Definition add_ack (h : history) (r : res unit) (tick : Z) : history :=
  if is_ok r then mkHistory (hs_commits h) (hs_acks h ++ [tick]) else h.

Definition session_exec (sh : SessionState * history) (op : session_op) : SessionState * history :=
  let '(s, h) := sh in
  match op with
  | OpControl m latest =>
      let '(s', r) := handleControl s m latest in
      (s', if cm_Type m =? ControlAck then add_ack h r (cm_Tick m) else h)
  | OpAcknowledge tick latest =>
      let '(s', r) := Acknowledge s tick latest in (s', add_ack h r tick)
  | OpForceFull => (ForceFull s, h)
  | OpSetQualityTier tier => ((SetQualityTier s tier).1, h)
  | OpPrepare target => ((prepare s target).1, h)
  | OpCommit snapshot sequence generation full =>
      let '(s', r) := commitPrepared s snapshot sequence generation full in
      (s', add_commit h r snapshot)
  | OpClose => (set_closed s, h)
  end.

Definition session_run (sh : SessionState * history) (ops : list session_op)
    : SessionState * history := foldl session_exec sh ops.

(** The snapshot the server last committed for a tick. *)
Definition last_commit (h : history) (tick : Z) : option Snapshot :=
  last (filter (fun s => sn_Tick s = tick) (hs_commits h)).

#[global] Arguments last_commit : simpl never.

(** A session just created. *)
Definition fresh_session (info : SessionInfo) : SessionState :=
  mkSession info 0 0 0 true false 0 ∅ [] 64 0 0 0.

Definition wf_session_op (op : session_op) : Prop :=
  match op with
  | OpCommit snapshot sequence _ _ => 0 < sn_Tick snapshot /\ in_u 32 sequence
  | OpControl m _ => in_u 32 (cm_Sequence m)
  | _ => True
  end.

#[export] Instance wf_session_op_dec op : Decision (wf_session_op op).
Proof. destruct op; apply _. Defined.

Record session_inv (s : SessionState) (h : history) : Prop := {
  si_history : 0 < ss_maxHistory s /\ len (ss_sentOrder s) <= ss_maxHistory s;
  si_order : NoDup (ss_sentOrder s);
  si_dom : forall t, is_Some (ss_sent s !! t) <-> t ∈ ss_sentOrder s;
  si_closed : ss_closed s = true -> ss_sentOrder s = [];
  si_sent : forall t x, ss_sent s !! t = Some x -> last_commit h t = Some x;
  si_lastSent : 0 <= ss_lastSent s /\ Forall (fun x => sn_Tick x <= ss_lastSent s) (hs_commits h);
  si_ack : ss_ackTick s = 0 \/ ss_ackTick s ∈ hs_acks h;
  si_acks : Forall (fun t => t <= ss_ackTick s /\ exists x, x ∈ hs_commits h /\ sn_Tick x = t) (hs_acks h);
  si_ackLe : 0 <= ss_ackTick s <= ss_lastSent s;
  si_width : in_u 32 (ss_sequence s) /\ in_u 32 (ss_committed s) /\ in_u 64 (ss_generation s)
}.

(** ** Lemmas *)

Lemma last_commit_tick h t x : last_commit h t = Some x -> x ∈ hs_commits h /\ sn_Tick x = t.
Proof.
  unfold last_commit. intros Hl%last_Some_elem_of. apply list_elem_of_filter in Hl. tauto.
Qed.

Lemma last_commit_snoc h x t :
  last_commit (mkHistory (hs_commits h ++ [x]) (hs_acks h)) t
  = if bool_decide (sn_Tick x = t) then Some x else last_commit h t.
Proof.
  unfold last_commit; cbn. rewrite filter_app, filter_cons, filter_nil.
  case_bool_decide; rewrite ?decide_True, ?decide_False by done; [apply last_snoc|].
  by rewrite app_nil_r.
Qed.

(** Trimming keeps the newest ticks, and drops exactly the rest from the map. *)
Lemma trimHistory_spec m order sent order' sent' :
  0 < m -> NoDup order -> trimHistory m order sent = (order', sent') ->
  exists dropped, order = dropped ++ order' /\ len order' <= m
    /\ forall t, sent' !! t = if bool_decide (t ∈ dropped) then None else sent !! t.
Proof.
  intros Hm. revert sent. induction order as [|o order IH]; intros sent Hnd.
  { cbn. intros [= <- <-]. exists []. rewrite len_nil. split_and!; [done|lia|done]. }
  apply NoDup_cons in Hnd as [Ho Hnd]. cbn [trimHistory].
  destruct (Z.ltb_spec m (len (o :: order))) as [Hlt|Hle].
  - intros Htrim. destruct (IH _ Hnd Htrim) as (dropped & -> & Hlen & Hlook).
    exists (o :: dropped). split_and!; [done|done|]. intros t. rewrite Hlook.
    destruct (decide (t = o)) as [->|Hne].
    + rewrite (bool_decide_eq_true_2 (o ∈ o :: dropped)) by left.
      case_bool_decide; [done|by rewrite lookup_delete_eq].
    + rewrite (bool_decide_ext (t ∈ o :: dropped) (t ∈ dropped)) by (rewrite elem_of_cons; tauto).
      by rewrite lookup_delete_ne by done.
  - intros [= <- <-]. exists []. split_and!; [done|done|]. intros t.
    by rewrite bool_decide_eq_false_2 by apply not_elem_of_nil.
Qed.

(** An accepted acknowledgement of a committed tick. *)
Lemma acceptAck_inv s h tick :
  session_inv s h -> is_Some (ss_sent s !! tick) -> tick <= ss_lastSent s ->
  session_inv (acceptAck s tick) (mkHistory (hs_commits h) (hs_acks h ++ [tick])).
Proof.
  intros [Hh Ho Hd Hc Hs Hl Ha Has Hle Hw] [x Hx] Hlast.
  pose proof (Hs _ _ Hx) as Hlc. apply last_commit_tick in Hlc as [Hin Htick].
  unfold acceptAck. destruct (Z.ltb_spec (ss_ackTick s) tick) as [Hlt|Hge].
  - split; cbn; try done; [right; set_solver| |lia].
    apply Forall_app. split; [|repeat constructor; [lia|by exists x]].
    eapply Forall_impl; [exact Has|]. intros t [? ?]. split; [lia|done].
  - split; cbn; try done; [destruct Ha; [by left|right; set_solver]|].
    apply Forall_app. split; [done|]. repeat constructor; [lia|by exists x].
Qed.

Lemma commitPrepared_inv s h snapshot sequence generation full s' :
  session_inv s h -> 0 < sn_Tick snapshot -> in_u 32 sequence ->
  commitPrepared s snapshot sequence generation full = (s', Ok tt) ->
  session_inv s' (mkHistory (hs_commits h ++ [snapshot]) (hs_acks h)).
Proof.
  intros [[Hh0 Hh] Ho Hd Hc Hs Hl Ha Has Hle Hw] Htick Hseq. unfold commitPrepared.
  destruct (ss_closed s) eqn:Hcl; [done|]. destruct (_ || _) eqn:Hguard; [done|].
  set (tick := sn_Tick snapshot) in *. rewrite Snapshot_Clone_id.
  set (order0 := match ss_sent s !! tick with Some _ => ss_sentOrder s
                 | None => ss_sentOrder s ++ [tick] end).
  assert (Ho0 : NoDup order0 /\ forall t, t ∈ order0 <-> t ∈ ss_sentOrder s \/ t = tick).
  { unfold order0. destruct (ss_sent s !! tick) as [y|] eqn:Hy.
    - assert (tick ∈ ss_sentOrder s) by (apply Hd; by exists y). split; [done|]. intros t.
      split; [tauto|]. by intros [?| ->].
    - assert (tick ∉ ss_sentOrder s).
      { intros Hin. apply Hd in Hin as [y Hy']. congruence. }
      split; [|intros t; rewrite elem_of_app, list_elem_of_singleton; tauto].
      apply NoDup_app. split_and!; [done| |apply NoDup_singleton].
      intros t Ht ->%list_elem_of_singleton. done. }
  destruct Ho0 as [Hnd Hmem].
  destruct (trimHistory _ order0 _) as [order' sent'] eqn:Htrim.
  destruct (trimHistory_spec _ _ _ _ _ Hh0 Hnd Htrim) as (dropped & Heq & Hlen & Hlook).
  intros [= <-]. rewrite Heq in Hnd. apply NoDup_app in Hnd as (_ & Hdisj & Hnd').
  set (lastSent := if ss_lastSent s <? tick then tick else ss_lastSent s).
  assert (Hlast : ss_lastSent s <= lastSent /\ tick <= lastSent).
  { unfold lastSent. destruct (Z.ltb_spec (ss_lastSent s) tick); lia. }
  split; cbn.
  - done.
  - done.
  - intros t. rewrite Hlook. case_bool_decide as Hdr.
    + split; [by intros [??]|]. intros Hin. by destruct (Hdisj t Hdr).
    + assert (Hto : t ∈ order' <-> t ∈ order0) by (rewrite Heq, elem_of_app; tauto).
      rewrite Hto, Hmem, <-Hd. destruct (decide (t = tick)) as [->|Hne].
      * rewrite lookup_insert_eq. split; [by right|by eexists].
      * rewrite lookup_insert_ne by done. split; [by left|]. by intros [?|?].
  - congruence.
  - intros t x. rewrite Hlook. case_bool_decide; [done|].
    rewrite last_commit_snoc. fold tick. intros [[<- <-]|[Hne Hx]]%lookup_insert_Some.
    + by rewrite bool_decide_eq_true_2.
    + rewrite bool_decide_eq_false_2 by done. by apply Hs.
  - split; [lia|]. apply Forall_app. split; [|repeat constructor; fold tick; lia].
    eapply Forall_impl; [apply Hl|]. cbn. lia.
  - done.
  - eapply Forall_impl; [exact Has|]. intros t (? & x & Hx & ?). split; [done|].
    exists x. split; [|done]. apply elem_of_app. by left.
  - lia.
  - destruct Hw as (? & ? & ?). done.
Qed.

(** Changes of fields the invariant does not relate to the history. *)
Lemma session_inv_frame s s' h :
  session_inv s h ->
  ss_maxHistory s' = ss_maxHistory s -> ss_sentOrder s' = ss_sentOrder s ->
  ss_sent s' = ss_sent s -> ss_closed s' = ss_closed s -> ss_lastSent s' = ss_lastSent s ->
  ss_ackTick s' = ss_ackTick s ->
  in_u 32 (ss_sequence s') -> in_u 32 (ss_committed s') -> in_u 64 (ss_generation s') ->
  session_inv s' h.
Proof.
  intros [Hh Ho Hd Hc Hs Hl Ha Has Hle Hw] H1 H2 H3 H4 H5 H6 ???.
  split; rewrite ?H1, ?H2, ?H3, ?H4, ?H5, ?H6; try done.
Qed.

Lemma nextSequence_range q : in_u 32 (nextSequence q).
Proof. unfold nextSequence. case_match; by apply wrapu_range. Qed.

Lemma nextSequence_nonzero q : in_u 32 q -> nextSequence q <> 0.
Proof. unfold nextSequence. destruct (Z.eqb_spec (u32! (q + 1)) 0) as [->|]; done. Qed.

Lemma fresh_session_inv info : session_inv (fresh_session info) (mkHistory [] []).
Proof.
  split; cbn; try done; [constructor| |by left].
  intros t. rewrite lookup_empty. split; [by intros [??]|by intros ?%not_elem_of_nil].
Qed.

Ltac frame_inv Hinv :=
  apply (session_inv_frame _ _ _ Hinv);
  try done; try (by apply (si_width _ _ Hinv)); try apply nextSequence_range;
  try (by apply wrapu_range).

Lemma session_exec_inv s h op :
  session_inv s h -> wf_session_op op ->
  session_inv (session_exec (s, h) op).1 (session_exec (s, h) op).2.
Proof.
  intros Hinv Hop.
  destruct op as [m latest|tick latest| |tier|target|snapshot sequence generation full|];
    cbn [session_exec].
  - unfold handleControl. destruct (ss_closed s); [cbn; by case_match|].
    destruct (_ <=? _); [cbn; by case_match|].
    set (s1 := set_controlSeq s (cm_Sequence m)).
    assert (H1 : session_inv s1 h) by frame_inv Hinv.
    destruct (cm_Type m =? ControlAck).
    + destruct (_ || _) eqn:Hguard; [done|]. bool_to_prop.
      destruct (ss_sent s1 !! cm_Tick m) eqn:Hx; [|done].
      apply acceptAck_inv; [done|by eexists|lia].
    + destruct (cm_Type m =? ControlResync); [|done]. cbn. frame_inv H1.
  - unfold Acknowledge. destruct (_ || _) eqn:Hguard; [done|].
    destruct (ss_closed s); [done|]. destruct (Z.ltb_spec (ss_lastSent s) tick); [done|].
    destruct (ss_sent s !! tick) eqn:Hx; [|done].
    apply acceptAck_inv; [done|by eexists|lia].
  - unfold ForceFull. destruct (ss_closed s) eqn:Hc; [done|]. cbn. frame_inv Hinv.
  - unfold SetQualityTier. destruct (ss_closed s) eqn:Hc; [done|].
    destruct (negb _); [|done]. cbn. frame_inv Hinv.
  - unfold prepare. destruct (ss_closed s) eqn:Hc; [done|].
    destruct (_ && _); [destruct (ss_sent s !! ss_ackTick s)|]; cbn; frame_inv Hinv.
  - destruct (commitPrepared _ _ _ _ _) as [s' [[]|e]] eqn:Hcommit.
    + cbn. destruct Hop. by eapply commitPrepared_inv.
    + revert Hcommit. unfold commitPrepared. destruct (ss_closed s); [by intros [= <- <-]|].
      destruct (_ || _); [by intros [= <- <-]|]. by destruct (trimHistory _ _ _).
  - destruct Hinv as [Hh Ho Hd Hc Hs Hl Ha Has Hle Hw]. split; cbn; try done; [|constructor|].
    + destruct Hh. split; [done|]. unfold len. cbn. lia.
    + intros t. rewrite lookup_empty. split; [by intros [??]|by intros ?%not_elem_of_nil].
Qed.

Lemma session_run_inv s h ops :
  session_inv s h -> Forall wf_session_op ops ->
  session_inv (session_run (s, h) ops).1 (session_run (s, h) ops).2.
Proof.
  intros Hinv Hops. revert s h Hinv. induction Hops as [|op ops Hop Hops IH]; intros s h Hinv; [done|].
  cbn [session_run foldl]. pose proof (session_exec_inv s h op Hinv Hop) as Hs.
  destruct (session_exec (s, h) op) as [s' h']. by apply IH.
Qed.

(** What [prepare] returns, in terms of the state. *)
Lemma prepare_ok s target p s' :
  prepare s target = (s', Ok p) ->
  ss_closed s = false /\ pr_info p = ss_info s /\ pr_generation p = ss_generation s
  /\ pr_sequence p = nextSequence (ss_sequence s)
  /\ pr_previous p = ss_sent s !! ss_lastSent s /\ ss_generation s' = ss_generation s
  /\ ((pr_full p = true /\ pr_base p = None)
      \/ (pr_full p = false /\ ss_forceFull s = false /\ ss_ackTick s <> 0 /\ ss_ackTick s < target
          /\ exists b, pr_base p = Some b /\ ss_sent s !! ss_ackTick s = Some b)).
Proof.
  unfold prepare. destruct (ss_closed s); [done|].
  assert (Hprev : Snapshot_Clone <$> ss_sent s !! ss_lastSent s = ss_sent s !! ss_lastSent s).
  { destruct (ss_sent s !! ss_lastSent s); cbn; [by rewrite Snapshot_Clone_id|done]. }
  rewrite Hprev.
  destruct (_ && _ && _) eqn:Hguard; [destruct (ss_sent s !! ss_ackTick s) as [b|] eqn:Hb|];
    intros [= <- <-]; cbn; rewrite ?Snapshot_Clone_id; split_and!; try done; try (by left).
  right. bool_to_prop. split_and!; try done. by exists b.
Qed.

(** ** Lemmas: what never goes back *)

Record session_le (s s' : SessionState) : Prop := {
  le_ack : ss_ackTick s <= ss_ackTick s';
  le_sent : ss_lastSent s <= ss_lastSent s';
  le_committed : ss_committed s <= ss_committed s';
  le_control : ss_controlSeq s <= ss_controlSeq s';
  le_closed : ss_closed s = true -> ss_closed s' = true;
  le_info : ss_info s' = ss_info s
}.

#[export] Instance session_le_preorder : PreOrder session_le.
Proof.
  split; [intros s; by split|]. intros s1 s2 s3 [] []. split; try lia; [auto|congruence].
Qed.

Lemma acceptAck_le s tick : session_le s (acceptAck s tick).
Proof. unfold acceptAck. destruct (Z.ltb_spec (ss_ackTick s) tick); split; cbn; try done; lia. Qed.

Lemma commitPrepared_le s snapshot sequence generation full :
  session_le s (commitPrepared s snapshot sequence generation full).1.
Proof.
  unfold commitPrepared. destruct (ss_closed s) eqn:Hc; [done|].
  destruct (_ || _) eqn:Hguard; [done|]. bool_to_prop.
  destruct (trimHistory _ _ _). split; cbn; try done; [|lia].
  destruct (Z.ltb_spec (ss_lastSent s) (sn_Tick snapshot)); lia.
Qed.

Lemma handleControl_le s m latest : session_le s (handleControl s m latest).1.
Proof.
  unfold handleControl. destruct (ss_closed s) eqn:Hc; [done|].
  destruct (Z.leb_spec (cm_Sequence m) (ss_controlSeq s)); [done|].
  assert (H1 : session_le s (set_controlSeq s (cm_Sequence m))) by (split; cbn; try done; lia).
  repeat case_match; cbn [fst]; try done.
  - etransitivity; [exact H1|apply acceptAck_le].
  - etransitivity; [exact H1|]. by split.
Qed.

Lemma session_exec_le s h op : session_le s (session_exec (s, h) op).1.
Proof.
  destruct op as [m latest|tick latest| |tier|target|snapshot sequence generation full|];
    cbn [session_exec].
  - pose proof (handleControl_le s m latest). by destruct (handleControl s m latest).
  - unfold Acknowledge. repeat case_match; cbn [fst]; simplify_eq/=; try done. apply acceptAck_le.
  - unfold ForceFull. case_match; [done|]. by split.
  - unfold SetQualityTier. repeat case_match; cbn; try done; by split.
  - unfold prepare. repeat case_match; cbn; try done; by split.
  - pose proof (commitPrepared_le s snapshot sequence generation full).
    by destruct (commitPrepared s snapshot sequence generation full).
  - by split.
Qed.

Lemma session_run_le s h ops : session_le s (session_run (s, h) ops).1.
Proof.
  revert s h. induction ops as [|op ops IH]; intros s h; [done|].
  cbn [session_run foldl]. pose proof (session_exec_le s h op) as Hle.
  destruct (session_exec (s, h) op) as [s' h']. etransitivity; [exact Hle|]. apply IH.
Qed.

(** ** Lemmas: generations *)

Lemma session_exec_generation s h op :
  let g' := ss_generation (session_exec (s, h) op).1 in
  g' = ss_generation s \/ g' = u64! (ss_generation s + 1).
Proof.
  destruct op as [m latest|tick latest| |tier|target|snapshot sequence generation full|];
    cbn [session_exec].
  - unfold handleControl, acceptAck. repeat case_match; simplify_eq/=; auto.
  - unfold Acknowledge, acceptAck. repeat case_match; simplify_eq/=; auto.
  - unfold ForceFull. case_match; cbn; auto.
  - unfold SetQualityTier. repeat case_match; cbn; auto.
  - unfold prepare. repeat case_match; cbn; auto.
  - unfold commitPrepared. repeat case_match; simplify_eq/=; auto.
  - by left.
Qed.

(** The number of steps of a run that changed the generation. *)
Fixpoint bumps (sh : SessionState * history) (ops : list session_op) : Z :=
  match ops with
  | [] => 0
  | op :: ops' =>
      let sh' := session_exec sh op in
      (if ss_generation sh'.1 =? ss_generation sh.1 then 0 else 1) + bumps sh' ops'
  end.

Lemma wrapu64_add a b : u64! (u64! a + b) = u64! (a + b).
Proof. unfold wrapu. by rewrite Zplus_mod_idemp_l. Qed.

Lemma bumps_generation s h ops :
  in_u 64 (ss_generation s) ->
  ss_generation (session_run (s, h) ops).1 = u64! (ss_generation s + bumps (s, h) ops)
  /\ 0 <= bumps (s, h) ops <= len ops.
Proof.
  revert s h. induction ops as [|op ops IH]; intros s h Hg; cbn [session_run foldl bumps].
  { rewrite Z.add_0_r, wrapu_small by done. split; [done|]. unfold len. cbn. lia. }
  pose proof (session_exec_generation s h op) as Hexec. cbv zeta in Hexec. rewrite len_cons.
  destruct (session_exec (s, h) op) as [s' h']. cbn [fst] in *.
  destruct (Z.eqb_spec (ss_generation s') (ss_generation s)) as [Heq|Hne].
  - rewrite <-Heq in Hg |- *. destruct (IH s' h' Hg) as [Hrun Hb].
    unfold session_run in Hrun. rewrite Hrun. split; [f_equal; lia|lia].
  - destruct Hexec as [|Hexec]; [done|].
    destruct (IH s' h') as [Hrun Hb]; [rewrite Hexec; by apply wrapu_range|].
    unfold session_run in Hrun. rewrite Hrun, Hexec, wrapu64_add. split; [f_equal; lia|lia].
Qed.

Lemma wrapu64_moved g n : in_u 64 g -> 0 < n < 2 ^ 64 -> u64! (g + n) <> g.
Proof.
  unfold wrapu, in_u. intros Hg Hn Heq.
  destruct (Z_lt_le_dec (g + n) (2 ^ 64)) as [Hlt|Hge].
  - rewrite Z.mod_small in Heq; lia.
  - pose proof (Z.mod_add (g + n - 2 ^ 64) 1 (2 ^ 64) ltac:(lia)) as Hmod.
    replace (g + n - 2 ^ 64 + 1 * 2 ^ 64) with (g + n) in Hmod by lia.
    rewrite (Z.mod_small (g + n - 2 ^ 64)) in Hmod by lia. lia.
Qed.

(** ** Properties *)

Definition sample_info : SessionInfo := mkSessionInfo 4 0 0 0.

Definition sample_start : SessionState * history := (fresh_session sample_info, mkHistory [] []).

(** A session that was sent [sample_snapshot] (tick 5), which the client
    acknowledged. *)
Definition sample_ops : list session_op :=
  [OpPrepare 5; OpCommit sample_snapshot 1 0 true; OpAcknowledge 5 5].

(** C13. Whatever calls a session receives, its bookkeeping stays consistent: the
    history holds at most [maxHistory] snapshots, once each and exactly those
    in the sending order; every one is the snapshot last committed for its
    tick; and the acknowledged tick is the newest one acknowledged, of a frame
    that was committed. *)
Theorem SessionState_consistent info ops :
  Forall wf_session_op ops ->
  let '(s, h) := session_run (fresh_session info, mkHistory [] []) ops in
  session_inv s h.
Proof.
  intros Hops. pose proof (session_run_inv _ _ ops (fresh_session_inv info) Hops) as Hinv.
  by destruct (session_run _ ops).
Qed.

Lemma SessionState_consistent_witness :
  let '(s, h) := session_run sample_start sample_ops in session_inv s h.
Proof.
  apply (SessionState_consistent sample_info). apply (bool_decide_eq_true_1 (Forall wf_session_op _)).
  vm_compute. reflexivity.
Defined.

(** The baseline of a delta frame is sound: [prepare] asks for a delta only
    against the snapshot last committed for the newest tick the client has
    acknowledged, which precedes the target; in every other case (nothing
    acknowledged, a forced full frame, the acknowledged snapshot evicted) it
    asks for a full frame without a baseline. *)
Theorem SessionState_prepare_baseline info ops target s h s' p :
  Forall wf_session_op ops ->
  session_run (fresh_session info, mkHistory [] []) ops = (s, h) ->
  prepare s target = (s', Ok p) ->
  (pr_full p = true /\ pr_base p = None)
  \/ exists b, pr_full p = false /\ pr_base p = Some b
     /\ last_commit h (sn_Tick b) = Some b /\ sn_Tick b ∈ hs_acks h
     /\ Forall (fun t => t <= sn_Tick b) (hs_acks h) /\ 0 < sn_Tick b < target.
Proof.
  intros Hops Hrun (_ & _ & _ & _ & _ & _ & Hbase)%prepare_ok.
  pose proof (session_run_inv _ _ ops (fresh_session_inv info) Hops) as Hinv.
  rewrite Hrun in Hinv. destruct Hinv as [_ _ _ _ Hs _ Ha Has Hle _].
  destruct Hbase as [?|(Hf & _ & Hne & Hlt & b & Hb & Hsent)]; [by left|right].
  exists b. pose proof (Hs _ _ Hsent) as Hlc. destruct (last_commit_tick _ _ _ Hlc) as [_ Ht].
  rewrite Ht. destruct Ha as [|Ha]; [done|]. split_and!; try done; [|cbn in Hle; lia].
  eapply Forall_impl; [exact Has|]. intros t [? _]. done.
Qed.

Lemma SessionState_prepare_baseline_witness :
  exists s' p, prepare (session_run sample_start sample_ops).1 6 = (s', Ok p)
    /\ exists b, pr_full p = false /\ pr_base p = Some b /\ b = sample_snapshot.
Proof.
  destruct (prepare (session_run sample_start sample_ops).1 6) as [s' [p|e]] eqn:Hp;
    [|vm_compute in Hp; discriminate Hp].
  exists s', p. split; [reflexivity|].
  destruct (SessionState_prepare_baseline sample_info sample_ops 6
    (session_run sample_start sample_ops).1 (session_run sample_start sample_ops).2 s' p)
    as [[Hfull _]|(b & Hf & Hb & Hlc & _)].
  - apply (bool_decide_eq_true_1 (Forall wf_session_op _)). vm_compute. reflexivity.
  - unfold sample_start. destruct (session_run _ _). reflexivity.
  - exact Hp.
  - vm_compute in Hp. injection Hp as _ <-. discriminate Hfull.
  - exists b. split; [exact Hf|]. split; [exact Hb|].
    vm_compute in Hp. injection Hp as _ <-. cbn in Hb. injection Hb as <-. vm_compute. reflexivity.
Defined.

(** A prepared frame is invalidated by a forced full frame, a resync or a
    change of quality tier between its preparation and its commit (fewer than
    2^64 calls later): the commit reports staleness, or the closed session,
    and changes nothing. *)
Theorem SessionState_commit_stale s h target s1 p ops snapshot :
  in_u 64 (ss_generation s) -> prepare s target = (s1, Ok p) ->
  len ops < 2 ^ 64 -> OpForceFull ∈ ops \/ 0 < bumps (s1, h) ops ->
  let s2 := (session_run (s1, h) ops).1 in
  exists e, commitPrepared s2 snapshot (pr_sequence p) (pr_generation p) (pr_full p) = (s2, Err e)
    /\ (e = ErrPreparedFrameStale \/ e = ErrSessionNotFound).
Proof.
  intros Hg (_ & _ & Hpg & _ & _ & Hg1 & _)%prepare_ok Hlen Hbump s2.
  assert (Hclosed : ss_closed s2 = true \/ 0 < bumps (s1, h) ops).
  { destruct Hbump as [Hin|]; [|by right].
    apply list_elem_of_split in Hin as (ops1 & ops2 & ->).
    assert (Hb : forall sh os, ss_closed sh.1 = false -> in_u 64 (ss_generation sh.1) ->
      0 < bumps sh (OpForceFull :: os)).
    { intros [x hx] os Hx Hgx. cbn [bumps session_exec fst]. unfold ForceFull. cbn in Hx, Hgx.
      rewrite Hx. cbn [ss_generation set_generation].
      rewrite (proj2 (Z.eqb_neq _ _)) by (apply wrapu64_moved; [done|lia]).
      match goal with |- context [bumps (?a, ?b) os] =>
        destruct (bumps_generation a b os) as [_ ?]; [by apply wrapu_range|lia] end. }
    assert (Happ : forall sh os os', bumps sh (os ++ os') = bumps sh os + bumps (session_run sh os) os').
    { intros sh os. revert sh. induction os as [|o os IH]; intros sh os'; [done|].
      cbn [bumps app session_run foldl]. rewrite IH. unfold session_run. lia. }
    destruct (ss_closed (session_run (s1, h) ops1).1) eqn:Hc.
    - left. subst s2. unfold session_run. rewrite foldl_app. fold (session_run (s1, h) ops1).
      destruct (session_run (s1, h) ops1) as [x hx].
      by apply (le_closed _ _ (session_run_le x hx (OpForceFull :: ops2))).
    - right. rewrite Happ. destruct (bumps_generation s1 h ops1) as [Hgr Hb1]; [congruence|].
      assert (0 < bumps (session_run (s1, h) ops1) (OpForceFull :: ops2)); [|lia].
      apply Hb; [done|]. rewrite Hgr. by apply wrapu_range. }
  unfold commitPrepared. destruct (ss_closed s2) eqn:Hc; [eauto|].
  destruct Hclosed as [|Hpos]; [done|].
  destruct (bumps_generation s1 h ops) as [Hgr Hb]; [congruence|]. fold s2 in Hgr.
  rewrite (proj2 (Z.eqb_neq (pr_generation p) (ss_generation s2))); [cbn; eauto|].
  rewrite Hgr, Hg1, Hpg. intros Heq. symmetry in Heq. revert Heq. apply wrapu64_moved; [done|lia].
Qed.

Lemma SessionState_commit_stale_witness :
  let '(s, h) := session_run sample_start sample_ops in
  exists s1 p, prepare s 6 = (s1, Ok p)
    /\ (commitPrepared (ForceFull s1) next_snapshot (pr_sequence p) (pr_generation p) (pr_full p)).2
       = Err ErrPreparedFrameStale.
Proof.
  destruct (session_run sample_start sample_ops) as [s h] eqn:Hrun.
  destruct (prepare s 6) as [s1 [p|e]] eqn:Hp.
  - exists s1, p. split; [reflexivity|].
    destruct (SessionState_commit_stale s h 6 s1 p [OpForceFull] next_snapshot) as (e & He & He').
    + vm_compute in Hrun. injection Hrun as <- _. split; vm_compute; [discriminate|reflexivity].
    + exact Hp.
    + vm_compute. reflexivity.
    + left. left.
    + change (session_run (s1, h) [OpForceFull]).1 with (ForceFull s1) in He. rewrite He. cbn [snd].
      destruct He' as [->| ->]; [reflexivity|].
      vm_compute in Hrun. injection Hrun as <- _. vm_compute in Hp. injection Hp as <- <-.
      vm_compute in He. discriminate He.
  - vm_compute in Hrun. injection Hrun as <- _. vm_compute in Hp. discriminate Hp.
Defined.

(** Commits are accepted at most once and in the order of preparation: after a
    commit of a sequence number, and whatever happens next, a commit of the
    same or an earlier number is rejected and changes nothing. *)
Theorem SessionState_commit_once s h snapshot sequence generation full s1 ops snapshot' q g' full' :
  commitPrepared s snapshot sequence generation full = (s1, Ok tt) -> q <= sequence ->
  let s2 := (session_run (s1, h) ops).1 in
  exists e, commitPrepared s2 snapshot' q g' full' = (s2, Err e).
Proof.
  intros Hcommit Hq s2.
  assert (Hs1 : ss_committed s1 = sequence).
  { revert Hcommit. unfold commitPrepared. destruct (ss_closed s); [done|].
    destruct (_ || _); [done|]. destruct (trimHistory _ _ _). by intros [= <-]. }
  pose proof (le_committed _ _ (session_run_le s1 h ops)) as Hle. fold s2 in Hle.
  unfold commitPrepared. destruct (ss_closed s2); [eauto|].
  rewrite (proj2 (Z.leb_le q (ss_committed s2))) by lia. rewrite orb_true_r. eauto.
Qed.

Lemma SessionState_commit_once_witness :
  exists e, (commitPrepared (session_run sample_start sample_ops).1 next_snapshot 1 0 false).2 = Err e.
Proof.
  destruct (SessionState_commit_once (prepare (fresh_session sample_info) 5).1 (mkHistory [] [])
    sample_snapshot 1 0 true
    (commitPrepared (prepare (fresh_session sample_info) 5).1 sample_snapshot 1 0 true).1
    [OpAcknowledge 5 5] next_snapshot 1 0 false) as [e He].
  - vm_compute. reflexivity.
  - lia.
  - exists e. exact (f_equal snd He).
Defined.

(** Control messages cannot be replayed or reordered: once a message was
    processed, a message with the same or an earlier sequence number is
    rejected after any further calls, and changes nothing. *)
Theorem SessionState_control_replay s h m latest ops m' latest' :
  ss_closed s = false -> ss_controlSeq s < cm_Sequence m -> cm_Sequence m' <= cm_Sequence m ->
  let s1 := (handleControl s m latest).1 in
  let s2 := (session_run (s1, h) ops).1 in
  ss_controlSeq s1 = cm_Sequence m
  /\ exists e, handleControl s2 m' latest' = (s2, Err e).
Proof.
  intros Hopen Hnew Hold s1 s2.
  assert (Hs1 : ss_controlSeq s1 = cm_Sequence m).
  { subst s1. unfold handleControl. rewrite Hopen, (proj2 (Z.leb_gt _ _)) by lia.
    repeat case_match; cbn; try done. unfold acceptAck. by case_match. }
  split; [done|]. pose proof (le_control _ _ (session_run_le s1 h ops)) as Hle. fold s2 in Hle.
  unfold handleControl. destruct (ss_closed s2); [eauto|].
  rewrite (proj2 (Z.leb_le (cm_Sequence m') (ss_controlSeq s2))) by lia. eauto.
Qed.

Lemma SessionState_control_replay_witness :
  let s := (session_run sample_start sample_ops).1 in
  exists e, (handleControl (handleControl s sample_control 6).1 sample_control 6).2 = Err e.
Proof.
  intros s.
  destruct (SessionState_control_replay s (mkHistory [] []) sample_control 6 [] sample_control 6)
    as [_ [e He]]; [vm_compute; reflexivity..|lia|].
  exists e. exact (f_equal snd He).
Defined.

(** Ticks, the committed sequence and the control sequence never go back, and
    a closed session stays closed. *)
Theorem SessionState_monotone s h ops :
  let s' := (session_run (s, h) ops).1 in
  ss_ackTick s <= ss_ackTick s' /\ ss_lastSent s <= ss_lastSent s'
  /\ ss_committed s <= ss_committed s' /\ ss_controlSeq s <= ss_controlSeq s'
  /\ (ss_closed s = true -> ss_closed s' = true) /\ ss_info s' = ss_info s.
Proof. intros s'. destruct (session_run_le s h ops). by split_and!. Qed.

(** A forced full frame can be lost: when the acknowledgement of an earlier
    frame arrives after [ForceFull] and before the next frame, it clears the
    flag and the next frame is a delta. *)
Theorem SessionState_ack_cancels_ForceFull :
  let ops := [OpPrepare 5; OpCommit sample_snapshot 1 0 true; OpForceFull] in
  let s := (session_run sample_start ops).1 in
  ss_forceFull s = true
  /\ exists s' p, prepare (Acknowledge s 5 5).1 6 = (s', Ok p) /\ pr_full p = false.
Proof. vm_compute. split; [reflexivity|]. eexists _, _. split; reflexivity. Qed.

(** A tick that was committed twice with different contents makes an
    acknowledgement ambiguous: the client below received only the first
    projection [a] of tick 5 and acknowledged it; the server takes the second
    one [b] as baseline, and the delta it sends makes the client compute
    another snapshot than the server's, without an error. *)
Theorem SessionState_recommit_diverges :
  let snap tick x := mkSnapshot (mkMeta 7 1 tick 2) [mkObject (mkRef 1 1) 3 [mkComponent 2 1 [x]]] in
  let a := snap 5 Byte.x01 in
  let b := snap 5 Byte.x02 in
  let c := snap 6 Byte.x02 in
  let ops := [OpPrepare 5; OpCommit a 1 0 true; OpSetQualityTier 1; OpPrepare 5;
              OpCommit b 2 1 true; OpAcknowledge 5 5] in
  exists s' p frame client,
    prepare (session_run sample_start ops).1 6 = (s', Ok p)
    /\ BuildDelta (pr_base p) c = Ok frame
    /\ ApplyDelta (Some a) frame DefaultLimits = Ok client /\ client <> c.
Proof.
  eexists _, _, _, _. split; [vm_compute; reflexivity|]. split; [vm_compute; reflexivity|].
  split; [vm_compute; reflexivity|]. discriminate.
Qed.

(** When the sequence number wraps around, no frame can be committed any more:
    the numbers handed out start again from one and are all older than the
    last one committed. *)
Theorem SessionState_sequence_wrap s target s1 p snapshot :
  ss_sequence s = 2 ^ 32 - 1 -> ss_committed s = 2 ^ 32 - 1 ->
  prepare s target = (s1, Ok p) ->
  pr_sequence p = 1
  /\ commitPrepared s1 snapshot (pr_sequence p) (pr_generation p) (pr_full p)
     = (s1, Err ErrPreparedFrameStale).
Proof.
  intros Hq Hc Hp. pose proof (prepare_ok _ _ _ _ Hp) as (Hopen & _ & Hg & Hseq & _ & Hg1 & _).
  assert (Hs1 : pr_sequence p = 1) by (rewrite Hseq, Hq; by vm_compute).
  split; [done|]. assert (ss_closed s1 = false /\ ss_committed s1 = 2 ^ 32 - 1) as [Hcl Hco].
  { revert Hp. unfold prepare. rewrite Hopen. repeat case_match; intros [= <- <-]; cbn; done. }
  unfold commitPrepared. rewrite Hcl, Hs1, Hco, (proj2 (Z.leb_le 1 _)) by lia.
  by rewrite orb_true_r.
Qed.

Lemma SessionState_sequence_wrap_witness :
  let s := mkSession sample_info 0 0 (2 ^ 32 - 1) true false 0 ∅ [] 64 0 (2 ^ 32 - 1) 0 in
  exists s1 p, prepare s 5 = (s1, Ok p)
    /\ (commitPrepared s1 sample_snapshot (pr_sequence p) (pr_generation p) (pr_full p)).2
       = Err ErrPreparedFrameStale.
Proof.
  intros s. eexists _, _. split; [vm_compute; reflexivity|].
  match goal with |- (commitPrepared ?s1 _ (pr_sequence ?p) _ _).2 = _ =>
    destruct (SessionState_sequence_wrap s 5 s1 p sample_snapshot) as [_ H] end;
    [reflexivity|reflexivity|vm_compute; reflexivity|].
  exact (f_equal snd H).
Defined.
