(* ===== verification/Shadow.v ===== *)
(** * The shadow store

    [src/replication/shadow.go]: the replication-only copy of business state
    that snapshots are captured from. *)

From stdpp Require Import base list gmap strings sorting.
From Stdlib Require Import ZArith Lia.
From S2P Require Import Prelude ReplTypes Snapshots.

Local Open Scope Z_scope.

Record shadowObject := mkShadow {
  so_archetype : Z;
  so_components : gmap Z ComponentState
}.

Record ShadowStore := mkStore {
  st_limits : Limits;
  st_objects : gmap ObjectRef shadowObject
}.

Definition set_objects (s : ShadowStore) (m : gmap ObjectRef shadowObject) : ShadowStore :=
  mkStore (st_limits s) m.

Definition NewShadowStore (limits : Limits) : ShadowStore := mkStore (normalizeLimits limits) ∅.

(** The methods return the new store; [None] is the nil store. *)
Definition ShadowStore_UpsertObject (s : option ShadowStore) (ref : ObjectRef) (archetype : Z)
    : res ShadowStore :=
  match s with
  | None => Err ErrInvalidObjectRef
  | Some s =>
      if negb (ObjectRef_Valid ref) || (archetype =? 0) then Err ErrInvalidObjectRef else
      match st_objects s !! ref with
      | Some obj =>
          Ok (set_objects s (<[ref := mkShadow archetype (so_components obj)]> (st_objects s)))
      | None =>
          if MaxObjects (st_limits s) <=? Z.of_nat (size (st_objects s)) then Err ErrObjectLimit
          else Ok (set_objects s (<[ref := mkShadow archetype ∅]> (st_objects s)))
      end
  end.

Definition ShadowStore_RemoveObject (s : option ShadowStore) (ref : ObjectRef)
    : option ShadowStore * bool :=
  match s with
  | None => (None, false)
  | Some s =>
      if negb (ObjectRef_Valid ref) then (Some s, false) else
      (Some (set_objects s (delete ref (st_objects s))), bool_decide (is_Some (st_objects s !! ref)))
  end.

Definition ShadowStore_SetComponent (s : option ShadowStore) (ref : ObjectRef)
    (component : ComponentState) : res ShadowStore :=
  match s with
  | None => Err ErrInvalidFrame
  | Some s =>
      if negb (ObjectRef_Valid ref) || (cs_TypeID component =? 0)
         || (cs_SchemaVersion component =? 0)
      then Err ErrInvalidFrame else
      if MaxComponentBytes (st_limits s) <? len (cs_Data component)
      then Err ErrComponentTooLarge else
      match st_objects s !! ref with
      | None => Err ErrObjectNotFound
      | Some obj =>
          if bool_decide (so_components obj !! cs_TypeID component = None)
             && (MaxComponentsPerObject (st_limits s) <=? Z.of_nat (size (so_components obj)))
          then Err ErrComponentLimit else
          let obj := mkShadow (so_archetype obj)
            (<[cs_TypeID component := cloneComponent component]> (so_components obj)) in
          Ok (set_objects s (<[ref := obj]> (st_objects s)))
      end
  end.

Definition ShadowStore_RemoveComponent (s : option ShadowStore) (ref : ObjectRef) (typeID : Z)
    : option ShadowStore * bool :=
  match s with
  | None => (None, false)
  | Some s =>
      if negb (ObjectRef_Valid ref) || (typeID =? 0) then (Some s, false) else
      match st_objects s !! ref with
      | None => (Some s, false)
      | Some obj =>
          (Some (set_objects s (<[ref := mkShadow (so_archetype obj)
                                    (delete typeID (so_components obj))]> (st_objects s))),
           bool_decide (is_Some (so_components obj !! typeID)))
      end
  end.

(** The copy of one object; the iteration order of the component map is the
    one of [map_to_list]. *)
Definition captureObject (p : ObjectRef * shadowObject) : ObjectState :=
  mkObject p.1 (so_archetype p.2) (cloneComponent <$> (map_to_list (so_components p.2)).*2).

Definition captureObjects (s : ShadowStore) : list ObjectState :=
  captureObject <$> map_to_list (st_objects s).

Definition ShadowStore_Capture (s : option ShadowStore) (meta : SnapshotMeta) : res Snapshot :=
  match s with
  | None => Err ErrInvalidFrame
  | Some s => NewSnapshot meta (captureObjects s) (st_limits s)
  end.

Definition ShadowStore_ObjectCount (s : option ShadowStore) : Z :=
  match s with None => 0 | Some s => Z.of_nat (size (st_objects s)) end.

Definition ShadowStore_Reset (s : option ShadowStore) : option ShadowStore :=
  (fun s => set_objects s ∅) <$> s.

(** ** Specification *)

Definition shadow_object_ok (limits : Limits) (ref : ObjectRef) (o : shadowObject) : Prop :=
  ObjectRef_Valid ref = true /\ so_archetype o <> 0
  /\ Z.of_nat (size (so_components o)) <= MaxComponentsPerObject limits
  /\ map_Forall (fun t c => cs_TypeID c = t /\ component_ok limits c) (so_components o).

Record shadow_inv (s : ShadowStore) : Prop := {
  sh_limits : normalizeLimits (st_limits s) = st_limits s;
  sh_count : Z.of_nat (size (st_objects s)) <= MaxObjects (st_limits s);
  sh_objects : map_Forall (shadow_object_ok (st_limits s)) (st_objects s)
}.

(** The calls that change a store; a rejected call changes nothing. *)
Inductive shadow_op :=
| ShUpsert (ref : ObjectRef) (archetype : Z)
| ShRemove (ref : ObjectRef)
| ShSet (ref : ObjectRef) (component : ComponentState)
| ShUnset (ref : ObjectRef) (typeID : Z)
| ShReset.

Definition shadow_step (s : ShadowStore) (op : shadow_op) : ShadowStore :=
  match op with
  | ShUpsert ref a => match ShadowStore_UpsertObject (Some s) ref a with Ok s' => s' | Err _ => s end
  | ShRemove ref => default s (ShadowStore_RemoveObject (Some s) ref).1
  | ShSet ref c => match ShadowStore_SetComponent (Some s) ref c with Ok s' => s' | Err _ => s end
  | ShUnset ref t => default s (ShadowStore_RemoveComponent (Some s) ref t).1
  | ShReset => default s (ShadowStore_Reset (Some s))
  end.

(** The store a sequence of calls leaves behind. *)
Definition shadow_run (limits : Limits) (ops : list shadow_op) : ShadowStore :=
  foldl shadow_step (NewShadowStore limits) ops.

(** ** Lemmas *)

Lemma size_insert_le {K A} `{Countable K} (m : gmap K A) k x (n : Z) :
  Z.of_nat (size m) <= n -> (m !! k = None -> Z.of_nat (size m) < n) ->
  Z.of_nat (size (<[k := x]> m)) <= n.
Proof. intros Hle Hlt. rewrite map_size_insert. destruct (m !! k); unfold id; [done|]. specialize (Hlt eq_refl). lia. Qed.

Lemma size_delete_le {K A} `{Countable K} (m : gmap K A) k :
  (size (delete k m) <= size m)%nat.
Proof. apply map_subseteq_size, delete_subseteq. Qed.

Lemma shadow_step_inv s op : shadow_inv s -> shadow_inv (shadow_step s op).
Proof.
  intros Hinv. pose proof Hinv as [Hl Hc Ho].
  destruct op as [ref a|ref|ref c|ref t|]; cbn [shadow_step].
  - unfold ShadowStore_UpsertObject. destruct (_ || _) eqn:Hg; [done|]. bool_to_prop.
    destruct (st_objects s !! ref) as [o|] eqn:Hr.
    + split; cbn; [done| |].
      * apply size_insert_le; [done|congruence].
      * apply map_Forall_insert_2; [|done]. destruct (Ho _ _ Hr) as (? & ? & ? & ?). by split_and!.
    + destruct (Z.leb_spec (MaxObjects (st_limits s)) (Z.of_nat (size (st_objects s)))); [done|].
      split; cbn; [done| |].
      * by apply size_insert_le.
      * apply map_Forall_insert_2; [|done]. split_and!; cbn; try done.
        pose proof (normalizeLimits_pos (st_limits s)) as Hpos. rewrite Hl in Hpos.
        destruct Hpos as (_ & ? & _). rewrite map_size_empty. lia.
  - unfold ShadowStore_RemoveObject. destruct (negb _); [done|]. cbn. split; cbn; [done| |].
    + pose proof (size_delete_le (st_objects s) ref). lia.
    + by apply map_Forall_delete.
  - unfold ShadowStore_SetComponent. destruct (_ || _) eqn:Hg; [done|]. bool_to_prop.
    destruct (Z.ltb_spec (MaxComponentBytes (st_limits s)) (len (cs_Data c))); [done|].
    destruct (st_objects s !! ref) as [o|] eqn:Hr; [|done].
    destruct (_ && _) eqn:Hroom; [done|]. split; cbn; [done| |].
    + apply size_insert_le; [done|congruence].
    + apply map_Forall_insert_2; [|done]. destruct (Ho _ _ Hr) as (? & ? & ? & ?).
      split_and!; cbn; try done.
      * apply size_insert_le; [done|]. intros Hnone. apply andb_false_iff in Hroom.
        destruct Hroom; bool_to_prop; [done|lia].
      * apply map_Forall_insert_2; [|done]. rewrite cloneComponent_id. by split.
  - unfold ShadowStore_RemoveComponent. destruct (_ || _) eqn:Hg; [done|].
    destruct (st_objects s !! ref) as [o|] eqn:Hr; [|done]. cbn. split; cbn; [done| |].
    + apply size_insert_le; [done|congruence].
    + apply map_Forall_insert_2; [|done]. destruct (Ho _ _ Hr) as (? & ? & ? & ?).
      split_and!; cbn; try done.
      * pose proof (size_delete_le (so_components o) t). lia.
      * by apply map_Forall_delete.
  - split; cbn; [done| |apply map_Forall_empty]. rewrite map_size_empty.
    pose proof (normalizeLimits_pos (st_limits s)) as Hpos. rewrite Hl in Hpos.
    destruct Hpos as (? & _). lia.
Qed.

Lemma shadow_run_inv limits ops : shadow_inv (shadow_run limits ops).
Proof.
  unfold shadow_run. assert (Hnew : shadow_inv (NewShadowStore limits)).
  { split; cbn -[normalizeLimits]; [apply normalizeLimits_idemp| |apply map_Forall_empty].
    destruct (normalizeLimits_pos limits) as (? & _). rewrite map_size_empty. lia. }
  revert Hnew. generalize (NewShadowStore limits).
  induction ops as [|op ops IH]; intros s Hs; [done|]. cbn [foldl]. by apply IH, shadow_step_inv.
Qed.

(** Sorting by a key that has no repetition gives a strictly sorted list. *)
Lemma sort_slice_strict {A K} (less : A -> A -> bool) (key : A -> K) `{!StrictWeak less} l :
  (forall x y, less x y = false -> less y x = false -> key x = key y) ->
  NoDup (key <$> l) -> strictly_sorted less (sort_slice less l).
Proof.
  intros Hkey Hnd.
  assert (Hs : StronglySorted (fun a b => less b a = false) (sort_slice less l))
    by (apply sort_slice_sorted; apply _).
  rewrite <-(sort_slice_perm less l) in Hnd. revert Hs Hnd.
  generalize (sort_slice less l) as k. clear l. intros k Hs Hnd.
  induction Hs as [|x k Hs IH Hall]; csimpl in *; [constructor|].
  apply NoDup_cons in Hnd as [Hx Hnd]. constructor; [by apply IH|].
  rewrite Forall_forall in Hall. apply Forall_forall. intros y Hy.
  destruct (less x y) eqn:Hxy; [done|]. exfalso. apply Hx.
  rewrite (Hkey x y Hxy (Hall y Hy)). by apply list_elem_of_fmap_2.
Qed.

Definition sortedObject (o : ObjectState) : ObjectState :=
  mkObject (os_Ref o) (os_Archetype o) (sort_slice component_less (os_Components o)).

(** The captured objects in the order a snapshot has them. *)
Definition arranged (s : ShadowStore) : list ObjectState :=
  sort_slice object_less (sortedObject <$> captureObjects s).

Lemma captureObject_components p :
  os_Components (captureObject p) = (map_to_list (so_components p.2)).*2.
Proof.
  unfold captureObject; cbn. induction (map_to_list (so_components p.2)).*2 as [|c cs IH]; csimpl;
    [done|]. by rewrite cloneComponent_id, IH.
Qed.

Lemma capture_refs s : os_Ref <$> captureObjects s = (map_to_list (st_objects s)).*1.
Proof. unfold captureObjects. by rewrite <-list_fmap_compose. Qed.

Lemma sortedObject_ok limits ref o :
  shadow_object_ok limits ref o -> object_ok limits (sortedObject (captureObject (ref, o))).
Proof.
  intros (Hv & Ha & Hn & Hc). unfold object_ok, sortedObject. cbn [os_Ref os_Archetype os_Components].
  rewrite captureObject_components. cbn [snd].
  assert (Hkeys : cs_TypeID <$> (map_to_list (so_components o)).*2 = (map_to_list (so_components o)).*1).
  { rewrite <-list_fmap_compose. apply list_fmap_ext. intros i [t c] Hi. cbn.
    apply (Hc t c). apply elem_of_map_to_list. by eapply list_elem_of_lookup_2. }
  split_and!; [done|done| | |].
  - unfold len. rewrite length_sort_slice, length_fmap, length_map_to_list. done.
  - apply (sort_slice_strict _ cs_TypeID).
    + unfold component_less. intros x y ?%Z.ltb_ge ?%Z.ltb_ge. lia.
    + rewrite Hkeys. apply NoDup_fst_map_to_list.
  - rewrite sort_slice_perm. apply Forall_fmap, Forall_forall.
    intros [t c] Hin%elem_of_map_to_list. by apply (Hc t c).
Qed.

Lemma arranged_inv s meta :
  shadow_inv s -> SnapshotMeta_validate meta = Ok tt ->
  snapshot_inv (st_limits s) (mkSnapshot meta (arranged s)).
Proof.
  intros [Hl Hc Ho] Hm. unfold arranged, captureObjects. split; cbn [sn_Meta sn_Objects]; [done| | |].
  - unfold len. rewrite length_sort_slice, !length_fmap, length_map_to_list. done.
  - apply (sort_slice_strict _ os_Ref).
    + intros x y. unfold object_less. apply ObjectRef_Less_total.
    + rewrite <-list_fmap_compose. rewrite <-list_fmap_compose.
      apply (NoDup_fst_map_to_list (st_objects s)).
  - rewrite sort_slice_perm, <-list_fmap_compose. apply Forall_fmap, Forall_forall.
    intros [ref o] Hin%elem_of_map_to_list. cbn. by apply sortedObject_ok, Ho.
Qed.

Lemma arranged_equiv s : objects_equiv (captureObjects s) (arranged s).
Proof.
  apply objects_equiv_sym. exists (sortedObject <$> captureObjects s). split.
  - unfold arranged. by rewrite sort_slice_perm.
  - induction (captureObjects s) as [|o l IH]; csimpl; constructor; [|done].
    split_and!; [done|done|]. cbn. by rewrite sort_slice_perm.
Qed.

Lemma snapshot_estimate_arranged s meta :
  snapshot_estimate (mkSnapshot meta (arranged s))
  = snapshot_estimate (mkSnapshot meta (captureObjects s)).
Proof.
  unfold snapshot_estimate. cbn [sn_Objects]. f_equal.
  assert (Hperm : forall l k : list Z, l ≡ₚ k -> foldr Z.add 0 l = foldr Z.add 0 k).
  { intros l k. induction 1; cbn; lia. }
  unfold arranged. rewrite (Hperm _ _ (fmap_Permutation _ _ _ (sort_slice_perm object_less _))).
  induction (captureObjects s) as [|o l IH]; csimpl; [done|]. rewrite IH. f_equal.
  unfold object_estimate. cbn. f_equal.
  apply Hperm, fmap_Permutation, sort_slice_perm.
Qed.

Lemma objects_equiv_in l k o : objects_equiv l k -> o ∈ k -> exists o', o' ∈ l /\ object_equiv o' o.
Proof.
  intros (m & Hp & Heq) Hin. apply list_elem_of_lookup_1 in Hin as [i Hi].
  destruct (Forall2_lookup_r _ _ _ _ _ Heq Hi) as (o' & Ho' & Ho). exists o'. split; [|done].
  rewrite Hp. by eapply list_elem_of_lookup_2.
Qed.

Lemma captureObjects_in s o :
  o ∈ captureObjects s <-> exists ref obj, st_objects s !! ref = Some obj /\ o = captureObject (ref, obj).
Proof.
  unfold captureObjects. rewrite list_elem_of_fmap. split.
  - intros ([ref obj] & -> & Hin%elem_of_map_to_list). eauto.
  - intros (ref & obj & Hl & ->). exists (ref, obj). split; [done|]. by apply elem_of_map_to_list.
Qed.

Lemma captured_components limits ref obj o :
  shadow_object_ok limits ref obj -> os_Components (captureObject (ref, obj)) ≡ₚ os_Components o ->
  forall c, c ∈ os_Components o <-> so_components obj !! cs_TypeID c = Some c.
Proof.
  intros (_ & _ & _ & Hc) Hp c. rewrite <-Hp, captureObject_components, list_elem_of_fmap. cbn. split.
  - intros ([t c'] & -> & Hin%elem_of_map_to_list). cbn. by destruct (Hc _ _ Hin) as [-> _].
  - intros Hl. exists (cs_TypeID c, c). split; [done|]. by apply elem_of_map_to_list.
Qed.

(** ** Properties *)

(** The component a store holds for an object. *)
Definition shadow_component (s : ShadowStore) (ref : ObjectRef) (t : Z) : option ComponentState :=
  obj ← st_objects s !! ref; so_components obj !! t.

Definition sample_store_ops : list shadow_op :=
  [ShUpsert (mkRef 2 1) 5; ShUpsert (mkRef 1 1) 4; ShSet (mkRef 1 1) (mkComponent 9 1 [Byte.x07]);
   ShSet (mkRef 1 1) (mkComponent 3 1 []); ShRemove (mkRef 3 1)].

(** Whatever calls a store receives, it stays within its limits and holds only
    valid references, archetypes and components, each under its own type. *)
Theorem ShadowStore_invariant limits ops : shadow_inv (shadow_run limits ops).
Proof. apply shadow_run_inv. Qed.

(** Capturing a store succeeds whenever the metadata is valid and the size
    estimate fits a frame, whatever calls led to the store; the snapshot is
    well-formed and holds exactly the store's objects and components. *)
Theorem ShadowStore_Capture_correct limits ops meta :
  let s := shadow_run limits ops in
  SnapshotMeta_validate meta = Ok tt ->
  snapshot_estimate (mkSnapshot meta (captureObjects s)) <= MaxFrameBytes (st_limits s) ->
  exists snap, ShadowStore_Capture (Some s) meta = Ok snap /\ sn_Meta snap = meta
    /\ snapshot_inv (st_limits s) snap
    /\ (forall ref obj, st_objects s !! ref = Some obj ->
          exists o, o ∈ sn_Objects snap /\ os_Ref o = ref /\ os_Archetype o = so_archetype obj
            /\ forall c, c ∈ os_Components o <-> so_components obj !! cs_TypeID c = Some c)
    /\ (forall o, o ∈ sn_Objects snap -> is_Some (st_objects s !! os_Ref o)).
Proof.
  intros s Hm Hest. pose proof (shadow_run_inv limits ops) as Hinv. fold s in Hinv.
  pose proof Hinv as [Hl _ Ho].
  exists (mkSnapshot meta (arranged s)). split_and!; [|done|by apply arranged_inv| |].
  - cbn. eapply (NewSnapshot_rearranged _ (arranged s)); [|apply arranged_equiv].
    apply (snapshot_inv_canonical (st_limits s) (mkSnapshot meta (arranged s))); rewrite Hl.
    + by apply arranged_inv.
    + by rewrite snapshot_estimate_arranged.
  - intros ref obj Hobj.
    destruct (objects_equiv_in _ _ (captureObject (ref, obj)) (objects_equiv_sym _ _ (arranged_equiv s)))
      as (o & Hin & (Hr & Ha & Hp)); [by apply captureObjects_in; eauto|].
    exists o. split_and!; [done|done|done|]. eapply captured_components; [by eapply Ho|by symmetry].
  - intros o Hin. destruct (objects_equiv_in _ _ o (arranged_equiv s) Hin) as (o' & Ho' & (Hr & _)).
    apply captureObjects_in in Ho' as (ref & obj & Hobj & ->). cbn in Hr. rewrite <-Hr. by exists obj.
Qed.

Lemma ShadowStore_Capture_correct_witness :
  let s := shadow_run DefaultLimits sample_store_ops in
  exists snap, ShadowStore_Capture (Some s) sample_meta = Ok snap /\ sn_Meta snap = sample_meta.
Proof.
  intros s.
  destruct (ShadowStore_Capture_correct DefaultLimits sample_store_ops sample_meta)
    as (snap & Hc & Hm & _); [reflexivity|vm_compute; discriminate|].
  exists snap. split; [exact Hc|exact Hm].
Defined.

(** [SetComponent] changes exactly one component, and [RemoveComponent] and
    [RemoveObject] remove exactly what they name, reporting whether it was
    there. *)
Theorem ShadowStore_component_updates s ref c t :
  (forall s', ShadowStore_SetComponent (Some s) ref c = Ok s' ->
     forall ref' t', shadow_component s' ref' t' =
       if bool_decide (ref' = ref /\ t' = cs_TypeID c) then Some c else shadow_component s ref' t')
  /\ (forall s' b, ShadowStore_RemoveComponent (Some s) ref t = (Some s', b) ->
     (b = true -> is_Some (shadow_component s ref t))
     /\ forall ref' t', shadow_component s' ref' t' =
       if bool_decide (b = true /\ ref' = ref /\ t' = t) then None else shadow_component s ref' t')
  /\ (forall s' b, ShadowStore_RemoveObject (Some s) ref = (Some s', b) ->
     (b = true -> is_Some (st_objects s !! ref))
     /\ forall ref' t', shadow_component s' ref' t' =
       if bool_decide (b = true /\ ref' = ref) then None else shadow_component s ref' t').
Proof.
  split_and!.
  - unfold ShadowStore_SetComponent. intros s' H ref' t'. ok_inv.
    destruct (st_objects s !! ref) as [o|] eqn:Hr; [|done]. ok_inv.
    rewrite cloneComponent_id. unfold shadow_component. cbn.
    destruct (decide (ref' = ref)) as [->|Hne].
    + rewrite lookup_insert_eq, Hr. cbn. destruct (decide (t' = cs_TypeID c)) as [->|Ht].
      * rewrite lookup_insert_eq. by rewrite bool_decide_eq_true_2.
      * rewrite lookup_insert_ne by done. by rewrite bool_decide_eq_false_2 by naive_solver.
    + rewrite lookup_insert_ne by done. by rewrite bool_decide_eq_false_2 by naive_solver.
  - unfold ShadowStore_RemoveComponent. intros s' b H.
    destruct (_ || _); [injection H as <- <-; split; [done|]; intros; by rewrite bool_decide_eq_false_2 by naive_solver|].
    destruct (st_objects s !! ref) as [o|] eqn:Hr;
      [|injection H as <- <-; split; [done|]; intros; by rewrite bool_decide_eq_false_2 by naive_solver].
    injection H as <- <-. unfold shadow_component. rewrite Hr. cbn.
    split; [by intros ?%bool_decide_eq_true|]. intros ref' t'.
    destruct (decide (ref' = ref)) as [->|Hne].
    + rewrite lookup_insert_eq, Hr. cbn. destruct (decide (t' = t)) as [->|Ht].
      * rewrite lookup_delete_eq. case_bool_decide as Hb; [done|].
        destruct (so_components o !! t); [|done]. exfalso. apply Hb. split_and!; try done.
      * rewrite lookup_delete_ne by done. by rewrite bool_decide_eq_false_2 by naive_solver.
    + rewrite lookup_insert_ne by done. by rewrite bool_decide_eq_false_2 by naive_solver.
  - unfold ShadowStore_RemoveObject. intros s' b H.
    destruct (negb _); [injection H as <- <-; split; [done|]; intros; by rewrite bool_decide_eq_false_2 by naive_solver|].
    injection H as <- <-. split; [by intros ?%bool_decide_eq_true|]. intros ref' t'.
    unfold shadow_component. cbn. destruct (decide (ref' = ref)) as [->|Hne].
    + rewrite lookup_delete_eq. case_bool_decide as Hb; [done|].
      destruct (st_objects s !! ref); [|done]. exfalso. apply Hb. by split.
    + rewrite lookup_delete_ne by done. by rewrite bool_decide_eq_false_2 by naive_solver.
Qed.
