(* ===== verification/Lod.v ===== *)
(** * Level of detail

    [src/replication/lod.go] and the projector interfaces of
    [src/replication/transport.go]: the projection of a room snapshot for one
    client.  The upstream projector and the selector are application code: they
    are arguments of the model. *)

From stdpp Require Import base list gmap strings sorting.
From Stdlib Require Import ZArith Lia.
From S2P Require Import Prelude ReplTypes Schema Snapshots.

Local Open Scope Z_scope.

(** ** Projectors *)

Record ProjectionContext := mkContext {
  pc_Session : SessionInfo;
  pc_QualityTier : Z;
  pc_Previous : option Snapshot;
  pc_Current : option Snapshot;
  pc_FullRefresh : bool
}.

(** The dynamic type of a [Projector] decides which method is called. *)
Inductive Projector :=
| PlainProjector (project : SessionInfo -> Snapshot -> res Snapshot)
| ContextProjector (project : ProjectionContext -> Snapshot -> res Snapshot).

(** [ProjectorFunc(nil)]. *)
Definition nilProjectorFunc : Projector := PlainProjector (fun _ snapshot => Ok (Snapshot_Clone snapshot)).

Definition runProjector (p : Projector) (context : ProjectionContext) (snapshot : Snapshot)
    : res Snapshot :=
  match p with
  | ContextProjector project => project context snapshot
  | PlainProjector project => project (pc_Session context) snapshot
  end.

(** ** Levels and masks *)

Definition LODFull : Z := 0.
Definition LODReduced : Z := 1.
Definition LODLow : Z := 2.
Definition LODMinimal : Z := 3.
Definition LODCulled : Z := 255.
Definition maxLODLevel : Z := 7.
Definition LODAtAll : Z := 0.

Definition LODMask_Includes (mask level : Z) : bool :=
  (level <=? maxLODLevel)
  && ((mask =? LODAtAll) || negb (Z.land mask (u8! (Z.shiftl 1 level)) =? 0)).

Definition NewLODMask (levels : list Z) : res Z :=
  foldM (fun mask level =>
    if maxLODLevel <? level then Err ErrInvalidLOD
    else Ok (Z.lor mask (u8! (Z.shiftl 1 level)))) 0 levels.

Record LODDecision := mkDecision {
  ld_Level : Z;
  ld_MinPriority : Z;
  ld_MaxRateHz : Z
}.

Definition LODDecision_validate (d : LODDecision) : res unit :=
  if negb (ld_Level d =? LODCulled) && (maxLODLevel <? ld_Level d) then Err ErrInvalidLOD else
  if negb (ld_MinPriority d =? 0)
     && ((ld_MinPriority d <? PriorityCosmetic) || (PriorityCritical <? ld_MinPriority d))
  then Err ErrInvalidLOD else Ok tt.

Abbreviation LODSelector := (ProjectionContext -> ObjectState -> res LODDecision).

(** [LODSelectorFunc(nil)]. *)
Definition nilSelectorFunc : LODSelector := fun _ _ => Ok (mkDecision LODFull 0 0).

(** ** The projector *)

Record lodCounters := mkCounters {
  lc_decisions : Z;
  lc_objectsCulled : Z;
  lc_componentsOmitted : Z;
  lc_componentsHeld : Z;
  lc_levels : list Z
}.

Definition zeroCounters : lodCounters := mkCounters 0 0 0 0 (replicate 8 0).

Definition count_decision (c : lodCounters) : lodCounters :=
  mkCounters (u64! (lc_decisions c + 1)) (lc_objectsCulled c) (lc_componentsOmitted c)
    (lc_componentsHeld c) (lc_levels c).
Definition count_culled (c : lodCounters) : lodCounters :=
  mkCounters (lc_decisions c) (u64! (lc_objectsCulled c + 1)) (lc_componentsOmitted c)
    (lc_componentsHeld c) (lc_levels c).
Definition count_omitted (c : lodCounters) : lodCounters :=
  mkCounters (lc_decisions c) (lc_objectsCulled c) (u64! (lc_componentsOmitted c + 1))
    (lc_componentsHeld c) (lc_levels c).
Definition count_held (c : lodCounters) : lodCounters :=
  mkCounters (lc_decisions c) (lc_objectsCulled c) (lc_componentsOmitted c)
    (u64! (lc_componentsHeld c + 1)) (lc_levels c).
Definition count_level (c : lodCounters) (level : Z) : lodCounters :=
  mkCounters (lc_decisions c) (lc_objectsCulled c) (lc_componentsOmitted c) (lc_componentsHeld c)
    (alter (fun n => u64! (n + 1)) (Z.to_nat level) (lc_levels c)).

Record LODProjectorConfig := mkLodConfig {
  cf_Registry : option SchemaRegistry;
  cf_Selector : option LODSelector;
  cf_Upstream : option Projector;
  cf_ComponentPolicies : gmap Z Z;
  cf_SnapshotRateHz : Z;
  cf_AlwaysFreshAtOrAbove : Z
}.

(** A component policy is its level mask. *)
Record LODProjector := mkLod {
  lp_registry : SchemaRegistry;
  lp_selector : LODSelector;
  lp_upstream : Projector;
  lp_policies : gmap Z Z;
  lp_snapshotRateHz : Z;
  lp_alwaysFreshAtOrAbove : Z
}.

Definition NewLODProjector (config : LODProjectorConfig) : res LODProjector :=
  match cf_Registry config with
  | None => Err ErrInvalidLOD
  | Some registry =>
      let selector := default nilSelectorFunc (cf_Selector config) in
      let upstream := default nilProjectorFunc (cf_Upstream config) in
      let rate := if cf_SnapshotRateHz config =? 0 then DefaultSnapshotRateHz
                  else cf_SnapshotRateHz config in
      let fresh := if cf_AlwaysFreshAtOrAbove config =? 0 then PriorityCritical
                   else cf_AlwaysFreshAtOrAbove config in
      if (fresh <? PriorityCosmetic) || (PriorityCritical <? fresh) then Err ErrInvalidLOD else
      policies ← foldM (fun (policies : gmap Z Z) '(typeID, policy) =>
        if typeID =? 0 then Err ErrInvalidLOD else
        match SchemaRegistry_Lookup (Some registry) typeID with
        | None => Err ErrInvalidLOD
        | Some _ => Ok (<[typeID := policy]> policies)
        end) ∅ (map_to_list (cf_ComponentPolicies config));
      Ok (mkLod registry selector upstream policies rate fresh)
  end.

Definition refreshDue (p : LODProjector) (tick : Z) (policy : ReplicationPolicy)
    (decision : LODDecision) : bool :=
  let rate := rp_MaxRateHz policy in
  let rate := if (rp_Priority policy <? lp_alwaysFreshAtOrAbove p)
                 && negb (ld_MaxRateHz decision =? 0)
                 && ((rate =? 0) || (ld_MaxRateHz decision <? rate))
              then ld_MaxRateHz decision else rate in
  if (rate =? 0) || (lp_snapshotRateHz p <=? rate) then true else
  let interval := u32! (lp_snapshotRateHz p + rate - 1) / rate in
  tick mod interval =? 0.

Definition indexLODObjects (previous : option Snapshot) (current : Snapshot)
    : gmap ObjectRef ObjectState :=
  match previous with
  | None => ∅
  | Some previous =>
      let p := sn_Meta previous in
      let c := sn_Meta current in
      if negb (sm_RoomID p =? sm_RoomID c) || negb (sm_Epoch p =? sm_Epoch c)
         || negb (sm_SchemaVersion p =? sm_SchemaVersion c)
      then ∅
      else foldl (fun m o => <[os_Ref o := o]> m) ∅ (sn_Objects previous)
  end.

Fixpoint findLODComponent (components : list ComponentState) (typeID : Z) : option ComponentState :=
  match components with
  | [] => None
  | c :: rest => if cs_TypeID c =? typeID then Some c else findLODComponent rest typeID
  end.

(** The condition under which the component loop skips a component. *)
Definition componentOmitted (p : LODProjector) (decision : LODDecision) (component : ComponentState)
    : bool :=
  match SchemaRegistry_Lookup (Some (lp_registry p)) (cs_TypeID component) with
  | None => false
  | Some schema =>
      negb (LODMask_Includes (default 0 (lp_policies p !! cs_TypeID component)) (ld_Level decision))
      || (negb (ld_MinPriority decision =? 0)
          && (rp_Priority (sc_Policy schema) <? ld_MinPriority decision))
  end.

(** The previous value the loop holds on to while a refresh is not due. *)
Definition heldComponent (p : LODProjector) (fullRefresh : bool) (tick : Z) (decision : LODDecision)
    (archetype : Z) (previousObject : option ObjectState) (component : ComponentState)
    : option ComponentState :=
  match SchemaRegistry_Lookup (Some (lp_registry p)) (cs_TypeID component), previousObject with
  | Some schema, Some previousObject =>
      if negb fullRefresh && (os_Archetype previousObject =? archetype)
         && negb (refreshDue p tick (sc_Policy schema) decision)
      then match findLODComponent (os_Components previousObject) (cs_TypeID component) with
           | Some old =>
               if cs_SchemaVersion old =? cs_SchemaVersion component then Some old else None
           | None => None
           end
      else None
  | _, _ => None
  end.

(** The component loop for one object. *)
Fixpoint projectComponents (p : LODProjector) (fullRefresh : bool) (tick : Z)
    (decision : LODDecision) (archetype : Z) (previousObject : option ObjectState)
    (stats : lodCounters) (components : list ComponentState)
    : lodCounters * list ComponentState :=
  match components with
  | [] => (stats, [])
  | component :: rest =>
      if componentOmitted p decision component
      then projectComponents p fullRefresh tick decision archetype previousObject
             (count_omitted stats) rest
      else
        let held := heldComponent p fullRefresh tick decision archetype previousObject component in
        let selected := cloneComponent (default component held) in
        let stats := match held with Some _ => count_held stats | None => stats end in
        let '(stats, filtered) :=
          projectComponents p fullRefresh tick decision archetype previousObject stats rest in
        (stats, selected :: filtered)
  end.

(** The object loop; an error of the selector or an invalid decision ends it. *)
Fixpoint projectObjects (p : LODProjector) (selection : ProjectionContext) (tick : Z)
    (previous : gmap ObjectRef ObjectState) (stats : lodCounters) (objects : list ObjectState)
    : lodCounters * res (list ObjectState) :=
  match objects with
  | [] => (stats, Ok [])
  | object :: rest =>
      match lp_selector p selection object with
      | Err e => (stats, Err e)
      | Ok decision =>
          match LODDecision_validate decision with
          | Err e => (stats, Err e)
          | Ok _ =>
              let stats := count_decision stats in
              if ld_Level decision =? LODCulled
              then projectObjects p selection tick previous (count_culled stats) rest
              else
                let stats := count_level stats (ld_Level decision) in
                let '(stats, components) :=
                  projectComponents p (pc_FullRefresh selection) tick decision
                    (os_Archetype object) (previous !! os_Ref object) stats
                    (os_Components object) in
                let filtered := mkObject (os_Ref object) (os_Archetype object) components in
                let '(stats, out) := projectObjects p selection tick previous stats rest in
                (stats, out ← out; Ok (filtered :: out))
          end
      end
  end.

Definition LODProjector_ProjectWithContext (p : option LODProjector) (stats : lodCounters)
    (context : ProjectionContext) (snapshot : Snapshot) : lodCounters * res Snapshot :=
  match p with
  | None => (stats, Err ErrInvalidLOD)
  | Some p =>
      match runProjector (lp_upstream p) context snapshot with
      | Err e => (stats, Err e)
      | Ok projected =>
          let selection := mkContext (pc_Session context) (pc_QualityTier context)
            (pc_Previous context) (Some projected) (pc_FullRefresh context) in
          let previous := indexLODObjects (pc_Previous context) projected in
          let '(stats, objects) :=
            projectObjects p selection (sn_Tick projected) previous stats (sn_Objects projected) in
          (stats, objects ← objects; Ok (mkSnapshot (sn_Meta projected) objects))
      end
  end.

Definition LODProjector_Project (p : option LODProjector) (stats : lodCounters)
    (session : SessionInfo) (snapshot : Snapshot) : lodCounters * res Snapshot :=
  LODProjector_ProjectWithContext p stats (mkContext session 0 None None false) snapshot.

(** The projector as seen by the replicator. *)
Definition lodAsProjector (p : LODProjector) (stats : lodCounters) : Projector :=
  ContextProjector (fun context snapshot =>
    (LODProjector_ProjectWithContext (Some p) stats context snapshot).2).

(** ** Specification *)

(** The value shown for a component: the previous one while a refresh is not
    due, the current one otherwise. *)
Definition shown (p : LODProjector) (full : bool) (tick : Z) (d : LODDecision) (archetype : Z)
    (previous : option ObjectState) (c : ComponentState) : ComponentState :=
  default c (heldComponent p full tick d archetype previous c).

(** The projection of one object; [None] when it is culled. *)
Definition lodObject (p : LODProjector) (selection : ProjectionContext) (tick : Z)
    (previous : gmap ObjectRef ObjectState) (o : ObjectState) (d : LODDecision)
    : option ObjectState :=
  if ld_Level d =? LODCulled then None else
  Some (mkObject (os_Ref o) (os_Archetype o)
    (shown p (pc_FullRefresh selection) tick d (os_Archetype o) (previous !! os_Ref o)
       <$> filter (fun c => componentOmitted p d c = false) (os_Components o))).

(** The effective refresh rate of a component, and its interval in ticks. *)
Definition effectiveRate (p : LODProjector) (policy : ReplicationPolicy) (d : LODDecision) : Z :=
  let rate := rp_MaxRateHz policy in
  if (rp_Priority policy <? lp_alwaysFreshAtOrAbove p) && negb (ld_MaxRateHz d =? 0)
     && ((rate =? 0) || (ld_MaxRateHz d <? rate))
  then ld_MaxRateHz d else rate.

Definition refreshInterval (p : LODProjector) (policy : ReplicationPolicy) (d : LODDecision) : Z :=
  (lp_snapshotRateHz p + effectiveRate p policy d - 1) / effectiveRate p policy d.

(** The number of due ticks among [n] ticks from [t] on. *)
Definition refreshes (p : LODProjector) (policy : ReplicationPolicy) (d : LODDecision)
    (t : Z) (n : nat) : Z :=
  len (filter (fun k => refreshDue p (t + Z.of_nat k) policy d = true) (seq 0 n)).

(** ** Lemmas *)

Lemma projectComponents_spec p full tick d archetype previous stats cs :
  (projectComponents p full tick d archetype previous stats cs).2
  = shown p full tick d archetype previous <$> filter (fun c => componentOmitted p d c = false) cs.
Proof.
  revert stats. induction cs as [|c cs IH]; intros stats; [done|].
  cbn [projectComponents]. rewrite filter_cons. destruct (componentOmitted p d c) eqn:Ho.
  { rewrite decide_False by done. apply IH. }
  rewrite decide_True, fmap_cons, cloneComponent_id by done. fold (shown p full tick d archetype previous c).
  match goal with |- context [projectComponents p full tick d archetype previous ?st cs] =>
    specialize (IH st); destruct (projectComponents p full tick d archetype previous st cs) end.
  cbn in *. by rewrite IH.
Qed.

Lemma projectObjects_spec p selection tick previous stats objects out :
  (projectObjects p selection tick previous stats objects).2 = Ok out ->
  exists ds, Forall2 (fun o d => lp_selector p selection o = Ok d /\ LODDecision_validate d = Ok tt)
               objects ds
    /\ out = omap (fun od => lodObject p selection tick previous od.1 od.2) (zip objects ds).
Proof.
  revert stats out. induction objects as [|o objects IH]; intros stats out; cbn [projectObjects].
  { intros [= <-]. by exists []. }
  destruct (lp_selector p selection o) as [d|] eqn:Hd; [|done].
  destruct (LODDecision_validate d) as [[]|] eqn:Hv; [|done].
  destruct (ld_Level d =? LODCulled) eqn:Hc.
  - intros H. destruct (IH _ _ H) as (ds & Hall & ->). exists (d :: ds). split; [by constructor|].
    cbn. unfold lodObject at 2. cbn. by rewrite Hc.
  - match goal with |- context [projectComponents ?a ?b ?c ?e ?f ?g ?h ?i] =>
      pose proof (projectComponents_spec a b c e f g h i) as Hcs;
      destruct (projectComponents a b c e f g h i) as [stats' cs] end.
    match goal with |- context [projectObjects ?a ?b ?c ?e ?f objects] =>
      specialize (IH f); destruct (projectObjects a b c e f objects) as [stats'' [out'|]] end; [|done].
    cbn. intros [= <-]. destruct (IH out' eq_refl) as (ds & Hall & ->). exists (d :: ds).
    split; [by constructor|]. cbn in *. unfold lodObject at 2. cbn. by rewrite Hc, Hcs.
Qed.

Lemma findLODComponent_in cs t c : findLODComponent cs t = Some c -> c ∈ cs /\ cs_TypeID c = t.
Proof.
  induction cs as [|x cs IH]; cbn; [done|]. destruct (Z.eqb_spec (cs_TypeID x) t).
  - intros [= <-]. split; [left|done].
  - intros [? ?]%IH. split; [by right|done].
Qed.

Lemma heldComponent_spec p full tick d archetype previous c old :
  heldComponent p full tick d archetype previous c = Some old ->
  full = false /\ cs_TypeID old = cs_TypeID c /\ cs_SchemaVersion old = cs_SchemaVersion c
  /\ exists o schema, previous = Some o /\ os_Archetype o = archetype /\ old ∈ os_Components o
     /\ SchemaRegistry_Lookup (Some (lp_registry p)) (cs_TypeID c) = Some schema
     /\ refreshDue p tick (sc_Policy schema) d = false.
Proof.
  unfold heldComponent. destruct (SchemaRegistry_Lookup _ _) as [schema|] eqn:Hs; [|done].
  destruct previous as [o|]; [|done]. destruct (_ && _ && _) eqn:Hg; [|done]. bool_to_prop.
  destruct (findLODComponent _ _) as [x|] eqn:Hx; [|done]. apply findLODComponent_in in Hx as [Hin Ht].
  destruct (Z.eqb_spec (cs_SchemaVersion x) (cs_SchemaVersion c)); [|done]. intros [= <-].
  split_and!; try done. by exists o, schema.
Qed.

Lemma indexLODObjects_in previous current ref o :
  indexLODObjects previous current !! ref = Some o ->
  exists s, previous = Some s /\ o ∈ sn_Objects s /\ os_Ref o = ref.
Proof.
  unfold indexLODObjects. destruct previous as [s|]; [|by rewrite lookup_empty].
  destruct (_ || _); [by rewrite lookup_empty|]. intros Hl. exists s. split; [done|].
  revert Hl. assert (Hgen : forall (m : gmap ObjectRef ObjectState) l,
    (forall r x, m !! r = Some x -> x ∈ sn_Objects s /\ os_Ref x = r) ->
    (forall x, x ∈ l -> x ∈ sn_Objects s) ->
    forall r x, foldl (fun m o => <[os_Ref o := o]> m) m l !! r = Some x ->
      x ∈ sn_Objects s /\ os_Ref x = r).
  { intros m l. revert m. induction l as [|y l IH]; intros m Hm Hl; [done|]. cbn [foldl]. apply IH.
    - intros r x [[<- <-]|[_ Hx]]%lookup_insert_Some; [|by apply Hm]. split; [apply Hl; left|done].
    - intros x Hx. apply Hl. by right. }
  apply Hgen; [|done]. by intros r x Hx%lookup_empty_Some.
Qed.

(** The multiples of [i] among [n] consecutive integers from [t] on. *)
Lemma count_multiples i t n :
  0 < i ->
  len (filter (fun k => (t + Z.of_nat k) mod i = 0) (seq 0 n))
  = (t + Z.of_nat n - 1) / i - (t - 1) / i.
Proof.
  intros Hi. induction n as [|n IH].
  { cbn [seq]. rewrite filter_nil. replace (t + Z.of_nat 0 - 1) with (t - 1) by lia.
    change (len (@nil nat)) with 0. lia. }
  rewrite seq_S, filter_app, len_app, IH, filter_cons, filter_nil. cbn [Nat.add].
  replace (t + Z.of_nat (S n) - 1) with (t + Z.of_nat n) by lia.
  set (x := t + Z.of_nat n).
  assert (Hdiv : x / i - (x - 1) / i = if decide (x mod i = 0) then 1 else 0); [|case_decide; cbn in *].
  { pose proof (Z.div_mod x i). pose proof (Z.mod_pos_bound x i Hi).
    pose proof (Z.div_mod (x - 1) i). pose proof (Z.mod_pos_bound (x - 1) i Hi).
    case_decide; nia. }
  - change (len [n]) with 1. lia.
  - change (len (@nil nat)) with 0. lia.
Qed.

Lemma refreshDue_interval p policy d tick :
  0 < effectiveRate p policy d < lp_snapshotRateHz p -> lp_snapshotRateHz p <= 255 ->
  refreshDue p tick policy d = (tick mod refreshInterval p policy d =? 0).
Proof.
  intros Hr Hs. unfold refreshDue. fold (effectiveRate p policy d). unfold refreshInterval.
  rewrite (proj2 (Z.eqb_neq _ _)), (proj2 (Z.leb_gt _ _)) by lia. cbn [orb].
  rewrite wrapu_small by (unfold in_u; lia). done.
Qed.

Lemma refreshInterval_bounds p policy d :
  let r := effectiveRate p policy d in
  let i := refreshInterval p policy d in
  0 < r < lp_snapshotRateHz p -> lp_snapshotRateHz p <= r * i /\ r * (i - 1) < lp_snapshotRateHz p /\ 0 < i.
Proof.
  intros r i Hr. unfold i, refreshInterval. fold r.
  pose proof (Z.div_mod (lp_snapshotRateHz p + r - 1) r).
  pose proof (Z.mod_pos_bound (lp_snapshotRateHz p + r - 1) r). nia.
Qed.

Lemma refreshes_count p policy d t n :
  0 < effectiveRate p policy d < lp_snapshotRateHz p -> lp_snapshotRateHz p <= 255 ->
  refreshes p policy d t n
  = (t + Z.of_nat n - 1) / refreshInterval p policy d - (t - 1) / refreshInterval p policy d.
Proof.
  intros Hr Hs. unfold refreshes. rewrite <-count_multiples by (by apply refreshInterval_bounds).
  f_equal. apply list_filter_iff. intros k. rewrite refreshDue_interval by done. apply Z.eqb_eq.
Qed.

Lemma validate_unit d u : LODDecision_validate d = Ok u -> LODDecision_validate d = Ok tt.
Proof. by destruct u. Qed.

(** ** Properties *)

Definition sample_registry : SchemaRegistry := registered sample_schemas.
Definition sample_lod : LODProjector :=
  mkLod sample_registry (fun _ _ => Ok (mkDecision LODReduced 0 5)) nilProjectorFunc ∅ 20 5.

(** The projector computes exactly: the upstream projection of the snapshot,
    without the objects the selector culls, each remaining object without the
    components its level or priority excludes, in the same order, and each
    remaining component with its current value or, while no refresh is due,
    the previous one.  It succeeds only if every decision is valid. *)
Theorem LODProjector_projection_exact p stats context snapshot out :
  (LODProjector_ProjectWithContext (Some p) stats context snapshot).2 = Ok out ->
  exists projected ds,
    runProjector (lp_upstream p) context snapshot = Ok projected
    /\ let selection := mkContext (pc_Session context) (pc_QualityTier context)
         (pc_Previous context) (Some projected) (pc_FullRefresh context) in
       Forall2 (fun o d => lp_selector p selection o = Ok d /\ LODDecision_validate d = Ok tt)
         (sn_Objects projected) ds
       /\ out = mkSnapshot (sn_Meta projected)
            (omap (fun od => lodObject p selection (sn_Tick projected)
                     (indexLODObjects (pc_Previous context) projected) od.1 od.2)
               (zip (sn_Objects projected) ds)).
Proof.
  cbn [LODProjector_ProjectWithContext].
  destruct (runProjector _ _ _) as [projected|]; [|done].
  match goal with |- context [projectObjects ?a ?b ?c ?d ?e ?f] =>
    pose proof (projectObjects_spec a b c d e f) as Hspec; destruct (projectObjects a b c d e f)
      as [stats' [objects|]] end; [|done].
  cbn. intros [= <-]. destruct (Hspec objects eq_refl) as (ds & Hall & ->). by exists projected, ds.
Qed.

Lemma LODProjector_projection_exact_witness :
  exists out, (LODProjector_ProjectWithContext (Some sample_lod) zeroCounters
    (mkContext (mkSessionInfo 4 0 0 0) 0 None None true) sample_snapshot).2 = Ok out
  /\ sn_Meta out = sn_Meta sample_snapshot.
Proof.
  eexists. split; [vm_compute; reflexivity|].
  match goal with |- sn_Meta ?out = _ =>
    destruct (LODProjector_projection_exact sample_lod zeroCounters
      (mkContext (mkSessionInfo 4 0 0 0) 0 None None true) sample_snapshot out)
      as (projected & ds & Hup & _ & Hout) end; [vm_compute; reflexivity|].
  rewrite Hout. vm_compute in Hup. injection Hup as <-. reflexivity.
Defined.

(** Nothing is shown that the upstream projection does not allow: every
    component shown belongs to an object and a type that the upstream
    projection shows now, with that schema version, and its value is the one
    shown now or one shown in the previous projection of the same object;
    after a full refresh it is the current one. *)
Theorem LODProjector_shows_only_upstream p stats context snapshot out projected o c :
  (LODProjector_ProjectWithContext (Some p) stats context snapshot).2 = Ok out ->
  runProjector (lp_upstream p) context snapshot = Ok projected ->
  o ∈ sn_Objects out -> c ∈ os_Components o ->
  exists o' c', o' ∈ sn_Objects projected /\ c' ∈ os_Components o'
    /\ os_Ref o = os_Ref o' /\ os_Archetype o = os_Archetype o'
    /\ cs_TypeID c = cs_TypeID c' /\ cs_SchemaVersion c = cs_SchemaVersion c'
    /\ (c = c' \/ pc_FullRefresh context = false
        /\ exists s old, pc_Previous context = Some s /\ old ∈ sn_Objects s
           /\ os_Ref old = os_Ref o /\ os_Archetype old = os_Archetype o /\ c ∈ os_Components old).
Proof.
  cbn [LODProjector_ProjectWithContext]. intros Hproj Hup. rewrite Hup in Hproj. revert Hproj.
  match goal with |- context [projectObjects ?a ?b ?c ?d ?e ?f] =>
    pose proof (projectObjects_spec a b c d e f) as Hspec; destruct (projectObjects a b c d e f)
      as [stats' [objects|]] end; [|done].
  cbn. intros [= <-]. destruct (Hspec objects eq_refl) as (ds & Hall & ->). cbn. intros Hin Hc.
  apply list_elem_of_omap in Hin as ([o' d] & Hzip%elem_of_zip_l & Ho'). cbn in *.
  unfold lodObject in Ho'. destruct (ld_Level d =? LODCulled); [done|]. injection Ho' as <-.
  cbn in Hc. apply list_elem_of_fmap in Hc as (c' & -> & [_ Hc']%list_elem_of_filter).
  exists o', c'. unfold shown. destruct (heldComponent _ _ _ _ _ _ c') as [old|] eqn:Hheld.
  - apply heldComponent_spec in Hheld as (Hfull & Ht & Hv & po & schema & Hpo & Ha & Hold & _).
    cbn. split_and!; try done. right. split; [done|].
    apply indexLODObjects_in in Hpo as (s & Hs & Hpin & Href). by exists s, po.
  - cbn. split_and!; try done. by left.
Qed.

Lemma LODProjector_shows_only_upstream_witness :
  exists o', o' ∈ sn_Objects sample_snapshot /\ os_Ref o' = mkRef 1 1.
Proof.
  destruct (LODProjector_shows_only_upstream sample_lod zeroCounters
    (mkContext (mkSessionInfo 4 0 0 0) 0 None None true) sample_snapshot sample_snapshot
    sample_snapshot (mkObject (mkRef 1 1) 3 [mkComponent 2 1 []]) (mkComponent 2 1 []))
    as (o' & c' & Hin & _ & Hr & _);
    [vm_compute; reflexivity|vm_compute; reflexivity|left|left|].
  exists o'. split; [exact Hin|]. rewrite <-Hr. reflexivity.
Defined.

(** Rate limits hold and nothing starves: with an effective rate below the
    snapshot rate, any second of ticks has at most that many refreshes of the
    component, and any [refreshInterval] consecutive ticks have exactly one. *)
Theorem refreshDue_rate p policy d t :
  0 < effectiveRate p policy d < lp_snapshotRateHz p -> lp_snapshotRateHz p <= 255 ->
  refreshes p policy d t (Z.to_nat (lp_snapshotRateHz p)) <= effectiveRate p policy d
  /\ refreshes p policy d t (Z.to_nat (refreshInterval p policy d)) = 1.
Proof.
  intros Hr Hs. rewrite !refreshes_count by done.
  destruct (refreshInterval_bounds p policy d Hr) as (Hlo & Hhi & Hpos).
  set (r := effectiveRate p policy d) in *. set (i := refreshInterval p policy d) in *.
  rewrite !Z2Nat.id by lia. split.
  - assert (Hle : (t + lp_snapshotRateHz p - 1) / i <= (t - 1 + r * i) / i).
    { apply Z.div_le_mono; lia. }
    rewrite Z.div_add in Hle by lia. lia.
  - replace (t + i - 1) with (t - 1 + 1 * i) by lia. rewrite Z.div_add by lia. lia.
Qed.

Lemma refreshDue_rate_witness :
  let d := mkDecision LODReduced 0 5 in
  refreshes sample_lod sample_policy d 3 20 <= 5 /\ refreshes sample_lod sample_policy d 3 4 = 1.
Proof. apply (refreshDue_rate sample_lod sample_policy (mkDecision LODReduced 0 5) 3);
  [vm_compute; split; reflexivity|vm_compute; discriminate]. Defined.

Lemma mask_bit l : 0 <= l <= maxLODLevel -> u8! (Z.shiftl 1 l) = 2 ^ l.
Proof.
  unfold maxLODLevel. intros Hl. rewrite Z.shiftl_1_l. apply wrapu_small. unfold in_u. split; [lia|].
  apply Z.pow_lt_mono_r; lia.
Qed.

Lemma land_bit_nonzero m l : 0 <= l -> Z.land m (2 ^ l) <> 0 <-> Z.testbit m l = true.
Proof.
  intros Hl. split.
  - intros Hne. destruct (Z.testbit m l) eqn:Hb; [done|]. exfalso. apply Hne.
    apply Z.bits_inj'. intros k Hk. rewrite Z.land_spec, Z.bits_0.
    destruct (decide (k = l)) as [->|]; [by rewrite Hb|].
    rewrite Z.pow2_bits_false by done. apply andb_false_r.
  - intros Hb Heq. apply (f_equal (fun z => Z.testbit z l)) in Heq.
    by rewrite Z.land_spec, Hb, Z.pow2_bits_true, Z.bits_0 in Heq by done.
Qed.

Lemma NewLODMask_bits levels mask0 mask :
  Forall (fun l => 0 <= l) levels ->
  foldM (fun mask level => if maxLODLevel <? level then Err ErrInvalidLOD
                           else Ok (Z.lor mask (u8! (Z.shiftl 1 level)))) mask0 levels = Ok mask ->
  Forall (fun l => l <= maxLODLevel) levels
  /\ forall l, 0 <= l -> Z.testbit mask l = Z.testbit mask0 l || bool_decide (l ∈ levels).
Proof.
  intros Hpos. revert mask0. induction Hpos as [|l levels Hl Hpos IH]; intros mask0; cbn [foldM].
  { intros [= <-]. split; [constructor|]. intros l Hl.
    rewrite bool_decide_eq_false_2 by apply not_elem_of_nil. by rewrite orb_false_r. }
  destruct (Z.ltb_spec maxLODLevel l); [done|]. run_bind. intros Hrest.
  destruct (IH _ Hrest) as [Hall Hbits]. split; [by constructor|]. intros k Hk.
  rewrite Hbits, mask_bit, Z.lor_spec by done. rewrite <-orb_assoc. f_equal.
  destruct (decide (k = l)) as [->|Hne].
  - rewrite Z.pow2_bits_true by done. by rewrite (bool_decide_eq_true_2 (l ∈ l :: levels)) by left.
  - rewrite Z.pow2_bits_false by done.
    by rewrite (bool_decide_ext (k ∈ l :: levels) (k ∈ levels)) by (rewrite elem_of_cons; tauto).
Qed.

(** A mask built from a list of levels includes exactly those levels (a mask
    of no level stands for all of them), and a level above seven is refused. *)
Theorem NewLODMask_includes levels mask :
  Forall (fun l => 0 <= l) levels -> NewLODMask levels = Ok mask ->
  forall level, 0 <= level ->
    LODMask_Includes mask level = true <-> level <= maxLODLevel /\ (levels = [] \/ level ∈ levels).
Proof.
  intros Hpos Hmask level Hl. destruct (NewLODMask_bits _ _ _ Hpos Hmask) as [Hall Hbits].
  unfold LODMask_Includes. rewrite andb_true_iff, Z.leb_le.
  split; intros [Hle H]; (split; [done|]); rewrite mask_bit in *; try done.
  - destruct (Z.eqb_spec mask LODAtAll) as [Hz|Hz].
    + left. destruct levels as [|l ls]; [done|]. apply Forall_cons in Hpos as [Hl0 _].
      specialize (Hbits l Hl0). rewrite Hz, !Z.bits_0 in Hbits.
      rewrite bool_decide_eq_true_2 in Hbits by left. done.
    + right. cbn in H. apply negb_true_iff, Z.eqb_neq, land_bit_nonzero in H; [|done].
      rewrite Hbits, Z.bits_0 in H by done. by apply bool_decide_eq_true in H.
  - destruct H as [->|Hin]; [cbn in Hmask; injection Hmask as <-; done|].
    apply orb_true_iff. right. apply negb_true_iff, Z.eqb_neq, land_bit_nonzero; [done|].
    rewrite Hbits, Z.bits_0 by done. by rewrite bool_decide_eq_true_2.
Qed.

Lemma NewLODMask_includes_witness :
  exists mask, NewLODMask [0; 3] = Ok mask
    /\ (LODMask_Includes mask 3 = true <-> 3 <= maxLODLevel /\ ([0; 3] = [] \/ 3 ∈ [0; 3])).
Proof.
  exists 9. split; [vm_compute; reflexivity|].
  apply (NewLODMask_includes [0; 3] 9); [by_evaluation|vm_compute; reflexivity|lia].
Defined.
