(* ===== verification/Replicator.v ===== *)
(** * The replicator

    [src/replication/replicator.go], [src/replication/transport.go] and the
    handler of [src/replication/control.go]: the sessions of a room, the ring of
    published snapshots and the transport.  Sessions are objects shared between
    the registry and the prepared frames that still refer to them, so they live
    in a heap and are named by handles.  Every method runs atomically; the
    prepare/commit split of a send is explicit, since calls may come between.
    The network is outside code: its answer to a call is a function of the
    calls made before, and the calls are logged. *)

From stdpp Require Import base list gmap strings sorting.
From Stdlib Require Import ZArith Lia.
From S2P Require Import Prelude ReplTypes Schema Snapshots Merge Delta Wire Codec Datagram.
From S2P Require Import Ring Control Session Lod.

Local Open Scope Z_scope.

(** ** Transports *)

(** A transport value: its dynamic type, whether that type is comparable, its
    value, and the optional interfaces it implements. *)
Record Transport := mkTransport {
  tr_type : Z;
  tr_comparable : bool;
  tr_value : Z;
  tr_batch : bool;
  tr_lifecycle : bool
}.

#[export] Instance Transport_eq_dec : EqDecision Transport.
Proof. solve_decision. Defined.

Inductive tcall :=
| CallDatagram (t : Transport) (id : Z) (packet : list byte)
| CallBatch (t : Transport) (id : Z) (packets : list (list byte))
| CallReliable (t : Transport) (id : Z) (payload : list byte)
| CallRegister (t : Transport) (info : SessionInfo)
| CallRemove (t : Transport) (id : Z).

(** The network's answer to a call, given the calls before it with their
    answers; the answer to a removal is not looked at. *)
Class Network := network_answer : list (tcall * res unit) -> tcall -> res unit.

Definition sameTransport (left right : option Transport) : bool :=
  match left, right with
  | None, None => true
  | Some l, Some r =>
      (tr_type l =? tr_type r) && tr_comparable l && bool_decide (l = r)
  | _, _ => false
  end.

(** ** State *)

Inductive counter :=
| Cpublished | CfullFrames | CdeltaFrames | Cdatagrams | CencodedBytes | CsentBytes | CsendErrors
| CinvalidAcks | CforcedFull | CqualitySet | CinvalidControls | CresyncRequests | Cregistered
| Cunregistered.

#[export] Instance counter_eq_dec : EqDecision counter.
Proof. solve_decision. Defined.

Abbreviation replicatorCounters := (counter -> Z).

Definition bump (c : counter) (n : Z) (stats : replicatorCounters) : replicatorCounters :=
  fun c' => if decide (c' = c) then u64! (stats c' + n) else stats c'.

Record ReplicatorConfig := mkReplicatorConfig {
  rc_Limits : Limits;
  rc_RingSize : Z;
  rc_MaxDatagram : Z;
  rc_Projector : option Projector;
  rc_Transport : option Transport
}.

Record Replicator := mkReplicator {
  re_limits : Limits;
  re_maxDatagram : Z;
  re_ring : SnapshotRing;
  re_projector : Projector;
  re_transport : option Transport;
  re_sessions : gmap Z nat;
  re_heap : list SessionState;
  re_closed : bool;
  re_stats : replicatorCounters;
  re_log : list (tcall * res unit)
}.

Definition set_ring (r : Replicator) (ring : SnapshotRing) : Replicator :=
  mkReplicator (re_limits r) (re_maxDatagram r) ring (re_projector r) (re_transport r)
    (re_sessions r) (re_heap r) (re_closed r) (re_stats r) (re_log r).
Definition set_projector (r : Replicator) (p : Projector) : Replicator :=
  mkReplicator (re_limits r) (re_maxDatagram r) (re_ring r) p (re_transport r)
    (re_sessions r) (re_heap r) (re_closed r) (re_stats r) (re_log r).
Definition set_transport (r : Replicator) (t : option Transport) : Replicator :=
  mkReplicator (re_limits r) (re_maxDatagram r) (re_ring r) (re_projector r) t
    (re_sessions r) (re_heap r) (re_closed r) (re_stats r) (re_log r).
Definition set_sessions (r : Replicator) (m : gmap Z nat) : Replicator :=
  mkReplicator (re_limits r) (re_maxDatagram r) (re_ring r) (re_projector r) (re_transport r)
    m (re_heap r) (re_closed r) (re_stats r) (re_log r).
Definition set_heap (r : Replicator) (heap : list SessionState) : Replicator :=
  mkReplicator (re_limits r) (re_maxDatagram r) (re_ring r) (re_projector r) (re_transport r)
    (re_sessions r) heap (re_closed r) (re_stats r) (re_log r).
Definition set_rclosed (r : Replicator) (closed : bool) : Replicator :=
  mkReplicator (re_limits r) (re_maxDatagram r) (re_ring r) (re_projector r) (re_transport r)
    (re_sessions r) (re_heap r) closed (re_stats r) (re_log r).
Definition count (c : counter) (n : Z) (r : Replicator) : Replicator :=
  mkReplicator (re_limits r) (re_maxDatagram r) (re_ring r) (re_projector r) (re_transport r)
    (re_sessions r) (re_heap r) (re_closed r) (bump c n (re_stats r)) (re_log r).
Definition log_call (r : Replicator) (c : tcall * res unit) : Replicator :=
  mkReplicator (re_limits r) (re_maxDatagram r) (re_ring r) (re_projector r) (re_transport r)
    (re_sessions r) (re_heap r) (re_closed r) (re_stats r) (re_log r ++ [c]).

(** A write through a session pointer. *)
Definition update_session (r : Replicator) (h : nat) (s : SessionState) : Replicator :=
  set_heap r (<[h := s]> (re_heap r)).

Definition NewReplicator (config : ReplicatorConfig) : Replicator :=
  let ringSize := if rc_RingSize config <=? 0 then 64 else rc_RingSize config in
  let maxDatagram := if rc_MaxDatagram config <=? 0 then DefaultMaxDatagram
                     else rc_MaxDatagram config in
  mkReplicator (normalizeLimits (rc_Limits config)) maxDatagram (NewSnapshotRing ringSize)
    (default nilProjectorFunc (rc_Projector config)) (rc_Transport config) ∅ [] false
    (fun _ => 0) [].

(** [r.session(id)]: the handle of a registered session. *)
Definition lookup_session (r : Replicator) (id : Z) : res nat :=
  if id =? 0 then Err ErrSessionNotFound else
  if re_closed r then Err ErrReplicatorClosed else
  match re_sessions r !! id with
  | None => Err ErrSessionNotFound
  | Some h => Ok h
  end.

Section Methods.
Context `{!Network}.

(** A call to the network. *)
Definition call (r : Replicator) (c : tcall) : Replicator * res unit :=
  let answer := network_answer (re_log r) c in (log_call r (c, answer), answer).

(** ** Publishing and sessions *)

Definition Publish (r : Replicator) (snapshot : Snapshot) : Replicator * res unit :=
  if re_closed r then (r, Err ErrReplicatorClosed) else
  match NewSnapshot (sn_Meta snapshot) (sn_Objects snapshot) (re_limits r) with
  | Err e => (r, Err e)
  | Ok normalized =>
      match SnapshotRing_Add (Some (re_ring r)) normalized with
      | Err e => (r, Err e)
      | Ok ring => (count Cpublished 1 (set_ring r ring), Ok tt)
      end
  end.

Definition RegisterSession (r : Replicator) (info : SessionInfo) : Replicator * res unit :=
  if si_ID info =? 0 then (r, Err ErrSessionNotFound) else
  match NewSessionState info with
  | Err e => (r, Err e)
  | Ok state =>
      if re_closed r then (r, Err ErrReplicatorClosed) else
      match re_sessions r !! si_ID info with
      | Some _ => (r, Err ErrSessionRegistered)
      | None =>
          let h := length (re_heap r) in
          let r := set_heap r (re_heap r ++ [state]) in
          let accept r := (count Cregistered 1 (set_sessions r (<[si_ID info := h]> (re_sessions r))),
                          Ok tt) in
          match re_transport r with
          | Some t =>
              if tr_lifecycle t then
                match call r (CallRegister t info) with
                | (r, Err e) => (update_session r h (set_closed state), Err e)
                | (r, Ok _) => accept r
                end
              else accept r
          | None => accept r
          end
      end
  end.

(** [transport.(SessionTransport).RemoveSession(id)], when supported. *)
Definition transport_remove (r : Replicator) (t : option Transport) (id : Z) : Replicator :=
  match t with
  | Some t => if tr_lifecycle t then (call r (CallRemove t id)).1 else r
  | None => r
  end.

(** [state.Close()] through a handle. *)
Definition close_handle (r : Replicator) (h : nat) : Replicator :=
  match re_heap r !! h with
  | Some s => update_session r h (set_closed s)
  | None => r
  end.

Definition RemoveSession (r : Replicator) (id : Z) : Replicator * bool :=
  if id =? 0 then (r, false) else
  match re_sessions r !! id with
  | None => (r, false)
  | Some h =>
      let transport := re_transport r in
      let r := set_sessions r (delete id (re_sessions r)) in
      let r := transport_remove r transport id in
      (count Cunregistered 1 (close_handle r h), true)
  end.

(** Runs a method of a session through its handle.  A handle always points to a
    session of the heap. *)
Definition with_session {A} (r : Replicator) (h : nat)
    (f : SessionState -> SessionState * res A) : Replicator * res A :=
  match re_heap r !! h with
  | None => (r, Err ErrSessionNotFound)
  | Some s => let '(s', a) := f s in (update_session r h s', a)
  end.

Definition Replicator_Acknowledge (r : Replicator) (id tick : Z) : Replicator * res unit :=
  if re_closed r then (r, Err ErrReplicatorClosed) else
  match lookup_session r id with
  | Err e => (r, Err e)
  | Ok h =>
      match with_session r h (fun s => Acknowledge s tick (ring_latest (re_ring r))) with
      | (r, Err e) => (count CinvalidAcks 1 r, Err e)
      | (r, Ok _) => (r, Ok tt)
      end
  end.

Definition Replicator_ForceFull (r : Replicator) (id : Z) : Replicator * res unit :=
  if re_closed r then (r, Err ErrReplicatorClosed) else
  match lookup_session r id with
  | Err e => (r, Err e)
  | Ok h =>
      let '(r, _) := with_session r h (fun s => (ForceFull s, Ok tt)) in
      (count CforcedFull 1 r, Ok tt)
  end.

Definition Replicator_SetQualityTier (r : Replicator) (id tier : Z) : Replicator * res unit :=
  if re_closed r then (r, Err ErrReplicatorClosed) else
  match lookup_session r id with
  | Err e => (r, Err e)
  | Ok h =>
      match with_session r h (fun s => SetQualityTier s tier) with
      | (r, Err e) => (r, Err e)
      | (r, Ok _) => (count CqualitySet 1 r, Ok tt)
      end
  end.

Definition HandleControl (r : Replicator) (id : Z) (raw : list byte) : Replicator * res unit :=
  if re_closed r then (r, Err ErrReplicatorClosed) else
  match DecodeControl raw with
  | Err e => (count CinvalidControls 1 r, Err e)
  | Ok message =>
      match lookup_session r id with
      | Err e => (r, Err e)
      | Ok h =>
          match SnapshotRing_Latest (Some (re_ring r)) with
          | None => (r, Err ErrSnapshotNotFound)
          | Some latest =>
              if negb (cm_RoomID message =? sm_RoomID (sn_Meta latest))
                 || negb (cm_Epoch message =? sm_Epoch (sn_Meta latest))
              then (count CinvalidControls 1 r, Err ErrInvalidControl) else
              match with_session r h (fun s => handleControl s message (sn_Tick latest)) with
              | (r, Err e) =>
                  let r := count CinvalidControls 1 r in
                  (if cm_Type message =? ControlAck then count CinvalidAcks 1 r else r, Err e)
              | (r, Ok _) =>
                  (if cm_Type message =? ControlResync
                   then count CresyncRequests 1 (count CforcedFull 1 r) else r, Ok tt)
              end
          end
      end
  end.

(** ** Preparing and committing frames *)

(** [once] is the recorded result of the first [Commit] or [Abort]. *)
Record PreparedFrame := mkPreparedFrame {
  pf_Frame : DeltaFrame;
  pf_Datagrams : list (list byte);
  pf_state : nat;
  pf_snapshot : Snapshot;
  pf_sequence : Z;
  pf_generation : Z;
  pf_full : bool;
  pf_once : option (res unit)
}.

Definition set_once (p : PreparedFrame) (result : res unit) : PreparedFrame :=
  mkPreparedFrame (pf_Frame p) (pf_Datagrams p) (pf_state p) (pf_snapshot p) (pf_sequence p)
    (pf_generation p) (pf_full p) (Some result).

Definition Commit (r : Replicator) (p : PreparedFrame) : Replicator * PreparedFrame * res unit :=
  match pf_once p with
  | Some result => (r, p, result)
  | None =>
      let '(r, result) := with_session r (pf_state p)
        (fun s => commitPrepared s (pf_snapshot p) (pf_sequence p) (pf_generation p) (pf_full p)) in
      let r := if is_ok result
               then count (if df_Kind (pf_Frame p) =? FrameFull then CfullFrames else CdeltaFrames) 1 r
               else r in
      (r, set_once p result, result)
  end.

Definition PreparedFrame_Abort (p : PreparedFrame) : PreparedFrame :=
  match pf_once p with
  | Some _ => p
  | None => set_once p (Err ErrPreparedFrameStale)
  end.

Definition projectAndNormalize (r : Replicator) (projection : ProjectionContext)
    (snapshot : Snapshot) : res Snapshot :=
  projected ← runProjector (re_projector r) projection (Snapshot_Clone snapshot);
  if negb (sm_RoomID (sn_Meta projected) =? sm_RoomID (sn_Meta snapshot))
     || negb (sm_Epoch (sn_Meta projected) =? sm_Epoch (sn_Meta snapshot))
     || negb (sm_Tick (sn_Meta projected) =? sm_Tick (sn_Meta snapshot))
     || negb (sm_SchemaVersion (sn_Meta projected) =? sm_SchemaVersion (sn_Meta snapshot))
  then Err ErrInvalidFrame
  else NewSnapshot (sn_Meta projected) (sn_Objects projected) (re_limits r).

(** The pure part of [prepareLatest], after the session was prepared: the
    projected snapshot, its frame, the encoding and the datagrams. *)
Definition buildFrame (r : Replicator) (p : Prepared) (current : Snapshot)
    : res (Snapshot * DeltaFrame * list byte * list (list byte)) :=
  current ← projectAndNormalize r
    (mkContext (pr_info p) (pr_qualityTier p) (pr_previous p) None (pr_full p)) current;
  frame ← BuildDelta (pr_base p) current;
  encoded ← EncodeFrame frame (re_limits r);
  packets ← FragmentFrame frame (pr_sequence p) encoded (re_maxDatagram r) (re_limits r);
  Ok (current, frame, encoded, packets).

Definition prepareLatest (r : Replicator) (h : nat) : Replicator * res PreparedFrame :=
  match SnapshotRing_Latest (Some (re_ring r)) with
  | None => (r, Err ErrSnapshotNotFound)
  | Some current =>
      match with_session r h (fun s => prepare s (sn_Tick current)) with
      | (r, Err e) => (r, Err e)
      | (r, Ok p) =>
          match buildFrame r p current with
          | Err e => (r, Err e)
          | Ok (current, frame, encoded, packets) =>
              (count Cdatagrams (len packets) (count CencodedBytes (len encoded) r),
               Ok (mkPreparedFrame frame packets h current (pr_sequence p) (pr_generation p)
                     (df_Kind frame =? FrameFull) None))
          end
      end
  end.

Definition PrepareLatest (r : Replicator) (id : Z) : Replicator * res PreparedFrame :=
  if re_closed r then (r, Err ErrReplicatorClosed) else
  match lookup_session r id with
  | Err e => (r, Err e)
  | Ok h => prepareLatest r h
  end.

Definition BuildLatest (r : Replicator) (id : Z)
    : Replicator * res (DeltaFrame * list (list byte)) :=
  match PrepareLatest r id with
  | (r, Err e) => (r, Err e)
  | (r, Ok prepared) =>
      let prepared := PreparedFrame_Abort prepared in
      (r, Ok (pf_Frame prepared, pf_Datagrams prepared))
  end.

(** ** Sending *)

(** The loop over the packets of a transport without batches. *)
Fixpoint sendPackets (r : Replicator) (t : Transport) (id : Z) (packets : list (list byte))
    : Replicator * res unit :=
  match packets with
  | [] => (r, Ok tt)
  | packet :: rest =>
      match call r (CallDatagram t id packet) with
      | (r, Err e) => (r, Err e)
      | (r, Ok _) => sendPackets (count CsentBytes (len packet) r) t id rest
      end
  end.

Definition sendFrame (r : Replicator) (t : Transport) (id : Z) (packets : list (list byte))
    : Replicator * res unit :=
  if tr_batch t then
    match call r (CallBatch t id packets) with
    | (r, Err e) => (r, Err e)
    | (r, Ok _) => (foldl (fun r packet => count CsentBytes (len packet) r) r packets, Ok tt)
    end
  else sendPackets r t id packets.

(** The result carries the frame also when sending or committing failed. *)
Definition SendLatest (r : Replicator) (id : Z) : Replicator * option DeltaFrame * res unit :=
  if re_closed r then (r, None, Err ErrReplicatorClosed) else
  match lookup_session r id with
  | Err e => (r, None, Err e)
  | Ok h =>
      match re_transport r with
      | None => (r, None, Err ErrTransportMissing)
      | Some t =>
          match prepareLatest r h with
          | (r, Err e) => (r, None, Err e)
          | (r, Ok prepared) =>
              match sendFrame r t id (pf_Datagrams prepared) with
              | (r, Err e) => (count CsendErrors 1 r, Some (pf_Frame prepared), Err e)
              | (r, Ok _) =>
                  match Commit r prepared with
                  | (r, _, Err e) => (count CsendErrors 1 r, Some (pf_Frame prepared), Err e)
                  | (r, _, Ok _) => (r, Some (pf_Frame prepared), Ok tt)
                  end
              end
          end
      end
  end.

Definition SendReliable (r : Replicator) (id : Z) (payload : list byte) : Replicator * res unit :=
  if re_closed r then (r, Err ErrReplicatorClosed) else
  match lookup_session r id with
  | Err e => (r, Err e)
  | Ok _ =>
      match re_transport r with
      | None => (r, Err ErrTransportMissing)
      | Some t =>
          match call r (CallReliable t id ([] ++ payload)) with
          | (r, Err e) => (count CsendErrors 1 r, Err e)
          | (r, Ok _) => (count CsentBytes (len payload) r, Ok tt)
          end
      end
  end.

(** ** Replacing collaborators *)

(** The registration of the sessions with a new lifecycle transport; on an
    error the ones already registered are removed again. *)
Fixpoint registerAll (r : Replicator) (t : Transport) (registered : list Z)
    (infos : list SessionInfo) : Replicator * res unit :=
  match infos with
  | [] => (r, Ok tt)
  | info :: rest =>
      match call r (CallRegister t info) with
      | (r, Err e) => (foldl (fun r id => (call r (CallRemove t id)).1) r registered, Err e)
      | (r, Ok _) => registerAll r t (registered ++ [si_ID info]) rest
      end
  end.

Definition force_handle (r : Replicator) (h : nat) : Replicator :=
  match re_heap r !! h with
  | Some s => update_session r h (ForceFull s)
  | None => r
  end.

Definition session_infos (r : Replicator) (states : list nat) : list SessionInfo :=
  omap (fun h => ss_info <$> re_heap r !! h) states.

Definition SetTransport (r : Replicator) (transport : option Transport) : Replicator * res unit :=
  if re_closed r then (r, Err ErrReplicatorClosed) else
  let old := re_transport r in
  let states := (map_to_list (re_sessions r)).*2 in
  let infos := session_infos r states in
  if sameTransport old transport then (r, Ok tt) else
  let registering :=
    match transport with
    | Some t => if tr_lifecycle t then registerAll r t [] infos else (r, Ok tt)
    | None => (r, Ok tt)
    end in
  match registering with
  | (r, Err e) => (r, Err e)
  | (r, Ok _) =>
      let r := set_transport r transport in
      let r := foldl force_handle r states in
      let r := if negb (sameTransport old transport)
               then foldl (fun r info => transport_remove r old (si_ID info)) r infos else r in
      (r, Ok tt)
  end.

Definition SetProjector (r : Replicator) (projector : option Projector) : Replicator * res unit :=
  let projector := default nilProjectorFunc projector in
  if re_closed r then (r, Err ErrReplicatorClosed) else
  if negb (Z.of_nat (size (re_sessions r)) =? 0) || negb (SnapshotRing_Len (Some (re_ring r)) =? 0)
  then (r, Err ErrSchemaFrozen) else (set_projector r projector, Ok tt).

(** ** Observers *)

Definition Session (r : Replicator) (id : Z) : option SessionSnapshot :=
  match lookup_session r id with
  | Err _ => None
  | Ok h => Some (SessionState_Snapshot (re_heap r !! h))
  end.

Definition SessionIDs (r : Replicator) : list Z :=
  insertion_sort (fun id => id) (map_to_list (re_sessions r)).*1.

Record ReplicatorStats := mkReplicatorStats {
  rs_counters : replicatorCounters;
  rs_ActiveSessions : Z;
  rs_SnapshotsRetained : Z
}.

Definition Stats (r : Replicator) : ReplicatorStats :=
  mkReplicatorStats (re_stats r) (Z.of_nat (size (re_sessions r)))
    (SnapshotRing_Len (Some (re_ring r))).

(** ** Closing *)

(** The body of the loop over the sessions. *)
Definition close_entry (transport : option Transport) (r : Replicator) (e : Z * nat) : Replicator :=
  close_handle (transport_remove r transport e.1) e.2.

Definition Close (r : Replicator) : Replicator :=
  if re_closed r then r else
  let r := set_rclosed r true in
  let transport := re_transport r in
  let sessions := re_sessions r in
  let r := set_transport (set_sessions r ∅) None in
  let r := foldl (close_entry transport) r (map_to_list sessions) in
  set_ring r (SnapshotRing_Reset (re_ring r)).

(** A method of a possibly nil replicator: [None] is nil. *)
Definition on_replicator {A} (r : option Replicator) (nil : A)
    (f : Replicator -> Replicator * A) : option Replicator * A :=
  match r with
  | None => (None, nil)
  | Some r => let '(r', a) := f r in (Some r', a)
  end.

End Methods.

(** The methods on a pointer receiver. *)
Definition Replicator_Publish `{!Network} r snapshot :=
  on_replicator r (Err ErrReplicatorClosed) (fun r => Publish r snapshot).
Definition Replicator_RegisterSession `{!Network} r info :=
  on_replicator r (Err ErrSessionNotFound) (fun r => RegisterSession r info).
Definition Replicator_RemoveSession `{!Network} r id :=
  on_replicator r false (fun r => RemoveSession r id).
Definition Replicator_HandleControl `{!Network} r id raw :=
  on_replicator r (Err ErrReplicatorClosed) (fun r => HandleControl r id raw).
Definition Replicator_PrepareLatest `{!Network} r id :=
  on_replicator r (Err ErrReplicatorClosed) (fun r => PrepareLatest r id).
Definition Replicator_SendReliable `{!Network} r id payload :=
  on_replicator r (Err ErrReplicatorClosed) (fun r => SendReliable r id payload).
Definition Replicator_SetTransport `{!Network} r transport :=
  on_replicator r (Err ErrReplicatorClosed) (fun r => SetTransport r transport).
Definition Replicator_SetProjector `{!Network} r projector :=
  on_replicator r (Err ErrReplicatorClosed) (fun r => SetProjector r projector).
Definition Replicator_Close `{!Network} (r : option Replicator) : option Replicator := Close <$> r.

(** ** Invariants *)

(** The sessions a transport has registered, according to the calls made. *)
Definition live_step (t : Transport) (ids : gset Z) (entry : tcall * res unit) : gset Z :=
  match entry with
  | (CallRegister t' info, answer) =>
      if bool_decide (t' = t) && is_ok answer then {[si_ID info]} ∪ ids else ids
  | (CallRemove t' id, _) => if bool_decide (t' = t) then ids ∖ {[id]} else ids
  | _ => ids
  end.

Definition live (log : list (tcall * res unit)) (t : Transport) : gset Z :=
  foldl (live_step t) ∅ log.

#[global] Arguments live : simpl never.

(** The sessions a lifecycle transport should have. *)
Definition expected_live (r : Replicator) (t : Transport) : gset Z :=
  if bool_decide (re_transport r = Some t) && tr_lifecycle t then dom (re_sessions r) else ∅.

(** A snapshot as it is sent: canonical and of machine-width values. *)
Definition sendable (limits : Limits) (x : Snapshot) : Prop := canonical limits x /\ wf_snapshot x.

(** A session with a history in which only such snapshots were committed. *)
Definition session_good (limits : Limits) (s : SessionState) : Prop :=
  exists h, session_inv s h /\ Forall (sendable limits) (hs_commits h).

(** A projector whose results have the static types of its arguments. *)
Definition typed_projector (p : Projector) : Prop :=
  forall ctx x out, wf_snapshot x -> runProjector p ctx x = Ok out -> wf_snapshot out.

Record replicator_core (r : Replicator) : Prop := {
  rv_ring : exists log, ring_refines (re_ring r) log /\ Forall wf_snapshot log;
  rv_heap : Forall (session_good (re_limits r)) (re_heap r);
  rv_projector : typed_projector (re_projector r);
  rv_sessions : forall id h, re_sessions r !! id = Some h -> id <> 0
    /\ exists s, re_heap r !! h = Some s /\ si_ID (ss_info s) = id /\ ss_closed s = false;
  rv_closed : re_closed r = true ->
    re_sessions r = ∅ /\ re_transport r = None /\ ring_items (re_ring r) = [];
  rv_limits : normalizeLimits (re_limits r) = re_limits r;
  rv_comparable : forall t, re_transport r = Some t -> tr_comparable t = true
}.

(** In addition, the transport knows exactly the registered sessions. *)
Record replicator_inv (r : Replicator) : Prop := {
  rv_core :> replicator_core r;
  rv_live : forall t, live (re_log r) t = expected_live r t
}.

(** ** Lemmas *)

Lemma live_snoc log e t : live (log ++ [e]) t = live_step t (live log t) e.
Proof. unfold live. by rewrite foldl_app. Qed.

Lemma session_exec_open s h op :
  op <> OpClose -> ss_closed (session_exec (s, h) op).1 = ss_closed s.
Proof.
  destruct op as [m latest|tick latest| |tier|target|snapshot sequence generation full|];
    cbn [session_exec]; intros Hne; try done.
  - unfold handleControl, acceptAck. repeat case_match; simplify_eq/=; congruence.
  - unfold Acknowledge, acceptAck. repeat case_match; simplify_eq/=; congruence.
  - unfold ForceFull. case_match; simplify_eq/=; congruence.
  - unfold SetQualityTier. repeat case_match; simplify_eq/=; congruence.
  - unfold prepare. repeat case_match; simplify_eq/=; congruence.
  - unfold commitPrepared. repeat case_match; simplify_eq/=; congruence.
Qed.

(** The commits a call adds to the history. *)
Definition op_sendable (limits : Limits) (op : session_op) : Prop :=
  match op with OpCommit x _ _ _ => sendable limits x | _ => True end.

Lemma session_exec_good limits s h op :
  session_inv s h -> Forall (sendable limits) (hs_commits h) -> wf_session_op op ->
  op_sendable limits op -> session_good limits (session_exec (s, h) op).1.
Proof.
  intros Hinv Hall Hop Hsend. exists (session_exec (s, h) op).2.
  split; [by apply session_exec_inv|].
  destruct op as [m latest|tick latest| |tier|target|snapshot sequence generation full|];
    cbn [session_exec snd]; try done.
  - destruct (handleControl s m latest) as [s' a]. cbn. unfold add_ack. by repeat case_match.
  - destruct (Acknowledge s tick latest) as [s' a]. cbn. unfold add_ack. by repeat case_match.
  - destruct (commitPrepared _ _ _ _ _) as [s' a]. cbn. unfold add_commit. case_match; [|done].
    apply Forall_app. split; [done|]. by apply Forall_singleton.
Qed.

Lemma wf_objects_equiv l k : objects_equiv l k -> Forall wf_object l -> Forall wf_object k.
Proof.
  intros (m & Hp & Heq) Hl. rewrite Hp in Hl. clear Hp.
  induction Heq as [|a b m k (Hr & Ha & Hc) Heq IH]; [constructor|].
  apply Forall_cons in Hl as [(Hwr & Hwa & Hwc) Hl]. constructor; [|by apply IH].
  unfold wf_object. rewrite <-Hr, <-Ha, <-Hc. done.
Qed.

Lemma wf_NewSnapshot meta objects limits out :
  NewSnapshot meta objects limits = Ok out -> wf_meta meta -> Forall wf_object objects ->
  wf_snapshot out.
Proof.
  intros Hnew Hm Ho. pose proof (NewSnapshot_objects_equiv _ _ _ _ Hnew) as Heq.
  apply NewSnapshot_inv in Hnew as (_ & _ & <- & _). split; [done|]. by eapply wf_objects_equiv.
Qed.

Section Invariants.
Context `{!Network}.

(** Changing a session in place, by a call of the session other than [Close]. *)
Definition session_call {A} (limits : Limits) (f : SessionState -> SessionState * A) : Prop :=
  forall s, exists op, wf_session_op op /\ op <> OpClose /\ op_sendable limits op
    /\ forall h, (f s).1 = (session_exec (s, h) op).1.

Lemma heap_update_core r h s s' :
  replicator_core r -> re_heap r !! h = Some s -> session_good (re_limits r) s' ->
  ss_info s' = ss_info s -> ss_closed s' = ss_closed s ->
  replicator_core (update_session r h s').
Proof.
  intros [Hring Hheap Hpj Hsess Hcl Hlim Hcmp] Hs Hgood Hinfo Hclosed. split; cbn; try done.
  - by apply Forall_insert.
  - intros id h' Hid. destruct (Hsess id h' Hid) as (Hne & x & Hx & Hxi & Hxc). split; [done|].
    destruct (decide (h' = h)) as [->|Hh].
    + exists s'. rewrite list_lookup_insert_eq by (by eapply lookup_lt_Some).
      assert (x = s) as -> by congruence. split_and!; congruence.
    + exists x. rewrite list_lookup_insert_ne by done. done.
Qed.

Lemma with_session_inv {A} r h (f : SessionState -> SessionState * res A) :
  replicator_inv r -> session_call (re_limits r) f -> replicator_inv (with_session r h f).1.
Proof.
  intros Hinv Hf. unfold with_session. destruct (re_heap r !! h) as [s|] eqn:Hs; [|done].
  destruct (Hf s) as (op & Hop & Hne & Hsend & Hexec). destruct (f s) as [s' a]. cbn in *.
  assert (Hgood : session_good (re_limits r) s) by (eapply Forall_lookup_1; [apply Hinv|done]).
  destruct Hgood as (hist & Hhist & Hcommits). rewrite (Hexec hist).
  split; [|exact (rv_live _ Hinv)]. eapply heap_update_core; [apply Hinv|done| | |].
  - by apply session_exec_good.
  - apply (le_info _ _ (session_exec_le s hist op)).
  - by apply session_exec_open.
Qed.

Lemma count_inv c n r : replicator_inv r -> replicator_inv (count c n r).
Proof. intros [[Hring Hheap Hpj Hsess Hcl Hlim Hcmp] Hlive]. by split; [split|]. Qed.

Lemma call_acknowledge limits tick latest : session_call limits (fun s => Acknowledge s tick latest).
Proof.
  intros s. exists (OpAcknowledge tick latest). split_and!; [done..|]. intros h. cbn.
  by destruct (Acknowledge s tick latest).
Qed.

Lemma call_forceFull limits : session_call limits (fun s => (ForceFull s, @Ok rerror unit tt)).
Proof. intros s. by exists OpForceFull. Qed.

Lemma call_qualityTier limits tier : session_call limits (fun s => SetQualityTier s tier).
Proof. intros s. by exists (OpSetQualityTier tier). Qed.

Lemma call_control limits m latest :
  in_u 32 (cm_Sequence m) -> session_call limits (fun s => handleControl s m latest).
Proof.
  intros Hm s. exists (OpControl m latest). split_and!; [done..|]. intros h. cbn.
  by destruct (handleControl s m latest).
Qed.

Lemma call_prepare limits target : session_call limits (fun s => prepare s target).
Proof. intros s. by exists (OpPrepare target). Qed.

Lemma call_commit limits snapshot sequence generation full :
  0 < sn_Tick snapshot -> in_u 32 sequence -> sendable limits snapshot ->
  session_call limits (fun s => commitPrepared s snapshot sequence generation full).
Proof.
  intros Ht Hq Hsend s. exists (OpCommit snapshot sequence generation full). split_and!; [done..|].
  intros h. cbn. by destruct (commitPrepared s snapshot sequence generation full).
Qed.

#[local] Hint Resolve count_inv with_session_inv : cube.

Lemma Publish_inv r snapshot :
  replicator_inv r -> wf_snapshot snapshot -> replicator_inv (Publish r snapshot).1.
Proof.
  intros Hinv [Hwf Hwo]. unfold Publish. destruct (re_closed r) eqn:Hopen; [done|].
  destruct (NewSnapshot _ _ _) as [normalized|] eqn:Hnew; [|done].
  destruct (SnapshotRing_Add _ _) as [ring|] eqn:Hadd; [|done]. apply count_inv.
  destruct Hinv as [[[log [Hring Hwfl]] Hheap Hpj Hsess Hcl Hlim Hcmp] Hlive]. (split; [split|]); cbn; try done.
  - assert (Hm : sn_Meta normalized = sn_Meta snapshot) by (by apply NewSnapshot_inv in Hnew as (_ & _ & -> & _)).
    pose proof (SnapshotRing_Add_refines (re_ring r) log normalized Hring) as Hr.
    rewrite Hm, Hadd in Hr. specialize (Hr Hwf). destruct (log_add log normalized) as [log'|] eqn:Hlog; [|done].
    exists log'. split; [apply Hr|].
    assert (Hwn : wf_snapshot normalized) by (by eapply wf_NewSnapshot).
    unfold log_add in Hlog. ok_inv. apply Forall_app. split; [done|]. by apply Forall_singleton.
  - congruence.
Qed.

Lemma Acknowledge_rinv r id tick : replicator_inv r -> replicator_inv (Replicator_Acknowledge r id tick).1.
Proof.
  intros Hinv. unfold Replicator_Acknowledge. destruct (re_closed r); [done|].
  destruct (lookup_session r id) as [h|]; [|done].
  pose proof (with_session_inv r h _ Hinv (call_acknowledge _ tick (ring_latest (re_ring r)))) as Hw.
  destruct (with_session _ _ _) as [r' []]; cbn in *; auto with cube.
Qed.

Lemma ForceFull_rinv r id : replicator_inv r -> replicator_inv (Replicator_ForceFull r id).1.
Proof.
  intros Hinv. unfold Replicator_ForceFull. destruct (re_closed r); [done|].
  destruct (lookup_session r id) as [h|]; [|done].
  pose proof (with_session_inv r h _ Hinv (call_forceFull _)) as Hw.
  destruct (with_session _ _ _) as [r' a]; cbn in *. by apply count_inv.
Qed.

Lemma SetQualityTier_rinv r id tier :
  replicator_inv r -> replicator_inv (Replicator_SetQualityTier r id tier).1.
Proof.
  intros Hinv. unfold Replicator_SetQualityTier. destruct (re_closed r); [done|].
  destruct (lookup_session r id) as [h|]; [|done].
  pose proof (with_session_inv r h _ Hinv (call_qualityTier _ tier)) as Hw.
  destruct (with_session _ _ _) as [r' []]; cbn in *; auto with cube.
Qed.

Lemma HandleControl_inv r id raw : replicator_inv r -> replicator_inv (HandleControl r id raw).1.
Proof.
  intros Hinv. unfold HandleControl. destruct (re_closed r); [done|].
  destruct (DecodeControl raw) as [m|] eqn:Hdec; [|by apply count_inv].
  apply DecodeControl_inv in Hdec as ((_ & _ & _ & _ & _ & Hq) & _).
  destruct (lookup_session r id) as [h|]; [|done].
  destruct (SnapshotRing_Latest _) as [latest|]; [|done].
  destruct (_ || _); [by apply count_inv|].
  pose proof (with_session_inv r h _ Hinv (call_control _ m (sn_Tick latest) Hq)) as Hw.
  destruct (with_session _ _ _) as [r' []]; cbn in *; case_match; auto with cube.
Qed.

Lemma prepareLatest_inv r h : replicator_inv r -> replicator_inv (prepareLatest r h).1.
Proof.
  intros Hinv. unfold prepareLatest. destruct (SnapshotRing_Latest _) as [current|]; [|done].
  pose proof (with_session_inv r h _ Hinv (call_prepare _ (sn_Tick current))) as Hw.
  destruct (with_session _ _ _) as [r' [p|]]; cbn in *; [|done].
  destruct (buildFrame r' p current) as [[[[? ?] ?] ?]|]; cbn; auto with cube.
Qed.

Lemma PrepareLatest_inv r id : replicator_inv r -> replicator_inv (PrepareLatest r id).1.
Proof.
  intros Hinv. unfold PrepareLatest. destruct (re_closed r); [done|].
  destruct (lookup_session r id) as [h|]; [by apply prepareLatest_inv|done].
Qed.

Lemma Commit_inv r p :
  replicator_inv r -> 0 < sn_Tick (pf_snapshot p) -> in_u 32 (pf_sequence p) ->
  sendable (re_limits r) (pf_snapshot p) -> replicator_inv (Commit r p).1.1.
Proof.
  intros Hinv Ht Hq Hsend. unfold Commit. destruct (pf_once p); [done|].
  pose proof (with_session_inv r (pf_state p) _ Hinv
    (call_commit _ (pf_snapshot p) (pf_sequence p) (pf_generation p) (pf_full p) Ht Hq Hsend)) as Hw.
  destruct (with_session _ _ _) as [r' a]; cbn in *. case_match; auto with cube.
Qed.

End Invariants.

(** ** Lemmas: preparing *)

Lemma projectAndNormalize_ok r ctx snapshot out :
  projectAndNormalize r ctx snapshot = Ok out ->
  canonical (re_limits r) out /\ sn_Meta out = sn_Meta snapshot
  /\ exists projected, runProjector (re_projector r) ctx snapshot = Ok projected
     /\ objects_equiv (sn_Objects projected) (sn_Objects out).
Proof.
  unfold projectAndNormalize. rewrite Snapshot_Clone_id. intros H. ok_inv. bool_to_prop.
  pose proof (NewSnapshot_canonical _ _ _ _ H) as Hcan.
  pose proof (NewSnapshot_objects_equiv _ _ _ _ H) as Heq.
  apply NewSnapshot_inv in H as (_ & _ & Hm & _). split_and!; [done| |by eexists].
  rewrite Hm. destruct (sn_Meta a), (sn_Meta snapshot); cbn in *. by subst.
Qed.

Lemma buildFrame_ok r p current snapshot frame encoded packets :
  buildFrame r p current = Ok (snapshot, frame, encoded, packets) ->
  projectAndNormalize r (mkContext (pr_info p) (pr_qualityTier p) (pr_previous p) None (pr_full p))
    current = Ok snapshot
  /\ BuildDelta (pr_base p) snapshot = Ok frame /\ EncodeFrame frame (re_limits r) = Ok encoded
  /\ FragmentFrame frame (pr_sequence p) encoded (re_maxDatagram r) (re_limits r) = Ok packets.
Proof. unfold buildFrame. intros H. ok_inv. by split_and!. Qed.

Lemma prepareLatest_ok r h r' pf :
  prepareLatest r h = (r', Ok pf) ->
  exists s s1 current p encoded,
    re_heap r !! h = Some s /\ SnapshotRing_Latest (Some (re_ring r)) = Some current
    /\ prepare s (sn_Tick current) = (s1, Ok p)
    /\ buildFrame (update_session r h s1) p current
       = Ok (pf_snapshot pf, pf_Frame pf, encoded, pf_Datagrams pf)
    /\ pf_state pf = h /\ pf_sequence pf = pr_sequence p /\ pf_generation pf = pr_generation p
    /\ pf_full pf = (df_Kind (pf_Frame pf) =? FrameFull) /\ pf_once pf = None
    /\ r' = count Cdatagrams (len (pf_Datagrams pf))
              (count CencodedBytes (len encoded) (update_session r h s1)).
Proof.
  unfold prepareLatest. destruct (SnapshotRing_Latest _) as [current|] eqn:Hl; [|done].
  unfold with_session. destruct (re_heap r !! h) as [s|] eqn:Hs; [|done].
  destruct (prepare s (sn_Tick current)) as [s1 [p|]] eqn:Hp; [|done].
  destruct (buildFrame _ p current) as [[[[snapshot frame] encoded] packets]|] eqn:Hb; [|done].
  intros [= <- <-]. by exists s, s1, current, p, encoded.
Qed.

Lemma latest_tick r snapshot :
  replicator_inv r -> SnapshotRing_Latest (Some (re_ring r)) = Some snapshot -> 0 < sn_Tick snapshot.
Proof.
  intros Hinv Hl. destruct (rv_ring r Hinv) as (log & Hring & _).
  rewrite (SnapshotRing_Latest_refines _ _ Hring) in Hl. destruct (rr_ticks _ _ Hring) as [_ Hp].
  rewrite Forall_forall in Hp. apply Hp. by apply last_Some_elem_of.
Qed.

Lemma latest_wf r snapshot :
  replicator_inv r -> SnapshotRing_Latest (Some (re_ring r)) = Some snapshot -> wf_snapshot snapshot.
Proof.
  intros Hinv Hl. destruct (rv_ring r Hinv) as (log & Hring & Hwf).
  rewrite (SnapshotRing_Latest_refines _ _ Hring) in Hl.
  rewrite Forall_forall in Hwf. apply Hwf. by apply last_Some_elem_of.
Qed.

Lemma prepared_wf r h r' pf :
  replicator_inv r -> prepareLatest r h = (r', Ok pf) ->
  0 < sn_Tick (pf_snapshot pf) /\ in_u 32 (pf_sequence pf) /\ sendable (re_limits r) (pf_snapshot pf).
Proof.
  intros Hinv (s & s1 & current & p & encoded & Hs & Hl & Hp & Hb & _ & Hq & _)%prepareLatest_ok.
  apply buildFrame_ok in Hb as (Hproj & _). apply projectAndNormalize_ok in Hproj as (Hcan & Hm & projected & Hrun & Heq).
  apply prepare_ok in Hp as (_ & _ & _ & Hseq & _). split_and!.
  - unfold sn_Tick. rewrite Hm. by eapply latest_tick.
  - rewrite Hq, Hseq. apply nextSequence_range.
  - split; [done|]. pose proof (latest_wf _ _ Hinv Hl) as Hwl.
    destruct (rv_projector _ Hinv _ _ _ Hwl Hrun) as [_ Hwo].
    split; [rewrite Hm; apply Hwl|by eapply wf_objects_equiv].
Qed.

Section MoreInvariants.
Context `{!Network}.

(** Calls that do not concern the lifecycle of sessions. *)
Definition data_call (c : tcall) : Prop :=
  match c with CallRegister _ _ | CallRemove _ _ => False | _ => True end.

Lemma data_call_inv r c : replicator_inv r -> data_call c -> replicator_inv (call r c).1.
Proof.
  intros [[Hring Hheap Hpj Hsess Hcl Hlim Hcmp] Hlive] Hc. (split; [split|]); cbn; try done.
  intros t. rewrite live_snoc, Hlive. by destruct c.
Qed.

Lemma sendPackets_inv r t id packets : replicator_inv r -> replicator_inv (sendPackets r t id packets).1.
Proof.
  revert r. induction packets as [|p ps IH]; intros r Hinv; cbn [sendPackets]; [done|].
  pose proof (data_call_inv r (CallDatagram t id p) Hinv I) as Hc.
  destruct (call r _) as [r' []]; cbn in *; [by apply IH, count_inv|done].
Qed.

Lemma count_fold_inv r (packets : list (list byte)) :
  replicator_inv r -> replicator_inv (foldl (fun r packet => count CsentBytes (len packet) r) r packets).
Proof. revert r. induction packets as [|p ps IH]; intros r Hinv; cbn; [done|]. by apply IH, count_inv. Qed.

Lemma sendFrame_inv r t id packets : replicator_inv r -> replicator_inv (sendFrame r t id packets).1.
Proof.
  intros Hinv. unfold sendFrame. destruct (tr_batch t); [|by apply sendPackets_inv].
  pose proof (data_call_inv r (CallBatch t id packets) Hinv I) as Hc.
  destruct (call r _) as [r' []]; cbn in *; [by apply count_fold_inv|done].
Qed.

Lemma sendPackets_limits r t id packets :
  re_limits (sendPackets r t id packets).1 = re_limits r.
Proof.
  revert r. induction packets as [|p ps IH]; intros r; cbn [sendPackets]; [done|].
  cbn [call]. destruct (network_answer _ _); cbn; [by rewrite IH|done].
Qed.

Lemma sendFrame_limits r t id packets : re_limits (sendFrame r t id packets).1 = re_limits r.
Proof.
  unfold sendFrame. destruct (tr_batch t); [|apply sendPackets_limits].
  cbn [call]. destruct (network_answer _ _); cbn; [|done].
  match goal with |- re_limits (foldl _ ?x _) = _ => change (re_limits r) with (re_limits x); generalize x end.
  induction packets as [|p ps IH]; intros x; cbn; [done|]. by rewrite IH.
Qed.

Lemma SendLatest_inv r id : replicator_inv r -> replicator_inv (SendLatest r id).1.1.
Proof.
  intros Hinv. unfold SendLatest. destruct (re_closed r); [done|].
  destruct (lookup_session r id) as [h|]; [|done]. destruct (re_transport r) as [t|]; [|done].
  pose proof (prepareLatest_inv r h Hinv) as Hp.
  destruct (prepareLatest r h) as [r1 [pf|]] eqn:Hprep; [|done].
  destruct (prepared_wf _ _ _ _ Hinv Hprep) as (Ht & Hq & Hsend).
  assert (Hl1 : re_limits r1 = re_limits r).
  { apply prepareLatest_ok in Hprep as (? & ? & ? & ? & ? & _ & _ & _ & _ & _ & _ & _ & _ & _ & ->). done. }
  pose proof (sendFrame_inv r1 t id (pf_Datagrams pf) Hp) as Hs.
  pose proof (sendFrame_limits r1 t id (pf_Datagrams pf)) as Hl2.
  destruct (sendFrame _ _ _ _) as [r2 []]; cbn in *; [|by apply count_inv].
  pose proof (Commit_inv r2 pf Hs Ht Hq) as Hc. rewrite Hl2, Hl1 in Hc. specialize (Hc Hsend).
  destruct (Commit r2 pf) as [[r3 pf'] []]; cbn in *; [done|by apply count_inv].
Qed.

Lemma SendReliable_inv r id payload : replicator_inv r -> replicator_inv (SendReliable r id payload).1.
Proof.
  intros Hinv. unfold SendReliable. destruct (re_closed r); [done|].
  destruct (lookup_session r id); [|done]. destruct (re_transport r) as [t|]; [|done].
  pose proof (data_call_inv r (CallReliable t id ([] ++ payload)) Hinv I) as Hc.
  destruct (call r _) as [r' []]; cbn in *; by apply count_inv.
Qed.

Lemma BuildLatest_inv r id : replicator_inv r -> replicator_inv (BuildLatest r id).1.
Proof.
  intros Hinv. unfold BuildLatest. pose proof (PrepareLatest_inv r id Hinv) as Hp.
  destruct (PrepareLatest r id) as [r' []]; done.
Qed.

Lemma typed_nilProjector : typed_projector nilProjectorFunc.
Proof. intros ctx x out Hx [= <-]. by rewrite Snapshot_Clone_id. Qed.

Lemma SetProjector_inv r projector :
  replicator_inv r -> (forall p, projector = Some p -> typed_projector p) ->
  replicator_inv (SetProjector r projector).1.
Proof.
  intros Hinv Hp. unfold SetProjector. destruct (re_closed r) eqn:Hc; [done|]. destruct (_ || _); [done|].
  destruct Hinv as [[] Hlive]. split; [split|]; cbn; try done.
  destruct projector; cbn; [by apply Hp|apply typed_nilProjector].
Qed.

(** Allocating a session, and admitting it under its identifier. *)
Lemma alloc_inv r info state :
  replicator_inv r -> NewSessionState info = Ok state ->
  replicator_inv (set_heap r (re_heap r ++ [state])) /\ session_good (re_limits r) state
  /\ ss_info state = info /\ ss_closed state = false.
Proof.
  intros [[Hring Hheap Hpj Hsess Hcl Hlim Hcmp] Hlive] Hnew. unfold NewSessionState in Hnew.
  destruct (si_ID info =? 0); [done|]. injection Hnew as <-.
  assert (Hgood : session_good (re_limits r) (fresh_session info)).
  { eexists. split; [apply fresh_session_inv|constructor]. }
  split_and!; [|done..]. (split; [split|]); cbn; try done.
  - apply Forall_app. split; [done|]. by apply Forall_singleton.
  - intros id h Hh. destruct (Hsess id h Hh) as (? & s & Hs & ?). split; [done|]. exists s.
    split; [|done]. by apply lookup_app_l_Some.
Qed.

Lemma admit_core r info state h :
  replicator_core r -> re_heap r !! h = Some state -> ss_info state = info ->
  ss_closed state = false -> si_ID info <> 0 -> re_closed r = false ->
  replicator_core (set_sessions r (<[si_ID info := h]> (re_sessions r))).
Proof.
  intros [Hring Hheap Hpj Hsess Hcl Hlim Hcmp] Hs <- Hopen Hne Hropen.
  split; cbn; try done; [|congruence].
  intros id h' [[<- <-]|[_ Hh]]%lookup_insert_Some; [|by apply Hsess].
  split; [done|]. by exists state.
Qed.

Lemma log_core r e : replicator_core r -> replicator_core (log_call r e).
Proof. intros []. by split. Qed.

Lemma session_good_close limits s : session_good limits s -> session_good limits (set_closed s).
Proof. intros (hist & Hs & Hc). by apply (session_exec_good limits s hist OpClose). Qed.

(** A session no identifier refers to may be changed freely. *)
Lemma heap_free_core r h s :
  replicator_core r -> (forall id, re_sessions r !! id <> Some h) -> session_good (re_limits r) s ->
  replicator_core (update_session r h s).
Proof.
  intros [Hring Hheap Hpj Hsess Hcl Hlim Hcmp] Hfree Hgood. split; cbn; try done.
  - by apply Forall_insert.
  - intros id h' Hid. destruct (Hsess id h' Hid) as (? & x & Hx & ?). split; [done|]. exists x.
    split; [|done]. rewrite list_lookup_insert_ne; [done|]. intros ->. by apply (Hfree id).
Qed.

Lemma live_register log t info answer t' :
  live (log ++ [(CallRegister t info, answer)]) t'
  = if bool_decide (t = t') && is_ok answer then {[si_ID info]} ∪ live log t' else live log t'.
Proof. by rewrite live_snoc. Qed.

Lemma live_remove log t id answer t' :
  live (log ++ [(CallRemove t id, answer)]) t'
  = if bool_decide (t = t') then live log t' ∖ {[id]} else live log t'.
Proof. by rewrite live_snoc. Qed.

Lemma RegisterSession_inv r info : replicator_inv r -> replicator_inv (RegisterSession r info).1.
Proof.
  intros Hinv. unfold RegisterSession. destruct (Z.eqb_spec (si_ID info) 0) as [|Hid]; [done|].
  destruct (NewSessionState info) as [state|] eqn:Hnew; [|done].
  destruct (re_closed r) eqn:Hopen; [done|].
  destruct (re_sessions r !! si_ID info) eqn:Hnone; [done|].
  destruct (alloc_inv r info state Hinv Hnew) as (Hinv1 & Hgood & Hinfo & Hsopen).
  set (r1 := set_heap r (re_heap r ++ [state])) in *. set (h := length (re_heap r)).
  assert (Hh : re_heap r1 !! h = Some state) by (cbn; by rewrite lookup_app_r, Nat.sub_diag by done).
  pose proof (rv_live _ Hinv1) as Hlive.
  assert (Hdom : forall m : gmap Z nat, dom (<[si_ID info := h]> m) = {[si_ID info]} ∪ dom m)
    by (intros; apply dom_insert_L).
  destruct (re_transport r1) as [t|] eqn:Ht.
  - destruct (tr_lifecycle t) eqn:Hlc.
    + cbn [call]. destruct (network_answer _ _) as [|e] eqn:Hans; cbn [fst].
      * apply count_inv. split; [apply (admit_core _ _ state); [by apply log_core, Hinv1|done..]|].
        intros t'. cbn. rewrite live_register, Hlive. unfold expected_live. cbn in Ht |- *.
        rewrite Ht. cbn [is_ok]. rewrite andb_true_r. destruct (decide (t = t')) as [->|Hne].
        -- rewrite !bool_decide_eq_true_2, Hlc by done. cbn. by rewrite Hdom.
        -- by rewrite !bool_decide_eq_false_2 by congruence.
      * split.
        -- apply heap_free_core; [by apply log_core, Hinv1| |by apply session_good_close].
           intros id Hbad. cbn in Hbad. destruct (rv_sessions _ Hinv _ _ Hbad) as (_ & x & Hx & _).
           apply lookup_lt_Some in Hx. unfold h in Hx. lia.
        -- intros t'. cbn. rewrite live_register. cbn [is_ok]. rewrite andb_false_r. apply Hlive.
    + apply count_inv. split; [by apply (admit_core _ _ state); [apply Hinv1|..]|].
      intros t'. transitivity (expected_live r1 t'); [apply Hlive|].
      unfold expected_live. cbn in Ht |- *. rewrite Ht.
      destruct (decide (t = t')) as [->|Hne]; [by rewrite Hlc, !andb_false_r|].
      by rewrite !bool_decide_eq_false_2 by congruence.
  - apply count_inv. split; [by apply (admit_core _ _ state); [apply Hinv1|..]|].
    intros t'. transitivity (expected_live r1 t'); [apply Hlive|].
    unfold expected_live. cbn in Ht |- *. by rewrite Ht.
Qed.

Lemma transport_remove_core r t id : replicator_core r -> replicator_core (transport_remove r t id).
Proof. intros Hc. unfold transport_remove. repeat case_match; [by apply log_core|done|done]. Qed.

Lemma transport_remove_live r t id t' :
  live (re_log (transport_remove r t id)) t'
  = if bool_decide (t = Some t') && tr_lifecycle t' then live (re_log r) t' ∖ {[id]}
    else live (re_log r) t'.
Proof.
  unfold transport_remove. destruct t as [t|]; [|by rewrite bool_decide_eq_false_2].
  destruct (tr_lifecycle t) eqn:Hlc; cbn.
  - rewrite live_remove. destruct (decide (t = t')) as [->|Hne].
    + by rewrite !bool_decide_eq_true_2, Hlc by done.
    + by rewrite !bool_decide_eq_false_2 by congruence.
  - destruct (decide (t = t')) as [->|Hne]; [by rewrite Hlc, andb_false_r|].
    by rewrite bool_decide_eq_false_2 by congruence.
Qed.

Lemma transport_remove_fields r t id :
  re_heap (transport_remove r t id) = re_heap r
  /\ re_sessions (transport_remove r t id) = re_sessions r
  /\ re_transport (transport_remove r t id) = re_transport r
  /\ re_closed (transport_remove r t id) = re_closed r
  /\ re_ring (transport_remove r t id) = re_ring r.
Proof. unfold transport_remove. by repeat case_match. Qed.

Lemma close_handle_core r h :
  replicator_core r -> (forall id, re_sessions r !! id <> Some h) ->
  replicator_core (close_handle r h).
Proof.
  intros Hc Hfree. unfold close_handle. destruct (re_heap r !! h) as [s|] eqn:Hs; [|done].
  apply heap_free_core; [done|done|]. apply session_good_close.
  eapply Forall_lookup_1; [apply Hc|done].
Qed.

Lemma close_handle_fields r h :
  re_sessions (close_handle r h) = re_sessions r /\ re_log (close_handle r h) = re_log r
  /\ re_transport (close_handle r h) = re_transport r /\ re_closed (close_handle r h) = re_closed r
  /\ re_ring (close_handle r h) = re_ring r.
Proof. unfold close_handle. by case_match. Qed.

(** Distinct identifiers have distinct handles. *)
Lemma sessions_inj r id id' h :
  replicator_core r -> re_sessions r !! id = Some h -> re_sessions r !! id' = Some h -> id = id'.
Proof.
  intros Hc H1 H2. destruct (rv_sessions _ Hc _ _ H1) as (_ & s & Hs & <- & _).
  destruct (rv_sessions _ Hc _ _ H2) as (_ & s' & Hs' & <- & _). congruence.
Qed.

Lemma delete_session_core r id :
  replicator_core r -> replicator_core (set_sessions r (delete id (re_sessions r))).
Proof.
  intros [Hring Hheap Hpj Hsess Hcl Hlim Hcmp]. split; cbn; try done.
  - intros id' h [_ Hh]%lookup_delete_Some. by apply Hsess.
  - intros Hc. destruct (Hcl Hc) as (-> & ?). by rewrite delete_empty.
Qed.

Lemma RemoveSession_inv r id : replicator_inv r -> replicator_inv (RemoveSession r id).1.
Proof.
  intros Hinv. unfold RemoveSession. destruct (id =? 0); [done|].
  destruct (re_sessions r !! id) as [h|] eqn:Hh; [|done]. cbn [fst]. apply count_inv.
  set (r1 := set_sessions r (delete id (re_sessions r))).
  set (r2 := transport_remove r1 (re_transport r) id).
  assert (H2 : replicator_core r2) by (apply transport_remove_core, delete_session_core, Hinv).
  destruct (transport_remove_fields r1 (re_transport r) id) as (_ & Hs2 & Ht2 & _). fold r2 in Hs2, Ht2.
  destruct (close_handle_fields r2 h) as (Hs3 & Hl3 & Ht3 & _). split.
  - apply close_handle_core; [done|]. intros id' Hid'. rewrite Hs2 in Hid'. cbn in Hid'.
    apply lookup_delete_Some in Hid' as [Hne Hid']. apply Hne.
    by eapply sessions_inj; [apply Hinv|..].
  - intros t. rewrite Hl3. unfold expected_live. rewrite Hs3, Ht3, Hs2, Ht2. unfold r2.
    rewrite transport_remove_live. cbn. rewrite (rv_live _ Hinv t). unfold expected_live.
    destruct (_ && _); [by rewrite dom_delete_L|done].
Qed.

(** *** Replacing the transport *)

Lemma list_to_set_snoc (l : list Z) x :
  list_to_set (C := gset Z) (l ++ [x]) = {[x]} ∪ list_to_set l.
Proof. rewrite list_to_set_app_L. cbn. set_solver. Qed.

Definition same_but_log (r r' : Replicator) : Prop := exists log, r' =
  mkReplicator (re_limits r) (re_maxDatagram r) (re_ring r) (re_projector r) (re_transport r)
    (re_sessions r) (re_heap r) (re_closed r) (re_stats r) log.

#[local] Instance same_but_log_trans : Transitive same_but_log.
Proof. intros r1 r2 r3 [l ->] [l' ->]. by exists l'. Qed.

Lemma same_but_log_refl r : same_but_log r r.
Proof. exists (re_log r). by destruct r. Qed.

Lemma same_but_log_call r c : same_but_log r (call r c).1.
Proof. by eexists. Qed.

Lemma same_but_log_core r r' : same_but_log r r' -> replicator_core r -> replicator_core r'.
Proof. intros [log ->] []. by split. Qed.

(** Removing a list of sessions from a transport. *)
Lemma remove_fold r t ids :
  let r' := foldl (fun r id => (call r (CallRemove t id)).1) r ids in
  same_but_log r r' /\ forall t', live (re_log r') t' =
    if bool_decide (t = t') then live (re_log r) t' ∖ list_to_set ids else live (re_log r) t'.
Proof.
  revert r. induction ids as [|id ids IH]; intros r; cbn [foldl].
  { split; [apply same_but_log_refl|]. intros t'. case_match; [|done]. cbn. set_solver. }
  destruct (IH (call r (CallRemove t id)).1) as [Hsame Hlive]. split.
  - etrans; [apply same_but_log_call|done].
  - intros t'. rewrite Hlive. cbn. rewrite live_remove. case_bool_decide; [set_solver|done].
Qed.

Lemma registerAll_spec r t registered infos r' res :
  registerAll r t registered infos = (r', res) ->
  live (re_log r) t = list_to_set registered ->
  same_but_log r r'
  /\ (forall t', t' <> t -> live (re_log r') t' = live (re_log r) t')
  /\ live (re_log r') t = if is_ok res then list_to_set (registered ++ (si_ID <$> infos)) else ∅.
Proof.
  revert r registered. induction infos as [|info infos IH]; intros r registered; cbn [registerAll].
  { intros [= <- <-] Hl. cbn. rewrite app_nil_r. split_and!; [apply same_but_log_refl|done|done]. }
  cbn [call]. destruct (network_answer _ _) as [|e] eqn:Hans.
  - intros Hrest Hl. apply IH in Hrest as (Hsame & Hother & Hlive).
    + split_and!.
      * etrans; [|exact Hsame]. by eexists.
      * intros t' Hne. rewrite Hother by done. cbn. rewrite live_register.
        by rewrite bool_decide_eq_false_2.
      * rewrite Hlive. csimpl. by rewrite <-app_assoc.
    + cbn. rewrite live_register, bool_decide_eq_true_2, Hl by done. cbn. by rewrite list_to_set_snoc.
  - intros [= <- <-] Hl.
    match goal with |- context [foldl _ ?x registered] => destruct (remove_fold x t registered) as [Hsame Hlive] end.
    split_and!.
    + etrans; [|exact Hsame]. by eexists.
    + intros t' Hne. rewrite Hlive, bool_decide_eq_false_2 by done. cbn. rewrite live_register.
      by rewrite bool_decide_eq_false_2.
    + rewrite Hlive, bool_decide_eq_true_2 by done. cbn. rewrite live_register, andb_false_r, Hl.
      set_solver.
Qed.

Lemma session_infos_ids r id :
  replicator_core r ->
  id ∈ si_ID <$> session_infos r (map_to_list (re_sessions r)).*2 <-> id ∈ dom (re_sessions r).
Proof.
  intros Hc. rewrite list_elem_of_fmap, elem_of_dom. unfold session_infos. split.
  - intros (info & -> & (h & Hh & Hinfo)%list_elem_of_omap).
    apply list_elem_of_fmap in Hh as ([id' h'] & -> & Hin%elem_of_map_to_list). cbn in Hinfo.
    destruct (rv_sessions _ Hc _ _ Hin) as (_ & s & Hs & Hid & _). rewrite Hs in Hinfo. cbn in Hinfo.
    injection Hinfo as <-. rewrite Hid. by exists h'.
  - intros [h Hh]. destruct (rv_sessions _ Hc _ _ Hh) as (_ & s & Hs & Hid & _). exists (ss_info s).
    split; [done|]. apply list_elem_of_omap. exists h. split; [|by rewrite Hs].
    apply list_elem_of_fmap. exists (id, h). split; [done|]. by apply elem_of_map_to_list.
Qed.

Lemma force_handle_core r h : replicator_core r -> replicator_core (force_handle r h).
Proof.
  intros Hc. unfold force_handle. destruct (re_heap r !! h) as [s|] eqn:Hs; [|done].
  assert (Hgood : session_good (re_limits r) s) by (eapply Forall_lookup_1; [apply Hc|done]).
  destruct Hgood as (hist & Hhist & Hcommits).
  eapply heap_update_core; [done|done| | |].
  - by apply (session_exec_good _ s hist OpForceFull).
  - apply (le_info _ _ (session_exec_le s hist OpForceFull)).
  - by apply (session_exec_open s hist OpForceFull).
Qed.

Lemma force_handles r hs :
  replicator_core r ->
  let r' := foldl force_handle r hs in
  replicator_core r' /\ re_log r' = re_log r /\ re_sessions r' = re_sessions r
  /\ re_transport r' = re_transport r.
Proof.
  revert r. induction hs as [|h hs IH]; intros r Hc; cbn [foldl]; [done|].
  destruct (IH (force_handle r h)) as (? & Hl & Hs & Ht); [by apply force_handle_core|].
  split; [done|]. rewrite Hl, Hs, Ht. clear. unfold force_handle. by case_match.
Qed.

Lemma remove_infos r old infos :
  let r' := foldl (fun r info => transport_remove r old (si_ID info)) r infos in
  same_but_log r r' /\ forall t, live (re_log r') t =
    if bool_decide (old = Some t) && tr_lifecycle t
    then live (re_log r) t ∖ list_to_set (si_ID <$> infos) else live (re_log r) t.
Proof.
  revert r. induction infos as [|info infos IH]; intros r; cbn [foldl].
  { split; [apply same_but_log_refl|]. intros t. case_match; [|done]. cbn. set_solver. }
  destruct (IH (transport_remove r old (si_ID info))) as [Hsame Hlive]. split.
  - etrans; [|exact Hsame]. unfold transport_remove. destruct old as [t|]; [|apply same_but_log_refl].
    destruct (tr_lifecycle t); [apply same_but_log_call|apply same_but_log_refl].
  - intros t. rewrite Hlive, transport_remove_live. destruct (_ && _); [csimpl; set_solver|done].
Qed.

Lemma sameTransport_differ old t :
  (forall o, old = Some o -> tr_comparable o = true) -> sameTransport old (Some t) = false ->
  old <> Some t.
Proof.
  intros Hcmp Hsame ->. cbn in Hsame.
  by rewrite Z.eqb_refl, (Hcmp t), bool_decide_eq_true_2 in Hsame by done.
Qed.

Lemma SetTransport_inv r transport :
  replicator_inv r -> (forall t, transport = Some t -> tr_comparable t = true) ->
  replicator_inv (SetTransport r transport).1.
Proof.
  intros Hinv Hcmp. unfold SetTransport. destruct (re_closed r) eqn:Hopen; [done|].
  destruct (sameTransport (re_transport r) transport) eqn:Hsame; [done|].
  set (states := (map_to_list (re_sessions r)).*2). set (infos := session_infos r states).
  pose proof (rv_core _ Hinv) as Hcore.
  assert (Hids : list_to_set (C := gset Z) (si_ID <$> infos) = dom (re_sessions r)).
  { apply set_eq. intros id. rewrite elem_of_list_to_set. by apply session_infos_ids. }
  assert (Hdiff : forall t, transport = Some t -> re_transport r <> Some t).
  { intros t ->. eapply sameTransport_differ; [|done]. apply Hcore. }
  destruct (match transport with Some _ => _ | None => _ end) as [r1 res] eqn:Hreg.
  assert (Hr1 : same_but_log r r1 /\ forall t, live (re_log r1) t =
    if bool_decide (transport = Some t) && tr_lifecycle t
    then (if is_ok res then dom (re_sessions r) else ∅) else live (re_log r) t).
  { destruct transport as [t|]; [destruct (tr_lifecycle t) eqn:Hlc|].
    - apply registerAll_spec in Hreg as (Hs & Hother & Hl); cbn [list_to_set].
      + split; [done|]. intros t'. destruct (decide (t = t')) as [->|Hne].
        * rewrite bool_decide_eq_true_2, Hlc, Hl by done. cbn. by rewrite Hids.
        * rewrite bool_decide_eq_false_2, Hother by congruence. done.
      + rewrite (rv_live _ Hinv). unfold expected_live. by rewrite bool_decide_eq_false_2 by auto.
    - injection Hreg as <- <-. split; [apply same_but_log_refl|]. intros t'.
      destruct (decide (t = t')) as [->|]; [by rewrite Hlc, andb_false_r|].
      by rewrite bool_decide_eq_false_2 by congruence.
    - injection Hreg as <- <-. split; [apply same_but_log_refl|]. intros t'.
      by rewrite bool_decide_eq_false_2. }
  clear Hreg. destruct Hr1 as [Hs1 Hl1].
  pose proof (same_but_log_core _ _ Hs1 Hcore) as Hc1.
  assert (Hf1 : re_sessions r1 = re_sessions r /\ re_transport r1 = re_transport r /\ re_closed r1 = false).
  { destruct Hs1 as [log ->]. by cbn. }
  destruct Hf1 as (Hss1 & Ht1 & Ho1).
  destruct res as [|e]; cbn [is_ok negb] in *.
  2:{ split; [done|]. intros t. cbn [fst]. rewrite Hl1. unfold expected_live. rewrite Hss1, Ht1.
      rewrite (rv_live _ Hinv). unfold expected_live.
      destruct (decide (transport = Some t)) as [Heq|Hne].
      - rewrite (bool_decide_eq_true_2 (transport = Some t)) by done.
        rewrite (bool_decide_eq_false_2 (re_transport r = Some t)) by (by apply Hdiff).
        cbn. by destruct (tr_lifecycle t).
      - by rewrite (bool_decide_eq_false_2 (transport = Some t)). }
  assert (Hc2 : replicator_core (set_transport r1 transport)).
  { destruct Hc1 as [? ? ? ? Hcl ? ?]. split; cbn; try done. congruence. }
  destruct (force_handles _ states Hc2) as (Hc3 & Hl3 & Hss3 & Ht3).
  set (r3 := foldl force_handle (set_transport r1 transport) states) in *. rewrite ?Hsame. cbn [negb].
  destruct (remove_infos r3 (re_transport r) infos) as [Hs4 Hl4].
  set (r4 := foldl _ r3 infos) in *. cbn [fst]. split; [by eapply same_but_log_core|].
  intros t. rewrite Hl4, Hl3. cbn [re_log set_transport]. rewrite Hl1, Hids.
  assert (Hf4 : re_sessions r4 = re_sessions r /\ re_transport r4 = transport).
  { destruct Hs4 as [log ->]. cbn. rewrite Hss3, Ht3. by cbn. }
  destruct Hf4 as [Hss4 Ht4]. unfold expected_live. rewrite Hss4, Ht4, (rv_live _ Hinv).
  unfold expected_live. destruct (decide (transport = Some t)) as [Heq|Hne].
  - rewrite (bool_decide_eq_true_2 (transport = Some t)) by done.
    rewrite (bool_decide_eq_false_2 (re_transport r = Some t)) by (by apply Hdiff). cbn.
    by destruct (tr_lifecycle t).
  - rewrite (bool_decide_eq_false_2 (transport = Some t)) by done. cbn.
    destruct (bool_decide _ && _); [set_solver|done].
Qed.

(** *** Closing *)

Lemma close_entry_fields transport r e :
  re_sessions (close_entry transport r e) = re_sessions r
  /\ re_transport (close_entry transport r e) = re_transport r
  /\ re_closed (close_entry transport r e) = re_closed r
  /\ re_ring (close_entry transport r e) = re_ring r.
Proof. unfold close_entry, close_handle, transport_remove. by repeat case_match. Qed.

Lemma close_entries limits r transport entries :
  Forall (session_good limits) (re_heap r) ->
  let r' := foldl (close_entry transport) r entries in
  Forall (session_good limits) (re_heap r') /\ length (re_heap r') = length (re_heap r)
  /\ (forall h s, re_heap r' !! h = Some s ->
        h ∈ entries.*2 \/ (exists s0, re_heap r !! h = Some s0 /\ ss_closed s0 = true) ->
        ss_closed s = true)
  /\ re_sessions r' = re_sessions r /\ re_transport r' = re_transport r
  /\ re_closed r' = re_closed r /\ re_ring r' = re_ring r /\ re_limits r' = re_limits r
  /\ re_projector r' = re_projector r
  /\ forall t, live (re_log r') t =
       if bool_decide (transport = Some t) && tr_lifecycle t
       then live (re_log r) t ∖ list_to_set entries.*1 else live (re_log r) t.
Proof.
  revert r. induction entries as [|[id h0] entries IH]; intros r Hgood; cbn [foldl].
  { split_and!; try done.
    - intros h s Hs [?%not_elem_of_nil|(s0 & Hs0 & ?)]; [done|congruence].
    - intros t. case_match; [|done]. cbn. set_solver. }
  assert (Hheap : re_heap (close_entry transport r (id, h0))
                  = alter set_closed h0 (re_heap r)).
  { unfold close_entry, close_handle. cbn [fst snd].
    destruct (transport_remove_fields r transport id) as (Hh & _). rewrite Hh.
    destruct (re_heap r !! h0) as [s|] eqn:Hs; cbn [update_session set_heap re_heap]; rewrite Hh.
    - apply list_eq. intros i. destruct (decide (i = h0)) as [->|Hne].
      + rewrite list_lookup_insert_eq by (by eapply lookup_lt_Some).
        by rewrite list_lookup_alter_eq, Hs.
      + by rewrite list_lookup_insert_ne, list_lookup_alter_ne by done.
    - apply list_eq. intros i. destruct (decide (i = h0)) as [->|Hne].
      + by rewrite list_lookup_alter_eq, Hs.
      + by rewrite list_lookup_alter_ne. }
  destruct (IH (close_entry transport r (id, h0))) as (Hg & Hlen & Hcl & Hs & Ht & Hc & Hr & Hli & Hpr & Hl).
  { rewrite Hheap. apply Forall_alter; [done|]. intros s _. apply session_good_close. }
  split_and!.
  - done.
  - rewrite Hlen, Hheap. apply length_alter.
  - intros h s Hh Hor. apply (Hcl h s Hh). rewrite Hheap.
    destruct Hor as [[->|Hin]%elem_of_cons|(s0 & Hs0 & Hs0c)].
    + right. assert (Hlt : (h0 < length (re_heap r))%nat).
      { apply lookup_lt_Some in Hh. rewrite Hlen, Hheap, length_alter in Hh. done. }
      apply lookup_lt_is_Some in Hlt as [s0 Hs0]. exists (set_closed s0).
      by rewrite list_lookup_alter_eq, Hs0.
    + by left.
    + right. destruct (decide (h = h0)) as [->|Hne].
      * exists (set_closed s0). by rewrite list_lookup_alter_eq, Hs0.
      * exists s0. by rewrite list_lookup_alter_ne.
  - rewrite Hs. apply close_entry_fields.
  - rewrite Ht. apply close_entry_fields.
  - rewrite Hc. apply close_entry_fields.
  - rewrite Hr. apply close_entry_fields.
  - rewrite Hli. unfold close_entry, close_handle, transport_remove. by repeat case_match.
  - rewrite Hpr. unfold close_entry, close_handle, transport_remove. by repeat case_match.
  - intros t. rewrite Hl. unfold close_entry. cbn [fst snd].
    destruct (close_handle_fields (transport_remove r transport id) h0) as (_ & -> & _).
    rewrite transport_remove_live. destruct (_ && _); [csimpl; set_solver|done].
Qed.

(** Closing an open replicator. *)
Lemma Close_open r :
  replicator_inv r -> re_closed r = false ->
  replicator_inv (Close r) /\ re_closed (Close r) = true
  /\ forall id h, re_sessions r !! id = Some h ->
       exists s, re_heap (Close r) !! h = Some s /\ ss_closed s = true.
Proof.
  intros Hinv Hopen. unfold Close. rewrite Hopen.
  set (r1 := set_transport (set_sessions (set_rclosed r true) ∅) None).
  change (re_transport (set_rclosed r true)) with (re_transport r).
  change (re_sessions (set_rclosed r true)) with (re_sessions r).
  pose proof (rv_core _ Hinv) as [(log & Hring & Hwfl) Hheap Hpj Hsess Hcl Hlim Hcmp].
  destruct (close_entries (re_limits r) r1 (re_transport r) (map_to_list (re_sessions r)) Hheap)
    as (Hg & Hlen & Hclosed & Hs & Ht & Hc & Hr & Hli & Hpr & Hl).
  set (r2 := foldl (close_entry (re_transport r)) r1 (map_to_list (re_sessions r))) in *.
  split_and!.
  - split; [split|]; cbn -[SnapshotRing_Reset].
    + exists []. rewrite Hr. split; [by eapply SnapshotRing_Reset_refines|constructor].
    + by rewrite Hli.
    + by rewrite Hpr.
    + intros id h. rewrite Hs. cbn. by rewrite lookup_empty.
    + intros _. rewrite Hs, Ht. done.
    + by rewrite Hli.
    + intros t. rewrite Ht. done.
    + intros t. rewrite Hl. cbn. rewrite (rv_live _ Hinv). unfold expected_live; cbn. rewrite Ht. cbn.
      rewrite (bool_decide_eq_false_2 (None = Some t)) by done. cbn.
      destruct (_ && _); [|done].
      assert (Hd : list_to_set (C := gset Z) (map_to_list (re_sessions r)).*1 = dom (re_sessions r)).
      { apply set_eq. intros id. rewrite elem_of_list_to_set, elem_of_dom, list_elem_of_fmap. split.
        - intros ([id' h] & -> & Hin%elem_of_map_to_list). by eexists.
        - intros [h Hh]. exists (id, h). split; [done|]. by apply elem_of_map_to_list. }
      rewrite Hd. set_solver.
  - cbn. by rewrite Hc.
  - intros id h Hh. cbn. destruct (Hsess id h Hh) as (_ & s0 & Hs0 & _).
    destruct (lookup_lt_is_Some_2 (re_heap r2) h) as [s Hss].
    { rewrite Hlen. by eapply lookup_lt_Some. }
    exists s. split; [done|]. apply (Hclosed h s Hss). left. apply list_elem_of_fmap.
    exists (id, h). split; [done|]. by apply elem_of_map_to_list.
Qed.

Lemma Close_inv r : replicator_inv r -> replicator_inv (Close r).
Proof.
  intros Hinv. destruct (re_closed r) eqn:Hopen; [by unfold Close; rewrite Hopen|].
  by apply (Close_open r Hinv Hopen).
Qed.

(** ** Reachable replicators *)

Definition wf_transport (t : option Transport) : Prop :=
  match t with Some t => tr_comparable t = true | None => True end.

Definition wf_config (config : ReplicatorConfig) : Prop :=
  wf_transport (rc_Transport config)
  /\ forall p, rc_Projector config = Some p -> typed_projector p.

Inductive replicator_step : Replicator -> Replicator -> Prop :=
| step_publish r snapshot : wf_snapshot snapshot -> replicator_step r (Publish r snapshot).1
| step_register r info : replicator_step r (RegisterSession r info).1
| step_remove r id : replicator_step r (RemoveSession r id).1
| step_acknowledge r id tick : replicator_step r (Replicator_Acknowledge r id tick).1
| step_forceFull r id : replicator_step r (Replicator_ForceFull r id).1
| step_quality r id tier : replicator_step r (Replicator_SetQualityTier r id tier).1
| step_control r id raw : replicator_step r (HandleControl r id raw).1
| step_build r id : replicator_step r (BuildLatest r id).1
| step_prepare r id : replicator_step r (PrepareLatest r id).1
| step_commit r p :
    0 < sn_Tick (pf_snapshot p) -> in_u 32 (pf_sequence p) ->
    sendable (re_limits r) (pf_snapshot p) -> replicator_step r (Commit r p).1.1
| step_send r id : replicator_step r (SendLatest r id).1.1
| step_reliable r id payload : replicator_step r (SendReliable r id payload).1
| step_transport r t : wf_transport t -> replicator_step r (SetTransport r t).1
| step_projector r p :
    (forall p', p = Some p' -> typed_projector p') -> replicator_step r (SetProjector r p).1
| step_close r : replicator_step r (Close r).

Lemma replicator_step_inv r r' : replicator_step r r' -> replicator_inv r -> replicator_inv r'.
Proof.
  intros Hstep Hinv. destruct Hstep;
    eauto using Publish_inv, RegisterSession_inv, RemoveSession_inv, Acknowledge_rinv,
      ForceFull_rinv, SetQualityTier_rinv, HandleControl_inv, BuildLatest_inv, PrepareLatest_inv,
      Commit_inv, SendLatest_inv, SendReliable_inv, SetProjector_inv, Close_inv.
  apply SetTransport_inv; [done|]. intros t' ->. done.
Qed.

Lemma NewReplicator_inv config :
  wf_config config -> replicator_inv (NewReplicator config).
Proof.
  intros [Ht Hpj]. split; [split|]; cbn -[NewSnapshotRing normalizeLimits].
  - exists []. split; [apply NewSnapshotRing_refines|constructor].
  - constructor.
  - destruct (rc_Projector config); cbn; [by apply Hpj|apply typed_nilProjector].
  - intros id h. by rewrite lookup_empty.
  - done.
  - apply normalizeLimits_idemp.
  - intros t Heq. unfold wf_transport in Ht. by rewrite Heq in Ht.
  - intros t. unfold live, expected_live. cbn -[NewSnapshotRing normalizeLimits]. rewrite dom_empty_L.
    by case_match.
Qed.

Lemma reachable_inv config r :
  wf_config config -> rtc replicator_step (NewReplicator config) r ->
  replicator_inv r.
Proof.
  intros Ht Hsteps. pose proof (NewReplicator_inv config Ht) as Hinv.
  induction Hsteps; eauto using replicator_step_inv.
Qed.

End MoreInvariants.

(** ** Lemmas: what a prepared frame does to its client *)

(** The baseline a frame was built against: none for a full frame, the
    snapshot sent for the acknowledged tick for a delta frame. *)
Definition frame_base (s : SessionState) (pf : PreparedFrame) (base : option Snapshot) : Prop :=
  (df_Kind (pf_Frame pf) = FrameFull /\ base = None)
  \/ (df_Kind (pf_Frame pf) = FrameDelta
      /\ exists b, base = Some b /\ ss_sent s !! ss_ackTick s = Some b
         /\ df_BaseTick (pf_Frame pf) = sn_Tick b).

Lemma BuildDelta_kind base current frame :
  BuildDelta base current = Ok frame ->
  match base with
  | None => df_Kind frame = FrameFull
  | Some b => df_Kind frame = FrameDelta /\ df_BaseTick frame = sn_Tick b
  end.
Proof. unfold BuildDelta. intros H. ok_inv. destruct base; ok_inv; done. Qed.

Lemma prepared_frame_correct r h r' pf :
  replicator_inv r -> small_limits (re_limits r) -> MaxComponentBytes (re_limits r) < 2 ^ 32 ->
  prepareLatest r h = (r', Ok pf) ->
  exists s base encoded,
    re_heap r !! h = Some s /\ frame_base s pf base /\ wf_frame (pf_Frame pf)
    /\ in_u 32 (pf_sequence pf)
    /\ FragmentFrame (pf_Frame pf) (pf_sequence pf) encoded (re_maxDatagram r) (re_limits r)
       = Ok (pf_Datagrams pf)
    /\ DecodeFrame encoded (re_limits r) = Ok (pf_Frame pf)
    /\ forall client,
         match base with
         | None => True
         | Some b => client = base /\ delta_headroom (re_limits r) b (pf_snapshot pf)
         end -> ApplyDelta client (pf_Frame pf) (re_limits r) = Ok (pf_snapshot pf).
Proof.
  intros Hinv Hsmall Hmax Hprep. pose proof (prepared_wf _ _ _ _ Hinv Hprep) as (_ & Hq & Hcan & Hwf).
  apply prepareLatest_ok in Hprep
    as (s & s1 & current & p & encoded & Hs & Hl & Hp & Hb & _ & Hseq & _).
  apply buildFrame_ok in Hb as (_ & Hdelta & Henc & Hfrag). cbn [re_limits re_maxDatagram
    update_session set_heap] in *.
  assert (Hgood : session_good (re_limits r) s) by (eapply Forall_lookup_1; [apply Hinv|done]).
  destruct Hgood as (hist & Hhist & Hcommits).
  pose proof (rv_limits _ Hinv) as Hnorm.
  apply prepare_ok in Hp as (_ & _ & _ & _ & _ & _ & Hbase).
  assert (Hbgood : forall b, pr_base p = Some b ->
    ss_sent s !! ss_ackTick s = Some b /\ sendable (re_limits r) b).
  { intros b Hpb. destruct Hbase as [[_ ?]|(_ & _ & _ & _ & b' & Hb' & Hsent)]; [congruence|].
    assert (b' = b) as -> by congruence. split; [done|].
    apply (si_sent _ _ Hhist), last_commit_tick in Hsent as [Hin _].
    rewrite Forall_forall in Hcommits. by apply Hcommits. }
  assert (Hwff : wf_frame (pf_Frame pf)).
  { eapply BuildDelta_wf; [|exact Hwf|exact Hdelta]. intros b Hpb. by apply Hbgood. }
  pose proof (BuildDelta_kind _ _ _ Hdelta) as Hkind.
  exists s, (pr_base p), encoded. split_and!; [done| |done|done|by rewrite Hseq| |].
  - destruct (pr_base p) as [b|]; [right|by left]. destruct Hkind as [Hk Hbt]. split; [done|].
    exists b. by split_and!; [|apply Hbgood|].
  - apply EncodeFrame_bytes in Henc as (-> & Hv & Hn & Hcs). apply DecodeFrame_bytes; try done.
    + by rewrite Hnorm.
    + apply FragmentFrame_fragmentable_inv in Hfrag as (_ & _ & _ & _ & [_ ?] & _). done.
  - intros client Hclient. destruct (pr_base p) as [b|] eqn:Hpb.
    + destruct Hclient as [-> Hroom]. eapply apply_build_some; [apply Hbgood|done| |done]; [done|].
      by rewrite Hnorm.
    + by eapply apply_build_none.
Qed.

(** ** Lemmas: how the datagrams of a frame arrive *)

(** The arrivals [es] and then [e] bring a client the whole frame: a frame of one
    datagram with [e] alone; a longer one when the first fragment finds room at
    the receiver, everything after it comes within the time to live, every
    fragment but the last one has arrived, in any order and any number of times,
    and [e] brings the last one.  Packets of other frames, and damaged ones, may
    come in between. *)
Inductive delivery (limits : Limits) (frame : DeltaFrame) (sequence : Z) (packets : list (list byte))
    (session : Z) (receiver : Reassembler) : list arrival -> arrival -> Prop :=
| delivery_single es e :
    length packets = 1%nat -> own packets session 0 e ->
    delivery limits frame sequence packets session receiver es e
| delivery_many e0 es e i k :
    ra_inflight receiver !! frameKey session frame sequence = None ->
    Z.of_nat (size (ra_inflight receiver)) < MaxInflightFrames limits ->
    own packets session i e0 -> i <> k ->
    Forall (harmless limits frame sequence packets session (ra_ttl receiver) (ar_time e0) k) es ->
    own packets session k e -> time_sub (ar_time e) (ar_time e0) < ra_ttl receiver ->
    (forall j, (j < length packets)%nat -> j <> k -> exists d, d ∈ e0 :: es /\ own packets session j d) ->
    delivery limits frame sequence packets session receiver (e0 :: es) e.

Lemma single_datagram limits frame sequence encoded m packets session r e :
  fragments_of limits frame sequence encoded m packets -> length packets = 1%nat ->
  ra_limits r = normalizeLimits limits -> own packets session 0 e ->
  (arrive r e).2 = Ok (Some encoded).
Proof.
  intros Hfrag Hone Hlim [_ Hpacket].
  destruct (fr_packet _ _ _ _ _ _ Hfrag _ _ Hpacket) as [c Hdec].
  unfold arrive, Reassembler_push. rewrite Hlim, DecodeDatagram_normalized, Hdec.
  assert (Hall : concat (chunk_at m encoded <$> seq 0 (length packets)) = encoded)
    by (apply concat_chunks, Hfrag).
  rewrite Hone in Hall. cbn [seq fmap list_fmap concat app] in Hall. rewrite app_nil_r in Hall. rewrite Hall.
  assert (Hcount : len packets = 1) by (unfold len; lia).
  unfold with_checksum, fragmentHeader; header_fields. by rewrite Hcount.
Qed.

Lemma delivery_rebuilds limits frame sequence encoded m packets session receiver es e :
  fragments_of limits frame sequence encoded m packets -> normalizeLimits limits = limits ->
  ra_limits receiver = limits -> delivery limits frame sequence packets session receiver es e ->
  (arrive (after receiver es) e).2 = Ok (Some encoded).
Proof.
  intros Hfrag Hnorm Hlim [es' e' Hone Hown|e0 es' e' i k Hnone Hsize Hi Hik Hall Hk Htime Hcover].
  - eapply single_datagram; [done..| |done]. destruct (after_limits receiver es') as [-> _]. by rewrite Hnorm.
  - eapply reassembly; rewrite ?Hnorm; eauto.
    pose proof (own_index _ _ _ _ Hi). pose proof (own_index _ _ _ _ Hk). lia.
Qed.

(** ** Lemmas: what sending changes *)

(** The part of a session that decides which frames may be acknowledged. *)
Definition same_history (s s' : SessionState) : Prop :=
  ss_sent s' = ss_sent s /\ ss_sentOrder s' = ss_sentOrder s /\ ss_committed s' = ss_committed s
  /\ ss_ackTick s' = ss_ackTick s /\ ss_lastSent s' = ss_lastSent s.

Definition heap_same (l l' : list SessionState) : Prop :=
  forall h s, l !! h = Some s -> exists s', l' !! h = Some s' /\ same_history s s'.

Lemma heap_same_refl l : heap_same l l.
Proof. intros h s Hs. by exists s. Qed.

Lemma heap_same_trans l1 l2 l3 : heap_same l1 l2 -> heap_same l2 l3 -> heap_same l1 l3.
Proof.
  intros H12 H23 h s Hs. destruct (H12 h s Hs) as (s2 & Hs2 & Hh2).
  destruct (H23 h s2 Hs2) as (s3 & Hs3 & Hh3). exists s3. split; [done|].
  unfold same_history in *. naive_solver congruence.
Qed.

Lemma heap_same_insert l h s s' :
  l !! h = Some s -> same_history s s' -> heap_same l (<[h := s']> l).
Proof.
  intros Hs Hsame h' x Hx. destruct (decide (h' = h)) as [->|Hne].
  - exists s'. rewrite list_lookup_insert_eq by (by eapply lookup_lt_Some). by simplify_eq.
  - exists x. by rewrite list_lookup_insert_ne.
Qed.

Lemma prepare_same s target : same_history s (prepare s target).1.
Proof. unfold prepare. by repeat case_match. Qed.

Lemma prepareLatest_same r h : heap_same (re_heap r) (re_heap (prepareLatest r h).1).
Proof.
  unfold prepareLatest. destruct (SnapshotRing_Latest _) as [current|]; [|apply heap_same_refl].
  unfold with_session. destruct (re_heap r !! h) as [s|] eqn:Hs; [|apply heap_same_refl].
  pose proof (prepare_same s (sn_Tick current)) as Hsame.
  destruct (prepare s (sn_Tick current)) as [s1 [p|e]]; cbn [fst] in *.
  - destruct (buildFrame _ _ _) as [[[[? ?] ?] ?]|]; cbn; by eapply heap_same_insert.
  - by eapply heap_same_insert.
Qed.

Lemma prepareLatest_log r h :
  re_log (prepareLatest r h).1 = re_log r /\ re_sessions (prepareLatest r h).1 = re_sessions r
  /\ re_transport (prepareLatest r h).1 = re_transport r.
Proof. unfold prepareLatest, with_session. by repeat case_match; simplify_eq/=. Qed.

Section Sending.
Context `{!Network}.

(** The calls that hand a frame's packets to a transport. *)
Definition frame_calls (t : Transport) (id : Z) (packets : list (list byte))
    : list (tcall * res unit) :=
  if tr_batch t then [(CallBatch t id packets, Ok tt)]
  else (fun p => (CallDatagram t id p, Ok tt)) <$> packets.

Lemma sendPackets_spec r t id packets r' res :
  sendPackets r t id packets = (r', res) ->
  re_heap r' = re_heap r
  /\ (is_ok res = true ->
      re_log r' = re_log r ++ ((fun p => (CallDatagram t id p, Ok tt)) <$> packets)).
Proof.
  revert r. induction packets as [|p ps IH]; intros r; cbn [sendPackets].
  { intros [= <- <-]. by rewrite app_nil_r. }
  cbn [call]. destruct (network_answer _ _) as [[]|e] eqn:Ha; [|by intros [= <- <-]].
  intros Hrun. destruct (IH _ Hrun) as [Hh Hl]. split; [done|]. intros Hok. rewrite (Hl Hok). cbn.
  by rewrite <-app_assoc.
Qed.

Lemma sendFrame_spec r t id packets r' res :
  sendFrame r t id packets = (r', res) ->
  re_heap r' = re_heap r /\ (is_ok res = true -> re_log r' = re_log r ++ frame_calls t id packets).
Proof.
  unfold sendFrame, frame_calls. destruct (tr_batch t); [|apply sendPackets_spec].
  cbn [call]. destruct (network_answer _ _) as [[]|e]; [|by intros [= <- <-]]. intros [= <- <-].
  match goal with |- context [foldl _ ?x packets] =>
    assert (Hf : forall y, re_heap (foldl (fun r packet => count CsentBytes (len packet) r) y packets) = re_heap y
                   /\ re_log (foldl (fun r packet => count CsentBytes (len packet) r) y packets) = re_log y);
    [|by destruct (Hf x) as [-> ->]] end.
  induction packets as [|p ps IH]; intros y; cbn; [done|]. by destruct (IH (count CsentBytes (len p) y)) as [-> ->].
Qed.

Lemma commitPrepared_err s x q g f s' e :
  commitPrepared s x q g f = (s', Err e) -> s' = s.
Proof. unfold commitPrepared. repeat case_match; intros; by simplify_eq. Qed.

Lemma commitPrepared_committed s x q g f s' :
  commitPrepared s x q g f = (s', Ok tt) -> ss_committed s' = q /\ sn_Tick x <= ss_lastSent s'.
Proof.
  unfold commitPrepared. destruct (ss_closed s); [done|]. destruct (_ || _); [done|].
  destruct (trimHistory _ _ _). intros [= <-]. cbn. split; [done|].
  destruct (Z.ltb_spec (ss_lastSent s) (sn_Tick x)); lia.
Qed.

Lemma trimHistory_newest m l t sent order' sent' :
  0 < m -> NoDup (l ++ [t]) -> trimHistory m (l ++ [t]) sent = (order', sent') -> sent' !! t = sent !! t.
Proof.
  intros Hm. revert sent. induction l as [|o l IH]; intros sent Hnd Htrim; cbn [app trimHistory] in Htrim.
  - rewrite (proj2 (Z.ltb_ge _ _)) in Htrim by (unfold len; cbn; lia). by injection Htrim as _ <-.
  - apply NoDup_cons in Hnd as [Ho Hnd]. destruct (_ <? _); [|by injection Htrim as _ <-].
    rewrite (IH _ Hnd Htrim). apply lookup_delete_ne. intros ->. apply Ho, elem_of_app. right. by apply list_elem_of_singleton.
Qed.

(** A committed snapshot is in the history of its session: trimming never drops
    the newest entry. *)
Lemma commitPrepared_stores s h x q g f s' :
  session_inv s h -> commitPrepared s x q g f = (s', Ok tt) -> ss_sent s' !! sn_Tick x = Some x.
Proof.
  intros Hinv Hrun. unfold commitPrepared in Hrun. destruct (ss_closed s); [done|]. destruct (_ || _); [done|].
  destruct (si_history _ _ Hinv) as [Hmax Hlen]. pose proof (si_order _ _ Hinv) as Hnd.
  pose proof (si_dom _ _ Hinv (sn_Tick x)) as Hdom. rewrite Snapshot_Clone_id in Hrun.
  destruct (trimHistory _ _ _) as [order' sent'] eqn:Htrim. injection Hrun as <-. cbn.
  destruct (ss_sent s !! sn_Tick x) as [y|] eqn:Hy.
  - destruct (ss_sentOrder s) as [|o l] eqn:Ho; cbn [trimHistory] in Htrim.
    + injection Htrim as <- <-. apply lookup_insert_eq.
    + rewrite (proj2 (Z.ltb_ge _ _)) in Htrim by done. injection Htrim as <- <-. apply lookup_insert_eq.
  - rewrite <-(lookup_insert_eq (ss_sent s) (sn_Tick x) x). eapply trimHistory_newest; [done| |done].
    apply NoDup_app. split_and!; [done| |apply NoDup_singleton].
    intros t Ht ->%list_elem_of_singleton. apply Hdom in Ht as [z Hz]. congruence.
Qed.

Lemma Commit_spec r p r' p' res :
  Commit r p = (r', p', res) -> pf_once p = None ->
  re_log r' = re_log r /\ pf_once p' = Some res
  /\ match res with
     | Err _ => heap_same (re_heap r) (re_heap r')
     | Ok _ => exists s', re_heap r' !! pf_state p = Some s' /\ ss_committed s' = pf_sequence p
                /\ sn_Tick (pf_snapshot p) <= ss_lastSent s'
     end.
Proof.
  unfold Commit, with_session. intros Hrun Honce. rewrite Honce in Hrun.
  destruct (re_heap r !! pf_state p) as [s|] eqn:Hs.
  2:{ injection Hrun as <- <- <-. split_and!; [done..|apply heap_same_refl]. }
  destruct (commitPrepared _ _ _ _ _) as [s' [[]|e]] eqn:Hc; injection Hrun as <- <- <-; cbn.
  - split_and!; [done|done|]. destruct (commitPrepared_committed _ _ _ _ _ _ Hc) as [? ?].
    exists s'. split; [|done]. rewrite ?list_lookup_insert_eq; [done|by eapply lookup_lt_Some].
  - split_and!; [done..|]. rewrite (commitPrepared_err _ _ _ _ _ _ _ Hc).
    eapply heap_same_insert; [done|]. by unfold same_history.
Qed.

Lemma Commit_stores r p r' p' :
  replicator_core r -> pf_once p = None -> Commit r p = (r', p', Ok tt) ->
  exists s, re_heap r' !! pf_state p = Some s /\ ss_sent s !! sn_Tick (pf_snapshot p) = Some (pf_snapshot p).
Proof.
  unfold Commit, with_session. intros Hcore Honce Hrun. rewrite Honce in Hrun.
  destruct (re_heap r !! pf_state p) as [s|] eqn:Hs; [|done].
  assert (Hgood : session_good (re_limits r) s) by (eapply Forall_lookup_1; [apply Hcore|done]).
  destruct Hgood as (hist & Hhist & _).
  destruct (commitPrepared _ _ _ _ _) as [s' [[]|e]] eqn:Hc; [|done]. injection Hrun as <- <-. cbn.
  exists s'. split; [apply list_lookup_insert_eq; by eapply lookup_lt_Some|by eapply commitPrepared_stores].
Qed.

End Sending.

(** ** Properties *)

Section Properties.
Context `{!Network}.

(** Whatever methods are called in whatever order and whatever the network
    answers, the replicator's state is consistent: every registered session is
    open and carries its own identifier, every session's history is consistent
    and holds only canonical snapshots, a closed replicator has no sessions,
    transport or snapshots, and the current lifecycle transport has exactly
    the registered sessions while every other transport has none left. *)
Theorem Replicator_consistent config r :
  wf_config config -> rtc replicator_step (NewReplicator config) r -> replicator_inv r.
Proof. apply reachable_inv. Qed.

(** C1. End to end: however the datagrams of a prepared frame arrive at a client
    (see [delivery]), the last of them completes the bytes of the frame, which
    decode, and applying the frame gives the client exactly the snapshot the
    server prepared for it: any client for a full frame, and for a delta a client
    that holds the snapshot sent for the acknowledged tick, if the union of the
    two snapshots is within the limits ([delta_headroom]).  When the frame is
    committed later, that snapshot is the one the session keeps for its tick and
    builds later deltas against. *)
Theorem Replicator_end_to_end config r id r' pf client :
  wf_config config -> rtc replicator_step (NewReplicator config) r ->
  small_limits (re_limits r) -> MaxComponentBytes (re_limits r) < 2 ^ 32 ->
  PrepareLatest r id = (r', Ok pf) ->
  exists h s base,
    re_sessions r !! id = Some h /\ re_heap r !! h = Some s /\ frame_base s pf base
    /\ (match base with
        | None => True
        | Some b => client = base /\ delta_headroom (re_limits r) b (pf_snapshot pf)
        end ->
        forall session receiver es e,
          ra_limits receiver = re_limits r ->
          delivery (re_limits r) (pf_Frame pf) (pf_sequence pf) (pf_Datagrams pf) session receiver es e ->
          exists bytes frame,
            (arrive (after receiver es) e).2 = Ok (Some bytes)
            /\ DecodeFrame bytes (re_limits r) = Ok frame
            /\ ApplyDelta client frame (re_limits r) = Ok (pf_snapshot pf))
    /\ (forall r1 r2 pf', rtc replicator_step r' r1 -> Commit r1 pf = (r2, pf', Ok tt) ->
        exists s2, re_heap r2 !! h = Some s2 /\ ss_sent s2 !! sn_Tick (pf_snapshot pf) = Some (pf_snapshot pf)).
Proof.
  intros Hcfg Hreach Hsmall Hmax Hprep. pose proof (reachable_inv _ _ Hcfg Hreach) as Hinv.
  assert (Hr' : replicator_step r r') by (pose proof (step_prepare r id) as Hst; by rewrite Hprep in Hst).
  pose proof (rv_limits _ Hinv) as Hnorm. unfold PrepareLatest in Hprep.
  destruct (re_closed r) eqn:Hopen; [done|]. unfold lookup_session in Hprep. rewrite Hopen in Hprep.
  destruct (id =? 0); [done|]. destruct (re_sessions r !! id) as [h|]; [|done].
  destruct (prepared_frame_correct _ _ _ _ Hinv Hsmall Hmax Hprep)
    as (s & base & encoded & Hs & Hbase & Hwf & Hq & Hfrag & Hdec & Happly).
  exists h, s, base. split_and!; [done..| |].
  - intros Hclient session receiver es e Hlim Hdel.
    exists encoded, (pf_Frame pf). split_and!; [|done|by apply Happly].
    destruct Hwf as (Hm & _ & Hbt & _).
    pose proof (FragmentFrame_fragmentable_inv _ _ _ _ _ _ Hfrag) as Hf.
    destruct (FragmentFrame_success _ _ _ _ _ Hm Hbt Hq Hf) as (packets & Hp' & Hfr).
    assert (packets = pf_Datagrams pf) as -> by congruence. by eapply delivery_rebuilds.
  - intros r1 r2 pf' Hlater Hcommit.
    assert (Hinv1 : replicator_inv r1).
    { apply (reachable_inv _ _ Hcfg). etrans; [exact Hreach|]. by eapply rtc_l. }
    apply prepareLatest_ok in Hprep as (? & ? & ? & ? & ? & _ & _ & _ & _ & <- & _ & _ & _ & Honce & _).
    eapply Commit_stores; eauto using rv_core.
Qed.

(** Sending is all or nothing: when [SendLatest] succeeds, the calls made were
    exactly those that hand all datagrams of the prepared frame to the current
    transport, all were accepted, and the session has the frame's sequence
    number committed; when it fails at any point, no session's sent snapshots,
    acknowledged, last sent or committed values have changed. *)
Theorem SendLatest_all_or_nothing r id r' frame result :
  SendLatest r id = (r', frame, result) ->
  match result with
  | Ok _ => exists h t r1 pf s', re_sessions r !! id = Some h /\ re_transport r = Some t
      /\ prepareLatest r h = (r1, Ok pf) /\ frame = Some (pf_Frame pf)
      /\ re_log r' = re_log r ++ frame_calls t id (pf_Datagrams pf)
      /\ re_heap r' !! h = Some s' /\ ss_committed s' = pf_sequence pf
      /\ sn_Tick (pf_snapshot pf) <= ss_lastSent s'
  | Err _ => heap_same (re_heap r) (re_heap r')
  end.
Proof.
  unfold SendLatest, lookup_session. destruct (re_closed r) eqn:Hopen.
  { intros [= <- <- <-]. apply heap_same_refl. }
  destruct (id =? 0); [intros [= <- <- <-]; apply heap_same_refl|].
  destruct (re_sessions r !! id) as [h|] eqn:Hh; [|intros [= <- <- <-]; apply heap_same_refl].
  destruct (re_transport r) as [t|] eqn:Ht; [|intros [= <- <- <-]; apply heap_same_refl].
  pose proof (prepareLatest_same r h) as Hsame. pose proof (prepareLatest_log r h) as (Hlog & _).
  destruct (prepareLatest r h) as [r1 [pf|e1]] eqn:Hprep; cbn [fst] in *;
    [|by intros [= <- <- <-]].
  destruct (sendFrame r1 t id (pf_Datagrams pf)) as [r2 [u|e2]] eqn:Hsend;
    destruct (sendFrame_spec _ _ _ _ _ _ Hsend) as [Hheap Hcalls].
  2:{ intros [= <- <- <-]. cbn. by rewrite Hheap. }
  apply prepareLatest_ok in Hprep as Hpf.
  destruct Hpf as (? & ? & ? & ? & ? & _ & _ & _ & _ & Hst & _ & _ & _ & Honce & _).
  destruct (Commit r2 pf) as [[r3 pf'] [u'|e3]] eqn:Hcommit;
    destruct (Commit_spec _ _ _ _ _ Hcommit Honce) as (Hlog3 & _ & Hres).
  - intros [= <- <- <-]. destruct Hres as (s' & Hs' & Hseq & Htick). rewrite Hst in Hs'.
    exists h, t, r1, pf, s'. split_and!; try done. by rewrite Hlog3, Hcalls, Hlog.
  - intros [= <- <- <-]. cbn. eapply heap_same_trans; [exact Hsame|]. by rewrite <-Hheap.
Qed.

(** Closing is final: afterwards every session that was registered is closed,
    no method accepts work any more, and a frame prepared before the close
    cannot be committed. *)
Theorem Replicator_Close_final r id h p snapshot info tick :
  replicator_inv r -> re_closed r = false -> re_sessions r !! id = Some h ->
  pf_state p = h -> pf_once p = None ->
  let r' := Close r in
  (exists s, re_heap r' !! h = Some s /\ ss_closed s = true)
  /\ (Commit r' p).2 = Err ErrSessionNotFound
  /\ Publish r' snapshot = (r', Err ErrReplicatorClosed)
  /\ SendLatest r' id = (r', None, Err ErrReplicatorClosed)
  /\ Replicator_Acknowledge r' id tick = (r', Err ErrReplicatorClosed)
  /\ is_ok (RegisterSession r' info).2 = false
  /\ SessionIDs r' = [] /\ SnapshotRing_Len (Some (re_ring r')) = 0.
Proof.
  intros Hinv Hopen Hh Hp Honce r'. destruct (Close_open r Hinv Hopen) as (Hinv' & Hc & Hcl).
  fold r' in Hinv', Hc, Hcl. destruct (Hcl id h Hh) as (s & Hs & Hsc).
  destruct (rv_closed _ Hinv' Hc) as (Hss & _ & Hring). split_and!.
  - by exists s.
  - unfold Commit. rewrite Honce, Hp. unfold with_session. rewrite Hs.
    unfold commitPrepared. by rewrite Hsc.
  - unfold Publish. by rewrite Hc.
  - unfold SendLatest. by rewrite Hc.
  - unfold Replicator_Acknowledge. by rewrite Hc.
  - unfold RegisterSession. destruct (si_ID info =? 0); [done|].
    destruct (NewSessionState info); [by rewrite Hc|done].
  - unfold SessionIDs. rewrite Hss, map_to_list_empty. done.
  - cbn. by rewrite Hring.
Qed.

(** The listing of sessions is sorted and complete. *)
Theorem SessionIDs_sorted r :
  StronglySorted (fun a b => a <= b) (SessionIDs r) /\ NoDup (SessionIDs r)
  /\ forall id, id ∈ SessionIDs r <-> is_Some (re_sessions r !! id).
Proof.
  unfold SessionIDs. destruct (insertion_sort_spec (fun id => id) (map_to_list (re_sessions r)).*1) as [Hs Hp].
  split_and!; [exact Hs| |].
  - rewrite Hp. apply NoDup_fst_map_to_list.
  - intros id. rewrite Hp, list_elem_of_fmap. split.
    + intros ([id' h] & -> & Hin%elem_of_map_to_list). by eexists.
    + intros [h Hh]. exists (id, h). split; [done|]. by apply elem_of_map_to_list.
Qed.

End Properties.

(** ** A sample run *)

(** A network that accepts every call. *)
Definition sample_network : Network := fun _ _ => Ok tt.

Definition sample_transport : Transport := mkTransport 1 true 1 false true.
Definition sample_config : ReplicatorConfig :=
  mkReplicatorConfig DefaultLimits 4 62 None (Some sample_transport).
Definition sample_registered : Replicator :=
  (@RegisterSession sample_network (NewReplicator sample_config) sample_info).1.
Definition sample_published : Replicator := (Publish sample_registered sample_snapshot).1.

Definition sample_prepared : PreparedFrame :=
  match (PrepareLatest sample_published 4).2 with
  | Ok pf => pf
  | Err _ => mkPreparedFrame (mkFrame sample_meta 0 0 []) [] 0 sample_snapshot 0 0 false None
  end.

Lemma sample_prepare :
  PrepareLatest sample_published 4 = ((PrepareLatest sample_published 4).1, Ok sample_prepared).
Proof.
  assert (Hok : is_ok (PrepareLatest sample_published 4).2 = true) by (vm_compute; reflexivity).
  unfold sample_prepared. by destruct (PrepareLatest sample_published 4) as [r' [pf|]].
Qed.

Definition prepared_arrival (i : nat) (now : Z) : arrival :=
  mkArrival 4 (default [] (pf_Datagrams sample_prepared !! i)) now 0.

Lemma sample_wf_config : wf_config sample_config.
Proof. split; [reflexivity|discriminate]. Qed.

Lemma sample_reachable :
  rtc (@replicator_step sample_network) (NewReplicator sample_config) sample_published.
Proof.
  eapply rtc_l; [apply step_register|]. eapply rtc_l; [apply step_publish|apply rtc_refl].
  by_evaluation.
Qed.

Lemma Replicator_consistent_witness : replicator_inv sample_published.
Proof.
  apply (@Replicator_consistent sample_network sample_config);
    [apply sample_wf_config|apply sample_reachable].
Defined.

Lemma sample_own i now : (i < 4)%nat -> own (pf_Datagrams sample_prepared) 4 i (prepared_arrival i now).
Proof.
  intros Hi. split; [reflexivity|]. unfold prepared_arrival. cbn [ar_packet].
  destruct (lookup_lt_is_Some_2 (pf_Datagrams sample_prepared) i) as [p Hp]; [|by rewrite Hp].
  exact Hi.
Qed.

Lemma sample_commit :
  Commit (PrepareLatest sample_published 4).1 sample_prepared
  = ((Commit (PrepareLatest sample_published 4).1 sample_prepared).1.1,
     (Commit (PrepareLatest sample_published 4).1 sample_prepared).1.2, Ok tt).
Proof.
  assert (Hok : (Commit (PrepareLatest sample_published 4).1 sample_prepared).2 = Ok tt) by (vm_compute; reflexivity).
  rewrite <-Hok. by destruct (Commit _ _) as [[]].
Qed.

Lemma Replicator_end_to_end_witness :
  let es := [prepared_arrival 0 110; mkArrival 4 [] 120 0; prepared_arrival 2 130] in
  (exists bytes frame,
    (arrive (after (NewReassembler DefaultLimits 1000) (prepared_arrival 3 100 :: es))
       (prepared_arrival 1 900)).2 = Ok (Some bytes)
    /\ DecodeFrame bytes DefaultLimits = Ok frame
    /\ ApplyDelta None frame DefaultLimits = Ok sample_snapshot)
  /\ exists s2, re_heap (Commit (PrepareLatest sample_published 4).1 sample_prepared).1.1 !! 0%nat = Some s2
     /\ ss_sent s2 !! sn_Tick sample_snapshot = Some sample_snapshot.
Proof.
  intros es.
  destruct (@Replicator_end_to_end sample_network sample_config sample_published 4
    (PrepareLatest sample_published 4).1 sample_prepared None)
    as (h & s & base & Hh & Hs & Hbase & Hall).
  - apply sample_wf_config.
  - apply sample_reachable.
  - vm_compute. repeat split; discriminate || reflexivity.
  - vm_compute. reflexivity.
  - apply sample_prepare.
  - assert (Hsnap : pf_snapshot sample_prepared = sample_snapshot) by (vm_compute; reflexivity).
    assert (Hlim : re_limits sample_published = DefaultLimits) by (vm_compute; reflexivity).
    rewrite <-Hsnap, <-Hlim in *. split.
    + destruct Hall as [Hall _].
      eapply (Hall _ 4 (NewReassembler DefaultLimits 1000) _ _ eq_refl).
      eapply (delivery_many _ _ _ _ _ _ (prepared_arrival 3 100) es (prepared_arrival 1 900) 3 1).
      * vm_compute. reflexivity.
      * vm_compute. reflexivity.
      * apply sample_own. lia.
      * discriminate.
      * unfold es. repeat apply List.Forall_cons; [split; [right; exists 0%nat|]
          |split; [left|]|split; [right; exists 2%nat|]|apply List.Forall_nil];
          first [split; [apply sample_own; lia|discriminate] | by_evaluation].
      * apply sample_own. lia.
      * vm_compute. reflexivity.
      * intros j Hj Hjk.
        assert (Hcases : j = 0%nat \/ j = 2%nat \/ j = 3%nat).
        { change (length (pf_Datagrams sample_prepared)) with 4%nat in Hj. lia. }
        destruct Hcases as [->|[->| ->]].
        -- exists (prepared_arrival 0 110). split; [right; left|apply sample_own; lia].
        -- exists (prepared_arrival 2 130). split; [right; right; right; left|apply sample_own; lia].
        -- exists (prepared_arrival 3 100). split; [left|apply sample_own; lia].
    + destruct Hall as [_ Hall]. destruct (Hall _ _ _ (rtc_refl _ _) sample_commit) as (s2 & Hs2 & Hsent).
      assert (Hh' : h = 0%nat) by (vm_compute in Hh; congruence). subst h. by exists s2.
  Unshelve. destruct Hbase as [[_ ->]|[Hk _]]; [exact I|].
    exfalso. vm_compute in Hk. discriminate Hk.
Defined.

Lemma sample_send :
  (@SendLatest sample_network sample_published 4).2 = Ok tt
  /\ (@SendLatest sample_network sample_published 4).1.2 = Some (pf_Frame sample_prepared).
Proof. split; vm_compute; reflexivity. Qed.

Lemma SendLatest_all_or_nothing_witness :
  exists h s', re_heap (@SendLatest sample_network sample_published 4).1.1 !! h = Some s'
    /\ 0 < ss_committed s' + 1.
Proof.
  destruct sample_send as [Hok Hframe].
  destruct (@SendLatest sample_network sample_published 4) as [[r' frame] result] eqn:Hsend.
  cbn in Hok, Hframe. rewrite Hok in Hsend.
  pose proof (@SendLatest_all_or_nothing sample_network sample_published 4 r' frame (Ok tt) Hsend) as H.
  cbn in H. destruct H as (h & t & r1 & pf & s' & Hh & Ht & Hp & _ & _ & Hs' & Hc & _).
  exists h, s'. split; [exact Hs'|]. rewrite Hc.
  destruct (prepared_wf _ _ _ _ (@reachable_inv sample_network sample_config _ sample_wf_config sample_reachable) Hp)
    as (_ & [Hq _] & _). lia.
Defined.

Lemma Replicator_Close_final_witness :
  (Commit (@Close sample_network sample_published) sample_prepared).2 = Err ErrSessionNotFound.
Proof.
  apply (@Replicator_Close_final sample_network sample_published 4 0 sample_prepared sample_snapshot
           sample_info 5).
  - apply (@reachable_inv sample_network sample_config); [apply sample_wf_config|apply sample_reachable].
  - vm_compute. reflexivity.
  - vm_compute. reflexivity.
  - vm_compute. reflexivity.
  - vm_compute. reflexivity.
Defined.
