(* ===== verification/SyncStream.v ===== *)
(** * Ordered state streams

    [src/syncstream/syncstream.go], [src/syncstream/lifecycle_journal.go], the
    replay of [src/syncstream/file_journal.go] and the health check of
    [src/syncstream/observability.go]: per-consumer packet streams with bounded
    replay history, acknowledgements, resynchronisation, persistence and a
    write-ahead journal.  Clock readings, the random epoch, the snapshot
    provider, the store and the journal's answers are arguments of the model. *)

From stdpp Require Import base list gmap strings sorting.
From Stdlib Require Import ZArith Lia.
From Stdlib Require Strings.String.
From S2P Require Import Prelude ReplTypes.

Local Open Scope Z_scope.

Inductive serror :=
| ErrTopicRequired | ErrAckAhead | ErrAckEpochMismatch | ErrPayloadTooLarge | ErrStreamLimit
| ErrSchemaTransitionRequiresFull | ErrSnapshotProviderRequired | ErrInvalidSnapshot
| ErrHistoryStoreRequired | ErrHistoryJournalRequired
  (* an error of a provider, a store or a journal *)
| ErrCollaborator (code : Z).

Abbreviation sres := (result serror).

Definition HistorySnapshotVersion : Z := 1.
Definition HistoryMutationVersion : Z := 1.

(** ** Data *)

Record Observer := mkObserver {
  ob_Kind : Z;
  ob_ID : Z;
  ob_Session : Z;
  ob_Scope : string
}.

Record Stream := mkStream {
  st_Topic : string;
  st_Key : Z
}.

#[export] Instance Observer_eq_dec : EqDecision Observer.
Proof. solve_decision. Defined.
#[export] Instance Stream_eq_dec : EqDecision Stream.
Proof. solve_decision. Defined.

#[export] Instance Observer_countable : Countable Observer.
Proof.
  refine (inj_countable' (fun o => (ob_Kind o, ob_ID o, ob_Session o, ob_Scope o))
            (fun '(a, b, c, d) => mkObserver a b c d) _).
  by intros [].
Defined.

#[export] Instance Stream_countable : Countable Stream.
Proof.
  refine (inj_countable' (fun s => (st_Topic s, st_Key s)) (fun '(a, b) => mkStream a b) _).
  by intros [].
Defined.

Abbreviation streamKey := (Observer * Stream)%type.

Record Packet := mkPacket {
  pk_Observer : Observer;
  pk_Stream : Stream;
  pk_Epoch : Z;
  pk_Sequence : Z;
  pk_BaseSequence : Z;
  pk_SchemaVersion : Z;
  pk_Full : bool;
  pk_Critical : bool;
  pk_Payload : list byte
}.

#[export] Instance Packet_eq_dec : EqDecision Packet.
Proof. solve_decision. Defined.

Definition Packet_Clone (p : Packet) : Packet :=
  mkPacket (pk_Observer p) (pk_Stream p) (pk_Epoch p) (pk_Sequence p) (pk_BaseSequence p)
    (pk_SchemaVersion p) (pk_Full p) (pk_Critical p) ([] ++ pk_Payload p).

Record HistoryOptions := mkOptions {
  ho_MaxPacketsPerStream : Z;
  ho_SchemaVersion : Z;
  ho_MaxPayloadBytes : Z;
  ho_MaxStreams : Z;
  ho_Epoch : Z;
  ho_IdleTTL : Z;
  ho_PruneAcknowledged : bool
}.

Record streamState := mkState {
  sst_latest : Z;
  sst_acked : Z;
  sst_dropped : Z;
  sst_pruned : Z;
  sst_schema : Z;
  sst_activity : Z;
  sst_items : list Packet
}.

Definition emptyState : streamState := mkState 0 0 0 0 0 0 [].

Record HistoryTarget := mkTarget { tg_Observer : Observer; tg_Stream : Stream }.

(** The journal records.  A record carries the fields its kind uses. *)
Inductive mutationKind :=
| MutAppend (packet : Packet)
| MutAcknowledge (observer : Observer) (stream : Stream) (sequence : Z) (prune : bool)
| MutDelete (observer : Observer) (stream : Stream)
| MutDeleteView (observer : Observer)
| MutSweep (targets : list HistoryTarget)
| MutRotateEpoch
| MutUnknown (* a kind string outside the constants *).

#[export] Instance HistoryTarget_eq_dec : EqDecision HistoryTarget.
Proof. solve_decision. Defined.
#[export] Instance mutationKind_eq_dec : EqDecision mutationKind.
Proof. solve_decision. Defined.

Record HistoryMutation := mkMutation {
  mu_Version : Z;
  mu_Epoch : Z;
  mu_Kind : mutationKind
}.

Record HistoryStreamSnapshot := mkStreamSnapshot {
  hs_Observer : Observer;
  hs_Stream : Stream;
  hs_Latest : Z;
  hs_Acked : Z;
  hs_Dropped : Z;
  hs_Pruned : Z;
  hs_Schema : Z;
  hs_LastActivityUnixNano : Z;
  hs_Packets : list Packet
}.

Record HistorySnapshot := mkHistorySnapshot {
  hp_Version : Z;
  hp_Epoch : Z;
  hp_Streams : list HistoryStreamSnapshot
}.

(** What a journal has durably committed: the latest checkpoint and the
    mutations recorded since. *)
Record JournalState := mkJournal {
  js_checkpoint : HistorySnapshot;
  js_log : list HistoryMutation
}.

(** [h_journal] is the state of the attached journal; [None] is a history
    without one. *)
Record History := mkHist {
  h_options : HistoryOptions;
  h_epoch : Z;
  h_journal : option JournalState;
  h_streams : gmap streamKey streamState
}.

Definition set_streams (h : History) (m : gmap streamKey streamState) : History :=
  mkHist (h_options h) (h_epoch h) (h_journal h) m.

(** What the journal's calls answer, given what it has committed.  A call that
    answers an error commits nothing. *)
Class Journal := {
  record_answer : JournalState -> HistoryMutation -> sres unit;
  checkpoint_answer : JournalState -> HistorySnapshot -> sres unit;
  load_answer : JournalState -> sres unit
}.

(** [entropy] is the value [rand.Read] produced, [None] when it failed; [nano]
    is the clock reading of the fallback. *)
Definition newEpoch (entropy : option Z) (nano : Z) : Z :=
  let fallback := Z.lor (u64! nano) 1 in
  match entropy with
  | Some value => if negb (u64! value =? 0) then u64! value else fallback
  | None => fallback
  end.

Definition NewHistory (options : HistoryOptions) (entropy : option Z) (nano : Z) : History :=
  let options := mkOptions
    (if ho_MaxPacketsPerStream options <=? 0 then 256 else ho_MaxPacketsPerStream options)
    (if ho_SchemaVersion options =? 0 then 1 else ho_SchemaVersion options)
    (ho_MaxPayloadBytes options) (ho_MaxStreams options)
    (if ho_Epoch options =? 0 then newEpoch entropy nano else ho_Epoch options)
    (ho_IdleTTL options) (ho_PruneAcknowledged options) in
  mkHist options (ho_Epoch options) None ∅.

(** ** Appending *)

Section Recording.
Context `{!Journal}.

(** [if history.journal != nil { if err := history.journal.Record(...) ... }] *)
Definition record (h : History) (epoch : Z) (kind : mutationKind) : sres History :=
  match h_journal h with
  | None => Ok h
  | Some js =>
      let m := mkMutation HistoryMutationVersion epoch kind in
      _ ← record_answer js m;
      Ok (mkHist (h_options h) (h_epoch h)
            (Some (mkJournal (js_checkpoint js) (js_log js ++ [m]))) (h_streams h))
  end.

(** The packet as it is sequenced and retained. *)
Definition sequenced (h : History) (state : streamState) (packet : Packet) : Packet :=
  let schema := if pk_SchemaVersion packet =? 0 then ho_SchemaVersion (h_options h)
                else pk_SchemaVersion packet in
  Packet_Clone (mkPacket (pk_Observer packet) (pk_Stream packet) (h_epoch h)
    (u64! (sst_latest state + 1)) (if pk_Full packet then 0 else sst_latest state) schema
    (pk_Full packet) (pk_Critical packet) (pk_Payload packet)).

(** The retained items after an append, and the number evicted. *)
Definition retain (limit : Z) (items : list Packet) : list Packet * Z :=
  let overflow := len items - limit in
  if 0 <? overflow then (drop (Z.to_nat overflow) items, overflow) else (items, 0).

Definition Append (h : History) (packet : Packet) (now : Z) : History * sres Packet :=
  if bool_decide (st_Topic (pk_Stream packet) = EmptyString) then (h, Err ErrTopicRequired) else
  if (0 <? ho_MaxPayloadBytes (h_options h))
     && (ho_MaxPayloadBytes (h_options h) <? len (pk_Payload packet))
  then (h, Err ErrPayloadTooLarge) else
  let key := (pk_Observer packet, pk_Stream packet) in
  let found := h_streams h !! key in
  if bool_decide (found = None) && (0 <? ho_MaxStreams (h_options h))
     && (ho_MaxStreams (h_options h) <=? Z.of_nat (size (h_streams h)))
  then (h, Err ErrStreamLimit) else
  let state := default emptyState found in
  (* a stream created here stays when the schema check fails *)
  let created := set_streams h (<[key := state]> (h_streams h)) in
  let schema := if pk_SchemaVersion packet =? 0 then ho_SchemaVersion (h_options h)
                else pk_SchemaVersion packet in
  if (0 <? sst_latest state) && negb (schema =? sst_schema state) && negb (pk_Full packet)
  then (created, Err ErrSchemaTransitionRequiresFull) else
  let packet := sequenced h state packet in
  match record created (h_epoch h) (MutAppend (Packet_Clone packet)) with
  | Err e => (h, Err e)
  | Ok h' =>
      let '(items, overflow) := retain (ho_MaxPacketsPerStream (h_options h))
                                  (sst_items state ++ [packet]) in
      let state := mkState (pk_Sequence packet) (sst_acked state)
        (u64! (sst_dropped state + overflow)) (sst_pruned state) (pk_SchemaVersion packet) now items in
      (set_streams h' (<[key := state]> (h_streams h')), Ok (Packet_Clone packet))
  end.

(** ** Acknowledging *)

(** The number of leading items with a sequence up to [sequence]. *)
Fixpoint prunable (sequence : Z) (items : list Packet) : nat :=
  match items with
  | [] => O
  | p :: rest => if pk_Sequence p <=? sequence then S (prunable sequence rest) else O
  end.

Definition AcknowledgeEpoch (h : History) (observer : Observer) (stream : Stream)
    (epoch sequence now : Z) : History * sres unit :=
  if negb (epoch =? h_epoch h) then (h, Err ErrAckEpochMismatch) else
  let key := (observer, stream) in
  match h_streams h !! key with
  | None => if sequence =? 0 then (h, Ok tt) else (h, Err ErrAckAhead)
  | Some state =>
      if sst_latest state <? sequence then (h, Err ErrAckAhead) else
      if sst_acked state <? sequence then
        match record h (h_epoch h) (MutAcknowledge observer stream sequence
                                      (ho_PruneAcknowledged (h_options h))) with
        | Err e => (h, Err e)
        | Ok h' =>
            let n := if ho_PruneAcknowledged (h_options h) then prunable sequence (sst_items state)
                     else O in
            let state := mkState (sst_latest state) sequence (sst_dropped state)
              (u64! (sst_pruned state + Z.of_nat n)) (sst_schema state) now
              (drop n (sst_items state)) in
            (set_streams h' (<[key := state]> (h_streams h')), Ok tt)
        end
      else (h, Ok tt)
  end.

Definition History_Epoch (h : option History) : Z :=
  match h with None => 0 | Some h => h_epoch h end.

Definition History_Acknowledge (h : History) (observer : Observer) (stream : Stream)
    (sequence now : Z) : History * sres unit :=
  AcknowledgeEpoch h observer stream (History_Epoch (Some h)) sequence now.

(** ** Resynchronising *)

Inductive ResyncReason :=
| ResyncNone | ResyncHistoryMissing | ResyncHistoryGap | ResyncSchemaMismatch
| ResyncClientAhead | ResyncEpochMismatch.

Record ResyncRequest := mkRequest {
  rq_Observer : Observer;
  rq_Stream : Stream;
  rq_Epoch : Z;
  rq_AfterSequence : Z;
  rq_SchemaVersion : Z
}.

Record ResyncResult := mkResult {
  rr_Packets : list Packet;
  rr_FullRequired : bool;
  rr_Reason : ResyncReason;
  rr_LatestSequence : Z
}.

(** [state.items[first:]] for the first item after a sequence. *)
Fixpoint itemsAfter (after : Z) (items : list Packet) : list Packet :=
  match items with
  | [] => []
  | p :: rest => if after <? pk_Sequence p then items else itemsAfter after rest
  end.

(** The loop over the rest of the candidate. *)
Fixpoint chainOk (schema previous : Z) (items : list Packet) : bool :=
  match items with
  | [] => true
  | p :: rest =>
      if negb (pk_SchemaVersion p =? schema)
         || (negb (pk_Full p) && negb (pk_BaseSequence p =? previous))
      then false else chainOk schema (pk_Sequence p) rest
  end.

Definition Resync (h : History) (request : ResyncRequest) : ResyncResult :=
  if negb (rq_Epoch request =? 0) && negb (rq_Epoch request =? h_epoch h)
  then mkResult [] true ResyncEpochMismatch 0 else
  match h_streams h !! (rq_Observer request, rq_Stream request) with
  | None => mkResult [] true ResyncHistoryMissing 0
  | Some state =>
      let full reason := mkResult [] true reason (sst_latest state) in
      if sst_latest state <? rq_AfterSequence request then full ResyncClientAhead else
      if negb (rq_SchemaVersion request =? 0) && (0 <? sst_latest state)
         && negb (sst_schema state =? rq_SchemaVersion request)
      then full ResyncSchemaMismatch else
      if rq_AfterSequence request =? sst_latest state
      then mkResult [] false ResyncNone (sst_latest state) else
      match itemsAfter (rq_AfterSequence request) (sst_items state) with
      | [] => full ResyncHistoryGap
      | first :: rest =>
          if negb (rq_SchemaVersion request =? 0)
             && negb (pk_SchemaVersion first =? rq_SchemaVersion request)
          then full ResyncSchemaMismatch else
          if negb (pk_Full first) && negb (pk_BaseSequence first =? rq_AfterSequence request)
          then full ResyncHistoryGap else
          if negb (chainOk (pk_SchemaVersion first) (pk_Sequence first) rest)
          then full ResyncHistoryGap else
          mkResult (Packet_Clone <$> first :: rest) false ResyncNone (sst_latest state)
      end
  end.

(** The provider is application code; [None] is the nil provider. *)
Definition Recover (h : History) (request : ResyncRequest)
    (provider : option (ResyncRequest -> sres Packet)) (now : Z)
    : History * ResyncResult * sres unit :=
  let result := Resync h request in
  if negb (rr_FullRequired result) then (h, result, Ok tt) else
  match provider with
  | None => (h, result, Err ErrSnapshotProviderRequired)
  | Some snapshot =>
      match snapshot request with
      | Err e => (h, result, Err e)
      | Ok packet =>
          let packet := mkPacket (rq_Observer request) (rq_Stream request) (pk_Epoch packet)
            (pk_Sequence packet) (pk_BaseSequence packet)
            (if negb (rq_SchemaVersion request =? 0) then rq_SchemaVersion request
             else pk_SchemaVersion packet) true (pk_Critical packet) (pk_Payload packet) in
          match Append h packet now with
          | (h, Err e) => (h, result, Err e)
          | (h, Ok packet) =>
              (h, mkResult [packet] false (rr_Reason result) (pk_Sequence packet), Ok tt)
          end
      end
  end.

(** ** Status and metrics *)

Record StreamStatus := mkStatus {
  ssu_Epoch : Z;
  ssu_LatestSequence : Z;
  ssu_AckedSequence : Z;
  ssu_OldestSequence : Z;
  ssu_Pending : Z;
  ssu_Dropped : Z;
  ssu_Pruned : Z;
  ssu_Retained : Z
}.

Definition Status (h : History) (observer : Observer) (stream : Stream) : StreamStatus :=
  match h_streams h !! (observer, stream) with
  | None => mkStatus 0 0 0 0 0 0 0 0
  | Some s =>
      mkStatus (h_epoch h) (sst_latest s) (sst_acked s)
        (match sst_items s with [] => 0 | p :: _ => pk_Sequence p end)
        (u64! (sst_latest s - sst_acked s)) (sst_dropped s) (sst_pruned s) (len (sst_items s))
  end.

Record HistoryMetrics := mkMetrics {
  hm_Epoch : Z;
  hm_Streams : Z;
  hm_Retained : Z;
  hm_Dropped : Z;
  hm_Pruned : Z;
  hm_Pending : Z
}.

Definition Metrics (h : History) : HistoryMetrics :=
  foldl (fun m s => mkMetrics (hm_Epoch m) (hm_Streams m)
           (u64! (hm_Retained m + len (sst_items s))) (u64! (hm_Dropped m + sst_dropped s))
           (u64! (hm_Pruned m + sst_pruned s))
           (u64! (hm_Pending m + u64! (sst_latest s - sst_acked s))))
    (mkMetrics (h_epoch h) (Z.of_nat (size (h_streams h))) 0 0 0 0) (map_to_list (h_streams h)).*2.

Inductive healthReason := HealthOk | PendingLimit | DroppedLimit | StreamLimit.

Definition Health (h : History) (maxPending maxDropped maxStreams : Z) : bool * healthReason :=
  let m := Metrics h in
  if (0 <? maxPending) && (maxPending <? hm_Pending m) then (false, PendingLimit) else
  if (0 <? maxDropped) && (maxDropped <? hm_Dropped m) then (false, DroppedLimit) else
  if (0 <? maxStreams) && (maxStreams <? hm_Streams m) then (false, StreamLimit) else
  (true, HealthOk).

(** ** Persistence *)

Definition exportStream (e : streamKey * streamState) : HistoryStreamSnapshot :=
  let '((observer, stream), s) := e in
  mkStreamSnapshot observer stream (sst_latest s) (sst_acked s) (sst_dropped s) (sst_pruned s)
    (sst_schema s) (sst_activity s) (Packet_Clone <$> sst_items s).

(** The comparison of the sort: scope, kind, id, session, topic, key. *)
Definition snapshotLess (a b : HistoryStreamSnapshot) : bool :=
  let oa := hs_Observer a in let ob := hs_Observer b in
  let sa := hs_Stream a in let sb := hs_Stream b in
  if negb (String.eqb (ob_Scope oa) (ob_Scope ob)) then String.ltb (ob_Scope oa) (ob_Scope ob) else
  if negb (ob_Kind oa =? ob_Kind ob) then ob_Kind oa <? ob_Kind ob else
  if negb (ob_ID oa =? ob_ID ob) then ob_ID oa <? ob_ID ob else
  if negb (ob_Session oa =? ob_Session ob) then ob_Session oa <? ob_Session ob else
  if negb (String.eqb (st_Topic sa) (st_Topic sb)) then String.ltb (st_Topic sa) (st_Topic sb) else
  st_Key sa <? st_Key sb.

Definition exportLocked (h : History) : HistorySnapshot :=
  mkHistorySnapshot HistorySnapshotVersion (h_epoch h)
    (sort_slice snapshotLess (exportStream <$> map_to_list (h_streams h))).

Definition Export (h : History) : HistorySnapshot := exportLocked h.

(** One iteration of the packet loop; the accumulator is [(previous,
    previousSchema)], [None] before the first packet. *)
Definition importPacket (options : HistoryOptions) (epoch : Z) (item : HistoryStreamSnapshot)
    (acc : option (Z * Z)) (packet : Packet) : sres (option (Z * Z)) :=
  _ ← reject_if (negb (bool_decide (pk_Observer packet = hs_Observer item))
                 || negb (bool_decide (pk_Stream packet = hs_Stream item))
                 || negb (pk_Epoch packet =? epoch) || (pk_Sequence packet =? 0)
                 || (pk_SchemaVersion packet =? 0)) ErrInvalidSnapshot;
  _ ← reject_if ((0 <? ho_MaxPayloadBytes options)
                 && (ho_MaxPayloadBytes options <? len (pk_Payload packet))) ErrPayloadTooLarge;
  _ ← match acc with
      | None => reject_if (negb (pk_Full packet)
                  && negb (u64! (pk_BaseSequence packet + 1) =? pk_Sequence packet)) ErrInvalidSnapshot
      | Some (previous, previousSchema) =>
          _ ← reject_if (negb (pk_Sequence packet =? u64! (previous + 1))
                || (negb (pk_Full packet) && negb (pk_BaseSequence packet =? previous)))
                ErrInvalidSnapshot;
          reject_if (negb (pk_SchemaVersion packet =? previousSchema) && negb (pk_Full packet))
            ErrInvalidSnapshot
      end;
  _ ← reject_if (pk_Full packet && negb (pk_BaseSequence packet =? 0)) ErrInvalidSnapshot;
  Ok (Some (pk_Sequence packet, pk_SchemaVersion packet)).

(** One iteration of the stream loop; [now] gives the clock readings. *)
Definition importStream (options : HistoryOptions) (epoch : Z) (now : streamKey -> Z)
    (streams : gmap streamKey streamState) (item : HistoryStreamSnapshot)
    : sres (gmap streamKey streamState) :=
  _ ← reject_if (bool_decide (st_Topic (hs_Stream item) = EmptyString)) ErrInvalidSnapshot;
  let key := (hs_Observer item, hs_Stream item) in
  _ ← reject_if (bool_decide (is_Some (streams !! key))) ErrInvalidSnapshot;
  _ ← reject_if ((hs_Latest item <? hs_Acked item)
        || ((0 <? hs_Latest item) && (len (hs_Packets item) =? 0)
            && negb (hs_Acked item =? hs_Latest item))) ErrInvalidSnapshot;
  let activity := if hs_LastActivityUnixNano item =? 0 then now key
                  else hs_LastActivityUnixNano item in
  last ← foldM (importPacket options epoch item) None (hs_Packets item);
  let items := Packet_Clone <$> hs_Packets item in
  let previous := match last with Some (s, _) => s | None => 0 end in
  _ ← reject_if ((0 <? len items) && negb (previous =? hs_Latest item)) ErrInvalidSnapshot;
  let '(items, overflow) := retain (ho_MaxPacketsPerStream options) items in
  let schema := match list.last items with
                | Some p => pk_SchemaVersion p
                | None => hs_Schema item
                end in
  _ ← reject_if ((0 <? hs_Latest item) && (schema =? 0)) ErrInvalidSnapshot;
  Ok (<[key := mkState (hs_Latest item) (hs_Acked item) (u64! (hs_Dropped item + overflow))
                 (hs_Pruned item) schema activity items]> streams).

Definition Import (h : History) (snapshot : HistorySnapshot) (now : streamKey -> Z) : sres History :=
  _ ← reject_if (negb (hp_Version snapshot =? HistorySnapshotVersion)) ErrInvalidSnapshot;
  _ ← reject_if (hp_Epoch snapshot =? 0) ErrInvalidSnapshot;
  _ ← reject_if ((0 <? ho_MaxStreams (h_options h))
                 && (ho_MaxStreams (h_options h) <? len (hp_Streams snapshot))) ErrStreamLimit;
  streams ← foldM (importStream (h_options h) (hp_Epoch snapshot) now) ∅ (hp_Streams snapshot);
  Ok (mkHist (h_options h) (hp_Epoch snapshot) (h_journal h) streams).

(** A store is its answers to [Load] and [Save]. *)
Record HistoryStore := mkStore {
  store_Load : sres HistorySnapshot;
  store_Save : HistorySnapshot -> sres unit
}.

Definition Save (h : History) (store : option HistoryStore) : sres unit :=
  match store with
  | None => Err ErrHistoryStoreRequired
  | Some store => store_Save store (Export h)
  end.

Definition Restore (h : History) (store : option HistoryStore) (now : streamKey -> Z) : sres History :=
  match store with
  | None => Err ErrHistoryStoreRequired
  | Some store => snapshot ← store_Load store; Import h snapshot now
  end.

(** ** Replaying the journal *)

Definition find (streams : list HistoryStreamSnapshot) (observer : Observer) (stream : Stream)
    : option nat :=
  fst <$> list_find (fun v => hs_Observer v = observer /\ hs_Stream v = stream) streams.

Definition removeAt (streams : list HistoryStreamSnapshot) (observer : Observer) (stream : Stream)
    : list HistoryStreamSnapshot :=
  match find streams observer stream with
  | Some index => take index streams ++ drop (S index) streams
  | None => streams
  end.

Definition replayAppend (streams : list HistoryStreamSnapshot) (packet : Packet)
    : sres (list HistoryStreamSnapshot) :=
  let observer := pk_Observer packet in let stream := pk_Stream packet in
  let '(streams, index) := match find streams observer stream with
    | Some index => (streams, index)
    | None => (streams ++ [mkStreamSnapshot observer stream 0 0 0 0 0 0 []], length streams)
    end in
  match streams !! index with
  | None => Ok streams (* unreachable: [index] is in range *)
  | Some v =>
      _ ← reject_if (negb (pk_Sequence packet =? u64! (hs_Latest v + 1))) ErrInvalidSnapshot;
      Ok (<[index := mkStreamSnapshot (hs_Observer v) (hs_Stream v) (pk_Sequence packet) (hs_Acked v)
              (hs_Dropped v) (hs_Pruned v) (pk_SchemaVersion packet) (hs_LastActivityUnixNano v)
              (hs_Packets v ++ [Packet_Clone packet])]> streams)
  end.

Definition replayAcknowledge (streams : list HistoryStreamSnapshot) (observer : Observer)
    (stream : Stream) (sequence : Z) (prune : bool) : sres (list HistoryStreamSnapshot) :=
  match index ← find streams observer stream; v ← streams !! index; Some (index, v) with
  | None => Err ErrInvalidSnapshot
  | Some (index, v) =>
      _ ← reject_if (hs_Latest v <? sequence) ErrInvalidSnapshot;
      if hs_Acked v <? sequence then
        let n := if prune then prunable sequence (hs_Packets v) else O in
        Ok (<[index := mkStreamSnapshot (hs_Observer v) (hs_Stream v) (hs_Latest v) sequence
                (hs_Dropped v) (u64! (hs_Pruned v + Z.of_nat n)) (hs_Schema v)
                (hs_LastActivityUnixNano v) (drop n (hs_Packets v))]> streams)
      else Ok streams
  end.

Definition replayHistoryMutation (snapshot : HistorySnapshot) (m : HistoryMutation)
    : sres HistorySnapshot :=
  _ ← reject_if (negb (mu_Version m =? HistoryMutationVersion)) ErrInvalidSnapshot;
  if bool_decide (mu_Kind m = MutRotateEpoch)
  then Ok (mkHistorySnapshot (hp_Version snapshot) (mu_Epoch m) []) else
  let epoch := if hp_Epoch snapshot =? 0 then mu_Epoch m else hp_Epoch snapshot in
  _ ← reject_if (negb (mu_Epoch m =? epoch)) ErrInvalidSnapshot;
  let streams := hp_Streams snapshot in
  streams ← match mu_Kind m with
    | MutAppend packet => replayAppend streams packet
    | MutAcknowledge observer stream sequence prune =>
        replayAcknowledge streams observer stream sequence prune
    | MutDelete observer stream => Ok (removeAt streams observer stream)
    | MutDeleteView observer =>
        Ok (List.filter (fun v => negb (bool_decide (hs_Observer v = observer))) streams)
    | MutSweep targets =>
        Ok (foldl (fun streams t => removeAt streams (tg_Observer t) (tg_Stream t)) streams targets)
    | MutRotateEpoch | MutUnknown => Err ErrInvalidSnapshot
    end;
  Ok (mkHistorySnapshot (hp_Version snapshot) epoch streams).

(** ** Journaled histories *)

(** [Load]: the latest checkpoint with the committed mutations replayed. *)
Definition Journal_Load (js : JournalState) : sres HistorySnapshot :=
  _ ← load_answer js; foldM replayHistoryMutation (js_checkpoint js) (js_log js).

Definition NewHistoryWithJournal (options : HistoryOptions) (journal : option JournalState)
    (entropy : option Z) (nano : Z) (now : streamKey -> Z) : sres History :=
  match journal with
  | None => Err ErrHistoryJournalRequired
  | Some js =>
      let h := NewHistory options entropy nano in
      snapshot ← Journal_Load js;
      h ← Import h snapshot now;
      Ok (mkHist (h_options h) (h_epoch h) (Some js) (h_streams h))
  end.

Definition Checkpoint (h : option History) : option History * sres unit :=
  match h with
  | None => (None, Err ErrHistoryJournalRequired)
  | Some h =>
      match h_journal h with
      | None => (Some h, Err ErrHistoryJournalRequired)
      | Some js =>
          match checkpoint_answer js (exportLocked h) with
          | Err e => (Some h, Err e)
          | Ok _ => (Some (mkHist (h_options h) (h_epoch h)
                             (Some (mkJournal (exportLocked h) [])) (h_streams h)), Ok tt)
          end
      end
  end.

Definition RotateEpoch (h : History) (epoch : Z) (entropy : option Z) (nano : Z)
    : History * sres unit :=
  let epoch := if epoch =? 0 then newEpoch entropy nano else epoch in
  if epoch =? h_epoch h then (h, Ok tt) else
  match record h epoch MutRotateEpoch with
  | Err e => (h, Err e)
  | Ok h' => (mkHist (h_options h') epoch (h_journal h') ∅, Ok tt)
  end.

Definition DeleteStream (h : History) (observer : Observer) (stream : Stream)
    : History * sres unit :=
  match h_streams h !! (observer, stream) with
  | None => (h, Ok tt)
  | Some _ =>
      match record h (h_epoch h) (MutDelete observer stream) with
      | Err e => (h, Err e)
      | Ok h' => (set_streams h' (delete (observer, stream) (h_streams h')), Ok tt)
      end
  end.

Definition DeleteObserver (h : History) (observer : Observer) : History * Z * sres unit :=
  let count := Z.of_nat (size (filter (fun e => e.1.1 = observer) (h_streams h))) in
  if count =? 0 then (h, 0, Ok tt) else
  match record h (h_epoch h) (MutDeleteView observer) with
  | Err e => (h, 0, Err e)
  | Ok h' => (set_streams h' (filter (fun e => e.1.1 <> observer) (h_streams h')), count, Ok tt)
  end.

Definition SweepIdle (h : option History) (now : Z) : option History * Z * sres unit :=
  match h with
  | None => (None, 0, Ok tt)
  | Some h =>
      if ho_IdleTTL (h_options h) <=? 0 then (Some h, 0, Ok tt) else
      let cutoff := wrapi64 (now - ho_IdleTTL (h_options h)) in
      let keys := (map_to_list (filter (fun e => sst_activity e.2 <> 0 /\ sst_activity e.2 <= cutoff)
                                  (h_streams h))).*1 in
      let recorded := if 0 <? len keys
        then record h (h_epoch h) (MutSweep ((fun k => mkTarget k.1 k.2) <$> keys)) else Ok h in
      match recorded with
      | Err e => (Some h, 0, Err e)
      | Ok h' => (Some (set_streams h' (foldl (fun m k => delete k m) (h_streams h') keys)),
                  len keys, Ok tt)
      end
  end.
End Recording.

(** ** Invariant *)

Definition options_ok (o : HistoryOptions) : Prop :=
  0 < ho_MaxPacketsPerStream o /\ ho_SchemaVersion o <> 0.

(** A retained packet of a stream. *)
Record packet_ok (o : HistoryOptions) (epoch : Z) (key : streamKey) (p : Packet) : Prop := {
  pok_Observer : pk_Observer p = key.1;
  pok_Stream : pk_Stream p = key.2;
  pok_Epoch : pk_Epoch p = epoch;
  pok_Sequence : 0 < pk_Sequence p < 2 ^ 64;
  pok_Schema : pk_SchemaVersion p <> 0;
  pok_Base : pk_BaseSequence p = if pk_Full p then 0 else pk_Sequence p - 1;
  pok_Payload : 0 < ho_MaxPayloadBytes o -> len (pk_Payload p) <= ho_MaxPayloadBytes o
}.

(** The next packet of a chain. *)
Definition follows (p q : Packet) : Prop :=
  pk_Sequence q = pk_Sequence p + 1 /\ (pk_SchemaVersion q = pk_SchemaVersion p \/ pk_Full q = true).

Record chain (o : HistoryOptions) (epoch : Z) (key : streamKey) (latest : Z)
    (items : list Packet) : Prop := {
  ch_packets : Forall (packet_ok o epoch key) items;
  ch_links : Sorted follows items;
  ch_latest : forall p, last items = Some p -> pk_Sequence p = latest
}.

(** The schema version that governs a stream. *)
Definition governing (schema : Z) (items : list Packet) : Z :=
  match last items with Some p => pk_SchemaVersion p | None => schema end.

(** A stream of sequence numbers up to [bound]. *)
Record stream_ok (o : HistoryOptions) (epoch : Z) (bound : Z) (key : streamKey)
    (s : streamState) : Prop := {
  sok_topic : st_Topic key.2 <> EmptyString;
  sok_chain : chain o epoch key (sst_latest s) (sst_items s);
  sok_latest : 0 <= sst_latest s <= bound;
  sok_acked : 0 <= sst_acked s <= sst_latest s;
  sok_retained : len (sst_items s) <= ho_MaxPacketsPerStream o;
  sok_drained : 0 < sst_latest s -> sst_items s = [] -> sst_acked s = sst_latest s;
  sok_governing : sst_schema s = governing (sst_schema s) (sst_items s);
  sok_schema : 0 < sst_latest s -> sst_schema s <> 0
}.

Record history_inv (bound : Z) (h : History) : Prop := {
  hi_options : options_ok (h_options h);
  hi_epoch : h_epoch h <> 0;
  hi_streams : map_Forall (stream_ok (h_options h) (h_epoch h) bound) (h_streams h);
  hi_limit : 0 < ho_MaxStreams (h_options h) ->
             Z.of_nat (size (h_streams h)) <= ho_MaxStreams (h_options h)
}.

(** ** Chains *)

Lemma Packet_Clone_id p : Packet_Clone p = p.
Proof. by destruct p. Qed.

Lemma Packet_Clone_list (l : list Packet) : Packet_Clone <$> l = l.
Proof. induction l as [|p l IH]; csimpl; [done|]. by rewrite IH, Packet_Clone_id. Qed.

Section Chains.
Context (o : HistoryOptions) (epoch : Z) (key : streamKey).
Implicit Types (items : list Packet) (p : Packet).

Lemma chain_nil latest : chain o epoch key latest [].
Proof. by split. Qed.

Lemma chain_drop latest n items : chain o epoch key latest items -> chain o epoch key latest (drop n items).
Proof.
  intros [Hp Hl Hla]. split; [by apply Forall_drop|by apply Sorted_drop|].
  intros p Hlast. apply Hla. by eapply last_drop_Some.
Qed.

Lemma chain_snoc latest items p :
  chain o epoch key latest items -> packet_ok o epoch key p -> pk_Sequence p = latest + 1 ->
  (items <> [] -> pk_SchemaVersion p = governing 0 items \/ pk_Full p = true) ->
  chain o epoch key (latest + 1) (items ++ [p]).
Proof.
  intros [Hp Hl Hla] Hok Hseq Hsch. split.
  - by apply Forall_app_2; [|constructor].
  - apply Sorted_snoc_last; [done|]. intros q Hq. split; [by rewrite (Hla q Hq)|].
    unfold governing in Hsch. rewrite Hq in Hsch. apply Hsch. by intros ->.
  - intros q. rewrite last_snoc. by intros [= <-].
Qed.

(** The chain seen from its first packet. *)
Lemma chain_cons latest p items :
  chain o epoch key latest (p :: items) <->
  packet_ok o epoch key p /\ chain o epoch key latest items
  /\ match items with [] => pk_Sequence p = latest | q :: _ => follows p q end.
Proof.
  split.
  - intros [Hp Hl Hla]. apply Forall_cons in Hp as [Hp Hps]. apply Sorted_inv in Hl as [Hl Hh].
    split_and!; [done| |].
    + split; [done..|]. intros q Hq. apply Hla. destruct items; [done|]. exact Hq.
    + destruct items as [|q items]; [by apply Hla|]. by inversion Hh.
  - intros (Hp & [Hps Hl Hla] & Hm). split; [by constructor| |].
    + constructor; [done|]. destruct items; by constructor.
    + destruct items as [|q items]; [by intros ? [= <-]|]. exact Hla.
Qed.

(** The sequence numbers of a chain are the last ones up to [latest]. *)
Lemma chain_sequence latest items i p :
  chain o epoch key latest items -> items !! i = Some p ->
  pk_Sequence p = latest - len items + 1 + Z.of_nat i.
Proof.
  intros Hc. revert i p. induction items as [|q items IH]; intros i p Hi; [done|].
  apply chain_cons in Hc as (Hq & Hc & Hm). specialize (IH Hc). rewrite len_cons.
  destruct i as [|i]; cbn in Hi.
  - simplify_eq. destruct items as [|r items]; [by unfold len; cbn; lia|].
    destruct Hm as [Hm _]. specialize (IH 0%nat r eq_refl). rewrite len_cons in *. lia.
  - rewrite (IH i p Hi). lia.
Qed.

Lemma chain_len latest items :
  chain o epoch key latest items -> 0 <= latest -> len items <= latest.
Proof.
  intros Hc Hl. destruct items as [|p items]; [by unfold len; cbn; lia|].
  pose proof (chain_sequence _ _ 0 p Hc eq_refl) as Hs.
  apply chain_cons in Hc as ([_ _ _ Hr] & _). lia.
Qed.
End Chains.

(** ** Retention *)

Lemma retain_spec limit items :
  retain limit items = (drop (Z.to_nat (len items - limit)) items, Z.max 0 (len items - limit)).
Proof.
  unfold retain. destruct (Z.ltb_spec 0 (len items - limit)).
  - by rewrite Z.max_r by lia.
  - replace (Z.to_nat _) with 0%nat by lia. by rewrite drop_0, Z.max_l by lia.
Qed.

(** The last [limit] elements. *)
Definition lastn (limit : Z) (items : list Packet) : list Packet :=
  drop (Z.to_nat (len items - limit)) items.

Lemma len_lastn limit items : 0 <= limit -> len (lastn limit items) = Z.min limit (len items).
Proof. intros. unfold lastn. rewrite len_drop. pose proof (len_nonneg items). lia. Qed.

Lemma lastn_id limit items : len items <= limit -> lastn limit items = items.
Proof. intros. unfold lastn. by replace (Z.to_nat _) with 0%nat by lia. Qed.

Lemma lastn_last limit items : 0 < limit -> last (lastn limit items) = last items.
Proof.
  intros. unfold lastn. destruct items as [|p items]; [by rewrite drop_nil|].
  apply last_drop. pose proof (len_nonneg items). unfold len in *. cbn in *. lia.
Qed.

(** Evicting before an append or after it keeps the same packets. *)
Lemma lastn_snoc limit items p :
  0 < limit -> lastn limit (lastn limit items ++ [p]) = lastn limit (items ++ [p]).
Proof.
  intros Hl. pose proof (len_nonneg items).
  assert (H1 : len [p] = 1) by done.
  destruct (decide (len items <= limit)); [by rewrite (lastn_id limit items)|].
  unfold lastn at 1 3. rewrite !len_app, len_lastn, H1 by lia. unfold lastn.
  rewrite <-(drop_app_le items) by (unfold len in *; lia).
  rewrite drop_drop. f_equal. lia.
Qed.

(** A drained history releases what replay releases. *)
Lemma lastn_drop limit n items :
  0 < limit -> lastn limit (drop n items) = drop (n - Z.to_nat (len items - limit)) (lastn limit items).
Proof.
  intros Hl. unfold lastn. rewrite len_drop, !drop_drop. pose proof (len_nonneg items).
  destruct (decide (Z.of_nat n <= len items)); [f_equal; lia|].
  rewrite !drop_ge; [done| |]; unfold len in *; lia.
Qed.

(** ** The operations, case by case *)

Definition streamOf (h : History) (key : streamKey) : streamState :=
  default emptyState (h_streams h !! key).

(** The stream after an append of a sequenced packet. *)
Definition appended (o : HistoryOptions) (s : streamState) (p : Packet) (now : Z) : streamState :=
  mkState (pk_Sequence p) (sst_acked s)
    (u64! (sst_dropped s + Z.max 0 (len (sst_items s) + 1 - ho_MaxPacketsPerStream o)))
    (sst_pruned s) (pk_SchemaVersion p) now
    (lastn (ho_MaxPacketsPerStream o) (sst_items s ++ [p])).

(** The number of packets an acknowledgement releases. *)
Definition released (prune : bool) (sequence : Z) (items : list Packet) : nat :=
  if prune then prunable sequence items else O.

Definition acknowledged (o : HistoryOptions) (s : streamState) (sequence now : Z) : streamState :=
  let n := released (ho_PruneAcknowledged o) sequence (sst_items s) in
  mkState (sst_latest s) sequence (sst_dropped s) (u64! (sst_pruned s + Z.of_nat n)) (sst_schema s)
    now (drop n (sst_items s)).

Section Operations.
Context `{!Journal}.
Implicit Types (h : History) (key : streamKey).

(** A journal entry changes nothing but the journal. *)
Record recorded h (epoch : Z) (kind : mutationKind) h' : Prop := {
  rec_options : h_options h' = h_options h;
  rec_epoch : h_epoch h' = h_epoch h;
  rec_streams : h_streams h' = h_streams h;
  rec_journal : h_journal h' =
    (fun js => mkJournal (js_checkpoint js)
                 (js_log js ++ [mkMutation HistoryMutationVersion epoch kind])) <$> h_journal h
}.

Lemma record_ok h epoch kind h' : record h epoch kind = Ok h' -> recorded h epoch kind h'.
Proof.
  unfold record. destruct h as [o e [js|] m]; cbn; intros Hr; ok_inv; by split.
Qed.

Lemma record_set_streams h m epoch kind :
  record (set_streams h m) epoch kind = h' ← record h epoch kind; Ok (set_streams h' m).
Proof.
  unfold record, set_streams. destruct h as [o e [js|] m']; cbn; [|done].
  by destruct (record_answer _ _).
Qed.

Record append_commit h packet (now : Z) h' (p : Packet) : Prop := {
  ac_topic : st_Topic (pk_Stream packet) <> EmptyString;
  ac_payload : 0 < ho_MaxPayloadBytes (h_options h) ->
               len (pk_Payload packet) <= ho_MaxPayloadBytes (h_options h);
  ac_limit : h_streams h !! (pk_Observer packet, pk_Stream packet) = None ->
             0 < ho_MaxStreams (h_options h) ->
             Z.of_nat (size (h_streams h)) < ho_MaxStreams (h_options h);
  ac_packet : p = sequenced h (streamOf h (pk_Observer packet, pk_Stream packet)) packet;
  ac_schema : 0 < sst_latest (streamOf h (pk_Observer packet, pk_Stream packet)) ->
              pk_SchemaVersion p = sst_schema (streamOf h (pk_Observer packet, pk_Stream packet))
              \/ pk_Full p = true;
  ac_result : exists h1, recorded h (h_epoch h) (MutAppend p) h1
    /\ h' = set_streams h1 (<[(pk_Observer packet, pk_Stream packet) :=
              appended (h_options h) (streamOf h (pk_Observer packet, pk_Stream packet)) p now]>
              (h_streams h))
}.

Lemma Append_cases h packet now :
  (exists e, Append h packet now = (h, Err e))
  \/ exists h' p, Append h packet now = (h', Ok p) /\ append_commit h packet now h' p.
Proof.
  unfold Append. case_bool_decide; [by left; eexists|].
  destruct (_ && _) eqn:Hpay; [by left; eexists|].
  destruct (_ && _ && _) eqn:Hlim; [by left; eexists|].
  destruct (_ && _ && negb (pk_Full packet)) eqn:Hsch.
  { left. eexists. f_equal. destruct (h_streams h !! _) as [s|] eqn:Hs; cbn in *; [|done].
    rewrite insert_id by done. by destruct h. }
  rewrite record_set_streams, !Packet_Clone_id.
  destruct (record h _ _) as [h1|e] eqn:Hrec; run_bind; [right|by left; eexists].
  apply record_ok in Hrec. rewrite retain_spec, len_app. do 2 eexists. split; [done|].
  split; [done| | |done| |].
  - apply andb_false_iff in Hpay as [?|?]; bool_to_prop; lia.
  - intros Hn Hpos. rewrite Hn in Hlim. cbn in Hlim.
    apply andb_false_iff in Hlim as [?|?]; bool_to_prop; lia.
  - intros Hpos. fold (streamOf h (pk_Observer packet, pk_Stream packet)) in Hsch.
    cbn [sequenced Packet_Clone pk_SchemaVersion pk_Full].
    apply andb_false_iff in Hsch as [Hsch|?]; [|by right; bool_to_prop].
    apply andb_false_iff in Hsch as [?|?]; bool_to_prop; [lia|by left].
  - exists h1. split; [done|]. unfold set_streams, appended, lastn. cbn. rewrite insert_insert_eq.
    by rewrite !len_app, (rec_options _ _ _ _ Hrec).
Qed.

Record acknowledge_commit h observer stream (sequence now : Z) h' : Prop := {
  kc_stream : exists s h1,
    h_streams h !! (observer, stream) = Some s /\ sst_acked s < sequence <= sst_latest s
    /\ recorded h (h_epoch h) (MutAcknowledge observer stream sequence
                                 (ho_PruneAcknowledged (h_options h))) h1
    /\ h' = set_streams h1 (<[(observer, stream) := acknowledged (h_options h) s sequence now]>
              (h_streams h))
}.

Lemma AcknowledgeEpoch_cases h observer stream epoch sequence now :
  (AcknowledgeEpoch h observer stream epoch sequence now).1 = h
  \/ acknowledge_commit h observer stream sequence now
       (AcknowledgeEpoch h observer stream epoch sequence now).1.
Proof.
  unfold AcknowledgeEpoch. destruct (negb _); [by left|].
  destruct (h_streams h !! _) as [s|] eqn:Hs; [|by left; case_match].
  destruct (Z.ltb_spec (sst_latest s) sequence); [by left|].
  destruct (Z.ltb_spec (sst_acked s) sequence); [|by left].
  destruct (record h _ _) as [h1|e] eqn:Hrec; [right|by left]. split.
  exists s, h1. apply record_ok in Hrec. rewrite <-(rec_streams _ _ _ _ Hrec).
  split_and!; [by rewrite (rec_streams _ _ _ _ Hrec)|done|done|done|done].
Qed.

(** ** Preservation of the invariant *)

Lemma emptyState_ok o epoch bound key :
  options_ok o -> 0 <= bound -> st_Topic key.2 <> EmptyString ->
  stream_ok o epoch bound key emptyState.
Proof. intros [??]. split; cbn; try done; try apply chain_nil; unfold len; cbn; lia. Qed.

Lemma streamOf_ok bound h key :
  0 <= bound -> st_Topic key.2 <> EmptyString -> history_inv bound h ->
  stream_ok (h_options h) (h_epoch h) bound key (streamOf h key).
Proof.
  intros Hb Ht Hi. unfold streamOf. destruct (h_streams h !! key) as [s|] eqn:Hs; cbn.
  - by apply (hi_streams _ _ Hi).
  - apply emptyState_ok; [apply Hi|done..].
Qed.

Lemma stream_ok_weaken o epoch b b' key s :
  b <= b' -> stream_ok o epoch b key s -> stream_ok o epoch b' key s.
Proof. intros ? []. split; try done. lia. Qed.

Lemma history_inv_weaken b b' h : b <= b' -> history_inv b h -> history_inv b' h.
Proof.
  intros ? []. split; try done. intros k s Hk. eapply stream_ok_weaken; [done|]. auto.
Qed.

Lemma sequenced_ok bound h key packet :
  history_inv bound h -> bound + 1 < 2 ^ 64 -> key = (pk_Observer packet, pk_Stream packet) ->
  stream_ok (h_options h) (h_epoch h) bound key (streamOf h key) ->
  (0 < ho_MaxPayloadBytes (h_options h) ->
   len (pk_Payload packet) <= ho_MaxPayloadBytes (h_options h)) ->
  packet_ok (h_options h) (h_epoch h) key (sequenced h (streamOf h key) packet)
  /\ pk_Sequence (sequenced h (streamOf h key) packet) = sst_latest (streamOf h key) + 1.
Proof.
  intros Hi Hb -> Hs Hpay. pose proof (sok_latest _ _ _ _ _ Hs) as Hl.
  assert (Hseq : u64! (sst_latest (streamOf h (pk_Observer packet, pk_Stream packet)) + 1)
                 = sst_latest (streamOf h (pk_Observer packet, pk_Stream packet)) + 1).
  { apply wrapu_small. unfold in_u. lia. }
  unfold sequenced. rewrite Packet_Clone_id. cbn [pk_Sequence]. rewrite Hseq. split; [|done].
  destruct (hi_options _ _ Hi) as [_ Hsv].
  split; cbn; try done; try lia.
  - destruct (Z.eqb_spec (pk_SchemaVersion packet) 0); done.
  - destruct (pk_Full packet); lia.
Qed.

Lemma appended_ok o epoch bound key s p now :
  options_ok o -> stream_ok o epoch bound key s -> packet_ok o epoch key p ->
  pk_Sequence p = sst_latest s + 1 ->
  (0 < sst_latest s -> pk_SchemaVersion p = sst_schema s \/ pk_Full p = true) ->
  stream_ok o epoch (bound + 1) key (appended o s p now).
Proof.
  intros [Ho _] Hs Hp Hseq Hsch. pose proof (sok_latest _ _ _ _ _ Hs).
  assert (Hne : lastn (ho_MaxPacketsPerStream o) (sst_items s ++ [p]) <> []).
  { intros Hn. pose proof (len_lastn (ho_MaxPacketsPerStream o) (sst_items s ++ [p])) as E.
    rewrite Hn, len_app in E. unfold len in E. cbn in E. lia. }
  split; cbn [appended sst_latest sst_items sst_acked sst_schema].
  - by eapply sok_topic.
  - unfold lastn. apply chain_drop. rewrite Hseq. apply chain_snoc; [by eapply sok_chain|done|done|].
    intros Hitems. destruct Hsch as [Hsch|Hsch]; [| |by right].
    + pose proof (chain_len _ _ _ _ _ (sok_chain _ _ _ _ _ Hs) ltac:(lia)).
      destruct (sst_items s); [done|]. rewrite len_cons in *. pose proof (len_nonneg l). lia.
    + left. rewrite Hsch, (sok_governing _ _ _ _ _ Hs). unfold governing.
      destruct (last (sst_items s)) eqn:E; [done|]. by apply last_None in E.
  - lia.
  - pose proof (sok_acked _ _ _ _ _ Hs). lia.
  - rewrite len_lastn by lia. lia.
  - by intros _ ?.
  - unfold governing. by rewrite lastn_last, last_snoc by done.
  - intros _. apply Hp.
Qed.

Lemma chain_prunable o epoch key latest items sequence :
  chain o epoch key latest items -> sequence <= latest ->
  Z.of_nat (prunable sequence items) = Z.max 0 (len items - (latest - sequence)).
Proof.
  intros Hc Hl. induction items as [|p items IH]; [unfold len; cbn; lia|].
  pose proof (chain_sequence _ _ _ _ _ 0 p Hc eq_refl) as Hs.
  apply chain_cons in Hc as (_ & Hc & _). specialize (IH Hc). rewrite len_cons in *.
  cbn [prunable]. destruct (Z.leb_spec (pk_Sequence p) sequence); lia.
Qed.

Lemma acknowledged_ok o epoch bound key s sequence now :
  stream_ok o epoch bound key s -> sst_acked s < sequence <= sst_latest s ->
  stream_ok o epoch bound key (acknowledged o s sequence now).
Proof.
  intros Hs Hseq. pose proof (sok_acked _ _ _ _ _ Hs). pose proof (sok_chain _ _ _ _ _ Hs) as Hc.
  split; cbn [acknowledged sst_latest sst_items sst_acked sst_schema]; try by eapply Hs.
  - by apply chain_drop.
  - lia.
  - rewrite len_drop. pose proof (sok_retained _ _ _ _ _ Hs). pose proof (len_nonneg (sst_items s)). lia.
  - intros Hpos Hnil. destruct (decide (sst_items s = [])) as [Hn|Hne].
    { pose proof (sok_drained _ _ _ _ _ Hs Hpos Hn). lia. }
    assert (Hn : len (drop (released (ho_PruneAcknowledged o) sequence (sst_items s)) (sst_items s)) = 0)
      by (by rewrite Hnil).
    assert (0 < len (sst_items s)) by (destruct (sst_items s); [done|]; unfold len; cbn; lia).
    rewrite len_drop in Hn. unfold released in Hn. destruct (ho_PruneAcknowledged o); [|lia].
    rewrite (chain_prunable _ _ _ _ _ sequence Hc) in Hn by lia. lia.
  - rewrite (sok_governing _ _ _ _ _ Hs) at 1. unfold governing.
    set (n := released _ _ _). destruct (decide (n < length (sst_items s))%nat).
    + by rewrite last_drop.
    + rewrite drop_ge by lia. cbn. destruct (last (sst_items s)) eqn:E; [|done].
      pose proof (sok_governing _ _ _ _ _ Hs) as Hg. unfold governing in Hg. by rewrite E in Hg.
Qed.

(** ** Runs

    The calls that change a history.  Every call either changes nothing, or
    commits a checkpoint, or records one mutation and applies its effect. *)
Inductive Op :=
| OpAppend (packet : Packet) (now : Z)
| OpAcknowledge (observer : Observer) (stream : Stream) (epoch sequence now : Z)
| OpRecover (request : ResyncRequest) (provider : option (ResyncRequest -> sres Packet)) (now : Z)
| OpDeleteStream (observer : Observer) (stream : Stream)
| OpDeleteObserver (observer : Observer)
| OpSweepIdle (now : Z)
| OpRotateEpoch (epoch : Z) (entropy : option Z) (nano : Z)
| OpCheckpoint.

Definition step h (op : Op) : History :=
  match op with
  | OpAppend packet now => (Append h packet now).1
  | OpAcknowledge observer stream epoch sequence now =>
      (AcknowledgeEpoch h observer stream epoch sequence now).1
  | OpRecover request provider now => (Recover h request provider now).1.1
  | OpDeleteStream observer stream => (DeleteStream h observer stream).1
  | OpDeleteObserver observer => (DeleteObserver h observer).1.1
  | OpSweepIdle now => default h (SweepIdle (Some h) now).1.1
  | OpRotateEpoch epoch entropy nano => (RotateEpoch h epoch entropy nano).1
  | OpCheckpoint => default h (Checkpoint (Some h)).1
  end.

Definition run h (ops : list Op) : History := foldl step h ops.

(** The new epoch and streams a recorded mutation leads to. *)
Inductive effect h : Z -> mutationKind -> Z -> gmap streamKey streamState -> Prop :=
| eff_append packet now p h' :
    append_commit h packet now h' p ->
    effect h (h_epoch h) (MutAppend p) (h_epoch h) (h_streams h')
| eff_acknowledge observer stream sequence now s :
    h_streams h !! (observer, stream) = Some s -> sst_acked s < sequence <= sst_latest s ->
    effect h (h_epoch h)
      (MutAcknowledge observer stream sequence (ho_PruneAcknowledged (h_options h))) (h_epoch h)
      (<[(observer, stream) := acknowledged (h_options h) s sequence now]> (h_streams h))
| eff_delete observer stream :
    effect h (h_epoch h) (MutDelete observer stream) (h_epoch h)
      (delete (observer, stream) (h_streams h))
| eff_deleteView observer :
    effect h (h_epoch h) (MutDeleteView observer) (h_epoch h)
      (filter (fun e => e.1.1 <> observer) (h_streams h))
| eff_sweep keys :
    effect h (h_epoch h) (MutSweep ((fun k => mkTarget k.1 k.2) <$> keys)) (h_epoch h)
      (foldl (fun m k => delete k m) (h_streams h) keys)
| eff_rotate epoch :
    epoch <> 0 -> effect h epoch MutRotateEpoch epoch ∅.

Inductive outcome h : History -> Prop :=
| out_unchanged : outcome h h
| out_checkpoint js :
    h_journal h = Some js ->
    outcome h (mkHist (h_options h) (h_epoch h) (Some (mkJournal (exportLocked h) [])) (h_streams h))
| out_effect h1 epoch kind epoch' streams' :
    recorded h epoch kind h1 -> effect h epoch kind epoch' streams' ->
    outcome h (mkHist (h_options h) epoch' (h_journal h1) streams').

Lemma set_streams_same h : set_streams h (h_streams h) = h.
Proof. by destruct h. Qed.

Lemma set_streams_recorded h epoch kind h1 m :
  recorded h epoch kind h1 -> set_streams h1 m = mkHist (h_options h) (h_epoch h) (h_journal h1) m.
Proof. intros [Ho He _ _]. unfold set_streams. by rewrite Ho, He. Qed.

Lemma Append_outcome h packet now : outcome h (Append h packet now).1.
Proof.
  destruct (Append_cases h packet now) as [[e ->]|(h' & p & -> & Hc)]; [constructor|].
  destruct (ac_result _ _ _ _ _ Hc) as (h1 & Hr & E). cbn. rewrite E.
  rewrite (set_streams_recorded _ _ _ _ _ Hr). eapply out_effect; [done|].
  replace (<[_ := _]> _) with (h_streams h') by (by rewrite E). by eapply eff_append.
Qed.

Lemma Acknowledge_outcome h observer stream epoch sequence now :
  outcome h (AcknowledgeEpoch h observer stream epoch sequence now).1.
Proof.
  destruct (AcknowledgeEpoch_cases h observer stream epoch sequence now)
    as [->|[(s & h1 & Hs & Hseq & Hr & ->)]]; [constructor|].
  rewrite (set_streams_recorded _ _ _ _ _ Hr). eapply out_effect; [done|]. by constructor.
Qed.

Lemma Recover_outcome h request provider now : outcome h (Recover h request provider now).1.1.
Proof.
  unfold Recover. destruct (negb _); [constructor|].
  destruct provider as [snapshot|]; [|constructor].
  destruct (snapshot request) as [packet|e]; [|constructor].
  set (packet' := mkPacket _ _ _ _ _ _ _ _ _).
  pose proof (Append_outcome h packet' now) as Ho. by destruct (Append h packet' now) as [h' []].
Qed.

Lemma delete_outcome h kind m :
  effect h (h_epoch h) kind (h_epoch h) m ->
  outcome h match record h (h_epoch h) kind with
            | Err _ => h
            | Ok h' => set_streams h' m
            end.
Proof.
  intros He. destruct (record h _ _) as [h1|] eqn:Hr; [|constructor].
  apply record_ok in Hr. rewrite (set_streams_recorded _ _ _ _ _ Hr). by eapply out_effect.
Qed.

Lemma newEpoch_nonzero entropy nano : newEpoch entropy nano <> 0.
Proof.
  unfold newEpoch. destruct entropy as [v|]; [destruct (Z.eqb_spec (u64! v) 0)|]; cbn; try done.
  all: intros [_ ?]%Z.lor_eq_0_iff; done.
Qed.

Lemma step_outcome h op : outcome h (step h op).
Proof.
  destruct op; cbn [step].
  - apply Append_outcome.
  - apply Acknowledge_outcome.
  - apply Recover_outcome.
  - unfold DeleteStream. destruct (h_streams h !! _) as [s|]; [|constructor].
    pose proof (delete_outcome h _ _ (eff_delete h observer stream)) as Ho.
    destruct (record h _ _) eqn:Hr; [|done]. cbn. by rewrite (rec_streams _ _ _ _ (record_ok _ _ _ _ Hr)).
  - unfold DeleteObserver. destruct (_ =? 0); [constructor|].
    pose proof (delete_outcome h _ _ (eff_deleteView h observer)) as Ho.
    destruct (record h _ _) eqn:Hr; [|done]. cbn. by rewrite (rec_streams _ _ _ _ (record_ok _ _ _ _ Hr)).
  - unfold SweepIdle. destruct (_ <=? 0); [constructor|].
    set (keys := (map_to_list _).*1). destruct (Z.ltb_spec 0 (len keys)) as [Hk|Hk].
    + pose proof (delete_outcome h _ _ (eff_sweep h keys)) as Ho.
      destruct (record h _ _) eqn:Hr; [|done]. cbn.
      by rewrite (rec_streams _ _ _ _ (record_ok _ _ _ _ Hr)).
    + assert (keys = []) as -> by (destruct keys; [done|]; unfold len in Hk; cbn in Hk; lia).
      cbn. rewrite set_streams_same. constructor.
  - unfold RotateEpoch. set (e := if epoch =? 0 then _ else _).
    assert (e <> 0).
    { unfold e. destruct (Z.eqb_spec epoch 0); [apply newEpoch_nonzero|done]. }
    destruct (e =? h_epoch h); [constructor|].
    destruct (record h e _) as [h1|] eqn:Hr; [|constructor]. apply record_ok in Hr.
    cbn. rewrite (rec_options _ _ _ _ Hr). eapply out_effect; [done|]. by constructor.
  - unfold Checkpoint. destruct (h_journal h) as [js|] eqn:Hj; [|constructor].
    destruct (checkpoint_answer _ _); [|constructor]. by eapply out_checkpoint.
Qed.

Lemma sweep_subseteq (keys : list streamKey) (m : gmap streamKey streamState) : foldl (fun m k => delete k m) m keys ⊆ m.
Proof.
  revert m. induction keys as [|k keys IH]; intros m; cbn; [done|].
  etrans; [apply IH|]. apply delete_subseteq.
Qed.

Lemma history_inv_subset bound h js m :
  history_inv bound h -> m ⊆ h_streams h -> history_inv bound (mkHist (h_options h) (h_epoch h) js m).
Proof.
  intros [Ho He Hs Hl] Hm. split; cbn; [done|done| |].
  - intros k s Hk. apply Hs. by eapply lookup_weaken.
  - intros Hpos. specialize (Hl Hpos). apply map_subseteq_size in Hm. lia.
Qed.

Lemma history_inv_append bound h packet now h' p :
  0 <= bound -> bound + 1 < 2 ^ 64 -> history_inv bound h -> append_commit h packet now h' p ->
  map_Forall (stream_ok (h_options h) (h_epoch h) (bound + 1)) (h_streams h')
  /\ (0 < ho_MaxStreams (h_options h) ->
      Z.of_nat (size (h_streams h')) <= ho_MaxStreams (h_options h)).
Proof.
  intros Hb0 Hb Hi [Ht Hpay Hlim Hp Hsch (h1 & Hr & ->)].
  set (key := (pk_Observer packet, pk_Stream packet)) in *. cbn [h_streams set_streams].
  assert (Hs : stream_ok (h_options h) (h_epoch h) bound key (streamOf h key)) by (by apply streamOf_ok).
  destruct (sequenced_ok bound h key packet) as [Hok Hseq]; [done..|].
  rewrite <-Hp in Hok, Hseq. split.
  - apply map_Forall_insert_2.
    + apply appended_ok; [apply Hi|done..].
    + intros k s Hk. eapply stream_ok_weaken; [|by apply (hi_streams _ _ Hi)]. lia.
  - intros Hpos. pose proof (hi_limit _ _ Hi Hpos). rewrite map_size_insert.
    destruct (h_streams h !! key) eqn:Hk; cbn; [lia|]. specialize (Hlim eq_refl Hpos). lia.
Qed.

Lemma effect_inv bound h epoch kind epoch' streams' js :
  0 <= bound -> bound + 1 < 2 ^ 64 -> history_inv bound h -> effect h epoch kind epoch' streams' ->
  history_inv (bound + 1) (mkHist (h_options h) epoch' js streams').
Proof.
  intros Hb0 Hb Hi He.
  pose proof (history_inv_weaken bound (bound + 1) h ltac:(lia) Hi) as Hw.
  destruct He as [packet now p h' Hc|observer stream sequence now s Hs Hseq| | | |epoch Hne].
  - destruct (history_inv_append _ _ _ _ _ _ Hb0 Hb Hi Hc). split; try done; apply Hi.
  - split; try apply Hw; cbn.
    + apply map_Forall_insert_2; [|apply Hw].
      apply acknowledged_ok; [|done]. by apply (hi_streams _ _ Hw).
    + intros Hpos. pose proof (hi_limit _ _ Hi Hpos). by rewrite map_size_insert, Hs.
  - apply history_inv_subset; [done|apply delete_subseteq].
  - apply history_inv_subset; [done|apply map_filter_subseteq].
  - apply history_inv_subset; [done|apply sweep_subseteq].
  - split; cbn; [apply Hi|done|apply map_Forall_empty|]. rewrite map_size_empty. lia.
Qed.

Lemma outcome_inv bound h h' :
  0 <= bound -> bound + 1 < 2 ^ 64 -> history_inv bound h -> outcome h h' ->
  history_inv (bound + 1) h'.
Proof.
  intros Hb0 Hb Hi [|js Hj|h1 epoch kind epoch' streams' Hr He].
  - eapply history_inv_weaken; [|done]. lia.
  - apply history_inv_subset; [|done]. eapply history_inv_weaken; [|done]. lia.
  - by eapply effect_inv.
Qed.


Lemma NewHistory_inv options entropy nano : history_inv 0 (NewHistory options entropy nano).
Proof.
  split; cbn.
  - split; cbn; [destruct (Z.leb_spec (ho_MaxPacketsPerStream options) 0); lia|].
    by destruct (Z.eqb_spec (ho_SchemaVersion options) 0).
  - destruct (Z.eqb_spec (ho_Epoch options) 0); [apply newEpoch_nonzero|done].
  - apply map_Forall_empty.
  - rewrite map_size_empty. lia.
Qed.



(** ** Resynchronisation *)

Lemma itemsAfter_drop after items : itemsAfter after items = drop (prunable after items) items.
Proof.
  induction items as [|p items IH]; cbn; [done|].
  rewrite Z.ltb_antisym. destruct (pk_Sequence p <=? after); cbn; [apply IH|done].
Qed.

(** The loop of [Resync] over a chain only has to compare schema versions. *)
Lemma chainOk_schema o epoch key latest p items schema :
  chain o epoch key latest (p :: items) ->
  chainOk schema (pk_Sequence p) items = true <-> Forall (fun q => pk_SchemaVersion q = schema) items.
Proof.
  revert p. induction items as [|q items IH]; intros p Hc; [by split|].
  apply chain_cons in Hc as (Hp & Hc & [Hseq _]). pose proof Hc as Hc'.
  apply chain_cons in Hc' as (Hq & _ & _). rewrite Forall_cons. cbn [chainOk].
  rewrite <-(IH q Hc), (pok_Base _ _ _ _ Hq).
  destruct (Z.eqb_spec (pk_SchemaVersion q) schema); cbn; [|by split; [|intros [? _]]].
  assert (Hb : negb (pk_Full q) && negb ((if pk_Full q then 0 else pk_Sequence q - 1) =? pk_Sequence p)
               = false).
  { destruct (pk_Full q); cbn; [done|]. apply negb_false_iff, Z.eqb_eq. lia. }
  rewrite Hb. cbn. by split; [|intros [_ ?]].
Qed.

(** The packets after a sequence number, in terms of the chain. *)
Lemma itemsAfter_chain o epoch key latest items after p rest :
  chain o epoch key latest items -> after < latest -> itemsAfter after items = p :: rest ->
  chain o epoch key latest (p :: rest)
  /\ (latest - len items <= after -> pk_Sequence p = after + 1)
  /\ (after < latest - len items -> head items = Some p)
  /\ (forall q, q ∈ p :: rest <-> q ∈ items /\ after < pk_Sequence q).
Proof.
  intros Hc Hl Hi. rewrite itemsAfter_drop in Hi.
  pose proof (chain_prunable _ _ _ _ _ after Hc ltac:(lia)) as Hn.
  pose proof (len_nonneg items). set (n := prunable after items) in *. clearbody n.
  assert (Hp : items !! n = Some p).
  { rewrite <-(Nat.add_0_r n), <-lookup_drop, Hi. done. }
  split_and!.
  - rewrite <-Hi. by apply chain_drop.
  - intros Ha. rewrite (chain_sequence _ _ _ _ _ n p Hc Hp). lia.
  - intros Ha. assert (n = 0%nat) as E by lia. rewrite E in Hp. by destruct items.
  - intros q. rewrite <-Hi. split.
    + intros [j Hj]%list_elem_of_lookup. rewrite lookup_drop in Hj. split.
      * by eapply list_elem_of_lookup_2.
      * rewrite (chain_sequence _ _ _ _ _ _ q Hc Hj). lia.
    + intros [[j Hj]%list_elem_of_lookup Hq].
      rewrite (chain_sequence _ _ _ _ _ _ q Hc Hj) in Hq.
      apply list_elem_of_lookup_2 with (j - n)%nat. rewrite lookup_drop. rewrite <-Hj. f_equal. lia.
Qed.

(** A request the retained history can serve. *)
Definition replayable h (request : ResyncRequest) (s : streamState) : Prop :=
  let after := rq_AfterSequence request in
  (rq_Epoch request = 0 \/ rq_Epoch request = h_epoch h)
  /\ after <= sst_latest s
  /\ (rq_SchemaVersion request = 0 \/ sst_latest s = 0 \/ rq_SchemaVersion request = sst_schema s)
  /\ (after < sst_latest s ->
      sst_items s <> []
      /\ (sst_latest s - len (sst_items s) <= after \/ exists p, head (sst_items s) = Some p /\ pk_Full p = true)
      /\ forall p, p ∈ sst_items s -> after < pk_Sequence p -> pk_SchemaVersion p = sst_schema s).

Lemma Resync_latest h request s :
  h_streams h !! (rq_Observer request, rq_Stream request) = Some s ->
  rr_FullRequired (Resync h request) = false -> rr_LatestSequence (Resync h request) = sst_latest s.
Proof. intros Hs. unfold Resync. rewrite Hs. repeat case_match; cbn; done. Qed.

(** The tail of a nonempty chain ends with the governing packet. *)
Lemma tail_schema o epoch bound key s after p rest :
  stream_ok o epoch bound key s -> itemsAfter after (sst_items s) = p :: rest ->
  exists q, q ∈ p :: rest /\ pk_SchemaVersion q = sst_schema s.
Proof.
  intros Hs Hi. rewrite itemsAfter_drop in Hi.
  destruct (last (p :: rest)) as [q|] eqn:Hl; [|by apply last_None in Hl].
  exists q. split; [by apply last_Some_elem_of|].
  rewrite (sok_governing _ _ _ _ _ Hs). unfold governing. rewrite <-Hi in Hl.
  by rewrite (last_drop_Some _ _ _ Hl).
Qed.

Lemma Resync_replay bound h request s p rest :
  history_inv bound h ->
  h_streams h !! (rq_Observer request, rq_Stream request) = Some s ->
  rq_AfterSequence request < sst_latest s ->
  itemsAfter (rq_AfterSequence request) (sst_items s) = p :: rest ->
  replayable h request s ->
  (pk_Full p = true \/ pk_BaseSequence p = rq_AfterSequence request)
  /\ Forall (fun q => pk_SchemaVersion q = sst_schema s) (p :: rest).
Proof.
  intros Hi Hs Hl Hit (He & Ha & Hv & Hr). destruct (Hr Hl) as (Hne & Hfirst & Hall).
  pose proof (hi_streams _ _ Hi _ _ Hs) as Hok.
  destruct (itemsAfter_chain _ _ _ _ _ _ _ _ (sok_chain _ _ _ _ _ Hok) Hl Hit)
    as (Hc & Hin & Hout & Hel).
  apply chain_cons in Hc as (Hp & _ & _). split.
  - destruct (pk_Full p) eqn:Hf; [by left|right]. rewrite (pok_Base _ _ _ _ Hp), Hf.
    destruct (decide (sst_latest s - len (sst_items s) <= rq_AfterSequence request)).
    + rewrite Hin by done. lia.
    + destruct Hfirst as [?|(p' & Hp' & Hf')]; [lia|]. rewrite Hout in Hp' by lia. congruence.
  - apply Forall_forall. intros q Hq. apply Hel in Hq as [??]. auto.
Qed.

(** What a served request was checked against. *)
Record served h (request : ResyncRequest) (s : streamState) : Prop := {
  sv_epoch : rq_Epoch request = 0 \/ rq_Epoch request = h_epoch h;
  sv_after : rq_AfterSequence request <= sst_latest s;
  sv_schema : rq_SchemaVersion request = 0 \/ sst_latest s <= 0 \/ rq_SchemaVersion request = sst_schema s;
  sv_replay : (rq_AfterSequence request = sst_latest s /\ rr_Packets (Resync h request) = [])
    \/ (rq_AfterSequence request < sst_latest s
        /\ exists p rest, itemsAfter (rq_AfterSequence request) (sst_items s) = p :: rest
           /\ rr_Packets (Resync h request) = p :: rest
           /\ (pk_Full p = true \/ pk_BaseSequence p = rq_AfterSequence request)
           /\ chainOk (pk_SchemaVersion p) (pk_Sequence p) rest = true)
}.

Lemma Resync_served h request :
  rr_FullRequired (Resync h request) = false ->
  exists s, h_streams h !! (rq_Observer request, rq_Stream request) = Some s /\ served h request s.
Proof.
  intros Hf. destruct (h_streams h !! (rq_Observer request, rq_Stream request)) as [s|] eqn:Hs;
    [exists s; split; [done|]|].
  2:{ unfold Resync in Hf. rewrite Hs in Hf. by case_match. }
  pose proof (eq_refl (Resync h request)) as E. unfold Resync in E at 2. rewrite Hs in E.
  destruct (negb (rq_Epoch request =? 0) && _) eqn:He; [by rewrite E in Hf|].
  destruct (Z.ltb_spec (sst_latest s) (rq_AfterSequence request)); [by rewrite E in Hf|].
  destruct (negb (rq_SchemaVersion request =? 0) && (0 <? _) && _) eqn:Hv; [by rewrite E in Hf|].
  assert (rq_Epoch request = 0 \/ rq_Epoch request = h_epoch h).
  { apply andb_false_iff in He as [?|?]; bool_to_prop; lia. }
  destruct (Z.eqb_spec (rq_AfterSequence request) (sst_latest s)).
  - split; [done|done| |left; by rewrite E].
    repeat (apply andb_false_iff in Hv as [Hv|Hv]); bool_to_prop; lia.
  - destruct (itemsAfter _ _) as [|p rest] eqn:Hit; [by rewrite E in Hf|].
    destruct (_ && _) eqn:Hv' in E; [by rewrite E in Hf|].
    destruct (_ && _) eqn:Hb in E; [by rewrite E in Hf|].
    destruct (chainOk _ _ _) eqn:Hok; cbn [negb] in E; [|by rewrite E in Hf].
    split; [done|done| |].
    + repeat (apply andb_false_iff in Hv as [Hv|Hv]); bool_to_prop; lia.
    + right. split; [lia|]. exists p, rest. rewrite E. cbn [rr_Packets].
      split_and!; [done|apply Packet_Clone_list| |done].
      apply andb_false_iff in Hb as [?|?]; bool_to_prop; auto.
Qed.

Lemma Resync_serves bound h request s :
  history_inv bound h ->
  h_streams h !! (rq_Observer request, rq_Stream request) = Some s -> replayable h request s ->
  rr_FullRequired (Resync h request) = false.
Proof.
  intros Hi Hs Hr. pose proof Hr as (He & Ha & Hv & Htail).
  pose proof (hi_streams _ _ Hi _ _ Hs) as Hok. unfold Resync. rewrite Hs.
  destruct (negb (rq_Epoch request =? 0) && _) eqn:Eb; [exfalso; bool_to_prop; lia|].
  destruct (Z.ltb_spec (sst_latest s) (rq_AfterSequence request)); [lia|].
  destruct (negb (rq_SchemaVersion request =? 0) && (0 <? _) && _) eqn:Ev;
    [exfalso; bool_to_prop; lia|].
  destruct (Z.eqb_spec (rq_AfterSequence request) (sst_latest s)); [done|].
  assert (Hl : rq_AfterSequence request < sst_latest s) by lia.
  destruct (itemsAfter (rq_AfterSequence request) (sst_items s)) as [|p rest] eqn:Hit.
  { exfalso. rewrite itemsAfter_drop in Hit. apply (f_equal len) in Hit. rewrite len_drop in Hit.
    destruct (Htail Hl) as (Hne & _).
    assert (0 < len (sst_items s)) by (destruct (sst_items s); [done|]; unfold len; cbn; lia).
    rewrite (chain_prunable _ _ _ _ _ _ (sok_chain _ _ _ _ _ Hok)) in Hit by lia.
    unfold len in *; cbn in *; lia. }
  destruct (Resync_replay _ _ _ _ _ _ Hi Hs Hl Hit Hr) as [Hb Hall].
  destruct (itemsAfter_chain _ _ _ _ _ _ _ _ (sok_chain _ _ _ _ _ Hok) Hl Hit) as (Hc & _).
  apply Forall_cons in Hall as [Hp Hall]. rewrite Hp. pose proof (sok_latest _ _ _ _ _ Hok).
  pose proof (chain_len _ _ _ _ _ Hc ltac:(lia)). rewrite len_cons in *. pose proof (len_nonneg rest).
  assert (Hck : chainOk (sst_schema s) (pk_Sequence p) rest = true) by (by eapply chainOk_schema).
  rewrite Hck.
  destruct (negb (rq_SchemaVersion request =? 0) && negb (sst_schema s =? rq_SchemaVersion request)) eqn:E1;
    [exfalso; bool_to_prop; lia|].
  destruct (negb (pk_Full p) && _) eqn:E2; [|done].
  exfalso. bool_to_prop. destruct Hb; [congruence|lia].
Qed.

(** A consumer that is a replayable distance behind is served from the
    history, and only such a consumer: [Resync] asks for a full snapshot
    exactly when the request names another epoch, is ahead of the stream, uses
    another schema version, or needs packets that are gone or cross a schema
    change. *)
Theorem Resync_exact bound h request :
  history_inv bound h ->
  rr_FullRequired (Resync h request) = false <->
  exists s, h_streams h !! (rq_Observer request, rq_Stream request) = Some s
            /\ replayable h request s.
Proof.
  intros Hi. split; [|intros (s & Hs & Hr); by eapply Resync_serves].
  intros (s & Hs & [He Ha Hv Hrep])%Resync_served. exists s. split; [done|].
  pose proof (hi_streams _ _ Hi _ _ Hs) as Hok. pose proof (sok_latest _ _ _ _ _ Hok).
  split_and!; [done|done|lia|]. intros Hl.
  destruct Hrep as [[? _]|(_ & p & rest & Hit & _ & Hfirst & Hck)]; [lia|].
  destruct (itemsAfter_chain _ _ _ _ _ _ _ _ (sok_chain _ _ _ _ _ Hok) Hl Hit)
    as (Hc & Hin & Hout & Hel).
  apply (chainOk_schema _ _ _ _ _ _ _ Hc) in Hck.
  assert (Hall : Forall (fun q => pk_SchemaVersion q = pk_SchemaVersion p) (p :: rest)) by (by constructor).
  destruct (tail_schema _ _ _ _ _ _ _ _ Hok Hit) as (q & Hq & Hqs).
  rewrite Forall_forall in Hall. rewrite (Hall q Hq) in Hqs. apply chain_cons in Hc as (Hp & _).
  split_and!.
  - intros Hn. by rewrite Hn in Hit.
  - destruct (decide (sst_latest s - len (sst_items s) <= rq_AfterSequence request)); [by left|right].
    exists p. split; [apply Hout; lia|]. destruct (pk_Full p) eqn:Hf; [done|exfalso].
    destruct Hfirst as [|Hb]; [done|]. rewrite (pok_Base _ _ _ _ Hp), Hf in Hb.
    assert (Hz : sst_items s !! 0%nat = Some p).
    { specialize (Hout ltac:(lia)). by destruct (sst_items s). }
    pose proof (chain_sequence _ _ _ _ _ _ _ (sok_chain _ _ _ _ _ Hok) Hz). lia.
  - intros r Hr Hlt. rewrite <-Hqs. apply Hall, Hel. auto.
Qed.

(** ** Consumers

    A consumer's domain state, opaque to the history: a full packet replaces
    it, a delta packet is applied to it. *)
Section Consumer.
Context {D : Type} (apply_delta : D -> list byte -> D) (load_full : list byte -> D).

Definition consume (d : D) (p : Packet) : D :=
  if pk_Full p then load_full (pk_Payload p) else apply_delta d (pk_Payload p).

(** [view n] is the domain state at sequence [n] of a stream. *)
Definition views (view : Z -> D) (items : list Packet) : Prop :=
  forall p, p ∈ items -> view (pk_Sequence p) = consume (view (pk_Sequence p - 1)) p.

Lemma consume_chain o epoch key latest view p rest d :
  chain o epoch key latest (p :: rest) -> views view (p :: rest) ->
  pk_Full p = true \/ d = view (pk_Sequence p - 1) ->
  foldl consume d (p :: rest) = view latest.
Proof.
  revert p d. induction rest as [|q rest IH]; intros p d Hc Hv Hd.
  all: assert (Hstep : consume d p = view (pk_Sequence p));
    [rewrite (Hv p) by left; destruct Hd as [Hf| ->]; [unfold consume; by rewrite Hf|done]|].
  all: apply chain_cons in Hc as (_ & Hc & Hm).
  - cbn. by rewrite <-Hm.
  - change (foldl consume (consume d p) (q :: rest) = view latest).
    apply IH; [done| |].
    + intros r Hr. apply Hv. by right.
    + right. destruct Hm as [-> _]. by rewrite Hstep, Z.add_simpl_r.
Qed.

Lemma Resync_replays bound h request s view :
  history_inv bound h ->
  h_streams h !! (rq_Observer request, rq_Stream request) = Some s ->
  views view (sst_items s) -> rr_FullRequired (Resync h request) = false ->
  foldl consume (view (rq_AfterSequence request)) (rr_Packets (Resync h request))
    = view (sst_latest s).
Proof.
  intros Hi Hs Hv Hf. destruct (Resync_served _ _ Hf) as (s' & Hs' & Hsv).
  rewrite Hs in Hs'. injection Hs' as <-. pose proof (hi_streams _ _ Hi _ _ Hs) as Hok.
  destruct (sv_replay _ _ _ Hsv) as [[<- ->]|(Hl & p & rest & Hit & -> & Hfirst & _)]; [done|].
  destruct (itemsAfter_chain _ _ _ _ _ _ _ _ (sok_chain _ _ _ _ _ Hok) Hl Hit) as (Hc & _ & _ & Hel).
  eapply consume_chain; [done| |].
  - intros q Hq. apply Hv. by apply Hel.
  - destruct (pk_Full p) eqn:Hfp; [by left|right]. destruct Hfirst as [|Hb]; [done|].
    apply chain_cons in Hc as (Hp & _). rewrite (pok_Base _ _ _ _ Hp), Hfp in Hb. by rewrite Hb.
Qed.

(** [Recover] converges: when it succeeds it never asks for a full snapshot,
    and a consumer that stands at its acknowledged point and consumes the
    returned packets reaches the newest state of the stream, whether the
    packets were replayed from history or a new full snapshot was appended. *)
Theorem Recover_converges bound h request provider now h' r :
  0 <= bound -> bound + 1 < 2 ^ 64 -> history_inv bound h ->
  Recover h request provider now = (h', r, Ok tt) ->
  rr_FullRequired r = false
  /\ exists s, h_streams h' !! (rq_Observer request, rq_Stream request) = Some s
     /\ rr_LatestSequence r = sst_latest s
     /\ forall view, views view (sst_items s) ->
          foldl consume (view (rq_AfterSequence request)) (rr_Packets r) = view (sst_latest s).
Proof.
  intros Hb0 Hb Hi. unfold Recover.
  destruct (rr_FullRequired (Resync h request)) eqn:Hf; cbn [negb].
  - destruct provider as [snapshot|]; [|done]. destruct (snapshot request) as [packet|]; [|done].
    set (packet' := mkPacket _ _ _ _ _ _ _ _ _).
    destruct (Append_cases h packet' now) as [[e ->]|(h1 & p & -> & Hc)]; [done|].
    intros [= <- <-]. split; [done|].
    destruct (ac_result _ _ _ _ _ Hc) as (h2 & Hr & ->).
    exists (appended (h_options h) (streamOf h (rq_Observer request, rq_Stream request)) p now).
    assert (Hfull : pk_Full p = true) by (by rewrite (ac_packet _ _ _ _ _ Hc)).
    split_and!; [apply lookup_insert_eq|done|].
    intros view Hv. cbn. unfold consume. rewrite Hfull.
    assert (Hin : p ∈ lastn (ho_MaxPacketsPerStream (h_options h))
                        (sst_items (streamOf h (rq_Observer request, rq_Stream request)) ++ [p])).
    { apply last_Some_elem_of. rewrite lastn_last, last_snoc by apply Hi. done. }
    rewrite (Hv p Hin). unfold consume. by rewrite Hfull.
  - intros [= <- <-]. split; [done|].
    destruct (Resync_served _ _ Hf) as (s & Hs & Hsv). exists s.
    split_and!; [done|by apply Resync_latest|]. intros view Hv. by eapply Resync_replays.
Qed.
End Consumer.

(** ** Persistence *)

Definition snapKey (v : HistoryStreamSnapshot) : streamKey := (hs_Observer v, hs_Stream v).

(** The [uint64] fields of a persisted stream. *)
Definition u64_fields (v : HistoryStreamSnapshot) : Prop :=
  in_u 64 (hs_Latest v) /\ in_u 64 (hs_Acked v)
  /\ Forall (fun p => in_u 64 (pk_Sequence p) /\ in_u 64 (pk_BaseSequence p)) (hs_Packets v).

(** A persisted stream that is consistent under some options. *)
Record importable (o : HistoryOptions) (epoch : Z) (v : HistoryStreamSnapshot) : Prop := {
  im_topic : st_Topic (hs_Stream v) <> EmptyString;
  im_chain : chain o epoch (snapKey v) (hs_Latest v) (hs_Packets v);
  im_acked : hs_Acked v <= hs_Latest v;
  im_drained : 0 < hs_Latest v -> hs_Packets v = [] -> hs_Acked v = hs_Latest v;
  im_schema : 0 < hs_Latest v -> governing (hs_Schema v) (hs_Packets v) <> 0
}.

(** The stream an importable snapshot is loaded as. *)
Definition imported (o : HistoryOptions) (now : streamKey -> Z) (v : HistoryStreamSnapshot)
    : streamState :=
  mkState (hs_Latest v) (hs_Acked v)
    (u64! (hs_Dropped v + Z.max 0 (len (hs_Packets v) - ho_MaxPacketsPerStream o)))
    (hs_Pruned v) (governing (hs_Schema v) (hs_Packets v))
    (if hs_LastActivityUnixNano v =? 0 then now (snapKey v) else hs_LastActivityUnixNano v)
    (lastn (ho_MaxPacketsPerStream o) (hs_Packets v)).

Definition summary (p : Packet) : Z * Z := (pk_Sequence p, pk_SchemaVersion p).

Lemma identity_check epoch v p :
  negb (bool_decide (pk_Observer p = hs_Observer v)) || negb (bool_decide (pk_Stream p = hs_Stream v))
    || negb (pk_Epoch p =? epoch) || (pk_Sequence p =? 0) || (pk_SchemaVersion p =? 0) = false
  <-> pk_Observer p = (snapKey v).1 /\ pk_Stream p = (snapKey v).2 /\ pk_Epoch p = epoch
      /\ pk_Sequence p <> 0 /\ pk_SchemaVersion p <> 0.
Proof.
  rewrite !orb_false_iff, !negb_false_iff, !bool_decide_eq_true, !Z.eqb_eq, !Z.eqb_neq. cbn. tauto.
Qed.

Lemma payload_check o p :
  (0 <? ho_MaxPayloadBytes o) && (ho_MaxPayloadBytes o <? len (pk_Payload p)) = false
  <-> (0 < ho_MaxPayloadBytes o -> len (pk_Payload p) <= ho_MaxPayloadBytes o).
Proof. rewrite andb_false_iff, !Z.ltb_ge. lia. Qed.

Lemma importPacket_first o epoch v p a :
  in_u 64 (pk_Sequence p) -> in_u 64 (pk_BaseSequence p) ->
  importPacket o epoch v None p = Ok a <-> packet_ok o epoch (snapKey v) p /\ a = Some (summary p).
Proof.
  intros Hs Hb. unfold importPacket. rewrite !reject_bind, identity_check, payload_check.
  rewrite !andb_false_iff, !negb_false_iff, !Z.eqb_eq.
  assert (Hw : pk_Sequence p <> 0 -> u64! (pk_BaseSequence p + 1) = pk_Sequence p
               <-> pk_BaseSequence p = pk_Sequence p - 1).
  { intros Hne. unfold in_u in *. destruct (decide (pk_BaseSequence p + 1 < 2 ^ 64)).
    - rewrite wrapu_small by (unfold in_u; lia). lia.
    - replace (pk_BaseSequence p + 1) with (2 ^ 64) by lia.
      change (u64! (2 ^ 64)) with 0. lia. }
  split.
  - intros ((? & ? & ? & ? & ?) & ? & Hf & Hfull & [= <-]). rewrite Hw in Hf by done.
    split; [|done]. unfold in_u in *. split; try done; [lia|].
    destruct (pk_Full p); destruct Hf, Hfull; try done; lia.
  - intros [[] ->]. rewrite Hw by lia. destruct (pk_Full p); split_and!; auto; lia.
Qed.

Lemma importPacket_next o epoch v q p a :
  in_u 64 (pk_Sequence q) -> in_u 64 (pk_Sequence p) ->
  importPacket o epoch v (Some (summary q)) p = Ok a
  <-> packet_ok o epoch (snapKey v) p /\ follows q p /\ a = Some (summary p).
Proof.
  intros Hq Hs. unfold importPacket, summary.
  rewrite !reject_bind, identity_check, payload_check.
  assert (Hw : pk_Sequence p <> 0 -> pk_Sequence p = u64! (pk_Sequence q + 1)
               <-> pk_Sequence p = pk_Sequence q + 1).
  { intros Hne. unfold in_u in *. destruct (decide (pk_Sequence q + 1 < 2 ^ 64)).
    - by rewrite wrapu_small by (unfold in_u; lia).
    - replace (pk_Sequence q + 1) with (2 ^ 64) by lia.
      change (u64! (2 ^ 64)) with 0. lia. }
  unfold follows. split.
  - intros ((? & ? & ? & ? & ?) & ? & (u & E2 & [Hfull [= <-]]%reject_bind)%bind_ok).
    apply reject_bind in E2 as [E1 E2%reject_ok].
    apply orb_false_iff in E1 as [E1 E3]. rewrite negb_false_iff, Z.eqb_eq, Hw in E1 by done.
    rewrite !andb_false_iff, !negb_false_iff, !Z.eqb_eq in *. unfold in_u in *.
    split_and!; [|done|tauto|done]. split; try done; [lia|].
    destruct (pk_Full p); destruct E3, Hfull; try done; lia.
  - intros ([] & [Hseq Hsch] & ->). split_and!; [done..|lia|done|done|].
    assert (E1 : negb (pk_Sequence p =? u64! (pk_Sequence q + 1))
              || negb (pk_Full p) && negb (pk_BaseSequence p =? pk_Sequence q) = false).
    { rewrite orb_false_iff, andb_false_iff, !negb_false_iff, !Z.eqb_eq, Hw by lia.
      split; [done|]. destruct (pk_Full p); [by left|right; lia]. }
    assert (E2 : negb (pk_SchemaVersion p =? pk_SchemaVersion q) && negb (pk_Full p) = false).
    { rewrite andb_false_iff, !negb_false_iff, Z.eqb_eq. tauto. }
    rewrite E1, E2. cbn. apply reject_bind. split; [|done].
    rewrite andb_false_iff, negb_false_iff, Z.eqb_eq. destruct (pk_Full p); [by right|by left].
Qed.

Lemma importPackets_next o epoch v ps q a :
  in_u 64 (pk_Sequence q) -> Forall (fun p => in_u 64 (pk_Sequence p) /\ in_u 64 (pk_BaseSequence p)) ps ->
  foldM (importPacket o epoch v) (Some (summary q)) ps = Ok a
  <-> Forall (packet_ok o epoch (snapKey v)) ps /\ Sorted follows (q :: ps)
      /\ a = summary <$> last (q :: ps).
Proof.
  intros Hq Hps. revert q Hq. induction Hps as [|p ps [Hp Hb] Hps IH]; intros q Hq; cbn [foldM].
  { split; [intros [= <-]; split_and!; [done|by repeat constructor|done]|by intros (_ & _ & ->)]. }
  split.
  - destruct (importPacket _ _ _ _ _) as [b|] eqn:E; [|done]. cbn [mbind result_bind].
    apply importPacket_next in E as (Hok & Hf & ->); [|done..].
    intros (HF & Hs & ->)%IH; [|done]. split_and!; [by constructor| |done].
    constructor; [done|by constructor].
  - intros ([Hok HF]%Forall_cons & [Hs Hh]%Sorted_inv & ->).
    assert (E : importPacket o epoch v (Some (summary q)) p = Ok (Some (summary p))).
    { apply importPacket_next; [done..|]. split_and!; [done| |done]. by inversion Hh. }
    rewrite E. cbn [mbind result_bind]. by apply IH.
Qed.

Lemma importPackets_iff o epoch v ps a :
  Forall (fun p => in_u 64 (pk_Sequence p) /\ in_u 64 (pk_BaseSequence p)) ps ->
  foldM (importPacket o epoch v) None ps = Ok a
  <-> Forall (packet_ok o epoch (snapKey v)) ps /\ Sorted follows ps /\ a = summary <$> last ps.
Proof.
  intros [|p ps' [Hp Hb] Hps]; cbn [foldM].
  { split; [intros [= <-]; by repeat constructor|by intros (_ & _ & ->)]. }
  split.
  - destruct (importPacket _ _ _ _ _) as [b|] eqn:E; [|done]. cbn [mbind result_bind].
    apply importPacket_first in E as (Hok & ->); [|done..].
    intros (HF & Hs & ->)%importPackets_next; [|done..]. split_and!; [by constructor|done|done].
  - intros ([Hok HF]%Forall_cons & Hs & ->).
    assert (E : importPacket o epoch v None p = Ok (Some (summary p))) by (by apply importPacket_first).
    rewrite E. cbn [mbind result_bind]. by apply importPackets_next.
Qed.

Lemma chain_of_packets o epoch v a :
  u64_fields v ->
  foldM (importPacket o epoch v) None (hs_Packets v) = Ok a
    /\ (0 <? len (Packet_Clone <$> hs_Packets v))
        && negb (match a with Some (s, _) => s | None => 0 end =? hs_Latest v) = false
  <-> chain o epoch (snapKey v) (hs_Latest v) (hs_Packets v) /\ a = summary <$> last (hs_Packets v).
Proof.
  intros (_ & _ & Hu). rewrite importPackets_iff by done.
  rewrite Packet_Clone_list, andb_false_iff, negb_false_iff, Z.ltb_ge, Z.eqb_eq. split.
  - intros ((HF & Hs & ->) & Hl). split; [|done]. split; [done..|]. intros p Hp.
    rewrite Hp in Hl. cbn in Hl. destruct Hl as [Hl|Hl]; [|done].
    destruct (hs_Packets v); [done|]. unfold len in Hl. cbn in Hl. lia.
  - intros [[HF Hs Hla] ->]. split_and!; [done..|].
    destruct (last (hs_Packets v)) as [p|] eqn:E; cbn; [right; by apply Hla|left].
    apply last_None in E as ->. done.
Qed.

Lemma importStream_iff o epoch now m v m' :
  0 < ho_MaxPacketsPerStream o -> u64_fields v ->
  importStream o epoch now m v = Ok m'
  <-> importable o epoch v /\ m !! snapKey v = None /\ m' = <[snapKey v := imported o now v]> m.
Proof.
  intros Ho Hu. unfold importStream. fold (snapKey v).
  rewrite !reject_bind, !bool_decide_eq_false, <-eq_None_not_Some, bind_ok.
  assert (Hg : match list.last (lastn (ho_MaxPacketsPerStream o) (hs_Packets v)) with
               | Some p => pk_SchemaVersion p | None => hs_Schema v end
               = governing (hs_Schema v) (hs_Packets v)) by (by rewrite lastn_last).
  assert (Hacked : (hs_Latest v <? hs_Acked v)
      || (0 <? hs_Latest v) && (len (hs_Packets v) =? 0) && negb (hs_Acked v =? hs_Latest v) = false
    <-> hs_Acked v <= hs_Latest v
        /\ (0 < hs_Latest v -> hs_Packets v = [] -> hs_Acked v = hs_Latest v)).
  { rewrite orb_false_iff, !andb_false_iff, negb_false_iff, !Z.ltb_ge, Z.eqb_neq, Z.eqb_eq.
    assert (Hn : len (hs_Packets v) = 0 <-> hs_Packets v = []).
    { split; [|by intros ->]. destruct (hs_Packets v); [done|]. unfold len. cbn. lia. }
    rewrite Hn. destruct (decide (hs_Packets v = [])), (decide (0 < hs_Latest v));
      intuition (auto; lia). }
  rewrite Hacked. split.
  - intros (Ht & Hm & (Ha & Hd) & a & Hfold & (Hl & Hrest)%reject_bind).
    destruct (proj1 (chain_of_packets o epoch v a Hu) (conj Hfold Hl)) as [Hc ->].
    rewrite retain_spec, Packet_Clone_list in Hrest. fold (lastn (ho_MaxPacketsPerStream o) (hs_Packets v)) in Hrest.
    rewrite Hg in Hrest. apply reject_bind in Hrest as [Hsch [= <-]].
    split_and!; [|done|done]. split; try done.
    rewrite andb_false_iff, Z.ltb_ge, Z.eqb_neq in Hsch. lia.
  - intros ([Ht Hc Ha Hd Hs] & Hm & ->). split_and!; [done..|].
    destruct (proj2 (chain_of_packets o epoch v _ Hu) (conj Hc eq_refl)) as [Hfold Hl].
    eexists. split; [exact Hfold|]. apply reject_bind. split; [exact Hl|].
    rewrite retain_spec, Packet_Clone_list. fold (lastn (ho_MaxPacketsPerStream o) (hs_Packets v)).
    rewrite Hg. apply reject_bind. split; [|done].
    rewrite andb_false_iff, Z.ltb_ge, Z.eqb_neq. lia.
Qed.

Lemma importStreams_iff o epoch now vs m m' :
  0 < ho_MaxPacketsPerStream o -> Forall u64_fields vs ->
  foldM (importStream o epoch now) m vs = Ok m'
  <-> Forall (importable o epoch) vs /\ NoDup (snapKey <$> vs)
      /\ (forall v, v ∈ vs -> m !! snapKey v = None)
      /\ m' = (imported o now <$> keyed_map snapKey vs) ∪ m.
Proof.
  intros Ho Hu. revert m. induction Hu as [|v vs Hv Hu IH]; intros m; cbn [foldM].
  { unfold keyed_map. csimpl. rewrite fmap_empty, (left_id_L ∅ (∪)).
    split; [intros [= <-]; split_and!; try done; [constructor|by intros ? ?%not_elem_of_nil]|].
    by intros (_ & _ & _ & ->). }
  assert (Hins : forall k, k ∉ snapKey <$> vs ->
    (imported o now <$> keyed_map snapKey vs) ∪ <[k := imported o now v]> m
    = <[k := imported o now v]> ((imported o now <$> keyed_map snapKey vs) ∪ m)).
  { intros k Hk. rewrite insert_union_r; [done|]. rewrite lookup_fmap.
    by rewrite (proj2 (keyed_map_lookup_None snapKey vs k) Hk). }
  rewrite bind_ok, keyed_map_cons, fmap_insert, <-insert_union_l. csimpl.
  rewrite Forall_cons, NoDup_cons. split.
  - intros (m1 & (Him & Hm & ->)%importStream_iff & (HF & Hnd & Hdis & ->)%IH); [|done..].
    assert (Hk : snapKey v ∉ snapKey <$> vs).
    { intros (w & Hw & Hin)%list_elem_of_fmap. specialize (Hdis w Hin).
      by rewrite <-Hw, lookup_insert_eq in Hdis. }
    split_and!; [done..| |by apply Hins].
    intros w [->|Hw]%elem_of_cons; [done|]. specialize (Hdis w Hw).
    by apply lookup_insert_None in Hdis as [? _].
  - intros ([Him HF] & [Hk Hnd] & Hdis & ->). eexists. split.
    + apply importStream_iff; [done..|]. split_and!; [done| |done]. apply Hdis. left.
    + apply IH. split_and!; [done..| |by rewrite Hins].
      intros w Hw. apply lookup_insert_None. split; [apply Hdis; by right|].
      intros E. apply Hk. rewrite E. by apply list_elem_of_fmap_2.
Qed.

(** What a snapshot must satisfy to be imported. *)
Record snapshot_ok (o : HistoryOptions) (snapshot : HistorySnapshot) : Prop := {
  sn_version : hp_Version snapshot = HistorySnapshotVersion;
  sn_epoch : hp_Epoch snapshot <> 0;
  sn_limit : 0 < ho_MaxStreams o -> len (hp_Streams snapshot) <= ho_MaxStreams o;
  sn_streams : Forall (importable o (hp_Epoch snapshot)) (hp_Streams snapshot);
  sn_keys : NoDup (snapKey <$> hp_Streams snapshot)
}.

Lemma Import_iff h snapshot now h' :
  0 < ho_MaxPacketsPerStream (h_options h) -> Forall u64_fields (hp_Streams snapshot) ->
  Import h snapshot now = Ok h'
  <-> snapshot_ok (h_options h) snapshot
      /\ h' = mkHist (h_options h) (hp_Epoch snapshot) (h_journal h)
                (imported (h_options h) now <$> keyed_map snapKey (hp_Streams snapshot)).
Proof.
  intros Ho Hu. unfold Import. rewrite !reject_bind, bind_ok.
  rewrite negb_false_iff, Z.eqb_eq, Z.eqb_neq, andb_false_iff, !Z.ltb_ge. split.
  - intros (Hv & He & Hl & m & (HF & Hnd & _ & ->)%importStreams_iff & [= <-]); [|done..].
    rewrite (right_id_L ∅ (∪)). split; [|done]. split; try done. lia.
  - intros ([Hv He Hl HF Hnd] & ->). split_and!; [done..|lia|].
    eexists. split; [|done]. apply importStreams_iff; [done..|].
    rewrite (right_id_L ∅ (∪)). split_and!; [done|done| |done].
    intros. apply lookup_empty.
Qed.

Lemma imported_ok o epoch now v :
  options_ok o -> u64_fields v -> importable o epoch v ->
  stream_ok o epoch (2 ^ 64 - 1) (snapKey v) (imported o now v).
Proof.
  intros [Ho _] (Hl & Ha & _) [Ht Hc Hack Hd Hs]. unfold in_u in *.
  assert (Hlast : forall d, governing d (lastn (ho_MaxPacketsPerStream o) (hs_Packets v))
                            = governing d (hs_Packets v)).
  { intros d. unfold governing. by rewrite lastn_last. }
  split; cbn [imported sst_latest sst_items sst_acked sst_schema]; try done; try lia.
  - by apply chain_drop.
  - rewrite len_lastn by lia. lia.
  - intros Hpos Hnil. apply Hd; [done|]. apply (f_equal len) in Hnil.
    rewrite len_lastn in Hnil by lia. unfold len in Hnil. destruct (hs_Packets v); [done|]. cbn in Hnil. lia.
  - rewrite Hlast. unfold governing. by destruct (last (hs_Packets v)).
Qed.

Lemma Import_inv h snapshot now h' :
  options_ok (h_options h) -> Forall u64_fields (hp_Streams snapshot) ->
  Import h snapshot now = Ok h' -> history_inv (2 ^ 64 - 1) h'.
Proof.
  intros Ho Hu ([Hv He Hl HF Hnd] & ->)%Import_iff; [|apply Ho|done]. split; cbn; [done|done| |].
  - intros k s Hk. apply lookup_fmap_Some in Hk as (v & <- & Hk).
    apply keyed_map_lookup in Hk as [Hin <-]; [|done]. rewrite Forall_forall in HF, Hu.
    apply imported_ok; [done|by apply Hu|by apply HF].
  - intros Hpos. rewrite map_size_fmap. specialize (Hl Hpos).
    rewrite <-length_map_to_list. rewrite <-(length_fmap snd), keyed_map_values by done. exact Hl.
Qed.

Lemma exportStream_key e : snapKey (exportStream e) = e.1.
Proof. by destruct e as [[] ?]. Qed.

Lemma Export_streams_perm h :
  hp_Streams (Export h) ≡ₚ exportStream <$> map_to_list (h_streams h).
Proof. apply sort_slice_perm. Qed.

Lemma Export_keys h : snapKey <$> hp_Streams (Export h) ≡ₚ (map_to_list (h_streams h)).*1.
Proof.
  rewrite Export_streams_perm, <-list_fmap_compose.
  erewrite list_fmap_ext; [done|]. intros _ e _. apply exportStream_key.
Qed.

Lemma Export_lookup h k :
  keyed_map snapKey (hp_Streams (Export h)) !! k = (fun s => exportStream (k, s)) <$> h_streams h !! k.
Proof.
  assert (Hnd : NoDup (snapKey <$> hp_Streams (Export h))).
  { rewrite Export_keys. apply NoDup_fst_map_to_list. }
  apply option_eq. intros v. rewrite keyed_map_lookup, Export_streams_perm, list_elem_of_fmap by done.
  rewrite fmap_Some. split.
  - intros [([k' s] & -> & Hin) Hk]. rewrite exportStream_key in Hk. cbn in Hk. subst.
    exists s. split; [by apply elem_of_map_to_list|done].
  - intros (s & Hs & ->). split; [|apply exportStream_key].
    exists (k, s). split; [done|]. by apply elem_of_map_to_list.
Qed.

Lemma export_fields o epoch bound k s :
  bound < 2 ^ 64 -> stream_ok o epoch bound k s -> u64_fields (exportStream (k, s)).
Proof.
  intros Hb [_ [Hp _ _] Hl Ha]. destruct k as [ob st]. unfold u64_fields, in_u. cbn.
  rewrite Packet_Clone_list. split_and!; [lia..|]. eapply Forall_impl; [exact Hp|].
  cbn. intros p [_ _ _ Hs _ Hbase _]. rewrite Hbase. destruct (pk_Full p); lia.
Qed.

Lemma export_importable o epoch bound k s :
  stream_ok o epoch bound k s -> importable o epoch (exportStream (k, s)).
Proof.
  intros [Ht Hc Hl Ha Hr Hd Hg Hsch]. destruct k as [ob st].
  split; cbn; rewrite ?Packet_Clone_list; try done; [lia|]. intros Hpos. rewrite <-Hg. auto.
Qed.

(** The state an exported stream is loaded as: the stream itself, with a clock
    reading where it had none. *)
Definition settled (now : streamKey -> Z) (k : streamKey) (s : streamState) : streamState :=
  mkState (sst_latest s) (sst_acked s) (u64! (sst_dropped s)) (sst_pruned s) (sst_schema s)
    (if sst_activity s =? 0 then now k else sst_activity s) (sst_items s).

Lemma import_export_stream o epoch bound now k s :
  stream_ok o epoch bound k s -> imported o now (exportStream (k, s)) = settled now k s.
Proof.
  intros Hs. pose proof (sok_retained _ _ _ _ _ Hs). destruct k as [ob st].
  unfold imported, settled. cbn. rewrite Packet_Clone_list, lastn_id, Z.max_l by lia.
  rewrite Z.add_0_r. by rewrite <-(sok_governing _ _ _ _ _ Hs).
Qed.

Lemma Export_snapshot_ok bound h :
  bound < 2 ^ 64 -> history_inv bound h ->
  snapshot_ok (h_options h) (Export h) /\ Forall u64_fields (hp_Streams (Export h)).
Proof.
  intros Hb [Ho He Hs Hl]. split; [split|]; cbn [Export exportLocked hp_Version hp_Epoch]; try done.
  - intros Hpos. specialize (Hl Hpos). unfold len. rewrite Export_streams_perm, length_fmap.
    by rewrite length_map_to_list.
  - rewrite Export_streams_perm, Forall_fmap. apply Forall_forall.
    intros [k s] Hin%elem_of_map_to_list. by eapply export_importable, Hs.
  - rewrite Export_keys. apply NoDup_fst_map_to_list.
  - rewrite Export_streams_perm, Forall_fmap. apply Forall_forall.
    intros [k s] Hin%elem_of_map_to_list. by eapply export_fields, Hs.
Qed.

(** A history that is exported and imported into a history with the same
    options is reproduced: the epoch and, for every stream, the sequence
    state, the counters, the schema, the activity and every retained packet. *)
Theorem Import_Export bound h h0 now :
  bound < 2 ^ 64 -> history_inv bound h -> h_options h0 = h_options h ->
  exists h', Import h0 (Export h) now = Ok h' /\ h_epoch h' = h_epoch h
    /\ h_options h' = h_options h0 /\ h_journal h' = h_journal h0
    /\ forall k, h_streams h' !! k = settled now k <$> h_streams h !! k.
Proof.
  intros Hb Hi Ho. destruct (Export_snapshot_ok _ _ Hb Hi) as [Hok Hu].
  eexists. split.
  - apply Import_iff; [rewrite Ho; apply Hi|done|]. rewrite Ho. split; [exact Hok|done].
  - cbn [h_epoch h_options h_journal h_streams]. split_and!; [done..|]. intros k.
    rewrite lookup_fmap, Export_lookup.
    destruct (h_streams h !! k) as [s|] eqn:Hs; cbn; [|done]. f_equal.
    eapply import_export_stream. by apply (hi_streams _ _ Hi).
Qed.

(** ** The journal *)

Lemma find_key vs k :
  NoDup (snapKey <$> vs) ->
  match keyed_map snapKey vs !! k with
  | Some v => exists i, find vs k.1 k.2 = Some i /\ vs !! i = Some v
  | None => find vs k.1 k.2 = None
  end.
Proof.
  intros Hnd. unfold find. destruct k as [ob st]. cbn.
  set (P := fun v => hs_Observer v = ob /\ hs_Stream v = st).
  destruct (list_find P vs) as [[i v]|] eqn:E.
  - apply list_find_Some in E as (Hi & [<- <-] & _).
    assert (Hk : keyed_map snapKey vs !! snapKey v = Some v).
    { apply keyed_map_lookup; [done|]. split; [by eapply list_elem_of_lookup_2|done]. }
    change (hs_Observer v, hs_Stream v) with (snapKey v). rewrite Hk. by exists i.
  - rewrite list_find_None in E.
    destruct (keyed_map snapKey vs !! (ob, st)) as [v|] eqn:Hk; [|done].
    apply keyed_map_lookup in Hk as [Hin Hk]; [|done]. rewrite Forall_forall in E.
    exfalso. apply (E v Hin). unfold snapKey in Hk. by injection Hk.
Qed.

Lemma removeAt_map vs k :
  NoDup (snapKey <$> vs) ->
  keyed_map snapKey (removeAt vs k.1 k.2) = delete k (keyed_map snapKey vs)
  /\ NoDup (snapKey <$> removeAt vs k.1 k.2).
Proof.
  intros Hnd. unfold removeAt. pose proof (find_key vs k Hnd) as Hf.
  destruct (keyed_map snapKey vs !! k) as [v|] eqn:Hk.
  - destruct Hf as (i & -> & Hi). apply keyed_map_lookup in Hk as [_ <-]; [|done].
    by apply keyed_map_remove.
  - rewrite Hf. by rewrite delete_id.
Qed.

Lemma removeAll_map vs (keys : list streamKey) :
  NoDup (snapKey <$> vs) ->
  let vs' := foldl (fun streams t => removeAt streams (tg_Observer t) (tg_Stream t)) vs
               ((fun k => mkTarget k.1 k.2) <$> keys) in
  keyed_map snapKey vs' = foldl (fun m k => delete k m) (keyed_map snapKey vs) keys
  /\ NoDup (snapKey <$> vs').
Proof.
  revert vs. induction keys as [|k keys IH]; intros vs Hnd; csimpl; [done|].
  destruct (removeAt_map vs k Hnd) as [<- Hnd']. by apply IH.
Qed.

(** A live stream and its replayed image: the same sequence state; the live
    packets are the newest ones of the image, and the released packets are
    counted, though not always under the same counter. *)
Record mirrors (o : HistoryOptions) (epoch : Z) (s : streamState) (v : HistoryStreamSnapshot)
    : Prop := {
  mi_importable : importable o epoch v;
  mi_latest : hs_Latest v = sst_latest s;
  mi_acked : hs_Acked v = sst_acked s;
  mi_schema : hs_Schema v = sst_schema s;
  mi_governing : hs_Schema v = governing (hs_Schema v) (hs_Packets v);
  mi_items : sst_items s = lastn (ho_MaxPacketsPerStream o) (hs_Packets v);
  mi_released : exists z, sst_dropped s + sst_pruned s
    = hs_Dropped v + hs_Pruned v + (len (hs_Packets v) - len (sst_items s)) + z * 2 ^ 64
}.

Ltac offset z := let k := fresh "k" in let E := fresh "E" in
  destruct (wrapu_offset z) as [k E]; rewrite E in *.

Lemma mirrors_append o epoch bound s v p now :
  options_ok o -> stream_ok o epoch bound (snapKey v) s -> mirrors o epoch s v ->
  packet_ok o epoch (snapKey v) p -> pk_Sequence p = sst_latest s + 1 ->
  (0 < sst_latest s -> pk_SchemaVersion p = sst_schema s \/ pk_Full p = true) ->
  mirrors o epoch (appended o s p now)
    (mkStreamSnapshot (hs_Observer v) (hs_Stream v) (pk_Sequence p) (hs_Acked v) (hs_Dropped v)
       (hs_Pruned v) (pk_SchemaVersion p) (hs_LastActivityUnixNano v) (hs_Packets v ++ [p])).
Proof.
  intros [Ho _] Hs [[Ht Hc Ha Hd Hsch] Hl Hack Hsc Hg Hit [z Hz]] Hp Hseq Htr.
  pose proof (sok_latest _ _ _ _ _ Hs). pose proof (sok_acked _ _ _ _ _ Hs).
  assert (Hlen : len [p] = 1) by done. pose proof (len_nonneg (hs_Packets v)).
  split; cbn [appended hs_Latest hs_Acked hs_Schema hs_Packets hs_Dropped hs_Pruned hs_Observer hs_Stream
              sst_latest sst_acked sst_schema sst_items sst_dropped sst_pruned]; try done.
  - split; cbn [hs_Latest hs_Acked hs_Schema hs_Packets hs_Observer hs_Stream]; [done| |lia| |].
    + rewrite Hseq, <-Hl. apply chain_snoc; [done|done|lia|].
      intros Hne. destruct Htr as [Htr|Htr]; [| |by right].
      * pose proof (chain_len _ _ _ _ _ Hc ltac:(lia)). destruct (hs_Packets v); [done|].
        rewrite len_cons in *. pose proof (len_nonneg l). lia.
      * left. rewrite Htr, <-Hsc, Hg. unfold governing.
        destruct (last (hs_Packets v)) eqn:E; [done|]. by apply last_None in E.
    + intros _ Hnil. by apply app_nil in Hnil as [_ ?].
    + intros _. unfold governing. rewrite last_snoc. apply Hp.
  - unfold governing. by rewrite last_snoc.
  - rewrite Hit. by apply lastn_snoc.
  - rewrite Hit in *. rewrite lastn_snoc, !len_lastn, len_app, Hlen in * by lia.
    offset (sst_dropped s + Z.max 0 (Z.min (ho_MaxPacketsPerStream o) (len (hs_Packets v)) + 1
                                     - ho_MaxPacketsPerStream o)).
    exists (z + k). lia.
Qed.

Lemma mirrors_acknowledge o epoch bound s v sequence now :
  options_ok o -> stream_ok o epoch bound (snapKey v) s -> mirrors o epoch s v ->
  sst_acked s < sequence <= sst_latest s ->
  mirrors o epoch (acknowledged o s sequence now)
    (let n := released (ho_PruneAcknowledged o) sequence (hs_Packets v) in
     mkStreamSnapshot (hs_Observer v) (hs_Stream v) (hs_Latest v) sequence (hs_Dropped v)
       (u64! (hs_Pruned v + Z.of_nat n)) (hs_Schema v) (hs_LastActivityUnixNano v)
       (drop n (hs_Packets v))).
Proof.
  intros [Ho _] Hs [[Ht Hc Ha Hd Hsch] Hl Hack Hsc Hg Hit [z Hz]] Hseq. cbn zeta.
  set (n := released (ho_PruneAcknowledged o) sequence (hs_Packets v)).
  pose proof (len_nonneg (hs_Packets v)).
  assert (Hn : ho_PruneAcknowledged o = true -> Z.of_nat n = Z.max 0 (len (hs_Packets v) - (sst_latest s - sequence))).
  { intros Hp. unfold n, released. rewrite Hp, (chain_prunable _ _ _ _ _ _ Hc) by lia. lia. }
  assert (Hn0 : ho_PruneAcknowledged o = false -> n = 0%nat) by (intros Hp; unfold n, released; by rewrite Hp).
  assert (Hrel : released (ho_PruneAcknowledged o) sequence (sst_items s)
                 = (n - Z.to_nat (len (hs_Packets v) - ho_MaxPacketsPerStream o))%nat).
  { pose proof (chain_prunable _ _ _ _ _ sequence (sok_chain _ _ _ _ _ Hs) ltac:(lia)) as Hps.
    rewrite Hit, len_lastn in Hps by lia. unfold released.
    destruct (ho_PruneAcknowledged o); [|rewrite Hn0; [lia|done]]. specialize (Hn eq_refl).
    rewrite Hit. lia. }
  assert (Hgov : governing (hs_Schema v) (drop n (hs_Packets v)) = hs_Schema v).
  { unfold governing in Hg |- *. destruct (decide (n < length (hs_Packets v))%nat).
    - by rewrite last_drop.
    - by rewrite drop_ge by lia. }
  split; cbn [acknowledged hs_Latest hs_Acked hs_Schema hs_Packets hs_Dropped hs_Pruned
              sst_latest sst_acked sst_schema sst_items sst_dropped sst_pruned]; try done.
  - split; cbn [hs_Latest hs_Acked hs_Schema hs_Packets hs_Observer hs_Stream]; try done.
    + by apply chain_drop.
    + lia.
    + intros Hpos Hnil. apply (f_equal len) in Hnil. rewrite len_drop in Hnil.
      change (len []) with 0 in Hnil. destruct (ho_PruneAcknowledged o).
      * specialize (Hn eq_refl). destruct (decide (hs_Packets v = [])) as [E|E]; [specialize (Hd Hpos E); lia|].
        assert (0 < len (hs_Packets v)) by (destruct (hs_Packets v); [done|]; unfold len; cbn; lia). lia.
      * rewrite Hn0 in Hnil by done. specialize (Hd Hpos).
        destruct (hs_Packets v); [specialize (Hd eq_refl); lia|]. unfold len in Hnil. cbn in Hnil. lia.
    + rewrite Hgov. intros Hpos. rewrite Hg. auto.
  - rewrite Hrel, Hit. symmetry. by apply lastn_drop.
  - rewrite Hrel. offset (hs_Pruned v + Z.of_nat n).
    offset (sst_pruned s + Z.of_nat (n - Z.to_nat (len (hs_Packets v) - ho_MaxPacketsPerStream o))).
    rewrite !len_drop. rewrite Hit, len_lastn in * by lia. exists (z + k0 - k).
    destruct (ho_PruneAcknowledged o); [specialize (Hn eq_refl)|rewrite Hn0 in * by done]; lia.
Qed.

Lemma mirrors_new o epoch k :
  st_Topic k.2 <> EmptyString ->
  mirrors o epoch emptyState (mkStreamSnapshot k.1 k.2 0 0 0 0 0 0 []).
Proof.
  intros Ht. split; cbn; try done.
  - unfold lastn. by rewrite drop_nil.
  - exists 0. unfold len. cbn. lia.
Qed.

(** A snapshot that mirrors the streams of a history. *)
Record mirrored (o : HistoryOptions) (epoch : Z) (m : gmap streamKey streamState)
    (snapshot : HistorySnapshot) : Prop := {
  mr_version : hp_Version snapshot = HistorySnapshotVersion;
  mr_epoch : hp_Epoch snapshot = epoch;
  mr_keys : NoDup (snapKey <$> hp_Streams snapshot);
  mr_streams : forall k,
    option_Forall2 (mirrors o epoch) (m !! k) (keyed_map snapKey (hp_Streams snapshot) !! k)
}.

Lemma mirrored_update o epoch m snapshot vs k s v :
  mirrored o epoch m snapshot ->
  keyed_map snapKey vs = <[k := v]> (keyed_map snapKey (hp_Streams snapshot)) ->
  NoDup (snapKey <$> vs) -> mirrors o epoch s v ->
  mirrored o epoch (<[k := s]> m) (mkHistorySnapshot (hp_Version snapshot) epoch vs).
Proof.
  intros [Hv He Hk Hs] Hmap Hnd Hmi. split; cbn [hp_Version hp_Epoch hp_Streams]; [done..|]. intros k'. rewrite Hmap.
  destruct (decide (k' = k)) as [->|]; [rewrite !lookup_insert_eq; by constructor|].
  by rewrite !lookup_insert_ne by done.
Qed.

Lemma mirrored_filter o epoch m snapshot (P : streamKey -> Prop) `{!forall k, Decision (P k)} m' vs :
  mirrored o epoch m snapshot ->
  (forall k, m' !! k = if decide (P k) then m !! k else None) ->
  (forall k, keyed_map snapKey vs !! k
             = if decide (P k) then keyed_map snapKey (hp_Streams snapshot) !! k else None) ->
  NoDup (snapKey <$> vs) ->
  mirrored o epoch m' (mkHistorySnapshot (hp_Version snapshot) epoch vs).
Proof.
  intros [Hv He Hk Hs] Hm Hmap Hnd. split; cbn [hp_Version hp_Epoch hp_Streams]; [done..|]. intros k. rewrite Hm, Hmap.
  destruct (decide (P k)); [apply Hs|constructor].
Qed.

Lemma sweep_lookup {A} (keys : list streamKey) (m : gmap streamKey A) k :
  foldl (fun m k => delete k m) m keys !! k = if decide (k ∉ keys) then m !! k else None.
Proof.
  revert m. induction keys as [|k' keys IH]; intros m; cbn [foldl].
  { rewrite decide_True; [done|]. apply not_elem_of_nil. }
  rewrite IH. destruct (decide (k = k')) as [->|Hne].
  - rewrite lookup_delete_eq. rewrite (decide_False (P := k' ∉ k' :: keys)); [by case_decide|].
    intros Hn. apply Hn. left.
  - rewrite lookup_delete_ne by done. apply decide_ext. rewrite elem_of_cons. naive_solver.
Qed.

Lemma replay_append bound h packet now h' p snapshot :
  0 <= bound -> bound + 1 < 2 ^ 64 -> history_inv bound h -> append_commit h packet now h' p ->
  mirrored (h_options h) (h_epoch h) (h_streams h) snapshot ->
  exists vs, replayAppend (hp_Streams snapshot) p = Ok vs
    /\ mirrored (h_options h) (h_epoch h) (h_streams h')
         (mkHistorySnapshot (hp_Version snapshot) (h_epoch h) vs).
Proof.
  intros Hb0 Hb Hi [Ht Hpay Hlim Hp Hsch (h1 & Hr & ->)] Hmr.
  set (key := (pk_Observer packet, pk_Stream packet)) in *. cbn [h_streams set_streams].
  assert (Hs : stream_ok (h_options h) (h_epoch h) bound key (streamOf h key)) by (by apply streamOf_ok).
  destruct (sequenced_ok bound h key packet) as [Hok Hseq]; [done..|].
  rewrite <-Hp in Hok, Hseq. clear Hp. pose proof (sok_latest _ _ _ _ _ Hs).
  assert (Hob : pk_Observer p = key.1 /\ pk_Stream p = key.2) by (split; apply Hok).
  destruct Hob as [Ho1 Ho2]. unfold replayAppend. rewrite Ho1, Ho2.
  pose proof (mr_keys _ _ _ _ Hmr) as Hnd. pose proof (find_key _ key Hnd) as Hf.
  pose proof (mr_streams _ _ _ _ Hmr key) as Hm. unfold streamOf in *.
  destruct (keyed_map snapKey (hp_Streams snapshot) !! key) as [v|] eqn:Hv.
  - destruct Hf as (i & Hfi & Hvi). rewrite Hfi. cbn zeta beta iota. rewrite Hvi.
    inversion Hm as [s v' Hmi Hsk|]; subst. rewrite <-Hsk in *. cbn [from_option id] in *.
    pose proof Hv as [_ Hkey]%keyed_map_lookup; [|done].
    rewrite (mi_latest _ _ _ _ Hmi), Hseq, wrapu_small, Z.eqb_refl by (unfold in_u; lia).
    eexists. split; [reflexivity|]. rewrite Packet_Clone_id.
    destruct (keyed_map_update snapKey (hp_Streams snapshot) i v
      (mkStreamSnapshot (hs_Observer v) (hs_Stream v) (pk_Sequence p) (hs_Acked v) (hs_Dropped v)
        (hs_Pruned v) (pk_SchemaVersion p) (hs_LastActivityUnixNano v) (hs_Packets v ++ [p])))
      as [Hmap Hnd']; [done..|]. rewrite <-Hseq.
    eapply mirrored_update; [done|by rewrite Hmap, Hkey|done|].
    rewrite <-Hkey in Hs, Hok. eapply mirrors_append; [apply Hi|done..].
  - inversion Hm as [|Hsk]; subst. rewrite <-Hsk in *. cbn [from_option id] in *.
    rewrite Hf. cbn zeta beta iota.
    rewrite lookup_app_r, Nat.sub_diag by lia. cbn [lookup list_lookup hs_Latest].
    rewrite Hseq. cbn [emptyState sst_latest] in *. rewrite wrapu_small, Z.eqb_refl by (unfold in_u; lia).
    eexists. split; [reflexivity|]. rewrite Packet_Clone_id.
    set (v0 := mkStreamSnapshot key.1 key.2 0 0 0 0 0 0 []).
    assert (Hk0 : snapKey v0 = key) by (by destruct key).
    destruct (keyed_map_snoc snapKey (hp_Streams snapshot) v0) as [Hmap Hnd0]; [done|by rewrite Hk0|].
    destruct (keyed_map_update snapKey (hp_Streams snapshot ++ [v0]) (length (hp_Streams snapshot)) v0
      (mkStreamSnapshot (hs_Observer v0) (hs_Stream v0) (pk_Sequence p) (hs_Acked v0) (hs_Dropped v0)
        (hs_Pruned v0) (pk_SchemaVersion p) (hs_LastActivityUnixNano v0) (hs_Packets v0 ++ [p])))
      as [Hmap' Hnd']; [done|by rewrite lookup_app_r, Nat.sub_diag by lia|done|].
    rewrite Hmap, insert_insert_eq, Hk0 in Hmap'. rewrite <-Hseq.
    eapply mirrored_update; [done|exact Hmap'|exact Hnd'|].
    rewrite <-Hk0 in Hs, Hok. eapply mirrors_append; [apply Hi|done| |done..].
    by apply mirrors_new.
Qed.

Lemma replay_acknowledge bound h observer stream sequence now s snapshot :
  history_inv bound h ->
  h_streams h !! (observer, stream) = Some s -> sst_acked s < sequence <= sst_latest s ->
  mirrored (h_options h) (h_epoch h) (h_streams h) snapshot ->
  exists vs, replayAcknowledge (hp_Streams snapshot) observer stream sequence
               (ho_PruneAcknowledged (h_options h)) = Ok vs
    /\ mirrored (h_options h) (h_epoch h)
         (<[(observer, stream) := acknowledged (h_options h) s sequence now]> (h_streams h))
         (mkHistorySnapshot (hp_Version snapshot) (h_epoch h) vs).
Proof.
  intros Hi Hs Hseq Hmr. pose proof (mr_keys _ _ _ _ Hmr) as Hnd.
  pose proof (find_key _ (observer, stream) Hnd) as Hf.
  pose proof (mr_streams _ _ _ _ Hmr (observer, stream)) as Hm. rewrite Hs in Hm.
  inversion Hm as [s' v Hmi E Hv|]; subst. rewrite <-Hv in Hf. destruct Hf as (i & Hfi & Hvi).
  unfold replayAcknowledge. cbn [fst snd] in Hfi. rewrite Hfi. cbn [mbind option_bind].
  rewrite Hvi. cbn [mbind option_bind].
  rewrite (mi_latest _ _ _ _ Hmi), (mi_acked _ _ _ _ Hmi).
  destruct (Z.ltb_spec (sst_latest s) sequence); [lia|].
  destruct (Z.ltb_spec (sst_acked s) sequence); [|lia]. run_bind. cbn [reject_if].
  eexists. split; [done|].
  symmetry in Hv. apply keyed_map_lookup in Hv as [_ Hkey]; [|done].
  pose proof (mirrors_acknowledge _ (h_epoch h) bound s v sequence now (hi_options _ _ Hi)) as Hack.
  rewrite Hkey in Hack. specialize (Hack (hi_streams _ _ Hi _ _ Hs) Hmi Hseq). cbn zeta in Hack.
  rewrite (mi_latest _ _ _ _ Hmi) in Hack. unfold released in Hack.
  match type of Hack with mirrors _ _ _ ?w =>
    destruct (keyed_map_update snapKey (hp_Streams snapshot) i v w) as [Hmap Hnd']; [done..|] end.
  eapply mirrored_update; [done|by rewrite Hmap, Hkey|done|done].
Qed.

(** Replaying a recorded mutation follows the live effect. *)
Lemma replay_effect bound h epoch kind epoch' streams' snapshot :
  0 <= bound -> bound + 1 < 2 ^ 64 -> history_inv bound h -> effect h epoch kind epoch' streams' ->
  mirrored (h_options h) (h_epoch h) (h_streams h) snapshot ->
  exists snapshot', replayHistoryMutation snapshot (mkMutation HistoryMutationVersion epoch kind)
                    = Ok snapshot'
    /\ mirrored (h_options h) epoch' streams' snapshot'.
Proof.
  intros Hb0 Hb Hi He Hmr. pose proof (mr_epoch _ _ _ _ Hmr) as Hepoch.
  pose proof (mr_keys _ _ _ _ Hmr) as Hnd.
  assert (Hz : (if hp_Epoch snapshot =? 0 then h_epoch h else hp_Epoch snapshot) = h_epoch h).
  { rewrite Hepoch. by destruct (_ =? 0). }
  unfold replayHistoryMutation. cbn [mu_Version mu_Kind mu_Epoch]. rewrite Z.eqb_refl. cbn [negb reject_if].
  run_bind.
  destruct He as [packet now p h' Hc|observer stream sequence now s Hs Hseq|observer stream|observer|keys
    |epoch Hne]; rewrite ?bool_decide_false, ?bool_decide_true by done; rewrite ?Hz, ?Z.eqb_refl;
    cbn [negb reject_if]; run_bind.
  - destruct (replay_append _ _ _ _ _ _ _ Hb0 Hb Hi Hc Hmr) as (vs & -> & Hm). run_bind. by eexists.
  - destruct (replay_acknowledge _ _ _ _ _ now _ _ Hi Hs Hseq Hmr) as (vs & -> & Hm). run_bind. by eexists.
  - eexists. split; [done|]. destruct (removeAt_map _ (observer, stream) Hnd) as [Hmap Hnd'].
    apply (mirrored_filter _ _ (h_streams h) snapshot (fun k => k <> (observer, stream))); try done.
    + intros k. rewrite lookup_delete. repeat case_decide; naive_solver.
    + intros k. cbn [fst snd] in Hmap. rewrite Hmap, lookup_delete. repeat case_decide; naive_solver.
  - eexists. split; [done|].
    destruct (keyed_map_filter snapKey (fun k => k.1 <> observer) _ Hnd) as [Hmap Hnd'].
    replace (List.filter _ _) with (filter (fun v => (snapKey v).1 <> observer) (hp_Streams snapshot)).
    2:{ clear. induction (hp_Streams snapshot) as [|v vs IH]; [done|].
        rewrite filter_cons. cbn [List.filter]. rewrite IH.
        destruct (decide (hs_Observer v = observer)) as [E|E]; cbn.
        - rewrite decide_False by (cbn; auto). by rewrite bool_decide_true.
        - rewrite decide_True by done. by rewrite bool_decide_false. }
    apply (mirrored_filter _ _ (h_streams h) snapshot (fun k => k.1 <> observer)); try done.
    + intros k. case_decide as E; [|apply map_lookup_filter_None; naive_solver].
      apply option_eq. intros s. rewrite map_lookup_filter_Some. naive_solver.
    + intros k. rewrite Hmap. case_decide as E; [|apply map_lookup_filter_None; naive_solver].
      apply option_eq. intros s. rewrite map_lookup_filter_Some. naive_solver.
  - eexists. split; [done|]. destruct (removeAll_map _ keys Hnd) as [Hmap Hnd'].
    apply (mirrored_filter _ _ (h_streams h) snapshot (fun k => k ∉ keys)); try done.
    + intros k. apply sweep_lookup.
    + intros k. rewrite Hmap. apply sweep_lookup.
  - eexists. split; [done|]. split; cbn; [apply Hmr|done|constructor|].
    intros k. unfold keyed_map. cbn. rewrite !lookup_empty. constructor.
Qed.

(** ** Crash recovery *)

(** Options that bound a history in the same way. *)
Definition same_limits (o o' : HistoryOptions) : Prop :=
  ho_MaxPacketsPerStream o = ho_MaxPacketsPerStream o' /\ ho_MaxPayloadBytes o = ho_MaxPayloadBytes o'
  /\ ho_MaxStreams o = ho_MaxStreams o'.

Lemma mirrors_limits o o' epoch s v : same_limits o o' -> mirrors o epoch s v -> mirrors o' epoch s v.
Proof.
  intros (Hp & Hb & _) [[Ht [Hps Hs Hl] Ha Hd Hsch] ? ? ? ? Hit ?]. split; try done; [|by rewrite <-Hp].
  split; try done. split; try done. eapply Forall_impl; [exact Hps|].
  cbn. intros p []. split; try done. by rewrite <-Hb.
Qed.

(** What a crash preserves of a stream. *)
Record same_stream (s s' : streamState) : Prop := {
  ss_latest : sst_latest s' = sst_latest s;
  ss_acked : sst_acked s' = sst_acked s;
  ss_schema : sst_schema s' = sst_schema s;
  ss_items : sst_items s' = sst_items s;
  ss_released : u64! (sst_dropped s' + sst_pruned s') = u64! (sst_dropped s + sst_pruned s)
}.

Lemma imported_same o epoch now s v :
  0 < ho_MaxPacketsPerStream o -> mirrors o epoch s v -> same_stream s (imported o now v).
Proof.
  intros Ho [_ Hl Ha Hs Hg Hit [z Hz]]. split; cbn; [done|done|by rewrite <-Hg| |].
  - by rewrite Hit.
  - rewrite Hit in Hz. unfold lastn in Hz. rewrite len_drop in Hz.
    offset (hs_Dropped v + Z.max 0 (len (hs_Packets v) - ho_MaxPacketsPerStream o)).
    unfold wrapu. pose proof (len_nonneg (hs_Packets v)).
    replace (sst_dropped s + sst_pruned s)
      with (hs_Dropped v + Z.max 0 (len (hs_Packets v) - ho_MaxPacketsPerStream o) + k * 2 ^ 64
            + hs_Pruned v + (z - k) * 2 ^ 64) by lia.
    by rewrite Z.mod_add by lia.
Qed.

Lemma imported_mirrors o epoch now s v :
  0 < ho_MaxPacketsPerStream o -> mirrors o epoch s v -> mirrors o epoch (imported o now v) v.
Proof.
  intros Ho Hm. destruct (imported_same o epoch now s v Ho Hm) as [Hl Ha Hs Hi _].
  destruct Hm as [Him Hl' Ha' Hs' Hg Hit _]. split; try done; try congruence.
  cbn. offset (hs_Dropped v + Z.max 0 (len (hs_Packets v) - ho_MaxPacketsPerStream o)).
  exists k. unfold lastn. rewrite len_drop. pose proof (len_nonneg (hs_Packets v)). lia.
Qed.

Lemma mirrors_fields o epoch b k s v :
  b < 2 ^ 64 -> stream_ok o epoch b k s -> mirrors o epoch s v -> u64_fields v.
Proof.
  intros Hb Hs [[_ [Hps _ _] _ _ _] Hl Ha]. pose proof (sok_latest _ _ _ _ _ Hs).
  pose proof (sok_acked _ _ _ _ _ Hs). unfold u64_fields, in_u. split_and!; [lia..|].
  eapply Forall_impl; [exact Hps|]. cbn. intros p []. unfold in_u.
  rewrite pok_Base0. destruct (pk_Full p); lia.
Qed.

(** The journal of a history reproduces it. *)
Definition recoverable h : Prop :=
  exists js snapshot, h_journal h = Some js
    /\ foldM replayHistoryMutation (js_checkpoint js) (js_log js) = Ok snapshot
    /\ mirrored (h_options h) (h_epoch h) (h_streams h) snapshot.

Lemma Export_mirrored bound h :
  bound < 2 ^ 64 -> history_inv bound h ->
  mirrored (h_options h) (h_epoch h) (h_streams h) (Export h).
Proof.
  intros Hb Hi. split; [done|done|rewrite Export_keys; apply NoDup_fst_map_to_list|].
  intros k. rewrite Export_lookup. destruct (h_streams h !! k) as [s|] eqn:Hs; cbn; constructor.
  pose proof (hi_streams _ _ Hi _ _ Hs) as Hok.
  split; [by eapply export_importable| | | | | |]; destruct k; cbn; try done; rewrite Packet_Clone_list.
  - by eapply sok_governing.
  - symmetry. apply lastn_id. by eapply sok_retained.
  - exists 0. lia.
Qed.

Lemma outcome_recoverable bound h h' :
  0 <= bound -> bound + 1 < 2 ^ 64 -> history_inv bound h -> recoverable h -> outcome h h' ->
  recoverable h'.
Proof.
  intros Hb0 Hb Hi (js & snapshot & Hj & Hload & Hm) [|js' Hj'|h1 epoch kind epoch' streams' Hr He].
  - by exists js, snapshot.
  - exists (mkJournal (exportLocked h) []), (Export h). split_and!; [done..|].
    apply (Export_mirrored bound h); [lia|done].
  - destruct (replay_effect _ _ _ _ _ _ _ Hb0 Hb Hi He Hm) as (snapshot' & Hrep & Hm').
    eexists _, snapshot'. cbn [h_journal]. rewrite (rec_journal _ _ _ _ Hr), Hj.
    split; [done|]. cbn [js_checkpoint js_log]. split; [|done].
    rewrite foldM_app, Hload. cbn [mbind result_bind foldM]. by rewrite Hrep.
Qed.

Lemma mirrored_size o epoch m snapshot :
  mirrored o epoch m snapshot -> len (hp_Streams snapshot) = Z.of_nat (size m).
Proof.
  intros [_ _ Hnd Hs]. destruct (map_values_related _ _ _ Hs) as (l & Hp & HF).
  apply Forall2_length in HF. apply (f_equal length) in Hp || apply Permutation_length in Hp.
  rewrite length_fmap, length_map_to_list in Hp. rewrite keyed_map_values in HF by done.
  unfold len. lia.
Qed.

(** Restarting from the journal. *)
Lemma restart_ok options bound h js entropy nano now :
  bound < 2 ^ 64 -> history_inv bound h -> recoverable h ->
  same_limits (h_options h) (h_options (NewHistory options entropy nano)) ->
  h_journal h = Some js -> load_answer js = Ok tt ->
  exists h', NewHistoryWithJournal options (Some js) entropy nano now = Ok h'
    /\ history_inv bound h' /\ recoverable h'
    /\ h_options h' = h_options (NewHistory options entropy nano)
    /\ h_epoch h' = h_epoch h /\ h_journal h' = Some js
    /\ forall k, option_Forall2 same_stream (h_streams h !! k) (h_streams h' !! k).
Proof.
  intros Hb Hi (js' & snapshot & Hj & Hload & Hm) Hlim Hj' Hans. rewrite Hj in Hj'. injection Hj' as ->.
  set (h0 := NewHistory options entropy nano) in *.
  pose proof (hi_options _ _ (NewHistory_inv options entropy nano)) as Ho0. fold h0 in Ho0.
  assert (Hmirror : forall v, v ∈ hp_Streams snapshot -> exists s,
    h_streams h !! snapKey v = Some s /\ mirrors (h_options h0) (h_epoch h) s v /\ u64_fields v).
  { intros v Hv. pose proof (mr_streams _ _ _ _ Hm (snapKey v)) as Hk.
    rewrite (proj2 (keyed_map_lookup snapKey _ (snapKey v) v (mr_keys _ _ _ _ Hm))) in Hk by done.
    inversion Hk as [s v' Hmi Hs|]; subst. exists s. split_and!; [done|by eapply mirrors_limits|].
    eapply mirrors_fields; [exact Hb|by apply (hi_streams _ _ Hi)|done]. }
  assert (Hu : Forall u64_fields (hp_Streams snapshot)).
  { apply Forall_forall. intros v Hv. by destruct (Hmirror v Hv) as (_ & _ & _ & ?). }
  pose proof (mr_epoch _ _ _ _ Hm) as Hepoch.
  assert (Hok : snapshot_ok (h_options h0) snapshot).
  { split; [apply Hm|rewrite Hepoch; apply Hi| | |apply Hm].
    - destruct Hlim as (_ & _ & Hlim). rewrite (mirrored_size _ _ _ _ Hm), <-Hlim. apply Hi.
    - apply Forall_forall. intros v Hv. rewrite Hepoch.
      destruct (Hmirror v Hv) as (s & _ & Hmi & _). apply Hmi. }
  set (m := imported (h_options h0) now <$> keyed_map snapKey (hp_Streams snapshot)).
  assert (Himp : Import h0 snapshot now = Ok (mkHist (h_options h0) (h_epoch h) (h_journal h0) m)).
  { apply Import_iff; [apply Ho0|done|]. by rewrite Hepoch. }
  assert (Hrel : forall k, option_Forall2 same_stream (h_streams h !! k) (m !! k)
    /\ option_Forall2 (mirrors (h_options h0) (h_epoch h)) (m !! k) (keyed_map snapKey (hp_Streams snapshot) !! k)).
  { intros k. unfold m. rewrite lookup_fmap. pose proof (mr_streams _ _ _ _ Hm k) as Hk.
    inversion Hk as [s v Hmi|]; cbn; [|by repeat constructor].
    apply (mirrors_limits _ _ _ _ _ Hlim) in Hmi.
    split; constructor; [eapply imported_same|eapply imported_mirrors]; try done; apply Ho0. }
  exists (mkHist (h_options h0) (h_epoch h) (Some js) m). split_and!; try done.
  - unfold NewHistoryWithJournal, Journal_Load. fold h0. rewrite Hans. run_bind. rewrite Hload. run_bind.
    by rewrite Himp.
  - pose proof (Import_inv _ _ _ _ Ho0 Hu Himp) as [Ho He Hs Hl]. cbn in *. split; try done; cbn.
    intros k s' Hk. pose proof (Hs k s' Hk) as Hok'. destruct (Hrel k) as [Hsame _].
    rewrite Hk in Hsame. inversion Hsame as [s ? Hss Hsk|]; subst.
    pose proof (sok_latest _ _ _ _ _ (hi_streams _ _ Hi _ _ (eq_sym Hsk))).
    rewrite <-(ss_latest _ _ Hss) in *. destruct Hok'. by split.
  - exists js, snapshot. split_and!; [done|done|]. split; cbn; [apply Hm|done|apply Hm|].
    intros k. apply Hrel.
  - intros k. apply Hrel.
Qed.

(** The lifetimes of a journaled history: it starts on an empty journal, is
    called, and is reloaded from its journal after a crash.  The index counts
    the calls. *)
Inductive lives (options : HistoryOptions) : Z -> History -> Prop :=
| lives_start epoch entropy nano now h :
    epoch <> 0 ->
    NewHistoryWithJournal options
      (Some (mkJournal (mkHistorySnapshot HistorySnapshotVersion epoch []) [])) entropy nano now = Ok h ->
    lives options 0 h
| lives_call n h op : lives options n h -> lives options (n + 1) (step h op)
| lives_restart n h js entropy nano now h' :
    lives options n h -> h_journal h = Some js ->
    NewHistoryWithJournal options (Some js) entropy nano now = Ok h' -> lives options n h'.

Lemma outcome_options h h' : outcome h h' -> h_options h' = h_options h.
Proof. by intros []. Qed.

Lemma NewHistoryWithJournal_loads options js entropy nano now h :
  NewHistoryWithJournal options (Some js) entropy nano now = Ok h -> load_answer js = Ok tt.
Proof.
  unfold NewHistoryWithJournal, Journal_Load. by destruct (load_answer js) as [[]|].
Qed.

Lemma lives_inv options n h :
  lives options n h -> n < 2 ^ 64 ->
  0 <= n /\ history_inv n h /\ recoverable h
  /\ same_limits (h_options h) (h_options (NewHistory options None 0)).
Proof.
  induction 1 as [epoch entropy nano now h Hne Hnew|n h op _ IH|n h js entropy nano now h' _ IH Hj Hnew];
    intros Hn.
  - set (h0 := NewHistory options entropy nano) in *. unfold NewHistoryWithJournal, Journal_Load in Hnew.
    fold h0 in Hnew. destruct (load_answer _); [|done]. cbn [js_log js_checkpoint foldM mbind result_bind] in Hnew.
    pose proof (NewHistory_inv options entropy nano) as Hi0. fold h0 in Hi0.
    destruct (Import h0 _ now) as [h1|] eqn:Himp; [|done]. injection Hnew as <-.
    apply Import_iff in Himp as [_ ->]; [|apply Hi0|constructor]. cbn. split_and!; [lia| | |done].
    + split; cbn; [apply Hi0|done|unfold keyed_map; cbn; rewrite fmap_empty; apply map_Forall_empty|].
      unfold keyed_map. cbn. rewrite fmap_empty, map_size_empty. lia.
    + eexists _, _. split_and!; [done|done|]. split; cbn; [done|done|constructor|].
      intros k. unfold keyed_map. cbn. rewrite fmap_empty, !lookup_empty. constructor.
  - destruct IH as (Hn0 & Hi & Hr & Hl); [lia|]. pose proof (step_outcome h op) as Ho.
    split_and!; [lia|by eapply outcome_inv|by eapply outcome_recoverable|].
    by rewrite (outcome_options _ _ Ho).
  - destruct IH as (Hn0 & Hi & Hr & Hl); [lia|].
    assert (Hl' : same_limits (h_options h) (h_options (NewHistory options entropy nano))) by done.
    destruct (restart_ok options n h js entropy nano now) as (h2 & Hnew' & Hi' & Hr' & Ho' & _);
      [done..|by eapply NewHistoryWithJournal_loads|].
    rewrite Hnew in Hnew'. injection Hnew' as <-. split_and!; [done..|]. by rewrite Ho'.
Qed.


End Operations.

(** ** Examples *)

(** A journal whose calls always succeed. *)
#[local] Instance sure_journal : Journal :=
  {| record_answer := fun _ _ => Ok tt; checkpoint_answer := fun _ _ => Ok tt;
     load_answer := fun _ => Ok tt |}.

Definition sample_options : HistoryOptions := mkOptions 2 3 16 4 7 100 true.
Definition sample_observer : Observer := mkObserver 1 5 1 "room".
Definition sample_stream : Stream := mkStream "state" 9.

Definition sample_packet (full : bool) (payload : list byte) : Packet :=
  mkPacket sample_observer sample_stream 0 0 0 0 full false payload.

Definition sample_journal : JournalState :=
  mkJournal (mkHistorySnapshot HistorySnapshotVersion 7 []) [].

Definition sample_start : History :=
  match NewHistoryWithJournal sample_options (Some sample_journal) None 0 (fun _ => 1) with
  | Ok h => h
  | Err _ => NewHistory sample_options None 0
  end.

(** Three packets are appended and the second one is acknowledged. *)
Definition sample_ops : list Op :=
  [ OpAppend (sample_packet true [Byte.x01]) 10; OpAppend (sample_packet false [Byte.x02]) 11;
    OpAppend (sample_packet false [Byte.x03]) 12;
    OpAcknowledge sample_observer sample_stream 7 2 13 ].

Definition sample_history : History := run sample_start sample_ops.

Lemma sample_start_lives : lives sample_options 0 sample_start.
Proof.
  apply (lives_start sample_options 7 None 0 (fun _ => 1)); [done|]. vm_compute. reflexivity.
Qed.

Lemma sample_lives : lives sample_options 4 sample_history.
Proof.
  unfold sample_history, sample_ops, run. cbn [foldl].
  apply (lives_call _ 3), (lives_call _ 2), (lives_call _ 1), (lives_call _ 0), sample_start_lives.
Qed.

Lemma sample_history_inv : history_inv 4 sample_history.
Proof. by destruct (lives_inv _ _ _ sample_lives) as (_ & ? & _). Qed.


(** A consumer at sequence 2 is served; one at sequence 1 has lost packet 2. *)
Lemma Resync_exact_witness :
  rr_FullRequired (Resync sample_history (mkRequest sample_observer sample_stream 7 2 3)) = false
  /\ exists s, h_streams sample_history !! (sample_observer, sample_stream) = Some s
     /\ replayable sample_history (mkRequest sample_observer sample_stream 7 2 3) s.
Proof.
  assert (E : rr_FullRequired (Resync sample_history (mkRequest sample_observer sample_stream 7 2 3)) = false)
    by (vm_compute; reflexivity).
  split; [exact E|].
  exact (proj1 (Resync_exact 4 sample_history (mkRequest sample_observer sample_stream 7 2 3)
                  sample_history_inv) E).
Defined.

Lemma Recover_converges_witness :
  let '(h', r, e) := Recover sample_history (mkRequest sample_observer sample_stream 7 1 3)
    (Some (fun _ => Ok (sample_packet true [Byte.x04]))) 14 in
  e = Ok tt /\ rr_Packets r <> [] /\ rr_FullRequired r = false.
Proof.
  destruct (Recover sample_history (mkRequest sample_observer sample_stream 7 1 3)
    (Some (fun _ => Ok (sample_packet true [Byte.x04]))) 14) as [[h' r] e] eqn:E.
  assert (He : (h', r, e).2 = Ok tt) by (rewrite <-E; vm_compute; reflexivity).
  assert (Hp : rr_Packets (h', r, e).1.2 <> []) by (rewrite <-E; vm_compute; discriminate).
  cbn [fst snd] in He, Hp.
  split; [exact He|]. split; [exact Hp|].
  rewrite He in E.
  exact (proj1 (Recover_converges (fun d : list byte => fun p => d ++ p) id 4 _ _ _ _ _ _
                  ltac:(lia) ltac:(lia) sample_history_inv E)).
Defined.

Lemma Import_Export_witness :
  exists h', Import (NewHistory sample_options None 0) (Export sample_history) (fun _ => 1) = Ok h'
    /\ h_epoch h' = 7.
Proof.
  destruct (Import_Export 4 sample_history (NewHistory sample_options None 0) (fun _ => 1))
    as (h' & Hi & He & _); [lia|exact sample_history_inv|vm_compute; reflexivity|].
  exists h'. split; [exact Hi|]. rewrite He. vm_compute. reflexivity.
Defined.


(** [Import] (and [Restore]) replace the streams of a journaled history
    without a record or a checkpoint: the next append continues the imported
    sequence, which the committed log does not, and the journal can no longer
    be loaded. *)
Theorem Import_breaks_journal :
  exists h, Import sample_start (Export sample_history) (fun _ => 1) = Ok h
    /\ is_ok (Append h (sample_packet false [Byte.x05]) 15).2 = true
    /\ Journal_Load <$> h_journal (Append h (sample_packet false [Byte.x05]) 15).1
       = Some (Err ErrInvalidSnapshot).
Proof.
  assert (Hc : match Import sample_start (Export sample_history) (fun _ => 1) with
    | Ok h => is_ok (Append h (sample_packet false [Byte.x05]) 15).2 = true
      /\ Journal_Load <$> h_journal (Append h (sample_packet false [Byte.x05]) 15).1
         = Some (Err ErrInvalidSnapshot)
    | Err _ => False
    end) by (vm_compute; split; reflexivity).
  destruct (Import _ _ _) as [h|]; [|done]. by exists h.
Qed.
