(* ===== verification/FileJournal.v ===== *)
(** * The file journal

    [src/syncstream/file_journal.go]: checkpoint and WAL generations on disk.
    The directory is a map from generation numbers to file contents; the JSON
    codec of the standard library is a class with the laws the code relies on;
    every I/O call may fail or be the last one before a crash, so each
    operation takes the point at which it stops. *)

From stdpp Require Import base list gmap strings sorting.
From Stdlib Require Import ZArith Lia.
From Stdlib Require Strings.Byte.
From S2P Require Import Prelude ReplTypes SyncStream.

Local Open Scope Z_scope.

Record fileCheckpoint := mkFileCheckpoint {
  fc_Generation : Z;
  fc_Snapshot : HistorySnapshot
}.

(** ['\n'] *)
Definition newline : byte := Byte.x0a.

(** [json.Marshal] and [json.Unmarshal] at the two types the journal stores.
    [encodable] are the values whose strings are valid UTF-8, which JSON
    preserves; compact JSON contains no line break. *)
Class Json := {
  marshalMutation : HistoryMutation -> list byte;
  unmarshalMutation : list byte -> option HistoryMutation;
  marshalCheckpoint : fileCheckpoint -> list byte;
  unmarshalCheckpoint : list byte -> option fileCheckpoint;
  encodableMutation : HistoryMutation -> Prop;
  encodableSnapshot : HistorySnapshot -> Prop
}.

Class JsonLaws `{!Json} : Prop := {
  mutation_roundtrip : forall m,
    encodableMutation m -> unmarshalMutation (marshalMutation m ++ [newline]) = Some m;
  mutation_one_line : forall m, newline ∉ marshalMutation m;
  checkpoint_roundtrip : forall c,
    encodableSnapshot (fc_Snapshot c) -> unmarshalCheckpoint (marshalCheckpoint c) = Some c
}.

(** The directory: [history.checkpoint-<generation>.json] and
    [history.wal-<generation>.jsonl]. *)
Record Directory := mkDirectory {
  dir_checkpoints : gmap Z (list byte);
  dir_wals : gmap Z (list byte)
}.

Record FileHistoryJournal := mkFileJournal {
  fj_directory : Directory;
  fj_initialEpoch : Z;
  fj_generation : Z
}.

(** Errors of the operating system and of the decoder. *)
Definition ErrIO : serror := ErrCollaborator 1.
Definition ErrDecode : serror := ErrCollaborator 2.

(** [directory] is [None] for the empty path; [MkdirAll] succeeds. *)
Definition NewFileHistoryJournal (directory : option Directory) (initialEpoch : Z)
    (entropy : option Z) (nano : Z) : sres FileHistoryJournal :=
  match directory with
  | None => Err ErrHistoryJournalRequired
  | Some d => Ok (mkFileJournal d (if initialEpoch =? 0 then newEpoch entropy nano else initialEpoch) 1)
  end.

(** The generations with a checkpoint, newest first. *)
Definition checkpointGenerations (d : Directory) : list Z :=
  sort_slice (fun a b => b <? a)
    (List.filter (fun generation => 0 <? generation) (map_to_list (dir_checkpoints d)).*1).

(** [reader.ReadBytes('\n')] until the end of the file: the terminated lines;
    the unterminated tail is not one of them. *)
Fixpoint readLines (line data : list byte) : list (list byte) :=
  match data with
  | [] => []
  | b :: rest =>
      if bool_decide (b = newline) then (line ++ [b]) :: readLines [] rest
      else readLines (line ++ [b]) rest
  end.

Section Files.
Context `{!Json}.

Definition replayLine (snapshot : HistorySnapshot) (line : list byte) : sres HistorySnapshot :=
  match unmarshalMutation line with
  | None => Err ErrDecode
  | Some mutation => replayHistoryMutation snapshot mutation
  end.

Definition replayWAL (wal : option (list byte)) (snapshot : HistorySnapshot) : sres HistorySnapshot :=
  match wal with
  | None => Err ErrIO
  | Some data => foldM replayLine snapshot (readLines [] data)
  end.

Definition loadGeneration (d : Directory) (generation : Z) : sres HistorySnapshot :=
  match dir_checkpoints d !! generation with
  | None => Err ErrIO
  | Some data =>
      match unmarshalCheckpoint data with
      | None => Err ErrDecode
      | Some checkpoint =>
          _ ← reject_if (negb (fc_Generation checkpoint =? generation)) ErrInvalidSnapshot;
          replayWAL (dir_wals d !! generation) (fc_Snapshot checkpoint)
      end
  end.

Definition FileHistoryJournal_Load (journal : FileHistoryJournal) : FileHistoryJournal * sres HistorySnapshot :=
  let d := fj_directory journal in
  let at_generation g := mkFileJournal d (fj_initialEpoch journal) g in
  match checkpointGenerations d with
  | [] =>
      match dir_wals d !! 1 with
      | None => (at_generation 1,
                 Ok (mkHistorySnapshot HistorySnapshotVersion (fj_initialEpoch journal) []))
      | Some data =>
          let epoch := if 0 <? len data then 0 else fj_initialEpoch journal in
          (at_generation 1,
           replayWAL (Some data) (mkHistorySnapshot HistorySnapshotVersion epoch []))
      end
  | generation :: _ =>
      match loadGeneration d generation with
      | Err e => (journal, Err e)
      | Ok snapshot => (at_generation generation, Ok snapshot)
      end
  end.

(** How far [Record] gets: the file cannot be opened; only some bytes are
    written; all are written but [Sync] or [Close] fails; it succeeds. *)
Inductive recordIO := RecOpenFails | RecWriteFails (written : nat) | RecSyncFails | RecDone.

Definition FileHistoryJournal_Record (journal : FileHistoryJournal) (mutation : HistoryMutation) (io : recordIO)
    : FileHistoryJournal * sres unit :=
  if negb (mu_Version mutation =? HistoryMutationVersion) then (journal, Err ErrInvalidSnapshot) else
  let data := marshalMutation mutation ++ [newline] in
  let d := fj_directory journal in
  let wal := default [] (dir_wals d !! fj_generation journal) in
  let append written := mkFileJournal
    (mkDirectory (dir_checkpoints d) (<[fj_generation journal := wal ++ written]> (dir_wals d)))
    (fj_initialEpoch journal) (fj_generation journal) in
  match io with
  | RecOpenFails => (journal, Err ErrIO)
  | RecWriteFails n => (append (take n data), Err ErrIO)
  | RecSyncFails => (append data, Err ErrIO)
  | RecDone => (append data, Ok tt)
  end.

(** How far [Checkpoint] gets: an orphan WAL cannot be removed; the new WAL
    cannot be created (an orphan is gone); it exists but cannot be flushed, or
    the temporary file cannot be written or renamed; the checkpoint is
    published, and the obsolete files are removed or not. *)
Inductive checkpointIO :=
| CkRemoveFails | CkCreateFails | CkPublishFails | CkDone (oldCheckpoint oldWal : bool).

Definition removeObsoleteGenerations (d : Directory) (current : Z) (oldCheckpoint oldWal : bool)
    : Directory :=
  if current <=? 2 then d else
  let obsolete := u64! (current - 2) in
  mkDirectory (if oldCheckpoint then delete obsolete (dir_checkpoints d) else dir_checkpoints d)
    (if oldWal then delete obsolete (dir_wals d) else dir_wals d).

Definition FileHistoryJournal_Checkpoint (journal : FileHistoryJournal) (snapshot : HistorySnapshot) (io : checkpointIO)
    : FileHistoryJournal * sres unit :=
  let d := fj_directory journal in
  let next := u64! (fj_generation journal + 1) in
  let on d := mkFileJournal d (fj_initialEpoch journal) (fj_generation journal) in
  let created := mkDirectory (dir_checkpoints d) (<[next := []]> (dir_wals d)) in
  match io with
  | CkRemoveFails => (journal, Err ErrIO)
  | CkCreateFails => (on (mkDirectory (dir_checkpoints d) (delete next (dir_wals d))), Err ErrIO)
  | CkPublishFails => (on created, Err ErrIO)
  | CkDone oldCheckpoint oldWal =>
      let published := mkDirectory
        (<[next := marshalCheckpoint (mkFileCheckpoint next snapshot)]> (dir_checkpoints d))
        (dir_wals created) in
      (mkFileJournal (removeObsoleteGenerations published next oldCheckpoint oldWal)
         (fj_initialEpoch journal) next, Ok tt)
  end.
End Files.

(** ** Lines *)

Section FileLemmas.
Context `{!Json, !JsonLaws}.
Implicit Types (journal : FileHistoryJournal) (js : JournalState).

(** The bytes of a log. *)
Definition walBytes (log : list HistoryMutation) : list byte :=
  concat ((fun m => marshalMutation m ++ [newline]) <$> log).

Lemma readLines_tail line tail : newline ∉ tail -> readLines line tail = [].
Proof.
  revert line. induction tail as [|b tail IH]; intros line Hn; cbn; [done|].
  apply not_elem_of_cons in Hn as [Hb Hn]. rewrite bool_decide_false by done. by apply IH.
Qed.

Lemma readLines_line line body rest :
  newline ∉ body ->
  readLines line (body ++ newline :: rest) = (line ++ body ++ [newline]) :: readLines [] rest.
Proof.
  revert line. induction body as [|b body IH]; intros line Hn; cbn.
  - by rewrite bool_decide_true.
  - apply not_elem_of_cons in Hn as [Hb Hn]. rewrite bool_decide_false, IH by done.
    by rewrite <-app_assoc.
Qed.

Lemma readLines_app_wal log rest :
  readLines [] (walBytes log ++ rest)
  = ((fun m => marshalMutation m ++ [newline]) <$> log) ++ readLines [] rest.
Proof.
  induction log as [|m log IH]; [done|].
  change (walBytes (m :: log)) with ((marshalMutation m ++ [newline]) ++ walBytes log).
  rewrite <-!app_assoc. cbn [app]. rewrite readLines_line by apply mutation_one_line. csimpl.
  by rewrite IH.
Qed.

Lemma readLines_wal log tail :
  newline ∉ tail ->
  readLines [] (walBytes log ++ tail) = (fun m => marshalMutation m ++ [newline]) <$> log.
Proof. intros Ht. by rewrite readLines_app_wal, readLines_tail, app_nil_r. Qed.

Lemma replayLine_ok snapshot m :
  encodableMutation m ->
  replayLine snapshot (marshalMutation m ++ [newline]) = replayHistoryMutation snapshot m.
Proof. intros. unfold replayLine. by rewrite mutation_roundtrip. Qed.

Lemma replayLines snapshot log :
  Forall encodableMutation log ->
  foldM replayLine snapshot ((fun m => marshalMutation m ++ [newline]) <$> log)
  = foldM replayHistoryMutation snapshot log.
Proof.
  intros Hlog. revert snapshot. induction Hlog as [|m log Hm _ IH]; intros snapshot; [done|].
  rewrite fmap_cons. cbn [foldM]. rewrite replayLine_ok by done.
  destruct (replayHistoryMutation snapshot m); cbn; [apply IH|done].
Qed.

Lemma replayWAL_log snapshot log tail :
  Forall encodableMutation log -> newline ∉ tail ->
  replayWAL (Some (walBytes log ++ tail)) snapshot = foldM replayHistoryMutation snapshot log.
Proof. intros. unfold replayWAL. rewrite readLines_wal by done. by apply replayLines. Qed.

Lemma walBytes_snoc log m : walBytes (log ++ [m]) = walBytes log ++ marshalMutation m ++ [newline].
Proof. unfold walBytes. rewrite fmap_app, concat_app. cbn. by rewrite app_nil_r. Qed.

Lemma walBytes_nonempty log : log <> [] -> 0 < len (walBytes log).
Proof.
  destruct log as [|m log]; [done|]. intros _. unfold walBytes. csimpl.
  rewrite !len_app. pose proof (len_nonneg (marshalMutation m)).
  pose proof (len_nonneg (concat ((fun m => marshalMutation m ++ [newline]) <$> log))).
  change (len [newline]) with 1. lia.
Qed.

(** ** What the directory holds *)

(** Before the first checkpoint the epoch is the one of the first record. *)
Definition founded (initialEpoch : Z) js : Prop :=
  exists epoch, epoch <> 0 /\ js_checkpoint js = mkHistorySnapshot HistorySnapshotVersion epoch []
  /\ match js_log js with
     | [] => epoch = initialEpoch
     | m :: _ => mu_Kind m = MutRotateEpoch \/ mu_Epoch m = epoch
     end.

Record holds (journal : FileHistoryJournal) (tail : list byte) js : Prop := {
  ho_generation : 0 < fj_generation journal;
  ho_newest : forall g, is_Some (dir_checkpoints (fj_directory journal) !! g) ->
              0 < g <= fj_generation journal;
  ho_log : Forall encodableMutation (js_log js);
  ho_tail : newline ∉ tail;
  ho_files :
    (fj_generation journal = 1 /\ dir_checkpoints (fj_directory journal) = ∅
     /\ founded (fj_initialEpoch journal) js
     /\ default [] (dir_wals (fj_directory journal) !! 1) = walBytes (js_log js) ++ tail)
    \/ (dir_checkpoints (fj_directory journal) !! fj_generation journal
          = Some (marshalCheckpoint (mkFileCheckpoint (fj_generation journal) (js_checkpoint js)))
        /\ encodableSnapshot (js_checkpoint js)
        /\ dir_wals (fj_directory journal) !! fj_generation journal
           = Some (walBytes (js_log js) ++ tail))
}.

(** A restarted process: the same directory, no generation yet. *)
Definition reopened journal : FileHistoryJournal :=
  mkFileJournal (fj_directory journal) (fj_initialEpoch journal) 1.

Lemma checkpointGenerations_empty d : dir_checkpoints d = ∅ -> checkpointGenerations d = [].
Proof. intros E. unfold checkpointGenerations. by rewrite E, map_to_list_empty. Qed.

#[local] Instance greater_strict_weak : StrictWeak (fun a b : Z => b <? a).
Proof. split; intros; rewrite ?Z.ltb_lt, ?Z.ltb_ge in *; try apply Z.ltb_irrefl; lia. Qed.

Lemma checkpointGenerations_newest d generation :
  is_Some (dir_checkpoints d !! generation) ->
  (forall g, is_Some (dir_checkpoints d !! g) -> 0 < g <= generation) ->
  exists rest, checkpointGenerations d = generation :: rest.
Proof.
  intros Hg Hmax. unfold checkpointGenerations.
  set (l := List.filter _ _).
  assert (Hl : forall g, g ∈ l <-> is_Some (dir_checkpoints d !! g)).
  { intros g. unfold l. rewrite list_elem_of_In, filter_In, <-list_elem_of_In, list_elem_of_fmap.
    rewrite Z.ltb_lt. split.
    - intros [([g' data] & -> & Hin%elem_of_map_to_list) _]. by eexists.
    - intros [data Hd]. split; [|by apply Hmax; eexists].
      exists (g, data). split; [done|]. by apply elem_of_map_to_list. }
  pose proof (sort_slice_sorted (fun a b : Z => b <? a) l) as Hs.
  pose proof (sort_slice_perm (fun a b : Z => b <? a) l) as Hp.
  destruct (sort_slice (fun a b : Z => b <? a) l) as [|g rest].
  - apply Hl in Hg. rewrite <-Hp in Hg. by apply not_elem_of_nil in Hg.
  - exists rest. f_equal. apply Hl in Hg. rewrite <-Hp in Hg.
    apply elem_of_cons in Hg as [->|Hin]; [done|].
    apply StronglySorted_inv in Hs as [_ Hall]. rewrite Forall_forall in Hall.
    specialize (Hall _ Hin). apply Z.ltb_ge in Hall.
    assert (Hgin : g ∈ l) by (rewrite <-Hp; left). apply Hl, Hmax in Hgin. lia.
Qed.

(** The first record supplies the epoch that the empty snapshot lacks. *)
Lemma replay_founding epoch m log :
  epoch <> 0 -> mu_Kind m = MutRotateEpoch \/ mu_Epoch m = epoch ->
  foldM replayHistoryMutation (mkHistorySnapshot HistorySnapshotVersion 0 []) (m :: log)
  = foldM replayHistoryMutation (mkHistorySnapshot HistorySnapshotVersion epoch []) (m :: log).
Proof.
  intros He Hm. cbn [foldM]. f_equal. unfold replayHistoryMutation. cbn [hp_Epoch hp_Version hp_Streams].
  destruct (negb (mu_Version m =? HistoryMutationVersion)); cbn [reject_if]; run_bind; [reflexivity|].
  destruct (decide (mu_Kind m = MutRotateEpoch)) as [E|E].
  - by rewrite !bool_decide_true.
  - rewrite !bool_decide_false by done. destruct Hm as [|Hm]; [done|]. rewrite Hm.
    rewrite (proj2 (Z.eqb_neq epoch 0) He). reflexivity.
Qed.

(** Reopening the directory yields the checkpoint and the complete records; an
    unterminated tail is ignored. *)
Lemma Load_holds journal tail js :
  holds journal tail js ->
  tail = [] \/ js_log js <> [] \/ dir_checkpoints (fj_directory journal) <> ∅ ->
  (FileHistoryJournal_Load (reopened journal)).2
    = foldM replayHistoryMutation (js_checkpoint js) (js_log js)
  /\ (is_ok (FileHistoryJournal_Load (reopened journal)).2 = true ->
      (FileHistoryJournal_Load (reopened journal)).1 = journal).
Proof.
  intros [Hg Hn Hl Ht Hf] Hside. unfold FileHistoryJournal_Load. cbn [reopened fj_directory fj_initialEpoch].
  destruct Hf as [(Hg1 & Hempty & (epoch & He & Hbase & Hfound) & Hwal)|(Hck & Henc & Hwal)].
  - rewrite checkpointGenerations_empty by done. rewrite Hbase.
    assert (Hj : mkFileJournal (fj_directory journal) (fj_initialEpoch journal) 1 = journal).
    { destruct journal; cbn in *. by subst. }
    destruct (dir_wals (fj_directory journal) !! 1) as [data|]; cbn [from_option id] in Hwal.
    + cbn [fst snd]. split; [|done]. subst data. destruct (js_log js) as [|m log] eqn:Hlog.
      * destruct Hside as [->|[?|?]]; [|done..]. cbn. by rewrite Hfound.
      * pose proof (walBytes_nonempty (m :: log) ltac:(done)). pose proof (len_nonneg tail).
        rewrite len_app. destruct (Z.ltb_spec 0 (len (walBytes (m :: log)) + len tail)); [|lia].
        rewrite replayWAL_log by done. by apply replay_founding.
    + cbn [fst snd]. split; [|done]. destruct (js_log js) as [|m log] eqn:Hlog; [cbn; by rewrite Hfound|].
      apply (f_equal len) in Hwal. rewrite len_app in Hwal.
      pose proof (walBytes_nonempty (m :: log) ltac:(done)). pose proof (len_nonneg tail).
      change (len []) with 0 in Hwal. lia.
  - destruct (checkpointGenerations_newest (fj_directory journal) (fj_generation journal))
      as [rest ->]; [by eexists|done|].
    unfold loadGeneration. rewrite Hck, checkpoint_roundtrip by done. cbn [fc_Generation fc_Snapshot].
    rewrite Z.eqb_refl. cbn [negb reject_if]. run_bind. rewrite Hwal, replayWAL_log by done.
    destruct (foldM _ _ _); cbn [fst snd is_ok]; (split; [done|]); [|done]. intros _. by destruct journal.
Qed.

(** ** The operations on disk *)

Definition logged js m : JournalState := mkJournal (js_checkpoint js) (js_log js ++ [m]).

(** A mutation the journal's owner may record: it replays after the log. *)
Definition replays js m : Prop :=
  is_ok (foldM replayHistoryMutation (js_checkpoint js) (js_log js ++ [m])) = true.

Lemma replays_version js m : replays js m -> mu_Version m = HistoryMutationVersion.
Proof.
  unfold replays. rewrite foldM_app. destruct (foldM _ _ (js_log js)) as [s|]; cbn; [|done].
  unfold replayHistoryMutation. destruct (Z.eqb_spec (mu_Version m) HistoryMutationVersion); done.
Qed.

(** What an append of [written] bytes leaves on disk. *)
Lemma holds_append journal tail tail' js js' written :
  holds journal tail js ->
  js_checkpoint js' = js_checkpoint js -> Forall encodableMutation (js_log js') ->
  newline ∉ tail' -> founded (fj_initialEpoch journal) js' \/ dir_checkpoints (fj_directory journal) <> ∅ ->
  walBytes (js_log js) ++ tail ++ written = walBytes (js_log js') ++ tail' ->
  holds (mkFileJournal
    (mkDirectory (dir_checkpoints (fj_directory journal))
       (<[fj_generation journal :=
            default [] (dir_wals (fj_directory journal) !! fj_generation journal) ++ written]>
          (dir_wals (fj_directory journal))))
    (fj_initialEpoch journal) (fj_generation journal)) tail' js'.
Proof.
  intros [Hg Hn Hl Ht Hf] Hb Hl' Ht' Hfound Hbytes. split; cbn; try done.
  destruct Hf as [(Hg1 & Hempty & _ & Hwal)|(Hck & Henc & Hwal)].
  - left. destruct Hfound as [Hfound|]; [|done]. rewrite Hg1 in *. split_and!; try done.
    rewrite lookup_insert_eq. cbn. by rewrite Hwal, <-app_assoc, Hbytes.
  - right. rewrite Hb. split_and!; try done. rewrite lookup_insert_eq, Hwal. cbn.
    by rewrite <-app_assoc, Hbytes.
Qed.

Lemma founded_logged initialEpoch js m :
  founded initialEpoch js -> replays js m -> founded initialEpoch (logged js m).
Proof.
  intros (epoch & He & Hb & Hf) Hr. exists epoch. split_and!; [done..|]. unfold logged. cbn.
  destruct (js_log js) as [|m0 log] eqn:Hlog; cbn; [|done].
  unfold replays in Hr. rewrite Hb, Hlog in Hr. cbn [app foldM] in Hr.
  destruct (replayHistoryMutation _ m) as [s'|] eqn:Hm; [|done]. clear Hr.
  unfold replayHistoryMutation in Hm. apply reject_bind in Hm as [_ Hm]. cbn [hp_Epoch] in Hm.
  destruct (decide (mu_Kind m = MutRotateEpoch)) as [E|E]; [by left|right].
  rewrite bool_decide_false, (proj2 (Z.eqb_neq epoch 0) He) in Hm by done.
  apply reject_bind in Hm as [Hm _]. by bool_to_prop.
Qed.

Lemma holds_founded journal tail js :
  holds journal tail js ->
  founded (fj_initialEpoch journal) js \/ dir_checkpoints (fj_directory journal) <> ∅.
Proof.
  intros [_ _ _ _ [(_ & _ & ? & _)|(Hck & _)]]; [by left|right]. intros E.
  by rewrite E, lookup_empty in Hck.
Qed.

(** [Record], on every outcome: a reported success has appended the record;
    otherwise the directory holds the log with some torn bytes after it, or the
    record is complete. *)
Lemma Record_holds journal js m io :
  holds journal [] js -> encodableMutation m -> replays js m ->
  let '(journal', r) := FileHistoryJournal_Record journal m io in
  dir_checkpoints (fj_directory journal') = dir_checkpoints (fj_directory journal)
  /\ fj_initialEpoch journal' = fj_initialEpoch journal
  /\ (r = Ok tt /\ io = RecDone /\ holds journal' [] (logged js m)
      \/ is_ok r = false
         /\ (holds journal' [] (logged js m)
             \/ exists n, (n <= length (marshalMutation m))%nat
                /\ holds journal' (take n (marshalMutation m)) js
                /\ (io = RecOpenFails -> n = 0%nat) /\ (forall k, io = RecWriteFails k -> (n <= k)%nat))).
Proof.
  intros Hh Henc Hr. unfold FileHistoryJournal_Record. rewrite (replays_version _ _ Hr), Z.eqb_refl. cbn [negb].
  assert (Hfull : holds (mkFileJournal
    (mkDirectory (dir_checkpoints (fj_directory journal))
       (<[fj_generation journal :=
            default [] (dir_wals (fj_directory journal) !! fj_generation journal)
            ++ marshalMutation m ++ [newline]]> (dir_wals (fj_directory journal))))
    (fj_initialEpoch journal) (fj_generation journal)) [] (logged js m)).
  { eapply holds_append; [done|done| |apply not_elem_of_nil| |].
    - apply Forall_app_2; [apply Hh|by constructor].
    - destruct (holds_founded _ _ _ Hh); [left; by apply founded_logged|by right].
    - unfold logged. cbn [js_log app]. by rewrite walBytes_snoc, app_nil_r. }
  destruct io as [|n| |]; (split; [done|]); (split; [done|]).
  - right. split; [done|]. right. exists 0%nat. rewrite take_0. split_and!; [lia|done|done|done].
  - right. split; [done|]. destruct (decide (n <= length (marshalMutation m))%nat) as [Hn|Hn].
    + right. exists n. split_and!; [done| |done|by intros k [= ->]]. rewrite take_app_le by done.
      eapply holds_append; [done|done|apply Hh| |by eapply holds_founded|done].
      intros Hin%elem_of_take. destruct Hin as (i & Hi & _).
      by apply (mutation_one_line m), (list_elem_of_lookup_2 _ i).
    + left. rewrite take_ge; [done|]. rewrite length_app. cbn. lia.
  - right. split; [done|]. by left.
  - by left.
Qed.

(** [Checkpoint], on every outcome: either the new checkpoint is published with
    an empty log, or the directory still holds what it held. *)
Lemma Checkpoint_holds journal tail js snapshot io :
  holds journal tail js -> fj_generation journal + 1 < 2 ^ 64 -> encodableSnapshot snapshot ->
  let '(journal', r) := FileHistoryJournal_Checkpoint journal snapshot io in
  fj_initialEpoch journal' = fj_initialEpoch journal
  /\ (r = Ok tt /\ holds journal' [] (mkJournal snapshot [])
      \/ is_ok r = false /\ holds journal' tail js).
Proof.
  intros [Hg Hn Hl Ht Hf] Hb Henc. unfold FileHistoryJournal_Checkpoint.
  rewrite wrapu_small by (unfold in_u; lia).
  assert (Hsame : forall wals', (forall g, g <= fj_generation journal ->
      wals' !! g = dir_wals (fj_directory journal) !! g) ->
    holds (mkFileJournal (mkDirectory (dir_checkpoints (fj_directory journal)) wals')
             (fj_initialEpoch journal) (fj_generation journal)) tail js).
  { intros wals' Hw. split; cbn; try done. rewrite !Hw by lia. done. }
  destruct io as [| | |oldC oldW]; (split; [done|]).
  - right. split; [done|]. destruct journal as [[c w] e g]. by apply (Hsame w).
  - right. split; [done|]. apply Hsame. intros g Hle. rewrite lookup_delete_ne by lia. done.
  - right. split; [done|]. apply Hsame. intros g Hle. rewrite lookup_insert_ne by lia. done.
  - left. split; [done|].
    set (next := fj_generation journal + 1).
    assert (Hkeep : forall (A : Type) (b : bool) (mp : gmap Z A), 2 < next ->
      (if b then delete (u64! (next - 2)) mp else mp) !! next = mp !! next).
    { intros A b mp Hne. destruct b; [|done]. rewrite wrapu_small by (unfold in_u; lia).
      by rewrite lookup_delete_ne by lia. }
    split; cbn [fj_generation fj_directory fj_initialEpoch js_log js_checkpoint]; [lia| |constructor|apply not_elem_of_nil|].
    + intros g Hs. unfold removeObsoleteGenerations in Hs. destruct (next <=? 2); cbn in Hs.
      * destruct (decide (g = next)) as [->|]; [lia|]. rewrite lookup_insert_ne in Hs by done.
        specialize (Hn g Hs). lia.
      * destruct oldC; [destruct (decide (g = u64! (next - 2))) as [->|]|].
        { rewrite lookup_delete_eq in Hs. by destruct Hs. }
        1: rewrite lookup_delete_ne in Hs by done.
        all: destruct (decide (g = next)) as [->|]; [lia|]; rewrite lookup_insert_ne in Hs by done;
             specialize (Hn g Hs); lia.
    + right. unfold removeObsoleteGenerations. destruct (Z.leb_spec next 2); cbn.
      all: rewrite ?Hkeep, !lookup_insert_eq by done; done.
Qed.

(** ** Runs of the journal *)

(** The directories a process can leave, with the abstract journal state they
    stand for.  A record that fails leaves no bytes behind; a checkpoint may
    stop at any point. *)
Inductive reaches (initialEpoch : Z) : FileHistoryJournal -> JournalState -> Prop :=
| reaches_start :
    reaches initialEpoch (mkFileJournal (mkDirectory ∅ ∅) initialEpoch 1)
      (mkJournal (mkHistorySnapshot HistorySnapshotVersion initialEpoch []) [])
| reaches_record journal js m :
    reaches initialEpoch journal js -> encodableMutation m -> replays js m ->
    reaches initialEpoch (FileHistoryJournal_Record journal m RecDone).1 (logged js m)
| reaches_record_fails journal js m :
    reaches initialEpoch journal js -> encodableMutation m -> replays js m ->
    reaches initialEpoch (FileHistoryJournal_Record journal m RecOpenFails).1 js
| reaches_checkpoint journal js snapshot io :
    reaches initialEpoch journal js -> encodableSnapshot snapshot -> fj_generation journal + 1 < 2 ^ 64 ->
    reaches initialEpoch (FileHistoryJournal_Checkpoint journal snapshot io).1
      (if is_ok (FileHistoryJournal_Checkpoint journal snapshot io).2
       then mkJournal snapshot [] else js)
| reaches_reload journal js :
    reaches initialEpoch journal js ->
    is_ok (FileHistoryJournal_Load (reopened journal)).2 = true ->
    reaches initialEpoch (FileHistoryJournal_Load (reopened journal)).1 js.

Lemma reaches_holds initialEpoch journal js :
  initialEpoch <> 0 -> reaches initialEpoch journal js ->
  holds journal [] js /\ fj_initialEpoch journal = initialEpoch.
Proof.
  intros He. induction 1 as [|journal js m _ [IH <-] Henc Hr|journal js m _ [IH <-] Henc Hr
    |journal js snapshot io _ [IH <-] Henc Hb|journal js _ [IH <-] Hok].
  - split; [|done]. split; cbn; [lia| |constructor|apply not_elem_of_nil|].
    + intros g. rewrite lookup_empty. by intros [].
    + left. rewrite lookup_empty. split_and!; [done..| |done]. by exists initialEpoch.
  - pose proof (Record_holds journal js m RecDone IH Henc Hr) as Hrec.
    destruct (FileHistoryJournal_Record journal m RecDone) as [j' r] eqn:E. cbn.
    destruct Hrec as (_ & ? & [(_ & _ & ?)|(Hf & _)]); [done|].
    unfold FileHistoryJournal_Record in E. rewrite (replays_version _ _ Hr), Z.eqb_refl in E.
    cbn in E. injection E as _ <-. done.
  - pose proof (replays_version _ _ Hr) as Hv. unfold FileHistoryJournal_Record. by rewrite Hv, Z.eqb_refl.
  - pose proof (Checkpoint_holds journal [] js snapshot io IH Hb Henc) as Hck.
    destruct (FileHistoryJournal_Checkpoint journal snapshot io) as [j' r]. cbn.
    destruct Hck as (He' & [(-> & Hh)|(-> & Hh)]); done.
  - destruct (Load_holds journal [] js IH) as [_ Hj]; [by left|]. by rewrite (Hj Hok).
Qed.

(** C14. The file journal implements the journal contract: after any run of
    records that are written whole or whose file cannot be opened, of
    checkpoints stopped at any point and of reloads, reopening the
    directory returns the latest published checkpoint with exactly the records
    reported as committed replayed on it.  Runs that go on after a record was
    torn or its flush failed are not covered ([FileHistoryJournal_record_after_torn_tail],
    [FileHistoryJournal_failed_flush]). *)
Theorem FileHistoryJournal_refines initialEpoch journal js :
  initialEpoch <> 0 -> reaches initialEpoch journal js ->
  (FileHistoryJournal_Load (reopened journal)).2
  = foldM replayHistoryMutation (js_checkpoint js) (js_log js).
Proof.
  intros He Hr. destruct (reaches_holds _ _ _ He Hr) as [Hh _].
  apply (Load_holds journal [] js); [done|by left].
Qed.

(** Records are atomic under crashes once the directory holds a checkpoint or
    a record: wherever [Record] stops, reopening the directory yields the
    history before the mutation or after it, and after it when [Record]
    reported success. *)
Theorem FileHistoryJournal_Record_atomic initialEpoch journal js m io :
  initialEpoch <> 0 -> reaches initialEpoch journal js -> encodableMutation m -> replays js m ->
  js_log js <> [] \/ dir_checkpoints (fj_directory journal) <> ∅ ->
  let '(journal', r) := FileHistoryJournal_Record journal m io in
  let loaded := (FileHistoryJournal_Load (reopened journal')).2 in
  let before := foldM replayHistoryMutation (js_checkpoint js) (js_log js) in
  let after := foldM replayHistoryMutation (js_checkpoint js) (js_log js ++ [m]) in
  (r = Ok tt -> loaded = after) /\ (loaded = before \/ loaded = after).
Proof.
  intros He Hreach Henc Hr Hside. destruct (reaches_holds _ _ _ He Hreach) as [Hh _].
  pose proof (Record_holds journal js m io Hh Henc Hr) as Hrec.
  destruct (FileHistoryJournal_Record journal m io) as [journal' r].
  destruct Hrec as (Hd & _ & Hrec). cbn zeta.
  assert (Hafter : holds journal' [] (logged js m) ->
    (FileHistoryJournal_Load (reopened journal')).2
    = foldM replayHistoryMutation (js_checkpoint js) (js_log js ++ [m])).
  { intros Hh'. apply (Load_holds journal' [] (logged js m)); [done|by left]. }
  destruct Hrec as [(-> & _ & Hh')|(Hf & [Hh'|(n & _ & Hh' & _)])].
  - auto.
  - auto.
  - split; [by intros ->|left]. apply (Load_holds journal' (take n (marshalMutation m)) js); [done|].
    rewrite Hd. tauto.
Qed.

(** ** Torn and repeated records *)

Lemma Import_needs_epoch h snapshot now :
  hp_Version snapshot = HistorySnapshotVersion -> hp_Epoch snapshot = 0 ->
  Import h snapshot now = Err ErrInvalidSnapshot.
Proof. intros Hv He. unfold Import. by rewrite Hv, He. Qed.

(** A crash while the very first record is written makes the directory
    unusable: the torn bytes are ignored, as they should be, but because the
    WAL is not empty the epoch is expected from a first record that does not
    exist, and the loaded snapshot is rejected for lack of an epoch. *)
Theorem FileHistoryJournal_torn_first_record initialEpoch m n h now :
  mu_Version m = HistoryMutationVersion -> (0 < n <= length (marshalMutation m))%nat ->
  let journal := mkFileJournal (mkDirectory ∅ ∅) initialEpoch 1 in
  let crashed := (FileHistoryJournal_Record journal m (RecWriteFails n)).1 in
  exists snapshot, (FileHistoryJournal_Load (reopened crashed)).2 = Ok snapshot
    /\ hp_Epoch snapshot = 0 /\ Import h snapshot now = Err ErrInvalidSnapshot.
Proof.
  intros Hv Hn. cbn zeta. unfold FileHistoryJournal_Record. rewrite Hv, Z.eqb_refl. cbn [negb].
  cbn [fj_directory fj_initialEpoch fj_generation dir_wals dir_checkpoints fst reopened].
  rewrite lookup_empty. cbn [from_option app]. rewrite take_app_le by lia.
  unfold FileHistoryJournal_Load. cbn [reopened fj_directory fj_initialEpoch].
  rewrite checkpointGenerations_empty by done. cbn [dir_wals]. rewrite lookup_insert_eq.
  assert (Hlen : len (take n (marshalMutation m)) = Z.of_nat n).
  { unfold len. rewrite length_take. lia. }
  rewrite Hlen. destruct (Z.ltb_spec 0 (Z.of_nat n)); [|lia]. cbn [snd]. unfold replayWAL.
  rewrite readLines_tail.
  - eexists. split; [reflexivity|]. split; [done|]. by apply Import_needs_epoch.
  - intros Hin%elem_of_take. destruct Hin as (i & Hi & _).
    by apply (mutation_one_line m), (list_elem_of_lookup_2 _ i).
Qed.

(** [Load] ignores a torn tail but leaves it in the file, and [Record] appends
    to it: the next record that is reported as committed is glued to the torn
    bytes, and the line no longer decodes. *)
Theorem FileHistoryJournal_record_after_torn_tail journal tail js m :
  holds journal tail js -> dir_checkpoints (fj_directory journal) <> ∅ ->
  mu_Version m = HistoryMutationVersion ->
  is_ok (foldM replayHistoryMutation (js_checkpoint js) (js_log js)) = true ->
  unmarshalMutation (tail ++ marshalMutation m ++ [newline]) = None ->
  let '(journal', r) := FileHistoryJournal_Record journal m RecDone in
  r = Ok tt /\ (FileHistoryJournal_Load (reopened journal')).2 = Err ErrDecode.
Proof.
  intros [Hg Hn Hl Ht Hf] Hpub Hv Hrep Htorn.
  destruct Hf as [(_ & ? & _)|(Hck & Henc & Hwal)]; [done|].
  unfold FileHistoryJournal_Record. rewrite Hv, Z.eqb_refl. cbn [negb]. split; [done|].
  rewrite Hwal. cbn [from_option id]. unfold FileHistoryJournal_Load.
  cbn [reopened fj_directory fj_initialEpoch].
  destruct (checkpointGenerations_newest
    (mkDirectory (dir_checkpoints (fj_directory journal))
       (<[fj_generation journal := (walBytes (js_log js) ++ tail) ++ marshalMutation m ++ [newline]]>
          (dir_wals (fj_directory journal)))) (fj_generation journal)) as [rest ->]; [by eexists|done|].
  unfold loadGeneration. cbn [dir_checkpoints dir_wals].
  rewrite Hck, checkpoint_roundtrip, lookup_insert_eq by done. cbn [fc_Generation fc_Snapshot].
  rewrite Z.eqb_refl. cbn [negb reject_if]. run_bind. unfold replayWAL.
  rewrite <-app_assoc, readLines_app_wal, foldM_app, replayLines by done.
  destruct (foldM _ _ _) as [s|]; [|done]. run_bind.
  rewrite (app_assoc tail). rewrite readLines_line.
  - cbn [foldM app]. assert (E : replayLine s ((tail ++ marshalMutation m) ++ [newline]) = Err ErrDecode).
    { unfold replayLine. by rewrite <-app_assoc, Htorn. }
    by rewrite E.
  - rewrite not_elem_of_app. split; [done|apply mutation_one_line].
Qed.

(** A record that was appended cannot be appended again. *)
Lemma find_at vs observer stream i v :
  vs !! i = Some v -> hs_Observer v = observer -> hs_Stream v = stream ->
  (forall j w, vs !! j = Some w -> (j < i)%nat -> ~ (hs_Observer w = observer /\ hs_Stream w = stream)) ->
  find vs observer stream = Some i.
Proof.
  intros Hi Ho Hs Hbefore. unfold find.
  assert (E : list_find (fun v => hs_Observer v = observer /\ hs_Stream v = stream) vs = Some (i, v)).
  { apply list_find_Some. split_and!; [done..|]. intros j w Hj Hlt. by apply Hbefore with j. }
  by rewrite E.
Qed.

Lemma replayAppend_twice vs p vs' :
  replayAppend vs p = Ok vs' -> replayAppend vs' p = Err ErrInvalidSnapshot.
Proof.
  assert (Hagain : forall us i v, us !! i = Some v ->
    hs_Observer v = pk_Observer p -> hs_Stream v = pk_Stream p ->
    (forall j w, us !! j = Some w -> (j < i)%nat ->
       ~ (hs_Observer w = pk_Observer p /\ hs_Stream w = pk_Stream p)) ->
    hs_Latest v = pk_Sequence p -> replayAppend us p = Err ErrInvalidSnapshot).
  { intros us i v Hi Ho Hs Hb Hl. unfold replayAppend. rewrite (find_at us _ _ i v) by done.
    cbn zeta beta iota. rewrite Hi, Hl.
    destruct (Z.eqb_spec (pk_Sequence p) (u64! (pk_Sequence p + 1))) as [E|]; [|done].
    exfalso. destruct (wrapu_offset (pk_Sequence p + 1)) as [k Hk]. lia. }
  assert (Hset : forall us i v, us !! i = Some v ->
    hs_Observer v = pk_Observer p -> hs_Stream v = pk_Stream p ->
    (forall j w, us !! j = Some w -> (j < i)%nat ->
       ~ (hs_Observer w = pk_Observer p /\ hs_Stream w = pk_Stream p)) ->
    forall v', hs_Observer v' = hs_Observer v -> hs_Stream v' = hs_Stream v ->
      hs_Latest v' = pk_Sequence p -> replayAppend (<[i := v']> us) p = Err ErrInvalidSnapshot).
  { intros us i v Hi Ho Hs Hb v' Ho' Hs' Hl. apply (Hagain _ i v').
    - apply list_lookup_insert_eq. by eapply lookup_lt_Some.
    - by rewrite Ho'.
    - by rewrite Hs'.
    - intros j w Hj Hlt. rewrite list_lookup_insert_ne in Hj by lia. by apply (Hb j).
    - done. }
  intros Hr. unfold replayAppend in Hr.
  destruct (find vs (pk_Observer p) (pk_Stream p)) as [i|] eqn:Hf; cbn zeta beta iota in Hr.
  - unfold find in Hf. apply fmap_Some in Hf as ([i' v] & (Hv & [Ho Hs] & Hb)%list_find_Some & ->).
    cbn [fst] in Hr. rewrite Hv in Hr. apply reject_bind in Hr as [_ [= <-]].
    by eapply Hset.
  - assert (Hnone : forall j w, vs !! j = Some w -> ~ (hs_Observer w = pk_Observer p /\ hs_Stream w = pk_Stream p)).
    { unfold find in Hf. apply fmap_None in Hf. rewrite list_find_None, Forall_forall in Hf.
      intros j w Hj. apply Hf. by eapply list_elem_of_lookup_2. }
    rewrite lookup_app_r, Nat.sub_diag in Hr by lia. cbn [lookup list_lookup] in Hr.
    apply reject_bind in Hr as [_ [= <-]].
    eapply Hset; [by rewrite lookup_app_r, Nat.sub_diag by lia|done|done| |done..].
    intros j w Hj Hlt. rewrite lookup_app_l in Hj by done. by eapply Hnone.
Qed.

Lemma replay_twice snapshot m p snapshot' :
  mu_Kind m = MutAppend p -> replayHistoryMutation snapshot m = Ok snapshot' ->
  replayHistoryMutation snapshot' m = Err ErrInvalidSnapshot.
Proof.
  intros Hk. unfold replayHistoryMutation. rewrite Hk, !bool_decide_false by done.
  intros (Hv & (He & (vs & Hvs & [= <-])%bind_ok)%reject_bind)%reject_bind.
  rewrite Hv. cbn [reject_if hp_Epoch hp_Streams]. run_bind. bool_to_prop.
  set (e := if hp_Epoch snapshot =? 0 then mu_Epoch m else hp_Epoch snapshot) in *.
  rewrite He. assert (E : (if e =? 0 then e else e) = e) by (by destruct (e =? 0)).
  rewrite E, Z.eqb_refl. cbn [negb reject_if]. run_bind. by rewrite (replayAppend_twice _ _ _ Hvs).
Qed.

(** A record whose flush fails is reported as failed but stays in the file.
    The history keeps its state and assigns the same sequence number again; once
    that second record is committed the log repeats a sequence number and can no
    longer be loaded. *)
Theorem FileHistoryJournal_failed_flush initialEpoch journal js m p :
  initialEpoch <> 0 -> reaches initialEpoch journal js -> encodableMutation m -> replays js m ->
  mu_Kind m = MutAppend p ->
  let '(failed, r) := FileHistoryJournal_Record journal m RecSyncFails in
  let '(retried, r') := FileHistoryJournal_Record failed m RecDone in
  r = Err ErrIO /\ r' = Ok tt
  /\ (FileHistoryJournal_Load (reopened retried)).2 = Err ErrInvalidSnapshot.
Proof.
  intros He Hreach Henc Hr Hk. destruct (reaches_holds _ _ _ He Hreach) as [Hh _].
  pose proof (Record_holds journal js m RecDone Hh Henc Hr) as Hrec.
  unfold FileHistoryJournal_Record in *. rewrite (replays_version _ _ Hr), Z.eqb_refl in *. cbn [negb] in *.
  destruct Hrec as (_ & _ & [(_ & _ & Hh')|(? & _)]); [|done]. split_and!; [done..|].
  set (failed := mkFileJournal _ _ _) in *.
  assert (Hh2 : holds (mkFileJournal
    (mkDirectory (dir_checkpoints (fj_directory failed))
       (<[fj_generation failed := default [] (dir_wals (fj_directory failed) !! fj_generation failed)
            ++ marshalMutation m ++ [newline]]> (dir_wals (fj_directory failed))))
    (fj_initialEpoch failed) (fj_generation failed)) [] (logged (logged js m) m)).
  { eapply holds_append; [exact Hh'|done| |apply not_elem_of_nil| |].
    - apply Forall_app_2; [apply Hh'|by constructor].
    - destruct (holds_founded _ _ _ Hh') as [(e & Hne & Hb & Hf)|]; [left|by right].
      exists e. split_and!; [done..|]. unfold logged in *. cbn in *. by destruct (js_log js).
    - unfold logged. cbn [js_log app]. by rewrite (walBytes_snoc (js_log js ++ [m])), app_nil_r. }
  match goal with |- (FileHistoryJournal_Load (reopened ?j)).2 = _ =>
    destruct (Load_holds j [] (logged (logged js m) m) Hh2) as [-> _]; [by left|] end.
  unfold logged, replays in *. cbn [js_checkpoint js_log]. rewrite !foldM_app in *.
  destruct (foldM _ _ (js_log js)) as [s|]; [|done]. cbn [mbind result_bind foldM] in *.
  destruct (replayHistoryMutation s m) as [s'|] eqn:E; [|done]. run_bind.
  by rewrite (replay_twice _ _ _ _ Hk E).
Qed.
End FileLemmas.

(** ** A reference codec

    It shows that the laws of [Json] are satisfiable: a value is written as a
    start mark followed by the bits of its number. *)
Fixpoint positiveBytes (p : positive) : list byte :=
  match p with
  | xH => [Byte.x03]
  | xO p => Byte.x02 :: positiveBytes p
  | xI p => Byte.x01 :: positiveBytes p
  end.

Fixpoint readPositive (data : list byte) : option (positive * list byte) :=
  match data with
  | Byte.x03 :: rest => Some (xH, rest)
  | Byte.x02 :: rest => '(p, tail) ← readPositive rest; Some (xO p, tail)
  | Byte.x01 :: rest => '(p, tail) ← readPositive rest; Some (xI p, tail)
  | _ => None
  end.

Definition writeValue `{Countable A} (a : A) : list byte := Byte.x04 :: positiveBytes (encode a).

Definition readValue `{Countable A} (data : list byte) : option A :=
  match data with
  | Byte.x04 :: rest =>
      '(p, tail) ← readPositive rest;
      if bool_decide (tail = [] \/ tail = [newline]) then decode p else None
  | _ => None
  end.

Lemma readPositive_bytes p tail : readPositive (positiveBytes p ++ tail) = Some (p, tail).
Proof. induction p as [p IH|p IH|]; cbn; [by rewrite IH|by rewrite IH|done]. Qed.

Lemma readValue_write `{Countable A} (a : A) tail :
  tail = [] \/ tail = [newline] -> readValue (writeValue a ++ tail) = Some a.
Proof.
  intros Ht. unfold readValue, writeValue. cbn [app]. rewrite readPositive_bytes. cbn.
  rewrite bool_decide_true by done. apply decode_encode.
Qed.

Lemma positiveBytes_line p : newline ∉ positiveBytes p.
Proof.
  induction p; cbn; rewrite ?not_elem_of_cons; split; try done; apply not_elem_of_nil.
Qed.

#[local] Instance byte_countable : Countable byte.
Proof. refine (inj_countable Byte.to_N Byte.of_N _). apply Byte.of_to_N. Defined.

#[local] Instance Packet_countable : Countable Packet.
Proof.
  refine (inj_countable'
    (fun p => (pk_Observer p, pk_Stream p, (pk_Epoch p, pk_Sequence p, pk_BaseSequence p),
               (pk_SchemaVersion p, pk_Full p, pk_Critical p, pk_Payload p)))
    (fun '(a, b, (c, d, e), (f, g, h, i)) => mkPacket a b c d e f g h i) _).
  by intros [].
Defined.

#[local] Instance HistoryTarget_countable : Countable HistoryTarget.
Proof.
  refine (inj_countable' (fun t => (tg_Observer t, tg_Stream t)) (fun '(a, b) => mkTarget a b) _).
  by intros [].
Defined.

#[local] Instance mutationKind_countable : Countable mutationKind.
Proof.
  refine (inj_countable'
    (fun k => match k with
      | MutAppend p => inl (inl p)
      | MutAcknowledge o s q b => inl (inr (o, s, q, b))
      | MutDelete o s => inr (inl (inl (o, s)))
      | MutDeleteView o => inr (inl (inr o))
      | MutSweep ts => inr (inr (inl ts))
      | MutRotateEpoch => inr (inr (inr true))
      | MutUnknown => inr (inr (inr false))
      end)
    (fun c => match c with
      | inl (inl p) => MutAppend p
      | inl (inr (o, s, q, b)) => MutAcknowledge o s q b
      | inr (inl (inl (o, s))) => MutDelete o s
      | inr (inl (inr o)) => MutDeleteView o
      | inr (inr (inl ts)) => MutSweep ts
      | inr (inr (inr true)) => MutRotateEpoch
      | inr (inr (inr false)) => MutUnknown
      end) _).
  by intros [].
Defined.

#[local] Instance HistoryMutation_eq_dec : EqDecision HistoryMutation.
Proof. solve_decision. Defined.

#[local] Instance HistoryMutation_countable : Countable HistoryMutation.
Proof.
  refine (inj_countable' (fun m => (mu_Version m, mu_Epoch m, mu_Kind m))
            (fun '(a, b, c) => mkMutation a b c) _).
  by intros [].
Defined.

#[local] Instance HistoryStreamSnapshot_eq_dec : EqDecision HistoryStreamSnapshot.
Proof. solve_decision. Defined.
#[local] Instance HistorySnapshot_eq_dec : EqDecision HistorySnapshot.
Proof. solve_decision. Defined.
#[local] Instance fileCheckpoint_eq_dec : EqDecision fileCheckpoint.
Proof. solve_decision. Defined.

#[local] Instance HistoryStreamSnapshot_countable : Countable HistoryStreamSnapshot.
Proof.
  refine (inj_countable'
    (fun v => (hs_Observer v, hs_Stream v, (hs_Latest v, hs_Acked v, hs_Dropped v, hs_Pruned v),
               (hs_Schema v, hs_LastActivityUnixNano v, hs_Packets v)))
    (fun '(a, b, (c, d, e, f), (g, h, i)) => mkStreamSnapshot a b c d e f g h i) _).
  by intros [].
Defined.

#[local] Instance HistorySnapshot_countable : Countable HistorySnapshot.
Proof.
  refine (inj_countable' (fun s => (hp_Version s, hp_Epoch s, hp_Streams s))
            (fun '(a, b, c) => mkHistorySnapshot a b c) _).
  by intros [].
Defined.

#[local] Instance fileCheckpoint_countable : Countable fileCheckpoint.
Proof.
  refine (inj_countable' (fun c => (fc_Generation c, fc_Snapshot c))
            (fun '(a, b) => mkFileCheckpoint a b) _).
  by intros [].
Defined.

#[local] Instance reference_json : Json :=
  {| marshalMutation := writeValue; unmarshalMutation := readValue;
     marshalCheckpoint := writeValue; unmarshalCheckpoint := readValue;
     encodableMutation := fun _ => True; encodableSnapshot := fun _ => True |}.

#[local] Instance reference_json_laws : JsonLaws.
Proof.
  split.
  - intros m _. apply readValue_write. by right.
  - intros m. cbn. apply not_elem_of_cons. split; [done|apply positiveBytes_line].
  - intros c _. change (readValue (writeValue c) = Some c).
    rewrite <-(app_nil_r (writeValue c)). apply readValue_write. by left.
Qed.

(** ** Witnesses *)

Definition founding_record : HistoryMutation :=
  mkMutation HistoryMutationVersion 7 (MutAppend
    (mkPacket (mkObserver 1 5 1 "room") (mkStream "state" 9) 7 1 0 3 true false [Byte.x01])).

Definition empty_directory : FileHistoryJournal := mkFileJournal (mkDirectory ∅ ∅) 7 1.

Definition one_record : FileHistoryJournal :=
  (FileHistoryJournal_Record empty_directory founding_record RecDone).1.

Lemma one_record_reached :
  reaches 7 one_record
    (mkJournal (mkHistorySnapshot HistorySnapshotVersion 7 []) [founding_record]).
Proof.
  apply (reaches_record 7 empty_directory (mkJournal (mkHistorySnapshot HistorySnapshotVersion 7 []) []));
    [apply reaches_start|done|vm_compute; reflexivity].
Qed.

Lemma FileHistoryJournal_refines_witness :
  is_ok (FileHistoryJournal_Load (reopened one_record)).2 = true.
Proof.
  rewrite (FileHistoryJournal_refines 7 _ _ ltac:(lia) one_record_reached). vm_compute. reflexivity.
Defined.

Definition second_record : HistoryMutation :=
  mkMutation HistoryMutationVersion 7 (MutAcknowledge (mkObserver 1 5 1 "room") (mkStream "state" 9) 1 true).

(** The acknowledgement is torn after two bytes: the directory still loads. *)
Lemma FileHistoryJournal_Record_atomic_witness :
  is_ok (FileHistoryJournal_Load (reopened (FileHistoryJournal_Record one_record second_record
    (RecWriteFails 2)).1)).2 = true.
Proof.
  assert (Hr : replays (mkJournal (mkHistorySnapshot HistorySnapshotVersion 7 []) [founding_record])
                 second_record) by (vm_compute; reflexivity).
  assert (Hside : js_log (mkJournal (mkHistorySnapshot HistorySnapshotVersion 7 []) [founding_record]) <> []
    \/ dir_checkpoints (fj_directory one_record) <> ∅) by (left; discriminate).
  pose proof (FileHistoryJournal_Record_atomic 7 one_record
    (mkJournal (mkHistorySnapshot HistorySnapshotVersion 7 []) [founding_record])
    second_record (RecWriteFails 2) ltac:(lia) one_record_reached I Hr Hside) as Ha.
  destruct (FileHistoryJournal_Record one_record second_record _) as [j r].
  destruct Ha as [_ [E|E]]; cbn [fst]; rewrite E; vm_compute; reflexivity.
Defined.

Lemma FileHistoryJournal_torn_first_record_witness :
  exists snapshot, (FileHistoryJournal_Load (reopened
      (FileHistoryJournal_Record empty_directory founding_record (RecWriteFails 2)).1)).2 = Ok snapshot
    /\ Import sample_history snapshot (fun _ => 1) = Err ErrInvalidSnapshot.
Proof.
  destruct (FileHistoryJournal_torn_first_record 7 founding_record 2 sample_history (fun _ => 1))
    as (s & Hs & _ & Hi); [reflexivity|vm_compute; lia|].
  exists s. split; [exact Hs|exact Hi].
Defined.

Definition checkpointed : FileHistoryJournal :=
  (FileHistoryJournal_Checkpoint empty_directory
     (mkHistorySnapshot HistorySnapshotVersion 7 []) (CkDone true true)).1.

Lemma checkpointed_reached :
  reaches 7 checkpointed (mkJournal (mkHistorySnapshot HistorySnapshotVersion 7 []) []).
Proof.
  apply (reaches_checkpoint 7 empty_directory
    (mkJournal (mkHistorySnapshot HistorySnapshotVersion 7 []) [])
    (mkHistorySnapshot HistorySnapshotVersion 7 []) (CkDone true true));
    [apply reaches_start|done|done].
Qed.

Definition torn_journal : FileHistoryJournal :=
  (FileHistoryJournal_Record checkpointed founding_record (RecWriteFails 2)).1.

Lemma torn_journal_holds :
  holds torn_journal (take 2 (marshalMutation founding_record))
    (mkJournal (mkHistorySnapshot HistorySnapshotVersion 7 []) []).
Proof.
  destruct (reaches_holds 7 _ _ ltac:(lia) checkpointed_reached) as [Hh _].
  unfold torn_journal, FileHistoryJournal_Record.
  change (negb (mu_Version founding_record =? HistoryMutationVersion)) with false. cbn iota. cbn [fst].
  rewrite take_app_le by (vm_compute; lia).
  apply (holds_append checkpointed [] _ _ (mkJournal (mkHistorySnapshot HistorySnapshotVersion 7 []) [])
    (take 2 (marshalMutation founding_record)) Hh); [done|constructor| |right; done|done].
  intros Hin%elem_of_take. destruct Hin as (i & Hi & _).
  by apply (mutation_one_line founding_record), (list_elem_of_lookup_2 _ i).
Qed.

Lemma FileHistoryJournal_record_after_torn_tail_witness :
  (FileHistoryJournal_Record torn_journal founding_record RecDone).2 = Ok tt
  /\ (FileHistoryJournal_Load (reopened
        (FileHistoryJournal_Record torn_journal founding_record RecDone).1)).2 = Err ErrDecode.
Proof.
  assert (Hpub : dir_checkpoints (fj_directory torn_journal) <> ∅) by (vm_compute; discriminate).
  assert (Htorn : unmarshalMutation (take 2 (marshalMutation founding_record)
                    ++ marshalMutation founding_record ++ [newline]) = None)
    by (vm_compute; reflexivity).
  pose proof (FileHistoryJournal_record_after_torn_tail torn_journal _ _ founding_record
    torn_journal_holds Hpub eq_refl eq_refl Htorn) as Ht.
  destruct (FileHistoryJournal_Record torn_journal founding_record RecDone) as [j r]. exact Ht.
Defined.

Lemma FileHistoryJournal_failed_flush_witness :
  (FileHistoryJournal_Load (reopened (FileHistoryJournal_Record
    (FileHistoryJournal_Record checkpointed founding_record RecSyncFails).1
    founding_record RecDone).1)).2 = Err ErrInvalidSnapshot.
Proof.
  assert (Hr : replays (mkJournal (mkHistorySnapshot HistorySnapshotVersion 7 []) []) founding_record)
    by (vm_compute; reflexivity).
  pose proof (FileHistoryJournal_failed_flush 7 checkpointed _ founding_record _ ltac:(lia)
    checkpointed_reached I Hr eq_refl) as Hf.
  destruct (FileHistoryJournal_Record checkpointed founding_record RecSyncFails) as [j r]. cbn [fst].
  destruct (FileHistoryJournal_Record j founding_record RecDone) as [j' r']. apply Hf.
Defined.
