(* ===== verification/EntityId.v ===== *)
(** * Entity identifiers

    The kind registry of [src/entity/entity_factory.go], the remote policies of
    [src/entity/policy.go], and the identifier layout of [src/entity/idgen.go]
    and [src/entity/resolver.go]: a positive [int64] with a remote bit, a 52-bit
    unique number, an 8-bit kind and a 2-bit category. *)

From stdpp Require Import base list gmap.
From Stdlib Require Import ZArith Lia.
From S2P Require Import Prelude.

Local Open Scope Z_scope.

Inductive idError :=
| ErrInvalidBlockNo | ErrBlockExhausted | ErrInvalidCategory | ErrInvalidEntityKind | ErrInvalidEntityID
| ErrKindNone | ErrCategoryNone | ErrCategoryMismatch | ErrPolicyMismatch
  (* an error of the block allocator *)
| ErrAllocator.

Abbreviation ires := (result idError).

(** ** Constants *)

Definition UniqueIDBits : Z := 52.
Definition UniqueIDMask : Z := Z.shiftl 1 UniqueIDBits - 1.
Definition StaticUniqueIDBase : Z := Z.shiftl 1 (UniqueIDBits - 1).
Definition DynamicUniqueIDMask : Z := StaticUniqueIDBase - 1.
Definition EntityCategoryBits : Z := 2.
Definition EntityKindBits : Z := 8.
Definition EntityRemoteBits : Z := 1.
Definition EntityIDTagBits : Z := EntityCategoryBits + EntityKindBits.
Definition EntityCategoryMask : Z := Z.shiftl 1 EntityCategoryBits - 1.
Definition EntityKindMask : Z := Z.shiftl 1 EntityKindBits - 1.
Definition EntityRemoteMask : Z := Z.shiftl 1 EntityRemoteBits - 1.
Definition EntityKindShift : Z := EntityCategoryBits.
Definition UniqueIDShift : Z := EntityIDTagBits.
Definition EntityRemoteShift : Z := UniqueIDShift + UniqueIDBits.
Definition EntityIDValueBits : Z := UniqueIDBits + EntityIDTagBits + EntityRemoteBits.
Definition EntityIDValueMask : Z := Z.shiftl 1 EntityIDValueBits - 1.
Definition EntityCategoryNone : Z := 0.
Definition EntityKindNone : Z := 0.

(** ** Policies and the kind registry *)

Inductive RemotePolicy := RemotePolicyNone | RemotePolicyCapable | RemotePolicyManaged | RemotePolicyMirror.

#[export] Instance RemotePolicy_eq_dec : EqDecision RemotePolicy.
Proof. solve_decision. Defined.

Definition RemoteCapable (p : RemotePolicy) : bool :=
  match p with
  | RemotePolicyCapable | RemotePolicyManaged | RemotePolicyMirror => true
  | RemotePolicyNone => false
  end.

Record EntityKindDef := mkKindDef {
  kd_Kind : Z;
  kd_Category : Z;
  kd_RemotePolicy : RemotePolicy
}.

(** The global maps; a builder is represented by its remote policy. *)
Record Registry := mkRegistry {
  kindCategoryByKind : gmap Z Z;
  kindPolicyByKind : gmap Z RemotePolicy;
  factoryByKind : gmap Z RemotePolicy
}.

Definition ResetEntityRegistry : Registry := mkRegistry ∅ ∅ ∅.

(** The category is entered before the policy is compared, so a policy
    mismatch leaves the registry with the category. *)
Definition registerEntityKindDefinitionLocked (reg : Registry) (def : EntityKindDef)
    : Registry * ires unit :=
  let kind := kd_Kind def in let category := kd_Category def in
  if kind =? EntityKindNone then (reg, Err ErrKindNone) else
  if EntityKindMask <? kind then (reg, Err ErrInvalidEntityKind) else
  if category =? EntityCategoryNone then (reg, Err ErrCategoryNone) else
  if EntityCategoryMask <? category then (reg, Err ErrInvalidCategory) else
  let existing := kindCategoryByKind reg !! kind in
  if bool_decide (is_Some existing /\ existing <> Some category) then (reg, Err ErrCategoryMismatch) else
  let reg := match existing with
    | Some _ => reg
    | None => mkRegistry (<[kind := category]> (kindCategoryByKind reg)) (kindPolicyByKind reg)
                (factoryByKind reg)
    end in
  let policy := kd_RemotePolicy def in
  let store := mkRegistry (kindCategoryByKind reg) (<[kind := policy]> (kindPolicyByKind reg))
                 (factoryByKind reg) in
  match kindPolicyByKind reg !! kind with
  | Some existing =>
      if bool_decide (existing = policy) then (reg, Ok tt) else
      if bool_decide (existing = RemotePolicyNone) then (store, Ok tt) else
      if bool_decide (policy = RemotePolicyNone) then (reg, Ok tt) else
      (reg, Err ErrPolicyMismatch)
  | None => (store, Ok tt)
  end.

Definition registerEntityKindCategoryLocked (reg : Registry) (kind category : Z) : Registry * ires unit :=
  registerEntityKindDefinitionLocked reg (mkKindDef kind category RemotePolicyNone).

(** The loops stop at the first error and keep what was registered before. *)
Fixpoint RegisterEntityKindDefs (reg : Registry) (defs : list EntityKindDef) : Registry * ires unit :=
  match defs with
  | [] => (reg, Ok tt)
  | def :: defs' =>
      match registerEntityKindDefinitionLocked reg def with
      | (reg, Err e) => (reg, Err e)
      | (reg, Ok _) => RegisterEntityKindDefs reg defs'
      end
  end.

Definition EntityCategoryOfKind (reg : Registry) (kind : Z) : option Z := kindCategoryByKind reg !! kind.

Definition ResolveEntityKindCategory (reg : Registry) (kind : Z) : ires Z :=
  if kind =? EntityKindNone then Err ErrKindNone else
  if EntityKindMask <? kind then Err ErrInvalidEntityKind else
  match EntityCategoryOfKind reg kind with
  | None => Err ErrInvalidEntityID
  | Some category => Ok category
  end.

Definition GetEntityKindRemotePolicy (reg : Registry) (kind : Z) : RemotePolicy :=
  match kindPolicyByKind reg !! kind with
  | Some policy => policy
  | None => default RemotePolicyNone (factoryByKind reg !! kind)
  end.

Definition IsEntityKindRemoteCapable (reg : Registry) (kind : Z) : bool :=
  RemoteCapable (GetEntityKindRemotePolicy reg kind).

(** ** Building and reading identifiers *)

(** Calls outside the masks panic; [buildEntityIDWithCategory] excludes them. *)
Definition makeEntityID (reg : Registry) (uniqueID category kind : Z) (remoteCapable : bool) : option Z :=
  if EntityCategoryMask <? category then None else
  if EntityKindMask <? kind then None else
  let id := Z.lor (Z.lor (Z.shiftl (Z.land (u64! uniqueID) UniqueIDMask) UniqueIDShift)
                         (Z.shiftl (Z.land kind EntityKindMask) EntityKindShift))
                  (Z.land category EntityCategoryMask) in
  let remoteCapable := (negb (kind =? EntityKindNone) && IsEntityKindRemoteCapable reg kind)
                       || remoteCapable in
  let id := if remoteCapable then Z.lor id (Z.shiftl EntityRemoteMask EntityRemoteShift) else id in
  Some (wrapi64 id).

Definition buildEntityIDWithCategory (reg : Registry) (uniqueID category kind : Z) : ires Z :=
  if (uniqueID <=? 0) || (UniqueIDMask <? u64! uniqueID) then Err ErrInvalidEntityID else
  if EntityCategoryMask <? category then Err ErrInvalidCategory else
  if category =? EntityCategoryNone then Err ErrInvalidEntityID else
  if EntityKindMask <? kind then Err ErrInvalidEntityKind else
  if kind =? EntityKindNone then Err ErrInvalidEntityID else
  match makeEntityID reg uniqueID category kind
          (negb (kind =? EntityKindNone) && IsEntityKindRemoteCapable reg kind) with
  | Some id => Ok id
  | None => Err ErrInvalidEntityID (* the panics are excluded above *)
  end.

Definition BuildEntityID (reg : Registry) (uniqueID kind : Z) : ires Z :=
  category ← ResolveEntityKindCategory reg kind;
  buildEntityIDWithCategory reg uniqueID category kind.

Definition GetEntityCategoryFromID (id : Z) : Z := Z.land (u64! id) EntityCategoryMask.
Definition GetEntityKindFromID (id : Z) : Z := Z.land (Z.shiftr (u64! id) EntityKindShift) EntityKindMask.
Definition GetEntityRemoteFromID (id : Z) : bool :=
  negb (Z.land (Z.shiftr (u64! id) EntityRemoteShift) EntityRemoteMask =? 0).
Definition GetUniqueIDFromEntityID (id : Z) : Z :=
  wrapi64 (Z.land (Z.shiftr (u64! id) UniqueIDShift) UniqueIDMask).

Definition setRemoteCapableBit (id : Z) : Z :=
  wrapi64 (Z.lor (u64! id) (Z.shiftl EntityRemoteMask EntityRemoteShift)).

Definition clearRemoteCapableBit (id : Z) : Z :=
  wrapi64 (Z.ldiff (u64! id) (Z.shiftl EntityRemoteMask EntityRemoteShift)).

Record EntityIDMeta := mkMeta {
  em_InputID : Z;
  em_UniqueID : Z;
  em_FullID : Z;
  em_Category : Z;
  em_Kind : Z;
  em_RemoteCapable : bool
}.

Definition ResolveEntityID (reg : Registry) (id : Z) : EntityIDMeta :=
  let v := Z.land (u64! id) EntityIDValueMask in
  let uniqueID := wrapi64 (Z.land (Z.shiftr v UniqueIDShift) UniqueIDMask) in
  let category := Z.land v EntityCategoryMask in
  let kind := GetEntityKindFromID id in
  let capable := negb (kind =? EntityKindNone) && IsEntityKindRemoteCapable reg kind in
  mkMeta id uniqueID (if capable then setRemoteCapableBit id else id) category kind
    (if capable then true else GetEntityRemoteFromID id).

Definition NormalizeFullID (reg : Registry) (id kind : Z) : ires Z :=
  if id =? 0 then Err ErrInvalidEntityID else
  let meta := ResolveEntityID reg id in
  _ ← reject_if (negb (kind =? EntityKindNone) && negb (em_Kind meta =? kind)) ErrInvalidEntityID;
  _ ← reject_if (em_Category meta =? EntityCategoryNone) ErrInvalidEntityID;
  _ ← reject_if (em_Kind meta =? EntityKindNone) ErrInvalidEntityID;
  _ ← reject_if (em_UniqueID meta =? 0) ErrInvalidEntityID;
  category ← ResolveEntityKindCategory reg (em_Kind meta);
  _ ← reject_if (negb (em_Category meta =? category)) ErrInvalidEntityID;
  Ok (em_FullID meta).

Definition MatchEntityID (reg : Registry) (id kind : Z) : bool := is_ok (NormalizeFullID reg id kind).

Definition IsRemoteCapableEntityID (reg : Registry) (id : Z) : bool :=
  let kind := GetEntityKindFromID id in
  if negb (kind =? EntityKindNone) && IsEntityKindRemoteCapable reg kind then true
  else GetEntityRemoteFromID id.

(** ** Fields as arithmetic *)

(** The layout: [remote * 2^62 + unique * 2^10 + kind * 2^2 + category]. *)
Definition layout (remote : bool) (unique kind category : Z) : Z :=
  (if remote then 2 ^ 62 else 0) + unique * 2 ^ 10 + kind * 2 ^ 2 + category.

Lemma land_mask a n : 0 <= n -> Z.land a (Z.shiftl 1 n - 1) = a mod 2 ^ n.
Proof. intros. rewrite Z.shiftl_1_l, Z.sub_1_r, <-Z.ones_equiv. by apply Z.land_ones. Qed.

Lemma lor_shift a b n : 0 <= n -> 0 <= b < 2 ^ n -> Z.lor (Z.shiftl a n) b = a * 2 ^ n + b.
Proof.
  intros Hn Hb. rewrite <-Z.shiftl_mul_pow2 by done.
  assert (Hland : Z.land (Z.shiftl a n) b = 0).
  { apply Z.bits_inj'. intros i Hi. rewrite Z.land_spec, Z.bits_0.
    destruct (Z.ltb_spec i n).
    - rewrite Z.shiftl_spec_low by done. done.
    - rewrite <-(Z.mod_small b (2 ^ n)) by done. rewrite Z.mod_pow2_bits_high by lia. apply andb_false_r. }
  by rewrite <-Z.lxor_lor, Z.add_nocarry_lxor by done.
Qed.

Section Layout.
Context (remote : bool) (unique kind category : Z).
Hypothesis Hu : 0 <= unique < 2 ^ 52.
Hypothesis Hk : 0 <= kind < 2 ^ 8.
Hypothesis Hc : 0 <= category < 2 ^ 2.

Lemma layout_range : 0 <= layout remote unique kind category < 2 ^ 63.
Proof. unfold layout. destruct remote; lia. Qed.

Lemma layout_u64 : u64! (layout remote unique kind category) = layout remote unique kind category.
Proof. apply wrapu_small. pose proof layout_range. unfold in_u. lia. Qed.

Lemma layout_category : GetEntityCategoryFromID (layout remote unique kind category) = category.
Proof.
  unfold GetEntityCategoryFromID, EntityCategoryMask. rewrite layout_u64, land_mask by done.
  unfold layout, EntityCategoryBits. destruct remote; Z.to_euclidean_division_equations; lia.
Qed.

Lemma layout_kind : GetEntityKindFromID (layout remote unique kind category) = kind.
Proof.
  unfold GetEntityKindFromID, EntityKindMask. rewrite layout_u64, land_mask by done.
  rewrite Z.shiftr_div_pow2 by done. unfold layout, EntityKindShift, EntityCategoryBits, EntityKindBits.
  destruct remote; Z.to_euclidean_division_equations; lia.
Qed.

Lemma layout_unique : GetUniqueIDFromEntityID (layout remote unique kind category) = unique.
Proof.
  unfold GetUniqueIDFromEntityID, UniqueIDMask. rewrite layout_u64, land_mask by done.
  rewrite Z.shiftr_div_pow2 by done.
  assert (E : (layout remote unique kind category / 2 ^ UniqueIDShift) mod 2 ^ UniqueIDBits = unique).
  { unfold layout. change (2 ^ UniqueIDShift) with 1024. change (2 ^ UniqueIDBits) with 4503599627370496.
    destruct remote; Z.to_euclidean_division_equations; lia. }
  rewrite E. apply wrapi64_small. lia.
Qed.

Lemma layout_remote : GetEntityRemoteFromID (layout remote unique kind category) = remote.
Proof.
  unfold GetEntityRemoteFromID, EntityRemoteMask. rewrite layout_u64, land_mask by done.
  rewrite Z.shiftr_div_pow2 by done. unfold layout.
  change (2 ^ EntityRemoteShift) with 4611686018427387904. change (2 ^ EntityRemoteBits) with 2.
  destruct remote; [apply negb_true_iff, Z.eqb_neq|apply negb_false_iff, Z.eqb_eq];
    Z.to_euclidean_division_equations; lia.
Qed.
End Layout.

Lemma layout_split remote unique kind category :
  layout remote unique kind category
  = (if remote then 2 ^ 62 else 0) + layout false unique kind category.
Proof. unfold layout. lia. Qed.

Lemma layout_false_range unique kind category :
  0 <= unique < 2 ^ 52 -> 0 <= kind < 2 ^ 8 -> 0 <= category < 2 ^ 2 ->
  0 <= layout false unique kind category < 2 ^ 62.
Proof. unfold layout. lia. Qed.

(** Every nonnegative identifier is the layout of its fields. *)
Lemma layout_of_id id :
  0 <= id < 2 ^ 63 ->
  id = layout (GetEntityRemoteFromID id) (GetUniqueIDFromEntityID id) (GetEntityKindFromID id)
         (GetEntityCategoryFromID id)
  /\ 0 <= GetUniqueIDFromEntityID id < 2 ^ 52 /\ 0 <= GetEntityKindFromID id < 2 ^ 8
  /\ 0 <= GetEntityCategoryFromID id < 2 ^ 2.
Proof.
  intros Hid.
  set (u := id mod 2 ^ 62 / 2 ^ 10). set (k := id mod 2 ^ 10 / 2 ^ 2). set (c := id mod 2 ^ 2).
  assert (Hu : 0 <= u < 2 ^ 52) by (unfold u; Z.to_euclidean_division_equations; lia).
  assert (Hk : 0 <= k < 2 ^ 8) by (unfold k; Z.to_euclidean_division_equations; lia).
  assert (Hc : 0 <= c < 2 ^ 2) by (unfold c; Z.to_euclidean_division_equations; lia).
  assert (E : id = layout (2 ^ 62 <=? id) u k c).
  { unfold layout, u, k, c. destruct (Z.leb_spec (2 ^ 62) id); Z.to_euclidean_division_equations; lia. }
  rewrite E, layout_remote, layout_unique, layout_kind, layout_category by done. done.
Qed.

Lemma setRemote_layout remote unique kind category :
  0 <= unique < 2 ^ 52 -> 0 <= kind < 2 ^ 8 -> 0 <= category < 2 ^ 2 ->
  setRemoteCapableBit (layout remote unique kind category) = layout true unique kind category.
Proof.
  intros Hu Hk Hc. unfold setRemoteCapableBit. rewrite layout_u64 by done.
  pose proof (layout_false_range _ _ _ Hu Hk Hc) as Hr.
  change EntityRemoteMask with 1. change EntityRemoteShift with 62.
  assert (Hor : Z.lor (Z.shiftl 1 62) (layout false unique kind category) = layout true unique kind category).
  { rewrite lor_shift by done. rewrite (layout_split true). lia. }
  assert (E : Z.lor (layout remote unique kind category) (Z.shiftl 1 62) = layout true unique kind category).
  { destruct remote; [|by rewrite Z.lor_comm].
    by rewrite <-Hor, Z.lor_comm, Z.lor_assoc, Z.lor_diag. }
  rewrite E. apply wrapi64_small. pose proof (layout_range true _ _ _ Hu Hk Hc). lia.
Qed.

Lemma makeEntityID_layout reg unique category kind remote :
  0 <= unique < 2 ^ 52 -> 0 <= kind < 2 ^ 8 -> 0 <= category < 2 ^ 2 ->
  makeEntityID reg unique category kind remote
  = Some (layout (negb (kind =? EntityKindNone) && IsEntityKindRemoteCapable reg kind || remote)
            unique kind category).
Proof.
  intros Hu Hk Hc. unfold makeEntityID.
  destruct (Z.ltb_spec EntityCategoryMask category) as [H|_]; [change EntityCategoryMask with 3 in H; lia|].
  destruct (Z.ltb_spec EntityKindMask kind) as [H|_]; [change EntityKindMask with 255 in H; lia|].
  assert (E1 : Z.land (u64! unique) UniqueIDMask = unique).
  { unfold UniqueIDMask. rewrite wrapu_small by (unfold in_u; lia).
    rewrite land_mask by done. apply Z.mod_small. done. }
  assert (E2 : Z.land kind EntityKindMask = kind).
  { unfold EntityKindMask. rewrite land_mask by done. apply Z.mod_small. done. }
  assert (E3 : Z.land category EntityCategoryMask = category).
  { unfold EntityCategoryMask. rewrite land_mask by done. apply Z.mod_small. done. }
  assert (E : Z.lor (Z.lor (Z.shiftl unique UniqueIDShift) (Z.shiftl kind EntityKindShift)) category
              = layout false unique kind category).
  { change UniqueIDShift with 10. change EntityKindShift with 2. rewrite <-Z.lor_assoc.
    rewrite (lor_shift kind category 2), lor_shift by lia. unfold layout. lia. }
  rewrite E1, E2, E3.
  rewrite E. f_equal. pose proof (layout_false_range _ _ _ Hu Hk Hc).
  destruct (_ && _ || remote).
  - change (Z.shiftl EntityRemoteMask EntityRemoteShift) with (Z.shiftl 1 62).
    rewrite Z.lor_comm, lor_shift by done. rewrite (layout_split true). apply wrapi64_small. lia.
  - apply wrapi64_small. lia.
Qed.

(** ** The registry *)

Definition registry_ok (reg : Registry) : Prop :=
  map_Forall (fun kind category => 0 < kind < 2 ^ 8 /\ 0 < category < 2 ^ 2) (kindCategoryByKind reg).

Lemma register_cases reg def :
  let '(reg', r) := registerEntityKindDefinitionLocked reg def in
  factoryByKind reg' = factoryByKind reg
  /\ (kindCategoryByKind reg' = kindCategoryByKind reg
      \/ kindCategoryByKind reg !! kd_Kind def = None
         /\ kd_Kind def <> 0 /\ kd_Kind def <= EntityKindMask
         /\ kd_Category def <> 0 /\ kd_Category def <= EntityCategoryMask
         /\ kindCategoryByKind reg' = <[kd_Kind def := kd_Category def]> (kindCategoryByKind reg)).
Proof.
  unfold registerEntityKindDefinitionLocked.
  destruct (Z.eqb_spec (kd_Kind def) EntityKindNone) as [|Hk]; [by auto|].
  destruct (Z.ltb_spec EntityKindMask (kd_Kind def)); [by auto|].
  destruct (Z.eqb_spec (kd_Category def) EntityCategoryNone) as [|Hc]; [by auto|].
  destruct (Z.ltb_spec EntityCategoryMask (kd_Category def)); [by auto|].
  case_bool_decide as Hex; [by auto|].
  destruct (kindCategoryByKind reg !! kd_Kind def) as [c|] eqn:E; repeat case_match; cbn;
    simplify_eq; split; auto 10.
Qed.

Definition uint8_def (def : EntityKindDef) : Prop := 0 <= kd_Kind def < 2 ^ 8 /\ 0 <= kd_Category def < 2 ^ 8.

(** One registration keeps the registry well formed and every category. *)
Lemma register_preserves reg def :
  registry_ok reg -> uint8_def def ->
  registry_ok (registerEntityKindDefinitionLocked reg def).1
  /\ kindCategoryByKind reg ⊆ kindCategoryByKind (registerEntityKindDefinitionLocked reg def).1.
Proof.
  intros Hok [Hdk Hdc]. pose proof (register_cases reg def) as Hc.
  destruct (registerEntityKindDefinitionLocked reg def) as [reg' r]. cbn.
  destruct Hc as (_ & [E|(Hn & ? & ? & ? & Hm & E)]); unfold registry_ok; rewrite E; [done|].
  change EntityCategoryMask with 3 in Hm. split.
  - apply map_Forall_insert_2; [lia|done].
  - by apply insert_subseteq.
Qed.

Lemma RegisterEntityKindDefs_preserves reg defs :
  registry_ok reg -> Forall uint8_def defs ->
  registry_ok (RegisterEntityKindDefs reg defs).1
  /\ kindCategoryByKind reg ⊆ kindCategoryByKind (RegisterEntityKindDefs reg defs).1.
Proof.
  intros Hok Hd. revert reg Hok. induction Hd as [|def defs Hdef Hd IH]; intros reg Hok; cbn; [done|].
  destruct (register_preserves reg def Hok Hdef) as [Hok' Hs].
  destruct (registerEntityKindDefinitionLocked reg def) as [reg' [u|e]]; cbn in *; [|done].
  destruct (IH reg' Hok') as [? Hs']. split; [done|]. by etrans.
Qed.

Lemma ResolveEntityKindCategory_ok reg kind category :
  registry_ok reg -> ResolveEntityKindCategory reg kind = Ok category ->
  kindCategoryByKind reg !! kind = Some category /\ 0 < kind < 2 ^ 8 /\ 0 < category < 2 ^ 2.
Proof.
  intros Hok. unfold ResolveEntityKindCategory, EntityCategoryOfKind.
  repeat case_match; intros; simplify_eq. split; [done|]. by apply Hok.
Qed.

Lemma ResolveEntityKindCategory_complete reg kind category :
  registry_ok reg -> kindCategoryByKind reg !! kind = Some category ->
  ResolveEntityKindCategory reg kind = Ok category.
Proof.
  intros Hok Hl. unfold ResolveEntityKindCategory, EntityCategoryOfKind. rewrite Hl.
  destruct (Hok _ _ Hl) as [Hk _]. destruct (Z.eqb_spec kind EntityKindNone); [unfold EntityKindNone in *; lia|].
  destruct (Z.ltb_spec EntityKindMask kind) as [H|]; [change EntityKindMask with 255 in H; lia|done].
Qed.

(** ** Identifiers *)

Definition capable (reg : Registry) (kind : Z) : bool :=
  negb (kind =? EntityKindNone) && IsEntityKindRemoteCapable reg kind.

Lemma capable_kind reg kind : 0 < kind -> capable reg kind = IsEntityKindRemoteCapable reg kind.
Proof. intros Hk. unfold capable, EntityKindNone. by destruct (Z.eqb_spec kind 0); [lia|]. Qed.

(** Building succeeds exactly for registered kinds and 52-bit numbers, and
    yields the layout. *)
Lemma BuildEntityID_iff reg unique kind id :
  registry_ok reg -> - 2 ^ 63 <= unique < 2 ^ 63 ->
  BuildEntityID reg unique kind = Ok id <->
  0 < unique < 2 ^ 52 /\ exists category, kindCategoryByKind reg !! kind = Some category
    /\ id = layout (capable reg kind) unique kind category.
Proof.
  intros Hok Hu. unfold BuildEntityID. rewrite bind_ok.
  assert (Hbuild : forall category, 0 < kind < 2 ^ 8 -> 0 < category < 2 ^ 2 ->
    buildEntityIDWithCategory reg unique category kind = Ok id
    <-> 0 < unique < 2 ^ 52 /\ id = layout (capable reg kind) unique kind category).
  { intros category Hk Hc. unfold buildEntityIDWithCategory.
    change UniqueIDMask with (2 ^ 52 - 1). change EntityCategoryMask with 3. change EntityKindMask with 255.
    unfold EntityCategoryNone, EntityKindNone.
    destruct (Z.leb_spec unique 0); [split; [done|lia]|]. rewrite wrapu_small by (unfold in_u; lia).
    destruct (Z.ltb_spec (2 ^ 52 - 1) unique); [split; [done|lia]|]. cbn [orb].
    destruct (Z.ltb_spec 3 category); [lia|]. destruct (Z.eqb_spec category 0); [lia|].
    destruct (Z.ltb_spec 255 kind); [lia|]. destruct (Z.eqb_spec kind 0); [lia|].
    rewrite makeEntityID_layout by lia. fold (capable reg kind).
    rewrite capable_kind by lia. cbn [negb andb]. rewrite orb_diag.
    split; [by intros [= <-]; split; [lia|]|by intros [_ ->]]. }
  split.
  - intros (category & Hr & Hb). apply ResolveEntityKindCategory_ok in Hr as (Hl & Hk & Hc); [|done].
    apply Hbuild in Hb as [? ->]; [|done..]. eauto.
  - intros (Hr & category & Hl & ->). exists category. split; [by apply ResolveEntityKindCategory_complete|].
    destruct (Hok _ _ Hl). by apply Hbuild.
Qed.

Lemma ResolveEntityID_layout reg remote unique kind category :
  0 <= unique < 2 ^ 52 -> 0 <= kind < 2 ^ 8 -> 0 <= category < 2 ^ 2 ->
  ResolveEntityID reg (layout remote unique kind category)
  = mkMeta (layout remote unique kind category) unique
      (layout (capable reg kind || remote) unique kind category) category kind (capable reg kind || remote).
Proof.
  intros Hu Hk Hc. unfold ResolveEntityID.
  assert (Hv : Z.land (u64! (layout remote unique kind category)) EntityIDValueMask
               = u64! (layout remote unique kind category)).
  { unfold EntityIDValueMask. rewrite land_mask, layout_u64 by (done || lia). apply Z.mod_small.
    apply layout_range; lia. }
  rewrite Hv. fold (GetUniqueIDFromEntityID (layout remote unique kind category)).
  fold (GetEntityCategoryFromID (layout remote unique kind category)).
  rewrite layout_kind, layout_unique, layout_category, layout_remote by lia.
  fold (capable reg kind). destruct (capable reg kind); cbn [orb]; [|done].
  by rewrite setRemote_layout by lia.
Qed.

Lemma NormalizeFullID_layout reg remote unique kind category want :
  registry_ok reg -> 0 < unique < 2 ^ 52 -> kindCategoryByKind reg !! kind = Some category ->
  want = 0 \/ want = kind ->
  NormalizeFullID reg (layout remote unique kind category) want
  = Ok (layout (capable reg kind || remote) unique kind category).
Proof.
  intros Hok Hu Hl Hw. destruct (Hok _ _ Hl) as [Hk Hc]. unfold NormalizeFullID.
  assert (Hne : layout remote unique kind category <> 0) by (unfold layout; destruct remote; lia).
  destruct (Z.eqb_spec (layout remote unique kind category) 0); [done|].
  rewrite ResolveEntityID_layout by lia. cbn [em_Kind em_Category em_UniqueID em_FullID].
  unfold EntityKindNone, EntityCategoryNone.
  assert (E : negb (want =? 0) && negb (kind =? want) = false).
  { destruct Hw as [->| ->]; [done|]. by rewrite Z.eqb_refl, andb_false_r. }
  rewrite E. destruct (Z.eqb_spec category 0); [lia|]. destruct (Z.eqb_spec kind 0); [lia|].
  destruct (Z.eqb_spec unique 0); [lia|]. cbn [reject_if]. run_bind.
  rewrite (ResolveEntityKindCategory_complete _ _ _ Hok Hl). run_bind. by rewrite Z.eqb_refl.
Qed.

(** ** Properties *)

(** An identifier built from a registered kind and a unique number is positive,
    decodes to exactly these fields, its category and the kind's remote
    capability, and is its own normal form. *)
Theorem BuildEntityID_roundtrip reg unique kind id :
  registry_ok reg -> - 2 ^ 63 <= unique < 2 ^ 63 -> BuildEntityID reg unique kind = Ok id ->
  0 < id < 2 ^ 63
  /\ GetUniqueIDFromEntityID id = unique /\ GetEntityKindFromID id = kind
  /\ ResolveEntityKindCategory reg kind = Ok (GetEntityCategoryFromID id)
  /\ GetEntityRemoteFromID id = IsEntityKindRemoteCapable reg kind
  /\ NormalizeFullID reg id kind = Ok id /\ NormalizeFullID reg id EntityKindNone = Ok id.
Proof.
  intros Hok Hu Hb. apply BuildEntityID_iff in Hb as (Hr & category & Hl & ->); [|done..].
  destruct (Hok _ _ Hl) as [Hk Hc].
  rewrite layout_unique, layout_kind, layout_category, layout_remote by lia.
  rewrite !(NormalizeFullID_layout reg _ unique kind category) by auto. rewrite orb_diag.
  split_and!; try done.
  - unfold layout. destruct (capable reg kind); lia.
  - apply layout_range; lia.
  - by apply ResolveEntityKindCategory_complete.
  - apply capable_kind. lia.
Qed.

(** Different unique numbers or kinds never share an identifier, in one
    registry or across two registries that agree on nothing else. *)
Theorem BuildEntityID_injective reg reg' unique kind unique' kind' id :
  registry_ok reg -> registry_ok reg' ->
  - 2 ^ 63 <= unique < 2 ^ 63 -> - 2 ^ 63 <= unique' < 2 ^ 63 ->
  BuildEntityID reg unique kind = Ok id -> BuildEntityID reg' unique' kind' = Ok id ->
  unique = unique' /\ kind = kind'.
Proof.
  intros Hok Hok' Hu Hu' Hb Hb'. apply BuildEntityID_iff in Hb as (Hr & c & Hl & E); [|done..].
  apply BuildEntityID_iff in Hb' as (Hr' & c' & Hl' & E'); [|done..].
  destruct (Hok _ _ Hl) as [Hk Hc]. destruct (Hok' _ _ Hl') as [Hk' Hc'].
  pose proof (layout_unique (capable reg kind) unique kind c) as A1.
  pose proof (layout_unique (capable reg' kind') unique' kind' c') as A2.
  pose proof (layout_kind (capable reg kind) unique kind c) as B1.
  pose proof (layout_kind (capable reg' kind') unique' kind' c') as B2.
  rewrite <-E in A1, B1. rewrite <-E' in A2, B2.
  split; [rewrite <-A1, <-A2 by lia|rewrite <-B1, <-B2 by lia]; done.
Qed.

Lemma clearRemote_layout remote unique kind category :
  0 <= unique < 2 ^ 52 -> 0 <= kind < 2 ^ 8 -> 0 <= category < 2 ^ 2 ->
  clearRemoteCapableBit (layout remote unique kind category) = layout false unique kind category.
Proof.
  intros Hu Hk Hc. unfold clearRemoteCapableBit. rewrite layout_u64 by done.
  pose proof (layout_false_range _ _ _ Hu Hk Hc) as Hr.
  pose proof (layout_range remote _ _ _ Hu Hk Hc) as Hr'.
  change (Z.shiftl EntityRemoteMask EntityRemoteShift) with (Z.shiftl 1 62).
  assert (E : Z.ldiff (layout remote unique kind category) (Z.shiftl 1 62)
              = layout remote unique kind category mod 2 ^ 62).
  { apply Z.bits_inj'. intros i Hi. rewrite Z.ldiff_spec.
    rewrite Z.shiftl_1_l, Z.pow2_bits_eqb by done.
    destruct (Z.ltb_spec i 62); [rewrite Z.mod_pow2_bits_low by done|rewrite Z.mod_pow2_bits_high by lia].
    - destruct (Z.eqb_spec 62 i); [lia|]. by rewrite andb_true_r.
    - destruct (Z.eqb_spec 62 i); [by rewrite andb_false_r|].
      rewrite <-(Z.mod_small (layout remote unique kind category) (2 ^ 63)) by done.
      by rewrite Z.mod_pow2_bits_high by lia. }
  rewrite E, layout_split.
  assert (E2 : ((if remote then 2 ^ 62 else 0) + layout false unique kind category) mod 2 ^ 62
               = layout false unique kind category).
  { destruct remote; [|by apply Z.mod_small]. Z.to_euclidean_division_equations. lia. }
  rewrite E2. apply wrapi64_small. lia.
Qed.

(** What [NormalizeFullID] accepts among nonnegative identifiers: the built
    ones, with or without the remote bit; the result is the built identifier,
    with the remote bit if the input carried it, and is a fixed point. *)
Theorem NormalizeFullID_exact reg id want id' :
  registry_ok reg -> 0 <= id < 2 ^ 63 ->
  NormalizeFullID reg id want = Ok id' <->
  exists unique kind built,
    BuildEntityID reg unique kind = Ok built /\ 0 < unique < 2 ^ 52
    /\ (want = EntityKindNone \/ want = kind)
    /\ (id = built \/ id = setRemoteCapableBit built \/ id = clearRemoteCapableBit built)
    /\ id' = (if GetEntityRemoteFromID id then setRemoteCapableBit built else built).
Proof.
  intros Hok Hid. split.
  - intros Hn. destruct (layout_of_id id Hid) as (E & Hu & Hk & Hc).
    set (u := GetUniqueIDFromEntityID id) in *. set (k := GetEntityKindFromID id) in *.
    set (c := GetEntityCategoryFromID id) in *. set (r := GetEntityRemoteFromID id) in *.
    unfold NormalizeFullID in Hn. destruct (id =? 0); [done|].
    rewrite E, ResolveEntityID_layout in Hn by done. cbn [em_Kind em_Category em_UniqueID em_FullID] in Hn.
    unfold EntityKindNone, EntityCategoryNone in *.
    apply reject_bind in Hn as [Hw Hn]. apply reject_bind in Hn as [Hc0 Hn].
    apply reject_bind in Hn as [Hk0 Hn]. apply reject_bind in Hn as [Hu0 Hn].
    apply bind_ok in Hn as (category & Hcat & Hn). apply reject_bind in Hn as [Heq [= <-]].
    apply ResolveEntityKindCategory_ok in Hcat as (Hl & _ & _); [|done]. bool_to_prop. subst category.
    exists u, k, (layout (capable reg k) u k c).
    rewrite setRemote_layout, clearRemote_layout by done. split_and!; try lia.
    + apply BuildEntityID_iff; [done|lia|]. split; [lia|]. by exists c.
    + rewrite E. destruct (capable reg k), r; auto.
    + destruct (capable reg k), r; auto.
  - intros (u & k & built & Hb & Hu & Hw & Hcase & ->).
    apply BuildEntityID_iff in Hb as (_ & c & Hl & ->); [|done|lia].
    destruct (Hok _ _ Hl) as [Hk Hc]. rewrite setRemote_layout, clearRemote_layout in * by lia.
    assert (Hr : exists r, id = layout r u k c) by (destruct Hcase as [->|[->| ->]]; eauto).
    destruct Hr as [r ->]. rewrite layout_remote, NormalizeFullID_layout by (done || lia).
    by destruct r, (capable reg k).
Qed.

(** Registering more kinds never changes the category of a registered kind, so
    every identifier that was valid stays valid. *)
Theorem RegisterEntityKindDefs_stable reg defs unique kind id :
  registry_ok reg -> Forall uint8_def defs -> - 2 ^ 63 <= unique < 2 ^ 63 ->
  BuildEntityID reg unique kind = Ok id ->
  registry_ok (RegisterEntityKindDefs reg defs).1
  /\ MatchEntityID (RegisterEntityKindDefs reg defs).1 id kind = true
  /\ exists id', BuildEntityID (RegisterEntityKindDefs reg defs).1 unique kind = Ok id'
     /\ clearRemoteCapableBit id' = clearRemoteCapableBit id.
Proof.
  intros Hok Hd Hu Hb. destruct (RegisterEntityKindDefs_preserves reg defs Hok Hd) as [Hok' Hs].
  apply BuildEntityID_iff in Hb as (Hr & c & Hl & ->); [|done..]. destruct (Hok _ _ Hl) as [Hk Hc].
  assert (Hl' := lookup_weaken _ _ _ _ Hl Hs). split; [done|]. split.
  - unfold MatchEntityID. by rewrite (NormalizeFullID_layout _ _ unique kind c) by auto.
  - exists (layout (capable (RegisterEntityKindDefs reg defs).1 kind) unique kind c).
    rewrite !clearRemote_layout by lia. split; [|done]. apply BuildEntityID_iff; [done..|]. split; [done|]. by exists c.
Qed.

(** ** Examples *)

Definition sample_registry : Registry :=
  (RegisterEntityKindDefs ResetEntityRegistry
     [mkKindDef 7 1 RemotePolicyNone; mkKindDef 9 2 RemotePolicyManaged]).1.

Lemma sample_registry_ok : registry_ok sample_registry.
Proof. apply RegisterEntityKindDefs_preserves; [apply map_Forall_empty|]. repeat constructor; cbn; lia. Qed.

Lemma BuildEntityID_roundtrip_witness :
  exists id, BuildEntityID sample_registry 12345 9 = Ok id
    /\ GetUniqueIDFromEntityID id = 12345 /\ GetEntityRemoteFromID id = true.
Proof.
  eexists. split; [vm_compute; reflexivity|].
  destruct (BuildEntityID_roundtrip sample_registry 12345 9 _ sample_registry_ok ltac:(lia)
              ltac:(vm_compute; reflexivity)) as (_ & Hu & _ & _ & Hr & _).
  split; [exact Hu|]. rewrite Hr. vm_compute. reflexivity.
Defined.

Lemma BuildEntityID_injective_witness : 5 = 5 /\ 7 = 7.
Proof.
  apply (BuildEntityID_injective sample_registry sample_registry 5 7 5 7 5149); try exact sample_registry_ok;
    try lia; vm_compute; reflexivity.
Defined.

Lemma NormalizeFullID_exact_witness :
  exists id', NormalizeFullID sample_registry 5149 0 = Ok id'.
Proof.
  exists 5149. apply (NormalizeFullID_exact sample_registry 5149 0 5149 sample_registry_ok ltac:(lia)).
  exists 5, 7, 5149. vm_compute. intuition congruence.
Defined.

Lemma RegisterEntityKindDefs_stable_witness :
  MatchEntityID (RegisterEntityKindDefs sample_registry [mkKindDef 7 1 RemotePolicyMirror]).1 5149 7 = true.
Proof.
  destruct (RegisterEntityKindDefs_stable sample_registry [mkKindDef 7 1 RemotePolicyMirror] 5 7 5149)
    as (_ & Hm & _); [exact sample_registry_ok|repeat constructor; cbn; lia|lia|vm_compute; reflexivity|].
  exact Hm.
Defined.

(** The sign bit is neither rejected nor cleared: a negative number whose other
    bits form a valid identifier is accepted and returned as it is, with the
    same unique number, kind and category as the built identifier. *)
Theorem NormalizeFullID_accepts_negative :
  BuildEntityID sample_registry 5 7 = Ok 5149
  /\ NormalizeFullID sample_registry (5149 - 2 ^ 63) 7 = Ok (5149 - 2 ^ 63)
  /\ em_UniqueID (ResolveEntityID sample_registry (5149 - 2 ^ 63)) = 5
  /\ em_Category (ResolveEntityID sample_registry (5149 - 2 ^ 63)) = 1.
Proof. vm_compute. auto. Qed.
