(* ===== verification/IdGen.v ===== *)
(** * The unique-number generator

    [IDGen] of [src/entity/idgen.go]: a lock-free generator that hands out the
    numbers of blocks it acquires.  Any number of goroutines run [Generate]
    concurrently on the shared atomics [next], [end] and [rotating]; a
    transition of the model is one atomic operation of one goroutine, or its
    call of the block allocator, and a schedule is the list of transitions. *)

From stdpp Require Import base list gmap.
From Stdlib Require Import ZArith Lia.
From S2P Require Import Prelude EntityId.

Local Open Scope Z_scope.

Definition IDGenOffsetBits : Z := 20.
Definition IDGenBlockSize : Z := Z.shiftl 1 IDGenOffsetBits.
Definition MaxBlockNo : Z := Z.shiftr DynamicUniqueIDMask IDGenOffsetBits.

(** The shared state.  [ig_hasSource] tells whether an allocator is stored;
    [ig_acquired] and [ig_issued] record the blocks acquired and the numbers
    returned so far, newest first. *)
Record IDGen := mkIDGen {
  ig_next : Z;
  ig_end : Z;
  ig_rotating : bool;
  ig_hasSource : bool;
  ig_acquired : list Z;
  ig_issued : list Z
}.

(** Where a goroutine stands. *)
Inductive pc :=
| PIdle                            (* before the first load of the loop *)
| PLoadedNext (next : Z)           (* [next := g.next.Load()] done *)
| PCas (next : Z)                  (* [next < end] seen, before the swap *)
| PRotate                          (* in [rotateBlock], before the test of the source *)
| PTryLock                         (* before [rotating.CompareAndSwap(0, 1)] *)
| PAcquire                         (* holds [rotating], before [fn()] *)
| PStoreNext (blockNo : Z)         (* in [resetBlock], before [next.Store] *)
| PStoreEnd (blockNo : Z)          (* before [end.Store] *)
| PUnlock (answer : ires unit)     (* before the deferred [rotating.Store(0)] *)
| PSpin                            (* [for g.rotating.Load() != 0] *)
| PDone (id : Z)
| PFailed (e : idError).

Definition blockStart (blockNo : Z) : Z :=
  if blockNo =? 0 then 1 else u64! (Z.shiftl blockNo IDGenOffsetBits).

Definition blockEnd (blockNo : Z) : Z :=
  u64! (u64! (Z.shiftl blockNo IDGenOffsetBits) + IDGenBlockSize).

Definition set_next (g : IDGen) (v : Z) : IDGen :=
  mkIDGen v (ig_end g) (ig_rotating g) (ig_hasSource g) (ig_acquired g) (ig_issued g).
Definition set_end (g : IDGen) (v : Z) : IDGen :=
  mkIDGen (ig_next g) v (ig_rotating g) (ig_hasSource g) (ig_acquired g) (ig_issued g).
Definition set_rotating (g : IDGen) (b : bool) : IDGen :=
  mkIDGen (ig_next g) (ig_end g) b (ig_hasSource g) (ig_acquired g) (ig_issued g).

(** [resetBlock], as the constructor runs it. *)
Definition resetBlock (g : IDGen) (blockNo : Z) : IDGen :=
  set_end (set_next g (blockStart blockNo)) (blockEnd blockNo).

Definition NewIDGen (initialBlock : Z) (hasSource : bool) : ires IDGen :=
  if MaxBlockNo <? initialBlock then Err ErrInvalidBlockNo else
  Ok (resetBlock (mkIDGen 0 0 false hasSource [initialBlock] []) initialBlock).

(** One atomic operation of a goroutine.  [answer] is what the allocator
    answers if this operation is its call. *)
Definition Generate_step (g : IDGen) (p : pc) (answer : ires Z) : IDGen * pc :=
  match p with
  | PIdle => (g, PLoadedNext (ig_next g))
  | PLoadedNext next => (g, if next <? ig_end g then PCas next else PRotate)
  | PCas next =>
      if ig_next g =? next then
        (mkIDGen (u64! (next + 1)) (ig_end g) (ig_rotating g) (ig_hasSource g) (ig_acquired g)
           (next :: ig_issued g), PDone next)
      else (g, PIdle)
  | PRotate => (g, if ig_hasSource g then PTryLock else PFailed ErrBlockExhausted)
  | PTryLock => if ig_rotating g then (g, PSpin) else (set_rotating g true, PAcquire)
  | PAcquire =>
      match answer with
      | Err e => (g, PUnlock (Err e))
      | Ok blockNo =>
          if MaxBlockNo <? blockNo then (g, PUnlock (Err ErrInvalidBlockNo))
          else (mkIDGen (ig_next g) (ig_end g) (ig_rotating g) (ig_hasSource g)
                  (blockNo :: ig_acquired g) (ig_issued g), PStoreNext blockNo)
      end
  | PStoreNext blockNo => (set_next g (blockStart blockNo), PStoreEnd blockNo)
  | PStoreEnd blockNo => (set_end g (blockEnd blockNo), PUnlock (Ok tt))
  | PUnlock (Ok _) => (set_rotating g false, PIdle)
  | PUnlock (Err e) => (set_rotating g false, PFailed e)
  | PSpin => (g, if ig_rotating g then PSpin else PIdle)
  | PDone _ | PFailed _ => (g, PIdle) (* the goroutine calls [Generate] again *)
  end.

(** All goroutines; one that has not started yet is idle. *)
Record world := mkWorld {
  w_gen : IDGen;
  w_threads : gmap nat pc
}.

Definition pc_of (w : world) (t : nat) : pc := default PIdle (w_threads w !! t).

(** A schedule entry: the goroutine that moves, and the allocator's answer. *)
Definition world_step (w : world) (move : nat * ires Z) : world :=
  let '(t, answer) := move in
  let '(g, p) := Generate_step (w_gen w) (pc_of w t) answer in
  mkWorld g (<[t := p]> (w_threads w)).

Definition world_run (w : world) (schedule : list (nat * ires Z)) : world :=
  foldl world_step w schedule.


(** ** Blocks *)

Definition valid_block (b : Z) : Prop := 0 <= b <= MaxBlockNo.

Lemma blockStart_eq b : valid_block b -> blockStart b = if b =? 0 then 1 else b * 2 ^ 20.
Proof.
  intros [Hb Hm]. change MaxBlockNo with (2 ^ 31 - 1) in Hm. unfold blockStart, IDGenOffsetBits.
  destruct (b =? 0); [done|]. rewrite Z.shiftl_mul_pow2 by done. apply wrapu_small. unfold in_u. lia.
Qed.

Lemma blockEnd_eq b : valid_block b -> blockEnd b = (b + 1) * 2 ^ 20.
Proof.
  intros [Hb Hm]. change MaxBlockNo with (2 ^ 31 - 1) in Hm. unfold blockEnd, IDGenBlockSize, IDGenOffsetBits.
  rewrite !Z.shiftl_mul_pow2 by done. rewrite (wrapu_small 64 (b * 2 ^ 20)) by (unfold in_u; lia).
  rewrite wrapu_small by (unfold in_u; lia). lia.
Qed.

Lemma block_nonempty b : valid_block b -> 0 < blockStart b < blockEnd b.
Proof.
  intros Hb. rewrite blockStart_eq, blockEnd_eq by done. destruct Hb as [Hb _].
  destruct (Z.eqb_spec b 0); lia.
Qed.


(** ** Schedules *)

(** The allocator hands out increasing block numbers. *)
Fixpoint allocates_upwards (w : world) (schedule : list (nat * ires Z)) : Prop :=
  match schedule with
  | [] => True
  | (t, answer) :: rest =>
      (pc_of w t = PAcquire -> forall b, answer = Ok b ->
         0 <= b /\ Forall (fun a => a < b) (ig_acquired (w_gen w)))
      /\ allocates_upwards (world_step w (t, answer)) rest
  end.

Definition critical (p : pc) : bool :=
  match p with PAcquire | PStoreNext _ | PStoreEnd _ | PUnlock _ => true | _ => false end.




Lemma pc_of_step g w t p t' :
  pc_of (mkWorld g (<[t := p]> (w_threads w))) t' = if decide (t' = t) then p else pc_of w t'.
Proof.
  unfold pc_of. cbn. case_decide; [subst; by rewrite lookup_insert_eq|by rewrite lookup_insert_ne].
Qed.












(** A goroutine that runs alone. *)
Fixpoint lone (n : nat) (g : IDGen) (p : pc) (answer : ires Z) : IDGen * pc :=
  match n with
  | O => (g, p)
  | S n' => let '(g', p') := Generate_step g p answer in lone n' g' p' answer
  end.

Lemma lone_run n w t answer :
  pc_of (world_run w (replicate n (t, answer))) t = (lone n (w_gen w) (pc_of w t) answer).2.
Proof.
  revert w. induction n as [|n IH]; intros w; [done|]. cbn [replicate world_run foldl lone].
  fold (world_run (world_step w (t, answer)) (replicate n (t, answer))). rewrite IH. unfold world_step.
  destruct (Generate_step (w_gen w) (pc_of w t) answer) as [g' p']. cbn [w_gen].
  rewrite pc_of_step. by case_decide.
Qed.

Definition finished (p : pc) : Prop := (exists id, p = PDone id) \/ exists e, p = PFailed e.

(** With numbers left, three operations. *)
Lemma lone_available g answer : ig_next g < ig_end g -> finished (lone 3 g PIdle answer).2.
Proof.
  intros Hlt. cbn [lone Generate_step]. rewrite (proj2 (Z.ltb_lt _ _) Hlt).
  cbn [Generate_step]. rewrite Z.eqb_refl. left. by eexists.
Qed.

(** From the start of the loop, with no rotation in progress, eleven. *)
Lemma lone_idle g answer :
  ig_rotating g = false -> (forall b, answer = Ok b -> 0 <= b) ->
  exists n, (n <= 11)%nat /\ finished (lone n g PIdle answer).2.
Proof.
  intros Hrot Hans. destruct (Z.ltb_spec (ig_next g) (ig_end g)) as [Hlt|Hge].
  { exists 3%nat. split; [lia|]. by apply lone_available. }
  apply Z.ltb_ge in Hge.
  destruct (ig_hasSource g) eqn:Hsrc.
  2:{ exists 3%nat. split; [lia|]. cbn [lone Generate_step]. rewrite Hge. cbn [Generate_step].
      rewrite Hsrc. right. by eexists. }
  destruct answer as [b|e].
  2:{ exists 6%nat. split; [lia|]. cbn [lone Generate_step]. rewrite Hge. cbn [Generate_step].
      rewrite Hsrc. cbn [Generate_step]. rewrite Hrot. cbn [Generate_step]. right. by eexists. }
  specialize (Hans b eq_refl). destruct (Z.ltb_spec MaxBlockNo b) as [Hbig|Hok].
  { exists 6%nat. split; [lia|]. cbn [lone Generate_step]. rewrite Hge. cbn [Generate_step].
    rewrite Hsrc. cbn [Generate_step]. rewrite Hrot. cbn [Generate_step].
    rewrite (proj2 (Z.ltb_lt _ _) Hbig). right. by eexists. }
  exists 11%nat. split; [lia|]. change 11%nat with (8 + 3)%nat.
  cbn [lone Nat.add Generate_step]. rewrite Hge. cbn [Generate_step]. rewrite Hsrc.
  cbn [Generate_step]. rewrite Hrot. cbn [Generate_step]. rewrite (proj2 (Z.ltb_ge _ _) Hok).
  apply (lone_available _ (Ok b)). apply block_nonempty. done.
Qed.

(** The lock is held only while some goroutine is in the critical section. *)
Definition rotating_inv (w : world) : Prop :=
  ig_rotating (w_gen w) = true -> exists t, critical (pc_of w t) = true.

Lemma rotating_step w t answer : rotating_inv w -> rotating_inv (world_step w (t, answer)).
Proof.
  intros Hr. unfold world_step. destruct (Generate_step (w_gen w) (pc_of w t) answer) as [g p] eqn:E.
  assert (Hcases : ig_rotating g = true -> critical p = true \/ (ig_rotating (w_gen w) = true /\ critical (pc_of w t) = false)).
  { unfold Generate_step in E. destruct (pc_of w t); cbn; repeat case_match; simplify_eq; cbn; naive_solver. }
  intros Hg. destruct (Hcases Hg) as [Hp|[Hw Hp]].
  - exists t. rewrite pc_of_step. by rewrite decide_True.
  - destruct (Hr Hw) as [t' Ht']. exists t'. rewrite pc_of_step. case_decide as Ht; [congruence|done].
Qed.

Lemma rotating_run schedule w : rotating_inv w -> rotating_inv (world_run w schedule).
Proof.
  revert w. induction schedule as [|[t answer] schedule IH]; intros w Hr; [done|]. cbn. by apply IH, rotating_step.
Qed.

(** A few operations bring a goroutine back to the start of the loop, or further. *)
Lemma lone_return g p answer :
  (ig_rotating g = true -> critical p = true) -> (forall b, answer = Ok b -> 0 <= b) ->
  exists n, (n <= 14)%nat /\ finished (lone n g p answer).2.
Proof.
  intros Hrot Hans.
  assert (Hback : forall k g', (k <= 3)%nat -> lone k g p answer = (g', PIdle) -> ig_rotating g' = false ->
    exists n, (n <= 14)%nat /\ finished (lone n g p answer).2).
  { intros k g' Hk Hl Hr'. destruct (lone_idle g' answer Hr' Hans) as (n & Hn & Hf). exists (k + n)%nat. split; [lia|].
    assert (Hadd : forall k g p, lone (k + n) g p answer = lone n (lone k g p answer).1 (lone k g p answer).2 answer).
    { clear. induction k as [|k IH]; intros g p; [done|]. cbn [Nat.add lone].
      destruct (Generate_step g p answer) as [g1 p1]. apply IH. }
    by rewrite Hadd, Hl. }
  assert (Hloop : forall k g' b, (k <= 3)%nat -> lone k g p answer = (g', PIdle) -> ig_rotating g' = b ->
    (b = true -> False) -> exists n, (n <= 14)%nat /\ finished (lone n g p answer).2).
  { intros k g' b Hk Hl Hr' Hb. apply (Hback k g' Hk Hl). destruct b; [by destruct Hb|done]. }
  assert (Hfree : critical p = false -> ig_rotating g = false).
  { intros Hc. destruct (ig_rotating g); [|done]. rewrite Hrot in Hc; done. }
  assert (Hacquire : forall g', ig_rotating g' = true -> exists n, (n <= 8)%nat /\ finished (lone n g' PAcquire answer).2).
  { intros g' _. destruct answer as [b|e]; [|exists 2%nat; split; [lia|]; right; by eexists].
    destruct (Z.ltb_spec MaxBlockNo b) as [Hbig|Hok].
    - exists 2%nat. split; [lia|]. cbn [lone Generate_step]. rewrite (proj2 (Z.ltb_lt _ _) Hbig). right. by eexists.
    - exists 7%nat. split; [lia|]. change 7%nat with (4 + 3)%nat. cbn [lone Nat.add Generate_step].
      rewrite (proj2 (Z.ltb_ge _ _) Hok). apply (lone_available _ (Ok b)), block_nonempty. split; [by apply Hans|done]. }
  assert (Hlocked : ig_rotating g = false -> exists n, (n <= 9)%nat /\ finished (lone n g PTryLock answer).2).
  { intros Hf. destruct (Hacquire (set_rotating g true) eq_refl) as (n & Hn & Hfin). exists (S n). split; [lia|].
    cbn [lone Generate_step]. by rewrite Hf. }
  assert (Hrotate : ig_rotating g = false -> exists n, (n <= 10)%nat /\ finished (lone n g PRotate answer).2).
  { intros Hf. destruct (ig_hasSource g) eqn:Hsrc.
    - destruct (Hlocked Hf) as (n & Hn & Hfin). exists (S n). split; [lia|]. cbn [lone Generate_step]. by rewrite Hsrc.
    - exists 1%nat. split; [lia|]. cbn [lone Generate_step]. rewrite Hsrc. right. by eexists. }
  assert (Hcas : forall next, ig_rotating g = false -> exists n, (n <= 12)%nat /\ finished (lone n g (PCas next) answer).2).
  { intros next Hf. destruct (Z.eqb_spec (ig_next g) next) as [Hx|Hx].
    - exists 1%nat. split; [lia|]. cbn [lone Generate_step]. rewrite (proj2 (Z.eqb_eq _ _) Hx). left. by eexists.
    - destruct (lone_idle g answer Hf Hans) as (n & Hn & Hfin). exists (S n). split; [lia|]. cbn [lone Generate_step].
      by rewrite (proj2 (Z.eqb_neq _ _) Hx). }
  destruct p as [|next|next| | | |b|b|[[]|e]| |id|e]; cbn [critical] in Hfree, Hrot.
  - apply (Hback 0%nat g); [lia|done|auto].
  - destruct (Z.ltb_spec next (ig_end g)) as [Hlt|Hge].
    + destruct (Hcas next (Hfree eq_refl)) as (n & Hn & Hfin). exists (S n). split; [lia|]. cbn [lone Generate_step].
      by rewrite (proj2 (Z.ltb_lt _ _) Hlt).
    + destruct (Hrotate (Hfree eq_refl)) as (n & Hn & Hfin). exists (S n). split; [lia|]. cbn [lone Generate_step].
      by rewrite (proj2 (Z.ltb_ge _ _) Hge).
  - destruct (Hcas next (Hfree eq_refl)) as (n & Hn & Hfin). exists n. split; [lia|done].
  - destruct (Hrotate (Hfree eq_refl)) as (n & Hn & Hfin). exists n. split; [lia|done].
  - destruct (Hlocked (Hfree eq_refl)) as (n & Hn & Hfin). exists n. split; [lia|done].
  - destruct (ig_rotating g) eqn:Hg.
    + destruct (Hacquire g Hg) as (n & Hn & Hfin). exists n. split; [lia|done].
    + destruct answer as [b|e]; [|exists 2%nat; split; [lia|]; right; by eexists].
      destruct (Z.ltb_spec MaxBlockNo b) as [Hbig|Hok].
      * exists 2%nat. split; [lia|]. cbn [lone Generate_step]. rewrite (proj2 (Z.ltb_lt _ _) Hbig). right. by eexists.
      * exists 7%nat. split; [lia|]. change 7%nat with (4 + 3)%nat. cbn [lone Nat.add Generate_step].
        rewrite (proj2 (Z.ltb_ge _ _) Hok). apply (lone_available _ (Ok b)), block_nonempty. split; [by apply Hans|done].
  - by apply (Hback 3%nat (set_rotating (set_end (set_next g (blockStart b)) (blockEnd b)) false)); [lia|..].
  - by apply (Hback 2%nat (set_rotating (set_end g (blockEnd b)) false)); [lia|..].
  - by apply (Hback 1%nat (set_rotating g false)); [lia|..].
  - exists 1%nat. split; [lia|]. right. by eexists.
  - apply (Hback 1%nat g); [lia| |auto]. cbn [lone Generate_step]. by rewrite Hfree.
  - exists 0%nat. split; [lia|]. left. by eexists.
  - exists 0%nat. split; [lia|]. right. by eexists.
Qed.

(** C35. The generator is never left locked: after any schedule of any number of
    goroutines, if no other goroutine is inside the critical section of
    [rotateBlock], a goroutine, wherever it stands in [Generate], returns (a
    number or an error) within fourteen operations of its own, whatever the
    allocator answers. *)
Theorem IDGen_lone_progress initialBlock hasSource g schedule t answer :
  NewIDGen initialBlock hasSource = Ok g ->
  let w := world_run (mkWorld g ∅) schedule in
  (forall t', t' <> t -> critical (pc_of w t') = false) -> (forall b, answer = Ok b -> 0 <= b) ->
  exists n, (n <= 14)%nat /\ finished (pc_of (world_run w (replicate n (t, answer))) t).
Proof.
  intros Hg w Halone Hans. setoid_rewrite lone_run. apply lone_return; [|done]. intros Hr.
  assert (Hi : rotating_inv (mkWorld g ∅)).
  { unfold NewIDGen in Hg. destruct (MaxBlockNo <? initialBlock); [done|]. injection Hg as <-. done. }
  destruct (rotating_run schedule _ Hi Hr) as [t' Ht']. fold w in Ht'.
  destruct (decide (t' = t)) as [->|Hne]; [done|]. by rewrite (Halone t' Hne) in Ht'.
Qed.

(** ** Examples *)

(** A goroutine that runs alone takes the numbers one after the other, four
    operations each, and never gets to the allocator while there are any. *)
Lemma lone_numbers k : forall w t answer,
  pc_of w t = PIdle -> 0 <= ig_next (w_gen w) -> ig_next (w_gen w) + Z.of_nat k <= ig_end (w_gen w) < 2 ^ 64 ->
  let w' := world_run w (replicate (k * 4) (t, answer)) in
  allocates_upwards w (replicate (k * 4) (t, answer)) /\ pc_of w' t = PIdle
  /\ (forall t', t' <> t -> pc_of w' t' = pc_of w t')
  /\ exists issued, w_gen w' = mkIDGen (ig_next (w_gen w) + Z.of_nat k) (ig_end (w_gen w)) (ig_rotating (w_gen w))
       (ig_hasSource (w_gen w)) (ig_acquired (w_gen w)) issued.
Proof.
  induction k as [|k IH]; intros w t answer Hpc H0 Hend.
  { cbn. split_and!; [done|done|done|]. exists (ig_issued (w_gen w)). rewrite Z.add_0_r. by destruct (w_gen w). }
  cbn zeta. set (g := w_gen w) in *.
  set (w1 := mkWorld g (<[t := PLoadedNext (ig_next g)]> (w_threads w))).
  set (w2 := mkWorld g (<[t := PCas (ig_next g)]> (w_threads w1))).
  set (g3 := mkIDGen (u64! (ig_next g + 1)) (ig_end g) (ig_rotating g) (ig_hasSource g) (ig_acquired g)
               (ig_next g :: ig_issued g)).
  set (w3 := mkWorld g3 (<[t := PDone (ig_next g)]> (w_threads w2))).
  set (w4 := mkWorld g3 (<[t := PIdle]> (w_threads w3))).
  assert (P1 : pc_of w1 t = PLoadedNext (ig_next g)) by (unfold w1; rewrite pc_of_step; by rewrite decide_True).
  assert (P2 : pc_of w2 t = PCas (ig_next g)) by (unfold w2; rewrite pc_of_step; by rewrite decide_True).
  assert (P3 : pc_of w3 t = PDone (ig_next g)) by (unfold w3; rewrite pc_of_step; by rewrite decide_True).
  assert (P4 : pc_of w4 t = PIdle) by (unfold w4; rewrite pc_of_step; by rewrite decide_True).
  assert (S1 : world_step w (t, answer) = w1) by (cbn [world_step]; by rewrite Hpc).
  assert (S2 : world_step w1 (t, answer) = w2).
  { cbn [world_step]. rewrite P1. cbn [Generate_step w1 w_gen]. by rewrite (proj2 (Z.ltb_lt _ _)) by lia. }
  assert (S3 : world_step w2 (t, answer) = w3).
  { cbn [world_step]. rewrite P2. cbn [Generate_step w2 w_gen]. by rewrite Z.eqb_refl. }
  assert (S4 : world_step w3 (t, answer) = w4) by (cbn [world_step]; by rewrite P3).
  assert (Hg : ig_next g3 = ig_next g + 1) by (cbn; apply wrapu_small; unfold in_u; lia).
  destruct (IH w4 t answer P4) as (A & B & C & issued & D); [cbn [w4 w_gen]; lia|cbn [w4 w_gen]; rewrite Hg; cbn; lia|].
  cbn [Nat.mul Nat.add replicate world_run foldl allocates_upwards]. fold (world_run w4 (replicate (k * 4) (t, answer))).
  rewrite S1, S2, S3, S4, Hpc, P1, P2, P3. split_and!; try done.
  - intros t' Hne. rewrite C by done. unfold w4, w3, w2, w1. by rewrite !pc_of_step, !decide_False.
  - exists issued. unfold world_run in D. rewrite D. cbn [w4 w_gen]. rewrite Hg. cbn. f_equal. lia.
Qed.

Definition fresh_gen : IDGen :=
  match NewIDGen 0 true with Ok g => g | Err _ => mkIDGen 0 0 false true [] [] end.

(** Goroutine 0 uses up block 0; then both goroutines find it exhausted, goroutine
    1 gets the lock and the block 3, and both take a number of it. *)
Definition whole_block : list (nat * ires Z) := replicate (Z.to_nat (2 ^ 20 - 1) * 4) (0%nat, Ok 3).

Definition next_block : list (nat * ires Z) :=
  (fun t => (t, Ok 3)) <$> [0; 1; 0; 1; 0; 1; 1; 0; 0; 1; 1; 1; 1; 0; 0; 1; 0; 1; 0; 1; 1; 1; 1]%nat.

Lemma block_run k answer :
  Z.of_nat k = 2 ^ 20 - 1 ->
  allocates_upwards (mkWorld fresh_gen ∅) (replicate (k * 4) (0%nat, answer))
  /\ exists issued threads, (forall t, default PIdle (threads !! t) = PIdle)
     /\ world_run (mkWorld fresh_gen ∅) (replicate (k * 4) (0%nat, answer))
        = mkWorld (mkIDGen (2 ^ 20) (2 ^ 20) false true [0] issued) threads.
Proof.
  intros Hk. destruct (lone_numbers k (mkWorld fresh_gen ∅) 0 answer) as (A & B & C & issued & D).
  { unfold pc_of. cbn [w_threads]. by rewrite lookup_empty. }
  { vm_compute. discriminate. }
  { cbn [w_gen]. change (ig_next fresh_gen) with 1. change (ig_end fresh_gen) with 1048576. lia. }
  split; [exact A|]. exists issued.
  destruct (world_run (mkWorld fresh_gen ∅) (replicate (k * 4) (0%nat, answer))) as [g threads].
  exists threads. split.
  - intros t. destruct (decide (t = 0%nat)) as [->|Hne]; [exact B|]. specialize (C t Hne). unfold pc_of in C.
    cbn [w_threads] in C. rewrite lookup_empty in C. exact C.
  - cbn [w_gen] in D. rewrite D. f_equal. f_equal. change (ig_next fresh_gen) with 1. lia.
Qed.


(** Only where the goroutines stand matters. *)
Lemma run_ext schedule : forall w w',
  w_gen w = w_gen w' -> (forall t, pc_of w t = pc_of w' t) ->
  w_gen (world_run w schedule) = w_gen (world_run w' schedule)
  /\ (allocates_upwards w' schedule -> allocates_upwards w schedule)
  /\ (forall t, pc_of (world_run w schedule) t = pc_of (world_run w' schedule) t).
Proof.
  induction schedule as [|[t a] schedule IH]; intros w w' Hg Hp; [done|].
  cbn [world_run foldl allocates_upwards]. unfold world_run in IH.
  destruct (IH (world_step w (t, a)) (world_step w' (t, a))) as (A & B & C).
  - unfold world_step. rewrite Hg, Hp. by destruct (Generate_step _ _ _).
  - unfold world_step. rewrite Hg, Hp. destruct (Generate_step _ _ _) as [g p]. intros t'. rewrite !pc_of_step.
    by case_decide.
  - split; [exact A|]. split; [|exact C]. rewrite Hg, Hp. intros [H1 H2]. split; [exact H1|by apply B].
Qed.

(** A goroutine stands still while others move. *)
Lemma run_others schedule : forall w t, t ∉ schedule.*1 -> pc_of (world_run w schedule) t = pc_of w t.
Proof.
  induction schedule as [|[t0 a] schedule IH]; intros w t Ht; [done|]. cbn in Ht. apply not_elem_of_cons in Ht as [Hne Ht].
  cbn [world_run foldl]. unfold world_run in IH. rewrite IH by done. unfold world_step.
  destruct (Generate_step _ _ _) as [g p]. rewrite pc_of_step. by rewrite decide_False.
Qed.

Lemma pc_of_empty g t : pc_of (mkWorld g ∅) t = PIdle.
Proof. unfold pc_of. cbn [w_threads]. by rewrite lookup_empty. Qed.



(** Goroutine 1 has left the critical section when the next block has been taken. *)
Lemma next_block_taken issued threads t :
  (forall t, default PIdle (threads !! t) = PIdle) -> t <> 0%nat ->
  critical (pc_of (world_run (mkWorld (mkIDGen (2 ^ 20) (2 ^ 20) false true [0] issued) threads)
                        (take 13 next_block)) t) = false.
Proof.
  intros Hidle Hne. set (w := mkWorld (mkIDGen (2 ^ 20) (2 ^ 20) false true [0] issued) ∅).
  destruct (run_ext (take 13 next_block) (mkWorld (mkIDGen (2 ^ 20) (2 ^ 20) false true [0] issued) threads) w
    eq_refl) as (_ & _ & ->).
  { intros t'. unfold w. rewrite pc_of_empty. apply Hidle. }
  destruct (decide (t = 1%nat)) as [->|Hne1]; [vm_compute; reflexivity|].
  rewrite run_others; [unfold w; by rewrite pc_of_empty|].
  intros Hin. assert (t = 0%nat \/ t = 1%nat) as [|] by (cbn in Hin; set_solver); done.
Qed.

(** Goroutine 0 waits for the rotation of goroutine 1; that is over when goroutine
    0 goes on. *)
Lemma IDGen_lone_progress_witness :
  let w := world_run (mkWorld fresh_gen ∅) (whole_block ++ take 13 next_block) in
  exists n, (n <= 14)%nat /\ finished (pc_of (world_run w (replicate n (0%nat, Ok 3))) 0).
Proof.
  destruct (block_run (Z.to_nat (2 ^ 20 - 1)) (Ok 3) ltac:(rewrite Z2Nat.id; lia)) as (_ & issued & threads & Hidle & E).
  fold whole_block in E.
  assert (Happ : world_run (mkWorld fresh_gen ∅) (whole_block ++ take 13 next_block)
                 = world_run (world_run (mkWorld fresh_gen ∅) whole_block) (take 13 next_block))
    by (unfold world_run; apply foldl_app).
  apply (IDGen_lone_progress 0 true fresh_gen (whole_block ++ take 13 next_block) 0 (Ok 3)).
  - vm_compute. reflexivity.
  - cbv zeta. intros t Hne. rewrite Happ, E. exact (next_block_taken issued threads t Hidle Hne).
  - intros b Hb. injection Hb as <-. lia.
Defined.
