(* ===== verification/TopoSort.v ===== *)
(** * Dependency orders

    The queue-based topological sort (Kahn) that three places of the program
    write out: the loader of checkpoints ([src/checkpoint/loader.go], [Loader.v]),
    the component order of entities ([src/entity/comp_sort.go]) and its generic
    copy ([src/misc/topologic_sort.go], both in [CompSort.v]).  The loader keeps its
    in-degrees in a slice and the others in a map: the loop is written once
    against the interface [DegreeTable]. *)

From stdpp Require Import base list gmap sorting relations.
From Stdlib Require Import ZArith Lia.
From S2P Require Import Prelude.

Local Open Scope Z_scope.

(** ** Interface: a table of in-degrees *)

Class DegreeTable (A D : Type) := {
  degree : D -> A -> Z;          (* [inDegree[x]] *)
  decrement : D -> A -> D;       (* [inDegree[x]--] *)
  present : D -> A -> Prop       (* the access does not panic *)
}.

Class DegreeTableLaws (A D : Type) `{DegreeTable A D} : Prop := {
  decrement_eq d x : present d x -> degree (decrement d x) x = degree d x - 1;
  decrement_ne d x y : x <> y -> degree (decrement d x) y = degree d y;
  decrement_present d x y : present d y -> present (decrement d x) y
}.

(** A slice indexed by the node. *)
#[export] Instance slice_degrees : DegreeTable nat (list Z) := {
  degree d i := default 0 (d !! i);
  decrement d i := alter (fun z => z - 1) i d;
  present d i := is_Some (d !! i)
}.

(** A map: a missing key reads as zero. *)
#[export] Instance map_degrees `{Countable A} : DegreeTable A (gmap A Z) := {
  degree d x := default 0 (d !! x);
  decrement d x := <[x := default 0 (d !! x) - 1]> d;
  present _ _ := True
}.

#[export] Instance slice_degrees_laws : DegreeTableLaws nat (list Z).
Proof.
  split; cbn [degree decrement present slice_degrees].
  - intros d x [z Hz]. by rewrite list_lookup_alter_eq, Hz.
  - intros d x y Hxy. by rewrite list_lookup_alter_ne.
  - intros d x y [z Hz]. destruct (decide (x = y)) as [->|Hxy].
    + rewrite list_lookup_alter_eq, Hz. by eexists.
    + rewrite list_lookup_alter_ne; [by eexists|done].
Qed.

#[export] Instance map_degrees_laws `{Countable A} : DegreeTableLaws A (gmap A Z).
Proof.
  split; cbn [degree decrement present map_degrees].
  - intros d x _. by rewrite lookup_insert_eq.
  - intros d x y Hxy. by rewrite lookup_insert_ne.
  - done.
Qed.

(** ** The loop *)
Section Loop.
Context {A D : Type} `{DegreeTable A D} (adj : A -> list A).

(** [for _, next := range adj[cur] { inDegree[next]--; if inDegree[next] == 0
    { queue = append(queue, next) } }] *)
Fixpoint visit (d : D) (queue nexts : list A) : D * list A :=
  match nexts with
  | [] => (d, queue)
  | next :: nexts =>
      let d := decrement d next in
      visit d (if degree d next =? 0 then queue ++ [next] else queue) nexts
  end.

(** [for len(queue) > 0 { ... }]: the nodes in the order they leave the queue,
    and what is left in the queue when the fuel runs out. *)
Fixpoint kahn (fuel : nat) (d : D) (queue order : list A) : list A * list A :=
  match fuel, queue with
  | O, _ | _, [] => (order, queue)
  | S fuel, cur :: queue =>
      let '(d, queue) := visit d queue (adj cur) in
      kahn fuel d queue (order ++ [cur])
  end.

End Loop.

(** ** Orders of a finite graph *)
Section Graph.
Context {A : Type} `{EqDecision A} (adj : A -> list A).

Definition count_in (x : A) (l : list A) : nat := length (filter (eq x) l).

(** The edges from nodes of [ys] into [x]. *)
Definition edges_into (ys : list A) (x : A) : nat := count_in x (ys ≫= adj).

Definition edge (nodes : list A) (y x : A) : Prop := y ∈ nodes /\ x ∈ adj y.

Definition acyclic (nodes : list A) : Prop := forall x, ~ tc (edge nodes) x x.

(** Every node of [order] comes after all nodes with an edge into it. *)
Definition topological (nodes order : list A) : Prop :=
  forall before x after, order = before ++ x :: after ->
  forall y, edge nodes y x -> y ∈ before.

Lemma count_in_app x l k : count_in x (l ++ k) = (count_in x l + count_in x k)%nat.
Proof. unfold count_in. by rewrite filter_app, length_app. Qed.

Lemma count_in_cons x y l :
  count_in x (y :: l) = ((if decide (x = y) then 1 else 0) + count_in x l)%nat.
Proof. unfold count_in. rewrite filter_cons. by case_decide. Qed.

Lemma count_in_pos x l : (0 < count_in x l)%nat <-> x ∈ l.
Proof.
  unfold count_in. split.
  - destruct (filter (eq x) l) as [|y k] eqn:E; cbn; [lia|]. intros _.
    assert (Hy : y ∈ filter (eq x) l) by (rewrite E; left).
    apply list_elem_of_filter in Hy as [-> Hy]. done.
  - intros Hx. assert (Hin : x ∈ filter (eq x) l) by (by apply list_elem_of_filter).
    destruct (filter (eq x) l); [by apply elem_of_nil in Hin|cbn; lia].
Qed.

Lemma edges_into_app ys zs x :
  edges_into (ys ++ zs) x = (edges_into ys x + edges_into zs x)%nat.
Proof. unfold edges_into. by rewrite bind_app, count_in_app. Qed.

Lemma edges_into_cons y ys x :
  edges_into (y :: ys) x = (count_in x (adj y) + edges_into ys x)%nat.
Proof. unfold edges_into. cbn. apply count_in_app. Qed.

Lemma edges_into_pos ys x : (0 < edges_into ys x)%nat <-> exists y, y ∈ ys /\ x ∈ adj y.
Proof.
  unfold edges_into. rewrite count_in_pos, list_elem_of_bind. naive_solver.
Qed.

#[export] Instance edges_into_proper : Proper ((≡ₚ) ==> eq ==> eq) edges_into.
Proof.
  intros ys zs Hp x _ <-. unfold edges_into, count_in. by rewrite Hp.
Qed.

(** A nonempty set of nodes in which every node has a predecessor contains a
    cycle: walking backwards must repeat a node. *)
Lemma backward_chain nodes rest n :
  (forall x, x ∈ rest -> exists y, y ∈ rest /\ edge nodes y x) -> rest <> [] ->
  exists l, length l = S n /\ (forall x, x ∈ l -> x ∈ rest)
    /\ StronglySorted (tc (edge nodes)) l.
Proof.
  intros Hpred Hne. induction n as [|n (l & Hlen & Hin & Hs)].
  - destruct rest as [|x rest]; [done|]. exists [x]. split_and!; [done| |].
    + intros y Hy. apply list_elem_of_singleton in Hy as ->. left.
    + by repeat constructor.
  - destruct l as [|x l]; [done|].
    destruct (Hpred x) as (y & Hy & He); [apply Hin; left|].
    exists (y :: x :: l). split_and!; [cbn in *; lia| |].
    + intros z Hz. apply elem_of_cons in Hz as [->|Hz]; [done|by apply Hin].
    + apply StronglySorted_inv in Hs as Hs'. destruct Hs' as [_ Hx].
      constructor; [done|]. constructor; [by constructor|].
      eapply Forall_impl; [exact Hx|]. intros z Hz. cbn in Hz. by econstructor.
Qed.

Lemma sorted_repeats (R : relation A) l : StronglySorted R l -> ~ NoDup l -> exists x, R x x.
Proof.
  induction 1 as [|x l _ IH Hx]; intros Hnd; [by destruct Hnd; constructor|].
  rewrite Forall_forall in Hx. destruct (decide (x ∈ l)) as [Hin|Hni]; [eauto|].
  apply IH. intros Hl. apply Hnd. by constructor.
Qed.

Lemma cycle_exists nodes rest :
  (forall x, x ∈ rest -> exists y, y ∈ rest /\ edge nodes y x) -> rest <> [] ->
  exists x, tc (edge nodes) x x.
Proof.
  intros Hpred Hne.
  destruct (backward_chain nodes rest (length rest) Hpred Hne) as (l & Hlen & Hin & Hs).
  apply (sorted_repeats _ l Hs). intros Hnd.
  assert (length l <= length rest)%nat; [|lia].
  apply submseteq_length, NoDup_submseteq; [done|]. intros x Hx. by apply Hin.
Qed.

(** A topological order of all nodes excludes cycles. *)
Lemma topological_acyclic nodes order :
  NoDup order -> (forall x, x ∈ nodes -> x ∈ order) -> topological nodes order -> acyclic nodes.
Proof.
  intros Hnd Hall Htop.
  (* the nodes before [x] contain everything that reaches [x] *)
  assert (Hreach : forall y x, tc (edge nodes) y x -> forall before after,
            order = before ++ x :: after -> y ∈ before).
  { intros y x Hyx. induction Hyx as [y x He|y z x He _ IH]; intros before after Ho.
    - by eapply Htop.
    - specialize (IH _ _ Ho). apply list_elem_of_split in IH as (b1 & b2 & ->).
      apply elem_of_app. left. eapply (Htop b1 z (b2 ++ x :: after)); [|done].
      by rewrite Ho, <-app_assoc. }
  intros x Hx. assert (Hin : x ∈ nodes).
  { by inversion Hx as [? ? [? _]|? ? ? [? _]]. }
  apply Hall, list_elem_of_split in Hin as (b & a & ->).
  specialize (Hreach _ _ Hx _ _ eq_refl). apply NoDup_app in Hnd as (_ & Hb & _).
  eapply Hb; [done|left].
Qed.

End Graph.

Lemma edges_into_ext {A} `{EqDecision A} (adj adj' : A -> list A) ys x :
  (forall y, adj y = adj' y) -> edges_into adj ys x = edges_into adj' ys x.
Proof.
  intros Hext. induction ys as [|y ys IH]; [done|]. by rewrite !edges_into_cons, Hext, IH.
Qed.

(** Appending [dep] to the successors of [c] adds one edge. *)
Lemma edges_into_append {A} `{EqDecision A} (adj : A -> list A) c dep ys x :
  NoDup ys -> c ∈ ys ->
  edges_into (fun y => adj y ++ (if decide (y = c) then [dep] else [])) ys x
  = (edges_into adj ys x + if decide (x = dep) then 1 else 0)%nat.
Proof.
  assert (Hsame : forall zs, c ∉ zs ->
            edges_into (fun y => adj y ++ (if decide (y = c) then [dep] else [])) zs x
            = edges_into adj zs x).
  { intros zs. induction zs as [|z zs IHz]; intros Hz; [done|].
    rewrite !edges_into_cons, IHz by set_solver.
    rewrite decide_False, app_nil_r by set_solver. done. }
  induction ys as [|y ys IH]; intros Hnd Hin; [by apply elem_of_nil in Hin|].
  apply NoDup_cons in Hnd as [Hy Hnd]. rewrite !edges_into_cons.
  apply elem_of_cons in Hin as [->|Hin].
  - rewrite decide_True by done. rewrite count_in_app, count_in_cons, Hsame by done.
    unfold count_in at 2. cbn. lia.
  - rewrite IH by done. rewrite decide_False by (by intros ->). rewrite app_nil_r. lia.
Qed.

(** ** Correctness of the loop *)
Section Correct.
Context {A D : Type} `{DegreeTableLaws A D} `{EqDecision A} (adj : A -> list A).
Implicit Types (d : D) (x y : A) (l nodes order queue others : list A).

(** One inner loop: successors whose last edge goes are appended to the queue,
    the others keep a positive degree. *)
Lemma visit_spec l d queue others :
  NoDup others -> (forall x, x ∈ l -> x ∈ others) ->
  (forall x, x ∈ others -> present d x /\ Z.of_nat (count_in x l) <= degree d x /\ 0 < degree d x) ->
  exists fresh others',
    visit d queue l = ((visit d queue l).1, queue ++ fresh) /\ others ≡ₚ fresh ++ others'
    /\ (forall x, degree (visit d queue l).1 x = degree d x - Z.of_nat (count_in x l))
    /\ (forall x, present d x -> present (visit d queue l).1 x)
    /\ (forall x, x ∈ fresh -> degree (visit d queue l).1 x = 0)
    /\ (forall x, x ∈ others' -> 0 < degree (visit d queue l).1 x).
Proof.
  revert d queue others. induction l as [|next l IH]; intros d queue others Hnd Hl Hd.
  { exists [], others. cbn. rewrite app_nil_r. split_and!; try done.
    - intros x. unfold count_in. cbn. lia.
    - intros x Hx. by apply elem_of_nil in Hx.
    - intros x Hx. by apply Hd. }
  assert (Hin : next ∈ others) by (apply Hl; left).
  destruct (Hd _ Hin) as (Hp & Hc & Hpos).
  assert (Hdeg : forall x, degree (decrement d next) x
                   = degree d x - (if decide (x = next) then 1 else 0)).
  { intros x. case_decide as Hx; [subst; by rewrite decrement_eq|].
    rewrite decrement_ne by done. lia. }
  rewrite count_in_cons, decide_True in Hc by done. cbn [visit].
  destruct (Z.eqb_spec (degree (decrement d next) next) 0) as [Hz|Hnz].
  - apply list_elem_of_split in Hin as (o1 & o2 & ->).
    assert (Hperm : o1 ++ next :: o2 ≡ₚ next :: o1 ++ o2) by (by rewrite Permutation_middle).
    rewrite Hperm in Hnd. apply NoDup_cons in Hnd as [Hni Hnd].
    assert (Hno : next ∉ l).
    { rewrite <-count_in_pos, Hdeg, decide_True in * by done. lia. }
    destruct (IH (decrement d next) (queue ++ [next]) (o1 ++ o2))
      as (fresh & others' & Hq & Ho & Hdd & Hpp & Hf & Hr); [done| | |].
    + intros x Hx. specialize (Hl x). rewrite Hperm, !elem_of_cons in Hl.
      destruct Hl as [->|]; [by right|done|done].
    + intros x Hx. destruct (Hd x) as (? & Hcx & ?); [rewrite Hperm; by right|].
      assert (x <> next) by (by intros ->).
      rewrite count_in_cons, decide_False in Hcx by done.
      rewrite Hdeg, decide_False by done. split_and!; [by apply decrement_present|lia|lia].
    + exists (next :: fresh), others'. rewrite Hq. cbn [fst].
      split_and!.
      * by rewrite <-app_assoc.
      * by rewrite Hperm, Ho.
      * intros x. rewrite Hdd, Hdeg, count_in_cons. case_decide; lia.
      * intros x Hx. by apply Hpp, decrement_present.
      * intros x Hx. apply elem_of_cons in Hx as [->|Hx]; [|by apply Hf].
        rewrite Hdd, Hz. rewrite <-count_in_pos in Hno. lia.
      * done.
  - destruct (IH (decrement d next) queue others)
      as (fresh & others' & Hq & Ho & Hdd & Hpp & Hf & Hr); [done| | |].
    + intros x Hx. apply Hl. by right.
    + intros x Hx. destruct (Hd x Hx) as (? & Hcx & ?).
      rewrite count_in_cons in Hcx. rewrite Hdeg.
      assert (degree d next - 1 <> 0) by (rewrite Hdeg, decide_True in Hnz by done; done).
      split; [by apply decrement_present|]. case_decide; [subst|]; lia.
    + exists fresh, others'. split_and!; try done.
      * intros x. rewrite Hdd, Hdeg, count_in_cons. case_decide; lia.
      * intros x Hx. by apply Hpp, decrement_present.
Qed.

(** The state of the outer loop: the nodes are those sorted, those queued and
    the [others], and a degree counts the edges from nodes not yet sorted. *)
Record kahn_state (nodes : list A) (d : D) (queue order others : list A) : Prop := {
  ks_nodes : nodes ≡ₚ order ++ queue ++ others;
  ks_present x : x ∈ nodes -> present d x;
  ks_degree x : x ∈ nodes -> degree d x = Z.of_nat (edges_into adj (queue ++ others) x);
  ks_queue x : x ∈ queue -> degree d x = 0;
  ks_others x : x ∈ others -> 0 < degree d x;
  ks_order : topological adj nodes order
}.

Lemma topological_snoc nodes order x :
  topological adj nodes order -> (forall y, edge adj nodes y x -> y ∈ order) ->
  topological adj nodes (order ++ [x]).
Proof.
  intros Ht Hx before z after Ho y Hy.
  destruct after as [|w after _] using rev_ind.
  - apply app_inj_tail in Ho as [<- <-]. by apply Hx.
  - rewrite app_comm_cons, app_assoc in Ho. apply app_inj_tail in Ho as [-> <-].
    eapply Ht; [done|done].
Qed.

Lemma kahn_step nodes d cur queue order others :
  NoDup nodes -> (forall x y, x ∈ nodes -> y ∈ adj x -> y ∈ nodes) ->
  kahn_state nodes d (cur :: queue) order others ->
  exists fresh others',
    visit d queue (adj cur) = ((visit d queue (adj cur)).1, queue ++ fresh)
    /\ others ≡ₚ fresh ++ others'
    /\ kahn_state nodes (visit d queue (adj cur)).1 (queue ++ fresh) (order ++ [cur]) others'.
Proof.
  intros Hnd Hclosed [Hn Hp Hd Hq Ho Ht].
  assert (Hnd' : NoDup (order ++ (cur :: queue) ++ others)) by (by rewrite <-Hn).
  apply NoDup_app in Hnd' as (_ & _ & Hnd'). apply NoDup_app in Hnd' as (_ & Hqo & Hndo).
  assert (Hin : forall x, x ∈ order \/ x ∈ cur :: queue \/ x ∈ others <-> x ∈ nodes).
  { intros x. by rewrite Hn, !elem_of_app. }
  assert (Hcur : cur ∈ nodes) by (apply Hin; right; left; left).
  (* every node with an edge into [x] that is not sorted gives [x] a degree *)
  assert (Hsucc : forall x, x ∈ adj cur -> x ∈ others).
  { intros x Hx. assert (Hxn : x ∈ nodes) by (by eapply Hclosed).
    assert (0 < degree d x).
    { rewrite Hd by done. cbn [app]. rewrite edges_into_cons.
      apply count_in_pos in Hx. lia. }
    apply Hin in Hxn as [Hxo|[Hxq|]]; [|rewrite Hq in * by done; lia|done].
    apply list_elem_of_split in Hxo as (b & a & ->).
    assert (Hb : cur ∈ b) by (eapply (Ht b x a); [done|by split]).
    exfalso. rewrite Hn, <-app_assoc in Hnd. apply NoDup_app in Hnd as (_ & Hdis & _).
    apply (Hdis cur Hb). rewrite !elem_of_app. right; left. left. }
  destruct (visit_spec (adj cur) d queue others) as (fresh & others' & Hv & Ho' & Hdd & Hpp & Hf & Hr).
  { done. }
  { done. }
  { intros x Hx. assert (Hxn : x ∈ nodes) by (apply Hin; right; by right).
    split_and!; [by apply Hp| |by apply Ho].
    rewrite Hd by done. cbn [app]. rewrite edges_into_cons. lia. }
  exists fresh, others'. split_and!; [done|done|]. split.
  - rewrite Hn, Ho'. by rewrite <-!app_assoc.
  - intros x Hx. by apply Hpp, Hp.
  - intros x Hx. rewrite Hdd, Hd by done. cbn [app].
    rewrite Ho', edges_into_cons, <-app_assoc. lia.
  - intros x Hx. apply elem_of_app in Hx as [Hx|Hx]; [|by apply Hf].
    rewrite Hdd, Hq by (by right).
    assert (x ∉ adj cur).
    { intros Hxa. apply (Hqo x); [by right|by apply Hsucc]. }
    rewrite <-count_in_pos in *. lia.
  - done.
  - apply topological_snoc; [done|]. intros y [Hy Hxy].
    assert (Hz : degree d cur = 0) by (apply Hq; left). rewrite Hd in Hz by done.
    apply Hin in Hy as [|Hy]; [done|]. exfalso.
    assert (0 < edges_into adj ((cur :: queue) ++ others) cur)%nat; [|lia].
    apply edges_into_pos. exists y. by rewrite elem_of_app.
Qed.

Lemma kahn_spec fuel nodes d queue order others :
  NoDup nodes -> (forall x y, x ∈ nodes -> y ∈ adj x -> y ∈ nodes) ->
  kahn_state nodes d queue order others -> (length (queue ++ others) <= fuel)%nat ->
  exists sorted rest d',
    kahn adj fuel d queue order = (sorted, []) /\ kahn_state nodes d' [] sorted rest.
Proof.
  intros Hnd Hclosed. revert d queue order others.
  induction fuel as [|fuel IH]; intros d queue order others Hks Hfuel.
  { destruct queue; [|cbn in Hfuel; lia]. by exists order, others, d. }
  destruct queue as [|cur queue]; [by exists order, others, d|]. cbn [kahn].
  destruct (kahn_step _ _ _ _ _ _ Hnd Hclosed Hks) as (fresh & others' & Hv & Hp & Hks').
  rewrite Hv. eapply IH; [exact Hks'|].
  rewrite <-app_assoc, <-Hp. cbn in Hfuel. lia.
Qed.

(** With one unit of fuel per node the loop empties its queue; the nodes it
    sorted are in dependency order, and either they are all the nodes and the graph
    has no cycle, or nodes are left and there is one. *)
Lemma kahn_correct nodes d queue :
  NoDup nodes -> (forall x y, x ∈ nodes -> y ∈ adj x -> y ∈ nodes) ->
  (forall x, x ∈ nodes -> present d x) ->
  (forall x, x ∈ nodes -> degree d x = Z.of_nat (edges_into adj nodes x)) ->
  queue ≡ₚ filter (fun x => degree d x = 0) nodes ->
  exists sorted rest, kahn adj (length nodes) d queue [] = (sorted, [])
    /\ nodes ≡ₚ sorted ++ rest /\ topological adj nodes sorted
    /\ (rest = [] -> acyclic adj nodes)
    /\ (rest <> [] -> exists x, tc (edge adj nodes) x x).
Proof.
  intros Hnd Hclosed Hp Hd Hq.
  assert (Hperm : nodes ≡ₚ queue ++ filter (fun x => ~ degree d x = 0) nodes).
  { rewrite Hq. symmetry. apply filter_app_complement. }
  destruct (kahn_spec (length nodes) nodes d queue [] (filter (fun x => ~ degree d x = 0) nodes))
    as (sorted & rest & d' & Hk & [Hn _ Hd' _ Ho Ht]); [done|done| |by rewrite <-Hperm|].
  { split; [done|done| | | |].
    - intros x Hx. by rewrite Hd, Hperm at 1.
    - intros x Hx. rewrite Hq in Hx. by apply list_elem_of_filter in Hx as [? _].
    - intros x Hx. apply list_elem_of_filter in Hx as [Hz Hx].
      rewrite Hd in * by done. lia.
    - intros before x after Hb. by destruct before. }
  exists sorted, rest. cbn [app] in Hd', Hn. split_and!; [done|done|done| |].
  - intros ->. rewrite app_nil_r in Hn. apply (topological_acyclic adj nodes sorted).
    + by rewrite <-Hn.
    + intros x. by rewrite <-Hn.
    + done.
  - apply (cycle_exists adj nodes rest). intros x Hx.
    assert (Hxn : x ∈ nodes) by (rewrite Hn; apply elem_of_app; by right).
    specialize (Ho x Hx). rewrite Hd' in Ho by done.
    destruct (proj1 (edges_into_pos adj rest x)) as (y & Hy & Hxy); [lia|].
    exists y. split; [done|]. split; [|done]. rewrite Hn. apply elem_of_app. by right.
Qed.

End Correct.
