(* ===== verification/Loader.v ===== *)
(** * Loading order of checkpoints

    [src/checkpoint/loader.go]: [topoSort] orders the load templates by their
    dependencies and rejects bad ones, [buildLevels] groups them into levels
    that [LoadAll] runs one after the other, the templates of one level
    concurrently.  A template refers to the ones it needs by collection name;
    the loader works on indices into the slice of templates. *)

From stdpp Require Import base list gmap strings sorting relations.
From Stdlib Require Import ZArith Lia.
From S2P Require Import Prelude TopoSort.

Local Open Scope Z_scope.

(** [LoadTemplate], without the fields the ordering does not read (database,
    filter, batch size and callback). *)
Record LoadTemplate := mkTemplate {
  lt_Collection : string;
  lt_DependsOn : list string
}.

Inductive loadError :=
| ErrEmptyCollection (i : nat)
| ErrDuplicateCollection (collection : string)
| ErrUnknownDependency (collection dep : string)
| ErrCircularDependency.

Abbreviation lres := (result loadError).

(** The loop that fills [nameToIdx]. *)
Fixpoint indexTemplates (i : nat) (nameToIdx : gmap string nat) (templates : list LoadTemplate)
    : lres (gmap string nat) :=
  match templates with
  | [] => Ok nameToIdx
  | t :: templates =>
      if bool_decide (lt_Collection t = ""%string) then Err (ErrEmptyCollection i) else
      match nameToIdx !! lt_Collection t with
      | Some _ => Err (ErrDuplicateCollection (lt_Collection t))
      | None => indexTemplates (S i) (<[lt_Collection t := i]> nameToIdx) templates
      end
  end.

(** The inner loop that resolves the dependencies of one template. *)
Fixpoint resolveDeps (nameToIdx : gmap string nat) (collection : string) (deps : list string)
    : lres (list nat) :=
  match deps with
  | [] => Ok []
  | dep :: deps =>
      match nameToIdx !! dep with
      | None => Err (ErrUnknownDependency collection dep)
      | Some depIdx => rest ← resolveDeps nameToIdx collection deps; Ok (depIdx :: rest)
      end
  end.

(** [nodes[i].deps], for every template in order. *)
Fixpoint resolveAll (nameToIdx : gmap string nat) (templates : list LoadTemplate)
    : lres (list (list nat)) :=
  match templates with
  | [] => Ok []
  | t :: templates =>
      deps ← resolveDeps nameToIdx (lt_Collection t) (lt_DependsOn t);
      rest ← resolveAll nameToIdx templates;
      Ok (deps :: rest)
  end.

(** [adj[dep] = append(adj[dep], i); inDegree[i]++] *)
Definition addEdge (i : nat) (g : list (list nat) * list Z) (dep : nat) : list (list nat) * list Z :=
  (alter (fun l => l ++ [i]) dep g.1, alter (fun d => d + 1) i g.2).

Definition addNode (g : list (list nat) * list Z) (node : nat * list nat)
    : list (list nat) * list Z :=
  foldl (addEdge node.1) g node.2.

(** The nodes with their indices: [for i, n := range nodes]. *)
Definition indexed {A} (l : list A) : list (nat * A) := zip (seq 0 (length l)) l.

Definition buildGraph (nodes : list (list nat)) : list (list nat) * list Z :=
  foldl addNode (replicate (length nodes) [], replicate (length nodes) 0) (indexed nodes).

(** [for i, d := range inDegree { if d == 0 { queue = append(queue, i) } }] *)
Definition sources (inDegree : list Z) : list nat :=
  (filter (fun p : nat * Z => p.2 = 0) (indexed inDegree)).*1.

Definition topoSort (templates : list LoadTemplate) : lres (list nat) :=
  nameToIdx ← indexTemplates 0 ∅ templates;
  nodes ← resolveAll nameToIdx templates;
  let '(adj, inDegree) := buildGraph nodes in
  let order := (kahn (fun i => default [] (adj !! i)) (length templates) inDegree
                  (sources inDegree) []).1 in
  if negb (Nat.eqb (length order) (length templates)) then Err ErrCircularDependency else Ok order.

(** ** Levels *)

(** [nameToIdx] of [buildLevels]: no check, a later template overwrites. *)
Definition nameIndex (templates : list LoadTemplate) : gmap string nat :=
  foldl (fun m (p : nat * LoadTemplate) => <[lt_Collection p.2 := p.1]> m) ∅ (indexed templates).

(** The body of [for _, dep := range templates[idx].DependsOn]. *)
Definition raiseLevel (nameToIdx : gmap string nat) (idx : nat) (level : list nat) (dep : string)
    : list nat :=
  match nameToIdx !! dep with
  | Some depIdx =>
      let above := S (default 0%nat (level !! depIdx)) in
      if Nat.ltb (default 0%nat (level !! idx)) above then <[idx := above]> level else level
  | None => level
  end.

Definition computeLevels (order : list nat) (templates : list LoadTemplate) : list nat :=
  let nameToIdx := nameIndex templates in
  foldl (fun level idx =>
           foldl (raiseLevel nameToIdx idx) level
             (default [] (lt_DependsOn <$> templates !! idx)))
        (replicate (length templates) 0%nat) order.

(** [maxLevel] starts at zero. *)
Definition maxLevel (level : list nat) : nat := foldl Nat.max 0%nat level.

Definition buildLevels (order : list nat) (templates : list LoadTemplate) : list (list nat) :=
  let level := computeLevels order templates in
  foldl (fun levels (p : nat * nat) => alter (fun l => l ++ [p.1]) p.2 levels)
        (replicate (S (maxLevel level)) []) (indexed level).

(** ** What the templates ask for *)

(** Template [i] names template [j] as a dependency. *)
Definition depends (templates : list LoadTemplate) (i j : nat) : Prop :=
  exists t u, templates !! i = Some t /\ templates !! j = Some u
    /\ lt_Collection u ∈ lt_DependsOn t.

Definition names (templates : list LoadTemplate) : list string := lt_Collection <$> templates.

(** Distinct nonempty names, and every dependency is one of them. *)
Definition templates_ok (templates : list LoadTemplate) : Prop :=
  (""%string ∉ names templates) /\ NoDup (names templates)
  /\ Forall (fun t => Forall (fun dep => dep ∈ names templates) (lt_DependsOn t)) templates.

(** ** Lemmas: slices *)

Lemma indexed_lookup {A} (l : list A) i x : (i, x) ∈ indexed l <-> l !! i = Some x.
Proof.
  unfold indexed. rewrite list_elem_of_lookup. split.
  - intros [k Hk]. apply lookup_zip_with_Some in Hk as (a & b & [= -> ->] & Ha & Hb).
    apply lookup_seq in Ha as [-> _]. by rewrite Nat.add_0_l.
  - intros Hi. exists i. apply lookup_zip_with_Some. exists i, x. split_and!; [done| |done].
    apply lookup_seq. split; [done|]. by apply lookup_lt_Some in Hi.
Qed.

Lemma fmap_fst_indexed {A} (l : list A) : (indexed l).*1 = seq 0 (length l).
Proof. unfold indexed. apply fst_zip. by rewrite length_seq. Qed.

Lemma indexed_app {A} (l : list A) x : indexed (l ++ [x]) = indexed l ++ [(length l, x)].
Proof.
  unfold indexed. rewrite length_app. cbn [length]. rewrite Nat.add_1_r, seq_S.
  rewrite zip_with_app by (by rewrite length_seq). done.
Qed.

(** ** Lemmas: the graph *)

Definition adjf (g : list (list nat) * list Z) (j : nat) : list nat := default [] (g.1 !! j).

(** The edges in the order they are added: dependent, dependency. *)
Definition edgeList (nodes : list (list nat)) : list (nat * nat) :=
  indexed nodes ≫= fun node => (fun dep => (node.1, dep)) <$> node.2.

Lemma buildGraph_edges nodes :
  buildGraph nodes
  = foldl (fun g e => addEdge e.1 g e.2)
      (replicate (length nodes) [], replicate (length nodes) 0) (edgeList nodes).
Proof.
  unfold buildGraph, edgeList. generalize (replicate (length nodes) (@nil nat), replicate (length nodes) 0).
  induction (indexed nodes) as [|[i deps] l IH]; intros g; [done|].
  cbn [foldl mbind list_bind]. rewrite foldl_app, <-IH. f_equal. unfold addNode. cbn [fst snd].
  revert g. induction deps as [|dep deps IHd]; intros g; [done|]. cbn. apply IHd.
Qed.

Lemma edgeList_elem nodes i j :
  (i, j) ∈ edgeList nodes <-> exists deps, nodes !! i = Some deps /\ j ∈ deps.
Proof.
  unfold edgeList. rewrite list_elem_of_bind. split.
  - intros ((k & deps) & He & Hk). cbn in He. apply list_elem_of_fmap in He as (? & [= -> ->] & Hj).
    exists deps. by rewrite <-indexed_lookup.
  - intros (deps & Hi & Hj). exists (i, deps). cbn. rewrite indexed_lookup.
    split; [|done]. apply list_elem_of_fmap. eauto.
Qed.

(** The slices keep their length, a degree counts the edges into its node. *)
Definition graph_ok (n : nat) (g : list (list nat) * list Z) : Prop :=
  length g.1 = n /\ length g.2 = n
  /\ forall i, (i < n)%nat -> degree g.2 i = Z.of_nat (edges_into (adjf g) (seq 0 n) i).

Lemma adjf_addEdge n g i dep j :
  length g.1 = n -> (dep < n)%nat ->
  adjf (addEdge i g dep) j = adjf g j ++ (if decide (j = dep) then [i] else []).
Proof.
  intros Hn Hdep. unfold adjf, addEdge. cbn. case_decide as Hj.
  - subst j. rewrite list_lookup_alter_eq.
    destruct (lookup_lt_is_Some_2 g.1 dep) as [l ->]; [lia|done].
  - by rewrite list_lookup_alter_ne, app_nil_r.
Qed.

Lemma addEdge_ok n g i dep :
  graph_ok n g -> (i < n)%nat -> (dep < n)%nat -> graph_ok n (addEdge i g dep).
Proof.
  intros (H1 & H2 & Hd) Hi Hdep. unfold graph_ok. split_and!; [by cbn; rewrite length_alter..|].
  intros k Hk.
  rewrite (edges_into_ext _ _ _ _ (fun j => adjf_addEdge n g i dep j H1 Hdep)).
  rewrite edges_into_append by (apply NoDup_seq || apply elem_of_seq; lia).
  specialize (Hd k Hk). unfold addEdge. cbn [degree slice_degrees snd] in *.
  case_decide as Hki.
  - subst k. rewrite list_lookup_alter_eq.
    destruct (lookup_lt_is_Some_2 g.2 i) as [z Hz]; [lia|]. rewrite Hz in *.
    cbn [default from_option fmap option_fmap option_map id] in *. lia.
  - rewrite list_lookup_alter_ne by done. lia.
Qed.

Lemma addEdges_ok n es : forall g,
  graph_ok n g -> Forall (fun e => e.1 < n /\ e.2 < n)%nat es ->
  let g' := foldl (fun g e => addEdge e.1 g e.2) g es in
  graph_ok n g' /\ forall i j, i ∈ adjf g' j <-> i ∈ adjf g j \/ (i, j) ∈ es.
Proof.
  induction es as [|[i dep] es IH]; intros g Hg Hes; cbn [foldl].
  { split; [done|]. intros. rewrite elem_of_nil. tauto. }
  apply Forall_cons in Hes as [[Hi Hdep] Hes]. cbn [fst snd] in *.
  destruct (IH (addEdge i g dep)) as [Hok Hel]; [by apply addEdge_ok|done|].
  split; [done|]. intros k j. destruct Hg as (Hn & _).
  rewrite Hel, (adjf_addEdge n), elem_of_cons by done.
  rewrite elem_of_app. case_decide as Hj; [rewrite list_elem_of_singleton|rewrite elem_of_nil]; naive_solver.
Qed.

(** ** Lemmas: resolving names *)

(** The map sends a name to its position. *)
Definition index_of (templates : list LoadTemplate) (m : gmap string nat) : Prop :=
  forall name k, m !! name = Some k <-> names templates !! k = Some name.

Lemma names_app ts us : names (ts ++ us) = names ts ++ names us.
Proof. apply fmap_app. Qed.

Lemma index_of_None ts m name : index_of ts m -> m !! name = None <-> name ∉ names ts.
Proof.
  intros Hm. rewrite eq_None_not_Some, list_elem_of_lookup. unfold is_Some.
  setoid_rewrite (Hm name). naive_solver.
Qed.

Lemma index_of_snoc ts m t :
  index_of ts m -> m !! lt_Collection t = None ->
  index_of (ts ++ [t]) (<[lt_Collection t := length ts]> m).
Proof.
  intros Hm Hnew name k. rewrite names_app. cbn [names fmap list_fmap].
  assert (Hlen : length (names ts) = length ts) by apply length_fmap.
  rewrite lookup_insert_Some, lookup_app_Some. rewrite (Hm name k). split.
  - intros [[<- <-]|[Hne Hk]]; [|by left]. right. rewrite Hlen, Nat.sub_diag. done.
  - intros [Hk|[Hk H0]].
    + right. split; [|done]. intros <-. by rewrite <-(Hm _ k), Hnew in Hk.
    + left. destruct (k - length (names ts))%nat eqn:E; [|done].
      cbn in H0. injection H0 as <-. split; [done|lia].
Qed.

Lemma indexTemplates_spec ts : forall pre m,
  index_of pre m -> NoDup (names pre) -> (""%string ∉ names pre) ->
  match indexTemplates (length pre) m ts with
  | Ok m' => index_of (pre ++ ts) m' /\ NoDup (names (pre ++ ts)) /\ (""%string ∉ names (pre ++ ts))
  | Err e => ~ (NoDup (names (pre ++ ts)) /\ (""%string ∉ names (pre ++ ts)))
             /\ e <> ErrCircularDependency
  end.
Proof.
  induction ts as [|t ts IH]; intros pre m Hm Hnd Hne; cbn [indexTemplates].
  { by rewrite app_nil_r. }
  assert (Ht : lt_Collection t ∈ names (pre ++ t :: ts)).
  { rewrite names_app. apply elem_of_app. right. left. }
  case_bool_decide as He.
  { rewrite He in Ht. split; [naive_solver|done]. }
  destruct (m !! lt_Collection t) as [k|] eqn:Hk.
  - split; [|done]. intros [Hnd' _]. rewrite names_app in Hnd'.
    apply NoDup_app in Hnd' as (_ & Hdis & _). apply (Hdis (lt_Collection t)); [|left].
    apply list_elem_of_lookup. exists k. by apply Hm.
  - specialize (IH (pre ++ [t]) (<[lt_Collection t := length pre]> m)).
    rewrite length_app, Nat.add_1_r, <-app_assoc in IH. cbn [app] in IH. apply IH.
    + by apply index_of_snoc.
    + rewrite names_app. apply NoDup_app. split_and!; [done| |apply NoDup_singleton].
      intros name Hin Hs. apply list_elem_of_singleton in Hs as ->.
      by apply (index_of_None pre m (lt_Collection t)).
    + rewrite names_app, elem_of_app. cbn. rewrite list_elem_of_singleton. naive_solver.
Qed.

Lemma resolveDeps_spec m coll deps :
  match resolveDeps m coll deps with
  | Ok l => Forall2 (fun dep k => m !! dep = Some k) deps l
  | Err e => Exists (fun dep => m !! dep = None) deps /\ e <> ErrCircularDependency
  end.
Proof.
  induction deps as [|dep deps IH]; cbn [resolveDeps]; [constructor|].
  destruct (m !! dep) as [k|] eqn:Hk; [|by split; [left|]].
  destruct (resolveDeps m coll deps) as [l|e]; run_bind; [by constructor|].
  destruct IH. split; [by right|done].
Qed.

Lemma resolveAll_spec m ts :
  match resolveAll m ts with
  | Ok nodes => Forall2 (fun t l => Forall2 (fun dep k => m !! dep = Some k) (lt_DependsOn t) l)
                  ts nodes
  | Err e => Exists (fun t => Exists (fun dep => m !! dep = None) (lt_DependsOn t)) ts
             /\ e <> ErrCircularDependency
  end.
Proof.
  induction ts as [|t ts IH]; cbn [resolveAll]; [constructor|].
  pose proof (resolveDeps_spec m (lt_Collection t) (lt_DependsOn t)) as Hd.
  destruct (resolveDeps m _ _) as [l|e]; run_bind; [|destruct Hd; split; [by left|done]].
  destruct (resolveAll m ts) as [nodes|e]; run_bind; [by constructor|].
  destruct IH. split; [by right|done].
Qed.

(** Resolved dependencies are the edges [depends] describes. *)
Lemma resolved_depends ts m nodes i j :
  index_of ts m ->
  Forall2 (fun t l => Forall2 (fun dep k => m !! dep = Some k) (lt_DependsOn t) l) ts nodes ->
  (i, j) ∈ edgeList nodes <-> depends ts i j.
Proof.
  intros Hm Hn. rewrite edgeList_elem. unfold depends. split.
  - intros (l & Hl & Hj). destruct (Forall2_lookup_r _ _ _ _ _ Hn Hl) as (t & Ht & Hd).
    apply list_elem_of_lookup in Hj as [p Hp].
    destruct (Forall2_lookup_r _ _ _ _ _ Hd Hp) as (dep & Hdep & Hmj).
    apply Hm in Hmj. unfold names in Hmj. apply list_lookup_fmap_Some in Hmj as (u & -> & Hu).
    exists t, u. split_and!; [done|done|]. by eapply list_elem_of_lookup_2.
  - intros (t & u & Ht & Hu & Hin).
    destruct (Forall2_lookup_l _ _ _ _ _ Hn Ht) as (l & Hl & Hd).
    apply list_elem_of_lookup in Hin as [p Hp].
    destruct (Forall2_lookup_l _ _ _ _ _ Hd Hp) as (k & Hk & Hmk).
    exists l. split; [done|]. assert (k = j) as ->; [|by eapply list_elem_of_lookup_2].
    assert (m !! lt_Collection u = Some j); [|congruence].
    apply Hm. unfold names. by rewrite list_lookup_fmap, Hu.
Qed.

Lemma sources_perm d :
  sources d ≡ₚ filter (fun i => degree d i = 0) (seq 0 (length d)).
Proof.
  apply NoDup_Permutation.
  - unfold sources. eapply sublist_NoDup; [|apply fmap_sublist, sublist_filter].
    rewrite fmap_fst_indexed. apply NoDup_seq.
  - apply NoDup_filter, NoDup_seq.
  - intros i. unfold sources. rewrite list_elem_of_filter, elem_of_seq, list_elem_of_fmap.
    cbn [degree slice_degrees]. split.
    + intros ([k z] & -> & Hk). apply list_elem_of_filter in Hk as [Hz Hk].
      apply indexed_lookup in Hk. cbn in *. rewrite Hk.
      apply lookup_lt_Some in Hk. cbn. lia.
    + intros [Hz Hi]. destruct (lookup_lt_is_Some_2 d i) as [z Hd]; [lia|].
      rewrite Hd in Hz. exists (i, z). rewrite list_elem_of_filter, indexed_lookup. done.
Qed.

(** The constructed graph, ready for the queue. *)
Lemma buildGraph_spec nodes :
  Forall (Forall (fun j => j < length nodes)%nat) nodes ->
  graph_ok (length nodes) (buildGraph nodes)
  /\ forall i j, i ∈ adjf (buildGraph nodes) j <-> (i, j) ∈ edgeList nodes.
Proof.
  intros Hr. set (n := length nodes).
  assert (Hes : Forall (fun e => e.1 < n /\ e.2 < n)%nat (edgeList nodes)).
  { apply Forall_forall. intros [i j] He. apply edgeList_elem in He as (deps & Hi & Hj). cbn.
    split; [by eapply lookup_lt_Some|]. eapply Forall_lookup_1 in Hr; [|exact Hi].
    rewrite Forall_forall in Hr. by apply Hr. }
  destruct (addEdges_ok n (edgeList nodes) (replicate n [], replicate n 0)) as [Hok Hel].
  - unfold graph_ok. cbn [fst snd]. rewrite !length_replicate. split_and!; [done..|].
    intros i Hi. cbn [degree slice_degrees]. rewrite lookup_replicate_2 by done. cbn.
    assert (~ (0 < edges_into (adjf (replicate n [], replicate n 0%Z)) (seq 0 n) i)%nat); [|lia].
    rewrite edges_into_pos. intros (y & Hy & Hx). apply elem_of_seq in Hy.
    unfold adjf in Hx. cbn in Hx. rewrite lookup_replicate_2 in Hx by lia.
    by apply elem_of_nil in Hx.
  - done.
  - rewrite buildGraph_edges. fold n. split; [done|]. intros i j. rewrite Hel. unfold adjf at 1. cbn.
    assert (i ∉ default [] (replicate n [] !! j)); [|tauto].
    destruct (replicate n [] !! j) as [l|] eqn:E; cbn; [|apply not_elem_of_nil].
    apply lookup_replicate in E as [-> _]. apply not_elem_of_nil.
Qed.

Lemma topoSort_loop ts m nodes :
  index_of ts m ->
  Forall2 (fun t l => Forall2 (fun dep k => m !! dep = Some k) (lt_DependsOn t) l) ts nodes ->
  exists order rest,
    kahn (adjf (buildGraph nodes)) (length ts) (buildGraph nodes).2
      (sources (buildGraph nodes).2) [] = (order, [])
    /\ seq 0 (length ts) ≡ₚ order ++ rest
    /\ (forall before i after, order = before ++ i :: after ->
          forall j, depends ts i j -> j ∈ before)
    /\ (rest <> [] -> exists i, tc (depends ts) i i).
Proof.
  intros Hm Hn. pose proof (Forall2_length _ _ _ Hn) as Hlen.
  assert (Hrange : Forall (Forall (fun j => j < length nodes)%nat) nodes).
  { apply Forall_forall. intros l Hl. apply Forall_forall. intros j Hj.
    apply list_elem_of_lookup in Hl as [i Hi].
    assert (He : (i, j) ∈ edgeList nodes) by (apply edgeList_elem; eauto).
    apply (resolved_depends ts m nodes) in He as (t & u & _ & Hu & _); [|done|done].
    rewrite <-Hlen. by eapply lookup_lt_Some. }
  destruct (buildGraph_spec nodes Hrange) as [(H1 & H2 & Hd) Hel].
  set (g := buildGraph nodes) in *.
  assert (Hedge : forall j i, edge (adjf g) (seq 0 (length ts)) j i <-> depends ts i j).
  { intros j i. unfold edge. rewrite Hel, (resolved_depends ts m) by done.
    split; [by intros []|]. intros Hdep. split; [|done].
    destruct Hdep as (_ & u & _ & Hu & _). apply lookup_lt_Some in Hu.
    apply elem_of_seq. lia. }
  destruct (kahn_correct (adjf g) (seq 0 (length ts)) g.2 (sources g.2))
    as (order & rest & Hk & Hp & Ht & _ & Hcyc).
  - apply NoDup_seq.
  - intros j i _ Hi. apply Hel, (resolved_depends ts m) in Hi as (t & _ & Hti & _); [|done|done].
    apply lookup_lt_Some in Hti. apply elem_of_seq. lia.
  - intros i Hi. apply elem_of_seq in Hi. cbn. apply lookup_lt_is_Some. lia.
  - intros i Hi. apply elem_of_seq in Hi. rewrite Hlen. apply Hd. lia.
  - rewrite sources_perm, H2, Hlen. done.
  - rewrite length_seq in Hk. exists order, rest. split_and!; [done|done| |].
    + intros before i after Ho j Hj. eapply Ht; [exact Ho|]. by apply Hedge.
    + intros Hne. destruct (Hcyc Hne) as [x Hx]. exists x. clear -Hx Hedge.
      assert (Hflip : forall a b, tc (edge (adjf g) (seq 0 (length ts))) a b -> tc (depends ts) b a).
      { induction 1 as [a b Hab|a b c Hab _ IH]; [by apply tc_once, Hedge|].
        eapply tc_r; [exact IH|]. by apply Hedge. }
      by apply Hflip.
Qed.

Lemma topoSort_spec (ts : list LoadTemplate) :
  match topoSort ts with
  | Ok order =>
      templates_ok ts /\ order ≡ₚ seq 0 (length ts)
      /\ (forall before i after, order = before ++ i :: after ->
            forall j, depends ts i j -> j ∈ before)
  | Err ErrCircularDependency => templates_ok ts /\ exists i, tc (depends ts) i i
  | Err _ => ~ templates_ok ts
  end.
Proof.
  unfold topoSort.
  pose proof (indexTemplates_spec ts [] ∅) as Hidx. cbn [length app] in Hidx.
  destruct (indexTemplates 0 ∅ ts) as [m|e]; run_bind; last first.
  { destruct Hidx as [Hbad Hne]; [by intros ??|by constructor|apply not_elem_of_nil|].
    destruct e; try done; intros (? & ? & _); by apply Hbad. }
  destruct Hidx as (Hm & Hnd & He); [by intros ??|by constructor|apply not_elem_of_nil|].
  pose proof (resolveAll_spec m ts) as Hres.
  destruct (resolveAll m ts) as [nodes|e]; run_bind; last first.
  { destruct Hres as [Hbad Hne].
    assert (Hno : ~ templates_ok ts).
    { intros (_ & _ & Hall). apply Exists_exists in Hbad as (t & Ht & Hex).
      apply Exists_exists in Hex as (dep & Hdep & Hnone).
      rewrite Forall_forall in Hall. specialize (Hall t Ht). rewrite Forall_forall in Hall.
      by apply (index_of_None ts m dep Hm) in Hnone; destruct Hnone; apply Hall. }
    by destruct e. }
  assert (Hok : templates_ok ts).
  { split_and!; [done|done|]. apply Forall_forall. intros t Ht. apply Forall_forall.
    intros dep Hdep. destruct (decide (dep ∈ names ts)) as [|Hni]; [done|].
    apply (index_of_None ts m dep Hm) in Hni.
    apply list_elem_of_lookup in Ht as [i Hi].
    destruct (Forall2_lookup_l _ _ _ _ _ Hres Hi) as (l & _ & Hl).
    apply list_elem_of_lookup in Hdep as [p Hp].
    destruct (Forall2_lookup_l _ _ _ _ _ Hl Hp) as (k & _ & Hk). congruence. }
  destruct (topoSort_loop ts m nodes Hm Hres) as (order & rest & Hk & Hp & Hord & Hcyc).
  destruct (buildGraph nodes) as [adj inDegree] eqn:Hg. cbn [fst snd] in Hk.
  change (fun i : nat => default [] (adj !! i)) with (adjf (adj, inDegree)).
  rewrite Hk. cbn [fst].
  assert (Hlen : (length ts = length order + length rest)%nat).
  { by rewrite <-length_app, <-Hp, length_seq. }
  destruct (Nat.eqb_spec (length order) (length ts)) as [Heq|Hneq]; cbn [negb].
  - assert (rest = []) as -> by (destruct rest; [done|cbn in Hlen; lia]).
    rewrite app_nil_r in Hp. done.
  - split; [done|]. apply Hcyc. intros ->. cbn in Hlen. lia.
Qed.

(** ** Lemmas: levels *)

Definition level_of (level : list nat) (i : nat) : nat := default 0%nat (level !! i).

Lemma level_of_insert level i v j :
  (i < length level)%nat ->
  level_of (<[i := v]> level) j = if decide (j = i) then v else level_of level j.
Proof.
  intros Hi. unfold level_of. case_decide as Hj.
  - subst. by rewrite list_lookup_insert_eq.
  - by rewrite list_lookup_insert_ne.
Qed.

Lemma nameIndex_spec ts : NoDup (names ts) -> index_of ts (nameIndex ts).
Proof.
  unfold nameIndex. induction ts as [|t ts IH] using rev_ind; intros Hnd.
  { by intros ??. }
  rewrite names_app in Hnd. apply NoDup_app in Hnd as (Hnd & Hdis & _).
  rewrite indexed_app, foldl_app. cbn [foldl fst snd]. specialize (IH Hnd).
  apply index_of_snoc; [done|]. apply (index_of_None ts); [done|].
  intros Hin. by apply (Hdis _ Hin); left.
Qed.

(** The inner loop raises the level of [idx] just above its dependencies. *)
Lemma raiseLevel_loop m idx deps : forall level,
  (idx < length level)%nat -> Forall (fun dep => m !! dep <> Some idx) deps ->
  let level' := foldl (raiseLevel m idx) level deps in
  length level' = length level
  /\ (forall k, k <> idx -> level_of level' k = level_of level k)
  /\ (level_of level idx <= level_of level' idx)%nat
  /\ (forall dep j, dep ∈ deps -> m !! dep = Some j -> (level_of level j < level_of level' idx)%nat)
  /\ (level_of level' idx = level_of level idx
      \/ exists dep j, dep ∈ deps /\ m !! dep = Some j /\ level_of level' idx = S (level_of level j)).
Proof.
  induction deps as [|dep deps IH]; intros level Hidx Hself; cbn [foldl].
  { split_and!; [done|done|done| |by left]. intros dep j Hdep. by apply elem_of_nil in Hdep. }
  apply Forall_cons in Hself as [Hs Hself].
  unfold raiseLevel at 2 4 6 8 10 12.
  destruct (m !! dep) as [j|] eqn:Hj; last first.
  { destruct (IH level Hidx Hself) as (H1 & H2 & H3 & H4 & H5).
    split_and!; [done|done|done| |].
    - intros dep' j [->|Hin]%elem_of_cons Hm; [congruence|by eapply H4].
    - destruct H5 as [|(d & k & ? & ? & ?)]; [by left|right].
      exists d, k. split_and!; [by right|done|done]. }
  assert (Hji : j <> idx) by congruence.
  fold (level_of level j) (level_of level idx).
  set (level1 := if Nat.ltb _ _ then _ else _).
  assert (Hlen1 : length level1 = length level).
  { unfold level1. destruct (Nat.ltb _ _); [apply length_insert|done]. }
  assert (Hoth : forall k, k <> idx -> level_of level1 k = level_of level k).
  { intros k Hk. unfold level1. destruct (Nat.ltb _ _); [|done].
    by rewrite level_of_insert, decide_False. }
  assert (Hat : level_of level1 idx = Nat.max (level_of level idx) (S (level_of level j))).
  { unfold level1. destruct (Nat.ltb_spec (level_of level idx) (S (level_of level j))).
    - rewrite level_of_insert, decide_True by done. lia.
    - lia. }
  destruct (IH level1) as (H1 & H2 & H3 & H4 & H5); [lia|done|].
  clearbody level1. split_and!.
  - by rewrite H1.
  - intros k Hk. by rewrite H2, Hoth.
  - lia.
  - intros dep' k [->|Hin]%elem_of_cons Hm.
    + rewrite Hj in Hm. injection Hm as <-. lia.
    + destruct (decide (k = idx)) as [->|Hk].
      * rewrite Forall_forall in Hself. by destruct (Hself _ Hin).
      * rewrite <-(Hoth k Hk). by eapply H4.
  - destruct H5 as [H5|(d & k & Hd & Hm & H5)].
    + rewrite H5, Hat. destruct (decide (level_of level j < level_of level idx)%nat).
      * left. lia.
      * right. exists dep, j. split_and!; [left|done|lia].
    + right. exists d, k. split_and!; [by right|done|]. rewrite H5, Hoth; [done|].
      intros ->. rewrite Forall_forall in Hself. by destruct (Hself _ Hd).
Qed.

Lemma depends_index ts i j t :
  NoDup (names ts) -> ts !! i = Some t ->
  depends ts i j <-> exists dep, dep ∈ lt_DependsOn t /\ nameIndex ts !! dep = Some j.
Proof.
  intros Hnd Hi. pose proof (nameIndex_spec ts Hnd) as Hm. unfold depends. split.
  - intros (t' & u & Ht' & Hu & Hin). rewrite Hi in Ht'. injection Ht' as <-.
    exists (lt_Collection u). split; [done|]. apply Hm. unfold names. by rewrite list_lookup_fmap, Hu.
  - intros (dep & Hdep & Hj). apply Hm in Hj. unfold names in Hj.
    apply list_lookup_fmap_Some in Hj as (u & -> & Hu). by exists t, u.
Qed.

(** What a level means for the templates of [done]. *)
Definition levels_ok (ts : list LoadTemplate) (level finished : list nat) : Prop :=
  length level = length ts
  /\ (forall i, i ∉ finished -> level_of level i = 0%nat)
  /\ (forall i, i ∈ finished ->
        (forall j, depends ts i j -> (level_of level j < level_of level i)%nat)
        /\ (level_of level i = 0%nat
            \/ exists j, depends ts i j /\ level_of level i = S (level_of level j))).

Lemma computeLevels_spec ts order :
  NoDup (names ts) -> order ≡ₚ seq 0 (length ts) ->
  (forall before i after, order = before ++ i :: after -> forall j, depends ts i j -> j ∈ before) ->
  levels_ok ts (computeLevels order ts) order.
Proof.
  intros Hnd Hperm Hord. unfold computeLevels.
  set (step := fun level idx => foldl (raiseLevel (nameIndex ts) idx) level _).
  assert (Hpre : forall before after, order = before ++ after ->
            levels_ok ts (foldl step (replicate (length ts) 0%nat) before) before).
  2: { by apply (Hpre order []); rewrite app_nil_r. }
  induction before as [|i before IH] using rev_ind; intros after Ho; cbn [foldl].
  { split_and!; [apply length_replicate| |].
    - intros i _. unfold level_of. destruct (replicate _ _ !! i) eqn:E; [|done].
      by apply lookup_replicate in E as [-> _].
    - intros i Hi. by apply elem_of_nil in Hi. }
  rewrite <-app_assoc in Ho. cbn in Ho. destruct (IH _ Ho) as (Hlen & H0 & Hfin).
  rewrite foldl_app. cbn [foldl]. set (level := foldl step _ before) in *.
  assert (Hi : i ∈ seq 0 (length ts)).
  { rewrite <-Hperm, Ho. apply elem_of_app. right. left. }
  apply elem_of_seq in Hi. destruct (lookup_lt_is_Some_2 ts i) as [t Ht]; [lia|].
  assert (Hni : i ∉ before).
  { assert (Hnd' : NoDup order) by (rewrite Hperm; apply NoDup_seq).
    rewrite Ho in Hnd'. apply NoDup_app in Hnd' as (_ & Hdis & _).
    intros Hin. by apply (Hdis i Hin); left. }
  assert (Hdepi : forall j, depends ts i j -> j ∈ before) by (by eapply Hord).
  destruct (raiseLevel_loop (nameIndex ts) i (lt_DependsOn t) level)
    as (H1 & H2 & H3 & H4 & H5); [lia| |].
  { apply Forall_forall. intros dep Hdep Hm. apply Hni, Hdepi.
    apply (depends_index ts i i t); eauto. }
  assert (Hstep : step level i = foldl (raiseLevel (nameIndex ts) i) level (lt_DependsOn t)).
  { unfold step. by rewrite Ht. }
  rewrite <-Hstep in H1, H2, H3, H4, H5. clearbody level. clear Hstep.
  split_and!; [congruence| |].
  - intros k Hk. rewrite H2; [apply H0|]; set_solver.
  - intros k [Hk|Hk]%elem_of_app.
    + assert (Hki : k <> i) by (by intros ->).
      assert (Hdep : forall j, depends ts k j -> level_of (step level i) j = level_of level j).
      { intros j Hj. apply H2. intros ->. apply Hni.
        apply list_elem_of_split in Hk as (b1 & b2 & ->).
        rewrite <-app_assoc in Ho. cbn in Ho. apply elem_of_app. left. by eapply Hord. }
      rewrite H2 by done. destruct (Hfin k Hk) as [Hlt Hex]. split.
      * intros j Hj. rewrite Hdep by done. by apply Hlt.
      * destruct Hex as [|(j & Hj & He)]; [by left|right]. exists j. by rewrite Hdep.
    + apply list_elem_of_singleton in Hk as ->.
      assert (Hsame : forall j, depends ts i j -> level_of (step level i) j = level_of level j).
      { intros j Hj. apply H2. intros ->. by apply Hni, Hdepi. }
      split.
      * intros j Hj. rewrite Hsame by done.
        apply (depends_index ts i j t) in Hj as (dep & Hdep & Hm); [|done|done]. by eapply H4.
      * destruct H5 as [->|(dep & j & Hdep & Hm & He)]; [left; by apply H0|right].
        assert (Hj : depends ts i j) by (apply (depends_index ts i j t); eauto).
        exists j. split; [done|]. rewrite (Hsame j) by done. exact He.
Qed.

Lemma maxLevel_ge level i lv : level !! i = Some lv -> (lv <= maxLevel level)%nat.
Proof.
  unfold maxLevel. assert (Hmono : forall l a b, (a <= b)%nat -> (a <= foldl Nat.max b l)%nat).
  { induction l as [|x l IH]; intros a b Hab; cbn; [done|]. apply IH. lia. }
  generalize 0%nat. revert i. induction level as [|x level IH]; intros [|i] b Hi; [done|done| |].
  - injection Hi as ->. cbn [foldl]. apply Hmono. lia.
  - cbn. by eapply IH.
Qed.

(** Distributing the indices over the levels keeps every index once. *)
Lemma distribute_spec ps : forall levels,
  Forall (fun p : nat * nat => p.2 < length levels)%nat ps ->
  let levels' := foldl (fun levels (p : nat * nat) => alter (fun l => l ++ [p.1]) p.2 levels) levels ps in
  concat levels' ≡ₚ concat levels ++ ps.*1
  /\ (forall i a, i ∈ default [] (levels' !! a) <-> i ∈ default [] (levels !! a) \/ (i, a) ∈ ps).
Proof.
  induction ps as [|[i lv] ps IH]; intros levels Hps; cbn [foldl fmap list_fmap fst snd].
  { rewrite app_nil_r. split; [done|]. intros. rewrite elem_of_nil. tauto. }
  apply Forall_cons in Hps as [Hlv Hps]. cbn [snd] in Hlv.
  destruct (lookup_lt_is_Some_2 levels lv Hlv) as [l Hl].
  destruct (IH (alter (fun l => l ++ [i]) lv levels)) as [Hc Hel]; [by rewrite length_alter|].
  rewrite Hc. split.
  - rewrite <-(take_drop_middle _ _ _ Hl) at 1. rewrite alter_app_r_alt by (rewrite length_take; lia).
    rewrite length_take, Nat.min_l, Nat.sub_diag by lia. cbn.
    rewrite <-(take_drop_middle _ _ _ Hl) at 3.
    rewrite !concat_app. cbn. rewrite <-!app_assoc. cbn.
    do 2 f_equiv. by rewrite Permutation_middle.
  - intros k a. rewrite Hel, elem_of_cons. destruct (decide (a = lv)) as [->|Ha].
    + rewrite list_lookup_alter_eq, Hl. cbn. rewrite elem_of_app, list_elem_of_singleton. naive_solver.
    + rewrite list_lookup_alter_ne by done. naive_solver.
Qed.

(** Levels of an accepted set of templates: every template is in exactly one
    level, everything it depends on is in an earlier level, and a template is
    not delayed needlessly, since one of its dependencies is in the level just
    below. *)
Theorem buildLevels_correct (ts : list LoadTemplate) (order : list nat) :
  topoSort ts = Ok order ->
  let levels := buildLevels order ts in
  concat levels ≡ₚ seq 0 (length ts)
  /\ (forall a i j, i ∈ default [] (levels !! a) -> depends ts i j ->
        exists b, (b < a)%nat /\ j ∈ default [] (levels !! b))
  /\ (forall a i, i ∈ default [] (levels !! S a) ->
        exists j, depends ts i j /\ j ∈ default [] (levels !! a)).
Proof.
  intros Hs. pose proof (topoSort_spec ts) as Hex. rewrite Hs in Hex.
  destruct Hex as ((_ & Hnd & _) & Hperm & Hord).
  destruct (computeLevels_spec ts order Hnd Hperm Hord) as (Hlen & _ & Hlv).
  unfold buildLevels. set (level := computeLevels order ts) in *. clearbody level.
  destruct (distribute_spec (indexed level) (replicate (S (maxLevel level)) [])) as [Hc Hel].
  { apply Forall_forall. intros [i lv] Hi. apply indexed_lookup in Hi. cbn.
    rewrite length_replicate. apply maxLevel_ge in Hi. lia. }
  set (levels := foldl _ _ _) in *. clearbody levels.
  assert (Hempty : forall A n, concat (replicate n (@nil A)) = []).
  { intros A n. induction n; [done|]. cbn. done. }
  assert (Hmem : forall i a, i ∈ default [] (levels !! a) <-> level !! i = Some a).
  { intros i a. rewrite Hel, indexed_lookup.
    assert (i ∉ default [] (replicate (S (maxLevel level)) (@nil nat) !! a)); [|tauto].
    destruct (replicate _ _ !! a) eqn:E; cbn; [|apply not_elem_of_nil].
    apply lookup_replicate in E as [-> _]. apply not_elem_of_nil. }
  assert (Hat : forall i a, level !! i = Some a -> level_of level i = a /\ i ∈ order).
  { intros i a Hi. unfold level_of. rewrite Hi. split; [done|].
    rewrite Hperm. apply lookup_lt_Some in Hi. apply elem_of_seq. lia. }
  assert (Hsome : forall i j, depends ts i j -> level !! j = Some (level_of level j)).
  { intros i j (_ & u & _ & Hu & _). apply lookup_lt_Some in Hu. unfold level_of.
    destruct (lookup_lt_is_Some_2 level j) as [v ->]; [lia|done]. }
  split_and!.
  - by rewrite Hc, Hempty, fmap_fst_indexed, Hlen.
  - intros a i j Hi Hj. apply Hmem, Hat in Hi as [<- Hi].
    exists (level_of level j). split; [by apply (Hlv i Hi)|]. apply Hmem. by eapply Hsome.
  - intros a i Hi. apply Hmem, Hat in Hi as [He Hi].
    destruct (Hlv i Hi) as [_ [|(j & Hj & Hs')]]; [lia|].
    exists j. split; [done|]. apply Hmem. rewrite (Hsome i j Hj). f_equal. lia.
Qed.

(** [topoSort] accepts exactly the well-formed, acyclic sets of templates.  The
    order it returns contains every template once and no template before one it
    depends on; a circular-dependency error means that there is a cycle; the
    other errors mean an empty or repeated name or an unknown dependency. *)
Theorem topoSort_exact (ts : list LoadTemplate) :
  match topoSort ts with
  | Ok order =>
      templates_ok ts /\ order ≡ₚ seq 0 (length ts)
      /\ (forall before i after, order = before ++ i :: after ->
            forall j, depends ts i j -> j ∈ before)
  | Err ErrCircularDependency => templates_ok ts /\ exists i, tc (depends ts) i i
  | Err _ => ~ templates_ok ts
  end.
Proof. exact (topoSort_spec ts). Qed.

(** ** A sample: two sources, a template that needs both and one on top *)
Definition sample_templates : list LoadTemplate :=
  [mkTemplate "guild" ["player"; "world"]; mkTemplate "player" []; mkTemplate "world" [];
   mkTemplate "mail" ["guild"; "player"]].

Example sample_levels :
  topoSort sample_templates = Ok [1; 2; 0; 3]%nat
  /\ buildLevels [1; 2; 0; 3]%nat sample_templates = [[1; 2]; [0]; [3]]%nat.
Proof. by vm_compute. Qed.

Lemma buildLevels_correct_witness :
  exists a, (a < 1)%nat /\ 2%nat ∈ default [] (buildLevels [1; 2; 0; 3]%nat sample_templates !! a).
Proof.
  assert (Hs : topoSort sample_templates = Ok [1; 2; 0; 3]%nat) by (vm_compute; reflexivity).
  destruct (buildLevels_correct sample_templates [1; 2; 0; 3]%nat Hs) as (_ & Hlow & _).
  apply (Hlow 1%nat 0%nat 2%nat); [by_evaluation|].
  exists (mkTemplate "guild" ["player"; "world"]), (mkTemplate "world" []).
  split; [reflexivity|]. split; [reflexivity|by_evaluation].
Defined.
