(* ===== verification/CompSort.v ===== *)
(** * Component dependency orders

    [src/entity/comp_sort.go] orders the components of entities so that a component
    comes after the components it needs, and caches the order until another
    dependency is registered; [src/misc/topologic_sort.go] is a generic copy of the
    same code that differs in the test for a cycle.  Go iterates over maps in no
    particular order: the orders are arguments of the model ([mapOrder]). *)

From stdpp Require Import base list gmap sorting relations.
From Stdlib Require Import ZArith Lia.
From S2P Require Import Prelude TopoSort.

Local Open Scope Z_scope.

Section CompSort.
Context {T : Type} `{Countable T}.

(** [compTopologicalSort] and [TopologicalSortCache]; a [nil] cache is [None]. *)
Record compTopologicalSort := mkCompSort {
  ct_cache : option (list T);
  ct_isCacheValid : bool;
  ct_dependencies : gmap T (list T)
}.

Definition newCompTopologicalSort : compTopologicalSort := mkCompSort None false ∅.

(** A second registration of the same component is logged and ignored. *)
Definition RegisterCompDependency (t : compTopologicalSort) (tT : T) (dependencies : list T)
    : compTopologicalSort :=
  match ct_dependencies t !! tT with
  | Some _ => t
  | None => mkCompSort None false (<[tT := dependencies]> (ct_dependencies t))
  end.

(** The order in which one call iterates over [t.dependencies] and [inDegree]. *)
Record mapOrder := mkOrder {
  mo_dependencies : list (T * list T) -> list (T * list T);
  mo_inDegree : list (T * Z) -> list (T * Z)
}.

Definition mapOrder_ok (o : mapOrder) : Prop :=
  (forall l, mo_dependencies o l ≡ₚ l) /\ (forall l, mo_inDegree o l ≡ₚ l).

Definition sortGraph := (gmap T Z * gmap T (list T))%type.

(** [inDegree[compType] = 0; graph[compType] = []T{}] for every component. *)
Definition emptyGraph (dependencies : gmap T (list T)) : sortGraph :=
  ((fun _ => 0) <$> dependencies, (fun _ => []) <$> dependencies).

(** The body of [for _, dep := range deps]. *)
Definition addDependency (compType : T) (g : sortGraph) (dep : T) : sortGraph :=
  let inDegree := match g.1 !! dep with Some _ => g.1 | None => <[dep := 0]> g.1 end in
  (<[dep := default 0 (inDegree !! dep) + 1]> inDegree,
   <[compType := default [] (g.2 !! compType) ++ [dep]]> g.2).

Definition dependencyGraph (o : mapOrder) (dependencies : gmap T (list T)) : sortGraph :=
  foldl (fun g (p : T * list T) => foldl (addDependency p.1) g p.2)
    (emptyGraph dependencies) (mo_dependencies o (map_to_list dependencies)).

(** [inDegree] and the nodes in the order they leave the queue. *)
Definition sortQueue (o : mapOrder) (dependencies : gmap T (list T)) : gmap T Z * list T :=
  let '(inDegree, graph) := dependencyGraph o dependencies in
  let queue := (filter (fun p : T * Z => p.2 = 0) (mo_inDegree o (map_to_list inDegree))).*1 in
  (inDegree, (kahn (fun x => default [] (graph !! x)) (size inDegree) inDegree queue []).1).

(** A valid cache answers; otherwise the order is computed and cached. *)
Definition compSort_Get (t : compTopologicalSort) (o : mapOrder)
    : compTopologicalSort * result unit (list T) :=
  match ct_isCacheValid t, ct_cache t with
  | true, Some cache => (t, Ok cache)
  | _, _ =>
      let '(inDegree, sorted) := sortQueue o (ct_dependencies t) in
      if negb (Nat.eqb (length sorted) (size inDegree)) then (t, Err tt) else
      let sorted := rev sorted in
      (mkCompSort (Some sorted) true (ct_dependencies t), Ok sorted)
  end.

(** The copy in [misc]: the sorted nodes are compared with the number of
    registered components; [nil] is [None]. *)
Definition cacheSort_Get (t : compTopologicalSort) (o : mapOrder)
    : compTopologicalSort * option (list T) :=
  match ct_isCacheValid t, ct_cache t with
  | true, Some cache => (t, Some cache)
  | _, _ =>
      let '(_, sorted) := sortQueue o (ct_dependencies t) in
      if negb (Nat.eqb (length sorted) (size (ct_dependencies t))) then (t, None) else
      let sorted := rev sorted in
      (mkCompSort (Some sorted) true (ct_dependencies t), Some sorted)
  end.

Definition GetCompDependencies (t : compTopologicalSort) (componentType : T) : option (list T) :=
  ct_dependencies t !! componentType.

(** ** Specification *)

Definition needs (dependencies : gmap T (list T)) (x y : T) : Prop :=
  exists deps, dependencies !! x = Some deps /\ y ∈ deps.

(** Registered components and everything they need. *)
Definition components (dependencies : gmap T (list T)) (x : T) : Prop :=
  is_Some (dependencies !! x) \/ exists c, needs dependencies c x.

(** Every component once, after all it needs. *)
Definition dependency_order (dependencies : gmap T (list T)) (order : list T) : Prop :=
  NoDup order /\ (forall x, x ∈ order <-> components dependencies x)
  /\ (forall before x after, order = before ++ x :: after ->
        forall y, needs dependencies x y -> y ∈ before).

(** A run of calls; a [Get] has its own iteration orders. *)
Inductive sortCall := CallRegister (c : T) (deps : list T) | CallGet (o : mapOrder).

Definition sort_step (t : compTopologicalSort) (c : sortCall) : compTopologicalSort :=
  match c with
  | CallRegister c deps => RegisterCompDependency t c deps
  | CallGet o => (compSort_Get t o).1
  end.

Definition call_ok (c : sortCall) : Prop :=
  match c with CallRegister _ _ => True | CallGet o => mapOrder_ok o end.

Definition sort_run (calls : list sortCall) : compTopologicalSort :=
  foldl sort_step newCompTopologicalSort calls.

(** ** Lemmas: the graph *)

Definition gadj (g : sortGraph) (x : T) : list T := default [] (g.2 !! x).

Definition gdeg (g : sortGraph) (x : T) : Z := default 0 (g.1 !! x).

(** The nodes of the graph are the keys of [inDegree], and a degree counts the
    edges into its node. *)
Record graph_inv (g : sortGraph) : Prop := {
  gi_from x : is_Some (g.2 !! x) -> is_Some (g.1 !! x);
  gi_to x y : y ∈ gadj g x -> is_Some (g.1 !! y);
  gi_degree ys x : NoDup ys -> (forall c, c ∈ ys <-> is_Some (g.1 !! c)) ->
    gdeg g x = Z.of_nat (edges_into (gadj g) ys x)
}.

Lemma gdeg_addDependency c g dep x :
  gdeg (addDependency c g dep) x = gdeg g x + (if decide (x = dep) then 1 else 0).
Proof.
  unfold gdeg, addDependency. cbn [fst]. case_decide as Hx.
  - subst. rewrite lookup_insert_eq. cbn. destruct (g.1 !! dep) eqn:E.
    + by rewrite E.
    + by rewrite lookup_insert_eq.
  - rewrite lookup_insert_ne by done. destruct (g.1 !! dep) eqn:E; [lia|].
    rewrite lookup_insert_ne by done. lia.
Qed.

Lemma gadj_addDependency c g dep x :
  gadj (addDependency c g dep) x = gadj g x ++ (if decide (x = c) then [dep] else []).
Proof.
  unfold gadj, addDependency. cbn [snd]. case_decide as Hx.
  - subst. by rewrite lookup_insert_eq.
  - rewrite lookup_insert_ne by done. by rewrite app_nil_r.
Qed.

Lemma nodes_addDependency c g dep x :
  is_Some ((addDependency c g dep).1 !! x) <-> is_Some (g.1 !! x) \/ x = dep.
Proof.
  unfold addDependency. cbn [fst]. rewrite lookup_insert_is_Some.
  destruct (g.1 !! dep) as [z|] eqn:E.
  - destruct (decide (dep = x)) as [->|]; [|naive_solver]. rewrite E. naive_solver.
  - rewrite lookup_insert_is_Some. destruct (decide (dep = x)); naive_solver.
Qed.

Lemma addDependency_inv c g dep :
  graph_inv g -> is_Some (g.1 !! c) -> graph_inv (addDependency c g dep).
Proof.
  intros [Hfrom Hto Hdeg] Hc. split.
  - intros x Hx. apply nodes_addDependency. unfold addDependency in Hx. cbn [snd] in Hx.
    rewrite lookup_insert_is_Some in Hx. destruct Hx as [<-|[_ Hx]]; left; [done|by apply Hfrom].
  - intros x y Hy. rewrite gadj_addDependency, elem_of_app in Hy. apply nodes_addDependency.
    destruct Hy as [Hy|Hy]; [left; by eapply Hto|]. right. case_decide; set_solver.
  - intros ys x Hnd Hys. rewrite gdeg_addDependency.
    rewrite (edges_into_ext _ _ _ _ (gadj_addDependency c g dep)).
    assert (Hcy : c ∈ ys) by (apply Hys, nodes_addDependency; by left).
    rewrite edges_into_append by done.
    assert (gdeg g x = Z.of_nat (edges_into (gadj g) ys x)); [|case_decide; lia].
    setoid_rewrite nodes_addDependency in Hys.
    destruct (g.1 !! dep) as [z|] eqn:Hz.
    + apply Hdeg; [done|]. intros y. rewrite Hys. split; [|by left].
      intros [Hy|Hy]; [done|subst; by eexists].
    + assert (Hdy : dep ∈ ys) by (apply Hys; by right).
      apply list_elem_of_split in Hdy as (y1 & y2 & ->).
      assert (Hp : y1 ++ dep :: y2 ≡ₚ dep :: y1 ++ y2) by (by rewrite Permutation_middle).
      setoid_rewrite Hp in Hys. rewrite Hp in Hnd |- *. apply NoDup_cons in Hnd as [Hd Hnd].
      rewrite edges_into_cons. replace (gadj g dep) with (@nil T).
      2: { unfold gadj. destruct (g.2 !! dep) eqn:E; [|done].
           destruct (Hfrom dep) as [w Hw]; [by eexists|congruence]. }
      cbn [count_in filter list_filter length Nat.add]. apply Hdeg; [done|].
      intros y. specialize (Hys y). rewrite elem_of_cons in Hys.
      destruct (decide (y = dep)) as [->|]; [|naive_solver].
      split; [done|]. rewrite Hz. by intros [? ?].
Qed.

Definition depEdges (l : list (T * list T)) : list (T * T) :=
  l ≫= fun p => (fun dep => (p.1, dep)) <$> p.2.

Lemma addDependencies_spec es : forall g,
  graph_inv g -> Forall (fun e => is_Some (g.1 !! e.1)) es ->
  let g' := foldl (fun g e => addDependency e.1 g e.2) g es in
  graph_inv g'
  /\ (forall x, is_Some (g'.1 !! x) <-> is_Some (g.1 !! x) \/ x ∈ es.*2)
  /\ (forall x y, y ∈ gadj g' x <-> y ∈ gadj g x \/ (x, y) ∈ es).
Proof.
  induction es as [|[c dep] es IH]; intros g Hg Hes; cbn [foldl fmap list_fmap fst snd].
  { split_and!; [done| |]; intros; rewrite elem_of_nil; tauto. }
  apply Forall_cons in Hes as [Hc Hes]. cbn [fst] in Hc.
  destruct (IH (addDependency c g dep)) as (Hi & Hn & Ha).
  { by apply addDependency_inv. }
  { eapply Forall_impl; [exact Hes|]. intros e He. apply nodes_addDependency. by left. }
  split_and!; [done| |].
  - intros x. rewrite Hn, nodes_addDependency, elem_of_cons. tauto.
  - intros x y. rewrite Ha, gadj_addDependency, elem_of_app, elem_of_cons.
    case_decide; [rewrite list_elem_of_singleton|rewrite elem_of_nil]; naive_solver.
Qed.

Lemma dependencyGraph_edges o dependencies :
  dependencyGraph o dependencies
  = foldl (fun g e => addDependency e.1 g e.2) (emptyGraph dependencies)
      (depEdges (mo_dependencies o (map_to_list dependencies))).
Proof.
  unfold dependencyGraph, depEdges. generalize (emptyGraph dependencies).
  induction (mo_dependencies o (map_to_list dependencies)) as [|[c deps] l IH]; intros g; [done|].
  cbn [foldl mbind list_bind fst snd]. rewrite foldl_app, <-IH. f_equal.
  revert g. induction deps as [|dep deps IHd]; intros g; [done|]. cbn. apply IHd.
Qed.

Lemma depEdges_needs o dependencies x y :
  mapOrder_ok o ->
  (x, y) ∈ depEdges (mo_dependencies o (map_to_list dependencies)) <-> needs dependencies x y.
Proof.
  intros [Ho _]. unfold depEdges, needs. rewrite list_elem_of_bind. split.
  - intros ([c deps] & He & Hc). cbn in He. apply list_elem_of_fmap in He as (? & [= -> ->] & Hy).
    rewrite Ho in Hc. apply elem_of_map_to_list in Hc. eauto.
  - intros (deps & Hx & Hy). exists (x, deps). cbn. rewrite Ho, elem_of_map_to_list.
    split; [|done]. apply list_elem_of_fmap. eauto.
Qed.

Lemma emptyGraph_inv dependencies : graph_inv (emptyGraph dependencies).
Proof.
  assert (Hadj : forall x, gadj (emptyGraph dependencies) x = []).
  { intros x. unfold gadj, emptyGraph. cbn. rewrite lookup_fmap. by destruct (dependencies !! x). }
  split.
  - intros x. unfold emptyGraph. cbn. by rewrite !lookup_fmap, !fmap_is_Some.
  - intros x y Hy. rewrite Hadj in Hy. by apply elem_of_nil in Hy.
  - intros ys x _ _. unfold gdeg, emptyGraph. cbn [fst]. rewrite lookup_fmap.
    assert (~ (0 < edges_into (gadj (emptyGraph dependencies)) ys x)%nat).
    { rewrite edges_into_pos. intros (y & _ & Hy). rewrite Hadj in Hy. by apply elem_of_nil in Hy. }
    unfold emptyGraph in *. destruct (dependencies !! x); cbn [fmap option_fmap option_map default from_option id]; lia.
Qed.

Lemma dependencyGraph_spec o dependencies :
  mapOrder_ok o ->
  let g := dependencyGraph o dependencies in
  graph_inv g /\ (forall x, is_Some (g.1 !! x) <-> components dependencies x)
  /\ (forall x y, y ∈ gadj g x <-> needs dependencies x y).
Proof.
  intros Ho. cbv zeta. rewrite dependencyGraph_edges.
  pose proof (fun x y => depEdges_needs o dependencies x y Ho) as Hne.
  set (es := depEdges _) in *. clearbody es.
  assert (He0 : forall x, is_Some ((emptyGraph dependencies).1 !! x) <-> is_Some (dependencies !! x)).
  { intros x. unfold emptyGraph. cbn. by rewrite lookup_fmap, fmap_is_Some. }
  destruct (addDependencies_spec es (emptyGraph dependencies)) as (Hi & Hn & Ha).
  { apply emptyGraph_inv. }
  { apply Forall_forall. intros [x y] Hxy. apply He0. apply Hne in Hxy as (deps & Hx & _).
    by eexists. }
  split_and!; [done| |].
  - intros x. rewrite Hn, He0. unfold components. rewrite list_elem_of_fmap.
    setoid_rewrite <-Hne. split.
    + intros [Hx|([c y] & -> & Hc)]; [by left|right]. by exists c.
    + intros [Hx|[c Hc]]; [by left|right]. by exists (c, x).
  - intros x y. rewrite Ha, <-Hne. unfold gadj, emptyGraph. cbn. rewrite lookup_fmap.
    destruct (dependencies !! x); cbn; rewrite elem_of_nil; tauto.
Qed.

(** Reversing puts what a node needs in front of it. *)
Lemma topological_rev (adj : T -> list T) nodes sorted before x after y :
  topological adj nodes sorted -> NoDup sorted -> rev sorted = before ++ x :: after ->
  y ∈ sorted -> edge adj nodes x y -> y ∈ before.
Proof.
  intros Ht Hnd Hrev Hy Hxy.
  assert (Hs : sorted = rev after ++ x :: rev before).
  { rewrite <-(rev_involutive sorted), Hrev, rev_app_distr. cbn. by rewrite <-app_assoc. }
  apply list_elem_of_split in Hy as (b1 & b2 & Hb).
  assert (Hx : x ∈ b1) by (eapply Ht; [exact Hb|done]).
  apply list_elem_of_split in Hx as (c1 & c2 & ->).
  rewrite <-app_assoc in Hb. cbn in Hb. rewrite Hs in Hb, Hnd.
  assert (Hsplit : rev after = c1 /\ rev before = c2 ++ y :: b2).
  { apply NoDup_app in Hnd as (_ & Hdis & Hnd). apply NoDup_cons in Hnd as [Hxb _].
    clear -Hb Hdis Hxb. revert c1 Hb Hdis. generalize (rev after) as a.
    induction a as [|z a IH]; intros [|w c1] Hb Hdis; cbn in *.
    - injection Hb as ->. done.
    - injection Hb as -> Hb. exfalso. apply Hxb. rewrite Hb. apply elem_of_app. right. left.
    - injection Hb as -> Hb. exfalso. by apply (Hdis x); left.
    - injection Hb as -> Hb. destruct (IH c1 Hb) as [-> ->]; [|done].
      intros k Hk. apply Hdis. by right. }
  destruct Hsplit as [_ Hbef]. rewrite <-(rev_involutive before), Hbef, rev_app_distr. cbn.
  apply elem_of_app. left. apply elem_of_app. right. left.
Qed.

Lemma sortQueue_spec o dependencies :
  mapOrder_ok o ->
  exists rest : list T,
    (size (sortQueue o dependencies).1 = length (sortQueue o dependencies).2 + length rest)%nat
    /\ (rest = [] -> dependency_order dependencies (rev (sortQueue o dependencies).2)
                     /\ forall x, ~ tc (needs dependencies) x x)
    /\ (rest <> [] -> exists x, tc (needs dependencies) x x)
    /\ (forall x, is_Some ((sortQueue o dependencies).1 !! x) <-> components dependencies x).
Proof.
  intros Ho. destruct (dependencyGraph_spec o dependencies Ho) as ([_ Hto Hdeg] & Hn & Ha).
  unfold sortQueue. destruct (dependencyGraph o dependencies) as [inDegree graph] eqn:Hg.
  set (g := (inDegree, graph)) in *. cbn [fst snd].
  set (nodes := (map_to_list inDegree).*1).
  assert (Hnd : NoDup nodes) by apply NoDup_fst_map_to_list.
  assert (Hin : forall x, x ∈ nodes <-> is_Some (inDegree !! x)).
  { intros x. unfold nodes. rewrite list_elem_of_fmap. split.
    - intros ([k z] & -> & Hk). apply elem_of_map_to_list in Hk. by eexists.
    - intros [z Hz]. exists (x, z). by rewrite elem_of_map_to_list. }
  assert (Hsize : size inDegree = length nodes).
  { unfold nodes. by rewrite length_fmap, length_map_to_list. }
  assert (Hedge : forall x y, edge (gadj g) nodes x y <-> needs dependencies x y).
  { intros x y. unfold edge. rewrite Ha. split; [by intros []|]. intros Hxy. split; [|done].
    apply Hin, Hn. left. destruct Hxy as (deps & Hx & _). by eexists. }
  set (queue := (filter _ _).*1).
  destruct (kahn_correct (gadj g) nodes inDegree queue) as (sorted & rest & Hk & Hp & Ht & Hac & Hcyc).
  - done.
  - intros x y _ Hy. apply Hin. by eapply Hto.
  - done.
  - intros x Hx. apply (Hdeg nodes x Hnd). intros c. by rewrite Hin.
  - apply NoDup_Permutation.
    + unfold queue. eapply sublist_NoDup; [|apply fmap_sublist, sublist_filter].
      destruct Ho as [_ Ho]. rewrite Ho. apply NoDup_fst_map_to_list.
    + by apply NoDup_filter.
    + intros x. unfold queue. rewrite list_elem_of_filter, list_elem_of_fmap, Hin.
      destruct Ho as [_ Ho]. cbn [degree map_degrees]. split.
      * intros ([k z] & -> & Hk). apply list_elem_of_filter in Hk as [Hz Hk].
        rewrite Ho in Hk. apply elem_of_map_to_list in Hk. cbn in *. rewrite Hk. by split; [|eexists].
      * intros [Hz [z Hx]]. rewrite Hx in Hz. exists (x, z).
        rewrite list_elem_of_filter, Ho, elem_of_map_to_list. done.
  - rewrite Hsize. change (fun x : T => default [] (graph !! x)) with (gadj g). rewrite Hk. cbn [fst].
    assert (Htc : forall x y, tc (edge (gadj g) nodes) x y <-> tc (needs dependencies) x y).
    { intros x y. split; induction 1 as [a b Hab|a b c Hab _ IH].
      - by apply tc_once, Hedge.
      - eapply tc_l; [by apply Hedge|done].
      - by apply tc_once, Hedge.
      - eapply tc_l; [by apply Hedge|done]. }
    exists rest. split_and!.
    + by rewrite Hp, length_app.
    + intros ->. rewrite app_nil_r in Hp. split.
      * split_and!.
        -- by rewrite <-Permutation_rev, <-Hp.
        -- intros x. rewrite <-Permutation_rev, <-Hp, Hin. apply Hn.
        -- intros before x after Hr y Hy. eapply topological_rev; [done| |exact Hr| |by apply Hedge].
           ++ by rewrite <-Hp.
           ++ rewrite <-Hp. apply Hin, Hn. right. by exists x.
      * intros x. rewrite <-Htc. by apply Hac.
    + intros Hne. destruct (Hcyc Hne) as [x Hx]. exists x. by apply Htc.
    + done.
Qed.

(** ** The cache *)

(** A valid cache is the order of the dependencies registered now. *)
Definition sort_inv (t : compTopologicalSort) : Prop :=
  forall cache, ct_isCacheValid t = true -> ct_cache t = Some cache ->
  dependency_order (ct_dependencies t) cache /\ forall x, ~ tc (needs (ct_dependencies t)) x x.

Lemma compSort_Get_spec t o :
  sort_inv t -> mapOrder_ok o ->
  sort_inv (compSort_Get t o).1 /\ ct_dependencies (compSort_Get t o).1 = ct_dependencies t
  /\ match (compSort_Get t o).2 with
     | Ok order => dependency_order (ct_dependencies t) order
                   /\ forall x, ~ tc (needs (ct_dependencies t)) x x
     | Err _ => exists x, tc (needs (ct_dependencies t)) x x
     end.
Proof.
  intros Hinv Ho. unfold compSort_Get.
  destruct (sortQueue_spec o (ct_dependencies t) Ho) as (rest & Hsz & Hnil & Hcyc & _).
  destruct (sortQueue o (ct_dependencies t)) as [inDegree sorted]. cbn [fst snd] in Hsz, Hnil.
  assert (Hcompute :
    let r := if negb (Nat.eqb (length sorted) (size inDegree)) then (t, Err tt)
             else (mkCompSort (Some (rev sorted)) true (ct_dependencies t), Ok (rev sorted)) in
    sort_inv r.1 /\ ct_dependencies r.1 = ct_dependencies t
    /\ match r.2 with
       | Ok order => dependency_order (ct_dependencies t) order
                     /\ forall x, ~ tc (needs (ct_dependencies t)) x x
       | Err _ => exists x, tc (needs (ct_dependencies t)) x x
       end).
  { destruct (Nat.eqb_spec (length sorted) (size inDegree)) as [He|He]; cbn.
    - assert (rest = []) as -> by (destruct rest; [done|cbn in Hsz; lia]).
      split_and!; [|done|by apply Hnil|by apply Hnil].
      intros cache _ [= <-]. by apply Hnil.
    - split_and!; [done|done|]. apply Hcyc. intros ->. cbn in Hsz. lia. }
  destruct (ct_isCacheValid t) eqn:Hv; [|done].
  destruct (ct_cache t) as [cache|] eqn:Hc; [|done]. cbn. split_and!; [done|done| |];
  by apply (Hinv cache).
Qed.

Lemma sort_run_inv calls : Forall call_ok calls -> sort_inv (sort_run calls).
Proof.
  unfold sort_run. assert (H0 : sort_inv newCompTopologicalSort) by (by intros ? [=]).
  revert H0. generalize newCompTopologicalSort as t.
  induction calls as [|c calls IH]; intros t Ht Hok; [done|]. apply Forall_cons in Hok as [Hc Hok].
  cbn [foldl]. apply IH; [|done]. destruct c as [c deps|o]; cbn [sort_step].
  - unfold RegisterCompDependency. destruct (ct_dependencies t !! c); [done|]. by intros ? [=].
  - by apply compSort_Get_spec.
Qed.

(** After any sequence of registrations and queries, a query returns every
    component once with all it needs before it, or reports a cycle that exists;
    the cache never answers with the order of an older set of dependencies. *)
Theorem compSort_Get_exact (calls : list sortCall) (o : mapOrder) :
  Forall call_ok calls -> mapOrder_ok o ->
  let t := sort_run calls in
  match (compSort_Get t o).2 with
  | Ok order => dependency_order (ct_dependencies t) order
                /\ forall x, ~ tc (needs (ct_dependencies t)) x x
  | Err _ => exists x, tc (needs (ct_dependencies t)) x x
  end.
Proof. intros Hc Ho t. by apply (compSort_Get_spec t o (sort_run_inv calls Hc) Ho). Qed.

(** ** The copy in [misc] *)

(** When every dependency is itself registered the copy agrees with
    [compSort_Get]: [nil] stands for the error. *)
Theorem cacheSort_Get_agrees (t : compTopologicalSort) (o : mapOrder) :
  mapOrder_ok o ->
  (forall x y, needs (ct_dependencies t) x y -> is_Some (ct_dependencies t !! y)) ->
  cacheSort_Get t o
  = ((compSort_Get t o).1, match (compSort_Get t o).2 with Ok l => Some l | Err _ => None end).
Proof.
  intros Ho Hreg. unfold cacheSort_Get, compSort_Get.
  destruct (sortQueue_spec o (ct_dependencies t) Ho) as (_ & _ & _ & _ & Hdom).
  destruct (sortQueue o (ct_dependencies t)) as [inDegree sorted]. cbn [fst] in Hdom.
  assert (Hsz : size inDegree = size (ct_dependencies t)).
  { rewrite <-!size_dom. f_equal. apply set_eq. intros x. rewrite !elem_of_dom, Hdom.
    unfold components. split; [|by left]. intros [|[c Hc]]; [done|by eapply Hreg]. }
  rewrite Hsz. destruct (ct_isCacheValid t), (ct_cache t); try done; by destruct (negb _).
Qed.

Definition in_order : mapOrder := mkOrder (fun l => l) (fun l => l).

Lemma in_order_ok : mapOrder_ok in_order.
Proof. by split. Qed.
End CompSort.

(** ** Samples *)

(** Component 3 needs 1 and 2, and 2 needs 1. *)
Definition sample_calls : list (sortCall (T := nat)) :=
  [CallRegister 3 [1; 2]; CallGet in_order; CallRegister 2 [1]; CallRegister 1 [];
   CallRegister 3 []]%nat.

Lemma compSort_Get_exact_witness :
  dependency_order (ct_dependencies (sort_run sample_calls)) [1; 2; 3]%nat.
Proof.
  assert (Hc : Forall call_ok sample_calls).
  { unfold sample_calls. rewrite !Forall_cons. split_and!; done. }
  pose proof (compSort_Get_exact sample_calls in_order Hc in_order_ok) as Hx.
  assert (He : (compSort_Get (sort_run sample_calls) in_order).2 = Ok [1; 2; 3]%nat)
    by (vm_compute; reflexivity).
  cbv zeta in Hx. rewrite He in Hx. exact (proj1 Hx).
Defined.

Lemma cacheSort_Get_agrees_witness :
  (cacheSort_Get (sort_run sample_calls) in_order).2 = Some [1; 2; 3]%nat.
Proof.
  assert (Hd : ct_dependencies (sort_run sample_calls) = {[ 3%nat := [1; 2]%nat; 2%nat := [1%nat]; 1%nat := [] ]})
    by (vm_compute; reflexivity).
  rewrite (cacheSort_Get_agrees (sort_run sample_calls) in_order in_order_ok).
  - vm_compute. reflexivity.
  - intros x y (deps & Hx & Hy). rewrite Hd in Hx |- *.
    rewrite !lookup_insert_Some, lookup_singleton_Some in Hx.
    destruct Hx as [[<- <-]|[_ [[<- <-]|[_ [<- <-]]]]];
      rewrite ?elem_of_cons, ?elem_of_nil in Hy; naive_solver (vm_compute; eauto).
Defined.

(** A dependency on a component that is not registered makes the copy answer
    [nil] and log a cycle, although there is none. *)
Example cacheSort_unregistered :
  let t := sort_run [CallRegister 1 [2]]%nat in
  (cacheSort_Get t in_order).2 = None /\ (compSort_Get t in_order).2 = Ok [2; 1]%nat.
Proof. by vm_compute. Qed.

(** As many unregistered dependencies as components on a cycle hide the cycle:
    the copy answers with an order that misses components 1 and 2. *)
Example cacheSort_hides_cycle :
  let t := sort_run [CallRegister 1 [2]; CallRegister 2 [1]; CallRegister 3 [4; 5]]%nat in
  (cacheSort_Get t in_order).2 = Some [5; 4; 3]%nat /\ (compSort_Get t in_order).2 = Err tt.
Proof. by vm_compute. Qed.
