(* ===== verification/Persist.v ===== *)
(** * Dirty masks, patches and save items

    [src/checkpoint/dirty.go] (the per-object dirty masks), the patches and save
    operations of [src/checkpoint/backend.go], and the save items of
    [src/checkpoint/journal.go] with the rules by which the flusher merges two items
    for the same document ([src/checkpoint/flusher.go]). *)

From stdpp Require Import base list gmap strings.
From Stdlib Require Import ZArith Lia.
From S2P Require Import Prelude.

Local Open Scope Z_scope.

Abbreviation byte := Corelib.Init.Byte.byte.

(** ** Dirty masks *)

(** [DirtyTracker]: every field is one atomic 64-bit word. *)
Record DirtyTracker := mkTracker {
  dt_persistDirty : Z;
  dt_syncDirty : Z;
  dt_version : Z;
  dt_syncVersion : Z
}.

Definition newTracker : DirtyTracker := mkTracker 0 0 0 0.

Definition DirtyPersist : Z := 1.
Definition DirtySync : Z := 2.

Definition MarkPersist (d : DirtyTracker) (mask : Z) : DirtyTracker :=
  if mask =? 0 then d else
  mkTracker (Z.lor (dt_persistDirty d) mask) (dt_syncDirty d) (dt_version d) (dt_syncVersion d).

Definition MarkSync (d : DirtyTracker) (mask : Z) : DirtyTracker :=
  if mask =? 0 then d else
  mkTracker (dt_persistDirty d) (Z.lor (dt_syncDirty d) mask) (dt_version d) (dt_syncVersion d).

Definition MarkScope (d : DirtyTracker) (scope mask : Z) : DirtyTracker :=
  if mask =? 0 then d else
  let d := if Z.land scope DirtyPersist =? 0 then d else MarkPersist d mask in
  if Z.land scope DirtySync =? 0 then d else MarkSync d mask.

(** [Swap(0)] *)
Definition TakePersistDirty (d : DirtyTracker) : DirtyTracker * Z :=
  (mkTracker 0 (dt_syncDirty d) (dt_version d) (dt_syncVersion d), dt_persistDirty d).

Definition TakeSyncDirty (d : DirtyTracker) : DirtyTracker * Z :=
  (mkTracker (dt_persistDirty d) 0 (dt_version d) (dt_syncVersion d), dt_syncDirty d).

Definition CommitPersist (d : DirtyTracker) (mask : Z) : DirtyTracker := d.
Definition RollbackPersist (d : DirtyTracker) (mask : Z) : DirtyTracker := MarkPersist d mask.
Definition CommitSync (d : DirtyTracker) (mask : Z) : DirtyTracker := d.
Definition RollbackSync (d : DirtyTracker) (mask : Z) : DirtyTracker := MarkSync d mask.

Definition Dirty (d : DirtyTracker) : bool :=
  negb (dt_persistDirty d =? 0) || negb (dt_syncDirty d =? 0).

Definition SelfClean (d : DirtyTracker) : DirtyTracker :=
  mkTracker 0 0 (dt_version d) (dt_syncVersion d).

Definition IncVersion (d : DirtyTracker) : DirtyTracker * Z :=
  let v := u64! (dt_version d + 1) in
  (mkTracker (dt_persistDirty d) (dt_syncDirty d) v (dt_syncVersion d), v).

Definition IncSyncVersion (d : DirtyTracker) : DirtyTracker * Z :=
  let v := u64! (dt_syncVersion d + 1) in
  (mkTracker (dt_persistDirty d) (dt_syncDirty d) (dt_version d) v, v).

Definition SetVersion (d : DirtyTracker) (v : Z) : DirtyTracker :=
  mkTracker 0 0 v (dt_syncVersion d).

(** ** Patches *)

(** Go values a patch can carry, with the identity of the objects they refer to
    unfolded: a reference to an object that is being visited is [GVCyclic].
    Functions, channels, unsafe pointers and structs with private fields are
    [GVUnsupported]. *)
Inductive GoValue :=
| GVScalar (z : Z)                                (* booleans, numbers, strings, times *)
| GVNil                                           (* nil pointer, slice, map or interface *)
| GVInterface (v : GoValue)
| GVPointer (v : GoValue)
| GVSlice (vs : list GoValue)
| GVArray (vs : list GoValue)
| GVMap (entries : list (GoValue * GoValue))
| GVStruct (fields : list GoValue)
| GVCyclic
| GVUnsupported.

(** [freezePersistValue]: a copy, or an error. *)
Fixpoint freezePersistValue (v : GoValue) : option GoValue :=
  match v with
  | GVScalar _ | GVNil => Some v
  | GVInterface v => GVInterface <$> freezePersistValue v
  | GVPointer v => GVPointer <$> freezePersistValue v
  | GVSlice vs => GVSlice <$> mapM freezePersistValue vs
  | GVArray vs => GVArray <$> mapM freezePersistValue vs
  | GVMap es =>
      GVMap <$> mapM (fun e => k ← freezePersistValue e.1; x ← freezePersistValue e.2; Some (k, x)) es
  | GVStruct fs => GVStruct <$> mapM freezePersistValue fs
  | GVCyclic | GVUnsupported => None
  end.

Record PersistPatch := mkPatch {
  pp_Set : gmap string GoValue;
  pp_Unset : list string;
  pp_FullData : list byte
}.

Definition emptyPatch : PersistPatch := mkPatch ∅ [] [].

Definition PersistPatch_Empty (p : PersistPatch) : bool :=
  Nat.eqb (size (pp_Set p)) 0 && Nat.eqb (length (pp_Unset p)) 0.

Definition slen (s : string) : Z := Z.of_nat (String.length s).

Definition PersistPatch_SizeHint (p : PersistPatch) : Z :=
  let n := foldl (fun n (e : string * GoValue) => n + slen e.1 + 16) (len (pp_FullData p))
             (map_to_list (pp_Set p)) in
  foldl (fun n k => n + slen k + 8) n (pp_Unset p).

(** The loop over [p.Set]. *)
Fixpoint freezeFields (fields : list (string * GoValue)) : option (list (string * GoValue)) :=
  match fields with
  | [] => Some []
  | (k, v) :: fields =>
      frozen ← freezePersistValue v;
      rest ← freezeFields fields;
      Some ((k, frozen) :: rest)
  end.

Definition PersistPatch_Freeze (p : PersistPatch) : option PersistPatch :=
  fields ← freezeFields (map_to_list (pp_Set p));
  Some (mkPatch (list_to_map fields) (pp_Unset p) (pp_FullData p)).

Definition PersistPatch_Clone (p : PersistPatch) : PersistPatch :=
  default (mkPatch ∅ [] (pp_FullData p)) (PersistPatch_Freeze p).

Fixpoint removeString (items : list string) (target : string) : list string :=
  match items with
  | [] => []
  | item :: items =>
      if bool_decide (item = target) then removeString items target
      else item :: removeString items target
  end.

Definition PersistPatch_Merge (p next : PersistPatch) : PersistPatch :=
  let ret := PersistPatch_Clone p in
  let ret := match pp_FullData next with
             | [] => ret
             | data => mkPatch (pp_Set ret) (pp_Unset ret) data
             end in
  let ret := foldl (fun r k => mkPatch (delete k (pp_Set r)) (pp_Unset r ++ [k]) (pp_FullData r))
               ret (pp_Unset next) in
  foldl (fun r (e : string * GoValue) =>
           mkPatch (<[e.1 := e.2]> (pp_Set r)) (removeString (pp_Unset r) e.1) (pp_FullData r))
    ret (map_to_list (pp_Set next)).

(** ** Save items *)

Inductive SaveMode := SaveModeFull | SaveModePatch.

#[export] Instance SaveMode_eq_dec : EqDecision SaveMode.
Proof. solve_decision. Defined.

Definition DatabaseScopeGlobal : Z := 0.
Definition DatabaseScopeServer : Z := 1.

(** A pointer to a tracker is its number in the heap of trackers. *)
Abbreviation trackerPtr := nat.

Record saveTarget := mkTarget { st_Tracker : option trackerPtr; st_Mask : Z }.

(** A [nil] slice of bytes is [None]: it marks a removal. *)
Record SaveItem := mkItem {
  sv_Db : string;
  sv_DbScope : Z;
  sv_Collection : string;
  sv_ID : Z;
  sv_Version : Z;
  sv_Fence : Z;
  sv_OwnerSid : Z;
  sv_Shared : bool;
  sv_Mask : Z;
  sv_Mode : SaveMode;
  sv_Data : option (list byte);
  sv_Patch : PersistPatch;
  sv_Tracker : option trackerPtr;
  sv_targets : list saveTarget
}.

Definition data_len (d : option (list byte)) : Z := len (default [] d).

(** [item.Version == 0 && item.Data == nil] *)
Definition is_remove (item : SaveItem) : bool :=
  (sv_Version item =? 0) && bool_decide (sv_Data item = None).

Definition set_merge (item : SaveItem) (mask : Z) (data : option (list byte)) (patch : PersistPatch)
    (tracker : option trackerPtr) (targets : list saveTarget) : SaveItem :=
  mkItem (sv_Db item) (sv_DbScope item) (sv_Collection item) (sv_ID item) (sv_Version item)
    (sv_Fence item) (sv_OwnerSid item) (sv_Shared item) mask (sv_Mode item) data patch
    tracker targets.

Definition appendSaveTargets (targets : list saveTarget) (item : SaveItem) : list saveTarget :=
  match sv_targets item with
  | [] =>
      match sv_Tracker item with
      | Some t => if sv_Mask item =? 0 then targets else targets ++ [mkTarget (Some t) (sv_Mask item)]
      | None => targets
      end
  | ts => targets ++ ts
  end.

Definition mergeSaveTargets (existing next : SaveItem) : list saveTarget :=
  appendSaveTargets (appendSaveTargets [] existing) next.

Definition both_patch (a b : SaveItem) : bool :=
  bool_decide (sv_Mode a = SaveModePatch) && bool_decide (sv_Mode b = SaveModePatch).

Definition mergeSaveItem (existing next : SaveItem) : SaveItem :=
  let targets := mergeSaveTargets existing next in
  if sv_Version existing <=? sv_Version next then
    set_merge next (Z.lor (sv_Mask next) (sv_Mask existing))
      (if data_len (sv_Data next) =? 0 then sv_Data existing else sv_Data next)
      (if both_patch next existing then PersistPatch_Merge (sv_Patch existing) (sv_Patch next)
       else sv_Patch next)
      (match sv_Tracker next with None => sv_Tracker existing | t => t end)
      targets
  else
    set_merge existing (Z.lor (sv_Mask existing) (sv_Mask next))
      (if data_len (sv_Data existing) =? 0 then sv_Data next else sv_Data existing)
      (if both_patch existing next then PersistPatch_Merge (sv_Patch next) (sv_Patch existing)
       else sv_Patch existing)
      (sv_Tracker existing) targets.

Definition saveItemSizeHint (item : SaveItem) : Z :=
  data_len (sv_Data item)
  + (if bool_decide (sv_Mode item = SaveModePatch) then PersistPatch_SizeHint (sv_Patch item) else 0).

(** ** Lemmas: frozen values *)

Section GoValueInd.
Context (P : GoValue -> Prop).
Hypothesis Hscalar : forall z, P (GVScalar z).
Hypothesis Hnil : P GVNil.
Hypothesis Hinterface : forall v, P v -> P (GVInterface v).
Hypothesis Hpointer : forall v, P v -> P (GVPointer v).
Hypothesis Hslice : forall vs, Forall P vs -> P (GVSlice vs).
Hypothesis Harray : forall vs, Forall P vs -> P (GVArray vs).
Hypothesis Hmap : forall es, Forall (fun e => P e.1 /\ P e.2) es -> P (GVMap es).
Hypothesis Hstruct : forall fs, Forall P fs -> P (GVStruct fs).
Hypothesis Hcyclic : P GVCyclic.
Hypothesis Hunsupported : P GVUnsupported.

(** Induction that reaches the values inside slices, arrays, maps and structs. *)
Fixpoint GoValue_nested_ind (v : GoValue) : P v :=
  let list_ind := fix go (vs : list GoValue) : Forall P vs :=
    match vs with
    | [] => Forall_nil_2 _
    | v :: vs => Forall_cons_2 _ _ _ (GoValue_nested_ind v) (go vs)
    end in
  let map_ind := fix go (es : list (GoValue * GoValue)) : Forall (fun e => P e.1 /\ P e.2) es :=
    match es with
    | [] => Forall_nil_2 _
    | e :: es => Forall_cons_2 _ _ _
        (conj (GoValue_nested_ind e.1) (GoValue_nested_ind e.2)) (go es)
    end in
  match v with
  | GVScalar z => Hscalar z
  | GVNil => Hnil
  | GVInterface v => Hinterface v (GoValue_nested_ind v)
  | GVPointer v => Hpointer v (GoValue_nested_ind v)
  | GVSlice vs => Hslice vs (list_ind vs)
  | GVArray vs => Harray vs (list_ind vs)
  | GVMap es => Hmap es (map_ind es)
  | GVStruct fs => Hstruct fs (list_ind fs)
  | GVCyclic => Hcyclic
  | GVUnsupported => Hunsupported
  end.
End GoValueInd.

Lemma mapM_copies {A} (f : A -> option A) l k :
  Forall (fun x => forall y, f x = Some y -> y = x) l -> mapM f l = Some k -> k = l.
Proof.
  revert k. induction l as [|x l IH]; intros k Hl Hk; [by injection Hk as <-|].
  apply Forall_cons in Hl as [Hx Hl]. cbn in Hk.
  apply bind_Some in Hk as (y & Hy & Hk). apply bind_Some in Hk as (k' & Hk' & [= <-]).
  by rewrite (Hx _ Hy), (IH _ Hl Hk').
Qed.

(** A value that can be frozen is copied unchanged. *)
Lemma freezePersistValue_copies v : forall w, freezePersistValue v = Some w -> w = v.
Proof.
  induction v using GoValue_nested_ind; intros w Hw; cbn [freezePersistValue] in Hw;
    try discriminate Hw; try (by injection Hw as <-);
    apply fmap_Some in Hw as (x & Hx & ->); f_equal; try (by eauto using mapM_copies).
  eapply mapM_copies; [|exact Hx]. eapply Forall_impl; [done|]. intros [k y] [Hk Hy] [k' y'] He.
  cbn in *. apply bind_Some in He as (a & Ha & He). apply bind_Some in He as (b & Hb & [= -> ->]).
  by rewrite (Hk _ Ha), (Hy _ Hb).
Qed.

Lemma freezeFields_copies fields k : freezeFields fields = Some k -> k = fields.
Proof.
  revert k. induction fields as [|[f v] fields IH]; intros k Hk; cbn in Hk; [by injection Hk as <-|].
  apply bind_Some in Hk as (w & Hw & Hk). apply bind_Some in Hk as (k' & Hk' & [= <-]).
  by rewrite (freezePersistValue_copies _ _ Hw), (IH _ Hk').
Qed.

(** [Freeze] succeeds only with an equal patch. *)
Lemma PersistPatch_Freeze_copies p q : PersistPatch_Freeze p = Some q -> q = p.
Proof.
  unfold PersistPatch_Freeze. intros Hq. apply bind_Some in Hq as (k & Hk & [= <-]).
  rewrite (freezeFields_copies _ _ Hk), list_to_map_to_list. by destruct p.
Qed.

Definition frozen (p : PersistPatch) : Prop := is_Some (PersistPatch_Freeze p).

Lemma PersistPatch_Clone_frozen p : frozen p -> PersistPatch_Clone p = p.
Proof.
  intros [q Hq]. unfold PersistPatch_Clone. rewrite Hq. by apply PersistPatch_Freeze_copies.
Qed.

(** ** Lemmas: merging patches *)

(** The fields of a document after a patch. *)
Definition applyPatch (p : PersistPatch) (doc : gmap string GoValue) : gmap string GoValue :=
  pp_Set p ∪ filter (fun e => e.1 ∉ pp_Unset p) doc.

Lemma lookup_applyPatch p doc k :
  applyPatch p doc !! k
  = match pp_Set p !! k with
    | Some v => Some v
    | None => if decide (k ∈ pp_Unset p) then None else doc !! k
    end.
Proof.
  unfold applyPatch. rewrite lookup_union, map_lookup_filter.
  destruct (pp_Set p !! k) as [v|]; [by destruct (_ ≫= _)|]. rewrite (left_id_L None (∪)).
  case_decide; destruct (doc !! k); cbn; try done; by rewrite ?option_guard_True, ?option_guard_False by tauto.
Qed.

Lemma elem_of_removeString items target k :
  k ∈ removeString items target <-> k ∈ items /\ k <> target.
Proof.
  induction items as [|item items IH]; cbn.
  - rewrite elem_of_nil. tauto.
  - case_bool_decide; rewrite ?elem_of_cons, IH; naive_solver.
Qed.

Lemma unset_loop ks : forall r : PersistPatch,
  let r' := foldl (fun r k => mkPatch (delete k (pp_Set r)) (pp_Unset r ++ [k]) (pp_FullData r)) r ks in
  pp_Set r' = filter (fun e => e.1 ∉ ks) (pp_Set r)
  /\ pp_Unset r' = pp_Unset r ++ ks /\ pp_FullData r' = pp_FullData r.
Proof.
  induction ks as [|k ks IH]; intros r; cbn [foldl].
  { rewrite app_nil_r. split_and!; [|done|done]. symmetry. apply map_filter_id.
    intros i x _. apply not_elem_of_nil. }
  destruct (IH (mkPatch (delete k (pp_Set r)) (pp_Unset r ++ [k]) (pp_FullData r))) as (H1 & H2 & H3).
  cbn in *. rewrite H1, H2, H3, <-app_assoc. split_and!; [|done|done].
  apply map_eq. intros i. apply option_eq. intros v.
  rewrite !map_lookup_filter_Some, lookup_delete_Some. cbn.
  rewrite not_elem_of_cons. naive_solver.
Qed.

Lemma set_loop (es : list (string * GoValue)) : forall r : PersistPatch,
  NoDup es.*1 ->
  let r' := foldl (fun r (e : string * GoValue) =>
      mkPatch (<[e.1 := e.2]> (pp_Set r)) (removeString (pp_Unset r) e.1) (pp_FullData r)) r es in
  pp_Set r' = list_to_map es ∪ pp_Set r
  /\ (forall k, k ∈ pp_Unset r' <-> k ∈ pp_Unset r /\ k ∉ es.*1) /\ pp_FullData r' = pp_FullData r.
Proof.
  induction es as [|[k v] es IH]; intros r Hnd; cbn [foldl fmap list_fmap fst snd list_to_map foldr].
  { split_and!; [by rewrite (left_id_L ∅ (∪))| |done]. intros k. rewrite elem_of_nil. tauto. }
  apply NoDup_cons in Hnd as [Hk Hnd].
  destruct (IH (mkPatch (<[k := v]> (pp_Set r)) (removeString (pp_Unset r) k) (pp_FullData r)) Hnd)
    as (H1 & H2 & H3). cbn in H1, H2, H3. rewrite H1, H3. split_and!; [| |done].
  - cbn. rewrite <-insert_union_l, insert_union_r; [done|]. by apply not_elem_of_list_to_map_1.
  - intros k'. rewrite H2, elem_of_removeString, not_elem_of_cons. naive_solver.
Qed.

(** The fields of a merged patch. *)
Lemma PersistPatch_Merge_fields p next :
  frozen p ->
  pp_Set (PersistPatch_Merge p next)
    = pp_Set next ∪ filter (fun e => e.1 ∉ pp_Unset next) (pp_Set p)
  /\ (forall k, k ∈ pp_Unset (PersistPatch_Merge p next)
        <-> (k ∈ pp_Unset p \/ k ∈ pp_Unset next) /\ pp_Set next !! k = None)
  /\ pp_FullData (PersistPatch_Merge p next)
     = (match pp_FullData next with [] => pp_FullData p | data => data end).
Proof.
  intros Hf. unfold PersistPatch_Merge. rewrite (PersistPatch_Clone_frozen p Hf).
  set (r0 := match pp_FullData next with [] => p | _ => _ end).
  assert (Hr0 : pp_Set r0 = pp_Set p /\ pp_Unset r0 = pp_Unset p
                /\ pp_FullData r0 = match pp_FullData next with [] => pp_FullData p | data => data end).
  { unfold r0. by destruct (pp_FullData next). }
  destruct Hr0 as (Hs & Hu & Hd). clearbody r0.
  destruct (unset_loop (pp_Unset next) r0) as (U1 & U2 & U3).
  set (r1 := foldl _ r0 (pp_Unset next)) in *. clearbody r1.
  destruct (set_loop (map_to_list (pp_Set next)) r1) as (S1 & S2 & S3);
    [apply NoDup_fst_map_to_list|].
  set (r2 := foldl _ r1 _) in *. clearbody r2. rewrite list_to_map_to_list in S1.
  split_and!; [congruence| |congruence]. intros k. rewrite S2, U2, Hu, elem_of_app.
  assert (Hin : k ∈ (map_to_list (pp_Set next)).*1 <-> is_Some (pp_Set next !! k)).
  { rewrite list_elem_of_fmap. split.
    - intros ([k' x] & -> & Hx). apply elem_of_map_to_list in Hx. by eexists.
    - intros [x Hx]. exists (k, x). by rewrite elem_of_map_to_list. }
  by rewrite Hin, <-eq_None_not_Some.
Qed.

(** The merged patch does to a document what the two patches do in turn. *)
Lemma PersistPatch_Merge_apply p next doc :
  frozen p -> applyPatch (PersistPatch_Merge p next) doc = applyPatch next (applyPatch p doc).
Proof.
  intros Hf. destruct (PersistPatch_Merge_fields p next Hf) as (S1 & S2 & _).
  apply map_eq. intros k. rewrite !lookup_applyPatch. specialize (S2 k).
  rewrite S1, lookup_union, map_lookup_filter.
  destruct (pp_Set next !! k) as [x|] eqn:Hn; [by destruct (_ ≫= _)|].
  rewrite (left_id_L None (∪)). destruct (pp_Set p !! k) as [y|] eqn:Hp; cbn; repeat case_guard;
    repeat case_decide; naive_solver.
Qed.

Lemma freezeFields_total fields :
  is_Some (freezeFields fields) <-> Forall (fun e => is_Some (freezePersistValue e.2)) fields.
Proof.
  induction fields as [|[k v] fields IH]; cbn [freezeFields].
  { split; [by constructor|by eexists]. }
  rewrite Forall_cons, <-IH. cbn. split.
  - intros [x Hx]. apply bind_Some in Hx as (w & Hw & Hx). apply bind_Some in Hx as (y & Hy & _).
    by rewrite Hw, Hy.
  - intros [[w ->] [y ->]]. by eexists.
Qed.

Lemma frozen_fields p :
  frozen p <-> forall k v, pp_Set p !! k = Some v -> is_Some (freezePersistValue v).
Proof.
  unfold frozen, PersistPatch_Freeze.
  assert (Hs : is_Some (freezeFields (map_to_list (pp_Set p)))
    <-> forall k v, pp_Set p !! k = Some v -> is_Some (freezePersistValue v)).
  { rewrite freezeFields_total, Forall_forall. split.
    - intros Hall k v Hk. apply (Hall (k, v)). by apply elem_of_map_to_list.
    - intros Hall [k v] Hin. apply elem_of_map_to_list in Hin. by eapply Hall. }
  rewrite <-Hs. destruct (freezeFields _) as [x|]; cbn; [|done]. split; intros _; by eexists.
Qed.

Lemma frozen_Merge p next : frozen p -> frozen next -> frozen (PersistPatch_Merge p next).
Proof.
  intros Hp Hn. destruct (PersistPatch_Merge_fields p next Hp) as (Hs & _ & _).
  rewrite frozen_fields in *. intros k v. rewrite Hs, lookup_union_Some_raw.
  intros [Hk|[_ Hk]]; [by eapply Hn|]. apply map_lookup_filter_Some in Hk as [Hk _]. by eapply Hp.
Qed.

(** Merging two frozen patches is applying them in turn. *)
Theorem PersistPatch_Merge_sequential (p next : PersistPatch) (doc : gmap string GoValue) :
  is_Some (PersistPatch_Freeze p) ->
  applyPatch (PersistPatch_Merge p next) doc = applyPatch next (applyPatch p doc)
  /\ pp_FullData (PersistPatch_Merge p next)
     = (match pp_FullData next with [] => pp_FullData p | data => data end).
Proof.
  intros Hf. split; [by apply PersistPatch_Merge_apply|].
  by destruct (PersistPatch_Merge_fields p next Hf) as (_ & _ & ->).
Qed.

(** ** Lemmas: trackers owed by an item *)

Abbreviation trackers := (gmap nat DirtyTracker).

Definition rollbackTarget (heap : trackers) (target : saveTarget) : trackers :=
  match st_Tracker target with
  | Some t => alter (fun d => RollbackPersist d (st_Mask target)) t heap
  | None => heap
  end.

Definition rollbackPersistItem (heap : trackers) (item : SaveItem) : trackers :=
  match sv_targets item with
  | [] => rollbackTarget heap (mkTarget (sv_Tracker item) (sv_Mask item))
  | targets => foldl rollbackTarget heap targets
  end.

Definition commitTarget (heap : trackers) (target : saveTarget) : trackers :=
  match st_Tracker target with
  | Some t => alter (fun d => CommitPersist d (st_Mask target)) t heap
  | None => heap
  end.

Definition commitPersistItem (heap : trackers) (item : SaveItem) : trackers :=
  match sv_targets item with
  | [] => commitTarget heap (mkTarget (sv_Tracker item) (sv_Mask item))
  | targets => foldl commitTarget heap targets
  end.

Definition rollbackPersistItems (heap : trackers) (items : list SaveItem) : trackers :=
  foldl rollbackPersistItem heap items.

(** The targets an item answers for: bit [b] of tracker [t] was taken for it. *)
Definition itemTargets (item : SaveItem) : list saveTarget :=
  match sv_targets item with
  | [] => [mkTarget (sv_Tracker item) (sv_Mask item)]
  | targets => targets
  end.

Definition owes (item : SaveItem) (t : trackerPtr) (b : Z) : Prop :=
  exists target, target ∈ itemTargets item /\ st_Tracker target = Some t
    /\ Z.testbit (st_Mask target) b = true.

Definition persist_bit (heap : trackers) (t : trackerPtr) (b : Z) : Prop :=
  exists d, heap !! t = Some d /\ Z.testbit (dt_persistDirty d) b = true.

Lemma MarkPersist_bit d mask b :
  Z.testbit (dt_persistDirty (MarkPersist d mask)) b
  = Z.testbit (dt_persistDirty d) b || Z.testbit mask b.
Proof.
  unfold MarkPersist. destruct (Z.eqb_spec mask 0) as [->|].
  - by rewrite Z.bits_0, orb_false_r.
  - apply Z.lor_spec.
Qed.

Lemma rollbackTarget_keeps heap target t b :
  persist_bit heap t b -> persist_bit (rollbackTarget heap target) t b.
Proof.
  intros (d & Hd & Hb). unfold rollbackTarget. destruct (st_Tracker target) as [t'|]; [|by exists d].
  destruct (decide (t' = t)) as [->|Hne].
  - exists (RollbackPersist d (st_Mask target)). rewrite lookup_alter_eq, Hd. split; [done|].
    unfold RollbackPersist. by rewrite MarkPersist_bit, Hb.
  - exists d. by rewrite lookup_alter_ne.
Qed.

Lemma rollbackTarget_sets heap target t b :
  is_Some (heap !! t) -> st_Tracker target = Some t -> Z.testbit (st_Mask target) b = true ->
  persist_bit (rollbackTarget heap target) t b.
Proof.
  intros [d Hd] Ht Hb. unfold rollbackTarget. rewrite Ht.
  exists (RollbackPersist d (st_Mask target)). rewrite lookup_alter_eq, Hd. split; [done|].
  unfold RollbackPersist. by rewrite MarkPersist_bit, Hb, orb_true_r.
Qed.

Lemma rollbackTarget_dom heap target t :
  is_Some (rollbackTarget heap target !! t) <-> is_Some (heap !! t).
Proof. unfold rollbackTarget. destruct (st_Tracker target); [|done]. apply lookup_alter_is_Some. Qed.

Lemma rollbackPersistItem_targets heap item :
  rollbackPersistItem heap item = foldl rollbackTarget heap (itemTargets item).
Proof. unfold rollbackPersistItem, itemTargets. by destruct (sv_targets item). Qed.

Lemma rollback_loop targets : forall heap t b,
  (persist_bit heap t b -> persist_bit (foldl rollbackTarget heap targets) t b)
  /\ (is_Some (heap !! t) -> forall target, target ∈ targets -> st_Tracker target = Some t ->
        Z.testbit (st_Mask target) b = true -> persist_bit (foldl rollbackTarget heap targets) t b)
  /\ (is_Some (foldl rollbackTarget heap targets !! t) <-> is_Some (heap !! t)).
Proof.
  induction targets as [|target targets IH]; intros heap t b; cbn [foldl].
  { split_and!; [done| |done]. intros _ target Ht. by apply elem_of_nil in Ht. }
  destruct (IH (rollbackTarget heap target) t b) as (Hk & Hs & Hd). split_and!.
  - intros Hb. by apply Hk, rollbackTarget_keeps.
  - intros Ht target' [->|Hin]%elem_of_cons Htr Hbit.
    + by apply Hk, rollbackTarget_sets.
    + eapply Hs; [by apply rollbackTarget_dom|done|done|done].
  - by rewrite Hd, rollbackTarget_dom.
Qed.

(** Rolling items back restores every bit they answer for and clears none. *)
Lemma rollbackPersistItems_restores items : forall heap t b,
  (persist_bit heap t b -> persist_bit (rollbackPersistItems heap items) t b)
  /\ (is_Some (heap !! t) -> forall item, item ∈ items -> owes item t b ->
        persist_bit (rollbackPersistItems heap items) t b)
  /\ (is_Some (rollbackPersistItems heap items !! t) <-> is_Some (heap !! t)).
Proof.
  unfold rollbackPersistItems.
  induction items as [|item items IH]; intros heap t b; cbn [foldl].
  { split_and!; [done| |done]. intros _ item Hi. by apply elem_of_nil in Hi. }
  rewrite rollbackPersistItem_targets.
  destruct (rollback_loop (itemTargets item) heap t b) as (Hk1 & Hs1 & Hd1).
  destruct (IH (foldl rollbackTarget heap (itemTargets item)) t b) as (Hk & Hs & Hd). split_and!.
  - intros Hb. by apply Hk, Hk1.
  - intros Ht item' [->|Hin]%elem_of_cons Ho.
    + apply Hk. destruct Ho as (target & Hin & Htr & Hbit). by eapply Hs1.
    + by eapply Hs; [apply Hd1| |].
  - by rewrite Hd, Hd1.
Qed.

Lemma appendSaveTargets_owes targets item t b :
  (exists target, target ∈ targets /\ st_Tracker target = Some t /\ Z.testbit (st_Mask target) b = true)
  \/ owes item t b ->
  exists target, target ∈ appendSaveTargets targets item /\ st_Tracker target = Some t
    /\ Z.testbit (st_Mask target) b = true.
Proof.
  unfold appendSaveTargets, owes, itemTargets. intros [(target & Hin & Ht & Hb)|(target & Hin & Ht & Hb)].
  - exists target. split; [|done].
    destruct (sv_targets item); [|by apply elem_of_app; left].
    destruct (sv_Tracker item); [|done]. destruct (_ =? 0); [done|]. apply elem_of_app. by left.
  - destruct (sv_targets item) as [|x xs]; [|exists target; rewrite elem_of_app; tauto].
    apply list_elem_of_singleton in Hin as ->. cbn in Ht, Hb. rewrite Ht.
    destruct (Z.eqb_spec (sv_Mask item) 0) as [He|]; [by rewrite He, Z.bits_0 in Hb|].
    exists (mkTarget (Some t) (sv_Mask item)). rewrite elem_of_app, list_elem_of_singleton. tauto.
Qed.

(** A merged item answers for everything the two items answered for. *)
Lemma mergeSaveItem_owes existing next t b :
  owes existing t b \/ owes next t b -> owes (mergeSaveItem existing next) t b.
Proof.
  intros Ho.
  assert (Hm : exists target, target ∈ mergeSaveTargets existing next
                 /\ st_Tracker target = Some t /\ Z.testbit (st_Mask target) b = true).
  { unfold mergeSaveTargets. apply appendSaveTargets_owes.
    destruct Ho as [Ho|Ho]; [left|by right]. apply appendSaveTargets_owes. by right. }
  assert (Ht : sv_targets (mergeSaveItem existing next) = mergeSaveTargets existing next).
  { unfold mergeSaveItem. by destruct (_ <=? _). }
  destruct Hm as (target & Hin & Htr & Hb). exists target. split; [|done].
  unfold itemTargets. rewrite Ht.
  destruct (mergeSaveTargets existing next); [by apply elem_of_nil in Hin|done].
Qed.

(** ** Dirty bits are not lost *)

(** The calls that several goroutines make on one tracker, each one atomic. *)
Inductive trackerCall :=
| TMarkPersist (mask : Z) | TMarkSync (mask : Z) | TMarkScope (scope mask : Z)
| TTakePersist | TTakeSync | TRollbackPersist (mask : Z) | TRollbackSync (mask : Z)
| TCommitPersist (mask : Z) | TCommitSync (mask : Z) | TIncVersion | TIncSyncVersion.

(** The tracker after a call, and the persist mask the call handed out. *)
Definition tracker_step (d : DirtyTracker) (c : trackerCall) : DirtyTracker * option Z :=
  match c with
  | TMarkPersist m => (MarkPersist d m, None)
  | TMarkSync m => (MarkSync d m, None)
  | TMarkScope s m => (MarkScope d s m, None)
  | TTakePersist => let '(d, m) := TakePersistDirty d in (d, Some m)
  | TTakeSync => ((TakeSyncDirty d).1, None)
  | TRollbackPersist m => (RollbackPersist d m, None)
  | TRollbackSync m => (RollbackSync d m, None)
  | TCommitPersist m => (CommitPersist d m, None)
  | TCommitSync m => (CommitSync d m, None)
  | TIncVersion => ((IncVersion d).1, None)
  | TIncSyncVersion => ((IncSyncVersion d).1, None)
  end.

Fixpoint tracker_run (d : DirtyTracker) (calls : list trackerCall) : DirtyTracker * list Z :=
  match calls with
  | [] => (d, [])
  | c :: calls =>
      let '(d, taken) := tracker_step d c in
      let '(d, rest) := tracker_run d calls in
      (d, match taken with Some m => m :: rest | None => rest end)
  end.

Lemma MarkSync_persist d m : dt_persistDirty (MarkSync d m) = dt_persistDirty d.
Proof. unfold MarkSync. by destruct (_ =? 0). Qed.

Lemma tracker_step_bit d c b :
  Z.testbit (dt_persistDirty d) b = true ->
  Z.testbit (dt_persistDirty (tracker_step d c).1) b = true
  \/ exists m, (tracker_step d c).2 = Some m /\ Z.testbit m b = true.
Proof.
  intros Hb. destruct c; cbn [tracker_step TakePersistDirty TakeSyncDirty fst snd dt_persistDirty
    IncVersion IncSyncVersion CommitPersist CommitSync]; unfold RollbackPersist, RollbackSync;
    rewrite ?MarkSync_persist, ?MarkPersist_bit, ?Hb; eauto.
  unfold MarkScope. repeat destruct (_ =? 0); rewrite ?MarkSync_persist, ?MarkPersist_bit, ?Hb; eauto.
Qed.

(** A bit marked for persistence is, after any later calls of any goroutine,
    still in the tracker's mask, or a [TakePersistDirty] after the mark has
    handed it out. *)
Theorem DirtyTracker_bit_survives (d : DirtyTracker) (mask b : Z) (later : list trackerCall) :
  Z.testbit mask b = true ->
  Z.testbit (dt_persistDirty (tracker_run (MarkPersist d mask) later).1) b = true
  \/ exists taken, taken ∈ (tracker_run (MarkPersist d mask) later).2 /\ Z.testbit taken b = true.
Proof.
  intros Hb. assert (H0 : Z.testbit (dt_persistDirty (MarkPersist d mask)) b = true)
    by (by rewrite MarkPersist_bit, Hb, orb_true_r).
  revert H0. generalize (MarkPersist d mask) as d0. clear Hb.
  induction later as [|c later IH]; intros d0 H0; cbn [tracker_run]; [by left|].
  destruct (tracker_step_bit d0 c b H0) as [Hd|(m & Hm & Hmb)];
    destruct (tracker_step d0 c) as [d1 taken]; cbn [fst snd] in *.
  - specialize (IH d1 Hd). destruct (tracker_run d1 later) as [d2 rest]. cbn [fst snd] in *.
    destruct IH as [|(m & Hin & Hmb)]; [by left|right]. exists m. split; [|done].
    destruct taken; [by right|done].
  - subst taken. right. exists m. destruct (tracker_run d1 later). cbn. split; [left|done].
Qed.

(** ** Samples *)

Definition sample_patch_a : PersistPatch :=
  mkPatch {[ "hp"%string := GVScalar 5; "bag"%string := GVSlice [GVScalar 1; GVNil] ]} ["tmp"%string] [].

Definition sample_patch_b : PersistPatch :=
  mkPatch {[ "tmp"%string := GVScalar 2 ]} ["hp"%string] [Byte.x01].

Lemma PersistPatch_Merge_sequential_witness :
  applyPatch (PersistPatch_Merge sample_patch_a sample_patch_b) {[ "hp"%string := GVScalar 9 ]}
  = {[ "tmp"%string := GVScalar 2; "bag"%string := GVSlice [GVScalar 1; GVNil] ]}.
Proof.
  assert (Hf : is_Some (PersistPatch_Freeze sample_patch_a)) by (vm_compute; eauto).
  rewrite (proj1 (PersistPatch_Merge_sequential sample_patch_a sample_patch_b _ Hf)).
  vm_compute. reflexivity.
Defined.

Lemma DirtyTracker_bit_survives_witness :
  let later := [TMarkSync 1; TTakePersist; TMarkPersist 8; TRollbackPersist 4] in
  exists taken, taken ∈ (tracker_run (MarkPersist newTracker 4) later).2 /\ Z.testbit taken 2 = true.
Proof.
  intros later. assert (Hb : Z.testbit 4 2 = true) by reflexivity.
  pose proof (DirtyTracker_bit_survives newTracker 4 2 [TMarkSync 1; TTakePersist] Hb) as Hx.
  destruct Hx as [Hx|_]; [discriminate Hx|].
  exists 4. split; [|reflexivity]. left.
Defined.
