(* ===== verification/Flusher.v ===== *)
(** * The save journal and its flusher

    [src/checkpoint/journal.go]: the bounded queue of save entries, and
    [src/checkpoint/flusher.go]: a batch of entries is reduced to one operation per
    document ([dedup]), written in chunks with retries ([flushSaves],
    [flushRemoves]) and requeued when writing fails ([processBatch]).  The
    storage backend is not part of the program: its answers are a script the
    model consumes, one answer per attempt. *)

From stdpp Require Import base list gmap strings sorting.
From Stdlib Require Import ZArith Lia.
From S2P Require Import Prelude Persist.

Local Open Scope Z_scope.

(** ** Journal *)

Record JournalEntry := mkEntry { je_Items : list SaveItem; je_PushAt : Z }.

Record SaveJournal := mkJournal {
  jr_entries : list JournalEntry;
  jr_closed : bool;
  jr_cap : Z
}.

Definition NewJournal (cap : Z) : SaveJournal :=
  mkJournal [] false (if cap <=? 0 then 10000 else cap).

(** A push returns true or false, or waits for room. *)
Inductive pushOutcome := PushTrue | PushFalse | PushWaits.

Definition PushWithContext (j : SaveJournal) (items : list SaveItem) (ctxDone : bool) (now : Z)
    : SaveJournal * pushOutcome :=
  match items with
  | [] => (j, PushTrue)
  | _ =>
      if (jr_cap j <=? len (jr_entries j)) && negb (jr_closed j)
      then (j, if ctxDone then PushFalse else PushWaits)
      else if jr_closed j then (j, PushFalse)
      else (mkJournal (jr_entries j ++ [mkEntry items now]) (jr_closed j) (jr_cap j), PushTrue)
  end.

Definition PushFront (j : SaveJournal) (entries : list JournalEntry) : SaveJournal * bool :=
  match entries with
  | [] => (j, true)
  | _ => if jr_closed j then (j, false)
         else (mkJournal (entries ++ jr_entries j) (jr_closed j) (jr_cap j), true)
  end.

(** Items without a collection or an identifier are dropped, the rest become
    removals; the same loop as [PushRemoveItems]. *)
Definition normalizeRemoveItems (items : list SaveItem) : list SaveItem :=
  (fun item => mkItem (sv_Db item) (sv_DbScope item) (sv_Collection item) (sv_ID item) 0
     (sv_Fence item) (sv_OwnerSid item) (sv_Shared item) (sv_Mask item) SaveModeFull None
     emptyPatch (sv_Tracker item) (sv_targets item))
  <$> filter (fun item => ~ (sv_Collection item = ""%string \/ sv_ID item = 0)) items.

Definition PushRemoveItems (j : SaveJournal) (items : list SaveItem) (now : Z) : SaveJournal * pushOutcome :=
  match items with
  | [] => (j, PushTrue)
  | _ => PushWithContext j (normalizeRemoveItems items) false now
  end.

Definition TryPopBatch (j : SaveJournal) (max : Z) : SaveJournal * list JournalEntry :=
  match jr_entries j with
  | [] => (j, [])
  | entries =>
      let max := if (max <=? 0) || (len entries <? max) then len entries else max in
      (mkJournal (drop (Z.to_nat max) entries) (jr_closed j) (jr_cap j), take (Z.to_nat max) entries)
  end.

Definition DrainAll (j : SaveJournal) : SaveJournal * list JournalEntry :=
  (mkJournal [] (jr_closed j) (jr_cap j), jr_entries j).

Definition Journal_Close (j : SaveJournal) : SaveJournal := mkJournal (jr_entries j) true (jr_cap j).

(** ** Deduplication *)

Record docKey := mkDocKey {
  dk_db : string; dk_dbScope : Z; dk_coll : string; dk_id : Z
}.

Record removeKey := mkRemoveKey {
  rk_db : string; rk_dbScope : Z; rk_coll : string; rk_fence : Z; rk_ownerSid : Z; rk_shared : bool
}.

#[export] Instance docKey_eq_dec : EqDecision docKey.
Proof. solve_decision. Defined.

#[export] Instance docKey_countable : Countable docKey.
Proof.
  apply (inj_countable' (fun k => (dk_db k, dk_dbScope k, dk_coll k, dk_id k))
           (fun '(a, b, c, d) => mkDocKey a b c d)). by intros [].
Defined.

#[export] Instance removeKey_eq_dec : EqDecision removeKey.
Proof. solve_decision. Defined.

#[export] Instance removeKey_countable : Countable removeKey.
Proof.
  apply (inj_countable'
           (fun k => (rk_db k, rk_dbScope k, rk_coll k, rk_fence k, rk_ownerSid k, rk_shared k))
           (fun '(a, b, c, d, e, f) => mkRemoveKey a b c d e f)). by intros [].
Defined.

Definition itemKey (item : SaveItem) : docKey :=
  mkDocKey (sv_Db item) (sv_DbScope item) (sv_Collection item) (sv_ID item).

Definition itemRemoveKey (item : SaveItem) : removeKey :=
  mkRemoveKey (sv_Db item) (sv_DbScope item) (sv_Collection item) (sv_Fence item)
    (sv_OwnerSid item) (sv_Shared item).

(** The first occurrence only. *)
Fixpoint removeID (ids : list Z) (target : Z) : list Z :=
  match ids with
  | [] => []
  | id :: ids => if id =? target then ids else id :: removeID ids target
  end.

Record dedupState := mkDedup {
  ds_saveMap : gmap docKey SaveItem;
  ds_removes : gmap removeKey (list Z);
  ds_removeIndex : gmap docKey removeKey
}.

(** [removes[rk] = removeID(removes[rk], id)], dropping an emptied list. *)
Definition cancelRemove (removes : gmap removeKey (list Z)) (rk : removeKey) (id : Z)
    : gmap removeKey (list Z) :=
  match removeID (default [] (removes !! rk)) id with
  | [] => delete rk removes
  | ids => <[rk := ids]> removes
  end.

(** The body of [for _, item := range entry.Items]. *)
Definition dedupItem (st : dedupState) (item : SaveItem) : dedupState :=
  let k := itemKey item in
  if is_remove item then
    let rk := itemRemoveKey item in
    mkDedup (delete k (ds_saveMap st))
      (<[rk := default [] (ds_removes st !! rk) ++ [sv_ID item]]> (ds_removes st))
      (<[k := rk]> (ds_removeIndex st))
  else
    let '(removes, removeIndex) :=
      match ds_removeIndex st !! k with
      | Some rk => (cancelRemove (ds_removes st) rk (sv_ID item), delete k (ds_removeIndex st))
      | None => (ds_removes st, ds_removeIndex st)
      end in
    mkDedup (<[k := match ds_saveMap st !! k with
                    | Some existing => mergeSaveItem existing item
                    | None => item
                    end]> (ds_saveMap st)) removes removeIndex.

Definition save_less (a b : SaveItem) : bool :=
  if negb (bool_decide (sv_Db a = sv_Db b)) then String.ltb (sv_Db a) (sv_Db b) else
  if negb (sv_DbScope a =? sv_DbScope b) then sv_DbScope a <? sv_DbScope b else
  if negb (bool_decide (sv_Collection a = sv_Collection b))
  then String.ltb (sv_Collection a) (sv_Collection b)
  else sv_ID a <? sv_ID b.

Definition batchItems (entries : list JournalEntry) : list SaveItem := entries ≫= je_Items.

Definition dedupItems (items : list SaveItem) : dedupState := foldl dedupItem (mkDedup ∅ ∅ ∅) items.

Definition dedup (entries : list JournalEntry) : list SaveItem * gmap removeKey (list Z) :=
  let st := dedupItems (batchItems entries) in
  (sort_slice save_less (map_to_list (ds_saveMap st)).*2, ds_removes st).

(** ** Writing *)

Record SaveResult := mkResult { sr_OK : bool; sr_VersionConflict : bool }.

(** What happens on one attempt to save a batch: [BulkSave] fails, and the
    context is or is not done then and after the wait; or it returns results. *)
Inductive saveAnswer :=
| SaveFails (ctxDone waitDone : bool)
| SaveReturns (results : list SaveResult).

(** On one attempt to remove: done; or an error, with the identifiers removed
    when only the acknowledgement of the WAL failed. *)
Inductive removeAnswer :=
| RemoveDone
| RemoveFails (removed ctxDone waitDone : bool).

Inductive flushError := ErrContext | ErrResultCount | ErrItemFailure.

Abbreviation fres := (result flushError).

(** The trackers, the answers still to come, what the backend has accepted
    (saves it wrote or found stale, removals it performed). *)
Record world := mkWorld {
  wd_trackers : trackers;
  wd_saves : list saveAnswer;
  wd_removals : list removeAnswer;
  wd_acked : list SaveItem;
  wd_removed : list (removeKey * list Z)
}.

Definition set_trackers (w : world) (h : trackers) : world :=
  mkWorld h (wd_saves w) (wd_removals w) (wd_acked w) (wd_removed w).

(** The loop over the results. *)
Fixpoint applyResults (heap : trackers) (items : list SaveItem) (results : list SaveResult)
    : trackers * list SaveItem * bool :=
  match items, results with
  | item :: items, r :: results =>
      if sr_OK r || sr_VersionConflict r then
        let '(heap, acked, failed) := applyResults (commitPersistItem heap item) items results in
        (heap, item :: acked, failed)
      else
        let '(heap, acked, _) := applyResults (rollbackPersistItem heap item) items results in
        (heap, acked, true)
  | _, _ => (heap, [], false)
  end.

(** The retry loop; [None] when the backend never answers again. *)
Fixpoint flushSaveBatch (answers : list saveAnswer) (w : world) (items : list SaveItem)
    : option (world * fres unit) :=
  match answers with
  | [] => None
  | SaveFails ctxDone waitDone :: answers =>
      if ctxDone || waitDone then
        Some (mkWorld (rollbackPersistItems (wd_trackers w) items) answers (wd_removals w)
                (wd_acked w) (wd_removed w), Err ErrContext)
      else flushSaveBatch answers w items
  | SaveReturns results :: answers =>
      if negb (Nat.eqb (length results) (length items)) then
        Some (mkWorld (rollbackPersistItems (wd_trackers w) items) answers (wd_removals w)
                (wd_acked w) (wd_removed w), Err ErrResultCount)
      else
        let '(heap, acked, failed) := applyResults (wd_trackers w) items results in
        Some (mkWorld heap answers (wd_removals w) (wd_acked w ++ acked) (wd_removed w),
              if failed then Err ErrItemFailure else Ok tt)
  end.

Record flushConfig := mkFlushConfig { fc_BatchSize : Z; fc_BatchBytes : Z }.

(** The inner loop: how far the next chunk reaches. *)
Fixpoint nextChunk (cfg : flushConfig) (count bytes : Z) (items : list SaveItem)
    : list SaveItem * list SaveItem :=
  match items with
  | [] => ([], [])
  | item :: rest =>
      if (count <? fc_BatchSize cfg) && (bytes <? fc_BatchBytes cfg) then
        let '(chunk, rest) := nextChunk cfg (count + 1) (bytes + saveItemSizeHint item) rest in
        (item :: chunk, rest)
      else ([], items)
  end.

(** At least one item per chunk. *)
Definition splitChunk (cfg : flushConfig) (items : list SaveItem)
    : list SaveItem * list SaveItem :=
  match nextChunk cfg 0 0 items with
  | ([], _) => (take 1 items, drop 1 items)
  | cut => cut
  end.

(** [for start := 0; start < len(items);]; the fuel is the number of items. *)
Fixpoint flushChunks (fuel : nat) (cfg : flushConfig) (w : world) (items : list SaveItem)
    : option (world * fres unit) :=
  match items, fuel with
  | [], _ => Some (w, Ok tt)
  | _, O => None
  | _, S fuel =>
      let '(chunk, rest) := splitChunk cfg items in
      match flushSaveBatch (wd_saves w) w chunk with
      | Some (w, Ok _) => flushChunks fuel cfg w rest
      | other => other
      end
  end.

Definition flushSaves (cfg : flushConfig) (w : world) (items : list SaveItem)
    : option (world * fres unit) := flushChunks (length items) cfg w items.

Definition remove_less (a b : removeKey * list Z) : bool :=
  if negb (bool_decide (rk_db a.1 = rk_db b.1)) then String.ltb (rk_db a.1) (rk_db b.1) else
  if negb (rk_dbScope a.1 =? rk_dbScope b.1) then rk_dbScope a.1 <? rk_dbScope b.1 else
  String.ltb (rk_coll a.1) (rk_coll b.1).

(** The retry loop of one group of identifiers. *)
Fixpoint flushRemoveGroup (answers : list removeAnswer) (w : world) (group : removeKey * list Z)
    : option (world * fres unit) :=
  match answers with
  | [] => None
  | RemoveDone :: answers =>
      Some (mkWorld (wd_trackers w) (wd_saves w) answers (wd_acked w) (wd_removed w ++ [group]), Ok tt)
  | RemoveFails removed ctxDone waitDone :: answers =>
      let log := if removed then wd_removed w ++ [group] else wd_removed w in
      let w := mkWorld (wd_trackers w) (wd_saves w) answers (wd_acked w) log in
      if ctxDone || waitDone then Some (w, Err ErrContext) else flushRemoveGroup answers w group
  end.

Fixpoint flushRemoveGroups (w : world) (groups : list (removeKey * list Z))
    : option (world * fres unit) :=
  match groups with
  | [] => Some (w, Ok tt)
  | group :: groups =>
      match flushRemoveGroup (wd_removals w) w group with
      | Some (w, Ok _) => flushRemoveGroups w groups
      | other => other
      end
  end.

Definition flushRemoves (w : world) (removes : gmap removeKey (list Z)) : option (world * fres unit) :=
  flushRemoveGroups w (sort_slice remove_less (map_to_list removes)).

Definition saveJournalEntries (items : list SaveItem) (now : Z) : list JournalEntry :=
  (fun item => mkEntry [item] now) <$> items.

(** One entry per group, with tombstones. *)
Definition removeJournalEntries (removes : gmap removeKey (list Z)) (now : Z) : list JournalEntry :=
  (fun g : removeKey * list Z =>
     mkEntry ((fun id => mkItem (rk_db g.1) (rk_dbScope g.1) (rk_coll g.1) id 0 (rk_fence g.1)
                 (rk_ownerSid g.1) (rk_shared g.1) 0 SaveModeFull None emptyPatch None []) <$> g.2) now)
  <$> map_to_list removes.

Definition processBatch (cfg : flushConfig) (w : world) (j : SaveJournal) (entries : list JournalEntry)
    (now : Z) : option (world * SaveJournal * fres unit) :=
  let '(saves, removes) := dedup entries in
  match flushSaves cfg w saves with
  | None => None
  | Some (w, Err e) => Some (w, (PushFront j (saveJournalEntries saves now)).1, Err e)
  | Some (w, Ok _) =>
      match flushRemoves w removes with
      | None => None
      | Some (w, Err e) => Some (w, (PushFront j (removeJournalEntries removes now)).1, Err e)
      | Some (w, Ok _) => Some (w, j, Ok tt)
      end
  end.

(** [rollbackJournalEntries]: what is still queued at a failed shutdown. *)
Definition rollbackJournalEntries (heap : trackers) (entries : list JournalEntry) : trackers :=
  foldl (fun heap item => if is_remove item then heap else rollbackPersistItem heap item)
    heap (batchItems entries).

Definition RollbackPending (w : world) (j : SaveJournal) : world * SaveJournal :=
  let '(j, entries) := DrainAll j in
  (set_trackers w (rollbackJournalEntries (wd_trackers w) entries), j).

(** ** What a batch asks for *)

(** The operation that a sequence of items leaves pending for a document. *)
Inductive pendingOp :=
| PendingNone
| PendingSave (item : SaveItem)
| PendingRemove (rk : removeKey).

Definition pendingStep (p : pendingOp) (item : SaveItem) : pendingOp :=
  if is_remove item then PendingRemove (itemRemoveKey item) else
  match p with
  | PendingSave existing => PendingSave (mergeSaveItem existing item)
  | _ => PendingSave item
  end.

Definition pending (items : list SaveItem) (k : docKey) : pendingOp :=
  foldl pendingStep PendingNone (filter (fun item => itemKey item = k) items).

(** The document an identifier of a removal group stands for. *)
Definition groupKey (rk : removeKey) (id : Z) : docKey :=
  mkDocKey (rk_db rk) (rk_dbScope rk) (rk_coll rk) id.

(** No document is removed again while its removal is pending. *)
Definition no_repeated_remove (items : list SaveItem) : Prop :=
  forall before item after, items = before ++ item :: after -> is_remove item = true ->
  forall rk, pending before (itemKey item) <> PendingRemove rk.

(** ** Lemmas: deduplication *)

Lemma pending_snoc items item k :
  pending (items ++ [item]) k
  = if decide (itemKey item = k) then pendingStep (pending items k) item else pending items k.
Proof.
  unfold pending. rewrite filter_app, foldl_app, filter_cons, filter_nil. by case_decide.
Qed.

Lemma itemKey_group item : itemKey item = groupKey (itemRemoveKey item) (sv_ID item).
Proof. done. Qed.

Lemma mergeSaveItem_key existing next :
  itemKey existing = itemKey next -> itemKey (mergeSaveItem existing next) = itemKey next.
Proof. intros Hk. unfold mergeSaveItem. by destruct (_ <=? _). Qed.

Lemma pending_key items k :
  match pending items k with
  | PendingNone => True
  | PendingSave item => itemKey item = k
  | PendingRemove rk => k = groupKey rk (dk_id k)
  end.
Proof.
  induction items as [|item items IH] using rev_ind; [done|]. rewrite pending_snoc.
  case_decide as Hk; [|done]. unfold pendingStep. destruct (is_remove item); [by subst|].
  destruct (pending items k); [done| |done]. rewrite mergeSaveItem_key; [done|by rewrite IH, Hk].
Qed.

Lemma elem_of_removeID ids target id : id <> target -> id ∈ removeID ids target <-> id ∈ ids.
Proof.
  intros Hne. induction ids as [|x ids IH]; [done|]. cbn.
  destruct (Z.eqb_spec x target); rewrite !elem_of_cons; [naive_solver|]. by rewrite IH.
Qed.

Lemma removeID_NoDup ids target : NoDup ids -> NoDup (removeID ids target) /\ target ∉ removeID ids target.
Proof.
  induction 1 as [|x ids Hx Hnd [IH1 IH2]]; cbn; [split; [constructor|apply not_elem_of_nil]|].
  destruct (Z.eqb_spec x target) as [->|Hne]; [done|]. split.
  - constructor; [|done]. by rewrite elem_of_removeID.
  - by apply not_elem_of_cons.
Qed.

Lemma cancelRemove_ids removes rk id rk' :
  default [] (cancelRemove removes rk id !! rk')
  = if decide (rk' = rk) then removeID (default [] (removes !! rk)) id else default [] (removes !! rk').
Proof.
  unfold cancelRemove. destruct (removeID (default [] (removes !! rk)) id) eqn:E; case_decide as Hr.
  - subst. by rewrite lookup_delete_eq.
  - by rewrite lookup_delete_ne.
  - subst. by rewrite lookup_insert_eq.
  - by rewrite lookup_insert_ne.
Qed.

(** The maps of [dedup] are the pending operations of the items read so far. *)
Record dedup_inv (items : list SaveItem) (st : dedupState) : Prop := {
  di_saves k item : ds_saveMap st !! k = Some item <-> pending items k = PendingSave item;
  di_index k rk : ds_removeIndex st !! k = Some rk <-> pending items k = PendingRemove rk;
  di_listed rk id : pending items (groupKey rk id) = PendingRemove rk ->
    id ∈ default [] (ds_removes st !! rk);
  di_exact : no_repeated_remove items ->
    forall rk, NoDup (default [] (ds_removes st !! rk))
      /\ forall id, id ∈ default [] (ds_removes st !! rk) ->
         pending items (groupKey rk id) = PendingRemove rk
}.

Lemma no_repeated_remove_app items item :
  no_repeated_remove (items ++ [item]) -> no_repeated_remove items.
Proof.
  intros Hn before x after He. apply (Hn before x (after ++ [item])).
  by rewrite He, <-app_assoc.
Qed.

Lemma dedup_inv_remove items st item :
  dedup_inv items st -> is_remove item = true -> dedup_inv (items ++ [item]) (dedupItem st item).
Proof.
  intros [Hs Hi Hl Hx] Hr. unfold dedupItem. rewrite Hr. set (k := itemKey item).
  set (rk := itemRemoveKey item).
  assert (Hp : forall k', pending (items ++ [item]) k'
                 = if decide (k = k') then PendingRemove rk else pending items k').
  { intros k'. rewrite pending_snoc. unfold pendingStep. by rewrite Hr. }
  assert (Hids : forall rk', default [] (<[rk := default [] (ds_removes st !! rk) ++ [sv_ID item]]>
                               (ds_removes st) !! rk')
            = default [] (ds_removes st !! rk') ++ (if decide (rk' = rk) then [sv_ID item] else [])).
  { intros rk'. case_decide; [subst; by rewrite lookup_insert_eq|].
    by rewrite lookup_insert_ne, app_nil_r. }
  split; cbn [ds_saveMap ds_removes ds_removeIndex].
  - intros k' it. rewrite Hp, lookup_delete_Some. case_decide; [naive_solver|]. rewrite Hs. naive_solver.
  - intros k' rk'. rewrite Hp, lookup_insert_Some. case_decide; [naive_solver|]. rewrite Hi. naive_solver.
  - intros rk' id. rewrite Hp, Hids, elem_of_app. case_decide as Hk.
    + intros [= <-]. right. rewrite decide_True by done. apply list_elem_of_singleton.
      unfold k in Hk. rewrite itemKey_group in Hk. by injection Hk.
    + intros Hpe. left. by apply Hl.
  - intros Hn rk'. destruct (Hx (no_repeated_remove_app _ _ Hn) rk') as [Hnd Hpe].
    assert (Hfresh : forall rk0, pending items k <> PendingRemove rk0).
    { intros rk0. by apply (Hn items item []). }
    rewrite Hids. split.
    + apply NoDup_app. split_and!; [done| |case_decide; [apply NoDup_singleton|apply NoDup_nil_2]].
      intros id Hin Hid. case_decide as Hrk; [|by apply elem_of_nil in Hid].
      apply list_elem_of_singleton in Hid. subst. apply (Hfresh rk). by apply Hpe.
    + intros id Hin. rewrite Hp. apply elem_of_app in Hin as [Hin|Hin].
      * case_decide as Hk; [|by apply Hpe]. exfalso. apply (Hfresh rk'). rewrite Hk. by apply Hpe.
      * case_decide as Hrk; [|by apply elem_of_nil in Hin]. subst rk'.
        apply list_elem_of_singleton in Hin as ->. by rewrite decide_True.
Qed.

Lemma dedup_inv_save items st item :
  dedup_inv items st -> is_remove item = false -> dedup_inv (items ++ [item]) (dedupItem st item).
Proof.
  intros [Hs Hi Hl Hx] Hr. unfold dedupItem. rewrite Hr. set (k := itemKey item).
  set (item' := match ds_saveMap st !! k with Some e => mergeSaveItem e item | None => item end).
  assert (Hp : forall k', pending (items ++ [item]) k'
                 = if decide (k = k') then PendingSave item' else pending items k').
  { intros k'. rewrite pending_snoc. fold k. case_decide as Hk; [|done]. subst k'.
    unfold pendingStep, item'. rewrite Hr. pose proof (Hs k) as Hsk.
    destruct (ds_saveMap st !! k) as [e|].
    - by rewrite (proj1 (Hsk e) eq_refl).
    - destruct (pending items k) as [|e|]; [done| |done]. by specialize (proj2 (Hsk e) eq_refl). }
  clearbody item'.
  destruct (match ds_removeIndex st !! k with
            | Some rk => (cancelRemove (ds_removes st) rk (sv_ID item), delete k (ds_removeIndex st))
            | None => (ds_removes st, ds_removeIndex st) end) as [removes' index'] eqn:Hcase.
  assert (Hix : forall k' rk, index' !! k' = Some rk <-> k' <> k /\ ds_removeIndex st !! k' = Some rk).
  { intros k' rk. destruct (ds_removeIndex st !! k) as [rk0|] eqn:E; injection Hcase as <- <-.
    - rewrite lookup_delete_Some. naive_solver.
    - split; [|by intros [_ ?]]. intros Hk'. split; [|done]. intros ->. congruence. }
  (* other documents keep their place in the lists *)
  assert (Hother : forall rk id, groupKey rk id <> k ->
            id ∈ default [] (removes' !! rk) <-> id ∈ default [] (ds_removes st !! rk)).
  { intros rk id Hne. destruct (ds_removeIndex st !! k) as [rk0|] eqn:E; injection Hcase as <- <-; [|done].
    rewrite cancelRemove_ids. case_decide as Hrk; [|done]. subst rk0.
    apply elem_of_removeID. intros ->. apply Hne. apply Hi in E.
    pose proof (pending_key items k) as Hkey. rewrite E in Hkey. symmetry. exact Hkey. }
  split; cbn [ds_saveMap ds_removes ds_removeIndex].
  - intros k' it. rewrite Hp, lookup_insert_Some. case_decide; [naive_solver|]. rewrite Hs. naive_solver.
  - intros k' rk. rewrite Hp, Hix, Hi. case_decide; naive_solver.
  - intros rk id. rewrite Hp. case_decide as Hk; [done|]. intros Hpe.
    apply Hother; [done|]. by apply Hl.
  - intros Hn rk. pose proof (Hx (no_repeated_remove_app _ _ Hn)) as Hx'. split.
    + destruct (ds_removeIndex st !! k) as [rk0|]; injection Hcase as <- <-; [|apply Hx'].
      rewrite cancelRemove_ids. case_decide; [|apply Hx']. apply removeID_NoDup, Hx'.
    + intros id Hin. rewrite Hp. case_decide as Hk; last first.
      { apply Hx'. apply Hother in Hin; [done|by intros He; apply Hk]. }
      exfalso. assert (Hid : id = sv_ID item).
      { unfold k in Hk. rewrite itemKey_group in Hk. by injection Hk. }
      subst id. destruct (ds_removeIndex st !! k) as [rk0|] eqn:E; injection Hcase as <- <-.
      * rewrite cancelRemove_ids in Hin. case_decide as Hrk.
        -- destruct (removeID_NoDup (default [] (ds_removes st !! rk0)) (sv_ID item)) as [_ Hno];
             [apply Hx'|]. by apply Hno.
        -- apply Hx' in Hin. rewrite <-Hk in Hin. apply Hi in Hin. congruence.
      * apply Hx' in Hin. rewrite <-Hk in Hin. apply Hi in Hin. congruence.
Qed.

Lemma dedupItems_inv items : dedup_inv items (dedupItems items).
Proof.
  unfold dedupItems. induction items as [|item items IH] using rev_ind.
  - split; cbn [foldl ds_saveMap ds_removes ds_removeIndex].
    + intros k item. rewrite lookup_empty. by split; intros [=].
    + intros k rk. rewrite lookup_empty. by split; intros [=].
    + intros rk id [=].
    + intros _ rk. rewrite lookup_empty. cbn. split; [apply NoDup_nil_2|].
      intros id Hid. by apply elem_of_nil in Hid.
  - rewrite foldl_app. cbn [foldl]. destruct (is_remove item) eqn:Hr.
    + by apply dedup_inv_remove.
    + by apply dedup_inv_save.
Qed.

(** ** Lemmas: chunks *)

Definition bytesOf (items : list SaveItem) : Z :=
  foldr (fun item n => saveItemSizeHint item + n) 0 items.

(** A chunk within the limits: it has an item, no more than [BatchSize] of them,
    and without its last item it is below [BatchBytes]. *)
Definition chunk_ok (cfg : flushConfig) (chunk : list SaveItem) : Prop :=
  chunk <> [] /\ (len chunk <= Z.max 1 (fc_BatchSize cfg))
  /\ forall init last, chunk = init ++ [last] -> init = [] \/ bytesOf init < fc_BatchBytes cfg.

(** [flushSaves] as a run over a list of chunks. *)
Fixpoint flushBatches (w : world) (chunks : list (list SaveItem)) : option (world * fres unit) :=
  match chunks with
  | [] => Some (w, Ok tt)
  | chunk :: chunks =>
      match flushSaveBatch (wd_saves w) w chunk with
      | Some (w, Ok _) => flushBatches w chunks
      | other => other
      end
  end.

Lemma nextChunk_spec cfg items : forall count bytes,
  let '(chunk, rest) := nextChunk cfg count bytes items in
  chunk ++ rest = items
  /\ (chunk = [] \/ count + len chunk <= fc_BatchSize cfg)
  /\ (forall init last, chunk = init ++ [last] -> bytes + bytesOf init < fc_BatchBytes cfg).
Proof.
  induction items as [|item items IH]; intros count bytes; cbn [nextChunk].
  { split_and!; [done|by left|]. intros init last He. by destruct init. }
  destruct (_ && _) eqn:E; bool_to_prop; last first.
  { split_and!; [done|by left|]. intros init last He. by destruct init. }
  specialize (IH (count + 1) (bytes + saveItemSizeHint item)).
  destruct (nextChunk cfg _ _ items) as [chunk rest]. destruct IH as (Hc & Hl & Hb).
  split_and!; [by cbn; rewrite Hc| |].
  - right. rewrite len_cons. destruct Hl as [->|]; [cbn; unfold len; cbn; lia|lia].
  - intros init last He. destruct init as [|x init]; cbn in He.
    + injection He as -> ->. cbn. lia.
    + injection He as -> ->. cbn [bytesOf foldr]. specialize (Hb init last eq_refl).
      unfold bytesOf in Hb. lia.
Qed.

Lemma splitChunk_spec cfg items :
  items <> [] ->
  (splitChunk cfg items).1 ++ (splitChunk cfg items).2 = items
  /\ chunk_ok cfg (splitChunk cfg items).1.
Proof.
  intros Hne. unfold splitChunk. pose proof (nextChunk_spec cfg items 0 0) as Hs.
  destruct (nextChunk cfg 0 0 items) as [[|x chunk] rest].
  - cbn [fst snd]. rewrite take_drop. split; [done|].
    destruct items as [|y items]; [done|]. change (take 1 (y :: items)) with [y].
    split_and!; [done|rewrite len_cons, len_nil; lia|].
    intros init last He. left. destruct init as [|z init]; [done|].
    injection He as _ He. by destruct init.
  - destruct Hs as (Hc & [|Hl] & Hb); [done|]. cbn [fst snd]. split; [done|].
    split_and!; [done|lia|]. intros init last He. right. specialize (Hb init last He). lia.
Qed.

Lemma flushChunks_batches cfg fuel : forall w items,
  (length items <= fuel)%nat ->
  exists chunks, concat chunks = items /\ Forall (chunk_ok cfg) chunks
    /\ flushChunks fuel cfg w items = flushBatches w chunks.
Proof.
  induction fuel as [|fuel IH]; intros w items Hf.
  { destruct items; [|cbn in Hf; lia]. by exists []. }
  destruct items as [|x items]; [by exists []|]. cbn [flushChunks].
  destruct (splitChunk_spec cfg (x :: items)) as [Hc Hok]; [done|].
  destruct (splitChunk cfg (x :: items)) as [chunk rest]. cbn [fst snd] in Hc, Hok.
  assert (Hrest : (length rest <= fuel)%nat).
  { assert (0 < length chunk)%nat by (destruct Hok as [? _]; destruct chunk; [done|cbn; lia]).
    apply (f_equal length) in Hc. rewrite length_app in Hc. cbn in Hc, Hf. lia. }
  destruct (flushSaveBatch (wd_saves w) w chunk) as [[w' [u|e]]|] eqn:Hb.
  - destruct (IH w' rest Hrest) as (chunks & Hcc & Hoks & Heq). exists (chunk :: chunks).
    split_and!; [cbn; by rewrite Hcc|by constructor|]. cbn. by rewrite Hb.
  - destruct (IH w rest Hrest) as (chunks & Hcc & Hoks & _). exists (chunk :: chunks).
    split_and!; [cbn; by rewrite Hcc|by constructor|]. cbn. by rewrite Hb.
  - destruct (IH w rest Hrest) as (chunks & Hcc & Hoks & _). exists (chunk :: chunks).
    split_and!; [cbn; by rewrite Hcc|by constructor|]. cbn. by rewrite Hb.
Qed.

Lemma flushSaves_batches cfg w items :
  exists chunks, concat chunks = items /\ Forall (chunk_ok cfg) chunks
    /\ flushSaves cfg w items = flushBatches w chunks.
Proof. by apply flushChunks_batches. Qed.

(** Saving cuts the items into consecutive chunks within the limits and writes
    them in order, stopping at the first chunk that fails; the loop always ends,
    whatever the limits are. *)
Theorem flushSaves_chunked (cfg : flushConfig) (w : world) (items : list SaveItem) :
  exists chunks, concat chunks = items /\ Forall (chunk_ok cfg) chunks
    /\ flushSaves cfg w items = flushBatches w chunks.
Proof. apply flushSaves_batches. Qed.

(** ** Lemmas: writing *)

Lemma applyResults_ok items : forall heap results heap' acked,
  length results = length items -> applyResults heap items results = (heap', acked, false) ->
  acked = items.
Proof.
  induction items as [|item items IH]; intros heap results heap' acked Hlen Ha.
  { cbn in Ha. by injection Ha as _ <-. }
  destruct results as [|r results]; [done|]. cbn in Ha, Hlen. destruct (_ || _).
  - destruct (applyResults (commitPersistItem heap item) items results) as [[h a] f] eqn:E.
    injection Ha as -> <- ->. f_equal. eapply IH; [|exact E]. lia.
  - by destruct (applyResults (rollbackPersistItem heap item) items results) as [[h a] f].
Qed.

Lemma flushSaveBatch_ok items answers : forall w w' u,
  flushSaveBatch answers w items = Some (w', Ok u) ->
  wd_acked w' = wd_acked w ++ items /\ wd_removed w' = wd_removed w.
Proof.
  induction answers as [|a answers IH]; intros w w' u Hf; [done|]. cbn in Hf.
  destruct a as [ctxDone waitDone|results].
  - destruct (_ || _); [done|]. by eapply IH.
  - destruct (Nat.eqb_spec (length results) (length items)) as [Hlen|]; [|done]. cbn in Hf.
    destruct (applyResults (wd_trackers w) items results) as [[h acked] failed] eqn:E.
    destruct failed; [done|]. injection Hf as <- _. cbn.
    by rewrite (applyResults_ok _ _ _ _ _ Hlen E).
Qed.

Lemma flushBatches_ok chunks : forall w w' u,
  flushBatches w chunks = Some (w', Ok u) ->
  wd_acked w' = wd_acked w ++ concat chunks /\ wd_removed w' = wd_removed w.
Proof.
  induction chunks as [|chunk chunks IH]; intros w w' u Hf; cbn in *.
  { injection Hf as <- _. by rewrite app_nil_r. }
  destruct (flushSaveBatch (wd_saves w) w chunk) as [[w1 [u1|e]]|] eqn:Hb; [|done|done].
  apply flushSaveBatch_ok in Hb as [Ha Hr]. apply IH in Hf as [Ha' Hr'].
  by rewrite Ha', Ha, Hr', Hr, app_assoc.
Qed.

Lemma flushRemoveGroup_ok group answers : forall w w' u,
  flushRemoveGroup answers w group = Some (w', Ok u) ->
  wd_acked w' = wd_acked w /\ group ∈ wd_removed w'
  /\ (forall g, g ∈ wd_removed w -> g ∈ wd_removed w').
Proof.
  induction answers as [|a answers IH]; intros w w' u Hf; [done|]. cbn in Hf.
  destruct a as [|removed ctxDone waitDone].
  - injection Hf as <- _. cbn. split_and!; [done|set_solver|set_solver].
  - destruct (_ || _); [done|]. apply IH in Hf as (Ha & Hg & Hk). cbn in *.
    split_and!; [done|done|]. intros g Hgin. apply Hk. destruct removed; set_solver.
Qed.

Lemma flushRemoveGroups_ok groups : forall w w' u,
  flushRemoveGroups w groups = Some (w', Ok u) ->
  wd_acked w' = wd_acked w
  /\ (forall g, g ∈ groups \/ g ∈ wd_removed w -> g ∈ wd_removed w').
Proof.
  induction groups as [|group groups IH]; intros w w' u Hf; cbn in *.
  { injection Hf as <- _. split; [done|]. intros g [Hg|]; [by apply elem_of_nil in Hg|done]. }
  destruct (flushRemoveGroup (wd_removals w) w group) as [[w1 [u1|e]]|] eqn:Hb; [|done|done].
  apply flushRemoveGroup_ok in Hb as (Ha & Hg & Hk). apply IH in Hf as (Ha' & Hk').
  split; [congruence|]. intros g [[->|Hin]%elem_of_cons|Hin]; apply Hk'; eauto.
Qed.

Lemma flushRemoveGroup_acked group answers : forall w w' r,
  flushRemoveGroup answers w group = Some (w', r) -> wd_acked w' = wd_acked w.
Proof.
  induction answers as [|a answers IH]; intros w w' r Hf; [done|]. cbn in Hf.
  destruct a as [|removed ctxDone waitDone]; [by injection Hf as <- _|].
  destruct (_ || _); [by injection Hf as <- _|]. by apply IH in Hf.
Qed.

Lemma flushRemoveGroups_acked groups : forall w w' r,
  flushRemoveGroups w groups = Some (w', r) -> wd_acked w' = wd_acked w.
Proof.
  induction groups as [|group groups IH]; intros w w' r Hf; cbn in *; [by injection Hf as <- _|].
  destruct (flushRemoveGroup (wd_removals w) w group) as [[w1 [u1|e]]|] eqn:Hb; [| |done];
    apply flushRemoveGroup_acked in Hb.
  - apply IH in Hf. congruence.
  - by injection Hf as <- _.
Qed.

(** ** Processing a batch *)

Lemma pending_owes before item after t b :
  is_remove item = false ->
  (forall later, later ∈ after -> itemKey later = itemKey item -> is_remove later = false) ->
  owes item t b ->
  exists kept, pending (before ++ item :: after) (itemKey item) = PendingSave kept /\ owes kept t b.
Proof.
  intros Hr Hafter Ho. induction after as [|later after IH] using rev_ind.
  - rewrite pending_snoc, decide_True by done. unfold pendingStep. rewrite Hr.
    destruct (pending before (itemKey item)) as [|e|rk]; [by exists item| |by exists item].
    exists (mergeSaveItem e item). split; [done|]. apply mergeSaveItem_owes. by right.
  - destruct IH as (kept & Hk & Hok).
    { intros x Hx. apply Hafter. apply elem_of_app. by left. }
    rewrite app_comm_cons, app_assoc, pending_snoc. case_decide as He; [|by exists kept].
    unfold pendingStep. rewrite (Hafter later), Hk; [|set_solver|done].
    exists (mergeSaveItem kept later). split; [done|]. apply mergeSaveItem_owes. by left.
Qed.

Lemma dedup_saves entries item :
  item ∈ (dedup entries).1 <-> exists k, pending (batchItems entries) k = PendingSave item.
Proof.
  unfold dedup. cbn [fst]. rewrite sort_slice_perm, list_elem_of_fmap.
  destruct (dedupItems_inv (batchItems entries)) as [Hs _ _ _]. split.
  - intros ([k it] & -> & Hin). apply elem_of_map_to_list in Hin. exists k. by apply Hs.
  - intros [k Hk]. exists (k, item). rewrite elem_of_map_to_list. split; [done|]. by apply Hs.
Qed.

Lemma dedup_removes entries rk id :
  pending (batchItems entries) (groupKey rk id) = PendingRemove rk ->
  exists ids, (dedup entries).2 !! rk = Some ids /\ id ∈ ids.
Proof.
  intros Hp. destruct (dedupItems_inv (batchItems entries)) as [_ _ Hl _].
  specialize (Hl rk id Hp). unfold dedup. cbn [snd].
  destruct (ds_removes _ !! rk) as [ids|]; [by exists ids|by apply elem_of_nil in Hl].
Qed.

Lemma batchItems_requeued items now rest :
  batchItems (saveJournalEntries items now ++ rest) = items ++ batchItems rest.
Proof.
  unfold batchItems, saveJournalEntries. rewrite bind_app. f_equal.
  induction items as [|item items IH]; [done|]. cbn. by rewrite IH.
Qed.

(** C36. While the journal is open, a dirty bit that a save of a batch carries for a
    tracker is never dropped, as long as the batch does not remove the document
    after that save: whatever the backend answers, the bit is afterwards in the
    mask of an item for the same document, which the backend has accepted or
    which is queued again.  The statement is about masks, not about the contents
    of the merged item, for which see [dedup_patch_after_full]; and the backend
    answers every call. *)
Theorem processBatch_no_lost_save (cfg : flushConfig) (w w' : world) (j j' : SaveJournal)
    (entries : list JournalEntry) (now : Z) (r : fres unit)
    (before after : list SaveItem) (item : SaveItem) (t : trackerPtr) (b : Z) :
  jr_closed j = false -> processBatch cfg w j entries now = Some (w', j', r) ->
  batchItems entries = before ++ item :: after -> is_remove item = false ->
  (forall later, later ∈ after -> itemKey later = itemKey item -> is_remove later = false) ->
  owes item t b ->
  exists kept, itemKey kept = itemKey item /\ owes kept t b
    /\ (kept ∈ wd_acked w' \/ kept ∈ batchItems (jr_entries j')).
Proof.
  intros Hopen Hp Hb Hr Hafter Ho.
  destruct (pending_owes before item after t b Hr Hafter Ho) as (kept & Hk & Hko).
  rewrite <-Hb in Hk. pose proof (pending_key (batchItems entries) (itemKey item)) as Hkey.
  rewrite Hk in Hkey. exists kept. split; [done|]. split; [done|].
  assert (Hin : kept ∈ (dedup entries).1) by (apply dedup_saves; eauto). clear Hk.
  unfold processBatch in Hp. destruct (dedup entries) as [saves removes]. cbn [fst] in Hin.
  destruct (flushSaves_batches cfg w saves) as (chunks & Hc & _ & Hfs). rewrite Hfs in Hp.
  destruct (flushBatches w chunks) as [[w1 [u|e]]|] eqn:Hfb; [| |done].
  - apply flushBatches_ok in Hfb as [Ha _]. left.
    destruct (flushRemoves w1 removes) as [[w2 r2]|] eqn:Hfr; [|done].
    apply flushRemoveGroups_acked in Hfr.
    assert (w' = w2) as -> by (destruct r2; by injection Hp).
    rewrite Hfr, Ha, Hc. set_solver.
  - injection Hp as <- <- _. right. destruct saves as [|s saves]; [by apply elem_of_nil in Hin|].
    cbn [PushFront saveJournalEntries fmap list_fmap]. rewrite Hopen. cbn [fst jr_entries].
    change (mkEntry [s] now :: ((fun item => mkEntry [item] now) <$> saves))
      with (saveJournalEntries (s :: saves) now).
    rewrite batchItems_requeued. set_solver.
Qed.

(** A batch that is processed without an error has performed what it asked for:
    the last operation on every document, and the queue is left alone. *)
Theorem processBatch_success (cfg : flushConfig) (w w' : world) (j j' : SaveJournal)
    (entries : list JournalEntry) (now : Z) (u : unit) :
  processBatch cfg w j entries now = Some (w', j', Ok u) ->
  j' = j
  /\ (forall k item, pending (batchItems entries) k = PendingSave item -> item ∈ wd_acked w')
  /\ (forall rk id, pending (batchItems entries) (groupKey rk id) = PendingRemove rk ->
        exists ids, (rk, ids) ∈ wd_removed w' /\ id ∈ ids).
Proof.
  intros Hp. pose proof (dedup_saves entries) as Hs. pose proof (dedup_removes entries) as Hr.
  unfold processBatch in Hp. destruct (dedup entries) as [saves removes]. cbn [fst snd] in Hs, Hr.
  destruct (flushSaves_batches cfg w saves) as (chunks & Hc & _ & Hfs). rewrite Hfs in Hp.
  destruct (flushBatches w chunks) as [[w1 [u1|e]]|] eqn:Hfb; [|done|done].
  apply flushBatches_ok in Hfb as [Ha _].
  destruct (flushRemoves w1 removes) as [[w2 [u2|e2]]|] eqn:Hfr; [|done|done].
  injection Hp as <- <- _. split; [done|].
  unfold flushRemoves in Hfr. apply flushRemoveGroups_ok in Hfr as [Ha2 Hg]. split.
  - intros k item Hk. rewrite Ha2, Ha, Hc. apply elem_of_app. right. apply Hs. eauto.
  - intros rk id Hk. destruct (Hr rk id Hk) as (ids & Hids & Hid). exists ids. split; [|done].
    apply Hg. left. by rewrite sort_slice_perm, elem_of_map_to_list.
Qed.

Lemma dedup_keys entries : NoDup (itemKey <$> (dedup entries).1).
Proof.
  destruct (dedupItems_inv (batchItems entries)) as [Hs _ _ _].
  unfold dedup. cbn [fst]. rewrite sort_slice_perm, <-list_fmap_compose.
  assert (Hkeys : (itemKey ∘ snd) <$> map_to_list (ds_saveMap (dedupItems (batchItems entries)))
                  = (map_to_list (ds_saveMap (dedupItems (batchItems entries)))).*1).
  { apply list_fmap_ext. intros i [k item] Hi. cbn.
    apply list_elem_of_lookup_2, elem_of_map_to_list, Hs in Hi.
    pose proof (pending_key (batchItems entries) k) as Hk. by rewrite Hi in Hk. }
  rewrite Hkeys. apply NoDup_fst_map_to_list.
Qed.

(** [dedup] keeps the last operation on every document: the saves it returns are
    the pending saves, one per document, and every pending removal is listed.
    When no document is removed twice in a row, nothing else is listed. *)
Theorem dedup_last_operation (entries : list JournalEntry) :
  let items := batchItems entries in
  (forall item, item ∈ (dedup entries).1 <-> exists k, pending items k = PendingSave item)
  /\ NoDup (itemKey <$> (dedup entries).1)
  /\ (forall rk id, pending items (groupKey rk id) = PendingRemove rk ->
        id ∈ default [] ((dedup entries).2 !! rk))
  /\ (no_repeated_remove items -> forall rk id, id ∈ default [] ((dedup entries).2 !! rk) ->
        pending items (groupKey rk id) = PendingRemove rk).
Proof.
  cbv zeta. destruct (dedupItems_inv (batchItems entries)) as [_ _ Hl Hx]. split_and!.
  - apply dedup_saves.
  - apply dedup_keys.
  - exact Hl.
  - intros Hn rk id. by apply (Hx Hn rk).
Qed.

(** ** A batch against a store

    The documented behaviour of a backend: a save is discarded unless its
    version is above the stored one, a full save replaces the fields, a patch
    updates them and creates a missing document from its full data. *)
Section Store.
Context (decode : list byte -> gmap string GoValue).

Record document := mkDoc { doc_version : Z; doc_fields : gmap string GoValue }.

Definition savedFields (d : option document) (item : SaveItem) : gmap string GoValue :=
  match sv_Mode item, d with
  | SaveModeFull, _ => decode (default [] (sv_Data item))
  | SaveModePatch, Some d => applyPatch (sv_Patch item) (doc_fields d)
  | SaveModePatch, None => decode (pp_FullData (sv_Patch item))
  end.

(** The stored version is below [v]. *)
Definition below (d : option document) (v : Z) : bool :=
  match d with Some d => doc_version d <? v | None => true end.

Definition applySave (d : option document) (item : SaveItem) : option document :=
  if below d (sv_Version item) then Some (mkDoc (sv_Version item) (savedFields d item)) else d.

Definition applyItem (d : option document) (item : SaveItem) : option document :=
  if is_remove item then None else applySave d item.

Definition applyPending (d : option document) (p : pendingOp) : option document :=
  match p with
  | PendingNone => d
  | PendingSave item => applySave d item
  | PendingRemove _ => None
  end.

(** Every item in turn. *)
Definition storeItems (store : gmap docKey document) (items : list SaveItem) : gmap docKey document :=
  foldl (fun store item => partial_alter (fun d => applyItem d item) (itemKey item) store) store items.

(** What a flush does with a deduplicated batch: all saves, then all removals. *)
Definition storeBatch (store : gmap docKey document)
    (batch : list SaveItem * gmap removeKey (list Z)) : gmap docKey document :=
  let store := foldl (fun store item => partial_alter (fun d => applySave d item) (itemKey item) store)
                 store batch.1 in
  foldl (fun store (g : removeKey * list Z) =>
           foldl (fun store id => delete (groupKey g.1 id) store) store g.2)
    store (map_to_list batch.2).

(** The items for one document, on a stored document [d], are orderly when
    versions grow and exceed the stored one, a patch follows only patches of an
    existing document, and a save after a removal is a full one. *)
Definition orderly (d : option document) (items : list SaveItem) : Prop :=
  (forall x, x ∈ items -> sv_Mode x = SaveModePatch -> frozen (sv_Patch x))
  /\ forall before x after, items = before ++ x :: after -> is_remove x = false ->
     match last before with
     | None => True
     | Some e =>
         if is_remove e then sv_Mode x = SaveModeFull /\ below d (sv_Version x) = true
         else below d (sv_Version e) = true /\ sv_Version e < sv_Version x
              /\ match sv_Mode x with
                 | SaveModeFull => data_len (sv_Data x) <> 0
                 | SaveModePatch => sv_Mode e = SaveModePatch /\ is_Some d
                 end
     end.

Lemma below_trans d v v' : below d v = true -> v < v' -> below d v' = true.
Proof. destruct d; cbn; [|done]. rewrite !Z.ltb_lt. lia. Qed.

Lemma applySave_ext d item item' :
  sv_Version item = sv_Version item' -> savedFields d item = savedFields d item' ->
  applySave d item = applySave d item'.
Proof. intros Hv Hs. unfold applySave. by rewrite Hv, Hs. Qed.

(** The merged item writes what the two items write one after the other. *)
Lemma merge_sequential d m x :
  below d (sv_Version m) = true -> sv_Version m < sv_Version x ->
  match sv_Mode x with
  | SaveModeFull => data_len (sv_Data x) <> 0
  | SaveModePatch => sv_Mode m = SaveModePatch /\ is_Some d /\ frozen (sv_Patch m)
  end ->
  applySave (applySave d m) x = applySave d (mergeSaveItem m x).
Proof.
  intros Hb Hv Hm.
  assert (Hmerge : mergeSaveItem m x = set_merge x (Z.lor (sv_Mask x) (sv_Mask m))
      (if data_len (sv_Data x) =? 0 then sv_Data m else sv_Data x)
      (if both_patch x m then PersistPatch_Merge (sv_Patch m) (sv_Patch x) else sv_Patch x)
      (match sv_Tracker x with None => sv_Tracker m | t => t end) (mergeSaveTargets m x)).
  { unfold mergeSaveItem. destruct (Z.leb_spec (sv_Version m) (sv_Version x)); [done|lia]. }
  rewrite Hmerge. unfold applySave at 2. rewrite Hb. unfold applySave.
  cbn [below doc_version set_merge sv_Version]. rewrite (below_trans d _ _ Hb Hv).
  destruct (Z.ltb_spec (sv_Version m) (sv_Version x)); [|lia]. do 2 f_equal.
  unfold savedFields. cbn [set_merge sv_Mode sv_Data sv_Patch doc_fields].
  destruct (sv_Mode x) eqn:Hmx.
  - destruct (Z.eqb_spec (data_len (sv_Data x)) 0); [done|done].
  - destruct Hm as (Hmm & [d0 ->] & Hf). unfold both_patch. rewrite Hmx, Hmm.
    rewrite !bool_decide_true by done. cbn [andb]. by rewrite PersistPatch_Merge_apply.
Qed.

Lemma orderly_app d items x : orderly d (items ++ [x]) -> orderly d items.
Proof.
  intros [Hf Ho]. split.
  - intros y Hy. apply Hf. apply elem_of_app. by left.
  - intros before y after He. apply (Ho before y (after ++ [x])). by rewrite He, <-app_assoc.
Qed.

(** What is pending after orderly items, by the last of them. *)
Definition pending_last (items : list SaveItem) (p : pendingOp) : Prop :=
  match last items with
  | None => p = PendingNone
  | Some e =>
      if is_remove e then p = PendingRemove (itemRemoveKey e)
      else exists m, p = PendingSave m /\ sv_Version m = sv_Version e /\ sv_Mode m = sv_Mode e
             /\ (sv_Mode m = SaveModePatch -> frozen (sv_Patch m))
  end.

Lemma orderly_sequential d items :
  orderly d items ->
  let p := foldl pendingStep PendingNone items in
  foldl applyItem d items = applyPending d p /\ pending_last items p.
Proof.
  cbv zeta. induction items as [|x items IH] using rev_ind; intros Ho; [done|].
  destruct (IH (orderly_app _ _ _ Ho)) as [Heq Hlast]. destruct Ho as [Hf Hstep].
  specialize (Hstep items x [] eq_refl).
  rewrite !foldl_app. cbn [foldl]. rewrite Heq. unfold pending_last. rewrite last_snoc.
  clear Heq IH. generalize dependent (foldl pendingStep PendingNone items). intros p Hlast.
  unfold pendingStep, applyItem. destruct (is_remove x) eqn:Hr; [done|].
  specialize (Hstep eq_refl). unfold pending_last in Hlast.
  assert (Hfx : sv_Mode x = SaveModePatch -> frozen (sv_Patch x)) by (apply Hf; set_solver).
  destruct (last items) as [e|]; last first.
  { rewrite Hlast. split; [done|]. by exists x. }
  destruct (is_remove e).
  - rewrite Hlast. cbn [applyPending]. destruct Hstep as [Hm Hb]. split; [|by exists x].
    unfold applySave. rewrite Hb. cbn. unfold savedFields. by rewrite Hm.
  - destruct Hlast as (m & -> & Hv & Hmode & Hfm). cbn [applyPending].
    destruct Hstep as (Hb & Hlt & Hx). split.
    + apply merge_sequential; [by rewrite Hv|lia|]. destruct (sv_Mode x); [done|].
      destruct Hx as [He Hd]. rewrite Hmode. split_and!; [done|done|]. apply Hfm. congruence.
    + exists (mergeSaveItem m x).
      assert (Hmerge : sv_Version (mergeSaveItem m x) = sv_Version x
                       /\ sv_Mode (mergeSaveItem m x) = sv_Mode x
                       /\ sv_Patch (mergeSaveItem m x)
                          = if both_patch x m then PersistPatch_Merge (sv_Patch m) (sv_Patch x)
                            else sv_Patch x).
      { unfold mergeSaveItem. destruct (Z.leb_spec (sv_Version m) (sv_Version x)); [done|lia]. }
      destruct Hmerge as (-> & -> & ->). split_and!; [done|done|done|]. intros Hpx.
      destruct (both_patch x m) eqn:Hbp; [|by apply Hfx].
      unfold both_patch in Hbp. bool_to_prop. apply frozen_Merge; [by apply Hfm|by apply Hfx].
Qed.

Lemma storeItems_lookup items : forall store k,
  storeItems store items !! k
  = foldl applyItem (store !! k) (filter (fun item => itemKey item = k) items).
Proof.
  unfold storeItems. induction items as [|x items IH]; intros store k; [done|].
  cbn [foldl]. rewrite IH, filter_cons. case_decide as Hk.
  - subst. by rewrite lookup_partial_alter_eq.
  - by rewrite lookup_partial_alter_ne.
Qed.

Lemma storeSaves_lookup saves : forall (store : gmap docKey document) k,
  NoDup (itemKey <$> saves) ->
  (forall item, item ∈ saves -> itemKey item = k ->
     foldl (fun store item => partial_alter (fun d => applySave d item) (itemKey item) store)
       store saves !! k = applySave (store !! k) item)
  /\ ((forall item, item ∈ saves -> itemKey item <> k) ->
     foldl (fun store item => partial_alter (fun d => applySave d item) (itemKey item) store)
       store saves !! k = store !! k).
Proof.
  induction saves as [|x saves IH]; intros store k Hnd; cbn [foldl fmap list_fmap] in *.
  { split; [|done]. intros item Hi. by apply elem_of_nil in Hi. }
  apply NoDup_cons in Hnd as [Hx Hnd].
  destruct (IH (partial_alter (fun d => applySave d x) (itemKey x) store) k Hnd) as [H1 H2]. split.
  - intros item [->|Hin]%elem_of_cons Hk.
    + rewrite H2, <-Hk; [by rewrite lookup_partial_alter_eq|].
      intros y Hy Hyk. apply Hx. rewrite Hk, <-Hyk. by apply list_elem_of_fmap_2.
    + rewrite (H1 item Hin Hk), lookup_partial_alter_ne; [done|].
      intros Hxk. apply Hx. rewrite Hxk, <-Hk. by apply list_elem_of_fmap_2.
  - intros Hno. rewrite H2, lookup_partial_alter_ne; [done| |].
    + intros Hxk. apply (Hno x); [left|done].
    + intros y Hy. apply Hno. by right.
Qed.

Lemma storeRemoves_lookup groups : forall (store : gmap docKey document) k,
  let store' := foldl (fun store (g : removeKey * list Z) =>
       foldl (fun store id => delete (groupKey g.1 id) store) store g.2) store groups in
  ((exists g id, g ∈ groups /\ id ∈ g.2 /\ groupKey g.1 id = k) -> store' !! k = None)
  /\ ((forall g id, g ∈ groups -> id ∈ g.2 -> groupKey g.1 id <> k) -> store' !! k = store !! k).
Proof.
  assert (Hids : forall rk ids (store : gmap docKey document) k,
    (store !! k = None \/ (exists id, id ∈ ids /\ groupKey rk id = k) ->
       foldl (fun store id => delete (groupKey rk id) store) store ids !! k = None)
    /\ ((forall id, id ∈ ids -> groupKey rk id <> k) ->
       foldl (fun store id => delete (groupKey rk id) store) store ids !! k = store !! k)).
  { intros rk ids. induction ids as [|i ids IH]; intros store k; cbn [foldl].
    - split; [|done]. intros [|(id & Hid & _)]; [done|by apply elem_of_nil in Hid].
    - destruct (IH (delete (groupKey rk i) store) k) as [H1 H2]. split.
      + intros Hc. apply H1. rewrite lookup_delete_None. set_solver.
      + intros Hno. rewrite H2, lookup_delete_ne; [done| |]; set_solver. }
  assert (Hkeep : forall gs (store : gmap docKey document) k, store !! k = None ->
    foldl (fun store (g : removeKey * list Z) =>
       foldl (fun store id => delete (groupKey g.1 id) store) store g.2) store gs !! k = None).
  { induction gs as [|g gs IH]; intros store k Hk; [done|]. cbn [foldl]. apply IH.
    apply Hids. by left. }
  induction groups as [|g groups IH]; intros store k; cbn [foldl].
  { split; [|done]. intros (g & _ & Hg & _). by apply elem_of_nil in Hg. }
  destruct (IH (foldl (fun store id => delete (groupKey g.1 id) store) store g.2) k) as [H1 H2]. split.
  - intros (g' & id & [->|Hg]%elem_of_cons & Hid & Hk).
    + apply Hkeep, Hids. right. eauto.
    + apply H1. eauto.
  - intros Hno. rewrite H2; [apply Hids|]; intros; eapply Hno; set_solver.
Qed.

(** Flushing a deduplicated batch leaves the store as applying every item in
    order would, when the items of every document are orderly and no removal is
    repeated. *)
Theorem dedup_sequential (store : gmap docKey document) (entries : list JournalEntry) :
  no_repeated_remove (batchItems entries) ->
  (forall k, orderly (store !! k) (filter (fun item => itemKey item = k) (batchItems entries))) ->
  storeBatch store (dedup entries) = storeItems store (batchItems entries).
Proof.
  intros Hn Ho. destruct (dedupItems_inv (batchItems entries)) as [Hs _ Hl Hx].
  specialize (Hx Hn). apply map_eq. intros k.
  destruct (orderly_sequential (store !! k) _ (Ho k)) as [Heq _].
  rewrite storeItems_lookup, Heq. fold (pending (batchItems entries) k).
  pose proof (dedup_saves entries) as Hsaves. pose proof (dedup_keys entries) as Hnd.
  unfold storeBatch. destruct (dedup entries) as [saves removes] eqn:Hd. cbn [fst snd] in *.
  assert (Hrem : removes = ds_removes (dedupItems (batchItems entries)))
    by (unfold dedup in Hd; by injection Hd).
  rewrite <-Hrem in Hl, Hx.
  set (store1 := foldl _ store saves).
  destruct (storeSaves_lookup saves store k Hnd) as [Hin Hout]. fold store1 in Hin, Hout.
  destruct (storeRemoves_lookup (map_to_list removes) store1 k) as [Hr1 Hr2].
  pose proof (pending_key (batchItems entries) k) as Hpk.
  assert (Hnone : (forall rk, pending (batchItems entries) k <> PendingRemove rk) ->
            forall (g : removeKey * list Z) id, g ∈ map_to_list removes -> id ∈ g.2 ->
            groupKey g.1 id <> k).
  { intros Hp [rk ids] id Hg Hid Hk. apply elem_of_map_to_list in Hg. apply (Hp rk).
    rewrite <-Hk. apply Hx. cbn in *. by rewrite Hg. }
  assert (Hother : forall item, item ∈ saves -> itemKey item = k ->
            pending (batchItems entries) k = PendingSave item).
  { intros item Hit Hk. apply Hsaves in Hit as [k' Hk'].
    pose proof (pending_key (batchItems entries) k') as Hpk'. rewrite Hk' in Hpk'. congruence. }
  destruct (pending (batchItems entries) k) as [|item|rk] eqn:Hp; cbn [applyPending].
  - rewrite Hr2, Hout; [done| |by apply Hnone].
    intros it Hit Hk. by specialize (Hother it Hit Hk).
  - rewrite Hr2 by (by apply Hnone). apply Hin; [|done]. apply Hsaves. eauto.
  - apply Hr1. rewrite Hpk in Hp. specialize (Hl rk _ Hp).
    destruct (removes !! rk) as [ids|] eqn:Hids; [|by apply elem_of_nil in Hl].
    exists (rk, ids), (dk_id k). rewrite elem_of_map_to_list. by split_and!.
Qed.
End Store.

(** ** Samples *)

Definition sample_save (id version mask : Z) (mode : SaveMode) (data : list byte) (patch : PersistPatch)
    : SaveItem :=
  mkItem "game" 0 "player" id version 0 0 false mask mode (Some data) patch (Some 0%nat) [].

Definition sample_full (id version : Z) (data : list byte) : SaveItem :=
  sample_save id version 1 SaveModeFull data emptyPatch.

Definition sample_patch (id version : Z) (field : string) (v : Z) : SaveItem :=
  sample_save id version 2 SaveModePatch [] (mkPatch {[ field := GVScalar v ]} [] [Byte.x00]).

Definition sample_remove (id : Z) : SaveItem :=
  mkItem "game" 0 "player" id 0 0 0 false 0 SaveModeFull None emptyPatch None [].

Definition sample_key (id : Z) : docKey := mkDocKey "game" 0 "player" id.

(** Field [a] is the number of bytes, field [b] is zero. *)
Definition sample_decode (data : list byte) : gmap string GoValue :=
  {[ "a"%string := GVScalar (len data); "b"%string := GVScalar 0 ]}.

Definition sample_cfg : flushConfig := mkFlushConfig 1 1024.

Definition sample_world (answers : list saveAnswer) : world :=
  mkWorld {[ 0%nat := newTracker ]} answers [RemoveDone] [] [].

(** Two patches, a full save of another document and a removal. *)
Definition sample_entries : list JournalEntry :=
  [mkEntry [sample_patch 7 3 "a" 5; sample_full 8 1 [Byte.x01]] 0;
   mkEntry [sample_patch 7 4 "b" 6; sample_remove 9] 1].

Definition sample_store : gmap docKey document :=
  {[ sample_key 7 := mkDoc 2 (sample_decode []); sample_key 9 := mkDoc 1 ∅ ]}.

Lemma processBatch_no_lost_save_witness :
  exists kept, itemKey kept = sample_key 7 /\ owes kept 0%nat 1
    /\ (kept ∈ wd_acked (mkWorld {[ 0%nat := mkTracker 2 0 0 0 ]} [] [RemoveDone] [] [])
        \/ kept ∈ batchItems (jr_entries (mkJournal (saveJournalEntries (dedup sample_entries).1 2)
                                            false 10))).
Proof.
  apply (processBatch_no_lost_save sample_cfg (sample_world [SaveFails false true])
           (mkWorld {[ 0%nat := mkTracker 2 0 0 0 ]} [] [RemoveDone] [] [])
           (NewJournal 10) _ sample_entries 2 (Err ErrContext)
           [] [sample_full 8 1 [Byte.x01]; sample_patch 7 4 "b" 6; sample_remove 9]
           (sample_patch 7 3 "a" 5) 0%nat 1).
  - reflexivity.
  - vm_compute. reflexivity.
  - reflexivity.
  - reflexivity.
  - intros later Hin Hk. rewrite !elem_of_cons, elem_of_nil in Hin.
    destruct Hin as [->|[->|[->|[]]]]; [reflexivity|reflexivity|discriminate Hk].
  - exists (mkTarget (Some 0%nat) 2). split; [left|]. split; reflexivity.
Defined.

Lemma processBatch_success_witness :
  sample_full 8 1 [Byte.x01] ∈ (dedup sample_entries).1.
Proof.
  pose (ok := SaveReturns [mkResult true false]).
  assert (Hp : processBatch sample_cfg (sample_world [ok; ok]) (NewJournal 10) sample_entries 2
    = Some (mkWorld {[ 0%nat := newTracker ]} [] [] (dedup sample_entries).1
              [(itemRemoveKey (sample_remove 9), [9])], NewJournal 10, Ok tt))
    by (vm_compute; reflexivity).
  destruct (processBatch_success _ _ _ _ _ _ _ _ Hp) as (_ & Hs & _).
  apply (Hs (sample_key 8)). vm_compute. reflexivity.
Defined.

Lemma sample_entries_clean : no_repeated_remove (batchItems sample_entries).
Proof.
  intros before item after He Hr rk.
  destruct before as [|a [|b [|c [|d before]]]]; cbn in He; injection He as <-; subst; try done.
  apply (f_equal length) in H2. rewrite length_app in H2. cbn in H2. lia.
Qed.

Lemma orderly_one d x :
  (sv_Mode x = SaveModePatch -> frozen (sv_Patch x)) -> orderly d [x].
Proof.
  intros Hf. split; [by intros y ->%list_elem_of_singleton|].
  intros before y after He _. destruct before as [|z before]; [done|].
  injection He as _ He. by destruct before.
Qed.

Lemma orderly_none d : orderly d [].
Proof.
  split; [by intros x Hx%elem_of_nil|]. intros before x after He. by destruct before.
Qed.

Lemma sample_entries_orderly k :
  orderly (sample_store !! k) (filter (fun item => itemKey item = k) (batchItems sample_entries)).
Proof.
  change (batchItems sample_entries) with [sample_patch 7 3 "a" 5; sample_full 8 1 [Byte.x01];
    sample_patch 7 4 "b" 6; sample_remove 9].
  destruct (decide (k = sample_key 7)) as [->|H7].
  - change (filter _ _) with [sample_patch 7 3 "a" 5; sample_patch 7 4 "b" 6]. split.
    + intros x Hx _. rewrite !elem_of_cons, elem_of_nil in Hx.
      destruct Hx as [->|[->|[]]]; by eexists.
    + intros before x after He _.
      destruct before as [|y [|z before]]; [done| |].
      * injection He as <- <- _. vm_compute. by split_and!; [..|eexists].
      * injection He as _ _ He. by destruct before.
  - rewrite !filter_cons, filter_nil. rewrite (decide_False (P := itemKey (sample_patch 7 3 _ _) = k)) by done.
    rewrite (decide_False (P := itemKey (sample_patch 7 4 _ _) = k)) by done.
    repeat case_decide; try (by apply orderly_one); try apply orderly_none. subst k. discriminate.
Qed.

Lemma dedup_sequential_witness :
  storeBatch sample_decode sample_store (dedup sample_entries)
    = storeItems sample_decode sample_store (batchItems sample_entries)
  /\ doc_fields <$> storeBatch sample_decode sample_store (dedup sample_entries) !! sample_key 7
     = Some {[ "a"%string := GVScalar 5; "b"%string := GVScalar 6 ]}.
Proof.
  split; [|vm_compute; reflexivity].
  exact (dedup_sequential sample_decode sample_store sample_entries sample_entries_clean
           sample_entries_orderly).
Defined.

(** *** Where the flusher deviates *)

(** A document that is removed twice and then saved is saved and removed: only
    one of the two listed removals is cancelled. *)
Theorem dedup_repeated_remove :
  let entries := [mkEntry [sample_remove 7; sample_remove 7; sample_full 7 9 [Byte.x01]] 0] in
  storeBatch sample_decode sample_store (dedup entries) !! sample_key 7 = None
  /\ doc_version <$> storeItems sample_decode sample_store (batchItems entries) !! sample_key 7 = Some 9.
Proof. by vm_compute. Qed.

(** A patch after a full save keeps only the patch: the other fields of the full
    save are never written. *)
Theorem dedup_patch_after_full :
  let entries := [mkEntry [sample_full 7 3 [Byte.x01; Byte.x02]; sample_patch 7 4 "b" 6] 0] in
  doc_fields <$> storeBatch sample_decode sample_store (dedup entries) !! sample_key 7
    = Some {[ "a"%string := GVScalar 0; "b"%string := GVScalar 6 ]}
  /\ doc_fields <$> storeItems sample_decode sample_store (batchItems entries) !! sample_key 7
     = Some {[ "a"%string := GVScalar 2; "b"%string := GVScalar 6 ]}.
Proof. by vm_compute. Qed.

(** A document recreated with a new version history in the batch that removes it
    is not written: the removal is dropped and the save is stale. *)
Theorem dedup_recreated :
  let entries := [mkEntry [sample_remove 7; sample_full 7 1 [Byte.x01; Byte.x02]] 0] in
  doc_version <$> storeBatch sample_decode sample_store (dedup entries) !! sample_key 7 = Some 2
  /\ doc_version <$> storeItems sample_decode sample_store (batchItems entries) !! sample_key 7 = Some 1.
Proof. by vm_compute. Qed.

(** When the saves of a batch fail its removals are neither performed nor
    queued again. *)
Theorem processBatch_drops_removes :
  match processBatch sample_cfg (sample_world [SaveFails true false]) (NewJournal 10)
          [mkEntry [sample_remove 9; sample_full 8 1 [Byte.x01]] 0] 2 with
  | Some (w, j, Err ErrContext) =>
      wd_removed w = [] /\ batchItems (jr_entries j) = [sample_full 8 1 [Byte.x01]]
  | _ => False
  end.
Proof. by vm_compute. Qed.

(** In a closed journal the saves after the chunk that failed are neither
    written, queued again nor rolled back: the dirty bit of document 8 is lost. *)
Theorem processBatch_closed_loses :
  match processBatch sample_cfg (sample_world [SaveFails true false]) (Journal_Close (NewJournal 10))
          [mkEntry [sample_patch 7 3 "a" 5; sample_full 8 1 [Byte.x01]] 0] 2 with
  | Some (w, j, Err ErrContext) =>
      wd_acked w = [] /\ jr_entries j = []
      /\ dt_persistDirty <$> wd_trackers w !! 0%nat = Some 2
  | _ => False
  end.
Proof. by vm_compute. Qed.
