(* ===== verification/RedisWal.v ===== *)
(** * The Redis snapshot log

    [src/checkpoint/redis_wal.go]: saves and deletions are written to Redis
    before they reach the storage backend, and replayed from there when the
    process starts.  Each document has one record per shard hash, under a target
    string, and an entry in the shard's sorted set of pending targets.  Redis
    and the storage backend are outside code: every call consumes one answer of
    a script, and a failed write of the backend may have been applied in part.
    A log with a time to live renews the expiry of both keys of a shard with
    every write; a key that expires loses all its entries.
    A payload stands for its JSON text; text that does not decode is [None]. *)

From stdpp Require Import base list gmap strings pretty sorting.
From Stdlib Require Import ZArith Lia Ascii.
From Stdlib Require Strings.Byte.
From S2P Require Import Prelude Persist Flusher.

Local Open Scope Z_scope.

(** ** Targets and shards *)

(** [strconv.FormatInt(id, 10)] is [pretty id]. *)
Definition redisSnapshotWALTarget (db : string) (dbScope : Z) (collection : string) (id : Z) : string :=
  if dbScope =? DatabaseScopeServer then
    (db +:+ "|server|" +:+ collection +:+ "|" +:+ pretty id)%string
  else if negb (bool_decide (db = ""%string)) then
    (db +:+ "|" +:+ collection +:+ "|" +:+ pretty id)%string
  else (collection +:+ "|" +:+ pretty id)%string.

(** FNV-1a, 32 bits. *)
Fixpoint redisSnapshotWALHashFrom (h : Z) (s : string) : Z :=
  match s with
  | EmptyString => h
  | String c s =>
      redisSnapshotWALHashFrom (u32! (Z.lxor h (Z.of_nat (nat_of_ascii c)) * 16777619)) s
  end.

Definition redisSnapshotWALHash (target : string) : Z := redisSnapshotWALHashFrom 2166136261 target.

Definition redisSnapshotWALShard (target : string) (shards : Z) : Z :=
  if shards <=? 1 then 0 else redisSnapshotWALHash target mod u32! shards.

Definition redisSnapshotWALWorker (target : string) (workers : Z) : Z :=
  if workers <=? 1 then 0 else redisSnapshotWALHash target mod u32! workers.

(** ** Payloads and tasks *)

Inductive walOperation := OperationSave | OperationDelete | OperationOther.

#[export] Instance walOperation_eq_dec : EqDecision walOperation.
Proof. solve_decision. Defined.

Record redisSnapshotWALPayload := mkPayload {
  pl_Operation : walOperation;
  pl_Db : string;
  pl_DbScope : Z;
  pl_Collection : string;
  pl_ID : Z;
  pl_Version : Z;
  pl_Fence : Z;
  pl_OwnerSid : Z;
  pl_Shared : bool;
  pl_Mask : Z;
  pl_Mode : SaveMode;
  pl_Data : list byte;
  pl_CreatedAt : Z
}.

#[export] Instance byte_eq_decision : EqDecision byte := Strings.Byte.byte_eq_dec.

#[export] Instance redisSnapshotWALPayload_eq_dec : EqDecision redisSnapshotWALPayload.
Proof. solve_decision. Defined.

(** Replayed saves are full. *)
Definition saveOp (p : redisSnapshotWALPayload) : SaveItem :=
  mkItem (pl_Db p) (pl_DbScope p) (pl_Collection p) (pl_ID p) (pl_Version p) (pl_Fence p)
    (pl_OwnerSid p) (pl_Shared p) (pl_Mask p) SaveModeFull (Some (pl_Data p)) emptyPatch None [].

Definition redisSnapshotWALPayloadTarget (p : redisSnapshotWALPayload) : string :=
  redisSnapshotWALTarget (pl_Db p) (pl_DbScope p) (pl_Collection p) (pl_ID p).

Definition payloadKey (p : redisSnapshotWALPayload) : docKey :=
  mkDocKey (pl_Db p) (pl_DbScope p) (pl_Collection p) (pl_ID p).

Definition payloadRemoveKey (p : redisSnapshotWALPayload) : removeKey :=
  mkRemoveKey (pl_Db p) (pl_DbScope p) (pl_Collection p) (pl_Fence p) (pl_OwnerSid p) (pl_Shared p).

Definition itemTarget (item : SaveItem) : string :=
  redisSnapshotWALTarget (sv_Db item) (sv_DbScope item) (sv_Collection item) (sv_ID item).

(** [decodeRedisSnapshotWALPayload] after [json.Unmarshal]. *)
Definition validPayload (p : redisSnapshotWALPayload) : bool :=
  negb (bool_decide (pl_Collection p = ""%string) || (pl_ID p =? 0)
        || bool_decide (pl_Operation p = OperationOther)
        || (bool_decide (pl_Operation p = OperationSave) && (len (pl_Data p) =? 0))).

(** The record a save item leaves in the log, if any. *)
Definition writeTask (item : SaveItem) (now : Z) : option redisSnapshotWALPayload :=
  if bool_decide (sv_Collection item = ""%string) || (sv_ID item =? 0) || is_remove item then None else
  let data := match sv_Mode item, pp_FullData (sv_Patch item) with
              | SaveModePatch, b :: bs => b :: bs
              | _, _ => default [] (sv_Data item)
              end in
  if len data =? 0 then None else
  Some (mkPayload OperationSave (sv_Db item) (sv_DbScope item) (sv_Collection item) (sv_ID item)
          (sv_Version item) (sv_Fence item) (sv_OwnerSid item) (sv_Shared item) (sv_Mask item)
          (sv_Mode item) data now).

Definition deleteTask (item : SaveItem) (now : Z) : option redisSnapshotWALPayload :=
  if bool_decide (sv_Collection item = ""%string) || (sv_ID item =? 0) then None else
  Some (mkPayload OperationDelete (sv_Db item) (sv_DbScope item) (sv_Collection item) (sv_ID item)
          0 (sv_Fence item) (sv_OwnerSid item) (sv_Shared item) 0 SaveModeFull [] now).

Definition ackTask (item : SaveItem) : option string :=
  if bool_decide (sv_Collection item = ""%string) || (sv_ID item =? 0) then None
  else Some (itemTarget item).

(** ** Redis *)

(** The hash of records and the sorted set of pending targets of a shard. *)
Record redisShard := mkShard {
  rs_snapshot : gmap string (option redisSnapshotWALPayload);
  rs_pending : gmap string Z
}.

Definition emptyShard : redisShard := mkShard ∅ ∅.

(** The answer to one call of Redis or of the backend; a [BulkSave] or
    [BulkRemove] that failed, or that reports a failed operation, may have
    applied any of its operations. *)
Inductive answer := AOk | AFail (applied : list bool).

(** The operations the backend applied. *)
Fixpoint select {A} (applied : list bool) (ops : list A) : list A :=
  match applied, ops with
  | b :: applied, x :: ops => if b then x :: select applied ops else select applied ops
  | _, _ => []
  end.

Lemma select_sublist {A} (applied : list bool) (ops : list A) : sublist (select applied ops) ops.
Proof.
  revert applied. induction ops as [|x ops IH]; intros [|[] applied]; cbn;
    eauto using sublist_nil_l; by constructor.
Qed.

(** A script that has run out stands for calls that time out. *)
Definition nextAnswer (script : list answer) : answer * list answer :=
  match script with
  | [] => (AFail [], [])
  | a :: script => (a, script)
  end.

Definition hset (r : redisShard) (target : string) (p : redisSnapshotWALPayload) : redisShard :=
  mkShard (<[target := Some p]> (rs_snapshot r)) (rs_pending r).

Definition zadd (r : redisShard) (target : string) (score : Z) : redisShard :=
  mkShard (rs_snapshot r) (<[target := score]> (rs_pending r)).

Definition hdel (r : redisShard) (targets : list string) : redisShard :=
  mkShard (foldl (fun m t => delete t m) (rs_snapshot r) targets) (rs_pending r).

Definition zrem (r : redisShard) (targets : list string) : redisShard :=
  mkShard (rs_snapshot r) (foldl (fun m t => delete t m) (rs_pending r) targets).

(** Calls whose effect is the expiry of a key: the first that fails ends them. *)
Fixpoint expireKeys (n : nat) (script : list answer) : list answer * bool :=
  match n with
  | O => (script, true)
  | S n =>
      match nextAnswer script with
      | (AFail _, script) => (script, false)
      | (AOk, script) => expireKeys n script
      end
  end.

(** The score is the creation time.  With a time to live both keys get a new
    expiry; a call that fails leaves what the calls before it did. *)
Definition writeSnapshot (ttl : Z) (r : redisShard) (p : redisSnapshotWALPayload) (script : list answer)
    : redisShard * list answer * bool :=
  let target := redisSnapshotWALPayloadTarget p in
  match nextAnswer script with
  | (AFail _, script) => (r, script, false)
  | (AOk, script) =>
      let r := hset r target p in
      match nextAnswer script with
      | (AFail _, script) => (r, script, false)
      | (AOk, script) =>
          let r := zadd r target (pl_CreatedAt p) in
          let '(script, ok) := if 0 <? ttl then expireKeys 2 script else (script, true) in
          (r, script, ok)
      end
  end.

(** [ackTasks] for the targets of one shard: the records go before the pending
    entries. *)
Definition ackTargets (r : redisShard) (targets : list string) (script : list answer)
    : redisShard * list answer * bool :=
  match targets with
  | [] => (r, script, true)
  | _ =>
      match nextAnswer script with
      | (AFail _, script) => (r, script, false)
      | (AOk, script) =>
          let r := hdel r targets in
          match nextAnswer script with
          | (AFail _, script) => (r, script, false)
          | (AOk, script) => (zrem r targets, script, true)
          end
      end
  end.

(** ** Replay *)

(** [ZRangeWithScores(0, n-1)]: the [n] lowest scores, ties by member. *)
Definition score_less (a b : string * Z) : bool :=
  (a.2 <? b.2) || ((a.2 =? b.2) && String.ltb a.1 b.1).

Definition lowestPending (r : redisShard) (n : Z) : list string :=
  (take (Z.to_nat n) (sort_slice score_less (map_to_list (rs_pending r)))).*1.

(** The payloads of the targets, the targets without a record, or an error for
    a record that does not decode. *)
Fixpoint loadReplayPayloads (r : redisShard) (targets : list string)
    : option (list redisSnapshotWALPayload * list string) :=
  match targets with
  | [] => Some ([], [])
  | t :: targets =>
      match rs_snapshot r !! t with
      | None => '(ps, stale) ← loadReplayPayloads r targets; Some (ps, t :: stale)
      | Some None => None
      | Some (Some p) =>
          if validPayload p then '(ps, stale) ← loadReplayPayloads r targets; Some (p :: ps, stale)
          else None
      end
  end.

Definition isDelete (p : redisSnapshotWALPayload) : bool :=
  bool_decide (pl_Operation p = OperationDelete).

(** [deleteGroups] *)
Definition deleteGroups (ps : list redisSnapshotWALPayload)
    : gmap removeKey (list redisSnapshotWALPayload) :=
  foldl (fun m p => <[payloadRemoveKey p := default [] (m !! payloadRemoveKey p) ++ [p]]> m) ∅
    (filter (fun p => isDelete p = true) ps).

Section Replay.
Context (decode : list byte -> gmap string GoValue).

Abbreviation docStore := (gmap docKey document).

(** What [BulkSave] and [BulkRemove] do to the store of [Flusher.v]. *)
Definition bulkSave (store : docStore) (ps : list redisSnapshotWALPayload) : docStore :=
  foldl (fun store p => partial_alter (fun d => applySave decode d (saveOp p)) (payloadKey p) store)
    store ps.

Definition bulkRemove (store : docStore) (ps : list redisSnapshotWALPayload) : docStore :=
  foldl (fun store p => delete (payloadKey p) store) store ps.

Definition replayed := (redisShard * docStore * list answer)%type.

(** The loop over the groups of deletions. *)
Fixpoint replayGroups (r : redisShard) (store : docStore)
    (groups : list (list redisSnapshotWALPayload)) (script : list answer) : replayed * bool :=
  match groups with
  | [] => ((r, store, script), true)
  | group :: groups =>
      match nextAnswer script with
      | (AFail n, script) => ((r, bulkRemove store (select n group), script), false)
      | (AOk, script) =>
          let store := bulkRemove store group in
          match ackTargets r (redisSnapshotWALPayloadTarget <$> group) script with
          | (r, script, true) => replayGroups r store groups script
          | (r, script, false) => ((r, store, script), false)
          end
      end
  end.

Definition replayPayloadBatch (r : redisShard) (store : docStore)
    (ps : list redisSnapshotWALPayload) (script : list answer) : replayed * bool :=
  let groups := (map_to_list (deleteGroups ps)).*2 in
  match filter (fun p => isDelete p = false) ps with
  | [] => replayGroups r store groups script
  | saves =>
      match nextAnswer script with
      | (AFail n, script) => ((r, bulkSave store (select n saves), script), false)
      | (AOk, script) =>
          let store := bulkSave store saves in
          match ackTargets r (redisSnapshotWALPayloadTarget <$> saves) script with
          | (r, script, true) => replayGroups r store groups script
          | (r, script, false) => ((r, store, script), false)
          end
      end
  end.

(** [replayShard]: batches until nothing is pending.  Reading the pending
    targets and their records is one call each; [None] is out of fuel. *)
Fixpoint replayShard (fuel : nat) (batch : Z) (r : redisShard) (store : docStore)
    (script : list answer) : option (replayed * bool) :=
  match fuel with
  | O => None
  | S fuel =>
      match nextAnswer script with
      | (AFail _, script) => Some ((r, store, script), false)
      | (AOk, script) =>
          match lowestPending r batch with
          | [] => Some ((r, store, script), true)
          | targets =>
              match nextAnswer script with
              | (AFail _, script) => Some ((r, store, script), false)
              | (AOk, script) =>
                  match loadReplayPayloads r targets with
                  | None => Some ((r, store, script), false)
                  | Some (ps, stale) =>
                      match ackTargets r stale script with
                      | (r, script, false) => Some ((r, store, script), false)
                      | (r, script, true) =>
                          match ps with
                          | [] => replayShard fuel batch r store script
                          | _ =>
                              match replayPayloadBatch r store ps script with
                              | ((r, store, script), true) => replayShard fuel batch r store script
                              | other => Some other
                              end
                          end
                      end
                  end
              end
          end
      end
  end.

(** ** Specification of replay *)

(** A record of the shard that replay must apply. *)
Definition pendingRecord (r : redisShard) (t : string) (p : redisSnapshotWALPayload) : Prop :=
  rs_snapshot r !! t = Some (Some p) /\ is_Some (rs_pending r !! t).

(** Records are stored under their own target. *)
Definition shard_ok (r : redisShard) : Prop :=
  forall t p, rs_snapshot r !! t = Some (Some p) -> redisSnapshotWALPayloadTarget p = t.

Definition applyRecord (p : redisSnapshotWALPayload) (d : option document) : option document :=
  if isDelete p then None else applySave decode d (saveOp p).

(** ** Lemmas: Redis *)

Lemma hdel_lookup r targets t :
  rs_snapshot (hdel r targets) !! t = if decide (t ∈ targets) then None else rs_snapshot r !! t.
Proof.
  unfold hdel. cbn. generalize (rs_snapshot r). induction targets as [|u targets IH]; intros m; cbn.
  { by rewrite decide_False by apply not_elem_of_nil. }
  rewrite IH. destruct (decide (t ∈ targets)) as [|Hn].
  - by rewrite decide_True by (by right).
  - destruct (decide (u = t)) as [->|Hu].
    + rewrite lookup_delete_eq, decide_True; [done|left].
    + rewrite lookup_delete_ne by done. rewrite decide_False; [done|]. set_solver.
Qed.

Lemma zrem_lookup r targets t :
  rs_pending (zrem r targets) !! t = if decide (t ∈ targets) then None else rs_pending r !! t.
Proof.
  unfold zrem. cbn. generalize (rs_pending r). induction targets as [|u targets IH]; intros m; cbn.
  { by rewrite decide_False by apply not_elem_of_nil. }
  rewrite IH. destruct (decide (t ∈ targets)) as [|Hn].
  - by rewrite decide_True by (by right).
  - destruct (decide (u = t)) as [->|Hu].
    + rewrite lookup_delete_eq, decide_True; [done|left].
    + rewrite lookup_delete_ne by done. rewrite decide_False; [done|]. set_solver.
Qed.

(** An acknowledgement removes records of its targets only, and on success all
    of them. *)
Lemma ackTargets_spec r targets script r' script' ok :
  ackTargets r targets script = (r', script', ok) ->
  (forall t, t ∉ targets -> rs_snapshot r' !! t = rs_snapshot r !! t
                            /\ rs_pending r' !! t = rs_pending r !! t)
  /\ (forall t, t ∈ targets -> rs_snapshot r' !! t = rs_snapshot r !! t \/ rs_snapshot r' !! t = None)
  /\ (forall t, is_Some (rs_pending r' !! t) -> is_Some (rs_pending r !! t))
  /\ (forall t, rs_snapshot r' !! t = rs_snapshot r !! t -> is_Some (rs_snapshot r !! t) ->
        rs_pending r' !! t = rs_pending r !! t)
  /\ (ok = true -> forall t, t ∈ targets -> rs_snapshot r' !! t = None /\ rs_pending r' !! t = None).
Proof.
  unfold ackTargets. intros Ha.
  destruct targets as [|u us].
  { injection Ha as <- <- <-. split_and!; try done; try tauto.
    intros _ t Ht. by apply elem_of_nil in Ht. }
  set (targets := u :: us) in *. clearbody targets.
  destruct (nextAnswer script) as [[|n] s1].
  2: { injection Ha as <- <- <-. split_and!; try done; tauto. }
  assert (Hh : forall t, rs_snapshot (hdel r targets) !! t
                 = if decide (t ∈ targets) then None else rs_snapshot r !! t) by apply hdel_lookup.
  destruct (nextAnswer s1) as [[|n] s2]; injection Ha as <- <- <-.
  - assert (Hz : forall t, rs_pending (zrem (hdel r targets) targets) !! t
                   = if decide (t ∈ targets) then None else rs_pending r !! t)
      by (intros t; exact (zrem_lookup (hdel r targets) targets t)).
    cbn [zrem rs_snapshot] in *. split_and!.
    + intros t Ht. by rewrite Hh, Hz, !decide_False.
    + intros t Ht. right. by rewrite Hh, decide_True.
    + intros t. rewrite Hz. case_decide; [by intros [? ?]|done].
    + intros t. rewrite Hh, Hz. case_decide; [|done]. intros Hs [x Hx]. congruence.
    + intros _ t Ht. by rewrite Hh, Hz, !decide_True.
  - split_and!.
    + intros t Ht. by rewrite Hh, decide_False.
    + intros t Ht. right. by rewrite Hh, decide_True.
    + done.
    + done.
    + done.
Qed.

(** ** Lemmas: the store *)

Lemma bulkSave_lookup store ps k :
  NoDup (payloadKey <$> ps) ->
  (forall p, p ∈ ps -> payloadKey p = k -> bulkSave store ps !! k = applySave decode (store !! k) (saveOp p))
  /\ ((forall p, p ∈ ps -> payloadKey p <> k) -> bulkSave store ps !! k = store !! k).
Proof.
  intros Hnd.
  assert (Hb : bulkSave store ps
    = foldl (fun store item => partial_alter (fun d => applySave decode d item) (itemKey item) store)
        store (saveOp <$> ps)).
  { unfold bulkSave. generalize store. clear Hnd.
    induction ps as [|p ps IH]; intros s; [done|]. cbn. by rewrite IH. }
  assert (Hnd' : NoDup (itemKey <$> (saveOp <$> ps))).
  { rewrite <-list_fmap_compose. exact Hnd. }
  destruct (storeSaves_lookup decode (saveOp <$> ps) store k Hnd') as [Hin Hout].
  rewrite Hb. split.
  - intros p Hp Hk. apply Hin; [|done]. by apply list_elem_of_fmap_2.
  - intros Hno. apply Hout. intros item Hi. apply list_elem_of_fmap in Hi as (p & -> & Hp).
    by apply Hno.
Qed.

Lemma bulkRemove_lookup ps : forall store k,
  bulkRemove store ps !! k
  = if decide (k ∈ (payloadKey <$> ps)) then None else store !! k.
Proof.
  unfold bulkRemove. induction ps as [|p ps IH]; intros store k; cbn [foldl fmap list_fmap].
  { by rewrite decide_False by apply not_elem_of_nil. }
  rewrite IH. destruct (decide (k ∈ (payloadKey <$> ps))) as [|Hn].
  - by rewrite decide_True by (by right).
  - destruct (decide (payloadKey p = k)) as [->|Hk].
    + rewrite lookup_delete_eq, decide_True; [done|left].
    + rewrite lookup_delete_ne by done. rewrite decide_False; [done|]. set_solver.
Qed.

(** ** Lemmas: progress of a replay *)

(** From [r0] and [s0] replay has reached [r] and [s]: records only disappear,
    and a record is gone only if it was applied.  [unapplied] says whether the
    records still there are certainly not applied yet. *)
Record replay_progress (unapplied : bool) (r0 : redisShard) (s0 : docStore)
    (r : redisShard) (s : docStore) : Prop := {
  rp_snapshot t : rs_snapshot r !! t = rs_snapshot r0 !! t \/ rs_snapshot r !! t = None;
  rp_pending t : is_Some (rs_pending r !! t) -> is_Some (rs_pending r0 !! t);
  rp_record t p : pendingRecord r0 t p ->
    (pendingRecord r t p
     /\ (s !! payloadKey p = s0 !! payloadKey p
         \/ unapplied = false /\ s !! payloadKey p = applyRecord p (s0 !! payloadKey p)))
    \/ (rs_snapshot r !! t = None /\ s !! payloadKey p = applyRecord p (s0 !! payloadKey p));
  rp_other k : (forall t p, pendingRecord r0 t p -> payloadKey p <> k) -> s !! k = s0 !! k
}.

Lemma progress_refl b r s : replay_progress b r s r s.
Proof. split; try done; [by left|]. intros t p Hp. left. split; [done|by left]. Qed.

Lemma progress_weaken r0 s0 r s :
  replay_progress true r0 s0 r s -> replay_progress false r0 s0 r s.
Proof.
  intros [H1 H2 H3 H4]. split; [done|done| |done]. intros t p Hp.
  destruct (H3 t p Hp) as [[Hr [Hs|[? _]]]|Ha]; [|done|by right].
  left. split; [done|by left].
Qed.

Lemma progress_pendingRecord b r0 s0 r s t p :
  replay_progress b r0 s0 r s -> pendingRecord r t p -> pendingRecord r0 t p.
Proof.
  intros [H1 H2 _ _] [Hs Hp]. split; [|by apply H2]. destruct (H1 t); congruence.
Qed.

Lemma progress_ok b r0 s0 r s : replay_progress b r0 s0 r s -> shard_ok r0 -> shard_ok r.
Proof. intros [H1 _ _ _] Hok t p Hp. apply Hok. destruct (H1 t); congruence. Qed.

(** Two records for one document are the same record. *)
Lemma pendingRecord_unique r t p t' p' :
  shard_ok r -> pendingRecord r t p -> pendingRecord r t' p' -> payloadKey p = payloadKey p' ->
  t = t' /\ p = p'.
Proof.
  intros Hok [Hp _] [Hp' _] Hk.
  assert (t = t') as <-.
  { rewrite <-(Hok _ _ Hp), <-(Hok _ _ Hp'). unfold redisSnapshotWALPayloadTarget.
    by injection Hk as -> -> -> ->. }
  split; [done|]. congruence.
Qed.

Lemma progress_trans b r0 s0 r1 s1 r2 s2 :
  shard_ok r0 -> replay_progress true r0 s0 r1 s1 -> replay_progress b r1 s1 r2 s2 ->
  replay_progress b r0 s0 r2 s2.
Proof.
  intros Hok Hp1 Hp2. pose proof (progress_ok _ _ _ _ _ Hp1 Hok) as Hok1.
  pose proof Hp1 as [A1 A2 A3 A4]. destruct Hp2 as [B1 B2 B3 B4]. split.
  - intros t. destruct (B1 t) as [->|]; [apply A1|by right].
  - intros t Ht. by apply A2, B2.
  - intros t p Hp. destruct (A3 t p Hp) as [[Hr [Hs|[? _]]]|[Hn Hs]]; [|done|].
    + destruct (B3 t p Hr) as [[Hr2 Hs2]|[Hn2 Hs2]].
      * left. split; [done|]. by rewrite <-Hs.
      * right. split; [done|]. by rewrite <-Hs.
    + right. split; [destruct (B1 t); congruence|]. rewrite B4; [done|].
      intros t' p' Hp' Hk.
      assert (Hp0 : pendingRecord r0 t' p') by (by eapply progress_pendingRecord).
      destruct (pendingRecord_unique r0 t p t' p' Hok Hp Hp0) as [<- <-]; [done|].
      destruct Hp' as [Hsn _]. congruence.
  - intros k Hk. rewrite B4; [by apply A4|].
    intros t p Hp. eapply Hk. by eapply progress_pendingRecord.
Qed.

(** Applying some records and acknowledging them. *)
Lemma apply_ack r s s' qs script r' script' ok :
  shard_ok r -> NoDup qs ->
  (forall q, q ∈ qs -> pendingRecord r (redisSnapshotWALPayloadTarget q) q) ->
  (forall q, q ∈ qs -> s' !! payloadKey q = applyRecord q (s !! payloadKey q)) ->
  (forall k, k ∉ (payloadKey <$> qs) -> s' !! k = s !! k) ->
  ackTargets r (redisSnapshotWALPayloadTarget <$> qs) script = (r', script', ok) ->
  replay_progress ok r s r' s'
  /\ (ok = true -> forall q, q ∈ qs -> rs_pending r' !! redisSnapshotWALPayloadTarget q = None)
  /\ (forall t p, pendingRecord r t p -> p ∉ qs -> pendingRecord r' t p).
Proof.
  intros Hok Hnd Hrec Happ Hsame Hack.
  destruct (ackTargets_spec _ _ _ _ _ _ Hack) as (H1 & H2 & H3 & H4 & H5).
  assert (Hout : forall t p, pendingRecord r t p -> p ∉ qs ->
            (t ∉ (redisSnapshotWALPayloadTarget <$> qs)) /\ payloadKey p ∉ (payloadKey <$> qs)).
  { intros t p Hp Hn. split; intros Hin; apply list_elem_of_fmap in Hin as (q & He & Hq); apply Hn.
    - assert (p = q) as ->; [|done]. subst t. destruct (Hrec q Hq) as [Hs _], Hp as [Hs' _]. congruence.
    - by destruct (pendingRecord_unique r t p _ q Hok Hp (Hrec q Hq) He) as [_ ->]. }
  assert (Hkeep : forall t p, pendingRecord r t p -> p ∉ qs -> pendingRecord r' t p).
  { intros t p Hp Hn. destruct (Hout t p Hp Hn) as [Ht _]. destruct (H1 t Ht) as [E1 E2].
    unfold pendingRecord. by rewrite E1, E2. }
  split_and!; [split|by intros Ho q Hq; apply H5; [|apply list_elem_of_fmap_2]|done].
  - intros t. destruct (decide (t ∈ (redisSnapshotWALPayloadTarget <$> qs))) as [Hin|Hn].
    + by apply H2.
    + left. by apply H1.
  - done.
  - intros t p Hp. destruct (decide (p ∈ qs)) as [Hin|Hn].
    + assert (Ht : t = redisSnapshotWALPayloadTarget p).
      { destruct Hp as [Hs _]. by rewrite (Hok _ _ Hs). }
      assert (Htin : t ∈ (redisSnapshotWALPayloadTarget <$> qs))
        by (rewrite Ht; by apply list_elem_of_fmap_2).
      destruct ok.
      * right. split; [by apply H5|by apply Happ].
      * destruct (H2 t Htin) as [E|E]; [left|right; split; [done|by apply Happ]].
        split; [|right; split; [done|by apply Happ]].
        destruct Hp as [Hs Hpe]. split; [by rewrite E|]. rewrite H4; [done|done|by rewrite Hs].
    + left. split; [by apply Hkeep|]. left. apply Hsame. by apply (Hout t p).
  - intros k Hk. apply Hsame. intros Hin. apply list_elem_of_fmap in Hin as (q & -> & Hq).
    by apply (Hk _ q (Hrec q Hq)).
Qed.

(** ** Lemmas: groups and batches *)

Lemma deleteGroups_perm ps :
  concat (map_to_list (deleteGroups ps)).*2 ≡ₚ filter (fun p => isDelete p = true) ps.
Proof.
  unfold deleteGroups. generalize (filter (fun p => isDelete p = true) ps) as qs. intros qs.
  enough (forall m : gmap removeKey (list redisSnapshotWALPayload),
    concat (map_to_list (foldl (fun m p =>
      <[payloadRemoveKey p := default [] (m !! payloadRemoveKey p) ++ [p]]> m) m qs)).*2
    ≡ₚ concat (map_to_list m).*2 ++ qs) as Hm.
  { specialize (Hm ∅). by rewrite map_to_list_empty in Hm. }
  induction qs as [|q qs IH]; intros m; cbn [foldl]; [by rewrite app_nil_r|].
  rewrite IH. set (k := payloadRemoveKey q).
  assert (Hins : map_to_list (<[k := default [] (m !! k) ++ [q]]> m)
                 ≡ₚ (k, default [] (m !! k) ++ [q]) :: map_to_list (delete k m)).
  { rewrite <-insert_delete_eq. apply map_to_list_insert, lookup_delete_eq. }
  assert (Hold : concat (map_to_list m).*2 ≡ₚ default [] (m !! k) ++ concat (map_to_list (delete k m)).*2).
  { destruct (m !! k) as [l|] eqn:E.
    - by rewrite <-(map_to_list_delete m k l E).
    - by rewrite delete_id. }
  rewrite Hins. cbn. rewrite Hold, <-!app_assoc. cbn.
  apply Permutation_app_head, Permutation_middle.
Qed.

(** The records of [ps] are pending in [r] under their own targets. *)
Definition records_of (r : redisShard) (ps : list redisSnapshotWALPayload) : Prop :=
  NoDup ps /\ forall p, p ∈ ps -> pendingRecord r (redisSnapshotWALPayloadTarget p) p.

Lemma records_keys r ps : shard_ok r -> records_of r ps -> NoDup (payloadKey <$> ps).
Proof.
  intros Hok [Hnd Hrec]. apply NoDup_fmap_2_strong; [|done].
  intros p q Hp Hq Hk. by eapply (pendingRecord_unique r _ p _ q Hok); [apply Hrec|apply Hrec|].
Qed.

(** A failed [BulkSave] or [BulkRemove] leaves every record in place. *)
Lemma partial_progress r s s' ps :
  shard_ok r -> records_of r ps ->
  (forall p, p ∈ ps -> s' !! payloadKey p = s !! payloadKey p
                       \/ s' !! payloadKey p = applyRecord p (s !! payloadKey p)) ->
  (forall k, k ∉ (payloadKey <$> ps) -> s' !! k = s !! k) ->
  replay_progress false r s r s'.
Proof.
  intros Hok [Hnd Hrec] Happ Hsame. split; [by left|done| |].
  - intros t p Hp. left. split; [done|].
    destruct (decide (payloadKey p ∈ (payloadKey <$> ps))) as [Hin|Hn]; [|left; by apply Hsame].
    apply list_elem_of_fmap in Hin as (q & Hk & Hq).
    destruct (pendingRecord_unique r t p _ q Hok Hp (Hrec q Hq) Hk) as [_ ->].
    destruct (Happ q Hq); [by left|right; by split].
  - intros k Hk. apply Hsame. intros Hin. apply list_elem_of_fmap in Hin as (q & -> & Hq).
    by apply (Hk _ q (Hrec q Hq)).
Qed.

Lemma replayGroups_spec groups : forall r s script r' s' script' ok,
  shard_ok r -> records_of r (concat groups) ->
  (forall p, p ∈ concat groups -> isDelete p = true) ->
  replayGroups r s groups script = ((r', s', script'), ok) ->
  replay_progress ok r s r' s'
  /\ (ok = true -> forall p, p ∈ concat groups -> rs_pending r' !! redisSnapshotWALPayloadTarget p = None).
Proof.
  induction groups as [|g groups IH]; intros r s script r' s' script' ok Hok Hrec Hdel Hg; cbn in Hg.
  { injection Hg as <- <- <- <-. split; [apply progress_refl|].
    intros _ p Hp. by apply elem_of_nil in Hp. }
  cbn [concat] in Hrec, Hdel. destruct Hrec as [Hnd Hrec]. pose proof Hnd as Hnd0.
  apply NoDup_app in Hnd as (Hndg & Hdis & Hndr).
  assert (Hrg : records_of r g) by (split; [done|]; intros p Hp; apply Hrec, elem_of_app; by left).
  assert (Hdelg : forall p, p ∈ g -> isDelete p = true) by (intros p Hp; apply Hdel, elem_of_app; by left).
  destruct (nextAnswer script) as [[|n] s1].
  2: { injection Hg as <- <- <- <-. split; [|done]. apply (partial_progress r s _ g Hok Hrg).
       - intros p Hp. rewrite bulkRemove_lookup. case_decide; [|by left]. right.
         unfold applyRecord. by rewrite (Hdelg p Hp).
       - intros k Hk. rewrite bulkRemove_lookup, decide_False; [done|].
         intros Hin. apply Hk. apply list_elem_of_fmap in Hin as (q & -> & Hq).
         apply list_elem_of_fmap_2. eapply elem_of_sublist; [done|apply select_sublist]. }
  destruct (ackTargets r (redisSnapshotWALPayloadTarget <$> g) s1) as [[r1 s2] ok1] eqn:Hack.
  destruct (apply_ack r s (bulkRemove s g) g s1 r1 s2 ok1 Hok Hndg (proj2 Hrg)) as (Hpr & Hgone & Hkeep).
  { intros q Hq. rewrite bulkRemove_lookup, decide_True by (by apply list_elem_of_fmap_2).
    unfold applyRecord. by rewrite (Hdelg q Hq). }
  { intros k Hk. by rewrite bulkRemove_lookup, decide_False. }
  { done. }
  destruct ok1; last first.
  { injection Hg as <- <- <- <-. by split. }
  assert (Hok1 : shard_ok r1) by (by eapply progress_ok).
  destruct (IH r1 (bulkRemove s g) s2 r' s' script' ok Hok1) as [Hpr2 Hgone2].
  { split; [done|]. intros p Hp. apply Hkeep.
    - apply Hrec, elem_of_app. by right.
    - intros Hpg. by apply (Hdis p Hpg). }
  { intros p Hp. apply Hdel, elem_of_app. by right. }
  { done. }
  split; [by eapply progress_trans|].
  intros Ho p [Hp|Hp]%elem_of_app; [|by apply Hgone2].
  destruct (rs_pending r' !! redisSnapshotWALPayloadTarget p) eqn:E; [|done].
  destruct (rp_pending _ _ _ _ _ Hpr2 (redisSnapshotWALPayloadTarget p)) as [x Hx]; [by eexists|].
  by rewrite Hgone in Hx.
Qed.

Lemma replayPayloadBatch_spec r s ps script r' s' script' ok :
  shard_ok r -> records_of r ps ->
  replayPayloadBatch r s ps script = ((r', s', script'), ok) ->
  replay_progress ok r s r' s'
  /\ (ok = true -> forall p, p ∈ ps -> rs_pending r' !! redisSnapshotWALPayloadTarget p = None).
Proof.
  intros Hok [Hnd Hrec] Hb. unfold replayPayloadBatch in Hb.
  set (groups := (map_to_list (deleteGroups ps)).*2) in *.
  pose proof (deleteGroups_perm ps) as Hperm. fold groups in Hperm. clearbody groups.
  set (saves := filter (fun p => isDelete p = false) ps) in *.
  assert (Hsaves : forall p, p ∈ saves <-> isDelete p = false /\ p ∈ ps)
    by (intros p; unfold saves; by rewrite list_elem_of_filter).
  assert (Hdels : forall p, p ∈ concat groups <-> isDelete p = true /\ p ∈ ps)
    by (intros p; by rewrite Hperm, list_elem_of_filter).
  assert (Hnds : NoDup saves) by (by apply NoDup_filter).
  assert (Hndd : NoDup (concat groups)) by (rewrite Hperm; by apply NoDup_filter).
  (* the groups, from any shard in which their records are left *)
  assert (Hgroups : forall r1 s1 script1, shard_ok r1 ->
            (forall p, p ∈ concat groups -> pendingRecord r1 (redisSnapshotWALPayloadTarget p) p) ->
            replayGroups r1 s1 groups script1 = ((r', s', script'), ok) ->
            replay_progress ok r1 s1 r' s'
            /\ (ok = true -> forall p, p ∈ concat groups ->
                  rs_pending r' !! redisSnapshotWALPayloadTarget p = None)).
  { intros r1 s1 script1 Hok1 Hr1 Hg. eapply replayGroups_spec; [done|by split| |exact Hg].
    intros p Hp. by apply Hdels in Hp as [? _]. }
  assert (Hrs : records_of r saves)
    by (split; [done|]; intros p Hp; apply Hrec; by apply Hsaves in Hp as [_ ?]).
  clearbody saves. destruct saves as [|x xs] eqn:Hsv.
  { destruct (Hgroups r s script Hok) as [Hpr Hgone]; [|done|].
    { intros p Hp. apply Hrec. by apply Hdels in Hp as [_ ?]. }
    split; [done|]. intros Ho p Hp. apply Hgone; [done|]. apply Hdels. split; [|done].
    destruct (isDelete p) eqn:E; [done|]. exfalso. apply (not_elem_of_nil p), Hsaves. done. }
  rewrite <-Hsv in *. clear Hsv x xs.
  pose proof (records_keys r saves Hok Hrs) as Hkeys.
  assert (Happ : forall sub p, sublist sub saves -> p ∈ sub ->
            bulkSave s sub !! payloadKey p = applyRecord p (s !! payloadKey p)).
  { intros sub p Hsub Hp. unfold applyRecord.
    assert (Hps : p ∈ saves) by (by eapply elem_of_sublist).
    apply Hsaves in Hps as [-> _]. apply bulkSave_lookup; [|done|done].
    eapply sublist_NoDup; [exact Hkeys|by apply fmap_sublist]. }
  assert (Hsame : forall sub k, sublist sub saves -> k ∉ (payloadKey <$> sub) ->
            bulkSave s sub !! k = s !! k).
  { intros sub k Hsub Hk. apply bulkSave_lookup.
    - eapply sublist_NoDup; [exact Hkeys|by apply fmap_sublist].
    - intros p Hp Hpk. apply Hk. rewrite <-Hpk. by apply list_elem_of_fmap_2. }
  destruct (nextAnswer script) as [[|n] s1].
  2: { injection Hb as <- <- <- <-. split; [|done].
       assert (Hsub : sublist (select n saves) saves) by apply select_sublist.
       apply (partial_progress r s _ saves Hok Hrs).
       - intros p Hp. destruct (decide (payloadKey p ∈ (payloadKey <$> select n saves))) as [Hin|Hn].
         + right. apply list_elem_of_fmap in Hin as (q & Hk & Hq).
           rewrite Hk, (Happ _ q Hsub Hq).
           assert (q ∈ saves) by (by eapply elem_of_sublist).
           by destruct (pendingRecord_unique r _ p _ q Hok (proj2 Hrs p Hp) (proj2 Hrs q H)) as [_ ->].
         + left. by apply Hsame.
       - intros k Hk. apply Hsame; [done|]. intros Hin. apply Hk.
         eapply elem_of_sublist; [exact Hin|by apply fmap_sublist]. }
  destruct (ackTargets r (redisSnapshotWALPayloadTarget <$> saves) s1) as [[r1 s2] ok1] eqn:Hack.
  destruct (apply_ack r s (bulkSave s saves) saves s1 r1 s2 ok1 Hok Hnds (proj2 Hrs))
    as (Hpr & Hgone & Hkeep); [by intros q Hq; apply Happ|by intros k Hk; apply Hsame|done|].
  destruct ok1; last first.
  { injection Hb as <- <- <- <-. by split. }
  assert (Hok1 : shard_ok r1) by (by eapply progress_ok).
  destruct (Hgroups r1 (bulkSave s saves) s2 Hok1) as [Hpr2 Hgone2]; [|done|].
  { intros p Hp. apply Hdels in Hp as [Hd Hp]. apply Hkeep; [by apply Hrec|].
    intros Hps. apply Hsaves in Hps as [Hd' _]. congruence. }
  split; [by eapply progress_trans|]. intros Ho p Hp. destruct (isDelete p) eqn:Hd.
  - apply Hgone2; [done|]. by apply Hdels.
  - destruct (rs_pending r' !! redisSnapshotWALPayloadTarget p) eqn:E; [|done].
    destruct (rp_pending _ _ _ _ _ Hpr2 (redisSnapshotWALPayloadTarget p)) as [x Hx]; [by eexists|].
    rewrite Hgone in Hx; [done|done|by apply Hsaves].
Qed.

(** ** Lemmas: the loop of a shard *)

Lemma lowestPending_spec r n :
  NoDup (lowestPending r n) /\ (forall t, t ∈ lowestPending r n -> is_Some (rs_pending r !! t))
  /\ (1 <= n -> lowestPending r n = [] -> rs_pending r = ∅).
Proof.
  unfold lowestPending. set (l := sort_slice score_less (map_to_list (rs_pending r))).
  assert (Hp : l ≡ₚ map_to_list (rs_pending r)) by apply sort_slice_perm. split_and!.
  - eapply sublist_NoDup; [|apply fmap_sublist, sublist_take]. rewrite Hp. apply NoDup_fst_map_to_list.
  - intros t Ht. apply list_elem_of_fmap in Ht as ([k z] & -> & Hin).
    eapply elem_of_sublist in Hin; [|apply sublist_take]. rewrite Hp in Hin.
    apply elem_of_map_to_list in Hin. by eexists.
  - intros Hn He. apply map_to_list_empty_iff.
    destruct (map_to_list (rs_pending r)) as [|x xs]; [done|exfalso].
    destruct l as [|y l]; [by apply Permutation_nil_cons in Hp|].
    destruct (Z.to_nat n) eqn:E; [lia|done].
Qed.

Lemma loadReplayPayloads_spec r targets : forall ps stale,
  shard_ok r -> NoDup targets -> (forall t, t ∈ targets -> is_Some (rs_pending r !! t)) ->
  loadReplayPayloads r targets = Some (ps, stale) ->
  records_of r ps
  /\ (forall p, p ∈ ps -> redisSnapshotWALPayloadTarget p ∈ targets)
  /\ (forall t, t ∈ stale -> rs_snapshot r !! t = None)
  /\ (forall t, t ∈ targets -> t ∈ stale \/ exists p, p ∈ ps /\ redisSnapshotWALPayloadTarget p = t).
Proof.
  induction targets as [|t targets IH]; intros ps stale Hok Hnd Hpe Hl; cbn in Hl.
  { injection Hl as <- <-. split_and!; [split; [by constructor|]|..];
      intros ? Hx; by apply elem_of_nil in Hx. }
  apply NoDup_cons in Hnd as [Ht Hnd].
  assert (Hpe' : forall t', t' ∈ targets -> is_Some (rs_pending r !! t')) by (intros; apply Hpe; by right).
  destruct (rs_snapshot r !! t) as [[p|]|] eqn:Hs; [|done|].
  - destruct (validPayload p); [|done]. apply bind_Some in Hl as ([ps0 st0] & Hl & [= <- <-]).
    destruct (IH ps0 st0 Hok Hnd Hpe' Hl) as ([Hndp Hrec] & Htg & Hst & Hcov).
    pose proof (Hok _ _ Hs) as Hpt.
    split_and!; [split; [constructor; [|done]|]|..].
    + intros Hin. apply Ht. rewrite <-Hpt. by apply Htg.
    + intros q [->|Hq]%elem_of_cons; [|by apply Hrec]. rewrite Hpt. split; [done|]. apply Hpe. left.
    + intros q [->|Hq]%elem_of_cons; [rewrite Hpt; left|right; by apply Htg].
    + done.
    + intros t' [->|Hin]%elem_of_cons; [right; exists p; split; [left|done]|].
      destruct (Hcov t' Hin) as [|(q & Hq & He)]; [by left|right]. exists q. split; [by right|done].
  - apply bind_Some in Hl as ([ps0 st0] & Hl & [= <- <-]).
    destruct (IH ps0 st0 Hok Hnd Hpe' Hl) as (Hrec & Htg & Hst & Hcov).
    split_and!; [done|..].
    + intros q Hq. right. by apply Htg.
    + intros t' [->|Hin]%elem_of_cons; [done|by apply Hst].
    + intros t' [->|Hin]%elem_of_cons; [left; left|].
      destruct (Hcov t' Hin) as [|Hq]; [left; by right|by right].
Qed.

(** Removing entries without a record changes no record. *)
Lemma stale_ack r s stale script r' script' ok :
  (forall t, t ∈ stale -> rs_snapshot r !! t = None) ->
  ackTargets r stale script = (r', script', ok) ->
  replay_progress true r s r' s
  /\ (forall t p, pendingRecord r t p -> pendingRecord r' t p)
  /\ (ok = true -> forall t, t ∈ stale -> rs_pending r' !! t = None).
Proof.
  intros Hst Hack. destruct (ackTargets_spec _ _ _ _ _ _ Hack) as (H1 & H2 & H3 & H4 & H5).
  assert (Hkeep : forall t p, pendingRecord r t p -> pendingRecord r' t p).
  { intros t p [Hs Hp]. assert (Hn : t ∉ stale) by (intros Hin; rewrite Hst in Hs; done).
    destruct (H1 t Hn) as [E1 E2]. unfold pendingRecord. by rewrite E1, E2. }
  split_and!; [split|done|intros Ho t Ht; by apply H5].
  - intros t. destruct (decide (t ∈ stale)); [by apply H2|left; by apply H1].
  - done.
  - intros t p Hp. left. split; [by apply Hkeep|by left].
  - done.
Qed.

Lemma pending_shrinks b r s r' s' t :
  replay_progress b r s r' s' -> is_Some (rs_pending r !! t) -> rs_pending r' !! t = None ->
  (size (rs_pending r') < size (rs_pending r))%nat.
Proof.
  intros Hpr Ht Hn. rewrite <-!size_dom. apply subset_size. split.
  - intros k. rewrite !elem_of_dom. apply (rp_pending _ _ _ _ _ Hpr).
  - intros Hsub. assert (Hin : t ∈ dom (rs_pending r)) by (by apply elem_of_dom).
    apply Hsub, elem_of_dom in Hin as [x Hx]. congruence.
Qed.

Lemma replayShard_spec fuel batch : forall r s script,
  1 <= batch -> shard_ok r -> (size (rs_pending r) < fuel)%nat ->
  exists r' s' script' ok, replayShard fuel batch r s script = Some ((r', s', script'), ok)
    /\ replay_progress ok r s r' s' /\ (ok = true -> rs_pending r' = ∅).
Proof.
  induction fuel as [|fuel IH]; intros r s script Hbatch Hok Hfuel; [lia|]. cbn [replayShard].
  destruct (nextAnswer script) as [[|n] s1].
  2: { exists r, s, s1, false. split_and!; [done|apply progress_refl|done]. }
  destruct (lowestPending_spec r batch) as (Hnd & Hpe & Hempty).
  destruct (lowestPending r batch) as [|t0 ts] eqn:Hlow.
  { exists r, s, s1, true. split_and!; [done|apply progress_refl|]. intros _. by apply Hempty. }
  destruct (nextAnswer s1) as [[|n] s2].
  2: { exists r, s, s2, false. split_and!; [done|apply progress_refl|done]. }
  destruct (loadReplayPayloads r (t0 :: ts)) as [[ps stale]|] eqn:Hl.
  2: { exists r, s, s2, false. split_and!; [done|apply progress_refl|done]. }
  destruct (loadReplayPayloads_spec r (t0 :: ts) ps stale Hok Hnd Hpe Hl) as ([Hndp Hrec] & _ & Hst & Hcov).
  destruct (ackTargets r stale s2) as [[r1 s3] ok1] eqn:Hack.
  destruct (stale_ack r s stale s2 r1 s3 ok1 Hst Hack) as (Hpr1 & Hkeep1 & Hgone1).
  destruct ok1.
  2: { exists r1, s, s3, false. split_and!; [done|by apply progress_weaken|done]. }
  assert (Hok1 : shard_ok r1) by (by eapply progress_ok).
  assert (Ht0 : is_Some (rs_pending r !! t0)) by (apply Hpe; left).
  (* from a shard in which [t0] is done, the rest of the loop *)
  assert (Hrest : forall r2 s2' sc, replay_progress true r s r2 s2' -> rs_pending r2 !! t0 = None ->
    exists r' s' script' ok, replayShard fuel batch r2 s2' sc = Some ((r', s', script'), ok)
      /\ replay_progress ok r s r' s' /\ (ok = true -> rs_pending r' = ∅)).
  { intros r2 s2' sc Hpr Hn. pose proof (pending_shrinks _ _ _ _ _ _ Hpr Ht0 Hn).
    destruct (IH r2 s2' sc Hbatch) as (r' & s' & sc' & ok & He & Hp & Hd);
      [by eapply progress_ok|lia|].
    exists r', s', sc', ok. split_and!; [done|by eapply progress_trans|done]. }
  destruct ps as [|p0 ps0] eqn:Hps.
  { apply Hrest; [done|]. apply Hgone1; [done|].
    destruct (Hcov t0) as [|(p & Hp & _)]; [left|done|by apply elem_of_nil in Hp]. }
  rewrite <-Hps in *. clear Hps p0 ps0.
  destruct (replayPayloadBatch r1 s ps s3) as [[[r2 s4] s5] ok2] eqn:Hb.
  destruct (replayPayloadBatch_spec r1 s ps s3 r2 s4 s5 ok2 Hok1) as [Hpr2 Hgone2].
  { split; [done|]. intros p Hp. by apply Hkeep1, Hrec. }
  { done. }
  destruct ok2.
  - apply Hrest; [by eapply progress_trans|].
    destruct (Hcov t0) as [Hin|(p & Hp & <-)]; [left| |by apply Hgone2].
    destruct (rs_pending r2 !! t0) eqn:E; [|done].
    destruct (rp_pending _ _ _ _ _ Hpr2 t0) as [x Hx]; [by eexists|].
    by rewrite Hgone1 in Hx.
  - exists r2, s4, s5, false. split_and!; [done|by eapply progress_trans|done].
Qed.

(** Replaying a shard always ends, with one round per pending entry and one more
    at most.  On success nothing is pending, every record has been applied to
    the store exactly once and no other document has changed.  On an error every
    record is still there, or it has been applied. *)
Theorem replayShard_exact (batch : Z) (r : redisShard) (store : docStore) (script : list answer) :
  1 <= batch -> shard_ok r ->
  exists r' store' script' ok,
    replayShard (S (size (rs_pending r))) batch r store script = Some ((r', store', script'), ok)
    /\ (forall t p, pendingRecord r t p ->
          if ok then store' !! payloadKey p = applyRecord p (store !! payloadKey p)
          else pendingRecord r' t p
               \/ store' !! payloadKey p = applyRecord p (store !! payloadKey p))
    /\ (forall k, (forall t p, pendingRecord r t p -> payloadKey p <> k) -> store' !! k = store !! k)
    /\ (ok = true -> rs_pending r' = ∅).
Proof.
  intros Hb Hok.
  destruct (replayShard_spec (S (size (rs_pending r))) batch r store script Hb Hok)
    as (r' & s' & sc & ok & He & [_ _ Hrec Hother] & Hdone); [lia|].
  exists r', s', sc, ok. split_and!; [done| |done|done].
  intros t p Hp. destruct (Hrec t p Hp) as [[Hpr Hs]|[_ Hs]]; [|destruct ok; [done|by right]].
  destruct ok; [|by left]. exfalso. destruct Hpr as [_ [x Hx]].
  rewrite Hdone in Hx by done. by rewrite lookup_empty in Hx.
Qed.

(** ** The whole log *)

Abbreviation redisState := (gmap Z redisShard).

Definition shardOf (redis : redisState) (i : Z) : redisShard := default emptyShard (redis !! i).

(** [SubmitDurable] with [writeTask] and [SubmitDeleteDurable] with
    [deleteTask]: the first write that fails ends the submission. *)
Fixpoint submitDurable (task : SaveItem -> Z -> option redisSnapshotWALPayload) (ttl shards : Z)
    (redis : redisState) (items : list SaveItem) (now : Z) (script : list answer)
    : redisState * list answer * bool :=
  match items with
  | [] => (redis, script, true)
  | item :: items =>
      match task item now with
      | None => submitDurable task ttl shards redis items now script
      | Some p =>
          let i := redisSnapshotWALShard (redisSnapshotWALPayloadTarget p) shards in
          match writeSnapshot ttl (shardOf redis i) p script with
          | (r, script, true) => submitDurable task ttl shards (<[i := r]> redis) items now script
          | (r, script, false) => (<[i := r]> redis, script, false)
          end
      end
  end.

Definition SubmitDurable := submitDurable writeTask.
Definition SubmitDeleteDurable := submitDurable deleteTask.

(** [ackTasks]: targets grouped by shard. *)
Definition groupTargets (shards : Z) (targets : list string) : gmap Z (gset string) :=
  foldl (fun m t => let i := redisSnapshotWALShard t shards in
                    <[i := default ∅ (m !! i) ∪ {[ t ]}]> m) ∅ targets.

Fixpoint ackGroups (redis : redisState) (groups : list (Z * gset string)) (script : list answer)
    : redisState * list answer * bool :=
  match groups with
  | [] => (redis, script, true)
  | (i, targets) :: groups =>
      match ackTargets (shardOf redis i) (elements targets) script with
      | (r, script, true) => ackGroups (<[i := r]> redis) groups script
      | (r, script, false) => (<[i := r]> redis, script, false)
      end
  end.

(** [Ack] of a log whose workers do not run. *)
Definition Ack (shards : Z) (redis : redisState) (items : list SaveItem) (script : list answer)
    : redisState * list answer * bool :=
  ackGroups redis (map_to_list (groupTargets shards (omap ackTask items))) script.

(** [Replay]: every shard in turn. *)
Fixpoint replayShards (batch : Z) (redis : redisState) (store : docStore) (script : list answer)
    (idxs : list Z) : redisState * docStore * list answer * bool :=
  match idxs with
  | [] => (redis, store, script, true)
  | i :: idxs =>
      let r := shardOf redis i in
      match replayShard (S (size (rs_pending r))) batch r store script with
      | Some ((r, store, script), true) => replayShards batch (<[i := r]> redis) store script idxs
      | Some ((r, store, script), false) => (<[i := r]> redis, store, script, false)
      | None => (redis, store, script, false)
      end
  end.

Definition Replay (shards batch : Z) (redis : redisState) (store : docStore) (script : list answer)
    : redisState * docStore * list answer * bool :=
  replayShards batch redis store script (Z.of_nat <$> seq 0 (Z.to_nat shards)).

(** Records are in the shard and under the target of their document. *)
Definition log_ok (shards : Z) (redis : redisState) : Prop :=
  forall i t p, rs_snapshot (shardOf redis i) !! t = Some (Some p) ->
  redisSnapshotWALPayloadTarget p = t /\ redisSnapshotWALShard t shards = i.

(** Nothing has happened to a target. *)
Definition same_target (r r' : redisShard) (t : string) : Prop :=
  rs_snapshot r' !! t = rs_snapshot r !! t /\ rs_pending r' !! t = rs_pending r !! t.

(** ** Lemmas: the log *)

Lemma same_target_trans r r' r'' t : same_target r r' t -> same_target r' r'' t -> same_target r r'' t.
Proof. unfold same_target. intros [-> ->] [-> ->]. done. Qed.

Lemma same_target_pending r r' t p : same_target r r' t -> pendingRecord r t p -> pendingRecord r' t p.
Proof. unfold same_target, pendingRecord. by intros [-> ->]. Qed.

Lemma shardOf_insert redis i r j :
  shardOf (<[i := r]> redis) j = if decide (j = i) then r else shardOf redis j.
Proof.
  unfold shardOf. case_decide as Hj; [subst; by rewrite lookup_insert_eq|].
  by rewrite lookup_insert_ne.
Qed.

(** A write leaves other targets alone and, on success, its record. *)
Lemma writeSnapshot_spec ttl r p script r' script' ok :
  writeSnapshot ttl r p script = (r', script', ok) ->
  (forall t q, rs_snapshot r' !! t = Some (Some q) ->
     rs_snapshot r !! t = Some (Some q) \/ t = redisSnapshotWALPayloadTarget p /\ q = p)
  /\ (forall t, t <> redisSnapshotWALPayloadTarget p -> same_target r r' t)
  /\ (ok = true -> pendingRecord r' (redisSnapshotWALPayloadTarget p) p).
Proof.
  unfold writeSnapshot, pendingRecord, same_target. intros Hw.
  destruct (nextAnswer script) as [[|n] s1].
  2: { injection Hw as <- <- <-. split_and!; [by left|done|done]. }
  destruct (nextAnswer s1) as [[|n] s2].
  - destruct (if 0 <? ttl then _ else _) as [s3 ok3]. injection Hw as <- <- <-. cbn. split_and!.
    + intros t q. rewrite lookup_insert_Some. intros [[<- [= <-]]|[_ ?]]; [by right|by left].
    + intros t Ht. by rewrite !lookup_insert_ne.
    + intros _. rewrite !lookup_insert_eq. by split; [|eexists].
  - injection Hw as <- <- <-. cbn. split_and!; [|intros t Ht; by rewrite lookup_insert_ne|done].
    intros t q. rewrite lookup_insert_Some. intros [[<- [= <-]]|[_ ?]]; [by right|by left].
Qed.

Lemma submitDurable_spec task ttl shards now items : forall redis script redis' script' ok,
  submitDurable task ttl shards redis items now script = (redis', script', ok) ->
  (log_ok shards redis -> log_ok shards redis')
  /\ (forall i t,
        (forall item p, item ∈ items -> task item now = Some p -> redisSnapshotWALPayloadTarget p <> t) ->
        same_target (shardOf redis i) (shardOf redis' i) t)
  /\ (ok = true -> forall before item after p, items = before ++ item :: after ->
        task item now = Some p ->
        (forall later q, later ∈ after -> task later now = Some q ->
           redisSnapshotWALPayloadTarget q <> redisSnapshotWALPayloadTarget p) ->
        pendingRecord (shardOf redis' (redisSnapshotWALShard (redisSnapshotWALPayloadTarget p) shards))
          (redisSnapshotWALPayloadTarget p) p).
Proof.
  induction items as [|item items IH]; intros redis script redis' script' ok Hs; cbn in Hs.
  { injection Hs as <- <- <-. split_and!; [done|done|]. intros _ before item after p He. by destruct before. }
  destruct (task item now) as [p|] eqn:Hp; last first.
  { destruct (IH _ _ _ _ _ Hs) as (H1 & H2 & H3). split_and!; [done| |].
    - intros i t Hno. apply H2. intros x y Hx. apply Hno. by right.
    - intros Ho [|b before] x after q He Hq Hlater; cbn in He; injection He as -> ->; [congruence|].
      by eapply (H3 Ho before). }
  set (i0 := redisSnapshotWALShard (redisSnapshotWALPayloadTarget p) shards) in *.
  destruct (writeSnapshot ttl (shardOf redis i0) p script) as [[r s1] okw] eqn:Hw.
  destruct (writeSnapshot_spec _ _ _ _ _ _ _ Hw) as (W1 & W2 & W3).
  assert (Hlog : log_ok shards redis -> log_ok shards (<[i0 := r]> redis)).
  { intros Hok i t q. rewrite shardOf_insert. case_decide as Hi; [|by apply Hok]. subst i.
    intros Hq. destruct (W1 t q Hq) as [Hold|[-> ->]]; [by apply Hok|done]. }
  assert (Hsame : forall i t, redisSnapshotWALPayloadTarget p <> t ->
            same_target (shardOf redis i) (shardOf (<[i0 := r]> redis) i) t).
  { intros i t Ht. rewrite shardOf_insert. case_decide as Hi; [|done]. subst i. by apply W2. }
  destruct okw.
  2: { injection Hs as <- <- <-. split_and!; [done| |done]. intros i t Hno. apply Hsame.
       apply (Hno item p); [left|done]. }
  destruct (IH _ _ _ _ _ Hs) as (H1 & H2 & H3). split_and!; [by auto| |].
  - intros i t Hno. eapply same_target_trans; [apply Hsame, (Hno item p); [left|done]|].
    apply H2. intros x y Hx. apply Hno. by right.
  - intros Ho [|b before] x after q He Hq Hlater; cbn in He; injection He as -> ->.
    + rewrite Hp in Hq. injection Hq as <-. fold i0. eapply same_target_pending; [by apply H2|].
      rewrite shardOf_insert, decide_True by done. by apply W3.
    + by eapply (H3 Ho before).
Qed.

Lemma replayShards_spec batch shards idxs : forall redis store script redis' store' script',
  1 <= batch -> log_ok shards redis ->
  replayShards batch redis store script idxs = (redis', store', script', true) ->
  forall k, (forall i t p, i ∈ idxs -> pendingRecord (shardOf redis i) t p -> payloadKey p <> k) ->
  store' !! k = store !! k.
Proof.
  induction idxs as [|i idxs IH]; intros redis store script redis' store' script' Hb Hok Hr k Hk.
  { by injection Hr as <- <- <-. }
  cbn [replayShards] in Hr.
  assert (Hsh : shard_ok (shardOf redis i)) by (intros t p Hp; by apply (Hok i)).
  destruct (replayShard_spec (S (size (rs_pending (shardOf redis i)))) batch (shardOf redis i) store script
              Hb Hsh) as (r & s & sc & ok & He & Hpr & Hdone); [lia|].
  rewrite He in Hr. destruct ok; [|done].
  assert (Hok' : log_ok shards (<[i := r]> redis)).
  { intros j t p. rewrite shardOf_insert. case_decide as Hj; [|by apply Hok]. subst j. intros Hp.
    destruct (rp_snapshot _ _ _ _ _ Hpr t) as [E|E]; [|congruence]. apply (Hok i). congruence. }
  rewrite (IH _ _ _ _ _ _ Hb Hok' Hr).
  - apply (rp_other _ _ _ _ _ Hpr). intros t p Hp. apply (Hk i t); [left|done].
  - intros j t p Hj. rewrite shardOf_insert. case_decide as Hji.
    + subst j. intros Hp. apply (Hk i t p); [left|]. by eapply progress_pendingRecord.
    + intros Hp. apply (Hk j t p); [by right|done].
Qed.

Lemma replayShards_applies batch shards idxs : forall redis store script redis' store' script' i t p,
  1 <= batch -> log_ok shards redis -> NoDup idxs -> i ∈ idxs -> pendingRecord (shardOf redis i) t p ->
  replayShards batch redis store script idxs = (redis', store', script', true) ->
  store' !! payloadKey p = applyRecord p (store !! payloadKey p).
Proof.
  induction idxs as [|j idxs IH]; intros redis store script redis' store' script' i t p Hb Hok Hnd Hi Hp Hr.
  { by apply elem_of_nil in Hi. }
  apply NoDup_cons in Hnd as [Hj Hnd]. cbn [replayShards] in Hr.
  assert (Hsh : forall i', shard_ok (shardOf redis i')) by (intros i' t' p' Hp'; by apply (Hok i')).
  destruct (replayShard_spec (S (size (rs_pending (shardOf redis j)))) batch (shardOf redis j) store script
              Hb (Hsh j)) as (r & s & sc & ok & He & Hpr & Hdone); [lia|].
  rewrite He in Hr. destruct ok; [|done].
  assert (Hok' : log_ok shards (<[j := r]> redis)).
  { intros j' t' p'. rewrite shardOf_insert. case_decide as Hj'; [|by apply Hok]. subst j'. intros Hp'.
    destruct (rp_snapshot _ _ _ _ _ Hpr t') as [E|E]; [|congruence]. apply (Hok j). congruence. }
  (* a record for the same document is in the same shard *)
  assert (Hsame : forall i' t' p', pendingRecord (shardOf redis i') t' p' ->
            payloadKey p' = payloadKey p -> i' = i).
  { intros i' t' p' [Hp' _] Hk. destruct (Hok _ _ _ Hp') as [<- <-].
    destruct Hp as [Hp _]. destruct (Hok _ _ _ Hp) as [<- <-].
    unfold redisSnapshotWALPayloadTarget. by injection Hk as -> -> -> ->. }
  destruct (decide (j = i)) as [->|Hji].
  - rewrite (replayShards_spec batch shards idxs _ _ _ _ _ _ Hb Hok' Hr).
    + destruct (rp_record _ _ _ _ _ Hpr t p Hp) as [[[_ [x Hx]] _]|[_ Hs]]; [|done].
      rewrite Hdone in Hx by done. by rewrite lookup_empty in Hx.
    + intros i' t' p' Hi' Hp' Hk. rewrite shardOf_insert, decide_False in Hp' by (by intros ->).
      specialize (Hsame i' t' p' Hp' Hk). congruence.
  - assert (Hi' : i ∈ idxs) by (apply elem_of_cons in Hi as [->|]; done).
    rewrite (IH (<[j := r]> redis) s sc redis' store' script' i t p Hb Hok' Hnd Hi').
    + rewrite (rp_other _ _ _ _ _ Hpr); [done|]. intros t' p' Hp' Hk.
      specialize (Hsame j t' p' Hp' Hk). congruence.
    + by rewrite shardOf_insert, decide_False by done.
    + done.
Qed.

Lemma redisSnapshotWALShard_range target shards :
  1 <= shards < 2 ^ 32 -> 0 <= redisSnapshotWALShard target shards < shards.
Proof.
  intros Hs. unfold redisSnapshotWALShard. destruct (Z.leb_spec shards 1); [lia|].
  rewrite wrapu_small by (unfold in_u; lia). apply Z.mod_pos_bound. lia.
Qed.

Lemma writeTask_key item now p :
  writeTask item now = Some p ->
  payloadKey p = itemKey item /\ redisSnapshotWALPayloadTarget p = itemTarget item
  /\ pl_Version p = sv_Version item /\ isDelete p = false.
Proof.
  unfold writeTask. destruct (_ || is_remove item); [done|].
  destruct (len _ =? 0); [done|]. by intros [= <-].
Qed.

Lemma deleteTask_target item now p :
  deleteTask item now = Some p -> redisSnapshotWALPayloadTarget p = itemTarget item.
Proof. unfold deleteTask. destruct (_ || _); [done|]. by intros [= <-]. Qed.

Lemma log_ok_empty shards : log_ok shards ∅.
Proof. intros i t p. unfold shardOf. rewrite lookup_empty. cbn. by rewrite lookup_empty. Qed.

(** ** Histories of the log *)

(** The calls of a log and the expiry of one of the two keys of a shard. *)
Inductive walCall :=
  | CallSubmit (items : list SaveItem) (now : Z)
  | CallSubmitDelete (items : list SaveItem) (now : Z)
  | CallAck (items : list SaveItem)
  | CallReplay
  | CallExpire (i : Z) (records : bool).

Definition expireKey (r : redisShard) (records : bool) : redisShard :=
  if records then mkShard ∅ (rs_pending r) else mkShard (rs_snapshot r) ∅.

Section Histories.
Context (ttl shards batch : Z).

Definition walCallStep (redis : redisState) (store : docStore) (script : list answer) (c : walCall)
    : redisState * docStore * list answer :=
  match c with
  | CallSubmit items now =>
      let '(redis, script, _) := SubmitDurable ttl shards redis items now script in (redis, store, script)
  | CallSubmitDelete items now =>
      let '(redis, script, _) := SubmitDeleteDurable ttl shards redis items now script in
      (redis, store, script)
  | CallAck items => let '(redis, script, _) := Ack shards redis items script in (redis, store, script)
  | CallReplay => (Replay shards batch redis store script).1
  | CallExpire i records => (<[i := expireKey (shardOf redis i) records]> redis, store, script)
  end.

Fixpoint walCalls (redis : redisState) (store : docStore) (script : list answer) (calls : list walCall)
    : redisState * docStore * list answer :=
  match calls with
  | [] => (redis, store, script)
  | c :: calls => let '(redis, store, script) := walCallStep redis store script c in
                  walCalls redis store script calls
  end.

(** A call that neither replaces nor acknowledges the record of a target, and an
    expiry of another shard. *)
Definition spares (t : string) (c : walCall) : Prop :=
  match c with
  | CallSubmit items _ | CallSubmitDelete items _ | CallAck items =>
      forall item, item ∈ items -> itemTarget item <> t
  | CallReplay => True
  | CallExpire i _ => i <> redisSnapshotWALShard t shards
  end.

Definition at_least (p : redisSnapshotWALPayload) (store : docStore) : Prop :=
  exists d, store !! payloadKey p = Some d /\ pl_Version p <= doc_version d.

Definition recordShard (redis : redisState) (p : redisSnapshotWALPayload) : redisShard :=
  shardOf redis (redisSnapshotWALShard (redisSnapshotWALPayloadTarget p) shards).

(** The record is waiting, or it has been applied. *)
Definition held (p : redisSnapshotWALPayload) (redis : redisState) (store : docStore) : Prop :=
  log_ok shards redis
  /\ (pendingRecord (recordShard redis p) (redisSnapshotWALPayloadTarget p) p
      \/ rs_snapshot (recordShard redis p) !! redisSnapshotWALPayloadTarget p = None /\ at_least p store).

Lemma applyRecord_at_least p (store store' : docStore) :
  isDelete p = false -> store' !! payloadKey p = applyRecord p (store !! payloadKey p) -> at_least p store'.
Proof.
  intros Hd Hs. unfold at_least. rewrite Hs. unfold applyRecord, applySave. rewrite Hd.
  destruct (below _ _) eqn:Hbelow.
  - eexists. split; [done|]. cbn. lia.
  - destruct (store !! payloadKey p) as [d|]; [|done]. exists d. split; [done|].
    cbn in Hbelow. apply Z.ltb_ge in Hbelow. lia.
Qed.

(** A record of the same document is in the same place. *)
Lemma same_document redis i t p q :
  log_ok shards redis -> pendingRecord (shardOf redis i) t q -> payloadKey q = payloadKey p ->
  i = redisSnapshotWALShard (redisSnapshotWALPayloadTarget p) shards
  /\ rs_snapshot (recordShard redis p) !! redisSnapshotWALPayloadTarget p = Some (Some q).
Proof.
  intros Hok [Hq _] Hk. destruct (Hok _ _ _ Hq) as [<- <-].
  assert (redisSnapshotWALPayloadTarget q = redisSnapshotWALPayloadTarget p) as E.
  { unfold redisSnapshotWALPayloadTarget. by injection Hk as -> -> -> ->. }
  unfold recordShard. rewrite <-E. by split.
Qed.

Lemma replay_progress_log_ok b redis s i r s' :
  log_ok shards redis -> replay_progress b (shardOf redis i) s r s' -> log_ok shards (<[i := r]> redis).
Proof.
  intros Hok Hpr j t q. rewrite shardOf_insert. case_decide as Hj; [|by apply Hok]. subst j. intros Hq.
  destruct (rp_snapshot _ _ _ _ _ Hpr t) as [E|E]; [|congruence]. apply (Hok i). congruence.
Qed.

(** Replaying a shard, with or without success, keeps or applies the record. *)
Lemma replay_progress_held b redis s i r s' p :
  isDelete p = false -> replay_progress b (shardOf redis i) s r s' ->
  held p redis s -> held p (<[i := r]> redis) s'.
Proof.
  intros Hd Hpr [Hok Hh]. split; [by eapply replay_progress_log_ok|].
  assert (Hgone : rs_snapshot (recordShard redis p) !! redisSnapshotWALPayloadTarget p = None ->
            s' !! payloadKey p = s !! payloadKey p).
  { intros Hn. apply (rp_other _ _ _ _ _ Hpr). intros t q Hq Hk.
    destruct (same_document _ _ _ p q Hok Hq Hk) as [_ E]. congruence. }
  unfold recordShard in *. rewrite shardOf_insert. case_decide as Hi; [rewrite <-Hi in Hpr|].
  - destruct Hh as [Hp|[Hn Ha]].
    + destruct (rp_record _ _ _ _ _ Hpr _ _ Hp) as [[Hp' _]|[Hn Hs]]; [by left|right].
      split; [done|by eapply applyRecord_at_least].
    + right. split; [destruct (rp_snapshot _ _ _ _ _ Hpr (redisSnapshotWALPayloadTarget p)); congruence|].
      unfold at_least. by rewrite Hgone.
  - destruct Hh as [Hp|[Hn Ha]]; [by left|right]. split; [done|]. unfold at_least. by rewrite Hgone.
Qed.

Lemma replayShards_held p idxs : forall redis store script redis' store' script' ok,
  1 <= batch -> isDelete p = false ->
  replayShards batch redis store script idxs = (redis', store', script', ok) ->
  held p redis store -> held p redis' store'.
Proof.
  induction idxs as [|i idxs IH]; intros redis store script redis' store' script' ok Hb Hd Hr Hh; cbn [replayShards] in Hr.
  { by injection Hr as <- <- _ _. }
  destruct (replayShard_spec (S (size (rs_pending (shardOf redis i)))) batch (shardOf redis i) store script
              Hb) as (r & s & sc & o & He & Hpr & _); [intros t q Hq; by apply (proj1 Hh i)|lia|].
  rewrite He in Hr.
  pose proof (replay_progress_held _ _ _ _ _ _ p Hd Hpr Hh) as Hh'.
  destruct o; [by eapply IH|]. by injection Hr as <- <- _ _.
Qed.

(** A log stays well formed. *)
Lemma replayShards_log_ok idxs : forall redis store script redis' store' script' ok,
  1 <= batch -> replayShards batch redis store script idxs = (redis', store', script', ok) ->
  log_ok shards redis -> log_ok shards redis'.
Proof.
  induction idxs as [|i idxs IH]; intros redis store script redis' store' script' ok Hb Hr Hok; cbn [replayShards] in Hr.
  { by injection Hr as <- _ _ _. }
  destruct (replayShard_spec (S (size (rs_pending (shardOf redis i)))) batch (shardOf redis i) store script
              Hb) as (r & s & sc & o & He & Hpr & _); [intros t q Hq; by apply (Hok i)|lia|].
  rewrite He in Hr.
  pose proof (replay_progress_log_ok _ _ _ _ _ _ Hok Hpr) as Hok'.
  destruct o; [by eapply IH|]. by injection Hr as <- _ _ _.
Qed.

Lemma groupTargets_elem targets i ts t :
  groupTargets shards targets !! i = Some ts -> t ∈ ts -> t ∈ targets.
Proof.
  unfold groupTargets. revert i ts. induction targets as [|u targets IH] using rev_ind; intros i ts.
  { cbn. by rewrite lookup_empty. }
  rewrite foldl_app. cbn [foldl]. rewrite lookup_insert_Some, elem_of_app.
  intros [[<- <-]|[_ Hi]] Ht; [|left; by eapply IH].
  apply elem_of_union in Ht as [Ht|Ht%elem_of_singleton]; [|subst t; right; left].
  destruct (foldl _ ∅ targets !! _) as [ts'|] eqn:E; [|by apply elem_of_empty in Ht].
  left. by eapply IH.
Qed.

Lemma ackGroups_spec groups : forall redis script redis' script' ok,
  ackGroups redis groups script = (redis', script', ok) ->
  (log_ok shards redis -> log_ok shards redis')
  /\ forall i t, (forall j ts, (j, ts) ∈ groups -> t ∉ ts) ->
     same_target (shardOf redis i) (shardOf redis' i) t.
Proof.
  induction groups as [|[j ts] groups IH]; intros redis script redis' script' ok Ha; cbn in Ha.
  { by injection Ha as <- _ _. }
  destruct (ackTargets _ _ _) as [[r s1] o] eqn:He.
  destruct (ackTargets_spec _ _ _ _ _ _ He) as (A1 & A2 & _).
  assert (Hlog : log_ok shards redis -> log_ok shards (<[j := r]> redis)).
  { intros Hok i t q. rewrite shardOf_insert. case_decide as Hi; [|by apply Hok]. subst i. intros Hq.
    apply (Hok j). destruct (decide (t ∈ elements ts)) as [Ht|Ht].
    - destruct (A2 t Ht); congruence.
    - destruct (A1 t Ht) as [E _]. congruence. }
  assert (Hsame : forall i t, t ∉ ts -> same_target (shardOf redis i) (shardOf (<[j := r]> redis) i) t).
  { intros i t Ht. rewrite shardOf_insert. case_decide as Hi; [|done]. subst i. apply A1.
    by rewrite elem_of_elements. }
  destruct o.
  - destruct (IH _ _ _ _ _ Ha) as [H1 H2]. split; [by auto|]. intros i t Hno.
    eapply same_target_trans; [apply Hsame, (Hno j ts); left|]. apply H2. intros j' ts' Hin.
    apply (Hno j'). by right.
  - injection Ha as <- _ _. split; [done|]. intros i t Hno. apply Hsame, (Hno j ts). left.
Qed.

Lemma Ack_spec redis items script redis' script' ok :
  Ack shards redis items script = (redis', script', ok) ->
  (log_ok shards redis -> log_ok shards redis')
  /\ forall i t, (forall item, item ∈ items -> itemTarget item <> t) ->
     same_target (shardOf redis i) (shardOf redis' i) t.
Proof.
  intros Ha. destruct (ackGroups_spec _ _ _ _ _ _ Ha) as [H1 H2]. split; [done|]. intros i t Hno.
  apply H2. intros j ts Hin%elem_of_map_to_list Ht. apply (groupTargets_elem _ _ _ _ Hin) in Ht.
  apply list_elem_of_omap in Ht as (item & Hi & Hk). unfold ackTask in Hk.
  destruct (_ || _); [done|]. injection Hk as Hk. by apply (Hno item).
Qed.

Lemma expire_log_ok redis i records :
  log_ok shards redis -> log_ok shards (<[i := expireKey (shardOf redis i) records]> redis).
Proof.
  intros Hok j t q. rewrite shardOf_insert. case_decide as Hj; [|by apply Hok]. subst j.
  destruct records; cbn; [by rewrite lookup_empty|by apply Hok].
Qed.

Lemma is_replay (c : walCall) : c = CallReplay \/ c <> CallReplay.
Proof. by destruct c; first [by left|right]. Qed.

(** What a call does to the log, apart from a replay. *)
Lemma walCallStep_spares redis store script c redis' store' script' t :
  walCallStep redis store script c = (redis', store', script') -> c <> CallReplay ->
  store' = store /\ (log_ok shards redis -> log_ok shards redis')
  /\ (spares t c -> same_target (shardOf redis (redisSnapshotWALShard t shards))
                     (shardOf redis' (redisSnapshotWALShard t shards)) t).
Proof.
  intros Hs Hc. destruct c as [items now|items now|items| |i records]; cbn in Hs; [| | |done|].
  - destruct (SubmitDurable _ _ _ _ _ _) as [[redis1 s1] o] eqn:He. injection Hs as <- <- _.
    destruct (submitDurable_spec _ _ _ _ _ _ _ _ _ _ He) as (H1 & H2 & _). split_and!; [done|done|].
    intros Hsp. apply H2. intros item p Hi Hp. destruct (writeTask_key item now p Hp) as (_ & -> & _).
    by apply Hsp.
  - destruct (SubmitDeleteDurable _ _ _ _ _ _) as [[redis1 s1] o] eqn:He. injection Hs as <- <- _.
    destruct (submitDurable_spec _ _ _ _ _ _ _ _ _ _ He) as (H1 & H2 & _). split_and!; [done|done|].
    intros Hsp. apply H2. intros item p Hi Hp. apply deleteTask_target in Hp as ->. by apply Hsp.
  - destruct (Ack _ _ _ _) as [[redis1 s1] o] eqn:He. injection Hs as <- <- _.
    destruct (Ack_spec _ _ _ _ _ _ He) as [H1 H2]. split_and!; [done|done|]. intros Hsp. by apply H2.
  - injection Hs as <- <- _. split_and!; [done|by apply expire_log_ok|]. intros Hsp.
    rewrite shardOf_insert, decide_False by (cbn in Hsp; congruence). done.
Qed.

Lemma walCalls_log_ok calls : forall redis store script redis' store' script',
  1 <= batch -> walCalls redis store script calls = (redis', store', script') ->
  log_ok shards redis -> log_ok shards redis'.
Proof.
  induction calls as [|c calls IH]; intros redis store script redis' store' script' Hb Hr Hok; cbn in Hr.
  { by injection Hr as <- _ _. }
  destruct (walCallStep redis store script c) as [[redis1 store1] script1] eqn:Hs.
  eapply IH; [done..|]. destruct (is_replay c) as [->|Hc].
  - cbn in Hs. destruct (Replay _ _ _ _ _) as [[[r s] sc] o] eqn:He. injection Hs as <- _ _.
    by eapply replayShards_log_ok.
  - by apply (walCallStep_spares _ _ _ _ _ _ _ ""%string Hs Hc).
Qed.

Lemma walCalls_held p calls : forall redis store script redis' store' script',
  1 <= batch -> isDelete p = false -> Forall (spares (redisSnapshotWALPayloadTarget p)) calls ->
  walCalls redis store script calls = (redis', store', script') ->
  held p redis store -> held p redis' store'.
Proof.
  induction calls as [|c calls IH]; intros redis store script redis' store' script' Hb Hd Hsp Hr Hh; cbn in Hr.
  { by injection Hr as <- <- _. }
  inversion Hsp as [|? ? Hc Hcs]; subst.
  destruct (walCallStep redis store script c) as [[redis1 store1] script1] eqn:Hs.
  eapply IH; [done..|]. destruct (is_replay c) as [->|Hn].
  - cbn in Hs. destruct (Replay _ _ _ _ _) as [[[r s] sc] o] eqn:He. injection Hs as <- <- _.
    by eapply replayShards_held.
  - destruct (walCallStep_spares _ _ _ _ _ _ _ (redisSnapshotWALPayloadTarget p) Hs Hn) as (-> & Hlog & Hsame).
    destruct Hh as [Hok Hh]. split; [by auto|]. unfold recordShard in *.
    destruct (Hsame Hc) as [E1 E2]. unfold pendingRecord in *. by rewrite E1, E2.
Qed.

Lemma Replay_held p redis store script redis' store' script' :
  1 <= shards < 2 ^ 32 -> 1 <= batch -> isDelete p = false -> held p redis store ->
  Replay shards batch redis store script = (redis', store', script', true) -> at_least p store'.
Proof.
  intros Hsh Hb Hd [Hok Hh] Hr.
  set (i := redisSnapshotWALShard (redisSnapshotWALPayloadTarget p) shards).
  assert (Hin : i ∈ (Z.of_nat <$> seq 0 (Z.to_nat shards))).
  { pose proof (redisSnapshotWALShard_range (redisSnapshotWALPayloadTarget p) shards Hsh) as Hrange.
    apply list_elem_of_fmap. exists (Z.to_nat i). rewrite elem_of_seq. subst i. lia. }
  destruct Hh as [Hp|[Hn Ha]].
  - eapply applyRecord_at_least; [done|].
    by apply (replayShards_applies batch shards _ _ _ _ _ _ _ _ _ _ Hb Hok
      (NoDup_fmap_2 Z.of_nat _ (NoDup_seq _ _)) Hin Hp Hr).
  - unfold at_least. rewrite (replayShards_spec batch shards _ _ _ _ _ _ _ Hb Hok Hr); [done|].
    intros j t q _ Hq Hk. destruct (same_document _ _ _ p q Hok Hq Hk) as [_ E]. congruence.
Qed.

(** C37. Whatever calls a log has seen since it was empty, a save that a durable
    submission accepted, and that no later item of the submission replaced, is
    applied by the next replay that succeeds: the stored document then has its
    version or a newer one.  In between there may be other submissions,
    acknowledgements, replays that fail and expiries, as long as none of them
    writes to or acknowledges the target of the save or expires the keys of its
    shard.  The number of shards stays the same. *)
Theorem SubmitDurable_replayed (now : Z) (redis redis1 redis2 redis3 : redisState)
    (items before after : list SaveItem) (item : SaveItem) (p : redisSnapshotWALPayload)
    (script0 script script1 script2 script3 : list answer) (store0 store store2 store3 : docStore)
    (history calls : list walCall) :
  1 <= shards < 2 ^ 32 -> 1 <= batch ->
  walCalls ∅ store0 script0 history = (redis, store, script) ->
  SubmitDurable ttl shards redis items now script = (redis1, script1, true) ->
  items = before ++ item :: after -> writeTask item now = Some p ->
  (forall later, later ∈ after -> itemTarget later <> itemTarget item) ->
  Forall (spares (itemTarget item)) calls ->
  walCalls redis1 store script1 calls = (redis2, store2, script2) ->
  Replay shards batch redis2 store2 script2 = (redis3, store3, script3, true) ->
  exists d, store3 !! itemKey item = Some d /\ sv_Version item <= doc_version d.
Proof.
  intros Hsh Hb Hhist Hs He Hp Hlater Hsp Hcalls Hr.
  destruct (writeTask_key item now p Hp) as (Hk & Ht & Hv & Hd).
  assert (Hok : log_ok shards redis) by (eapply walCalls_log_ok; [done..|apply log_ok_empty]).
  destruct (submitDurable_spec _ _ _ _ _ _ _ _ _ _ Hs) as (Hok1 & _ & Hrec).
  rewrite <-Hk, <-Hv. apply (Replay_held p redis2 store2 script2 redis3 store3 script3); [done..| |done].
  eapply walCalls_held; [done|done|by rewrite Ht|done|]. split; [by auto|]. left.
  apply (Hrec eq_refl before item after p He Hp).
  intros later q Hl Hq. destruct (writeTask_key later now q Hq) as (_ & Hq' & _).
  rewrite Ht, Hq'. by apply Hlater.
Qed.
End Histories.
End Replay.

(** ** Targets identify documents *)

Definition chars (s : string) : list ascii := String.list_ascii_of_string s.

Definition bar : ascii := "|"%char.

(** A name without the separator. *)
Definition bar_free (s : string) : Prop := bar ∉ chars s.

Lemma chars_app a b : chars (a +:+ b) = chars a ++ chars b.
Proof.
  induction a as [|c a IH]; [done|].
  change (c :: chars (a +:+ b) = c :: chars a ++ chars b). by rewrite IH.
Qed.

Lemma chars_inj a b : chars a = chars b -> a = b.
Proof.
  intros He. rewrite <-(String.string_of_list_ascii_of_string a),
    <-(String.string_of_list_ascii_of_string b). unfold chars in He. by rewrite He.
Qed.

Lemma pretty_N_go_bar x s : bar_free s -> bar_free (pretty_N_go x s).
Proof.
  unfold bar_free. revert s. induction (N.lt_wf_0 x) as [x _ IH]; intros s Hs.
  destruct (decide (x = 0)%N) as [->|Hx]; [by rewrite pretty_N_go_0|].
  rewrite pretty_N_go_step by lia. apply IH; [apply N.div_lt; lia|].
  cbn. apply not_elem_of_cons. split; [|done]. unfold pretty_N_char.
  generalize (x `mod` 10)%N. intros y. by repeat (case_match; try done).
Qed.

Lemma pretty_bar_free (z : Z) : bar_free (pretty z).
Proof.
  assert (Hpos : forall p : positive, bar_free (pretty p)).
  { intros p. apply pretty_N_go_bar. apply not_elem_of_nil. }
  destruct z as [|p|p].
  - unfold bar_free. cbn. by_evaluation.
  - apply Hpos.
  - unfold bar_free. change (pretty (Z.neg p)) with ("-" +:+ pretty p)%string.
    rewrite chars_app, elem_of_app. intros [Hin|Hin]; [|by apply (Hpos p)].
    cbn in Hin. apply list_elem_of_singleton in Hin. done.
Qed.

(** The first separator splits a string in one way. *)
Lemma split_at_bar (l l' r r' : list ascii) :
  bar ∉ l -> bar ∉ l' -> l ++ bar :: r = l' ++ bar :: r' -> l = l' /\ r = r'.
Proof.
  revert l'. induction l as [|c l IH]; intros [|c' l'] Hl Hl' He; cbn in He.
  - by injection He as ->.
  - injection He as <- _. exfalso. apply Hl'. left.
  - injection He as -> _. exfalso. apply Hl. left.
  - injection He as -> He. apply not_elem_of_cons in Hl as [_ Hl]. apply not_elem_of_cons in Hl' as [_ Hl'].
    by destruct (IH l' Hl Hl' He) as [-> ->].
Qed.

Lemma no_bar_split (l l' r' : list ascii) : bar ∉ l -> l <> l' ++ bar :: r'.
Proof. intros Hl ->. apply Hl, elem_of_app. right. left. Qed.

(** The target as a list of parts. *)
Lemma target_chars db scope coll id :
  chars (redisSnapshotWALTarget db scope coll id)
  = if scope =? DatabaseScopeServer then
      chars db ++ bar :: chars "server" ++ bar :: chars coll ++ bar :: chars (pretty id)
    else if bool_decide (db = ""%string) then chars coll ++ bar :: chars (pretty id)
    else chars db ++ bar :: chars coll ++ bar :: chars (pretty id).
Proof.
  unfold redisSnapshotWALTarget. destruct (scope =? DatabaseScopeServer).
  - rewrite !chars_app. done.
  - destruct (bool_decide (db = ""%string)); cbn [negb]; rewrite !chars_app; done.
Qed.

(** Takes equal strings apart, separator by separator. *)
Ltac split_bars H :=
  repeat (apply split_at_bar in H as [?%chars_inj H]; [|done|done]).

(** Two documents whose database and collection names do not contain the
    separator have different targets: a record of the log belongs to one
    document. *)
Theorem redisSnapshotWALTarget_injective (db db' coll coll' : string) (scope scope' id id' : Z) :
  scope ∈ [DatabaseScopeGlobal; DatabaseScopeServer] ->
  scope' ∈ [DatabaseScopeGlobal; DatabaseScopeServer] ->
  bar_free db -> bar_free db' -> bar_free coll -> bar_free coll' ->
  redisSnapshotWALTarget db scope coll id = redisSnapshotWALTarget db' scope' coll' id' ->
  db = db' /\ scope = scope' /\ coll = coll' /\ id = id'.
Proof.
  intros Hs Hs' Hdb Hdb' Hc Hc' He. apply (f_equal chars) in He. rewrite !target_chars in He.
  pose proof (pretty_bar_free id) as Hid. pose proof (pretty_bar_free id') as Hid'.
  assert (Hserver : bar ∉ chars "server") by by_evaluation.
  rewrite !elem_of_cons, elem_of_nil in Hs, Hs'. unfold bar_free in *.
  destruct Hs as [->|[->|[]]], Hs' as [->|[->|[]]];
    cbn [Z.eqb DatabaseScopeGlobal DatabaseScopeServer] in He;
    repeat (match type of He with context [bool_decide (?d = ?e)] => destruct (bool_decide_reflect (d = e)) end);
    split_bars He;
    first [ by apply (no_bar_split _ _ _ Hid) in He
          | by symmetry in He; apply (no_bar_split _ _ _ Hid') in He
          | by apply chars_inj, (inj pretty) in He; subst ].
Qed.

(** ** Witnesses *)

Definition sample_pending (id version created : Z) : redisSnapshotWALPayload :=
  mkPayload OperationSave "game" 0 "player" id version 0 0 false 1 SaveModeFull [Byte.x01] created.

(** Two saves, a deletion and a pending entry without a record. *)
Definition sample_records : list redisSnapshotWALPayload :=
  [sample_pending 7 3 20; sample_pending 8 1 10;
   mkPayload OperationDelete "game" 0 "player" 9 0 0 0 false 0 SaveModeFull [] 30].

Definition sample_shard : redisShard :=
  zadd (foldl (fun r p => zadd (hset r (redisSnapshotWALPayloadTarget p) p)
                            (redisSnapshotWALPayloadTarget p) (pl_CreatedAt p)) emptyShard sample_records)
    "player|1" 5.

Lemma emptyShard_ok : shard_ok emptyShard.
Proof. intros t p. cbn. by rewrite lookup_empty. Qed.

Lemma hset_ok r p : shard_ok r -> shard_ok (hset r (redisSnapshotWALPayloadTarget p) p).
Proof.
  intros Hr t q. cbn. rewrite lookup_insert_Some. intros [[<- [= <-]]|[_ Hq]]; [done|by apply Hr].
Qed.

Lemma sample_shard_ok : shard_ok sample_shard.
Proof. repeat apply hset_ok. apply emptyShard_ok. Qed.

Lemma replayShard_exact_witness :
  exists r' store' script',
    replayShard sample_decode 5 2 sample_shard sample_store (repeat AOk 30)
      = Some ((r', store', script'), true)
    /\ doc_version <$> store' !! sample_key 7 = Some 3 /\ store' !! sample_key 9 = None
    /\ rs_pending r' = ∅.
Proof.
  destruct (replayShard_exact sample_decode 2 sample_shard sample_store (repeat AOk 30))
    as (r' & store' & script' & ok & He & Hrec & _ & Hdone); [lia|apply sample_shard_ok|].
  assert (ok = true) as ->.
  { change (S (size (rs_pending sample_shard))) with 5%nat in He.
    assert (Hok : snd <$> replayShard sample_decode 5 2 sample_shard sample_store (repeat AOk 30) = Some true)
      by (vm_compute; reflexivity).
    rewrite He in Hok. by injection Hok. }
  exists r', store', script'. split; [exact He|]. split; [|split; [|by apply Hdone]].
  - specialize (Hrec "game|player|7"%string (sample_pending 7 3 20)).
    change (payloadKey (sample_pending 7 3 20)) with (sample_key 7) in Hrec. cbn in Hrec.
    rewrite Hrec; [vm_compute; reflexivity|]. split; [vm_compute; reflexivity|eexists; vm_compute; reflexivity].
  - specialize (Hrec "game|player|9"%string
      (mkPayload OperationDelete "game" 0 "player" 9 0 0 0 false 0 SaveModeFull [] 30)).
    change (store' !! sample_key 9 = applyRecord sample_decode
      (mkPayload OperationDelete "game" 0 "player" 9 0 0 0 false 0 SaveModeFull [] 30) (sample_store !! sample_key 9)).
    apply Hrec.
    split; [vm_compute; reflexivity|eexists; vm_compute; reflexivity].
Defined.

Definition sample_replay (redis : gmap Z redisShard) :=
  Replay sample_decode 4 10 redis ∅ (repeat AOk 30).

(** A log with a time to live: an older save and a deletion, then the
    submission of two saves; before the replay another document is
    acknowledged and a replay fails on its second shard. *)
Definition sample_history : list walCall :=
  [CallSubmit [sample_full 8 1 [Byte.x01]] 1; CallSubmitDelete [sample_remove 9] 2].

Definition sample_saves : list SaveItem := [sample_full 8 2 [Byte.x01]; sample_full 7 2 [Byte.x01]].

Definition sample_calls : list walCall := [CallReplay; CallAck [sample_full 7 2 [Byte.x01]]; CallExpire 9 true].

Definition sample_script : list answer := repeat AOk 16 ++ [AOk; AFail []] ++ repeat AOk 30.

Definition sample_before := walCalls sample_decode 60 4 10 ∅ sample_store sample_script sample_history.
Definition sample_submitted := SubmitDurable 60 4 sample_before.1.1 sample_saves 3 sample_before.2.
Definition sample_after :=
  walCalls sample_decode 60 4 10 sample_submitted.1.1 sample_before.1.2 sample_submitted.1.2 sample_calls.
Definition sample_replayed := Replay sample_decode 4 10 sample_after.1.1 sample_after.1.2 sample_after.2.

Lemma triple_eta {A B C} (x : A * B * C) : x = (x.1.1, x.1.2, x.2).
Proof. by destruct x as [[? ?] ?]. Qed.

Lemma sample_submitted_ok :
  SubmitDurable 60 4 sample_before.1.1 sample_saves 3 sample_before.2
  = (sample_submitted.1.1, sample_submitted.1.2, true).
Proof.
  assert (Hok : sample_submitted.2 = true) by (by vm_compute).
  unfold sample_submitted in *. destruct (SubmitDurable _ _ _ _ _ _) as [[? ?] ok]. cbn in *. by subst ok.
Qed.

Lemma sample_replayed_ok :
  Replay sample_decode 4 10 sample_after.1.1 sample_after.1.2 sample_after.2
  = (sample_replayed.1.1.1, sample_replayed.1.1.2, sample_replayed.1.2, true).
Proof.
  assert (Hok : sample_replayed.2 = true) by (by vm_compute).
  unfold sample_replayed in *. destruct (Replay _ _ _ _ _ _) as [[[? ?] ?] ok]. cbn in *. by subst ok.
Qed.

(** The replay in between fails. *)
Example sample_first_replay_fails :
  (Replay sample_decode 4 10 sample_submitted.1.1 sample_before.1.2 sample_submitted.1.2).2 = false.
Proof. by vm_compute. Qed.

Lemma SubmitDurable_replayed_witness :
  exists d, sample_replayed.1.1.2 !! itemKey (sample_full 8 2 [Byte.x01]) = Some d /\ 2 <= doc_version d.
Proof.
  apply (SubmitDurable_replayed sample_decode 60 4 10 3 sample_before.1.1 sample_submitted.1.1
           sample_after.1.1 sample_replayed.1.1.1 sample_saves
           [] [sample_full 7 2 [Byte.x01]] (sample_full 8 2 [Byte.x01])
           (mkPayload OperationSave "game" 0 "player" 8 2 0 0 false 1 SaveModeFull [Byte.x01] 3)
           sample_script sample_before.2 sample_submitted.1.2 sample_after.2 sample_replayed.1.2
           sample_store sample_before.1.2 sample_after.1.2 sample_replayed.1.1.2
           sample_history sample_calls).
  - lia.
  - lia.
  - apply triple_eta.
  - exact sample_submitted_ok.
  - reflexivity.
  - vm_compute. reflexivity.
  - intros later ->%list_elem_of_singleton. vm_compute. discriminate.
  - repeat constructor; [intros item ->%list_elem_of_singleton; vm_compute; discriminate|].
    vm_compute. discriminate.
  - apply triple_eta.
  - exact sample_replayed_ok.
Defined.

Lemma redisSnapshotWALTarget_injective_witness :
  DatabaseScopeServer = DatabaseScopeServer /\ 7 = 7.
Proof.
  assert (Hf : forall s : string, bool_decide (bar ∈ chars s) = false -> bar_free s)
    by (intros s Hs; by apply bool_decide_eq_false in Hs).
  destruct (redisSnapshotWALTarget_injective "game" "game" "player" "player" DatabaseScopeServer
              DatabaseScopeServer 7 7) as (_ & H1 & _ & H2);
    [right; left|right; left| | | | |reflexivity|by split];
    apply Hf; vm_compute; reflexivity.
Defined.

(** ** Where the log deviates *)

(** An acknowledgement names a document, not a version: acknowledging an older
    save removes the record of the newer one, which replay then does not apply. *)
Theorem Ack_forgets_newer :
  let v1 := sample_full 7 1 [Byte.x01] in
  let v2 := sample_full 7 2 [Byte.x01] in
  let '(redis1, _, ok1) := SubmitDurable 0 4 ∅ [v1] 1 (repeat AOk 10) in
  let '(redis2, _, ok2) := SubmitDurable 0 4 redis1 [v2] 2 (repeat AOk 10) in
  let '(redis3, _, ok3) := Ack 4 redis2 [v1] (repeat AOk 10) in
  let '(_, store, _, ok4) := sample_replay redis3 in
  (ok1, ok2, ok3, ok4) = (true, true, true, true) /\ store !! sample_key 7 = None
  /\ doc_version <$> (sample_replay redis2).1.1.2 !! sample_key 7 = Some 2.
Proof. by vm_compute. Qed.

(** A separator in a collection name makes two documents share a record. *)
Example redisSnapshotWALTarget_collision :
  redisSnapshotWALTarget "game" DatabaseScopeGlobal "server|player" 7
  = redisSnapshotWALTarget "game" DatabaseScopeServer "player" 7.
Proof. reflexivity. Qed.
