(* ===== verification/RedisWalQueue.v ===== *)
(** * The workers of the Redis snapshot log

    The asynchronous half of [src/checkpoint/redis_wal.go]: [Submit],
    [SubmitDelete] and [Ack] hand tasks to bounded queues, one per worker
    goroutine, without waiting; a target always goes to the same worker.  A
    schedule is any sequence of calls and of worker iterations.  The counters of
    [SnapshotWALStats] that a caller can act on are part of the state. *)

From stdpp Require Import base list gmap strings.
From Stdlib Require Import ZArith Lia.
From S2P Require Import Prelude Persist Flusher RedisWal.

Local Open Scope Z_scope.

(** ** State and operations *)

Section Wal.
(** The time to live of the configuration. *)
Context (ttl : Z).

Inductive walTask := TaskWrite (p : redisSnapshotWALPayload) | TaskAck (target : string).

Definition taskTarget (task : walTask) : string :=
  match task with
  | TaskWrite p => redisSnapshotWALPayloadTarget p
  | TaskAck target => target
  end.

(** The queues are the channels the workers read; [ws_queues] keeps them after
    [Stop], when the field of the source is cleared and the workers drain. *)
Record walState := mkWal {
  ws_queues : list (list walTask);
  ws_perWorkerCap : Z;
  ws_running : bool;
  ws_shards : Z;
  ws_redis : gmap Z redisShard;
  ws_script : list answer;
  ws_submitted : Z;
  ws_dropped : Z;
  ws_errs : Z
}.

(** A log that is started for the first time. *)
Definition Start (workerCount queueCap shards : Z) (redis : gmap Z redisShard) (script : list answer)
    : walState :=
  let perWorkerCap := Z.quot queueCap workerCount in
  mkWal (replicate (Z.to_nat workerCount) []) (if perWorkerCap <=? 0 then 1 else perWorkerCap) true
    shards redis script 0 0 0.

Definition Stop (w : walState) : walState :=
  mkWal (ws_queues w) (ws_perWorkerCap w) false (ws_shards w) (ws_redis w) (ws_script w)
    (ws_submitted w) (ws_dropped w) (ws_errs w).

Definition count_dropped (w : walState) : walState :=
  mkWal (ws_queues w) (ws_perWorkerCap w) (ws_running w) (ws_shards w) (ws_redis w) (ws_script w)
    (ws_submitted w) (ws_dropped w + 1) (ws_errs w).

(** A full queue drops the task. *)
Definition enqueue (w : walState) (task : walTask) : walState * bool :=
  if negb (ws_running w) || (len (ws_queues w) =? 0) then (count_dropped w, false) else
  let idx := Z.to_nat (redisSnapshotWALWorker (taskTarget task) (len (ws_queues w))) in
  match ws_queues w !! idx with
  | None => (count_dropped w, false)
  | Some queue =>
      if len queue <? ws_perWorkerCap w then
        (mkWal (<[idx := queue ++ [task]]> (ws_queues w)) (ws_perWorkerCap w) (ws_running w)
           (ws_shards w) (ws_redis w) (ws_script w) (ws_submitted w + 1) (ws_dropped w) (ws_errs w), true)
      else (count_dropped w, false)
  end.

(** The loops over the items also return the tasks that were accepted. *)
Fixpoint enqueueAll (w : walState) (tasks : list walTask) : walState * list walTask * bool :=
  match tasks with
  | [] => (w, [], true)
  | task :: tasks =>
      let '(w, accepted) := enqueue w task in
      let '(w, rest, ok) := enqueueAll w tasks in
      (w, (if accepted then [task] else []) ++ rest, accepted && ok)
  end.

Definition Submit (w : walState) (items : list SaveItem) (now : Z) : walState * list walTask * bool :=
  enqueueAll w (TaskWrite <$> omap (fun item => writeTask item now) items).

Definition SubmitDelete (w : walState) (items : list SaveItem) (now : Z) : walState * list walTask * bool :=
  enqueueAll w (TaskWrite <$> omap (fun item => deleteTask item now) items).

(** [Ack] of a running log stops at the first task that is not accepted. *)
Fixpoint enqueueAcks (w : walState) (tasks : list walTask) : walState * list walTask * bool :=
  match tasks with
  | [] => (w, [], true)
  | task :: tasks =>
      match enqueue w task with
      | (w, true) => let '(w, rest, ok) := enqueueAcks w tasks in (w, task :: rest, ok)
      | (w, false) => (w, [], false)
      end
  end.

Definition AckQueued (w : walState) (items : list SaveItem) : walState * list walTask * bool :=
  enqueueAcks w (TaskAck <$> omap ackTask items).

Definition runTask (shards : Z) (redis : gmap Z redisShard) (task : walTask) (script : list answer)
    : gmap Z redisShard * list answer * bool :=
  let i := redisSnapshotWALShard (taskTarget task) shards in
  let '(r, script, ok) :=
    match task with
    | TaskWrite p => writeSnapshot ttl (shardOf redis i) p script
    | TaskAck target => ackTargets (shardOf redis i) [target] script
    end in
  (<[i := r]> redis, script, ok).

(** One iteration of the loop of worker [i]; an empty queue blocks it. *)
Definition worker (w : walState) (i : nat) : walState :=
  match ws_queues w !! i with
  | Some (task :: rest) =>
      let '(redis, script, ok) := runTask (ws_shards w) (ws_redis w) task (ws_script w) in
      mkWal (<[i := rest]> (ws_queues w)) (ws_perWorkerCap w) (ws_running w) (ws_shards w)
        redis script (ws_submitted w) (ws_dropped w) (if ok then ws_errs w else ws_errs w + 1)
  | _ => w
  end.

(** ** Schedules *)

Inductive walEvent :=
  | EvSubmit (items : list SaveItem) (now : Z)
  | EvSubmitDelete (items : list SaveItem) (now : Z)
  | EvAck (items : list SaveItem)
  | EvWorker (i : nat)
  | EvStop.

Definition walStep (w : walState) (e : walEvent) : walState * list walTask :=
  match e with
  | EvSubmit items now => (Submit w items now).1
  | EvSubmitDelete items now => (SubmitDelete w items now).1
  | EvAck items => (AckQueued w items).1
  | EvWorker i => (worker w i, [])
  | EvStop => (Stop w, [])
  end.

(** The state after a schedule, and the accepted tasks in the order of the calls. *)
Fixpoint walRun (w : walState) (events : list walEvent) : walState * list walTask :=
  match events with
  | [] => (w, [])
  | e :: events =>
      let '(w, accepted) := walStep w e in
      let '(w, rest) := walRun w events in
      (w, accepted ++ rest)
  end.

(** ** Specification *)

(** The record that replay would apply for a target. *)
Definition replayable (w : walState) (t : string) : option redisSnapshotWALPayload :=
  let r := shardOf (ws_redis w) (redisSnapshotWALShard t (ws_shards w)) in
  match rs_pending r !! t, rs_snapshot r !! t with
  | Some _, Some p => p
  | _, _ => None
  end.

Definition taskEffect (_ : option redisSnapshotWALPayload) (task : walTask)
    : option redisSnapshotWALPayload :=
  match task with TaskWrite p => Some p | TaskAck _ => None end.

Definition tasksFor (t : string) (tasks : list walTask) : list walTask :=
  filter (fun task => taskTarget task = t) tasks.

(** What tasks carried out one after the other leave for a target. *)
Definition inTurn (t : string) (r : option redisSnapshotWALPayload) (tasks : list walTask)
    : option redisSnapshotWALPayload :=
  foldl taskEffect r (tasksFor t tasks).

Definition queueOf (w : walState) (t : string) : nat :=
  Z.to_nat (redisSnapshotWALWorker t (len (ws_queues w))).

Definition queued (w : walState) (t : string) : list walTask := default [] (ws_queues w !! queueOf w t).

(** Tasks are in the queue of their target. *)
Definition queues_ok (w : walState) : Prop :=
  1 <= len (ws_queues w) < 2 ^ 32
  /\ forall i queue task, ws_queues w !! i = Some queue -> task ∈ queue -> queueOf w (taskTarget task) = i.

(** ** Lemmas *)

Lemma worker_range t workers :
  1 <= workers < 2 ^ 32 -> 0 <= redisSnapshotWALWorker t workers < workers.
Proof.
  intros Hw. unfold redisSnapshotWALWorker. destruct (Z.leb_spec workers 1); [lia|].
  rewrite wrapu_small by (unfold in_u; lia). apply Z.mod_pos_bound. lia.
Qed.

Lemma queueOf_lookup w t : queues_ok w -> is_Some (ws_queues w !! queueOf w t).
Proof.
  intros [Hn _]. apply lookup_lt_is_Some. unfold queueOf.
  pose proof (worker_range t _ Hn). unfold len in *. lia.
Qed.

Lemma inTurn_app t r tasks tasks' : inTurn t r (tasks ++ tasks') = inTurn t (inTurn t r tasks) tasks'.
Proof. unfold inTurn, tasksFor. by rewrite filter_app, foldl_app. Qed.

Lemma inTurn_one t r task :
  inTurn t r [task] = if decide (taskTarget task = t) then taskEffect r task else r.
Proof. unfold inTurn, tasksFor. rewrite filter_cons. by case_decide. Qed.

(** A task that ran without error has its effect on its target and no other. *)
Lemma runTask_effect shards redis task script redis' script' t mk :
  runTask shards redis task script = (redis', script', true) ->
  ws_redis (mk redis') = redis' -> ws_redis (mk redis) = redis ->
  ws_shards (mk redis') = shards -> ws_shards (mk redis) = shards ->
  replayable (mk redis') t = inTurn t (replayable (mk redis) t) [task].
Proof.
  intros Hr E1 E2 E3 E4. rewrite inTurn_one. unfold replayable. rewrite E1, E2, E3, E4. clear E1 E2 E3 E4.
  unfold runTask in Hr. set (i := redisSnapshotWALShard (taskTarget task) shards) in *.
  destruct task as [p|u]; cbn [taskTarget] in *.
  - unfold writeSnapshot in Hr. destruct (nextAnswer script) as [[|] s1]; [|done].
    destruct (nextAnswer s1) as [[|] s2]; [|done].
    destruct (if 0 <? ttl then _ else _) as [s3 ok3]. injection Hr as <- <- _.
    rewrite shardOf_insert. destruct (decide (redisSnapshotWALPayloadTarget p = t)) as [<-|Ht].
    + rewrite decide_True by done. cbn. by rewrite !lookup_insert_eq.
    + case_decide as Hi; [|done]. rewrite Hi. cbn. by rewrite !lookup_insert_ne.
  - unfold ackTargets in Hr. destruct (nextAnswer script) as [[|] s1]; [|done].
    destruct (nextAnswer s1) as [[|] s2]; [|done]. injection Hr as <- <-.
    rewrite shardOf_insert. destruct (decide (u = t)) as [<-|Ht].
    + rewrite decide_True by done. cbn. by rewrite lookup_delete_eq.
    + case_decide as Hi; [|done]. rewrite Hi. cbn. by rewrite !lookup_delete_ne.
Qed.

(** ** The invariant *)

(** Carrying out what is queued for a target gives what the accepted tasks give. *)
Definition in_order (r0 : string -> option redisSnapshotWALPayload) (w : walState)
    (accepted : list walTask) : Prop :=
  queues_ok w /\ 0 <= ws_errs w
  /\ (ws_errs w = 0 -> forall t, inTurn t (replayable w t) (queued w t) = inTurn t (r0 t) accepted).

Lemma enqueue_in_order r0 w accepted task w' ok :
  in_order r0 w accepted -> enqueue w task = (w', ok) ->
  in_order r0 w' (accepted ++ if ok then [task] else []).
Proof.
  intros Hin He. unfold enqueue in He.
  destruct (negb (ws_running w) || _); [injection He as <- <-; by rewrite app_nil_r|].
  change (Z.to_nat _) with (queueOf w (taskTarget task)) in He.
  destruct (ws_queues w !! queueOf w (taskTarget task)) as [queue|] eqn:Hq;
    [|injection He as <- <-; by rewrite app_nil_r].
  destruct (len queue <? ws_perWorkerCap w); [|injection He as <- <-; by rewrite app_nil_r].
  injection He as <- <-. destruct Hin as ([Hn Hown] & H0 & Hin). cbv iota.
  assert (Hlen : forall idx x, len (<[idx := x]> (ws_queues w)) = len (ws_queues w)).
  { intros idx x. unfold len. by rewrite length_insert. }
  split_and!; [split|done|].
  - cbn. by rewrite Hlen.
  - intros i q x Hi Hx. unfold queueOf. cbn in *. rewrite Hlen. fold (queueOf w (taskTarget x)).
    apply list_lookup_insert_Some in Hi as [(<- & <- & _)|[_ Hi]]; [|by eapply Hown].
    apply elem_of_app in Hx as [Hx|Hx%list_elem_of_singleton]; [by eapply Hown|by subst].
  - intros Herr t. rewrite inTurn_app, <-(Hin Herr t), inTurn_one.
    set (w' := mkWal _ _ _ _ _ _ _ _ _).
    change (replayable w' t) with (replayable w t).
    assert (Ht : queueOf w' t = queueOf w t) by (unfold queueOf; subst w'; cbn; by rewrite Hlen).
    unfold queued at 1. rewrite Ht.
    change (ws_queues w') with (<[queueOf w (taskTarget task) := queue ++ [task]]> (ws_queues w)).
    destruct (decide (queueOf w (taskTarget task) = queueOf w t)) as [E|E].
    + rewrite <-E, list_lookup_insert_eq by (by eapply lookup_lt_Some). cbn [from_option id].
      rewrite inTurn_app, inTurn_one. unfold queued. by rewrite <-E, Hq.
    + rewrite list_lookup_insert_ne by done. by rewrite decide_False by (by intros <-).
Qed.

Lemma enqueueAll_in_order r0 tasks : forall w accepted w' more ok,
  in_order r0 w accepted -> enqueueAll w tasks = (w', more, ok) -> in_order r0 w' (accepted ++ more).
Proof.
  induction tasks as [|task tasks IH]; intros w accepted w' more ok Hin He; cbn in He.
  { injection He as <- <- _. by rewrite app_nil_r. }
  destruct (enqueue w task) as [w1 a] eqn:Hq. destruct (enqueueAll w1 tasks) as [[w2 rest] o] eqn:Hr.
  injection He as <- <- _. rewrite app_assoc. eapply IH; [|done]. by eapply enqueue_in_order.
Qed.

Lemma enqueueAcks_in_order r0 tasks : forall w accepted w' more ok,
  in_order r0 w accepted -> enqueueAcks w tasks = (w', more, ok) -> in_order r0 w' (accepted ++ more).
Proof.
  induction tasks as [|task tasks IH]; intros w accepted w' more ok Hin He; cbn in He.
  { injection He as <- <- _. by rewrite app_nil_r. }
  destruct (enqueue w task) as [w1 [|]] eqn:Hq; apply (enqueue_in_order r0 w accepted) in Hq; [|done| |done].
  - destruct (enqueueAcks w1 tasks) as [[w2 rest] o] eqn:Hr. injection He as <- <- _.
    change (task :: rest) with ([task] ++ rest). rewrite app_assoc. by eapply IH.
  - by injection He as <- <- _.
Qed.

Lemma worker_in_order r0 w accepted i : in_order r0 w accepted -> in_order r0 (worker w i) accepted.
Proof.
  intros Hin. unfold worker. destruct (ws_queues w !! i) as [[|task rest]|] eqn:Hq; [done| |done].
  destruct Hin as ([Hn Hown] & H0 & Hin).
  destruct (runTask _ _ _ _) as [[redis script] ok] eqn:Hrun.
  assert (Hlen : len (<[i := rest]> (ws_queues w)) = len (ws_queues w)).
  { unfold len. by rewrite length_insert. }
  assert (Ht : queueOf w (taskTarget task) = i) by (apply (Hown i _ task Hq); left).
  split_and!; [split| |].
  - cbn. by rewrite Hlen.
  - intros j q x Hj Hx. unfold queueOf. cbn in *. rewrite Hlen. fold (queueOf w (taskTarget x)).
    apply list_lookup_insert_Some in Hj as [(<- & <- & _)|[_ Hj]]; [|by eapply Hown].
    apply (Hown i _ x Hq). by right.
  - cbn. destruct ok; lia.
  - cbn [ws_errs]. destruct ok; [|lia]. intros Herr t. rewrite <-(Hin Herr t). clear Hin.
    set (mk := fun redis' => mkWal (<[i := rest]> (ws_queues w)) (ws_perWorkerCap w) (ws_running w) (ws_shards w)
                    redis' script (ws_submitted w) (ws_dropped w) (ws_errs w)).
    change (mkWal _ _ _ _ redis script _ _ _) with (mk redis).
    rewrite (runTask_effect _ _ _ _ _ _ t mk Hrun) by done.
    change (replayable (mk (ws_redis w)) t) with (replayable w t).
    unfold queued. change (ws_queues (mk redis)) with (<[i := rest]> (ws_queues w)).
    unfold queueOf. change (ws_queues (mk redis)) with (<[i := rest]> (ws_queues w)). rewrite Hlen.
    fold (queueOf w t). destruct (decide (i = queueOf w t)) as [->|Hi].
    + rewrite list_lookup_insert_eq by (by eapply lookup_lt_Some). rewrite Hq. cbn [from_option id].
      by rewrite <-inTurn_app.
    + rewrite list_lookup_insert_ne by done. rewrite (inTurn_one _ _ task), decide_False; [done|].
      intros <-. done.
Qed.

Lemma walStep_in_order r0 w accepted e w' more :
  in_order r0 w accepted -> walStep w e = (w', more) -> in_order r0 w' (accepted ++ more).
Proof.
  intros Hin He. destruct e as [items now|items now|items|i|]; cbn in He.
  - unfold Submit in He. destruct (enqueueAll _ _) as [[w1 a] o] eqn:Hq. injection He as <- <-.
    by eapply enqueueAll_in_order.
  - unfold SubmitDelete in He. destruct (enqueueAll _ _) as [[w1 a] o] eqn:Hq. injection He as <- <-.
    by eapply enqueueAll_in_order.
  - unfold AckQueued in He. destruct (enqueueAcks _ _) as [[w1 a] o] eqn:Hq. injection He as <- <-.
    by eapply enqueueAcks_in_order.
  - injection He as <- <-. rewrite app_nil_r. by apply worker_in_order.
  - injection He as <- <-. by rewrite app_nil_r.
Qed.

Lemma walRun_in_order r0 events : forall w accepted w' more,
  in_order r0 w accepted -> walRun w events = (w', more) -> in_order r0 w' (accepted ++ more).
Proof.
  induction events as [|e events IH]; intros w accepted w' more Hin Hr; cbn in Hr.
  { injection Hr as <- <-. by rewrite app_nil_r. }
  destruct (walStep w e) as [w1 a] eqn:He. destruct (walRun w1 events) as [w2 rest] eqn:Hrest.
  injection Hr as <- <-. rewrite app_assoc. eapply IH; [|done]. by eapply walStep_in_order.
Qed.

Lemma Start_in_order workers cap shards redis script :
  1 <= workers < 2 ^ 32 ->
  in_order (replayable (Start workers cap shards redis script)) (Start workers cap shards redis script) [].
Proof.
  intros Hw. assert (Hq : forall i queue, ws_queues (Start workers cap shards redis script) !! i = Some queue ->
    queue = []) by (intros i queue Hi; by apply lookup_replicate in Hi as [-> _]).
  split_and!; [split|done|].
  - cbn. unfold len. rewrite length_replicate. lia.
  - intros i queue task Hi Hin. rewrite (Hq i queue Hi) in Hin. by apply elem_of_nil in Hin.
  - intros _ t. unfold queued. destruct (ws_queues _ !! _) as [queue|] eqn:E; [|done].
    by rewrite (Hq _ _ E).
Qed.

(** ** Theorem *)

(** C38. Whatever the schedule of the workers, once the queues are drained and as long
    as no task has met an error of Redis (a worker drops a task that fails and
    counts it in [ws_errs]), the log holds under every target what carrying out
    the accepted tasks in the order of the calls would leave: the last accepted
    save or deletion, or nothing after an acknowledgement.  Targets stand for
    documents whose names do not contain the separator, and keys do not expire
    meanwhile. *)
Theorem walRun_last_task_wins (workers cap shards : Z) (redis : gmap Z redisShard) (script : list answer)
    (events : list walEvent) (w : walState) (accepted : list walTask) :
  1 <= workers < 2 ^ 32 ->
  walRun (Start workers cap shards redis script) events = (w, accepted) ->
  Forall (fun queue => queue = []) (ws_queues w) -> ws_errs w = 0 ->
  forall t, replayable w t
            = inTurn t (replayable (Start workers cap shards redis script) t) accepted.
Proof.
  intros Hw Hr Hq Herr t.
  destruct (walRun_in_order _ events _ [] w accepted (Start_in_order workers cap shards redis script Hw) Hr)
    as (Hok & _ & Hin).
  specialize (Hin Herr t). cbn [app] in Hin. rewrite <-Hin.
  destruct (queueOf_lookup w t Hok) as [queue Hlk]. unfold queued. rewrite Hlk. rewrite Forall_lookup in Hq. by rewrite (Hq _ _ Hlk).
Qed.

End Wal.

(** Two workers; a save, a newer save of the same document and a deletion of
    another one, with the workers running out of turn. *)
Definition sample_schedule : list walEvent :=
  [EvSubmit [sample_full 7 1 [Byte.x01]; sample_full 8 1 [Byte.x01]] 1; EvWorker 1;
   EvSubmit [sample_full 7 2 [Byte.x01]] 2; EvSubmitDelete [sample_remove 8] 3; EvWorker 1; EvStop;
   EvSubmit [sample_full 7 3 [Byte.x01]] 4; EvWorker 0; EvWorker 1; EvWorker 0; EvWorker 0; EvWorker 1].

Definition sample_started : walState := Start 2 8 4 ∅ (repeat AOk 40).

Lemma sample_schedule_drained :
  ws_queues (walRun 60 sample_started sample_schedule).1 = [[]; []]
  /\ ws_errs (walRun 60 sample_started sample_schedule).1 = 0.
Proof. split; vm_compute; reflexivity. Qed.

Lemma walRun_last_task_wins_witness :
  pl_Version <$> replayable (walRun 60 sample_started sample_schedule).1 "game|player|7" = Some 2
  /\ isDelete <$> replayable (walRun 60 sample_started sample_schedule).1 "game|player|8" = Some true.
Proof.
  destruct (walRun 60 sample_started sample_schedule) as [w accepted] eqn:Hr.
  pose proof sample_schedule_drained as [Hq He]. rewrite Hr in Hq, He.
  assert (Hall := walRun_last_task_wins 60 2 8 4 ∅ (repeat AOk 40) sample_schedule w accepted
                    ltac:(lia) Hr ltac:(cbn in Hq; rewrite Hq; repeat constructor) He).
  assert (Ha : accepted = (walRun 60 sample_started sample_schedule).2) by (rewrite Hr; reflexivity).
  cbn [fst]. rewrite !Hall, Ha. split; vm_compute; reflexivity.
Defined.
