(* ===== verification/SubjectSync.v ===== *)
(** * The content state of a synchronised entity

    [src/entity/subject_sync.go]: what an entity has to tell its subscribers.
    Changes set bits of a dirty mask or ask for a full refresh; [Prepare] packs
    the dirty parts once per profile at the next content version, and the
    prepared update is committed after it was handed over, or aborted.  Packing
    is done by application code behind the interface [SubjectSyncPacker]. *)

From stdpp Require Import base list gmap strings.
From Stdlib Require Import ZArith Lia.
From Stdlib Require Strings.Byte.
From S2P Require Import Prelude.

Local Open Scope Z_scope.

(** ** Data *)

(** Errors of this component and of the subscription coordinator. *)
Inductive syncError :=
  | ErrSubjectSyncClosed | ErrSubjectSyncNotDirty | ErrSubjectSyncInFlight | ErrSubjectSyncPacker
  | ErrSubjectSyncStalePrepare | ErrSubjectSyncFinished
  | ErrPack
  | ErrSubscriberInvalid | ErrSubscriptionSubject | ErrEnvelopeSinkRequired | ErrEnvelopeAdmission
  | ErrSubscriptionNotFound | ErrSubscriptionState | ErrPreparedProfilesMissing.

Definition SyncFullReasonNone : Z := 0.
Definition SyncFullReasonDirty : Z := 1.
Definition SyncFullReasonResync : Z := 2.

Record SyncProfile := mkProfile { sp_Key : string; sp_LOD : Z; sp_SchemaVersion : Z }.

#[export] Instance SyncProfile_eq_dec : EqDecision SyncProfile.
Proof. solve_decision. Defined.

#[export] Instance SyncProfile_countable : Countable SyncProfile.
Proof.
  refine (inj_countable' (fun p => (sp_Key p, sp_LOD p, sp_SchemaVersion p))
            (fun '(a, b, c) => mkProfile a b c) _).
  by intros [].
Defined.

Definition SyncProfile_Normalize (p : SyncProfile) : SyncProfile :=
  if bool_decide (sp_Key p = ""%string) then mkProfile "default" (sp_LOD p) (sp_SchemaVersion p) else p.

(** Immutable bytes: copies are not distinguished from the original. *)
Record FrozenSyncPayload := mkFrozen { fp_codec : Z; fp_data : list Byte.byte }.

Record SubjectSyncUpdate := mkUpdate {
  up_SubjectID : Z;
  up_Namespace : string;
  up_SubjectKind : Z;
  up_Profile : SyncProfile;
  up_Version : Z;
  up_BaseVersion : Z;
  up_Mask : Z;
  up_Full : bool;
  up_Reason : Z;
  up_Payload : FrozenSyncPayload
}.

(** The packer reads the content of its entity, whose lock is held. *)
Class SubjectSyncPacker (Packer Content : Type) := {
  PackSubjectSnapshot : Packer -> Content -> SyncProfile -> result syncError FrozenSyncPayload;
  PackSubjectDelta : Packer -> Content -> SyncProfile -> Z -> result syncError FrozenSyncPayload
}.

(** The packer made of two functions, either of which may be missing. *)
Record SubjectSyncPackFunc (Content : Type) := mkPackFunc {
  pf_Snapshot : option (Content -> SyncProfile -> result syncError FrozenSyncPayload);
  pf_Delta : option (Content -> SyncProfile -> Z -> result syncError FrozenSyncPayload)
}.

Arguments mkPackFunc {Content}.
Arguments pf_Snapshot {Content}.
Arguments pf_Delta {Content}.

Definition PackFunc_PackSubjectSnapshot {Content} (f : SubjectSyncPackFunc Content) (c : Content)
    (profile : SyncProfile) : result syncError FrozenSyncPayload :=
  match pf_Snapshot f with
  | None => Ok (mkFrozen 0 [])
  | Some pack => pack c (SyncProfile_Normalize profile)
  end.

Definition PackFunc_PackSubjectDelta {Content} (f : SubjectSyncPackFunc Content) (c : Content)
    (profile : SyncProfile) (mask : Z) : result syncError FrozenSyncPayload :=
  match pf_Delta f with
  | None => Ok (mkFrozen 0 [])
  | Some pack => pack c (SyncProfile_Normalize profile) mask
  end.

#[export] Instance PackFunc_packer {Content} : SubjectSyncPacker (SubjectSyncPackFunc Content) Content := {
  PackSubjectSnapshot := PackFunc_PackSubjectSnapshot;
  PackSubjectDelta := PackFunc_PackSubjectDelta
}.

(** The locks are not part of the state; the notifier is only known to be set. *)
Record SubjectSyncState (Packer : Type) := mkSync {
  sy_enabled : bool;
  sy_subjectID : Z;
  sy_namespace : string;
  sy_subjectKind : Z;
  sy_version : Z;
  sy_dirtyMask : Z;
  sy_fullDirty : bool;
  sy_fullReason : Z;
  sy_dirtyGeneration : Z;
  sy_packer : option Packer;
  sy_dirtyNotifier : bool;
  sy_nextToken : Z;
  sy_inflightToken : Z;
  sy_lastError : option syncError
}.

Arguments mkSync {Packer}.
Arguments sy_enabled {Packer}.
Arguments sy_subjectID {Packer}.
Arguments sy_namespace {Packer}.
Arguments sy_subjectKind {Packer}.
Arguments sy_version {Packer}.
Arguments sy_dirtyMask {Packer}.
Arguments sy_fullDirty {Packer}.
Arguments sy_fullReason {Packer}.
Arguments sy_dirtyGeneration {Packer}.
Arguments sy_packer {Packer}.
Arguments sy_dirtyNotifier {Packer}.
Arguments sy_nextToken {Packer}.
Arguments sy_inflightToken {Packer}.
Arguments sy_lastError {Packer}.

Record PreparedSubjectSync := mkPrepared {
  pr_token : Z;
  pr_generation : Z;
  pr_baseVersion : Z;
  pr_version : Z;
  pr_updates : list SubjectSyncUpdate;
  pr_finished : bool
}.

Definition finish (p : PreparedSubjectSync) : PreparedSubjectSync :=
  mkPrepared (pr_token p) (pr_generation p) (pr_baseVersion p) (pr_version p) (pr_updates p) true.

(** ** Profiles *)

Definition profile_less (a b : SyncProfile) : bool :=
  if negb (bool_decide (sp_Key a = sp_Key b)) then String.ltb (sp_Key a) (sp_Key b)
  else if negb (sp_LOD a =? sp_LOD b) then sp_LOD a <? sp_LOD b
  else sp_SchemaVersion a <? sp_SchemaVersion b.

Definition normalizeSyncProfiles (profiles : list SyncProfile) : list SyncProfile :=
  let profiles := match profiles with [] => [mkProfile "default" 0 0] | _ => profiles end in
  sort_slice profile_less (elements (list_to_set (C := gset SyncProfile) (SyncProfile_Normalize <$> profiles))).

Section State.
Context {Packer Content : Type} `{!SubjectSyncPacker Packer Content}.

Abbreviation state := (SubjectSyncState Packer).

(** ** Marking *)

Definition NewSubjectSyncState (subjectID : Z) (namespace : string) (subjectKind : Z)
    (packer : option Packer) : state :=
  mkSync true subjectID namespace subjectKind 0 0 false SyncFullReasonNone 0 packer false 0 0 None.

Definition PendingDirty (s : state) : bool := negb (sy_dirtyMask s =? 0) || sy_fullDirty s.

Definition SetPacker (s : state) (packer : option Packer) : state :=
  mkSync (sy_enabled s) (sy_subjectID s) (sy_namespace s) (sy_subjectKind s) (sy_version s)
    (sy_dirtyMask s) (sy_fullDirty s) (sy_fullReason s) (sy_dirtyGeneration s) packer
    (sy_dirtyNotifier s) (sy_nextToken s) (sy_inflightToken s) (sy_lastError s).

(** Marks and [SetDirtyNotifier] also return whether the notifier is called. *)
Definition SetDirtyNotifier (s : state) (notifier : bool) : state * bool :=
  (mkSync (sy_enabled s) (sy_subjectID s) (sy_namespace s) (sy_subjectKind s) (sy_version s)
     (sy_dirtyMask s) (sy_fullDirty s) (sy_fullReason s) (sy_dirtyGeneration s) (sy_packer s)
     (if sy_enabled s then notifier else sy_dirtyNotifier s)
     (sy_nextToken s) (sy_inflightToken s) (sy_lastError s),
   sy_enabled s && PendingDirty s && notifier).

Definition MarkDirty (s : state) (mask : Z) : state * bool :=
  if (mask =? 0) || negb (sy_enabled s) then (s, false) else
  (mkSync (sy_enabled s) (sy_subjectID s) (sy_namespace s) (sy_subjectKind s) (sy_version s)
     (Z.lor (sy_dirtyMask s) mask) (sy_fullDirty s) (sy_fullReason s) (u64! (sy_dirtyGeneration s + 1))
     (sy_packer s) (sy_dirtyNotifier s) (sy_nextToken s) (sy_inflightToken s) (sy_lastError s),
   sy_dirtyNotifier s).

Definition MarkFullDirty (s : state) (reason : Z) : state * bool :=
  let reason := if reason =? SyncFullReasonNone then SyncFullReasonDirty else reason in
  if negb (sy_enabled s) then (s, false) else
  (mkSync (sy_enabled s) (sy_subjectID s) (sy_namespace s) (sy_subjectKind s) (sy_version s)
     0 true reason (u64! (sy_dirtyGeneration s + 1))
     (sy_packer s) (sy_dirtyNotifier s) (sy_nextToken s) (sy_inflightToken s) (sy_lastError s),
   sy_dirtyNotifier s).

(** ** Preparing *)

Definition set_token (s : state) (next inflight : Z) (err : option syncError) : state :=
  mkSync (sy_enabled s) (sy_subjectID s) (sy_namespace s) (sy_subjectKind s) (sy_version s)
    (sy_dirtyMask s) (sy_fullDirty s) (sy_fullReason s) (sy_dirtyGeneration s) (sy_packer s)
    (sy_dirtyNotifier s) next inflight err.

Definition failPrepare (s : state) (token : Z) (err : syncError) : state :=
  set_token s (sy_nextToken s) (if sy_inflightToken s =? token then 0 else sy_inflightToken s) (Some err).

Definition setSubjectSyncError (s : state) (err : option syncError) : state :=
  set_token s (sy_nextToken s) (sy_inflightToken s) err.

(** The loop over the profiles; [pack] is the packer call of the profile. *)
Fixpoint packUpdates (pack : SyncProfile -> result syncError FrozenSyncPayload)
    (update : SyncProfile -> FrozenSyncPayload -> SubjectSyncUpdate) (profiles : list SyncProfile)
    : result syncError (list SubjectSyncUpdate) :=
  match profiles with
  | [] => Ok []
  | profile :: profiles =>
      payload ← pack profile;
      rest ← packUpdates pack update profiles;
      Ok (update profile payload :: rest)
  end.

Definition prepareLocked (s : state) (c : Content) (profiles : list SyncProfile)
    : state * result syncError PreparedSubjectSync :=
  if negb (sy_enabled s) then (s, Err ErrSubjectSyncClosed) else
  if negb (sy_inflightToken s =? 0) then (s, Err ErrSubjectSyncInFlight) else
  if (sy_dirtyMask s =? 0) && negb (sy_fullDirty s) then (s, Err ErrSubjectSyncNotDirty) else
  match sy_packer s with
  | None => (setSubjectSyncError s (Some ErrSubjectSyncPacker), Err ErrSubjectSyncPacker)
  | Some packer =>
      let token := u64! (sy_nextToken s + 1) in
      let s := set_token s token token (sy_lastError s) in
      let version := u64! (sy_version s + 1) in
      let mask := sy_dirtyMask s in
      let full := sy_fullDirty s in
      let reason := if full && (sy_fullReason s =? SyncFullReasonNone) then SyncFullReasonDirty
                    else sy_fullReason s in
      let pack := fun profile => if full then PackSubjectSnapshot packer c profile
                                 else PackSubjectDelta packer c profile mask in
      let update := fun profile payload =>
        mkUpdate (sy_subjectID s) (sy_namespace s) (sy_subjectKind s) profile version (sy_version s)
          mask full reason payload in
      match packUpdates pack update profiles with
      | Err e => (failPrepare s token e, Err e)
      | Ok updates => (s, Ok (mkPrepared token (sy_dirtyGeneration s) (sy_version s) version updates false))
      end
  end.

Definition Prepare (s : state) (c : Content) (profiles : list SyncProfile)
    : state * result syncError PreparedSubjectSync :=
  prepareLocked s c (normalizeSyncProfiles profiles).

(** Snapshots at the current version; nothing but the last error changes. *)
Definition CaptureSnapshot (s : state) (c : Content) (profiles : list SyncProfile) (reason : Z)
    : state * result syncError (list SubjectSyncUpdate) :=
  let profiles := normalizeSyncProfiles profiles in
  let reason := if reason =? SyncFullReasonNone then SyncFullReasonResync else reason in
  let updates :=
    if negb (sy_enabled s) then Err ErrSubjectSyncClosed else
    match sy_packer s with
    | None => Err ErrSubjectSyncPacker
    | Some packer =>
        packUpdates (PackSubjectSnapshot packer c)
          (fun profile payload =>
             mkUpdate (sy_subjectID s) (sy_namespace s) (sy_subjectKind s) profile (sy_version s)
               (sy_version s) 0 true reason payload) profiles
    end in
  match updates with
  | Err e => (setSubjectSyncError s (Some e), Err e)
  | Ok us => (setSubjectSyncError s None, Ok us)
  end.

Definition Close (s : state) : state :=
  mkSync false (sy_subjectID s) (sy_namespace s) (sy_subjectKind s) (sy_version s)
    0 false SyncFullReasonNone (sy_dirtyGeneration s) None false (sy_nextToken s) 0 (sy_lastError s).

(** ** Finishing *)

Definition Prepared_Commit (p : PreparedSubjectSync) (s : state)
    : PreparedSubjectSync * state * result syncError unit :=
  if pr_finished p then (p, s, Err ErrSubjectSyncFinished) else
  let p := finish p in
  if negb (sy_enabled s) || negb (sy_inflightToken s =? pr_token p)
     || negb (sy_version s =? pr_baseVersion p) then
    let inflight := if sy_inflightToken s =? pr_token p then 0 else sy_inflightToken s in
    (p, set_token s (sy_nextToken s) inflight (sy_lastError s), Err ErrSubjectSyncStalePrepare)
  else
    let clean := sy_dirtyGeneration s =? pr_generation p in
    (p, mkSync (sy_enabled s) (sy_subjectID s) (sy_namespace s) (sy_subjectKind s) (pr_version p)
          (if clean then 0 else sy_dirtyMask s) (if clean then false else sy_fullDirty s)
          (if clean then SyncFullReasonNone else sy_fullReason s)
          (sy_dirtyGeneration s) (sy_packer s) (sy_dirtyNotifier s) (sy_nextToken s) 0 None, Ok tt).

Definition Prepared_AbortWithError (p : PreparedSubjectSync) (s : state) (cause : option syncError)
    : PreparedSubjectSync * state * result syncError unit :=
  if pr_finished p then (p, s, Err ErrSubjectSyncFinished) else
  let p := finish p in
  if negb (sy_inflightToken s =? pr_token p) then (p, s, Err ErrSubjectSyncStalePrepare)
  else (p, set_token s (sy_nextToken s) 0 cause, Ok tt).

(** ** Runs *)

(** Calls on one state; prepared updates are numbered in the order of their
    preparation and may be finished at any time, in any order, repeatedly. *)
Inductive subjectEvent :=
  | SeMarkDirty (mask : Z)
  | SeMarkFullDirty (reason : Z)
  | SeSetPacker (packer : option Packer)
  | SeSetDirtyNotifier (notifier : bool)
  | SePrepare (c : Content) (profiles : list SyncProfile)
  | SeCaptureSnapshot (c : Content) (profiles : list SyncProfile) (reason : Z)
  | SeCommit (i : nat)
  | SeAbort (i : nat) (cause : option syncError)
  | SeClose.

(** The state, the prepared updates, and those the step committed. *)
Definition subjectStep (s : state) (heap : list PreparedSubjectSync) (e : subjectEvent)
    : state * list PreparedSubjectSync * list PreparedSubjectSync :=
  match e with
  | SeMarkDirty mask => ((MarkDirty s mask).1, heap, [])
  | SeMarkFullDirty reason => ((MarkFullDirty s reason).1, heap, [])
  | SeSetPacker packer => (SetPacker s packer, heap, [])
  | SeSetDirtyNotifier notifier => ((SetDirtyNotifier s notifier).1, heap, [])
  | SePrepare c profiles =>
      match Prepare s c profiles with
      | (s, Ok p) => (s, heap ++ [p], [])
      | (s, Err _) => (s, heap, [])
      end
  | SeCaptureSnapshot c profiles reason => ((CaptureSnapshot s c profiles reason).1, heap, [])
  | SeCommit i =>
      match heap !! i with
      | None => (s, heap, [])
      | Some p =>
          let '(p, s, r) := Prepared_Commit p s in
          (s, <[i := p]> heap, if is_ok r then [p] else [])
      end
  | SeAbort i cause =>
      match heap !! i with
      | None => (s, heap, [])
      | Some p => let '(p, s, _) := Prepared_AbortWithError p s cause in (s, <[i := p]> heap, [])
      end
  | SeClose => (Close s, heap, [])
  end.

Fixpoint subjectRun (s : state) (heap : list PreparedSubjectSync) (es : list subjectEvent)
    : state * list PreparedSubjectSync * list PreparedSubjectSync :=
  match es with
  | [] => (s, heap, [])
  | e :: es =>
      let '(s, heap, done) := subjectStep s heap e in
      let '(s, heap, rest) := subjectRun s heap es in
      (s, heap, done ++ rest)
  end.

(** ** Lemmas: profiles and packing *)

Lemma Normalize_idemp p : SyncProfile_Normalize (SyncProfile_Normalize p) = SyncProfile_Normalize p.
Proof.
  unfold SyncProfile_Normalize. destruct (bool_decide (sp_Key p = ""%string)) eqn:H; [done|]. by rewrite H.
Qed.

Lemma elem_of_normalizeSyncProfiles q profiles :
  q ∈ normalizeSyncProfiles profiles <->
  q ∈ SyncProfile_Normalize <$> match profiles with [] => [mkProfile "default" 0 0] | _ => profiles end.
Proof.
  unfold normalizeSyncProfiles. rewrite sort_slice_perm, elem_of_elements, elem_of_list_to_set. done.
Qed.

Lemma normalizeSyncProfiles_normal q profiles :
  q ∈ normalizeSyncProfiles profiles -> SyncProfile_Normalize q = q.
Proof.
  rewrite elem_of_normalizeSyncProfiles. intros (p & -> & _)%list_elem_of_fmap. apply Normalize_idemp.
Qed.

Lemma normalizeSyncProfiles_nonempty profiles : normalizeSyncProfiles profiles <> [].
Proof.
  intros He. destruct profiles as [|p profiles].
  - assert (Hin : mkProfile "default" 0 0 ∈ normalizeSyncProfiles [])
      by (apply elem_of_normalizeSyncProfiles; left). rewrite He in Hin. by apply elem_of_nil in Hin.
  - assert (Hin : SyncProfile_Normalize p ∈ normalizeSyncProfiles (p :: profiles))
      by (apply elem_of_normalizeSyncProfiles; left). rewrite He in Hin. by apply elem_of_nil in Hin.
Qed.

Lemma packUpdates_elem pack update profiles updates :
  packUpdates pack update profiles = Ok updates ->
  Forall2 (fun q u => exists payload, pack q = Ok payload /\ u = update q payload) profiles updates.
Proof.
  revert updates. induction profiles as [|q profiles IH]; intros updates He; cbn in He.
  { by injection He as <-. }
  destruct (pack q) as [payload|] eqn:Hp; [|done]. cbn in He.
  destruct (packUpdates _ _ profiles) as [rest|] eqn:Hr; [|done]. injection He as <-.
  constructor; [by exists payload|by apply IH].
Qed.

(** ** Marks survive *)

(** What an update has to say about the marked bits. *)
Definition covers (m : Z) (u : SubjectSyncUpdate) : Prop :=
  up_Full u = true \/ Z.land m (up_Mask u) = m.

Definition pending (m : Z) (s : state) : Prop :=
  sy_fullDirty s = true \/ Z.land m (sy_dirtyMask s) = m.

Definition prepared_covers (m : Z) (p : PreparedSubjectSync) : Prop :=
  pr_updates p <> [] /\ Forall (covers m) (pr_updates p).

Lemma land_lor_keeps m d x : Z.land m d = m -> Z.land m (Z.lor d x) = m.
Proof.
  intros H. rewrite Z.land_lor_distr_r, H. apply Z.bits_inj. intros i.
  rewrite Z.lor_spec, Z.land_spec. by destruct (Z.testbit m i), (Z.testbit x i).
Qed.

Lemma Prepare_ok s c profiles s' p :
  Prepare s c profiles = (s', Ok p) ->
  sy_enabled s = true /\ sy_inflightToken s = 0
  /\ s' = set_token s (u64! (sy_nextToken s + 1)) (u64! (sy_nextToken s + 1)) (sy_lastError s)
  /\ pr_token p = u64! (sy_nextToken s + 1) /\ pr_generation p = sy_dirtyGeneration s
  /\ pr_baseVersion p = sy_version s /\ pr_version p = u64! (sy_version s + 1)
  /\ pr_finished p = false
  /\ exists packer, sy_packer s = Some packer
      /\ Forall2 (fun q u => exists reason payload,
            (if sy_fullDirty s then PackSubjectSnapshot packer c q
             else PackSubjectDelta packer c q (sy_dirtyMask s)) = Ok payload
            /\ u = mkUpdate (sy_subjectID s) (sy_namespace s) (sy_subjectKind s) q (u64! (sy_version s + 1))
                     (sy_version s) (sy_dirtyMask s) (sy_fullDirty s) reason payload)
          (normalizeSyncProfiles profiles) (pr_updates p).
Proof.
  unfold Prepare, prepareLocked. intros Hp.
  destruct (sy_enabled s) eqn:He; [|done]. cbn [negb] in Hp.
  destruct (Z.eqb_spec (sy_inflightToken s) 0) as [Hi|Hi]; [|done]. cbn [negb] in Hp.
  destruct (_ && _); [done|]. destruct (sy_packer s) as [packer|] eqn:Hk; [|done].
  destruct (packUpdates _ _ _) as [updates|e] eqn:Hu; [|done]. injection Hp as <- <-.
  split_and!; [done..|]. exists packer. split; [done|].
  eapply Forall2_impl; [by apply packUpdates_elem|]. intros q u (payload & Hpk & ->). eauto.
Qed.

Lemma Prepare_err s c profiles s' e :
  Prepare s c profiles = (s', Err e) ->
  sy_inflightToken s' = sy_inflightToken s /\ sy_enabled s' = sy_enabled s
  /\ sy_subjectID s' = sy_subjectID s /\ sy_version s' = sy_version s
  /\ sy_dirtyMask s' = sy_dirtyMask s /\ sy_fullDirty s' = sy_fullDirty s
  /\ sy_dirtyGeneration s' = sy_dirtyGeneration s /\ sy_packer s' = sy_packer s
  /\ (sy_nextToken s' = sy_nextToken s \/ sy_nextToken s' = u64! (sy_nextToken s + 1)).
Proof.
  unfold Prepare, prepareLocked. intros Hp.
  destruct (sy_enabled s) eqn:He; cbn [negb] in Hp; [|injection Hp as <- _; by auto 10].
  destruct (Z.eqb_spec (sy_inflightToken s) 0) as [Hi|Hi]; cbn [negb] in Hp; [|injection Hp as <- _; by auto 10].
  destruct (_ && _); [injection Hp as <- _; by auto 10|].
  destruct (sy_packer s) as [packer|] eqn:Hk; [|injection Hp as <- _; cbn; by auto 10].
  destruct (packUpdates _ _ _) as [updates|e'] eqn:Hu; [done|]. injection Hp as <- _. cbn.
  rewrite Z.eqb_refl. by auto 10.
Qed.

(** A commit changes the version and clears the marks, or changes neither. *)
Lemma Commit_cases p s p' s' r :
  Prepared_Commit p s = (p', s', r) ->
  (r = Ok tt /\ p' = finish p /\ pr_finished p = false /\ sy_enabled s = true
   /\ sy_inflightToken s = pr_token p /\ sy_version s = pr_baseVersion p
   /\ sy_enabled s' = true /\ sy_version s' = pr_version p /\ sy_inflightToken s' = 0
   /\ (sy_dirtyGeneration s = pr_generation p /\ sy_dirtyMask s' = 0 /\ sy_fullDirty s' = false
       \/ sy_dirtyGeneration s <> pr_generation p /\ sy_dirtyMask s' = sy_dirtyMask s
          /\ sy_fullDirty s' = sy_fullDirty s))
  \/ (is_ok r = false /\ (p' = p \/ p' = finish p) /\ sy_enabled s' = sy_enabled s
      /\ sy_version s' = sy_version s /\ sy_dirtyMask s' = sy_dirtyMask s
      /\ sy_fullDirty s' = sy_fullDirty s).
Proof.
  unfold Prepared_Commit. destruct (pr_finished p); [intros [= <- <- <-]; right; by auto 10|].
  destruct (negb (sy_enabled s) || _ || _) eqn:Hb; [intros [= <- <- <-]; right; by auto 10|].
  intros [= <- <- <-]. bool_to_prop. left. split_and!; [done..|].
  destruct (Z.eqb_spec (sy_dirtyGeneration s) (pr_generation p)); cbn; [left|right]; by auto.
Qed.

(** Nothing but marks changes the generation, by one. *)
Lemma subjectStep_generation s heap e :
  let s' := (subjectStep s heap e).1.1 in
  sy_dirtyGeneration s' = sy_dirtyGeneration s \/ sy_dirtyGeneration s' = u64! (sy_dirtyGeneration s + 1).
Proof.
  destruct e as [mask|reason|packer|nt|c profiles|c profiles reason|i|i cause|]; cbn.
  - unfold MarkDirty. destruct (_ || _); cbn; auto.
  - unfold MarkFullDirty. destruct (negb _); cbn; auto.
  - by left.
  - by left.
  - left. destruct (Prepare s c profiles) as [s' [p|e]] eqn:Hp.
    + by apply Prepare_ok in Hp as (_ & _ & -> & _).
    + cbn. by apply Prepare_err in Hp as (_ & _ & _ & _ & _ & _ & Hg & _).
  - left. unfold CaptureSnapshot. by destruct (if negb _ then _ else _).
  - left. destruct (heap !! i) as [p|]; [|done]. unfold Prepared_Commit.
    destruct (pr_finished p); [done|]. by destruct (_ || _ || _).
  - left. destruct (heap !! i) as [p|]; [|done]. unfold Prepared_AbortWithError.
    destruct (pr_finished p); [done|]. by destruct (negb _).
  - by left.
Qed.

(** An update prepared at generation [g] or later that was committed. *)
Definition told (m g : Z) (committed : list PreparedSubjectSync) : Prop :=
  exists p, p ∈ committed /\ g <= pr_generation p /\ prepared_covers m p.

Record surviving (m g : Z) (s : state) (heap committed : list PreparedSubjectSync) : Prop := {
  su_generation : g <= sy_dirtyGeneration s < 2 ^ 64;
  su_pending : sy_enabled s = true -> pending m s \/ told m g committed;
  su_heap : Forall (fun p => pr_generation p < g \/ prepared_covers m p \/ told m g committed) heap
}.

Lemma told_app_l m g committed more : told m g committed -> told m g (committed ++ more).
Proof. intros (p & Hp & H). exists p. split; [apply elem_of_app; by left|done]. Qed.

Lemma mark_generation s heap e g :
  g <= sy_dirtyGeneration s < 2 ^ 64 - 1 -> 0 <= g ->
  g <= sy_dirtyGeneration (subjectStep s heap e).1.1 < 2 ^ 64
  /\ sy_dirtyGeneration (subjectStep s heap e).1.1 <= sy_dirtyGeneration s + 1.
Proof.
  intros Hg H0. destruct (subjectStep_generation s heap e) as [-> | ->]; [lia|].
  rewrite wrapu_small by (unfold in_u; lia). lia.
Qed.

Lemma prepared_covers_Prepare m s c profiles s' p :
  Prepare s c profiles = (s', Ok p) -> pending m s -> prepared_covers m p.
Proof.
  intros (_ & _ & _ & _ & _ & _ & _ & _ & packer & _ & Hu)%Prepare_ok Hm. split.
  - intros He. rewrite He in Hu. apply Forall2_nil_inv_r in Hu. by apply normalizeSyncProfiles_nonempty in Hu.
  - apply Forall_forall. intros u Hin. apply list_elem_of_lookup in Hin as [i Hi].
    destruct (Forall2_lookup_r _ _ _ _ _ Hu Hi) as (q & _ & reason & payload & _ & ->). exact Hm.
Qed.

(** More commits keep what is known of the prepared updates. *)
Lemma surviving_more m g s heap committed more :
  surviving m g s heap committed -> surviving m g s heap (committed ++ more).
Proof.
  intros [Hg Hp Hh]. split; [done| |].
  - intros He. destruct (Hp He); [by left|right; by apply told_app_l].
  - eapply Forall_impl; [exact Hh|]. intros p [|[|]]; [by left|by right; left|].
    right; right; by apply told_app_l.
Qed.

(** A step that keeps the marks, and may finish a prepared update. *)
Lemma surviving_keeps m g s heap committed s' heap' :
  surviving m g s heap committed ->
  g <= sy_dirtyGeneration s' < 2 ^ 64 ->
  (sy_enabled s' = true -> sy_enabled s = true) ->
  (sy_enabled s' = true -> pending m s -> pending m s') ->
  heap' = heap \/ (exists i p p', heap !! i = Some p /\ (p' = p \/ p' = finish p) /\ heap' = <[i := p']> heap) ->
  surviving m g s' heap' committed.
Proof.
  intros [_ Hp Hh] Hg He Hpd Hheap. split; [done| |].
  - intros Hen. destruct (Hp (He Hen)); [left; by apply Hpd|by right].
  - destruct Hheap as [-> |(i & p & p' & Hi & Hp' & ->)]; [done|]. apply Forall_insert; [done|].
    rewrite Forall_lookup in Hh. specialize (Hh i p Hi). by destruct Hp' as [-> | ->].
Qed.

Lemma commit_surviving m g s heap committed i p p' s' r :
  surviving m g s heap committed -> g <= sy_dirtyGeneration s' < 2 ^ 64 -> heap !! i = Some p ->
  Prepared_Commit p s = (p', s', r) ->
  surviving m g s' (<[i := p']> heap) (committed ++ if is_ok r then [p'] else []).
Proof.
  intros Hsu Hg Hi Hc.
  destruct (Commit_cases _ _ _ _ _ Hc) as [(-> & -> & _ & He & _ & _ & _ & _ & _ & Hd)|(Hr & Hp & He & _ & Hd & Hf)];
    last first.
  { rewrite Hr, app_nil_r. eapply surviving_keeps; [done|done|by rewrite He| |by eauto 10].
    unfold pending. by rewrite Hd, Hf. }
  destruct Hd as [(Hge & _)|(_ & Hd & Hf)]; last first.
  { apply surviving_more. eapply surviving_keeps; [done|done|done| |by eauto 10].
    unfold pending. by rewrite Hd, Hf. }
  (* the update was prepared after the mark *)
  destruct Hsu as [Hgs _ Hh]. assert (Htold : told m g (committed ++ [finish p])).
  { rewrite Forall_lookup in Hh. destruct (Hh i p Hi) as [Hlow|[Hc'|Ht]]; [lia| |by apply told_app_l].
    exists (finish p). split; [apply elem_of_app; right; left|]. split; [cbn; lia|done]. }
  split; [done|by right|]. apply Forall_forall. auto.
Qed.

Lemma subjectStep_surviving m g s heap committed e s' heap' more :
  0 <= g -> sy_dirtyGeneration s < 2 ^ 64 - 1 ->
  surviving m g s heap committed -> subjectStep s heap e = (s', heap', more) ->
  surviving m g s' heap' (committed ++ more).
Proof.
  intros H0 Hlt Hsu Hs. pose proof (su_generation _ _ _ _ _ Hsu) as Hg.
  assert (Hgen := mark_generation s heap e g ltac:(lia) H0). rewrite Hs in Hgen. cbn in Hgen.
  destruct Hgen as [Hgen _].
  assert (Hkeep : more = [] -> heap' = heap -> (sy_enabled s' = true -> sy_enabled s = true) ->
            (sy_enabled s' = true -> pending m s -> pending m s') ->
            surviving m g s' heap' (committed ++ more)).
  { intros -> -> He Hpd. rewrite app_nil_r. eapply surviving_keeps; eauto. }
  destruct e as [mask|reason|packer|nt|c profiles|c profiles reason|i|i cause|]; cbn in Hs.
  - injection Hs as <- <- <-. apply Hkeep; [done|done| |]; unfold MarkDirty; destruct (_ || _); try done.
    intros _ [Hm|Hm]; [by left|right]. by apply land_lor_keeps.
  - injection Hs as <- <- <-. apply Hkeep; [done|done| |]; unfold MarkFullDirty; destruct (negb _); try done.
    by left.
  - injection Hs as <- <- <-. by apply Hkeep.
  - injection Hs as <- <- <-. by apply Hkeep.
  - destruct (Prepare s c profiles) as [s1 [p|e]] eqn:Hprep; injection Hs as <- <- <-.
    + assert (Hok := Hprep). apply Prepare_ok in Hok as (Hen & _ & -> & _).
      destruct Hsu as [_ Hp Hh]. rewrite app_nil_r. split; [done|done|]. apply Forall_app. split; [done|].
      apply Forall_singleton. right. destruct (Hp Hen) as [Hm|Hm]; [left|by right].
      by eapply prepared_covers_Prepare.
    + apply Prepare_err in Hprep as (_ & He & _ & _ & Hd & Hf & _).
      apply Hkeep; [done|done|by rewrite He|]. unfold pending. by rewrite Hd, Hf.
  - injection Hs as <- <- <-. apply Hkeep; [done|done| |]; unfold CaptureSnapshot; by destruct (if negb _ then _ else _).
  - destruct (heap !! i) as [p|] eqn:Hi; [|injection Hs as <- <- <-; by apply Hkeep].
    destruct (Prepared_Commit p s) as [[p1 s1] r] eqn:Hc. injection Hs as <- <- <-.
    by eapply commit_surviving.
  - destruct (heap !! i) as [p|] eqn:Hi; [|injection Hs as <- <- <-; by apply Hkeep].
    unfold Prepared_AbortWithError in Hs.
    destruct (pr_finished p); [|destruct (negb _)]; injection Hs as <- <- <-; rewrite app_nil_r;
      (eapply surviving_keeps; [done|done|done|done|by eauto 10]).
  - injection Hs as <- <- <-. by apply Hkeep.
Qed.

Lemma subjectRun_surviving m g es : forall s heap committed s' heap' more,
  0 <= g -> sy_dirtyGeneration s + Z.of_nat (length es) < 2 ^ 64 ->
  surviving m g s heap committed -> subjectRun s heap es = (s', heap', more) ->
  surviving m g s' heap' (committed ++ more).
Proof.
  induction es as [|e es IH]; intros s heap committed s' heap' more H0 Hlt Hsu Hr.
  { cbn in Hr. injection Hr as <- <- <-. by rewrite app_nil_r. }
  cbn [subjectRun] in Hr. destruct (subjectStep s heap e) as [[s1 heap1] done1] eqn:Hs.
  destruct (subjectRun s1 heap1 es) as [[s2 heap2] rest] eqn:Hrest. injection Hr as <- <- <-.
  pose proof (su_generation _ _ _ _ _ Hsu) as Hg. cbn [length] in Hlt.
  assert (Hgen := mark_generation s heap e g ltac:(lia) H0). rewrite Hs in Hgen. cbn [fst] in Hgen.
  rewrite app_assoc. eapply (IH s1 heap1); [done|lia| |done].
  eapply subjectStep_surviving; [done| |done|done]. lia.
Qed.

(** Prepared updates are not newer than the state and advance the version by one. *)
Definition heap_ok (s : state) (heap : list PreparedSubjectSync) : Prop :=
  0 <= sy_dirtyGeneration s /\ in_u 64 (sy_version s)
  /\ Forall (fun p => pr_generation p <= sy_dirtyGeneration s
                      /\ pr_version p = u64! (pr_baseVersion p + 1)) heap.

(** The committed updates number the versions without gaps. *)
Definition numbered (from : Z) (committed : list PreparedSubjectSync) : Prop :=
  forall i p, committed !! i = Some p ->
  pr_baseVersion p = u64! (from + Z.of_nat i) /\ pr_version p = u64! (from + Z.of_nat i + 1).

Lemma heap_ok_keeps s heap s' heap' :
  heap_ok s heap -> sy_dirtyGeneration s <= sy_dirtyGeneration s' -> in_u 64 (sy_version s') ->
  heap' = heap \/ (exists i p p', heap !! i = Some p /\ (p' = p \/ p' = finish p) /\ heap' = <[i := p']> heap) ->
  heap_ok s' heap'.
Proof.
  intros (H0 & _ & Hh) Hg Hv Hheap. split_and!; [lia|done|].
  assert (Hh' : Forall (fun p => pr_generation p <= sy_dirtyGeneration s'
                                 /\ pr_version p = u64! (pr_baseVersion p + 1)) heap).
  { eapply Forall_impl; [exact Hh|]. intros p [? ?]. split; [lia|done]. }
  destruct Hheap as [-> |(i & p & p' & Hi & Hp' & ->)]; [done|]. apply Forall_insert; [done|].
  rewrite Forall_lookup in Hh'. specialize (Hh' i p Hi). by destruct Hp' as [-> | ->].
Qed.

Lemma subjectStep_heap s heap e s' heap' more :
  sy_dirtyGeneration s < 2 ^ 64 - 1 -> heap_ok s heap -> subjectStep s heap e = (s', heap', more) ->
  heap_ok s' heap' /\ numbered (sy_version s) more
  /\ sy_version s' = match more with [] => sy_version s | _ => u64! (sy_version s + 1) end
  /\ (length more <= 1)%nat.
Proof.
  intros Hlt Hok Hs. pose proof (proj1 (proj2 Hok)) as Hrange.
  assert (Hgen := mark_generation s heap e (sy_dirtyGeneration s) ltac:(lia) (proj1 Hok)).
  rewrite Hs in Hgen. cbn in Hgen. destruct Hgen as [[Hgen _] _].
  assert (Hkeep : more = [] -> heap' = heap -> sy_version s' = sy_version s ->
     heap_ok s' heap' /\ numbered (sy_version s) more
     /\ sy_version s' = match more with [] => sy_version s | _ => u64! (sy_version s + 1) end
     /\ (length more <= 1)%nat).
  { intros -> -> Hv. split_and!; [eapply heap_ok_keeps; eauto; by rewrite Hv| |done|cbn; lia]. intros i p Hi. done. }
  destruct e as [mask|reason|packer|nt|c profiles|c profiles reason|i|i cause|]; cbn in Hs.
  - injection Hs as <- <- <-. apply Hkeep; [done|done|]. unfold MarkDirty. by destruct (_ || _).
  - injection Hs as <- <- <-. apply Hkeep; [done|done|]. unfold MarkFullDirty. by destruct (negb _).
  - injection Hs as <- <- <-. by apply Hkeep.
  - injection Hs as <- <- <-. by apply Hkeep.
  - destruct (Prepare s c profiles) as [s1 [p|e]] eqn:Hprep; injection Hs as <- <- <-.
    + apply Prepare_ok in Hprep as (_ & _ & -> & _ & Hpg & Hb & Hv & _).
      split_and!; [|by intros i q|done|cbn; lia]. destruct Hok as (H0 & Hu & Hh). split_and!; [done|done|].
      apply Forall_app. split; [done|]. apply Forall_singleton. cbn. rewrite Hpg, Hb. split; [lia|done].
    + apply Prepare_err in Hprep as (_ & _ & _ & Hv & _). by apply Hkeep.
  - injection Hs as <- <- <-. apply Hkeep; [done|done|]. unfold CaptureSnapshot. by destruct (if negb _ then _ else _).
  - destruct (heap !! i) as [p|] eqn:Hi; [|injection Hs as <- <- <-; by apply Hkeep].
    destruct (Prepared_Commit p s) as [[p1 s1] r] eqn:Hc. injection Hs as <- <- <-.
    assert (Hpv := proj1 (Forall_lookup _ _) (proj2 (proj2 Hok)) i p Hi). cbn in Hpv. destruct Hpv as [_ Hpv].
    destruct (Commit_cases _ _ _ _ _ Hc) as [(-> & -> & _ & _ & _ & Hb & _ & Hv & _)|(Hr & Hp & _ & Hv & _)].
    + assert (Hu : in_u 64 (sy_version s1)) by (rewrite Hv, Hpv; apply wrapu_range; lia).
      split_and!; [by eapply heap_ok_keeps; eauto 10| |cbn; congruence|cbn; lia].
      intros [|j] q Hq; [|done]. injection Hq as <-. cbn. rewrite Hpv, <-Hb, Z.add_0_r. split; [|done].
      symmetry. apply wrapu_small, Hok.
    + rewrite Hr. split_and!; [eapply heap_ok_keeps; eauto 10; by rewrite Hv|by intros ? ? ?|done|cbn; lia].
  - destruct (heap !! i) as [p|] eqn:Hi; [|injection Hs as <- <- <-; by apply Hkeep].
    unfold Prepared_AbortWithError in Hs.
    destruct (pr_finished p); [|destruct (negb _)]; injection Hs as <- <- <-;
      (split_and!; [eapply heap_ok_keeps; eauto 10; apply Hok|by intros ? ? ?|done|cbn; lia]).
  - injection Hs as <- <- <-. by apply Hkeep.
Qed.

Lemma numbered_cons from p committed :
  numbered from [p] -> numbered (u64! (from + 1)) committed -> numbered from (p :: committed).
Proof.
  intros H1 H2 [|i] q Hq; [by apply (H1 0%nat)|]. destruct (H2 i q Hq) as [-> ->].
  unfold wrapu. rewrite <-!Z.add_assoc, !Z.add_mod_idemp_l by lia. split; f_equal; lia.
Qed.

Lemma subjectRun_heap es : forall s heap s' heap' committed,
  sy_dirtyGeneration s + Z.of_nat (length es) < 2 ^ 64 -> heap_ok s heap ->
  subjectRun s heap es = (s', heap', committed) ->
  heap_ok s' heap' /\ sy_dirtyGeneration s' <= sy_dirtyGeneration s + Z.of_nat (length es)
  /\ numbered (sy_version s) committed /\ sy_version s' = u64! (sy_version s + len committed).
Proof.
  induction es as [|e es IH]; intros s heap s' heap' committed Hlt Hok Hr.
  { cbn in Hr. injection Hr as <- <- <-. split_and!; [done|cbn; lia|by intros ? ?|].
    rewrite len_nil, Z.add_0_r. symmetry. apply wrapu_small, Hok. }
  cbn [subjectRun] in Hr. destruct (subjectStep s heap e) as [[s1 heap1] done1] eqn:Hs.
  destruct (subjectRun s1 heap1 es) as [[s2 heap2] rest] eqn:Hrest. injection Hr as <- <- <-.
  cbn [length] in *.
  destruct (subjectStep_heap s heap e s1 heap1 done1) as (Hok1 & Hn & Hv & Hl); [lia|done|done|].
  assert (Hgen := mark_generation s heap e (sy_dirtyGeneration s) ltac:(lia) (proj1 Hok)).
  rewrite Hs in Hgen. cbn [fst] in Hgen.
  destruct (IH s1 heap1 s2 heap2 rest) as (Hok2 & Hg2 & Hn2 & Hv2); [lia|done|done|].
  split; [done|]. split; [lia|]. rewrite Hv2. destruct done1 as [|p [|q more]]; [|  |cbn in Hl; lia].
  - rewrite Hv in Hn2 |- *. done.
  - cbn [app]. rewrite Hv in Hn2 |- *. split; [by apply numbered_cons|].
    rewrite len_cons. unfold wrapu. rewrite Z.add_mod_idemp_l by lia. f_equal. lia.
Qed.

Lemma subjectRun_closed es : forall s heap s' heap' committed,
  sy_enabled s = false -> subjectRun s heap es = (s', heap', committed) -> sy_enabled s' = false.
Proof.
  induction es as [|e es IH]; intros s heap s' heap' committed Hen Hr; [by injection Hr as <- _ _|].
  cbn [subjectRun] in Hr. destruct (subjectStep s heap e) as [[s1 heap1] done1] eqn:Hs.
  destruct (subjectRun s1 heap1 es) as [[s2 heap2] rest] eqn:Hrest. injection Hr as <- _ _.
  refine (IH s1 _ _ _ _ _ Hrest). clear IH Hrest.
  destruct e as [mask|reason|packer|nt|c profiles|c profiles reason|i|i cause|]; cbn in Hs.
  - injection Hs as <- _ _. unfold MarkDirty. rewrite Hen, orb_true_r. done.
  - injection Hs as <- _ _. unfold MarkFullDirty. by rewrite Hen.
  - by injection Hs as <- _ _.
  - by injection Hs as <- _ _.
  - unfold Prepare, prepareLocked in Hs. rewrite Hen in Hs. by injection Hs as <- _ _.
  - injection Hs as <- _ _. unfold CaptureSnapshot. by rewrite Hen.
  - destruct (heap !! i) as [p|]; [|by injection Hs as <- _ _].
    destruct (Prepared_Commit p s) as [[p1 s'] r] eqn:Hc. injection Hs as <- _ _.
    destruct (Commit_cases _ _ _ _ _ Hc) as [(_ & _ & _ & He & _)|(_ & _ & -> & _)]; congruence.
  - destruct (heap !! i) as [p|]; [|by injection Hs as <- _ _]. unfold Prepared_AbortWithError in Hs.
    by destruct (pr_finished p); [|destruct (negb _)]; injection Hs as <- _ _.
  - by injection Hs as <- _ _.
Qed.

Lemma NewSubjectSyncState_ok id namespace kind packer : heap_ok (NewSubjectSyncState id namespace kind packer) [].
Proof. split_and!; [done|unfold in_u; cbn; lia|constructor]. Qed.

(** Over every sequence of calls, the updates that are committed number the
    content versions from one without gaps or repetitions, each from the version
    before it, whatever was prepared, aborted or committed twice in between. *)
Theorem SubjectSync_versions (id kind : Z) (namespace : string) (packer : option Packer)
    (es : list subjectEvent) (s : state) (heap committed : list PreparedSubjectSync) :
  Z.of_nat (length es) < 2 ^ 64 ->
  subjectRun (NewSubjectSyncState id namespace kind packer) [] es = (s, heap, committed) ->
  sy_version s = u64! (len committed)
  /\ forall i p, committed !! i = Some p ->
     pr_baseVersion p = u64! (Z.of_nat i) /\ pr_version p = u64! (Z.of_nat i + 1).
Proof.
  intros Hlt Hr.
  destruct (subjectRun_heap es (NewSubjectSyncState id namespace kind packer) [] s heap committed)
    as (_ & _ & Hn & Hv); [cbn; lia|apply NewSubjectSyncState_ok|done|].
  split; [exact Hv|]. intros i p Hi. exact (Hn i p Hi).
Qed.

(** A change that was marked is not forgotten: as long as the state is open, its
    bits are still pending, or an update that was prepared after the mark and
    says something about all of them was committed.  Concurrent preparations,
    failures to pack, aborts and stale commits do not lose it. *)
Theorem SubjectSync_mark_survives (id kind mask : Z) (namespace : string) (packer : option Packer)
    (es1 es2 : list subjectEvent) (s1 s2 s3 : state) (heap1 heap3 committed1 committed : list PreparedSubjectSync)
    (notified : bool) :
  Z.of_nat (length es1 + length es2) < 2 ^ 64 - 1 ->
  subjectRun (NewSubjectSyncState id namespace kind packer) [] es1 = (s1, heap1, committed1) ->
  mask <> 0 -> MarkDirty s1 mask = (s2, notified) ->
  subjectRun s2 heap1 es2 = (s3, heap3, committed) -> sy_enabled s3 = true ->
  pending mask s3
  \/ exists p, p ∈ committed /\ sy_dirtyGeneration s2 <= pr_generation p /\ prepared_covers mask p.
Proof.
  intros Hlt Hr1 Hm Hmark Hr2 Hen.
  destruct (subjectRun_heap es1 (NewSubjectSyncState id namespace kind packer) [] s1 heap1 committed1)
    as ((H0 & Hu & Hh) & Hg & _); [cbn; lia|apply NewSubjectSyncState_ok|done|].
  cbn [sy_dirtyGeneration NewSubjectSyncState] in Hg.
  unfold MarkDirty in Hmark. destruct (Z.eqb_spec mask 0) as [|_]; [done|]. cbn [orb] in Hmark.
  assert (Hgen : wrapu 64 (sy_dirtyGeneration s1 + 1) = sy_dirtyGeneration s1 + 1)
    by (apply wrapu_small; unfold in_u; lia).
  destruct (sy_enabled s1) eqn:He1; cbn [negb] in Hmark; injection Hmark as <- _; last first.
  - (* a closed state stays closed *)
    by rewrite (subjectRun_closed es2 _ _ _ _ _ He1 Hr2) in Hen.
  - assert (Hsu : surviving mask (sy_dirtyGeneration s1 + 1)
      (mkSync (sy_enabled s1) (sy_subjectID s1) (sy_namespace s1) (sy_subjectKind s1) (sy_version s1)
        (Z.lor (sy_dirtyMask s1) mask) (sy_fullDirty s1) (sy_fullReason s1) (u64! (sy_dirtyGeneration s1 + 1))
        (sy_packer s1) (sy_dirtyNotifier s1) (sy_nextToken s1) (sy_inflightToken s1) (sy_lastError s1)) heap1 []).
    { split; cbn; [rewrite Hgen; lia| |].
      - intros _. left. right. cbn. rewrite Z.lor_comm. apply land_lor_keeps, Z.land_diag.
      - eapply Forall_impl; [exact Hh|]. intros p [Hp _]. left. lia. }
    rewrite <-He1 in Hr2. cbn [sy_dirtyGeneration]. rewrite Hgen.
    eapply subjectRun_surviving in Hr2 as [_ Hp _]; [|shelve|shelve|exact Hsu]. by apply Hp.
    Unshelve. all: cbn [sy_dirtyGeneration]; lia.
Qed.


End State.

Arguments subjectEvent : clear implicits.

(** ** Samples *)

(** An entity with two flags, packed as two bytes. *)
Definition flagByte (b : bool) : Byte.byte := if b then Byte.x01 else Byte.x00.

Definition sample_packer : SubjectSyncPackFunc (bool * bool) :=
  mkPackFunc (Some (fun c _ => Ok (mkFrozen 1 [flagByte c.1; flagByte c.2])))
             (Some (fun c _ _ => Ok (mkFrozen 1 [flagByte c.1; flagByte c.2]))).

(** The first update is prepared, and commits after the second mark. *)
Definition sample_calls : list (subjectEvent (SubjectSyncPackFunc (bool * bool)) (bool * bool)) :=
  [SeCommit 0%nat; SePrepare (true, true) []; SeCommit 0%nat; SeCommit 1%nat].

Definition sample_before : list (subjectEvent (SubjectSyncPackFunc (bool * bool)) (bool * bool)) :=
  [SeMarkDirty 1; SePrepare (true, false) []].

Definition sample_new : SubjectSyncState (SubjectSyncPackFunc (bool * bool)) :=
  NewSubjectSyncState 7 "npc" 3 (Some sample_packer).

Lemma SubjectSync_versions_witness :
  sy_version (subjectRun sample_new [] (sample_before ++ SeMarkDirty 2 :: sample_calls)).1.1 = 2.
Proof.
  destruct (subjectRun sample_new [] (sample_before ++ SeMarkDirty 2 :: sample_calls))
    as [[s heap] committed] eqn:Hr.
  destruct (SubjectSync_versions 7 3 "npc" (Some sample_packer)
              (sample_before ++ SeMarkDirty 2 :: sample_calls) s heap committed) as [Hv _];
    [cbn; lia|exact Hr|].
  assert (Hc : committed = (s, heap, committed).2) by reflexivity.
  cbn [fst]. rewrite Hv, Hc, <-Hr. vm_compute. reflexivity.
Defined.

Lemma SubjectSync_mark_survives_witness :
  let '(s1, heap1, _) := subjectRun sample_new [] sample_before in
  let '(s2, _) := MarkDirty s1 2 in
  let '(s3, _, committed) := subjectRun s2 heap1 sample_calls in
  pending 2 s3
  \/ exists p, p ∈ committed /\ sy_dirtyGeneration s2 <= pr_generation p /\ prepared_covers 2 p.
Proof.
  destruct (subjectRun sample_new [] sample_before) as [[s1 heap1] committed1] eqn:H1.
  destruct (MarkDirty s1 2) as [s2 notified] eqn:H2.
  destruct (subjectRun s2 heap1 sample_calls) as [[s3 heap3] committed] eqn:H3.
  refine (SubjectSync_mark_survives 7 3 2 "npc" (Some sample_packer) sample_before sample_calls
            s1 s2 s3 heap1 heap3 committed1 committed notified _ H1 _ H2 H3 _).
  - cbn. lia.
  - lia.
  - assert (Hs1 : s1 = (subjectRun sample_new [] sample_before).1.1) by (rewrite H1; reflexivity).
    assert (Hh1 : heap1 = (subjectRun sample_new [] sample_before).1.2) by (rewrite H1; reflexivity).
    assert (Hs2 : s2 = (MarkDirty s1 2).1) by (rewrite H2; reflexivity).
    assert (Hs3 : s3 = (subjectRun s2 heap1 sample_calls).1.1) by (rewrite H3; reflexivity).
    rewrite Hs3, Hs2, Hs1, Hh1. vm_compute. reflexivity.
Defined.
