(* ===== verification/Subscription.v ===== *)
(** * Subscriptions to synchronised entities

    [src/entitysync/subscription.go]: the coordinator keeps who observes which
    entity under which profile, sends a snapshot on entry, a leave message on
    exit, and distributes prepared updates to all subscribers before it commits
    them.  The sink that admits messages is outside code: it answers from a
    script, and a batch is admitted as a whole or not at all, which its contract
    demands.  Calls for one subject are serialised by a lock; the state of the
    entity is read or changed at one point of each call, so a call is one step. *)

From stdpp Require Import base list gmap strings sorting.
From Stdlib Require Import ZArith Lia.
From Stdlib Require Strings.Byte.
From S2P Require Import Prelude SubjectSync.

Local Open Scope Z_scope.

(** ** Data *)

Definition SubscriberKindNone : Z := 0.
Definition SubscriberKindPlayer : Z := 1.

Record SubscriberRef := mkSubscriber { sr_Kind : Z; sr_ID : Z; sr_Sid : Z; sr_Key : string }.

#[export] Instance SubscriberRef_eq_dec : EqDecision SubscriberRef.
Proof. solve_decision. Defined.

#[export] Instance SubscriberRef_countable : Countable SubscriberRef.
Proof.
  refine (inj_countable' (fun r => (sr_Kind r, sr_ID r, sr_Sid r, sr_Key r))
            (fun '(a, b, c, d) => mkSubscriber a b c d) _).
  by intros [].
Defined.

Definition SubscriberRef_Normalize (r : SubscriberRef) : SubscriberRef :=
  if (sr_Kind r =? SubscriberKindNone) && negb (sr_ID r =? 0)
  then mkSubscriber SubscriberKindPlayer (sr_ID r) (sr_Sid r) (sr_Key r) else r.

Definition SubscriberRef_Empty (r : SubscriberRef) : bool :=
  let r := SubscriberRef_Normalize r in
  (sr_Kind r =? SubscriberKindNone)
  || ((sr_ID r =? 0) && (sr_Sid r =? 0) && bool_decide (sr_Key r = ""%string)).

Inductive SubscriptionState := SubscriptionPending | SubscriptionActive | SubscriptionClosing.

#[export] Instance SubscriptionState_eq_dec : EqDecision SubscriptionState.
Proof. solve_decision. Defined.

Record Subscription := mkSubscription {
  sb_Subscriber : SubscriberRef;
  sb_SubjectID : Z;
  sb_Namespace : string;
  sb_SubjectKind : Z;
  sb_Profile : SyncProfile;
  sb_State : SubscriptionState;
  sb_ContentVersion : Z;
  sb_Revision : Z
}.

Inductive EnvelopeKind := EnvelopeSnapshot | EnvelopeDelta | EnvelopeLeave.

Record DeliveryEnvelope := mkEnvelope {
  de_Subscriber : SubscriberRef;
  de_Kind : EnvelopeKind;
  de_Update : SubjectSyncUpdate
}.

Definition subscriptionKey := (SubscriberRef * Z)%type.

Record SubscriptionCoordinator := mkCoordinator {
  co_sink : bool;
  co_subscriptions : gmap (SubscriberRef * Z) Subscription;
  co_revision : Z
}.

Definition NewSubscriptionCoordinator (sink : bool) : SubscriptionCoordinator := mkCoordinator sink ∅ 0.

Definition SetSink (c : SubscriptionCoordinator) (sink : bool) : SubscriptionCoordinator :=
  mkCoordinator sink (co_subscriptions c) (co_revision c).

(** The answers of the sink to come, and what it has admitted so far. *)
Record sinkIO := mkIO { io_answers : list bool; io_delivered : list DeliveryEnvelope }.

(** A cancelled context and a panic of the sink are refusals. *)
Definition admitEnvelopes (sink : bool) (io : sinkIO) (envelopes : list DeliveryEnvelope)
    : sinkIO * result syncError unit :=
  if negb sink then (io, Err ErrEnvelopeSinkRequired) else
  match io_answers io with
  | true :: answers => (mkIO answers (io_delivered io ++ envelopes), Ok tt)
  | false :: answers => (mkIO answers (io_delivered io), Err ErrEnvelopeAdmission)
  | [] => (io, Err ErrEnvelopeAdmission)
  end.

(** ** Helpers *)

(** The mutex of a subject, of 64. *)
Definition subjectOp (subjectID : Z) : Z :=
  let idx := u64! subjectID in
  let idx := Z.lxor idx (Z.shiftr idx 33) in
  let idx := u64! (idx * 0xff51afd7ed558ccd) in
  let idx := Z.lxor idx (Z.shiftr idx 33) in
  idx mod 64.

Definition put (c : SubscriptionCoordinator) (key : subscriptionKey) (s : Subscription)
    : SubscriptionCoordinator :=
  mkCoordinator (co_sink c) (<[key := s]> (co_subscriptions c)) (co_revision c).

Definition drop_key (c : SubscriptionCoordinator) (key : subscriptionKey) : SubscriptionCoordinator :=
  mkCoordinator (co_sink c) (delete key (co_subscriptions c)) (co_revision c).

Definition nextRevision (c : SubscriptionCoordinator) : SubscriptionCoordinator * Z :=
  let revision := u64! (co_revision c + 1) in
  (mkCoordinator (co_sink c) (co_subscriptions c) revision, revision).

Definition rollbackSubscription (c : SubscriptionCoordinator) (key : subscriptionKey)
    (previous : option Subscription) : SubscriptionCoordinator :=
  match previous with
  | Some s => put c key s
  | None => drop_key c key
  end.

Definition set_state (s : Subscription) (state : SubscriptionState) (revision version : Z) : Subscription :=
  mkSubscription (sb_Subscriber s) (sb_SubjectID s) (sb_Namespace s) (sb_SubjectKind s) (sb_Profile s)
    state version revision.

Definition restoreActive (c : SubscriptionCoordinator) (key : subscriptionKey) (s : Subscription)
    : SubscriptionCoordinator :=
  put c key (set_state s SubscriptionActive (sb_Revision s) (sb_ContentVersion s)).

Definition is_active (s : Subscription) : bool := bool_decide (sb_State s = SubscriptionActive).

Definition subscriber_less (a b : SubscriberRef) : bool :=
  if negb (sr_Kind a =? sr_Kind b) then sr_Kind a <? sr_Kind b
  else if negb (sr_ID a =? sr_ID b) then sr_ID a <? sr_ID b
  else if negb (sr_Sid a =? sr_Sid b) then sr_Sid a <? sr_Sid b
  else String.ltb (sr_Key a) (sr_Key b).

Definition sortSubscriptions (subs : list Subscription) : list Subscription :=
  sort_slice (fun a b => subscriber_less (SubscriberRef_Normalize (sb_Subscriber a))
                           (SubscriberRef_Normalize (sb_Subscriber b))) subs.

(** The active subscriptions of a subject. *)
Definition Subscribers (c : SubscriptionCoordinator) (subjectID : Z) : list Subscription :=
  if subjectID =? 0 then [] else
  sortSubscriptions (filter (fun s => sb_SubjectID s = subjectID /\ is_active s = true)
                       (map_to_list (co_subscriptions c)).*2).

Definition Profiles (c : SubscriptionCoordinator) (subjectID : Z) : list SyncProfile :=
  sort_slice profile_less
    (elements (list_to_set (C := gset SyncProfile)
                 ((fun s => SyncProfile_Normalize (sb_Profile s)) <$> Subscribers c subjectID))).

Definition Coordinator_Get (c : SubscriptionCoordinator) (subscriber : SubscriberRef) (subjectID : Z)
    : option Subscription :=
  co_subscriptions c !! (SubscriberRef_Normalize subscriber, subjectID).

(** The subscription that makes a repeated [Subscribe] return early. *)
Definition alreadyActive (existing : option Subscription) (profile : SyncProfile) : option Subscription :=
  match existing with
  | Some e => if is_active e && bool_decide (sb_Profile e = profile) then Some e else None
  | None => None
  end.

(** The check that nobody changed the subscription during the admission. *)
Definition still (current : option Subscription) (revision : Z) (state : SubscriptionState) : bool :=
  match current with
  | Some s => (sb_Revision s =? revision) && bool_decide (sb_State s = state)
  | None => false
  end.

Section Coordinator.
Context {Packer Content : Type} `{!SubjectSyncPacker Packer Content}.

Abbreviation state := (SubjectSyncState Packer).

(** ** Operations *)

Definition Subscribe (c : SubscriptionCoordinator) (subscriber : SubscriberRef) (s : state)
    (content : Content) (profile : SyncProfile) (io : sinkIO)
    : SubscriptionCoordinator * state * sinkIO * result syncError Subscription :=
  let subscriber := SubscriberRef_Normalize subscriber in
  if SubscriberRef_Empty subscriber then (c, s, io, Err ErrSubscriberInvalid) else
  if sy_subjectID s =? 0 then (c, s, io, Err ErrSubscriptionSubject) else
  let profile := SyncProfile_Normalize profile in
  let subjectID := sy_subjectID s in
  let key := (subscriber, subjectID) in
  let existing := co_subscriptions c !! key in
  match alreadyActive existing profile with
  | Some e => (c, s, io, Ok e)
  | None =>
      let '(c, revision) := nextRevision c in
      let pending := mkSubscription subscriber subjectID (sy_namespace s) (sy_subjectKind s) profile
                       SubscriptionPending 0 revision in
      let c := put c key pending in
      if negb (co_sink c) then (rollbackSubscription c key existing, s, io, Err ErrEnvelopeSinkRequired) else
      match CaptureSnapshot s content [profile] SyncFullReasonResync with
      | (s, Err e) => (rollbackSubscription c key existing, s, io, Err e)
      | (s, Ok [update]) =>
          match admitEnvelopes (co_sink c) io [mkEnvelope subscriber EnvelopeSnapshot update] with
          | (io, Err _) => (rollbackSubscription c key existing, s, io, Err ErrEnvelopeAdmission)
          | (io, Ok _) =>
              let active := set_state pending SubscriptionActive revision (up_Version update) in
              if still (co_subscriptions c !! key) revision SubscriptionPending
              then (put c key active, s, io, Ok active)
              else (c, s, io, Err ErrSubscriptionState)
          end
      | (s, Ok _) => (rollbackSubscription c key existing, s, io, Err ErrPreparedProfilesMissing)
      end
  end.

Definition Unsubscribe (c : SubscriptionCoordinator) (subscriber : SubscriberRef) (subjectID : Z)
    (io : sinkIO) : SubscriptionCoordinator * sinkIO * result syncError unit :=
  let subscriber := SubscriberRef_Normalize subscriber in
  if SubscriberRef_Empty subscriber then (c, io, Err ErrSubscriberInvalid) else
  if subjectID =? 0 then (c, io, Err ErrSubscriptionSubject) else
  let key := (subscriber, subjectID) in
  match co_subscriptions c !! key with
  | None => (c, io, Err ErrSubscriptionNotFound)
  | Some current =>
      if negb (is_active current) then (c, io, Err ErrSubscriptionState) else
      let '(c, revision) := nextRevision c in
      let current := set_state current SubscriptionClosing revision (sb_ContentVersion current) in
      let c := put c key current in
      if negb (co_sink c) then (restoreActive c key current, io, Err ErrEnvelopeSinkRequired) else
      let leave := mkEnvelope subscriber EnvelopeLeave
        (mkUpdate subjectID (sb_Namespace current) (sb_SubjectKind current) (sb_Profile current)
           (sb_ContentVersion current) (sb_ContentVersion current) 0 false 0 (mkFrozen 0 [])) in
      match admitEnvelopes (co_sink c) io [leave] with
      | (io, Err _) => (restoreActive c key current, io, Err ErrEnvelopeAdmission)
      | (io, Ok _) =>
          (if still (co_subscriptions c !! key) revision SubscriptionClosing then drop_key c key else c,
           io, Ok tt)
      end
  end.

(** The updates by profile; one of another subject is an error. *)
Fixpoint indexUpdates (subjectID : Z) (updates : list SubjectSyncUpdate)
    (byProfile : gmap SyncProfile SubjectSyncUpdate) : option (gmap SyncProfile SubjectSyncUpdate) :=
  match updates with
  | [] => Some byProfile
  | update :: updates =>
      if negb (up_SubjectID update =? subjectID) then None
      else indexUpdates subjectID updates (<[SyncProfile_Normalize (up_Profile update) := update]> byProfile)
  end.

(** The message for every subscription, or an error when a profile is missing. *)
Fixpoint buildEnvelopes (byProfile : gmap SyncProfile SubjectSyncUpdate) (subs : list Subscription)
    : option (list DeliveryEnvelope) :=
  match subs with
  | [] => Some []
  | sub :: subs =>
      update ← byProfile !! SyncProfile_Normalize (sb_Profile sub);
      rest ← buildEnvelopes byProfile subs;
      Some (mkEnvelope (sb_Subscriber sub) (if up_Full update then EnvelopeSnapshot else EnvelopeDelta) update
            :: rest)
  end.

(** The content versions of the subscriptions that did not change meanwhile. *)
Fixpoint advanceVersions (c : SubscriptionCoordinator) (subjectID version : Z) (subs : list Subscription)
    : SubscriptionCoordinator :=
  match subs with
  | [] => c
  | sub :: subs =>
      let key := (sb_Subscriber sub, subjectID) in
      let c := match co_subscriptions c !! key with
               | Some current =>
                   if is_active current && (sb_Revision current =? sb_Revision sub)
                   then put c key (set_state current (sb_State current) (sb_Revision current) version)
                   else c
               | None => c
               end in
      advanceVersions c subjectID version subs
  end.

(** [s] is the state the update was prepared from. *)
Definition Distribute (c : SubscriptionCoordinator) (p : PreparedSubjectSync) (s : state) (io : sinkIO)
    : SubscriptionCoordinator * PreparedSubjectSync * state * sinkIO * result syncError unit :=
  let abort err := let '(p, s, _) := Prepared_AbortWithError p s (Some err) in (c, p, s, io, Err err) in
  match pr_updates p with
  | [] => abort ErrSubscriptionSubject
  | first :: _ =>
      if up_SubjectID first =? 0 then abort ErrSubscriptionSubject else
      let subjectID := up_SubjectID first in
      match indexUpdates subjectID (pr_updates p) ∅ with
      | None => abort ErrSubscriptionSubject
      | Some byProfile =>
          let subs := sortSubscriptions
            (filter (fun s => sb_SubjectID s = subjectID /\ is_active s = true)
               (map_to_list (co_subscriptions c)).*2) in
          if negb (len subs =? 0) && negb (co_sink c) then abort ErrEnvelopeSinkRequired else
          match buildEnvelopes byProfile subs with
          | None => abort ErrPreparedProfilesMissing
          | Some envelopes =>
              let '(io, admitted) :=
                match envelopes with
                | [] => (io, Ok tt)
                | _ => admitEnvelopes (co_sink c) io envelopes
                end in
              match admitted with
              | Err _ =>
                  let '(p, s, _) := Prepared_AbortWithError p s (Some ErrEnvelopeAdmission) in
                  (c, p, s, io, Err ErrEnvelopeAdmission)
              | Ok _ =>
                  match Prepared_Commit p s with
                  | (p, s, Err e) => (c, p, s, io, Err e)
                  | (p, s, Ok _) => (advanceVersions c subjectID (pr_version p) subs, p, s, io, Ok tt)
                  end
              end
          end
      end
  end.

Definition FlushSubject (c : SubscriptionCoordinator) (s : state) (content : Content) (io : sinkIO)
    : SubscriptionCoordinator * state * sinkIO * result syncError unit :=
  if sy_subjectID s =? 0 then (c, s, io, Err ErrSubscriptionSubject) else
  match Prepare s content (Profiles c (sy_subjectID s)) with
  | (s, Err ErrSubjectSyncNotDirty) => (c, s, io, Ok tt)
  | (s, Err e) => (c, s, io, Err e)
  | (s, Ok p) => let '(c, _, s, io, r) := Distribute c p s io in (c, s, io, r)
  end.

(** ** A system of entities and subscribers *)

(** An entity, its content, and the update that is on its way, if any. *)
Record subject := mkSubject {
  sj_state : state;
  sj_content : Content;
  sj_prepared : option PreparedSubjectSync
}.

Record world := mkSyncWorld {
  w_coordinator : SubscriptionCoordinator;
  w_subjects : gmap Z subject;
  w_io : sinkIO
}.

(** A change of the content marks what it changed, under the lock of the entity;
    a flush is a preparation and a distribution, and anything may happen in
    between. *)
Inductive syncEvent :=
  | EvChange (id : Z) (content : Content) (mask : Z)
  | EvChangeAll (id : Z) (content : Content) (reason : Z)
  | EvSetPacker (id : Z) (packer : option Packer)
  | EvSetSink (sink : bool)
  | EvSubscribe (subscriber : SubscriberRef) (id : Z) (profile : SyncProfile)
  | EvUnsubscribe (subscriber : SubscriberRef) (id : Z)
  | EvPrepare (id : Z) (profiles : list SyncProfile)
  | EvDistribute (id : Z)
  | EvAbort (id : Z) (cause : option syncError)
  | EvClose (id : Z).

Definition set_subject (w : world) (id : Z) (sj : subject) : world :=
  mkSyncWorld (w_coordinator w) (<[id := sj]> (w_subjects w)) (w_io w).

Definition syncStep (w : world) (e : syncEvent) : world :=
  let on id (f : subject -> world) := match w_subjects w !! id with Some sj => f sj | None => w end in
  match e with
  | EvChange id content mask => on id (fun sj =>
      set_subject w id (mkSubject (MarkDirty (sj_state sj) mask).1 content (sj_prepared sj)))
  | EvChangeAll id content reason => on id (fun sj =>
      set_subject w id (mkSubject (MarkFullDirty (sj_state sj) reason).1 content (sj_prepared sj)))
  | EvSetPacker id packer => on id (fun sj =>
      set_subject w id (mkSubject (SetPacker (sj_state sj) packer) (sj_content sj) (sj_prepared sj)))
  | EvSetSink sink => mkSyncWorld (SetSink (w_coordinator w) sink) (w_subjects w) (w_io w)
  | EvSubscribe subscriber id profile => on id (fun sj =>
      let '(c, s, io, _) := Subscribe (w_coordinator w) subscriber (sj_state sj) (sj_content sj) profile (w_io w) in
      mkSyncWorld c (<[id := mkSubject s (sj_content sj) (sj_prepared sj)]> (w_subjects w)) io)
  | EvUnsubscribe subscriber id =>
      let '(c, io, _) := Unsubscribe (w_coordinator w) subscriber id (w_io w) in
      mkSyncWorld c (w_subjects w) io
  | EvPrepare id profiles => on id (fun sj =>
      match Prepare (sj_state sj) (sj_content sj) profiles with
      | (s, Ok p) => set_subject w id (mkSubject s (sj_content sj) (Some p))
      | (s, Err _) => set_subject w id (mkSubject s (sj_content sj) (sj_prepared sj))
      end)
  | EvDistribute id => on id (fun sj =>
      match sj_prepared sj with
      | None => w
      | Some p =>
          let '(c, _, s, io, _) := Distribute (w_coordinator w) p (sj_state sj) (w_io w) in
          mkSyncWorld c (<[id := mkSubject s (sj_content sj) None]> (w_subjects w)) io
      end)
  | EvAbort id cause => on id (fun sj =>
      match sj_prepared sj with
      | None => w
      | Some p => set_subject w id
          (mkSubject (Prepared_AbortWithError p (sj_state sj) cause).1.2 (sj_content sj) None)
      end)
  | EvClose id => on id (fun sj =>
      set_subject w id (mkSubject (Close (sj_state sj)) (sj_content sj) (sj_prepared sj)))
  end.

End Coordinator.

Arguments subject : clear implicits.
Arguments world : clear implicits.
Arguments syncEvent : clear implicits.

(** ** Subscribers *)

(** What a subscriber can read: a content has parts, one per bit of the mask,
    as a profile shows them.  A snapshot shows all parts, a delta those of its
    mask.  A packer does not fail with the error that means there is nothing to
    send. *)
Class SyncReader (Packer Content V : Type) `{!SubjectSyncPacker Packer Content} := {
  part : SyncProfile -> Content -> Z -> V;
  readSnapshot : SyncProfile -> FrozenSyncPayload -> Z -> V;
  readDelta : SyncProfile -> Z -> FrozenSyncPayload -> Z -> V;
  lawful : Packer -> Prop;
  read_snapshot k c q x i : lawful k -> PackSubjectSnapshot k c q = Ok x -> 0 <= i < 64 ->
    readSnapshot q x i = part q c i;
  read_delta k c q m x i : lawful k -> PackSubjectDelta k c q m = Ok x -> 0 <= i < 64 ->
    Z.testbit m i = true -> readDelta q m x i = part q c i;
  snapshot_error k c q : lawful k -> PackSubjectSnapshot k c q <> Err ErrSubjectSyncNotDirty;
  delta_error k c q m : lawful k -> PackSubjectDelta k c q m <> Err ErrSubjectSyncNotDirty
}.

Section Replicas.
Context {Packer Content V : Type} `{!SubjectSyncPacker Packer Content} `{!SyncReader Packer Content V}.

Abbreviation state := (SubjectSyncState Packer).

(** What a subscriber knows of a subject.  A delta that does not continue the
    version the subscriber has is useless to it. *)
Inductive replica :=
  | Absent
  | Replica (version : Z) (view : Z -> V)
  | Desynchronised.

Definition receive (r : replica) (e : DeliveryEnvelope) : replica :=
  let u := de_Update e in
  match de_Kind e with
  | EnvelopeLeave => Absent
  | EnvelopeSnapshot => Replica (up_Version u) (readSnapshot (up_Profile u) (up_Payload u))
  | EnvelopeDelta =>
      match r with
      | Replica version view =>
          if version =? up_BaseVersion u then
            Replica (up_Version u)
              (fun i => if Z.testbit (up_Mask u) i
                        then readDelta (up_Profile u) (up_Mask u) (up_Payload u) i else view i)
          else Desynchronised
      | _ => Desynchronised
      end
  end.

Definition addressed (subscriber : SubscriberRef) (id : Z) (e : DeliveryEnvelope) : Prop :=
  de_Subscriber e = subscriber /\ up_SubjectID (de_Update e) = id.

#[local] Instance addressed_dec subscriber id e : Decision (addressed subscriber id e).
Proof. unfold addressed. apply _. Defined.

(** The replica after all admitted messages, in the order of admission. *)
Definition replicaOf (delivered : list DeliveryEnvelope) (subscriber : SubscriberRef) (id : Z) : replica :=
  foldl receive Absent (filter (addressed subscriber id) delivered).

(** The parts that are not dirty are shown as they are. *)
Definition shows (s : state) (c : Content) (q : SyncProfile) (view : Z -> V) : Prop :=
  sy_fullDirty s = false -> forall i, 0 <= i < 64 -> Z.testbit (sy_dirtyMask s) i = false ->
  view i = part q c i.

(** ** Invariant *)

(** The update on its way: what it was packed from, and what has been marked since. *)
Record prepared_ok (id : Z) (s : state) (c : Content) (p : PreparedSubjectSync)
    (k : Packer) (c0 : Content) (m : Z) (full : bool) : Prop := {
  po_unfinished : pr_finished p = false;
  po_token : sy_inflightToken s = pr_token p;
  po_base : pr_baseVersion p = sy_version s;
  po_lawful : lawful k;
  po_updates : Forall (fun u =>
      up_Version u = pr_version p /\ up_BaseVersion u = sy_version s
      /\ up_Full u = full /\ up_Mask u = m
      /\ (if full then PackSubjectSnapshot k c0 (up_Profile u)
          else PackSubjectDelta k c0 (up_Profile u) m) = Ok (up_Payload u)) (pr_updates p);
  po_full : full = true -> sy_fullDirty s = true;
  po_mask : full = false -> sy_fullDirty s = true \/ Z.land m (sy_dirtyMask s) = m;
  po_old : pr_generation p <= sy_dirtyGeneration s;
  po_same : pr_generation p = sy_dirtyGeneration s ->
    full = sy_fullDirty s /\ m = sy_dirtyMask s
    /\ forall q i, 0 <= i < 64 -> part q c i = part q c0 i
}.

Record state_ok (n : Z) (id : Z) (s : state) (c : Content) (op : option PreparedSubjectSync) : Prop := {
  so_id : sy_subjectID s = id;
  so_packer : forall k, sy_packer s = Some k -> lawful k;
  so_generation : 0 <= sy_dirtyGeneration s <= n;
  so_updates : forall p, op = Some p -> Forall (fun u =>
      up_SubjectID u = id /\ SyncProfile_Normalize (up_Profile u) = up_Profile u) (pr_updates p);
  so_prepared : forall p, op = Some p -> sy_enabled s = true ->
    exists k c0 m full, prepared_ok id s c p k c0 m full
}.

(** What the coordinator knows of a subscriber, and what the subscriber has. *)
Definition subscription_ok (id : Z) (s : state) (c : Content) (delivered : list DeliveryEnvelope)
    (r : SubscriberRef) (entry : option Subscription) : Prop :=
  match entry with
  | None => replicaOf delivered r id = Absent
  | Some sub =>
      sb_Subscriber sub = r /\ sb_SubjectID sub = id /\ sb_State sub = SubscriptionActive
      /\ SyncProfile_Normalize (sb_Profile sub) = sb_Profile sub
      /\ (sy_enabled s = true ->
          sb_ContentVersion sub = sy_version s
          /\ exists view, replicaOf delivered r id = Replica (sy_version s) view
              /\ shows s c (sb_Profile sub) view)
  end.

Definition subject_ok (n id : Z) (subs : gmap (SubscriberRef * Z) Subscription)
    (delivered : list DeliveryEnvelope) (sj : subject Packer Content) : Prop :=
  state_ok n id (sj_state sj) (sj_content sj) (sj_prepared sj)
  /\ forall r, subscription_ok id (sj_state sj) (sj_content sj) delivered r (subs !! (r, id)).

Definition world_ok (n : Z) (w : world Packer Content) : Prop :=
  (forall id sj, w_subjects w !! id = Some sj ->
     subject_ok n id (co_subscriptions (w_coordinator w)) (io_delivered (w_io w)) sj)
  /\ (forall r id, w_subjects w !! id = None -> co_subscriptions (w_coordinator w) !! (r, id) = None).

(** ** Lemmas: replicas *)

Lemma replicaOf_app delivered more r id :
  replicaOf (delivered ++ more) r id
  = foldl receive (replicaOf delivered r id) (filter (addressed r id) more).
Proof. unfold replicaOf. by rewrite filter_app, foldl_app. Qed.

(** Messages about other subjects do not matter. *)
Lemma replicaOf_other delivered more r id :
  Forall (fun e => up_SubjectID (de_Update e) <> id) more ->
  replicaOf (delivered ++ more) r id = replicaOf delivered r id.
Proof.
  intros Hm. rewrite replicaOf_app. induction Hm as [|e more He Hm IH]; [done|].
  rewrite filter_cons, decide_False; [done|]. by intros [_ ?].
Qed.

(** What one call does to the rest of the world: subscriptions and messages of
    other subjects are not touched. *)
Definition touches_only (id : Z) (c c' : SubscriptionCoordinator) (io io' : sinkIO) : Prop :=
  (forall r id', id' <> id -> co_subscriptions c' !! (r, id') = co_subscriptions c !! (r, id'))
  /\ exists more, io_delivered io' = io_delivered io ++ more
                  /\ Forall (fun e => up_SubjectID (de_Update e) = id) more.

Lemma subject_ok_frame n id id' c c' io io' sj :
  touches_only id c c' io io' -> id' <> id ->
  subject_ok n id' (co_subscriptions c) (io_delivered io) sj ->
  subject_ok n id' (co_subscriptions c') (io_delivered io') sj.
Proof.
  intros [Hc (more & Hd & Hm)] Hid [Hs Hr]. split; [done|]. intros r. rewrite Hc by done.
  specialize (Hr r). unfold subscription_ok in *.
  rewrite Hd, replicaOf_other; [done|]. eapply Forall_impl; [exact Hm|]. intros e ->. done.
Qed.
(** ** Lemmas: the state of an entity *)

(** A change that leaves the parts outside a mask alone. *)
Definition within (mask : Z) (c c' : Content) : Prop :=
  forall q i, 0 <= i < 64 -> Z.testbit mask i = false -> part q c' i = part q c i.

Lemma subscription_ok_keeps id s c s' c' delivered r entry :
  (sy_enabled s' = true -> sy_enabled s = true /\ sy_version s' = sy_version s
     /\ forall q view, shows s c q view -> shows s' c' q view) ->
  subscription_ok id s c delivered r entry -> subscription_ok id s' c' delivered r entry.
Proof.
  intros Hk. destruct entry as [sub|]; [|done]. cbn. intros (H1 & H2 & H3 & H4 & H5).
  split_and!; [done..|]. intros He. destruct (Hk He) as (He' & -> & Hs).
  destruct (H5 He') as (Hv & view & Hr & Hsh). split; [done|]. exists view. auto.
Qed.

(** The fields that matter here are the same. *)
Definition same_sync (s s' : state) : Prop :=
  sy_inflightToken s' = sy_inflightToken s /\ sy_enabled s' = sy_enabled s
  /\ sy_subjectID s' = sy_subjectID s /\ sy_version s' = sy_version s
  /\ sy_dirtyMask s' = sy_dirtyMask s /\ sy_fullDirty s' = sy_fullDirty s
  /\ sy_dirtyGeneration s' = sy_dirtyGeneration s /\ sy_packer s' = sy_packer s.

Lemma state_ok_same n id s s' c op : same_sync s s' -> state_ok n id s c op -> state_ok n id s' c op.
Proof.
  intros (E1 & E2 & E3 & E4 & E5 & E6 & E7 & E8) [H1 H2 H3 H0 H4].
  split; rewrite ?E3, ?E7, ?E8; [done..|]. intros p Hp He. rewrite E2 in He.
  destruct (H4 p Hp He) as (k & c0 & m & full & [P1 P2 P3 P4 P5 P6 P7 P8 P9]).
  exists k, c0, m, full. by split; rewrite ?E1, ?E4, ?E5, ?E6, ?E7.
Qed.

Lemma subscription_ok_same id s s' c delivered r entry :
  same_sync s s' -> subscription_ok id s c delivered r entry -> subscription_ok id s' c delivered r entry.
Proof.
  intros (E1 & E2 & E3 & E4 & E5 & E6 & _). apply subscription_ok_keeps. intros He.
  split_and!; [congruence|done|]. unfold shows. by rewrite E5, E6.
Qed.

Lemma state_ok_more n n' id s c op : n <= n' -> state_ok n id s c op -> state_ok n' id s c op.
Proof. intros Hn [H1 H2 H3 H0 H4]. split; [done|done|lia|done|done]. Qed.

(** A mark that is at least as wide as the change. *)
Lemma MarkDirty_ok n id s c op c' mask :
  within mask c c' -> n + 1 < 2 ^ 64 -> state_ok n id s c op ->
  state_ok (n + 1) id (MarkDirty s mask).1 c' op
  /\ forall delivered r entry, subscription_ok id s c delivered r entry ->
     subscription_ok id (MarkDirty s mask).1 c' delivered r entry.
Proof.
  intros Hw Hn [H1 H2 H3 H0 H4]. unfold MarkDirty.
  destruct (sy_enabled s) eqn:He; last first.
  { rewrite orb_true_r. split; [split; [done|done|cbn; lia|done|cbn; congruence]|].
    intros delivered r entry. apply subscription_ok_keeps. cbn. congruence. }
  rewrite orb_false_r. destruct (Z.eqb_spec mask 0) as [-> |Hm].
  - assert (Hsame : forall q i, 0 <= i < 64 -> part q c' i = part q c i)
      by (intros q i Hi; apply Hw; [done|apply Z.bits_0]).
    split; cbn [fst].
    + split; [done|done|lia|done|]. intros p Hp _.
      destruct (H4 p Hp eq_refl) as (k & c0 & m & full & [P1 P2 P3 P4 P5 P6 P7 P8 P9]).
      exists k, c0, m, full. split; try done. intros Hg. destruct (P9 Hg) as (Q1 & Q2 & Q3).
      split_and!; [done|done|]. intros q i Hi. rewrite Hsame by done. by apply Q3.
    + intros delivered r entry. apply subscription_ok_keeps. intros _. split_and!; [done|done|].
      intros q view Hs Hf i Hi Hb. rewrite Hsame by done. by apply Hs.
  - assert (Hg : wrapu 64 (sy_dirtyGeneration s + 1) = sy_dirtyGeneration s + 1)
      by (apply wrapu_small; unfold in_u; lia).
    split; cbn [fst].
    + split; [done|done|cbn; rewrite Hg; lia|done|]. intros p Hp _.
      destruct (H4 p Hp eq_refl) as (k & c0 & m & full & [P1 P2 P3 P4 P5 P6 P7 P8 P9]).
      exists k, c0, m, full. split; cbn; rewrite ?Hg; try done; [|lia|lia].
      intros Hf. destruct (P7 Hf) as [|Hl]; [by left|right]. by apply land_lor_keeps.
    + intros delivered r entry. apply subscription_ok_keeps. intros _. split_and!; [done|done|].
      intros q view Hs Hf i Hi Hb. cbn in Hf, Hb. rewrite Z.lor_spec in Hb.
      apply orb_false_iff in Hb as [Hb1 Hb2]. rewrite Hw by done. by apply Hs.
Qed.

Lemma MarkFullDirty_ok n id s c op c' reason :
  n + 1 < 2 ^ 64 -> state_ok n id s c op ->
  state_ok (n + 1) id (MarkFullDirty s reason).1 c' op
  /\ forall delivered r entry, subscription_ok id s c delivered r entry ->
     subscription_ok id (MarkFullDirty s reason).1 c' delivered r entry.
Proof.
  intros Hn [H1 H2 H3 H0 H4]. unfold MarkFullDirty.
  destruct (sy_enabled s) eqn:He; cbn [negb fst]; last first.
  { split; [split; [done|done|cbn; lia|done|cbn; congruence]|].
    intros delivered r entry. apply subscription_ok_keeps. cbn. congruence. }
  assert (Hg : wrapu 64 (sy_dirtyGeneration s + 1) = sy_dirtyGeneration s + 1)
    by (apply wrapu_small; unfold in_u; lia).
  split.
  - split; [done|done|cbn; rewrite Hg; lia|done|]. intros p Hp _.
    destruct (H4 p Hp eq_refl) as (k & c0 & m & full & [P1 P2 P3 P4 P5 P6 P7 P8 P9]).
    exists k, c0, m, full. split; cbn; rewrite ?Hg; try done; [by left|lia|lia].
  - intros delivered r entry. apply subscription_ok_keeps. intros _. split_and!; [done|done|].
    intros q view _ Hf. done.
Qed.

Lemma Prepare_state_ok n id s c op profiles s' p :
  state_ok n id s c op -> Prepare s c profiles = (s', Ok p) -> state_ok n id s' c (Some p).
Proof.
  intros [H1 H2 H3 H0 H4] (He & _ & -> & Ht & Hg & Hb & Hv & Hf & k & Hk & Hu)%Prepare_ok.
  split; [done|done|done| |].
  { intros p' [= <-]. apply Forall_lookup. intros i u Hi.
    destruct (Forall2_lookup_r _ _ _ _ _ Hu Hi) as (q & Hq & reason & payload & Hp & ->).
    split; [done|]. eapply normalizeSyncProfiles_normal, list_elem_of_lookup_2, Hq. }
  intros p' [= <-] _.
  exists k, c, (sy_dirtyMask s), (sy_fullDirty s). split; cbn; try done.
  - by apply H2.
  - apply Forall_lookup. intros i u Hi.
    destruct (Forall2_lookup_r _ _ _ _ _ Hu Hi) as (q & Hq & reason & payload & Hp & ->). by split_and!.
  - intros _. right. apply Z.land_diag.
  - lia.
Qed.
(** ** Lemmas: subscribing *)

Lemma normalize_one q : normalizeSyncProfiles [q] = [SyncProfile_Normalize q].
Proof.
  unfold normalizeSyncProfiles. cbn [fmap list_fmap list_to_set].
  by rewrite union_empty_r_L, elements_singleton.
Qed.

Lemma CaptureSnapshot_cases s (c : Content) q reason s' r :
  CaptureSnapshot s c [q] reason = (s', r) ->
  same_sync s s'
  /\ match r with
     | Err _ => True
     | Ok us => sy_enabled s = true /\ exists k u, sy_packer s = Some k /\ us = [u]
         /\ up_SubjectID u = sy_subjectID s /\ up_Version u = sy_version s
         /\ up_Profile u = SyncProfile_Normalize q
         /\ PackSubjectSnapshot k c (up_Profile u) = Ok (up_Payload u)
     end.
Proof.
  unfold CaptureSnapshot. rewrite normalize_one. intros H.
  destruct (if negb (sy_enabled s) then _ else _) as [us|e] eqn:E; injection H as <- <-; [|done].
  split; [done|]. destruct (sy_enabled s); [|done]. split; [done|]. cbn [negb] in E.
  destruct (sy_packer s) as [k|]; [|done]. apply packUpdates_elem in E.
  apply Forall2_cons_inv_l in E as (u & us' & (payload & Hp & ->) & Hnil & ->).
  apply Forall2_nil_inv_l in Hnil as ->. eexists k, _. by split_and!.
Qed.

Lemma rollback_restores c c0 key x :
  co_subscriptions c = co_subscriptions c0 ->
  co_subscriptions (rollbackSubscription (put c key x) key (co_subscriptions c0 !! key)) = co_subscriptions c0.
Proof.
  intros Hc. apply map_eq. intros k. destruct (decide (k = key)) as [-> |Hk].
  - destruct (co_subscriptions c0 !! key) as [e|] eqn:E; cbn; [by rewrite lookup_insert_eq|].
    by rewrite lookup_delete_eq.
  - destruct (co_subscriptions c0 !! key) as [e|] eqn:E; cbn;
      rewrite ?lookup_insert_ne, ?lookup_delete_ne, ?lookup_insert_ne, Hc by done; done.
Qed.

Lemma touches_nothing id c c' io io' :
  co_subscriptions c' = co_subscriptions c -> io_delivered io' = io_delivered io ->
  touches_only id c c' io io'.
Proof.
  intros Hc Hd. split; [by intros; rewrite Hc|]. exists []. rewrite app_nil_r. by split.
Qed.

Lemma admitEnvelopes_cases sink io es io' r :
  admitEnvelopes sink io es = (io', r) ->
  (r = Ok tt /\ io_delivered io' = io_delivered io ++ es)
  \/ (is_ok r = false /\ io_delivered io' = io_delivered io).
Proof.
  unfold admitEnvelopes. destruct sink; cbn [negb]; [|intros [= <- <-]; by right].
  destruct (io_answers io) as [|[|] answers]; intros [= <- <-]; [by right|by left|by right].
Qed.

(** A snapshot replaces whatever the subscriber had. *)
Lemma replicaOf_snapshot delivered r id u :
  up_SubjectID u = id ->
  replicaOf (delivered ++ [mkEnvelope r EnvelopeSnapshot u]) r id
  = Replica (up_Version u) (readSnapshot (up_Profile u) (up_Payload u)).
Proof. intros Hu. rewrite replicaOf_app, filter_cons, decide_True by done. done. Qed.

Lemma replicaOf_someone_else delivered r r' id e :
  de_Subscriber e = r' -> r <> r' -> replicaOf (delivered ++ [e]) r id = replicaOf delivered r id.
Proof. intros He Hr. rewrite replicaOf_app, filter_cons, decide_False; [done|]. intros [Hd _]. congruence. Qed.

Lemma Subscribe_ok n id co s c op subscriber profile io co' s' io' res :
  state_ok n id s c op ->
  (forall r, subscription_ok id s c (io_delivered io) r (co_subscriptions co !! (r, id))) ->
  Subscribe co subscriber s c profile io = (co', s', io', res) ->
  touches_only id co co' io io' /\ same_sync s s'
  /\ forall r, subscription_ok id s' c (io_delivered io') r (co_subscriptions co' !! (r, id)).
Proof.
  intros Hst Hsub Hs. unfold Subscribe in Hs.
  set (sub := SubscriberRef_Normalize subscriber) in *. set (q := SyncProfile_Normalize profile) in *.
  rewrite (so_id _ _ _ _ _ Hst) in Hs.
  (* nothing happened but an error *)
  assert (Hrest : forall s1, same_sync s s1 -> same_sync s s1 /\
     forall r, subscription_ok id s1 c (io_delivered io) r (co_subscriptions co !! (r, id))).
  { intros s1 Hss. split; [done|]. intros r. by eapply subscription_ok_same. }
  assert (Hnone : (co', s', io') = (co, s, io) -> touches_only id co co' io io' /\ same_sync s s'
     /\ forall r, subscription_ok id s' c (io_delivered io') r (co_subscriptions co' !! (r, id))).
  { intros [= -> -> ->]. split; [by apply touches_nothing|]. by apply Hrest. }
  destruct (SubscriberRef_Empty sub); [injection Hs as <- <- <- _; by apply Hnone|].
  destruct (id =? 0); [injection Hs as <- <- <- _; by apply Hnone|].
  destruct (alreadyActive _ q); [injection Hs as <- <- <- _; by apply Hnone|].
  cbn [nextRevision] in Hs. set (revision := u64! (co_revision co + 1)) in *.
  set (pending := mkSubscription sub id _ _ q SubscriptionPending 0 revision) in *.
  set (c1 := mkCoordinator (co_sink co) (co_subscriptions co) revision) in *.
  assert (Hback : forall s1 io1, same_sync s s1 -> io_delivered io1 = io_delivered io ->
     co' = rollbackSubscription (put c1 (sub, id) pending) (sub, id) (co_subscriptions co !! (sub, id)) ->
     s' = s1 -> io' = io1 -> touches_only id co co' io io' /\ same_sync s s'
     /\ forall r, subscription_ok id s' c (io_delivered io') r (co_subscriptions co' !! (r, id))).
  { intros s1 io1 Hss Hio -> -> ->. split; [apply touches_nothing; [by apply rollback_restores|done]|].
    rewrite (rollback_restores c1 co) by done. rewrite Hio. by apply Hrest. }
  destruct (negb _); [injection Hs as <- <- <- _; by eapply (Hback s io)|].
  destruct (CaptureSnapshot s c [q] SyncFullReasonResync) as [s1 cap] eqn:Hcap.
  destruct (CaptureSnapshot_cases _ _ _ _ _ _ Hcap) as [Hss Hus].
  destruct cap as [us|e]; [|injection Hs as <- <- <- _; by eapply (Hback s1 io)].
  destruct Hus as (Hen & k & u & Hk & -> & Hid & Hv & Hq & Hp).
  destruct (admitEnvelopes _ io _) as [io1 adm] eqn:Hadm.
  destruct (admitEnvelopes_cases _ _ _ _ _ Hadm) as [[-> Hd]|[Hr Hd]];
    [|destruct adm; [done|]; injection Hs as <- <- <- _; by eapply (Hback s1 io1)].
  assert (Hput : co_subscriptions (put c1 (sub, id) pending) !! (sub, id) = Some pending)
    by apply lookup_insert_eq.
  assert (Hstill : still (co_subscriptions (put c1 (sub, id) pending) !! (sub, id)) revision
                     SubscriptionPending = true).
  { rewrite Hput. cbn. by rewrite Z.eqb_refl. }
  rewrite Hstill in Hs. injection Hs as <- <- <- _. rewrite Hd. split_and!; [|done|].
  - split; [|exists [mkEnvelope sub EnvelopeSnapshot u]; split; [done|]].
    + intros r id' Hne. cbn. rewrite !lookup_insert_ne by congruence. done.
    + apply Forall_singleton. cbn. rewrite Hid. apply Hst.
  - intros r. cbn [put co_subscriptions].
    destruct (decide (r = sub)) as [-> |Hr]; last first.
    { rewrite !lookup_insert_ne by congruence. eapply subscription_ok_same; [exact Hss|].
      specialize (Hsub r). unfold subscription_ok in *. by rewrite (replicaOf_someone_else _ r sub). }
    rewrite lookup_insert_eq. eapply subscription_ok_same; [exact Hss|]. cbn.
    split_and!; [done|done|done|apply Normalize_idemp|]. intros _. split; [done|].
    rewrite replicaOf_snapshot by (rewrite Hid; apply Hst). eexists. rewrite <-Hv. split; [done|].
    intros _ i Hi _. rewrite (read_snapshot k c _ _ _ (so_packer _ _ _ _ _ Hst k Hk) Hp Hi), Hq.
    unfold q. by rewrite Normalize_idemp.
Qed.

Lemma Unsubscribe_ok id s c co subscriber io co' io' res :
  (forall r, subscription_ok id s c (io_delivered io) r (co_subscriptions co !! (r, id))) ->
  Unsubscribe co subscriber id io = (co', io', res) ->
  touches_only id co co' io io'
  /\ forall r, subscription_ok id s c (io_delivered io') r (co_subscriptions co' !! (r, id)).
Proof.
  intros Hsub Hu. unfold Unsubscribe in Hu. set (sub := SubscriberRef_Normalize subscriber) in *.
  assert (Hnone : (co', io') = (co, io) -> touches_only id co co' io io'
     /\ forall r, subscription_ok id s c (io_delivered io') r (co_subscriptions co' !! (r, id))).
  { intros [= -> ->]. by split; [apply touches_nothing|]. }
  destruct (SubscriberRef_Empty sub); [injection Hu as <- <- _; by apply Hnone|].
  destruct (id =? 0); [injection Hu as <- <- _; by apply Hnone|].
  destruct (co_subscriptions co !! (sub, id)) as [cur|] eqn:Hcur; [|injection Hu as <- <- _; by apply Hnone].
  destruct (is_active cur) eqn:Hact; cbn [negb] in Hu; [|injection Hu as <- <- _; by apply Hnone].
  cbn [nextRevision] in Hu. set (revision := u64! (co_revision co + 1)) in *.
  set (closing := set_state cur SubscriptionClosing revision (sb_ContentVersion cur)) in *.
  set (c1 := mkCoordinator (co_sink co) (co_subscriptions co) revision) in *.
  assert (Hother : forall x r id', (r, id') <> (sub, id) ->
            <[(sub, id) := x]> (<[(sub, id) := closing]> (co_subscriptions co)) !! (r, id')
            = co_subscriptions co !! (r, id')).
  { intros x r id' Hne. by rewrite !lookup_insert_ne. }
  assert (Hback : forall io1, io_delivered io1 = io_delivered io ->
     co' = restoreActive (put c1 (sub, id) closing) (sub, id) closing -> io' = io1 ->
     touches_only id co co' io io'
     /\ forall r, subscription_ok id s c (io_delivered io') r (co_subscriptions co' !! (r, id))).
  { intros io1 Hio -> ->. rewrite Hio. split.
    - split; [|exists []; by rewrite app_nil_r]. intros r id' Hne. apply Hother. congruence.
    - intros r. cbn [restoreActive put co_subscriptions c1]. destruct (decide (r = sub)) as [-> |Hr].
      + rewrite lookup_insert_eq. specialize (Hsub sub). rewrite Hcur in Hsub.
        destruct Hsub as (H1 & H2 & _ & H4 & H5). by split_and!.
      + rewrite Hother by congruence. apply Hsub. }
  destruct (negb _); [injection Hu as <- <- _; by eapply (Hback io)|].
  set (leave := mkEnvelope sub EnvelopeLeave _) in *.
  destruct (admitEnvelopes _ io _) as [io1 adm] eqn:Hadm.
  destruct (admitEnvelopes_cases _ _ _ _ _ Hadm) as [[-> Hd]|[Hr Hd]];
    [|destruct adm; [done|]; injection Hu as <- <- _; by eapply (Hback io1)].
  assert (Hstill : still (co_subscriptions (put c1 (sub, id) closing) !! (sub, id)) revision
                     SubscriptionClosing = true).
  { cbn [put co_subscriptions]. rewrite lookup_insert_eq. cbn. by rewrite Z.eqb_refl. }
  rewrite Hstill in Hu. injection Hu as <- <- _. rewrite Hd. split.
  - split; [|exists [leave]; split; [done|by apply Forall_singleton]].
    intros r id' Hne. cbn. rewrite lookup_delete_ne, lookup_insert_ne by congruence. done.
  - intros r. cbn [drop_key put co_subscriptions c1]. destruct (decide (r = sub)) as [-> |Hr].
    + rewrite lookup_delete_eq. cbn. rewrite replicaOf_app, filter_cons, decide_True by done. done.
    + rewrite lookup_delete_ne, lookup_insert_ne by congruence. specialize (Hsub r).
      unfold subscription_ok in *. by rewrite (replicaOf_someone_else _ r sub).
Qed.
(** ** Lemmas: distributing *)

Lemma Abort_ok n id s c p cause :
  state_ok n id s c (Some p) ->
  state_ok n id (Prepared_AbortWithError p s cause).1.2 c None
  /\ forall delivered r entry, subscription_ok id s c delivered r entry ->
     subscription_ok id (Prepared_AbortWithError p s cause).1.2 c delivered r entry.
Proof.
  intros [H1 H2 H3 _ _]. unfold Prepared_AbortWithError.
  destruct (pr_finished p); [|destruct (negb _)]; cbn [fst snd];
    (split; [by split|]); intros delivered r entry; by apply subscription_ok_keeps.
Qed.

(** Entries are stored under their own subscriber and subject. *)
Definition keyed (subs : gmap (SubscriberRef * Z) Subscription) : Prop :=
  forall r id sub, subs !! (r, id) = Some sub -> sb_Subscriber sub = r /\ sb_SubjectID sub = id.

(** The subscriptions an update of a subject goes to. *)
Definition recipients (subs : gmap (SubscriberRef * Z) Subscription) (id : Z) : list Subscription :=
  sortSubscriptions (filter (fun s => sb_SubjectID s = id /\ is_active s = true) (map_to_list subs).*2).

Lemma elem_of_recipients subs id sub :
  keyed subs ->
  sub ∈ recipients subs id <-> subs !! (sb_Subscriber sub, id) = Some sub /\ is_active sub = true.
Proof.
  intros Hk. unfold recipients, sortSubscriptions. rewrite sort_slice_perm, list_elem_of_filter, list_elem_of_fmap.
  split.
  - intros [[Hid Ha] ([[r id'] x] & -> & Hx%elem_of_map_to_list)]. cbn in *.
    destruct (Hk _ _ _ Hx) as [Hr Hi]. split; [|done]. congruence.
  - intros [Hl Ha]. split; [split; [|done]; by apply (Hk _ _ _ Hl)|].
    exists ((sb_Subscriber sub, id), sub). split; [done|]. by apply elem_of_map_to_list.
Qed.

Lemma recipients_NoDup subs id : keyed subs -> NoDup (sb_Subscriber <$> recipients subs id).
Proof.
  intros Hk. apply NoDup_fmap_2_strong.
  - intros x y Hx Hy Hxy. apply (elem_of_recipients _ _ _ Hk) in Hx as [Hx _], Hy as [Hy _]. congruence.
  - unfold recipients, sortSubscriptions. rewrite sort_slice_perm. apply NoDup_filter, NoDup_fmap_2_strong.
    + intros [[r i] x] [[r' i'] y] Hx Hy Hxy. cbn in Hxy. subst y.
      apply elem_of_map_to_list in Hx, Hy.
      destruct (Hk _ _ _ Hx) as [<- <-], (Hk _ _ _ Hy) as [<- <-]. done.
    + apply NoDup_map_to_list.
Qed.

Lemma indexUpdates_lookup id updates : forall start m q u,
  indexUpdates id updates start = Some m -> m !! q = Some u ->
  u ∈ updates /\ SyncProfile_Normalize (up_Profile u) = q \/ start !! q = Some u.
Proof.
  induction updates as [|x updates IH]; intros start m q u Hm Hu; cbn in Hm.
  { injection Hm as ->. by right. }
  destruct (negb _); [done|]. destruct (IH _ _ _ _ Hm Hu) as [[Hin Hq]|Hs]; [left; split; [by right|done]|].
  apply lookup_insert_Some in Hs as [[Hq ->]|[_ Hs]]; [left; split; [left|done]|by right].
Qed.

Lemma buildEnvelopes_lookup byProfile subs es :
  buildEnvelopes byProfile subs = Some es ->
  Forall2 (fun sub e => exists u, byProfile !! SyncProfile_Normalize (sb_Profile sub) = Some u
     /\ e = mkEnvelope (sb_Subscriber sub) (if up_Full u then EnvelopeSnapshot else EnvelopeDelta) u) subs es.
Proof.
  revert es. induction subs as [|sub subs IH]; intros es He; cbn in He; [by injection He as <-|].
  destruct (byProfile !! _) as [u|] eqn:Hu; [|done]. cbn in He.
  destruct (buildEnvelopes byProfile subs) as [rest|]; [|done]. injection He as <-.
  constructor; [by exists u|by apply IH].
Qed.

Lemma filter_addressed_none es r id : r ∉ de_Subscriber <$> es -> filter (addressed r id) es = [].
Proof.
  induction es as [|e es IH]; [done|]. rewrite fmap_cons, not_elem_of_cons. intros [Hr Hes].
  rewrite filter_cons, decide_False; [by apply IH|]. intros [Hd _]. congruence.
Qed.

(** A batch has one message for each subscriber. *)
Lemma filter_addressed_one es id e :
  NoDup (de_Subscriber <$> es) -> e ∈ es -> up_SubjectID (de_Update e) = id ->
  filter (addressed (de_Subscriber e) id) es = [e].
Proof.
  induction es as [|x es IH]; intros Hnd Hin Hid; [by apply elem_of_nil in Hin|].
  cbn in Hnd. apply NoDup_cons in Hnd as [Hx Hnd]. rewrite filter_cons.
  apply elem_of_cons in Hin as [<-|Hin].
  - rewrite decide_True by done. by rewrite filter_addressed_none.
  - rewrite decide_False; [by apply IH|]. intros [Hd _]. apply Hx. rewrite Hd. by apply list_elem_of_fmap_2.
Qed.

Lemma advanceVersions_lookup id version subs : forall co key,
  NoDup (sb_Subscriber <$> subs) ->
  (forall sub, sub ∈ subs -> co_subscriptions co !! (sb_Subscriber sub, id) = Some sub /\ is_active sub = true) ->
  co_subscriptions (advanceVersions co id version subs) !! key
  = if decide (key.2 = id /\ key.1 ∈ sb_Subscriber <$> subs)
    then (fun sub => set_state sub (sb_State sub) (sb_Revision sub) version) <$> co_subscriptions co !! key
    else co_subscriptions co !! key.
Proof.
  induction subs as [|sub subs IH]; intros co key Hnd Hin; cbn [advanceVersions].
  { rewrite decide_False; [done|]. intros [_ H]. by apply elem_of_nil in H. }
  cbn in Hnd. apply NoDup_cons in Hnd as [Hsub Hnd].
  destruct (Hin sub ltac:(left)) as [Hl Ha]. rewrite Hl, Ha, Z.eqb_refl. cbn [andb].
  rewrite IH; [|done|].
  - cbn [put co_subscriptions]. destruct (decide (key = (sb_Subscriber sub, id))) as [-> |Hne].
    + rewrite lookup_insert_eq, decide_False by (by intros [_ ?]). rewrite decide_True by (split; [done|left]).
      by rewrite Hl.
    + rewrite lookup_insert_ne by done. destruct key as [r i]. cbn.
      destruct (decide (i = id /\ r ∈ sb_Subscriber <$> subs)) as [[-> Hr]|Hno].
      * by rewrite decide_True by (split; [done|by right]).
      * rewrite decide_False; [done|]. intros [-> [-> |Hr]%elem_of_cons]; [done|by apply Hno].
  - intros x Hx. cbn [put co_subscriptions]. rewrite lookup_insert_ne; [by apply Hin; right|].
    intros [= He]. apply Hsub. rewrite He. by apply list_elem_of_fmap_2.
Qed.
(** Receiving an update that is then committed shows what is not dirty after it. *)
Lemma receive_update id s c p k c0 m full u r view p' s' :
  prepared_ok id s c p k c0 m full -> u ∈ pr_updates p -> shows s c (up_Profile u) view ->
  Prepared_Commit p s = (p', s', Ok tt) ->
  exists view', receive (Replica (sy_version s) view)
      (mkEnvelope r (if up_Full u then EnvelopeSnapshot else EnvelopeDelta) u) = Replica (sy_version s') view'
    /\ shows s' c (up_Profile u) view'.
Proof.
  intros [P1 P2 P3 P4 P5 P6 P7 P8 P9] Hu Hsh Hc.
  rewrite Forall_forall in P5. destruct (P5 u Hu) as (Hv & Hb & Hf & Hm & Hp).
  destruct (Commit_cases _ _ _ _ _ Hc) as [(_ & _ & _ & _ & _ & _ & _ & Hv' & _ & Hd)|[Hr _]]; [|done].
  unfold receive. cbn [de_Kind de_Update]. rewrite Hf. destruct full.
  - eexists. rewrite Hv', <-Hv. split; [done|]. intros Hfull i Hi _.
    rewrite (read_snapshot k c0 _ _ _ P4 Hp Hi). destruct Hd as [(Hg & _)|(_ & _ & Hff)].
    + symmetry. by apply (P9 (eq_sym Hg)).
    + rewrite Hff, P6 in Hfull by done. done.
  - rewrite Hb, Z.eqb_refl, Hv', <-Hv, Hm. eexists. split; [done|]. intros Hfull i Hi Hbit. cbn beta.
    destruct Hd as [(Hg & _)|(Hg & Hdm & Hff)].
    + destruct (P9 (eq_sym Hg)) as (Q1 & Q2 & Q3). destruct (Z.testbit m i) eqn:Ht.
      * rewrite (read_delta k c0 _ _ _ _ P4 Hp Hi Ht). symmetry. by apply Q3.
      * apply Hsh; [done|done|by rewrite <-Q2].
    + rewrite Hff in Hfull. rewrite Hdm in Hbit. destruct (P7 eq_refl) as [|Hland]; [congruence|].
      assert (Ht : Z.testbit m i = false) by (rewrite <-Hland, Z.land_spec, Hbit; apply andb_false_r).
      rewrite Ht. by apply Hsh.
Qed.

(** What is known of a batch that was built for the recipients of a subject. *)
Record batch_ok (id : Z) (p : PreparedSubjectSync) (subs : gmap (SubscriberRef * Z) Subscription)
    (es : list DeliveryEnvelope) : Prop := {
  bo_subject : Forall (fun e => up_SubjectID (de_Update e) = id) es;
  bo_subscribers : de_Subscriber <$> es = sb_Subscriber <$> recipients subs id;
  bo_update : forall sub, sub ∈ recipients subs id -> exists u, u ∈ pr_updates p
    /\ SyncProfile_Normalize (up_Profile u) = SyncProfile_Normalize (sb_Profile sub)
    /\ mkEnvelope (sb_Subscriber sub) (if up_Full u then EnvelopeSnapshot else EnvelopeDelta) u ∈ es
}.

Lemma buildEnvelopes_ok id p subs byProfile es :
  Forall (fun u => up_SubjectID u = id /\ SyncProfile_Normalize (up_Profile u) = up_Profile u) (pr_updates p) ->
  indexUpdates id (pr_updates p) ∅ = Some byProfile ->
  buildEnvelopes byProfile (recipients subs id) = Some es -> batch_ok id p subs es.
Proof.
  intros Hu Hi Hb. apply buildEnvelopes_lookup in Hb. rewrite Forall_forall in Hu.
  assert (Hin : forall q u, byProfile !! q = Some u -> u ∈ pr_updates p /\ SyncProfile_Normalize (up_Profile u) = q).
  { intros q u Hq. destruct (indexUpdates_lookup _ _ _ _ _ _ Hi Hq) as [|He]; [done|]. by rewrite lookup_empty in He. }
  split.
  - apply Forall_lookup. intros i e He. destruct (Forall2_lookup_r _ _ _ _ _ Hb He) as (sub & _ & u & Hl & ->).
    by apply Hu, (Hin _ _ Hl).
  - clear Hi. induction Hb as [|sub e subs' es' (u & _ & ->) _ IH]; [done|]. cbn. by f_equal.
  - intros sub Hsub. apply list_elem_of_lookup in Hsub as [i Hsi].
    destruct (Forall2_lookup_l _ _ _ _ _ Hb Hsi) as (e & He & u & Hl & ->).
    exists u. destruct (Hin _ _ Hl). split_and!; [done|done|]. by eapply list_elem_of_lookup_2.
Qed.

(** Who is not subscribed receives nothing. *)
Lemma batch_silent id p subs es delivered r :
  keyed subs -> batch_ok id p subs es -> subs !! (r, id) = None ->
  replicaOf (delivered ++ es) r id = replicaOf delivered r id.
Proof.
  intros Hk [_ Hs _] Hr. rewrite replicaOf_app, filter_addressed_none; [done|]. rewrite Hs.
  intros (sub & -> & Hsub)%list_elem_of_fmap. apply (elem_of_recipients _ _ _ Hk) in Hsub as [Hsub _]. congruence.
Qed.

Lemma batch_received id p subs es delivered sub :
  keyed subs -> batch_ok id p subs es -> sub ∈ recipients subs id ->
  exists u, u ∈ pr_updates p /\ SyncProfile_Normalize (up_Profile u) = SyncProfile_Normalize (sb_Profile sub)
  /\ replicaOf (delivered ++ es) (sb_Subscriber sub) id
     = receive (replicaOf delivered (sb_Subscriber sub) id)
         (mkEnvelope (sb_Subscriber sub) (if up_Full u then EnvelopeSnapshot else EnvelopeDelta) u).
Proof.
  intros Hk [Hid Hs Hu] Hsub. destruct (Hu sub Hsub) as (u & Hin & Hq & He). exists u. split_and!; [done|done|].
  rewrite replicaOf_app. rewrite Forall_forall in Hid.
  change (sb_Subscriber sub) with (de_Subscriber (mkEnvelope (sb_Subscriber sub)
    (if up_Full u then EnvelopeSnapshot else EnvelopeDelta) u)) at 2.
  rewrite filter_addressed_one; [done| |done|by apply (Hid _ He)]. rewrite Hs. by apply recipients_NoDup.
Qed.
Lemma active_recipient id s c delivered subs r sub :
  keyed subs -> subscription_ok id s c delivered r (subs !! (r, id)) -> subs !! (r, id) = Some sub ->
  sb_Subscriber sub = r /\ sub ∈ recipients subs id.
Proof.
  intros Hk Hok Hl. rewrite Hl in Hok. destruct Hok as (Hr & _ & Ha & _). split; [done|].
  apply (elem_of_recipients _ _ _ Hk). rewrite Hr. split; [done|]. by apply bool_decide_eq_true.
Qed.

Lemma committed_ok n id s c co p es delivered p' s' :
  state_ok n id s c (Some p) -> keyed (co_subscriptions co) -> batch_ok id p (co_subscriptions co) es ->
  (forall r, subscription_ok id s c delivered r (co_subscriptions co !! (r, id))) ->
  Prepared_Commit p s = (p', s', Ok tt) ->
  forall r, subscription_ok id s' c (delivered ++ es) r
    (co_subscriptions (advanceVersions co id (pr_version p') (recipients (co_subscriptions co) id)) !! (r, id)).
Proof.
  intros Hst Hk Hb Hsub Hc r.
  destruct (Commit_cases _ _ _ _ _ Hc) as [(_ & -> & _ & He & _ & _ & He' & Hv' & _)|[Hr _]]; [|done].
  rewrite advanceVersions_lookup;
    [|by apply recipients_NoDup|intros sub Hin; by apply (elem_of_recipients _ _ _ Hk)].
  pose proof (Hsub r) as Hr. destruct (co_subscriptions co !! (r, id)) as [sub|] eqn:Hl; last first.
  { assert (Hn : subscription_ok id s' c (delivered ++ es) r None).
    { cbn. by rewrite (batch_silent id p (co_subscriptions co)). }
    by case_decide. }
  destruct (active_recipient id s c delivered (co_subscriptions co) r sub Hk (Hsub r) Hl) as [Hrs Hin].
  rewrite decide_True by (split; [done|]; cbn; rewrite <-Hrs; by apply list_elem_of_fmap_2).
  destruct Hr as (_ & H2 & H3 & H4 & H5). destruct (H5 He) as (_ & view & Hview & Hsh).
  cbn. split_and!; [done|done|done|done|]. intros _. split; [by rewrite Hv'|].
  destruct (batch_received id p (co_subscriptions co) es delivered sub Hk Hb Hin) as (u & Hu & Hq & Hrep).
  rewrite Hrs in Hrep. rewrite Hrep, Hview.
  destruct (so_prepared _ _ _ _ _ Hst p eq_refl He) as (k & c0 & m & full & Hprep).
  assert (Hqu : up_Profile u = sb_Profile sub).
  { pose proof (so_updates _ _ _ _ _ Hst p eq_refl) as Hall. rewrite Forall_forall in Hall.
    rewrite <-(proj2 (Hall u Hu)), Hq. done. }
  rewrite <-Hqu in Hsh |- *. by eapply receive_update.
Qed.

(** The update on its way can be committed as long as the state is open. *)
Lemma Commit_closed n id s c p p' s' r :
  state_ok n id s c (Some p) -> Prepared_Commit p s = (p', s', r) ->
  state_ok n id s' c None /\ (r = Ok tt \/ sy_enabled s' = false).
Proof.
  intros [H1 H2 H3 _ H4] Hc. unfold Prepared_Commit in Hc.
  destruct (sy_enabled s) eqn:He.
  - destruct (H4 p eq_refl eq_refl) as (k & c0 & m & full & [P1 P2 P3 _ _ _ _ _ _]).
    cbn [negb orb finish pr_token pr_baseVersion] in Hc. rewrite P1, P2, P3, !Z.eqb_refl in Hc.
    cbn in Hc. injection Hc as <- <- <-. split; [by split|by left].
  - destruct (pr_finished p); injection Hc as <- <- <-; (split; [by split|by right]).
Qed.

Lemma Distribute_ok n id co s c p io co' p' s' io' res :
  state_ok n id s c (Some p) -> keyed (co_subscriptions co) ->
  (forall r, subscription_ok id s c (io_delivered io) r (co_subscriptions co !! (r, id))) ->
  Distribute co p s io = (co', p', s', io', res) ->
  touches_only id co co' io io' /\ state_ok n id s' c None
  /\ forall r, subscription_ok id s' c (io_delivered io') r (co_subscriptions co' !! (r, id)).
Proof.
  intros Hst Hk Hsub Hd. unfold Distribute in Hd.
  assert (Habort : forall io1 err err',
     io_delivered io1 = io_delivered io ->
     (let '(p1, s1, _) := Prepared_AbortWithError p s (Some err) in (co, p1, s1, io1, @Err syncError unit err'))
       = (co', p', s', io', res) ->
     touches_only id co co' io io' /\ state_ok n id s' c None
     /\ forall r, subscription_ok id s' c (io_delivered io') r (co_subscriptions co' !! (r, id))).
  { intros io1 err err' Hio Ha. destruct (Abort_ok n id s c p (Some err) Hst) as [Hs1 Hs2].
    destruct (Prepared_AbortWithError p s (Some err)) as [[p1 s1] ra]. injection Ha as <- <- <- <- _.
    split; [by apply touches_nothing|]. split; [done|]. intros r. rewrite Hio. by apply Hs2. }
  pose proof (so_updates _ _ _ _ _ Hst p eq_refl) as Hids.
  destruct (pr_updates p) as [|first rest] eqn:Hup; [by apply (Habort io ErrSubscriptionSubject ErrSubscriptionSubject)|].
  rewrite (proj1 (Forall_inv Hids)) in Hd. rewrite <-Hup in Hd, Hids.
  destruct (id =? 0); [by apply (Habort io ErrSubscriptionSubject ErrSubscriptionSubject)|].
  destruct (indexUpdates id (pr_updates p) ∅) as [byProfile|] eqn:Hidx;
    [|by apply (Habort io ErrSubscriptionSubject ErrSubscriptionSubject)].
  destruct (negb _ && negb _); [by apply (Habort io ErrEnvelopeSinkRequired ErrEnvelopeSinkRequired)|].
  change (sortSubscriptions _) with (recipients (co_subscriptions co) id) in Hd.
  destruct (buildEnvelopes byProfile _) as [es|] eqn:Hes;
    [|by apply (Habort io ErrPreparedProfilesMissing ErrPreparedProfilesMissing)].
  assert (Hb := buildEnvelopes_ok id p (co_subscriptions co) byProfile es Hids Hidx Hes).
  destruct (match es with [] => _ | _ => _ end) as [io1 adm] eqn:Hadm.
  assert (Hcases : adm = Ok tt /\ io_delivered io1 = io_delivered io ++ es
                   \/ is_ok adm = false /\ io_delivered io1 = io_delivered io).
  { destruct es; [injection Hadm as <- <-; left; by rewrite app_nil_r|by eapply admitEnvelopes_cases]. }
  destruct Hcases as [[-> Hio]|[Hno Hio]];
    [|destruct adm; [done|]; by apply (Habort io1 ErrEnvelopeAdmission ErrEnvelopeAdmission)].
  destruct (Prepared_Commit p s) as [[p1 s1] rc] eqn:Hc.
  destruct (Commit_closed n id s c p p1 s1 rc Hst Hc) as [Hst1 Hrc].
  destruct rc as [[]|e]; injection Hd as <- <- <- <- _; rewrite Hio.
  - split; [|split; [done|]; by eapply committed_ok].
    split; [|exists es; by split; [|apply Hb]]. intros r id' Hne.
    rewrite advanceVersions_lookup;
      [|by apply recipients_NoDup|intros sub Hin; by apply (elem_of_recipients _ _ _ Hk)].
    rewrite decide_False; [done|]. by intros [? _].
  - destruct Hrc as [|Hoff]; [done|]. split; [|split; [done|]].
    + split; [done|]. exists es. by split; [|apply Hb].
    + intros r. pose proof (Hsub r) as Hr. destruct (co_subscriptions co !! (r, id)) as [sub|] eqn:Hl; cbn in *.
      * destruct Hr as (H1 & H2 & H3 & H4 & _). split_and!; [done..|]. congruence.
      * by rewrite (batch_silent id p (co_subscriptions co)).
Qed.
(** ** Runs of the system *)

Lemma world_ok_keyed n w : world_ok n w -> keyed (co_subscriptions (w_coordinator w)).
Proof.
  intros [Hs Hn] r id sub Hl. destruct (w_subjects w !! id) as [sj|] eqn:Hid; [|rewrite Hn in Hl by done; done].
  destruct (Hs id sj Hid) as [_ Hr]. specialize (Hr r). rewrite Hl in Hr. by destruct Hr as (H1 & H2 & _).
Qed.

(** A call for subject [id] that leaves it in order leaves the world in order. *)
Lemma world_ok_update n w id sj co' sj' io' :
  world_ok n w -> w_subjects w !! id = Some sj ->
  touches_only id (w_coordinator w) co' (w_io w) io' ->
  subject_ok (n + 1) id (co_subscriptions co') (io_delivered io') sj' ->
  world_ok (n + 1) (mkSyncWorld co' (<[id := sj']> (w_subjects w)) io').
Proof.
  intros [Hs Hn] Hid Ht Hok. split; cbn [w_coordinator w_subjects w_io].
  - intros i x Hi. apply lookup_insert_Some in Hi as [[<- <-]|[Hne Hi]]; [done|].
    assert (Hx : subject_ok (n + 1) i (co_subscriptions (w_coordinator w)) (io_delivered (w_io w)) x).
    { destruct (Hs i x Hi) as [H1 H2]. split; [|done]. eapply state_ok_more; [|exact H1]. lia. }
    by eapply subject_ok_frame.
  - intros r i Hi. apply lookup_insert_None in Hi as [Hi Hne]. rewrite (proj1 Ht) by done. by apply Hn.
Qed.

Lemma world_ok_more n w : world_ok n w -> world_ok (n + 1) w.
Proof.
  intros [Hs Hn]. split; [|done]. intros id sj Hid. destruct (Hs id sj Hid) as [H1 H2]. split; [|done].
  eapply state_ok_more; [|exact H1]. lia.
Qed.

(** Changes are marked, and packers write what subscribers read. *)
Definition allowed (w : world Packer Content) (e : syncEvent Packer Content) : Prop :=
  match e with
  | EvChange id content mask =>
      forall sj, w_subjects w !! id = Some sj -> within mask (sj_content sj) content
  | EvSetPacker id (Some k) => lawful k
  | _ => True
  end.

Lemma set_subject_ok n w id sj sj' :
  world_ok n w -> w_subjects w !! id = Some sj ->
  state_ok (n + 1) id (sj_state sj') (sj_content sj') (sj_prepared sj') ->
  (forall delivered r entry, subscription_ok id (sj_state sj) (sj_content sj) delivered r entry ->
     subscription_ok id (sj_state sj') (sj_content sj') delivered r entry) ->
  world_ok (n + 1) (set_subject w id sj').
Proof.
  intros Hw Hid Hst Hsub. eapply world_ok_update; [done|done|by apply touches_nothing|].
  split; [done|]. intros r. by apply Hsub, (proj2 (proj1 Hw id sj Hid)).
Qed.

Lemma syncStep_ok n w e :
  n + 1 < 2 ^ 64 -> world_ok n w -> allowed w e -> world_ok (n + 1) (syncStep w e).
Proof.
  intros Hn Hw Ha. pose proof (world_ok_keyed n w Hw) as Hk.
  assert (Hst : forall id sj, w_subjects w !! id = Some sj ->
            state_ok (n + 1) id (sj_state sj) (sj_content sj) (sj_prepared sj)).
  { intros id sj Hid. eapply state_ok_more; [|exact (proj1 (proj1 Hw id sj Hid))]. lia. }
  destruct e as [id c' mask|id c' reason|id packer|sink|sub id q|sub id|id profiles|id|id cause|id];
    cbn [syncStep]; try (destruct (w_subjects w !! id) as [sj|] eqn:Hid; [|by apply world_ok_more]);
    try pose proof (proj1 Hw id sj Hid) as [Hs Hr].
  - destruct (MarkDirty_ok n id _ _ _ c' mask (Ha sj Hid) Hn Hs) as [H1 H2]. by eapply set_subject_ok.
  - destruct (MarkFullDirty_ok n id _ _ _ c' reason Hn Hs) as [H1 H2]. by eapply set_subject_ok.
  - eapply set_subject_ok; [done|done| |].
    + destruct (Hst id sj Hid) as [H1 H2 H3 H0 H4]. split; [done| |done|done|].
      * intros k Hkk. cbn in Hkk. subst packer. exact Ha.
      * intros p Hp He. destruct (H4 p Hp He) as (k & c0 & m & full & [P1 P2 P3 P4 P5 P6 P7 P8 P9]).
        exists k, c0, m, full. by split.
    + intros delivered r entry. by apply subscription_ok_keeps.
  - apply world_ok_more in Hw as [H1 H2]. by split.
  - destruct (Subscribe _ sub _ _ q _) as [[[co' s'] io'] res] eqn:Hsub.
    destruct (Subscribe_ok n id _ _ _ _ _ _ _ _ _ _ _ Hs Hr Hsub) as (Ht & Hss & Hr').
    eapply world_ok_update; [done|done|done|]. split; [|exact Hr']. cbn.
    eapply state_ok_same; [exact Hss|by apply Hst].
  - destruct (Unsubscribe _ sub id _) as [[co' io'] res] eqn:Hun.
    destruct (w_subjects w !! id) as [sj|] eqn:Hid; last first.
    { unfold Unsubscribe in Hun. rewrite (proj2 Hw) in Hun by done. apply world_ok_more.
      destruct (SubscriberRef_Empty _); [|destruct (id =? 0)]; injection Hun as <- <- _; by destruct w. }
    pose proof (proj1 Hw id sj Hid) as [Hs Hr].
    destruct (Unsubscribe_ok id _ _ _ _ _ _ _ _ Hr Hun) as [Ht Hr'].
    rewrite <-(insert_id (w_subjects w) id sj Hid). eapply world_ok_update; [done|done|done|].
    split; [by apply Hst|exact Hr'].
  - destruct (Prepare _ _ profiles) as [s' [p|err]] eqn:Hp.
    + eapply set_subject_ok; [done|done|eapply Prepare_state_ok; [exact (Hst id sj Hid)|exact Hp]|].
      apply Prepare_ok in Hp as (_ & _ & -> & _). intros delivered r entry. by apply subscription_ok_keeps.
    + assert (Hss : same_sync (sj_state sj) s').
      { apply Prepare_err in Hp as (E1 & E2 & E3 & E4 & E5 & E6 & E7 & E8 & _). by split_and!. }
      eapply set_subject_ok; [done|done|eapply state_ok_same; [exact Hss|exact (Hst id sj Hid)]|].
      intros delivered r entry. by apply subscription_ok_same.
  - destruct (sj_prepared sj) as [p|] eqn:Hp; [|by apply world_ok_more].
    destruct (Distribute _ p _ _) as [[[[co' p'] s'] io'] res] eqn:Hd.
    pose proof (Hst id sj Hid) as Hst'. rewrite Hp in Hst'.
    destruct (Distribute_ok (n + 1) id _ _ _ _ _ _ _ _ _ _ Hst' Hk Hr Hd) as (Ht & Hs' & Hr').
    by eapply world_ok_update.
  - destruct (sj_prepared sj) as [p|] eqn:Hp; [|by apply world_ok_more].
    pose proof (Hst id sj Hid) as Hst'. rewrite Hp in Hst'.
    destruct (Abort_ok (n + 1) id _ _ p cause Hst') as [H1 H2]. by eapply set_subject_ok.
  - eapply set_subject_ok; [done|done| |].
    + destruct (Hst id sj Hid) as [H1 H2 H3 H0 H4]. by split.
    + intros delivered r entry. by apply subscription_ok_keeps.
Qed.
(** ** Theorems *)

(** New entities, no subscribers. *)
Definition initial (w : world Packer Content) : Prop :=
  co_subscriptions (w_coordinator w) = ∅ /\ io_delivered (w_io w) = []
  /\ forall id sj, w_subjects w !! id = Some sj -> sj_prepared sj = None
     /\ exists namespace kind packer, sj_state sj = NewSubjectSyncState id namespace kind packer
        /\ forall k, packer = Some k -> lawful k.

(** [n] steps lead from one world to another. *)
Inductive reaches (w : world Packer Content) : Z -> world Packer Content -> Prop :=
  | reaches_refl : reaches w 0 w
  | reaches_step n w' e : reaches w n w' -> allowed w' e -> reaches w (n + 1) (syncStep w' e).

Lemma initial_ok w : initial w -> world_ok 0 w.
Proof.
  intros (Hc & Hd & Hs). split; [|intros r id _; by rewrite Hc, lookup_empty].
  intros id sj Hid. destruct (Hs id sj Hid) as (Hp & namespace & kind & packer & Hst & Hk). split.
  - rewrite Hst, Hp. by split.
  - intros r. rewrite Hc, lookup_empty, Hd. done.
Qed.

Lemma reaches_ok w n w' : initial w -> reaches w n w' -> n < 2 ^ 64 -> 0 <= n /\ world_ok n w'.
Proof.
  intros Hi Hr Hn. induction Hr as [|n w' e _ IH Ha]; [split; [done|by apply initial_ok]|].
  destruct IH as [H0 Hw]; [lia|]. split; [lia|]. by apply syncStep_ok.
Qed.

Lemma packUpdates_error pack update profiles e :
  (forall q, pack q <> Err e) -> packUpdates pack update profiles <> Err e.
Proof.
  intros Hp. induction profiles as [|q profiles IH]; [done|]. cbn. specialize (Hp q).
  destruct (pack q); cbn; [|congruence]. destruct (packUpdates _ _ _); cbn; congruence.
Qed.

Lemma Distribute_Ok co p (s s' : state) io co' p' io' :
  Distribute co p s io = (co', p', s', io', Ok tt) -> Prepared_Commit p s = (p', s', Ok tt).
Proof.
  unfold Distribute. intros Hd.
  assert (Habort : forall io1 err err',
     (let '(p1, s1, _) := Prepared_AbortWithError p s (Some err) in (co, p1, s1, io1, @Err syncError unit err'))
       = (co', p', s', io', Ok tt) -> False).
  { intros io1 err err'. by destruct (Prepared_AbortWithError p s (Some err)) as [[p1 s1] ra]. }
  destruct (pr_updates p) as [|first rest]; [by apply Habort in Hd|].
  destruct (_ =? 0); [by apply Habort in Hd|]. destruct (indexUpdates _ _ _); [|by apply Habort in Hd].
  destruct (negb _ && negb _); [by apply Habort in Hd|]. destruct (buildEnvelopes _ _) as [es|]; [|by apply Habort in Hd].
  destruct (match es with [] => _ | _ => _ end) as [io1 [u|e]]; [|by apply Habort in Hd].
  destruct (Prepared_Commit p s) as [[p1 s1] [[]|e]]; [|done]. by injection Hd as <- <- <- <-.
Qed.

(** A flush of an entity that succeeds brings every subscriber up to date: its
    replica then shows all parts of the content, as its profile shows them. *)
Theorem FlushSubject_converges (w w' : world Packer Content) (n id : Z) (sj : subject Packer Content)
    (co : SubscriptionCoordinator) (s : state) (io : sinkIO) (r : SubscriberRef) (sub : Subscription) :
  initial w -> reaches w n w' -> n < 2 ^ 64 -> w_subjects w' !! id = Some sj ->
  FlushSubject (w_coordinator w') (sj_state sj) (sj_content sj) (w_io w') = (co, s, io, Ok tt) ->
  co_subscriptions co !! (r, id) = Some sub ->
  exists view, replicaOf (io_delivered io) r id = Replica (sy_version s) view
    /\ forall i, 0 <= i < 64 -> view i = part (sb_Profile sub) (sj_content sj) i.
Proof.
  intros Hi Hr Hn Hid Hf Hsub. destruct (reaches_ok w n w' Hi Hr Hn) as [_ Hw].
  pose proof (world_ok_keyed n w' Hw) as Hk. destruct (proj1 Hw id sj Hid) as [Hst Hok].
  enough (Hend : sy_enabled s = true /\ sy_dirtyMask s = 0 /\ sy_fullDirty s = false
                 /\ subscription_ok id s (sj_content sj) (io_delivered io) r (co_subscriptions co !! (r, id))).
  { destruct Hend as (He & Hm & Hfd & Hend). rewrite Hsub in Hend. destruct Hend as (_ & _ & _ & _ & Hv).
    destruct (Hv He) as (_ & view & H2 & H3). exists view. split; [done|]. intros i Hi'.
    apply H3; [done|done|]. rewrite Hm. apply Z.bits_0. }
  unfold FlushSubject in Hf. destruct (_ =? 0); [done|].
  destruct (Prepare _ _ _) as [s1 [p|e]] eqn:Hp; last first.
  { destruct e; try done. injection Hf as <- <- <-. unfold Prepare, prepareLocked in Hp.
    destruct (sy_enabled (sj_state sj)) eqn:He; cbn [negb] in Hp; [|done].
    destruct (negb (sy_inflightToken _ =? 0)); [done|].
    destruct (_ && _) eqn:Hd in Hp.
    - injection Hp as <-. bool_to_prop. split_and!; [done|done|done|apply Hok].
    - destruct (sy_packer (sj_state sj)) as [k|] eqn:Hpk; [|done].
      destruct (packUpdates _ _ _) as [|e] eqn:Hu; [done|]. injection Hp as _ ->.
      exfalso. revert Hu. apply packUpdates_error. intros q. cbn.
      destruct (sy_fullDirty _); [apply snapshot_error|apply delta_error]; by apply (so_packer _ _ _ _ _ Hst). }
  destruct (Distribute _ p s1 _) as [[[[co1 p1] s2] io1] rd] eqn:Hd. injection Hf as <- <- <- ->.
  pose proof (Prepare_state_ok _ _ _ _ _ _ _ _ Hst Hp) as Hst1.
  apply Prepare_ok in Hp as (He & _ & -> & _ & Hg & _).
  destruct (Distribute_ok n id _ _ _ _ _ _ _ _ _ _ Hst1 Hk
              ltac:(intros r'; eapply subscription_ok_keeps; [done|apply Hok]) Hd) as (_ & _ & Hr').
  apply Distribute_Ok in Hd. apply Commit_cases in Hd as [(_ & _ & _ & _ & _ & _ & He' & _ & _ & Hd)|[? _]]; [|done].
  destruct Hd as [(_ & Hm & Hfd)|(Hne & _)]; [by split_and!|]. cbn in Hne. congruence.
Qed.

(** C28. Over every interleaving of changes that mark what they change,
    subscriptions, preparations, distributions, refusals of the sink and failures
    to pack: what a subscriber of an open entity has received is an unbroken chain
    of versions that ends at the entity's version, and every part that is not
    marked dirty is there as the entity has it, under the subscriber's profile
    (parts that are dirty may or may not have been seen in a snapshot); a flush
    that succeeds brings all parts up to date.  Who is not subscribed has been told
    to forget the entity.  Entities are not closed and loaded again under the same
    identifier ([reloaded_subject_desynchronises]). *)
Theorem subscribers_in_step (w w' : world Packer Content) (n id : Z) (sj : subject Packer Content)
    (r : SubscriberRef) :
  initial w -> reaches w n w' -> n < 2 ^ 64 ->
  w_subjects w' !! id = Some sj -> sy_enabled (sj_state sj) = true ->
  match co_subscriptions (w_coordinator w') !! (r, id) with
  | None => replicaOf (io_delivered (w_io w')) r id = Absent
  | Some sub =>
      sb_State sub = SubscriptionActive /\ sb_ContentVersion sub = sy_version (sj_state sj)
      /\ exists view, replicaOf (io_delivered (w_io w')) r id = Replica (sy_version (sj_state sj)) view
         /\ (sy_fullDirty (sj_state sj) = false -> forall i, 0 <= i < 64 ->
             Z.testbit (sy_dirtyMask (sj_state sj)) i = false ->
             view i = part (sb_Profile sub) (sj_content sj) i)
  end
  /\ forall co s io sub,
       FlushSubject (w_coordinator w') (sj_state sj) (sj_content sj) (w_io w') = (co, s, io, Ok tt) ->
       co_subscriptions co !! (r, id) = Some sub ->
       exists view, replicaOf (io_delivered io) r id = Replica (sy_version s) view
         /\ forall i, 0 <= i < 64 -> view i = part (sb_Profile sub) (sj_content sj) i.
Proof.
  intros Hi Hr Hn Hid He. split; [|intros co s io sub Hf Hsub; by eapply FlushSubject_converges].
  destruct (reaches_ok w n w' Hi Hr Hn) as [_ [Hs _]].
  destruct (Hs id sj Hid) as [_ Hsub]. specialize (Hsub r).
  destruct (co_subscriptions (w_coordinator w') !! (r, id)) as [sub|]; [|done].
  destruct Hsub as (_ & _ & Ha & _ & Hv). destruct (Hv He) as (H1 & view & H2 & H3). eauto.
Qed.
(** ** A flush succeeds *)

Lemma packUpdates_total pack update profiles :
  (forall q, is_ok (pack q) = true) -> exists us, packUpdates pack update profiles = Ok us.
Proof.
  intros Hp. induction profiles as [|q profiles [us IH]]; [by exists []|]. cbn.
  specialize (Hp q). destruct (pack q); [|done]. cbn. rewrite IH. eauto.
Qed.

Lemma indexUpdates_total id updates : forall start,
  Forall (fun u => up_SubjectID u = id) updates ->
  exists m, indexUpdates id updates start = Some m
    /\ (forall u, u ∈ updates -> is_Some (m !! SyncProfile_Normalize (up_Profile u)))
    /\ (forall q, is_Some (start !! q) -> is_Some (m !! q)).
Proof.
  induction updates as [|x updates IH]; intros start Hids; cbn.
  { exists start. split_and!; [done| |done]. intros u Hu. by apply elem_of_nil in Hu. }
  apply Forall_cons in Hids as [Hx Hids]. rewrite Hx, Z.eqb_refl. cbn [negb].
  destruct (IH (<[SyncProfile_Normalize (up_Profile x) := x]> start) Hids) as (m & Hm & H1 & H2).
  exists m. split_and!; [done| |].
  - intros u [-> |Hu]%elem_of_cons; [|by apply H1]. apply H2. rewrite lookup_insert_eq. by eexists.
  - intros q Hq. apply H2. apply lookup_insert_is_Some'. by right.
Qed.

Lemma buildEnvelopes_total byProfile subs :
  (forall sub, sub ∈ subs -> is_Some (byProfile !! SyncProfile_Normalize (sb_Profile sub))) ->
  exists es, buildEnvelopes byProfile subs = Some es.
Proof.
  induction subs as [|sub subs IH]; intros Hs; [by exists []|]. cbn.
  destruct (Hs sub ltac:(left)) as [u ->]. cbn.
  destruct IH as [es ->]; [intros x Hx; apply Hs; by right|]. eauto.
Qed.

Lemma Profiles_normalized co id sub :
  id <> 0 -> sub ∈ recipients (co_subscriptions co) id ->
  SyncProfile_Normalize (sb_Profile sub) ∈ normalizeSyncProfiles (Profiles co id).
Proof.
  intros Hid Hsub.
  assert (Hin : SyncProfile_Normalize (sb_Profile sub) ∈ Profiles co id).
  { unfold Profiles, Subscribers. destruct (Z.eqb_spec id 0); [done|].
    rewrite sort_slice_perm, elem_of_elements, elem_of_list_to_set.
    by apply (list_elem_of_fmap_2 (fun s => SyncProfile_Normalize (sb_Profile s))). }
  apply elem_of_normalizeSyncProfiles. destruct (Profiles co id) as [|q qs] eqn:Hp; [by apply elem_of_nil in Hin|].
  rewrite <-Hp in *. rewrite <-Normalize_idemp. by apply list_elem_of_fmap_2.
Qed.

(** A flush of an open entity that no other flush is working on succeeds when
    its packer packs and the sink admits the batch, and leaves nothing dirty. *)
Theorem FlushSubject_succeeds (co : SubscriptionCoordinator) (s : state) (c : Content) (io : sinkIO)
    (k : Packer) (answers : list bool) :
  sy_enabled s = true -> sy_subjectID s <> 0 -> sy_inflightToken s = 0 -> sy_packer s = Some k ->
  (forall q, is_ok (PackSubjectSnapshot k c q) = true) ->
  (forall q, is_ok (PackSubjectDelta k c q (sy_dirtyMask s)) = true) ->
  co_sink co = true -> io_answers io = true :: answers ->
  exists co' s' io', FlushSubject co s c io = (co', s', io', Ok tt) /\ PendingDirty s' = false.
Proof.
  intros He Hid Hi Hk Hsnap Hdelta Hsink Hio. unfold FlushSubject.
  destruct (Z.eqb_spec (sy_subjectID s) 0) as [|_]; [done|].
  destruct (Prepare s c (Profiles co (sy_subjectID s))) as [s1 r] eqn:Hp. pose proof Hp as Hp'.
  unfold Prepare, prepareLocked in Hp'. rewrite He, Hi, Hk in Hp'. cbn [negb Z.eqb] in Hp'.
  destruct ((sy_dirtyMask s =? 0) && negb (sy_fullDirty s)) eqn:Hd.
  { injection Hp' as <- <-. exists co, s, io. split; [done|]. bool_to_prop. unfold PendingDirty. by rewrite H, H0. }
  destruct (packUpdates _ _ _) as [us|e] eqn:Hus in Hp'; last first.
  { edestruct packUpdates_total as [us Hus']; [|rewrite Hus' in Hus; discriminate Hus].
    intros q. cbn. destruct (sy_fullDirty s); [apply Hsnap|apply Hdelta]. }
  injection Hp' as _ Hr. rewrite <-Hr in Hp |- *. clear Hus Hr.
  set (p := mkPrepared _ _ _ _ us false) in *.
  apply Prepare_ok in Hp as (_ & _ & -> & Ht & Hg & Hb & _ & _ & k' & _ & Hu). cbn [pr_updates p] in Hu.
  set (s1 := set_token s _ _ _) in *.
  assert (Hids : Forall (fun u => up_SubjectID u = sy_subjectID s) us).
  { apply Forall_lookup. intros i u Hl. by destruct (Forall2_lookup_r _ _ _ _ _ Hu Hl) as (q & _ & x & y & _ & ->). }
  destruct (indexUpdates_total _ us ∅ Hids) as (m & Hm & Hmu & _).
  destruct (buildEnvelopes_total m (recipients (co_subscriptions co) (sy_subjectID s))) as [es Hes].
  { intros sub Hsub. apply (Profiles_normalized co _ _ Hid) in Hsub as Hq.
    apply list_elem_of_lookup in Hq as [i Hq]. destruct (Forall2_lookup_l _ _ _ _ _ Hu Hq) as (u & Hl & x & y & _ & Hux).
    specialize (Hmu u (list_elem_of_lookup_2 _ _ _ Hl)). rewrite Hux in Hmu. cbn in Hmu.
    by rewrite Normalize_idemp in Hmu. }
  destruct us as [|first us]; [apply Forall2_nil_inv_r in Hu; by apply normalizeSyncProfiles_nonempty in Hu|].
  assert (Hcommit : exists p', Prepared_Commit p s1
            = (p', mkSync true (sy_subjectID s) (sy_namespace s) (sy_subjectKind s) (pr_version p) 0 false
                SyncFullReasonNone (sy_dirtyGeneration s) (sy_packer s) (sy_dirtyNotifier s)
                (sy_nextToken s1) 0 None, Ok tt)).
  { unfold Prepared_Commit. cbn. rewrite He, !Z.eqb_refl. cbn. eauto. }
  destruct Hcommit as [p' Hcommit]. unfold Distribute. cbn [p pr_updates].
  rewrite (Forall_inv Hids), Hm, Hsink. destruct (Z.eqb_spec (sy_subjectID s) 0) as [|_]; [done|].
  rewrite andb_false_r. change (sortSubscriptions _) with (recipients (co_subscriptions co) (sy_subjectID s)).
  rewrite Hes. unfold admitEnvelopes. rewrite Hio. cbn [negb]. fold p. rewrite Hcommit.
  destruct es; by do 3 eexists.
Qed.
End Replicas.

(** ** Samples and witnesses *)

Section Samples.

Definition readFlags (x : FrozenSyncPayload) (i : Z) : bool :=
  match fp_data x with
  | [a; b] => if i =? 0 then Strings.Byte.eqb a Byte.x01 else if i =? 1 then Strings.Byte.eqb b Byte.x01 else false
  | _ => false
  end.

Definition flagPart (c : bool * bool) (i : Z) : bool :=
  if i =? 0 then c.1 else if i =? 1 then c.2 else false.

Lemma readFlags_pack (c : bool * bool) i : readFlags (mkFrozen 1 [flagByte c.1; flagByte c.2]) i = flagPart c i.
Proof. unfold readFlags, flagPart. cbn. destruct c as [[] []]; cbn; by repeat case_match. Qed.

#[refine, global] Instance flagReader : SyncReader (SubjectSyncPackFunc (bool * bool)) (bool * bool) bool := {
  part _ := flagPart;
  readSnapshot _ := readFlags;
  readDelta _ _ := readFlags;
  lawful k := k = sample_packer
}.
Proof.
  - intros k c q x i -> [= <-] _. apply readFlags_pack.
  - intros k c q m x i -> [= <-] _ _. apply readFlags_pack.
  - by intros k c q ->.
  - by intros k c q m ->.
Defined.

Definition player (id : Z) : SubscriberRef := mkSubscriber SubscriberKindPlayer id 0 "".

Definition sample_sync_world : world (SubjectSyncPackFunc (bool * bool)) (bool * bool) :=
  mkSyncWorld (NewSubscriptionCoordinator true) {[ 7 := mkSubject sample_new (false, false) None ]}
    (mkIO [true; true; true; false; true; true; true] []).

(** A second player enters and the content changes again while an update is on
    its way; then the sink refuses once. *)
Definition sample_sync_events : list (syncEvent (SubjectSyncPackFunc (bool * bool)) (bool * bool)) :=
  [EvSubscribe (player 1) 7 (mkProfile "" 0 0); EvChange 7 (true, false) 1; EvPrepare 7 [];
   EvChange 7 (true, true) 2; EvSubscribe (player 2) 7 (mkProfile "" 0 0); EvDistribute 7;
   EvPrepare 7 []; EvDistribute 7].

Definition sample_reached := foldl syncStep sample_sync_world sample_sync_events.

Lemma allowed_change (w : world (SubjectSyncPackFunc (bool * bool)) (bool * bool)) id c c' mask :
  sj_content <$> w_subjects w !! id = Some c -> within mask c c' -> allowed w (EvChange id c' mask).
Proof. intros Hc Hw sj Hsj. rewrite Hsj in Hc. by injection Hc as ->. Qed.

Lemma sample_initial : initial sample_sync_world.
Proof.
  split_and!; [done|done|]. intros id sj Hid. cbn in Hid.
  apply lookup_singleton_Some in Hid as [<- <-]. split; [done|].
  exists "npc"%string, 3, (Some sample_packer). split; [done|]. by intros k [= <-].
Qed.

Lemma sample_reaches : reaches sample_sync_world 8 sample_reached.
Proof.
  change 8 with (0 + 1 + 1 + 1 + 1 + 1 + 1 + 1 + 1).
  unfold sample_reached, sample_sync_events. cbn [foldl].
  repeat (apply reaches_step; [|try exact I]).
  - apply reaches_refl.
  - apply (allowed_change _ _ (false, false)); [vm_compute; reflexivity|].
    intros q i _ Hb. cbn. unfold flagPart. destruct (Z.eqb_spec i 0) as [-> |]; [discriminate Hb|done].
  - apply (allowed_change _ _ (true, false)); [vm_compute; reflexivity|].
    intros q i _ Hb. cbn. unfold flagPart. destruct (i =? 0); [done|].
    destruct (Z.eqb_spec i 1) as [-> |]; [discriminate Hb|done].
Qed.

Definition sample_subject : subject (SubjectSyncPackFunc (bool * bool)) (bool * bool) :=
  default (mkSubject sample_new (false, false) None) (w_subjects sample_reached !! 7).

Lemma sample_subject_found : w_subjects sample_reached !! 7 = Some sample_subject.
Proof.
  unfold sample_subject. destruct (w_subjects sample_reached !! 7) eqn:E; [done|].
  assert (H : bool_decide (is_Some (w_subjects sample_reached !! 7)) = true) by (vm_compute; reflexivity).
  by rewrite E in H.
Qed.

Lemma subscribers_in_step_witness :
  exists sub view, co_subscriptions (w_coordinator sample_reached) !! (player 2, 7) = Some sub
    /\ replicaOf (io_delivered (w_io sample_reached)) (player 2) 7
       = Replica (sy_version (sj_state sample_subject)) view.
Proof.
  pose proof (subscribers_in_step sample_sync_world sample_reached 8 7 sample_subject (player 2)
                sample_initial sample_reaches ltac:(lia) sample_subject_found
                ltac:(vm_compute; reflexivity)) as H.
  destruct (co_subscriptions (w_coordinator sample_reached) !! (player 2, 7)) as [sub|] eqn:E.
  - destruct H as [(_ & _ & view & Hv & _) _]. exists sub, view. split; [reflexivity|exact Hv].
  - exfalso. assert (Hs : bool_decide (is_Some (co_subscriptions (w_coordinator sample_reached) !! (player 2, 7))) = true)
      by (vm_compute; reflexivity). rewrite E in Hs. discriminate Hs.
Defined.

Definition sample_flush :=
  FlushSubject (w_coordinator sample_reached) (sj_state sample_subject) (sj_content sample_subject)
    (w_io sample_reached).

Lemma sample_flush_ok : sample_flush.2 = Ok tt.
Proof. vm_compute. reflexivity. Qed.

Lemma FlushSubject_converges_witness :
  exists view, replicaOf (io_delivered sample_flush.1.2) (player 1) 7 = Replica 2 view
    /\ view 0 = true /\ view 1 = true.
Proof.
  destruct sample_flush as [[[co s] io] r] eqn:Hf.
  assert (Hr : r = Ok tt) by (rewrite <-sample_flush_ok, Hf; reflexivity).
  assert (Hco : co = sample_flush.1.1.1) by (rewrite Hf; reflexivity).
  assert (Hv : sy_version s = 2).
  { assert (Hs : s = sample_flush.1.1.2) by (rewrite Hf; reflexivity). rewrite Hs. vm_compute. reflexivity. }
  destruct (co_subscriptions co !! (player 1, 7)) as [sub|] eqn:Hsub.
  - rewrite Hr in Hf. destruct (FlushSubject_converges sample_sync_world sample_reached 8 7 sample_subject
                                  co s io (player 1) sub sample_initial sample_reaches ltac:(lia)
                                  sample_subject_found Hf Hsub) as (view & Hrep & Hview).
    exists view. rewrite Hv in Hrep. split; [exact Hrep|].
    rewrite !Hview by lia. split; vm_compute; reflexivity.
  - exfalso. assert (Hs : bool_decide (is_Some (co_subscriptions co !! (player 1, 7))) = true)
      by (rewrite Hco; vm_compute; reflexivity). rewrite Hsub in Hs. discriminate Hs.
Defined.

Lemma FlushSubject_succeeds_witness :
  exists co' s' io', FlushSubject (w_coordinator sample_reached) (sj_state sample_subject)
      (sj_content sample_subject) (w_io sample_reached) = (co', s', io', Ok tt)
    /\ PendingDirty s' = false.
Proof.
  apply (FlushSubject_succeeds (w_coordinator sample_reached) (sj_state sample_subject)
           (sj_content sample_subject) (w_io sample_reached) sample_packer [true; true]).
  - vm_compute. reflexivity.
  - vm_compute. discriminate.
  - vm_compute. reflexivity.
  - vm_compute. reflexivity.
  - intros q. reflexivity.
  - intros q. reflexivity.
  - vm_compute. reflexivity.
  - vm_compute. reflexivity.
Defined.

(** ** Where the coordinator deviates *)

(** The same entity, loaded again under its identifier, starts at version 0. *)
Definition reloaded (w : world (SubjectSyncPackFunc (bool * bool)) (bool * bool)) :=
  set_subject w 7 (mkSubject sample_new (false, false) None).

(** A subscription outlives its entity: after the entity was closed and loaded
    again, subscribing again returns the old subscription without a snapshot,
    and the next update does not continue the version the subscriber has. *)
Theorem reloaded_subject_desynchronises :
  let before := foldl syncStep sample_sync_world
    [EvSubscribe (player 1) 7 (mkProfile "" 0 0); EvChange 7 (true, false) 1; EvPrepare 7 []; EvDistribute 7;
     EvClose 7] in
  let after := syncStep (reloaded before) (EvSubscribe (player 1) 7 (mkProfile "" 0 0)) in
  let flushed := foldl syncStep after [EvChange 7 (false, true) 2; EvPrepare 7 []; EvDistribute 7] in
  len (io_delivered (w_io after)) = len (io_delivered (w_io before))
  /\ replicaOf (io_delivered (w_io flushed)) (player 1) 7 = Desynchronised.
Proof. vm_compute. split; reflexivity. Qed.

End Samples.
