(* ===== verification/GroupLock.v ===== *)
(** * Locks of entity groups

    [src/lock/reentrant_mutex.go]: mutexes that a goroutine may take again, and
    the table of group locks of [src/nest/group_lock.go], whose entries are
    created on demand, counted and dropped when nobody uses them.  Goroutines
    interleave at every critical section: taking a group lock is the lookup and
    count, the attempt on the mutex, and, when it fails, the release of the
    count. *)

From stdpp Require Import base list gmap.
From Stdlib Require Import ZArith Lia.
From S2P Require Import Prelude.

Local Open Scope Z_scope.

(** ** Reentrant mutexes *)

(** [rm_owner] is a goroutine identifier, which is positive, or 0. *)
Record ReentrantMutex := mkMutex { rm_owner : Z; rm_recursion : Z }.

Definition NewReentrantMutex : ReentrantMutex := mkMutex 0 0.

Definition wrapi32 (z : Z) : Z := (z + 2 ^ 31) mod 2 ^ 32 - 2 ^ 31.

Definition TryLock (m : ReentrantMutex) (gid : Z) : ReentrantMutex * bool :=
  if rm_owner m =? gid then (mkMutex (rm_owner m) (wrapi32 (rm_recursion m + 1)), true)
  else if negb (rm_owner m =? 0) then (m, false)
  else (mkMutex gid 1, true).

(** [None] is the panic of a goroutine that does not own the mutex. *)
Definition Unlock (m : ReentrantMutex) (gid : Z) : option ReentrantMutex :=
  if negb (rm_owner m =? gid) then None else
  let recursion := wrapi32 (rm_recursion m - 1) in
  if recursion <? 0 then None
  else Some (mkMutex (if recursion =? 0 then 0 else rm_owner m) recursion).

(** One turn of the waiting loop of [Lock]: the lock, or another turn. *)
Definition Lock_turn (m : ReentrantMutex) (gid : Z) : ReentrantMutex * bool :=
  if rm_owner m =? gid then (mkMutex (rm_owner m) (wrapi32 (rm_recursion m + 1)), true)
  else if rm_owner m =? 0 then (mkMutex gid 1, true)
  else (m, false).

(** One turn of [LockWithTimeout]: [None] when the deadline has passed. *)
Definition LockWithTimeout_turn (m : ReentrantMutex) (gid : Z) (expired : bool)
    : option (ReentrantMutex * bool) :=
  if rm_owner m =? gid then Some (mkMutex (rm_owner m) (wrapi32 (rm_recursion m + 1)), true)
  else if rm_owner m =? 0 then Some (mkMutex gid 1, true)
  else if expired then None
  else Some (m, false).

(** ** The table of group locks *)

Record entityLockGroupLockEntry := mkLockEntry {
  le_groupID : Z;
  le_mu : ReentrantMutex;
  le_refs : Z
}.

(** Where a goroutine is in [acquire] or [release]. *)
Inductive lockPc := PcIdle | PcTryLock (entry : nat) | PcReleaseRef (entry : nat).

(** The entries a goroutine has acquired and not released. *)
Record goroutine := mkGoroutine { go_pc : lockPc; go_held : list nat }.

(** Entries are pointers into a heap; goroutine [i] has identifier [i + 1]. *)
Record entityLockGroupLockManager := mkManager {
  lm_entries : list entityLockGroupLockEntry;
  lm_locks : gmap Z nat;
  lm_goroutines : list goroutine;
  lm_panicked : bool
}.

Definition newEntityLockGroupLockManager (goroutines : nat) : entityLockGroupLockManager :=
  mkManager [] ∅ (replicate goroutines (mkGoroutine PcIdle [])) false.

Definition goID (i : nat) : Z := Z.of_nat i + 1.

Definition add_ref (entry : entityLockGroupLockEntry) (d : Z) : entityLockGroupLockEntry :=
  mkLockEntry (le_groupID entry) (le_mu entry) (le_refs entry + d).

Definition set_mu (entry : entityLockGroupLockEntry) (mu : ReentrantMutex) : entityLockGroupLockEntry :=
  mkLockEntry (le_groupID entry) mu (le_refs entry).

Fixpoint remove_one (e : nat) (l : list nat) : list nat :=
  match l with
  | [] => []
  | x :: l => if bool_decide (x = e) then l else x :: remove_one e l
  end.

(** The critical section of [acquire] for a group other than 0. *)
Definition acquireRef (m : entityLockGroupLockManager) (i : nat) (g : goroutine) (groupID : Z)
    : entityLockGroupLockManager :=
  let '(entries, locks, e) :=
    match lm_locks m !! groupID with
    | Some e => (lm_entries m, lm_locks m, e)
    | None => (lm_entries m ++ [mkLockEntry groupID NewReentrantMutex 0],
               <[groupID := length (lm_entries m)]> (lm_locks m), length (lm_entries m))
    end in
  match entries !! e with
  | None => m
  | Some entry =>
      mkManager (<[e := add_ref entry 1]> entries) locks
        (<[i := mkGoroutine (PcTryLock e) (go_held g)]> (lm_goroutines m)) (lm_panicked m)
  end.

Definition releaseRef (m : entityLockGroupLockManager) (i : nat) (g : goroutine) (e : nat)
    : entityLockGroupLockManager :=
  match lm_entries m !! e with
  | None => m
  | Some entry =>
      let entry := add_ref entry (-1) in
      let drops := (le_refs entry =? 0) && bool_decide (lm_locks m !! le_groupID entry = Some e) in
      mkManager (<[e := entry]> (lm_entries m))
        (if drops then delete (le_groupID entry) (lm_locks m) else lm_locks m)
        (<[i := mkGoroutine PcIdle (go_held g)]> (lm_goroutines m)) (lm_panicked m)
  end.

(** The attempt of [acquire] on the mutex of the entry. *)
Definition tryEntry (m : entityLockGroupLockManager) (i : nat) (g : goroutine) (e : nat)
    : entityLockGroupLockManager :=
  match lm_entries m !! e with
  | None => m
  | Some entry =>
      match TryLock (le_mu entry) (goID i) with
      | (mu, true) =>
          mkManager (<[e := set_mu entry mu]> (lm_entries m)) (lm_locks m)
            (<[i := mkGoroutine PcIdle (e :: go_held g)]> (lm_goroutines m)) (lm_panicked m)
      | (_, false) =>
          mkManager (lm_entries m) (lm_locks m)
            (<[i := mkGoroutine (PcReleaseRef e) (go_held g)]> (lm_goroutines m)) (lm_panicked m)
      end
  end.

(** The first half of [release]: the mutex is unlocked. *)
Definition unlockEntry (m : entityLockGroupLockManager) (i : nat) (g : goroutine) (e : nat)
    : entityLockGroupLockManager :=
  match lm_entries m !! e with
  | None => m
  | Some entry =>
      match Unlock (le_mu entry) (goID i) with
      | None => mkManager (lm_entries m) (lm_locks m) (lm_goroutines m) true
      | Some mu =>
          mkManager (<[e := set_mu entry mu]> (lm_entries m)) (lm_locks m)
            (<[i := mkGoroutine (PcReleaseRef e) (remove_one e (go_held g))]> (lm_goroutines m))
            (lm_panicked m)
      end
  end.

(** What a goroutine does next: start [acquire] or [release], or go on with it. *)
Inductive lockAction := ActAcquire (groupID : Z) | ActRelease (entry : nat) | ActContinue.

(** One critical section of goroutine [i]; a goroutine releases only what it
    acquired, and calls nothing while a call is running. *)
Definition lockStep (m : entityLockGroupLockManager) (i : nat) (a : lockAction)
    : entityLockGroupLockManager :=
  match lm_goroutines m !! i with
  | None => m
  | Some g =>
      match go_pc g, a with
      | PcIdle, ActAcquire groupID => if groupID =? 0 then m else acquireRef m i g groupID
      | PcIdle, ActRelease e => if bool_decide (e ∈ go_held g) then unlockEntry m i g e else m
      | PcTryLock e, ActContinue => tryEntry m i g e
      | PcReleaseRef e, ActContinue => releaseRef m i g e
      | _, _ => m
      end
  end.

Definition lockRun (m : entityLockGroupLockManager) (schedule : list (nat * lockAction))
    : entityLockGroupLockManager :=
  foldl (fun m x => lockStep m x.1 x.2) m schedule.

(** ** Specification *)

(** A goroutine holds the lock of a group. *)
Definition holds (m : entityLockGroupLockManager) (i : nat) (groupID : Z) : Prop :=
  exists g e entry, lm_goroutines m !! i = Some g /\ e ∈ go_held g
    /\ lm_entries m !! e = Some entry /\ le_groupID entry = groupID.

(** Nobody holds a lock or is in a call. *)
Definition quiescent (m : entityLockGroupLockManager) : Prop :=
  Forall (fun g => go_pc g = PcIdle /\ go_held g = []) (lm_goroutines m).

(** ** Invariant *)

Definition count (e : nat) (l : list nat) : nat := length (filter (eq e) l).

Definition pc_uses (e : nat) (pc : lockPc) : nat :=
  match pc with
  | PcIdle => 0
  | PcTryLock e' | PcReleaseRef e' => if bool_decide (e' = e) then 1 else 0
  end.

Definition uses (e : nat) (g : goroutine) : nat := (count e (go_held g) + pc_uses e (go_pc g))%nat.

(** The mutex counts the acquisitions of its owner, and only the owner has any. *)
Definition mutex_ok (e : nat) (mu : ReentrantMutex) (gs : list goroutine) : Prop :=
  (rm_owner mu = 0 -> rm_recursion mu = 0) /\ (rm_owner mu <> 0 -> 0 < rm_recursion mu)
  /\ (forall i g, gs !! i = Some g ->
        Z.of_nat (count e (go_held g)) = if rm_owner mu =? goID i then rm_recursion mu else 0)
  /\ (rm_owner mu <> 0 -> exists i, (i < length gs)%nat /\ rm_owner mu = goID i).

Record manager_ok (n : Z) (m : entityLockGroupLockManager) : Prop := {
  mo_calm : lm_panicked m = false;
  mo_refs : forall e entry, lm_entries m !! e = Some entry ->
    le_refs entry = Z.of_nat (sum_list_with (uses e) (lm_goroutines m));
  mo_listed : forall e entry, lm_entries m !! e = Some entry -> 0 < le_refs entry ->
    lm_locks m !! le_groupID entry = Some e;
  mo_used : forall groupID e, lm_locks m !! groupID = Some e ->
    exists entry, lm_entries m !! e = Some entry /\ le_groupID entry = groupID /\ 0 < le_refs entry;
  mo_mutex : forall e entry, lm_entries m !! e = Some entry -> mutex_ok e (le_mu entry) (lm_goroutines m);
  mo_bounded : forall e entry, lm_entries m !! e = Some entry -> rm_recursion (le_mu entry) <= n;
  mo_valid : forall i g e, lm_goroutines m !! i = Some g -> (0 < uses e g)%nat -> (e < length (lm_entries m))%nat
}.

(** ** Lemmas: counting *)

Lemma count_cons e x l : count e (x :: l) = (count e l + if decide (e = x) then 1 else 0)%nat.
Proof. unfold count. rewrite filter_cons. case_decide; cbn; lia. Qed.

Lemma count_pos e l : (0 < count e l)%nat <-> e ∈ l.
Proof.
  induction l as [|x l IH]; [split; [cbn; lia|intros H; by apply elem_of_nil in H]|].
  rewrite count_cons, elem_of_cons, <-IH. case_decide; split; [by left|lia|intros ?; right; lia|intros [?|?]; [done|lia]].
Qed.

Lemma count_remove_one e e' l :
  e ∈ l -> (count e' (remove_one e l) + (if decide (e' = e) then 1 else 0) = count e' l)%nat.
Proof.
  intros Hin. induction l as [|x l IH]; [by apply elem_of_nil in Hin|]. cbn [remove_one].
  destruct (bool_decide_reflect (x = e)) as [-> |Hx]; [by rewrite count_cons|].
  rewrite !count_cons. apply elem_of_cons in Hin as [? |Hin]; [congruence|]. specialize (IH Hin). lia.
Qed.

Lemma wrapi32_small z : - 2 ^ 31 <= z < 2 ^ 31 -> wrapi32 z = z.
Proof. intros H. unfold wrapi32. rewrite Z.mod_small; lia. Qed.

Lemma goID_inj i j : goID i = goID j -> i = j.
Proof. unfold goID. lia. Qed.

(** ** Lemmas: the mutex of an entry *)

Lemma mutex_ok_same e mu gs i g g' :
  gs !! i = Some g -> count e (go_held g') = count e (go_held g) ->
  mutex_ok e mu gs -> mutex_ok e mu (<[i := g']> gs).
Proof.
  intros Hi Hc (H1 & H2 & H3 & H4). split_and!; [done|done| |by rewrite length_insert].
  intros j x [(<- & <- & _)|[_ Hj]]%list_lookup_insert_Some; [|by apply H3]. rewrite Hc. by apply H3.
Qed.

Lemma mutex_ok_TryLock e mu gs i g g' mu' :
  gs !! i = Some g -> count e (go_held g') = S (count e (go_held g)) -> rm_recursion mu < 2 ^ 31 - 1 ->
  mutex_ok e mu gs -> TryLock mu (goID i) = (mu', true) ->
  mutex_ok e mu' (<[i := g']> gs) /\ rm_recursion mu' <= rm_recursion mu + 1.
Proof.
  intros Hi Hc Hlt (H1 & H2 & H3 & H4) Ht. unfold TryLock in Ht.
  assert (Hlen := lookup_lt_Some _ _ _ Hi). pose proof (H3 i g Hi) as Hown.
  destruct (Z.eqb_spec (rm_owner mu) (goID i)) as [Eo|Eo].
  - assert (Hpos : 0 < rm_recursion mu) by (apply H2; rewrite Eo; unfold goID; lia).
    rewrite wrapi32_small in Ht by lia. injection Ht as <-. split; [|cbn; lia].
    split_and!; cbn; [intros E0; rewrite E0 in Eo; unfold goID in Eo; lia|lia| |rewrite length_insert; eauto].
    intros j x [(<- & <- & _)|[Hne Hj]]%list_lookup_insert_Some.
    + rewrite Hc, Eo, Z.eqb_refl. lia.
    + rewrite (H3 j x Hj). destruct (Z.eqb_spec (rm_owner mu) (goID j)) as [Ej|]; [|done].
      rewrite Eo in Ej. by apply goID_inj in Ej.
  - destruct (Z.eqb_spec (rm_owner mu) 0) as [E0|]; [|done]. injection Ht as <-.
    rewrite H1 by done. split; [|cbn; lia].
    split_and!; cbn; [unfold goID; lia|lia| |rewrite length_insert; eauto].
    intros j x [(<- & <- & _)|[Hne Hj]]%list_lookup_insert_Some.
    + rewrite Hc, Z.eqb_refl. lia.
    + rewrite (H3 j x Hj), E0. destruct (Z.eqb_spec 0 (goID j)) as [E|]; [unfold goID in E; lia|].
      destruct (Z.eqb_spec (goID i) (goID j)) as [Ej|]; [by apply goID_inj in Ej|done].
Qed.

(** A goroutine that holds an entry can unlock it. *)
Lemma mutex_ok_Unlock e mu gs i g g' :
  gs !! i = Some g -> e ∈ go_held g -> S (count e (go_held g')) = count e (go_held g) ->
  rm_recursion mu < 2 ^ 31 -> mutex_ok e mu gs ->
  exists mu', Unlock mu (goID i) = Some mu' /\ mutex_ok e mu' (<[i := g']> gs)
              /\ rm_recursion mu' <= rm_recursion mu.
Proof.
  intros Hi Hin Hc Hlt (H1 & H2 & H3 & H4). apply count_pos in Hin.
  assert (Hlen := lookup_lt_Some _ _ _ Hi). pose proof (H3 i g Hi) as Hown. unfold Unlock.
  destruct (Z.eqb_spec (rm_owner mu) (goID i)) as [Eo|Eo]; [|lia]. cbn [negb].
  assert (Hpos : 0 < rm_recursion mu) by (apply H2; rewrite Eo; unfold goID; lia).
  rewrite wrapi32_small by lia. destruct (Z.ltb_spec (rm_recursion mu - 1) 0); [lia|].
  eexists. split; [done|]. split; [|cbn; lia].
  assert (Hother : forall j x, i <> j -> gs !! j = Some x -> Z.of_nat (count e (go_held x)) = 0).
  { intros j x Hne Hj. rewrite (H3 j x Hj). destruct (Z.eqb_spec (rm_owner mu) (goID j)) as [Ej|]; [|done].
    rewrite Eo in Ej. by apply goID_inj in Ej. }
  destruct (Z.eqb_spec (rm_recursion mu - 1) 0) as [E1|E1]; split_and!; cbn.
  - lia.
  - done.
  - intros j x [(<- & <- & _)|[Hne Hj]]%list_lookup_insert_Some.
    + case_match; lia.
    + rewrite (Hother j x Hne Hj). case_match; lia.
  - done.
  - rewrite Eo. unfold goID. lia.
  - lia.
  - intros j x [(<- & <- & _)|[Hne Hj]]%list_lookup_insert_Some.
    + rewrite Eo, Z.eqb_refl. lia.
    + rewrite (Hother j x Hne Hj). destruct (Z.eqb_spec (rm_owner mu) (goID j)) as [Ej|]; [|done].
      rewrite Eo in Ej. by apply goID_inj in Ej.
  - intros _. exists i. rewrite length_insert. by split.
Qed.

(** ** Lemmas: the steps *)

Lemma uses_insert e gs i g g' :
  gs !! i = Some g ->
  (sum_list_with (uses e) (<[i := g']> gs) + uses e g = sum_list_with (uses e) gs + uses e g')%nat.
Proof. apply sum_insert. Qed.

Lemma unused_sum m n e :
  manager_ok n m -> (length (lm_entries m) <= e)%nat -> sum_list_with (uses e) (lm_goroutines m) = 0%nat.
Proof.
  intros Hm He. apply sum_zero. intros i g Hi. destruct (uses e g) eqn:E; [done|].
  assert (Hu : (0 < uses e g)%nat) by lia. apply (mo_valid n m Hm i g e Hi) in Hu. lia.
Qed.

(** The goroutine changes where it is in a call on [e], and the references of
    [e] follow. *)
Lemma refs_step n m i g g' e entry d :
  manager_ok n m -> lm_goroutines m !! i = Some g -> lm_entries m !! e = Some entry ->
  go_held g' = go_held g ->
  (forall e', Z.of_nat (uses e' g') = Z.of_nat (uses e' g) + if decide (e' = e) then d else 0) ->
  forall e' entry', <[e := add_ref entry d]> (lm_entries m) !! e' = Some entry' ->
  le_refs entry' = Z.of_nat (sum_list_with (uses e') (<[i := g']> (lm_goroutines m)))
  /\ mutex_ok e' (le_mu entry') (<[i := g']> (lm_goroutines m)) /\ rm_recursion (le_mu entry') <= n.
Proof.
  intros Hm Hg He Hheld Hd e' entry' He'. pose proof (uses_insert e' _ i g g' Hg) as Hsum.
  specialize (Hd e').
  apply list_lookup_insert_Some in He' as [(<- & <- & _)|[Hne He']].
  - rewrite decide_True in Hd by done. cbn. rewrite (mo_refs n m Hm e entry He). split_and!; [lia| |].
    + eapply mutex_ok_same; [done|by rewrite Hheld|by eapply mo_mutex].
    + by eapply mo_bounded.
  - rewrite decide_False in Hd by done. rewrite (mo_refs n m Hm e' entry' He'). split_and!; [lia| |].
    + eapply mutex_ok_same; [done|by rewrite Hheld|by eapply mo_mutex].
    + by eapply mo_bounded.
Qed.

(** A fresh entry that nobody uses may be added. *)
Lemma fresh_ok n m groupID :
  0 <= n -> manager_ok n m ->
  manager_ok n (mkManager (lm_entries m ++ [mkLockEntry groupID NewReentrantMutex 0]) (lm_locks m)
                  (lm_goroutines m) (lm_panicked m)).
Proof.
  intros Hn Hm. set (fresh := mkLockEntry groupID NewReentrantMutex 0).
  assert (Hcase : forall e entry, (lm_entries m ++ [fresh]) !! e = Some entry ->
            lm_entries m !! e = Some entry \/ e = length (lm_entries m) /\ entry = fresh).
  { intros e entry He. apply lookup_app_Some in He as [He|[Hle He]]; [by left|right].
    destruct (e - length (lm_entries m))%nat as [|k] eqn:Ek; [|done]. injection He as <-. split; [lia|done]. }
  split; cbn.
  - apply Hm.
  - intros e entry [He|[-> ->]]%Hcase; [by apply (mo_refs n m Hm)|]. by rewrite (unused_sum m n).
  - intros e entry [He|[-> ->]]%Hcase; [by apply (mo_listed n m Hm)|done].
  - intros gr e Hl. destruct (mo_used n m Hm gr e Hl) as (entry & He & H). exists entry. split; [|done].
    by apply lookup_app_l_Some.
  - intros e entry [He|[-> ->]]%Hcase; [by apply (mo_mutex n m Hm)|]. split_and!; cbn; try done.
    intros i g Hi. assert (Hz : uses (length (lm_entries m)) g = 0%nat).
    { pose proof (sum_at_least (uses (length (lm_entries m))) _ i g Hi) as Hs.
      rewrite (unused_sum m n _ Hm) in Hs by lia. lia. }
    unfold uses in Hz. destruct (match goID i with 0 => true | _ => false end); lia.
  - intros e entry [He|[-> ->]]%Hcase; [by apply (mo_bounded n m Hm e)|done].
  - intros i g e Hi Hu. rewrite length_app. cbn. pose proof (mo_valid n m Hm i g e Hi Hu). lia.
Qed.

Lemma acquire_ok n m i g e entry groupID :
  manager_ok n m -> lm_goroutines m !! i = Some g -> go_pc g = PcIdle ->
  lm_entries m !! e = Some entry -> le_groupID entry = groupID ->
  lm_locks m !! groupID = Some e \/ lm_locks m !! groupID = None ->
  manager_ok n (mkManager (<[e := add_ref entry 1]> (lm_entries m)) (<[groupID := e]> (lm_locks m))
    (<[i := mkGoroutine (PcTryLock e) (go_held g)]> (lm_goroutines m)) (lm_panicked m)).
Proof.
  intros Hm Hi Hpc He Hgr Hl. pose proof (lookup_lt_Some _ _ _ He) as Hlen.
  set (g' := mkGoroutine (PcTryLock e) (go_held g)).
  assert (Hu : forall e', Z.of_nat (uses e' g') = Z.of_nat (uses e' g) + if decide (e' = e) then 1 else 0).
  { intros e'. unfold uses. rewrite Hpc. cbn [g' go_held go_pc pc_uses].
    destruct (bool_decide_reflect (e = e')), (decide (e' = e)); try congruence; lia. }
  pose proof (refs_step n m i g g' e entry 1 Hm Hi He eq_refl Hu) as Hstep.
  assert (Hnn : 0 <= le_refs entry) by (rewrite (mo_refs n m Hm e entry He); lia).
  split; cbn.
  - apply Hm.
  - intros e' entry' He'. by apply Hstep.
  - intros e' entry' [(<- & <- & _)|[Hne He']]%list_lookup_insert_Some Hpos; cbn.
    + rewrite Hgr. apply lookup_insert_eq.
    + pose proof (mo_listed n m Hm e' entry' He' Hpos) as Hlk. rewrite lookup_insert_ne; [done|].
      intros E. rewrite <-E in Hlk. destruct Hl; congruence.
  - intros gr e' [[<- <-]|[Hne Hlk]]%lookup_insert_Some.
    + exists (add_ref entry 1). rewrite list_lookup_insert_eq by done. split_and!; [done|done|cbn; lia].
    + destruct (mo_used n m Hm gr e' Hlk) as (entry' & He' & Hg' & Hp'). exists entry'.
      rewrite list_lookup_insert_ne by congruence. done.
  - intros e' entry' He'. by apply Hstep.
  - intros e' entry' He'. by apply (Hstep e').
  - rewrite length_insert. intros j x e' [(<- & <- & _)|[_ Hj]]%list_lookup_insert_Some Hpos.
    + specialize (Hu e'). destruct (decide (e' = e)) as [-> |]; [done|]. apply (mo_valid n m Hm i g e' Hi). lia.
    + by apply (mo_valid n m Hm j x e').
Qed.

Lemma releaseRef_ok n m i g e :
  manager_ok n m -> lm_goroutines m !! i = Some g -> go_pc g = PcReleaseRef e ->
  manager_ok n (releaseRef m i g e).
Proof.
  intros Hm Hi Hpc. unfold releaseRef. destruct (lm_entries m !! e) as [entry|] eqn:He; [|done].
  set (g' := mkGoroutine PcIdle (go_held g)).
  assert (Hone : (1 <= uses e g)%nat) by (unfold uses; rewrite Hpc; cbn; rewrite bool_decide_true by done; lia).
  assert (Hu : forall e', Z.of_nat (uses e' g') = Z.of_nat (uses e' g) + if decide (e' = e) then -1 else 0).
  { intros e'. unfold uses in *. rewrite Hpc. cbn [g' go_held go_pc pc_uses].
    destruct (bool_decide_reflect (e = e')), (decide (e' = e)); try congruence; lia. }
  pose proof (refs_step n m i g g' e entry (-1) Hm Hi He eq_refl Hu) as Hstep.
  assert (Hpos : 0 < le_refs entry).
  { rewrite (mo_refs n m Hm e entry He). pose proof (sum_at_least (uses e) _ i g Hi). lia. }
  pose proof (mo_listed n m Hm e entry He Hpos) as Hlk. cbn [add_ref le_refs le_groupID].
  rewrite bool_decide_true, andb_true_r by done.
  assert (Hdel : forall gr, (if le_refs entry + -1 =? 0 then delete (le_groupID entry) (lm_locks m) else lm_locks m) !! gr
             = if decide (gr = le_groupID entry /\ le_refs entry = 1) then None else lm_locks m !! gr).
  { intros gr. destruct (Z.eqb_spec (le_refs entry + -1) 0).
    - destruct (decide (gr = le_groupID entry)) as [-> |].
      + rewrite lookup_delete_eq, decide_True; [done|]. split; [done|lia].
      + rewrite lookup_delete_ne, decide_False by (done || (by intros [? _])). done.
    - rewrite decide_False; [done|]. intros [_ ?]. lia. }
  split; cbn.
  - apply Hm.
  - intros e' entry' He'. by apply Hstep.
  - intros e' entry' [(<- & <- & _)|[Hne He']]%list_lookup_insert_Some Hp; cbn in *; rewrite Hdel.
    + rewrite decide_False; [done|]. intros [_ ?]. lia.
    + pose proof (mo_listed n m Hm e' entry' He' Hp). rewrite decide_False; [done|]. intros [E _]. congruence.
  - intros gr e' Hl. rewrite Hdel in Hl. case_decide as Hd; [done|].
    destruct (mo_used n m Hm gr e' Hl) as (entry' & He' & Hg' & Hp').
    destruct (decide (e = e')) as [<-|Hne].
    + exists (add_ref entry (-1)). rewrite list_lookup_insert_eq by (by eapply lookup_lt_Some).
      assert (entry' = entry) as -> by congruence. split_and!; [done|done|]. cbn.
      destruct (decide (le_refs entry = 1)); [|lia]. exfalso. apply Hd. by split.
    + exists entry'. by rewrite list_lookup_insert_ne.
  - intros e' entry' He'. by apply Hstep.
  - intros e' entry' He'. by apply (Hstep e').
  - rewrite length_insert. intros j x e' [(<- & <- & _)|[_ Hj]]%list_lookup_insert_Some Hp.
    + specialize (Hu e'). apply (mo_valid n m Hm i g e' Hi). destruct (decide (e' = e)); lia.
    + by apply (mo_valid n m Hm j x e').
Qed.

(** The mutex of [e] changes with what the goroutine holds of it; references stay. *)
Lemma mutex_step n m i g g' e entry mu :
  manager_ok n m -> lm_goroutines m !! i = Some g -> lm_entries m !! e = Some entry ->
  (forall e', uses e' g' = uses e' g) -> (forall e', e' <> e -> count e' (go_held g') = count e' (go_held g)) ->
  mutex_ok e mu (<[i := g']> (lm_goroutines m)) -> rm_recursion mu <= n + 1 ->
  manager_ok (n + 1) (mkManager (<[e := set_mu entry mu]> (lm_entries m)) (lm_locks m)
                        (<[i := g']> (lm_goroutines m)) (lm_panicked m)).
Proof.
  intros Hm Hi He Hu Hc Hmu Hrec. pose proof (lookup_lt_Some _ _ _ He) as Hlen.
  assert (Hsum : forall e', sum_list_with (uses e') (<[i := g']> (lm_goroutines m))
                            = sum_list_with (uses e') (lm_goroutines m)).
  { intros e'. pose proof (uses_insert e' _ i g g' Hi) as Hs. rewrite Hu in Hs. lia. }
  split; cbn.
  - apply Hm.
  - intros e' entry' [(<- & <- & _)|[_ He']]%list_lookup_insert_Some; rewrite Hsum; cbn; by apply (mo_refs n m Hm).
  - intros e' entry' [(<- & <- & _)|[_ He']]%list_lookup_insert_Some; cbn; by apply (mo_listed n m Hm).
  - intros gr e' Hl. destruct (mo_used n m Hm gr e' Hl) as (entry' & He' & H).
    destruct (decide (e = e')) as [<-|Hne].
    + exists (set_mu entry mu). rewrite list_lookup_insert_eq by done.
      assert (entry' = entry) as -> by congruence. by split.
    + exists entry'. by rewrite list_lookup_insert_ne.
  - intros e' entry' [(<- & <- & _)|[Hne He']]%list_lookup_insert_Some; [done|].
    eapply mutex_ok_same; [done|by apply Hc|by eapply mo_mutex].
  - intros e' entry' [(<- & <- & _)|[Hne He']]%list_lookup_insert_Some; [done|].
    pose proof (mo_bounded n m Hm e' entry' He'). lia.
  - rewrite length_insert. intros j x e' [(<- & <- & _)|[_ Hj]]%list_lookup_insert_Some Hp.
    + rewrite Hu in Hp. by apply (mo_valid n m Hm i g e').
    + by apply (mo_valid n m Hm j x e').
Qed.

Lemma manager_ok_more n m : manager_ok n m -> manager_ok (n + 1) m.
Proof.
  intros [H1 H2 H3 H4 H5 H6 H7]. split; try done. intros e entry He. specialize (H6 e entry He). lia.
Qed.

(** Where a call is may change as long as the counts do not. *)
Lemma pc_step n m i g pc :
  manager_ok n m -> lm_goroutines m !! i = Some g -> (forall e, pc_uses e pc = pc_uses e (go_pc g)) ->
  manager_ok n (mkManager (lm_entries m) (lm_locks m)
                  (<[i := mkGoroutine pc (go_held g)]> (lm_goroutines m)) (lm_panicked m)).
Proof.
  intros [H1 H2 H3 H4 H5 H6 H7] Hi Hp.
  assert (Hu : forall e, uses e (mkGoroutine pc (go_held g)) = uses e g) by (intros e; unfold uses; cbn; by rewrite Hp).
  split; cbn; try done.
  - intros e entry He. rewrite (H2 e entry He). f_equal.
    pose proof (uses_insert e _ i g (mkGoroutine pc (go_held g)) Hi) as Hs. rewrite Hu in Hs. lia.
  - intros e entry He. eapply mutex_ok_same; [done|done|by eapply H5].
  - intros j x e [(<- & <- & _)|[_ Hj]]%list_lookup_insert_Some; [rewrite Hu|]; eauto.
Qed.

Lemma tryEntry_ok n m i g e :
  n < 2 ^ 31 - 1 -> manager_ok n m -> lm_goroutines m !! i = Some g -> go_pc g = PcTryLock e ->
  manager_ok (n + 1) (tryEntry m i g e).
Proof.
  intros Hn Hm Hi Hpc. unfold tryEntry.
  destruct (lm_entries m !! e) as [entry|] eqn:He; [|by apply manager_ok_more].
  pose proof (mo_bounded n m Hm e entry He) as Hb.
  destruct (TryLock (le_mu entry) (goID i)) as [mu [|]] eqn:Ht.
  - assert (Hc : forall e', count e' (e :: go_held g) = (count e' (go_held g) + if decide (e' = e) then 1 else 0)%nat)
      by (intros e'; apply count_cons).
    destruct (mutex_ok_TryLock e (le_mu entry) _ i g (mkGoroutine PcIdle (e :: go_held g)) mu Hi) as [Hmu Hr];
      [cbn [go_held]; rewrite Hc, decide_True by done; lia|lia|by eapply mo_mutex|done|].
    eapply mutex_step; [done|done|done| | |done|lia].
    + intros e'. unfold uses. rewrite Hpc. cbn [go_held go_pc pc_uses]. rewrite Hc.
      destruct (bool_decide_reflect (e = e')), (decide (e' = e)); try congruence; lia.
    + intros e' Hne. cbn [go_held]. rewrite Hc, decide_False by done. lia.
  - apply manager_ok_more, pc_step; [done|done|]. intros e'. by rewrite Hpc.
Qed.

Lemma unlockEntry_ok n m i g e :
  n < 2 ^ 31 - 1 -> manager_ok n m -> lm_goroutines m !! i = Some g -> go_pc g = PcIdle -> e ∈ go_held g ->
  manager_ok (n + 1) (unlockEntry m i g e).
Proof.
  intros Hn Hm Hi Hpc Hin. unfold unlockEntry.
  destruct (lm_entries m !! e) as [entry|] eqn:He; [|by apply manager_ok_more].
  pose proof (mo_bounded n m Hm e entry He) as Hb.
  assert (Hc : forall e', (count e' (remove_one e (go_held g)) + (if decide (e' = e) then 1 else 0)
                           = count e' (go_held g))%nat) by (intros e'; by apply count_remove_one).
  destruct (mutex_ok_Unlock e (le_mu entry) _ i g (mkGoroutine (PcReleaseRef e) (remove_one e (go_held g))) Hi Hin)
    as (mu & -> & Hmu & Hr); [cbn [go_held]; specialize (Hc e); rewrite decide_True in Hc by done; lia|lia|by eapply mo_mutex|].
  eapply mutex_step; [done|done|done| | |done|lia].
  - intros e'. specialize (Hc e'). unfold uses. rewrite Hpc. cbn [go_held go_pc pc_uses].
    destruct (bool_decide_reflect (e = e')), (decide (e' = e)); try congruence; lia.
  - intros e' Hne. specialize (Hc e'). rewrite decide_False in Hc by done. cbn [go_held]. lia.
Qed.

Lemma acquireRef_ok n m i g groupID :
  0 <= n -> manager_ok n m -> lm_goroutines m !! i = Some g -> go_pc g = PcIdle ->
  manager_ok n (acquireRef m i g groupID).
Proof.
  intros Hn Hm Hi Hpc. unfold acquireRef. destruct (lm_locks m !! groupID) as [e|] eqn:Hl.
  - destruct (mo_used n m Hm groupID e Hl) as (entry & He & Hg & _). rewrite He.
    rewrite <-(insert_id (lm_locks m) groupID e Hl) at 1. apply acquire_ok; auto.
  - set (m1 := mkManager (lm_entries m ++ [mkLockEntry groupID NewReentrantMutex 0]) (lm_locks m)
                 (lm_goroutines m) (lm_panicked m)).
    assert (He : lm_entries m1 !! length (lm_entries m) = Some (mkLockEntry groupID NewReentrantMutex 0)).
    { cbn. by apply list_lookup_middle. }
    change (lm_entries m ++ [mkLockEntry groupID NewReentrantMutex 0]) with (lm_entries m1). rewrite He.
    apply (acquire_ok n m1 i g); auto. by apply fresh_ok.
Qed.

Lemma lockStep_ok n m i a :
  0 <= n < 2 ^ 31 - 1 -> manager_ok n m -> manager_ok (n + 1) (lockStep m i a).
Proof.
  intros Hn Hm. unfold lockStep. destruct (lm_goroutines m !! i) as [g|] eqn:Hi; [|by apply manager_ok_more].
  destruct (go_pc g) as [|e|e] eqn:Hpc, a as [groupID|e'|]; try by apply manager_ok_more.
  - destruct (groupID =? 0); apply manager_ok_more; [done|]. by apply acquireRef_ok; [lia|..].
  - destruct (bool_decide_reflect (e' ∈ go_held g)); [|by apply manager_ok_more].
    by apply unlockEntry_ok; [lia|..].
  - by apply tryEntry_ok; [lia|..].
  - apply manager_ok_more. by apply releaseRef_ok.
Qed.

Lemma new_manager_ok goroutines : manager_ok 0 (newEntityLockGroupLockManager goroutines).
Proof.
  split; cbn; try done. intros i g e Hi%lookup_replicate Hu. destruct Hi as [-> _]. cbn in Hu. lia.
Qed.

Lemma lockRun_ok schedule : forall n m,
  0 <= n -> n + len schedule < 2 ^ 31 -> manager_ok n m -> manager_ok (n + len schedule) (lockRun m schedule).
Proof.
  induction schedule as [|[i a] schedule IH]; intros n m H0 Hn Hm.
  { rewrite len_nil, Z.add_0_r. done. }
  rewrite len_cons in *. pose proof (len_nonneg schedule). rewrite Z.add_assoc. apply IH; [lia|lia|].
  apply lockStep_ok; [lia|done].
Qed.

(** ** Theorems *)

(** However goroutines interleave, no two of them hold the lock of the same group
    at the same time, although its entry may have been dropped and created anew
    in between; and no release ever panics. *)
Theorem group_locks_exclusive (goroutines : nat) (schedule : list (nat * lockAction)) (i j : nat) (groupID : Z) :
  len schedule < 2 ^ 31 ->
  let m := lockRun (newEntityLockGroupLockManager goroutines) schedule in
  lm_panicked m = false /\ (holds m i groupID -> holds m j groupID -> i = j).
Proof.
  intros Hn m. pose proof (lockRun_ok schedule 0 _ ltac:(lia) Hn (new_manager_ok goroutines)) as Hm.
  fold m in Hm. split; [apply Hm|].
  assert (Hkey : forall k, holds m k groupID -> exists e entry, lm_locks m !! groupID = Some e
            /\ lm_entries m !! e = Some entry /\ rm_owner (le_mu entry) = goID k).
  { intros k (g & e & entry & Hk & Hin & He & Hg). apply count_pos in Hin. exists e, entry.
    split_and!; [|done|].
    - rewrite <-Hg. apply (mo_listed _ m Hm); [done|]. rewrite (mo_refs _ m Hm e entry He).
      pose proof (sum_at_least (uses e) _ k g Hk) as Hs. unfold uses in Hs at 1. lia.
    - destruct (mo_mutex _ m Hm e entry He) as (_ & _ & Hc & _). specialize (Hc k g Hk).
      destruct (Z.eqb_spec (rm_owner (le_mu entry)) (goID k)); [done|lia]. }
  intros (e & entry & Hl & He & Ho)%Hkey (e' & entry' & Hl' & He' & Ho')%Hkey. apply goID_inj. congruence.
Qed.

(** The table does not leak: an entry exists exactly while some goroutine holds
    it or is trying to take or to release it, so when everything was released
    the table is empty. *)
Theorem group_locks_reclaimed (goroutines : nat) (schedule : list (nat * lockAction)) :
  len schedule < 2 ^ 31 ->
  let m := lockRun (newEntityLockGroupLockManager goroutines) schedule in
  (forall groupID, is_Some (lm_locks m !! groupID) <->
     exists i g e entry, lm_goroutines m !! i = Some g /\ (0 < uses e g)%nat
       /\ lm_entries m !! e = Some entry /\ le_groupID entry = groupID)
  /\ (quiescent m -> lm_locks m = ∅).
Proof.
  intros Hn m. pose proof (lockRun_ok schedule 0 _ ltac:(lia) Hn (new_manager_ok goroutines)) as Hm.
  fold m in Hm.
  assert (Hin : forall groupID e, lm_locks m !! groupID = Some e -> exists i g entry,
            lm_goroutines m !! i = Some g /\ (0 < uses e g)%nat
            /\ lm_entries m !! e = Some entry /\ le_groupID entry = groupID).
  { intros groupID e Hl. destruct (mo_used _ m Hm groupID e Hl) as (entry & He & Hg & Hp).
    rewrite (mo_refs _ m Hm e entry He) in Hp.
    destruct (decide (Exists (fun g => 0 < uses e g)%nat (lm_goroutines m))) as [Hex|Hno].
    - apply Exists_exists in Hex as (g & Hg' & Hu). apply list_elem_of_lookup in Hg' as [i Hi]. eauto 10.
    - rewrite sum_zero in Hp; [lia|]. intros i g Hi. rewrite <-Forall_Exists_neg, Forall_lookup in Hno.
      specialize (Hno i g Hi). cbn in Hno. lia. }
  split.
  - intros groupID. split.
    + intros [e Hl]. destruct (Hin groupID e Hl) as (i & g & entry & H). eauto.
    + intros (i & g & e & entry & Hi & Hu & He & <-). exists e. apply (mo_listed _ m Hm); [done|].
      rewrite (mo_refs _ m Hm e entry He). pose proof (sum_at_least (uses e) _ i g Hi). lia.
  - intros Hq. apply map_empty. intros groupID. destruct (lm_locks m !! groupID) as [e|] eqn:Hl; [|done].
    destruct (Hin groupID e Hl) as (i & g & entry & Hi & Hu & _). unfold quiescent in Hq.
    rewrite Forall_lookup in Hq. destruct (Hq i g Hi) as [Hpc Hheld]. unfold uses in Hu. rewrite Hpc, Hheld in Hu.
    cbn in Hu. lia.
Qed.

(** ** Refinement *)

(** The mutex of a group as its users see it: that of the entry in the table, or
    a free one. *)
Definition groupMutex (m : entityLockGroupLockManager) (groupID : Z) : ReentrantMutex :=
  match lm_locks m !! groupID ≫= (fun e => lm_entries m !! e) with
  | Some entry => le_mu entry
  | None => NewReentrantMutex
  end.

(** The specification: a reentrant mutex for every group that is always there,
    and for every goroutine the groups it holds and what it is about to do. *)
Inductive specPc := SIdle | STrying (groupID : Z) | SReturning.

Record lockSpec := mkSpec {
  sp_mutex : Z -> ReentrantMutex;
  sp_goroutines : list (specPc * list Z)
}.

Definition specInit (goroutines : nat) : lockSpec := mkSpec (fun _ => NewReentrantMutex) (replicate goroutines (SIdle, [])).

Fixpoint remove_group (groupID : Z) (l : list Z) : list Z :=
  match l with
  | [] => []
  | x :: l => if bool_decide (x = groupID) then l else x :: remove_group groupID l
  end.

Definition setMutex (t : Z -> ReentrantMutex) (groupID : Z) (mu : ReentrantMutex) : Z -> ReentrantMutex :=
  fun gr => if decide (gr = groupID) then mu else t gr.

Inductive specAction := SpecAcquire (groupID : Z) | SpecRelease (groupID : Z) | SpecContinue | SpecNothing.

(** Taking a group is one attempt on its mutex, which says whether the goroutine
    has the group afterwards; giving it back unlocks the mutex. *)
Definition specStep (s : lockSpec) (i : nat) (a : specAction) : lockSpec :=
  match sp_goroutines s !! i with
  | None => s
  | Some (pc, held) =>
      let goes t pc held := mkSpec t (<[i := (pc, held)]> (sp_goroutines s)) in
      match pc, a with
      | SIdle, SpecAcquire groupID => if groupID =? 0 then s else goes (sp_mutex s) (STrying groupID) held
      | SIdle, SpecRelease groupID =>
          match Unlock (sp_mutex s groupID) (goID i) with
          | Some mu => goes (setMutex (sp_mutex s) groupID mu) SReturning (remove_group groupID held)
          | None => s
          end
      | STrying groupID, SpecContinue =>
          match TryLock (sp_mutex s groupID) (goID i) with
          | (mu, true) => goes (setMutex (sp_mutex s) groupID mu) SIdle (groupID :: held)
          | (_, false) => goes (sp_mutex s) SReturning held
          end
      | SReturning, SpecContinue => goes (sp_mutex s) SIdle held
      | _, _ => s
      end
  end.

Definition specRun (s : lockSpec) (schedule : list (nat * specAction)) : lockSpec :=
  foldl (fun s x => specStep s x.1 x.2) s schedule.

(** What a state of the manager is in the specification. *)
Definition entryGroup (m : entityLockGroupLockManager) (e : nat) : Z := from_option le_groupID 0 (lm_entries m !! e).

Definition specPcOf (m : entityLockGroupLockManager) (pc : lockPc) : specPc :=
  match pc with
  | PcIdle => SIdle
  | PcTryLock e => STrying (entryGroup m e)
  | PcReleaseRef _ => SReturning
  end.

Definition specGoroutine (m : entityLockGroupLockManager) (g : goroutine) : specPc * list Z :=
  (specPcOf m (go_pc g), entryGroup m <$> go_held g).

Definition specOf (m : entityLockGroupLockManager) : lockSpec :=
  mkSpec (groupMutex m) (specGoroutine m <$> lm_goroutines m).

(** An entry that is released stands for its group. *)
Definition specActionOf (m : entityLockGroupLockManager) (i : nat) (a : lockAction) : specAction :=
  match a with
  | ActAcquire groupID => SpecAcquire groupID
  | ActRelease e =>
      if bool_decide (e ∈ from_option go_held [] (lm_goroutines m !! i)) then SpecRelease (entryGroup m e) else SpecNothing
  | ActContinue => SpecContinue
  end.

Fixpoint specSchedule (m : entityLockGroupLockManager) (schedule : list (nat * lockAction)) : list (nat * specAction) :=
  match schedule with
  | [] => []
  | (i, a) :: schedule => (i, specActionOf m i a) :: specSchedule (lockStep m i a) schedule
  end.

(** Equal tables, group by group. *)
#[export] Instance lockSpec_equiv : Equiv lockSpec := fun s s' =>
  (forall gr, sp_mutex s gr = sp_mutex s' gr) /\ sp_goroutines s = sp_goroutines s'.

#[export] Instance lockSpec_equivalence : Equivalence (≡@{lockSpec}).
Proof.
  split; [by split|by intros s s' [H1 H2]; split|].
  intros s s' s'' [H1 H2] [G1 G2]. split; [intros gr; by rewrite H1|congruence].
Qed.

#[export] Instance specStep_proper : Proper ((≡) ==> eq ==> eq ==> (≡)) specStep.
Proof.
  intros s s' [Hm Hg] i _ <- a _ <-. unfold specStep. rewrite Hg.
  destruct (sp_goroutines s' !! i) as [[pc held]|]; [|by split].
  destruct pc as [|groupID|], a as [g|g| |]; try by split.
  - destruct (g =? 0); by split.
  - rewrite Hm. destruct (Unlock _ _); [|by split]. split; [|done]. intros gr. cbn. unfold setMutex. by case_decide.
  - rewrite Hm. destruct (TryLock _ _) as [mu [|]]; [|by split]. split; [|done]. intros gr. cbn. unfold setMutex.
    by case_decide.
Qed.

#[export] Instance specRun_proper : Proper ((≡) ==> eq ==> (≡)) specRun.
Proof.
  intros s s' Hs schedule _ <-. revert s s' Hs. induction schedule as [|x schedule IH]; intros s s' Hs; [done|].
  cbn. apply IH. by rewrite Hs.
Qed.

Lemma groupMutex_listed n m e entry :
  manager_ok n m -> lm_entries m !! e = Some entry -> 0 < le_refs entry ->
  groupMutex m (le_groupID entry) = le_mu entry.
Proof.
  intros Hm He Hp. unfold groupMutex. rewrite (mo_listed n m Hm e entry He Hp). cbn. by rewrite He.
Qed.

(** Changing the mutex of an entry in use changes the mutex of its group. *)
Lemma groupMutex_set n m e entry mu gs gr :
  manager_ok n m -> lm_entries m !! e = Some entry -> 0 < le_refs entry ->
  groupMutex (mkManager (<[e := set_mu entry mu]> (lm_entries m)) (lm_locks m) gs (lm_panicked m)) gr
  = if decide (gr = le_groupID entry) then mu else groupMutex m gr.
Proof.
  intros Hm He Hp. unfold groupMutex. cbn. pose proof (mo_listed n m Hm e entry He Hp) as Hl. case_decide as Hgr.
  - subst gr. rewrite Hl. cbn. by rewrite list_lookup_insert_eq by (by eapply lookup_lt_Some).
  - destruct (lm_locks m !! gr) as [e'|] eqn:Hl'; [|done]. cbn.
    destruct (mo_used n m Hm gr e' Hl') as (entry' & He' & Hg' & _).
    rewrite list_lookup_insert_ne by congruence. done.
Qed.

Lemma used_refs n m i g e entry :
  manager_ok n m -> lm_goroutines m !! i = Some g -> (0 < uses e g)%nat -> lm_entries m !! e = Some entry ->
  0 < le_refs entry.
Proof.
  intros Hm Hi Hu He. rewrite (mo_refs n m Hm e entry He). pose proof (sum_at_least (uses e) _ i g Hi). lia.
Qed.

(** A dropped entry was free. *)
Lemma free_entry n m e entry :
  manager_ok n m -> lm_entries m !! e = Some entry ->
  (forall i g, lm_goroutines m !! i = Some g -> count e (go_held g) = 0%nat) -> le_mu entry = NewReentrantMutex.
Proof.
  intros Hm He Hc. destruct (mo_mutex n m Hm e entry He) as (H1 & H2 & H3 & H4).
  destruct (decide (rm_owner (le_mu entry) = 0)) as [E0|E0].
  - destruct (le_mu entry) as [o r]. cbn in *. by rewrite E0, (H1 E0).
  - destruct (H4 E0) as (i & Hlt & Ho). destruct (lookup_lt_is_Some_2 _ _ Hlt) as [g Hi].
    specialize (H3 i g Hi). rewrite (Hc i g Hi), Ho, Z.eqb_refl in H3. specialize (H2 E0). lia.
Qed.

Lemma acquireRef_stutters n m i g groupID gr :
  manager_ok n m -> groupMutex (acquireRef m i g groupID) gr = groupMutex m gr.
Proof.
  intros Hm. unfold acquireRef. destruct (lm_locks m !! groupID) as [e|] eqn:Hl.
  - destruct (mo_used n m Hm groupID e Hl) as (entry & He & Hg & Hp). rewrite He. unfold groupMutex. cbn.
    destruct (lm_locks m !! gr) as [e'|] eqn:Hl'; [|done]. cbn.
    destruct (decide (e = e')) as [<-|Hne].
    + by rewrite list_lookup_insert_eq, He by (by eapply lookup_lt_Some).
    + by rewrite list_lookup_insert_ne.
  - rewrite list_lookup_middle by done. unfold groupMutex. cbn.
    destruct (decide (groupID = gr)) as [<-|Hne].
    + rewrite lookup_insert_eq, Hl. cbn. rewrite list_lookup_insert_eq by (rewrite length_app; cbn; lia). done.
    + rewrite lookup_insert_ne by done. destruct (lm_locks m !! gr) as [e'|] eqn:Hl'; [|done]. cbn.
      destruct (mo_used n m Hm gr e' Hl') as (entry' & He' & _). apply lookup_lt_Some in He' as Hlt.
      rewrite list_lookup_insert_ne by lia. by rewrite lookup_app_l.
Qed.

Lemma releaseRef_stutters n m i g e gr :
  manager_ok n m -> lm_goroutines m !! i = Some g -> go_pc g = PcReleaseRef e ->
  groupMutex (releaseRef m i g e) gr = groupMutex m gr.
Proof.
  intros Hm Hi Hpc. unfold releaseRef. destruct (lm_entries m !! e) as [entry|] eqn:He; [|done].
  assert (Hu : (0 < uses e g)%nat) by (unfold uses; rewrite Hpc; cbn; rewrite bool_decide_true by done; lia).
  pose proof (used_refs n m i g e entry Hm Hi Hu He) as Hp. pose proof (mo_listed n m Hm e entry He Hp) as Hlk.
  cbn [add_ref le_refs le_groupID]. rewrite bool_decide_true, andb_true_r by done. unfold groupMutex. cbn.
  destruct (Z.eqb_spec (le_refs entry + -1) 0) as [Ez|Ez].
  - destruct (decide (gr = le_groupID entry)) as [-> |Hne].
    + rewrite lookup_delete_eq, Hlk. cbn. rewrite He. symmetry. eapply free_entry; [done|done|].
      intros j x Hj. rewrite (mo_refs n m Hm e entry He) in Ez.
      pose proof (sum_at_least (uses e) _ j x Hj) as Hs. destruct (decide (i = j)) as [<-|Hij].
      * assert (x = g) as -> by congruence. unfold uses in Hs at 1. rewrite Hpc in Hs. cbn in Hs.
        rewrite bool_decide_true in Hs by done. lia.
      * pose proof (sum_insert (uses e) _ i g (mkGoroutine PcIdle []) Hi) as Hsum.
        pose proof (sum_at_least (uses e) (<[i := mkGoroutine PcIdle []]> (lm_goroutines m)) j x) as Hs'.
        rewrite list_lookup_insert_ne in Hs' by done. specialize (Hs' Hj). unfold uses in Hs' at 1.
        change (uses e (mkGoroutine PcIdle [])) with 0%nat in Hsum. lia.
    + rewrite lookup_delete_ne by done. destruct (lm_locks m !! gr) as [e'|] eqn:Hl'; [|done]. cbn.
      destruct (mo_used n m Hm gr e' Hl') as (entry' & He' & Hg' & _).
      by rewrite list_lookup_insert_ne by congruence.
  - destruct (lm_locks m !! gr) as [e'|] eqn:Hl'; [|done]. cbn. destruct (decide (e = e')) as [<-|Hne].
    + by rewrite list_lookup_insert_eq, He by (by eapply lookup_lt_Some).
    + by rewrite list_lookup_insert_ne.
Qed.

(** Which group an entry stands for never changes while somebody uses it. *)
Lemma specGoroutine_keep n m m' g :
  manager_ok n m -> (exists i, lm_goroutines m !! i = Some g) ->
  (forall e entry, lm_entries m !! e = Some entry ->
     exists entry', lm_entries m' !! e = Some entry' /\ le_groupID entry' = le_groupID entry) ->
  specGoroutine m' g = specGoroutine m g.
Proof.
  intros Hm [i Hi] Hkeep.
  assert (Hg : forall e, (0 < uses e g)%nat -> entryGroup m' e = entryGroup m e).
  { intros e Hu. pose proof (mo_valid n m Hm i g e Hi Hu) as Hlt.
    destruct (lookup_lt_is_Some_2 _ _ Hlt) as [entry He]. destruct (Hkeep e entry He) as (entry' & He' & E).
    unfold entryGroup. by rewrite He, He'. }
  unfold specGoroutine. f_equal.
  - destruct (go_pc g) as [|e|e] eqn:Hpc; [done| |done]. cbn. f_equal. apply Hg. unfold uses. rewrite Hpc. cbn.
    rewrite bool_decide_true by done. lia.
  - apply list_fmap_ext. intros k e Hk. apply Hg. unfold uses. apply list_elem_of_lookup_2, count_pos in Hk. lia.
Qed.

Lemma specGoroutines_set n m m' i g g' :
  manager_ok n m -> lm_goroutines m !! i = Some g -> lm_goroutines m' = <[i := g']> (lm_goroutines m) ->
  (forall e entry, lm_entries m !! e = Some entry ->
     exists entry', lm_entries m' !! e = Some entry' /\ le_groupID entry' = le_groupID entry) ->
  sp_goroutines (specOf m') = <[i := specGoroutine m' g']> (sp_goroutines (specOf m)).
Proof.
  intros Hm Hi Hg Hkeep. cbn. rewrite Hg, list_fmap_insert. f_equal. apply list_fmap_ext. intros j x Hj.
  eapply specGoroutine_keep; eauto.
Qed.

Lemma insert_keeps_group (entries : list entityLockGroupLockEntry) e entry entry0 :
  entries !! e = Some entry -> le_groupID entry0 = le_groupID entry ->
  forall e' x, entries !! e' = Some x ->
  exists x', <[e := entry0]> entries !! e' = Some x' /\ le_groupID x' = le_groupID x.
Proof.
  intros He Hg e' x Hx. destruct (decide (e = e')) as [<-|Hne].
  - exists entry0. rewrite list_lookup_insert_eq by (by eapply lookup_lt_Some). split; congruence.
  - exists x. by rewrite list_lookup_insert_ne.
Qed.

Lemma specOf_lookup m i g : lm_goroutines m !! i = Some g -> sp_goroutines (specOf m) !! i = Some (specGoroutine m g).
Proof. intros Hi. cbn. by rewrite list_lookup_fmap, Hi. Qed.

Lemma acquireRef_spec n m i g groupID :
  manager_ok n m -> lm_goroutines m !! i = Some g -> go_pc g = PcIdle ->
  specOf (acquireRef m i g groupID)
  ≡ mkSpec (groupMutex m) (<[i := (STrying groupID, entryGroup m <$> go_held g)]> (specGoroutine m <$> lm_goroutines m)).
Proof.
  intros Hm Hi Hpc. split; [intros gr; by eapply acquireRef_stutters|].
  assert (Hkeep : forall m', acquireRef m i g groupID = m' -> lm_goroutines m' !! i <> Some g ->
    exists e entry entries, lm_goroutines m' = <[i := mkGoroutine (PcTryLock e) (go_held g)]> (lm_goroutines m)
    /\ entries !! e = Some entry /\ le_groupID entry = groupID /\ lm_entries m' = <[e := add_ref entry 1]> entries
    /\ (forall e' x, lm_entries m !! e' = Some x -> entries !! e' = Some x)).
  { intros m' <-. unfold acquireRef. destruct (lm_locks m !! groupID) as [e|] eqn:Hl.
    - destruct (mo_used n m Hm groupID e Hl) as (entry & He & Hg & _). rewrite He. intros _. by exists e, entry, (lm_entries m).
    - rewrite list_lookup_middle by done. intros _.
      exists (length (lm_entries m)), (mkLockEntry groupID NewReentrantMutex 0),
        (lm_entries m ++ [mkLockEntry groupID NewReentrantMutex 0]).
      split_and!; [done|by apply list_lookup_middle|done|done|].
      intros e' x Hx. by apply lookup_app_l_Some. }
  destruct (Hkeep _ eq_refl) as (e & entry & entries & Hg & He & Hgr & Hm' & Hold).
  { unfold acquireRef. intros Hbad. destruct (lm_locks m !! groupID) as [e|] eqn:Hl.
    - destruct (mo_used n m Hm groupID e Hl) as (entry & He & _). rewrite He in Hbad. cbn in Hbad.
      rewrite list_lookup_insert_eq in Hbad by (by eapply lookup_lt_Some). injection Hbad as Hbad. by rewrite <-Hbad in Hpc.
    - rewrite list_lookup_middle in Hbad by done. cbn in Hbad.
      rewrite list_lookup_insert_eq in Hbad by (by eapply lookup_lt_Some). injection Hbad as Hbad. by rewrite <-Hbad in Hpc. }
  assert (Hk : forall e' x, lm_entries m !! e' = Some x ->
    exists x', lm_entries (acquireRef m i g groupID) !! e' = Some x' /\ le_groupID x' = le_groupID x).
  { intros e' x Hx. rewrite Hm'. eapply insert_keeps_group; [done|done|by apply Hold]. }
  rewrite (specGoroutines_set n m _ i g _ Hm Hi Hg Hk). cbn. f_equal. unfold specGoroutine. cbn. f_equal.
  - f_equal. unfold entryGroup. rewrite Hm', list_lookup_insert_eq by (by eapply lookup_lt_Some). done.
  - pose proof (specGoroutine_keep n m (acquireRef m i g groupID) g Hm (ex_intro _ i Hi) Hk) as E.
    by injection E as _ E.
Qed.

Lemma releaseRef_spec n m i g e :
  manager_ok n m -> lm_goroutines m !! i = Some g -> go_pc g = PcReleaseRef e ->
  specOf (releaseRef m i g e)
  ≡ mkSpec (groupMutex m) (<[i := (SIdle, entryGroup m <$> go_held g)]> (specGoroutine m <$> lm_goroutines m)).
Proof.
  intros Hm Hi Hpc. split; [intros gr; by eapply releaseRef_stutters|].
  assert (Hu : (0 < uses e g)%nat) by (unfold uses; rewrite Hpc; cbn; rewrite bool_decide_true by done; lia).
  destruct (lookup_lt_is_Some_2 _ _ (mo_valid n m Hm i g e Hi Hu)) as [entry He].
  assert (Hk : forall e' x, lm_entries m !! e' = Some x ->
    exists x', lm_entries (releaseRef m i g e) !! e' = Some x' /\ le_groupID x' = le_groupID x).
  { unfold releaseRef. rewrite He. by apply (insert_keeps_group _ e entry). }
  assert (Hg : lm_goroutines (releaseRef m i g e) = <[i := mkGoroutine PcIdle (go_held g)]> (lm_goroutines m))
    by (unfold releaseRef; by rewrite He).
  rewrite (specGoroutines_set n m _ i g _ Hm Hi Hg Hk). cbn. f_equal. unfold specGoroutine. cbn. f_equal.
  pose proof (specGoroutine_keep n m _ g Hm (ex_intro _ i Hi) Hk) as E. by injection E as _ E.
Qed.

(** A step that changes the mutex of an entry in use. *)
Lemma set_mu_spec n m i g g' e entry mu :
  manager_ok n m -> lm_goroutines m !! i = Some g -> lm_entries m !! e = Some entry -> 0 < le_refs entry ->
  specOf (mkManager (<[e := set_mu entry mu]> (lm_entries m)) (lm_locks m) (<[i := g']> (lm_goroutines m)) (lm_panicked m))
  ≡ mkSpec (setMutex (groupMutex m) (le_groupID entry) mu)
      (<[i := specGoroutine m g']> (specGoroutine m <$> lm_goroutines m)).
Proof.
  intros Hm Hi He Hp. set (m' := mkManager _ _ _ _). split.
  - intros gr. cbn. unfold m'. erewrite groupMutex_set by done. done.
  - assert (Hk : forall e' x, lm_entries m !! e' = Some x ->
      exists x', lm_entries m' !! e' = Some x' /\ le_groupID x' = le_groupID x) by by apply (insert_keeps_group _ e entry).
    rewrite (specGoroutines_set n m m' i g g' Hm Hi eq_refl Hk). cbn. f_equal. unfold specGoroutine.
    assert (Hgr : forall e', entryGroup m' e' = entryGroup m e').
    { intros e'. unfold entryGroup, m'. cbn. destruct (decide (e = e')) as [<-|Hne].
      - by rewrite list_lookup_insert_eq, He by (by eapply lookup_lt_Some).
      - by rewrite list_lookup_insert_ne. }
    f_equal; [destruct (go_pc g'); cbn; by rewrite ?Hgr|]. apply list_fmap_ext. intros. apply Hgr.
Qed.

(** Two entries that a goroutine holds and that stand for one group are one. *)
Lemma held_inj n m i g e e' :
  manager_ok n m -> lm_goroutines m !! i = Some g -> e ∈ go_held g -> e' ∈ go_held g ->
  entryGroup m e = entryGroup m e' -> e = e'.
Proof.
  intros Hm Hi He He' E.
  assert (Hl : forall e, e ∈ go_held g -> lm_locks m !! entryGroup m e = Some e).
  { intros x Hx%count_pos. assert (Hu : (0 < uses x g)%nat) by (unfold uses; lia).
    destruct (lookup_lt_is_Some_2 _ _ (mo_valid n m Hm i g x Hi Hu)) as [entry Hen].
    unfold entryGroup. rewrite Hen. cbn. apply (mo_listed n m Hm); [done|]. by eapply used_refs. }
  pose proof (Hl e He). pose proof (Hl e' He'). congruence.
Qed.

Lemma remove_one_group (f : nat -> Z) e l :
  e ∈ l -> (forall e', e' ∈ l -> f e' = f e -> e' = e) -> f <$> remove_one e l = remove_group (f e) (f <$> l).
Proof.
  induction l as [|x l IH]; [done|]. intros Hin Hinj. cbn [remove_one fmap list_fmap remove_group].
  destruct (bool_decide_reflect (x = e)) as [->|Hx]; [by rewrite bool_decide_true|].
  rewrite bool_decide_false by (intros E; apply Hx, Hinj; [left|done]).
  cbn. f_equal. apply IH; [apply elem_of_cons in Hin as [E|?]; [by destruct Hx|done]|]. intros e' He'. apply Hinj. by right.
Qed.

Lemma lockStep_refines n m i a :
  0 <= n < 2 ^ 31 - 1 -> manager_ok n m -> specOf (lockStep m i a) ≡ specStep (specOf m) i (specActionOf m i a).
Proof.
  intros Hn Hm. unfold lockStep, specStep. cbn [sp_goroutines specOf]. rewrite list_lookup_fmap.
  destruct (lm_goroutines m !! i) as [g|] eqn:Hi; [|done]. cbn [fmap option_fmap option_map specGoroutine].
  unfold specActionOf. rewrite Hi. cbn [from_option].
  destruct (go_pc g) as [|e|e] eqn:Hpc, a as [groupID|e'|]; cbn [specPcOf]; try done; try by case_bool_decide.
  - destruct (groupID =? 0); [done|]. by eapply acquireRef_spec.
  - case_bool_decide as Hin; [|done]. unfold unlockEntry.
    assert (Hu : (0 < uses e' g)%nat) by (unfold uses; apply count_pos in Hin; lia).
    destruct (lookup_lt_is_Some_2 _ _ (mo_valid n m Hm i g e' Hi Hu)) as [entry He]. rewrite He.
    pose proof (used_refs n m i g e' entry Hm Hi Hu He) as Hp.
    assert (Hgr : entryGroup m e' = le_groupID entry) by (unfold entryGroup; by rewrite He).
    cbn [sp_mutex specOf]. rewrite Hgr, (groupMutex_listed n m e' entry Hm He Hp).
    destruct (mutex_ok_Unlock e' (le_mu entry) _ i g (mkGoroutine (PcReleaseRef e') (remove_one e' (go_held g))) Hi Hin)
      as (mu & -> & _ & _).
    { cbn [go_held]. pose proof (count_remove_one e' e' (go_held g) Hin) as Hc. rewrite decide_True in Hc by done. lia. }
    { pose proof (mo_bounded n m Hm e' entry He). lia. }
    { by eapply mo_mutex. }
    rewrite (set_mu_spec n m i g _ e' entry mu Hm Hi He Hp). f_equiv. f_equal. unfold specGoroutine. cbn. f_equal.
    rewrite <-Hgr. apply remove_one_group; [done|]. intros x Hx Ex. by eapply (held_inj n m i g).
  - unfold tryEntry.
    assert (Hu : (0 < uses e g)%nat) by (unfold uses; rewrite Hpc; cbn; rewrite bool_decide_true by done; lia).
    destruct (lookup_lt_is_Some_2 _ _ (mo_valid n m Hm i g e Hi Hu)) as [entry He]. rewrite He.
    pose proof (used_refs n m i g e entry Hm Hi Hu He) as Hp.
    assert (Hgr : entryGroup m e = le_groupID entry) by (unfold entryGroup; by rewrite He).
    cbn [sp_mutex specOf]. rewrite Hgr, (groupMutex_listed n m e entry Hm He Hp).
    destruct (TryLock (le_mu entry) (goID i)) as [mu [|]] eqn:Ht.
    + rewrite (set_mu_spec n m i g _ e entry mu Hm Hi He Hp). f_equiv. f_equal. unfold specGoroutine. cbn. by rewrite Hgr.
    + split; [done|]. cbn. by rewrite list_fmap_insert.
  - by eapply releaseRef_spec.
Qed.

Lemma lockRun_refines schedule : forall n m,
  0 <= n -> n + len schedule < 2 ^ 31 -> manager_ok n m ->
  specOf (lockRun m schedule) ≡ specRun (specOf m) (specSchedule m schedule).
Proof.
  induction schedule as [|[i a] schedule IH]; intros n m H0 Hn Hm; [done|].
  rewrite len_cons in Hn. pose proof (len_nonneg schedule). cbn [lockRun foldl specSchedule specRun fst snd].
  change (foldl (fun m x => lockStep m x.1 x.2) (lockStep m i a) schedule) with (lockRun (lockStep m i a) schedule).
  rewrite (IH (n + 1)); [|lia|lia|apply lockStep_ok; [lia|done]].
  by rewrite (lockStep_refines n m i a) by (done || lia).
Qed.

(** C29. The table of counted entries, created on demand and dropped when unused,
    implements one reentrant mutex per group that is always there: whatever the
    schedule, the mutexes, what every goroutine holds and what it does next are
    those of the specification, in which [acquire] succeeds exactly when the
    attempt on the mutex of that group does, and [release] unlocks the group of
    the entry.  No goroutine unlocks what it does not own. *)
Theorem group_locks_refine (goroutines : nat) (schedule : list (nat * lockAction)) :
  len schedule < 2 ^ 31 ->
  let m0 := newEntityLockGroupLockManager goroutines in
  specOf (lockRun m0 schedule) ≡ specRun (specInit goroutines) (specSchedule m0 schedule)
  /\ lm_panicked (lockRun m0 schedule) = false.
Proof.
  intros Hn m0. split.
  - rewrite (lockRun_refines schedule 0); [|lia|lia|apply new_manager_ok].
    assert (E : specOf m0 ≡ specInit goroutines) by (split; [done|cbn; by rewrite fmap_replicate]).
    by rewrite E.
  - apply (mo_calm (0 + len schedule)). apply lockRun_ok; [lia|lia|apply new_manager_ok].
Qed.

(** ** Witnesses *)

(** Goroutine 0 takes group 5 twice; goroutine 1 fails, and takes it after it was
    dropped. *)
Definition sample_schedule : list (nat * lockAction) :=
  [(0%nat, ActAcquire 5); (1%nat, ActAcquire 5); (0%nat, ActContinue); (1%nat, ActContinue);
   (0%nat, ActAcquire 5); (0%nat, ActContinue); (1%nat, ActContinue); (0%nat, ActRelease 0%nat);
   (0%nat, ActContinue); (0%nat, ActRelease 0%nat); (0%nat, ActContinue);
   (1%nat, ActAcquire 5); (1%nat, ActContinue)].

(** At the end goroutine 1 has group 5, and goroutine 0 nothing. *)
Lemma group_locks_refine_witness :
  specOf (lockRun (newEntityLockGroupLockManager 2) sample_schedule)
  ≡ specRun (specInit 2) (specSchedule (newEntityLockGroupLockManager 2) sample_schedule)
  /\ sp_goroutines (specOf (lockRun (newEntityLockGroupLockManager 2) sample_schedule)) = [(SIdle, []); (SIdle, [5])]
  /\ sp_mutex (specOf (lockRun (newEntityLockGroupLockManager 2) sample_schedule)) 5 = mkMutex 2 1.
Proof.
  split; [|split; vm_compute; reflexivity].
  exact (proj1 (group_locks_refine 2 sample_schedule ltac:(vm_compute; reflexivity))).
Defined.

Lemma group_locks_exclusive_witness :
  holds (lockRun (newEntityLockGroupLockManager 2) sample_schedule) 1%nat 5
  /\ ~ holds (lockRun (newEntityLockGroupLockManager 2) sample_schedule) 0%nat 5.
Proof.
  assert (H1 : holds (lockRun (newEntityLockGroupLockManager 2) sample_schedule) 1%nat 5).
  { exists (mkGoroutine PcIdle [1%nat]), 1%nat, (mkLockEntry 5 (mkMutex 2 1) 1).
    split; [vm_compute; reflexivity|]. split; [left|]. split; [vm_compute; reflexivity|reflexivity]. }
  split; [exact H1|]. intros H0.
  destruct (group_locks_exclusive 2 sample_schedule 0%nat 1%nat 5 ltac:(vm_compute; reflexivity)) as [_ He].
  specialize (He H0 H1). discriminate He.
Defined.

Definition sample_finished : list (nat * lockAction) :=
  sample_schedule ++ [(1%nat, ActRelease 1%nat); (1%nat, ActContinue)].

Lemma group_locks_reclaimed_witness :
  lm_locks (lockRun (newEntityLockGroupLockManager 2) sample_finished) = ∅.
Proof.
  destruct (group_locks_reclaimed 2 sample_finished ltac:(vm_compute; reflexivity)) as [_ Hq]. apply Hq.
  apply (Forall_lookup _ _). intros i g Hi. vm_compute in Hi.
  destruct i as [|[|i]]; [injection Hi as <-; split; reflexivity|injection Hi as <-; split; reflexivity|].
  destruct i; discriminate Hi.
Defined.
