(* ===== verification/GroupDispatch.v ===== *)
(** * Dispatch and transitions of entity groups

    Entities that belong together share a lock: [src/entity/entity_group.go] and
    the group index of [src/entity/entity_manager.go] keep which group an entity
    is in, [src/nest/group_lock.go] takes the group lock and the entity locks
    around a handler and validates that the groups did not change meanwhile, and
    [src/nest/group_transition.go] moves entities between groups.  Goroutines
    interleave at every lock operation, every validation of an entity and every
    update.  The mutex of a group is the one that [GroupLock.group_locks_refine]
    justifies. *)

From stdpp Require Import base list gmap.
From Stdlib Require Import ZArith Lia.
From S2P Require Import Prelude GroupLock.

Local Open Scope Z_scope.

(** ** Group membership *)

Inductive EntityGroupTransitionState :=
  | EntityGroupTransitionNone | EntityGroupTransitionJoin | EntityGroupTransitionLeave
  | EntityGroupTransitionMove.

#[export] Instance EntityGroupTransitionState_eq_dec : EqDecision EntityGroupTransitionState.
Proof. solve_decision. Defined.

(** The group fields of [EntityBase]. *)
Record EntityBase := mkBase {
  eb_groupLockID : Z;
  eb_groupEpoch : Z;
  eb_groupState : EntityGroupTransitionState;
  eb_groupTargetID : Z
}.

Definition newBase : EntityBase := mkBase 0 0 EntityGroupTransitionNone 0.

Definition setGroupLockID (b : EntityBase) (groupID : Z) : EntityBase :=
  mkBase groupID (if eb_groupLockID b =? groupID then eb_groupEpoch b else u64! (eb_groupEpoch b + 1))
    (eb_groupState b) (eb_groupTargetID b).

Definition GroupTransitionPending (b : EntityBase) : bool :=
  negb (bool_decide (eb_groupState b = EntityGroupTransitionNone)).

Definition BeginGroupTransition (b : EntityBase) (state : EntityGroupTransitionState) (targetGroupID : Z)
    : option EntityBase :=
  if bool_decide (state = EntityGroupTransitionNone) || GroupTransitionPending b then None
  else Some (mkBase (eb_groupLockID b) (eb_groupEpoch b) state targetGroupID).

Definition ClearGroupTransition (b : EntityBase) : EntityBase :=
  mkBase (eb_groupLockID b) (eb_groupEpoch b) EntityGroupTransitionNone 0.

(** The members of the groups, as the manager indexes them. *)
Abbreviation groupIndex := (gmap Z (gset Z)).

Definition addGroupIndexLocked (groups : groupIndex) (groupID entityID : Z) : groupIndex :=
  if groupID =? 0 then groups
  else <[groupID := default ∅ (groups !! groupID) ∪ {[ entityID ]}]> groups.

Definition removeGroupIndexLocked (groups : groupIndex) (groupID entityID : Z) : groupIndex :=
  if groupID =? 0 then groups else
  match groups !! groupID with
  | None => groups
  | Some bucket =>
      let bucket := bucket ∖ {[ entityID ]} in
      if bool_decide (bucket = ∅) then delete groupID groups else <[groupID := bucket]> groups
  end.

(** [None] is the error for an entity the manager does not own. *)
Definition UpdateEntityGroup (groups : groupIndex) (managed : bool) (entityID : Z) (b : EntityBase)
    (groupID : Z) : option (groupIndex * EntityBase) :=
  if negb managed then None else
  let oldGroupID := eb_groupLockID b in
  if oldGroupID =? groupID then Some (groups, b) else
  let groups := removeGroupIndexLocked groups oldGroupID entityID in
  let groups := if negb (groupID =? 0) then addGroupIndexLocked groups groupID entityID else groups in
  Some (groups, setGroupLockID b groupID).

(** ** Snapshots of a dispatch *)

Inductive dispatchError :=
  | ErrEntityLockGroupMix | ErrEntityLockGroupChanged | ErrEntityGroupTransitionPending.

Record dispatchGroupSnapshot := mkGroupSnapshot {
  dg_ent : Z;
  dg_groupID : Z;
  dg_epoch : Z;
  dg_state : EntityGroupTransitionState;
  dg_targetID : Z
}.

Definition captureDispatchGroupSnapshots (base : Z -> EntityBase) (lockEs : list Z)
    : list dispatchGroupSnapshot :=
  (fun x => mkGroupSnapshot x (eb_groupLockID (base x)) (eb_groupEpoch (base x)) (eb_groupState (base x))
              (eb_groupTargetID (base x))) <$> lockEs.

Fixpoint resolveFrom (groupID : Z) (snapshots : list dispatchGroupSnapshot) : result dispatchError Z :=
  match snapshots with
  | [] => Ok groupID
  | snap :: snapshots =>
      let next := dg_groupID snap in
      if next =? 0 then resolveFrom groupID snapshots
      else if groupID =? 0 then resolveFrom next snapshots
      else if negb (groupID =? next) then Err ErrEntityLockGroupMix
      else resolveFrom groupID snapshots
  end.

Definition resolveDispatchGroupIDFromSnapshots := resolveFrom 0.

(** The body of the loop of [validateDispatchGroupSnapshots]. *)
Definition validateSnapshot (b : EntityBase) (snap : dispatchGroupSnapshot) : result dispatchError unit :=
  if GroupTransitionPending b then Err ErrEntityGroupTransitionPending
  else if negb (eb_groupLockID b =? dg_groupID snap) || negb (eb_groupEpoch b =? dg_epoch snap)
          || negb (bool_decide (eb_groupState b = dg_state snap))
          || negb (eb_groupTargetID b =? dg_targetID snap)
  then Err ErrEntityLockGroupChanged
  else Ok tt.

(** ** Transitions *)

Record GroupTransitionRequest := mkRequest {
  rq_EntityID : Z;
  rq_TargetGroupID : Z;
  rq_State : EntityGroupTransitionState
}.

Definition transitionLockGroupIDs (currentGroupID targetGroupID : Z) (state : EntityGroupTransitionState)
    : list Z :=
  let add (id : Z) (seen : gset Z) := if id =? 0 then seen else {[ id ]} ∪ seen in
  let seen := match state with
              | EntityGroupTransitionJoin => add targetGroupID ∅
              | EntityGroupTransitionLeave => add currentGroupID ∅
              | EntityGroupTransitionMove => add targetGroupID (add currentGroupID ∅)
              | EntityGroupTransitionNone => ∅
              end in
  sort_slice Z.ltb (elements seen).

(** ** Goroutines *)

(** A lock is that of a group or that of an entity. *)
Abbreviation lockKey := (bool * Z)%type.
Abbreviation GroupKey id := (true, id).
Abbreviation EntityKey id := (false, id).

(** Where a goroutine is in [lockDispatchEntitiesForHandler], the handler and the
    release, or in [groupTransitionDispatch]. *)
Inductive dispatchPc :=
  | DIdle
  | DRetry (lockEs : list Z) (attempt : nat)
  | DGroup (snaps : list dispatchGroupSnapshot) (groupID : Z) (attempt : nat)
  | DEntities (snaps : list dispatchGroupSnapshot) (groupID : Z) (attempt : nat) (rest : list Z)
  | DValidate (snaps : list dispatchGroupSnapshot) (groupID : Z) (attempt : nat)
      (rest : list dispatchGroupSnapshot)
  | DHandler (snaps : list dispatchGroupSnapshot) (groupID : Z)
  | TGroups (req : GroupTransitionRequest) (rest : list Z)
  | TEntity (req : GroupTransitionRequest)
  | TUpdate (req : GroupTransitionRequest)
  | Releasing (next : option (list Z * nat)).

(** The locks a goroutine holds, the last one first. *)
Record dispatchThread := mkThread { dt_pc : dispatchPc; dt_held : list lockKey }.

Record groupWorld := mkGroupWorld {
  gw_bases : gmap Z EntityBase;
  gw_groups : groupIndex;
  gw_mutexes : gmap lockKey ReentrantMutex;
  gw_messages : list GroupTransitionRequest;
  gw_threads : list dispatchThread;
  gw_panicked : bool
}.

Definition baseOf (w : groupWorld) (x : Z) : EntityBase := default newBase (gw_bases w !! x).

Definition mutexOf (w : groupWorld) (k : lockKey) : ReentrantMutex :=
  default NewReentrantMutex (gw_mutexes w !! k).

Definition set_thread (w : groupWorld) (i : nat) (pc : dispatchPc) (held : list lockKey) : groupWorld :=
  mkGroupWorld (gw_bases w) (gw_groups w) (gw_mutexes w) (gw_messages w)
    (<[i := mkThread pc held]> (gw_threads w)) (gw_panicked w).

Definition set_mutex (w : groupWorld) (k : lockKey) (mu : ReentrantMutex) : groupWorld :=
  mkGroupWorld (gw_bases w) (gw_groups w) (<[k := mu]> (gw_mutexes w)) (gw_messages w) (gw_threads w)
    (gw_panicked w).

Definition set_base (w : groupWorld) (x : Z) (b : EntityBase) : groupWorld :=
  mkGroupWorld (<[x := b]> (gw_bases w)) (gw_groups w) (gw_mutexes w) (gw_messages w) (gw_threads w)
    (gw_panicked w).

Definition set_groups (w : groupWorld) (groups : groupIndex) : groupWorld :=
  mkGroupWorld (gw_bases w) groups (gw_mutexes w) (gw_messages w) (gw_threads w) (gw_panicked w).

Definition set_messages (w : groupWorld) (messages : list GroupTransitionRequest) : groupWorld :=
  mkGroupWorld (gw_bases w) (gw_groups w) (gw_mutexes w) messages (gw_threads w) (gw_panicked w).

Definition panic (w : groupWorld) : groupWorld :=
  mkGroupWorld (gw_bases w) (gw_groups w) (gw_mutexes w) (gw_messages w) (gw_threads w) true.

(** Goroutine [i] at [pc] tries to take a lock: [ok] when it got it, [busy]
    otherwise. *)
Definition takeLock (w : groupWorld) (i : nat) (k : lockKey) (held : list lockKey) (ok busy : dispatchPc)
    : groupWorld :=
  match TryLock (mutexOf w k) (goID i) with
  | (mu, true) => set_thread (set_mutex w k mu) i ok (k :: held)
  | (_, false) => set_thread w i busy held
  end.

(** [retryGroupTransition]: the request is sent again, or given up when it
    [expired]; then the locks are released. *)
Definition retryGroupTransition (w : groupWorld) (i : nat) (req : GroupTransitionRequest)
    (held : list lockKey) (expired : bool) : groupWorld :=
  let b := baseOf w (rq_EntityID req) in
  let w :=
    if negb expired then set_messages w (gw_messages w ++ [req])
    else if bool_decide (eb_groupState b = rq_State req) && (eb_groupTargetID b =? rq_TargetGroupID req)
         then set_base w (rq_EntityID req) (ClearGroupTransition b) else w in
  set_thread w i (Releasing None) held.

(** The end of [groupTransitionDispatch], with all locks held. *)
Definition finishTransition (w : groupWorld) (i : nat) (req : GroupTransitionRequest)
    (held : list lockKey) (managed : bool) : groupWorld :=
  let x := rq_EntityID req in
  let b := baseOf w x in
  let w :=
    if negb (bool_decide (eb_groupState b = rq_State req)) || negb (eb_groupTargetID b =? rq_TargetGroupID req)
    then w else
    match rq_State req with
    | EntityGroupTransitionNone => set_base w x (ClearGroupTransition b)
    | state =>
        let target := match state with EntityGroupTransitionLeave => 0 | _ => rq_TargetGroupID req end in
        match UpdateEntityGroup (gw_groups w) managed x b target with
        | None => set_base w x (ClearGroupTransition b)
        | Some (groups, b) => set_base (set_groups w groups) x (ClearGroupTransition b)
        end
    end in
  set_thread w i (Releasing None) held.

(** The limit of [lockDispatchEntitiesForHandler]. *)
Definition entityLockGroupDispatchRetryMax : nat := 4.

(** Snapshots were read: the group lock is next, if there is a group.  The loads
    happen at different moments, so a schedule may supply any values. *)
Definition startDispatch (w : groupWorld) (i : nat) (snaps : list dispatchGroupSnapshot) (attempt : nat)
    : groupWorld :=
  match resolveDispatchGroupIDFromSnapshots snaps with
  | Err _ => set_thread w i DIdle []
  | Ok groupID =>
      if groupID =? 0 then set_thread w i (DEntities snaps groupID attempt (dg_ent <$> snaps)) []
      else set_thread w i (DGroup snaps groupID attempt) []
  end.

Inductive dispatchAction :=
  | ActDispatch (snaps : list dispatchGroupSnapshot)
  | ActTransition (message : nat)
  | ActFinish
  | ActStep (gone expired : bool).

(** One step of goroutine [i]: [gone] says that the entity at hand was removed,
    [expired] that a transition has reached its deadline. *)
Definition threadStep (w : groupWorld) (i : nat) (t : dispatchThread) (a : dispatchAction) : groupWorld :=
  let held := dt_held t in
  match dt_pc t, a with
  | DIdle, ActDispatch snaps => startDispatch w i snaps 1
  | DRetry lockEs attempt, ActDispatch snaps =>
      if (attempt <? entityLockGroupDispatchRetryMax)%nat
      then if bool_decide (dg_ent <$> snaps = lockEs) then startDispatch w i snaps (S attempt) else w
      else set_thread w i DIdle []
  | DIdle, ActTransition n =>
      match gw_messages w !! n with
      | None => w
      | Some req =>
          set_thread (set_messages w (delete n (gw_messages w))) i
            (TGroups req (transitionLockGroupIDs (eb_groupLockID (baseOf w (rq_EntityID req)))
                            (rq_TargetGroupID req) (rq_State req))) []
      end
  | DGroup snaps groupID attempt, ActStep _ _ =>
      takeLock w i (GroupKey groupID) held (DEntities snaps groupID attempt (dg_ent <$> snaps)) DIdle
  | DEntities snaps groupID attempt [], ActStep _ _ =>
      set_thread w i (DValidate snaps groupID attempt snaps) held
  | DEntities snaps groupID attempt (x :: rest), ActStep gone _ =>
      if bool_decide (EntityKey x ∈ held) then set_thread w i (DEntities snaps groupID attempt rest) held else
      let busy := if groupID =? 0 then DEntities snaps groupID attempt (x :: rest) else Releasing None in
      if gone && (TryLock (mutexOf w (EntityKey x)) (goID i)).2 then set_thread w i (Releasing None) held
      else takeLock w i (EntityKey x) held (DEntities snaps groupID attempt rest) busy
  | DValidate snaps groupID attempt [], ActStep _ _ => set_thread w i (DHandler snaps groupID) held
  | DValidate snaps groupID attempt (snap :: rest), ActStep _ _ =>
      match validateSnapshot (baseOf w (dg_ent snap)) snap with
      | Ok _ => set_thread w i (DValidate snaps groupID attempt rest) held
      | Err ErrEntityGroupTransitionPending => set_thread w i (Releasing None) held
      | Err _ => set_thread w i (Releasing (Some (dg_ent <$> snaps, attempt))) held
      end
  | DHandler _ _, ActFinish => set_thread w i (Releasing None) held
  | TGroups req [], ActStep _ _ => set_thread w i (TEntity req) held
  | TGroups req (g :: rest), ActStep _ expired =>
      match TryLock (mutexOf w (GroupKey g)) (goID i) with
      | (mu, true) => set_thread (set_mutex w (GroupKey g) mu) i (TGroups req rest) (GroupKey g :: held)
      | (_, false) => retryGroupTransition w i req held expired
      end
  | TEntity req, ActStep gone expired =>
      match TryLock (mutexOf w (EntityKey (rq_EntityID req))) (goID i) with
      | (mu, true) =>
          if gone then retryGroupTransition w i req held expired
          else set_thread (set_mutex w (EntityKey (rq_EntityID req)) mu) i (TUpdate req)
                 (EntityKey (rq_EntityID req) :: held)
      | (_, false) => retryGroupTransition w i req held expired
      end
  | TUpdate req, ActStep gone _ => finishTransition w i req held (negb gone)
  | Releasing next, ActStep _ _ =>
      match held with
      | k :: held =>
          match Unlock (mutexOf w k) (goID i) with
          | Some mu => set_thread (set_mutex w k mu) i (Releasing next) held
          | None => panic w
          end
      | [] => set_thread w i (match next with Some (lockEs, attempt) => DRetry lockEs attempt | None => DIdle end) []
      end
  | _, _ => w
  end.

(** Requests can be made by anyone at any time. *)
Inductive groupEvent :=
  | EvRequest (entityID : Z) (state : EntityGroupTransitionState) (targetGroupID : Z)
  | EvThread (i : nat) (a : dispatchAction).

Definition requestEntityLockGroupTransition (w : groupWorld) (x : Z) (state : EntityGroupTransitionState)
    (targetGroupID : Z) : groupWorld :=
  match BeginGroupTransition (baseOf w x) state targetGroupID with
  | None => w
  | Some b => set_messages (set_base w x b) (gw_messages w ++ [mkRequest x targetGroupID state])
  end.

Definition groupStep (w : groupWorld) (e : groupEvent) : groupWorld :=
  match e with
  | EvRequest x state target => requestEntityLockGroupTransition w x state target
  | EvThread i a =>
      match gw_threads w !! i with
      | None => w
      | Some t => threadStep w i t a
      end
  end.

(** ** Specification *)

Definition groupOf (w : groupWorld) (x : Z) : Z := eb_groupLockID (baseOf w x).

(** What a handler may touch: the entities it was dispatched with, and the
    entities that [EntityLockGroupScope.Get] finds in its group. *)
Definition scopeGet (w : groupWorld) (groupID x : Z) : bool :=
  negb (groupID =? 0) && negb (x =? 0)
  && bool_decide (x ∈ default ∅ (gw_groups w !! groupID)) && (groupOf w x =? groupID).

Definition accesses (w : groupWorld) (i : nat) (x : Z) : Prop :=
  exists snaps groupID held, gw_threads w !! i = Some (mkThread (DHandler snaps groupID) held)
    /\ (x ∈ dg_ent <$> snaps \/ scopeGet w groupID x = true).

(** Entities join a group from outside all groups. *)
Definition allowed (w : groupWorld) (e : groupEvent) : Prop :=
  match e with
  | EvRequest x EntityGroupTransitionJoin _ => groupOf w x = 0
  | _ => True
  end.

(** ** Invariant *)

Definition reqOf (pc : dispatchPc) : option GroupTransitionRequest :=
  match pc with
  | TGroups req _ | TEntity req | TUpdate req => Some req
  | _ => None
  end.

(** Mutexes belong to the goroutine that lists them. *)
Record locks_ok (mu : lockKey -> ReentrantMutex) (ts : list dispatchThread) : Prop := {
  lo_held : forall i t k, ts !! i = Some t -> k ∈ dt_held t <-> rm_owner (mu k) = goID i;
  lo_free : forall k, rm_owner (mu k) = 0 -> rm_recursion (mu k) = 0;
  lo_owned : forall k, rm_owner (mu k) <> 0 -> rm_recursion (mu k) = 1;
  lo_once : forall i t, ts !! i = Some t -> NoDup (dt_held t)
}.

(** The request is the pending transition of its entity. *)
Definition matches (b : EntityBase) (req : GroupTransitionRequest) : Prop :=
  eb_groupState b = rq_State req /\ eb_groupTargetID b = rq_TargetGroupID req
  /\ rq_State req <> EntityGroupTransitionNone
  /\ (rq_State req = EntityGroupTransitionJoin -> eb_groupLockID b = 0).

(** There is one request at a time for an entity, in the queue or in work. *)
Record requests_ok (w : groupWorld) : Prop := {
  ro_queue : NoDup (rq_EntityID <$> gw_messages w);
  ro_queued : forall m, m ∈ gw_messages w -> matches (baseOf w (rq_EntityID m)) m;
  ro_working : forall i t req, gw_threads w !! i = Some t -> reqOf (dt_pc t) = Some req ->
    matches (baseOf w (rq_EntityID req)) req
    /\ (forall m, m ∈ gw_messages w -> rq_EntityID m <> rq_EntityID req)
    /\ (forall j t' req', gw_threads w !! j = Some t' -> reqOf (dt_pc t') = Some req' ->
          rq_EntityID req' = rq_EntityID req -> j = i)
}.

Definition lockIDs (grp : Z -> Z) (req : GroupTransitionRequest) : list Z :=
  transitionLockGroupIDs (grp (rq_EntityID req)) (rq_TargetGroupID req) (rq_State req).

(** All locks of a dispatch are held. *)
Definition guarded (snaps : list dispatchGroupSnapshot) (groupID : Z) (held : list lockKey) : Prop :=
  resolveDispatchGroupIDFromSnapshots snaps = Ok groupID /\ (groupID <> 0 -> GroupKey groupID ∈ held)
  /\ forall x, x ∈ dg_ent <$> snaps -> EntityKey x ∈ held.

Definition validated (grp : Z -> Z) (snap : dispatchGroupSnapshot) : Prop := grp (dg_ent snap) = dg_groupID snap.

Definition pc_ok (grp : Z -> Z) (t : dispatchThread) : Prop :=
  match dt_pc t with
  | DIdle | DRetry _ _ => dt_held t = []
  | DGroup snaps groupID _ =>
      dt_held t = [] /\ resolveDispatchGroupIDFromSnapshots snaps = Ok groupID /\ groupID <> 0
  | DEntities snaps groupID _ rest =>
      resolveDispatchGroupIDFromSnapshots snaps = Ok groupID
      /\ (groupID <> 0 -> GroupKey groupID ∈ dt_held t)
      /\ exists done, dg_ent <$> snaps = done ++ rest /\ forall x, x ∈ done -> EntityKey x ∈ dt_held t
  | DValidate snaps groupID _ rest =>
      guarded snaps groupID (dt_held t)
      /\ exists done, snaps = done ++ rest /\ forall s, s ∈ done -> validated grp s
  | DHandler snaps groupID => guarded snaps groupID (dt_held t) /\ forall s, s ∈ snaps -> validated grp s
  | TGroups req rest =>
      exists done, lockIDs grp req = done ++ rest /\ dt_held t = reverse (pair true <$> done)
  | TEntity req => dt_held t = reverse (pair true <$> lockIDs grp req)
  | TUpdate req => dt_held t = EntityKey (rq_EntityID req) :: reverse (pair true <$> lockIDs grp req)
  | Releasing _ => True
  end.

(** The index has the members of every group. *)
Definition index_ok (groups : groupIndex) (grp : Z -> Z) : Prop :=
  forall gr x, gr <> 0 -> x ∈ default ∅ (groups !! gr) <-> grp x = gr.

Record world_ok (w : groupWorld) : Prop := {
  gw_locks : locks_ok (mutexOf w) (gw_threads w);
  gw_requests : requests_ok w;
  gw_pcs : forall i t, gw_threads w !! i = Some t -> pc_ok (groupOf w) t;
  gw_indexed : index_ok (gw_groups w) (groupOf w);
  gw_calm : gw_panicked w = false
}.

(** ** Lemmas: locks *)

Lemma locks_ok_keep mu ts i t t' :
  ts !! i = Some t -> dt_held t' = dt_held t -> locks_ok mu ts -> locks_ok mu (<[i := t']> ts).
Proof.
  intros Hi Hh [H1 H2 H3 H4]. split; [|done|done|].
  - intros j x k [(<- & <- & _)|[_ Hj]]%list_lookup_insert_Some; [rewrite Hh|]; eauto.
  - intros j x [(<- & <- & _)|[_ Hj]]%list_lookup_insert_Some; [rewrite Hh|]; eauto.
Qed.

Lemma goID_pos i : goID i <> 0.
Proof. unfold goID. lia. Qed.

Lemma locks_ok_take mu mu' ts i t t' k m :
  ts !! i = Some t -> k ∉ dt_held t -> dt_held t' = k :: dt_held t ->
  TryLock (mu k) (goID i) = (m, true) -> mu' k = m -> (forall k', k' <> k -> mu' k' = mu k') ->
  locks_ok mu ts -> locks_ok mu' (<[i := t']> ts).
Proof.
  intros Hi Hk Hh Ht Hm Hother [H1 H2 H3 H4].
  assert (Hfree : rm_owner (mu k) = 0 /\ m = mkMutex (goID i) 1).
  { unfold TryLock in Ht. destruct (Z.eqb_spec (rm_owner (mu k)) (goID i)) as [E|E].
    - exfalso. by apply Hk, (H1 i t k Hi).
    - destruct (Z.eqb_spec (rm_owner (mu k)) 0); [|done]. by injection Ht as <-. }
  destruct Hfree as [H0 ->].
  assert (Hown : forall k', rm_owner (mu' k') = if decide (k' = k) then goID i else rm_owner (mu k')).
  { intros k'. case_decide as E; [subst; by rewrite Hm|by rewrite Hother]. }
  split.
  - intros j x k' [(<- & <- & _)|[Hne Hj]]%list_lookup_insert_Some; rewrite Hown.
    + rewrite Hh, elem_of_cons, (H1 i t k' Hi). case_decide as E; [by split; [|left]|].
      split; [intros [?|?]; [done|done]|by right].
    + rewrite (H1 j x k' Hj). case_decide as E; [|done]. subst k'. rewrite H0. split; intros E.
      * by destruct (goID_pos j).
      * by apply goID_inj in E.
  - intros k'. destruct (decide (k' = k)) as [-> |E]; [rewrite Hm|rewrite Hother by done; apply H2].
    cbn. intros E. by destruct (goID_pos i).
  - intros k'. destruct (decide (k' = k)) as [-> |E]; [by rewrite Hm|rewrite Hother by done; apply H3].
  - intros j x [(<- & <- & _)|[_ Hj]]%list_lookup_insert_Some; [|by eauto]. rewrite Hh. apply NoDup_cons. eauto.
Qed.

Lemma locks_ok_release mu ts i t t' k :
  ts !! i = Some t -> dt_held t = k :: dt_held t' -> locks_ok mu ts ->
  exists m, Unlock (mu k) (goID i) = Some m
    /\ forall mu', mu' k = m -> (forall k', k' <> k -> mu' k' = mu k') -> locks_ok mu' (<[i := t']> ts).
Proof.
  intros Hi Hh [H1 H2 H3 H4].
  assert (Ho : rm_owner (mu k) = goID i) by (apply (H1 i t k Hi); rewrite Hh; left).
  assert (Hr : rm_recursion (mu k) = 1) by (apply H3; rewrite Ho; apply goID_pos).
  pose proof (H4 i t Hi) as Hnd. rewrite Hh in Hnd. apply NoDup_cons in Hnd as [Hk Hnd].
  exists (mkMutex 0 0). split; [unfold Unlock; by rewrite Ho, Hr, Z.eqb_refl|].
  intros mu' Hm Hother.
  assert (Hown : forall k', rm_owner (mu' k') = if decide (k' = k) then 0 else rm_owner (mu k')).
  { intros k'. case_decide as E; [subst; by rewrite Hm|by rewrite Hother]. }
  split.
  - intros j x k' [(<- & <- & _)|[Hne Hj]]%list_lookup_insert_Some; rewrite Hown.
    + pose proof (H1 i t k' Hi) as Hiff. rewrite Hh, elem_of_cons in Hiff. case_decide as E.
      * subst k'. split; [done|]. intros E. by destruct (goID_pos i).
      * rewrite <-Hiff. split; [by right|]. by intros [?|?].
    + rewrite (H1 j x k' Hj). case_decide as E; [|done]. subst k'. rewrite Ho. split; intros E.
      * by apply goID_inj in E.
      * by destruct (goID_pos j).
  - intros k'. destruct (decide (k' = k)) as [-> |E]; [by rewrite Hm|rewrite Hother by done; apply H2].
  - intros k'. destruct (decide (k' = k)) as [-> |E]; [by rewrite Hm|rewrite Hother by done; apply H3].
  - intros j x [(<- & <- & _)|[_ Hj]]%list_lookup_insert_Some; eauto.
Qed.

(** Two goroutines never hold the same lock. *)
Lemma held_once mu ts i j t t' k :
  locks_ok mu ts -> ts !! i = Some t -> ts !! j = Some t' -> k ∈ dt_held t -> k ∈ dt_held t' -> i = j.
Proof.
  intros [H1 _ _ _] Hi Hj Hk Hk'. apply (H1 i t k Hi) in Hk. apply (H1 j t' k Hj) in Hk'.
  apply goID_inj. congruence.
Qed.

(** ** Lemmas: steps that keep memberships and requests *)

Lemma pc_ok_ext grp grp' t :
  (forall x, EntityKey x ∈ dt_held t -> grp' x = grp x) ->
  (forall req, reqOf (dt_pc t) = Some req -> grp' (rq_EntityID req) = grp (rq_EntityID req)) ->
  pc_ok grp t -> pc_ok grp' t.
Proof.
  intros Hh Hr. unfold pc_ok, lockIDs, validated.
  destruct (dt_pc t) as [|lockEs a|snaps g a|snaps g a rest|snaps g a rest|snaps g|req rest|req|req|next];
    cbn in Hr; try done; try rewrite (Hr req eq_refl); try done.
  - intros (Hg & done & -> & Hv). split; [done|]. exists done. split; [done|]. intros s Hs.
    rewrite Hh; [by apply Hv|]. apply Hg. apply list_elem_of_fmap_2, elem_of_app. by left.
  - intros (Hg & Hv). split; [done|]. intros s Hs. rewrite Hh; [by apply Hv|].
    by apply Hg, list_elem_of_fmap_2.
Qed.

Lemma requests_ok_thread w w' i t t' :
  requests_ok w -> gw_threads w !! i = Some t -> gw_bases w' = gw_bases w -> gw_messages w' = gw_messages w ->
  gw_threads w' = <[i := t']> (gw_threads w) ->
  reqOf (dt_pc t') = None \/ reqOf (dt_pc t') = reqOf (dt_pc t) -> requests_ok w'.
Proof.
  intros [H1 H2 H3] Hi Hb Hm Ht Hr.
  assert (Hbase : forall x, baseOf w' x = baseOf w x) by (intros x; unfold baseOf; by rewrite Hb).
  assert (Hold : forall j x req, <[i := t']> (gw_threads w) !! j = Some x -> reqOf (dt_pc x) = Some req ->
            exists y, gw_threads w !! j = Some y /\ reqOf (dt_pc y) = Some req).
  { intros j x req [(<- & <- & _)|[_ Hj]]%list_lookup_insert_Some Hx; [|by eauto].
    exists t. split; [done|]. destruct Hr; congruence. }
  split; rewrite ?Hm, ?Ht; [done| |].
  - intros m Hin. rewrite Hbase. by apply H2.
  - intros j x req Hj Hx. destruct (Hold j x req Hj Hx) as (y & Hy & Hyr).
    destruct (H3 j y req Hy Hyr) as (Q1 & Q2 & Q3). rewrite Hbase. split_and!; [done|done|].
    intros j' x' req' Hj' Hx' He. destruct (Hold j' x' req' Hj' Hx') as (y' & Hy' & Hyr'). by eapply Q3.
Qed.

Lemma plain_step w w' i t t' :
  world_ok w -> gw_threads w !! i = Some t ->
  gw_bases w' = gw_bases w -> gw_groups w' = gw_groups w -> gw_messages w' = gw_messages w ->
  gw_panicked w' = gw_panicked w -> gw_threads w' = <[i := t']> (gw_threads w) ->
  reqOf (dt_pc t') = None \/ reqOf (dt_pc t') = reqOf (dt_pc t) ->
  locks_ok (mutexOf w') (gw_threads w') -> pc_ok (groupOf w) t' -> world_ok w'.
Proof.
  intros [H1 H2 H3 H4 H5] Hi Hb Hg Hm Hp Ht Hr Hl Hpc.
  assert (Hgrp : forall x, groupOf w' x = groupOf w x) by (intros x; unfold groupOf, baseOf; by rewrite Hb).
  split; [done|by eapply requests_ok_thread| | |by rewrite Hp].
  - rewrite Ht. intros j x [(<- & <- & _)|[_ Hj]]%list_lookup_insert_Some;
      (eapply pc_ok_ext; [by intros; apply Hgrp|by intros; apply Hgrp|]); [done|by eapply H3].
  - intros gr x Hgr. rewrite Hg, Hgrp. by apply H4.
Qed.

(** The goroutine moves on with the locks it has. *)
Lemma set_thread_ok w i t pc :
  world_ok w -> gw_threads w !! i = Some t -> reqOf pc = None \/ reqOf pc = reqOf (dt_pc t) ->
  pc_ok (groupOf w) (mkThread pc (dt_held t)) -> world_ok (set_thread w i pc (dt_held t)).
Proof.
  intros Hw Hi Hr Hpc. eapply plain_step; try done. cbn. by eapply locks_ok_keep; [| |apply Hw].
Qed.

Lemma mutexOf_set w k m k' : mutexOf (set_mutex w k m) k' = if decide (k' = k) then m else mutexOf w k'.
Proof.
  unfold mutexOf. cbn. case_decide as E; [subst; by rewrite lookup_insert_eq|by rewrite lookup_insert_ne].
Qed.

(** The goroutine takes a lock it does not have. *)
Lemma take_ok w i t pc k m :
  world_ok w -> gw_threads w !! i = Some t -> k ∉ dt_held t ->
  TryLock (mutexOf w k) (goID i) = (m, true) ->
  reqOf pc = None \/ reqOf pc = reqOf (dt_pc t) -> pc_ok (groupOf w) (mkThread pc (k :: dt_held t)) ->
  world_ok (set_thread (set_mutex w k m) i pc (k :: dt_held t)).
Proof.
  intros Hw Hi Hk Ht Hr Hpc. eapply plain_step; try done. cbn [gw_threads set_thread set_mutex].
  eapply (locks_ok_take (mutexOf w)); [done|done|done|done| | |apply Hw].
  - change (mutexOf (set_mutex w k m) k = m). by rewrite mutexOf_set, decide_True.
  - intros k' Hne. change (mutexOf (set_mutex w k m) k' = mutexOf w k'). by rewrite mutexOf_set, decide_False.
Qed.

Lemma takeLock_ok w i t k ok busy :
  world_ok w -> gw_threads w !! i = Some t -> k ∉ dt_held t ->
  reqOf ok = None \/ reqOf ok = reqOf (dt_pc t) -> reqOf busy = None \/ reqOf busy = reqOf (dt_pc t) ->
  pc_ok (groupOf w) (mkThread ok (k :: dt_held t)) -> pc_ok (groupOf w) (mkThread busy (dt_held t)) ->
  world_ok (takeLock w i k (dt_held t) ok busy).
Proof.
  intros Hw Hi Hk Hr1 Hr2 Hp1 Hp2. unfold takeLock.
  destruct (TryLock (mutexOf w k) (goID i)) as [m [|]] eqn:Ht; [by eapply take_ok|by apply set_thread_ok].
Qed.

Lemma release_ok w i t next k held :
  world_ok w -> gw_threads w !! i = Some t -> dt_pc t = Releasing next -> dt_held t = k :: held ->
  exists m, Unlock (mutexOf w k) (goID i) = Some m
            /\ world_ok (set_thread (set_mutex w k m) i (Releasing next) held).
Proof.
  intros Hw Hi Hpc Hh.
  destruct (locks_ok_release (mutexOf w) _ i t (mkThread (Releasing next) held) k Hi Hh (gw_locks w Hw))
    as (m & Hm & Hl).
  exists m. split; [done|]. eapply plain_step; try done; [by left|]. cbn [gw_threads set_thread set_mutex].
  apply Hl.
  - change (mutexOf (set_mutex w k m) k = m). by rewrite mutexOf_set, decide_True.
  - intros k' Hne. change (mutexOf (set_mutex w k m) k' = mutexOf w k'). by rewrite mutexOf_set, decide_False.
Qed.

Lemma startDispatch_ok w i t snaps attempt :
  world_ok w -> gw_threads w !! i = Some t -> dt_held t = [] -> world_ok (startDispatch w i snaps attempt).
Proof.
  intros Hw Hi Hh. unfold startDispatch. rewrite <-Hh.
  destruct (resolveDispatchGroupIDFromSnapshots snaps) as [g|e] eqn:Hr.
  - destruct (Z.eqb_spec g 0) as [-> |Hg]; apply set_thread_ok; try done; try by left.
    + cbn. split_and!; [done|done|]. exists []. split; [done|]. intros x Hx. by apply elem_of_nil in Hx.
  - apply set_thread_ok; [done|done|by left|done].
Qed.

(** ** Lemmas: steps that change memberships or requests *)

Lemma requests_ok_rebase w w' x :
  requests_ok w -> (forall y, y <> x -> baseOf w' y = baseOf w y) ->
  NoDup (rq_EntityID <$> gw_messages w') ->
  (forall m, m ∈ gw_messages w' -> (rq_EntityID m <> x /\ m ∈ gw_messages w)
     \/ (rq_EntityID m = x /\ matches (baseOf w' x) m)) ->
  (forall j t' req, gw_threads w' !! j = Some t' -> reqOf (dt_pc t') = Some req ->
     rq_EntityID req <> x /\ exists t, gw_threads w !! j = Some t /\ reqOf (dt_pc t) = Some req) ->
  requests_ok w'.
Proof.
  intros [H1 H2 H3] Hb Hnd Hm Ht. split; [done| |].
  - intros m Hin. destruct (Hm m Hin) as [[Hx Hold]|[-> Hnew]]; [|done]. rewrite Hb by done. by apply H2.
  - intros j t' req Hj Hr. destruct (Ht j t' req Hj Hr) as (Hx & t & Hj0 & Hr0).
    destruct (H3 j t req Hj0 Hr0) as (Q1 & Q2 & Q3). rewrite Hb by done. split_and!; [done| |].
    + intros m Hin. destruct (Hm m Hin) as [[_ Hold]|[-> _]]; [by apply Q2|done].
    + intros j' t1 req' Hj' Hr' He. destruct (Ht j' t1 req' Hj' Hr') as (_ & t2 & Hj2 & Hr2). by eapply Q3.
Qed.

(** What is known when a goroutine gives up the request it works on. *)
Lemma finished_request w i t req t' :
  requests_ok w -> gw_threads w !! i = Some t -> reqOf (dt_pc t) = Some req -> reqOf (dt_pc t') = None ->
  (forall m, m ∈ gw_messages w -> rq_EntityID m <> rq_EntityID req)
  /\ forall j x r, <[i := t']> (gw_threads w) !! j = Some x -> reqOf (dt_pc x) = Some r ->
     rq_EntityID r <> rq_EntityID req /\ exists y, gw_threads w !! j = Some y /\ reqOf (dt_pc y) = Some r.
Proof.
  intros [H1 H2 H3] Hi Hr Hr'. destruct (H3 i t req Hi Hr) as (_ & Q2 & Q3). split; [done|].
  intros j x r [(<- & <- & _)|[Hne Hj]]%list_lookup_insert_Some Hx; [congruence|].
  split; [|by eauto]. intros He. by rewrite (Q3 j x r Hj Hx He) in Hne.
Qed.

Lemma baseOf_set w x b y : baseOf (set_base w x b) y = if decide (y = x) then b else baseOf w y.
Proof. unfold baseOf. cbn. case_decide as E; [subst; by rewrite lookup_insert_eq|by rewrite lookup_insert_ne]. Qed.

(** Changes of bases that keep the groups. *)
Lemma rebase_ok w w' i t t' :
  world_ok w -> gw_threads w !! i = Some t -> gw_threads w' = <[i := t']> (gw_threads w) ->
  (forall k, mutexOf w' k = mutexOf w k) -> gw_groups w' = gw_groups w -> gw_panicked w' = gw_panicked w ->
  dt_held t' = dt_held t -> (forall y, groupOf w' y = groupOf w y) ->
  pc_ok (groupOf w) t' -> requests_ok w' -> world_ok w'.
Proof.
  intros [H1 H2 H3 H4 H5] Hi Ht Hmu Hg Hp Hh Hgrp Hpc Hr. split; [|done| | |by rewrite Hp].
  - rewrite Ht. assert (Hl : locks_ok (mutexOf w) (<[i := t']> (gw_threads w))) by (by eapply locks_ok_keep).
    destruct Hl as [L1 L2 L3 L4]. split; [|intros k; rewrite Hmu; apply L2|intros k; rewrite Hmu; apply L3|done].
    intros j y k. rewrite Hmu. apply L1.
  - rewrite Ht. intros j y [(<- & <- & _)|[_ Hj]]%list_lookup_insert_Some;
      (eapply pc_ok_ext; [by intros; apply Hgrp|by intros; apply Hgrp|]); [done|by eapply H3].
  - intros gr y Hgr. rewrite Hg, Hgrp. by apply H4.
Qed.

Lemma retry_ok w i t req expired :
  world_ok w -> gw_threads w !! i = Some t -> reqOf (dt_pc t) = Some req ->
  world_ok (retryGroupTransition w i req (dt_held t) expired).
Proof.
  intros Hw Hi Hr. pose proof (gw_requests w Hw) as Hreq.
  set (t' := mkThread (Releasing None) (dt_held t)).
  destruct (finished_request w i t req t' Hreq Hi Hr eq_refl) as [Hq Hth].
  assert (Hmatch : matches (baseOf w (rq_EntityID req)) req) by (by apply (ro_working w Hreq i t req Hi Hr)).
  unfold retryGroupTransition. destruct expired; cbn [negb].
  - destruct (_ && _); last first.
    { apply set_thread_ok; [done|done|by left|done]. }
    set (b := baseOf w (rq_EntityID req)).
    eapply (rebase_ok w _ i t t'); try done.
    + intros y. unfold groupOf. change (baseOf (set_thread _ _ _ _) y)
        with (baseOf (set_base w (rq_EntityID req) (ClearGroupTransition b)) y).
      rewrite baseOf_set. case_decide as E; [by subst|done].
    + eapply (requests_ok_rebase w _ (rq_EntityID req)); [done| |apply Hreq| |exact Hth].
      * intros y Hy. change (baseOf (set_base w (rq_EntityID req) (ClearGroupTransition b)) y = baseOf w y).
        by rewrite baseOf_set, decide_False.
      * intros m Hm. left. split; [by apply Hq|done].
  - eapply (rebase_ok w _ i t t'); try done.
    eapply (requests_ok_rebase w _ (rq_EntityID req)); [done|done| | |exact Hth].
    + cbn. rewrite fmap_app. apply NoDup_app. split_and!; [apply Hreq| |by apply NoDup_singleton].
      intros y (m & -> & Hm)%list_elem_of_fmap He%list_elem_of_singleton. by apply (Hq m Hm).
    + intros m [Hm| ->%list_elem_of_singleton]%elem_of_app; [left; split; [by apply Hq|done]|right; by split].
Qed.

Lemma takeMessage_ok w i t n req :
  world_ok w -> gw_threads w !! i = Some t -> dt_pc t = DIdle -> dt_held t = [] ->
  gw_messages w !! n = Some req ->
  world_ok (set_thread (set_messages w (delete n (gw_messages w))) i (TGroups req (lockIDs (groupOf w) req)) []).
Proof.
  intros Hw Hi Hpc Hh Hn. pose proof (gw_requests w Hw) as [H1 H2 H3].
  set (t' := mkThread (TGroups req (lockIDs (groupOf w) req)) []).
  assert (Hdel : gw_messages w ≡ₚ req :: delete n (gw_messages w)) by (by apply delete_Permutation).
  assert (Hnd : NoDup (rq_EntityID req :: (rq_EntityID <$> delete n (gw_messages w)))).
  { change (NoDup (rq_EntityID <$> (req :: delete n (gw_messages w)))). by rewrite <-Hdel. }
  apply NoDup_cons in Hnd as [Hnot Hnd].
  assert (Hin : forall m, m ∈ delete n (gw_messages w) -> m ∈ gw_messages w /\ rq_EntityID m <> rq_EntityID req).
  { intros m Hm. split; [rewrite Hdel; by right|]. intros He. apply Hnot. rewrite <-He. by apply list_elem_of_fmap_2. }
  assert (Hreq : req ∈ gw_messages w) by (by eapply list_elem_of_lookup_2).
  eapply (rebase_ok w _ i t t'); try done.
  - cbn. exists []. done.
  - split; [done| |].
    + intros m Hm. apply H2. by apply Hin.
    + intros j x r [(<- & <- & _)|[Hne Hj]]%list_lookup_insert_Some Hx.
      * injection Hx as <-. split_and!; [by apply H2|intros m Hm; by apply Hin|].
        intros j' x' r' [(<- & _)|[_ Hj']]%list_lookup_insert_Some Hx' He; [done|].
        destruct (H3 j' x' r' Hj' Hx') as (_ & Q2 & _). by destruct (Q2 req Hreq).
      * destruct (H3 j x r Hj Hx) as (Q1 & Q2 & Q3). split_and!; [done|intros m Hm; by apply Q2, Hin|].
        intros j' x' r' [(<- & <- & _)|[_ Hj']]%list_lookup_insert_Some Hx' He; [|by eapply Q3].
        injection Hx' as <-. by destruct (Q2 req Hreq).
Qed.

Lemma removeGroupIndex_lookup groups g x gr :
  default ∅ (removeGroupIndexLocked groups g x !! gr)
  = if decide (gr = g /\ g <> 0) then default ∅ (groups !! gr) ∖ {[ x ]} else default ∅ (groups !! gr).
Proof.
  unfold removeGroupIndexLocked. destruct (Z.eqb_spec g 0) as [-> |Hg].
  { rewrite decide_False; [done|]. by intros [_ ?]. }
  destruct (groups !! g) as [bucket|] eqn:Hb; last first.
  { case_decide as Hd; [|done]. destruct Hd as [-> _]. rewrite Hb. cbn. set_solver. }
  destruct (bool_decide_reflect (bucket ∖ {[ x ]} = ∅)) as [He|He]; destruct (decide (gr = g)) as [-> |Hne].
  - rewrite lookup_delete_eq, decide_True, Hb by done. cbn. by rewrite He.
  - rewrite lookup_delete_ne, decide_False; [done|by intros [? _]|done].
  - by rewrite lookup_insert_eq, decide_True, Hb.
  - rewrite lookup_insert_ne, decide_False; [done|by intros [? _]|done].
Qed.

Lemma addGroupIndex_lookup groups g x gr :
  default ∅ (addGroupIndexLocked groups g x !! gr)
  = if decide (gr = g /\ g <> 0) then default ∅ (groups !! gr) ∪ {[ x ]} else default ∅ (groups !! gr).
Proof.
  unfold addGroupIndexLocked. destruct (Z.eqb_spec g 0) as [-> |Hg].
  { rewrite decide_False; [done|]. by intros [_ ?]. }
  destruct (decide (gr = g)) as [-> |Hne].
  - by rewrite lookup_insert_eq, decide_True.
  - rewrite lookup_insert_ne, decide_False; [done|by intros [? _]|done].
Qed.

(** The index follows the membership of the updated entity. *)
Lemma UpdateEntityGroup_index groups grp grp' managed x b target groups' b' :
  index_ok groups grp -> grp x = eb_groupLockID b ->
  UpdateEntityGroup groups managed x b target = Some (groups', b') ->
  grp' x = eb_groupLockID b' -> (forall y, y <> x -> grp' y = grp y) ->
  eb_groupLockID b' = target /\ index_ok groups' grp'.
Proof.
  intros Hi Hx Hu Hx' Hother. unfold UpdateEntityGroup in Hu. destruct managed; cbn [negb] in Hu; [|done].
  destruct (Z.eqb_spec (eb_groupLockID b) target) as [Ht|Ht].
  { injection Hu as <- <-. split; [done|]. intros gr y Hgr. rewrite (Hi gr y Hgr).
    destruct (decide (y = x)) as [-> |Hy]; [by rewrite Hx', Hx|by rewrite Hother]. }
  injection Hu as <- <-. cbn in Hx'. split; [done|]. intros gr y Hgr.
  assert (Hnew : y ∈ default ∅ ((if negb (target =? 0) then
                   addGroupIndexLocked (removeGroupIndexLocked groups (eb_groupLockID b) x) target x
                   else removeGroupIndexLocked groups (eb_groupLockID b) x) !! gr)
                 <-> (y = x /\ gr = target) \/ (y <> x /\ y ∈ default ∅ (groups !! gr))).
  { assert (Hrem : y ∈ default ∅ (removeGroupIndexLocked groups (eb_groupLockID b) x !! gr)
                   <-> y <> x /\ y ∈ default ∅ (groups !! gr)).
    { rewrite removeGroupIndex_lookup. case_decide as Hd.
      - rewrite elem_of_difference, elem_of_singleton. tauto.
      - split; [|tauto]. intros Hin. split; [|done]. intros ->. rewrite (Hi gr x Hgr), Hx in Hin. apply Hd. by subst gr. }
    destruct (Z.eqb_spec target 0) as [E|Ht0]; cbn [negb].
    - rewrite Hrem. split; [by right|]. intros [[_ ->]|?]; [done|done].
    - rewrite addGroupIndex_lookup. case_decide as Hd.
      + rewrite elem_of_union, elem_of_singleton, Hrem. destruct Hd as [-> _]. destruct (decide (y = x)); tauto.
      + rewrite Hrem. split; [by right|]. intros [[_ ->]|?]; [by destruct Hd|done]. }
  rewrite Hnew. destruct (decide (y = x)) as [-> |Hyx].
  - rewrite Hx'. split; [by intros [[_ ->]|[? _]]|by left].
  - rewrite (Hother y Hyx), (Hi gr y Hgr). split; [by intros [[? _]|[_ ?]]|by right].
Qed.

(** The end of a transition changes the group of an entity whose lock the
    goroutine holds, and the request is done. *)
Lemma finish_ok w i t req managed :
  world_ok w -> gw_threads w !! i = Some t -> dt_pc t = TUpdate req ->
  world_ok (finishTransition w i req (dt_held t) managed).
Proof.
  intros Hw Hi Hpc. pose proof (gw_requests w Hw) as Hreq. set (x := rq_EntityID req).
  assert (Hr : reqOf (dt_pc t) = Some req) by (by rewrite Hpc).
  set (t' := mkThread (Releasing None) (dt_held t)).
  destruct (finished_request w i t req t' Hreq Hi Hr eq_refl) as [Hq Hth].
  assert (Hheld : EntityKey x ∈ dt_held t).
  { pose proof (gw_pcs w Hw i t Hi) as Hp. unfold pc_ok in Hp. rewrite Hpc in Hp. rewrite Hp. left. }
  (* any new base and index that agree *)
  assert (Hgen : forall groups b, index_ok groups (fun y => if decide (y = x) then eb_groupLockID b else groupOf w y) ->
            world_ok (set_thread (set_base (set_groups w groups) x b) i (Releasing None) (dt_held t))).
  { intros groups b Hidx. set (w' := set_thread _ _ _ _).
    assert (Hgrp : forall y, groupOf w' y = if decide (y = x) then eb_groupLockID b else groupOf w y).
    { intros y. unfold groupOf. change (baseOf w' y) with (baseOf (set_base w x b) y). rewrite baseOf_set.
      by case_decide. }
    split.
    - cbn. by eapply locks_ok_keep; [| |apply Hw].
    - eapply (requests_ok_rebase w w' x); [done| |apply Hreq| |exact Hth].
      + intros y Hy. change (baseOf (set_base w x b) y = baseOf w y). by rewrite baseOf_set, decide_False.
      + intros m Hm. left. split; [by apply Hq|done].
    - cbn. intros j y Hj. apply list_lookup_insert_Some in Hj as [(<- & <- & _)|[Hne Hj]]; [done|].
      eapply pc_ok_ext; [| |by apply (gw_pcs w Hw j)].
      + intros z Hz. rewrite Hgrp, decide_False; [done|]. intros ->.
        by destruct Hne; eapply (held_once (mutexOf w) (gw_threads w)); [apply Hw| | | |].
      + intros r Hrr. rewrite Hgrp, decide_False; [done|]. intros E.
        destruct (Hth j y r) as [Hne' _]; [by rewrite list_lookup_insert_ne|done|done].
    - intros gr y Hgr. rewrite Hgrp. by apply Hidx.
    - apply Hw. }
  assert (Hclear : world_ok (set_thread (set_base w x (ClearGroupTransition (baseOf w x))) i (Releasing None) (dt_held t))).
  { destruct w as [bases groups mus msgs ts p]. apply (Hgen groups). intros gr y Hgr. cbn.
    case_decide as E; [subst y|]; by apply (gw_indexed _ Hw). }
  unfold finishTransition. fold x. destruct (negb _ || negb _).
  { apply set_thread_ok; [done|done|by left|done]. }
  destruct (rq_State req); [exact Hclear| | |];
    (destruct (UpdateEntityGroup (gw_groups w) managed x (baseOf w x) _) as [[groups b]|] eqn:Hu;
     [|exact Hclear]; apply Hgen;
     eapply (UpdateEntityGroup_index _ (groupOf w) _ _ _ _ _ _ _ (gw_indexed w Hw) eq_refl Hu);
     [by rewrite decide_True|intros y Hy; by rewrite decide_False]).
Qed.

(** A request is accepted only when no other one is pending for the entity. *)
Lemma request_ok w x state target :
  world_ok w -> allowed w (EvRequest x state target) ->
  world_ok (requestEntityLockGroupTransition w x state target).
Proof.
  intros Hw Ha. unfold requestEntityLockGroupTransition, BeginGroupTransition.
  destruct (bool_decide_reflect (state = EntityGroupTransitionNone)) as [|Hs]; [done|]. cbn [orb].
  unfold GroupTransitionPending. destruct (bool_decide_reflect (eb_groupState (baseOf w x) = EntityGroupTransitionNone))
    as [Hnone|]; [|done]. cbn [negb].
  set (b := mkBase _ _ state target). destruct Hw as [H1 Hreq H3 H4 H5].
  assert (Hno : forall r, matches (baseOf w (rq_EntityID r)) r -> rq_EntityID r <> x).
  { intros r (Q1 & _ & Q3 & _) <-. congruence. }
  set (w' := set_messages _ _).
  assert (Hbase : forall y, baseOf w' y = if decide (y = x) then b else baseOf w y) by apply baseOf_set.
  assert (Hgrp : forall y, groupOf w' y = groupOf w y).
  { intros y. unfold groupOf. rewrite Hbase. case_decide as E; [by subst|done]. }
  split; [done| | | |done].
  - apply (requests_ok_rebase w w' x); [done| | | |].
    + intros y Hy. by rewrite Hbase, decide_False.
    + cbn. rewrite fmap_app. apply NoDup_app. split_and!; [apply Hreq| |by apply NoDup_singleton].
      intros y (m & -> & Hm)%list_elem_of_fmap He%list_elem_of_singleton. cbn in He.
      by apply (Hno m (ro_queued w Hreq m Hm)).
    + intros m [Hm| ->%list_elem_of_singleton]%elem_of_app.
      * left. split; [by apply Hno, (ro_queued w Hreq)|done].
      * right. split; [done|]. rewrite Hbase, decide_True by done. split_and!; [done|done|done|].
        cbn. intros ->. exact Ha.
    + intros j t r Hj Hr. split; [|by eauto]. apply Hno. by apply (ro_working w Hreq j t r Hj Hr).
  - intros j t Hj. eapply pc_ok_ext; [by intros; apply Hgrp|by intros; apply Hgrp|]. by apply (H3 j).
  - intros gr y Hgr. rewrite Hgrp. by apply H4.
Qed.

(** ** Lemmas: every step *)

Lemma lockIDs_NoDup grp req : NoDup (lockIDs grp req).
Proof. unfold lockIDs, transitionLockGroupIDs. rewrite sort_slice_perm. apply NoDup_elements. Qed.

Lemma resolveFrom_spec snaps g g' :
  resolveFrom g snaps = Ok g' ->
  (g <> 0 -> g' = g) /\ forall s, s ∈ snaps -> dg_groupID s = 0 \/ dg_groupID s = g'.
Proof.
  revert g. induction snaps as [|s snaps IH]; intros g; cbn [resolveFrom].
  - intros [= <-]. split; [done|]. intros s Hs. by apply elem_of_nil in Hs.
  - assert (Hgen : forall g0, resolveFrom g0 snaps = Ok g' -> (g <> 0 -> g0 = g) -> (dg_groupID s = 0 \/ dg_groupID s = g') ->
              (g <> 0 -> g' = g) /\ forall s0, s0 ∈ s :: snaps -> dg_groupID s0 = 0 \/ dg_groupID s0 = g').
    { intros g0 H0 Hg Hs. destruct (IH g0 H0) as [I1 I2]. split.
      - intros Hne. specialize (Hg Hne). rewrite <-Hg. apply I1. by subst.
      - intros s0 [-> |Hin]%elem_of_cons; [done|by apply I2]. }
    destruct (Z.eqb_spec (dg_groupID s) 0) as [E|E]; [intros H; apply (Hgen g); [done|done|by left]|].
    destruct (Z.eqb_spec g 0) as [-> |Hg].
    + intros H. apply (Hgen (dg_groupID s)); [done|done|]. right. symmetry. by apply (IH _ H).
    + destruct (Z.eqb_spec g (dg_groupID s)) as [He|]; [|done]. cbn [negb]. intros H.
      apply (Hgen g); [done|done|]. right. rewrite <-He. symmetry. by apply (IH _ H).
Qed.

Lemma validateSnapshot_Ok w snap :
  validateSnapshot (baseOf w (dg_ent snap)) snap = Ok tt -> validated (groupOf w) snap.
Proof.
  unfold validateSnapshot, validated, groupOf. destruct (GroupTransitionPending _); [done|].
  by destruct (Z.eqb_spec (eb_groupLockID (baseOf w (dg_ent snap))) (dg_groupID snap)).
Qed.

(** The steps of a dispatch. *)
Lemma dispatchEntities_ok w i t snaps g attempt x rest gone expired :
  world_ok w -> gw_threads w !! i = Some t -> dt_pc t = DEntities snaps g attempt (x :: rest) ->
  world_ok (threadStep w i t (ActStep gone expired)).
Proof.
  intros Hw Hi Hpc. pose proof (gw_pcs w Hw i t Hi) as Hp. unfold pc_ok in Hp. unfold threadStep. rewrite Hpc in Hp |- *.
  destruct Hp as (Hr & Hg & done & Hd & Hdone).
  assert (Hmore : forall held, (forall k, k ∈ dt_held t -> k ∈ held) -> EntityKey x ∈ held ->
            pc_ok (groupOf w) (mkThread (DEntities snaps g attempt rest) held)).
  { intros held Hsub Hx. cbn. split_and!; [done|intros; by apply Hsub, Hg|].
    exists (done ++ [x]). split; [by rewrite <-app_assoc|].
    intros y [Hy| ->%list_elem_of_singleton]%elem_of_app; [by apply Hsub, Hdone|done]. }
  destruct (bool_decide_reflect (EntityKey x ∈ dt_held t)) as [Hin|Hin].
  { apply set_thread_ok; [done|done|by left|by apply Hmore]. }
  destruct (gone && _); [apply set_thread_ok; [done|done|by left|done]|].
  apply takeLock_ok; [done|done|done|by left|by destruct (g =? 0); left| |].
  - apply Hmore; [by right|left].
  - destruct (g =? 0); [|done]. cbn. split_and!; [done|done|by eauto].
Qed.

Lemma dispatchValidate_ok w i t snaps g attempt rest gone expired :
  world_ok w -> gw_threads w !! i = Some t -> dt_pc t = DValidate snaps g attempt rest ->
  world_ok (threadStep w i t (ActStep gone expired)).
Proof.
  intros Hw Hi Hpc. pose proof (gw_pcs w Hw i t Hi) as Hp. unfold pc_ok in Hp. unfold threadStep. rewrite Hpc in Hp |- *.
  destruct Hp as (Hg & done & Hd & Hdone). destruct rest as [|snap rest].
  { rewrite app_nil_r in Hd. subst done. by apply set_thread_ok; [| |left|]. }
  destruct (validateSnapshot _ snap) as [[]|e] eqn:Hv.
  - apply set_thread_ok; [done|done|by left|]. cbn. split; [done|]. exists (done ++ [snap]).
    split; [by rewrite <-app_assoc|].
    intros s [Hs| ->%list_elem_of_singleton]%elem_of_app; [by apply Hdone|by apply validateSnapshot_Ok].
  - destruct e; (apply set_thread_ok; [done|done|by left|done]).
Qed.

(** The steps of a transition. *)
Lemma transitionGroup_ok w i t req rest gone expired :
  world_ok w -> gw_threads w !! i = Some t -> dt_pc t = TGroups req rest ->
  world_ok (threadStep w i t (ActStep gone expired)).
Proof.
  intros Hw Hi Hpc. pose proof (gw_pcs w Hw i t Hi) as Hp. unfold pc_ok in Hp. unfold threadStep. rewrite Hpc in Hp |- *.
  destruct Hp as (done & Hd & Hh). destruct rest as [|g rest].
  { rewrite app_nil_r in Hd. subst done. apply set_thread_ok; [done|done|right; by rewrite Hpc|done]. }
  destruct (TryLock _ _) as [m [|]] eqn:Ht; [|by apply retry_ok; [| |rewrite Hpc]].
  apply take_ok; [done|done| |done|right; by rewrite Hpc|].
  - rewrite Hh, elem_of_reverse. intros (g' & [= <-] & Hin)%list_elem_of_fmap.
    pose proof (lockIDs_NoDup (groupOf w) req) as Hnd. rewrite Hd in Hnd.
    apply NoDup_app in Hnd as (_ & Hnd & _). apply (Hnd g Hin). left.
  - cbn. exists (done ++ [g]). split; [by rewrite <-app_assoc|].
    by rewrite fmap_app, reverse_app, Hh.
Qed.

Lemma transitionEntity_ok w i t req gone expired :
  world_ok w -> gw_threads w !! i = Some t -> dt_pc t = TEntity req ->
  world_ok (threadStep w i t (ActStep gone expired)).
Proof.
  intros Hw Hi Hpc. pose proof (gw_pcs w Hw i t Hi) as Hp. unfold pc_ok in Hp. unfold threadStep. rewrite Hpc in Hp |- *.
  assert (Hretry : world_ok (retryGroupTransition w i req (dt_held t) expired)) by (by apply retry_ok; [| |rewrite Hpc]).
  destruct (TryLock _ _) as [m [|]] eqn:Ht; [|done]. destruct gone; [done|].
  apply take_ok; [done|done| |done|right; by rewrite Hpc|cbn; by rewrite Hp].
  rewrite Hp, elem_of_reverse. by intros (g' & [=] & Hin)%list_elem_of_fmap.
Qed.

Lemma threadStep_ok w i t a :
  world_ok w -> gw_threads w !! i = Some t -> world_ok (threadStep w i t a).
Proof.
  intros Hw Hi. pose proof (gw_pcs w Hw i t Hi) as Hp. unfold pc_ok in Hp.
  destruct (dt_pc t) as [|lockEs n|snaps g n|snaps g n rest|snaps g n rest|snaps g|req rest|req|req|next] eqn:Hpc;
    destruct a as [snaps'|m| |gone expired];
    try (unfold threadStep; rewrite Hpc; (exact Hw || by destruct rest)).
  - unfold threadStep. rewrite Hpc. by eapply startDispatch_ok.
  - unfold threadStep. rewrite Hpc. destruct (gw_messages w !! m) as [req|] eqn:Hm; [|done].
    by eapply takeMessage_ok.
  - unfold threadStep. rewrite Hpc. destruct (_ <? _)%nat.
    + destruct (bool_decide _); [by eapply startDispatch_ok|done].
    + rewrite <-Hp. apply set_thread_ok; [done|done|by left|done].
  - unfold threadStep. rewrite Hpc. destruct Hp as (Hh & Hr & Hg).
    apply takeLock_ok; [done|done|rewrite Hh; apply not_elem_of_nil|by left|by left| |done].
    cbn. split_and!; [done|left|]. exists []. split; [done|]. intros x Hx. by apply elem_of_nil in Hx.
  - destruct rest as [|x rest]; [|by eapply dispatchEntities_ok].
    unfold threadStep. rewrite Hpc. destruct Hp as (Hr & Hg & done & Hd & Hdone). rewrite app_nil_r in Hd.
    apply set_thread_ok; [done|done|by left|]. cbn. split; [|exists []; split; [done|]].
    + split_and!; [done|done|]. by rewrite Hd.
    + intros s Hs. by apply elem_of_nil in Hs.
  - by eapply dispatchValidate_ok.
  - unfold threadStep. rewrite Hpc. apply set_thread_ok; [done|done|by left|done].
  - by eapply transitionGroup_ok.
  - by eapply transitionEntity_ok.
  - unfold threadStep. rewrite Hpc. by apply finish_ok.
  - unfold threadStep. rewrite Hpc. destruct (dt_held t) as [|k held] eqn:Hh.
    + rewrite <-Hh. apply set_thread_ok; [done|done|by destruct next as [[]|]; left|].
      by destruct next as [[]|].
    + destruct (release_ok w i t next k held Hw Hi Hpc Hh) as (m & -> & H). exact H.
Qed.

Lemma groupStep_ok w e : world_ok w -> allowed w e -> world_ok (groupStep w e).
Proof.
  intros Hw Ha. destruct e as [x state target|i a]; [by apply request_ok|]. cbn [groupStep].
  destruct (gw_threads w !! i) as [t|] eqn:Hi; [by apply threadStep_ok|done].
Qed.

Definition runGroups (w : groupWorld) (es : list groupEvent) : groupWorld := foldl groupStep w es.

Fixpoint allowed_run (w : groupWorld) (es : list groupEvent) : Prop :=
  match es with
  | [] => True
  | e :: es => allowed w e /\ allowed_run (groupStep w e) es
  end.

(** All goroutines are idle, no transition is pending and the index is right. *)
Record initialGroups (w : groupWorld) : Prop := {
  ig_idle : forall i t, gw_threads w !! i = Some t -> t = mkThread DIdle [];
  ig_free : gw_mutexes w = ∅;
  ig_quiet : gw_messages w = [];
  ig_index : index_ok (gw_groups w) (groupOf w);
  ig_calm : gw_panicked w = false
}.

Lemma initialGroups_ok w : initialGroups w -> world_ok w.
Proof.
  intros [H1 H2 H3 H4 H5].
  assert (Hmu : forall k, mutexOf w k = NewReentrantMutex) by (intros k; unfold mutexOf; by rewrite H2).
  split; [| | |done|done].
  - split.
    + intros i t k ->%H1. rewrite Hmu. cbn. split; [by intros ?%elem_of_nil|]. intros E. by destruct (goID_pos i).
    + intros k. by rewrite Hmu.
    + intros k. by rewrite Hmu.
    + intros i t ->%H1. apply NoDup_nil_2.
  - split; rewrite ?H3; [apply NoDup_nil_2|by intros m ?%elem_of_nil|].
    intros i t req ->%H1. done.
  - intros i t ->%H1. done.
Qed.

Lemma runGroups_ok es : forall w, world_ok w -> allowed_run w es -> world_ok (runGroups w es).
Proof.
  induction es as [|e es IH]; intros w Hw Ha; [done|]. destruct Ha as [He Ha].
  apply IH; [by apply groupStep_ok|done].
Qed.

(** What a handler that can touch an entity holds. *)
Lemma accesses_spec w i x :
  world_ok w -> accesses w i x ->
  exists t snaps g, gw_threads w !! i = Some t /\ dt_pc t = DHandler snaps g /\ (g <> 0 -> GroupKey g ∈ dt_held t)
    /\ ((EntityKey x ∈ dt_held t /\ (groupOf w x <> 0 -> groupOf w x = g)) \/ (g <> 0 /\ groupOf w x = g)).
Proof.
  intros Hw (snaps & g & held & Hi & Hx). exists (mkThread (DHandler snaps g) held), snaps, g.
  destruct (gw_pcs w Hw i _ Hi) as ((Hr & Hg & He) & Hv). split_and!; [done|done|done|].
  destruct Hx as [Hx|Hx].
  - left. split; [by apply He|]. intros Hne. apply list_elem_of_fmap in Hx as (s & -> & Hs).
    pose proof (Hv s Hs) as Hval. unfold validated in Hval. rewrite Hval in Hne |- *.
    apply resolveFrom_spec in Hr as [_ Hr]. by destruct (Hr s Hs).
  - right. unfold scopeGet in Hx. destruct (Z.eqb_spec g 0) as [|Hg0]; [done|].
    destruct (Z.eqb_spec (groupOf w x) g) as [Hxg|]; [done|]. by rewrite andb_false_r in Hx.
Qed.

Lemma accesses_exclusive w i j x : world_ok w -> accesses w i x -> accesses w j x -> i = j.
Proof.
  intros Hw Hi Hj. apply accesses_spec in Hi as (ti & si & gi & Hi & _ & Ki & Ai); [|done].
  apply accesses_spec in Hj as (tj & sj & gj & Hj & _ & Kj & Aj); [|done].
  assert (Hentity : EntityKey x ∈ dt_held ti -> EntityKey x ∈ dt_held tj -> i = j)
    by (intros; eapply (held_once _ _ i j ti tj); [apply Hw|done..]).
  assert (Hgroup : gi = gj -> gi <> 0 -> i = j).
  { intros <- Hne. eapply (held_once _ _ i j ti tj); [apply Hw|done|done|by apply Ki|by apply Kj]. }
  destruct Ai as [[Hei Hgi]|[Hgi Hxi]], Aj as [[Hej Hgj]|[Hgj Hxj]]; [by apply Hentity|..]; apply Hgroup.
  - rewrite <-Hxj in Hgj |- *. symmetry. by apply Hgi.
  - rewrite <-Hgi; [by rewrite Hxj|by rewrite Hxj].
  - rewrite Hxi in Hgj. by apply Hgj.
  - done.
  - congruence.
  - done.
Qed.

(** Where a transition moves its entity. *)
Definition destination (req : GroupTransitionRequest) : Z :=
  match rq_State req with EntityGroupTransitionLeave => 0 | _ => rq_TargetGroupID req end.

Lemma groupOf_set w x b y :
  groupOf (set_base w x b) y = if decide (y = x) then eb_groupLockID b else groupOf w y.
Proof. unfold groupOf. rewrite baseOf_set. by case_decide. Qed.

Lemma retry_membership w i req held expired x :
  groupOf (retryGroupTransition w i req held expired) x = groupOf w x.
Proof.
  unfold retryGroupTransition. destruct expired; [|done]. cbn [negb]. destruct (_ && _); [|done].
  change (groupOf (set_base w (rq_EntityID req) (ClearGroupTransition (baseOf w (rq_EntityID req)))) x = groupOf w x).
  rewrite groupOf_set. case_decide as E; [by subst|done].
Qed.

Lemma UpdateEntityGroup_target groups managed x b target groups' b' :
  UpdateEntityGroup groups managed x b target = Some (groups', b') -> eb_groupLockID b' = target.
Proof.
  unfold UpdateEntityGroup. destruct managed; [cbn [negb]|done].
  destruct (Z.eqb_spec (eb_groupLockID b) target) as [He|_]; intros [= _ <-]; done.
Qed.

Lemma finish_membership w i req held managed x :
  groupOf (finishTransition w i req held managed) x <> groupOf w x ->
  rq_EntityID req = x /\ groupOf (finishTransition w i req held managed) x = destination req.
Proof.
  unfold finishTransition, destination. set (b := baseOf w (rq_EntityID req)). set (y := rq_EntityID req).
  destruct (negb _ || negb _); [done|].
  assert (Hclear : groupOf (set_base w y (ClearGroupTransition b)) x = groupOf w x).
  { rewrite groupOf_set. case_decide as E; [by subst x|done]. }
  destruct (rq_State req); [by rewrite <-Hclear|..];
    (destruct (UpdateEntityGroup _ _ _ _ _) as [[groups b']|] eqn:Hu; [|by rewrite <-Hclear];
     match goal with |- _ -> _ /\ _ = ?d =>
       change (groupOf (set_base (set_groups w groups) y (ClearGroupTransition b')) x <> groupOf w x ->
         y = x /\ groupOf (set_base (set_groups w groups) y (ClearGroupTransition b')) x = d) end;
     rewrite groupOf_set; case_decide as E; [intros _; split; [done|]|done];
     by apply UpdateEntityGroup_target in Hu).
Qed.

(** Only the end of a transition changes a membership. *)
Lemma groupStep_membership w e x :
  groupOf (groupStep w e) x <> groupOf w x ->
  exists i t req, gw_threads w !! i = Some t /\ dt_pc t = TUpdate req /\ rq_EntityID req = x
    /\ groupOf (groupStep w e) x = destination req
    /\ gw_threads (groupStep w e) = <[i := mkThread (Releasing None) (dt_held t)]> (gw_threads w).
Proof.
  destruct e as [y state target|i a]; cbn [groupStep].
  - unfold requestEntityLockGroupTransition, BeginGroupTransition. destruct (_ || _); [done|].
    match goal with |- groupOf (set_messages (set_base w y ?b) _) x <> _ -> _ =>
      change (groupOf (set_base w y b) x <> groupOf w x -> exists i t req, gw_threads w !! i = Some t
        /\ dt_pc t = TUpdate req /\ rq_EntityID req = x /\ groupOf (set_base w y b) x = destination req
        /\ gw_threads w = <[i := mkThread (Releasing None) (dt_held t)]> (gw_threads w)) end.
    rewrite groupOf_set. case_decide as E; [by subst|done].
  - destruct (gw_threads w !! i) as [t|] eqn:Hi; [|done]. unfold threadStep.
    destruct (dt_pc t) as [|lockEs n|snaps g n|snaps g n rest|snaps g n rest|snaps g|req rest|req|req|next] eqn:Hpc;
      destruct a as [snaps'|m| |gone expired]; try done; try (by destruct rest).
    + unfold startDispatch. destruct (resolveDispatchGroupIDFromSnapshots _); [|done]. by destruct (_ =? 0).
    + by destruct (gw_messages w !! m).
    + destruct (_ <? _)%nat; [|done]. destruct (bool_decide _); [|done].
      unfold startDispatch. destruct (resolveDispatchGroupIDFromSnapshots _); [|done]. by destruct (_ =? 0).
    + unfold takeLock. by destruct (TryLock _ _) as [? []].
    + destruct rest; [done|]. destruct (bool_decide _); [done|]. destruct (gone && _); [done|].
      unfold takeLock. by destruct (TryLock _ _) as [? []].
    + destruct rest; [done|]. destruct (validateSnapshot _ _) as [|[]]; done.
    + destruct rest as [|g rest]; [done|]. destruct (TryLock _ _) as [? []]; [done|]. by rewrite retry_membership.
    + destruct (TryLock _ _) as [? []]; [destruct gone; [|done]|]; by rewrite retry_membership.
    + intros Hne. destruct (finish_membership _ _ _ _ _ _ Hne) as [Hx Hd]. exists i, t, req.
      split_and!; [done|done|done|done|]. unfold finishTransition.
      destruct (negb _ || negb _); [done|]. destruct (rq_State req); [done|..];
        by destruct (UpdateEntityGroup _ _ _ _ _) as [[]|].
    + destruct (dt_held t) as [|k held]; [done|]. by destruct (Unlock _ _).
Qed.

Lemma addGroupID_elem (g id : Z) (seen : gset Z) :
  g <> 0 -> g ∈ (if id =? 0 then seen else {[ id ]} ∪ seen) <-> g = id \/ g ∈ seen.
Proof.
  intros Hg. destruct (Z.eqb_spec id 0) as [-> |]; [by split; [right|intros [?|?]]|].
  by rewrite elem_of_union, elem_of_singleton.
Qed.

Lemma lockIDs_elem grp req g :
  g <> 0 -> rq_State req <> EntityGroupTransitionNone ->
  (rq_State req = EntityGroupTransitionJoin -> grp (rq_EntityID req) = 0) ->
  g = grp (rq_EntityID req) \/ g = destination req -> g ∈ lockIDs grp req.
Proof.
  intros Hg Hs Hj Hor. unfold lockIDs, transitionLockGroupIDs, destination in *.
  rewrite sort_slice_perm, elem_of_elements.
  destruct (rq_State req); [done|..]; rewrite ?addGroupID_elem by done.
  - rewrite Hj in Hor by done. tauto.
  - tauto.
  - tauto.
Qed.

(** A handler that can touch an entity excludes the end of its transitions. *)
Lemma membership_stable_spec w e x i :
  world_ok w -> allowed w e -> groupOf (groupStep w e) x <> groupOf w x ->
  ~ accesses w i x /\ ~ accesses (groupStep w e) i x.
Proof.
  intros Hw Ha Hne. pose proof (groupStep_ok w e Hw Ha) as Hw'.
  destruct (groupStep_membership w e x Hne) as (j & t & req & Hj & Hpc & <- & Hd & Hts).
  pose proof (gw_pcs w Hw j t Hj) as Hp. unfold pc_ok in Hp. rewrite Hpc in Hp.
  assert (Hm : matches (baseOf w (rq_EntityID req)) req)
    by (apply (ro_working w (gw_requests w Hw) j t req Hj); by rewrite Hpc).
  destruct Hm as (_ & _ & Hs & Hjoin).
  assert (Hgroup : forall g, g <> 0 -> g = groupOf w (rq_EntityID req) \/ g = destination req -> GroupKey g ∈ dt_held t).
  { intros g Hg Hor. rewrite Hp. right. rewrite elem_of_reverse. apply list_elem_of_fmap_2. by apply lockIDs_elem. }
  assert (Hentity : EntityKey (rq_EntityID req) ∈ dt_held t) by (rewrite Hp; left).
  assert (Hthief : forall ti snaps g, gw_threads w !! i = Some ti -> dt_pc ti = DHandler snaps g ->
            (GroupKey g ∈ dt_held ti /\ GroupKey g ∈ dt_held t) \/ EntityKey (rq_EntityID req) ∈ dt_held ti -> False).
  { intros ti snaps g Hi Hh Hk.
    assert (i = j) as -> by (destruct Hk as [[K1 K2]|K]; eapply (held_once _ _ i j ti t); (apply Hw || done)).
    congruence. }
  split; intros Hacc.
  - apply accesses_spec in Hacc as (ti & snaps & g & Hi & Hh & Hg & Hor); [|done].
    eapply Hthief; [done|done|]. destruct Hor as [[K _]|[Hg0 <-]]; [by right|left]. split; [by apply Hg|].
    by apply Hgroup; [|left].
  - apply accesses_spec in Hacc as (ti & snaps & g & Hi & Hh & Hg & Hor); [|done].
    rewrite Hts in Hi. apply list_lookup_insert_Some in Hi as [(<- & <- & _)|[_ Hi]]; [done|].
    eapply Hthief; [done|done|]. destruct Hor as [[K _]|[Hg0 <-]]; [by right|left]. split; [by apply Hg|].
    apply Hgroup; [done|]. by right.
Qed.

(** ** Properties *)

(** C15. Whatever the schedule of dispatches, transitions and requests in which an
    entity joins a group only when it is in none, at any
    moment at most one goroutine runs a handler that can touch an entity, be it
    as a dispatched entity or through the scope of its group; no mutex is ever
    released by a goroutine that does not own it; and the manager's index lists
    exactly the members of every group.  A direct move from one group to another
    is not covered ([join_leaves_group_unlocked]). *)
Theorem handlers_exclusive (w : groupWorld) (es : list groupEvent) (x : Z) (i j : nat) :
  initialGroups w -> allowed_run w es ->
  (accesses (runGroups w es) i x -> accesses (runGroups w es) j x -> i = j)
  /\ gw_panicked (runGroups w es) = false
  /\ index_ok (gw_groups (runGroups w es)) (groupOf (runGroups w es)).
Proof.
  intros Hi Ha. pose proof (runGroups_ok es w (initialGroups_ok w Hi) Ha) as Hw.
  split; [by apply accesses_exclusive|]. split; apply Hw.
Qed.

(** The group of an entity changes only at moments when no handler can touch
    the entity: neither one of the group it leaves, nor one of the group it
    enters, nor one that was dispatched with it. *)
Theorem membership_stable (w : groupWorld) (es : list groupEvent) (e : groupEvent) (x : Z) (i : nat) :
  initialGroups w -> allowed_run w es -> allowed (runGroups w es) e ->
  groupOf (groupStep (runGroups w es) e) x <> groupOf (runGroups w es) x ->
  ~ accesses (runGroups w es) i x /\ ~ accesses (groupStep (runGroups w es) e) i x.
Proof.
  intros Hi Ha He Hne. apply membership_stable_spec; [|done|done].
  by apply runGroups_ok; [apply initialGroups_ok|].
Qed.

(** ** Witnesses *)

(** Entities 1 and 2 are in group 7, entity 3 is in none; two goroutines. *)
Definition sampleWorld : groupWorld :=
  mkGroupWorld {[ 1 := mkBase 7 1 EntityGroupTransitionNone 0; 2 := mkBase 7 1 EntityGroupTransitionNone 0 ]}
    {[ 7 := {[ 1; 2 ]} ]} ∅ [] [mkThread DIdle []; mkThread DIdle []] false.

Lemma sampleWorld_initial : initialGroups sampleWorld.
Proof.
  split; try done.
  - intros i t. destruct i as [|[|i]]; cbn; by intros [= <-].
  - intros gr x Hgr. unfold groupOf, baseOf. cbn [sampleWorld gw_groups gw_bases].
    destruct (decide (gr = 7)) as [-> |Hg].
    + rewrite lookup_singleton_eq. cbn [from_option id]. rewrite elem_of_union, !elem_of_singleton.
      destruct (decide (x = 1)) as [-> |H1]; [by rewrite lookup_insert_eq; split; [|left]|].
      rewrite lookup_insert_ne by done. destruct (decide (x = 2)) as [-> |H2].
      * rewrite lookup_singleton_eq. by split; [|right].
      * rewrite lookup_singleton_ne by done. cbn. split; [by intros [?|?]|done].
    + rewrite lookup_singleton_ne by done. split; [by intros ?%elem_of_empty|].
      destruct (decide (x = 1)) as [-> |H1]; [rewrite lookup_insert_eq; by intros <-|].
      rewrite lookup_insert_ne by done. destruct (decide (x = 2)) as [-> |H2].
      * rewrite lookup_singleton_eq. by intros <-.
      * rewrite lookup_singleton_ne by done. by intros <-.
Qed.

(** A goroutine dispatches a handler with one entity. *)
Definition runHandler (w : groupWorld) (i : nat) (x : Z) : list groupEvent :=
  EvThread i (ActDispatch (captureDispatchGroupSnapshots (baseOf w) [x]))
  :: replicate 5 (EvThread i (ActStep false false)).

(** A goroutine works on the first request until it is about to move the entity. *)
Definition runTransition (i : nat) : list groupEvent :=
  EvThread i (ActTransition 0) :: replicate 3 (EvThread i (ActStep false false)).

Definition sampleSchedule : list groupEvent :=
  runHandler sampleWorld 0 1 ++ [EvRequest 3 EntityGroupTransitionJoin 7].

Lemma handlers_exclusive_witness :
  accesses (runGroups sampleWorld sampleSchedule) 0 2
  /\ (accesses (runGroups sampleWorld sampleSchedule) 1 2 -> (0 = 1)%nat).
Proof.
  assert (H : accesses (runGroups sampleWorld sampleSchedule) 0 2).
  { eexists _, _, _. split; [vm_compute; reflexivity|right; vm_compute; reflexivity]. }
  split; [exact H|]. intros H1.
  apply (proj1 (handlers_exclusive sampleWorld sampleSchedule 2 0 1 sampleWorld_initial
                  ltac:(vm_compute; repeat split)) H H1).
Defined.

Definition joinSchedule : list groupEvent :=
  EvRequest 3 EntityGroupTransitionJoin 7 :: runTransition 1.

Lemma membership_stable_witness :
  groupOf (runGroups sampleWorld joinSchedule) 3 = 0
  /\ groupOf (groupStep (runGroups sampleWorld joinSchedule) (EvThread 1 (ActStep false false))) 3 = 7
  /\ ~ accesses (runGroups sampleWorld joinSchedule) 0 3.
Proof.
  split; [vm_compute; reflexivity|]. split; [vm_compute; reflexivity|].
  apply (membership_stable sampleWorld joinSchedule (EvThread 1 (ActStep false false)) 3 0 sampleWorld_initial);
    [vm_compute; repeat split|exact I|vm_compute; discriminate].
Defined.

(** [RequestJoinEntityLockGroup] accepts an entity that is already in a group,
    and then takes the lock of the new group only: a handler of the old group
    can touch the entity at the moment it moves. *)
Lemma join_leaves_group_unlocked :
  let w := runGroups sampleWorld
             (runHandler sampleWorld 0 1 ++ EvRequest 2 EntityGroupTransitionJoin 9 :: runTransition 1) in
  accesses w 0 2 /\ groupOf w 2 = 7
  /\ groupOf (groupStep w (EvThread 1 (ActStep false false))) 2 = 9.
Proof.
  split; [|split; vm_compute; reflexivity].
  eexists _, _, _. split; [vm_compute; reflexivity|right; vm_compute; reflexivity].
Qed.
