(* ===== verification/Heap.v ===== *)
(** * Binary heaps

    The heap operations of Go's [container/heap] on anything that can be measured,
    compared and swapped by position, as [src/timer/scheduler.go] uses them.  The
    operations need [HeapInterface]; the theorems need [HeapLaws], which says that
    there is a list of elements behind the positions, that the comparison follows
    a key of the elements, and that a swap exchanges two of them. *)

From stdpp Require Import base list.
From Stdlib Require Import ZArith Lia.
From S2P Require Import Prelude.

Class HeapInterface (H : Type) := {
  hLen : H -> nat;
  hLess : H -> nat -> nat -> bool;
  hSwap : H -> nat -> nat -> H
}.

Section Operations.
Context {H : Type} `{HeapInterface H}.

(** One unit of fuel per level on the way to the root. *)
Fixpoint upLoop (fuel : nat) (h : H) (j : nat) : H :=
  match fuel with
  | O => h
  | S fuel =>
      let i := ((j - 1) / 2)%nat in
      if (i =? j)%nat || negb (hLess h j i) then h else upLoop fuel (hSwap h i j) i
  end.

Definition up (h : H) (j : nat) : H := upLoop (S j) h j.

Fixpoint downLoop (fuel : nat) (h : H) (i n : nat) : H * nat :=
  match fuel with
  | O => (h, i)
  | S fuel =>
      let j1 := (2 * i + 1)%nat in
      if (n <=? j1)%nat then (h, i) else
      let j := if (j1 + 1 <? n)%nat && hLess h (j1 + 1) j1 then (j1 + 1)%nat else j1 in
      if negb (hLess h j i) then (h, i) else downLoop fuel (hSwap h i j) j n
  end.

(** Also whether the element moved. *)
Definition down (h : H) (i0 n : nat) : H * bool :=
  let '(h, i) := downLoop (S n) h i0 n in (h, (i0 <? i)%nat).

Definition heapFix (h : H) (i : nat) : H :=
  let '(h, moved) := down h i (hLen h) in if moved then h else up h i.

(** What [heap.Push] does after the element was appended. *)
Definition heapPush (h : H) : H := up h (hLen h - 1).

(** What [heap.Pop] and [heap.Remove] do before the last element is taken. *)
Definition heapPop (h : H) : H :=
  let n := (hLen h - 1)%nat in (down (hSwap h 0 n) 0 n).1.

Definition heapRemove (h : H) (i : nat) : H :=
  let n := (hLen h - 1)%nat in
  if (n =? i)%nat then h else
  let '(h, moved) := down (hSwap h i n) i n in if moved then h else up h i.

End Operations.

(** ** Laws *)

Class HeapLaws (H A : Type) `{HeapInterface H} := {
  hview : H -> list A;
  hkey : H -> A -> Z;
  hLen_view : forall h, hLen h = length (hview h);
  hLess_key : forall h i j a b, hview h !! i = Some a -> hview h !! j = Some b ->
    hLess h i j = (hkey h a <? hkey h b)%Z;
  hSwap_view : forall h i j a b, hview h !! i = Some a -> hview h !! j = Some b ->
    hview (hSwap h i j) = <[i := b]> (<[j := a]> (hview h));
  hSwap_key : forall h i j a, hkey (hSwap h i j) a = hkey h a
}.

(** Every parent comes before its children. *)
Definition child (p c : nat) : Prop := c = (2 * p + 1)%nat \/ c = (2 * p + 2)%nat.

Definition heap_below (n : nat) (f : nat -> Z) : Prop :=
  forall p c, child p c -> (c < n)%nat -> (f p <= f c)%Z.

(** The element at [j] may come before its parent. *)
Record up_pre (n : nat) (f : nat -> Z) (j : nat) : Prop := {
  up_other : forall p c, child p c -> (c < n)%nat -> c <> j -> (f p <= f c)%Z;
  up_skip : forall p c, child p j -> child j c -> (c < n)%nat -> (f p <= f c)%Z
}.

(** The element at [i] may come after its children, and with [strict] before its
    parent. *)
Record down_pre (strict : bool) (n : nat) (f : nat -> Z) (i : nat) : Prop := {
  dn_other : forall p c, child p c -> (c < n)%nat -> p <> i -> (strict = true -> c <> i) -> (f p <= f c)%Z;
  dn_skip : forall p c, child p i -> child i c -> (c < n)%nat -> (f p <= f c)%Z
}.

Definition swapf (f : nat -> Z) (i j k : nat) : Z :=
  if decide (k = i) then f j else if decide (k = j) then f i else f k.

Lemma up_swap n f i j :
  child i j -> (f j < f i)%Z -> up_pre n f j -> (j < n)%nat -> up_pre n (swapf f i j) i.
Proof.
  intros Hc Hlt [H1 H2] Hj. unfold child in *. split.
  - intros p c Hpc Hn Hci. unfold child, swapf in *. repeat case_decide; try (subst; lia).
    + assert (f i <= f c)%Z by (apply H1; lia). lia.
    + apply H2; [lia|lia|lia].
    + apply H1; [lia|lia|lia].
  - intros p c Hpi Hic Hn. unfold child, swapf in *. repeat case_decide; try (subst; lia).
    + apply H1; [lia|lia|lia].
    + assert (f p <= f i)%Z by (apply H1; lia). assert (f i <= f c)%Z by (apply H1; lia). lia.
Qed.

Lemma up_done n f j : up_pre n f j -> (forall p, child p j -> (f p <= f j)%Z) -> heap_below n f.
Proof.
  intros [H1 _] Hj p c Hpc Hn. destruct (decide (c = j)) as [-> |Hne]; [by apply Hj|by apply H1].
Qed.

Lemma down_swap strict n f i j :
  child i j -> (j < n)%nat -> (f j < f i)%Z -> (forall c, child i c -> (c < n)%nat -> (f j <= f c)%Z) ->
  down_pre strict n f i -> down_pre false n (swapf f i j) j.
Proof.
  intros Hc Hj Hlt Hmin [H1 H2]. unfold child in *. split.
  - intros p c Hpc Hn Hpj _. unfold child, swapf in *. repeat case_decide; try (subst; lia).
    + apply Hmin; lia.
    + apply H2; lia.
    + apply H1; [lia|lia|lia|done].
  - intros p c Hpj Hjc Hn. unfold child, swapf in *. repeat case_decide; try (subst; lia).
    apply H1; [lia|lia|lia|intros _; lia].
Qed.

Lemma down_done n f i :
  down_pre false n f i -> (forall c, child i c -> (c < n)%nat -> (f i <= f c)%Z) -> heap_below n f.
Proof.
  intros [H1 _] Hi p c Hpc Hn. destruct (decide (p = i)) as [-> |Hne]; [by apply Hi|by apply H1].
Qed.

Lemma down_stuck n f i :
  down_pre true n f i -> (forall c, child i c -> (c < n)%nat -> (f i <= f c)%Z) -> up_pre n f i.
Proof.
  intros [H1 H2] Hi. split; [|done]. intros p c Hpc Hn Hne.
  destruct (decide (p = i)) as [-> |Hp]; [by apply Hi|by apply H1].
Qed.

Lemma up_pre_ext n f g j : (forall k, f k = g k) -> up_pre n g j -> up_pre n f j.
Proof. intros E [H1 H2]. split; intros p c; rewrite !E; [apply H1|apply H2]. Qed.

Lemma down_pre_ext strict n f g i : (forall k, f k = g k) -> down_pre strict n g i -> down_pre strict n f i.
Proof. intros E [H1 H2]. split; intros p c; rewrite !E; [apply H1|apply H2]. Qed.

Section Correctness.
Context {H A : Type} `{HeapLaws H A}.
Implicit Types h : H.

Definition keyAt h (i : nat) : Z := match hview h !! i with Some a => hkey h a | None => 0%Z end.

(** Swaps of different positions below [n]. *)
Inductive shuffled (n : nat) : H -> H -> Prop :=
  | shuffled_refl h : shuffled n h h
  | shuffled_step h i j h' : (i < n)%nat -> (j < n)%nat -> i <> j -> (n <= hLen h)%nat ->
      shuffled n (hSwap h i j) h' -> shuffled n h h'.

Lemma hSwap_Len h i j : (i < hLen h)%nat -> (j < hLen h)%nat -> hLen (hSwap h i j) = hLen h.
Proof.
  rewrite !hLen_view. intros Hi Hj.
  destruct (lookup_lt_is_Some_2 _ _ Hi) as [a Ha], (lookup_lt_is_Some_2 _ _ Hj) as [b Hb].
  by rewrite (hSwap_view h i j a b Ha Hb), !length_insert.
Qed.

Lemma keyAt_swap h i j k :
  (i < hLen h)%nat -> (j < hLen h)%nat -> keyAt (hSwap h i j) k = swapf (keyAt h) i j k.
Proof.
  rewrite !hLen_view. intros Hi Hj. unfold keyAt, swapf.
  destruct (lookup_lt_is_Some_2 _ _ Hi) as [a Ha], (lookup_lt_is_Some_2 _ _ Hj) as [b Hb].
  rewrite (hSwap_view h i j a b Ha Hb). case_decide as E1; [|case_decide as E2]; subst.
  - rewrite list_lookup_insert_eq by (by rewrite length_insert). by rewrite hSwap_key, Hb.
  - rewrite list_lookup_insert_ne, list_lookup_insert_eq by done. by rewrite hSwap_key, Ha.
  - rewrite !list_lookup_insert_ne by done. destruct (hview h !! k); [apply hSwap_key|done].
Qed.

Lemma shuffled_trans n h1 h2 h3 : shuffled n h1 h2 -> shuffled n h2 h3 -> shuffled n h1 h3.
Proof. induction 1 as [|h1 i j h2 Hi Hj Hne Hn Hs IH]; [done|]. intros. apply (shuffled_step n h1 i j); auto. Qed.

Lemma shuffled_weaken n m h h' : shuffled n h h' -> (n <= m)%nat -> (m <= hLen h)%nat -> shuffled m h h'.
Proof.
  induction 1 as [|h i j h' Hi Hj Hne Hn Hs IH]; intros Hnm Hm; [constructor|].
  apply (shuffled_step m h i j); [lia|lia|done|done|]. apply IH; [done|]. by rewrite hSwap_Len by lia.
Qed.

(** What holds of a heap whenever it survives swaps holds after the operations. *)
Lemma shuffled_preserves (P : H -> Prop) n h h' :
  (forall h i j, (i < hLen h)%nat -> (j < hLen h)%nat -> i <> j -> P h -> P (hSwap h i j)) ->
  shuffled n h h' -> P h -> P h'.
Proof. intros HP. induction 1 as [|h i j h' Hi Hj Hne Hn Hs IH]; [done|]. intros HPh. apply IH, HP; [lia..|done]. Qed.

Lemma shuffled_Len n h h' : shuffled n h h' -> hLen h' = hLen h.
Proof.
  intros Hs. apply (shuffled_preserves (fun x => hLen x = hLen h) n h h'); [|done|done].
  intros x i j Hi Hj _ E. by rewrite hSwap_Len.
Qed.

Lemma shuffled_perm n h h' : shuffled n h h' -> hview h' ≡ₚ hview h.
Proof.
  intros Hs. apply (shuffled_preserves (fun x => hview x ≡ₚ hview h) n h h'); [|done|done].
  intros x i j. rewrite !hLen_view. intros Hi Hj _ E.
  destruct (lookup_lt_is_Some_2 _ _ Hi) as [a Ha], (lookup_lt_is_Some_2 _ _ Hj) as [b Hb].
  rewrite (hSwap_view x i j a b Ha Hb), <-E. destruct (decide (i = j)) as [-> |Hne].
  - rewrite list_insert_insert_eq. by rewrite list_insert_id by congruence.
  - by apply Permutation_insert_swap.
Qed.

Lemma shuffled_key n h h' a : shuffled n h h' -> hkey h' a = hkey h a.
Proof.
  intros Hs. apply (shuffled_preserves (fun x => hkey x a = hkey h a) n h h'); [|done|done].
  intros x i j _ _ _ E. by rewrite hSwap_key.
Qed.

Lemma shuffled_above n h h' k : shuffled n h h' -> (n <= k)%nat -> hview h' !! k = hview h !! k.
Proof.
  induction 1 as [|h i j h' Hi Hj Hne Hn Hs IH]; intros Hk; [done|]. rewrite IH by done.
  rewrite hLen_view in Hn.
  destruct (lookup_lt_is_Some_2 (hview h) i) as [a Ha]; [lia|].
  destruct (lookup_lt_is_Some_2 (hview h) j) as [b Hb]; [lia|].
  rewrite (hSwap_view h i j a b Ha Hb). by rewrite !list_lookup_insert_ne by lia.
Qed.

Lemma hLess_keyAt h i j :
  (i < hLen h)%nat -> (j < hLen h)%nat -> hLess h i j = (keyAt h i <? keyAt h j)%Z.
Proof.
  rewrite !hLen_view. intros Hi Hj. unfold keyAt.
  destruct (lookup_lt_is_Some_2 _ _ Hi) as [a Ha], (lookup_lt_is_Some_2 _ _ Hj) as [b Hb].
  by rewrite (hLess_key h i j a b Ha Hb), Ha, Hb.
Qed.

Lemma upLoop_ok n fuel : forall h j,
  (j < fuel)%nat -> (j < n)%nat -> (n <= hLen h)%nat -> up_pre n (keyAt h) j ->
  shuffled n h (upLoop fuel h j) /\ heap_below n (keyAt (upLoop fuel h j)).
Proof.
  induction fuel as [|fuel IH]; intros h j Hf Hj Hn Hp; [lia|]. cbn [upLoop].
  set (i := ((j - 1) / 2)%nat). assert (Hi : (i = j /\ j = 0%nat) \/ (i < j)%nat /\ child i j).
  { unfold child. destruct j as [|j]; [by left|right]. subst i.
    pose proof (Nat.div_mod_eq (S j - 1) 2). pose proof (Nat.mod_upper_bound (S j - 1) 2). lia. }
  destruct Hi as [[Hi Hz]|[Hlt Hc]].
  { rewrite (proj2 (Nat.eqb_eq i j)) by done. split; [constructor|]. apply (up_done n _ j Hp).
    intros p Hpj. unfold child in Hpj. lia. }
  rewrite (proj2 (Nat.eqb_neq i j)) by lia. cbn [orb]. rewrite hLess_keyAt by lia.
  destruct (Z.ltb_spec (keyAt h j) (keyAt h i)) as [Hk|Hk]; cbn [negb].
  - destruct (IH (hSwap h i j) i) as [I1 I2]; [lia|lia|by rewrite hSwap_Len by lia| |].
    + apply (up_pre_ext _ _ (swapf (keyAt h) i j)); [intros k; apply keyAt_swap; lia|by apply up_swap].
    + split; [|done]. apply (shuffled_step n h i j); [lia|lia|lia|done|done].
  - split; [constructor|]. apply (up_done n _ j Hp). intros p Hpj. assert (p = i) as -> by (unfold child in *; lia). done.
Qed.

Lemma up_ok n h j :
  (j < n)%nat -> (n <= hLen h)%nat -> up_pre n (keyAt h) j ->
  shuffled n h (up h j) /\ heap_below n (keyAt (up h j)).
Proof. intros. apply upLoop_ok; [lia|done..]. Qed.

Lemma smallest_child h i n :
  (2 * i + 1 < n)%nat -> (n <= hLen h)%nat ->
  let j1 := (2 * i + 1)%nat in
  let j := if (j1 + 1 <? n)%nat && hLess h (j1 + 1) j1 then (j1 + 1)%nat else j1 in
  child i j /\ (j < n)%nat /\ forall c, child i c -> (c < n)%nat -> (keyAt h j <= keyAt h c)%Z.
Proof.
  intros Hi Hn j1 j. unfold child. subst j. destruct (Nat.ltb_spec (j1 + 1) n) as [Hlt|Hlt]; cbn [andb].
  - rewrite hLess_keyAt by lia. destruct (Z.ltb_spec (keyAt h (j1 + 1)) (keyAt h j1)) as [Hk|Hk];
      (split_and!; [subst j1; lia|lia|]);
      (intros c [-> | ->] _; [replace (2 * i + 1)%nat with j1 by lia|replace (2 * i + 2)%nat with (j1 + 1)%nat by lia]; lia).
  - split_and!; [subst j1; lia|lia|]. intros c [-> | ->] Hc; subst j1; lia.
Qed.

(** A turn either ends with the children after the element, or moves it down. *)
Lemma downLoop_turn strict fuel h i n :
  (n <= hLen h)%nat -> (i < n)%nat -> down_pre strict n (keyAt h) i ->
  (downLoop (S fuel) h i n = (h, i) /\ forall c, child i c -> (c < n)%nat -> (keyAt h i <= keyAt h c)%Z)
  \/ exists j, (i < j < n)%nat /\ downLoop (S fuel) h i n = downLoop fuel (hSwap h i j) j n
       /\ down_pre false n (keyAt (hSwap h i j)) j.
Proof.
  intros Hn Hi Hp. cbn [downLoop]. destruct (Nat.leb_spec n (2 * i + 1)) as [Hle|Hlt].
  { left. split; [done|]. intros c Hc. unfold child in Hc. lia. }
  destruct (smallest_child h i n Hlt Hn) as (Hc & Hj & Hmin). revert Hc Hj Hmin.
  generalize (if (2 * i + 1 + 1 <? n)%nat && hLess h (2 * i + 1 + 1) (2 * i + 1) then (2 * i + 1 + 1)%nat
              else (2 * i + 1)%nat). intros j Hc Hj Hmin.
  rewrite hLess_keyAt by lia. destruct (Z.ltb_spec (keyAt h j) (keyAt h i)) as [Hk|Hk]; cbn [negb].
  - right. exists j. split_and!; [unfold child in Hc; lia|done|done|].
    apply (down_pre_ext _ _ _ (swapf (keyAt h) i j)); [intros k; apply keyAt_swap; lia|]. by eapply down_swap.
  - left. split; [done|]. intros c Hcc Hcn. specialize (Hmin c Hcc Hcn). lia.
Qed.

Lemma downLoop_ok n fuel : forall h i,
  (n < fuel + i)%nat -> (n <= hLen h)%nat -> (i < n)%nat -> down_pre false n (keyAt h) i ->
  shuffled n h (downLoop fuel h i n).1 /\ heap_below n (keyAt (downLoop fuel h i n).1)
  /\ (i <= (downLoop fuel h i n).2)%nat.
Proof.
  induction fuel as [|fuel IH]; intros h i Hf Hn Hi Hp; [lia|].
  destruct (downLoop_turn false fuel h i n Hn Hi Hp) as [[-> Hc]|(j & Hj & -> & Hp')].
  - split_and!; [constructor|by eapply down_done|done].
  - destruct (IH (hSwap h i j) j) as (I1 & I2 & I3); [lia|by rewrite hSwap_Len by lia|lia|done|].
    split_and!; [|done|lia]. apply (shuffled_step n h i j); [lia|lia|lia|done|done].
Qed.

Lemma down_ok n h i :
  (n <= hLen h)%nat -> (i < n)%nat -> down_pre true n (keyAt h) i ->
  shuffled n h (down h i n).1
  /\ if (down h i n).2 then heap_below n (keyAt (down h i n).1) else (down h i n).1 = h /\ up_pre n (keyAt h) i.
Proof.
  intros Hn Hi Hp. unfold down.
  destruct (downLoop_turn true n h i n Hn Hi Hp) as [[-> Hc]|(j & Hj & -> & Hp')].
  - rewrite Nat.ltb_irrefl. split; [constructor|]. split; [done|by apply down_stuck].
  - destruct (downLoop_ok n n (hSwap h i j) j) as (I1 & I2 & I3); [lia|by rewrite hSwap_Len by lia|lia|done|].
    destruct (downLoop n (hSwap h i j) j n) as [h' k]. cbn [fst snd] in *.
    rewrite (proj2 (Nat.ltb_lt i k)) by lia. split; [|done].
    apply (shuffled_step n h i j); [lia|lia|lia|done|done].
Qed.

(** The pair of a descent and, where nothing moved, an ascent. *)
Lemma down_up_ok n h i :
  (n <= hLen h)%nat -> (i < n)%nat -> down_pre true n (keyAt h) i ->
  let h' := let '(h, moved) := down h i n in if moved then h else up h i in
  shuffled n h h' /\ heap_below n (keyAt h').
Proof.
  intros Hn Hi Hp. destruct (down_ok n h i Hn Hi Hp) as [Hs Hm]. destruct (down h i n) as [h' [|]]; cbn in *.
  - by split.
  - destruct Hm as [-> Hup]. by apply up_ok.
Qed.

(** A heap whose element at [i] was replaced. *)
Lemma replaced_pre n f g i :
  heap_below n f -> (forall k, (k < n)%nat -> k <> i -> g k = f k) -> down_pre true n g i.
Proof.
  intros Hf Hg. unfold heap_below, child in *. split.
  - intros p c Hpc Hn Hp Hc. unfold child in Hpc. rewrite !Hg by (lia || by apply Hc). by apply Hf.
  - intros p c Hpi Hic Hn. unfold child in *. rewrite !Hg by lia.
    assert (f p <= f i)%Z by (apply Hf; lia). assert (f i <= f c)%Z by (apply Hf; lia). lia.
Qed.

Lemma heapFix_ok h i f :
  (i < hLen h)%nat -> heap_below (hLen h) f -> (forall k, (k < hLen h)%nat -> k <> i -> keyAt h k = f k) ->
  shuffled (hLen h) h (heapFix h i) /\ heap_below (hLen h) (keyAt (heapFix h i)).
Proof. intros Hi Hf Hk. apply (down_up_ok (hLen h) h i); [done|done|by eapply replaced_pre]. Qed.

Lemma heapPush_ok h :
  (0 < hLen h)%nat -> heap_below (hLen h - 1) (keyAt h) ->
  shuffled (hLen h) h (heapPush h) /\ heap_below (hLen h) (keyAt (heapPush h)).
Proof.
  intros Hn Hb. apply up_ok; [lia|done|]. split.
  - intros p c Hpc Hc Hne. apply Hb; [done|lia].
  - intros p c _ Hc Hlt. unfold child in Hc. lia.
Qed.

(** The elements that stay are a heap again, and the removed one is the last. *)
Lemma heapRemove_ok h i :
  (i < hLen h)%nat -> heap_below (hLen h) (keyAt h) ->
  shuffled (hLen h) h (heapRemove h i) /\ heap_below (hLen h - 1) (keyAt (heapRemove h i))
  /\ hview (heapRemove h i) !! (hLen h - 1)%nat = hview h !! i.
Proof.
  intros Hi Hb. unfold heapRemove. set (n := (hLen h - 1)%nat). destruct (Nat.eqb_spec n i) as [<-|Hne].
  { split_and!; [constructor| |done]. intros p c Hpc Hc. apply Hb; [done|lia]. }
  assert (Hlen : hLen (hSwap h i n) = hLen h) by (apply hSwap_Len; lia).
  destruct (down_up_ok n (hSwap h i n) i) as [Hs Hh]; [lia|lia| |].
  { apply (replaced_pre n (keyAt h)); [intros p c Hpc Hc; apply Hb; [done|lia]|].
    intros k Hk Hki. rewrite keyAt_swap by lia. unfold swapf. repeat case_decide; try done; lia. }
  cbv zeta in Hs, Hh. split_and!; [|exact Hh|].
  - apply (shuffled_step _ h i n); [lia|lia|lia|lia|]. eapply shuffled_weaken; [exact Hs|lia|lia].
  - rewrite (shuffled_above n _ _ n Hs) by lia.
    destruct (lookup_lt_is_Some_2 (hview h) i) as [a Ha]; [rewrite <-hLen_view; lia|].
    destruct (lookup_lt_is_Some_2 (hview h) n) as [b Hb']; [rewrite <-hLen_view; lia|].
    rewrite (hSwap_view h i n a b Ha Hb'), list_lookup_insert_ne, list_lookup_insert_eq by (lia || done || by eapply lookup_lt_Some).
    done.
Qed.

Lemma heapPop_Remove h : (1 < hLen h)%nat -> heap_below (hLen h) (keyAt h) -> heapPop h = heapRemove h 0.
Proof.
  intros Hn Hb. unfold heapPop, heapRemove. rewrite (proj2 (Nat.eqb_neq (hLen h - 1) 0)) by lia.
  set (h1 := hSwap h 0 (hLen h - 1)). destruct (down_ok (hLen h - 1) h1 0) as [_ Hm]; [..|].
  - unfold h1. rewrite hSwap_Len by lia. lia.
  - lia.
  - apply (replaced_pre _ (keyAt h)); [intros p c Hpc Hc; apply Hb; [done|lia]|].
    intros k Hk Hki. unfold h1. rewrite keyAt_swap by lia. unfold swapf. repeat case_decide; try done; lia.
  - destruct (down h1 0 (hLen h - 1)) as [h' [|]]; [done|]. cbn in *. destruct Hm as [-> _].
    unfold up. cbn [upLoop]. reflexivity.
Qed.

(** The first element has the least key. *)
Lemma heap_min n f k : heap_below n f -> (k < n)%nat -> (f 0%nat <= f k)%Z.
Proof.
  intros Hb. induction (lt_wf k) as [k _ IH]. intros Hk. destruct k as [|k]; [lia|].
  pose proof (Nat.div_mod_eq k 2). pose proof (Nat.mod_upper_bound k 2).
  assert (f 0%nat <= f (k / 2)%nat)%Z by (apply IH; lia).
  assert (f (k / 2)%nat <= f (S k))%Z by (apply Hb; [unfold child; lia|done]). lia.
Qed.

End Correctness.
