(* ===== verification/Timer.v ===== *)
(** * Timers of an entity

    [src/timer/scheduler.go]: a scheduler keeps timers in a heap ordered by their
    ends ([Heap]) and in a map by identifier, calls handlers for the timers that
    are due and reports every change of a persistent timer to its owner.  Nodes
    are shared by the heap and the map, so they live in a store and both hold
    pointers.  Handlers are application code: what the handlers of a tick do is a
    script of calls and returned delays.  Times are nanoseconds, 0 is the zero
    time; a call that reads the clock carries the reading. *)

From stdpp Require Import base list gmap.
From Stdlib Require Import ZArith Lia Sorting.Sorted.
From Stdlib Require Strings.Byte.
From S2P Require Import Prelude Heap.

Local Open Scope Z_scope.

Definition TypeClosure : Z := 0.

Inductive ChangeType := ChangeUpsert | ChangeDelete.

(** A handler is named by a number. *)
Record Node := mkNode {
  nd_ID : Z;
  nd_Type : Z;
  nd_Param1 : Z;
  nd_Param2 : Z;
  nd_Payload : list Byte.byte;
  nd_End : Z;
  nd_Delay : Z;
  nd_index : Z;
  nd_handler : option Z
}.

Definition nilNode : Node := mkNode 0 0 0 0 [] 0 0 0 None.

Definition set_index (n : Node) (index : Z) : Node :=
  mkNode (nd_ID n) (nd_Type n) (nd_Param1 n) (nd_Param2 n) (nd_Payload n) (nd_End n) (nd_Delay n) index
    (nd_handler n).

Definition set_end (n : Node) (End delay : Z) : Node :=
  mkNode (nd_ID n) (nd_Type n) (nd_Param1 n) (nd_Param2 n) (nd_Payload n) End delay (nd_index n)
    (nd_handler n).

Definition clone (n : Node) : Node := set_index n (-1).

Record Context := mkContext { cx_OwnerID : Z; cx_Node : Node; cx_Now : Z }.

(** ** The heap of nodes *)

Record timerHeap := mkHeap { th_store : list Node; th_nodes : list nat }.

Definition deref (store : list Node) (p : nat) : Node := default nilNode (store !! p).

Definition timerHeap_Less (h : timerHeap) (i j : nat) : bool :=
  match th_nodes h !! i, th_nodes h !! j with
  | Some a, Some b => nd_End (deref (th_store h) a) <? nd_End (deref (th_store h) b)
  | _, _ => false
  end.

Definition setIndexAt (store : list Node) (p : nat) (index : Z) : list Node :=
  alter (fun n => set_index n index) p store.

Definition timerHeap_Swap (h : timerHeap) (i j : nat) : timerHeap :=
  match th_nodes h !! i, th_nodes h !! j with
  | Some a, Some b =>
      mkHeap (setIndexAt (setIndexAt (th_store h) b (Z.of_nat i)) a (Z.of_nat j))
        (<[i := b]> (<[j := a]> (th_nodes h)))
  | _, _ => h
  end.

#[export] Instance timerHeap_interface : HeapInterface timerHeap := {
  hLen h := length (th_nodes h);
  hLess := timerHeap_Less;
  hSwap := timerHeap_Swap
}.

Definition timerHeap_Push (h : timerHeap) (p : nat) : timerHeap :=
  mkHeap (setIndexAt (th_store h) p (Z.of_nat (length (th_nodes h)))) (th_nodes h ++ [p]).

Definition timerHeap_Pop (h : timerHeap) : timerHeap :=
  match last (th_nodes h) with
  | None => h
  | Some p => mkHeap (setIndexAt (th_store h) p (-1)) (take (length (th_nodes h) - 1) (th_nodes h))
  end.

(** ** The scheduler *)

(** The operations that a running scheduler puts off; [at] is the clock reading
    of the node that is added. *)
Inductive deferredOp :=
  | DeferRemove (id : Z)
  | DeferChange (id now delay : Z)
  | DeferAdd (id delay timerType param1 param2 : Z) (payload : list Byte.byte) (h : option Z) (at_ : Z).

Record Scheduler := mkScheduler {
  sc_ownerID : Z;
  sc_seed : Z;
  sc_heap : timerHeap;
  sc_byID : gmap Z nat;
  sc_handlers : gmap Z Z;
  sc_onChange : bool;
  sc_changes : list (ChangeType * Node);
  sc_running : bool;
  sc_deferred : list deferredOp
}.

Definition set_heap (s : Scheduler) (h : timerHeap) (byID : gmap Z nat) : Scheduler :=
  mkScheduler (sc_ownerID s) (sc_seed s) h byID (sc_handlers s) (sc_onChange s) (sc_changes s) (sc_running s)
    (sc_deferred s).

Definition set_running (s : Scheduler) (running : bool) (deferred : list deferredOp) : Scheduler :=
  mkScheduler (sc_ownerID s) (sc_seed s) (sc_heap s) (sc_byID s) (sc_handlers s) (sc_onChange s) (sc_changes s)
    running deferred.

Definition set_seed (s : Scheduler) (seed : Z) : Scheduler :=
  mkScheduler (sc_ownerID s) seed (sc_heap s) (sc_byID s) (sc_handlers s) (sc_onChange s) (sc_changes s)
    (sc_running s) (sc_deferred s).

Definition node (s : Scheduler) (p : nat) : Node := deref (th_store (sc_heap s)) p.

(** [emit], for a node that is not a closure timer. *)
Definition emit (s : Scheduler) (change : ChangeType) (n : Node) : Scheduler :=
  if negb (nd_Type n =? TypeClosure) && sc_onChange s then
    mkScheduler (sc_ownerID s) (sc_seed s) (sc_heap s) (sc_byID s) (sc_handlers s) (sc_onChange s)
      (sc_changes s ++ [(change, clone n)]) (sc_running s) (sc_deferred s)
  else s.

Definition push (s : Scheduler) (p : nat) : Scheduler :=
  set_heap s (heapPush (timerHeap_Push (sc_heap s) p)) (<[nd_ID (node s p) := p]> (sc_byID s)).

(** A new cell of the store. *)
Definition alloc (s : Scheduler) (n : Node) : Scheduler * nat :=
  let h := sc_heap s in
  (set_heap s (mkHeap (th_store h ++ [n]) (th_nodes h)) (sc_byID s), length (th_store h)).

Definition min (s : Scheduler) : option nat := th_nodes (sc_heap s) !! 0%nat.

(** The body of the loop of [NewScheduler]. *)
Definition restoreNode (s : Scheduler) (n : Node) : Scheduler :=
  let n := clone n in
  if (nd_ID n <=? 0) || (nd_Type n =? TypeClosure) || (nd_End n =? 0) then s else
  let s := if sc_seed s <? nd_ID n then set_seed s (nd_ID n) else s in
  let '(s, p) := alloc s n in push s p.

Definition NewScheduler (ownerID seed : Z) (saved : list Node) (onChange : bool) : Scheduler :=
  foldl restoreNode (mkScheduler ownerID seed (mkHeap [] []) ∅ ∅ onChange [] false [])
    saved.

Definition RegisterHandler (s : Scheduler) (timerType h : Z) : Scheduler :=
  if timerType =? TypeClosure then s else
  mkScheduler (sc_ownerID s) (sc_seed s) (sc_heap s) (sc_byID s) (<[timerType := h]> (sc_handlers s))
    (sc_onChange s) (sc_changes s) (sc_running s) (sc_deferred s).

Definition addNode (s : Scheduler) (id delay timerType param1 param2 : Z) (payload : list Byte.byte)
    (h : option Z) (at_ : Z) : Scheduler :=
  let n := mkNode id timerType param1 param2 payload (at_ + delay) delay 0 h in
  let '(s, p) := alloc s n in
  let s := push s p in
  emit s ChangeUpsert (node s p).

Definition add (s : Scheduler) (delay timerType param1 param2 : Z) (payload : list Byte.byte)
    (h : option Z) (at_ : Z) : Scheduler * Z :=
  let s := set_seed s (wrapi64 (sc_seed s + 1)) in
  let id := sc_seed s in
  if sc_running s
  then (set_running s true (sc_deferred s ++ [DeferAdd id delay timerType param1 param2 payload h at_]), id)
  else (addNode s id delay timerType param1 param2 payload h at_, id).

Definition NewTimer (s : Scheduler) (delay timerType param1 param2 : Z) (payload : list Byte.byte) (at_ : Z)
    : Scheduler * Z :=
  if (delay <=? 0) || (timerType =? TypeClosure) then (s, 0)
  else add s delay timerType param1 param2 payload None at_.

Definition NewClosureTimer (s : Scheduler) (delay h at_ : Z) : Scheduler * Z :=
  if delay <=? 0 then (s, 0) else add s delay TypeClosure 0 0 [] (Some h) at_.

Definition RemoveTimer (s : Scheduler) (id : Z) : Scheduler * bool :=
  if id <=? 0 then (s, false) else
  if sc_running s then (set_running s true (sc_deferred s ++ [DeferRemove id]), true) else
  match sc_byID s !! id with
  | None => (s, false)
  | Some p =>
      let n := node s p in
      let h := timerHeap_Pop (heapRemove (sc_heap s) (Z.to_nat (nd_index n))) in
      (emit (set_heap s h (delete id (sc_byID s))) ChangeDelete n, true)
  end.

Definition ChangeTimer (s : Scheduler) (id now delay clock : Z) : Scheduler * bool :=
  if (id <=? 0) || (delay <=? 0) then (s, false) else
  let now := if now =? 0 then clock else now in
  if sc_running s then (set_running s true (sc_deferred s ++ [DeferChange id now delay]), true) else
  match sc_byID s !! id with
  | None => (s, false)
  | Some p =>
      let h := sc_heap s in
      let h := mkHeap (alter (fun n => set_end n (now + delay) delay) p (th_store h)) (th_nodes h) in
      let s := set_heap s (heapFix h (Z.to_nat (nd_index (deref (th_store h) p)))) (sc_byID s) in
      (emit s ChangeUpsert (node s p), true)
  end.

(** ** Ticks *)

(** What a handler calls. *)
Inductive schedCall :=
  | CallNew (delay timerType param1 param2 : Z) (payload : list Byte.byte) (at_ : Z)
  | CallClosure (delay h at_ : Z)
  | CallRemove (id : Z)
  | CallChange (id now delay clock : Z)
  | CallRegister (timerType h : Z).

Definition perform (s : Scheduler) (c : schedCall) : Scheduler :=
  match c with
  | CallNew delay timerType param1 param2 payload at_ => (NewTimer s delay timerType param1 param2 payload at_).1
  | CallClosure delay h at_ => (NewClosureTimer s delay h at_).1
  | CallRemove id => (RemoveTimer s id).1
  | CallChange id now delay clock => (ChangeTimer s id now delay clock).1
  | CallRegister timerType h => RegisterHandler s timerType h
  end.

(** The handler of a node, if it has one. *)
Definition handlerOf (s : Scheduler) (n : Node) : option Z :=
  if nd_Type n =? TypeClosure then nd_handler n else sc_handlers s !! nd_Type n.

(** The handlers called in a tick: the calls of each and the delay it returns;
    [None] is a handler that panics after its calls. *)
Definition script := list (list schedCall * option Z).

(** What the handler does, if there is one. *)
Definition answerOf (h : option Z) (answers : script) : list schedCall * option Z * script :=
  match h, answers with
  | Some _, (calls, next) :: answers => (calls, next, answers)
  | _, _ => ([], Some 0, answers)
  end.

(** The body of the loop of [Tick] for the first node of the heap; the last results
    are the handler that was called with what it was given, and whether it
    panicked. *)
Definition fire (now : Z) (s : Scheduler) (p : nat) (answers : script)
    : Scheduler * script * (option Z * Context) * bool :=
  let n := node s p in
  let s := set_heap s (timerHeap_Pop (heapPop (sc_heap s))) (delete (nd_ID n) (sc_byID s)) in
  let s := emit s ChangeDelete n in
  let fired := (handlerOf s n, mkContext (sc_ownerID s) (clone n) now) in
  let '(calls, next, answers) := answerOf (handlerOf s n) answers in
  let s := foldl perform s calls in
  match next with
  | None => (s, answers, fired, true)
  | Some next =>
      if next <=? 0 then (s, answers, fired, false) else
      let h := sc_heap s in
      let s := set_heap s (mkHeap (alter (fun n => set_end n (now + next) next) p (th_store h)) (th_nodes h))
                 (sc_byID s) in
      let s := push s p in
      (emit s ChangeUpsert (node s p), answers, fired, false)
  end.

Fixpoint tickLoop (fuel : nat) (now : Z) (s : Scheduler) (answers : script)
    : Scheduler * script * list (option Z * Context) * bool :=
  match fuel with
  | O => (s, answers, [], false)
  | S fuel =>
      match min s with
      | None => (s, answers, [], false)
      | Some p =>
          if now <? nd_End (node s p) then (s, answers, [], false) else
          match fire now s p answers with
          | (s, answers, fired, true) => (s, answers, [fired], true)
          | (s, answers, fired, false) =>
              let '(s, answers, rest, panicked) := tickLoop fuel now s answers in
              (s, answers, fired :: rest, panicked)
          end
      end
  end.

Definition runDeferred (s : Scheduler) (op : deferredOp) : Scheduler :=
  match op with
  | DeferRemove id => (RemoveTimer s id).1
  | DeferChange id now delay => (ChangeTimer s id now delay now).1
  | DeferAdd id delay timerType param1 param2 payload h at_ =>
      addNode s id delay timerType param1 param2 payload h at_
  end.

(** A tick takes a timer at most once, so the loop needs one unit of fuel per
    timer.  The deferred function runs also when a handler panicked; the panic,
    the last result, then goes on to the caller. *)
Definition Tick (s : Scheduler) (now clock : Z) (answers : script)
    : Scheduler * list (option Z * Context) * bool :=
  let now := if now =? 0 then clock else now in
  let s := set_running s true (sc_deferred s) in
  let '(s, _, fired, panicked) := tickLoop (length (th_nodes (sc_heap s))) now s answers in
  let s := foldl runDeferred (set_running s false (sc_deferred s)) (sc_deferred s) in
  (set_running s (sc_running s) [], fired, panicked).

Definition NextTime (s : Scheduler) : Z := match min s with Some p => nd_End (node s p) | None => 0 end.

Definition Nodes (s : Scheduler) : list Node :=
  filter (fun n => nd_Type n <> TypeClosure) ((fun p => clone (node s p)) <$> th_nodes (sc_heap s)).

(** ** The heap of nodes is a heap *)

Lemma deref_setIndex store p q index :
  deref (setIndexAt store p index) q
  = if decide (q = p /\ (p < length store)%nat) then set_index (deref store q) index else deref store q.
Proof.
  unfold deref, setIndexAt. destruct (decide (q = p)) as [-> |Hne].
  - rewrite list_lookup_alter_eq. destruct (store !! p) as [n|] eqn:Hp.
    + rewrite decide_True; [done|]. split; [done|by eapply lookup_lt_Some].
    + rewrite decide_False; [done|]. intros [_ Hlt]. apply lookup_ge_None in Hp. lia.
  - rewrite list_lookup_alter_ne by done. rewrite decide_False by tauto. done.
Qed.

Lemma length_setIndex store p index : length (setIndexAt store p index) = length store.
Proof. apply length_alter. Qed.

(** A node without its position. *)
Definition content (h : timerHeap) (p : nat) : Node := clone (deref (th_store h) p).

Lemma content_setIndex store p q index nodes nodes' :
  content (mkHeap (setIndexAt store p index) nodes) q = content (mkHeap store nodes') q.
Proof. unfold content. cbn. rewrite deref_setIndex. by case_decide. Qed.

Lemma content_End h p : nd_End (deref (th_store h) p) = nd_End (content h p).
Proof. done. Qed.

Lemma content_swap h i j p : content (timerHeap_Swap h i j) p = content h p.
Proof.
  unfold timerHeap_Swap. destruct (th_nodes h !! i) as [a|], (th_nodes h !! j) as [b|]; try done.
  destruct h as [store nodes]. by rewrite (content_setIndex _ _ _ _ _ nodes), (content_setIndex _ _ _ _ _ nodes).
Qed.

#[export] Instance timerHeap_laws : HeapLaws timerHeap nat.
Proof.
  refine {| hview := th_nodes; hkey h p := nd_End (deref (th_store h) p) |}.
  - done.
  - intros h i j a b Ha Hb. cbn. unfold timerHeap_Less. by rewrite Ha, Hb.
  - intros h i j a b Ha Hb. cbn. unfold timerHeap_Swap. by rewrite Ha, Hb.
  - intros h i j p. cbn. by rewrite !content_End, content_swap.
Defined.

(** Pointers are valid, different, and know their position. *)
Record linked (h : timerHeap) : Prop := {
  lk_valid : forall p, p ∈ th_nodes h -> (p < length (th_store h))%nat;
  lk_distinct : NoDup (th_nodes h);
  lk_index : forall i p, th_nodes h !! i = Some p -> nd_index (deref (th_store h) p) = Z.of_nat i
}.

Record heap_ok (h : timerHeap) : Prop := {
  ho_linked : linked h;
  ho_order : heap_below (length (th_nodes h)) (keyAt h)
}.

(** Same nodes, at other positions. *)
Record rearranged (h h' : timerHeap) : Prop := {
  re_nodes : th_nodes h' ≡ₚ th_nodes h;
  re_length : length (th_store h') = length (th_store h);
  re_content : forall p, content h' p = content h p
}.

Lemma swap_linked h i j :
  linked h -> linked (timerHeap_Swap h i j) /\ length (th_store (timerHeap_Swap h i j)) = length (th_store h).
Proof.
  intros [H1 H2 H3]. unfold timerHeap_Swap.
  destruct (th_nodes h !! i) as [a|] eqn:Ha; [|done]. destruct (th_nodes h !! j) as [b|] eqn:Hb; [|done].
  assert (Hperm : <[i := b]> (<[j := a]> (th_nodes h)) ≡ₚ th_nodes h) by (by apply Permutation_insert_swap).
  cbn. rewrite !length_setIndex. split; [|done]. split; cbn.
  - intros p. rewrite Hperm, !length_setIndex. apply H1.
  - by rewrite Hperm.
  - intros k p Hk. rewrite !deref_setIndex, length_setIndex.
    assert (Hpv : (p < length (th_store h))%nat) by (apply H1; rewrite <-Hperm; by eapply list_elem_of_lookup_2).
    assert (Hother : forall q, th_nodes h !! k = Some q -> nd_index (deref (th_store h) q) = Z.of_nat k) by eauto.
    apply list_lookup_insert_Some in Hk as [(-> & -> & _)|[Hki Hk]].
    { rewrite (decide_True (P := p = p /\ _)) by done. case_decide as E; [|done]. destruct E as [-> _].
      cbn. f_equal. by apply (NoDup_lookup _ _ _ _ H2 Hb Ha). }
    apply list_lookup_insert_Some in Hk as [(-> & -> & _)|[Hkj Hk]]; [by rewrite decide_True|].
    rewrite !decide_False; [by apply Hother| |].
    + intros [-> _]. apply Hkj. by apply (NoDup_lookup _ _ _ _ H2 Hb Hk).
    + intros [-> _]. apply Hki. by apply (NoDup_lookup _ _ _ _ H2 Ha Hk).
Qed.

Lemma shuffled_rearranged n (h h' : timerHeap) :
  linked h -> shuffled n h h' -> linked h' /\ rearranged h h'.
Proof.
  intros Hl Hs.
  assert (H : linked h' /\ length (th_store h') = length (th_store h) /\ forall p, content h' p = content h p).
  { apply (shuffled_preserves (fun x => linked x /\ length (th_store x) = length (th_store h)
             /\ forall p, content x p = content h p) n h h'); [|done|done].
    intros x i j _ _ _ (Q1 & Q2 & Q3). destruct (swap_linked x i j Q1) as [R1 R2].
    split_and!; [done|cbn; by rewrite R2|]. intros p. cbn. by rewrite content_swap. }
  destruct H as (Q1 & Q2 & Q3). split; [done|]. split; [|done|done]. exact (shuffled_perm n h h' Hs).
Qed.

Lemma keyAt_content (h h' : timerHeap) k :
  (forall p, content h' p = content h p) -> th_nodes h' !! k = th_nodes h !! k -> keyAt h' k = keyAt h k.
Proof.
  intros Hc Hk. unfold keyAt. cbn. rewrite Hk. destruct (th_nodes h !! k); [|done].
  by rewrite !content_End, Hc.
Qed.

Lemma heap_below_ext n f g : (forall k, (k < n)%nat -> f k = g k) -> heap_below n g -> heap_below n f.
Proof. intros E Hb p c Hpc Hc. rewrite !E by (unfold child in Hpc; lia). by apply Hb. Qed.

Lemma push_ok h p :
  heap_ok h -> p ∉ th_nodes h -> (p < length (th_store h))%nat ->
  heap_ok (heapPush (timerHeap_Push h p)) /\ th_nodes (heapPush (timerHeap_Push h p)) ≡ₚ p :: th_nodes h
  /\ length (th_store (heapPush (timerHeap_Push h p))) = length (th_store h)
  /\ forall q, content (heapPush (timerHeap_Push h p)) q = content h q.
Proof.
  intros [[H1 H2 H3] Ho] Hp Hv. set (h1 := timerHeap_Push h p).
  assert (Hc : forall q, content h1 q = content h q) by (intros q; destruct h; apply content_setIndex).
  assert (Hl : linked h1).
  { split; cbn.
    - intros q [Hq| ->%list_elem_of_singleton]%elem_of_app; rewrite length_setIndex; [by apply H1|done].
    - apply NoDup_app. split_and!; [done| |by apply NoDup_singleton]. by intros q Hq ->%list_elem_of_singleton.
    - intros i q Hi. rewrite deref_setIndex. apply lookup_app_Some in Hi as [Hi|[Hge Hi]].
      + rewrite decide_False; [by apply H3|]. intros [-> _]. by apply Hp, (list_elem_of_lookup_2 _ i).
      + apply list_lookup_singleton_Some in Hi as [E <-]. rewrite decide_True by done. cbn. f_equal. lia. }
  destruct (heapPush_ok h1) as [Hs Hb].
  - cbn. rewrite length_app. cbn. lia.
  - cbn. rewrite length_app. cbn. rewrite Nat.add_sub. eapply heap_below_ext; [|exact Ho].
    intros k Hk. apply keyAt_content; [done|]. cbn. by apply lookup_app_l.
  - destruct (shuffled_rearranged _ _ _ Hl Hs) as [Hl' [R1 R2 R3]]. split_and!.
    + split; [done|]. by rewrite R1.
    + rewrite R1. cbn. by rewrite Permutation_app_comm.
    + rewrite R2. apply length_setIndex.
    + intros q. by rewrite R3.
Qed.

(** Taking the last node. *)
Lemma Pop_ok h p :
  linked h -> last (th_nodes h) = Some p -> heap_below (length (th_nodes h) - 1) (keyAt h) ->
  heap_ok (timerHeap_Pop h) /\ p :: th_nodes (timerHeap_Pop h) ≡ₚ th_nodes h
  /\ length (th_store (timerHeap_Pop h)) = length (th_store h)
  /\ forall q, content (timerHeap_Pop h) q = content h q.
Proof.
  intros [H1 H2 H3] Hp Hb. unfold timerHeap_Pop. rewrite Hp. destruct h as [store nodes]. cbn in *.
  apply last_Some in Hp as [rest ->]. rewrite length_app in *. cbn [length] in *. rewrite Nat.add_sub in *.
  rewrite take_app_length. set (h' := mkHeap _ rest).
  assert (Hc : forall q, content h' q = content (mkHeap store (rest ++ [p])) q) by (intros q; apply content_setIndex).
  apply NoDup_app in H2 as (N1 & N2 & _).
  split_and!; [|by rewrite Permutation_app_comm|apply length_setIndex|done].
  split; [split; cbn|].
  - intros q Hq. rewrite length_setIndex. apply H1, elem_of_app. by left.
  - done.
  - intros i q Hi. rewrite deref_setIndex, decide_False; [by apply H3, lookup_app_l_Some|].
    intros [-> _]. apply (N2 p); [by eapply list_elem_of_lookup_2|by apply list_elem_of_singleton].
  - cbn. eapply heap_below_ext; [|exact Hb]. intros k Hk. apply keyAt_content; [done|]. cbn.
    by rewrite lookup_app_l.
Qed.

Lemma remove_ok h i p :
  heap_ok h -> th_nodes h !! i = Some p ->
  let h' := timerHeap_Pop (heapRemove h i) in
  heap_ok h' /\ p :: th_nodes h' ≡ₚ th_nodes h /\ length (th_store h') = length (th_store h)
  /\ forall q, content h' q = content h q.
Proof.
  intros [Hl Ho] Hi h'. pose proof (lookup_lt_Some _ _ _ Hi) as Hlt.
  destruct (heapRemove_ok h i) as (Hs & Hb & Hlast); [exact Hlt|exact Ho|].
  destruct (shuffled_rearranged _ _ _ Hl Hs) as [Hl' [R1 R2 R3]].
  destruct (Pop_ok (heapRemove h i) p) as (P1 & P2 & P3 & P4); [done| |by rewrite R1|].
  - rewrite last_lookup, (Permutation_length R1), <-Hi, <-Nat.sub_1_r. exact Hlast.
  - subst h'. split_and!; [done|by rewrite P2|by rewrite P3|intros q; by rewrite P4].
Qed.

Lemma pop_ok h p :
  heap_ok h -> th_nodes h !! 0%nat = Some p ->
  let h' := timerHeap_Pop (heapPop h) in
  heap_ok h' /\ p :: th_nodes h' ≡ₚ th_nodes h /\ length (th_store h') = length (th_store h)
  /\ forall q, content h' q = content h q.
Proof.
  intros Hh Hp h'. destruct (decide (length (th_nodes h) = 1)%nat) as [E|E].
  - assert (Hpop : heapPop h = timerHeap_Swap h 0 0).
    { unfold heapPop. cbn [hLen timerHeap_interface hSwap]. by rewrite E. }
    destruct (swap_linked h 0 0) as [Hl Hlen]; [apply Hh|]. subst h'. rewrite Hpop.
    assert (Hn : th_nodes (timerHeap_Swap h 0 0) = th_nodes h).
    { unfold timerHeap_Swap. rewrite Hp. cbn. rewrite list_insert_insert_eq. by apply list_insert_id. }
    destruct (Pop_ok (timerHeap_Swap h 0 0) p) as (P1 & P2 & P3 & P4); [done|by rewrite last_lookup, Hn, E| |].
    { rewrite Hn, E. intros q c _ Hc. lia. }
    split_and!; [done|by rewrite P2, Hn|by rewrite P3|]. intros q. by rewrite P4, content_swap.
  - assert (Hpop : heapPop h = heapRemove h 0).
    { apply heapPop_Remove; [cbn|apply Hh]. apply lookup_lt_Some in Hp. lia. }
    subst h'. rewrite Hpop. by apply remove_ok.
Qed.

(** Changing the end of a node. *)
Lemma fix_ok h i p End delay :
  heap_ok h -> th_nodes h !! i = Some p ->
  let h1 := mkHeap (alter (fun n => set_end n End delay) p (th_store h)) (th_nodes h) in
  let h' := heapFix h1 i in
  heap_ok h' /\ rearranged h1 h'.
Proof.
  intros [Hl Ho] Hi h1 h'. pose proof (lookup_lt_Some _ _ _ Hi) as Hlt. destruct Hl as [H1 H2 H3].
  assert (Hd : forall q, deref (th_store h1) q = if decide (q = p) then set_end (deref (th_store h) p) End delay else deref (th_store h) q).
  { intros q. unfold deref. cbn. destruct (decide (q = p)) as [-> |Hne]; [|by rewrite list_lookup_alter_ne].
    rewrite list_lookup_alter_eq. destruct (lookup_lt_is_Some_2 (th_store h) p) as [n Hn]; [|by rewrite Hn].
    by apply H1, (list_elem_of_lookup_2 _ i). }
  assert (Hl1 : linked h1).
  { split; cbn; [intros q Hq; rewrite length_alter; by apply H1|done|].
    intros k q Hk. change (nd_index (deref (th_store h1) q) = Z.of_nat k). rewrite Hd.
    case_decide as E; [subst q; cbn|]; by apply H3. }
  destruct (heapFix_ok h1 i (keyAt h)) as [Hs Hb]; [done|done| |].
  { intros k Hk Hki. unfold keyAt. cbn [hview timerHeap_laws th_nodes h1 hkey]. destruct (th_nodes h !! k) as [q|] eqn:Hq; [|done].
    change (nd_End (deref (th_store h1) q) = nd_End (deref (th_store h) q)).
    rewrite Hd, decide_False; [done|]. intros ->. apply Hki. by apply (NoDup_lookup _ _ _ _ H2 Hq Hi). }
  destruct (shuffled_rearranged _ _ _ Hl1 Hs) as [Hl' Hr]. split; [|done]. split; [done|].
  unfold h'. rewrite (Permutation_length (re_nodes _ _ Hr)). exact Hb.
Qed.

(** ** The state of a scheduler *)

(** The map has exactly the timers of the heap; identifiers come from the seed. *)
Record sched_ok (s : Scheduler) : Prop := {
  so_heap : heap_ok (sc_heap s);
  so_byID : forall id p, sc_byID s !! id = Some p <-> p ∈ th_nodes (sc_heap s) /\ nd_ID (node s p) = id;
  so_ids : forall p, p ∈ th_nodes (sc_heap s) -> 0 < nd_ID (node s p) <= sc_seed s;
  so_ends : forall p, p ∈ th_nodes (sc_heap s) -> nd_End (node s p) <> 0
}.

(** The timers by identifier. *)
Definition timers (s : Scheduler) : gmap Z Node := content (sc_heap s) <$> sc_byID s.

(** Fields that an operation on timers leaves alone. *)
Definition same_frame (s s' : Scheduler) : Prop :=
  sc_ownerID s' = sc_ownerID s /\ sc_seed s' = sc_seed s /\ sc_handlers s' = sc_handlers s
  /\ sc_onChange s' = sc_onChange s /\ sc_running s' = sc_running s /\ sc_deferred s' = sc_deferred s.

Lemma timers_Some s id n :
  sched_ok s ->
  timers s !! id = Some n <-> exists p, p ∈ th_nodes (sc_heap s) /\ content (sc_heap s) p = n /\ nd_ID n = id.
Proof.
  intros Hs. unfold timers. rewrite lookup_fmap_Some. setoid_rewrite (so_byID s Hs). split.
  - intros (p & <- & Hp & <-). by exists p.
  - intros (p & Hp & <- & <-). by exists p.
Qed.

Lemma timers_None s id :
  sched_ok s -> timers s !! id = None <-> sc_byID s !! id = None.
Proof. intros _. unfold timers. rewrite lookup_fmap. by destruct (sc_byID s !! id). Qed.

Lemma emit_frame s change n :
  sc_heap (emit s change n) = sc_heap s /\ sc_byID (emit s change n) = sc_byID s
  /\ same_frame s (emit s change n).
Proof. unfold emit. destruct (_ && _); by split_and!. Qed.

Lemma sched_ok_frame s s' :
  sched_ok s -> sc_heap s' = sc_heap s -> sc_byID s' = sc_byID s -> sc_seed s <= sc_seed s' -> sched_ok s'.
Proof.
  intros [H1 H2 H3 H4] Eh Eb Es. split; rewrite ?Eh, ?Eb; unfold node; rewrite ?Eh; try done.
  intros p Hp. specialize (H3 p Hp). unfold node in H3. lia.
Qed.

Lemma push_sched s p :
  sched_ok s -> p ∉ th_nodes (sc_heap s) -> (p < length (th_store (sc_heap s)))%nat ->
  0 < nd_ID (node s p) <= sc_seed s -> nd_End (node s p) <> 0 -> sc_byID s !! nd_ID (node s p) = None ->
  sched_ok (push s p) /\ timers (push s p) = <[nd_ID (node s p) := content (sc_heap s) p]> (timers s)
  /\ (forall q, content (sc_heap (push s p)) q = content (sc_heap s) q)
  /\ same_frame s (push s p) /\ sc_changes (push s p) = sc_changes s.
Proof.
  intros [H1 H2 H3 H4] Hp Hv Hid Hend Hnone.
  destruct (push_ok (sc_heap s) p H1 Hp Hv) as (P1 & P2 & P3 & P4).
  assert (Hnode : forall q, clone (node (push s p) q) = clone (node s q)) by exact P4.
  assert (HID : forall q, nd_ID (node (push s p) q) = nd_ID (node s q))
    by (intros q; change (nd_ID (clone (node (push s p) q)) = nd_ID (clone (node s q))); by rewrite Hnode).
  assert (HEnd : forall q, nd_End (node (push s p) q) = nd_End (node s q))
    by (intros q; change (nd_End (clone (node (push s p) q)) = nd_End (clone (node s q))); by rewrite Hnode).
  split_and!; [split| |exact P4|done|done].
  - exact P1.
  - intros id q. cbn [push set_heap sc_byID sc_heap]. rewrite P2, HID, elem_of_cons.
    destruct (decide (id = nd_ID (node s p))) as [-> |Hne].
    + rewrite lookup_insert_eq. split; [intros [= <-]; split; [by left|done]|].
      intros [[-> |Hq] Heq]; [done|]. exfalso. assert (sc_byID s !! nd_ID (node s p) = Some q) by (by apply H2). congruence.
    + rewrite lookup_insert_ne, H2 by done. split; [intros [? ?]; split; [by right|done]|].
      intros [[Hq|Hq] Heq]; [by subst q|done].
  - intros q Hq. rewrite HID. cbn [push set_heap sc_seed sc_heap] in *. rewrite P2 in Hq.
    apply elem_of_cons in Hq as [-> |Hq]; [done|by apply H3].
  - intros q Hq. rewrite HEnd. cbn [push set_heap sc_heap] in Hq. rewrite P2 in Hq.
    apply elem_of_cons in Hq as [-> |Hq]; [done|by apply H4].
  - unfold timers. cbn [push set_heap sc_byID sc_heap]. rewrite fmap_insert. f_equal; [apply P4|].
    apply map_fmap_ext. intros id q _. apply P4.
Qed.

(** The node leaves heap and map. *)
Lemma drop_sched s p h' :
  sched_ok s -> heap_ok h' -> p :: th_nodes h' ≡ₚ th_nodes (sc_heap s) ->
  (forall q, content h' q = content (sc_heap s) q) ->
  let s' := set_heap s h' (delete (nd_ID (node s p)) (sc_byID s)) in
  sched_ok s' /\ timers s' = delete (nd_ID (node s p)) (timers s).
Proof.
  intros [H1 H2 H3 H4] Hh Hn Hc s'.
  assert (HID : forall q, nd_ID (node s' q) = nd_ID (node s q))
    by (intros q; change (nd_ID (content h' q) = nd_ID (content (sc_heap s) q)); by rewrite Hc).
  assert (HEnd : forall q, nd_End (node s' q) = nd_End (node s q))
    by (intros q; change (nd_End (content h' q) = nd_End (content (sc_heap s) q)); by rewrite Hc).
  assert (Hsub : forall q, q ∈ th_nodes (sc_heap s) <-> q = p \/ q ∈ th_nodes h')
    by (intros q; by rewrite <-Hn, elem_of_cons).
  assert (Hnot : p ∉ th_nodes h').
  { pose proof (lk_distinct _ (ho_linked _ H1)) as Hnd. rewrite <-Hn in Hnd. by apply NoDup_cons in Hnd as [? _]. }
  split; [split|].
  - exact Hh.
  - intros id q. rewrite HID. cbn [set_heap sc_byID sc_heap s'].
    rewrite lookup_delete_Some, H2, Hsub. split.
    + intros (Hne & [-> |Hq] & <-); [done|done].
    + intros [Hq <-]. split_and!; [|by right|done]. intros He.
      assert (E : sc_byID s !! nd_ID (node s q) = Some p) by (apply H2; split; [apply Hsub; by left|done]).
      assert (E' : sc_byID s !! nd_ID (node s q) = Some q) by (apply H2; split; [apply Hsub; by right|done]).
      congruence.
  - intros q Hq. rewrite HID. apply H3, Hsub. by right.
  - intros q Hq. rewrite HEnd. apply H4, Hsub. by right.
  - unfold timers. cbn [set_heap sc_byID sc_heap s']. rewrite fmap_delete. f_equal.
    apply map_fmap_ext. intros id q _. apply Hc.
Qed.

(** ** The changes that are reported *)

Definition persistent (m : gmap Z Node) : gmap Z Node := filter (fun kn => nd_Type kn.2 <> TypeClosure) m.

(** How the owner keeps the reported nodes. *)
Definition applyChange (m : gmap Z Node) (c : ChangeType * Node) : gmap Z Node :=
  match c with
  | (ChangeUpsert, n) => <[nd_ID n := n]> m
  | (ChangeDelete, n) => delete (nd_ID n) m
  end.

Definition logged (m0 : gmap Z Node) (s : Scheduler) (m : gmap Z Node) : Prop :=
  sc_onChange s = true -> foldl applyChange m0 (sc_changes s) = persistent m.

Lemma emit_changes s change n :
  sc_onChange s = true ->
  sc_changes (emit s change n)
  = if nd_Type n =? TypeClosure then sc_changes s else sc_changes s ++ [(change, clone n)].
Proof. intros Ho. unfold emit. rewrite Ho. by destruct (nd_Type n =? TypeClosure). Qed.

Lemma persistent_delete_closure m id n :
  m !! id = Some n -> nd_Type n = TypeClosure -> persistent (delete id m) = persistent m.
Proof.
  intros Hm Ht. unfold persistent. rewrite map_filter_delete. apply delete_id.
  apply map_lookup_filter_None. right. intros n0 Hn0. rewrite Hm in Hn0. injection Hn0 as <-. cbn. tauto.
Qed.

Lemma logged_upsert m0 s m n :
  logged m0 s m -> (forall n0, m !! nd_ID n = Some n0 -> nd_Type n0 = nd_Type n) ->
  logged m0 (emit s ChangeUpsert n) (<[nd_ID n := clone n]> m).
Proof.
  intros Hl Ht Ho. destruct (emit_frame s ChangeUpsert n) as (_ & _ & _ & _ & _ & E & _).
  rewrite E in Ho. rewrite emit_changes by done. specialize (Hl Ho). unfold persistent in *.
  destruct (Z.eqb_spec (nd_Type n) TypeClosure) as [Hc|Hc].
  - rewrite map_filter_insert_False by (cbn; tauto). rewrite Hl. symmetry.
    destruct (m !! nd_ID n) as [n0|] eqn:Hm; [|by rewrite delete_id].
    apply (persistent_delete_closure m _ n0 Hm). by rewrite (Ht n0).
  - rewrite foldl_snoc, Hl, map_filter_insert_True by done. done.
Qed.

Lemma logged_delete m0 s m n n0 :
  logged m0 s m -> m !! nd_ID n = Some n0 -> nd_Type n0 = nd_Type n ->
  logged m0 (emit s ChangeDelete n) (delete (nd_ID n) m).
Proof.
  intros Hl Hm Ht Ho. destruct (emit_frame s ChangeDelete n) as (_ & _ & _ & _ & _ & E & _).
  rewrite E in Ho. rewrite emit_changes by done. specialize (Hl Ho).
  destruct (Z.eqb_spec (nd_Type n) TypeClosure) as [Hc|Hc].
  - rewrite (persistent_delete_closure m _ n0); [done|done|congruence].
  - rewrite foldl_snoc, Hl. unfold persistent. by rewrite map_filter_delete.
Qed.

(** An operation keeps the invariant, leads to these timers and reports it. *)
Record leads (s s' : Scheduler) (m : gmap Z Node) : Prop := {
  ld_ok : sched_ok s';
  ld_timers : timers s' = m;
  ld_logged : forall m0, logged m0 s (timers s) -> logged m0 s' m;
  ld_frame : same_frame s s'
}.

Lemma emit_leads s s' change n m :
  sched_ok s' -> timers s' = m -> same_frame s s' -> sc_changes s' = sc_changes s ->
  (forall m0, logged m0 s (timers s) -> logged m0 (emit s change n) m) -> leads s (emit s' change n) m.
Proof.
  intros Hok Ht Hf Hc Hl. destruct (emit_frame s' change n) as (E1 & E2 & E3).
  destruct Hf as (F1 & F2 & F3 & F4 & F5 & F6), E3 as (G1 & G2 & G3 & G4 & G5 & G6).
  split.
  - eapply sched_ok_frame; [exact Hok|done|done|lia].
  - unfold timers. by rewrite E1, E2.
  - intros m0 Hm0 Ho. rewrite G4, F4 in Ho. specialize (Hl m0 Hm0).
    rewrite emit_changes by congruence. rewrite Hc, <-emit_changes by done. apply Hl.
    destruct (emit_frame s change n) as (_ & _ & _ & _ & _ & E & _). by rewrite E.
  - split_and!; congruence.
Qed.

Lemma alloc_sched s n :
  sched_ok s ->
  sched_ok (alloc s n).1 /\ timers (alloc s n).1 = timers s /\ node (alloc s n).1 (alloc s n).2 = n
  /\ ~ ((alloc s n).2 ∈ th_nodes (sc_heap s)) /\ same_frame s (alloc s n).1.
Proof.
  intros [H1 H2 H3 H4]. set (h := sc_heap s) in *. set (h' := mkHeap (th_store h ++ [n]) (th_nodes h)).
  assert (Hold : forall p, p ∈ th_nodes h -> deref (th_store h') p = deref (th_store h) p).
  { intros p Hp. unfold deref. cbn. rewrite lookup_app_l; [done|]. by apply (lk_valid _ (ho_linked _ H1)). }
  assert (Hnode : forall p, p ∈ th_nodes h -> node (alloc s n).1 p = node s p) by exact Hold.
  assert (Hh : heap_ok h').
  { destruct H1 as [[L1 L2 L3] Ho]. split; [split; cbn|].
    - intros p Hp. rewrite length_app. specialize (L1 p Hp). lia.
    - done.
    - intros i p Hi. rewrite <-(L3 i p Hi). f_equal. by apply Hold, (list_elem_of_lookup_2 _ i).
    - eapply heap_below_ext; [|exact Ho]. intros k Hk. unfold keyAt. cbn [hview timerHeap_laws th_nodes h' hkey].
      destruct (th_nodes h !! k) as [p|] eqn:Hp; [|done].
      change (nd_End (deref (th_store h') p) = nd_End (deref (th_store h) p)).
      by rewrite Hold by (by eapply list_elem_of_lookup_2). }
  split_and!; [split| | | |done].
  - exact Hh.
  - intros id p. cbn [alloc fst set_heap sc_byID sc_heap]. rewrite H2. fold h.
    split; intros [Hp E]; (split; [done|]); [by rewrite Hnode|by rewrite Hnode in E].
  - intros p Hp. rewrite Hnode by done. by apply H3.
  - intros p Hp. rewrite Hnode by done. by apply H4.
  - unfold timers. cbn [alloc fst set_heap sc_byID sc_heap]. apply map_fmap_ext. intros id p Hp.
    apply H2 in Hp as [Hp _]. unfold content. by rewrite Hold.
  - unfold node, deref. cbn. rewrite lookup_app_r by done. by rewrite Nat.sub_diag.
  - intros Hp. apply (lk_valid _ (ho_linked _ H1)) in Hp. cbn in Hp. fold h in Hp. lia.
Qed.

Lemma addNode_leads s id delay timerType param1 param2 payload h at_ :
  sched_ok s -> 0 < id <= sc_seed s -> timers s !! id = None -> at_ + delay <> 0 ->
  leads s (addNode s id delay timerType param1 param2 payload h at_)
    (<[id := mkNode id timerType param1 param2 payload (at_ + delay) delay (-1) h]> (timers s)).
Proof.
  intros Hs Hid Hnone Hend. unfold addNode. set (n := mkNode _ _ _ _ _ _ _ 0 h).
  destruct (alloc_sched s n Hs) as (A1 & A2 & A3 & A4 & A5).
  assert (A6 : sc_changes (alloc s n).1 = sc_changes s) by done.
  assert (A7 : ((alloc s n).2 < length (th_store (sc_heap (alloc s n).1)))%nat).
  { cbn. rewrite length_app. cbn. lia. }
  assert (A8 : th_nodes (sc_heap (alloc s n).1) = th_nodes (sc_heap s)) by done.
  destruct (alloc s n) as [s1 p]. cbn [fst snd] in *. apply (timers_None s id Hs) in Hnone as Hb.
  destruct (push_sched s1 p) as (P1 & P2 & P3 & P4 & P5).
  - done.
  - by rewrite A8.
  - done.
  - rewrite A3. destruct A5 as (_ & -> & _). done.
  - by rewrite A3.
  - rewrite A3. cbn. apply timers_None; [done|]. by rewrite A2.
  - assert (Hn : clone (node (push s1 p) p) = clone n).
    { change (content (sc_heap (push s1 p)) p = clone n). rewrite P3. unfold content. fold (node s1 p). by rewrite A3. }
    assert (Hc : content (sc_heap s1) p = clone n) by (unfold content; fold (node s1 p); by rewrite A3).
    rewrite A3, A2, Hc in P2. apply emit_leads; [done|exact P2| |congruence|].
    + destruct A5 as (F1 & F2 & F3 & F4 & F5 & F6), P4 as (G1 & G2 & G3 & G4 & G5 & G6). split_and!; congruence.
    + intros m0 Hm0. assert (HID : nd_ID (node (push s1 p) p) = id)
        by (change (nd_ID (clone (node (push s1 p) p)) = id); by rewrite Hn).
      pose proof (logged_upsert m0 s (timers s) (node (push s1 p) p) Hm0) as Hup. rewrite HID, Hn in Hup.
      apply Hup. intros n0. by rewrite Hnone.
Qed.

Lemma RemoveTimer_leads s id :
  sched_ok s -> sc_running s = false -> leads s (RemoveTimer s id).1 (delete id (timers s)).
Proof.
  intros Hs Hr. assert (Hsame : timers s !! id = None -> leads s s (delete id (timers s))).
  { intros Hn. rewrite delete_id by done. by split. }
  unfold RemoveTimer. rewrite Hr. destruct (Z.leb_spec id 0) as [Hle|Hgt].
  - apply Hsame. destruct (timers s !! id) as [n|] eqn:Hn; [|done].
    apply timers_Some in Hn as (p & Hp & <- & <-); [|done]. pose proof (so_ids s Hs p Hp) as [Hlt _].
    change (nd_ID (content (sc_heap s) p)) with (nd_ID (node s p)) in Hle. lia.
  - destruct (sc_byID s !! id) as [p|] eqn:Hp; [|by apply Hsame, timers_None].
    apply (so_byID s Hs) in Hp as Hp'. destruct Hp' as [Hin Hid].
    apply list_elem_of_lookup in Hin as [i Hi].
    assert (Hidx : Z.to_nat (nd_index (node s p)) = i).
    { unfold node. rewrite (lk_index _ (ho_linked _ (so_heap s Hs)) i p Hi). lia. }
    rewrite Hidx. destruct (remove_ok (sc_heap s) i p (so_heap s Hs) Hi) as (R1 & R2 & _ & R4).
    destruct (drop_sched s p _ Hs R1 R2 R4) as [D1 D2]. rewrite Hid in D1, D2. cbn [fst].
    apply emit_leads; [done|done|done|done|]. intros m0 Hm0. rewrite <-Hid.
    apply (logged_delete m0 s (timers s) (node s p) (content (sc_heap s) p) Hm0); [|done].
    rewrite Hid. unfold timers. by rewrite lookup_fmap, Hp.
Qed.

Definition reschedule (End delay : Z) (n : Node) : Node := set_end n End delay.

Lemma content_set_end h p q End delay :
  (p < length (th_store h))%nat ->
  content (mkHeap (alter (fun n => set_end n End delay) p (th_store h)) (th_nodes h)) q
  = if decide (q = p) then reschedule End delay (content h p) else content h q.
Proof.
  intros Hp. unfold content, deref. cbn. case_decide as E.
  - subst q. rewrite list_lookup_alter_eq. by destruct (lookup_lt_is_Some_2 _ _ Hp) as [n ->].
  - by rewrite list_lookup_alter_ne.
Qed.

(** A timer in the heap gets a new end. *)
Lemma change_sched s i p End delay :
  sched_ok s -> th_nodes (sc_heap s) !! i = Some p -> End <> 0 ->
  let h := sc_heap s in
  let h1 := mkHeap (alter (fun n => set_end n End delay) p (th_store h)) (th_nodes h) in
  let s' := set_heap s (heapFix h1 i) (sc_byID s) in
  sched_ok s' /\ timers s' = alter (reschedule End delay) (nd_ID (node s p)) (timers s)
  /\ content (sc_heap s') p = reschedule End delay (content h p).
Proof.
  intros [H1 H2 H3 H4] Hi Hend h h1 s'. assert (Hin : p ∈ th_nodes h) by (by eapply list_elem_of_lookup_2).
  destruct (fix_ok h i p End delay H1 Hi) as [F1 [R1 R2 R3]]. fold h1 in F1, R1, R2, R3.
  assert (Hc : forall q, content (sc_heap s') q = if decide (q = p) then reschedule End delay (content h p) else content h q).
  { intros q. unfold s'. cbn [set_heap sc_heap]. rewrite R3. apply content_set_end. by apply (lk_valid _ (ho_linked _ H1)). }
  assert (HID : forall q, nd_ID (node s' q) = nd_ID (node s q)).
  { intros q. change (nd_ID (content (sc_heap s') q) = nd_ID (content h q)). rewrite Hc. by case_decide; subst. }
  assert (Hnodes : forall q, q ∈ th_nodes (sc_heap s') <-> q ∈ th_nodes h) by (intros q; unfold s'; cbn [set_heap sc_heap]; by rewrite R1).
  split_and!; [split| |by rewrite Hc, decide_True].
  - exact F1.
  - intros id q. rewrite Hnodes, HID. apply H2.
  - intros q Hq. rewrite HID. apply Hnodes in Hq. by apply H3.
  - intros q Hq. change (nd_End (content (sc_heap s') q) <> 0). rewrite Hc. apply Hnodes in Hq. case_decide; [done|by apply H4].
  - apply map_eq. intros id. unfold timers. rewrite lookup_alter, !lookup_fmap.
    cbn [s' set_heap sc_byID]. case_decide as E.
    + subst id. assert (E : sc_byID s !! nd_ID (node s p) = Some p) by (by apply H2). rewrite E. cbn. f_equal.
      by rewrite Hc, decide_True.
    + destruct (sc_byID s !! id) as [q|] eqn:Hq; [|done]. cbn. f_equal. rewrite Hc, decide_False; [done|].
      intros ->. apply H2 in Hq as [_ Hq]. done.
Qed.

Lemma ChangeTimer_leads s id now delay clock :
  sched_ok s -> sc_running s = false -> 0 < delay -> 0 < (if now =? 0 then clock else now) ->
  leads s (ChangeTimer s id now delay clock).1
    (alter (reschedule ((if now =? 0 then clock else now) + delay) delay) id (timers s)).
Proof.
  intros Hs Hr Hd. unfold ChangeTimer. set (now' := if now =? 0 then clock else now). intros Hpos. clearbody now'.
  assert (Hsame : timers s !! id = None -> leads s s (alter (reschedule (now' + delay) delay) id (timers s))).
  { intros Hn. assert (E : alter (reschedule (now' + delay) delay) id (timers s) = timers s).
    { apply map_eq. intros k. rewrite lookup_alter. case_decide as E; [subst k; by rewrite Hn|done]. }
    rewrite E. by split. }
  rewrite Hr. rewrite (proj2 (Z.leb_gt delay 0)) by done. rewrite orb_false_r. destruct (Z.leb_spec id 0) as [Hle|Hgt].
  - apply Hsame. destruct (timers s !! id) as [n|] eqn:Hn; [|done].
    apply timers_Some in Hn as (p & Hp & <- & <-); [|done]. pose proof (so_ids s Hs p Hp) as [Hlt _].
    change (nd_ID (content (sc_heap s) p)) with (nd_ID (node s p)) in Hle. lia.
  - destruct (sc_byID s !! id) as [p|] eqn:Hp; [|by apply Hsame, timers_None].
    apply (so_byID s Hs) in Hp as Hp'. destruct Hp' as [Hin Hid].
    apply list_elem_of_lookup in Hin as Hi. destruct Hi as [i Hi].
    set (h1 := mkHeap _ _).
    assert (Hidx : Z.to_nat (nd_index (deref (th_store h1) p)) = i).
    { destruct (ho_linked _ (so_heap s Hs)) as [V _ X]. specialize (X i p Hi). specialize (V p Hin).
      unfold deref, h1 in *. cbn. rewrite list_lookup_alter_eq. destruct (lookup_lt_is_Some_2 _ _ V) as [n Hn].
      rewrite Hn in X |- *. cbn in *. lia. }
    rewrite Hidx. destruct (change_sched s i p (now' + delay) delay Hs Hi) as (C1 & C2 & C3); [lia|].
    fold h1 in C1, C2, C3. rewrite Hid in C2. cbn [fst]. set (s' := set_heap s _ _) in *.
    apply emit_leads; [done|done|done|done|]. intros m0 Hm0.
    assert (Hcur : timers s !! id = Some (content (sc_heap s) p)) by (unfold timers; by rewrite lookup_fmap, Hp).
    assert (Hnew : clone (node s' p) = reschedule (now' + delay) delay (content (sc_heap s) p)) by exact C3.
    assert (HID : nd_ID (node s' p) = id) by (change (nd_ID (clone (node s' p)) = id); by rewrite Hnew).
    pose proof (logged_upsert m0 s (timers s) (node s' p) Hm0) as Hup. rewrite HID, Hnew in Hup.
    assert (E : alter (reschedule (now' + delay) delay) id (timers s)
                = <[id := reschedule (now' + delay) delay (content (sc_heap s) p)]> (timers s)).
    { apply map_eq. intros k. rewrite lookup_alter, lookup_insert. case_decide as E; [subst k; by rewrite Hcur|done]. }
    rewrite E. apply Hup. intros n0. rewrite Hcur. intros [= <-].
    change (nd_Type (content (sc_heap s) p) = nd_Type (clone (node s' p))). by rewrite Hnew.
Qed.

(** ** Ticks *)

(** What is put off for a call, and the seed after it. *)
Definition deferCall (seed : Z) (c : schedCall) : list deferredOp * Z :=
  match c with
  | CallNew delay timerType param1 param2 payload at_ =>
      if (delay <=? 0) || (timerType =? TypeClosure) then ([], seed)
      else ([DeferAdd (wrapi64 (seed + 1)) delay timerType param1 param2 payload None at_], wrapi64 (seed + 1))
  | CallClosure delay h at_ =>
      if delay <=? 0 then ([], seed)
      else ([DeferAdd (wrapi64 (seed + 1)) delay TypeClosure 0 0 [] (Some h) at_], wrapi64 (seed + 1))
  | CallRemove id => (if id <=? 0 then [] else [DeferRemove id], seed)
  | CallChange id now delay clock =>
      (if (id <=? 0) || (delay <=? 0) then [] else [DeferChange id (if now =? 0 then clock else now) delay], seed)
  | CallRegister _ _ => ([], seed)
  end.

Fixpoint deferCalls (seed : Z) (calls : list schedCall) : list deferredOp * Z :=
  match calls with
  | [] => ([], seed)
  | c :: calls =>
      let '(ops, seed) := deferCall seed c in
      let '(rest, seed) := deferCalls seed calls in (ops ++ rest, seed)
  end.

(** Clock readings are positive. *)
Definition call_ok (c : schedCall) : Prop :=
  match c with
  | CallNew _ _ _ _ _ at_ | CallClosure _ _ at_ => 0 < at_
  | CallChange _ now _ clock => 0 < (if now =? 0 then clock else now)
  | _ => True
  end.

Definition addIDs (ops : list deferredOp) : list Z :=
  omap (fun op => match op with DeferAdd id _ _ _ _ _ _ _ => Some id | _ => None end) ops.

Definition op_ok (op : deferredOp) : Prop :=
  match op with
  | DeferRemove _ => True
  | DeferChange _ now delay => 0 < now /\ 0 < delay
  | DeferAdd _ delay _ _ _ _ _ at_ => 0 < at_ + delay
  end.

(** The same scheduler after calls of a handler. *)
Definition deferring (s s' : Scheduler) : Prop :=
  sc_heap s' = sc_heap s /\ sc_byID s' = sc_byID s /\ sc_changes s' = sc_changes s
  /\ sc_ownerID s' = sc_ownerID s /\ sc_onChange s' = sc_onChange s /\ sc_running s' = sc_running s.

Lemma perform_running s c :
  sc_running s = true ->
  deferring s (perform s c) /\ sc_seed (perform s c) = (deferCall (sc_seed s) c).2
  /\ sc_deferred (perform s c) = sc_deferred s ++ (deferCall (sc_seed s) c).1.
Proof.
  intros Hr. unfold deferring. destruct c as [delay timerType p1 p2 payload at_|delay h at_|id|id now delay clock|timerType h];
    cbn [perform deferCall]; unfold NewTimer, NewClosureTimer, add, RemoveTimer, ChangeTimer, RegisterHandler.
  - destruct (_ || _); cbn; [by rewrite app_nil_r|]. rewrite Hr. by cbn.
  - destruct (delay <=? 0); cbn; [by rewrite app_nil_r|]. rewrite Hr. by cbn.
  - destruct (id <=? 0); cbn; [by rewrite app_nil_r|]. rewrite Hr. by cbn.
  - destruct (_ || _); cbn; [by rewrite app_nil_r|]. rewrite Hr. by cbn.
  - destruct (timerType =? TypeClosure); cbn; by rewrite app_nil_r.
Qed.

Lemma performs_running calls : forall s,
  sc_running s = true ->
  deferring s (foldl perform s calls) /\ sc_seed (foldl perform s calls) = (deferCalls (sc_seed s) calls).2
  /\ sc_deferred (foldl perform s calls) = sc_deferred s ++ (deferCalls (sc_seed s) calls).1.
Proof.
  induction calls as [|c calls IH]; intros s Hr; cbn [foldl deferCalls].
  - split_and!; [by split_and!|done|by rewrite app_nil_r].
  - destruct (perform_running s c Hr) as (D & E1 & E2).
    destruct (IH (perform s c)) as (D' & E1' & E2'); [by destruct D as (_ & _ & _ & _ & _ & ->)|].
    rewrite E1, E2 in *. destruct (deferCall (sc_seed s) c) as [ops seed]. cbn [fst snd] in *.
    destruct (deferCalls seed calls) as [rest seed']. cbn [fst snd] in *. rewrite E1', E2', <-app_assoc. split; [|done].
    destruct D as (? & ? & ? & ? & ? & ?), D' as (? & ? & ? & ? & ? & ?). unfold deferring. split_and!; congruence.
Qed.

(** Identifiers put off are new and different. *)
Record fresh_ops (base seed : Z) (ops : list deferredOp) : Prop := {
  fo_distinct : NoDup (addIDs ops);
  fo_new : Forall (fun id => base < id <= seed) (addIDs ops);
  fo_ok : Forall op_ok ops
}.

Lemma addIDs_app a b : addIDs (a ++ b) = addIDs a ++ addIDs b.
Proof. apply omap_app. Qed.

Lemma deferCall_fresh base seed ops c :
  fresh_ops base seed ops -> base <= seed -> 0 <= seed < 2 ^ 63 - 1 -> call_ok c ->
  fresh_ops base (deferCall seed c).2 (ops ++ (deferCall seed c).1) /\ seed <= (deferCall seed c).2 <= seed + 1.
Proof.
  intros [F1 F2 F3] Hb Hs Hc.
  assert (Hnil : fresh_ops base seed (ops ++ []) /\ seed <= seed <= seed + 1) by (rewrite app_nil_r; split; [done|lia]).
  assert (Hadd : forall op, addIDs [op] = [seed + 1] -> op_ok op ->
            fresh_ops base (seed + 1) (ops ++ [op]) /\ seed <= seed + 1 <= seed + 1).
  { intros op Hid Hop. split; [|lia]. split; [| |by apply Forall_app_2; [|apply Forall_singleton]].
    - rewrite addIDs_app, Hid. apply NoDup_app. split_and!; [done| |apply NoDup_singleton].
      intros id Hin ->%list_elem_of_singleton. rewrite Forall_forall in F2. specialize (F2 _ Hin). lia.
    - rewrite addIDs_app, Hid. apply Forall_app_2; [|apply Forall_singleton; lia].
      eapply Forall_impl; [exact F2|]. cbn. lia. }
  assert (Hkeep : forall op, addIDs [op] = [] -> op_ok op ->
            fresh_ops base seed (ops ++ [op]) /\ seed <= seed <= seed + 1).
  { intros op Hid Hop. split; [|lia]. split; [by rewrite addIDs_app, Hid, app_nil_r..|].
    by apply Forall_app_2; [|apply Forall_singleton]. }
  destruct c as [delay timerType p1 p2 payload at_|delay h at_|id|id now delay clock|timerType h]; cbn [deferCall].
  - destruct (Z.leb_spec delay 0); cbn [orb]; [done|]. destruct (_ =? _); [done|]. rewrite wrapi64_small by lia.
    apply Hadd; [done|]. cbn in *. lia.
  - destruct (Z.leb_spec delay 0); [done|]. rewrite wrapi64_small by lia. apply Hadd; [done|]. cbn in *. lia.
  - destruct (_ <=? _); [done|]. by apply Hkeep.
  - destruct (_ <=? _); cbn [orb]; [done|]. destruct (Z.leb_spec delay 0); [done|]. by apply Hkeep.
  - done.
Qed.

Lemma deferCalls_fresh base calls : forall seed ops,
  fresh_ops base seed ops -> base <= seed -> 0 <= seed -> seed + len calls < 2 ^ 63 -> Forall call_ok calls ->
  fresh_ops base (deferCalls seed calls).2 (ops ++ (deferCalls seed calls).1)
  /\ seed <= (deferCalls seed calls).2 <= seed + len calls.
Proof.
  induction calls as [|c calls IH]; intros seed ops Hf Hb Hs Hlt Hc; cbn [deferCalls].
  { rewrite app_nil_r. split; [done|]. unfold len. cbn. lia. }
  assert (El : len (c :: calls) = len calls + 1) by (unfold len; cbn; lia).
  assert (0 <= len calls) by (unfold len; lia).
  apply Forall_cons in Hc as [Hc Hcs]. rewrite El in *.
  destruct (deferCall_fresh base seed ops c Hf Hb) as [F1 F2]; [lia|done|].
  destruct (deferCall seed c) as [o seed']. cbn [fst snd] in *.
  destruct (IH seed' (ops ++ o) F1) as [I1 I2]; [lia|lia|lia|done|].
  destruct (deferCalls seed' calls) as [rest seed'']. cbn [fst snd] in *. rewrite app_assoc. split; [done|lia].
Qed.

(** A scheduler in a tick that began with the seed [base]. *)
Record ticking (base : Z) (s : Scheduler) : Prop := {
  tk_ok : sched_ok s;
  tk_run : sc_running s = true;
  tk_base : forall p, p ∈ th_nodes (sc_heap s) -> nd_ID (node s p) <= base;
  tk_seed : 0 <= base <= sc_seed s;
  tk_fresh : fresh_ops base (sc_seed s) (sc_deferred s)
}.

(** A node that is not in the heap changes. *)
Lemma detached_sched s p End delay :
  sched_ok s -> p ∉ th_nodes (sc_heap s) -> (p < length (th_store (sc_heap s)))%nat ->
  let h := sc_heap s in
  let s' := set_heap s (mkHeap (alter (fun n => set_end n End delay) p (th_store h)) (th_nodes h)) (sc_byID s) in
  sched_ok s' /\ timers s' = timers s /\ content (sc_heap s') p = reschedule End delay (content h p).
Proof.
  intros [H1 H2 H3 H4] Hp Hv h s'.
  assert (Hd : forall q, q ∈ th_nodes h -> node s' q = node s q).
  { intros q Hq. unfold node, deref. cbn. rewrite list_lookup_alter_ne; [done|]. by intros ->. }
  split_and!; [split| |].
  - destruct H1 as [[L1 L2 L3] Ho]. split; [split; cbn|].
    + intros q Hq. rewrite length_alter. by apply L1.
    + done.
    + intros i q Hi. change (nd_index (node s' q) = Z.of_nat i). rewrite Hd by (by eapply list_elem_of_lookup_2). by apply L3.
    + eapply heap_below_ext; [|exact Ho]. intros k Hk. unfold keyAt. cbn [s' set_heap sc_heap hview timerHeap_laws th_nodes hkey].
      fold h. destruct (th_nodes h !! k) as [q|] eqn:Hq; [|done].
      change (nd_End (node s' q) = nd_End (node s q)). by rewrite Hd by (by eapply list_elem_of_lookup_2).
  - intros id q. cbn [s' set_heap sc_byID sc_heap th_nodes]. rewrite H2. fold h.
    split; intros [Hq E]; (split; [done|]); [by rewrite Hd|by rewrite Hd in E].
  - intros q Hq. rewrite Hd by done. by apply H3.
  - intros q Hq. rewrite Hd by done. by apply H4.
  - apply map_fmap_ext. intros id q Hq. apply H2 in Hq as [Hq _]. change (clone (node s' q) = clone (node s q)). by rewrite Hd.
  - unfold s'. cbn [set_heap sc_heap]. rewrite content_set_end by done. by rewrite decide_True.
Qed.

(** *** Handlers *)

Definition registerCall (handlers : gmap Z Z) (c : schedCall) : gmap Z Z :=
  match c with
  | CallRegister timerType h => if timerType =? TypeClosure then handlers else <[timerType := h]> handlers
  | _ => handlers
  end.

Lemma emit_handlers s change n : sc_handlers (emit s change n) = sc_handlers s.
Proof. unfold emit. by destruct (_ && _). Qed.

Lemma addNode_handlers s id delay timerType p1 p2 payload h at_ :
  sc_handlers (addNode s id delay timerType p1 p2 payload h at_) = sc_handlers s.
Proof. unfold addNode, alloc. by rewrite emit_handlers. Qed.

Lemma RemoveTimer_handlers s id : sc_handlers (RemoveTimer s id).1 = sc_handlers s.
Proof.
  unfold RemoveTimer. destruct (id <=? 0); [done|]. destruct (sc_running s); [done|].
  destruct (sc_byID s !! id); [|done]. cbn [fst]. by rewrite emit_handlers.
Qed.

Lemma ChangeTimer_handlers s id now delay clock : sc_handlers (ChangeTimer s id now delay clock).1 = sc_handlers s.
Proof.
  unfold ChangeTimer. destruct (_ || _); [done|]. destruct (sc_running s); [done|].
  destruct (sc_byID s !! id); [|done]. cbn [fst]. by rewrite emit_handlers.
Qed.

Lemma perform_handlers s c : sc_handlers (perform s c) = registerCall (sc_handlers s) c.
Proof.
  destruct c as [delay timerType p1 p2 payload at_|delay h at_|id|id now delay clock|timerType h]; cbn [perform registerCall].
  - unfold NewTimer, add. destruct (_ || _); [done|]. cbn [fst]. destruct (sc_running _); [done|]. cbn [fst].
    by rewrite addNode_handlers.
  - unfold NewClosureTimer, add. destruct (_ <=? _); [done|]. cbn [fst]. destruct (sc_running _); [done|]. cbn [fst].
    by rewrite addNode_handlers.
  - apply RemoveTimer_handlers.
  - apply ChangeTimer_handlers.
  - unfold RegisterHandler. by destruct (_ =? _).
Qed.

Lemma performs_handlers calls : forall s, sc_handlers (foldl perform s calls) = foldl registerCall (sc_handlers s) calls.
Proof. induction calls as [|c calls IH]; intros s; [done|]. cbn. by rewrite IH, perform_handlers. Qed.

Lemma runDeferred_handlers ops : forall s, sc_handlers (foldl runDeferred s ops) = sc_handlers s.
Proof.
  induction ops as [|op ops IH]; intros s; [done|]. cbn. rewrite IH.
  destruct op; cbn; [apply RemoveTimer_handlers|apply ChangeTimer_handlers|apply addNode_handlers].
Qed.

(** The handler a timer has: its own, or the one registered for its type. *)
Definition handlerFor (handlers : gmap Z Z) (n : Node) : option Z :=
  if nd_Type n =? TypeClosure then nd_handler n else handlers !! nd_Type n.

(** The handlers that are called for timers one after the other; those called
    first can register handlers for the others. *)
Fixpoint handlersCalled (handlers : gmap Z Z) (nodes : list Node) (answers : script) : list (option Z) :=
  match nodes with
  | [] => []
  | n :: nodes =>
      let h := handlerFor handlers n in
      let '(calls, _, answers) := answerOf h answers in
      h :: handlersCalled (foldl registerCall handlers calls) nodes answers
  end.

(** *** Timers *)

(** What becomes of a timer that was taken from the heap. *)
Definition settleOne (now : Z) (m : gmap Z Node) (n : Node) (next : Z) : gmap Z Node :=
  if next <=? 0 then delete (nd_ID n) m else <[nd_ID n := reschedule (now + next) next n]> m.

Lemma deferring_frame s s' :
  sched_ok s -> deferring s s' -> sc_seed s <= sc_seed s' ->
  sched_ok s' /\ timers s' = timers s /\ forall m0 m, logged m0 s m -> logged m0 s' m.
Proof.
  intros Hs (E1 & E2 & E3 & E4 & E5 & E6) Hle. split_and!.
  - by eapply sched_ok_frame.
  - unfold timers. by rewrite E1, E2.
  - intros m0 m Hl. unfold logged. by rewrite E3, E5.
Qed.

(** The timer is taken out and reported. *)
Lemma take_first s p :
  sched_ok s -> min s = Some p ->
  let s1 := emit (set_heap s (timerHeap_Pop (heapPop (sc_heap s))) (delete (nd_ID (node s p)) (sc_byID s)))
              ChangeDelete (node s p) in
  leads s s1 (delete (nd_ID (node s p)) (timers s)) /\ (forall q, content (sc_heap s1) q = content (sc_heap s) q)
  /\ p :: th_nodes (sc_heap s1) ≡ₚ th_nodes (sc_heap s) /\ (p < length (th_store (sc_heap s1)))%nat.
Proof.
  intros Hs Hp s1. destruct (pop_ok (sc_heap s) p (so_heap s Hs) Hp) as (P1 & P2 & P3 & P4).
  destruct (drop_sched s p _ Hs P1 P2 P4) as [D1 D2].
  destruct (emit_frame (set_heap s (timerHeap_Pop (heapPop (sc_heap s))) (delete (nd_ID (node s p)) (sc_byID s)))
              ChangeDelete (node s p)) as (E1 & _ & _). fold s1 in E1. rewrite E1.
  assert (Hin : p ∈ th_nodes (sc_heap s)) by (by eapply list_elem_of_lookup_2).
  split_and!; [|apply P4|exact P2|].
  - apply emit_leads; [done|done|done|done|]. intros m0 Hm0.
    apply (logged_delete m0 s (timers s) (node s p) (content (sc_heap s) p) Hm0); [|done].
    apply timers_Some; [done|]. by exists p.
  - cbn [set_heap sc_heap]. rewrite P3. by apply (lk_valid _ (ho_linked _ (so_heap s Hs))).
Qed.

(** Putting a taken timer back. *)
Lemma put_back s p now next :
  sched_ok s -> p ∉ th_nodes (sc_heap s) -> (p < length (th_store (sc_heap s)))%nat ->
  0 < nd_ID (node s p) <= sc_seed s -> timers s !! nd_ID (node s p) = None -> now + next <> 0 ->
  let h := sc_heap s in
  let s1 := push (set_heap s (mkHeap (alter (fun n => set_end n (now + next) next) p (th_store h)) (th_nodes h))
                    (sc_byID s)) p in
  leads s (emit s1 ChangeUpsert (node s1 p))
    (<[nd_ID (node s p) := reschedule (now + next) next (content h p)]> (timers s))
  /\ th_nodes (sc_heap (emit s1 ChangeUpsert (node s1 p))) ≡ₚ p :: th_nodes h
  /\ forall q, nd_ID (node (emit s1 ChangeUpsert (node s1 p)) q) = nd_ID (node s q).
Proof.
  intros Hs Hp Hv Hid Hnone Hend h s1. set (s0 := set_heap s _ _) in s1.
  destruct (detached_sched s p (now + next) next Hs Hp Hv) as (D1 & D2 & D3). fold h s0 in D1, D2, D3.
  assert (HID0 : forall q, nd_ID (node s0 q) = nd_ID (node s q)).
  { intros q. change (nd_ID (content (sc_heap s0) q) = nd_ID (content h q)). unfold s0. cbn [set_heap sc_heap].
    unfold h. rewrite content_set_end by done. by case_decide; subst. }
  assert (Hlen : (p < length (th_store (sc_heap s0)))%nat) by (cbn; by rewrite length_alter).
  destruct (push_ok (sc_heap s0) p (so_heap s0 D1) Hp Hlen) as (_ & N1 & _ & _).
  destruct (push_sched s0 p D1 Hp Hlen) as (P1 & P2 & P3 & P4 & P5).
  - rewrite HID0. done.
  - change (nd_End (content (sc_heap s0) p) <> 0). by rewrite D3.
  - apply timers_None; [done|]. by rewrite D2, HID0.
  - fold s1 in P1, P2, P3, P4, P5. rewrite HID0, D2, D3 in P2.
    destruct (emit_frame s1 ChangeUpsert (node s1 p)) as (E1 & _ & _).
    assert (Hn : clone (node s1 p) = reschedule (now + next) next (content h p)).
    { change (content (sc_heap s1) p = reschedule (now + next) next (content h p)). by rewrite P3. }
    split_and!.
    + apply emit_leads; [done|done|done|done|]. intros m0 Hm0.
      pose proof (logged_upsert m0 s (timers s) (node s1 p) Hm0) as Hup.
      assert (HID : nd_ID (node s1 p) = nd_ID (node s p)).
      { change (nd_ID (clone (node s1 p)) = nd_ID (node s p)). by rewrite Hn. }
      rewrite HID, Hn in Hup. apply Hup. intros n0. by rewrite Hnone.
    + rewrite E1. exact N1.
    + intros q. unfold node at 1. rewrite E1. change (nd_ID (content (sc_heap s1) q) = nd_ID (node s q)).
      rewrite P3. apply HID0.
Qed.

Definition script_ok (answers : script) : Prop := Forall (fun a => Forall call_ok a.1) answers.

Definition script_len (answers : script) : Z := foldr (fun a n => len a.1 + n) 0 answers.

Lemma script_len_nonneg answers : 0 <= script_len answers.
Proof.
  induction answers as [|a answers IH]; [done|]. change (0 <= len a.1 + script_len answers). unfold len. lia.
Qed.

Lemma answerOf_ok h answers :
  script_ok answers ->
  Forall call_ok (answerOf h answers).1.1 /\ script_ok (answerOf h answers).2
  /\ len (answerOf h answers).1.1 + script_len (answerOf h answers).2 <= script_len answers.
Proof.
  intros Ha. pose proof (script_len_nonneg answers).
  assert (Hnone : Forall call_ok [] /\ script_ok answers /\ len (@nil schedCall) + script_len answers <= script_len answers)
    by (split_and!; [constructor|done|done]).
  unfold answerOf. destruct h; [|done]. destruct answers as [|[calls next] answers]; [done|].
  apply Forall_cons in Ha as [Ha1 Ha2]. by split_and!.
Qed.

Record fires (base now : Z) (s s' : Scheduler) (n : Node) (calls : list schedCall) (next : Z) : Prop := {
  fi_handlers : sc_handlers s' = foldl registerCall (sc_handlers s) calls;
  fi_ticking : ticking base s';
  fi_timers : timers s' = settleOne now (timers s) n next;
  fi_logged : forall m0, logged m0 s (timers s) -> logged m0 s' (timers s');
  fi_seed : sc_seed s' = (deferCalls (sc_seed s) calls).2;
  fi_deferred : sc_deferred s' = sc_deferred s ++ (deferCalls (sc_seed s) calls).1;
  fi_owner : sc_ownerID s' = sc_ownerID s /\ sc_onChange s' = sc_onChange s;
  fi_length : length (th_nodes (sc_heap s')) = (if (next <=? 0)%Z then length (th_nodes (sc_heap s)) - 1 else length (th_nodes (sc_heap s)))%nat
}.

Lemma fire_spec base now s p answers :
  ticking base s -> min s = Some p -> 0 < now -> script_ok answers ->
  sc_seed s + script_len answers < 2 ^ 63 ->
  exists s' h,
    let n := content (sc_heap s) p in
    let '(calls, next, answers') := answerOf h answers in
    h = handlerFor (sc_handlers s) n
    /\ fire now s p answers
       = (s', answers', (h, mkContext (sc_ownerID s) n now), match next with None => true | Some _ => false end)
    /\ fires base now s s' n calls (default 0 next).
Proof.
  intros [T1 T2 T3 T4 T5] Hp Hnow Ha Hlt. unfold fire.
  destruct (take_first s p T1 Hp) as ([L1 L2 L3 L4] & C1 & N1 & V1).
  set (s1 := emit _ ChangeDelete (node s p)) in *. destruct L4 as (F1 & F2 & F3 & F4 & F5 & F6).
  set (h := handlerOf s1 (node s p)). destruct (answerOf_ok h answers Ha) as (A1 & A2 & A3).
  destruct (answerOf h answers) as [[calls next] answers'] eqn:Eans. cbn [fst snd] in A1, A2, A3.
  pose proof (script_len_nonneg answers').
  destruct (performs_running calls s1) as (D & S1 & S2); [congruence|].
  destruct (deferCalls_fresh base calls (sc_seed s) (sc_deferred s) T5) as [R1 R2]; [lia|lia|lia|done|].
  rewrite F2 in S1, S2. rewrite F6 in S2.
  set (s2 := foldl perform s1 calls) in *.
  destruct (deferring_frame s1 s2 L1 D) as (K1 & K2 & K3); [lia|]. destruct D as (D1 & D2 & D3 & D4 & D5 & D6).
  rewrite L2 in K2.
  assert (Hin : p ∈ th_nodes (sc_heap s)) by (by eapply list_elem_of_lookup_2).
  assert (HID : forall q, nd_ID (node s2 q) = nd_ID (node s q)).
  { intros q. unfold node. rewrite D1. change (nd_ID (content (sc_heap s1) q) = nd_ID (content (sc_heap s) q)). by rewrite C1. }
  assert (Hsub : forall q, q ∈ th_nodes (sc_heap s2) -> q ∈ th_nodes (sc_heap s)) by (intros q; rewrite D1, <-N1; by right).
  assert (Hnot : p ∉ th_nodes (sc_heap s2)).
  { pose proof (lk_distinct _ (ho_linked _ (so_heap s T1))) as Hnd. rewrite <-N1 in Hnd. rewrite D1.
    by apply NoDup_cons in Hnd as [? _]. }
  assert (Hbase : forall q, q ∈ th_nodes (sc_heap s2) -> nd_ID (node s2 q) <= base)
    by (intros q Hq; rewrite HID; by apply T3, Hsub).
  assert (Hlen : length (th_nodes (sc_heap s)) = S (length (th_nodes (sc_heap s2)))) by (by rewrite D1, <-N1).
  assert (Hlog : forall m0, logged m0 s (timers s) -> logged m0 s2 (timers s2)) by (intros m0 Hm0; rewrite K2; by apply K3, L3).
  assert (Hcp : content (sc_heap s2) p = content (sc_heap s) p) by (by rewrite D1, C1).
  assert (Hh : h = handlerFor (sc_handlers s) (content (sc_heap s) p)).
  { unfold h, handlerOf. by rewrite F3. }
  assert (Hreg : sc_handlers s2 = foldl registerCall (sc_handlers s) calls) by (unfold s2; by rewrite performs_handlers, F3).
  assert (Hgone : (default 0 next <=? 0) = true -> fires base now s s2 (content (sc_heap s) p) calls (default 0 next)).
  { intros Hnext. split; try done.
    - split; [done|congruence|done|lia|]. rewrite S1, S2. exact R1.
    - unfold settleOne. by rewrite Hnext.
    - split; congruence.
    - rewrite Hnext. lia. }
  destruct next as [next|]; [|exists s2, h; cbv zeta; rewrite Eans, F1; by split_and!; [| |apply Hgone]].
  destruct (next <=? 0) eqn:Hnext.
  - exists s2, h. cbv zeta. rewrite Eans, F1. by split_and!; [| |apply Hgone].
  - assert (Hnone : timers s2 !! nd_ID (node s2 p) = None) by (rewrite K2, HID; apply lookup_delete_eq).
    assert (Hids : 0 < nd_ID (node s2 p) <= sc_seed s2)
      by (rewrite HID; pose proof (so_ids s T1 p Hin); lia).
    destruct (put_back s2 p now next K1 Hnot) as ([G1 G2 G3 G4] & M1 & M2); [by rewrite D1|done|done|lia|].
    set (s3 := emit _ ChangeUpsert _) in *. destruct G4 as (E1 & E2 & E3 & E4 & E5 & E6).
    exists s3, h. cbv zeta. rewrite Eans, F1. split; [done|]. split; [done|]. change (default 0 (Some next)) with next. split.
    + congruence.
    + split; [done|congruence| |lia|rewrite E2, E6, S1, S2; exact R1].
      intros q Hq. rewrite M2. rewrite M1 in Hq. apply elem_of_cons in Hq as [-> |Hq]; [rewrite HID; by apply T3|by apply Hbase].
    + unfold settleOne. rewrite Hnext, G2, Hcp, HID, K2. by rewrite insert_delete_eq.
    + intros m0 Hm0. rewrite G2. by apply G3, Hlog.
    + congruence.
    + congruence.
    + split; congruence.
    + rewrite M1, Hnext. cbn [length]. lia.
Qed.

(** The timers of a tick, and the calls of their handlers. *)
Fixpoint settle (now : Z) (m : gmap Z Node) (fired : list (option Z * Context)) (answers : script)
    : gmap Z Node * list schedCall :=
  match fired with
  | [] => (m, [])
  | (h, cx) :: fired =>
      let '(calls, next, answers) := answerOf h answers in
      let '(m, rest) := settle now (settleOne now m (cx_Node cx) (default 0 next)) fired answers in (m, calls ++ rest)
  end.

Definition firedNodes (fired : list (option Z * Context)) : list Node := (fun f => cx_Node f.2) <$> fired.

Definition due (now : Z) (m : gmap Z Node) : gmap Z Node := filter (fun kn => nd_End kn.2 <= now) m.

(** Due timers, each once, in the order of the ends and before any other: all of
    them, unless a handler panicked. *)
Record exactly_due (owner now : Z) (m : gmap Z Node) (fired : list (option Z * Context)) (panicked : bool) : Prop := {
  ed_due : forall n, n ∈ firedNodes fired -> m !! nd_ID n = Some n /\ nd_End n <= now;
  ed_all : panicked = false -> forall n, m !! nd_ID n = Some n -> nd_End n <= now -> n ∈ firedNodes fired;
  ed_first : forall n f, m !! nd_ID n = Some n -> n ∉ firedNodes fired -> f ∈ firedNodes fired -> nd_End f <= nd_End n;
  ed_once : NoDup (nd_ID <$> firedNodes fired);
  ed_order : StronglySorted (fun a b => nd_End a <= nd_End b) (firedNodes fired);
  ed_context : Forall (fun f => cx_OwnerID f.2 = owner /\ cx_Now f.2 = now) fired
}.

Record ticked (base now : Z) (s s' : Scheduler) (answers : script) (fired : list (option Z * Context))
    (panicked : bool) : Prop := {
  ti_ticking : ticking base s';
  ti_timers : timers s' = (settle now (timers s) fired answers).1;
  ti_deferred : sc_deferred s' = sc_deferred s ++ (deferCalls (sc_seed s) (settle now (timers s) fired answers).2).1;
  ti_logged : forall m0, logged m0 s (timers s) -> logged m0 s' (timers s');
  ti_late : panicked = false -> forall id n, timers s' !! id = Some n -> now < nd_End n;
  ti_due : exactly_due (sc_ownerID s) now (timers s) fired panicked;
  ti_called : fired.*1 = handlersCalled (sc_handlers s) (firedNodes fired) answers;
  ti_handlers : sc_handlers s' = foldl registerCall (sc_handlers s) (settle now (timers s) fired answers).2;
  ti_owner : sc_ownerID s' = sc_ownerID s /\ sc_onChange s' = sc_onChange s;
  ti_seed : sc_seed s' <= sc_seed s + script_len answers
}.

Lemma deferCalls_app a b : forall seed,
  (deferCalls seed (a ++ b)).1 = (deferCalls seed a).1 ++ (deferCalls (deferCalls seed a).2 b).1.
Proof.
  induction a as [|c a IH]; intros seed; [done|]. cbn [app deferCalls].
  destruct (deferCall seed c) as [o seed']. specialize (IH seed').
  destruct (deferCalls seed' (a ++ b)) as [o1 s1], (deferCalls seed' a) as [o2 s2]. cbn [fst snd] in *.
  by rewrite IH, app_assoc.
Qed.

Lemma first_least s p id n :
  sched_ok s -> min s = Some p -> timers s !! id = Some n -> nd_End (content (sc_heap s) p) <= nd_End n.
Proof.
  intros Hs Hp Hn. apply timers_Some in Hn as (q & Hq & <- & _); [|done].
  apply list_elem_of_lookup in Hq as [k Hk].
  pose proof (heap_min _ _ k (ho_order _ (so_heap s Hs)) (lookup_lt_Some _ _ _ Hk)) as Hmin.
  unfold keyAt in Hmin. cbn [hview timerHeap_laws hkey] in Hmin. unfold min in Hp. by rewrite Hp, Hk in Hmin.
Qed.

Lemma first_timer s p : sched_ok s -> min s = Some p -> timers s !! nd_ID (content (sc_heap s) p) = Some (content (sc_heap s) p).
Proof. intros Hs Hp. apply timers_Some; [done|]. exists p. split_and!; [by eapply list_elem_of_lookup_2|done|done]. Qed.

Lemma settleOne_lookup now m n next id :
  settleOne now m n next !! id
  = if decide (id = nd_ID n) then (if next <=? 0 then None else Some (reschedule (now + next) next n)) else m !! id.
Proof.
  unfold settleOne. destruct (next <=? 0); case_decide as E; [subst|..|subst|].
  - by rewrite lookup_delete_eq.
  - by rewrite lookup_delete_ne.
  - by rewrite lookup_insert_eq.
  - by rewrite lookup_insert_ne.
Qed.

(** One due timer less. *)
Lemma due_settleOne now m n next :
  m !! nd_ID n = Some n -> nd_End n <= now -> 0 < now ->
  due now (settleOne now m n next) = delete (nd_ID n) (due now m).
Proof.
  intros Hm Hle Hnow. apply map_eq. intros id. unfold due. rewrite lookup_delete. case_decide as E.
  - subst id. apply map_lookup_filter_None. right. intros n0. rewrite settleOne_lookup, decide_True by done.
    destruct (Z.leb_spec next 0) as [|Hn]; [done|]. intros [= <-]. cbn. lia.
  - apply option_eq. intros n0. rewrite !map_lookup_filter_Some, settleOne_lookup, decide_False by done. done.
Qed.

Lemma exactly_due_none owner now m :
  (forall id n, m !! id = Some n -> now < nd_End n) -> exactly_due owner now m [] false.
Proof.
  intros Hlate. split; try by constructor.
  - by intros n ?%elem_of_nil.
  - intros _ n Hn Hle. specialize (Hlate _ _ Hn). lia.
  - by intros n f _ _ ?%elem_of_nil.
Qed.

Lemma exactly_due_cons owner now m h n next fired panicked :
  m !! nd_ID n = Some n -> nd_End n <= now -> 0 < now ->
  (forall id n0, m !! id = Some n0 -> nd_End n <= nd_End n0) ->
  exactly_due owner now (settleOne now m n next) fired panicked ->
  exactly_due owner now m ((h, mkContext owner n now) :: fired) panicked.
Proof.
  intros Hm Hle Hnow Hmin [E1 E2 E3 E4 E5 E6].
  assert (Hother : forall n0, settleOne now m n next !! nd_ID n0 = Some n0 -> nd_End n0 <= now ->
            nd_ID n0 <> nd_ID n /\ m !! nd_ID n0 = Some n0).
  { intros n0. rewrite settleOne_lookup. case_decide as E; [|done].
    destruct (Z.leb_spec next 0) as [|Hn]; [done|]. intros [= <-]. cbn. lia. }
  assert (Hstays : forall n0, m !! nd_ID n0 = Some n0 -> n0 <> n -> settleOne now m n next !! nd_ID n0 = Some n0).
  { intros n0 Hn0 Hne. rewrite settleOne_lookup, decide_False; [done|]. intros E. rewrite E in Hn0. congruence. }
  change (firedNodes ((h, mkContext owner n now) :: fired)) with (n :: firedNodes fired).
  split; change (firedNodes ((h, mkContext owner n now) :: fired)) with (n :: firedNodes fired).
  - intros n0 [-> |Hn0]%elem_of_cons; [done|]. destruct (E1 n0 Hn0) as [H1 H2]. split; [by apply (Hother n0)|done].
  - intros Hp n0 H1 H2. apply elem_of_cons. destruct (decide (nd_ID n0 = nd_ID n)) as [E|E].
    + left. rewrite E in H1. congruence.
    + right. apply (E2 Hp); [|done]. by rewrite settleOne_lookup, decide_False.
  - intros n0 f H1 [Hne Hn0]%not_elem_of_cons [-> |Hf]%elem_of_cons; [by eapply Hmin|].
    apply E3; [by apply Hstays|done|done].
  - cbn. apply NoDup_cons. split; [|done]. intros (n0 & E & Hn0)%list_elem_of_fmap.
    apply E1 in Hn0 as [H1 H2]. by apply Hother in H1 as [? _].
  - constructor; [done|]. apply Forall_forall. intros n0 Hn0. apply E1 in Hn0 as [H1 H2].
    apply Hother in H1 as [_ H1]; [|done]. by eapply Hmin.
  - by constructor.
Qed.

(** The timer whose handler panics is the last. *)
Lemma exactly_due_last owner now m h n :
  m !! nd_ID n = Some n -> nd_End n <= now -> (forall id n0, m !! id = Some n0 -> nd_End n <= nd_End n0) ->
  exactly_due owner now m [(h, mkContext owner n now)] true.
Proof.
  intros Hm Hle Hmin. split; cbn; try done.
  - by intros n0 ->%list_elem_of_singleton.
  - intros n0 f H1 _ ->%list_elem_of_singleton. by eapply Hmin.
  - apply NoDup_singleton.
  - repeat constructor.
  - by repeat constructor.
Qed.

Lemma tickLoop_spec base now fuel : forall s answers,
  ticking base s -> 0 < now -> script_ok answers -> sc_seed s + script_len answers < 2 ^ 63 ->
  (size (due now (timers s)) <= fuel)%nat ->
  exists s' answers' fired panicked,
    tickLoop fuel now s answers = (s', answers', fired, panicked) /\ ticked base now s s' answers fired panicked.
Proof.
  induction fuel as [|fuel IH]; intros s answers Ht Hnow Ha Hlt Hsize; cbn [tickLoop].
  all: pose proof (script_len_nonneg answers).
  all: assert (Hstop : (forall id n, timers s !! id = Some n -> now < nd_End n) -> ticked base now s s answers [] false).
  1, 3: intros Hlate; split; try done; [by rewrite app_nil_r|by apply exactly_due_none|lia].
  - exists s, answers, [], false. split; [done|]. apply Hstop. intros id n Hn.
    assert (He : due now (timers s) = ∅) by (apply map_size_empty_inv; lia).
    destruct (Z.lt_ge_cases now (nd_End n)) as [|Hle]; [done|]. exfalso.
    assert (Hd : due now (timers s) !! id = Some n) by (by apply map_lookup_filter_Some). by rewrite He in Hd.
  - destruct (min s) as [p|] eqn:Hp; last first.
    { exists s, answers, [], false. split; [done|]. apply Hstop. intros id n (q & Hq & _)%timers_Some; [|apply Ht].
      unfold min in Hp. destruct (th_nodes (sc_heap s)); [by apply elem_of_nil in Hq|done]. }
    pose proof (first_timer s p (tk_ok _ _ Ht) Hp) as Hfirst.
    change (nd_End (node s p)) with (nd_End (content (sc_heap s) p)).
    destruct (Z.ltb_spec now (nd_End (content (sc_heap s) p))) as [Hlate|Hdue].
    { exists s, answers, [], false. split; [done|]. apply Hstop. intros id n Hn.
      pose proof (first_least s p id n (tk_ok _ _ Ht) Hp Hn). lia. }
    destruct (fire_spec base now s p answers Ht Hp Hnow Ha Hlt) as (s1 & h & Hf). cbv zeta in Hf.
    destruct (answerOf_ok h answers Ha) as (A1 & A2 & A3).
    destruct (answerOf h answers) as [[calls next] answers1] eqn:Eans. cbn [fst snd] in A1, A2, A3.
    destruct Hf as (Hh & -> & [I0 I1 I2 I3 I4 I5 I6 _]). set (n := content (sc_heap s) p) in *.
    assert (Hleast : forall id n0, timers s !! id = Some n0 -> nd_End n <= nd_End n0)
      by (intros id n0 Hn0; by apply (first_least s p id n0 (tk_ok _ _ Ht) Hp)).
    assert (Hseed : sc_seed s1 <= sc_seed s + len calls).
    { destruct Ht as [_ _ _ T4 T5]. pose proof (script_len_nonneg answers1).
      destruct (deferCalls_fresh base calls (sc_seed s) (sc_deferred s) T5) as [_ R]; [lia|lia|lia|done|]. lia. }
    pose proof (script_len_nonneg answers1).
    destruct next as [next|]; last first.
    { exists s1, answers1, [(h, mkContext (sc_ownerID s) n now)], true. split; [done|].
      split; cbn [settle cx_Node firedNodes fmap list_fmap snd fst handlersCalled]; rewrite <-?Hh, ?Eans;
        cbn [fst snd]; rewrite ?app_nil_r; try done; [by apply exactly_due_last|lia]. }
    destruct (IH s1 answers1) as (s' & answers' & fired & panicked & -> & [J1 J2 J3 J4 J5 J6 JC JH J7 J8]); [done|done|done|lia| |].
    { rewrite I2, due_settleOne by done. rewrite map_size_delete.
      assert (Hd : due now (timers s) !! nd_ID n = Some n) by (by apply map_lookup_filter_Some).
      rewrite Hd. lia. }
    destruct I6 as [O1 O2]. rewrite I2, O1 in J6.
    exists s', answers', ((h, mkContext (sc_ownerID s) n now) :: fired), panicked. split; [done|].
    split; cbn [settle cx_Node]; rewrite ?Eans; rewrite <-?I2.
    + done.
    + rewrite J2. by destruct (settle _ _ _ _).
    + rewrite J3, I4, I5. destruct (settle now (timers s1) fired answers1) as [m rest]. cbn [fst snd].
      by rewrite deferCalls_app, app_assoc.
    + intros m0 Hm0. by apply J4, I3.
    + done.
    + by apply (exactly_due_cons _ _ _ _ _ (default 0 (Some next))).
    + cbn [firedNodes fmap list_fmap fst snd cx_Node handlersCalled]. rewrite <-Hh, Eans. cbn [fst snd]. f_equal.
      rewrite <-I0. exact JC.
    + rewrite JH, I0. destruct (settle now (timers s1) fired answers1) as [m rest]. cbn [fst snd]. by rewrite foldl_app.
    + destruct J7. split; congruence.
    + lia.
Qed.

(** ** The operations that were put off *)

Definition applyDeferred (m : gmap Z Node) (op : deferredOp) : gmap Z Node :=
  match op with
  | DeferRemove id => delete id m
  | DeferChange id now delay => alter (reschedule (now + delay) delay) id m
  | DeferAdd id delay timerType param1 param2 payload h at_ =>
      <[id := mkNode id timerType param1 param2 payload (at_ + delay) delay (-1) h]> m
  end.

(** A scheduler between calls. *)
Record idle (s : Scheduler) : Prop := {
  id_ok : sched_ok s;
  id_stopped : sc_running s = false;
  id_none : sc_deferred s = [];
  id_seed : 0 <= sc_seed s
}.

Lemma leads_trans s1 s2 s3 m2 m3 : leads s1 s2 m2 -> leads s2 s3 m3 -> leads s1 s3 m3.
Proof.
  intros [A1 A2 A3 (F1 & F2 & F3 & F4 & F5 & F6)] [B1 B2 B3 (G1 & G2 & G3 & G4 & G5 & G6)].
  split; [done|done| |split_and!; congruence]. intros m0 Hm0. apply B3. rewrite A2. by apply A3.
Qed.

Lemma runDeferred_leads s op :
  sched_ok s -> sc_running s = false -> op_ok op ->
  (forall id, id ∈ addIDs [op] -> 0 < id <= sc_seed s /\ timers s !! id = None) ->
  leads s (runDeferred s op) (applyDeferred (timers s) op).
Proof.
  intros Hs Hr Ho Hid. destruct op as [id|id now delay|id delay timerType p1 p2 payload h at_]; cbn [runDeferred applyDeferred].
  - by apply RemoveTimer_leads.
  - destruct Ho as [Ho1 Ho2]. pose proof (ChangeTimer_leads s id now delay now Hs Hr Ho2) as H.
    destruct (now =? 0); by apply H.
  - destruct (Hid id) as [H1 H2]; [left|]. apply addNode_leads; [done|done|done|]. cbn in Ho. lia.
Qed.

Lemma runDeferreds_leads ops : forall s,
  sched_ok s -> sc_running s = false -> Forall op_ok ops -> NoDup (addIDs ops) ->
  (forall id, id ∈ addIDs ops -> 0 < id <= sc_seed s /\ timers s !! id = None) ->
  leads s (foldl runDeferred s ops) (foldl applyDeferred (timers s) ops).
Proof.
  induction ops as [|op ops IH]; intros s Hs Hr Ho Hnd Hid; [by split|]. cbn [foldl].
  change (op :: ops) with ([op] ++ ops) in Hnd, Hid. rewrite addIDs_app in Hnd, Hid.
  apply NoDup_app in Hnd as (_ & Hdis & Hnd). apply Forall_cons in Ho as [Ho Hos].
  assert (Hop : leads s (runDeferred s op) (applyDeferred (timers s) op)).
  { apply runDeferred_leads; [done|done|done|]. intros id Hin. apply Hid, elem_of_app. by left. }
  eapply leads_trans; [exact Hop|]. destruct Hop as [L1 L2 _ (_ & F2 & _ & _ & F5 & _)]. rewrite <-L2.
  apply IH; [done|congruence|done|done|]. intros id Hin. destruct (Hid id) as [H1 H2]; [apply elem_of_app; by right|].
  rewrite F2. split; [done|]. rewrite L2. destruct op as [id'|id' now delay|id' delay timerType p1 p2 payload h at_];
    cbn [applyDeferred].
  - rewrite lookup_delete. by case_decide.
  - rewrite lookup_alter. case_decide; [subst; by rewrite H2|done].
  - rewrite lookup_insert_ne; [done|]. intros ->. by apply (Hdis id); [left|].
Qed.

Lemma size_due s now : sched_ok s -> (size (due now (timers s)) <= length (th_nodes (sc_heap s)))%nat.
Proof.
  intros Hs. trans (size (timers s)); [apply map_subseteq_size, map_filter_subseteq|].
  unfold timers. rewrite map_size_fmap.
  assert (Hnd : NoDup (map_to_list (sc_byID s)).*2).
  { apply NoDup_fmap_2_strong; [|apply NoDup_map_to_list]. intros [i p] [j q] Hi Hj E. cbn in E. subst q.
    apply elem_of_map_to_list in Hi, Hj. apply (so_byID s Hs) in Hi as [_ <-], Hj as [_ <-]. done. }
  rewrite <-length_map_to_list, <-(length_fmap snd).
  apply submseteq_length, NoDup_submseteq; [done|]. intros p ([i q] & -> & Hin)%list_elem_of_fmap.
  apply elem_of_map_to_list in Hin. by apply (so_byID s Hs) in Hin as [? _].
Qed.

Lemma Tick_spec s now clock answers :
  idle s -> 0 < (if now =? 0 then clock else now) -> script_ok answers -> sc_seed s + script_len answers < 2 ^ 63 ->
  let now' := if now =? 0 then clock else now in
  let '(s', fired, panicked) := Tick s now clock answers in
  let '(m, calls) := settle now' (timers s) fired answers in
  idle s' /\ exactly_due (sc_ownerID s) now' (timers s) fired panicked
  /\ timers s' = foldl applyDeferred m (deferCalls (sc_seed s) calls).1
  /\ (panicked = false -> forall id n, m !! id = Some n -> now' < nd_End n)
  /\ fired.*1 = handlersCalled (sc_handlers s) (firedNodes fired) answers
  /\ sc_handlers s' = foldl registerCall (sc_handlers s) calls
  /\ (forall m0, logged m0 s (timers s) -> logged m0 s' (timers s'))
  /\ sc_seed s' <= sc_seed s + script_len answers /\ sc_onChange s' = sc_onChange s.
Proof.
  intros [H1 H2 H3 H4] Hnow Ha Hlt now'. unfold Tick. fold now'.
  set (s0 := set_running s true (sc_deferred s)).
  assert (Ht : ticking (sc_seed s) s0).
  { split; [by eapply sched_ok_frame|done| |cbn; lia|].
    - intros p Hp. by apply (so_ids s H1).
    - cbn. rewrite H3. split; constructor. }
  destruct (tickLoop_spec (sc_seed s) now' (length (th_nodes (sc_heap s0))) s0 answers Ht Hnow Ha Hlt)
    as (s1 & answers' & fired & panicked & -> & [T1 T2 T3 T4 T5 T6 TC TH [T7 T7'] T8]); [apply size_due, Ht|].
  change (timers s0) with (timers s) in *. change (sc_seed s0) with (sc_seed s) in *.
  change (sc_deferred s0) with (sc_deferred s) in T3. rewrite H3 in T3. cbn [app] in T3.
  change (sc_handlers s0) with (sc_handlers s) in *.
  destruct (settle now' (timers s) fired answers) as [m calls]. cbn [fst snd] in T2, T3, TH.
  set (s2 := set_running s1 false (sc_deferred s1)).
  destruct T1 as [K1 K2 K3 K4 [Q1 Q2 Q3]].
  destruct (runDeferreds_leads (sc_deferred s1) s2) as [L1 L2 L3 (F1 & F2 & F3 & F4 & F5 & F6)].
  - by eapply sched_ok_frame.
  - done.
  - done.
  - done.
  - intros id Hid. rewrite Forall_forall in Q2. specialize (Q2 id Hid). cbn [s2 set_running sc_seed].
    split; [lia|]. change (timers s2) with (timers s1). destruct (timers s1 !! id) as [n|] eqn:Hn; [|done].
    apply timers_Some in Hn as (p & Hp & <- & <-); [|done]. specialize (K3 p Hp).
    change (nd_ID (content (sc_heap s1) p)) with (nd_ID (node s1 p)) in Q2. lia.
  - set (s3 := foldl runDeferred s2 (sc_deferred s1)) in *. change (timers s2) with (timers s1) in *.
    rewrite T2, T3 in L2. split_and!.
    + split; [by eapply sched_ok_frame|exact F5|done|cbn; cbn in F2; lia].
    + exact T6.
    + exact L2.
    + intros Hp id n Hn. apply (T5 Hp id). by rewrite T2.
    + exact TC.
    + change (sc_handlers s3 = foldl registerCall (sc_handlers s) calls). unfold s3. rewrite runDeferred_handlers. exact TH.
    + intros m0 Hm0. specialize (T4 m0 Hm0). specialize (L3 m0 T4).
      change (timers (set_running s3 (sc_running s3) [])) with (timers s3). rewrite L2, <-T2, <-T3. exact L3.
    + cbn. cbn in F2. lia.
    + change (sc_onChange s3 = sc_onChange s). rewrite F4. exact T7'.
Qed.

(** ** Runs *)

Inductive schedEvent :=
  | EvCall (c : schedCall)
  | EvTick (now clock : Z) (answers : script).

Definition schedStep (s : Scheduler) (e : schedEvent) : Scheduler :=
  match e with
  | EvCall c => perform s c
  | EvTick now clock answers => (Tick s now clock answers).1.1
  end.

Definition event_ok (e : schedEvent) : Prop :=
  match e with
  | EvCall c => call_ok c
  | EvTick now clock answers => 0 < (if now =? 0 then clock else now) /\ script_ok answers
  end.

(** The number of timers that an event can create. *)
Definition event_cost (e : schedEvent) : Z :=
  match e with EvCall _ => 1 | EvTick _ _ answers => script_len answers end.

Definition total_cost (es : list schedEvent) : Z := foldr (fun e n => event_cost e + n) 0 es.

Lemma leads_idle s s' m :
  idle s -> leads s s' m ->
  idle s' /\ (forall m0, logged m0 s (timers s) -> logged m0 s' (timers s'))
  /\ sc_seed s' = sc_seed s /\ sc_onChange s' = sc_onChange s.
Proof.
  intros [H1 H2 H3 H4] [L1 L2 L3 (F1 & F2 & F3 & F4 & F5 & F6)].
  split_and!; [split; [done|congruence|congruence|lia]|rewrite L2; done|done|done].
Qed.

Lemma idle_add s delay timerType p1 p2 payload h at_ :
  idle s -> 0 < at_ -> 0 < delay -> sc_seed s + 1 < 2 ^ 63 ->
  let s' := (add s delay timerType p1 p2 payload h at_).1 in
  idle s' /\ (forall m0, logged m0 s (timers s) -> logged m0 s' (timers s'))
  /\ sc_seed s' <= sc_seed s + 1 /\ sc_onChange s' = sc_onChange s.
Proof.
  intros Hi Hat Hd Hlt. unfold add. pose proof Hi as [H1 H2 H3 H4]. rewrite wrapi64_small by lia.
  set (s0 := set_seed s (sc_seed s + 1)). change (sc_running s0) with (sc_running s). rewrite H2. cbn [fst].
  assert (Hi0 : idle s0) by (split; [eapply sched_ok_frame; [exact H1|done|done|cbn; lia]|done|done|cbn; lia]).
  assert (Hnone : timers s0 !! sc_seed s0 = None).
  { change (timers s0) with (timers s). cbn [s0 set_seed sc_seed]. destruct (timers s !! (sc_seed s + 1)) as [n|] eqn:Hn; [|done].
    apply timers_Some in Hn as (p & Hp & <- & E); [|done]. pose proof (so_ids s H1 p Hp).
    change (nd_ID (content (sc_heap s) p)) with (nd_ID (node s p)) in E. lia. }
  assert (Hrange : 0 < sc_seed s0 <= sc_seed s0) by (cbn; lia). assert (Hend : at_ + delay <> 0) by lia.
  destruct (leads_idle s0 _ _ Hi0 (addNode_leads s0 (sc_seed s0) delay timerType p1 p2 payload h at_ (id_ok s0 Hi0)
              Hrange Hnone Hend)) as (A1 & A2 & A3 & A4).
  split_and!; [done|exact A2|rewrite A3; cbn; lia|exact A4].
Qed.

Lemma perform_idle s c :
  idle s -> call_ok c -> sc_seed s + 1 < 2 ^ 63 ->
  idle (perform s c) /\ (forall m0, logged m0 s (timers s) -> logged m0 (perform s c) (timers (perform s c)))
  /\ sc_seed (perform s c) <= sc_seed s + 1 /\ sc_onChange (perform s c) = sc_onChange s.
Proof.
  intros Hi Hc Hlt.
  assert (Hsame : idle s /\ (forall m0, logged m0 s (timers s) -> logged m0 s (timers s))
            /\ sc_seed s <= sc_seed s + 1 /\ sc_onChange s = sc_onChange s) by (split_and!; [done|done|lia|done]).
  assert (Hleads : forall s' m, leads s s' m -> idle s' /\ (forall m0, logged m0 s (timers s) -> logged m0 s' (timers s'))
            /\ sc_seed s' <= sc_seed s + 1 /\ sc_onChange s' = sc_onChange s).
  { intros s' m (L1 & L2 & L3 & L4)%(leads_idle s s' m Hi). split_and!; [done|done|lia|done]. }
  destruct c as [delay timerType p1 p2 payload at_|delay h at_|id|id now delay clock|timerType h]; cbn [perform].
  - unfold NewTimer. destruct (Z.leb_spec delay 0); cbn [orb]; [done|]. destruct (_ =? _); [done|]. by apply idle_add.
  - unfold NewClosureTimer. destruct (Z.leb_spec delay 0); [done|]. by apply idle_add.
  - eapply Hleads, RemoveTimer_leads; apply Hi.
  - destruct (Z.leb_spec delay 0) as [Hle|Hd].
    + unfold ChangeTimer. rewrite (proj2 (Z.leb_le delay 0)) by done. by rewrite orb_true_r.
    + eapply Hleads, ChangeTimer_leads; [apply Hi|apply Hi|done|done].
  - unfold RegisterHandler. destruct (_ =? _); [done|]. destruct Hi as [H1 H2 H3 H4].
    split_and!; [split; [by eapply sched_ok_frame|done|done|done]|done|cbn; lia|done].
Qed.

Lemma schedStep_idle s e :
  idle s -> event_ok e -> sc_seed s + event_cost e < 2 ^ 63 ->
  idle (schedStep s e) /\ (forall m0, logged m0 s (timers s) -> logged m0 (schedStep s e) (timers (schedStep s e)))
  /\ sc_seed (schedStep s e) <= sc_seed s + event_cost e /\ sc_onChange (schedStep s e) = sc_onChange s.
Proof.
  intros Hi He Hlt. destruct e as [c|now clock answers]; [by apply perform_idle|]. cbn [schedStep event_cost] in *.
  destruct He as [He1 He2]. pose proof (Tick_spec s now clock answers Hi He1 He2 Hlt) as Ht. cbv zeta in Ht.
  destruct (Tick s now clock answers) as [[s' fired] panicked]. destruct (settle _ _ _ _) as [m calls]. cbn [fst].
  destruct Ht as (T1 & _ & _ & _ & _ & _ & T2 & T3 & T4). by split_and!.
Qed.

Lemma total_cost_nonneg es : 0 <= total_cost es.
Proof.
  induction es as [|e es IH]; [done|]. change (0 <= event_cost e + total_cost es).
  destruct e as [c|now clock answers]; cbn; [lia|]. pose proof (script_len_nonneg answers). lia.
Qed.

Lemma run_idle es : forall s,
  idle s -> Forall event_ok es -> sc_seed s + total_cost es < 2 ^ 63 ->
  idle (foldl schedStep s es)
  /\ (forall m0, logged m0 s (timers s) -> logged m0 (foldl schedStep s es) (timers (foldl schedStep s es)))
  /\ sc_seed (foldl schedStep s es) <= sc_seed s + total_cost es
  /\ sc_onChange (foldl schedStep s es) = sc_onChange s.
Proof.
  induction es as [|e es IH]; intros s Hi He Hlt; cbn [foldl].
  { split_and!; [done|done|cbn; lia|done]. }
  apply Forall_cons in He as [He Hes]. change (total_cost (e :: es)) with (event_cost e + total_cost es) in *.
  pose proof (total_cost_nonneg es).
  destruct (schedStep_idle s e Hi He) as (S1 & S2 & S3 & S4); [lia|].
  destruct (IH (schedStep s e) S1 Hes) as (I1 & I2 & I3 & I4); [lia|].
  split_and!; [done|intros m0 Hm0; by apply I2, S2|lia|congruence].
Qed.

(** ** Restoring *)

(** The saved nodes that [NewScheduler] takes. *)
Definition accepted (n : Node) : bool := negb ((nd_ID n <=? 0) || (nd_Type n =? TypeClosure) || (nd_End n =? 0)).

Lemma restore_spec saved : forall s,
  idle s -> (forall n, n ∈ saved -> accepted n = true -> timers s !! nd_ID n = None) ->
  NoDup (nd_ID <$> filter (fun n => accepted n = true) saved) ->
  let s' := foldl restoreNode s saved in
  idle s' /\ (forall id n, timers s' !! id = Some n <->
     timers s !! id = Some n \/ exists m, m ∈ saved /\ accepted m = true /\ clone m = n /\ nd_ID m = id)
  /\ sc_changes s' = sc_changes s /\ sc_onChange s' = sc_onChange s
  /\ sc_seed s' = foldl (fun seed n => if accepted n then Z.max seed (nd_ID n) else seed) (sc_seed s) saved.
Proof.
  induction saved as [|n saved IH]; intros s Hi Hnone Hnd.
  { cbn. split_and!; [done| |done|done|done]. intros id n. split; [by left|]. intros [?|(m & Hm & _)]; [done|].
    by apply elem_of_nil in Hm. }
  cbv zeta. cbn [foldl].
  assert (Hbody : restoreNode s n = if accepted n then
            let s0 := if sc_seed s <? nd_ID n then set_seed s (nd_ID n) else s in
            push (alloc s0 (clone n)).1 (alloc s0 (clone n)).2 else s).
  { unfold restoreNode, accepted. cbn. by destruct (_ || _). }
  rewrite Hbody. cbv zeta. clear Hbody. destruct (accepted n) eqn:Hacc; last first.
  { rewrite filter_cons_False in Hnd by (by rewrite Hacc).
    destruct (IH s Hi) as (I1 & I2 & I3 & I4 & I5); [intros m Hm; apply Hnone; by right|done|].
    split_and!; [done| |done|done|done].
    intros id n0. rewrite I2. split; (intros [?|(m & Hm & E1 & E2)]; [by left|right; exists m]).
    - split_and!; [by right|done|apply E2..].
    - apply elem_of_cons in Hm as [-> |Hm]; [congruence|]. split_and!; [done|done|apply E2..]. }
  rewrite filter_cons_True in Hnd by (by rewrite Hacc). cbn [fmap list_fmap] in Hnd.
  apply NoDup_cons in Hnd as [Hnot Hnd].
  set (s0 := if sc_seed s <? nd_ID n then set_seed s (nd_ID n) else s).
  assert (Hs0 : sched_ok s0 /\ timers s0 = timers s /\ sc_seed s0 = Z.max (sc_seed s) (nd_ID n)
            /\ sc_running s0 = false /\ sc_deferred s0 = [] /\ sc_changes s0 = sc_changes s /\ sc_onChange s0 = sc_onChange s).
  { destruct Hi as [H1 H2 H3 H4]. unfold s0. destruct (Z.ltb_spec (sc_seed s) (nd_ID n)).
    - split_and!; try done; [eapply sched_ok_frame; [done|done|done|cbn; lia]|cbn; lia].
    - split_and!; try done. lia. }
  destruct Hs0 as (Z1 & Z2 & Z3 & Z4 & Z5 & Z6 & Z7). clearbody s0.
  destruct (alloc_sched s0 (clone n) Z1) as (A1 & A2 & A3 & A4 & A5).
  assert (A7 : ((alloc s0 (clone n)).2 < length (th_store (sc_heap (alloc s0 (clone n)).1)))%nat).
  { cbn. rewrite length_app. cbn. lia. }
  assert (A8 : th_nodes (sc_heap (alloc s0 (clone n)).1) = th_nodes (sc_heap s0)) by done.
  assert (A9 : sc_changes (alloc s0 (clone n)).1 = sc_changes s0) by done.
  destruct (alloc s0 (clone n)) as [s1 p]. cbn [fst snd] in *.
  destruct A5 as (F1 & F2 & F3 & F4 & F5 & F6).
  assert (Hok : 0 < nd_ID n /\ nd_End n <> 0).
  { unfold accepted in Hacc. destruct (Z.leb_spec (nd_ID n) 0); [done|]. destruct (nd_Type n =? TypeClosure); [done|].
    by destruct (Z.eqb_spec (nd_End n) 0). }
  destruct (push_sched s1 p) as (P1 & P2 & P3 & (G1 & G2 & G3 & G4 & G5 & G6) & P5).
  { done. } { by rewrite A8. } { done. } { rewrite A3. cbn. lia. } { rewrite A3. apply Hok. }
  { apply timers_None; [done|]. rewrite A2, A3, Z2. change (nd_ID (clone n)) with (nd_ID n). apply Hnone; [left|done]. }
  assert (Hc : content (sc_heap s1) p = clone n) by (unfold content; fold (node s1 p); by rewrite A3).
  rewrite A3, Hc, A2, Z2 in P2. change (nd_ID (clone n)) with (nd_ID n) in P2.
  destruct (IH (push s1 p)) as (I1 & I2 & I3 & I4 & I5); [| |done|].
  - split; [done|congruence|congruence|]. destruct Hi. lia.
  - intros m Hm Ham. rewrite P2. rewrite lookup_insert_ne; [apply Hnone; [by right|done]|].
    intros E. apply Hnot. rewrite E. apply list_elem_of_fmap_2, list_elem_of_filter. by rewrite Ham.
  - split_and!; [done| |congruence|congruence|].
    + intros id n0. rewrite I2, P2. rewrite lookup_insert_Some. split.
      * intros [[[E1 E2]|[_ ?]]|(m & Hm & E)]; [right; exists n; split_and!; [left|done|done|done]|by left|].
        right. exists m. split_and!; [by right|apply E..].
      * intros [Hold|(m & [-> |Hm]%elem_of_cons & E1 & E2 & E3)]; [|by left; left|right; by exists m].
        left. right. split; [|done]. intros <-. rewrite Hnone in Hold; [done|left|done].
    + by rewrite I5, G2, F2, Z3.
Qed.

Lemma NewScheduler_spec ownerID seed saved onChange :
  0 <= seed -> NoDup (nd_ID <$> filter (fun n => accepted n = true) saved) ->
  let s := NewScheduler ownerID seed saved onChange in
  idle s
  /\ (forall id n, timers s !! id = Some n <-> exists m, m ∈ saved /\ accepted m = true /\ clone m = n /\ nd_ID m = id)
  /\ logged (timers s) s (timers s) /\ sc_onChange s = onChange.
Proof.
  intros Hseed Hnd s. set (s0 := mkScheduler ownerID seed (mkHeap [] []) ∅ ∅ onChange [] false []).
  assert (Hi : idle s0).
  { split; [split|done|done|done].
    - split; [split|]; cbn; [by intros p ?%elem_of_nil|constructor|by intros i p|]. intros p c _ Hc. lia.
    - intros id p. cbn. rewrite lookup_empty, elem_of_nil. by split; [|intros [? _]].
    - by intros p ?%elem_of_nil.
    - by intros p ?%elem_of_nil. }
  destruct (restore_spec saved s0 Hi) as (R1 & R2 & R3 & R4 & R5); [by intros|done|].
  change (foldl restoreNode s0 saved) with s in *.
  assert (R2' : forall id n, timers s !! id = Some n <-> exists m, m ∈ saved /\ accepted m = true /\ clone m = n /\ nd_ID m = id).
  { intros id n. rewrite R2. change (timers s0) with (∅ : gmap Z Node). rewrite lookup_empty. split; [by intros [?|?]|by right]. }
  split_and!; [done|exact R2'| |done]. intros _. rewrite R3. cbn.
  symmetry. apply map_filter_id. intros id n (m & _ & Hm & <- & _)%R2'. cbn. intros Ht. unfold accepted in Hm.
  rewrite (proj2 (Z.eqb_eq (nd_Type m) TypeClosure)) in Hm by done. by rewrite orb_true_r in Hm.
Qed.

Lemma restore_handlers ownerID seed saved onChange : sc_handlers (NewScheduler ownerID seed saved onChange) = ∅.
Proof.
  unfold NewScheduler. set (s := mkScheduler _ _ _ _ _ _ _ _ _). change ∅ with (sc_handlers s). clearbody s. revert s.
  induction saved as [|n saved IH]; intros s; [done|]. cbn. rewrite IH. unfold restoreNode.
  destruct (_ || _); [done|]. cbn. by destruct (_ <? _).
Qed.

(** ** Properties *)

(** A scheduler is made from saved timers with different identifiers and used with
    positive clock readings; the seed does not overflow. *)
Record well_used (ownerID seed : Z) (saved : list Node) (onChange : bool) (es : list schedEvent) : Prop := {
  wu_seed : 0 <= seed;
  wu_saved : NoDup (nd_ID <$> filter (fun n => accepted n = true) saved);
  wu_events : Forall event_ok es;
  wu_cost : sc_seed (NewScheduler ownerID seed saved onChange) + total_cost es < 2 ^ 63
}.

Lemma well_used_idle ownerID seed saved onChange es :
  well_used ownerID seed saved onChange es ->
  let s0 := NewScheduler ownerID seed saved onChange in
  let s := foldl schedStep s0 es in
  idle s /\ logged (timers s0) s (timers s) /\ sc_onChange s = onChange
  /\ sc_seed s <= sc_seed s0 + total_cost es.
Proof.
  intros [H1 H2 H3 H4] s0 s. destruct (NewScheduler_spec ownerID seed saved onChange H1 H2) as (N1 & _ & N3 & N4).
  destruct (run_idle es s0 N1 H3 H4) as (R1 & R2 & R3 & R4). split_and!; [done|by apply R2|unfold s; rewrite R4; exact N4|done].
Qed.

(** After every sequence of calls and ticks the owner that applies the reported
    changes to the timers the scheduler started with has exactly the persistent
    timers of the scheduler, and [NextTime] is the least end of a timer, or the
    zero time when there is none. *)
Theorem Scheduler_consistent (ownerID seed : Z) (saved : list Node) (onChange : bool) (es : list schedEvent) :
  well_used ownerID seed saved onChange es ->
  let s0 := NewScheduler ownerID seed saved onChange in
  let s := foldl schedStep s0 es in
  (onChange = true -> foldl applyChange (timers s0) (sc_changes s) = persistent (timers s))
  /\ (timers s = ∅ -> NextTime s = 0)
  /\ (timers s <> ∅ -> map_Exists (fun _ n => nd_End n = NextTime s) (timers s)
                       /\ map_Forall (fun _ n => NextTime s <= nd_End n) (timers s)).
Proof.
  intros Hw s0 s. destruct (well_used_idle _ _ _ _ _ Hw) as ([Hok _ _ _] & Hlog & Hon & _).
  split; [intros Ho; apply Hlog; congruence|]. unfold NextTime. destruct (min s) as [p|] eqn:Hp.
  - pose proof (first_timer s p Hok Hp) as Hfirst. split.
    + intros He. fold s0 s in Hfirst. by rewrite He in Hfirst.
    + intros _. split; [by exists (nd_ID (content (sc_heap s) p)), (content (sc_heap s) p)|].
      intros id n Hn. exact (first_least s p id n Hok Hp Hn).
  - split; [done|]. intros Hne. destruct Hne. apply map_empty. intros id. destruct (timers s !! id) as [n|] eqn:Hn; [|done].
    apply timers_Some in Hn as (q & Hq & _); [|done]. unfold min in Hp.
    destruct (th_nodes (sc_heap s)); [by apply elem_of_nil in Hq|done].
Qed.

(** The calls of a run that registered a handler: those of the owner, and those
    that the handlers made in the ticks. *)
Fixpoint callsOf (s : Scheduler) (es : list schedEvent) : list schedCall :=
  match es with
  | [] => []
  | e :: es =>
      match e with
      | EvCall c => [c]
      | EvTick now clock answers =>
          (settle (if now =? 0 then clock else now) (timers s) (Tick s now clock answers).1.2 answers).2
      end ++ callsOf (schedStep s e) es
  end.

Lemma run_handlers es : forall s,
  idle s -> Forall event_ok es -> sc_seed s + total_cost es < 2 ^ 63 ->
  sc_handlers (foldl schedStep s es) = foldl registerCall (sc_handlers s) (callsOf s es).
Proof.
  induction es as [|e es IH]; intros s Hi He Hlt; [done|]. cbn [foldl callsOf].
  apply Forall_cons in He as [He Hes]. change (total_cost (e :: es)) with (event_cost e + total_cost es) in *.
  pose proof (total_cost_nonneg es).
  destruct (schedStep_idle s e Hi He) as (S1 & S2 & S3 & S4); [lia|].
  rewrite (IH (schedStep s e) S1 Hes), foldl_app by lia. f_equal. destruct e as [c|now clock answers]; [apply perform_handlers|].
  destruct He as [He1 He2]. cbn [event_cost] in Hlt. pose proof (Tick_spec s now clock answers Hi He1 He2 ltac:(lia)) as Ht.
  cbv zeta in Ht. cbn [schedStep]. destruct (Tick s now clock answers) as [[s' fired] panicked]. cbn [fst snd].
  destruct (settle _ _ _ _) as [m calls]. apply Ht.
Qed.

(** C31. A tick of a scheduler that was made from saved timers with different
    identifiers and is used with positive clock readings, its seed not
    overflowing ([well_used]), ends, and calls the handlers of exactly the timers
    that are due, each once and in the order of the ends: a closure timer's own handler, otherwise
    the one last registered for the type, by the owner or by a handler called
    before.  A timer whose handler asks for a delay is due again after that
    delay, the other fired ones are gone, the rest is unchanged, and what the
    handlers asked for is done afterwards in the order they asked.  When a
    handler panics its timer is gone, the due timers not yet fired stay, and the
    operations put off are done all the same. *)
Theorem Tick_exact (ownerID seed : Z) (saved : list Node) (onChange : bool) (es : list schedEvent)
    (now clock : Z) (answers : script) :
  well_used ownerID seed saved onChange (es ++ [EvTick now clock answers]) ->
  let s0 := NewScheduler ownerID seed saved onChange in
  let s := foldl schedStep s0 es in
  let now' := if now =? 0 then clock else now in
  let '(s', fired, panicked) := Tick s now clock answers in
  let '(m, calls) := settle now' (timers s) fired answers in
  exactly_due (sc_ownerID s) now' (timers s) fired panicked
  /\ fired.*1 = handlersCalled (foldl registerCall ∅ (callsOf s0 es)) (firedNodes fired) answers
  /\ (panicked = false -> map_Forall (fun _ n => now' < nd_End n) m)
  /\ timers s' = foldl applyDeferred m (deferCalls (sc_seed s) calls).1 /\ sc_running s' = false.
Proof.
  intros [H1 H2 H3 H4]. apply Forall_app in H3 as [H3 H5]. apply Forall_singleton in H5 as [H5 H6].
  assert (Hc : total_cost (es ++ [EvTick now clock answers]) = total_cost es + script_len answers).
  { unfold total_cost. rewrite foldr_app. cbn [foldr event_cost]. rewrite Z.add_0_r. generalize (script_len answers).
    clear. intros k. induction es as [|e es IH]; cbn [foldr]; [done|]. rewrite IH. lia. }
  rewrite Hc in H4. pose proof (script_len_nonneg answers).
  assert (Hw : well_used ownerID seed saved onChange es) by (split; [done|done|done|lia]).
  destruct (well_used_idle _ _ _ _ _ Hw) as (Hi & _ & _ & Hs). cbv zeta.
  destruct (NewScheduler_spec ownerID seed saved onChange H1 H2) as (N1 & _).
  pose proof (run_handlers es (NewScheduler ownerID seed saved onChange) N1 H3 ltac:(lia)) as Hreg.
  assert (Hnone : sc_handlers (NewScheduler ownerID seed saved onChange) = ∅) by apply restore_handlers.
  rewrite Hnone in Hreg.
  assert (Hlt : sc_seed (foldl schedStep (NewScheduler ownerID seed saved onChange) es) + script_len answers < 2 ^ 63) by lia.
  pose proof (Tick_spec _ now clock answers Hi H5 H6 Hlt) as Ht. cbv zeta in Ht.
  destruct (Tick _ now clock answers) as [[s' fired] panicked]. destruct (settle _ _ _ _) as [m calls].
  destruct Ht as (T1 & T2 & T3 & T4 & T5 & _). rewrite <-Hreg. split_and!; try done. apply T1.
Qed.

(** A scheduler made from the nodes of another one has exactly the persistent
    timers of that one. *)
Theorem Scheduler_restore (ownerID seed : Z) (saved : list Node) (onChange : bool) (es : list schedEvent)
    (ownerID' seed' : Z) (onChange' : bool) :
  well_used ownerID seed saved onChange es -> 0 <= seed' ->
  let s := foldl schedStep (NewScheduler ownerID seed saved onChange) es in
  timers (NewScheduler ownerID' seed' (Nodes s) onChange') = persistent (timers s).
Proof.
  intros Hw Hseed s. destruct (well_used_idle _ _ _ _ _ Hw) as ([Hok _ _ _] & _). fold s in Hok.
  assert (Hin : forall n, n ∈ Nodes s <-> (exists p, p ∈ th_nodes (sc_heap s) /\ content (sc_heap s) p = n) /\ nd_Type n <> TypeClosure).
  { intros n. unfold Nodes. rewrite list_elem_of_filter, list_elem_of_fmap. split; [intros (? & p & -> & Hp)|intros ((p & Hp & <-) & ?)].
    - split; [by exists p|done].
    - split; [done|by exists p]. }
  assert (Hacc : forall n, n ∈ Nodes s -> accepted n = true).
  { intros n ((p & Hp & <-) & Ht)%Hin. unfold accepted.
    pose proof (so_ids s Hok p Hp) as [Hid _]. pose proof (so_ends s Hok p Hp) as Hend.
    change (nd_ID (content (sc_heap s) p)) with (nd_ID (node s p)).
    change (nd_End (content (sc_heap s) p)) with (nd_End (node s p)).
    rewrite (proj2 (Z.leb_gt _ _) Hid), (proj2 (Z.eqb_neq _ _) Ht), (proj2 (Z.eqb_neq _ _) Hend). done. }
  destruct (NewScheduler_spec ownerID' seed' (Nodes s) onChange' Hseed) as (_ & N2 & _).
  { apply NoDup_fmap_2_strong.
    - intros a b (_ & Ha)%list_elem_of_filter (_ & Hb)%list_elem_of_filter E.
      apply Hin in Ha as ((p & Hp & <-) & _). apply Hin in Hb as ((q & Hq & <-) & _).
      change (nd_ID (node s p) = nd_ID (node s q)) in E.
      assert (E1 : sc_byID s !! nd_ID (node s p) = Some p) by (by apply (so_byID s Hok)).
      assert (E2 : sc_byID s !! nd_ID (node s q) = Some q) by (by apply (so_byID s Hok)). congruence.
    - apply NoDup_filter, NoDup_filter, NoDup_fmap_2_strong; [|apply (lk_distinct _ (ho_linked _ (so_heap s Hok)))].
      intros p q Hp Hq E. assert (E' : nd_ID (node s p) = nd_ID (node s q)) by (by injection E).
      assert (E1 : sc_byID s !! nd_ID (node s p) = Some p) by (by apply (so_byID s Hok)).
      assert (E2 : sc_byID s !! nd_ID (node s q) = Some q) by (by apply (so_byID s Hok)). congruence. }
  apply map_eq. intros id. apply option_eq. intros n. rewrite N2. unfold persistent. rewrite map_lookup_filter_Some. cbn.
  rewrite (timers_Some s id n Hok). split.
  - intros (m & Hm & _ & <- & <-). apply Hin in Hm as ((p & Hp & <-) & Ht). split; [by exists p|done].
  - intros ((p & Hp & <- & <-) & Ht). exists (content (sc_heap s) p).
    assert (Hm : content (sc_heap s) p ∈ Nodes s) by (apply Hin; split; [by exists p|done]).
    split_and!; [done|by apply Hacc|done|done].
Qed.

(** ** Witnesses *)

Definition sample_saved : list Node :=
  [mkNode 3 5 0 0 [] 200 50 0 None; mkNode 1 5 0 0 [] 100 50 0 None].

Definition sample_events : list schedEvent :=
  [EvCall (CallRegister 5 70); EvCall (CallNew 60 5 0 0 [] 120); EvCall (CallClosure 30 71 120);
   EvTick 160 0 [([CallRemove 3; CallNew 10 5 1 1 [] 161], Some 20); ([], Some 0)]; EvCall (CallChange 4 170 40 0)].

Definition sample_tick : script := [([CallClosure 5 72 300], Some 0)].

Lemma sample_well_used : well_used 9 0 sample_saved true (sample_events ++ [EvTick 300 0 sample_tick]).
Proof.
  split; [done|..|vm_compute; reflexivity].
  - apply (bool_decide_eq_true_1 _). vm_compute. reflexivity.
  - repeat constructor.
Qed.

Lemma sample_well_used_prefix : well_used 9 0 sample_saved true sample_events.
Proof.
  split; [done|..|vm_compute; reflexivity].
  - apply (bool_decide_eq_true_1 _). vm_compute. reflexivity.
  - repeat constructor.
Qed.

Lemma Scheduler_consistent_witness :
  let s0 := NewScheduler 9 0 sample_saved true in
  foldl applyChange (timers s0) (sc_changes (foldl schedStep s0 sample_events))
  = persistent (timers (foldl schedStep s0 sample_events)).
Proof. apply (Scheduler_consistent 9 0 sample_saved true sample_events sample_well_used_prefix). reflexivity. Defined.

(** Three timers are due: a closure timer with its handler 71 and two of type 5
    with the registered handler 70; the second handler panics. *)
Definition sample_panic : script := [([CallClosure 5 72 300], Some 0); ([CallRemove 4], None)].

Lemma Tick_exact_witness :
  let s := foldl schedStep (NewScheduler 9 0 sample_saved true) sample_events in
  let '(s', fired, panicked) := Tick s 300 0 sample_panic in
  let '(m, calls) := settle 300 (timers s) fired sample_panic in
  (nd_ID <$> firedNodes fired, fired.*1, panicked) = ([6; 1], [Some 70; Some 70], true)
  /\ exactly_due (sc_ownerID s) 300 (timers s) fired panicked
  /\ timers s' = foldl applyDeferred m (deferCalls (sc_seed s) calls).1.
Proof.
  assert (Hw : well_used 9 0 sample_saved true (sample_events ++ [EvTick 300 0 sample_panic])).
  { split; [done|..|vm_compute; reflexivity].
    - apply (bool_decide_eq_true_1 _). vm_compute. reflexivity.
    - repeat constructor. }
  pose proof (Tick_exact 9 0 sample_saved true sample_events 300 0 sample_panic Hw) as H.
  cbv zeta in H |- *. change (if 300 =? 0 then 0 else 300) with 300 in H.
  destruct (Tick _ 300 0 sample_panic) as [[s' fired] panicked] eqn:E.
  destruct (settle _ _ _ _) as [m calls]. destruct H as (H1 & _ & _ & H3 & _). refine (conj _ (conj H1 H3)).
  vm_compute in E. injection E as _ <- <-. reflexivity.
Defined.

Lemma Scheduler_restore_witness :
  let s := foldl schedStep (NewScheduler 9 0 sample_saved true) sample_events in
  timers (NewScheduler 9 4 (Nodes s) true) = persistent (timers s).
Proof. apply (Scheduler_restore 9 0 sample_saved true sample_events 9 4 true sample_well_used_prefix). lia. Defined.

(** The timers of the sample that fire last. *)
Example sample_fires :
  nd_ID <$> firedNodes (Tick (foldl schedStep (NewScheduler 9 0 sample_saved true) sample_events) 300 0 sample_tick).1.2
  = [6; 1; 4].
Proof. vm_compute. reflexivity. Qed.

(** A handler that removes another due timer is told that it was removed, and the
    timer fires all the same. *)
Theorem removed_timer_fires :
  let s := RegisterHandler (NewScheduler 9 0 sample_saved false) 5 70 in
  let running := set_running s true [] in
  (RemoveTimer running 3).2 = true
  /\ nd_ID <$> firedNodes (Tick s 300 0 [([CallRemove 3], Some 0)]).1.2 = [1; 3].
Proof. split; vm_compute; reflexivity. Qed.

(** Saved nodes with the same identifier are all scheduled, and only the last one
    can be removed. *)
Theorem duplicate_saved_fires :
  let s := NewScheduler 9 0 [mkNode 1 5 0 0 [] 100 50 0 None; mkNode 1 5 0 0 [] 200 50 0 None] false in
  (RemoveTimer s 1).2 = true /\ (RemoveTimer (RemoveTimer s 1).1 1).2 = false
  /\ nd_ID <$> firedNodes (Tick (RemoveTimer s 1).1 150 0 []).1.2 = [1].
Proof. split_and!; vm_compute; reflexivity. Qed.
