(* ===== verification/RemoteProto.v ===== *)
(** * Remote entities: ownership, versions and commits

    [src/entity/entity_remote.go] keeps the version vector and the ownership state
    of a remote entity in atomics that goroutines update with compare-and-swap
    loops; [src/entity/remote_protocol.go] has the ownership transitions, the
    commits that are sent to the storage of remote entities and their validation.
    Schedules interleave the loads and the swaps of any number of calls. *)

From stdpp Require Import base list gmap strings pretty.
From Stdlib Require Import ZArith Lia Sorting.Sorted.
From Stdlib Require Strings.Byte.
From S2P Require Import Prelude Wire EntityId.

Local Open Scope Z_scope.

Inductive remoteError :=
  | ErrRemoteRejected | ErrRemoteFenced | ErrRemoteVersionConflict | ErrRemoteInvalidStateTransition.

(** ** Ownership *)

Inductive RemoteOwnershipState :=
  | RemoteOwnershipUnknown | RemoteOwnershipLocalOwned | RemoteOwnershipSharing | RemoteOwnershipShared
  | RemoteOwnershipDraining | RemoteOwnershipFenced | RemoteOwnershipRecovering | RemoteOwnershipQuarantined.

#[export] Instance RemoteOwnershipState_eq_dec : EqDecision RemoteOwnershipState.
Proof. solve_decision. Defined.

Definition ValidRemoteOwnershipTransition (from to : RemoteOwnershipState) : bool :=
  if bool_decide (from = to) then true else
  match from, to with
  | RemoteOwnershipUnknown,
      (RemoteOwnershipRecovering | RemoteOwnershipLocalOwned | RemoteOwnershipShared) => true
  | RemoteOwnershipLocalOwned,
      (RemoteOwnershipSharing | RemoteOwnershipDraining | RemoteOwnershipFenced) => true
  | RemoteOwnershipSharing,
      (RemoteOwnershipShared | RemoteOwnershipLocalOwned | RemoteOwnershipFenced) => true
  | RemoteOwnershipShared, (RemoteOwnershipDraining | RemoteOwnershipFenced) => true
  | RemoteOwnershipDraining,
      (RemoteOwnershipLocalOwned | RemoteOwnershipShared | RemoteOwnershipFenced | RemoteOwnershipRecovering) =>
      true
  | RemoteOwnershipFenced, RemoteOwnershipRecovering => true
  | RemoteOwnershipRecovering,
      (RemoteOwnershipLocalOwned | RemoteOwnershipShared | RemoteOwnershipQuarantined | RemoteOwnershipFenced) =>
      true
  | RemoteOwnershipQuarantined, RemoteOwnershipRecovering => true
  | _, _ => false
  end.

(** ** Versions *)

Record RemoteVersionVector := mkVector {
  vv_StateVersion : Z;
  vv_MarkerEpoch : Z;
  vv_LockFence : Z;
  vv_RouteEpoch : Z
}.

Definition ValidateWrite (v base : RemoteVersionVector) : result remoteError unit :=
  _ ← reject_if (negb (vv_MarkerEpoch v =? vv_MarkerEpoch base) || negb (vv_RouteEpoch v =? vv_RouteEpoch base)
                 || (vv_LockFence v <? vv_LockFence base)) ErrRemoteFenced;
  reject_if (negb (vv_StateVersion v =? vv_StateVersion base)) ErrRemoteVersionConflict.

(** The atomics of [RemoteEntityBase]: the version is a pointer to a vector that
    was allocated for it, so a pointer is compared by the number of its
    allocation. *)
Record RemoteEntityBase := mkRemoteBase {
  re_version : nat * RemoteVersionVector;
  re_ownerState : RemoteOwnershipState;
  re_allocated : nat
}.

Definition NewRemoteEntityBase : RemoteEntityBase :=
  mkRemoteBase (O, mkVector 0 1 0 1) RemoteOwnershipUnknown 1.

Definition MaxInt64 : Z := 2 ^ 63 - 1.

Definition EntityVersion (r : RemoteEntityBase) : Z :=
  let version := vv_StateVersion (re_version r).2 in
  if MaxInt64 <? version then MaxInt64 else version.

(** A call of a goroutine. *)
Inductive remoteCall :=
  | CallSetEntityVersion (v : Z)
  | CallSetRemoteVersionVector (version : RemoteVersionVector)
  | CallTransitionRemoteOwnership (to : RemoteOwnershipState).

(** The vector that a call stores, from the one it loaded. *)
Definition SetEntityVersion_next (v : Z) (current : RemoteVersionVector) : RemoteVersionVector :=
  mkVector (if v <? 0 then 0 else v) (vv_MarkerEpoch current) (vv_LockFence current) (vv_RouteEpoch current).

Definition SetRemoteVersionVector_next (version current : RemoteVersionVector)
    : result remoteError RemoteVersionVector :=
  if MaxInt64 <? vv_StateVersion version then Err ErrRemoteVersionConflict
  else if vv_LockFence version <? vv_LockFence current then Err ErrRemoteFenced
  else Ok version.

Definition nextVector (c : remoteCall) (current : RemoteVersionVector) : result remoteError RemoteVersionVector :=
  match c with
  | CallSetEntityVersion v => Ok (SetEntityVersion_next v current)
  | CallSetRemoteVersionVector version => SetRemoteVersionVector_next version current
  | CallTransitionRemoteOwnership _ => Ok current
  end.

(** Where a goroutine is: about to load, about to swap what it computed from the
    loaded value, or done. *)
Inductive remotePc :=
  | RLoad (c : remoteCall)
  | RSwapVersion (c : remoteCall) (current : nat) (next : RemoteVersionVector)
  | RSwapState (from to : RemoteOwnershipState)
  | RDone (r : result remoteError unit).

Definition remoteStep (r : RemoteEntityBase) (pc : remotePc) : RemoteEntityBase * remotePc :=
  match pc with
  | RDone _ => (r, pc)
  | RLoad (CallTransitionRemoteOwnership to) =>
      let from := re_ownerState r in
      if ValidRemoteOwnershipTransition from to then (r, RSwapState from to)
      else (r, RDone (Err ErrRemoteInvalidStateTransition))
  | RLoad c =>
      match nextVector c (re_version r).2 with
      | Ok next => (r, RSwapVersion c (re_version r).1 next)
      | Err e => (r, RDone (Err e))
      end
  | RSwapVersion c current next =>
      if ((re_version r).1 =? current)%nat
      then (mkRemoteBase (re_allocated r, next) (re_ownerState r) (S (re_allocated r)), RDone (Ok tt))
      else (r, RLoad c)
  | RSwapState from to =>
      if bool_decide (re_ownerState r = from)
      then (mkRemoteBase (re_version r) to (re_allocated r), RDone (Ok tt))
      else (r, RLoad (CallTransitionRemoteOwnership to))
  end.

(** ** Commits *)

Record RemoteSnapshotKey := mkSnapshotKey {
  rk_Tenant : Z;
  rk_EntityID : Z;
  rk_Kind : Z;
  rk_Scope : Z;
  rk_Policy : Z
}.

#[export] Instance RemoteSnapshotKey_eq_dec : EqDecision RemoteSnapshotKey.
Proof. solve_decision. Defined.

#[export] Instance RemoteSnapshotKey_countable : Countable RemoteSnapshotKey.
Proof.
  refine (inj_countable' (fun k => (rk_Tenant k, rk_EntityID k, rk_Kind k, rk_Scope k, rk_Policy k))
            (fun '(a, b, c, d, e) => mkSnapshotKey a b c d e) _). by intros [].
Defined.

Definition RemoteSnapshotKey_Valid (reg : Registry) (k : RemoteSnapshotKey) : bool :=
  let meta := ResolveEntityID reg (rk_EntityID k) in
  (em_FullID meta =? rk_EntityID k) && (em_Kind meta =? rk_Kind k) && negb (rk_Kind k =? EntityKindNone).

(** [crc64] with the ECMA polynomial, reflected. *)
Definition crc64_bit (c : Z) : Z :=
  if Z.testbit c 0 then Z.lxor (Z.shiftr c 1) 0xC96C5795D7870F42 else Z.shiftr c 1.

Definition crc64_byte (c : Z) (b : Byte.byte) : Z :=
  Z.lxor (Nat.iter 8 crc64_bit (Z.land (Z.lxor c (byte_val b)) 255)) (Z.shiftr c 8).

Definition RemoteSnapshotChecksum (data : list Byte.byte) : Z :=
  Z.lxor (foldl crc64_byte (2 ^ 64 - 1) data) (2 ^ 64 - 1).

Record RemoteSnapshotRecord := mkSnapshotRecord {
  rs_Key : RemoteSnapshotKey;
  rs_BaseVersion : Z;
  rs_StateVersion : Z;
  rs_MarkerEpoch : Z;
  rs_RouteEpoch : Z;
  rs_Schema : Z;
  rs_Codec : Z;
  rs_Full : bool;
  rs_Data : list Byte.byte;
  rs_Checksum : Z
}.

Record RemoteDataMutation := mkDataMutation {
  rm_Database : string;
  rm_DatabaseScope : Z;
  rm_Collection : string;
  rm_ID : Z;
  rm_Version : Z;
  rm_Mask : Z;
  rm_Data : list Byte.byte
}.

Record RemoteDataDelete := mkDataDelete {
  rd_Database : string;
  rd_DatabaseScope : Z;
  rd_Collection : string;
  rd_ID : Z
}.

Definition RemoteDataDelete_Validate (d : RemoteDataDelete) : result remoteError unit :=
  reject_if (bool_decide (rd_Collection d = "") || (rd_ID d =? 0)) ErrRemoteRejected.

Definition RemoteDataMutation_Validate (m : RemoteDataMutation) : result remoteError unit :=
  reject_if (bool_decide (rm_Collection m = "") || (rm_ID m =? 0) || (rm_Version m =? 0) || (len (rm_Data m) =? 0))
    ErrRemoteRejected.

Record RemoteCommit := mkRemoteCommit {
  rc_TransactionID : list Byte.byte;
  rc_EntityID : Z;
  rc_Kind : Z;
  rc_Delete : bool;
  rc_BaseVersion : Z;
  rc_NextVersion : Z;
  rc_MarkerEpoch : Z;
  rc_LockFence : Z;
  rc_RouteEpoch : Z;
  rc_Schema : Z;
  rc_Codec : Z;
  rc_Mutations : list RemoteDataMutation;
  rc_Deletes : list RemoteDataDelete;
  rc_Snapshots : list RemoteSnapshotRecord;
  rc_Invalidations : list RemoteSnapshotKey;
  rc_Checksum : Z
}.

(** A 16-byte identifier that is all zero. *)
Definition zeroID (id : list Byte.byte) : bool := forallb (fun b => Byte.eqb b Byte.x00) id.

(** The key that [fmt.Sprintf] builds with zero bytes between its parts. *)
Definition nul : string := String (Ascii.ascii_of_nat 0) EmptyString.

Definition documentKey (database : string) (scope : Z) (collection : string) (id : Z) : string :=
  database +:+ nul +:+ pretty scope +:+ nul +:+ collection +:+ nul +:+ pretty id.

Definition mutationDocument (m : RemoteDataMutation) : string :=
  documentKey (rm_Database m) (rm_DatabaseScope m) (rm_Collection m) (rm_ID m).

Definition deleteDocument (d : RemoteDataDelete) : string :=
  documentKey (rd_Database d) (rd_DatabaseScope d) (rd_Collection d) (rd_ID d).

(** The loops of [Validate] over mutations, deletes, snapshots and invalidations,
    with the keys seen so far. *)
Definition checkMutation (c : RemoteCommit) (seen : gset string) (m : RemoteDataMutation)
    : result remoteError (gset string) :=
  _ ← RemoteDataMutation_Validate m;
  _ ← reject_if (negb (rm_ID m =? rc_EntityID c)) ErrRemoteRejected;
  _ ← reject_if (negb (rm_Version m =? rc_NextVersion c)) ErrRemoteVersionConflict;
  _ ← reject_if (bool_decide (mutationDocument m ∈ seen)) ErrRemoteRejected;
  Ok ({[ mutationDocument m ]} ∪ seen).

Definition checkDelete (c : RemoteCommit) (seen : gset string) (d : RemoteDataDelete)
    : result remoteError (gset string) :=
  _ ← reject_if (negb (is_ok (RemoteDataDelete_Validate d)) || negb (rd_ID d =? rc_EntityID c)) ErrRemoteRejected;
  _ ← reject_if (bool_decide (deleteDocument d ∈ seen)) ErrRemoteRejected;
  Ok ({[ deleteDocument d ]} ∪ seen).

Definition checkSnapshot (reg : Registry) (c : RemoteCommit) (seen : gset RemoteSnapshotKey)
    (s : RemoteSnapshotRecord) : result remoteError (gset RemoteSnapshotKey) :=
  _ ← reject_if (negb (RemoteSnapshotKey_Valid reg (rs_Key s)) || negb (rk_EntityID (rs_Key s) =? rc_EntityID c)
        || negb (rk_Kind (rs_Key s) =? rc_Kind c) || negb (rs_BaseVersion s =? rc_BaseVersion c)
        || negb (rs_StateVersion s =? rc_NextVersion c) || negb (rs_MarkerEpoch s =? rc_MarkerEpoch c)
        || negb (rs_RouteEpoch s =? rc_RouteEpoch c) || (rs_Schema s =? 0) || (len (rs_Data s) =? 0))
      ErrRemoteRejected;
  _ ← reject_if (negb (rs_Checksum s =? 0) && negb (RemoteSnapshotChecksum (rs_Data s) =? rs_Checksum s))
      ErrRemoteRejected;
  _ ← reject_if (bool_decide (rs_Key s ∈ seen)) ErrRemoteRejected;
  Ok ({[ rs_Key s ]} ∪ seen).

Definition checkInvalidation (reg : Registry) (c : RemoteCommit) (seen : gset RemoteSnapshotKey)
    (k : RemoteSnapshotKey) : result remoteError (gset RemoteSnapshotKey) :=
  _ ← reject_if (negb (RemoteSnapshotKey_Valid reg k) || negb (rk_EntityID k =? rc_EntityID c)
        || negb (rk_Kind k =? rc_Kind c)) ErrRemoteRejected;
  _ ← reject_if (bool_decide (k ∈ seen)) ErrRemoteRejected;
  Ok ({[ k ]} ∪ seen).

Definition RemoteCommit_Validate (reg : Registry) (c : RemoteCommit) : result remoteError unit :=
  _ ← reject_if (zeroID (rc_TransactionID c) || (rc_EntityID c =? 0) || (rc_Kind c =? EntityKindNone))
      ErrRemoteRejected;
  _ ← reject_if (negb (rc_NextVersion c =? u64! (rc_BaseVersion c + 1))) ErrRemoteVersionConflict;
  _ ← reject_if ((rc_MarkerEpoch c =? 0) || (rc_RouteEpoch c =? 0)) ErrRemoteFenced;
  _ ← reject_if ((len (rc_Mutations c) =? 0) && negb (rc_Delete c)) ErrRemoteRejected;
  _ ← reject_if (rc_Delete c && (negb (len (rc_Mutations c) =? 0) || (len (rc_Deletes c) =? 0))) ErrRemoteRejected;
  _ ← reject_if (negb (rc_Delete c) && negb (len (rc_Deletes c) =? 0)) ErrRemoteRejected;
  documents ← foldM (checkMutation c) ∅ (rc_Mutations c);
  _ ← foldM (checkDelete c) documents (rc_Deletes c);
  keys ← foldM (checkSnapshot reg c) ∅ (rc_Snapshots c);
  _ ← foldM (checkInvalidation reg c) keys (rc_Invalidations c);
  Ok tt.

(** ** Batches *)

Definition IsEntityKindRemoteManaged (reg : Registry) (kind : Z) : bool :=
  match GetEntityKindRemotePolicy reg kind with RemotePolicyManaged => true | _ => false end.

Definition addBatchID (reg : Registry) (acc : list Z) (id : Z) : result remoteError (list Z) :=
  let meta := ResolveEntityID reg id in
  _ ← reject_if ((em_FullID meta =? 0) || (em_Kind meta =? EntityKindNone)
                 || negb (IsEntityKindRemoteManaged reg (em_Kind meta))) ErrRemoteRejected;
  Ok (if bool_decide (em_FullID meta ∈ acc) then acc else acc ++ [em_FullID meta]).

Definition ValidateRemoteWriteBatchIDs (reg : Registry) (ids : list Z) : result remoteError (list Z) :=
  normalized ← foldM (addBatchID reg) [] ids;
  Ok (sort_slice Z.ltb normalized).

(** ** Names of snapshots *)

Definition RemoteSnapshotScope (collection : list Byte.byte) : Z :=
  let scope := foldl fnv_byte fnv_offset collection in if scope =? 0 then 1 else scope.

Definition RemoteSnapshotSchema (kind scope : Z) : Z :=
  let value := Z.lxor (u32! (kind * 0x9e3779b1)) scope in if value =? 0 then 1 else value.

(** ** Linearizability of the atomics *)

(** What a call promises, as one step: setting the version replaces it, a negative
    one by zero, and keeps the other dimensions; setting the vector replaces all
    of it unless the version does not fit or the fence falls; a transition of the
    ownership follows the table of transitions. *)
Definition atomicCall (s : RemoteVersionVector * RemoteOwnershipState) (c : remoteCall)
    : result remoteError (RemoteVersionVector * RemoteOwnershipState) :=
  match c with
  | CallSetEntityVersion v =>
      Ok (mkVector (Z.max 0 v) (vv_MarkerEpoch s.1) (vv_LockFence s.1) (vv_RouteEpoch s.1), s.2)
  | CallSetRemoteVersionVector version =>
      if 2 ^ 63 <=? vv_StateVersion version then Err ErrRemoteVersionConflict
      else if vv_LockFence s.1 <=? vv_LockFence version then Ok (version, s.2)
      else Err ErrRemoteFenced
  | CallTransitionRemoteOwnership to =>
      if ValidRemoteOwnershipTransition s.2 to then Ok (s.1, to) else Err ErrRemoteInvalidStateTransition
  end.

Lemma atomicCall_next s c :
  (forall to, c <> CallTransitionRemoteOwnership to) ->
  atomicCall s c = (next ← nextVector c s.1; Ok (next, s.2)).
Proof.
  intros Hnt. destruct c as [v|version|to]; [| |by destruct (Hnt to)]; cbn.
  - unfold SetEntityVersion_next. destruct (Z.ltb_spec v 0); do 3 f_equal; lia.
  - unfold SetRemoteVersionVector_next, MaxInt64.
    destruct (Z.leb_spec (2 ^ 63) (vv_StateVersion version)), (Z.ltb_spec (2 ^ 63 - 1) (vv_StateVersion version));
      try lia; [done|].
    by destruct (Z.leb_spec (vv_LockFence s.1) (vv_LockFence version)),
      (Z.ltb_spec (vv_LockFence version) (vv_LockFence s.1)); try lia.
Qed.

Record remoteWorld := mkRemoteWorld { rw_base : RemoteEntityBase; rw_pcs : list remotePc }.

Definition remoteTurn (w : remoteWorld) (i : nat) : remoteWorld :=
  match rw_pcs w !! i with
  | None => w
  | Some pc => let '(r, pc) := remoteStep (rw_base w) pc in mkRemoteWorld r (<[i := pc]> (rw_pcs w))
  end.

Definition remoteRun (calls : list remoteCall) (schedule : list nat) : remoteWorld :=
  foldl remoteTurn (mkRemoteWorld NewRemoteEntityBase (RLoad <$> calls)) schedule.

Definition contents (r : RemoteEntityBase) : RemoteVersionVector * RemoteOwnershipState :=
  ((re_version r).2, re_ownerState r).

(** The calls one after the other, each with the result that it gives alone: a
    call that fails changes nothing. *)
Fixpoint oneByOne (calls : list remoteCall) (s : RemoteVersionVector * RemoteOwnershipState)
    (done : list (nat * result remoteError unit)) (s' : RemoteVersionVector * RemoteOwnershipState) : Prop :=
  match done with
  | [] => s' = s
  | (i, r) :: done =>
      exists c, calls !! i = Some c /\
        match atomicCall s c with
        | Ok next => r = Ok tt /\ oneByOne calls next done s'
        | Err e => r = Err e /\ oneByOne calls s done s'
        end
  end.

(** What the turn of a goroutine ends: its call, if it was under way. *)
Definition ends (w : remoteWorld) (i : nat) : list (nat * result remoteError unit) :=
  match rw_pcs w !! i, rw_pcs (remoteTurn w i) !! i with
  | Some (RDone _), _ => []
  | Some _, Some (RDone r) => [(i, r)]
  | _, _ => []
  end.

(** The calls in the order in which they return, with what they return. *)
Fixpoint returnsFrom (w : remoteWorld) (schedule : list nat) : list (nat * result remoteError unit) :=
  match schedule with
  | [] => []
  | i :: schedule => ends w i ++ returnsFrom (remoteTurn w i) schedule
  end.

Definition returns (calls : list remoteCall) (schedule : list nat) : list (nat * result remoteError unit) :=
  returnsFrom (mkRemoteWorld NewRemoteEntityBase (RLoad <$> calls)) schedule.

(** A goroutine works on its call with a value that was current when it loaded. *)
Definition pc_of (r : RemoteEntityBase) (c : remoteCall) (pc : remotePc) : Prop :=
  match pc with
  | RLoad c' => c' = c
  | RSwapVersion c' current next =>
      c' = c /\ (forall to, c <> CallTransitionRemoteOwnership to) /\ (current < re_allocated r)%nat
      /\ ((re_version r).1 = current -> nextVector c (re_version r).2 = Ok next)
  | RSwapState from to => c = CallTransitionRemoteOwnership to /\ ValidRemoteOwnershipTransition from to = true
  | RDone _ => True
  end.

(** Every goroutine works on its call. *)
Record at_work (calls : list remoteCall) (w : remoteWorld) : Prop := {
  aw_pcs : forall i pc, rw_pcs w !! i = Some pc -> exists c, calls !! i = Some c /\ pc_of (rw_base w) c pc;
  aw_pointer : ((re_version (rw_base w)).1 < re_allocated (rw_base w))%nat
}.

(** A turn does nothing to the entity, or ends a call that does there and then
    what it does alone, or ends one that fails there and then. *)
Inductive turn_effect (w : remoteWorld) (i : nat) (c : remoteCall) (r : RemoteEntityBase) (pc : remotePc) : Prop :=
| turn_moves : r = rw_base w -> (forall x, pc <> RDone x) -> turn_effect w i c r pc
| turn_commits : atomicCall (contents (rw_base w)) c = Ok (contents r) -> pc = RDone (Ok tt) -> turn_effect w i c r pc
| turn_fails e : r = rw_base w -> atomicCall (contents (rw_base w)) c = Err e -> pc = RDone (Err e) ->
    turn_effect w i c r pc.

Lemma load_vector w i c :
  (forall to, c <> CallTransitionRemoteOwnership to) -> ((re_version (rw_base w)).1 < re_allocated (rw_base w))%nat ->
  let '(r, pc) := match nextVector c (re_version (rw_base w)).2 with
                  | Ok next => (rw_base w, RSwapVersion c (re_version (rw_base w)).1 next)
                  | Err e => (rw_base w, RDone (Err e))
                  end in
  turn_effect w i c r pc /\ pc_of r c pc /\ r = rw_base w.
Proof.
  intros Hnt Hp. destruct (nextVector c _) as [next|e] eqn:Hn; split_and!; try done.
  - by apply turn_moves.
  - apply (turn_fails _ _ _ _ _ e); [done| |done].
    rewrite atomicCall_next by done. cbn [contents fst snd]. by rewrite Hn.
Qed.

Lemma step_effect calls w i pc c :
  at_work calls w -> rw_pcs w !! i = Some pc -> calls !! i = Some c -> pc_of (rw_base w) c pc ->
  (forall x, pc <> RDone x) ->
  let '(r, pc') := remoteStep (rw_base w) pc in
  turn_effect w i c r pc' /\ pc_of r c pc' /\ ((re_version r).1 < re_allocated r)%nat
  /\ (forall c0 pc0, pc_of (rw_base w) c0 pc0 -> pc_of r c0 pc0).
Proof.
  intros [Hpcs Hp] Hi Hc Hpc Hne. destruct pc as [c'|c' current next|from to|x]; [..|by destruct (Hne x)]; cbn in Hpc.
  - subst c'. destruct c as [v|version|to]; cbn [remoteStep].
    1-2: match goal with |- context [nextVector ?c _] => pose proof (load_vector w i c) as H end;
      destruct (nextVector _ _); destruct H as (H1 & H2 & _); try done; by split_and!.
    destruct (ValidRemoteOwnershipTransition (re_ownerState (rw_base w)) to) eqn:Hv; split_and!; try done.
    + by apply turn_moves.
    + eapply turn_fails; [done| |done]. cbn. by rewrite Hv.
  - destruct Hpc as (-> & Hnt & Hlt & Hn). cbn [remoteStep].
    destruct (Nat.eqb_spec (re_version (rw_base w)).1 current) as [E|E]; split_and!; try done; [| | |by apply turn_moves].
    + apply turn_commits; [|done]. rewrite atomicCall_next by done.
      cbn [contents fst snd re_version re_ownerState]. by rewrite (Hn E).
    + cbn. lia.
    + intros c0 [c1|c1 cur1 next1|from1 to1|x1]; cbn; try done. intros (-> & Hnt' & Hlt' & Hn').
      split_and!; [done|done|lia|]. intros Hcur. lia.
  - destruct Hpc as [-> Hv]. cbn [remoteStep].
    destruct (bool_decide_reflect (re_ownerState (rw_base w) = from)) as [E|E].
    + split; [|split; [done|split; [done|]]].
      * apply turn_commits; [|done]. unfold contents. cbn. by rewrite E, Hv.
      * intros c0 [c1|c1 cur1 next1|from1 to1|x1]; by cbn.
    + split_and!; [by apply turn_moves|done..].
Qed.

Lemma at_work_turn calls w i :
  at_work calls w ->
  at_work calls (remoteTurn w i)
  /\ (forall done s', oneByOne calls (contents (rw_base (remoteTurn w i))) done s' ->
        oneByOne calls (contents (rw_base w)) (ends w i ++ done) s').
Proof.
  intros Hw. unfold ends, remoteTurn. destruct (rw_pcs w !! i) as [pc|] eqn:Hi; [|done].
  destruct (aw_pcs calls w Hw i pc Hi) as (c & Hc & Hpc).
  assert (Hdone : (exists x, pc = RDone x) \/ forall x, pc <> RDone x) by (destruct pc; [right..|left]; eauto; done).
  destruct Hdone as [[x ->]|Hne].
  { cbn [remoteStep]. rewrite list_insert_id by done. by destruct w. }
  pose proof (step_effect calls w i pc c Hw Hi Hc Hpc Hne) as H.
  destruct (remoteStep (rw_base w) pc) as [r pc'] eqn:Hs. destruct H as (He & Hpc' & Hp & Hkeep).
  cbn [rw_pcs rw_base]. rewrite list_lookup_insert_eq by (by eapply lookup_lt_Some). split.
  - split; cbn; [|done]. intros j pcj [(<- & <- & _)|[_ Hj]]%list_lookup_insert_Some; [by exists c|].
    destruct (aw_pcs calls w Hw j pcj Hj) as (cj & Hcj & Hpcj). eauto.
  - intros done s' Hd. destruct He as [-> Hn|Ha ->|e -> Ha ->].
    + destruct pc', pc; naive_solver.
    + assert (E : forall (l : list (nat * result remoteError unit)), match pc with RDone _ => [] | _ => l end = l)
        by (intros l; destruct pc; naive_solver).
      rewrite E. cbn. exists c. by rewrite Ha.
    + assert (E : forall (l : list (nat * result remoteError unit)), match pc with RDone _ => [] | _ => l end = l)
        by (intros l; destruct pc; naive_solver).
      rewrite E. cbn. exists c. by rewrite Ha.
Qed.

Lemma at_work_start calls : at_work calls (mkRemoteWorld NewRemoteEntityBase (RLoad <$> calls)).
Proof. split; cbn; [|lia]. intros i pc (c & -> & Hc)%list_lookup_fmap_Some. by exists c. Qed.

Lemma at_work_run calls w schedule : at_work calls w -> at_work calls (foldl remoteTurn w schedule).
Proof. revert w. induction schedule as [|i schedule IH]; intros w Hw; [done|]. cbn. by apply IH, at_work_turn. Qed.

Lemma returns_explain calls w schedule :
  at_work calls w ->
  oneByOne calls (contents (rw_base w)) (returnsFrom w schedule) (contents (rw_base (foldl remoteTurn w schedule))).
Proof.
  revert w. induction schedule as [|i schedule IH]; intros w Hw; [done|]. cbn.
  apply (at_work_turn calls w i Hw). by apply IH, at_work_turn.
Qed.

Lemma returnsFrom_app w early later :
  returnsFrom w (early ++ later) = returnsFrom w early ++ returnsFrom (foldl remoteTurn w early) later.
Proof. revert w. induction early as [|i early IH]; intros w; [done|]. cbn. by rewrite IH, app_assoc. Qed.

(** A call returns once, and what has returned stays. *)
Lemma turn_done w i j x : rw_pcs w !! j = Some (RDone x) -> rw_pcs (remoteTurn w i) !! j = Some (RDone x).
Proof.
  intros Hj. unfold remoteTurn. destruct (rw_pcs w !! i) as [pc|] eqn:Hi; [|done].
  destruct (decide (i = j)) as [->|Hij].
  - rewrite Hi in Hj. injection Hj as ->. cbn. by rewrite list_lookup_insert_eq by (by eapply lookup_lt_Some).
  - destruct (remoteStep (rw_base w) pc) as [r pc']. cbn. by rewrite list_lookup_insert_ne.
Qed.

Lemma turn_other w i j : i <> j -> rw_pcs (remoteTurn w i) !! j = rw_pcs w !! j.
Proof.
  intros Hij. unfold remoteTurn. destruct (rw_pcs w !! i) as [pc|]; [|done].
  destruct (remoteStep (rw_base w) pc) as [r pc']. cbn. by rewrite list_lookup_insert_ne.
Qed.

Lemma elem_of_ends w i j x :
  (j, x) ∈ ends w i <-> rw_pcs (remoteTurn w i) !! j = Some (RDone x) /\ (forall y, rw_pcs w !! j <> Some (RDone y)).
Proof.
  destruct (decide (i = j)) as [<-|Hij].
  - unfold ends. destruct (rw_pcs w !! i) as [pc|] eqn:Hi.
    + destruct (rw_pcs (remoteTurn w i) !! i) as [[]|] eqn:Hj; destruct pc; set_solver.
    + unfold remoteTurn. rewrite !Hi. set_solver.
  - rewrite turn_other by done. split; [|naive_solver]. unfold ends.
    destruct (rw_pcs w !! i) as [[]|]; destruct (rw_pcs (remoteTurn w i) !! i) as [[]|]; set_solver.
Qed.

Lemma elem_of_returnsFrom w schedule j x :
  (j, x) ∈ returnsFrom w schedule
  <-> rw_pcs (foldl remoteTurn w schedule) !! j = Some (RDone x) /\ (forall y, rw_pcs w !! j <> Some (RDone y)).
Proof.
  revert w. induction schedule as [|i schedule IH]; intros w; cbn.
  - rewrite elem_of_nil. naive_solver.
  - assert (Hstay : forall s w0 y, rw_pcs w0 !! j = Some (RDone y) -> rw_pcs (foldl remoteTurn w0 s) !! j = Some (RDone y)).
    { induction s as [|k s IHs]; intros w0 y Hy; [done|]. cbn. by apply IHs, turn_done. }
    rewrite elem_of_app, elem_of_ends, IH. split.
    + intros [[H1 H2]|[H1 H2]]; [split; [by apply Hstay|done]|split; [done|]]. intros y Hy. by eapply H2, turn_done.
    + intros [H1 H2].
      assert (Hd : (exists y, rw_pcs (remoteTurn w i) !! j = Some (RDone y))
                   \/ forall y, rw_pcs (remoteTurn w i) !! j <> Some (RDone y)).
      { destruct (rw_pcs (remoteTurn w i) !! j) as [[]|]; [right..|left|right]; naive_solver. }
      destruct Hd as [[y Hy]|Hn]; [left|by right]. split; [|done]. rewrite (Hstay _ _ _ Hy) in H1. congruence.
Qed.

Lemma returnsFrom_once w schedule : NoDup (returnsFrom w schedule).*1.
Proof.
  revert w. induction schedule as [|i schedule IH]; intros w; cbn; [constructor|].
  rewrite fmap_app. apply NoDup_app. split_and!; [| |apply IH].
  - unfold ends. destruct (rw_pcs w !! i) as [[]|]; destruct (rw_pcs (remoteTurn w i) !! i) as [[]|];
      cbn; first [apply NoDup_nil_2|apply NoDup_singleton].
  - intros j ([j1 x] & -> & H1)%list_elem_of_fmap ([j2 y] & E & H2)%list_elem_of_fmap. cbn in E. subst j2.
    apply elem_of_ends in H1 as [H1 _]. apply elem_of_returnsFrom in H2 as [_ H2]. by destruct (H2 x).
Qed.

(** The fence of the vector never falls. *)
Lemma atomicCall_fence s c s' : atomicCall s c = Ok s' -> vv_LockFence s.1 <= vv_LockFence s'.1.
Proof.
  destruct c as [v|version|to]; cbn.
  - intros [= <-]. done.
  - destruct (2 ^ 63 <=? _); [done|].
    destruct (Z.leb_spec (vv_LockFence s.1) (vv_LockFence version)); [|done].
    intros [= <-]. cbn. lia.
  - destruct (ValidRemoteOwnershipTransition _ _); [|done]. intros [= <-]. done.
Qed.

Lemma oneByOne_fence calls done s s' : oneByOne calls s done s' -> vv_LockFence s.1 <= vv_LockFence s'.1.
Proof.
  revert s. induction done as [|[i r] done IH]; intros s; cbn; [by intros ->|]. intros (c & Hc & H).
  destruct (atomicCall s c) as [next|e] eqn:Ha; destruct H as [_ H]; apply IH in H; [|done].
  apply atomicCall_fence in Ha. lia.
Qed.

(** ** Validation of commits *)

Section CheckFold.
Context {A K : Type} `{Countable K} (P : A -> Prop) (key : A -> K) (f : gset K -> A -> result remoteError (gset K)).
Context (Hf : forall seen x seen', f seen x = Ok seen' <-> P x /\ (key x ∉ seen) /\ seen' = {[ key x ]} ∪ seen).

Lemma check_fold l : forall seen seen',
  foldM f seen l = Ok seen' <->
  Forall P l /\ NoDup (key <$> l) /\ (forall x, x ∈ l -> key x ∉ seen) /\ seen' = list_to_set (key <$> l) ∪ seen.
Proof.
  induction l as [|x l IH]; intros seen seen'; cbn [foldM].
  - cbn. rewrite union_empty_l_L. split.
    + intros [= <-]. split_and!; [constructor|constructor|by intros x ?%elem_of_nil|done].
    + by intros (_ & _ & _ & ->).
  - cbn [fmap list_fmap list_to_set foldr]. rewrite Forall_cons, NoDup_cons. split.
    + destruct (f seen x) as [s1|e] eqn:E; [|done]. apply Hf in E as (E1 & E2 & ->). cbn. intros (I1 & I2 & I3 & ->)%IH.
      assert (Hx : key x ∉ key <$> l).
      { intros (y & Ey & Hy)%list_elem_of_fmap. apply (I3 y Hy). rewrite Ey. set_solver. }
      split_and!; [done|done|done|done| |set_solver].
      intros y [-> |Hy]%elem_of_cons; [done|]. specialize (I3 y Hy). set_solver.
    + intros ([P1 P2] & [N1 N2] & Hs & ->).
      assert (E : f seen x = Ok ({[ key x ]} ∪ seen)) by (apply Hf; split_and!; [done|apply Hs; left|done]).
      rewrite E. cbn. apply IH. split_and!; [done|done| |set_solver].
      intros y Hy. rewrite not_elem_of_union, not_elem_of_singleton. split; [|apply Hs; by right].
      intros Ey. apply N1. rewrite <-Ey. by apply list_elem_of_fmap_2.
Qed.

End CheckFold.

Record mutation_ok (c : RemoteCommit) (m : RemoteDataMutation) : Prop := {
  mo_named : rm_Collection m <> ""%string;
  mo_entity : rm_ID m = rc_EntityID c /\ rm_ID m <> 0;
  mo_version : rm_Version m = rc_NextVersion c /\ rm_Version m <> 0;
  mo_data : rm_Data m <> []
}.

Record delete_ok (c : RemoteCommit) (d : RemoteDataDelete) : Prop := {
  do_named : rd_Collection d <> ""%string;
  do_entity : rd_ID d = rc_EntityID c /\ rd_ID d <> 0
}.

Record key_ok (reg : Registry) (c : RemoteCommit) (k : RemoteSnapshotKey) : Prop := {
  ko_valid : RemoteSnapshotKey_Valid reg k = true;
  ko_entity : rk_EntityID k = rc_EntityID c;
  ko_kind : rk_Kind k = rc_Kind c
}.

Record snapshot_ok (reg : Registry) (c : RemoteCommit) (s : RemoteSnapshotRecord) : Prop := {
  sn_key : key_ok reg c (rs_Key s);
  sn_versions : rs_BaseVersion s = rc_BaseVersion c /\ rs_StateVersion s = rc_NextVersion c;
  sn_epochs : rs_MarkerEpoch s = rc_MarkerEpoch c /\ rs_RouteEpoch s = rc_RouteEpoch c;
  sn_payload : rs_Schema s <> 0 /\ rs_Data s <> [];
  sn_checksum : rs_Checksum s <> 0 -> RemoteSnapshotChecksum (rs_Data s) = rs_Checksum s
}.

(** A commit writes or deletes documents of one entity, each once, for the next
    version, with snapshots of that version. *)
Record commit_ok (reg : Registry) (c : RemoteCommit) : Prop := {
  co_identity : zeroID (rc_TransactionID c) = false /\ rc_EntityID c <> 0 /\ rc_Kind c <> EntityKindNone;
  co_version : rc_NextVersion c = u64! (rc_BaseVersion c + 1);
  co_epochs : rc_MarkerEpoch c <> 0 /\ rc_RouteEpoch c <> 0;
  co_shape : if rc_Delete c then rc_Mutations c = [] /\ rc_Deletes c <> [] else rc_Mutations c <> [] /\ rc_Deletes c = [];
  co_mutations : Forall (mutation_ok c) (rc_Mutations c);
  co_deletes : Forall (delete_ok c) (rc_Deletes c);
  co_documents : NoDup ((mutationDocument <$> rc_Mutations c) ++ (deleteDocument <$> rc_Deletes c));
  co_snapshots : Forall (snapshot_ok reg c) (rc_Snapshots c);
  co_invalidations : Forall (key_ok reg c) (rc_Invalidations c);
  co_keys : NoDup ((rs_Key <$> rc_Snapshots c) ++ rc_Invalidations c)
}.

Lemma bool_decide_notin {A} `{Countable A} (x : A) (s : gset A) : bool_decide (x ∈ s) = false <-> x ∉ s.
Proof. apply bool_decide_eq_false. Qed.

Lemma len_zero {A} (l : list A) : (len l =? 0) = false <-> l <> [].
Proof. unfold len. rewrite Z.eqb_neq. destruct l; cbn; split; try done; lia. Qed.

Lemma len_zero_true {A} (l : list A) : (len l =? 0) = true <-> l = [].
Proof. unfold len. rewrite Z.eqb_eq. destruct l; cbn; split; try done; lia. Qed.

Lemma checkMutation_Ok c seen m seen' :
  checkMutation c seen m = Ok seen' <-> mutation_ok c m /\ (mutationDocument m ∉ seen) /\ seen' = {[ mutationDocument m ]} ∪ seen.
Proof.
  unfold checkMutation, RemoteDataMutation_Validate. rewrite !reject_bind, !orb_false_iff.
  rewrite len_zero, !negb_false_iff, bool_decide_notin, bool_decide_eq_false, !Z.eqb_neq, !Z.eqb_eq. split.
  - intros ([[[? ?] ?] ?] & ? & ? & ? & [= <-]). by split_and!.
  - intros ([? [? ?] [? ?] ?] & ? & ->). split_and!; done.
Qed.

Lemma checkDelete_Ok c seen d seen' :
  checkDelete c seen d = Ok seen' <-> delete_ok c d /\ (deleteDocument d ∉ seen) /\ seen' = {[ deleteDocument d ]} ∪ seen.
Proof.
  unfold checkDelete, RemoteDataDelete_Validate. rewrite !reject_bind, orb_false_iff, !negb_false_iff, bool_decide_notin.
  assert (E : is_ok (reject_if (bool_decide (rd_Collection d = ""%string) || (rd_ID d =? 0)) ErrRemoteRejected) = true
              <-> rd_Collection d <> ""%string /\ rd_ID d <> 0).
  { destruct (bool_decide_reflect (rd_Collection d = ""%string)), (Z.eqb_spec (rd_ID d) 0); cbn; naive_solver. }
  rewrite E, Z.eqb_eq. split.
  - intros ([[? ?] ?] & ? & [= <-]). by split_and!.
  - intros ([? [? ?]] & ? & ->). by split_and!.
Qed.

Lemma checkInvalidation_Ok reg c seen k seen' :
  checkInvalidation reg c seen k = Ok seen' <-> key_ok reg c k /\ (k ∉ seen) /\ seen' = {[ k ]} ∪ seen.
Proof.
  unfold checkInvalidation. rewrite !reject_bind, !orb_false_iff, !negb_false_iff, bool_decide_notin, !Z.eqb_eq. split.
  - intros ([[? ?] ?] & ? & [= <-]). by split_and!.
  - intros ([? ? ?] & ? & ->). by split_and!.
Qed.

Lemma checkSnapshot_Ok reg c seen s seen' :
  checkSnapshot reg c seen s = Ok seen' <-> snapshot_ok reg c s /\ (rs_Key s ∉ seen) /\ seen' = {[ rs_Key s ]} ∪ seen.
Proof.
  unfold checkSnapshot. rewrite !reject_bind, !orb_false_iff, andb_false_iff, len_zero, !negb_false_iff, bool_decide_notin,
    !Z.eqb_neq, !Z.eqb_eq. split.
  - intros ([[[[[[[[? ?] ?] ?] ?] ?] ?] ?] ?] & Hsum & ? & [= <-]). split_and!; [|done|done].
    split; [by split|done|done|done|]. intros Hne. by destruct Hsum.
  - intros ([[? ? ?] [? ?] [? ?] [? ?] Hsum] & ? & ->). split_and!; try done.
    destruct (decide (rs_Checksum s = 0)) as [E|E]; [by left|right; by apply Hsum].
Qed.

Lemma shape_iff (c : RemoteCommit) :
  ((len (rc_Mutations c) =? 0) && negb (rc_Delete c) = false
   /\ rc_Delete c && (negb (len (rc_Mutations c) =? 0) || (len (rc_Deletes c) =? 0)) = false
   /\ negb (rc_Delete c) && negb (len (rc_Deletes c) =? 0) = false)
  <-> if rc_Delete c then rc_Mutations c = [] /\ rc_Deletes c <> [] else rc_Mutations c <> [] /\ rc_Deletes c = [].
Proof.
  destruct (rc_Delete c); cbn [negb andb]; rewrite ?andb_false_r, ?andb_true_r, ?orb_false_iff, ?negb_false_iff,
    ?len_zero, ?len_zero_true; tauto.
Qed.

Lemma NoDup_fmap_app {A B K} (f : A -> K) (g : B -> K) (l : list A) (k : list B) :
  NoDup ((f <$> l) ++ (g <$> k)) <->
  NoDup (f <$> l) /\ NoDup (g <$> k) /\ forall y, y ∈ k -> g y ∉ (f <$> l).
Proof.
  rewrite NoDup_app. split; intros (H1 & H2 & H3); split_and!; try done.
  - intros y Hy Hin. apply (H2 _ Hin). by apply list_elem_of_fmap_2.
  - intros x Hx (y & -> & Hy)%list_elem_of_fmap. by apply (H3 y Hy).
Qed.

Lemma RemoteCommit_Validate_spec reg c : RemoteCommit_Validate reg c = Ok tt <-> commit_ok reg c.
Proof.
  pose proof (check_fold (mutation_ok c) mutationDocument _ (checkMutation_Ok c) (rc_Mutations c)) as Hm.
  pose proof (check_fold (delete_ok c) deleteDocument _ (checkDelete_Ok c) (rc_Deletes c)) as Hd.
  pose proof (check_fold (snapshot_ok reg c) rs_Key _ (checkSnapshot_Ok reg c) (rc_Snapshots c)) as Hs.
  pose proof (check_fold (key_ok reg c) (fun k => k) _ (checkInvalidation_Ok reg c) (rc_Invalidations c)) as Hi.
  pose proof (shape_iff c) as Hshape. rewrite list_fmap_id in Hi.
  unfold RemoteCommit_Validate. rewrite !reject_bind, !orb_false_iff, negb_false_iff, Z.eqb_eq, !Z.eqb_neq. split.
  - intros ([[A1 A2] A3] & A4 & [A5 A6] & B1 & B2 & B3 & (docs & D1 & H)%bind_ok).
    apply bind_ok in H as (docs' & D2 & H). apply bind_ok in H as (keys & D3 & H). apply bind_ok in H as (keys' & D4 & _).
    apply Hm in D1 as (M1 & M2 & _ & ->). apply Hd in D2 as (E1 & E2 & E3 & _).
    apply Hs in D3 as (S1 & S2 & _ & ->). apply Hi in D4 as (I1 & I2 & I3 & _).
    split; try done; [by apply Hshape| |].
    + apply NoDup_fmap_app. split_and!; [done|done|]. intros y Hy Hin. apply (E3 y Hy). set_solver.
    + rewrite <-(list_fmap_id (rc_Invalidations c)). apply NoDup_fmap_app. rewrite list_fmap_id.
      split_and!; [done|done|]. intros y Hy Hin. apply (I3 y Hy). set_solver.
  - intros [(A1 & A2 & A3) A4 [A5 A6] B C1 C2 C3 C4 C5 C6]. apply Hshape in B as (B1 & B2 & B3).
    apply NoDup_fmap_app in C3 as (N1 & N2 & N3).
    rewrite <-(list_fmap_id (rc_Invalidations c)) in C6. apply NoDup_fmap_app in C6 as (N4 & N5 & N6). rewrite list_fmap_id in N5.
    split_and!; try done. apply bind_ok. eexists. split; [apply Hm; split_and!; [done|done|set_solver|done]|].
    apply bind_ok. eexists. split; [apply Hd; split_and!; [done|done| |done]|].
    { intros y Hy. specialize (N3 y Hy). set_solver. }
    apply bind_ok. eexists. split; [apply Hs; split_and!; [done|done|set_solver|done]|].
    apply bind_ok. eexists. split; [apply Hi; split_and!; [done|done| |done]|done].
    intros y Hy. specialize (N6 y Hy). set_solver.
Qed.

Lemma addBatchIDs_spec reg ids : forall acc out,
  foldM (addBatchID reg) acc ids = Ok out -> NoDup acc ->
  NoDup out /\ (forall id, id ∈ out <-> id ∈ acc \/ exists x, x ∈ ids /\ id = em_FullID (ResolveEntityID reg x))
  /\ Forall (fun x => em_Kind (ResolveEntityID reg x) <> EntityKindNone
                      /\ IsEntityKindRemoteManaged reg (em_Kind (ResolveEntityID reg x)) = true) ids.
Proof.
  induction ids as [|x ids IH]; intros acc out; cbn [foldM].
  - intros [= <-] Hnd. split_and!; [done| |constructor]. intros id. split; [by left|]. intros [?|(y & Hy & _)]; [done|].
    by apply elem_of_nil in Hy.
  - intros (acc' & Ha & H)%bind_ok Hnd. unfold addBatchID in Ha. cbv zeta in Ha. apply reject_bind in Ha as [Hrej [= <-]].
    rewrite !orb_false_iff, negb_false_iff, !Z.eqb_neq in Hrej. destruct Hrej as [[R1 R2] R3].
    apply IH in H as (I1 & I2 & I3).
    + split_and!; [done| |by constructor]. intros id. rewrite I2. setoid_rewrite elem_of_cons.
      case_bool_decide as E; [|rewrite elem_of_app, list_elem_of_singleton]; split.
      * intros [?|(y & Hy & ->)]; [by left|right; exists y; by split; [right|]].
      * intros [?|(y & [-> |Hy] & ->)]; [by left|by left|right; by exists y].
      * intros [[?| ->]|(y & Hy & ->)]; [by left|right; exists x; by split; [left|]|right; exists y; by split; [right|]].
      * intros [?|(y & [-> |Hy] & ->)]; [by left; left|by left; right|right; by exists y].
    + case_bool_decide as E; [done|]. apply NoDup_app. split_and!; [done| |apply NoDup_singleton].
      intros y Hy ->%list_elem_of_singleton. done.
Qed.

#[local] Instance ltb_strict_weak : StrictWeak Z.ltb.
Proof. split; intros *; rewrite ?Z.ltb_irrefl, ?Z.ltb_lt, ?Z.ltb_ge; lia || done. Qed.

Lemma sorted_distinct (l : list Z) :
  StronglySorted (fun a b => (b <? a) = false) l -> NoDup l -> StronglySorted Z.lt l.
Proof.
  induction 1 as [|x l Hs IH Hall]; intros Hnd; [constructor|]. apply NoDup_cons in Hnd as [Hx Hnd].
  constructor; [by apply IH|]. rewrite Forall_forall in Hall |- *. intros y Hy. specialize (Hall y Hy).
  apply Z.ltb_ge in Hall. assert (x <> y) by (by intros ->). lia.
Qed.

(** ** Properties *)

(** C40. The version and the ownership of a remote entity are linearizable: however
    goroutines interleave, taking the calls that returned one after the other in
    the order in which they returned, each doing what it promises
    ([atomicCall]), gives every call the result it returned, an
    error included, and leads to the present vector and state.  Every call that
    returned is in this order once; the order only grows at its end, so a call
    that returned before another one began comes first; and the lock fence never
    falls. *)
Theorem remote_base_linearizable (calls : list remoteCall) (schedule later : list nat) :
  let w := remoteRun calls schedule in
  oneByOne calls (contents NewRemoteEntityBase) (returns calls schedule) (contents (rw_base w))
  /\ NoDup (returns calls schedule).*1
  /\ (forall i r, (i, r) ∈ returns calls schedule <-> rw_pcs w !! i = Some (RDone r))
  /\ returns calls schedule `prefix_of` returns calls (schedule ++ later)
  /\ vv_LockFence (re_version (rw_base w)).2
     <= vv_LockFence (re_version (rw_base (remoteRun calls (schedule ++ later)))).2.
Proof.
  intros w. pose proof (at_work_start calls) as H0. split_and!.
  - exact (returns_explain calls _ schedule H0).
  - apply returnsFrom_once.
  - intros i r. unfold returns. rewrite elem_of_returnsFrom. split; [by intros [? _]|intros H; split; [exact H|]].
    intros y (c & ? & _)%list_lookup_fmap_Some. done.
  - unfold returns. rewrite returnsFrom_app. by eexists.
  - unfold w, remoteRun. rewrite foldl_app.
    exact (oneByOne_fence calls _ _ _ (returns_explain calls _ later (at_work_run calls _ schedule H0))).
Qed.

(** Validation accepts exactly the commits that write or delete documents of one
    entity, each once and for the next version, with snapshots of that version
    and of that entity. *)
Theorem RemoteCommit_Validate_exact (reg : Registry) (c : RemoteCommit) :
  RemoteCommit_Validate reg c = Ok tt <-> commit_ok reg c.
Proof. apply RemoteCommit_Validate_spec. Qed.

(** The identifiers of a batch of remote writes are the normal forms of the
    given ones, each once and in increasing order, so that batches take locks in
    one order. *)
Theorem ValidateRemoteWriteBatchIDs_sorted (reg : Registry) (ids out : list Z) :
  ValidateRemoteWriteBatchIDs reg ids = Ok out ->
  StronglySorted Z.lt out
  /\ (forall id, id ∈ out <-> exists x, x ∈ ids /\ id = em_FullID (ResolveEntityID reg x))
  /\ Forall (fun x => IsEntityKindRemoteManaged reg (em_Kind (ResolveEntityID reg x)) = true) ids.
Proof.
  unfold ValidateRemoteWriteBatchIDs. intros (l & Hl & [= <-])%bind_ok.
  apply addBatchIDs_spec in Hl as (L1 & L2 & L3); [|constructor]. split_and!.
  - apply sorted_distinct; [exact (sort_slice_sorted Z.ltb l)|by rewrite (sort_slice_perm Z.ltb l)].
  - intros id. rewrite sort_slice_perm, L2. split; [by intros [?%elem_of_nil|?]|by right].
  - eapply Forall_impl; [exact L3|]. by intros x [_ ?].
Qed.

(** ** Witnesses *)

(** A kind of remotely managed entities and two identifiers, one of them given
    twice. *)
Definition remoteKinds : Registry := (registerEntityKindDefinitionLocked ResetEntityRegistry (mkKindDef 7 1 RemotePolicyManaged)).1.

Definition remoteIDs : list Z :=
  match BuildEntityID remoteKinds 20 7, BuildEntityID remoteKinds 10 7 with
  | Ok a, Ok b => [a; b; a]
  | _, _ => []
  end.

Lemma ValidateRemoteWriteBatchIDs_sorted_witness :
  exists out, ValidateRemoteWriteBatchIDs remoteKinds remoteIDs = Ok out /\ length out = 2%nat /\ StronglySorted Z.lt out.
Proof.
  eexists. split; [vm_compute; reflexivity|]. split; [reflexivity|].
  apply (ValidateRemoteWriteBatchIDs_sorted remoteKinds remoteIDs). vm_compute. reflexivity.
Defined.
