(* ===== verification/Rollback.v ===== *)
(** * Transactions of handlers

    [src/nest/rollback.go] and [src/nest/transaction.go] run a handler as a
    transaction: what the handler changes is undone when it fails or panics or when
    the commit record is rejected, and the record and the hooks take effect only
    when it succeeds.  [src/nest/msg.go] has the part of a message that ties the
    transaction to a batch of remote writes.

    An error is the list of the sentinels it wraps: [nil] is [[]], [errors.Join] is
    concatenation and [errors.Is] is membership.  Application code (handlers, undo
    closures, participants, snapshotters, hooks, committers and write batches) is a
    parameter: functions on the application's memory. *)

From stdpp Require Import base list gmap strings pretty.
From Stdlib Require Import ZArith Lia.
From Stdlib Require Strings.Byte.
From S2P Require Import Prelude Wire EntityId RemoteProto Persist.

Local Open Scope Z_scope.

(** ** Data *)

Inductive errAtom :=
  | ErrTransactionClosed | ErrCommitterRequired | ErrDurableRemoteWriteUnsupported | ErrCommitRejected
  | ErrCommitIndeterminate | ErrRollbackFailed | ErrRollbackUnsupported | ErrRemoteCommitNotFinalized
  | ErrUnsupportedPolicy
  | ErrInvalidUndo | ErrUndoOwner | ErrUndoToken | ErrParticipant | ErrInvalidMutation | ErrDuplicateMutation
  | ErrEffectTopic | ErrDuplicateEffect | ErrZeroTransaction
  | ErrMutationAt (i : nat) | ErrRemoteMutationAt (i : nat) | ErrEffectAt (i : nat) | ErrRemote (e : remoteError)
  | ErrPrepareCommit | ErrCapture | ErrRollback | ErrPanic | AppError (z : Z).

#[export] Instance remoteError_eq_dec : EqDecision remoteError.
Proof. solve_decision. Defined.

#[export] Instance errAtom_eq_dec : EqDecision errAtom.
Proof. solve_decision. Defined.

Abbreviation error := (list errAtom).

Definition errors_Is (e : error) (target : errAtom) : bool := bool_decide (target ∈ e).

Definition failed (e : error) : bool := negb (bool_decide (e = [])).

Inductive RollbackPolicy := RollbackNone | RollbackState | RollbackUndo.
Inductive DurabilityPolicy := DurabilityMemory | DurabilityAsync | DurabilityStrict.
Inductive rollbackTxState := rollbackTxOpen | rollbackTxCommitted | rollbackTxRolledBack.

#[export] Instance RollbackPolicy_eq_dec : EqDecision RollbackPolicy.
Proof. solve_decision. Defined.
#[export] Instance DurabilityPolicy_eq_dec : EqDecision DurabilityPolicy.
Proof. solve_decision. Defined.
#[export] Instance rollbackTxState_eq_dec : EqDecision rollbackTxState.
Proof. solve_decision. Defined.

Definition ParseRollbackPolicy (value : string) : RollbackPolicy * error :=
  if bool_decide (value = "" \/ value = "none"%string) then (RollbackNone, [])
  else if bool_decide (value = "state"%string) then (RollbackState, [])
  else if bool_decide (value = "undo"%string) then (RollbackUndo, [])
  else (RollbackNone, [ErrUnsupportedPolicy]).

Definition RollbackPolicy_String (p : RollbackPolicy) : string :=
  match p with RollbackNone => "none" | RollbackState => "state" | RollbackUndo => "undo" end.

Definition ParseDurabilityPolicy (value : string) : DurabilityPolicy * error :=
  if bool_decide (value = "" \/ value = "memory"%string) then (DurabilityMemory, [])
  else if bool_decide (value = "async"%string) then (DurabilityAsync, [])
  else if bool_decide (value = "strict"%string) then (DurabilityStrict, [])
  else (DurabilityMemory, [ErrUnsupportedPolicy]).

Definition DurabilityPolicy_String (p : DurabilityPolicy) : string :=
  match p with DurabilityAsync => "async" | DurabilityStrict => "strict" | DurabilityMemory => "memory" end.

Definition DurabilityPolicy_uint8 (p : DurabilityPolicy) : Z :=
  match p with DurabilityMemory => 0 | DurabilityAsync => 1 | DurabilityStrict => 2 end.

Record HandlerMeta := mkMeta { hm_Rollback : RollbackPolicy; hm_Durability : DurabilityPolicy }.

(** [TransactionID]: sixteen bytes, a prefix of the process and a sequence number. *)
Abbreviation TransactionID := (list Byte.byte).

Definition hexDigit (n : Z) : Ascii.ascii :=
  Ascii.ascii_of_nat (Z.to_nat (if n <? 10 then 48 + n else 87 + n)).

Fixpoint hexString (id : list Byte.byte) : string :=
  match id with
  | [] => ""
  | b :: id => String (hexDigit (byte_val b / 16)) (String (hexDigit (byte_val b mod 16)) (hexString id))
  end.

(** [atomic.Uint64.Add(1)] and the sixteen bytes. *)
Definition newTransactionID (prefix : list Byte.byte) (seq : Z) : Z * TransactionID :=
  let seq := u64! (seq + 1) in
  (seq, prefix ++ be_put 8 seq).

Record EntityMutation := mkMutation {
  em_EntityID : Z;
  em_Database : string;
  em_DatabaseScope : Z;
  em_Resource : string;
  em_Version : Z;
  em_Mask : Z;
  em_Schema : Z;
  em_Codec : string;
  em_Data : list Byte.byte;
  em_Remote : option RemoteCommit
}.

Record Effect := mkEffect {
  ef_ID : string;
  ef_Topic : string;
  ef_Key : string;
  ef_Payload : list Byte.byte;
  ef_Headers : option (gmap string string)
}.

Record CommitRecord := mkRecord {
  cr_ID : TransactionID;
  cr_Handler : string;
  cr_RequestID : string;
  cr_CreatedAt : Z;
  cr_Durability : DurabilityPolicy;
  cr_Mutations : list EntityMutation;
  cr_Effects : list Effect
}.

Definition CommitRecord_Empty (r : CommitRecord) : bool :=
  (len (cr_Mutations r) =? 0) && (len (cr_Effects r) =? 0).

Definition invalidMutation (m : EntityMutation) : bool :=
  (em_EntityID m =? 0) || bool_decide (em_Resource m = "")
  || ((len (em_Data m) =? 0) && bool_decide (em_Remote m = None)).

(** The loops of [validateCommitRecord], from index [i] on. *)
Fixpoint validateMutations (reg : Registry) (i : nat) (ms : list EntityMutation) : error :=
  match ms with
  | [] => []
  | m :: ms =>
      if invalidMutation m then [ErrMutationAt i] else
      match em_Remote m with
      | Some c => match RemoteCommit_Validate reg c with
                  | Err e => [ErrRemoteMutationAt i; ErrRemote e]
                  | Ok _ => validateMutations reg (S i) ms
                  end
      | None => validateMutations reg (S i) ms
      end
  end.

Fixpoint validateEffects (i : nat) (es : list Effect) : error :=
  match es with
  | [] => []
  | e :: es => if bool_decide (ef_ID e = "") || bool_decide (ef_Topic e = "") then [ErrEffectAt i]
               else validateEffects (S i) es
  end.

Definition validateCommitRecord (reg : Registry) (r : CommitRecord) : error :=
  if zeroID (cr_ID r) then [ErrZeroTransaction] else
  match validateMutations reg 0 (cr_Mutations r) with
  | [] => validateEffects 0 (cr_Effects r)
  | e => e
  end.

(** A value of an interface type: its type may not be comparable, and a pointer in
    it may be nil. *)
Record Dyn := mkDyn { dyn_id : Z; dyn_comparable : bool; dyn_nilPointer : bool }.

Abbreviation any := (option Dyn).

Abbreviation undoKey := (Z * Z * option Z)%type.
Abbreviation mutationKey := (string * string * Z)%type.

(** A function that runs after the commit: one the handler gave, or the call of
    [TransactionReleased] on the committer. *)
Inductive Hook := UserHook (z : Z) | ReleasedHook (id : TransactionID).

(** ** The transaction object *)

(** [func() error] on the memory of the application. *)
Abbreviation undo Mem := (Mem -> Mem * error).

Record RollbackTx (Mem : Type) := mkTx {
  tx_id : TransactionID;
  tx_policy : RollbackPolicy;
  tx_durability : DurabilityPolicy;
  tx_handler : string;
  tx_state : rollbackTxState;
  tx_rollbacks : list (undo Mem);
  tx_commits : list Hook;
  tx_undoKeys : gset undoKey;
  tx_participants : list Dyn;
  tx_mutations : list EntityMutation;
  tx_mutationKeys : gset mutationKey;
  tx_effects : list Effect;
  tx_effectIDs : gset string;
  tx_remoteWrite : bool
}.

Arguments mkTx {Mem}.
Arguments tx_id {Mem}. Arguments tx_policy {Mem}. Arguments tx_durability {Mem}. Arguments tx_handler {Mem}.
Arguments tx_state {Mem}. Arguments tx_rollbacks {Mem}. Arguments tx_commits {Mem}. Arguments tx_undoKeys {Mem}.
Arguments tx_participants {Mem}. Arguments tx_mutations {Mem}. Arguments tx_mutationKeys {Mem}.
Arguments tx_effects {Mem}. Arguments tx_effectIDs {Mem}. Arguments tx_remoteWrite {Mem}.

Section Transactions.
Context {Mem : Type}.
Implicit Types (tx : RollbackTx Mem) (m : Mem).

Definition NewRollbackTx (id : TransactionID) (policy : RollbackPolicy) : RollbackTx Mem :=
  mkTx id policy DurabilityMemory "" rollbackTxOpen [] [] ∅ [] [] ∅ [] ∅ false.

Definition isOpen tx : bool := bool_decide (tx_state tx = rollbackTxOpen).

Definition set_rollbacks tx (l : list (undo Mem)) (keys : gset undoKey) : RollbackTx Mem :=
  mkTx (tx_id tx) (tx_policy tx) (tx_durability tx) (tx_handler tx) (tx_state tx) l (tx_commits tx) keys
    (tx_participants tx) (tx_mutations tx) (tx_mutationKeys tx) (tx_effects tx) (tx_effectIDs tx)
    (tx_remoteWrite tx).

Definition set_commits tx (l : list Hook) : RollbackTx Mem :=
  mkTx (tx_id tx) (tx_policy tx) (tx_durability tx) (tx_handler tx) (tx_state tx) (tx_rollbacks tx) l
    (tx_undoKeys tx) (tx_participants tx) (tx_mutations tx) (tx_mutationKeys tx) (tx_effects tx) (tx_effectIDs tx)
    (tx_remoteWrite tx).

Definition set_participants tx (l : list Dyn) : RollbackTx Mem :=
  mkTx (tx_id tx) (tx_policy tx) (tx_durability tx) (tx_handler tx) (tx_state tx) (tx_rollbacks tx)
    (tx_commits tx) (tx_undoKeys tx) l (tx_mutations tx) (tx_mutationKeys tx) (tx_effects tx) (tx_effectIDs tx)
    (tx_remoteWrite tx).

Definition set_mutations tx (l : list EntityMutation) (keys : gset mutationKey) : RollbackTx Mem :=
  mkTx (tx_id tx) (tx_policy tx) (tx_durability tx) (tx_handler tx) (tx_state tx) (tx_rollbacks tx)
    (tx_commits tx) (tx_undoKeys tx) (tx_participants tx) l keys (tx_effects tx) (tx_effectIDs tx)
    (tx_remoteWrite tx).

Definition set_effects tx (d : DurabilityPolicy) (l : list Effect) (ids : gset string) : RollbackTx Mem :=
  mkTx (tx_id tx) (tx_policy tx) d (tx_handler tx) (tx_state tx) (tx_rollbacks tx) (tx_commits tx)
    (tx_undoKeys tx) (tx_participants tx) (tx_mutations tx) (tx_mutationKeys tx) l ids (tx_remoteWrite tx).

Definition set_remoteWrite tx : RollbackTx Mem :=
  mkTx (tx_id tx) (tx_policy tx) (tx_durability tx) (tx_handler tx) (tx_state tx) (tx_rollbacks tx)
    (tx_commits tx) (tx_undoKeys tx) (tx_participants tx) (tx_mutations tx) (tx_mutationKeys tx) (tx_effects tx)
    (tx_effectIDs tx) true.

Definition DeferRollback tx (fn : option (undo Mem)) : RollbackTx Mem :=
  match fn with
  | Some fn => if isOpen tx then set_rollbacks tx (tx_rollbacks tx ++ [fn]) (tx_undoKeys tx) else tx
  | None => tx
  end.

Definition RecordUndoToken tx (owner : any) (field : Z) (token : any) (fn : option (undo Mem))
    : RollbackTx Mem * error :=
  if negb (isOpen tx) then (tx, [ErrTransactionClosed]) else
  match owner, fn with
  | Some o, Some fn =>
      if negb (dyn_comparable o) then (tx, [ErrUndoOwner]) else
      if match token with Some t => negb (dyn_comparable t) | None => false end then (tx, [ErrUndoToken]) else
      let key := (dyn_id o, field, dyn_id <$> token) in
      if bool_decide (key ∈ tx_undoKeys tx) then (tx, [])
      else (set_rollbacks tx (tx_rollbacks tx ++ [fn]) ({[ key ]} ∪ tx_undoKeys tx), [])
  | _, _ => (tx, [ErrInvalidUndo])
  end.

Definition RecordUndo tx (owner : any) (field : Z) (fn : option (undo Mem)) : RollbackTx Mem * error :=
  RecordUndoToken tx owner field None fn.

(** The package functions act on the transaction of the current context, if any. *)
Definition CurrentRecordUndoToken (current : option (RollbackTx Mem)) (owner : any) (field : Z) (token : any)
    (fn : option (undo Mem)) : option (RollbackTx Mem) * bool :=
  match current with
  | None => (None, false)
  | Some tx =>
      if negb (bool_decide (tx_policy tx = RollbackUndo)) then (Some tx, false) else
      let '(tx, err) := RecordUndoToken tx owner field token fn in (Some tx, negb (failed err))
  end.

Definition AfterCommit tx (fn : option Hook) : RollbackTx Mem :=
  match fn with
  | Some fn => if isOpen tx then set_commits tx (tx_commits tx ++ [fn]) else tx
  | None => tx
  end.

Definition isNilCommitParticipant (participant : any) : bool :=
  match participant with None => true | Some v => dyn_nilPointer v end.

Definition RegisterCommitParticipant tx (participant : any) : RollbackTx Mem * error :=
  if negb (isOpen tx) then (tx, [ErrTransactionClosed]) else
  if isNilCommitParticipant participant then (tx, []) else
  match participant with
  | None => (tx, [])
  | Some p =>
      if negb (dyn_comparable p) then (tx, [ErrParticipant]) else
      if bool_decide (dyn_id p ∈ dyn_id <$> tx_participants tx) then (tx, [])
      else (set_participants tx (tx_participants tx ++ [p]), [])
  end.

Definition keyOf (mu : EntityMutation) : mutationKey := (em_Database mu, em_Resource mu, em_EntityID mu).

Definition AddMutation tx (mu : EntityMutation) : RollbackTx Mem * error :=
  if negb (isOpen tx) then (tx, [ErrTransactionClosed]) else
  if invalidMutation mu then (tx, [ErrInvalidMutation]) else
  if bool_decide (keyOf mu ∈ tx_mutationKeys tx) then (tx, [ErrDuplicateMutation])
  else (set_mutations tx (tx_mutations tx ++ [mu]) ({[ keyOf mu ]} ∪ tx_mutationKeys tx), []).

Definition withID tx (effect : Effect) : Effect :=
  if bool_decide (ef_ID effect = "") then
    mkEffect (hexString (tx_id tx) +:+ ":" +:+ pretty (len (tx_effects tx) + 1)) (ef_Topic effect) (ef_Key effect)
      (ef_Payload effect) (ef_Headers effect)
  else effect.

Definition Emit tx (effect : Effect) : RollbackTx Mem * error :=
  if negb (isOpen tx) then (tx, [ErrTransactionClosed]) else
  if bool_decide (ef_Topic effect = "") then (tx, [ErrEffectTopic]) else
  let effect := withID tx effect in
  if bool_decide (ef_ID effect ∈ tx_effectIDs tx) then (tx, [ErrDuplicateEffect]) else
  let durability := if bool_decide (tx_durability tx = DurabilityMemory) then DurabilityStrict
                    else tx_durability tx in
  (set_effects tx durability (tx_effects tx ++ [effect]) ({[ ef_ID effect ]} ∪ tx_effectIDs tx), []).

(** The undo closures run from the last to the first; an error does not stop them. *)
Definition runUndo (acc : Mem * error) (fn : undo Mem) : Mem * error :=
  let '(m, errs) := acc in
  let '(m, err) := fn m in (m, errs ++ err).

Definition Rollback tx m : RollbackTx Mem * Mem * error :=
  match tx_state tx with
  | rollbackTxRolledBack => (tx, m, [])
  | rollbackTxCommitted => (tx, m, [ErrTransactionClosed])
  | rollbackTxOpen =>
      let '(m, errs) := foldl runUndo (m, []) (reverse (tx_rollbacks tx)) in
      (mkTx (tx_id tx) (tx_policy tx) (tx_durability tx) (tx_handler tx) rollbackTxRolledBack (tx_rollbacks tx) []
         (tx_undoKeys tx) (tx_participants tx) [] ∅ [] ∅ (tx_remoteWrite tx), m, errs)
  end.

(** The fields that a commit clears. *)
Definition closeTx tx (commits : list Hook) : RollbackTx Mem :=
  mkTx (tx_id tx) (tx_policy tx) (tx_durability tx) (tx_handler tx) rollbackTxCommitted [] commits ∅ []
    (tx_mutations tx) ∅ (tx_effects tx) ∅ (tx_remoteWrite tx).

Definition abandon tx : RollbackTx Mem := if isOpen tx then closeTx tx [] else tx.

End Transactions.

(** ** Dirty snapshots *)

Record DirtySnapshot := mkDirtySnapshot {
  ds_PersistDirty : Z;
  ds_SyncDirty : Z;
  ds_Version : Z;
  ds_SyncVersion : Z
}.

Definition DirtyTracker_Snapshot (d : option DirtyTracker) : DirtySnapshot :=
  match d with
  | None => mkDirtySnapshot 0 0 0 0
  | Some d => mkDirtySnapshot (dt_persistDirty d) (dt_syncDirty d) (dt_version d) (dt_syncVersion d)
  end.

Definition DirtyTracker_Restore (d : DirtyTracker) (s : DirtySnapshot) : DirtyTracker :=
  mkTracker (ds_PersistDirty s) (ds_SyncDirty s) (ds_Version s) (ds_SyncVersion s).

(** ** Interfaces to the application *)

(** How [PrepareCommit] of a participant ends. *)
Inductive prepared (Mem : Type) :=
  | Prepared (tx : RollbackTx Mem) (m : Mem) (err : error)
  | PreparePanics (tx : RollbackTx Mem) (m : Mem) (r : Z).

Arguments Prepared {Mem}.
Arguments PreparePanics {Mem}.

Class Application (Mem : Type) := {
  trackerAt : nat -> Mem -> DirtyTracker;
  setTrackerAt : nat -> DirtyTracker -> Mem -> Mem;
  PrepareCommit : Dyn -> RollbackTx Mem -> Mem -> prepared Mem;
  CaptureRollback : Z -> RollbackTx Mem -> Mem -> RollbackTx Mem * Mem * error;
  CaptureRollbackState : Z -> Mem -> list Byte.byte * error;
  RestoreRollbackState : Z -> list Byte.byte -> undo Mem;
  hookEffect : Hook -> Mem -> Mem
}.

Record RemoteTransactionOutcome := mkOutcome {
  ro_TransactionID : TransactionID;
  ro_Handler : string;
  ro_RequestID : string;
  ro_Succeeded : bool;
  ro_Durability : Z;
  ro_FinalizedAt : Z
}.

(** [entity.RemoteWriteBatch]: the methods a dispatch calls. *)
Class RemoteWriteBatch (Batch : Type) := {
  FinalizeLocked : RemoteTransactionOutcome -> Batch -> Batch * error;
  Commits : Batch -> list RemoteCommit;
  BatchCommit : Batch -> Batch * error;
  BatchAbort : error -> Batch -> Batch * error;
  BatchIndeterminate : error -> Batch -> Batch * error;
  BatchClose : Batch -> Batch * error
}.

(** [TransactionCommitter]: the log it appends to, and whether it is also a
    [TransactionReleaseNotifier]. *)
Record TransactionCommitter := mkCommitter {
  committer_Commit : CommitRecord -> list CommitRecord -> list CommitRecord * error;
  committer_notifies : bool
}.

(** What a type assertion finds on a DAO and on an entity. *)
Record Dao := mkDao {
  dao_tracker : option (option nat);  (** [dirtyTrackerDao], whose pointer may be nil *)
  dao_participant : option any;       (** [CommitParticipant] *)
  dao_custom : option Z;              (** [RollbackParticipant] *)
  dao_snapshotter : option Z          (** [RollbackSnapshotter] *)
}.

Record Entity := mkEntity {
  en_GUId : Z;
  en_Kind : Z;
  en_participant : option any;
  en_custom : option Z;
  en_daos : option (list (option Dao)) (** [Guardable] *)
}.

(** ** The world of a dispatch *)

(** The parts of [Msg] that tie a transaction to a batch. *)
Record Msg (Batch : Type) := mkMsg {
  m_RemoteWriteBatch : option Batch;
  m_remoteFinalized : bool;
  m_remoteIndeterminate : bool;
  m_afterUnlock : list Hook;
  m_postRemoteCommit : list Hook
}.

Arguments mkMsg {Batch}. Arguments m_RemoteWriteBatch {Batch}. Arguments m_remoteFinalized {Batch}.
Arguments m_remoteIndeterminate {Batch}. Arguments m_afterUnlock {Batch}. Arguments m_postRemoteCommit {Batch}.

(** The context of the goroutine: the trace and request fields, and the value under
    [rollbackContextKey]. *)
Record Ctx := mkCtx {
  c_TraceID : string;
  c_PlayerID : Z;
  c_MsgID : Z;
  c_Seq : Z;
  c_tx : option TransactionID
}.

Record World (Mem Batch : Type) := mkWorld {
  w_mem : Mem;
  w_wal : list CommitRecord;
  w_ran : list Hook;                 (** hooks run so far *)
  w_guard : option (list Hook);      (** [postRelease] of the guard of the current scope *)
  w_msg : option (Msg Batch);        (** [currentNestDispatchMsg] *)
  w_ctx : option Ctx;
  w_prefix : list Byte.byte;
  w_seq : Z;                         (** [transactionIDState] *)
  w_now : Z
}.

Arguments mkWorld {Mem Batch}. Arguments w_mem {Mem Batch}. Arguments w_wal {Mem Batch}.
Arguments w_ran {Mem Batch}. Arguments w_guard {Mem Batch}. Arguments w_msg {Mem Batch}.
Arguments w_ctx {Mem Batch}. Arguments w_prefix {Mem Batch}. Arguments w_seq {Mem Batch}.
Arguments w_now {Mem Batch}.

(** How the handler ends; a panic carries a value or an error that is not nil. *)
Inductive panicValue := PanicValue (z : Z) | PanicError (a : errAtom) (e : error).

Inductive callResult := Returns (ret : Z) (err : error) | Panics (r : panicValue).

Section Invoke.
Context {Mem Batch : Type} `{Application Mem} `{RemoteWriteBatch Batch} (reg : Registry).
Implicit Types (tx : RollbackTx Mem) (m : Mem) (w : World Mem Batch) (msg : Msg Batch).

Definition set_mem w m : World Mem Batch :=
  mkWorld m (w_wal w) (w_ran w) (w_guard w) (w_msg w) (w_ctx w) (w_prefix w) (w_seq w) (w_now w).
Definition set_wal w (wal : list CommitRecord) : World Mem Batch :=
  mkWorld (w_mem w) wal (w_ran w) (w_guard w) (w_msg w) (w_ctx w) (w_prefix w) (w_seq w) (w_now w).
Definition set_guard w (hooks : list Hook) : World Mem Batch :=
  mkWorld (w_mem w) (w_wal w) (w_ran w) (Some hooks) (w_msg w) (w_ctx w) (w_prefix w) (w_seq w) (w_now w).
Definition set_msg w msg : World Mem Batch :=
  mkWorld (w_mem w) (w_wal w) (w_ran w) (w_guard w) (Some msg) (w_ctx w) (w_prefix w) (w_seq w) (w_now w).
Definition set_ctx w (c : option Ctx) : World Mem Batch :=
  mkWorld (w_mem w) (w_wal w) (w_ran w) (w_guard w) (w_msg w) c (w_prefix w) (w_seq w) (w_now w).

Definition set_batch msg (b : option Batch) : Msg Batch :=
  mkMsg b (m_remoteFinalized msg) (m_remoteIndeterminate msg) (m_afterUnlock msg) (m_postRemoteCommit msg).

(** The message of the dispatch when it has a batch of remote writes. *)
Definition batchOf w : option (Msg Batch * Batch) :=
  msg ← w_msg w; b ← m_RemoteWriteBatch msg; Some (msg, b).

Definition runHook w (h : Hook) : World Mem Batch :=
  mkWorld (hookEffect h (w_mem w)) (w_wal w) (w_ran w ++ [h]) (w_guard w) (w_msg w) (w_ctx w) (w_prefix w)
    (w_seq w) (w_now w).

Definition runHooks w (hooks : list Hook) : World Mem Batch := foldl runHook w hooks.

Definition addPostRemoteCommit msg (hooks : list Hook) : Msg Batch :=
  mkMsg (m_RemoteWriteBatch msg) (m_remoteFinalized msg) (m_remoteIndeterminate msg) (m_afterUnlock msg)
    (m_postRemoteCommit msg ++ hooks).

Definition addAfterUnlock msg (h : Hook) : Msg Batch :=
  mkMsg (m_RemoteWriteBatch msg) (m_remoteFinalized msg) (m_remoteIndeterminate msg) (m_afterUnlock msg ++ [h])
    (m_postRemoteCommit msg).

Definition Commit tx w : RollbackTx Mem * World Mem Batch :=
  if negb (isOpen tx) then (tx, w) else
  let tx := closeTx tx (tx_commits tx) in
  if len (tx_commits tx) =? 0 then (tx, w) else
  match batchOf w with
  | Some (msg, _) => (tx, set_msg w (addPostRemoteCommit msg (tx_commits tx)))
  | None =>
      match w_guard w with
      | Some post => (tx, set_guard w (post ++ tx_commits tx))
      | None => (tx, runHooks w (tx_commits tx))
      end
  end.

Definition requestID (c : option Ctx) : string :=
  match c with
  | None => ""
  | Some c =>
      if bool_decide (c_TraceID c = "") && (negb (c_PlayerID c =? 0) || negb (c_MsgID c =? 0) || negb (c_Seq c =? 0))
      then "player:" +:+ pretty (c_PlayerID c) +:+ "/msg:" +:+ pretty (c_MsgID c) +:+ "/seq:" +:+ pretty (c_Seq c)
      else c_TraceID c
  end.

(** The loop over the participants. *)
Fixpoint prepareParticipants (ps : list Dyn) tx m : prepared Mem :=
  match ps with
  | [] => Prepared tx m []
  | p :: ps =>
      if isNilCommitParticipant (Some p) then prepareParticipants ps tx m else
      match PrepareCommit p tx m with
      | Prepared tx m [] => prepareParticipants ps tx m
      | Prepared tx m err => Prepared tx m (ErrPrepareCommit :: err)
      | PreparePanics tx m r => PreparePanics tx m r
      end
  end.

Definition recordOf tx w : CommitRecord :=
  mkRecord (tx_id tx) (tx_handler tx) (requestID (w_ctx w)) (w_now w) (tx_durability tx) (tx_mutations tx)
    (tx_effects tx).

(** [prepareCommitRecord]: the record is [recordOf] when the error is nil. *)
Definition prepareCommitRecord tx w : prepared Mem :=
  if negb (isOpen tx) then Prepared tx (w_mem w) [ErrTransactionClosed] else
  match prepareParticipants (tx_participants tx) tx (w_mem w) with
  | Prepared tx m [] =>
      let record := recordOf tx w in
      if CommitRecord_Empty record then Prepared tx m [] else Prepared tx m (validateCommitRecord reg record)
  | p => p
  end.

(** The result of [durableCommit]: an error, or a panic of a participant. *)
Inductive durable :=
  | DurableReturns tx w (err : error)
  | DurablePanics tx w (r : Z).

Definition durableCommit (committer : option TransactionCommitter) tx w : durable :=
  if bool_decide (tx_durability tx = DurabilityMemory) && (len (tx_effects tx) =? 0) then DurableReturns tx w [] else
  match prepareCommitRecord tx w with
  | PreparePanics tx m r => DurablePanics tx (set_mem w m) r
  | Prepared tx m [] =>
      let w := set_mem w m in
      let record := recordOf tx w in
      if CommitRecord_Empty record then DurableReturns tx w [] else
      match committer with
      | None =>
          if negb (bool_decide (tx_durability tx = DurabilityMemory)) || (0 <? len (cr_Effects record))
          then DurableReturns tx w [ErrCommitterRequired] else DurableReturns tx w []
      | Some committer =>
          let '(wal, err) := committer_Commit committer record (w_wal w) in
          let w := set_wal w wal in
          if failed err then
            if errors_Is err ErrCommitIndeterminate then DurableReturns tx w err
            else DurableReturns tx w (ErrCommitRejected :: err)
          else DurableReturns tx w []
      end
  | Prepared tx m err => DurableReturns tx (set_mem w m) err
  end.

(** ** Capturing the entities *)

(** [dao.(dirtyTrackerDao)], then the pointer it returns. *)
Definition trackerOf (dao : Dao) : option nat := d ← dao_tracker dao; d.

Definition restoreTracker (dirty : option nat) (s : DirtySnapshot) m : Mem :=
  match dirty with
  | None => m
  | Some t => setTrackerAt t (DirtyTracker_Restore (trackerAt t m) s) m
  end.

Definition captureDao tx (dao : Dao) m : RollbackTx Mem * Mem * error :=
  let dirty := trackerOf dao in
  let dirtySnapshot := DirtyTracker_Snapshot ((fun t => trackerAt t m) <$> dirty) in
  match tx_policy tx with
  | RollbackUndo =>
      match dirty with
      | Some _ => (DeferRollback tx (Some (fun m => (restoreTracker dirty dirtySnapshot m, []))), m, [])
      | None => (tx, m, [])
      end
  | _ =>
      match dao_custom dao, dao_snapshotter dao with
      | Some custom, _ => CaptureRollback custom tx m
      | None, Some snapshotter =>
          let '(raw, err) := CaptureRollbackState snapshotter m in
          if failed err then (tx, m, err) else
          (DeferRollback tx (Some (fun m =>
             let '(m, err) := RestoreRollbackState snapshotter raw m in
             if failed err then (m, err) else (restoreTracker dirty dirtySnapshot m, []))), m, [])
      | None, None => (tx, m, [ErrRollbackUnsupported])
      end
  end.

Definition registerIf tx (participant : option any) (remoteManaged : bool) : RollbackTx Mem * error :=
  match participant with
  | Some p => if remoteManaged then (tx, []) else RegisterCommitParticipant tx p
  | None => (tx, [])
  end.

(** The callback of [RangeDao], which does nothing once it has failed. *)
Fixpoint captureDaos tx (remoteManaged : bool) (daos : list (option Dao)) m : RollbackTx Mem * Mem * error :=
  match daos with
  | [] => (tx, m, [])
  | None :: daos => captureDaos tx remoteManaged daos m
  | Some dao :: daos =>
      let '(tx, err) := registerIf tx (dao_participant dao) remoteManaged in
      if failed err then (tx, m, err) else
      let '(tx, m, err) := captureDao tx dao m in
      if failed err then (tx, m, err) else captureDaos tx remoteManaged daos m
  end.

Definition captureEntity tx w (e : Entity) m : RollbackTx Mem * Mem * error :=
  let remoteManaged := IsEntityKindRemoteManaged reg (en_Kind e) in
  let tx := if remoteManaged then set_remoteWrite tx else tx in
  if remoteManaged && negb (bool_decide (tx_durability tx = DurabilityMemory))
     && match batchOf w with None => true | Some _ => false end
  then (tx, m, [ErrDurableRemoteWriteUnsupported]) else
  let '(tx, err) := registerIf tx (en_participant e) remoteManaged in
  if failed err then (tx, m, err) else
  match tx_policy tx with
  | RollbackNone => (tx, m, [])
  | policy =>
      let '(tx, m, err) :=
        match policy, en_custom e with
        | RollbackState, Some custom =>
            let '(tx, m, err) := CaptureRollback custom tx m in
            (tx, m, if failed err then ErrCapture :: err else [])
        | _, _ => (tx, m, [])
        end in
      if failed err then (tx, m, err) else
      match en_daos e with
      | None => (tx, m, [])
      | Some daos => captureDaos tx remoteManaged daos m
      end
  end.

Fixpoint captureFrom (seen : gset Z) tx w (es : list (option Entity)) m : RollbackTx Mem * Mem * error :=
  match es with
  | [] => (tx, m, [])
  | None :: es => captureFrom seen tx w es m
  | Some e :: es =>
      if bool_decide (en_GUId e ∈ seen) then captureFrom seen tx w es m else
      let '(tx, m, err) := captureEntity tx w e m in
      if failed err then (tx, m, err) else captureFrom ({[ en_GUId e ]} ∪ seen) tx w es m
  end.

Definition CaptureEntities tx w (es : list (option Entity)) : RollbackTx Mem * Mem * error :=
  captureFrom ∅ tx w es (w_mem w).

(** ** The batch of remote writes *)

Definition remoteMutation (c : RemoteCommit) : EntityMutation :=
  mkMutation (rc_EntityID c) "" 0 "remote_entity" (rc_NextVersion c) 0 (rc_Schema c) "remote" [] (Some c).

Fixpoint addRemoteMutations tx (cs : list RemoteCommit) : RollbackTx Mem * error :=
  match cs with
  | [] => (tx, [])
  | c :: cs =>
      let '(tx, err) := AddMutation tx (remoteMutation c) in
      if failed err then (tx, err) else addRemoteMutations tx cs
  end.

Definition finalizeRemoteWriteBatch tx w : RollbackTx Mem * World Mem Batch * error :=
  match batchOf w with
  | None => (tx, w, [])
  | Some (msg, b) =>
      if m_remoteFinalized msg then (tx, w, []) else
      let outcome := mkOutcome (tx_id tx) (tx_handler tx) (requestID (w_ctx w)) true
                       (DurabilityPolicy_uint8 (tx_durability tx)) (w_now w) in
      let '(b, err) := FinalizeLocked outcome b in
      let w := set_msg w (set_batch msg (Some b)) in
      if failed err then (tx, w, err) else
      let '(tx, err) := addRemoteMutations tx (Commits b) in
      if failed err then (tx, w, err) else
      (tx, set_msg w (mkMsg (Some b) true (m_remoteIndeterminate msg) (m_afterUnlock msg) (m_postRemoteCommit msg)), [])
  end.

Definition abortRemoteWriteBatchLocked w (cause : error) : World Mem Batch * error :=
  match batchOf w with
  | None => (w, [])
  | Some (msg, b) => let '(b, err) := BatchAbort cause b in (set_msg w (set_batch msg (Some b)), err)
  end.

Definition markRemoteWriteIndeterminateLocked w (cause : error) : World Mem Batch * error :=
  match batchOf w with
  | None => (w, [])
  | Some (msg, b) =>
      let '(b, err) := BatchIndeterminate cause b in
      if failed err then (set_msg w (set_batch msg (Some b)), err)
      else (set_msg w (mkMsg (Some b) (m_remoteFinalized msg) true (m_afterUnlock msg) (m_postRemoteCommit msg)), [])
  end.

Definition runAfterUnlock w : World Mem Batch :=
  match w_msg w with
  | None => w
  | Some msg =>
      runHooks (set_msg w (mkMsg (m_RemoteWriteBatch msg) (m_remoteFinalized msg) (m_remoteIndeterminate msg) []
                             (m_postRemoteCommit msg))) (m_afterUnlock msg)
  end.

Definition runPostRemoteCommit w : World Mem Batch :=
  match w_msg w with
  | None => w
  | Some msg =>
      runHooks (set_msg w (mkMsg (m_RemoteWriteBatch msg) (m_remoteFinalized msg) (m_remoteIndeterminate msg)
                             (m_afterUnlock msg) [])) (m_postRemoteCommit msg)
  end.

(** [finishRemoteWriteBatch], after the locks are released.  The batch is no longer
    in the message: the closed batch is returned beside the error. *)
Definition finishRemoteWriteBatch w (dispatchErr : error) : World Mem Batch * error * option Batch :=
  match batchOf w with
  | None => (w, [], None)
  | Some (msg, b) =>
      let w := set_msg w (set_batch msg None) in
      let '(b, err) :=
        if m_remoteIndeterminate msg then (b, [])
        else if failed dispatchErr || negb (m_remoteFinalized msg) then BatchAbort dispatchErr b
        else BatchCommit b in
      let '(b, closeErr) := BatchClose b in
      let err := err ++ closeErr in
      (if negb (failed err) && negb (failed dispatchErr) then runPostRemoteCommit w else w, err, Some b)
  end.

(** ** Invoking a handler *)

(** The handler with the transaction its context gives it. *)
Abbreviation handlerCall :=
  (option (RollbackTx Mem) -> World Mem Batch -> option (RollbackTx Mem) * World Mem Batch * callResult).

Definition withTx (c : Ctx) (id : option TransactionID) : Ctx :=
  mkCtx (c_TraceID c) (c_PlayerID c) (c_MsgID c) (c_Seq c) id.

(** [withRollbackTx]: without a context the handler does not see the transaction;
    with one, the previous value comes back however the handler ends. *)
Definition withRollbackTx tx w (call : handlerCall) : RollbackTx Mem * World Mem Batch * callResult :=
  match w_ctx w with
  | None => let '(_, w, r) := call None w in (tx, w, r)
  | Some c =>
      let '(tx', w, r) := call (Some tx) (set_ctx w (Some (withTx c (Some (tx_id tx))))) in
      (default tx tx', set_ctx w ((fun c' => withTx c' (c_tx c)) <$> w_ctx w), r)
  end.

Definition joinRollback (err rbErr : error) : error := if failed rbErr then err ++ ErrRollbackFailed :: rbErr else err.

(** Aborting the batch and rolling back, after the handler returned. *)
Definition rollbackWith tx w (ret : Z) (err : error) : RollbackTx Mem * World Mem Batch * callResult :=
  let '(w, abortErr) := abortRemoteWriteBatchLocked w err in
  let '(tx, m, rbErr) := Rollback tx (w_mem w) in
  (tx, set_mem w m, Returns ret (joinRollback (err ++ abortErr) rbErr)).

(** Where the call of [TransactionReleased] is put. *)
Definition notifyReleased (committer : option TransactionCommitter) tx w : RollbackTx Mem * World Mem Batch :=
  match committer with
  | Some c =>
      if committer_notifies c then
        match batchOf w with
        | Some (msg, _) => (tx, set_msg w (addAfterUnlock msg (ReleasedHook (tx_id tx))))
        | None => (AfterCommit tx (Some (ReleasedHook (tx_id tx))), w)
        end
      else (tx, w)
  | None => (tx, w)
  end.

(** The deferred function, when the handler returned no error. *)
Definition commitTransaction (committer : option TransactionCommitter) tx w (ret : Z)
    : RollbackTx Mem * World Mem Batch * callResult :=
  let '(tx, w, finalizeErr) := finalizeRemoteWriteBatch tx w in
  if failed finalizeErr then rollbackWith tx w ret finalizeErr else
  match durableCommit committer tx w with
  | DurablePanics tx w r => (tx, w, Panics (PanicValue r))
  | DurableReturns tx w [] =>
      let '(tx, w) := notifyReleased committer tx w in
      let '(tx, w) := Commit tx w in
      (tx, w, Returns ret [])
  | DurableReturns tx w commitErr =>
      if errors_Is commitErr ErrCommitIndeterminate then
        let '(w, markErr) := markRemoteWriteIndeterminateLocked w commitErr in
        (abandon tx, w, Returns ret (commitErr ++ markErr))
      else rollbackWith tx w ret commitErr
  end.

(** The deferred function of [invokeWithTransaction]. *)
Definition closeTransaction (committer : option TransactionCommitter) tx w (r : callResult)
    : RollbackTx Mem * World Mem Batch * callResult :=
  match r with
  | Panics r =>
      let '(tx, m, rbErr) := Rollback tx (w_mem w) in
      (tx, set_mem w m, Panics (if failed rbErr then PanicError ErrPanic (ErrRollbackFailed :: rbErr) else r))
  | Returns ret [] => commitTransaction committer tx w ret
  | Returns ret err =>
      let '(tx, m, rbErr) := Rollback tx (w_mem w) in
      (tx, set_mem w m, Returns ret (if failed rbErr then err ++ ErrRollback :: rbErr else err))
  end.

Definition startTx (meta : HandlerMeta) (handler : string) w : RollbackTx Mem * World Mem Batch :=
  let '(seq, id) := newTransactionID (w_prefix w) (w_seq w) in
  (mkTx id (hm_Rollback meta) (hm_Durability meta) handler rollbackTxOpen [] [] ∅ [] [] ∅ [] ∅ false,
   mkWorld (w_mem w) (w_wal w) (w_ran w) (w_guard w) (w_msg w) (w_ctx w) (w_prefix w) seq (w_now w)).

(** Whether [invokeWithTransaction] makes no transaction at all. *)
Definition plainCall (meta : HandlerMeta) w : bool :=
  bool_decide (hm_Rollback meta = RollbackNone) && bool_decide (hm_Durability meta = DurabilityMemory)
  && match batchOf w with None => true | Some _ => false end.

(** The transaction object that a handler may still hold is returned too; a handler
    that runs without one gets that of the surrounding context, if any. *)
Definition invokeWithTransaction (meta : HandlerMeta) (es : list (option Entity))
    (committer : option TransactionCommitter) (handler : string) (call : handlerCall) w
    : option (RollbackTx Mem) * World Mem Batch * callResult :=
  if plainCall meta w then let '(_, w, r) := call None w in (None, w, r) else
  let '(tx, w) := startTx meta handler w in
  let '(tx, m, err) := CaptureEntities tx w es in
  let w := set_mem w m in
  if failed err then (Some tx, w, Returns 0 err) else
  let '(tx, w, r) := withRollbackTx tx w call in
  let '(tx, w, r) := closeTransaction committer tx w r in
  (Some tx, w, r).

(** ** The end of a dispatch *)

Definition resultError (r : callResult) : error :=
  match r with Returns _ err => err | Panics (PanicError a e) => a :: e | Panics (PanicValue _) => [ErrPanic] end.

(** [releaseGuardScope] runs the hooks that were put on the guard. *)
Definition releaseGuard w : World Mem Batch :=
  match w_guard w with
  | None => w
  | Some post =>
      runHooks (mkWorld (w_mem w) (w_wal w) (w_ran w) None (w_msg w) (w_ctx w) (w_prefix w) (w_seq w) (w_now w)) post
  end.

(** The deferred function of [NestDispatch] up to the end of the batch. *)
Definition endDispatch w (r : callResult) : World Mem Batch * error * option Batch :=
  let w := runAfterUnlock (releaseGuard w) in
  let '(w, remoteErr, b) := finishRemoteWriteBatch w (resultError r) in
  (w, resultError r ++ remoteErr, b).
End Invoke.

Abbreviation handlerCall Mem Batch :=
  (option (RollbackTx Mem) -> World Mem Batch -> option (RollbackTx Mem) * World Mem Batch * callResult).
