(* ===== verification/Atomicity.v ===== *)
(** * Transactions are atomic

    The theorems about the transactions of [Rollback]: what the undo log restores,
    what is captured of the entities, what a handler may do through the interfaces it
    is given, and that a transaction then either commits as a whole or leaves no
    trace.  The promises of application code are the classes [FieldLaws],
    [ApplicationLaws] and [CommitterLaws]. *)

From stdpp Require Import base list gmap strings.
From Stdlib Require Import ZArith Lia.
From Stdlib Require Strings.Byte.
From S2P Require Import Prelude Wire EntityId RemoteProto Persist Rollback.

Local Open Scope Z_scope.

(** ** What a rollback restores *)

(** The memory of an application has fields, one per undo key, and dirty trackers. *)
Class Fields (Mem : Type) `{Application Mem} := {
  fieldVal : Type;
  fieldAt : undoKey -> Mem -> fieldVal;
  setField : undoKey -> fieldVal -> Mem -> Mem
}.

Abbreviation loc := (undoKey + nat)%type.

Definition obs {Mem} `{Fields Mem} (l : loc) (m : Mem) : fieldVal + DirtyTracker :=
  match l with inl k => inl (fieldAt k m) | inr t => inr (trackerAt t m) end.

(** Two memories that no reader of fields and trackers tells apart. *)
Definition same {Mem} `{Fields Mem} (m m' : Mem) : Prop := forall l, obs l m = obs l m'.

#[export] Instance same_equivalence {Mem} `{Fields Mem} : Equivalence same.
Proof.
  split; [by intros m l | by intros m m' Hs l | by intros m1 m2 m3 H1 H2 l; rewrite H1].
Qed.

Class FieldLaws (Mem : Type) `{Fields Mem} : Prop := {
  obs_setField : forall k v m l,
    obs l (setField k v m) = if decide (l = inl k) then inl v else obs l m;
  obs_setTracker : forall t d m l,
    obs l (setTrackerAt t d m) = if decide (l = inr t) then inr d else obs l m
}.

(** [restores P m0 fn]: the undo closure puts back what [m0] has at the locations in
    [P], touches nothing that is not as in [m0] afterwards, and does not fail. *)
Definition restores {Mem} `{Fields Mem} (P : loc -> Prop) (m0 : Mem) (fn : undo Mem) : Prop :=
  forall m, (fn m).2 = [] /\
    forall l, obs l (fn m).1 = obs l m0 \/ (~ P l /\ obs l (fn m).1 = obs l m).

(** What participants, snapshotters and commit participants promise: a snapshot
    restores what its owner owns, a custom participant defers one such closure, and
    a commit participant only adds to the record. *)
Record only_records {Mem} (tx tx' : RollbackTx Mem) : Prop := {
  or_id : tx_id tx' = tx_id tx;
  or_state : tx_state tx' = tx_state tx;
  or_rollbacks : tx_rollbacks tx' = tx_rollbacks tx;
  or_keys : tx_undoKeys tx' = tx_undoKeys tx;
  or_commits : tx_commits tx' = tx_commits tx;
  or_durability : tx_durability tx <> DurabilityMemory -> tx_durability tx' <> DurabilityMemory;
  or_effects : tx_effects tx `prefix_of` tx_effects tx';
  or_mutations : tx_mutations tx `prefix_of` tx_mutations tx'
}.

#[export] Instance only_records_preorder {Mem} : PreOrder (@only_records Mem).
Proof.
  split.
  - intros tx. by split.
  - intros tx1 tx2 tx3 [] []. split; try congruence; [tauto|by etrans..].
Qed.

Class ApplicationLaws (Mem : Type) `{Fields Mem} := {
  owns : Z -> loc -> Prop;
  snapshot_restores : forall s m raw,
    CaptureRollbackState s m = (raw, []) -> restores (owns s) m (RestoreRollbackState s raw);
  custom_restores : forall c tx m tx' m' err,
    CaptureRollback c tx m = (tx', m', err) ->
    m' = m /\ (err = [] -> exists fn, tx' = DeferRollback tx (Some fn) /\ restores (owns c) m fn);
  prepare_records : forall p tx m, exists tx' err,
    PrepareCommit p tx m = Prepared tx' m err /\ only_records tx tx'
}.

Section Restoring.
Context {Mem : Type} `{Application Mem} `{!Fields Mem} `{!FieldLaws Mem}.
Implicit Types (m : Mem) (tx : RollbackTx Mem).

Definition covered (m0 : Mem) (fns : list (undo Mem)) (l : loc) : Prop :=
  exists fn P, fn ∈ fns /\ restores P m0 fn /\ P l.

Definition restoring (m0 : Mem) (fns : list (undo Mem)) : Prop :=
  Forall (fun fn => exists P, restores P m0 fn) fns.

Lemma runUndo_restores m0 fns : forall m errs,
  restoring m0 fns ->
  (foldl runUndo (m, errs) fns).2 = errs /\
  forall l, obs l m = obs l m0 \/ covered m0 fns l -> obs l (foldl runUndo (m, errs) fns).1 = obs l m0.
Proof.
  induction fns as [|fn fns IH]; intros m errs Hok; cbn.
  { split; [done|]. by intros l [?|(? & ? & ?%not_elem_of_nil & _)]. }
  apply Forall_cons in Hok as [[P HP] Hok].
  destruct (fn m) as [m1 err1] eqn:Efn. destruct (HP m) as [Herr Hl]. rewrite Efn in Herr, Hl. cbn in Herr, Hl.
  subst err1. rewrite app_nil_r. destruct (IH m1 errs Hok) as [IHe IHl]. split; [done|].
  intros l Hc. apply IHl. destruct Hc as [Hm|(fn' & Q & [->|Hin]%elem_of_cons & HQ & Ql)].
  - destruct (Hl l) as [?|[_ ->]]; auto.
  - left. destruct (HQ m) as [_ HQl]. rewrite Efn in HQl. by destruct (HQl l) as [?|[? _]].
  - right. by exists fn', Q.
Qed.

Lemma covered_app m0 fns fns' l : covered m0 fns l -> covered m0 (fns ++ fns') l.
Proof. intros (fn & P & Hin & HP). exists fn, P. split; [|done]. apply elem_of_app. by left. Qed.

Lemma covered_last m0 fns fn (P : loc -> Prop) l : restores P m0 fn -> P l -> covered m0 (fns ++ [fn]) l.
Proof. intros HP Hl. exists fn, P. split; [|done]. apply elem_of_app. right. by apply list_elem_of_singleton. Qed.

Lemma restores_field m0 k : restores (fun l => l = inl k) m0 (fun m => (setField k (fieldAt k m0) m, [])).
Proof.
  intros m. split; [done|]. intros l. cbn. rewrite obs_setField. case_decide as Hl; [left; by subst | by right].
Qed.

Lemma restoreTracker_snapshot t m0 m :
  restoreTracker (Some t) (DirtyTracker_Snapshot (Some (trackerAt t m0))) m = setTrackerAt t (trackerAt t m0) m.
Proof. unfold restoreTracker, DirtyTracker_Restore, DirtyTracker_Snapshot. by destruct (trackerAt t m0). Qed.

Lemma restores_tracker m0 dirty :
  restores (fun l => exists t, dirty = Some t /\ l = inr t) m0
    (fun m => (restoreTracker dirty (DirtyTracker_Snapshot ((fun t => trackerAt t m0) <$> dirty)) m, [])).
Proof.
  intros m. split; [done|]. intros l. destruct dirty as [t|].
  - cbn [fst fmap option_fmap option_map]. rewrite restoreTracker_snapshot, obs_setTracker.
    case_decide as Hl; [left; by subst|]. right. split; [|done]. by intros (? & [= <-] & ->).
  - right. split; [|done]. by intros (? & ? & _).
Qed.

(** One closure after another. *)
Lemma restores_then (P Q : loc -> Prop) m0 (fn : undo Mem) (next : Mem -> Mem) :
  restores P m0 fn -> restores Q m0 (fun m => (next m, [])) ->
  restores (fun l => P l \/ Q l) m0
    (fun m => let '(m, err) := fn m in if failed err then (m, err) else (next m, [])).
Proof.
  intros HP HQ m. destruct (HP m) as [He Hl]. destruct (fn m) as [m1 e]. cbn in He, Hl. subst e. cbn.
  split; [done|]. intros l. destruct (HQ m1) as [_ HQl]. cbn in HQl.
  destruct (HQl l) as [?|[? ->]]; [by left|]. destruct (Hl l) as [?|[? ->]]; [by left|]. right. split; [tauto|done].
Qed.

(** A transaction that can be undone: every closure restores, every captured location
    and every recorded key is covered, and nothing else has changed. *)
Record undoable (C : loc -> Prop) (m0 : Mem) tx m : Prop := {
  ua_open : tx_state tx = rollbackTxOpen;
  ua_ok : restoring m0 (tx_rollbacks tx);
  ua_captured : forall l, C l -> covered m0 (tx_rollbacks tx) l;
  ua_keys : forall k, k ∈ tx_undoKeys tx -> covered m0 (tx_rollbacks tx) (inl k);
  ua_changed : forall l, obs l m = obs l m0 \/ C l \/ exists k, l = inl k /\ k ∈ tx_undoKeys tx
}.

Lemma undoable_Rollback C m0 tx m :
  undoable C m0 tx m -> exists tx' m', Rollback tx m = (tx', m', []) /\ same m' m0 /\ tx_state tx' = rollbackTxRolledBack.
Proof.
  intros [Ho Hok Hc Hk Hch]. unfold Rollback. rewrite Ho.
  assert (Hrev : restoring m0 (reverse (tx_rollbacks tx))) by by apply Forall_reverse.
  destruct (runUndo_restores m0 (reverse (tx_rollbacks tx)) m [] Hrev) as [He Hl].
  destruct (foldl _ _ _) as [m' errs]. cbn in He, Hl. subst errs.
  eexists _, m'. split; [done|]. split; [|done]. intros l. apply Hl.
  destruct (Hch l) as [?|[HC|(k & -> & Hin)]]; [by left|right|right].
  - destruct (Hc l HC) as (fn & P & Hin & HP). exists fn, P. by rewrite elem_of_reverse.
  - destruct (Hk k Hin) as (fn & P & Hin' & HP). exists fn, P. by rewrite elem_of_reverse.
Qed.

Lemma undoable_ext (C C' : loc -> Prop) m0 tx tx' m :
  undoable C m0 tx m -> (forall l, C l <-> C' l) ->
  tx_state tx' = tx_state tx -> tx_rollbacks tx' = tx_rollbacks tx -> tx_undoKeys tx' = tx_undoKeys tx ->
  undoable C' m0 tx' m.
Proof.
  intros [Ho Hok Hc Hk Hch] HC Es Er Ek. split; rewrite ?Es, ?Er, ?Ek; auto.
  - intros l Hl. apply Hc. by apply HC.
  - intros l. destruct (Hch l) as [?|[Hl|?]]; [by left | right; left; by apply HC | by right; right].
Qed.

Lemma undoable_defer (C P : loc -> Prop) m0 tx m fn :
  undoable C m0 tx m -> restores P m0 fn -> undoable (fun l => C l \/ P l) m0 (DeferRollback tx (Some fn)) m.
Proof.
  intros [Ho Hok Hc Hk Hch] HP. unfold DeferRollback, isOpen. rewrite bool_decide_true by done. split; cbn.
  - done.
  - apply Forall_app. split; [done|]. apply Forall_singleton. by exists P.
  - intros l [Hl|Hl]; [by apply covered_app, Hc | by apply (covered_last _ _ _ P)].
  - intros k Hin. by apply covered_app, Hk.
  - intros l. destruct (Hch l) as [?|[?|?]]; auto.
Qed.

End Restoring.

(** ** What is captured *)

Section Capturing.
Context {Mem : Type} `{Application Mem} `{!Fields Mem} `{!FieldLaws Mem} `{!ApplicationLaws Mem}.
Context {Batch : Type} `{RemoteWriteBatch Batch} (reg : Registry).
Implicit Types (m : Mem) (tx : RollbackTx Mem) (w : World Mem Batch).

Definition trackerLoc (dao : Dao) (l : loc) : Prop := exists t, trackerOf dao = Some t /\ l = inr t.

Definition capturedDao (policy : RollbackPolicy) (dao : Dao) (l : loc) : Prop :=
  match policy, dao_custom dao, dao_snapshotter dao with
  | RollbackUndo, _, _ => trackerLoc dao l
  | RollbackState, Some c, _ => owns c l
  | RollbackState, None, Some s => owns s l \/ trackerLoc dao l
  | _, _, _ => False
  end.

Definition capturedDaos (policy : RollbackPolicy) (daos : list (option Dao)) (l : loc) : Prop :=
  exists dao, Some dao ∈ daos /\ capturedDao policy dao l.

Definition capturedEntity (policy : RollbackPolicy) (e : Entity) (l : loc) : Prop :=
  (policy = RollbackState /\ exists c, en_custom e = Some c /\ owns c l)
  \/ exists daos, en_daos e = Some daos /\ capturedDaos policy daos l.

Definition captured (policy : RollbackPolicy) (es : list (option Entity)) (l : loc) : Prop :=
  exists e, Some e ∈ es /\ capturedEntity policy e l.

(** What a capture leaves as it was. *)
Definition txCore tx :=
  (tx_id tx, tx_policy tx, tx_durability tx, tx_handler tx, tx_state tx, tx_commits tx, tx_undoKeys tx,
   tx_mutations tx, tx_mutationKeys tx, tx_effects tx, tx_effectIDs tx).

Definition capture_ok (C D : loc -> Prop) (m0 : Mem) tx (out : RollbackTx Mem * Mem * error) : Prop :=
  out.1.2 = m0 /\
  (out.2 = [] -> txCore out.1.1 = txCore tx /\
                 (undoable C m0 tx m0 -> undoable (fun l => C l \/ D l) m0 out.1.1 m0)).

Lemma failed_nil e : failed e = false <-> e = [].
Proof. unfold failed. rewrite negb_false_iff. apply bool_decide_eq_true. Qed.

Lemma txCore_defer tx fn : txCore (DeferRollback tx fn) = txCore tx.
Proof. unfold DeferRollback. destruct fn; [|done]. by destruct (isOpen tx). Qed.

Lemma register_ok (C : loc -> Prop) m0 tx p remote :
  txCore (registerIf tx p remote).1 = txCore tx /\
  (undoable C m0 tx m0 -> undoable C m0 (registerIf tx p remote).1 m0).
Proof.
  unfold registerIf, RegisterCommitParticipant.
  repeat case_match; (split; [done|]); intros Hu; try exact Hu; by apply (undoable_ext C C _ _ _ _ Hu).
Qed.

Lemma capture_refused (C D : loc -> Prop) m0 tx tx' err : err <> [] -> capture_ok C D m0 tx (tx', m0, err).
Proof. intros He. split; [done|]. intros Hn. by destruct (He Hn). Qed.

Lemma capture_nothing (C D : loc -> Prop) m0 tx tx' :
  (forall l, ~ D l) -> txCore tx' = txCore tx -> (undoable C m0 tx m0 -> undoable C m0 tx' m0) ->
  capture_ok C D m0 tx (tx', m0, []).
Proof.
  intros HD Hcore Hu. split; [done|]. intros _. split; [done|]. intros H'.
  apply (undoable_ext C _ _ tx' _ _ (Hu H')); [|done..]. intros l. specialize (HD l). tauto.
Qed.

Lemma capture_deferred (C P : loc -> Prop) m0 tx fn :
  restores P m0 fn -> capture_ok C P m0 tx (DeferRollback tx (Some fn), m0, []).
Proof.
  intros HP. split; [done|]. intros _. split; [apply txCore_defer|]. intros Hu. by apply undoable_defer.
Qed.

(** Capturing one thing after another, stopping at an error. *)
Lemma capture_then (C D E : loc -> Prop) m0 tx out (next : RollbackTx Mem -> Mem -> RollbackTx Mem * Mem * error) :
  capture_ok C D m0 tx out ->
  (forall tx', txCore tx' = txCore tx -> capture_ok (fun l => C l \/ D l) E m0 tx' (next tx' m0)) ->
  capture_ok C (fun l => D l \/ E l) m0 tx
    (let '(tx, m, err) := out in if failed err then (tx, m, err) else next tx m).
Proof.
  destruct out as [[tx1 m1] err]. intros [Hm H1] H2. cbn in Hm, H1. subst m1.
  destruct (failed err) eqn:Ef.
  { split; [done|]. cbn. intros ->. by cbn in Ef. }
  apply failed_nil in Ef. destruct (H1 Ef) as [Hcore Hu]. destruct (H2 tx1 Hcore) as [Hm' H3].
  destruct (next tx1 m0) as [[tx2 m2] err2]. cbn in Hm', H3. subst m2. split; [done|]. cbn. intros He.
  destruct (H3 He) as [Hcore' Hu']. split; [congruence|]. intros Hstart.
  apply (undoable_ext _ _ _ tx2 _ _ (Hu' (Hu Hstart))); [|done..]. intros l. tauto.
Qed.

Lemma custom_capture (C : loc -> Prop) m0 tx c : capture_ok C (owns c) m0 tx (CaptureRollback c tx m0).
Proof.
  destruct (CaptureRollback c tx m0) as [[tx' m'] err] eqn:E.
  destruct (custom_restores c tx m0 tx' m' err E) as [-> Hc]. split; [done|]. cbn. intros He.
  destruct (Hc He) as (fn & -> & HP). split; [apply txCore_defer|]. intros Hu. by apply undoable_defer.
Qed.

Lemma captureDao_ok (C : loc -> Prop) m0 tx dao :
  tx_policy tx <> RollbackNone -> capture_ok C (capturedDao (tx_policy tx) dao) m0 tx (captureDao tx dao m0).
Proof.
  intros Hp. unfold captureDao, capturedDao. destruct (tx_policy tx); [done| |].
  - destruct (dao_custom dao) as [c|]; [apply custom_capture|].
    destruct (dao_snapshotter dao) as [s|]; [|by apply capture_refused].
    destruct (CaptureRollbackState s m0) as [raw err] eqn:E. destruct (failed err) eqn:Ef.
    { apply capture_refused. by intros ->. }
    apply failed_nil in Ef as ->. apply capture_deferred.
    apply (restores_then (owns s) (trackerLoc dao)); [by apply snapshot_restores|].
    apply (restores_tracker m0 (trackerOf dao)).
  - pose proof (restores_tracker m0 (trackerOf dao)) as Ht. unfold trackerLoc.
    destruct (trackerOf dao) as [t|]; [by apply capture_deferred|].
    apply capture_nothing; [|done|done]. by intros l (? & ? & _).
Qed.

(** A change of the transaction that keeps its core and its undo log. *)
Lemma capture_same (C D : loc -> Prop) m0 tx tx' out :
  txCore tx' = txCore tx -> (undoable C m0 tx m0 -> undoable C m0 tx' m0) ->
  capture_ok C D m0 tx' out -> capture_ok C D m0 tx out.
Proof.
  intros Hcore Hu [Hm Hok]. split; [done|]. intros He. destruct (Hok He) as [Hc Hu'].
  split; [congruence|]. intros Hstart. by apply Hu', Hu.
Qed.

Lemma capture_register (C D : loc -> Prop) m0 tx p remote (next : RollbackTx Mem -> RollbackTx Mem * Mem * error) :
  (forall tx', txCore tx' = txCore tx -> capture_ok C D m0 tx' (next tx')) ->
  capture_ok C D m0 tx (let '(tx, err) := registerIf tx p remote in if failed err then (tx, m0, err) else next tx).
Proof.
  intros Hn. destruct (register_ok C m0 tx p remote) as [Hcore Hu].
  destruct (registerIf tx p remote) as [tx1 err]. cbn in Hcore, Hu. destruct (failed err) eqn:Ef.
  - apply capture_refused. by intros ->.
  - apply (capture_same C D m0 tx tx1); auto.
Qed.

Lemma capture_weaken (C D E : loc -> Prop) m0 tx out :
  (forall l, C l \/ D l <-> C l \/ E l) -> capture_ok C D m0 tx out -> capture_ok C E m0 tx out.
Proof.
  intros HDE [Hm Hok]. split; [done|]. intros He. destruct (Hok He) as [Hc Hu]. split; [done|]. intros Hs.
  by apply (undoable_ext _ _ _ out.1.1 _ _ (Hu Hs)).
Qed.

Lemma txCore_policy tx tx' : txCore tx' = txCore tx -> tx_policy tx' = tx_policy tx.
Proof. by intros [=]. Qed.

Lemma capturedDaos_cons policy dao daos l :
  capturedDao policy dao l \/ capturedDaos policy daos l <-> capturedDaos policy (Some dao :: daos) l.
Proof.
  unfold capturedDaos. split.
  - intros [Hl|(d & Hin & Hl)]; [exists dao | exists d]; rewrite elem_of_cons; auto.
  - intros (d & [[= ->]|Hin]%elem_of_cons & Hl); [by left|]. right. by exists d.
Qed.

Lemma captureDaos_ok remote m0 policy daos : forall (C : loc -> Prop) tx,
  policy <> RollbackNone -> tx_policy tx = policy ->
  capture_ok C (capturedDaos policy daos) m0 tx (captureDaos tx remote daos m0).
Proof.
  induction daos as [|[dao|] daos IH]; intros C tx Hp Ep; cbn [captureDaos].
  - apply capture_nothing; [|done|done]. by intros l (? & ?%not_elem_of_nil & _).
  - apply capture_register. intros tx1 Hcore1. pose proof (txCore_policy _ _ Hcore1) as Ep1.
    apply (capture_weaken C (fun l => capturedDao policy dao l \/ capturedDaos policy daos l));
      [intros l; by rewrite capturedDaos_cons|].
    assert (Ep1' : tx_policy tx1 = policy) by congruence. subst policy.
    apply (capture_then C (capturedDao (tx_policy tx) dao) (capturedDaos (tx_policy tx) daos) m0 tx1 _
             (fun tx m => captureDaos tx remote daos m)).
    + rewrite <- Ep1'. apply captureDao_ok. congruence.
    + intros tx2 Hcore2. apply IH; [done|]. pose proof (txCore_policy _ _ Hcore2). congruence.
  - eapply capture_weaken; [|by apply IH]. intros l.
    enough (capturedDaos policy daos l <-> capturedDaos policy (None :: daos) l) by tauto. unfold capturedDaos.
    split; intros (d & Hin & Hl); exists d; (split; [|done]).
    + by apply elem_of_cons; right.
    + by apply elem_of_cons in Hin as [?|?].
Qed.

(** The entity's own participant, under the state policy. *)
Definition customEntity (policy : RollbackPolicy) (e : Entity) (l : loc) : Prop :=
  policy = RollbackState /\ exists c, en_custom e = Some c /\ owns c l.

Lemma captureCustom_ok (C : loc -> Prop) m0 tx e :
  capture_ok C (customEntity RollbackState e) m0 tx
    (match en_custom e with
     | Some custom =>
         let '(tx, m, err) := CaptureRollback custom tx m0 in
         (tx, m, if failed err then ErrCapture :: err else [])
     | None => (tx, m0, [])
     end).
Proof.
  unfold customEntity. destruct (en_custom e) as [c|].
  - destruct (custom_capture C m0 tx c) as [Hm Hok].
    destruct (CaptureRollback c tx m0) as [[tx1 m1] err]. cbn in Hm, Hok. subst m1.
    split; [done|]. cbn. destruct (failed err) eqn:Ef; [done|]. intros _.
    apply failed_nil in Ef. destruct (Hok Ef) as [Hc Hu]. split; [done|]. intros Hs.
    apply (undoable_ext _ _ _ tx1 _ _ (Hu Hs)); [|done..]. intros l. naive_solver.
  - apply capture_nothing; [|done|done]. by intros l (_ & ? & ? & _).
Qed.

Lemma captureEntityDaos_ok (C : loc -> Prop) m0 policy tx remote e :
  policy <> RollbackNone -> tx_policy tx = policy ->
  capture_ok C (fun l => exists daos, en_daos e = Some daos /\ capturedDaos policy daos l) m0 tx
    (match en_daos e with None => (tx, m0, []) | Some daos => captureDaos tx remote daos m0 end).
Proof.
  intros Hp Ep. destruct (en_daos e) as [daos|].
  - eapply capture_weaken; [|by apply captureDaos_ok]. intros l. naive_solver.
  - apply capture_nothing; [|done|done]. by intros l (? & ? & _).
Qed.

Lemma captureEntity_ok (C : loc -> Prop) m0 tx w e :
  tx_policy tx <> RollbackNone ->
  capture_ok C (capturedEntity (tx_policy tx) e) m0 tx (captureEntity reg tx w e m0).
Proof.
  intros Hp. unfold captureEntity.
  set (tx1 := if IsEntityKindRemoteManaged reg (en_Kind e) then set_remoteWrite tx else tx).
  assert (Hcore : txCore tx1 = txCore tx) by (unfold tx1; by case_match).
  apply (capture_same _ _ _ tx tx1); [done| |].
  { intros Hu. apply (undoable_ext C C _ tx _ _ Hu); [done|unfold tx1; by case_match..]. }
  clearbody tx1. pose proof (txCore_policy _ _ Hcore) as Ep. case_match; [by apply capture_refused|].
  apply capture_register. intros tx2 Hcore2. pose proof (txCore_policy _ _ Hcore2) as Ep2.
  assert (Ep' : tx_policy tx2 = tx_policy tx) by congruence. rewrite Ep'.
  pose proof (fun D tx' => captureEntityDaos_ok D m0 (tx_policy tx) tx' (IsEntityKindRemoteManaged reg (en_Kind e)) e Hp)
    as Hd.
  apply (capture_weaken C (fun l => customEntity (tx_policy tx) e l
    \/ exists daos, en_daos e = Some daos /\ capturedDaos (tx_policy tx) daos l)); [done|].
  destruct (tx_policy tx) eqn:E; [done| |].
  - apply (capture_then _ _ _ _ _ _ (fun tx m => match en_daos e with None => (tx, m, []) | Some daos => captureDaos tx _ daos m end)
             (captureCustom_ok C m0 tx2 e)).
    intros tx3 Hcore3. apply Hd. pose proof (txCore_policy _ _ Hcore3). congruence.
  - cbn [failed]. change (failed []) with false. cbv iota. eapply capture_weaken; [|by apply Hd].
    intros l. unfold customEntity. naive_solver.
Qed.

Lemma captured_cons policy e es l :
  captured policy (Some e :: es) l <-> capturedEntity policy e l \/ captured policy es l.
Proof.
  unfold captured. split.
  - intros (d & [[= ->]|Hin]%elem_of_cons & Hl); [by left|]. right. by exists d.
  - intros [Hl|(d & Hin & Hl)]; [exists e | exists d]; rewrite elem_of_cons; auto.
Qed.

Lemma captured_skip policy es l : captured policy (None :: es) l <-> captured policy es l.
Proof.
  unfold captured. split; intros (d & Hin & Hl); exists d; (split; [|done]).
  - by apply elem_of_cons in Hin as [?|?].
  - by apply elem_of_cons; right.
Qed.

Lemma captureFrom_ok m0 w policy es : forall (C : loc -> Prop) seen tx,
  policy <> RollbackNone -> tx_policy tx = policy ->
  (forall e e', Some e ∈ es -> Some e' ∈ es -> en_GUId e = en_GUId e' -> e = e') ->
  (forall e, Some e ∈ es -> en_GUId e ∈ seen -> forall l, capturedEntity policy e l -> C l) ->
  capture_ok C (captured policy es) m0 tx (captureFrom reg seen tx w es m0).
Proof.
  induction es as [|o es IH]; intros C seen tx Hp Ep Huniq Hseen.
  { apply capture_nothing; [|done|done]. by intros l (? & ?%not_elem_of_nil & _). }
  assert (Htail : forall e, Some e ∈ es -> Some e ∈ o :: es) by (intros; apply elem_of_cons; by right).
  assert (Huniq' : forall e e', Some e ∈ es -> Some e' ∈ es -> en_GUId e = en_GUId e' -> e = e') by auto.
  assert (Hskip : capture_ok C (captured policy es) m0 tx (captureFrom reg seen tx w es m0)).
  { apply IH; [done..|]. intros e He. apply Hseen. by apply Htail. }
  destruct o as [e|]; cbn [captureFrom].
  - assert (Hhead : Some e ∈ Some e :: es) by (apply elem_of_cons; by left).
    destruct (bool_decide_reflect (en_GUId e ∈ seen)) as [Hin|Hin].
    + eapply capture_weaken; [|exact Hskip]. intros l. rewrite captured_cons.
      specialize (Hseen e Hhead Hin l). tauto.
    + apply (capture_weaken C (fun l => capturedEntity policy e l \/ captured policy es l));
        [intros l; by rewrite captured_cons|]. subst policy.
      apply (capture_then C (capturedEntity (tx_policy tx) e) (captured (tx_policy tx) es) m0 tx _
               (fun tx m => captureFrom reg ({[ en_GUId e ]} ∪ seen) tx w es m)); [by apply captureEntity_ok|].
      intros tx' Hcore. apply IH; [done|by rewrite (txCore_policy _ _ Hcore)|done|].
      intros e' He' [Heq%elem_of_singleton|Hs]%elem_of_union l Hl.
      * right. by rewrite <- (Huniq e' e (Htail _ He') Hhead Heq).
      * left. exact (Hseen e' (Htail _ He') Hs l Hl).
  - eapply capture_weaken; [|exact Hskip]. intros l. by rewrite captured_skip.
Qed.

(** ** Handlers *)

(** What a handler does through the interfaces it is given: under the undo policy a
    setter records how to put the old value back and then writes; whatever was
    captured may be written; and the transaction collects effects, mutations, hooks
    and participants. *)
Inductive hstep (C : loc -> Prop) : RollbackTx Mem * World Mem Batch -> RollbackTx Mem * World Mem Batch -> Prop :=
| hs_set tx w o f t v tx' k :
    tx_policy tx = RollbackUndo -> k = (dyn_id o, f, dyn_id <$> t) ->
    RecordUndoToken tx (Some o) f t (Some (fun m => (setField k (fieldAt k (w_mem w)) m, []))) = (tx', []) ->
    hstep C (tx, w) (tx', set_mem w (setField k v (w_mem w)))
| hs_write tx w m :
    (forall l, obs l m = obs l (w_mem w) \/ C l) -> hstep C (tx, w) (tx, set_mem w m)
| hs_emit tx w e : hstep C (tx, w) ((Emit tx e).1, w)
| hs_mutate tx w mu : hstep C (tx, w) ((AddMutation tx mu).1, w)
| hs_after tx w h : hstep C (tx, w) (AfterCommit tx h, w)
| hs_register tx w p : hstep C (tx, w) ((RegisterCommitParticipant tx p).1, w).

(** The handler's world differs from the one it started in by its memory. *)
Record handled (C : loc -> Prop) (m0 : Mem) w0 (s : RollbackTx Mem * World Mem Batch) : Prop := {
  hd_undoable : undoable C m0 s.1 (w_mem s.2);
  hd_world : s.2 = set_mem w0 (w_mem s.2)
}.

Lemma undoable_set (C : loc -> Prop) m0 tx m k v o f t tx' :
  (forall k, ~ C (inl k)) -> undoable C m0 tx m -> k = (dyn_id o, f, dyn_id <$> t) ->
  RecordUndoToken tx (Some o) f t (Some (fun m' => (setField k (fieldAt k m) m', []))) = (tx', []) ->
  undoable C m0 tx' (setField k v m).
Proof.
  intros HC [Ho Hok Hc Hk Hch] Hkey. unfold RecordUndoToken, isOpen. rewrite bool_decide_true by done. cbn [negb].
  destruct (negb (dyn_comparable o)); [done|].
  destruct (match t with Some t => _ | None => false end); [done|]. rewrite <- Hkey.
  assert (Hset : forall ks, k ∈ ks -> tx_undoKeys tx ⊆ ks -> forall l, obs l (setField k v m) = obs l m0 \/ C l
            \/ exists k', l = inl k' /\ k' ∈ ks).
  { intros ks Hin Hsub l. rewrite obs_setField. case_decide as Hl; [right; right; by exists k|].
    destruct (Hch l) as [?|[?|(k' & ? & ?)]]; [by left|by right; left|]. right. right. exists k'. set_solver. }
  destruct (bool_decide_reflect (k ∈ tx_undoKeys tx)) as [Hin|Hin]; intros [= <-].
  - split; auto.
  - assert (Hold : fieldAt k m = fieldAt k m0).
    { destruct (Hch (inl k)) as [[= ?]|[?|(k' & [= <-] & ?)]]; [done|by destruct (HC k)|done]. }
    rewrite Hold. pose proof (restores_field m0 k) as Hr. split; cbn.
    + done.
    + apply Forall_app. split; [done|]. apply Forall_singleton. by eexists.
    + intros l Hl. by apply covered_app, Hc.
    + intros k' [->%elem_of_singleton|Hin']%elem_of_union; [by eapply covered_last | by apply covered_app, Hk].
    + intros l. apply Hset; set_solver.
Qed.

Lemma hstep_handled (C : loc -> Prop) m0 w0 s s' :
  (tx_policy s.1 = RollbackUndo -> forall k, ~ C (inl k)) ->
  handled C m0 w0 s -> hstep C s s' -> handled C m0 w0 s' /\ tx_policy s'.1 = tx_policy s.1.
Proof.
  intros HC [Hu Hw] Hstep. revert Hu Hw HC.
  assert (Hext : forall tx tx' w, undoable C m0 tx (w_mem w) -> tx_state tx' = tx_state tx ->
    tx_rollbacks tx' = tx_rollbacks tx -> tx_undoKeys tx' = tx_undoKeys tx -> undoable C m0 tx' (w_mem w)).
  { intros tx tx' w Hu. by apply (undoable_ext C C m0 tx tx'). }
  destruct Hstep as [tx w o f t v tx' k Hp Hkey Hrec|tx w m Hm|tx w e|tx w mu|tx w h|tx w p];
    cbn [fst snd w_mem set_mem]; intros Hu Hw HC.
  - split; [split; cbn|].
    + apply (undoable_set C m0 tx (w_mem w) k v o f t); auto.
    + by rewrite Hw at 1.
    + revert Hrec. unfold RecordUndoToken. by repeat case_match; intros [= <-].
  - split; [split; cbn|done].
    + destruct Hu as [Ho Hok Hc Hk Hch]. split; auto. intros l.
      destruct (Hm l) as [->|?]; [apply Hch | by right; left].
    + by rewrite Hw at 1.
  - unfold Emit. repeat case_match; (split; [split|]); cbn; try done; by apply (Hext tx).
  - unfold AddMutation. repeat case_match; (split; [split|]); cbn; try done; by apply (Hext tx).
  - unfold AfterCommit. repeat case_match; (split; [split|]); cbn; try done; by apply (Hext tx).
  - unfold RegisterCommitParticipant. repeat case_match; (split; [split|]); cbn; try done; by apply (Hext tx).
Qed.

Lemma hsteps_handled (C : loc -> Prop) m0 w0 s s' :
  (tx_policy s.1 = RollbackUndo -> forall k, ~ C (inl k)) ->
  rtc (hstep C) s s' -> handled C m0 w0 s -> handled C m0 w0 s'.
Proof.
  intros HC Hsteps. revert HC. induction Hsteps as [s|s1 s2 s3 Hstep _ IH]; [done|]. intros HC Hh.
  destruct (hstep_handled C m0 w0 s1 s2 HC Hh Hstep) as [Hh2 Hp]. apply IH; [|done]. by rewrite Hp.
Qed.

(** ** Commit records *)

Lemma only_records_undoable (C : loc -> Prop) m0 tx tx' m :
  undoable C m0 tx m -> only_records tx tx' -> undoable C m0 tx' m.
Proof. intros Hu []. by apply (undoable_ext C C m0 tx tx'). Qed.

Lemma AddMutation_records tx mu : only_records tx (AddMutation tx mu).1.
Proof. unfold AddMutation. repeat case_match; split; cbn; try done. by apply prefix_app_r. Qed.

Lemma addRemoteMutations_records cs : forall tx, only_records tx (addRemoteMutations tx cs).1.
Proof.
  induction cs as [|c cs IH]; intros tx; cbn; [done|].
  pose proof (AddMutation_records tx (remoteMutation c)) as Ha.
  destruct (AddMutation tx (remoteMutation c)) as [tx1 err]. destruct (failed err); [done|].
  by transitivity tx1.
Qed.

Lemma prepareParticipants_records ps : forall tx m, exists tx' err,
  prepareParticipants ps tx m = Prepared tx' m err /\ only_records tx tx'.
Proof.
  induction ps as [|p ps IH]; intros tx m; cbn [prepareParticipants]; [by eexists _, _|].
  destruct (isNilCommitParticipant (Some p)); [apply IH|].
  destruct (prepare_records p tx m) as (tx1 & err & -> & H1). destruct err as [|a err].
  - destruct (IH tx1 m) as (tx2 & err & -> & H2). eexists _, _. split; [done|]. by transitivity tx1.
  - by eexists _, _.
Qed.

Lemma prepareCommitRecord_records tx w :
  tx_state tx = rollbackTxOpen -> exists tx' err,
  prepareCommitRecord reg tx w = Prepared tx' (w_mem w) err /\ only_records tx tx' /\
  (err = [] -> prepareParticipants (tx_participants tx) tx (w_mem w) = Prepared tx' (w_mem w) []
     /\ (CommitRecord_Empty (recordOf tx' w) = false -> validateCommitRecord reg (recordOf tx' w) = [])).
Proof.
  intros Ho. unfold prepareCommitRecord, isOpen. rewrite bool_decide_true by done. cbn [negb].
  destruct (prepareParticipants_records (tx_participants tx) tx (w_mem w)) as (tx' & err & -> & Hr).
  destruct err as [|a err]; [|by exists tx', (a :: err)].
  destruct (CommitRecord_Empty (recordOf tx' w)) eqn:Ee.
  - exists tx', []. split_and!; [done..|]. intros _. split; [done|]. by rewrite Ee.
  - by exists tx', (validateCommitRecord reg (recordOf tx' w)).
Qed.

End Capturing.

(** What a committer promises: a record is in the log exactly when it was accepted,
    unless the outcome is reported as indeterminate. *)
Class CommitterLaws (c : TransactionCommitter) : Prop := {
  commit_accepts : forall r wal wal', committer_Commit c r wal = (wal', []) -> wal' = wal ++ [r];
  commit_rejects : forall r wal wal' err, committer_Commit c r wal = (wal', err) -> err <> [] ->
    errors_Is err ErrCommitIndeterminate = false -> wal' = wal;
  commit_in_doubt : forall r wal wal' err, committer_Commit c r wal = (wal', err) ->
    errors_Is err ErrCommitIndeterminate = true -> wal' = wal \/ wal' = wal ++ [r]
}.

Section Atomicity.
Context {Mem : Type} `{Application Mem} `{!Fields Mem} `{!FieldLaws Mem} `{!ApplicationLaws Mem}.
Context {Batch : Type} `{RemoteWriteBatch Batch} (reg : Registry).
Context (committer : option TransactionCommitter) (Hcommitter : forall c, committer = Some c -> CommitterLaws c).
Implicit Types (m : Mem) (tx txh : RollbackTx Mem) (w : World Mem Batch).

(** The hooks of a world: those that ran and those that wait on the guard and on the
    message. *)
Definition hooks w : list Hook * option (list Hook) * option (list Hook * list Hook) :=
  (w_ran w, w_guard w, (fun msg => (m_afterUnlock msg, m_postRemoteCommit msg)) <$> w_msg w).

Definition scheduled w : list Hook :=
  w_ran w ++ default [] (w_guard w)
  ++ match w_msg w with Some msg => m_afterUnlock msg ++ m_postRemoteCommit msg | None => [] end.

Lemma scheduled_hooks w w' : hooks w' = hooks w -> scheduled w' = scheduled w.
Proof.
  unfold hooks, scheduled. intros [= -> -> E]. do 2 f_equal.
  destruct (w_msg w'), (w_msg w); cbn in E; congruence.
Qed.

(** The record that a committed transaction appends. *)
Definition validRecord txh (r : CommitRecord) : Prop :=
  cr_ID r = tx_id txh /\ tx_effects txh `prefix_of` cr_Effects r /\ tx_mutations txh `prefix_of` cr_Mutations r
  /\ CommitRecord_Empty r = false /\ validateCommitRecord reg r = [].

(** What a transaction has to put in the log: nothing when it is in memory only and
    emitted nothing, otherwise the record of what it holds after its participants
    were asked, unless that is empty. *)
Definition toLog tx w : list CommitRecord :=
  if bool_decide (tx_durability tx = DurabilityMemory) && (len (tx_effects tx) =? 0) then [] else
  match prepareParticipants (tx_participants tx) tx (w_mem w) with
  | Prepared tx' _ _ => if CommitRecord_Empty (recordOf tx' w) then [] else [recordOf tx' w]
  | PreparePanics _ _ _ => []
  end.

(** The same for a handler that left the transaction [txh] and the memory [mh]: the
    commits of the batch of remote writes are added first. *)
Definition expectedLog w txh (mh : Mem) : list CommitRecord :=
  toLog (finalizeRemoteWriteBatch txh (set_mem w mh)).1.1 (set_mem w mh).

Lemma toLog_ext tx w w' :
  w_mem w' = w_mem w -> w_ctx w' = w_ctx w -> w_now w' = w_now w -> toLog tx w' = toLog tx w.
Proof. intros E1 E2 E3. unfold toLog, recordOf. by rewrite E1, E2, E3. Qed.

Lemma finalize_ext tx w w' :
  w_msg w' = w_msg w -> w_ctx w' = w_ctx w -> w_now w' = w_now w ->
  (finalizeRemoteWriteBatch tx w').1.1 = (finalizeRemoteWriteBatch tx w).1.1.
Proof.
  intros E1 E2 E3. unfold finalizeRemoteWriteBatch, batchOf. rewrite E1, E2, E3.
  destruct (w_msg w) as [msg|]; [cbn|done]. destruct (m_RemoteWriteBatch msg) as [b|]; [cbn|done].
  destruct (m_remoteFinalized msg); [done|]. destruct (FinalizeLocked _ b) as [b' e].
  destruct (failed e); [done|]. destruct (addRemoteMutations tx (Commits b')) as [tx1 e1]. by destruct (failed e1).
Qed.

(** The hook of the committer, if it wants to be notified. *)
Definition released txh : list Hook :=
  match committer with
  | Some c => if committer_notifies c then [ReleasedHook (tx_id txh)] else []
  | None => []
  end.

(** What a transaction comes to, from the world [w] before it and the handler's
    transaction, memory and result. *)
Inductive outcome (w : World Mem Batch) txh (mh : Mem) (rh : callResult)
    : RollbackTx Mem -> World Mem Batch -> callResult -> Prop :=
| RolledBack tx w' r :
    same (w_mem w') (w_mem w) -> w_wal w' = w_wal w -> hooks w' = hooks w ->
    tx_state tx = rollbackTxRolledBack ->
    resultError r <> [] -> (forall p, rh = Panics p -> r = rh) ->
    outcome w txh mh rh tx w' r
| InDoubt tx w' ret err :
    rh = Returns ret [] ->
    w_mem w' = mh -> hooks w' = hooks w ->
    (w_wal w' = w_wal w
     \/ (w_wal w' = w_wal w ++ expectedLog w txh mh /\ Forall (validRecord txh) (expectedLog w txh mh))) ->
    tx_state tx = rollbackTxCommitted -> errors_Is err ErrCommitIndeterminate = true ->
    outcome w txh mh rh tx w' (Returns ret err)
| Committed tx w' ret ran :
    rh = Returns ret [] ->
    w_wal w' = w_wal w ++ expectedLog w txh mh -> Forall (validRecord txh) (expectedLog w txh mh) ->
    (tx_effects txh <> [] \/ (tx_durability txh <> DurabilityMemory /\ tx_mutations txh <> []) ->
     exists rec, expectedLog w txh mh = [rec]) ->
    scheduled w' ≡ₚ scheduled w ++ tx_commits txh ++ released txh ->
    w_ran w' = w_ran w ++ ran -> w_mem w' = foldl (fun m h => hookEffect h m) mh ran ->
    tx_state tx = rollbackTxCommitted ->
    outcome w txh mh rh tx w' (Returns ret []).

Lemma abort_frame w err w' abortErr :
  abortRemoteWriteBatchLocked w err = (w', abortErr) ->
  w_mem w' = w_mem w /\ w_wal w' = w_wal w /\ hooks w' = hooks w.
Proof.
  unfold abortRemoteWriteBatchLocked, batchOf. destruct (w_msg w) as [msg|] eqn:Em; cbn; [|by intros [= <- _]].
  destruct (m_RemoteWriteBatch msg) as [b|]; cbn; [|by intros [= <- _]].
  destruct (BatchAbort err b) as [b' e]. intros [= <- _]. split_and!; [done..|]. unfold hooks. by rewrite Em.
Qed.

Lemma mark_frame w err w' markErr :
  markRemoteWriteIndeterminateLocked w err = (w', markErr) ->
  w_mem w' = w_mem w /\ w_wal w' = w_wal w /\ hooks w' = hooks w.
Proof.
  unfold markRemoteWriteIndeterminateLocked, batchOf. destruct (w_msg w) as [msg|] eqn:Em; cbn; [|by intros [= <- _]].
  destruct (m_RemoteWriteBatch msg) as [b|]; cbn; [|by intros [= <- _]].
  destruct (BatchIndeterminate err b) as [b' e]. case_match; intros [= <- _];
    (split_and!; [done..|]); unfold hooks; by rewrite Em.
Qed.

Lemma finalize_frame tx w tx' w' err :
  finalizeRemoteWriteBatch tx w = (tx', w', err) ->
  only_records tx tx' /\ w_mem w' = w_mem w /\ w_wal w' = w_wal w /\ hooks w' = hooks w
  /\ w_ctx w' = w_ctx w /\ w_now w' = w_now w.
Proof.
  unfold finalizeRemoteWriteBatch, batchOf.
  assert (Hrefl : only_records tx tx) by by split.
  destruct (w_msg w) as [msg|] eqn:Em; cbn; [|by intros [= <- <- _]].
  destruct (m_RemoteWriteBatch msg) as [b|]; cbn; [|by intros [= <- <- _]].
  destruct (m_remoteFinalized msg); [by intros [= <- <- _]|].
  destruct (FinalizeLocked _ b) as [b' e]. pose proof (addRemoteMutations_records (Commits b') tx) as Hr.
  destruct (addRemoteMutations tx (Commits b')) as [tx1 e1].
  repeat case_match; intros [= <- <- _]; (split_and!; try done); unfold hooks; by rewrite Em.
Qed.

(** The world after the handler differs from [w] by its memory and the number of the
    transaction. *)
Definition aside w wh : Prop :=
  w_wal wh = w_wal w /\ hooks wh = hooks w /\ w_msg wh = w_msg w /\ w_ctx wh = w_ctx w /\ w_now wh = w_now w.

(** *** Rolling back *)

Lemma rollbackWith_outcome C w tx wh ret rh err tx' w' r txh :
  undoable C (w_mem w) tx (w_mem wh) -> w_wal wh = w_wal w -> hooks wh = hooks w ->
  err <> [] -> (forall p, rh <> Panics p) ->
  rollbackWith tx wh ret err = (tx', w', r) -> outcome w txh (w_mem wh) rh tx' w' r.
Proof.
  intros Hu Hwal Hhooks He Hrh. unfold rollbackWith.
  destruct (abortRemoteWriteBatchLocked wh err) as [w1 abortErr] eqn:Ea.
  destruct (abort_frame _ _ _ _ Ea) as (Hm & Hw & Hh). rewrite Hm.
  destruct (undoable_Rollback C (w_mem w) tx (w_mem wh) Hu) as (tx1 & m1 & -> & Hs & Ht).
  intros [= <- <- <-]. apply RolledBack; cbn; [done|congruence| |done| |].
  - change (hooks (set_mem w1 m1)) with (hooks w1). congruence.
  - destruct err; [done|]. done.
  - intros p Hp. by destruct (Hrh p).
Qed.

(** *** Committing *)

Definition appended tx w (wal' : list CommitRecord) : Prop :=
  wal' = w_wal w ++ toLog tx w /\ Forall (validRecord tx) (toLog tx w)
  /\ (tx_effects tx <> [] \/ (tx_durability tx <> DurabilityMemory /\ tx_mutations tx <> []) ->
      exists rec, toLog tx w = [rec]).

(** The three ways [durableCommit] ends. *)
Inductive durably tx w (wal' : list CommitRecord) (err : error) : Prop :=
| Durable : err = [] -> appended tx w wal' -> durably tx w wal' err
| Refused : err <> [] -> errors_Is err ErrCommitIndeterminate = false -> wal' = w_wal w -> durably tx w wal' err
| Doubtful : errors_Is err ErrCommitIndeterminate = true ->
    (wal' = w_wal w \/ (wal' = w_wal w ++ toLog tx w /\ Forall (validRecord tx) (toLog tx w))) -> durably tx w wal' err.

Lemma nothing_held tx :
  tx_effects tx = [] -> (tx_durability tx = DurabilityMemory \/ tx_mutations tx = []) ->
  ~ (tx_effects tx <> [] \/ (tx_durability tx <> DurabilityMemory /\ tx_mutations tx <> [])).
Proof. tauto. Qed.

Lemma durably_nothing tx w :
  toLog tx w = [] -> tx_effects tx = [] -> (tx_durability tx = DurabilityMemory \/ tx_mutations tx = []) ->
  durably tx w (w_wal w) [].
Proof.
  intros El He Hd. apply Durable; [done|]. unfold appended. rewrite El, app_nil_r. split_and!; [done|by constructor|].
  intros Hn. by destruct (nothing_held tx He Hd).
Qed.

Lemma durably_failed tx w err : err <> [] -> durably tx w (w_wal w) err.
Proof.
  intros He. destruct (errors_Is err ErrCommitIndeterminate) eqn:Ei; [by apply Doubtful; [|left] | by apply Refused].
Qed.

Lemma record_empty tx tx' w :
  only_records tx tx' -> CommitRecord_Empty (recordOf tx' w) = true -> tx_effects tx = [] /\ tx_mutations tx = [].
Proof.
  intros Hr He. unfold CommitRecord_Empty in He. rewrite andb_true_iff, !len_zero_true in He. cbn in He.
  destruct He as [Hm He]. pose proof (or_effects _ _ Hr) as Hp. pose proof (or_mutations _ _ Hr) as Hq.
  rewrite He in Hp. rewrite Hm in Hq. split; by apply prefix_nil_inv.
Qed.

Lemma committer_durably tx tx' w c wal err :
  only_records tx tx' -> CommitterLaws c -> toLog tx w = [recordOf tx' w] ->
  CommitRecord_Empty (recordOf tx' w) = false -> validateCommitRecord reg (recordOf tx' w) = [] ->
  committer_Commit c (recordOf tx' w) (w_wal w) = (wal, err) ->
  durably tx w wal
    (if failed err then if errors_Is err ErrCommitIndeterminate then err else ErrCommitRejected :: err else []).
Proof.
  intros Hr Hc El Hne Hv E.
  assert (Hvalid : Forall (validRecord tx) (toLog tx w)) by (rewrite El; apply Forall_singleton; destruct Hr; by split_and!).
  destruct (failed err) eqn:Ef.
  - destruct (errors_Is err ErrCommitIndeterminate) eqn:Ei.
    + apply Doubtful; [done|]. destruct (commit_in_doubt _ _ _ _ E Ei) as [->| ->]; [by left|right]. by rewrite El in *.
    + apply Refused; [done| |apply (commit_rejects _ _ _ _ E); [by intros ->|done]].
      unfold errors_Is in *. apply bool_decide_eq_false in Ei. apply bool_decide_eq_false.
      rewrite elem_of_cons. by intros [?|?].
  - apply failed_nil in Ef as ->. apply Durable; [done|]. unfold appended.
    rewrite (commit_accepts _ _ _ E). split_and!; [by rewrite El|done|by exists (recordOf tx' w)].
Qed.

Lemma durableCommit_spec tx w :
  tx_state tx = rollbackTxOpen -> exists tx' w' err,
  durableCommit reg committer tx w = DurableReturns tx' w' err /\ only_records tx tx' /\
  w_mem w' = w_mem w /\ hooks w' = hooks w /\ w_ran w' = w_ran w /\ durably tx w (w_wal w') err.
Proof.
  intros Ho. unfold durableCommit.
  assert (Hrefl : only_records tx tx) by by split.
  case_match eqn:Emem.
  { eexists tx, w, []. split_and!; [done..|]. apply durably_nothing; [unfold toLog; by rewrite Emem|..];
      apply andb_true_iff in Emem as [Hm%bool_decide_eq_true He%len_zero_true]; [done|by left]. }
  destruct (prepareCommitRecord_records reg tx w Ho) as (tx' & err & -> & Hr & Hv).
  destruct err as [|a err].
  2:{ eexists tx', _, (a :: err). split_and!; [done..|]. by apply (durably_failed tx w). }
  destruct (Hv eq_refl) as [Hprep Hvalid].
  assert (El : toLog tx w = if CommitRecord_Empty (recordOf tx' w) then [] else [recordOf tx' w])
    by (unfold toLog; by rewrite Emem, Hprep).
  assert (Erec : recordOf tx' (set_mem w (w_mem w)) = recordOf tx' w) by done. cbv zeta. rewrite Erec.
  destruct (CommitRecord_Empty (recordOf tx' w)) eqn:Ee.
  { eexists tx', _, []. split_and!; [done..|]. destruct (record_empty tx tx' w Hr Ee) as [He Hm].
    apply (durably_nothing tx w); [done|done|by right]. }
  destruct committer as [c|] eqn:Ec.
  - destruct (committer_Commit c (recordOf tx' w) (w_wal (set_mem w (w_mem w)))) as [wal err] eqn:E.
    pose proof (committer_durably tx tx' w c wal err Hr (Hcommitter c eq_refl) El Ee (Hvalid eq_refl) E) as Hd.
    repeat case_match; eexists tx', _, _; by split_and!.
  - case_match eqn:Ed; [eexists tx', _, _; (split_and!; [done..|]); by apply (durably_failed tx w)|]. exfalso.
    apply orb_false_iff in Ed as [Hmem%negb_false_iff%bool_decide_eq_true Hl].
    apply andb_false_iff in Emem as [Hnm%bool_decide_eq_false|Hne]; [by apply (or_durability _ _ Hr)|].
    assert (He : cr_Effects (recordOf tx' w) = [])
      by (apply len_zero_true; pose proof (len_nonneg (cr_Effects (recordOf tx' w))); lia).
    pose proof (or_effects _ _ Hr) as Hp. cbn in He. rewrite He in Hp. apply prefix_nil_inv in Hp. by rewrite Hp in Hne.
Qed.

Lemma runHooks_spec hs : forall w,
  w_ran (runHooks w hs) = w_ran w ++ hs /\ w_wal (runHooks w hs) = w_wal w /\
  w_guard (runHooks w hs) = w_guard w /\ w_msg (runHooks w hs) = w_msg w /\
  w_mem (runHooks w hs) = foldl (fun m h => hookEffect h m) (w_mem w) hs.
Proof.
  induction hs as [|h hs IH]; intros w; [cbn; by rewrite app_nil_r|].
  change (runHooks w (h :: hs)) with (runHooks (runHook w h) hs).
  destruct (IH (runHook w h)) as (-> & -> & -> & -> & ->). cbn. by rewrite <- app_assoc.
Qed.

Lemma Tx_Commit_spec tx w tx' w' :
  tx_state tx = rollbackTxOpen -> Commit tx w = (tx', w') ->
  tx_state tx' = rollbackTxCommitted /\ w_wal w' = w_wal w /\
  scheduled w' ≡ₚ scheduled w ++ tx_commits tx /\
  exists ran, w_ran w' = w_ran w ++ ran /\ w_mem w' = foldl (fun m h => hookEffect h m) (w_mem w) ran.
Proof.
  intros Ho. unfold Commit, isOpen. rewrite bool_decide_true by done. cbn [negb]. cbv zeta.
  change (tx_commits (closeTx tx (tx_commits tx))) with (tx_commits tx).
  destruct (len (tx_commits tx) =? 0) eqn:El.
  { intros [= <- <-]. apply len_zero_true in El. rewrite El, app_nil_r. split_and!; [done..|].
    exists []. by rewrite app_nil_r. }
  destruct (batchOf w) as [[msg b]|] eqn:Eb.
  { intros [= <- <-]. split_and!; [done..| |exists []; by rewrite app_nil_r].
    unfold batchOf in Eb. destruct (w_msg w) as [msg'|] eqn:Em; [|done]. cbn in Eb.
    destruct (m_RemoteWriteBatch msg'); [|done]. cbn in Eb. injection Eb as <- <-.
    unfold scheduled. rewrite Em. cbn. solve_Permutation. }
  destruct (w_guard w) as [post|] eqn:Eg; intros [= <- <-].
  { split_and!; [done..| |exists []; by rewrite app_nil_r]. unfold scheduled. rewrite Eg. cbn. solve_Permutation. }
  destruct (runHooks_spec (tx_commits tx) w) as (E1 & E2 & E3 & E4 & E5).
  split_and!; [done|done| |by eexists]. unfold scheduled. rewrite E1, E3, E4. solve_Permutation.
Qed.

Lemma notify_spec tx w tx' w' :
  tx_state tx = rollbackTxOpen -> notifyReleased committer tx w = (tx', w') ->
  tx_state tx' = rollbackTxOpen /\ w_wal w' = w_wal w /\ w_mem w' = w_mem w /\ w_ran w' = w_ran w /\
  scheduled w' ++ tx_commits tx' ≡ₚ scheduled w ++ tx_commits tx ++ released tx.
Proof.
  intros Ho. unfold notifyReleased, released.
  destruct committer as [c|]; [|intros [= <- <-]; split_and!; [done..|by rewrite app_nil_r]].
  destruct (committer_notifies c); [|intros [= <- <-]; split_and!; [done..|by rewrite app_nil_r]].
  unfold batchOf, AfterCommit, isOpen. rewrite bool_decide_true by done.
  destruct (w_msg w) as [msg|] eqn:Em; cbn; [|by intros [= <- <-]].
  destruct (m_RemoteWriteBatch msg); cbn; [|by intros [= <- <-]].
  intros [= <- <-]. split_and!; [done..|]. unfold scheduled. rewrite Em. cbn. solve_Permutation.
Qed.

Lemma validRecord_mono tx tx' r : only_records tx tx' -> validRecord tx' r -> validRecord tx r.
Proof.
  intros Hr (Hid & Heff & Hmut & Hv). destruct Hr. split_and!; [congruence|by etrans..|apply Hv|apply Hv].
Qed.

Lemma appended_mono tx tx' w wal' : only_records tx tx' -> appended tx' w wal' ->
  wal' = w_wal w ++ toLog tx' w /\ Forall (validRecord tx) (toLog tx' w)
  /\ (tx_effects tx <> [] \/ (tx_durability tx <> DurabilityMemory /\ tx_mutations tx <> []) ->
      exists rec, toLog tx' w = [rec]).
Proof.
  intros Hr (-> & Hv & He). split_and!; [done| |].
  - eapply Forall_impl; [done|]. intros r. by apply validRecord_mono.
  - intros Htx. apply He. destruct Hr as [_ _ _ _ _ Hd Heff Hmut].
    destruct Htx as [Hn|[Hn Hm]]; [left|right; split; [by apply Hd|]].
    + intros E. rewrite E in Heff. by apply prefix_nil_inv in Heff.
    + intros E. rewrite E in Hmut. by apply prefix_nil_inv in Hmut.
Qed.

(** The commit point was passed: the hooks are handed over and the state stays. *)
Lemma committed_outcome w txh tx wh tx1 w1 tx2 w2 mh ret :
  only_records txh tx -> tx_state tx = rollbackTxOpen -> hooks wh = hooks w -> w_mem wh = mh ->
  w_wal wh = w_wal w ++ expectedLog w txh mh -> Forall (validRecord txh) (expectedLog w txh mh) ->
  (tx_effects txh <> [] \/ (tx_durability txh <> DurabilityMemory /\ tx_mutations txh <> []) ->
     exists rec, expectedLog w txh mh = [rec]) ->
  notifyReleased committer tx wh = (tx1, w1) -> Commit tx1 w1 = (tx2, w2) ->
  outcome w txh mh (Returns ret []) tx2 w2 (Returns ret []).
Proof.
  intros Hr Ho Hh Hm Hw Hv He En Ec.
  destruct (notify_spec _ _ _ _ Ho En) as (Ho1 & Hw1 & Hm1 & Hr1 & Hs1).
  destruct (Tx_Commit_spec _ _ _ _ Ho1 Ec) as (Ho2 & Hw2 & Hs2 & ran & Hran & Hmem).
  apply (Committed _ _ _ _ _ _ _ ran); try done.
  - congruence.
  - rewrite Hs2, Hs1. rewrite (scheduled_hooks w wh Hh). destruct Hr as [Eid _ _ _ Ecs _ _ _].
    unfold released. by rewrite Ecs, Eid.
  - rewrite Hran, Hr1. unfold hooks in Hh. congruence.
  - congruence.
Qed.

Lemma commitTransaction_outcome C w txh wh ret tx' w' r :
  undoable C (w_mem w) txh (w_mem wh) -> aside w wh ->
  commitTransaction reg committer txh wh ret = (tx', w', r) ->
  outcome w txh (w_mem wh) (Returns ret []) tx' w' r.
Proof.
  intros Hu (Hwal & Hh & Hmsg & Hctx & Hnow). unfold commitTransaction.
  destruct (finalizeRemoteWriteBatch txh wh) as [[tx1 w1] e1] eqn:Ef.
  destruct (finalize_frame _ _ _ _ _ Ef) as (Hr1 & Hm1 & Hw1 & Hh1 & Hc1 & Hn1).
  assert (Elog : expectedLog w txh (w_mem w1) = toLog tx1 w1).
  { unfold expectedLog. rewrite (finalize_ext txh wh (set_mem w (w_mem w1))) by done. rewrite Ef. apply toLog_ext; cbn; congruence. }
  pose proof (only_records_undoable _ _ _ _ _ Hu Hr1) as Hu1. rewrite <- Hm1 in Hu1.
  assert (Hdone : forall p, Returns ret [] <> Panics p) by done. rewrite <- Hm1.
  destruct (failed e1) eqn:Ee.
  { intros E. assert (Hwal1 : w_wal w1 = w_wal w) by congruence. assert (Hh' : hooks w1 = hooks w) by congruence.
    assert (He1 : e1 <> []) by by intros ->.
    exact (rollbackWith_outcome C w tx1 w1 ret _ e1 tx' w' r txh Hu1 Hwal1 Hh' He1 Hdone E). }
  destruct (durableCommit_spec tx1 w1 (ua_open _ _ _ _ Hu1)) as (tx2 & w2 & err & -> & Hr2 & Hm2 & Hh2 & _ & Hd).
  pose proof (only_records_undoable _ _ _ _ _ Hu1 Hr2) as Hu2. rewrite <- Hm2 in Hu2.
  assert (Hr : only_records txh tx2) by by transitivity tx1.
  assert (Hwal1 : w_wal w1 = w_wal w) by congruence.
  assert (Hhw : hooks w2 = hooks w) by congruence.
  rewrite <- Hm2 in Elog |- *.
  destruct Hd as [-> Hd|He Hi Hd|Hi Hd].
  - destruct (notifyReleased committer tx2 w2) as [tx3 w3] eqn:En. destruct (Commit tx3 w3) as [tx4 w4] eqn:Ec.
    intros [= <- <- <-]. destruct (appended_mono txh tx1 w1 (w_wal w2) Hr1 Hd) as (Ha & Hv & Hn).
    rewrite <- Elog, ?Hwal1 in *.
    apply (committed_outcome w txh tx2 w2 tx3 w3 _ _ (w_mem w2) ret); auto. apply Hu2.
  - destruct err as [|a err]; [done|]. rewrite Hi. intros E. rewrite Hwal1 in Hd.
    exact (rollbackWith_outcome C w tx2 w2 ret _ _ tx' w' r txh Hu2 Hd Hhw He Hdone E).
  - destruct err as [|a err]; [done|]. rewrite Hi.
    destruct (markRemoteWriteIndeterminateLocked w2 (a :: err)) as [w3 me] eqn:Em.
    destruct (mark_frame _ _ _ _ Em) as (Hm3 & Hw3 & Hh3). intros [= <- <- <-].
    apply InDoubt; [done|done|congruence| | |].
    + rewrite Hw3, Elog, <- Hwal1. destruct Hd as [->|[-> Hv]]; [by left|]. right. split; [done|].
      eapply Forall_impl; [exact Hv|]. intros rec. by apply validRecord_mono.
    + unfold abandon, isOpen. rewrite bool_decide_true by apply Hu2. done.
    + unfold errors_Is in *. apply bool_decide_eq_true in Hi. apply bool_decide_eq_true.
      rewrite app_comm_cons, elem_of_app. by left.
Qed.

Lemma closeTransaction_outcome C w txh wh rh tx' w' r :
  undoable C (w_mem w) txh (w_mem wh) -> aside w wh ->
  closeTransaction reg committer txh wh rh = (tx', w', r) ->
  outcome w txh (w_mem wh) rh tx' w' r.
Proof.
  intros Hu Ha. pose proof Ha as (Hwal & Hh & _). unfold closeTransaction.
  destruct (undoable_Rollback C (w_mem w) txh (w_mem wh) Hu) as (tx1 & m1 & -> & Hs & Ht).
  destruct rh as [ret [|a err]|p].
  - by apply commitTransaction_outcome with C.
  - intros [= <- <- <-]. by apply RolledBack.
  - intros [= <- <- <-]. apply RolledBack; try done. by destruct p.
Qed.

(** *** The whole transaction *)

(** A handler that reaches the state only in the ways of [hstep]. *)
Definition disciplined (C : loc -> Prop) (call : handlerCall Mem Batch) : Prop :=
  forall tx w (tx' : option (RollbackTx Mem)) w' r, call (Some tx) w = (tx', w', r) ->
  exists txh, tx' = Some txh /\ rtc (hstep C) (tx, w) (txh, w').

Lemma captured_undo es k : ~ captured RollbackUndo es (inl k).
Proof.
  intros (e & _ & [[? _]|(daos & _ & dao & _ & Hl)]); [done|].
  revert Hl. unfold capturedDao. by intros (t & _ & ?).
Qed.

Lemma undoable_start (C : loc -> Prop) m meta id handler :
  (forall l, ~ C l) ->
  undoable C m (mkTx id (hm_Rollback meta) (hm_Durability meta) handler rollbackTxOpen [] [] ∅ [] [] ∅ [] ∅ false) m.
Proof.
  intros HC. split; cbn; [done|by apply Forall_nil| | |by left].
  - intros l Hl. by destruct (HC l).
  - intros k Hk. by apply elem_of_empty in Hk.
Qed.

Lemma withTx_restore (c : Ctx) id : withTx (withTx c id) (c_tx c) = c.
Proof. by destruct c. Qed.

Lemma withRollbackTx_handled C w tx (call : handlerCall Mem Batch) c tx' w' r :
  disciplined C call -> w_ctx w = Some c -> (tx_policy tx = RollbackUndo -> forall k, ~ C (inl k)) ->
  undoable C (w_mem w) tx (w_mem w) -> withRollbackTx tx w call = (tx', w', r) ->
  undoable C (w_mem w) tx' (w_mem w') /\ w' = set_mem w (w_mem w') /\
  exists w0 w1, w_mem w0 = w_mem w /\ w_mem w1 = w_mem w' /\ call (Some tx) w0 = (Some tx', w1, r).
Proof.
  intros Hd Hc HC Hu. unfold withRollbackTx. rewrite Hc.
  set (w0 := set_ctx w (Some (withTx c (Some (tx_id tx))))).
  destruct (call (Some tx) w0) as [[tx1 w1] r1] eqn:Ecall. intros [= Et <- <-].
  destruct (Hd _ _ _ _ _ Ecall) as (txh & -> & Hsteps). cbn in Et. subst txh.
  destruct (hsteps_handled C (w_mem w) w0 (tx, w0) (tx', w1) HC Hsteps) as [Hh Hw]; [by split|].
  cbn in Hh, Hw. split_and!; [exact Hh| |by exists w0, w1]. rewrite Hw. unfold w0, set_ctx, set_mem. cbn.
  f_equal. by rewrite withTx_restore, Hc.
Qed.

(** C2. A handler run under a rollback policy, which reaches the state only by recording an undo before
    it writes, by writing what was captured and by adding to its transaction, leaves no trace unless it
    commits.  If the capture fails the handler is not run.  If the handler fails or panics, or the batch or
    the record is refused, every field and every tracker is as before, the log is as before, no hook was run
    or handed over, and a panic is passed on.  If the outcome of the commit is in doubt the handler's state
    stays, no hook is handed over, and the log has at most the record of this transaction.  Otherwise the
    handler's state stays, the log has grown by exactly what the transaction, its batch of remote writes and its
    participants hold ([expectedLog]: one valid record when the handler emitted anything, or added a mutation
    to a transaction that is not in memory only; none when there is nothing to log), and every hook is run
    or handed over exactly once.  Participants may refuse in [PrepareCommit] but do not panic there
    ([ApplicationLaws]; [prepare_panic_keeps_writes] shows what happens otherwise), and snapshots, custom
    participants and the committer keep their contracts ([ApplicationLaws], [CommitterLaws]). *)
Theorem invokeWithTransaction_atomic meta es handler (call : handlerCall Mem Batch) w c
    (tx' : option (RollbackTx Mem)) w' r :
  hm_Rollback meta <> RollbackNone -> w_ctx w = Some c ->
  (forall e e', Some e ∈ es -> Some e' ∈ es -> en_GUId e = en_GUId e' -> e = e') ->
  disciplined (captured (hm_Rollback meta) es) call ->
  invokeWithTransaction reg meta es committer handler call w = (tx', w', r) ->
  (w_mem w' = w_mem w /\ w_wal w' = w_wal w /\ hooks w' = hooks w /\ resultError r <> [])
  \/ exists tx txh w0 w1 rh tx0,
       tx' = Some tx /\ w_mem w0 = w_mem w /\ call (Some tx0) w0 = (Some txh, w1, rh) /\
       outcome w txh (w_mem w1) rh tx w' r.
Proof.
  intros Hp Hc Huniq Hd. unfold invokeWithTransaction, plainCall. rewrite (bool_decide_false _ Hp). cbn [andb].
  unfold startTx. destruct (newTransactionID (w_prefix w) (w_seq w)) as [seq id].
  set (tx0 := mkTx id _ _ handler _ _ _ _ _ _ _ _ _ _). set (w0 := mkWorld _ _ _ _ _ _ _ _ _).
  assert (Hcap : capture_ok (fun _ => False) (captured (hm_Rollback meta) es) (w_mem w0) tx0
                   (CaptureEntities reg tx0 w0 es)) by by apply captureFrom_ok.
  destruct (CaptureEntities reg tx0 w0 es) as [[tx1 m1] err]. destruct Hcap as [Hm Hok]. cbn in Hm, Hok. subst m1.
  destruct (failed err) eqn:Ef.
  { intros [= <- <- <-]. left. split_and!; try done. cbn. by intros ->. }
  apply failed_nil in Ef. destruct (Hok Ef) as [Hcore Hu0].
  assert (Hu : undoable (captured (hm_Rollback meta) es) (w_mem w) tx1 (w_mem w)).
  { apply (undoable_ext (fun l => False \/ captured (hm_Rollback meta) es l) _ _ tx1); [|intros l; tauto|done..].
    apply Hu0, undoable_start. intros l []. }
  set (w2 := set_mem w0 (w_mem w)). destruct (withRollbackTx tx1 w2 call) as [[tx2 w3] rh] eqn:Ew.
  destruct (withRollbackTx_handled (captured (hm_Rollback meta) es) w2 tx1 call c tx2 w3 rh) as (Hu2 & Hw3 & w4 & w5 & Hm4 & Hm5 & Ecall);
    [done|done| |done|done|].
  { intros Hpol k. rewrite (txCore_policy _ _ Hcore) in Hpol. cbn in Hpol. rewrite Hpol. apply captured_undo. }
  destruct (closeTransaction reg committer tx2 w3 rh) as [[tx3 w6] r'] eqn:Ecl. intros [= <- <- <-]. right.
  exists tx3, tx2, w4, w5, rh, tx1. split_and!; [done|done|done|]. rewrite Hm5.
  assert (Ha : aside w w3) by (unfold aside; rewrite Hw3; by split_and!).
  exact (closeTransaction_outcome _ w tx2 w3 rh tx3 w6 r' Hu2 Ha Ecl).
Qed.

End Atomicity.

(** ** Well-formed transactions *)

Section WellFormed.
Context {Mem : Type}.
Implicit Types (tx : RollbackTx Mem).

Definition effect_ok (e : Effect) : Prop := ef_ID e <> "" /\ ef_Topic e <> "".

Record tx_wf tx : Prop := {
  wf_effects : Forall effect_ok (tx_effects tx);
  wf_effect_ids : NoDup (ef_ID <$> tx_effects tx);
  wf_effect_keys : tx_state tx = rollbackTxOpen -> tx_effectIDs tx = list_to_set (ef_ID <$> tx_effects tx);
  wf_durability : tx_effects tx <> [] -> tx_durability tx <> DurabilityMemory;
  wf_mutations : Forall (fun mu => invalidMutation mu = false) (tx_mutations tx);
  wf_mutation_keys : NoDup (keyOf <$> tx_mutations tx);
  wf_mutation_set : tx_state tx = rollbackTxOpen -> tx_mutationKeys tx = list_to_set (keyOf <$> tx_mutations tx);
  wf_participants : NoDup (dyn_id <$> tx_participants tx);
  wf_usable : Forall (fun p => dyn_comparable p = true /\ dyn_nilPointer p = false) (tx_participants tx);
  wf_closed : tx_state tx = rollbackTxRolledBack -> tx_commits tx = [] /\ tx_mutations tx = [] /\ tx_effects tx = []
}.

Lemma append_nonempty a b : (a +:+ ":" +:+ b)%string <> ""%string.
Proof. by destruct a. Qed.

Lemma withID_ok tx e : ef_Topic e <> "" -> effect_ok (withID tx e).
Proof. intros Ht. unfold withID. case_bool_decide; (split; [|done]); [apply append_nonempty|done]. Qed.

Lemma isOpen_true tx : negb (isOpen tx) = false <-> tx_state tx = rollbackTxOpen.
Proof. unfold isOpen. rewrite negb_false_iff. apply bool_decide_eq_true. Qed.

(** Adding an element whose key is new. *)
Lemma NoDup_snoc_key {A K} `{Countable K} (key : A -> K) (l : list A) (x : A) (s : gset K) :
  s = list_to_set (key <$> l) -> (key x ∉ s) -> NoDup (key <$> l) ->
  NoDup (key <$> l ++ [x]) /\ {[ key x ]} ∪ s = list_to_set (key <$> l ++ [x]).
Proof.
  intros -> Hn Hd. rewrite fmap_app, list_to_set_app_L. cbn. split; [|set_solver].
  apply NoDup_app. split_and!; [done| |by apply NoDup_singleton]. set_solver.
Qed.

Lemma Emit_wf tx e : tx_wf tx -> tx_wf (Emit tx e).1.
Proof.
  intros Hwf. unfold Emit. destruct (negb (isOpen tx)) eqn:Eo; [done|]. apply isOpen_true in Eo.
  destruct (bool_decide_reflect (ef_Topic e = "")) as [?|Ht]; [done|].
  destruct (bool_decide_reflect (ef_ID (withID tx e) ∈ tx_effectIDs tx)) as [?|Hn]; [done|]. destruct Hwf.
  destruct (NoDup_snoc_key ef_ID (tx_effects tx) (withID tx e) (tx_effectIDs tx)) as [Hd Hs]; auto.
  split; cbn; auto.
  - apply Forall_app. split; [done|]. by apply Forall_singleton, withID_ok.
  - intros _. by case_bool_decide.
  - intros Hr. congruence.
Qed.

Lemma AddMutation_wf tx mu : tx_wf tx -> tx_wf (AddMutation tx mu).1.
Proof.
  intros Hwf. unfold AddMutation. destruct (negb (isOpen tx)) eqn:Eo; [done|]. apply isOpen_true in Eo.
  destruct (invalidMutation mu) eqn:Ei; [done|].
  destruct (bool_decide_reflect (keyOf mu ∈ tx_mutationKeys tx)) as [?|Hn]; [done|]. destruct Hwf.
  destruct (NoDup_snoc_key keyOf (tx_mutations tx) mu (tx_mutationKeys tx)) as [Hd Hs]; auto.
  split; cbn; auto.
  - apply Forall_app. split; [done|]. by apply Forall_singleton.
  - intros Hr. congruence.
Qed.

Lemma RegisterCommitParticipant_wf tx p : tx_wf tx -> tx_wf (RegisterCommitParticipant tx p).1.
Proof.
  intros Hwf. unfold RegisterCommitParticipant. destruct (negb (isOpen tx)) eqn:Eo; [done|].
  destruct p as [p|]; [|done]. cbn [isNilCommitParticipant]. destruct (dyn_nilPointer p) eqn:En; [done|].
  destruct (negb (dyn_comparable p)) eqn:Ec; [done|]. apply negb_false_iff in Ec.
  destruct (bool_decide_reflect (dyn_id p ∈ dyn_id <$> tx_participants tx)) as [?|Hn]; [done|]. destruct Hwf.
  split; cbn; auto.
  - rewrite fmap_app. apply NoDup_app. split_and!; [done|set_solver|by apply NoDup_singleton].
  - apply Forall_app. split; [done|]. by apply Forall_singleton.
Qed.

Lemma wf_same tx tx' :
  tx_wf tx -> tx_effects tx' = tx_effects tx -> tx_effectIDs tx' = tx_effectIDs tx ->
  tx_durability tx' = tx_durability tx -> tx_mutations tx' = tx_mutations tx ->
  tx_mutationKeys tx' = tx_mutationKeys tx -> tx_participants tx' = tx_participants tx ->
  tx_state tx' = tx_state tx -> (tx_state tx = rollbackTxRolledBack -> tx_commits tx' = tx_commits tx) ->
  tx_wf tx'.
Proof.
  intros [] E1 E2 E3 E4 E5 E6 E7 E8. split; rewrite ?E1, ?E2, ?E3, ?E4, ?E5, ?E6, ?E7; auto.
  intros Hs. rewrite E8 by done. auto.
Qed.

Lemma AfterCommit_wf tx h : tx_wf tx -> tx_wf (AfterCommit tx h).
Proof.
  intros Hwf. unfold AfterCommit. destruct h; [|done]. destruct (isOpen tx) eqn:Eo; [|done].
  apply bool_decide_eq_true in Eo. apply (wf_same tx); try done. intros. congruence.
Qed.

Lemma DeferRollback_wf tx fn : tx_wf tx -> tx_wf (DeferRollback tx fn).
Proof. intros Hwf. unfold DeferRollback. destruct fn; [|done]. destruct (isOpen tx); [|done]. by apply (wf_same tx). Qed.

Lemma RecordUndoToken_wf tx o f t fn : tx_wf tx -> tx_wf (RecordUndoToken tx o f t fn).1.
Proof. intros Hwf. unfold RecordUndoToken. repeat case_match; try done; by apply (wf_same tx). Qed.

Lemma Rollback_wf tx m : tx_wf tx -> tx_wf (Rollback tx m).1.1.
Proof.
  intros Hwf. unfold Rollback. destruct (tx_state tx); [|done..].
  destruct (foldl runUndo _ _) as [m' errs]. destruct Hwf. split; cbn; try done; by constructor.
Qed.

Lemma closeTx_wf tx hs : tx_wf tx -> tx_wf (closeTx tx hs).
Proof. intros []. split; cbn; try done; by constructor. Qed.

(** The effects and the local mutations of a record need no further check. *)
Lemma validateEffects_ok es : Forall effect_ok es -> forall i, validateEffects i es = [].
Proof.
  induction 1 as [|e es [Hi Ht] _ IH]; intros i; cbn; [done|].
  rewrite (bool_decide_false _ Hi), (bool_decide_false _ Ht). apply IH.
Qed.

Lemma validateMutations_ok reg ms :
  Forall (fun mu => invalidMutation mu = false) ms ->
  (forall mu c, mu ∈ ms -> em_Remote mu = Some c -> RemoteCommit_Validate reg c = Ok tt) ->
  forall i, validateMutations reg i ms = [].
Proof.
  induction 1 as [|mu ms Hi _ IH]; intros Hr i; cbn; [done|]. rewrite Hi.
  assert (IH' : validateMutations reg (S i) ms = []).
  { apply IH. intros mu' c Hin. apply Hr. apply elem_of_cons. by right. }
  destruct (em_Remote mu) as [c|] eqn:E; [|done].
  rewrite (Hr mu c (proj2 (elem_of_cons _ _ _) (or_introl eq_refl)) E). done.
Qed.

Context {Batch : Type} `{Application Mem} `{RemoteWriteBatch Batch}.

(** A transaction as [NewRollbackTx] or [invokeWithTransaction] makes it. *)
Inductive tx_fresh : RollbackTx Mem -> Prop :=
| fresh_new id policy : tx_fresh (NewRollbackTx id policy)
| fresh_start meta handler (w : World Mem Batch) : tx_fresh (startTx meta handler w).1.

(** The operations on a transaction, of the package and of the code that is given it. *)
Inductive tx_step : RollbackTx Mem -> RollbackTx Mem -> Prop :=
| ts_defer tx fn : tx_step tx (DeferRollback tx fn)
| ts_undo tx o f t fn : tx_step tx (RecordUndoToken tx o f t fn).1
| ts_after tx h : tx_step tx (AfterCommit tx h)
| ts_register tx p : tx_step tx (RegisterCommitParticipant tx p).1
| ts_mutate tx mu : tx_step tx (AddMutation tx mu).1
| ts_emit tx e : tx_step tx (Emit tx e).1
| ts_remote tx : tx_step tx (set_remoteWrite tx)
| ts_rollback tx m : tx_step tx (Rollback tx m).1.1
| ts_commit tx (w : World Mem Batch) : tx_step tx (Commit tx w).1
| ts_abandon tx : tx_step tx (abandon tx).

Lemma Commit_wf tx (w : World Mem Batch) : tx_wf tx -> tx_wf (Commit tx w).1.
Proof.
  intros Hwf. unfold Commit. destruct (negb (isOpen tx)); [done|].
  pose proof (closeTx_wf tx (tx_commits tx) Hwf). by repeat case_match.
Qed.

Lemma tx_step_wf tx tx' : tx_step tx tx' -> tx_wf tx -> tx_wf tx'.
Proof.
  destruct 1; eauto using DeferRollback_wf, RecordUndoToken_wf, AfterCommit_wf, RegisterCommitParticipant_wf,
    AddMutation_wf, Emit_wf, Rollback_wf, Commit_wf.
  - intros Hwf. by apply (wf_same tx).
  - intros Hwf. unfold abandon. destruct (isOpen tx); [by apply closeTx_wf|done].
Qed.

Lemma tx_steps_wf tx0 tx : tx_fresh tx0 -> rtc tx_step tx0 tx -> tx_wf tx.
Proof.
  intros Hf Hs. assert (H0' : tx_wf tx0).
  { destruct Hf as [id policy|meta handler w]; [|unfold startTx; destruct (newTransactionID _ _)];
      (split; cbn; try done; by constructor). }
  clear Hf. induction Hs; eauto using tx_step_wf.
Qed.

(** C39. Whatever is done with a transaction from its start (records, hooks, participants, mutations,
    effects, a rollback, a commit, an abandonment, in any order), it stays well-formed: effects and
    mutations are complete and their identifiers distinct, the sets that detect duplicates agree with the
    lists while it is open, an effect makes it durable, participants are distinct and usable, and a rolled
    back transaction has nothing left to commit.  So its record is valid if its identifier is not zero
    and the commits of remote entities in it are valid. *)
Theorem RollbackTx_well_formed (reg : Registry) (w : World Mem Batch) tx0 tx :
  tx_fresh tx0 -> rtc tx_step tx0 tx ->
  tx_wf tx /\
  (zeroID (tx_id tx) = false ->
   (forall mu c, mu ∈ tx_mutations tx -> em_Remote mu = Some c -> RemoteCommit_Validate reg c = Ok tt) ->
   validateCommitRecord reg (recordOf tx w) = []).
Proof.
  intros Hf Hs. pose proof (tx_steps_wf tx0 tx Hf Hs) as Hwf. split; [done|].
  intros Hid Hr. unfold validateCommitRecord. cbn [recordOf cr_ID cr_Mutations cr_Effects]. rewrite Hid.
  rewrite (validateMutations_ok reg _ (wf_mutations _ Hwf) Hr 0). apply validateEffects_ok, Hwf.
Qed.

End WellFormed.

(** ** The batch of remote writes *)

Inductive batchCall := CFinalize | CCommit | CAbort | CIndeterminate | CClose.

#[export] Instance batchCall_eq_dec : EqDecision batchCall.
Proof. solve_decision. Defined.

(** A batch with the calls made on it so far. *)
#[export] Instance logged {Batch} `{RemoteWriteBatch Batch} : RemoteWriteBatch (Batch * list batchCall) := {
  FinalizeLocked o b := let '(b1, err) := FinalizeLocked o b.1 in ((b1, b.2 ++ [CFinalize]), err);
  Commits b := Commits b.1;
  BatchCommit b := let '(b1, err) := BatchCommit b.1 in ((b1, b.2 ++ [CCommit]), err);
  BatchAbort e b := let '(b1, err) := BatchAbort e b.1 in ((b1, b.2 ++ [CAbort]), err);
  BatchIndeterminate e b := let '(b1, err) := BatchIndeterminate e b.1 in ((b1, b.2 ++ [CIndeterminate]), err);
  BatchClose b := let '(b1, err) := BatchClose b.1 in ((b1, b.2 ++ [CClose]), err)
}.

Section Batches.
Context {Mem : Type} `{Application Mem} {Batch : Type} `{RemoteWriteBatch Batch} (reg : Registry).
Context (committer : option TransactionCommitter).
Implicit Types (m : Mem) (tx : RollbackTx Mem) (w : World Mem (Batch * list batchCall)).

(** The calls on the batch of a world, and the two flags of its message. *)
Definition batch_log w : option (list batchCall * bool * bool) :=
  (fun p : Msg (Batch * list batchCall) * (Batch * list batchCall) =>
     (p.2.2, m_remoteFinalized p.1, m_remoteIndeterminate p.1)) <$> batchOf w.

Lemma batch_log_inv w l f i :
  batch_log w = Some (l, f, i) ->
  exists msg b, w_msg w = Some msg /\ m_RemoteWriteBatch msg = Some (b, l) /\ batchOf w = Some (msg, (b, l)) /\
    m_remoteFinalized msg = f /\ m_remoteIndeterminate msg = i.
Proof.
  unfold batch_log, batchOf. destruct (w_msg w) as [msg|]; [|done]. cbn.
  destruct (m_RemoteWriteBatch msg) as [[b l']|] eqn:E; [|done]. cbn. intros [= <- <- <-]. by exists msg, b.
Qed.

Lemma batch_log_same w w' : w_msg w' = w_msg w -> batch_log w' = batch_log w.
Proof. unfold batch_log, batchOf. by intros ->. Qed.

Lemma abort_log w l f i err :
  batch_log w = Some (l, f, i) -> batch_log (abortRemoteWriteBatchLocked w err).1 = Some (l ++ [CAbort], f, i).
Proof.
  intros (msg & b & _ & _ & Eb & <- & <-)%batch_log_inv. unfold abortRemoteWriteBatchLocked. rewrite Eb. cbn.
  destruct (BatchAbort err b) as [b1 e]. cbn. reflexivity.
Qed.

Lemma mark_log w l f i err :
  batch_log w = Some (l, f, i) -> exists i',
  batch_log (markRemoteWriteIndeterminateLocked w err).1 = Some (l ++ [CIndeterminate], f, i').
Proof.
  intros (msg & b & _ & _ & Eb & <- & <-)%batch_log_inv. unfold markRemoteWriteIndeterminateLocked. rewrite Eb. cbn.
  destruct (BatchIndeterminate err b) as [b1 e]. destruct (failed e); cbn; eexists; reflexivity.
Qed.

Lemma finalize_log tx w l i tx' w' err :
  batch_log w = Some (l, false, i) -> finalizeRemoteWriteBatch tx w = (tx', w', err) ->
  exists f, batch_log w' = Some (l ++ [CFinalize], f, i) /\ (err = [] -> f = true).
Proof.
  intros (msg & b & _ & _ & Eb & Ef & <-)%batch_log_inv. unfold finalizeRemoteWriteBatch. rewrite Eb, Ef. cbn.
  destruct (FinalizeLocked _ b) as [b1 e]. cbn. destruct (failed e) eqn:Ee.
  { intros [= _ <- <-]. eexists. split; [reflexivity|]. by intros ->. }
  destruct (addRemoteMutations tx _) as [tx1 e1]. destruct (failed e1) eqn:Ee1; intros [= _ <- <-];
    (eexists; split; [reflexivity|]); [by intros ->|done].
Qed.

Lemma durableCommit_msg tx w :
  match durableCommit reg committer tx w with
  | DurableReturns _ w' _ | DurablePanics _ w' _ => w_msg w' = w_msg w
  end.
Proof.
  unfold durableCommit. destruct (bool_decide _ && _); [done|].
  destruct (prepareCommitRecord reg tx w) as [tx1 m1 [|a err]|tx1 m1 r]; [|done..]. cbv zeta.
  destruct (CommitRecord_Empty _); [done|]. destruct committer as [c|]; [|by destruct (_ || _)].
  destruct (committer_Commit c _ _) as [wal err]. by destruct (failed err), (errors_Is err ErrCommitIndeterminate).
Qed.

(** The calls made while the transaction closed. *)
Inductive closed_log : list batchCall -> bool -> bool -> callResult -> Prop :=
| cl_failed r l f : l ∈ [[]; [CFinalize]; [CFinalize; CAbort]] -> resultError r <> [] -> closed_log l f false r
| cl_in_doubt r f i : resultError r <> [] -> closed_log [CFinalize; CIndeterminate] f i r
| cl_committed ret : closed_log [CFinalize] true false (Returns ret []).

Lemma rollbackWith_log tx w ret err tx' w' r f :
  batch_log w = Some ([CFinalize], f, false) -> err <> [] -> rollbackWith tx w ret err = (tx', w', r) ->
  exists l f i, batch_log w' = Some (l, f, i) /\ closed_log l f i r.
Proof.
  intros Hl He. unfold rollbackWith. pose proof (abort_log w _ _ _ err Hl) as Ha.
  destruct (abortRemoteWriteBatchLocked w err) as [w1 ae]. cbn in Ha.
  destruct (Rollback tx (w_mem w1)) as [[tx1 m1] re]. intros [= _ <- <-].
  eexists _, _, _. split; [by rewrite <- Ha; apply batch_log_same|]. apply cl_failed; [set_solver|].
  cbn. unfold joinRollback. by destruct err; [|case_match].
Qed.

Lemma Commit_log tx w tx' w' : Commit tx w = (tx', w') -> batch_log w' = batch_log w.
Proof.
  unfold Commit. case_match; [by intros [= _ <-]|]. case_match; [by intros [= _ <-]|].
  destruct (batchOf w) as [[msg b]|] eqn:Eb.
  - intros [= _ <-]. unfold batch_log. rewrite Eb. unfold batchOf in *. cbn.
    destruct (w_msg w) as [msg'|]; [|done]. cbn in Eb. destruct (m_RemoteWriteBatch msg') eqn:E; [|done].
    cbn in Eb. injection Eb as <- <-. by rewrite E.
  - destruct (w_guard w); intros [= _ <-]; apply batch_log_same; [done|apply runHooks_spec].
Qed.

Lemma notify_log tx w tx' w' : notifyReleased committer tx w = (tx', w') -> batch_log w' = batch_log w.
Proof.
  unfold notifyReleased. destruct committer as [c|]; [|by intros [= _ <-]].
  destruct (committer_notifies c); [|by intros [= _ <-]].
  destruct (batchOf w) as [[msg b]|] eqn:Eb; [|by intros [= _ <-]]. intros [= _ <-].
  unfold batch_log. rewrite Eb. unfold batchOf in *. cbn.
  destruct (w_msg w) as [msg'|]; [|done]. cbn in Eb. destruct (m_RemoteWriteBatch msg') eqn:E; [|done].
  cbn in Eb. injection Eb as <- <-. by rewrite E.
Qed.

Lemma closeTransaction_log tx w rh tx' w' r :
  batch_log w = Some ([], false, false) -> closeTransaction reg committer tx w rh = (tx', w', r) ->
  exists l f i, batch_log w' = Some (l, f, i) /\ closed_log l f i r.
Proof.
  intros Hl. unfold closeTransaction. destruct (Rollback tx (w_mem w)) as [[tx1 m1] re].
  destruct rh as [ret [|a err]|p].
  - unfold commitTransaction. destruct (finalizeRemoteWriteBatch tx w) as [[tx2 w2] e2] eqn:Ef.
    destruct (finalize_log _ _ _ _ _ _ _ Hl Ef) as (f & Hl2 & Hf). cbn in Hl2.
    destruct (failed e2) eqn:Ee.
    { apply (rollbackWith_log _ _ _ _ _ _ _ f Hl2). by intros ->. }
    rewrite Hf in Hl2 by by apply failed_nil. pose proof (durableCommit_msg tx2 w2) as Hm.
    destruct (durableCommit reg committer tx2 w2) as [tx3 w3 [|a err]|tx3 w3 p];
      rewrite <- (batch_log_same _ _ Hm) in Hl2.
    + destruct (notifyReleased committer tx3 w3) as [tx4 w4] eqn:En. destruct (Commit tx4 w4) as [tx5 w5] eqn:Ec.
      intros [= _ <- <-]. rewrite (Commit_log _ _ _ _ Ec), (notify_log _ _ _ _ En), Hl2.
      eexists _, _, _. split; [done|]. apply cl_committed.
    + destruct (errors_Is (a :: err) ErrCommitIndeterminate).
      * destruct (mark_log w3 _ _ _ (a :: err) Hl2) as [i Hi].
        destruct (markRemoteWriteIndeterminateLocked w3 (a :: err)) as [w4 me]. cbn in Hi.
        intros [= _ <- <-]. eexists _, _, _. split; [done|]. by apply cl_in_doubt.
      * by apply (rollbackWith_log _ _ _ _ _ _ _ true Hl2).
    + intros [= _ <- <-]. eexists _, _, _. split; [done|]. apply cl_failed; [set_solver|done].
  - intros [= _ <- <-]. eexists _, _, _. split; [by rewrite <- Hl; apply batch_log_same|].
    apply cl_failed; [set_solver|]. cbn. by destruct (failed re).
  - intros [= _ <- <-]. eexists _, _, _. split; [by rewrite <- Hl; apply batch_log_same|].
    apply cl_failed; [set_solver|]. cbn. by destruct (failed re), p.
Qed.

Lemma unlock_log w : batch_log (runAfterUnlock (releaseGuard w)) = batch_log w.
Proof.
  unfold releaseGuard. set (w1 := match w_guard w with None => w | Some post => _ end).
  assert (Hm : w_msg w1 = w_msg w).
  { unfold w1. destruct (w_guard w) as [post|]; [|done].
    by destruct (runHooks_spec post (mkWorld (w_mem w) (w_wal w) (w_ran w) None (w_msg w) (w_ctx w) (w_prefix w) (w_seq w) (w_now w)))
      as (_ & _ & _ & -> & _). }
  rewrite <- (batch_log_same _ _ Hm). clearbody w1. unfold runAfterUnlock.
  destruct (w_msg w1) as [msg|] eqn:Em; [|done].
  unfold batch_log, batchOf at 1. destruct (runHooks_spec (m_afterUnlock msg)
    (set_msg w1 (mkMsg (m_RemoteWriteBatch msg) (m_remoteFinalized msg) (m_remoteIndeterminate msg) [] (m_postRemoteCommit msg))))
    as (_ & _ & _ & -> & _). unfold batchOf. rewrite Em. cbn. by destruct (m_RemoteWriteBatch msg).
Qed.

Lemma finish_log w err l f i :
  batch_log w = Some (l, f, i) -> exists w' e b,
  finishRemoteWriteBatch w err =
    (w', e, Some (b, l ++ (if i then [] else if failed err || negb f then [CAbort] else [CCommit]) ++ [CClose])) /\
  (err ++ e <> [] -> w_ran w' = w_ran w).
Proof.
  intros (msg & b & _ & _ & Eb & <- & <-)%batch_log_inv. unfold finishRemoteWriteBatch. rewrite Eb.
  assert (Hrun : forall w1 e, w_ran w1 = w_ran w -> err ++ e <> [] ->
    w_ran (if negb (failed e) && negb (failed err) then runPostRemoteCommit w1 else w1) = w_ran w).
  { intros w1 e Hw Hne. destruct (negb (failed e) && negb (failed err)) eqn:E; [|done]. exfalso. apply Hne.
    apply andb_true_iff in E as [He%negb_true_iff%failed_nil Hr%negb_true_iff%failed_nil]. by rewrite He, Hr. }
  cbn [logged BatchCommit BatchAbort BatchClose fst snd].
  destruct (m_remoteIndeterminate msg); [|destruct (failed err || negb (m_remoteFinalized msg));
    [destruct (BatchAbort err b) as [b1 e1]|destruct (BatchCommit b) as [b1 e1]]]; cbn [fst snd];
    match goal with |- context [BatchClose ?c] => destruct (BatchClose c) as [b2 e2] end; cbn [fst snd];
    (eexists _, _, _; split; [by rewrite <- ?app_assoc|]; by apply Hrun).
Qed.

(** C30. A dispatch closes its batch of remote writes exactly once, at the end, whatever the transaction
    came to, and commits it exactly when the transaction committed: then it was finalized, committed and
    closed and nothing else; otherwise it is never committed.  The hooks that wait for the batch run only
    if neither the transaction nor the batch failed. *)
Theorem remote_batch_protocol tx w rh tx' w' r :
  batch_log w = Some ([], false, false) -> closeTransaction reg committer tx w rh = (tx', w', r) ->
  exists w'' err b calls,
    endDispatch w' r = (w'', err, Some (b, calls ++ [CClose])) /\ (CClose ∉ calls) /\
    (resultError r = [] -> calls = [CFinalize; CCommit]) /\ (CCommit ∈ calls -> resultError r = []) /\
    (err <> [] -> w_ran w'' = w_ran (runAfterUnlock (releaseGuard w'))).
Proof.
  intros Hl Hc. destruct (closeTransaction_log _ _ _ _ _ _ Hl Hc) as (l & f & i & Hl' & Hcl).
  rewrite <- unlock_log in Hl'. unfold endDispatch.
  destruct (finish_log _ (resultError r) _ _ _ Hl') as (w'' & e & b & -> & Hran).
  eexists w'', _, b, _. split; [by rewrite app_assoc|].
  split_and!; [| | |done].
  - destruct Hcl as [r l f Hin _|r f i _|ret]; [| |by_evaluation].
    + rewrite !elem_of_cons, elem_of_nil in Hin.
      destruct Hin as [->|[->|[->|[]]]], (failed (resultError r) || negb f); by_evaluation.
    + destruct i, (failed (resultError r) || negb f); by_evaluation.
  - intros Hr. by destruct Hcl.
  - intros Hin. destruct Hcl as [r l f Hl0 Hne|r f i Hne|ret]; [exfalso|exfalso|done];
      (assert (Hf : failed (resultError r) = true)
        by (unfold failed; rewrite bool_decide_false by done; done)); rewrite Hf in Hin; cbn in Hin.
    + rewrite !elem_of_cons, elem_of_nil in Hl0. destruct Hl0 as [->|[->|[->|[]]]]; by vm_compute in Hin; set_solver.
    + destruct i; set_solver.
Qed.

End Batches.

(** ** An application *)

(** Fields with byte strings, and trackers. *)
Record Demo := mkDemo { demo_fields : gmap undoKey (list Byte.byte); demo_trackers : gmap nat DirtyTracker }.

Definition demo_field (k : undoKey) (m : Demo) : list Byte.byte := default [] (demo_fields m !! k).
Definition demo_setField (k : undoKey) (v : list Byte.byte) (m : Demo) : Demo :=
  mkDemo (<[k := v]> (demo_fields m)) (demo_trackers m).

Definition demo_key (s : Z) : undoKey := (s, 0, None).

#[export] Instance demo_app : Application Demo := {
  trackerAt t m := default newTracker (demo_trackers m !! t);
  setTrackerAt t d m := mkDemo (demo_fields m) (<[t := d]> (demo_trackers m));
  PrepareCommit p tx m :=
    let '(tx, err) := AddMutation tx (mkMutation (dyn_id p) "db" 0 "row" 1 1 1 "raw" [Byte.x01] None) in
    Prepared tx m err;
  CaptureRollback c tx m :=
    (DeferRollback tx (Some (fun m' => (demo_setField (demo_key c) (demo_field (demo_key c) m) m', []))), m, []);
  CaptureRollbackState s m := (demo_field (demo_key s) m, []);
  RestoreRollbackState s raw := fun m => (demo_setField (demo_key s) raw m, []);
  hookEffect h m := m
}.

#[export] Instance demo_fields_app : Fields Demo := { fieldAt := demo_field; setField := demo_setField }.

#[export] Instance demo_field_laws : FieldLaws Demo.
Proof.
  split.
  - intros k v m [k'|t]; cbn; [|done]. unfold demo_field. cbn. case_decide as E.
    + injection E as ->. by rewrite lookup_insert_eq.
    + rewrite lookup_insert_ne by congruence. done.
  - intros t d m [k|t']; cbn; [done|]. case_decide as E.
    + injection E as ->. by rewrite lookup_insert_eq.
    + rewrite lookup_insert_ne by congruence. done.
Qed.

#[export] Instance demo_laws : ApplicationLaws Demo.
Proof.
  refine {| owns := fun s l => l = inl (demo_key s) |}.
  - intros s m raw [= <-]. exact (restores_field m (demo_key s)).
  - intros c tx m tx' m' err [= <- <- <-]. split; [done|]. intros _. eexists. split; [done|].
    exact (restores_field m (demo_key c)).
  - intros p tx m. cbn -[AddMutation].
    pose proof (AddMutation_records tx (mkMutation (dyn_id p) "db" 0 "row" 1 1 1 "raw" [Byte.x01] None)) as Ha.
    destruct (AddMutation tx _) as [tx' err]. by exists tx', err.
Defined.

(** No dispatch of this example has a batch. *)
#[export] Instance no_batch : RemoteWriteBatch unit := {
  FinalizeLocked _ b := (b, []); Commits _ := []; BatchCommit b := (b, []); BatchAbort _ b := (b, []);
  BatchIndeterminate _ b := (b, []); BatchClose b := (b, [])
}.

(** A committer that refuses the records of the handler "refused". *)
Definition demo_committer : TransactionCommitter :=
  mkCommitter (fun r wal => if bool_decide (cr_Handler r = "refused"%string) then (wal, [AppError 1]) else (wal ++ [r], []))
    true.

#[export] Instance demo_committer_laws : CommitterLaws demo_committer.
Proof.
  split; intros r wal wal'; cbn; case_match; intros; simplify_eq; try done; by vm_compute in *.
Qed.

(** A handler that sets a field, marks its tracker, emits an effect and adds a hook. *)
Definition demo_owner : Dyn := mkDyn 5 true false.

Definition demo_call : handlerCall Demo unit := fun current w =>
  match current with
  | None => (None, w, Returns 0 [])
  | Some tx =>
      let key : undoKey := (5, 1, None) in
      let '(recorded, ok) := CurrentRecordUndoToken (Some tx) (Some demo_owner) 1 None
        (Some (fun m => (setField key (fieldAt key (w_mem w)) m, []))) in
      match recorded with
      | Some tx1 =>
          if ok then
            let w := set_mem w (setField key [Byte.x02] (w_mem w)) in
            let w := set_mem w (setTrackerAt 0%nat (MarkPersist (trackerAt 0%nat (w_mem w)) 2) (w_mem w)) in
            let tx2 := (Emit tx1 (mkEffect "" "topic" "key" [] None)).1 in
            (Some (AfterCommit tx2 (Some (UserHook 3))), w, Returns 9 [])
          else (Some tx, w, Returns 0 [ErrInvalidUndo])
      | None => (Some tx, w, Returns 0 [ErrInvalidUndo])
      end
  end.

Definition demo_entity : Entity :=
  mkEntity 77 1 None None (Some [Some (mkDao (Some (Some 0%nat)) (Some (Some (mkDyn 5 true false))) None None)]).

Definition demo_world : World Demo unit :=
  mkWorld (mkDemo {[ (5, 1, None) := [Byte.x01] ]} ∅) [] [] (Some []) None (Some (mkCtx "" 4 2 1 None)) (be_put 8 1) 0 1000.

Lemma demo_disciplined : disciplined (captured RollbackUndo [Some demo_entity]) demo_call.
Proof.
  intros tx w tx' w' r. unfold demo_call, CurrentRecordUndoToken.
  destruct (bool_decide_reflect (tx_policy tx = RollbackUndo)) as [Hp|Hp]; cbn [negb].
  2:{ intros [= <- <- _]. exists tx. split; [done|apply rtc_refl]. }
  destruct (RecordUndoToken tx _ _ _ _) as [tx1 err] eqn:E. destruct (failed err) eqn:Ef; cbn [negb].
  { intros [= <- <- _]. exists tx. split; [done|apply rtc_refl]. }
  apply failed_nil in Ef as ->. intros [= <- <- _]. eexists. split; [done|].
  set (w1 := set_mem w (demo_setField (5, 1, None) [Byte.x02] (w_mem w))).
  set (w2 := set_mem w1 (setTrackerAt 0%nat (MarkPersist (trackerAt 0%nat (w_mem w1)) 2) (w_mem w1))).
  change (rtc (hstep (captured RollbackUndo [Some demo_entity])) (tx, w)
    (AfterCommit (Emit tx1 (mkEffect "" "topic" "key" [] None)).1 (Some (UserHook 3)), w2)).
  apply (rtc_l _ _ (tx1, w1)); [exact (hs_set _ tx w demo_owner 1 None [Byte.x02] tx1 (5, 1, None) Hp eq_refl E)|].
  apply (rtc_l _ _ (tx1, w2)).
  { apply hs_write. intros l. cbn [w_mem set_mem]. rewrite obs_setTracker.
    case_decide as Hl; [right|left; reflexivity]. subst l.
    exists demo_entity. split; [apply elem_of_cons; by left|]. right. eexists. split; [done|].
    eexists. split; [apply elem_of_cons; by left|]. by exists 0%nat. }
  eapply rtc_l; [apply hs_emit|]. eapply rtc_l; [apply hs_after|]. apply rtc_refl.
Qed.

Definition demo_run (handler : string) := invokeWithTransaction ResetEntityRegistry (mkMeta RollbackUndo DurabilityMemory)
  [Some demo_entity] (Some demo_committer) handler demo_call demo_world.

(** The handler commits, or is refused; either way the theorem says what is left. *)
Lemma invokeWithTransaction_atomic_witness :
  (length (w_wal (demo_run "served").1.2) = 1%nat /\ w_guard (demo_run "served").1.2 =
     Some [UserHook 3; ReleasedHook (be_put 8 1 ++ be_put 8 1)]) /\
  demo_fields (w_mem (demo_run "refused").1.2) = {[ (5, 1, None) := [Byte.x01] ]} /\
  ((w_mem (demo_run "refused").1.2 = w_mem demo_world /\ w_wal (demo_run "refused").1.2 = w_wal demo_world /\
    hooks (demo_run "refused").1.2 = hooks demo_world /\ resultError (demo_run "refused").2 <> [])
   \/ exists tx txh w0 w1 rh tx0,
        (demo_run "refused").1.1 = Some tx /\ w_mem w0 = w_mem demo_world /\
        demo_call (Some tx0) w0 = (Some txh, w1, rh) /\
        outcome ResetEntityRegistry (Some demo_committer) demo_world txh (w_mem w1) rh tx
          (demo_run "refused").1.2 (demo_run "refused").2).
Proof.
  split; [by split; vm_compute|]. split; [by vm_compute|].
  apply (invokeWithTransaction_atomic ResetEntityRegistry (Some demo_committer)
           (fun c (E : Some demo_committer = Some c) => match E in _ = o return match o with Some c => CommitterLaws c | None => True end with eq_refl => demo_committer_laws end)
           (mkMeta RollbackUndo DurabilityMemory) [Some demo_entity] "refused" demo_call demo_world
           (mkCtx "" 4 2 1 None)).
  - done.
  - done.
  - intros e e' [->%(inj Some)|[]%elem_of_nil]%elem_of_cons [->%(inj Some)|[]%elem_of_nil]%elem_of_cons. done.
  - apply demo_disciplined.
  - change (demo_run "refused" = ((demo_run "refused").1.1, (demo_run "refused").1.2, (demo_run "refused").2)).
    by destruct (demo_run "refused") as [[??]?].
Defined.

(** A handler whose batch ends with the transaction. *)
(** A transaction that emits an effect, adds a mutation and the same one again,
    records an undo and is committed; its record is valid. *)
Definition demo_tx0 : RollbackTx Demo := (startTx (mkMeta RollbackUndo DurabilityMemory) "served" demo_world).1.
Definition demo_mutation : EntityMutation := mkMutation 7 "" 0 "player" 1 2 0 "json" [Byte.x01] None.
Definition demo_tx : RollbackTx Demo :=
  (Commit (AddMutation (AddMutation (Emit demo_tx0 (mkEffect "" "topic" "key" [] None)).1 demo_mutation).1 demo_mutation).1
     demo_world).1.

Lemma RollbackTx_well_formed_witness :
  (length (tx_effects demo_tx), length (tx_mutations demo_tx), tx_state demo_tx)
  = (1%nat, 1%nat, rollbackTxCommitted)
  /\ tx_wf demo_tx /\ validateCommitRecord ResetEntityRegistry (recordOf demo_tx demo_world) = [].
Proof.
  assert (Hs : rtc (tx_step (Batch := unit)) demo_tx0 demo_tx).
  { eapply rtc_l; [apply ts_emit|]. eapply rtc_l; [apply ts_mutate|]. eapply rtc_l; [apply ts_mutate|].
    eapply rtc_l; [apply ts_commit|apply rtc_refl]. }
  destruct (RollbackTx_well_formed (Batch := unit) ResetEntityRegistry demo_world demo_tx0 demo_tx
              (fresh_start _ _ _) Hs) as [Hwf Hvalid].
  split; [vm_compute; reflexivity|]. split; [exact Hwf|]. apply Hvalid; [vm_compute; reflexivity|].
  intros mu c Hmu. assert (Hm : tx_mutations demo_tx = [demo_mutation]) by (vm_compute; reflexivity).
  rewrite Hm in Hmu. apply list_elem_of_singleton in Hmu as ->. discriminate.
Defined.

Definition batch_world : World Demo (unit * list batchCall) :=
  mkWorld (mkDemo ∅ ∅) [] [] (Some []) (Some (mkMsg (Some (tt, [])) false false [] [])) (Some (mkCtx "" 4 2 1 None))
    (be_put 8 1) 0 1000.

Definition batch_tx : RollbackTx Demo :=
  AfterCommit (NewRollbackTx (be_put 8 1 ++ be_put 8 1) RollbackUndo) (Some (UserHook 3)).

Lemma remote_batch_protocol_witness :
  let '(tx', w', r) := closeTransaction ResetEntityRegistry (Some demo_committer) batch_tx batch_world (Returns 9 []) in
  exists w'' err b calls,
    endDispatch w' r = (w'', err, Some (b, calls ++ [CClose])) /\ (CClose ∉ calls) /\
    (resultError r = [] -> calls = [CFinalize; CCommit]) /\ (CCommit ∈ calls -> resultError r = []) /\
    (err <> [] -> w_ran w'' = w_ran (runAfterUnlock (releaseGuard w'))).
Proof.
  destruct (closeTransaction ResetEntityRegistry (Some demo_committer) batch_tx batch_world (Returns 9 []))
    as [[tx' w'] r] eqn:E.
  apply (remote_batch_protocol ResetEntityRegistry (Some demo_committer) batch_tx batch_world (Returns 9 []) tx' w' r);
    [reflexivity | exact E].
Defined.

(** ** Where the code does not do what it means to *)

(** A flusher goroutine that hands a failed save back to the tracker during the
    handler: the rollback puts the tracker back to what it was before, and the save is
    never tried again. *)
Theorem rollback_loses_failed_save {Mem} `{Application Mem} `{!Fields Mem} `{!FieldLaws Mem}
    (tx : RollbackTx Mem) dao t m mask tx' m1 :
  tx_policy tx = RollbackUndo -> tx_state tx = rollbackTxOpen -> tx_rollbacks tx = [] -> trackerOf dao = Some t ->
  captureDao tx dao m = (tx', m1, []) -> dt_persistDirty (trackerAt t m) = 0 ->
  let '(_, m2, err) := Rollback tx' (setTrackerAt t (RollbackPersist (trackerAt t m1) mask) m1) in
  err = [] /\ dt_persistDirty (trackerAt t m2) = 0.
Proof.
  intros Hp Ho Hr Ht. unfold captureDao. rewrite Hp, Ht. intros [= <- <-] Hd.
  unfold DeferRollback, isOpen. rewrite bool_decide_true by done. unfold Rollback. cbn [tx_state set_rollbacks].
  rewrite Ho. cbn [tx_rollbacks set_rollbacks]. rewrite Hr.
  cbn -[RollbackPersist]. split; [done|].
  pose proof (obs_setTracker t (trackerAt t m) (setTrackerAt t (RollbackPersist (trackerAt t m) mask) m) (inr t)) as Ho'.
  rewrite decide_True in Ho' by done. injection Ho' as Ho'. unfold DirtyTracker_Restore. cbn.
  destruct (trackerAt t m) eqn:E. cbn in *. by rewrite Ho'.
Qed.

(** A participant that panics in [PrepareCommit]: the deferred function has already
    recovered, so nothing is rolled back and what the handler wrote stays. *)
Definition panicking : Application Demo := {|
  trackerAt := trackerAt;
  setTrackerAt := setTrackerAt;
  PrepareCommit p tx m := PreparePanics tx m 13;
  CaptureRollback := CaptureRollback;
  CaptureRollbackState := CaptureRollbackState;
  RestoreRollbackState := RestoreRollbackState;
  hookEffect := hookEffect
|}.

Theorem prepare_panic_keeps_writes :
  let '(_, w, r) := @invokeWithTransaction Demo unit panicking no_batch ResetEntityRegistry
    (mkMeta RollbackUndo DurabilityStrict) [Some demo_entity] (Some demo_committer) "served" demo_call demo_world in
  r = Panics (PanicValue 13) /\ w_wal w = [] /\ demo_fields (w_mem w) = {[ (5, 1, None) := [Byte.x02] ]}.
Proof. by vm_compute. Qed.

(** A batch that cannot be marked indeterminate is aborted, although the log may have
    the transaction. *)
Definition doubtful_batch : RemoteWriteBatch unit := {|
  FinalizeLocked o b := (b, []); Commits b := []; BatchCommit b := (b, []); BatchAbort e b := (b, []);
  BatchIndeterminate e b := (b, [AppError 2]); BatchClose b := (b, [])
|}.

Definition doubtful_committer : TransactionCommitter :=
  mkCommitter (fun r wal => (wal ++ [r], [ErrCommitIndeterminate])) false.

Theorem in_doubt_batch_aborted :
  let '(tx, w, r) := @closeTransaction Demo (unit * list batchCall) demo_app (@logged unit doubtful_batch)
    ResetEntityRegistry (Some doubtful_committer)
    (Emit batch_tx (mkEffect "" "topic" "key" [] None)).1 batch_world (Returns 9 []) in
  let '(w', err, b) := @endDispatch Demo (unit * list batchCall) demo_app (@logged unit doubtful_batch) w r in
  length (w_wal w') = 1%nat /\ errors_Is err ErrCommitIndeterminate = true /\
  b = Some (tt, [CFinalize; CIndeterminate; CAbort; CClose]).
Proof. by vm_compute. Qed.
