(* ===== verification/EntityLife.v ===== *)
(** * The life of an entity

    [src/entity/entity_base.go] counts the goroutines that use an entity in an atomic
    word that also has the flags of a removed and of a cleared entity;
    [src/entity/entity_manager.go] removes an entity while others use it, and
    [src/entity/entity_guard.go] locks it for a handler.  Goroutines interleave at
    every atomic operation: a compare-and-swap loop is a load and a swap, and the
    mutex is the reentrant one of [GroupLock]. *)

From stdpp Require Import base list.
From Stdlib Require Import ZArith Lia.
From S2P Require Import Prelude.

Local Open Scope Z_scope.

(** ** The word *)

Definition touchCntMask : Z := 0x3FFFFFFF.
Definition removedBit : Z := Z.shiftl 1 30.
Definition clearedBit : Z := Z.shiftl (-1) 31.

Definition wrapi32 (z : Z) : Z := (z + 2 ^ 31) mod 2 ^ 32 - 2 ^ 31.

Definition IsRemoved (word : Z) : bool := negb (Z.land word removedBit =? 0).
Definition IsClear (word : Z) : bool := negb (Z.land word clearedBit =? 0).
Definition touchCnt (word : Z) : Z := Z.land word touchCntMask.

(** ** Goroutines *)

(** One atomic operation; a list of instructions is where to go on when an operation
    returns early. *)
Inductive instr :=
  | ITouch (fail : list instr)         (** [Touch], until the swap succeeds *)
  | IUnTouch                           (** [UnTouch]: the decrement *)
  | IUnTouchClear                      (** [UnTouch]: the loop that sets the cleared bit *)
  | ILock
  | IUnlock
  | ICheckRemoved (fail : list instr)
  | ICheckClear (fail : list instr)
  | IUse                               (** the handler uses the entity *)
  | IUnpublish (fail : list instr)     (** [entities.Get(id) != e], under [addMu] *)
  | ISetRemoved                        (** [SetRemoved], until the swap succeeds *)
  | IClearBase                         (** [ClearBase], until it returns or the swap succeeds *)
  | IDoClear.

(** [beforeDestroy]: none, or a function that uses the entity under its lock and
    may return an error. *)
Inductive callback := NoCallback | BeforeDestroy (uses : nat) (fails : bool).

(** [RemoveAfter], and what follows it; [Remove] has no callback. *)
Definition RemoveAfter (beforeDestroy : callback) (k : list instr) : list instr :=
  let refused := IUnlock :: IUnTouch :: k in
  let remove := IUnpublish refused :: ISetRemoved :: IUnlock :: IUnTouch :: IClearBase :: k in
  ITouch k :: ILock :: ICheckRemoved refused :: ICheckClear refused ::
  match beforeDestroy with
  | NoCallback => remove
  | BeforeDestroy uses fails => replicate uses IUse ++ (if fails then refused else remove)
  end.

(** A handler that uses the entity [uses] times and may then remove it. *)
Definition handlerBody (uses : nat) (removes : option callback) (k : list instr) : list instr :=
  replicate uses IUse ++ match removes with Some before => RemoveAfter before k | None => k end.

(** [RequireEntity] *)
Definition RequireEntity (refused k : list instr) : list instr :=
  ILock :: ICheckClear (IUnlock :: refused) :: ICheckRemoved (IUnlock :: refused) :: k.

(** A dispatch keeps its reference until the lock is released; a cast gives it back
    as soon as it has the lock. *)
Inductive job :=
  | Dispatch (uses : nat) (removes : option callback)
  | Cast (uses : nat) (removes : option callback)
  | Remove (before : callback).

Definition program (j : job) : list instr :=
  match j with
  | Dispatch uses removes =>
      ITouch [] :: RequireEntity [IUnTouch] (handlerBody uses removes [IUnlock; IUnTouch])
  | Cast uses removes =>
      ITouch [] :: RequireEntity [IUnTouch] (IUnTouch :: handlerBody uses removes [IUnlock])
  | Remove before => RemoveAfter before []
  end.

(** A goroutine: what it still does, the value it has loaded, and the references and
    locks it holds. *)
Record goroutine := mkG {
  g_code : list instr;
  g_loaded : option Z;
  g_touches : nat;
  g_depth : nat
}.

(** The entity: the word, the owner of its mutex, whether the manager has it, how often
    it was cleared. *)
Record world := mkLife {
  l_word : Z;
  l_owner : option nat;
  l_managed : bool;
  l_clears : nat;
  l_gs : list goroutine
}.

(** One operation of goroutine [i]: the new word, owner, index and number of clears, and
    the goroutine; a goroutine that waits stays. *)
Definition operate (w : world) (i : nat) (g : goroutine) : world * goroutine :=
  let stay word g := (mkLife word (l_owner w) (l_managed w) (l_clears w) (l_gs w), g) in
  let word := l_word w in
  match g_code g with
  | [] => (w, g)
  | op :: k =>
      let goto k := mkG k None (g_touches g) (g_depth g) in
      let load := stay word (mkG (op :: k) (Some word) (g_touches g) (g_depth g)) in
      match op, g_loaded g with
      | ITouch fail, None => if IsRemoved word || IsClear word then stay word (goto fail) else load
      | ITouch _, Some old =>
          if word =? old then stay (wrapi32 (old + 1)) (mkG k None (S (g_touches g)) (g_depth g))
          else stay word (goto (op :: k))
      | IUnTouch, _ =>
          let new := wrapi32 (word - 1) in
          stay new (mkG (if IsRemoved new && (touchCnt new =? 0) then IUnTouchClear :: k else k) None
                      (pred (g_touches g)) (g_depth g))
      | IUnTouchClear, None => if IsClear word then stay word (goto k) else load
      | IUnTouchClear, Some old =>
          if word =? old then stay (Z.lor old clearedBit) (goto (IDoClear :: k)) else stay word (goto (op :: k))
      | ILock, _ =>
          match l_owner w with
          | Some o => if (o =? i)%nat
                      then stay word (mkG k None (g_touches g) (S (g_depth g)))
                      else (w, g)
          | None => (mkLife word (Some i) (l_managed w) (l_clears w) (l_gs w),
                     mkG k None (g_touches g) (S (g_depth g)))
          end
      | IUnlock, _ =>
          (mkLife word (if (g_depth g =? 1)%nat then None else l_owner w) (l_managed w) (l_clears w) (l_gs w),
           mkG k None (g_touches g) (pred (g_depth g)))
      | ICheckRemoved fail, _ => stay word (goto (if IsRemoved word then fail else k))
      | ICheckClear fail, _ => stay word (goto (if IsClear word then fail else k))
      | IUse, _ => stay word (goto k)
      | IUnpublish fail, _ =>
          if l_managed w then (mkLife word (l_owner w) false (l_clears w) (l_gs w), goto k)
          else stay word (goto fail)
      | ISetRemoved, None => load
      | ISetRemoved, Some old =>
          if word =? old then stay (Z.lor old removedBit) (goto k) else stay word (goto (op :: k))
      | IClearBase, None =>
          if IsClear word then stay word (goto k)
          else if negb (touchCnt word =? 0) then stay word (goto k) else load
      | IClearBase, Some old =>
          if word =? old then stay (Z.lor old clearedBit) (goto (IDoClear :: k)) else stay word (goto (op :: k))
      | IDoClear, _ => (mkLife word (l_owner w) (l_managed w) (S (l_clears w)) (l_gs w), goto k)
      end
  end.

Definition turn (w : world) (i : nat) : world :=
  match l_gs w !! i with
  | None => w
  | Some g =>
      let '(w, g) := operate w i g in
      mkLife (l_word w) (l_owner w) (l_managed w) (l_clears w) (<[i := g]> (l_gs w))
  end.

Definition start (jobs : list job) : world :=
  mkLife 0 None true 0 ((fun j => mkG (program j) None 0 0) <$> jobs).

Definition run (jobs : list job) (schedule : list nat) : world := foldl turn (start jobs) schedule.

(** ** The bits of the word *)

Definition wordOf (cnt : Z) (removed cleared : bool) : Z :=
  cnt + (if removed then 2 ^ 30 else 0) - (if cleared then 2 ^ 31 else 0).

Section Bits.
Context (cnt : Z) (r c : bool) (Hcnt : 0 <= cnt < 2 ^ 30).

Lemma word_div30 : wordOf cnt r c / 2 ^ 30 = (if r then 1 else 0) - (if c then 2 else 0).
Proof. unfold wordOf. symmetry. apply (Z.div_unique_pos _ _ _ cnt); [lia|]. destruct r, c; lia. Qed.

Lemma word_land_removed : Z.land (wordOf cnt r c) removedBit = if r then 2 ^ 30 else 0.
Proof.
  change removedBit with (2 ^ 30).
  assert (Hbit : Z.testbit (wordOf cnt r c) 30 = r).
  { rewrite Z.testbit_odd, Z.shiftr_div_pow2, word_div30 by lia. by destruct r, c. }
  apply Z.bits_inj'. intros n Hn. rewrite Z.land_spec, Z.pow2_bits_eqb by lia.
  destruct (Z.eqb_spec 30 n) as [<-|Hne].
  - rewrite Hbit. by destruct r; rewrite ?Z.pow2_bits_true, ?Z.bits_0 by lia.
  - rewrite andb_false_r. destruct r; [by rewrite Z.pow2_bits_false by lia | by rewrite Z.bits_0].
Qed.

Lemma word_land_cleared : Z.land (wordOf cnt r c) clearedBit = if c then - 2 ^ 31 else 0.
Proof.
  change clearedBit with (Z.lnot (Z.ones 31)). rewrite <- Z.ldiff_land, Z.ldiff_ones_r by lia.
  rewrite Z.shiftl_mul_pow2, Z.shiftr_div_pow2 by lia.
  assert (Hd : wordOf cnt r c / 2 ^ 31 = if c then -1 else 0).
  { symmetry. apply (Z.div_unique_pos _ _ _ (cnt + if r then 2 ^ 30 else 0)); unfold wordOf; destruct r, c; lia. }
  rewrite Hd. by destruct c.
Qed.

Lemma word_removed : IsRemoved (wordOf cnt r c) = r.
Proof. unfold IsRemoved. rewrite word_land_removed. by destruct r. Qed.

Lemma word_cleared : IsClear (wordOf cnt r c) = c.
Proof. unfold IsClear. rewrite word_land_cleared. by destruct c. Qed.

Lemma word_count : touchCnt (wordOf cnt r c) = cnt.
Proof.
  unfold touchCnt. change touchCntMask with (Z.ones 30). rewrite Z.land_ones by lia. symmetry.
  apply (Z.mod_unique_pos _ _ ((if r then 1 else 0) - (if c then 2 else 0))); [lia|].
  unfold wordOf. destruct r, c; lia.
Qed.

Lemma word_set_removed : Z.lor (wordOf cnt r c) removedBit = wordOf cnt true c.
Proof.
  pose proof (Z.add_lor_land (wordOf cnt r c) removedBit) as Ha. rewrite word_land_removed in Ha.
  change removedBit with (2 ^ 30) in *. unfold wordOf in *. destruct r; lia.
Qed.

Lemma word_set_cleared : Z.lor (wordOf cnt r c) clearedBit = wordOf cnt r true.
Proof.
  pose proof (Z.add_lor_land (wordOf cnt r c) clearedBit) as Ha. rewrite word_land_cleared in Ha.
  change clearedBit with (- 2 ^ 31) in *. unfold wordOf in *. destruct c; lia.
Qed.

Lemma word_inc : cnt + 1 < 2 ^ 30 -> wrapi32 (wordOf cnt r c + 1) = wordOf (cnt + 1) r c.
Proof. intros. unfold wrapi32, wordOf. rewrite Z.mod_small; destruct r, c; lia. Qed.

Lemma word_dec : 0 < cnt -> wrapi32 (wordOf cnt r c - 1) = wordOf (cnt - 1) r c.
Proof. intros. unfold wrapi32, wordOf. rewrite Z.mod_small; destruct r, c; lia. Qed.

End Bits.

Lemma wordOf_inj cnt r c cnt' r' c' :
  0 <= cnt < 2 ^ 30 -> 0 <= cnt' < 2 ^ 30 -> wordOf cnt r c = wordOf cnt' r' c' -> cnt = cnt' /\ r = r' /\ c = c'.
Proof.
  intros H1 H2 E. pose proof (word_count cnt r c H1). pose proof (word_count cnt' r' c' H2).
  pose proof (word_removed cnt r c H1). pose proof (word_removed cnt' r' c' H2).
  pose proof (word_cleared cnt r c H1). pose proof (word_cleared cnt' r' c' H2). split_and!; congruence.
Qed.

(** ** Programs that keep the discipline *)

(** [fits code t d checked removed]: the code may run with [t] references and the mutex
    taken [d] times, it uses the entity only after the check of [IsRemoved] under the
    mutex, sets the flag only with both, and gives everything back. *)
Inductive fits : list instr -> nat -> nat -> bool -> bool -> Prop :=
| f_nil r : fits [] 0 0 false r
| f_touch fail k t d c r :
    (t < 2)%nat -> fits fail t d c r -> fits k (S t) d c r -> fits (ITouch fail :: k) t d c r
| f_untouch k t d c r : fits k t d c r -> fits (IUnTouch :: k) (S t) d c r
| f_lock k t d c r : fits k t (S d) c r -> fits (ILock :: k) t d c r
| f_unlock k t d c c' r :
    fits k t d c' r -> (c' = true -> c = true /\ d <> 0%nat) -> fits (IUnlock :: k) t (S d) c r
| f_check_removed fail k t d c r :
    fits fail t (S d) c r -> fits k t (S d) true r -> fits (ICheckRemoved fail :: k) t (S d) c r
| f_check_clear fail k t d c r :
    fits fail t d c r -> fits k t d c r -> fits (ICheckClear fail :: k) t d c r
| f_use k t d r : fits k t d true r -> fits (IUse :: k) t d true r
| f_unpublish fail k t d c r :
    fits fail t d c r -> fits k t d c r -> fits (IUnpublish fail :: k) t d c r
| f_set_removed k t d c r : fits k (S t) (S d) false true -> fits (ISetRemoved :: k) (S t) (S d) c r
| f_clear_base k t d c : fits k t d c true -> fits (IClearBase :: k) t d c true.

Create HintDb life.
#[local] Hint Constructors fits : life.

Lemma fits_removed k t d c r : fits k t d c r -> fits k t d c true.
Proof. induction 1; eauto with life. Qed.

(** Code that only gives back fits whatever was checked. *)
Lemma uses_fit uses k t d r : fits k t d true r -> fits (replicate uses IUse ++ k) t d true r.
Proof. intros Hk. induction uses as [|n IH]; cbn; [done|by apply f_use]. Qed.

Lemma RemoveAfter_fits before k t d c r :
  (t < 2)%nat -> (c = true -> d <> 0%nat) -> (forall c' r, (c' = true -> c = true) -> fits k t d c' r) ->
  fits (RemoveAfter before k) t d c r.
Proof.
  intros Ht Hd Hk. unfold RemoveAfter.
  assert (Hrefused : forall c' r, fits (IUnlock :: IUnTouch :: k) (S t) (S d) c' r).
  { intros c' r'. apply (f_unlock _ _ _ _ false); [|done]. apply f_untouch. by apply Hk. }
  apply f_touch; [done|by apply Hk|]. apply f_lock. apply f_check_removed; [done|]. apply f_check_clear; [done|].
  assert (Hremove : fits (IUnpublish (IUnlock :: IUnTouch :: k) :: ISetRemoved :: IUnlock :: IUnTouch :: IClearBase :: k)
                      (S t) (S d) true r).
  { apply f_unpublish; [done|]. apply f_set_removed. apply (f_unlock _ _ _ _ false); [|done].
    apply f_untouch. apply f_clear_base. by apply Hk. }
  destruct before as [|uses [|]]; [done|by apply uses_fit..].
Qed.

Lemma handlerBody_fits uses removes k t d r :
  (t < 2)%nat -> (forall c r, fits k t (S d) c r) -> fits (handlerBody uses removes k) t (S d) true r.
Proof.
  intros Ht Hk. unfold handlerBody. apply uses_fit. destruct removes; [|done]. by apply RemoveAfter_fits.
Qed.

Lemma program_fits j : fits (program j) 0 0 false false.
Proof.
  destruct j as [uses removes|uses removes|before]; cbn [program]; unfold RequireEntity.
  - apply f_touch; [lia|apply f_nil|]. apply f_lock.
    assert (Hback : forall r, fits [IUnlock; IUnTouch] 1 1 false r)
      by (intros r; apply (f_unlock _ _ _ _ false); [apply f_untouch, f_nil|done]).
    apply f_check_clear; [done|]. apply f_check_removed; [done|]. apply handlerBody_fits; [lia|].
    intros c r. apply (f_unlock _ _ _ _ false); [apply f_untouch, f_nil|done].
  - apply f_touch; [lia|apply f_nil|]. apply f_lock.
    assert (Hback : forall r, fits [IUnlock; IUnTouch] 1 1 false r)
      by (intros r; apply (f_unlock _ _ _ _ false); [apply f_untouch, f_nil|done]).
    apply f_check_clear; [done|]. apply f_check_removed; [done|]. apply f_untouch. apply handlerBody_fits; [lia|].
    intros c r. apply (f_unlock _ _ _ _ false); [apply f_nil|done].
  - apply RemoveAfter_fits; [lia|done|]. intros c r Hc. destruct c; [discriminate (Hc eq_refl)|apply f_nil].
Qed.

(** ** The invariant *)

Definition clearing (g : goroutine) : bool :=
  match g_code g with IUnTouchClear :: _ => true | _ => false end.

Definition doClears (g : goroutine) : nat := match g_code g with IDoClear :: _ => 1 | _ => 0 end.

(** What a goroutine knows of the value it loaded. *)
Definition loaded_ok (op : instr) (old : Z) : Prop :=
  match op with
  | ITouch _ => IsRemoved old = false /\ IsClear old = false
  | IUnTouchClear => IsClear old = false
  | IClearBase => IsClear old = false /\ touchCnt old = 0
  | _ => True
  end.

(** The two operations that a goroutine comes to only after it saw the flag. *)
Definition fitsG (code : list instr) (t d : nat) (c r : bool) : Prop :=
  match code with
  | IUnTouchClear :: k => r = true /\ fits k t d c r
  | IDoClear :: k => r = true /\ fits k t d c r
  | code => fits code t d c r
  end.

Record okG (removed : bool) (owner : option nat) (i : nat) (g : goroutine) (c r : bool) : Prop := {
  ok_fits : fitsG (g_code g) (g_touches g) (g_depth g) c r;
  ok_removed : r = true -> removed = true;
  ok_checked : c = true -> removed = false /\ (0 < g_depth g)%nat;
  ok_touches : (g_touches g <= 2)%nat;
  ok_owner : (0 < g_depth g)%nat <-> owner = Some i;
  ok_loaded : forall op k old, g_code g = op :: k -> g_loaded g = Some old -> loaded_ok op old
}.

Definition references (gs : list goroutine) : nat := sum_list_with g_touches gs.

Record good (w : world) (removed cleared : bool) : Prop := {
  gd_word : l_word w = wordOf (Z.of_nat (references (l_gs w))) removed cleared;
  gd_gs : forall i g, l_gs w !! i = Some g -> exists c r, okG removed (l_owner w) i g c r;
  gd_cleared : cleared = true -> removed = true /\ references (l_gs w) = 0%nat;
  gd_clears : (l_clears w + sum_list_with doClears (l_gs w) = if cleared then 1 else 0)%nat;
  gd_pending : removed = true -> cleared = false ->
    (0 < references (l_gs w))%nat \/ exists i g, l_gs w !! i = Some g /\ clearing g = true;
  gd_last : forall i g, l_gs w !! i = Some g -> clearing g = true -> references (l_gs w) = 0%nat
}.

Lemma okG_other removed owner removed' owner' i j g c r :
  i <> j -> okG removed owner j g c r ->
  (owner' = owner \/ ((owner = None \/ owner = Some i) /\ (owner' = None \/ owner' = Some i))) ->
  (removed' = removed \/ (removed' = true /\ owner = Some i)) ->
  okG removed' owner' j g c r.
Proof.
  intros Hij [Hf Hr Hc Ht Ho Hl] Howner Hrem. split; try done.
  - intros Hrt. destruct Hrem as [->|[-> _]]; auto.
  - intros Hct. destruct (Hc Hct) as [Hrem0 Hd]. split; [|done]. destruct Hrem as [->|[_ Hi]]; [done|].
    apply Ho in Hd. congruence.
  - destruct Howner as [->|[H1 H2]]; [done|]. rewrite Ho. split; intros Hs; exfalso.
    + destruct H1; congruence.
    + destruct H2; congruence.
Qed.

Lemma references_lookup (gs : list goroutine) i g : gs !! i = Some g -> (g_touches g <= references gs)%nat.
Proof.
  apply (sum_at_least g_touches).
Qed.

(** How one goroutine changes a good world. *)
Lemma good_step w removed cleared i g g' word' owner' managed' clears' removed' cleared' :
  good w removed cleared -> l_gs w !! i = Some g ->
  (owner' = l_owner w \/ ((l_owner w = None \/ l_owner w = Some i) /\ (owner' = None \/ owner' = Some i))) ->
  (removed' = removed \/ (removed' = true /\ l_owner w = Some i)) ->
  (exists c r, okG removed' owner' i g' c r) ->
  (let n := (references (l_gs w) - g_touches g + g_touches g')%nat in
   word' = wordOf (Z.of_nat n) removed' cleared' /\
   (cleared' = true -> removed' = true /\ n = 0%nat) /\
   (removed' = true -> cleared' = false -> (0 < n)%nat \/ clearing g' = true
      \/ (removed = true /\ cleared = false /\ clearing g = false /\ references (l_gs w) = 0%nat)) /\
   (clearing g' = true -> n = 0%nat) /\ ((n <= references (l_gs w))%nat \/ removed = false)) ->
  (clears' + doClears g' + (if cleared then 1 else 0) = l_clears w + doClears g + (if cleared' then 1 else 0))%nat ->
  good (mkLife word' owner' managed' clears' (<[i := g']> (l_gs w))) removed' cleared'.
Proof.
  intros [Hword Hgs Hcl Hclears Hpend Hlast] Hg Howner Hrem Hok Hn Hcount. cbv zeta in Hn.
  pose proof (sum_insert g_touches (l_gs w) i g g' Hg) as Hsum.
  pose proof (sum_insert doClears (l_gs w) i g g' Hg) as Hsum'.
  assert (Hnn : references (<[i := g']> (l_gs w)) = (references (l_gs w) - g_touches g + g_touches g')%nat)
    by (pose proof (references_lookup _ _ _ Hg); unfold references in *; lia).
  destruct Hn as (Hw & Hc & Hp & Hl & Hm). split; cbn [l_word l_gs l_owner l_clears]; rewrite ?Hnn; [exact Hw| |exact Hc| | |].
  - intros j gj Hj. destruct (decide (i = j)) as [<-|Hij].
    + rewrite list_lookup_insert_eq in Hj by (apply lookup_lt_Some in Hg; done). by simplify_eq.
    + rewrite list_lookup_insert_ne in Hj by done. destruct (Hgs j gj Hj) as (c & r & Hj').
      exists c, r. by apply (okG_other removed (l_owner w) removed' owner' i).
  - destruct cleared, cleared'; lia.
  - intros H1 H2. destruct (Hp H1 H2) as [?|[Hcg|(Hr & Hcl0 & Hng & Href)]]; [by left|right|right].
    + exists i, g'. rewrite list_lookup_insert_eq by (apply lookup_lt_Some in Hg; done). done.
    + destruct (Hpend Hr Hcl0) as [?|(j & gj & Hj & Hcj)]; [lia|]. exists j, gj.
      rewrite list_lookup_insert_ne; [done|]. intros <-. congruence.
  - intros j gj Hj Hcj. destruct (decide (i = j)) as [<-|Hij].
    + rewrite list_lookup_insert_eq in Hj by (apply lookup_lt_Some in Hg; done). simplify_eq. auto.
    + rewrite list_lookup_insert_ne in Hj by done. pose proof (Hlast j gj Hj Hcj). destruct Hm as [?|Hnr]; [lia|].
      destruct (Hgs j gj Hj) as (c & r & [Hf Hr _ _ _ _]). exfalso. unfold clearing in Hcj. unfold fitsG in Hf.
      destruct (g_code gj) as [|[] ?]; try done. destruct Hf as [Hrt _]. rewrite Hr in Hnr; done.
Qed.

Lemma references_bound w removed cleared :
  good w removed cleared -> (references (l_gs w) <= 2 * length (l_gs w))%nat.
Proof.
  intros [_ Hgs _ _ _ _]. revert Hgs. generalize (l_owner w). unfold references.
  induction (l_gs w) as [|g gs IH] using rev_ind; intros o Hgs; cbn; [lia|].
  rewrite sum_list_with_app, length_app. cbn.
  assert (IH' : (sum_list_with g_touches gs <= 2 * length gs)%nat).
  { apply (IH o). intros i g' Hi. apply Hgs. by apply lookup_app_l_Some. }
  destruct (Hgs (length gs) g) as (c & r & Hok); [by rewrite lookup_app_r, Nat.sub_diag by lia|].
  pose proof (ok_touches _ _ _ _ _ _ Hok). lia.
Qed.

(** *** One operation *)

Lemma fits_fitsG k t d c r : fits k t d c r -> fitsG k t d c r.
Proof. destruct 1; cbn; eauto with life. Qed.

Lemma fits_plain k t d c r l n m : fits k t d c r -> clearing (mkG k l n m) = false /\ doClears (mkG k l n m) = 0%nat.
Proof. by destruct 1. Qed.

(** A goroutine that goes on with code that fits. *)
Lemma okG_goto removed owner i k t d c r :
  fits k t d c r -> (t <= 2)%nat ->
  (r = true -> removed = true) -> (c = true -> removed = false /\ (0 < d)%nat) -> ((0 < d)%nat <-> owner = Some i) ->
  okG removed owner i (mkG k None t d) c r.
Proof. intros Hf Ht Hr Hc Ho. split; cbn [g_code g_loaded g_touches g_depth]; try done. by apply fits_fitsG. Qed.

Section Operation.
Context (w : world) (removed cleared : bool) (i : nat) (g : goroutine).
Context (Hgood : good w removed cleared) (Hg : l_gs w !! i = Some g).

(** The word stays, and so do the references. *)
Lemma good_same g' owner' managed' :
  doClears g' = doClears g -> g_touches g' = g_touches g ->
  (owner' = l_owner w \/ ((l_owner w = None \/ l_owner w = Some i) /\ (owner' = None \/ owner' = Some i))) ->
  (exists c r, okG removed owner' i g' c r) ->
  (clearing g' = clearing g \/ (clearing g' = false /\ cleared = true)) ->
  good (mkLife (l_word w) owner' managed' (l_clears w) (<[i := g']> (l_gs w))) removed cleared.
Proof.
  intros Hd Ht Ho Hok Hc. pose proof (references_lookup _ _ _ Hg) as Hle.
  apply (good_step w removed cleared i g g'); [done|done|done|by left|done| |lia]. cbv zeta.
  replace (references (l_gs w) - g_touches g + g_touches g')%nat with (references (l_gs w)) by lia.
  split_and!; [apply Hgood|apply Hgood| | |by left].
  - intros Hr Hcl. destruct Hc as [Hc|[_ ?]]; [|congruence]. rewrite Hc.
    destruct (references (l_gs w)) eqn:E; [|left; lia]. right. destruct (clearing g); [by left|by right].
  - intros Hcg. destruct Hc as [Hc|[? _]]; [|congruence]. rewrite Hc in Hcg. by apply (gd_last _ _ _ Hgood i g).
Qed.

(** The goroutine goes on with code that fits. *)
Lemma good_goto k managed' c r :
  doClears g = 0%nat -> clearing g = false \/ cleared = true -> fits k (g_touches g) (g_depth g) c r ->
  (r = true -> removed = true) -> (c = true -> removed = false /\ (0 < g_depth g)%nat) ->
  good (mkLife (l_word w) (l_owner w) managed' (l_clears w)
          (<[i := mkG k None (g_touches g) (g_depth g)]> (l_gs w))) removed cleared.
Proof.
  intros Hd Hc Hf Hr Hck. destruct (gd_gs _ _ _ Hgood i g Hg) as (c0 & r0 & Hok).
  destruct (fits_plain _ _ _ _ _ None (g_touches g) (g_depth g) Hf) as [Hc' Hd'].
  apply good_same; [congruence|done|by left| |destruct Hc; [left; congruence|by right]].
  exists c, r. apply okG_goto; [done|apply Hok|done|done|apply Hok].
Qed.

(** The goroutine starts its loop again. *)
Lemma good_retry op k managed' loaded :
  g_code g = op :: k -> (forall old, loaded = Some old -> loaded_ok op old) ->
  good (mkLife (l_word w) (l_owner w) managed' (l_clears w)
          (<[i := mkG (op :: k) loaded (g_touches g) (g_depth g)]> (l_gs w))) removed cleared.
Proof.
  intros Hcode Hl. destruct (gd_gs _ _ _ Hgood i g Hg) as (c0 & r0 & [Hf Hr Hc Ht Ho _]).
  apply good_same; [unfold doClears; by rewrite Hcode|done|by left| |left; unfold clearing; by rewrite Hcode].
  exists c0, r0. split; cbn [g_code g_loaded g_touches g_depth]; [by rewrite <- Hcode|done..|].
  intros op' k' old [= <- <-] Eold. by apply Hl.
Qed.

Context (Hbound : Z.of_nat (length (l_gs w)) < 2 ^ 28).

Lemma references_small : 0 <= Z.of_nat (references (l_gs w)) < 2 ^ 30 - 1.
Proof. pose proof (references_bound _ _ _ Hgood). lia. Qed.

(** The flags, as the operations read them. *)
Lemma word_flags :
  IsRemoved (l_word w) = removed /\ IsClear (l_word w) = cleared /\
  touchCnt (l_word w) = Z.of_nat (references (l_gs w)).
Proof.
  pose proof references_small. rewrite (gd_word _ _ _ Hgood).
  rewrite word_removed, word_cleared, word_count by lia. done.
Qed.

Definition after : world :=
  let '(w, g) := operate w i g in
  mkLife (l_word w) (l_owner w) (l_managed w) (l_clears w) (<[i := g]> (l_gs w)).

Ltac begin_op Hcode c r Hok Hf :=
  intros Hcode; destruct (gd_gs _ _ _ Hgood i g Hg) as (c & r & Hok);
  pose proof (ok_fits _ _ _ _ _ _ Hok) as Hf; rewrite Hcode in Hf; cbn in Hf;
  unfold after, operate; rewrite Hcode.

Ltac flags Ewr Ewc Ewn Hsmall Hle Hcg Hdg Hcode :=
  destruct word_flags as (Ewr & Ewc & Ewn);
  pose proof references_small as Hsmall; pose proof (references_lookup _ _ _ Hg) as Hle;
  assert (Hcg : clearing g = clearing (mkG (g_code g) None 0 0)) by reflexivity; rewrite Hcode in Hcg; cbn in Hcg;
  assert (Hdg : doClears g = doClears (mkG (g_code g) None 0 0)) by reflexivity; rewrite Hcode in Hdg; cbn in Hdg.

Lemma op_touch fail k :
  g_code g = ITouch fail :: k -> good after removed cleared.
Proof.
  begin_op Hcode c r Hok Hf. inversion Hf as [|? ? ? ? ? ? Ht Hfail Hk| | | | | | | | |]; subst.
  flags Ewr Ewc Ewn Hsmall Hle Hcg Hdg Hcode.
  destruct (g_loaded g) as [old|] eqn:El.
  - destruct (ok_loaded _ _ _ _ _ _ Hok _ _ _ Hcode El) as [Hor Hoc].
    destruct (Z.eqb_spec (l_word w) old) as [<-|Hne].
    + cbn [fst snd l_word l_owner l_managed l_clears l_gs].
      assert (Er : removed = false) by congruence. assert (Ec : cleared = false) by congruence.
      destruct (fits_plain _ _ _ _ _ None (S (g_touches g)) (g_depth g) Hk) as [_ Hd'].
      apply (good_step w removed cleared i g (mkG k None (S (g_touches g)) (g_depth g))); [done|done|by left|by left| | |lia].
      * exists c, r. destruct Hok as [_ Hr Hc Htt Ho _]. split; cbn [g_code g_loaded g_touches g_depth];
          [by apply fits_fitsG|done|done|lia|done|done].
      * cbv zeta. cbn [g_touches].
        replace (references (l_gs w) - g_touches g + S (g_touches g))%nat with (S (references (l_gs w))) by lia.
        destruct (fits_plain _ _ _ _ _ None (S (g_touches g)) (g_depth g) Hk) as [-> _].
        split_and!; [|by rewrite Ec|by rewrite Er|done|by right]. rewrite (gd_word _ _ _ Hgood), word_inc by lia. f_equal. lia.
    + by apply good_retry.
  - rewrite Ewr, Ewc. destruct (removed || cleared) eqn:Erc.
    + apply (good_goto _ _ c r); [done|by left|done|apply Hok|apply Hok].
    + apply orb_false_iff in Erc as [Er Ec]. apply good_retry; [done|]. intros old [= <-]. split; congruence.
Qed.

Lemma op_untouch k : g_code g = IUnTouch :: k -> good after removed cleared.
Proof.
  begin_op Hcode c r Hok Hf. inversion Hf as [| |? t ? ? ? Hk Ek Et| | | | | | | |]; subst.
  flags Ewr Ewc Ewn Hsmall Hle Hcg Hdg Hcode. rewrite <- Et in Hle.
  assert (Ew : wrapi32 (l_word w - 1) = wordOf (Z.of_nat (references (l_gs w) - 1)) removed cleared).
  { rewrite (gd_word _ _ _ Hgood), word_dec by lia. f_equal. lia. }
  assert (Hnc : cleared = false).
  { destruct cleared eqn:E; [|done]. destruct (gd_cleared _ _ _ Hgood eq_refl). lia. }
  cbn [Nat.pred l_word l_owner l_managed l_clears l_gs]. rewrite Ew, word_removed, word_count by lia.
  set (code := if removed && _ then IUnTouchClear :: k else k).
  apply (good_step w removed cleared i g (mkG code None t (g_depth g))); [done|done|by left|by left| | |].
  - destruct Hok as [_ Hr Hc Htt Ho _]. rewrite <- Et in Htt. exists c. unfold code.
    destruct (removed && _) eqn:E.
    + apply andb_true_iff in E as [Erm _]. exists true. split; cbn [g_code g_loaded g_touches g_depth];
        [split; [done|by apply fits_removed in Hk]|done|done|lia|done|done].
    + exists r. split; cbn [g_code g_loaded g_touches g_depth]; [by apply fits_fitsG|done|done|lia|done|done].
  - cbv zeta. cbn [g_touches]. rewrite <- Et.
    replace (references (l_gs w) - S t + t)%nat with (references (l_gs w) - 1)%nat by lia.
    assert (Hcode' : clearing (mkG code None t (g_depth g)) = removed && (Z.of_nat (references (l_gs w) - 1) =? 0)).
    { destruct (fits_plain _ _ _ _ _ None t (g_depth g) Hk) as [Hp _]. unfold code. by destruct (removed && _). }
    rewrite Hcode'. split_and!; [done|by rewrite Hnc| | |left; lia].
    + intros -> _. cbn. destruct (Z.eqb_spec (Z.of_nat (references (l_gs w) - 1)) 0); [by right; left|left; lia].
    + intros [_ Hz]%andb_true_iff. apply Z.eqb_eq in Hz. lia.
  - destruct (fits_plain _ _ _ _ _ None t (g_depth g) Hk) as [_ Hd']. unfold doClears in *. cbn in *. rewrite Hdg.
    unfold code. destruct (removed && _); [|rewrite Hd']; lia.
Qed.

(** The swap that sets the cleared bit, when nobody has a reference. *)
Lemma set_cleared k c r :
  doClears g = 0%nat -> okG removed (l_owner w) i g c r -> fits k (g_touches g) (g_depth g) c r -> r = true ->
  cleared = false -> references (l_gs w) = 0%nat ->
  good (mkLife (Z.lor (l_word w) clearedBit) (l_owner w) (l_managed w) (l_clears w)
          (<[i := mkG (IDoClear :: k) None (g_touches g) (g_depth g)]> (l_gs w))) removed true.
Proof.
  intros Hdg Hok Hk Hr Hnc Hz. pose proof references_small as Hsmall. pose proof (references_lookup _ _ _ Hg) as Hle.
  apply (good_step w removed cleared i g (mkG (IDoClear :: k) None (g_touches g) (g_depth g)));
    [done|done|by left|by left| | |].
  - exists c, r. destruct Hok as [_ Hr' Hc Htt Ho _]. split; cbn [g_code g_loaded g_touches g_depth]; done.
  - cbv zeta. cbn [g_touches]. replace (references (l_gs w) - g_touches g + g_touches g)%nat with 0%nat by lia.
    split_and!; [|intros _; split; [by apply (ok_removed _ _ _ _ _ _ Hok)|done]|done|done|left; lia].
    rewrite (gd_word _ _ _ Hgood), word_set_cleared, Hz by lia. done.
  - cbn. rewrite Hdg, Hnc. lia.
Qed.

Lemma op_untouch_clear k : g_code g = IUnTouchClear :: k -> exists cleared', good after removed cleared'.
Proof.
  begin_op Hcode c r Hok Hf. destruct Hf as [Hr Hk]. flags Ewr Ewc Ewn Hsmall Hle Hcg Hdg Hcode.
  destruct (g_loaded g) as [old|] eqn:El.
  - pose proof (ok_loaded _ _ _ _ _ _ Hok _ _ _ Hcode El) as Hoc. cbn in Hoc.
    destruct (Z.eqb_spec (l_word w) old) as [<-|Hne].
    + exists true. apply (set_cleared k c r); auto; [congruence|]. by apply (gd_last _ _ _ Hgood i g).
    + exists cleared. by apply good_retry.
  - exists cleared. destruct (IsClear (l_word w)) eqn:Eb.
    + apply (good_goto _ _ c r); [done|by right|done|apply Hok|apply Hok].
    + apply good_retry; [done|]. by intros old [= <-].
Qed.

Lemma op_lock k : g_code g = ILock :: k -> good after removed cleared.
Proof.
  begin_op Hcode c r Hok Hf. inversion Hf as [| | |? ? ? ? ? Hk| | | | | | |]; subst.
  flags Ewr Ewc Ewn Hsmall Hle Hcg Hdg Hcode.
  destruct (fits_plain _ _ _ _ _ None (g_touches g) (S (g_depth g)) Hk) as [Hck Hdk].
  assert (Hgo : l_owner w = None \/ l_owner w = Some i ->
    good (mkLife (l_word w) (Some i) (l_managed w) (l_clears w)
      (<[i := mkG k None (g_touches g) (S (g_depth g))]> (l_gs w))) removed cleared).
  { intros How. apply good_same; [congruence|done|by right; auto| |left; congruence].
    exists c, r. apply okG_goto; [done|apply Hok|apply Hok| |by split; [|lia]].
    intros Hc. split; [by apply (ok_checked _ _ _ _ _ _ Hok)|lia]. }
  destruct (l_owner w) as [o|] eqn:Eo; [|apply Hgo; by left].
  destruct (Nat.eqb_spec o i) as [->|Hne]; [apply Hgo; by right|].
  rewrite list_insert_id by done. replace (mkLife _ _ _ _ _) with w by by destruct w. done.
Qed.

Lemma op_unlock k : g_code g = IUnlock :: k -> good after removed cleared.
Proof.
  begin_op Hcode c r Hok Hf. inversion Hf as [| | | |? ? d ? c' ? Hk Hc' Ek Et Ed| | | | | |]; subst.
  flags Ewr Ewc Ewn Hsmall Hle Hcg Hdg Hcode.
  destruct (fits_plain _ _ _ _ _ None (g_touches g) d Hk) as [Hck Hdk].
  assert (Hown : l_owner w = Some i) by (apply (ok_owner _ _ _ _ _ _ Hok); lia).
  cbn [l_word l_owner l_managed l_clears l_gs Nat.pred].
  apply good_same; [congruence|done|right; split; [by right|by destruct (_ =? _)%nat; auto]| |left; congruence].
  exists c', r. apply okG_goto; [done|apply Hok|apply Hok| |].
  - intros Hc. destruct (Hc' Hc) as [Hcc Hd]. split; [by apply (ok_checked _ _ _ _ _ _ Hok)|lia].
  - destruct (Nat.eqb_spec (S d) 1) as [Hd|Hd]; [|split; [done|lia]]. split; [lia|done].
Qed.

Lemma op_check_removed fail k : g_code g = ICheckRemoved fail :: k -> good after removed cleared.
Proof.
  begin_op Hcode c r Hok Hf. inversion Hf as [| | | | |? ? ? d ? ? Hfail Hk Ek Et Ed| | | | |]; subst.
  flags Ewr Ewc Ewn Hsmall Hle Hcg Hdg Hcode. cbn [l_word l_owner l_managed l_clears l_gs]. rewrite Ed.
  destruct (IsRemoved (l_word w)) eqn:Eb.
  - apply (good_goto _ _ c r); [done|by left|by rewrite <- Ed|apply Hok|apply Hok].
  - apply (good_goto _ _ true r); [done|by left|by rewrite <- Ed|apply Hok|]. intros _. split; [done|lia].
Qed.

Lemma op_plain k :
  (exists fail, g_code g = ICheckClear fail :: k) \/ g_code g = IUse :: k \/ (exists fail, g_code g = IUnpublish fail :: k) ->
  good after removed cleared.
Proof.
  intros [[fail Hcode]|[Hcode|[fail Hcode]]]; revert Hcode; begin_op Hcode c r Hok Hf; inversion Hf; subst;
    flags Ewr Ewc Ewn Hsmall Hle Hcg Hdg Hcode; try destruct (IsClear (l_word w)); try destruct (l_managed w);
    (eapply good_goto; [done|by left|eassumption|apply Hok|apply Hok]).
Qed.

Lemma op_set_removed k :
  g_code g = ISetRemoved :: k -> exists removed', good after removed' cleared /\ (removed = true -> removed' = true).
Proof.
  begin_op Hcode c r Hok Hf. inversion Hf as [| | | | | | | | |? t d ? ? Hk Ek Et Ed|]; subst.
  flags Ewr Ewc Ewn Hsmall Hle Hcg Hdg Hcode. rewrite Et, Ed in Hk |- *.
  destruct (g_loaded g) as [old|] eqn:El; [|exists removed; split; [by apply good_retry|done]].
  destruct (Z.eqb_spec (l_word w) old) as [<-|Hne]; [|exists removed; split; [by apply good_retry|done]].
  exists true. split; [|done]. cbn [l_word l_owner l_managed l_clears l_gs].
  assert (Hown : l_owner w = Some i) by (apply (ok_owner _ _ _ _ _ _ Hok); lia).
  assert (Hnc : cleared = false).
  { destruct cleared eqn:E; [|done]. destruct (gd_cleared _ _ _ Hgood eq_refl). lia. }
  destruct (fits_plain _ _ _ _ _ None (g_touches g) (g_depth g) Hk) as [Hck Hdk].
  apply (good_step w removed cleared i g (mkG k None (g_touches g) (g_depth g))); [done|done|by left|by right| | |lia].
  - exists false, true. apply okG_goto; [done|apply Hok|done|done|apply Hok].
  - cbv zeta. cbn [g_touches]. replace (references (l_gs w) - g_touches g + g_touches g)%nat with (references (l_gs w)) by lia.
    rewrite Hck. split_and!; [|by rewrite Hnc|left; lia|done|left; lia].
    rewrite (gd_word _ _ _ Hgood), word_set_removed by lia. done.
Qed.

Lemma op_clear_base k : g_code g = IClearBase :: k -> exists cleared', good after removed cleared'.
Proof.
  begin_op Hcode c r Hok Hf. inversion Hf as [| | | | | | | | | |? ? ? ? Hk]; subst.
  flags Ewr Ewc Ewn Hsmall Hle Hcg Hdg Hcode.
  destruct (g_loaded g) as [old|] eqn:El.
  - destruct (ok_loaded _ _ _ _ _ _ Hok _ _ _ Hcode El) as [Hoc Hon].
    destruct (Z.eqb_spec (l_word w) old) as [<-|Hne].
    + exists true. apply (set_cleared k c true); auto; [congruence|lia].
    + exists cleared. by apply good_retry.
  - exists cleared. destruct (IsClear (l_word w)) eqn:Eb.
    + apply (good_goto _ _ c true); [done|by left|done|apply Hok|apply Hok].
    + destruct (Z.eqb_spec (touchCnt (l_word w)) 0) as [Hz|Hz]; cbn [negb].
      * apply good_retry; [done|]. by intros old [= <-].
      * apply (good_goto _ _ c true); [done|by left|done|apply Hok|apply Hok].
Qed.

Lemma op_do_clear k : g_code g = IDoClear :: k -> good after removed cleared.
Proof.
  begin_op Hcode c r Hok Hf. destruct Hf as [Hr Hk]. flags Ewr Ewc Ewn Hsmall Hle Hcg Hdg Hcode.
  cbn [l_word l_owner l_managed l_clears l_gs].
  destruct (fits_plain _ _ _ _ _ None (g_touches g) (g_depth g) Hk) as [Hck Hdk].
  apply (good_step w removed cleared i g (mkG k None (g_touches g) (g_depth g))); [done|done|by left|by left| | |lia].
  - exists c, r. apply okG_goto; [done|apply Hok|apply Hok|apply Hok|apply Hok].
  - cbv zeta. cbn [g_touches]. replace (references (l_gs w) - g_touches g + g_touches g)%nat with (references (l_gs w)) by lia.
    rewrite Hck. split_and!; [apply Hgood|apply Hgood| |done|by left].
    intros Hr' Hc'. destruct (references (l_gs w)) eqn:E; [|left; lia]. by right; right.
Qed.

Lemma good_after : exists removed' cleared', good after removed' cleared' /\ (removed = true -> removed' = true).
Proof.
  destruct (g_code g) as [|op k] eqn:Hcode.
  { exists removed, cleared. split; [|done]. unfold after, operate. rewrite Hcode, list_insert_id by done. by destruct w. }
  destruct op as [fail| | | | |fail|fail| |fail| | |];
    [ exists removed, cleared; split; [by apply (op_touch fail k)|done]
    | exists removed, cleared; split; [by apply (op_untouch k)|done]
    | destruct (op_untouch_clear k Hcode) as [c' ?]; by exists removed, c'
    | exists removed, cleared; split; [by apply (op_lock k)|done]
    | exists removed, cleared; split; [by apply (op_unlock k)|done]
    | exists removed, cleared; split; [by apply (op_check_removed fail k)|done]
    | exists removed, cleared; split; [apply (op_plain k); eauto|done]
    | exists removed, cleared; split; [apply (op_plain k); eauto|done]
    | exists removed, cleared; split; [apply (op_plain k); eauto|done]
    | destruct (op_set_removed k Hcode) as (r' & ? & ?); by exists r', cleared
    | destruct (op_clear_base k Hcode) as [c' ?]; by exists removed, c'
    | exists removed, cleared; split; [by apply (op_do_clear k)|done] ].
Qed.

End Operation.

(** ** Schedules *)

Lemma life_turn_good w removed cleared i :
  Z.of_nat (length (l_gs w)) < 2 ^ 28 -> good w removed cleared ->
  exists removed' cleared', good (turn w i) removed' cleared' /\ length (l_gs (turn w i)) = length (l_gs w).
Proof.
  intros Hlen Hgood. unfold turn. destruct (l_gs w !! i) as [g|] eqn:Hg; [|by exists removed, cleared].
  destruct (good_after w removed cleared i g Hgood Hg Hlen) as (r' & c' & Hg' & _).
  exists r', c'. unfold after in Hg'.
  assert (Hgs : l_gs (operate w i g).1 = l_gs w) by (unfold operate; repeat case_match; done).
  destruct (operate w i g) as [w1 g1]. cbn in Hgs. split; [done|]. cbn. by rewrite length_insert, Hgs.
Qed.

Lemma life_start_good jobs : good (start jobs) false false.
Proof.
  split; cbn [start l_word l_gs l_owner l_clears].
  - unfold references. rewrite sum_zero; [done|]. intros i g Hi. rewrite list_lookup_fmap in Hi.
    destruct (jobs !! i); [|done]. by injection Hi as <-.
  - intros i g Hi. rewrite list_lookup_fmap in Hi. destruct (jobs !! i) as [j|]; [|done]. injection Hi as <-.
    exists false, false. apply okG_goto; [apply program_fits|lia|done|done|split; [lia|done]].
  - done.
  - rewrite sum_zero; [done|]. intros i g Hi. rewrite list_lookup_fmap in Hi.
    destruct (jobs !! i) as [[]|]; [..|done]; by injection Hi as <-.
  - done.
  - intros i g Hi. rewrite list_lookup_fmap in Hi. destruct (jobs !! i) as [[]|]; [..|done]; by injection Hi as <-.
Qed.

Lemma life_run_good jobs schedule :
  Z.of_nat (length jobs) < 2 ^ 28 ->
  exists removed cleared, good (run jobs schedule) removed cleared /\ length (l_gs (run jobs schedule)) = length jobs.
Proof.
  intros Hlen. unfold run. induction schedule as [|i schedule IH] using rev_ind.
  - exists false, false. split; [apply life_start_good|]. cbn. by rewrite length_fmap.
  - rewrite foldl_app. cbn. destruct IH as (r & c & Hgood & Hl).
    destruct (life_turn_good (foldl turn (start jobs) schedule) r c i) as (r' & c' & Hg' & Hl'); [lia|done|].
    exists r', c'. split; [done|lia].
Qed.

(** A finished goroutine has given everything back. *)
Lemma finished_nothing removed owner i g c r : okG removed owner i g c r -> g_code g = [] -> g_touches g = 0%nat /\ g_depth g = 0%nat.
Proof. intros [Hf _ _ _ _ _] Hc. rewrite Hc in Hf. cbn in Hf. by inversion Hf. Qed.

Lemma finished_references w removed cleared :
  good w removed cleared -> Forall (fun g => g_code g = []) (l_gs w) ->
  references (l_gs w) = 0%nat /\ sum_list_with doClears (l_gs w) = 0%nat /\ forall i g, l_gs w !! i = Some g -> clearing g = false.
Proof.
  intros [_ Hgs _ _ _ _] Hdone. rewrite Forall_lookup in Hdone.
  split_and!.
  - apply sum_zero. intros i g Hi. destruct (Hgs i g Hi) as (c & r & Hok). by eapply finished_nothing; [|apply (Hdone i)].
  - apply sum_zero. intros i g Hi. unfold doClears. by rewrite (Hdone i g Hi).
  - intros i g Hi. unfold clearing. by rewrite (Hdone i g Hi).
Qed.

(** C12. However dispatches, casts and removals of an entity interleave, with or without a callback that may fail,
    the entity is cleared at most once,
    and only after it was removed and when nobody has a reference to it.  When all of them have returned, no
    reference is left and, if the entity was removed, it was cleared exactly once. *)
Theorem entity_cleared_once jobs schedule :
  Z.of_nat (length jobs) < 2 ^ 28 ->
  let w := run jobs schedule in
  (l_clears w <= 1)%nat /\
  (l_clears w = 1%nat -> IsRemoved (l_word w) = true /\ touchCnt (l_word w) = 0) /\
  (forall i g, l_gs w !! i = Some g -> (0 < g_touches g)%nat -> l_clears w = 0%nat /\ IsClear (l_word w) = false) /\
  (Forall (fun g => g_code g = []) (l_gs w) ->
     touchCnt (l_word w) = 0 /\ l_clears w = if IsRemoved (l_word w) then 1%nat else 0%nat).
Proof.
  intros Hlen. cbv zeta. destruct (life_run_good jobs schedule Hlen) as (r & c & Hgood & Hl).
  assert (Hlen' : Z.of_nat (length (l_gs (run jobs schedule))) < 2 ^ 28) by lia.
  destruct (word_flags _ r c Hgood Hlen') as (Er & Ec & En).
  pose proof (gd_clears _ _ _ Hgood) as Hcl. rewrite Er, Ec, En. split_and!.
  - destruct c; lia.
  - intros H1. destruct c; [|lia]. destruct (gd_cleared _ _ _ Hgood eq_refl) as [-> ->]. done.
  - intros i g Hi Ht. pose proof (references_lookup _ _ _ Hi). destruct c; [|split; [lia|done]].
    destruct (gd_cleared _ _ _ Hgood eq_refl). lia.
  - intros Hdone. destruct (finished_references _ r c Hgood Hdone) as (Href & Hdc & Hncl).
    split; [lia|]. rewrite Hdc in Hcl. destruct c.
    + destruct (gd_cleared _ _ _ Hgood eq_refl) as [-> _]. lia.
    + destruct r; [|lia]. destruct (gd_pending _ _ _ Hgood eq_refl eq_refl) as [?|(i & g & Hi & Hc)]; [lia|].
      by rewrite (Hncl i g Hi) in Hc.
Qed.

(** A handler uses an entity only while it alone has the entity's lock and the entity is neither
    removed nor cleared, whatever removals run beside it. *)
Theorem handler_sees_live_entity jobs schedule i g k :
  Z.of_nat (length jobs) < 2 ^ 28 ->
  let w := run jobs schedule in
  l_gs w !! i = Some g -> g_code g = IUse :: k ->
  IsRemoved (l_word w) = false /\ IsClear (l_word w) = false /\ l_clears w = 0%nat /\ l_owner w = Some i /\
  forall j h k', l_gs w !! j = Some h -> g_code h = IUse :: k' -> j = i.
Proof.
  intros Hlen. cbv zeta. intros Hi Hcode. destruct (life_run_good jobs schedule Hlen) as (r & c & Hgood & Hl).
  assert (Hlen' : Z.of_nat (length (l_gs (run jobs schedule))) < 2 ^ 28) by lia.
  destruct (word_flags _ r c Hgood Hlen') as (-> & -> & _).
  assert (Huse : forall j h k', l_gs (run jobs schedule) !! j = Some h -> g_code h = IUse :: k' ->
    r = false /\ l_owner (run jobs schedule) = Some j).
  { intros j h k' Hj Hh. destruct (gd_gs _ _ _ Hgood j h Hj) as (ck & rk & [Hf _ Hck _ Ho _]).
    rewrite Hh in Hf. cbn in Hf. inversion Hf; subst. destruct (Hck eq_refl) as [Hr Hd]. split; [done|by apply Ho]. }
  destruct (Huse i g k Hi Hcode) as [Hr Ho]. subst r.
  assert (Hc : c = false) by (destruct c; [by destruct (gd_cleared _ _ _ Hgood eq_refl)|done]). subst c.
  split_and!; [done|done| |done|].
  - pose proof (gd_clears _ _ _ Hgood) as Hn. cbv iota in Hn. lia.
  - intros j h k' Hj Hh. destruct (Huse j h k' Hj Hh) as [_ Hoj]. congruence.
Qed.

(** Two handlers, a removal and one whose callback fails: the first handler still works when the
    removal starts. *)
Definition life_jobs : list job :=
  [Dispatch 2 None; Cast 1 (Some (BeforeDestroy 1 false)); Remove NoCallback; Remove (BeforeDestroy 1 true)].
Definition life_schedule : list nat := replicate 6 0%nat ++ replicate 3 2%nat ++ replicate 8 1%nat.

Lemma handler_sees_live_entity_witness :
  exists g k, l_gs (run life_jobs life_schedule) !! 0%nat = Some g /\ g_code g = IUse :: k /\
  IsRemoved (l_word (run life_jobs life_schedule)) = false /\ IsClear (l_word (run life_jobs life_schedule)) = false /\
  l_clears (run life_jobs life_schedule) = 0%nat /\ l_owner (run life_jobs life_schedule) = Some 0%nat /\
  forall j h k', l_gs (run life_jobs life_schedule) !! j = Some h -> g_code h = IUse :: k' -> j = 0%nat.
Proof.
  eexists _, _. split; [vm_compute; reflexivity|]. split; [reflexivity|].
  eapply (handler_sees_live_entity life_jobs life_schedule); [reflexivity|vm_compute; reflexivity|reflexivity].
Defined.

Definition life_all : list nat := life_schedule ++ concat (replicate 30 [0%nat; 3%nat; 1%nat; 2%nat]).

Lemma entity_cleared_once_witness :
  l_clears (run life_jobs life_all) = 1%nat /\
  (Forall (fun g => g_code g = []) (l_gs (run life_jobs life_all)) ->
   touchCnt (l_word (run life_jobs life_all)) = 0 /\
   l_clears (run life_jobs life_all) = if IsRemoved (l_word (run life_jobs life_all)) then 1%nat else 0%nat) /\
  Forall (fun g => g_code g = []) (l_gs (run life_jobs life_all)).
Proof.
  split; [vm_compute; reflexivity|]. split.
  - apply (entity_cleared_once life_jobs life_all). reflexivity.
  - vm_compute. repeat constructor.
Defined.
