(* ===== verification/LockOrder.v ===== *)
(** * The order of entity locks

    [src/entity/entity_guard.go] keeps the entities that a goroutine has locked and
    decides when it may wait for more; [src/nest/nest_dispatch.go] locks the entities
    of a message before its handler runs, and [src/nest/cast.go] locks more of them
    inside a handler.  Goroutines interleave at every lock operation; a mutex that is
    held by another goroutine is waited for, or given up where the code only tries. *)

From stdpp Require Import base list gmap.
From Stdlib Require Import ZArith Lia Sorting.Sorted.
From S2P Require Import Prelude EntityId RemoteProto.

Local Open Scope Z_scope.

Definition EntityGroupRemote : Z := 0.
Definition EntityGroupPlayer : Z := 1.
Definition EntityGroupAlliance : Z := 2.
Definition EntityGroupOther : Z := 3.

Definition shouldPrepareRemoteID (reg : Registry) (meta : EntityIDMeta) : bool :=
  if (em_Kind meta =? EntityKindNone) || negb (em_RemoteCapable meta) then false
  else if negb (IsEntityKindRemoteCapable reg (em_Kind meta)) then false
  else IsEntityKindRemoteManaged reg (em_Kind meta).

Section Locks.
(** The kinds, the hook [GetEntityGroupFunc], and which entities are removed. *)
Context (reg : Registry) (groupFunc : option (Z -> Z)) (gone : Z -> bool).

Definition GetEntityGroup (guid : Z) : Z :=
  if IsRemoteCapableEntityID reg guid then EntityGroupRemote else
  match groupFunc with
  | Some f => f (GetEntityCategoryFromID guid)
  | None => EntityGroupOther
  end.

Definition cmpGuidFunc (guidI guidJ : Z) : bool :=
  if negb (GetEntityGroup guidI =? GetEntityGroup guidJ) then GetEntityGroup guidI <? GetEntityGroup guidJ
  else guidI <? guidJ.

Definition SortEntity : list Z -> list Z := sort_slice cmpGuidFunc.

(** ** Guards *)

Definition maxLockedGroup (held : gset Z) : Z :=
  foldr (fun id acc => Z.max (GetEntityGroup id) acc) (-1) (elements held).

(** [CheckContainAllLock] and [CheckContainAllIDs], which differ in how they get the
    identifier. *)
Definition CheckContainAllLock (held : gset Z) (es : list Z) : bool :=
  if (len es =? 0) || bool_decide (held = ∅) then true else
  forallb (fun id => bool_decide (id ∈ held) || (maxLockedGroup held <? GetEntityGroup id)) es.

(** What the code of a goroutine asks for, one after the other. *)
Inductive request :=
  | RDispatch (ids : list Z)   (** [lockDispatchEntities], for a message *)
  | RGrouped (ids : list Z)    (** [tryLockDispatchEntities], under a group lock *)
  | RCast (ids : list Z)       (** [CastMulti] *)
  | RReleaseCast (id : Z)      (** [ReleaseCast], or the end of one turn of a broadcast *)
  | RBroadcast (id : Z).       (** [RequireEntity] of one turn of a broadcast *)

(** A goroutine with its guard: the entities it holds, those the present request (a cast
    or not) still locks, by waiting or by trying, those it has locked, and those it
    gives back. *)
Record goroutine := mkGuard {
  gu_held : gset Z;
  gu_try : bool;
  gu_cast : bool;
  gu_todo : list Z;
  gu_locked : list Z;
  gu_release : list Z;
  gu_requests : list request
}.

Definition normalizeFullIDs (ids : list Z) : ires (list Z) := mapM (fun id => NormalizeFullID reg id EntityKindNone) ids.

(** [firstDispatchEntityMissing] *)
Definition firstMissing (ids : list Z) : bool := match ids with [] => true | id :: _ => gone id end.

(** The entities that the dispatch of a message locks, in order. *)
Definition dispatchTargets (ids : list Z) : option (list Z) :=
  match normalizeFullIDs ids with
  | Err _ => None
  | Ok full => if firstMissing full then None else Some (SortEntity (filter (fun id => gone id = false) full))
  end.

(** The entities that a cast locks, in order. *)
Definition castTargets (held : gset Z) (ids : list Z) : option (list Z) :=
  if (len ids =? 0) || existsb (Z.eqb 0) ids then None else
  match normalizeFullIDs ids with
  | Err _ => None
  | Ok full =>
      if negb (CheckContainAllLock held full) then None else
      if existsb (fun id => shouldPrepareRemoteID reg (ResolveEntityID reg id) && negb (bool_decide (id ∈ held))) full
      then None else
      if existsb gone full then None else
      if negb (CheckContainAllLock held full) then None else Some (SortEntity full)
  end.

(** The beginning of a request: the entities to lock and whether to try only. *)
Definition begin (held : gset Z) (r : request) : option (list Z * bool) :=
  match r with
  | RDispatch ids =>
      lockEs ← dispatchTargets ids;
      Some (lockEs, negb (bool_decide (held = ∅)) && negb (CheckContainAllLock held lockEs))
  | RGrouped ids => lockEs ← dispatchTargets ids; Some (lockEs, true)
  | RCast ids => lockEs ← castTargets held ids; Some (lockEs, false)
  | RBroadcast id => if (id =? 0) || gone id then None else Some ([id], false)
  | RReleaseCast _ => None
  end.

(** Whether another goroutine has the entity. *)
Definition taken (gs : list goroutine) (i : nat) (id : Z) : bool :=
  existsb (fun '(j, g) => negb (j =? i)%nat && bool_decide (id ∈ gu_held g)) (imap pair gs).

Definition isCast (r : request) : bool := match r with RCast _ => true | _ => false end.

Definition step (gs : list goroutine) (i : nat) (g : goroutine) : goroutine :=
  match gu_release g with
  | id :: rest => mkGuard (gu_held g ∖ {[ id ]}) (gu_try g) (gu_cast g) (gu_todo g) (gu_locked g) rest (gu_requests g)
  | [] =>
      match gu_todo g with
      | id :: rest =>
          (* releaseCastEntities goes forward, releaseDispatchEntities backward *)
          let giveUp := mkGuard (gu_held g) (gu_try g) (gu_cast g) [] []
                          (if gu_cast g then gu_locked g else reverse (gu_locked g)) (gu_requests g) in
          if bool_decide (id ∈ gu_held g)
          then mkGuard (gu_held g) (gu_try g) (gu_cast g) rest (gu_locked g) [] (gu_requests g)
          else if taken gs i id then if gu_try g then giveUp else g
          else if gone id then giveUp
          else mkGuard ({[ id ]} ∪ gu_held g) (gu_try g) (gu_cast g) rest (gu_locked g ++ [id]) [] (gu_requests g)
      | [] =>
          match gu_requests g with
          | [] => mkGuard (gu_held g) (gu_try g) (gu_cast g) [] [] (elements (gu_held g)) []
          | RReleaseCast id :: rs =>
              mkGuard (gu_held g) false false [] [] (if bool_decide (id ∈ gu_held g) then [id] else []) rs
          | r :: rs =>
              match begin (gu_held g) r with
              | None => mkGuard (gu_held g) false false [] [] [] rs
              | Some (todo, try) => mkGuard (gu_held g) try (isCast r) todo [] [] rs
              end
          end
      end
  end.

Definition turn (gs : list goroutine) (i : nat) : list goroutine :=
  match gs !! i with None => gs | Some g => <[i := step gs i g]> gs end.

Definition start (programs : list (list request)) : list goroutine := mkGuard ∅ false false [] [] [] <$> programs.

Definition run (programs : list (list request)) (schedule : list nat) : list goroutine :=
  foldl turn (start programs) schedule.

Definition finished (g : goroutine) : bool :=
  bool_decide (gu_held g = ∅) && (len (gu_todo g) =? 0) && (len (gu_release g) =? 0) && (len (gu_requests g) =? 0).

(** A goroutine that waits for a mutex. *)
Definition waits (gs : list goroutine) (i : nat) (g : goroutine) : bool :=
  match gu_release g, gu_todo g with
  | [], id :: _ => negb (bool_decide (id ∈ gu_held g)) && taken gs i id && negb (gu_try g)
  | _, _ => false
  end.

Definition broadcasts (r : request) : bool := match r with RBroadcast _ => true | _ => false end.

(** ** The order *)

Lemma cmpGuid_iff a b :
  cmpGuidFunc a b = true <->
  GetEntityGroup a < GetEntityGroup b \/ (GetEntityGroup a = GetEntityGroup b /\ a < b).
Proof.
  unfold cmpGuidFunc. destruct (Z.eqb_spec (GetEntityGroup a) (GetEntityGroup b)); cbn [negb]; rewrite Z.ltb_lt; lia.
Qed.

#[local] Instance cmpGuid_strict : StrictWeak cmpGuidFunc.
Proof.
  split.
  - intros a. apply not_true_iff_false. rewrite cmpGuid_iff. lia.
  - intros a b c. rewrite !cmpGuid_iff. lia.
  - intros a b c. rewrite <- !not_true_iff_false, !cmpGuid_iff. lia.
Qed.

Lemma cmpGuid_total a b : a <> b -> cmpGuidFunc b a = false -> cmpGuidFunc a b = true.
Proof. rewrite <- not_true_iff_false, !cmpGuid_iff. lia. Qed.

Lemma maxLocked_above held id : id ∈ held -> GetEntityGroup id <= maxLockedGroup held.
Proof.
  intros Hin. apply elem_of_elements in Hin. unfold maxLockedGroup. induction Hin as [x l|x y l _ IH]; cbn; lia.
Qed.

Lemma CheckContainAllLock_below held es x y :
  CheckContainAllLock held es = true -> x ∈ es -> (x ∉ held) -> y ∈ held -> cmpGuidFunc y x = true.
Proof.
  unfold CheckContainAllLock. intros Hc Hx Hn Hy.
  destruct ((len es =? 0) || bool_decide (held = ∅)) eqn:E.
  - exfalso. apply orb_true_iff in E as [E|E].
    + apply len_zero_true in E. subst es. by apply elem_of_nil in Hx.
    + apply bool_decide_eq_true in E. set_solver.
  - apply Is_true_eq_left in Hc. rewrite forallb_True, Forall_forall in Hc. specialize (Hc x Hx).
    apply Is_true_eq_true in Hc.
    rewrite bool_decide_false in Hc by done. apply Z.ltb_lt in Hc. apply cmpGuid_iff. left.
    pose proof (maxLocked_above held y Hy). lia.
Qed.

(** ** The invariant *)

(** The programs of the theorems do not broadcast. *)
Record okG (g : goroutine) : Prop := {
  ok_order : gu_try g = false -> forall x y, x ∈ gu_todo g -> (x ∉ gu_held g) -> y ∈ gu_held g -> cmpGuidFunc y x = true;
  ok_sorted : StronglySorted (fun a b => cmpGuidFunc b a = false) (gu_todo g);
  ok_locked : Forall (fun id => id ∈ gu_held g) (gu_locked g) /\ NoDup (gu_locked g);
  ok_release : gu_release g <> [] -> gu_todo g = [] /\ gu_locked g = [];
  ok_requests : Forall (fun r => broadcasts r = false) (gu_requests g)
}.

Record good (gs : list goroutine) : Prop := {
  gd_ok : forall i g, gs !! i = Some g -> okG g;
  gd_disjoint : forall i j g h, gs !! i = Some g -> gs !! j = Some h -> i <> j -> gu_held g ## gu_held h
}.

Lemma taken_spec gs i id :
  taken gs i id = true <-> exists j h, gs !! j = Some h /\ j <> i /\ id ∈ gu_held h.
Proof.
  unfold taken. rewrite <- Is_true_true, existb_True, Exists_exists. split.
  - intros ([j h] & Hin & Hp). apply elem_of_lookup_imap in Hin as (j' & h' & [= -> ->] & Hj).
    exists j', h'. apply andb_True in Hp as [Hne Hin]. apply Is_true_eq_true in Hne, Hin.
    apply negb_true_iff, Nat.eqb_neq in Hne. by apply bool_decide_eq_true in Hin.
  - intros (j & h & Hj & Hne & Hin). exists (j, h). split.
    + apply elem_of_lookup_imap. by exists j, h.
    + apply andb_True. split; apply Is_true_eq_left; [by apply negb_true_iff, Nat.eqb_neq|by apply bool_decide_eq_true].
Qed.

(** Every request that may wait has checked the order. *)
Lemma begin_ordered held r todo try :
  broadcasts r = false -> begin held r = Some (todo, try) ->
  StronglySorted (fun a b => cmpGuidFunc b a = false) todo /\
  (try = false -> forall x y, x ∈ todo -> (x ∉ held) -> y ∈ held -> cmpGuidFunc y x = true).
Proof.
  intros Hb. destruct r as [ids|ids|ids|id|id]; cbn [begin]; unfold dispatchTargets, castTargets; [| | |done|done].
  - destruct (normalizeFullIDs ids) as [full|]; [|done]. destruct (firstMissing full); [done|]. cbv zeta.
    cbn. intros [= <- <-]. split; [apply sort_slice_sorted, _|]. intros Ht x y Hx Hn Hy.
    rewrite bool_decide_false in Ht by set_solver. cbn in Ht. apply negb_false_iff in Ht.
    by apply (CheckContainAllLock_below held _ x y Ht).
  - destruct (normalizeFullIDs ids) as [full|]; [|done]. destruct (firstMissing full); [done|].
    intros [= <- <-]. split; [apply sort_slice_sorted, _|done].
  - destruct (_ || _); [done|]. destruct (normalizeFullIDs ids) as [full|]; [|done].
    destruct (CheckContainAllLock held full) eqn:Hc; cbn [negb]; [|done].
    destruct (existsb _ full); [done|]. destruct (existsb gone full); [done|]. intros [= <- <-].
    split; [apply sort_slice_sorted, _|]. intros _ x y Hx Hn Hy.
    unfold SortEntity in Hx. rewrite sort_slice_perm in Hx.
    by apply (CheckContainAllLock_below held full x y).
Qed.

Lemma step_ok gs i g : okG g -> okG (step gs i g).
Proof.
  intros Hokg. pose proof Hokg as [Ho Hs [Hl Hnd] Hr Hq]. unfold step.
  destruct (gu_release g) as [|id rest] eqn:Er.
  2:{ destruct Hr as [Ht Hlk]; [done|]. split; cbn; rewrite ?Ht, ?Hlk; try done.
      - intros _ x y Hx. by apply elem_of_nil in Hx.
      - by constructor.
      - split; by constructor. }
  assert (Hempty : forall try cast rel rs, Forall (fun r => broadcasts r = false) rs ->
    okG (mkGuard (gu_held g) try cast [] [] rel rs)).
  { intros try cast rel rs Hrs. split; cbn; try done.
    - intros _ x y Hx. by apply elem_of_nil in Hx.
    - by constructor.
    - split; by constructor. }
  destruct (gu_todo g) as [|id rest] eqn:Et.
  - destruct (gu_requests g) as [|r rs] eqn:Eq; [by apply Hempty|]. apply Forall_cons in Hq as [Hb Hq].
    destruct (begin (gu_held g) r) as [[todo try]|] eqn:Eb; [|by destruct r; apply Hempty].
    assert (Hbegun : okG (mkGuard (gu_held g) try (isCast r) todo [] [] rs)).
    { destruct (begin_ordered _ _ _ _ Hb Eb) as [Hs' Ho']. split; cbn; try done. split; by constructor. }
    destruct r; try exact Hbegun. done.
  - apply StronglySorted_inv in Hs as [Hs Hall]. rewrite Forall_forall in Hall.
    assert (Htail : forall x, x ∈ rest -> x ∈ id :: rest) by (intros; apply elem_of_cons; by right).
    destruct (bool_decide_reflect (id ∈ gu_held g)) as [Hin|Hnin].
    { split; cbn; try done. intros Htry x y Hx. by apply Ho, Htail. }
    destruct (taken gs i id); [destruct (gu_try g) eqn:Etry; [by apply Hempty|]|].
    { exact Hokg. }
    destruct (gone id); [by apply Hempty|]. split; cbn; try done.
    + intros Htry x y Hx Hn [->%elem_of_singleton|Hy]%elem_of_union.
      * apply cmpGuid_total; [set_solver|]. by apply Hall.
      * apply Ho; [done|by apply Htail|set_solver|done].
    + split.
      * apply Forall_app. split; [|apply Forall_singleton; set_solver]. eapply Forall_impl; [done|]. set_solver.
      * apply NoDup_app. split_and!; [done| |by apply NoDup_singleton]. intros x Hx Hx'.
        apply list_elem_of_singleton in Hx'. subst x. rewrite Forall_forall in Hl. by apply Hnin, Hl.
Qed.

(** The locks of a goroutine that takes a step. *)
Lemma step_held gs i g id : id ∈ gu_held (step gs i g) -> id ∈ gu_held g \/ taken gs i id = false.
Proof.
  unfold step. destruct (gu_release g) as [|x rest]; [|cbn; set_solver].
  destruct (gu_todo g) as [|x rest].
  - repeat case_match; cbn; by left.
  - destruct (bool_decide (x ∈ gu_held g)); [by left|]. destruct (taken gs i x) eqn:Et; [destruct (gu_try g); by left|].
    destruct (gone x); [by left|]. cbn. intros [->%elem_of_singleton|Hin]%elem_of_union; [by right|by left].
Qed.

Lemma locks_turn_good gs i : good gs -> good (turn gs i).
Proof.
  intros [Hok Hd]. unfold turn. destruct (gs !! i) as [g|] eqn:Hg; [|by split].
  assert (Hlt : (i < length gs)%nat) by by apply lookup_lt_Some in Hg.
  assert (Hstep : forall j h, gs !! j = Some h -> j <> i -> gu_held (step gs i g) ## gu_held h).
  { intros j h Hj Hne x Hx Hxh. destruct (step_held gs i g x Hx) as [Hin|Hf].
    - assert (Hij : i <> j) by congruence. by apply (Hd i j g h Hg Hj Hij x).
    - assert (taken gs i x = true) by (apply taken_spec; by exists j, h). congruence. }
  split.
  - intros j h Hj. apply list_lookup_insert_Some in Hj as [(-> & <- & _)|[_ Hj]]; [|by apply (Hok j)].
    apply step_ok. by apply (Hok j).
  - intros j k g1 g2 Hj Hk Hne.
    apply list_lookup_insert_Some in Hj as [(<- & <- & _)|[Hij Hj]];
      apply list_lookup_insert_Some in Hk as [(<- & <- & _)|[Hik Hk]].
    + done.
    + by apply (Hstep k).
    + symmetry. by apply (Hstep j).
    + by apply (Hd j k).
Qed.

(** ** Nobody waits for ever *)

(** What a waiting goroutine waits for: it is held by another one, and above all it holds. *)
Lemma waits_spec gs i g :
  good gs -> gs !! i = Some g -> waits gs i g = true ->
  exists x rest j h, gu_todo g = x :: rest /\ gs !! j = Some h /\ j <> i /\ x ∈ gu_held h /\
    forall y, y ∈ gu_held g -> cmpGuidFunc y x = true.
Proof.
  intros [Hok _] Hg Hw. unfold waits in Hw. destruct (gu_release g); [|done].
  destruct (gu_todo g) as [|x rest] eqn:Et; [done|].
  apply andb_true_iff in Hw as [[Hn Ht]%andb_true_iff Htry]. apply negb_true_iff, bool_decide_eq_false in Hn.
  apply negb_true_iff in Htry. apply taken_spec in Ht as (j & h & Hj & Hne & Hin).
  exists x, rest, j, h. split_and!; try done. intros y Hy.
  destruct (Hok i g Hg) as [Ho _ _ _ _]. apply Ho; [done| |done|done]. rewrite Et. apply elem_of_cons. by left.
Qed.

Lemma greatest (l : list Z) : l <> [] -> exists m, m ∈ l /\ forall y, y ∈ l -> cmpGuidFunc m y = false.
Proof.
  induction l as [|x [|y l] IH]; intros Hne; [done| |].
  - exists x. split; [by apply elem_of_cons; left|]. intros y [->|[]%elem_of_nil]%elem_of_cons. apply sw_irrefl.
  - destruct IH as (m & Hm & Hmax); [done|]. destruct (cmpGuidFunc m x) eqn:E.
    + exists x. split; [apply elem_of_cons; by left|]. intros z [->|Hz]%elem_of_cons; [apply sw_irrefl|].
      destruct (cmpGuidFunc x z) eqn:Exz; [|done]. rewrite <- (Hmax z Hz). symmetry. by apply (sw_trans m x z).
    + exists m. split; [apply elem_of_cons; by right|]. intros z [->|Hz]%elem_of_cons; auto.
Qed.

Definition waitedFor gs (p : nat * goroutine) : option Z :=
  if waits gs p.1 p.2 then head (gu_todo p.2) else None.

Lemma locks_progress gs :
  good gs -> (exists i g, gs !! i = Some g /\ finished g = false) ->
  exists i g, gs !! i = Some g /\ finished g = false /\ waits gs i g = false.
Proof.
  intros Hgood (i & g & Hg & Hf).
  destruct (decide (Exists (fun p : nat * goroutine => finished p.2 = false /\ waits gs p.1 p.2 = false) (imap pair gs)))
    as [Hex|Hno].
  { apply Exists_exists in Hex as ([j h] & Hin & Hj). apply elem_of_lookup_imap in Hin as (j' & h' & [= -> ->] & Hl).
    by exists j', h'. }
  exfalso.
  assert (Hall : forall j h, gs !! j = Some h -> finished h = false -> waits gs j h = true).
  { intros j h Hj Hfin. destruct (waits gs j h) eqn:E; [done|]. exfalso. apply Hno. apply Exists_exists.
    exists (j, h). split; [apply elem_of_lookup_imap; by exists j, h|done]. }
  set (l := omap (waitedFor gs) (imap pair gs)).
  assert (Hl : forall j h x rest, gs !! j = Some h -> waits gs j h = true -> gu_todo h = x :: rest -> x ∈ l).
  { intros j h x rest Hj Hw Ht. apply list_elem_of_omap. exists (j, h).
    split; [apply elem_of_lookup_imap; by exists j, h|]. unfold waitedFor. cbn. by rewrite Hw, Ht. }
  destruct (waits_spec gs i g Hgood Hg (Hall i g Hg Hf)) as (x & rest & _ & _ & Hx & _).
  destruct (greatest l) as (m & Hm & Hmax).
  { pose proof (Hl i g x rest Hg (Hall i g Hg Hf) Hx) as Hin. intros E. rewrite E in Hin. by apply elem_of_nil in Hin. }
  apply list_elem_of_omap in Hm as ([j h] & Hin & Hj). apply elem_of_lookup_imap in Hin as (j' & h' & [= -> ->] & Hlk).
  unfold waitedFor in Hj. cbn in Hj. destruct (waits gs j' h') eqn:Hw; [|done].
  destruct (waits_spec gs j' h' Hgood Hlk Hw) as (m' & rest' & k & o & Ht & Hk & _ & Hheld & _).
  rewrite Ht in Hj. cbn in Hj. injection Hj as ->.
  assert (Hfo : finished o = false).
  { unfold finished. rewrite bool_decide_false; [done|]. set_solver. }
  destruct (waits_spec gs k o Hgood Hk (Hall k o Hk Hfo)) as (z & rest'' & _ & _ & Hz & _ & _ & _ & Habove).
  pose proof (Hmax z (Hl k o z rest'' Hk (Hall k o Hk Hfo) Hz)) as Hc. by rewrite (Habove m Hheld) in Hc.
Qed.

(** ** Every request ends *)

Definition weight (r : request) : nat :=
  match r with
  | RDispatch ids | RGrouped ids | RCast ids => 4 * length ids + 1
  | RBroadcast _ => 5
  | RReleaseCast _ => 1
  end.

(** An upper bound on what a goroutine still does. *)
Definition work (g : goroutine) : nat :=
  sum_list_with weight (gu_requests g) + 4 * length (gu_todo g) + length (gu_release g)
  + 3 * size (gu_held g ∖ list_to_set (gu_release g)) + size (gu_held g ∩ list_to_set (gu_release g)).

Lemma normalize_length ids : forall full, normalizeFullIDs ids = Ok full -> length full = length ids.
Proof.
  induction ids as [|id ids IH]; intros full; cbn; [by intros [= <-]|].
  destruct (NormalizeFullID reg id EntityKindNone) as [x|]; [|done]. unfold normalizeFullIDs in IH. cbn.
  destruct (mapM _ ids) as [full'|]; [|done]. cbn. intros [= <-]. cbn. by rewrite (IH full').
Qed.

Lemma SortEntity_length l : length (SortEntity l) = length l.
Proof. apply length_sort_slice. Qed.

Lemma begin_length held r todo try : begin held r = Some (todo, try) -> (4 * length todo < weight r)%nat.
Proof.
  destruct r as [ids|ids|ids|id|id]; cbn [begin weight]; unfold dispatchTargets, castTargets.
  - destruct (normalizeFullIDs ids) as [full|] eqn:E; [|done]. apply normalize_length in E.
    destruct (firstMissing full); [done|]. cbv zeta. intros [= <- _]. rewrite SortEntity_length.
    pose proof (length_filter (fun id => gone id = false) full). lia.
  - destruct (normalizeFullIDs ids) as [full|] eqn:E; [|done]. apply normalize_length in E.
    destruct (firstMissing full); [done|]. intros [= <- _]. rewrite SortEntity_length.
    pose proof (length_filter (fun id => gone id = false) full). lia.
  - destruct (_ || _); [done|]. destruct (normalizeFullIDs ids) as [full|] eqn:E; [|done]. apply normalize_length in E.
    destruct (negb _); [done|]. destruct (existsb _ full); [done|]. destruct (existsb gone full); [done|].
    intros [= <- _]. rewrite SortEntity_length. lia.
  - done.
  - destruct (_ || _); [done|]. intros [= <- _]. cbn. lia.
Qed.

(** Giving back locks that are held costs less than holding them. *)
Lemma release_size (held : gset Z) (l : list Z) :
  Forall (fun id => id ∈ held) l -> NoDup l ->
  (size (held ∩ list_to_set l) = length l /\ size (held ∖ list_to_set l) + length l = size held)%nat.
Proof.
  intros Hin Hnd. rewrite Forall_forall in Hin.
  assert (Hcap : held ∩ list_to_set l = list_to_set l) by set_solver.
  assert (Hsize : size (list_to_set (C := gset Z) l) = length l) by by apply size_list_to_set.
  rewrite Hcap. split; [done|]. rewrite <- Hsize.
  assert (Hsub : (list_to_set l : gset Z) ⊆ held) by set_solver. rewrite size_difference by done.
  pose proof (subseteq_size _ _ Hsub). lia.
Qed.

Lemma work_idle held try cast todo locked rs :
  work (mkGuard held try cast todo locked [] rs) = (sum_list_with weight rs + 4 * length todo + 3 * size held)%nat.
Proof.
  unfold work. cbn. replace (held ∖ ∅) with held by set_solver. replace (held ∩ ∅) with (∅ : gset Z) by set_solver.
  rewrite size_empty. lia.
Qed.

Lemma work_release held try cast rel rs :
  Forall (fun id => id ∈ held) rel -> NoDup rel ->
  (work (mkGuard held try cast [] [] rel rs) + length rel = sum_list_with weight rs + 3 * size held)%nat.
Proof. intros Hin Hnd. unfold work. cbn. destruct (release_size held rel Hin Hnd) as [-> ?]. lia. Qed.

Lemma step_work gs i g :
  okG g -> finished g = false -> waits gs i g = false -> (work (step gs i g) < work g)%nat.
Proof.
  intros [Ho Hs [Hl Hnd] Hr Hq] Hf Hw. destruct g as [held try cast todo locked rel rs].
  unfold step, waits, finished in *. cbn [gu_held gu_try gu_cast gu_todo gu_locked gu_release gu_requests] in *.
  destruct rel as [|id rest].
  2:{ unfold work. cbn. replace (held ∖ {[id]} ∖ list_to_set rest) with (held ∖ ({[id]} ∪ list_to_set rest)) by set_solver.
      assert (Hsub : held ∖ {[id]} ∩ list_to_set rest ⊆ held ∩ ({[id]} ∪ list_to_set rest)) by set_solver.
      pose proof (subseteq_size _ _ Hsub). lia. }
  rewrite work_idle. destruct todo as [|id rest].
  - destruct rs as [|r rs].
    + assert (Hne : held <> ∅) by (intros ->; by rewrite bool_decide_true in Hf).
      assert (Hsz : size held <> 0%nat) by (intros Hz; apply Hne, leibniz_equiv; by apply size_empty_inv).
      assert (Hel : Forall (fun id => id ∈ held) (elements held)) by (apply Forall_forall; intros; by apply elem_of_elements).
      pose proof (work_release held try cast (elements held) [] Hel (NoDup_elements held)).
      change (length (elements held)) with (size held) in *. cbn in *. lia.
    + destruct (begin held r) as [[todo try']|] eqn:Eb.
      * pose proof (begin_length _ _ _ _ Eb). destruct r; try done; rewrite work_idle; cbn in *; lia.
      * destruct r; try (rewrite work_idle; cbn; lia).
        destruct (bool_decide_reflect (id ∈ held)) as [Hin|Hin]; [|rewrite work_idle; cbn; lia].
        pose proof (work_release held false false [id] rs) as Hwr. cbn in *.
        specialize (Hwr ltac:(by apply Forall_singleton) ltac:(apply NoDup_singleton)). lia.
  - destruct (bool_decide_reflect (id ∈ held)) as [Hin|Hin]; [rewrite work_idle; cbn; lia|].
    assert (Hgive : (work (mkGuard held try cast [] [] (if cast then locked else reverse locked) rs)
                     < sum_list_with weight rs + 4 * length (id :: rest) + 3 * size held)%nat).
    { pose proof (work_release held try cast (if cast then locked else reverse locked) rs) as Hwr.
      assert (H1 : Forall (fun id => id ∈ held) (if cast then locked else reverse locked)) by (destruct cast; [done|by apply Forall_reverse]).
      assert (H2 : NoDup (if cast then locked else reverse locked)) by (destruct cast; [done|by rewrite reverse_Permutation]).
      specialize (Hwr H1 H2). cbn [length]. lia. }
    destruct (taken gs i id); [destruct try; [done|by cbn in Hw]|]. destruct (gone id); [done|].
    rewrite work_idle. rewrite size_union by set_solver. rewrite size_singleton. cbn. lia.
Qed.

Definition total (gs : list goroutine) : nat := sum_list_with work gs.

Lemma turn_total gs i g :
  good gs -> gs !! i = Some g -> finished g = false -> waits gs i g = false -> (total (turn gs i) < total gs)%nat.
Proof.
  intros Hgood Hg Hf Hw. unfold turn, total. rewrite Hg.
  pose proof (sum_insert work gs i g (step gs i g) Hg).
  pose proof (step_work gs i g (gd_ok _ Hgood i g Hg) Hf Hw). lia.
Qed.

Lemma locks_complete n : forall gs, (total gs <= n)%nat -> good gs ->
  exists schedule, (length schedule <= n)%nat /\ Forall (fun g => finished g = true) (foldl turn gs schedule).
Proof.
  induction n as [|n IH]; intros gs Hn Hgood;
    (destruct (decide (Forall (fun g => finished g = true) gs)) as [Hall|Hnot]; [exists []; split; [cbn; lia|done]|]);
    (assert (Hex : exists i g, gs !! i = Some g /\ finished g = false);
     [apply not_Forall_Exists, Exists_exists in Hnot as (g & Hin & Hg); [|intros ?; apply _];
      apply list_elem_of_lookup in Hin as [i Hi]; exists i, g; split; [done|by apply not_true_iff_false]|]);
    destruct (locks_progress gs Hgood Hex) as (i & g & Hi & Hf & Hw);
    pose proof (turn_total gs i g Hgood Hi Hf Hw) as Ht.
  - lia.
  - destruct (IH (turn gs i)) as (schedule & Hlen & Hdone); [lia|by apply locks_turn_good|].
    exists (i :: schedule). split; [cbn; lia|done].
Qed.

Lemma locks_start_good programs : Forall (Forall (fun r => broadcasts r = false)) programs -> good (start programs).
Proof.
  intros Hp. rewrite Forall_forall in Hp. unfold start. split.
  - intros i g Hi. rewrite list_lookup_fmap in Hi. destruct (programs !! i) as [rs|] eqn:E; [|done].
    injection Hi as <-. split; cbn; try done; [by constructor|split; by constructor|].
    apply Hp. by eapply list_elem_of_lookup_2.
  - intros i j g h Hi Hj _. rewrite list_lookup_fmap in Hi, Hj.
    destruct (programs !! i); [|done]. destruct (programs !! j); [|done]. simplify_eq/=. set_solver.
Qed.

Lemma locks_run_good programs schedule :
  Forall (Forall (fun r => broadcasts r = false)) programs -> good (run programs schedule).
Proof.
  intros Hp. unfold run. induction schedule as [|i schedule IH] using rev_ind; [by apply locks_start_good|].
  rewrite foldl_app. by apply locks_turn_good.
Qed.

(** C5. Goroutines that lock the entities of messages, cast to more entities and give casts back never
    deadlock: after any schedule, if one of them has not finished then one of them that has not finished
    can go on, every such step brings the work that is left nearer to its end, and at most that many
    further steps finish all of them and release every lock.  None of them broadcasts
    ([broadcast_cast_deadlock] shows why not), and entity locks are the only thing they wait for. *)
Theorem lock_order_deadlock_free programs schedule :
  Forall (Forall (fun r => broadcasts r = false)) programs ->
  let gs := run programs schedule in
  (forall i g, gs !! i = Some g -> finished g = false ->
     exists j h, gs !! j = Some h /\ finished h = false /\ waits gs j h = false) /\
  (forall j h, gs !! j = Some h -> finished h = false -> waits gs j h = false -> (total (turn gs j) < total gs)%nat) /\
  exists later, (length later <= total gs)%nat /\ Forall (fun g => finished g = true) (foldl turn gs later).
Proof.
  intros Hp. cbv zeta. pose proof (locks_run_good programs schedule Hp) as Hgood. split_and!.
  - intros i g Hi Hf. apply locks_progress; [done|by exists i, g].
  - intros j h Hj Hf Hw. by apply (turn_total _ j h).
  - by apply (locks_complete (total (run programs schedule))).
Qed.

End Locks.

(** ** An example and a deadlock *)

(** Players, in the group of their category, and alliances above them. *)
Definition orderKinds : Registry :=
  (registerEntityKindDefinitionLocked
     (registerEntityKindDefinitionLocked ResetEntityRegistry (mkKindDef 5 1 RemotePolicyNone)).1
     (mkKindDef 6 2 RemotePolicyNone)).1.

Definition player (n : Z) : Z := layout false n 5 1.
Definition alliance (n : Z) : Z := layout false n 6 2.

Definition orderRun := run orderKinds (Some (fun c => c)) (fun _ => false).

Definition orderPrograms : list (list request) :=
  [[RDispatch [player 2; player 1]; RCast [alliance 3]]; [RDispatch [player 1; player 2]; RCast [alliance 3]]].

Lemma lock_order_deadlock_free_witness :
  finished (List.nth 1 (orderRun orderPrograms [0; 0; 1; 0; 1; 1]%nat) (mkGuard ∅ false false [] [] [] [])) = false /\
  exists j h, orderRun orderPrograms [0; 0; 1; 0; 1; 1]%nat !! j = Some h /\ finished h = false /\
    waits (orderRun orderPrograms [0; 0; 1; 0; 1; 1]%nat) j h = false.
Proof.
  assert (Hp : Forall (Forall (fun r => broadcasts r = false)) orderPrograms) by (repeat constructor).
  split; [vm_compute; reflexivity|].
  destruct (lock_order_deadlock_free orderKinds (Some (fun c => c)) (fun _ => false) orderPrograms [0; 0; 1; 0; 1; 1]%nat Hp)
    as [Hprog _].
  eapply (Hprog 1%nat); vm_compute; reflexivity.
Defined.

(** A handler of a broadcast that casts: the cast stays locked while the broadcast waits
    for the next entity, without a check of the order. *)
Theorem broadcast_cast_deadlock :
  let gs := orderRun [[RBroadcast (player 1); RCast [alliance 3]; RReleaseCast (player 1); RBroadcast (player 2)];
                      [RDispatch [player 2]; RCast [alliance 3]]] [0; 0; 0; 0; 0; 0; 0; 1; 1; 1]%nat in
  forall i g, gs !! i = Some g -> finished g = false /\ waits gs i g = true.
Proof.
  cbv zeta. intros i g Hi. destruct i as [|[|i]]; [vm_compute in Hi; by injection Hi as <-..|]. by vm_compute in Hi.
Qed.
