(* ===== verification/ClockCache.v ===== *)
(** * The bounded local cache

    Models [src/cache/store.go] and [src/cache/atomic_local.go]: the
    configuration that all stores of the cache package share, and the sharded
    in-process cache whose eviction is driven by a clock hand over the records
    of past writes.

    A shard keeps a map from keys to entries and, in [order], one record per
    write; the hand moves over the records and evicts the entry that a record
    still describes.  The theorems show that this is a queue of the live entries
    in the order of their last write: eviction drops the oldest ones, exactly as
    many as the limits demand, and never the entry just written.

    Every critical section of the code runs under the mutex of its shard and is
    one definition here.  Readings of the clock and the seeded hash of keys are
    arguments; [ranged] is the order in which Go enumerates a map. *)

From stdpp Require Import base list gmap.
From Stdlib Require Import ZArith Lia.
From S2P Require Import Prelude.

#[local] Open Scope Z_scope.

(** ** Store configuration *)

(** The errors of the cache package; [ErrValue] is what [ValidateValue]
    returned, [ErrBackend] an error of a store outside the process. *)
Inductive cacheError (E : Type) : Type :=
| ErrKeyFuncNil
| ErrInvalidKey
| ErrEntryTooLarge
| ErrLoadWaitersExceeded
| ErrValue (e : E)
| ErrBackend (e : E).

Arguments ErrKeyFuncNil {E}.
Arguments ErrInvalidKey {E}.
Arguments ErrEntryTooLarge {E}.
Arguments ErrLoadWaitersExceeded {E}.
Arguments ErrValue {E} e.
Arguments ErrBackend {E} e.

(** A function field that may be nil is an option. *)
Record StoreConfig (K V E : Type) := mkStoreConfig {
  sc_KeyOf : option (V -> K);
  sc_Stale : option (V -> V -> bool);
  sc_ValidateKey : option (K -> bool);
  sc_ValidateValue : option (V -> option E)
}.

Arguments mkStoreConfig {K V E}.
Arguments sc_KeyOf {K V E}.
Arguments sc_Stale {K V E}.
Arguments sc_ValidateKey {K V E}.
Arguments sc_ValidateValue {K V E}.

Section Config.
Context {K V E : Type}.
Implicit Types (c : StoreConfig K V E).

Definition validKey c (key : K) : bool :=
  match sc_ValidateKey c with
  | None => true
  | Some valid => valid key
  end.

Definition keyOf c (value : V) : result (cacheError E) K :=
  match sc_KeyOf c with
  | None => Err ErrKeyFuncNil
  | Some f =>
      let key := f value in
      match sc_ValidateKey c with
      | Some valid => if negb (valid key) then Err ErrInvalidKey else Ok key
      | None => Ok key
      end
  end.

(** [if cfg.ValidateValue != nil { if err := ...; err != nil { return err } }] *)
Definition validateValue c (value : V) : result (cacheError E) unit :=
  match sc_ValidateValue c with
  | None => Ok tt
  | Some validate =>
      match validate value with
      | Some e => Err (ErrValue e)
      | None => Ok tt
      end
  end.

(** [cfg.Stale != nil && cfg.Stale(old, next)] *)
Definition isStale c (old next : V) : bool :=
  match sc_Stale c with
  | None => false
  | Some stale => stale old next
  end.

Definition VersionStale (versionOf : option (V -> Z)) : V -> V -> bool :=
  fun old next =>
    match versionOf with
    | None => false
    | Some version => version next <? version old
    end.

End Config.

(** ** The store *)

Record AtomicLocalConfig (K V E : Type) := mkAtomicLocalConfig {
  ac_StoreConfig : StoreConfig K V E;
  ac_Shards : Z;
  ac_MaxEntries : Z;
  ac_MaxBytes : Z;
  ac_DefaultTTL : Z;
  ac_SizeOf : option (V -> Z)
}.

Arguments mkAtomicLocalConfig {K V E}.
Arguments ac_StoreConfig {K V E}.
Arguments ac_Shards {K V E}.
Arguments ac_MaxEntries {K V E}.
Arguments ac_MaxBytes {K V E}.
Arguments ac_DefaultTTL {K V E}.
Arguments ac_SizeOf {K V E}.

Record AtomicLocalStats := mkAtomicLocalStats {
  ls_Hits : Z;
  ls_Misses : Z;
  ls_Expired : Z;
  ls_Evictions : Z;
  ls_Entries : Z;
  ls_Bytes : Z
}.

Record atomicLocalEntry (V : Type) := mkEntry {
  en_value : V;
  en_expiresAt : Z;
  en_size : Z;
  en_generation : Z
}.

Arguments mkEntry {V}.
Arguments en_value {V}.
Arguments en_expiresAt {V}.
Arguments en_size {V}.
Arguments en_generation {V}.

Record atomicLocalOrder (K : Type) := mkOrder {
  or_key : K;
  or_generation : Z
}.

Arguments mkOrder {K}.
Arguments or_key {K}.
Arguments or_generation {K}.

Record atomicLocalShard (K V : Type) `{Countable K} := mkShard {
  sh_items : gmap K (atomicLocalEntry V);
  sh_order : list (atomicLocalOrder K);
  sh_hand : Z;
  sh_entries : Z;
  sh_bytes : Z;
  sh_generation : Z
}.

Arguments mkShard {K V _ _}.
Arguments sh_items {K V _ _}.
Arguments sh_order {K V _ _}.
Arguments sh_hand {K V _ _}.
Arguments sh_entries {K V _ _}.
Arguments sh_bytes {K V _ _}.
Arguments sh_generation {K V _ _}.

Record AtomicLocalStore (K V E : Type) `{Countable K} := mkAtomicLocalStore {
  al_cfg : AtomicLocalConfig K V E;
  al_shards : list (atomicLocalShard K V);
  al_maxPerShard : Z;
  al_bytesPerShard : Z;
  al_stats : AtomicLocalStats
}.

Arguments mkAtomicLocalStore {K V E _ _}.
Arguments al_cfg {K V E _ _}.
Arguments al_shards {K V E _ _}.
Arguments al_maxPerShard {K V E _ _}.
Arguments al_bytesPerShard {K V E _ _}.
Arguments al_stats {K V E _ _}.

(** The atomic counters. *)
Definition add_hits (st : AtomicLocalStats) : AtomicLocalStats :=
  mkAtomicLocalStats (u64! (ls_Hits st + 1)) (ls_Misses st) (ls_Expired st)
    (ls_Evictions st) (ls_Entries st) (ls_Bytes st).
Definition add_misses (st : AtomicLocalStats) : AtomicLocalStats :=
  mkAtomicLocalStats (ls_Hits st) (u64! (ls_Misses st + 1)) (ls_Expired st)
    (ls_Evictions st) (ls_Entries st) (ls_Bytes st).
Definition add_expired (st : AtomicLocalStats) : AtomicLocalStats :=
  mkAtomicLocalStats (ls_Hits st) (ls_Misses st) (u64! (ls_Expired st + 1))
    (ls_Evictions st) (ls_Entries st) (ls_Bytes st).
Definition add_evictions (st : AtomicLocalStats) : AtomicLocalStats :=
  mkAtomicLocalStats (ls_Hits st) (ls_Misses st) (ls_Expired st)
    (u64! (ls_Evictions st + 1)) (ls_Entries st) (ls_Bytes st).
Definition add_usage (entries bytes : Z) (st : AtomicLocalStats) : AtomicLocalStats :=
  mkAtomicLocalStats (ls_Hits st) (ls_Misses st) (ls_Expired st)
    (ls_Evictions st) (wrapi64 (ls_Entries st + entries)) (wrapi64 (ls_Bytes st + bytes)).

Definition zeroStats : AtomicLocalStats := mkAtomicLocalStats 0 0 0 0 0 0.

Section Store.
Context {K V E : Type} `{Countable K}.
Context (ranged : gmap K (atomicLocalEntry V) -> list (K * atomicLocalEntry V)).
Context (hash : K -> Z).

Implicit Types (s : AtomicLocalStore K V E) (sh : atomicLocalShard K V)
  (st : AtomicLocalStats) (key : K) (value : V).

(** [for shards < shardCount { shards <<= 1 }] *)
Fixpoint shardsLoop (fuel : nat) (shards shardCount : Z) : Z :=
  match fuel with
  | O => shards
  | S fuel' =>
      if shards <? shardCount
      then shardsLoop fuel' (wrapi64 (Z.shiftl shards 1)) shardCount
      else shards
  end.

Definition newShard : atomicLocalShard K V := mkShard ∅ [] 0 0 0 0.

Definition NewAtomicLocalStore (cfg : AtomicLocalConfig K V E) : AtomicLocalStore K V E :=
  let shardCount := if ac_Shards cfg <=? 0 then 64 else ac_Shards cfg in
  let shards := shardsLoop 64 1 shardCount in
  mkAtomicLocalStore cfg (replicate (Z.to_nat shards) newShard)
    (if 0 <? ac_MaxEntries cfg
     then Z.quot (wrapi64 (ac_MaxEntries cfg + shards - 1)) shards else 0)
    (if 0 <? ac_MaxBytes cfg
     then Z.quot (wrapi64 (ac_MaxBytes cfg + shards - 1)) shards else 0)
    zeroStats.

Definition shardIndex s key : nat :=
  Z.to_nat (Z.land (hash key) (len (al_shards s) - 1)).

(** What a critical section of one shard leaves behind. *)
Definition put s (i : nat) (w : atomicLocalShard K V * AtomicLocalStats)
    : AtomicLocalStore K V E :=
  mkAtomicLocalStore (al_cfg s) (<[i := w.1]> (al_shards s)) (al_maxPerShard s)
    (al_bytesPerShard s) w.2.

Definition withStats s st : AtomicLocalStore K V E :=
  mkAtomicLocalStore (al_cfg s) (al_shards s) (al_maxPerShard s) (al_bytesPerShard s) st.

Definition deleteLocked (w : atomicLocalShard K V * AtomicLocalStats) key
    : (atomicLocalShard K V * AtomicLocalStats) * bool :=
  let '(sh, st) := w in
  match sh_items sh !! key with
  | None => (w, false)
  | Some entry =>
      ((mkShard (delete key (sh_items sh)) (sh_order sh) (sh_hand sh)
          (wrapi64 (sh_entries sh - 1)) (wrapi64 (sh_bytes sh - en_size entry))
          (sh_generation sh),
        add_usage (-1) (- en_size entry) st), true)
  end.

(** The condition of the eviction loop. *)
Definition overLimit s sh : bool :=
  ((0 <? al_maxPerShard s) && (al_maxPerShard s <? sh_entries sh))
  || ((0 <? al_bytesPerShard s) && (al_bytesPerShard s <? sh_bytes sh)).

(** The clock starts over with a record per entry when the hand has passed the
    last record. *)
Definition refill sh : atomicLocalShard K V :=
  if len (sh_order sh) <=? sh_hand sh
  then mkShard (sh_items sh)
         (map (fun ke => mkOrder ke.1 (en_generation ke.2)) (ranged (sh_items sh)))
         0 (sh_entries sh) (sh_bytes sh) (sh_generation sh)
  else sh.

Definition advance sh : atomicLocalShard K V :=
  mkShard (sh_items sh) (sh_order sh) (sh_hand sh + 1) (sh_entries sh) (sh_bytes sh)
    (sh_generation sh).

Fixpoint evictLoop (fuel : nat) s (w : atomicLocalShard K V * AtomicLocalStats)
    : atomicLocalShard K V * AtomicLocalStats :=
  match fuel with
  | O => w
  | S fuel' =>
      if overLimit s w.1 then
        let sh := refill w.1 in
        match sh_order sh !! Z.to_nat (sh_hand sh) with
        | None => (sh, w.2)
        | Some candidate =>
            let sh' := advance sh in
            match sh_items sh' !! or_key candidate with
            | Some entry =>
                if negb (en_generation entry =? or_generation candidate)
                then evictLoop fuel' s (sh', w.2)
                else
                  let '(w', deleted) := deleteLocked (sh', w.2) (or_key candidate) in
                  evictLoop fuel' s
                    (if deleted then (w'.1, add_evictions w'.2) else w')
            | None => evictLoop fuel' s (sh', w.2)
            end
        end
      else w
  end.

(** Superseded records before the hand are dropped now and then.  (The early
    return of the loop leaves the hand at 0, where nothing is dropped.) *)
Definition compact sh : atomicLocalShard K V :=
  if (1024 <? sh_hand sh) && (len (sh_order sh) <? wrapi64 (sh_hand sh * 2))
  then mkShard (sh_items sh) (drop (Z.to_nat (sh_hand sh)) (sh_order sh)) 0
         (sh_entries sh) (sh_bytes sh) (sh_generation sh)
  else sh.

(** One turn per record and one per entry of a clock that starts over. *)
Definition evictFuel sh : nat := S (length (sh_order sh) + size (sh_items sh)).

Definition evictLocked s (w : atomicLocalShard K V * AtomicLocalStats)
    : atomicLocalShard K V * AtomicLocalStats :=
  let w' := evictLoop (evictFuel w.1) s w in
  (compact w'.1, w'.2).

Definition expiredAt (now expiresAt : Z) : bool :=
  (0 <? expiresAt) && (expiresAt <=? now).

Definition expire (w : atomicLocalShard K V * AtomicLocalStats) key (generation now : Z)
    : atomicLocalShard K V * AtomicLocalStats :=
  match sh_items w.1 !! key with
  | Some current =>
      if (en_generation current =? generation) && expiredAt now (en_expiresAt current)
      then (deleteLocked w key).1
      else w
  | None => w
  end.

(** [now] is the clock at the test of the entry, [now'] at the one of
    [expire]. *)
Definition Get s key (now now' : Z) : AtomicLocalStore K V E * result (cacheError E) (option V) :=
  if negb (validKey (ac_StoreConfig (al_cfg s)) key) then (s, Ok None)
  else
    let i := shardIndex s key in
    match al_shards s !! i with
    | None => (s, Ok None)
    | Some sh =>
        match sh_items sh !! key with
        | None => (withStats s (add_misses (al_stats s)), Ok None)
        | Some entry =>
            if expiredAt now (en_expiresAt entry) then
              let w := expire (sh, al_stats s) key (en_generation entry) now' in
              (put s i (w.1, add_misses (add_expired w.2)), Ok None)
            else (withStats s (add_hits (al_stats s)), Ok (Some (en_value entry)))
        end
    end.

Definition sizeOf (cfg : AtomicLocalConfig K V E) value : Z :=
  match ac_SizeOf cfg with
  | None => 0
  | Some f => let size := f value in if size <? 0 then 0 else size
  end.

(** The time at which a value written at [now] expires, 0 for never. *)
Definition expiryOf (cfg : AtomicLocalConfig K V E) (ttl now : Z) : Z :=
  let ttl := if ttl =? 0 then ac_DefaultTTL cfg else ttl in
  if 0 <? ttl then wrapi64 (now + ttl) else 0.

(** The critical section of a write. *)
Definition setLocked s (w : atomicLocalShard K V * AtomicLocalStats) key value (expiresAt size : Z)
    : atomicLocalShard K V * AtomicLocalStats :=
  let '(sh, st) := w in
  let old := sh_items sh !! key in
  if match old with
     | Some o => isStale (ac_StoreConfig (al_cfg s)) (en_value o) value
     | None => false
     end
  then w
  else
    let generation := u64! (sh_generation sh + 1) in
    let items := <[key := mkEntry value expiresAt size generation]> (sh_items sh) in
    let order := sh_order sh ++ [mkOrder key generation] in
    evictLocked s
      match old with
      | Some o =>
          (mkShard items order (sh_hand sh) (sh_entries sh)
             (wrapi64 (sh_bytes sh + (size - en_size o))) generation,
           add_usage 0 (size - en_size o) st)
      | None =>
          (mkShard items order (sh_hand sh) (wrapi64 (sh_entries sh + 1))
             (wrapi64 (sh_bytes sh + size)) generation,
           add_usage 1 size st)
      end.

Definition SetWithTTL s value (ttl now : Z)
    : AtomicLocalStore K V E * result (cacheError E) unit :=
  let cfg := al_cfg s in
  match validateValue (ac_StoreConfig cfg) value with
  | Err e => (s, Err e)
  | Ok _ =>
      match keyOf (ac_StoreConfig cfg) value with
      | Err e => (s, Err e)
      | Ok key =>
          let size := sizeOf cfg value in
          if (0 <? ac_MaxBytes cfg) && (al_bytesPerShard s <? size)
          then (s, Err ErrEntryTooLarge)
          else
            let i := shardIndex s key in
            match al_shards s !! i with
            | None => (s, Ok tt)
            | Some sh =>
                (put s i (setLocked s (sh, al_stats s) key value (expiryOf cfg ttl now) size), Ok tt)
            end
      end
  end.

Definition Set_ s value (now : Z) := SetWithTTL s value 0 now.

Definition Delete s key : AtomicLocalStore K V E * result (cacheError E) unit :=
  if negb (validKey (ac_StoreConfig (al_cfg s)) key) then (s, Ok tt)
  else
    let i := shardIndex s key in
    match al_shards s !! i with
    | None => (s, Ok tt)
    | Some sh => (put s i (deleteLocked (sh, al_stats s) key).1, Ok tt)
    end.

Definition Stats s : AtomicLocalStats := al_stats s.

End Store.

(** ** The reference: queues of live entries

    What the store promises, without records, hands and generations: a shard is
    the queue of its entries in the order of their last write. *)

Record held (K V : Type) := mkHeld {
  hd_key : K;
  hd_value : V;
  hd_expiresAt : Z;
  hd_size : Z
}.

Arguments mkHeld {K V}.
Arguments hd_key {K V}.
Arguments hd_value {K V}.
Arguments hd_expiresAt {K V}.
Arguments hd_size {K V}.

(** What a client does with a store, with the clock readings of the call. *)
Inductive storeOp (K V : Type) : Type :=
| OpGet (key : K) (now now' : Z)
| OpSet (value : V) (ttl now : Z)
| OpDelete (key : K).

Arguments OpGet {K V}.
Arguments OpSet {K V}.
Arguments OpDelete {K V}.

Inductive storeOut (V E : Type) : Type :=
| Got (r : result (cacheError E) (option V))
| Done (r : result (cacheError E) unit).

Arguments Got {V E}.
Arguments Done {V E}.

Section Reference.
Context {K V E : Type} `{Countable K}.
Context (cfg : AtomicLocalConfig K V E) (maxEntries maxBytes : Z) (indexOf : K -> nat).

Implicit Types (q : list (held K V)) (qs : list (list (held K V))) (key : K) (value : V).

Definition usage q : Z := foldr (fun h acc => hd_size h + acc) 0 q.

Definition without key q : list (held K V) := filter (fun h => hd_key h <> key) q.

Fixpoint holding key q : option (held K V) :=
  match q with
  | [] => None
  | h :: q' => if decide (hd_key h = key) then Some h else holding key q'
  end.

Definition fits q : bool :=
  negb ((0 <? maxEntries) && (maxEntries <? len q))
  && negb ((0 <? maxBytes) && (maxBytes <? usage q)).

(** The oldest entries go until the rest fits. *)
Fixpoint trim q : list (held K V) :=
  if fits q then q else match q with [] => [] | _ :: q' => trim q' end.

Definition queueGet q key (now now' : Z) : list (held K V) * option V :=
  match holding key q with
  | None => (q, None)
  | Some h =>
      if expiredAt now (hd_expiresAt h)
      then (if expiredAt now' (hd_expiresAt h) then without key q else q, None)
      else (q, Some (hd_value h))
  end.

Definition queueSet q key value (expiresAt size : Z) : list (held K V) :=
  if match holding key q with
     | Some h => isStale (ac_StoreConfig cfg) (hd_value h) value
     | None => false
     end
  then q
  else trim (without key q ++ [mkHeld key value expiresAt size]).

Definition onQueue (key : K) qs (f : list (held K V) -> list (held K V)) : list (list (held K V)) :=
  <[indexOf key := f (qs !!! indexOf key)]> qs.

Definition queueStep qs (op : storeOp K V) : list (list (held K V)) * storeOut V E :=
  match op with
  | OpGet key now now' =>
      if negb (validKey (ac_StoreConfig cfg) key) then (qs, Got (Ok None))
      else (onQueue key qs (fun q => (queueGet q key now now').1),
            Got (Ok (queueGet (qs !!! indexOf key) key now now').2))
  | OpSet value ttl now =>
      match validateValue (ac_StoreConfig cfg) value with
      | Err e => (qs, Done (Err e))
      | Ok _ =>
          match keyOf (ac_StoreConfig cfg) value with
          | Err e => (qs, Done (Err e))
          | Ok key =>
              let size := sizeOf cfg value in
              if (0 <? ac_MaxBytes cfg) && (maxBytes <? size)
              then (qs, Done (Err ErrEntryTooLarge))
              else (onQueue key qs (fun q => queueSet q key value (expiryOf cfg ttl now) size),
                    Done (Ok tt))
          end
      end
  | OpDelete key =>
      if negb (validKey (ac_StoreConfig cfg) key) then (qs, Done (Ok tt))
      else (onQueue key qs (without key), Done (Ok tt))
  end.

End Reference.

(** Runs of a step function, collecting what the calls return. *)
Fixpoint runOps {S O A : Type} (step : S -> O -> S * A) (s : S) (ops : list O) : S * list A :=
  match ops with
  | [] => (s, [])
  | op :: ops' =>
      let '(s1, a) := step s op in
      let '(s2, rest) := runOps step s1 ops' in
      (s2, a :: rest)
  end.

Definition storeStep {K V E} `{Countable K}
    (ranged : gmap K (atomicLocalEntry V) -> list (K * atomicLocalEntry V)) (hash : K -> Z)
    (s : AtomicLocalStore K V E) (op : storeOp K V) : AtomicLocalStore K V E * storeOut V E :=
  match op with
  | OpGet key now now' => let '(s', r) := Get hash s key now now' in (s', Got r)
  | OpSet value ttl now => let '(s', r) := SetWithTTL ranged hash s value ttl now in (s', Done r)
  | OpDelete key => let '(s', r) := Delete hash s key in (s', Done r)
  end.

(** ** The queue of a shard *)

Section Shard.
Context {K V E : Type} `{Countable K}.
Context (ranged : gmap K (atomicLocalEntry V) -> list (K * atomicLocalEntry V)).
Implicit Types (s : AtomicLocalStore K V E) (sh : atomicLocalShard K V)
  (st : AtomicLocalStats) (key : K) (value : V) (q : list (held K V))
  (r : atomicLocalOrder K) (rs : list (atomicLocalOrder K)) (items : gmap K (atomicLocalEntry V)).

Definition toHeld key (e : atomicLocalEntry V) : held K V :=
  mkHeld key (en_value e) (en_expiresAt e) (en_size e).

(** The entry a record still describes. *)
Definition described items r : option (held K V) :=
  match items !! or_key r with
  | Some e => if en_generation e =? or_generation r then Some (toHeld (or_key r) e) else None
  | None => None
  end.

Definition live sh : list (held K V) :=
  omap (described (sh_items sh)) (drop (Z.to_nat (sh_hand sh)) (sh_order sh)).

Lemma described_key items r h : described items r = Some h -> hd_key h = or_key r.
Proof. unfold described. repeat case_match; by intros [= <-]. Qed.

Lemma omap_without items items' rs key :
  (forall r, r ∈ rs -> described items' r = if decide (or_key r = key) then None else described items r) ->
  omap (described items') rs = without key (omap (described items) rs).
Proof.
  intros Heq. induction rs as [|r rs IH]; [done|]. csimpl. rewrite Heq, IH; [| |left].
  - destruct (described items r) as [h|] eqn:Hh; [|by case_decide].
    apply described_key in Hh. unfold without. case_decide.
    + rewrite filter_cons_False; [done|]. cbn. congruence.
    + rewrite filter_cons_True; [done|]. cbn. congruence.
  - intros r' Hr'. apply Heq. by right.
Qed.

Lemma omap_described_delete items rs key :
  omap (described (delete key items)) rs = without key (omap (described items) rs).
Proof.
  apply omap_without. intros r _. unfold described.
  case_decide; [subst; by rewrite lookup_delete_eq|by rewrite lookup_delete_ne].
Qed.

Lemma omap_described_insert items rs key e :
  en_generation e ∉ (or_generation <$> rs) ->
  omap (described (<[key := e]> items)) rs = without key (omap (described items) rs).
Proof.
  intros Hfresh. apply omap_without. intros r Hr. unfold described.
  case_decide; [subst|by rewrite lookup_insert_ne].
  rewrite lookup_insert_eq. case_match eqn:Hg; [|done]. apply Z.eqb_eq in Hg.
  destruct Hfresh. rewrite Hg. by apply list_elem_of_fmap_2.
Qed.

Lemma elem_of_live items rs h :
  h ∈ omap (described items) rs ->
  exists e, items !! hd_key h = Some e /\ h = toHeld (hd_key h) e /\ mkOrder (hd_key h) (en_generation e) ∈ rs.
Proof.
  intros (r & Hr & Hd)%list_elem_of_omap. unfold described in Hd.
  destruct (items !! or_key r) as [e|] eqn:He; [|done]. case_match eqn:Hg; [|done].
  apply Z.eqb_eq in Hg. injection Hd as <-. exists e. cbn. split_and!; [done|done|].
  rewrite Hg. by destruct r.
Qed.

(** A record is described once: two records of a key have two generations. *)
Lemma live_keys_NoDup items rs :
  NoDup (or_generation <$> rs) -> NoDup (hd_key <$> omap (described items) rs).
Proof.
  induction rs as [|r rs IH]; [constructor|]. csimpl. intros [Hr Hrs]%NoDup_cons.
  destruct (described items r) as [h|] eqn:Hh; [|by apply IH]. csimpl.
  apply NoDup_cons. split; [|by apply IH].
  intros (h' & Hk & Hh')%list_elem_of_fmap_1. apply Hr.
  apply elem_of_live in Hh' as (e & He & _ & Hin). rewrite <-Hk in He, Hin.
  unfold described in Hh. destruct (items !! or_key r) as [e'|] eqn:He'; [|done].
  case_match eqn:Hg; [|done]. apply Z.eqb_eq in Hg. injection Hh as <-. cbn in *.
  rewrite He' in He. injection He as ->. rewrite <-Hg.
  by apply (list_elem_of_fmap_2 or_generation) in Hin.
Qed.

Lemma holding_spec key q h :
  NoDup (hd_key <$> q) -> holding key q = Some h <-> h ∈ q /\ hd_key h = key.
Proof.
  induction q as [|h' q IH]; csimpl; [set_solver|]. intros [Hh' Hq]%NoDup_cons.
  rewrite elem_of_cons. case_decide as Hk.
  - split; [intros [= ->]; auto|]. intros [[->|Hin] Heq]; [done|].
    destruct Hh'. rewrite Hk, <-Heq. by apply list_elem_of_fmap_2.
  - rewrite IH by done. naive_solver.
Qed.

Lemma holding_None key q : holding key q = None <-> key ∉ (hd_key <$> q).
Proof.
  induction q as [|h' q IH]; csimpl; [set_solver|]. rewrite not_elem_of_cons. case_decide; naive_solver.
Qed.

Lemma without_absent key q : key ∉ (hd_key <$> q) -> without key q = q.
Proof.
  unfold without. induction q as [|h q IH]; [done|]. csimpl. intros [Hh Hq]%not_elem_of_cons.
  rewrite filter_cons_True by done. by rewrite IH.
Qed.

Lemma without_held key q h :
  NoDup (hd_key <$> q) -> holding key q = Some h ->
  len (without key q) = len q - 1 /\ usage (without key q) = usage q - hd_size h.
Proof.
  induction q as [|h' q IH]; [done|]. csimpl. intros [Hh' Hq]%NoDup_cons.
  case_decide as Hk.
  - intros [= ->]. unfold without. rewrite filter_cons_False by (intros Hn; by apply Hn).
    fold (without key q). rewrite without_absent by (by rewrite <-Hk). rewrite len_cons. lia.
  - intros Hh. destruct (IH Hq Hh) as [Hl Hu]. unfold without in *.
    rewrite filter_cons_True by done. rewrite !len_cons. cbn [usage foldr] in *.
    unfold usage in *. cbn [foldr]. lia.
Qed.

Lemma usage_nonneg B q : Forall (fun h => 0 <= hd_size h <= B) q -> 0 <= usage q.
Proof. induction 1 as [|h q Hh _ IH]; cbn; [lia|unfold usage in IH; lia]. Qed.

Lemma usage_app q q' : usage (q ++ q') = usage q + usage q'.
Proof. induction q as [|h q IH]; [done|]. unfold usage in *. cbn. lia. Qed.

(** ** The relation between a shard and its queue

    [n] bounds the number of calls so far and [B] the size of a value; [a] and
    [b] are what the other shards contribute to the counters of the store. *)
Record shard_ok (n B a b : Z) sh st q : Prop := {
  so_live : live sh = q;
  so_hand : 0 <= sh_hand sh <= len (sh_order sh);
  so_gens : NoDup (or_generation <$> sh_order sh);
  so_known : Forall (fun r => or_generation r <= sh_generation sh) (sh_order sh);
  so_gen : 0 <= sh_generation sh <= n;
  so_items : forall k e, sh_items sh !! k = Some e ->
    mkOrder k (en_generation e) ∈ drop (Z.to_nat (sh_hand sh)) (sh_order sh);
  so_entries : sh_entries sh = len q;
  so_bytes : sh_bytes sh = usage q;
  so_sizes : Forall (fun h => 0 <= hd_size h <= B) q;
  so_count : ls_Entries st = a + len q;
  so_total : ls_Bytes st = b + usage q;
  so_few : a + len q <= n;
  so_small : b + usage q <= n * B;
  so_others : 0 <= a /\ 0 <= b
}.

Lemma shard_ok_keys n B a b sh st q : shard_ok n B a b sh st q -> NoDup (hd_key <$> q).
Proof.
  intros Hok. rewrite <-(so_live _ _ _ _ _ _ _ Hok). apply live_keys_NoDup.
  pose proof (so_gens _ _ _ _ _ _ _ Hok) as Hg.
  rewrite <-(take_drop (Z.to_nat (sh_hand sh)) (sh_order sh)), fmap_app in Hg.
  by apply NoDup_app in Hg as (_ & _ & ?).
Qed.

Lemma shard_ok_held n B a b sh st q k :
  shard_ok n B a b sh st q -> holding k q = toHeld k <$> sh_items sh !! k.
Proof.
  intros Hok. pose proof (shard_ok_keys _ _ _ _ _ _ _ Hok) as Hnd.
  destruct (sh_items sh !! k) as [e|] eqn:He; cbn.
  - apply holding_spec; [done|]. split; [|done]. rewrite <-(so_live _ _ _ _ _ _ _ Hok).
    apply list_elem_of_omap. exists (mkOrder k (en_generation e)).
    split; [by apply (so_items _ _ _ _ _ _ _ Hok)|]. unfold described. cbn. by rewrite He, Z.eqb_refl.
  - apply holding_None. intros (h & -> & Hh)%list_elem_of_fmap_1.
    rewrite <-(so_live _ _ _ _ _ _ _ Hok) in Hh. apply elem_of_live in Hh as (e & He' & _). congruence.
Qed.

Lemma shard_ok_size n B a b sh st q k e :
  shard_ok n B a b sh st q -> sh_items sh !! k = Some e -> 0 <= en_size e <= B.
Proof.
  intros Hok He. pose proof (shard_ok_held _ _ _ _ _ _ _ k Hok) as Hh. rewrite He in Hh.
  apply holding_spec in Hh as [Hh _]; [|by eapply shard_ok_keys].
  by apply (proj1 (Forall_forall _ _) (so_sizes _ _ _ _ _ _ _ Hok)) in Hh.
Qed.

Lemma without_sizes B key q :
  Forall (fun h => 0 <= hd_size h <= B) q -> Forall (fun h => 0 <= hd_size h <= B) (without key q).
Proof. intros Hf. unfold without. apply Forall_forall. intros h [_ Hh]%list_elem_of_filter. by eapply Forall_forall in Hf. Qed.

Lemma shard_ok_other n n' B a a' b b' sh st st' q :
  n <= n' -> shard_ok n B a b sh st q ->
  ls_Entries st' = a' + len q -> ls_Bytes st' = b' + usage q ->
  a' + len q <= n' -> b' + usage q <= n' * B -> 0 <= a' -> 0 <= b' ->
  shard_ok n' B a' b' sh st' q.
Proof. intros Hn [] ??????. constructor; try done; lia. Qed.

Section Bounded.
Context (n B a b : Z) (Hn : 0 <= n) (HB : 1 <= B) (Hsmall : n * B < 2 ^ 63).

#[local] Lemma n_small : n < 2 ^ 63.
Proof using Hn HB Hsmall. nia. Qed.

Lemma delete_ok sh st q key :
  shard_ok n B a b sh st q ->
  let w := (deleteLocked (sh, st) key).1 in shard_ok n B a b w.1 w.2 (without key q).
Proof using Hn HB Hsmall.
  intros Hok. pose proof (shard_ok_held _ _ _ _ _ _ _ key Hok) as Hh. cbn [deleteLocked].
  destruct (sh_items sh !! key) as [e|] eqn:He; cbn [fmap option_fmap option_map] in Hh; cbn [fst snd].
  2: { rewrite without_absent; [done|]. by apply holding_None. }
  destruct (without_held _ _ _ (shard_ok_keys _ _ _ _ _ _ _ Hok) Hh) as [Hl Hu].
  pose proof (without_sizes B key q (so_sizes _ _ _ _ _ _ _ Hok)) as Hsz.
  pose proof (usage_nonneg B _ Hsz). pose proof (usage_nonneg B _ (so_sizes _ _ _ _ _ _ _ Hok)).
  pose proof n_small. pose proof (len_nonneg (without key q)).
  pose proof (shard_ok_size _ _ _ _ _ _ _ _ _ Hok He).
  destruct Hok. change (hd_size (toHeld key e)) with (en_size e) in Hu. constructor; cbn; try done.
  - unfold live. cbn. rewrite omap_described_delete. by rewrite <-so_live0.
  - intros k e' [_ He']%lookup_delete_Some. by apply so_items0.
  - rewrite so_entries0, wrapi64_small; lia.
  - rewrite so_bytes0, wrapi64_small; lia.
  - rewrite so_count0, wrapi64_small; lia.
  - rewrite so_total0, wrapi64_small; lia.
  - lia.
  - lia.
Qed.

Lemma drop_hand (sh : atomicLocalShard K V) r :
  0 <= sh_hand sh -> sh_order sh !! Z.to_nat (sh_hand sh) = Some r ->
  drop (Z.to_nat (sh_hand sh)) (sh_order sh) = r :: drop (Z.to_nat (sh_hand sh + 1)) (sh_order sh).
Proof using Type. intros Hh Hr. rewrite (drop_S _ r) by done. do 2 f_equal. lia. Qed.

Lemma advance_ok sh st q r :
  shard_ok n B a b sh st q -> sh_order sh !! Z.to_nat (sh_hand sh) = Some r ->
  described (sh_items sh) r = None -> shard_ok n B a b (advance sh) st q.
Proof using Type.
  intros Hok Hr Hd. destruct Hok. pose proof (drop_hand _ _ (proj1 so_hand0) Hr) as Hdrop.
  pose proof (lookup_lt_Some _ _ _ Hr).
  constructor; cbn; try done.
  - unfold live in *. cbn. rewrite Hdrop in so_live0. csimpl in so_live0. by rewrite Hd in so_live0.
  - unfold len in *. lia.
  - intros k e He. pose proof (so_items0 k e He) as Hin. rewrite Hdrop in Hin.
    apply elem_of_cons in Hin as [<-|]; [|done]. unfold described in Hd. cbn in Hd.
    by rewrite He, Z.eqb_refl in Hd.
Qed.

Lemma deleteLocked_advance sh st key :
  (deleteLocked (advance sh, st) key).1
  = (advance (deleteLocked (sh, st) key).1.1, (deleteLocked (sh, st) key).1.2).
Proof using Type. cbn. by destruct (sh_items sh !! key). Qed.

Lemma evict_ok sh st q r h :
  shard_ok n B a b sh st q -> sh_order sh !! Z.to_nat (sh_hand sh) = Some r ->
  described (sh_items sh) r = Some h ->
  let w := (deleteLocked (advance sh, st) (or_key r)).1 in
  shard_ok n B a b w.1 w.2 (tail q).
Proof using Hn HB Hsmall.
  intros Hok Hr Hd. cbn zeta. rewrite deleteLocked_advance.
  assert (Hq : q = h :: tail q).
  { rewrite <-(so_live _ _ _ _ _ _ _ Hok). unfold live.
    rewrite (drop_hand _ _ (proj1 (so_hand _ _ _ _ _ _ _ Hok)) Hr). csimpl. by rewrite Hd. }
  pose proof (shard_ok_keys _ _ _ _ _ _ _ Hok) as Hnd. rewrite Hq in Hnd. csimpl in Hnd.
  apply NoDup_cons in Hnd as [Hh Hnd]. pose proof (described_key _ _ _ Hd) as Hk.
  pose proof (delete_ok _ _ _ (or_key r) Hok) as Hdel. cbn zeta in Hdel.
  rewrite Hq in Hdel. unfold without in Hdel. rewrite filter_cons_False in Hdel by (by intros []).
  fold (without (or_key r) (tail q)) in Hdel. rewrite without_absent in Hdel by (by rewrite <-Hk).
  eapply advance_ok; [exact Hdel| |].
  - cbn. by destruct (sh_items sh !! or_key r).
  - unfold described in *. cbn. destruct (sh_items sh !! or_key r) eqn:He; [|done].
    cbn. by rewrite lookup_delete_eq.
Qed.

Lemma overLimit_fits s sh st q :
  shard_ok n B a b sh st q ->
  overLimit s sh = negb (fits (al_maxPerShard s) (al_bytesPerShard s) q).
Proof using Type.
  intros Hok. unfold overLimit, fits.
  rewrite (so_entries _ _ _ _ _ _ _ Hok), (so_bytes _ _ _ _ _ _ _ Hok).
  by rewrite negb_andb, !negb_involutive.
Qed.

Lemma fits_nil maxE maxB : fits maxE maxB ([] : list (held K V)) = true.
Proof using Type.
  unfold fits. change (len []) with 0.
  change (usage []) with 0. destruct (Z.ltb_spec 0 maxE), (Z.ltb_spec maxE 0), (Z.ltb_spec 0 maxB), (Z.ltb_spec maxB 0); done || lia.
Qed.

Lemma trim_fits maxE maxB q : fits maxE maxB (trim maxE maxB q) = true.
Proof using Type.
  induction q as [|h q IH]; cbn [trim]; [by rewrite !fits_nil|].
  destruct (fits maxE maxB (h :: q)) eqn:Hf; [done|exact IH].
Qed.

Lemma add_evictions_ok sh st q :
  shard_ok n B a b sh st q -> shard_ok n B a b sh (add_evictions st) q.
Proof using Type. intros []. by constructor. Qed.

(** An over-full shard has an entry, and the hand has not passed its record: the
    clock never starts over. *)
Lemma hand_in_range sh st h q :
  shard_ok n B a b sh st (h :: q) ->
  refill ranged sh = sh /\ exists r, sh_order sh !! Z.to_nat (sh_hand sh) = Some r.
Proof using Type.
  intros Hok. destruct (sh_order sh !! Z.to_nat (sh_hand sh)) as [r|] eqn:Hr.
  - split; [|by eexists]. unfold refill. rewrite (proj2 (Z.leb_gt _ _)); [done|].
    apply lookup_lt_Some in Hr. pose proof (so_hand _ _ _ _ _ _ _ Hok). unfold len. lia.
  - apply lookup_ge_None in Hr. pose proof (so_live _ _ _ _ _ _ _ Hok) as Hl.
    unfold live in Hl. by rewrite drop_ge in Hl.
Qed.

Lemma evictLoop_ok s fuel sh st q :
  shard_ok n B a b sh st q ->
  (length (sh_order sh) < Z.to_nat (sh_hand sh) + fuel)%nat ->
  let w := evictLoop ranged fuel s (sh, st) in
  shard_ok n B a b w.1 w.2 (trim (al_maxPerShard s) (al_bytesPerShard s) q)
  /\ sh_generation w.1 = sh_generation sh.
Proof using All.
  revert sh st q. induction fuel as [|fuel IH]; intros sh st q Hok Hfuel.
  { pose proof (so_hand _ _ _ _ _ _ _ Hok). unfold len in *. lia. }
  cbn [evictLoop fst snd]. rewrite (overLimit_fits _ _ _ _ Hok).
  destruct q as [|h q]; [cbn [trim]; by rewrite fits_nil|].
  cbn [trim]. destruct (fits _ _ (h :: q)) eqn:Hf; cbn [negb]; [done|].
  destruct (hand_in_range _ _ _ _ Hok) as [-> [r Hr]]. rewrite Hr.
  pose proof (so_hand _ _ _ _ _ _ _ Hok) as Hhand.
  assert (Htail : trim (al_maxPerShard s) (al_bytesPerShard s) (h :: q)
                  = trim (al_maxPerShard s) (al_bytesPerShard s) q).
  { cbn [trim]. by rewrite Hf. }
  destruct (described (sh_items sh) r) as [h'|] eqn:Hd.
  - pose proof (evict_ok _ _ _ _ _ Hok Hr Hd) as Hev. cbn [tail] in Hev.
    unfold described in Hd. cbn [advance sh_items].
    destruct (sh_items sh !! or_key r) as [e|] eqn:He; [|done].
    destruct (en_generation e =? or_generation r) eqn:Hg; [|done]. cbn [negb].
    rewrite (surjective_pairing (deleteLocked _ _)).
    assert (Hdel : (deleteLocked (advance sh, st) (or_key r)).2 = true) by (cbn; by rewrite He).
    rewrite Hdel. edestruct IH as [Hr1 Hr2]; [by apply add_evictions_ok, Hev| |].
    + cbn. rewrite He. cbn. lia.
    + split; [exact Hr1|]. rewrite Hr2. cbn. by rewrite He.
  - assert (Hadv : shard_ok n B a b (advance sh) st (h :: q)) by (by eapply advance_ok).
    destruct (IH _ _ _ Hadv) as [Hr1 Hr2]; [cbn; lia|]. rewrite Htail in Hr1.
    unfold described in Hd. cbn [advance sh_items].
    destruct (sh_items sh !! or_key r) as [e|]; [|done].
    destruct (en_generation e =? or_generation r); [done|]. done.
Qed.

Lemma compact_ok sh st q : shard_ok n B a b sh st q -> shard_ok n B a b (compact sh) st q.
Proof using Type.
  intros Hok. unfold compact. case_match; [|done]. destruct Hok. constructor; cbn; try done.
  - unfold len. lia.
  - rewrite <-(take_drop (Z.to_nat (sh_hand sh)) (sh_order sh)), fmap_app in so_gens0.
    by apply NoDup_app in so_gens0 as (_ & _ & ?).
  - by apply Forall_drop.
Qed.

Lemma evictLocked_ok s sh st q :
  shard_ok n B a b sh st q ->
  let w := evictLocked ranged s (sh, st) in
  shard_ok n B a b w.1 w.2 (trim (al_maxPerShard s) (al_bytesPerShard s) q).
Proof using All.
  intros Hok. cbn zeta. unfold evictLocked. cbn [fst snd]. apply compact_ok.
  apply evictLoop_ok; [done|]. unfold evictFuel. lia.
Qed.

Lemma expire_ok sh st q key e now :
  shard_ok n B a b sh st q -> sh_items sh !! key = Some e ->
  let w := expire (sh, st) key (en_generation e) now in
  shard_ok n B a b w.1 w.2 (if expiredAt now (en_expiresAt e) then without key q else q).
Proof using Hn HB Hsmall.
  intros Hok He. unfold expire. cbn [fst]. rewrite He, Z.eqb_refl. cbn [andb].
  case_match; [by apply delete_ok|done].
Qed.

(** A write, the [n]-th call. *)
Lemma set_ok s sh st q key value expiresAt size :
  0 < n -> shard_ok (n - 1) B a b sh st q -> 0 <= size <= B ->
  let w := setLocked ranged s (sh, st) key value expiresAt size in
  shard_ok n B a b w.1 w.2
    (queueSet (al_cfg s) (al_maxPerShard s) (al_bytesPerShard s) q key value expiresAt size).
Proof using All.
  intros Hpos Hok Hsize. unfold setLocked, queueSet. rewrite (shard_ok_held _ _ _ _ _ _ _ key Hok).
  pose proof n_small as Hn63. pose proof (shard_ok_keys _ _ _ _ _ _ _ Hok) as Hnd.
  pose proof (shard_ok_held _ _ _ _ _ _ _ key Hok) as Hh.
  pose proof (without_sizes B key q (so_sizes _ _ _ _ _ _ _ Hok)) as Hsz.
  pose proof (usage_nonneg B _ Hsz). pose proof (usage_nonneg B _ (so_sizes _ _ _ _ _ _ _ Hok)).
  pose proof (len_nonneg (without key q)).
  assert (Hgen : u64! (sh_generation sh + 1) = sh_generation sh + 1).
  { pose proof (so_gen _ _ _ _ _ _ _ Hok). apply wrapu_small. unfold in_u. lia. }
  assert (Hfresh : sh_generation sh + 1 ∉ (or_generation <$> sh_order sh)).
  { intros (r & Hr & Hin)%list_elem_of_fmap_1.
    pose proof (proj1 (Forall_forall _ _) (so_known _ _ _ _ _ _ _ Hok) r Hin). cbn in *. lia. }
  set (h := mkHeld key value expiresAt size).
  assert (Hnew : forall entries bytes st',
    entries = len (without key q) + 1 -> bytes = usage (without key q) + size ->
    ls_Entries st' = a + entries -> ls_Bytes st' = b + bytes ->
    a + entries <= n -> b + bytes <= n * B ->
    shard_ok n B a b
      (mkShard (<[key := mkEntry value expiresAt size (sh_generation sh + 1)]> (sh_items sh))
         (sh_order sh ++ [mkOrder key (sh_generation sh + 1)]) (sh_hand sh) entries bytes
         (sh_generation sh + 1)) st' (without key q ++ [h])).
  { intros entries bytes st' -> -> He Hb Hfew Hbytes. destruct Hok. unfold len in so_hand0.
    constructor; cbn; try done.
    - unfold live. cbn. rewrite drop_app_le, omap_app by lia.
      rewrite omap_described_insert, <-so_live0.
      + csimpl. unfold described. cbn. by rewrite lookup_insert_eq, Z.eqb_refl.
      + cbn. rewrite fmap_drop. intros Hin. apply Hfresh. rewrite <-(take_drop (Z.to_nat (sh_hand sh)) (_ <$> _)). set_solver.
    - rewrite len_app. unfold len. cbn. lia.
    - rewrite fmap_app. apply NoDup_app. split_and!; [done| |apply NoDup_singleton].
      cbn. intros g Hg ->%list_elem_of_singleton. done.
    - apply Forall_app. split; [|apply Forall_singleton; cbn; lia].
      eapply Forall_impl; [exact so_known0|]. cbn. lia.
    - lia.
    - intros k e. rewrite drop_app_le, elem_of_app by lia.
      rewrite lookup_insert_Some. intros [[<- <-]|[Hne He']]; [right; by left|left; by apply so_items0].
    - rewrite len_app. unfold len. cbn. lia.
    - rewrite usage_app. cbn. lia.
    - apply Forall_app. split; [done|]. by apply Forall_singleton.
    - rewrite len_app, He. unfold len. cbn. lia.
    - rewrite usage_app, Hb. cbn. lia.
    - rewrite len_app. unfold len in *. cbn. lia.
    - rewrite usage_app. cbn. lia. }
  destruct (sh_items sh !! key) as [e|] eqn:He; cbn [fmap option_fmap option_map] in *.
  - change (hd_value (toHeld key e)) with (en_value e).
    destruct (isStale _ _ _) eqn:Hst; [destruct Hok; constructor; cbn [fst snd]; try done; lia|].
    destruct (without_held _ _ _ Hnd Hh) as [Hl Hu]. change (hd_size (toHeld key e)) with (en_size e) in Hu.
    rewrite Hgen. pose proof (shard_ok_size _ _ _ _ _ _ _ _ _ Hok He). destruct Hok.
    apply evictLocked_ok, Hnew; cbn; rewrite ?so_entries0, ?so_bytes0, ?so_count0, ?so_total0, ?wrapi64_small; lia.
  - apply holding_None in Hh. rewrite (without_absent _ _ Hh) in *. rewrite Hgen. destruct Hok.
    apply evictLocked_ok, Hnew; cbn; rewrite ?so_entries0, ?so_bytes0, ?so_count0, ?so_total0, ?wrapi64_small; lia.
Qed.

End Bounded.

End Shard.

(** ** Sums over shards *)

Section Totals.
Context {K V E : Type} `{Countable K}.
Implicit Types (qs : list (list (held K V))) (f : list (held K V) -> Z).

Definition total f qs : Z := foldr (fun q acc => f q + acc) 0 qs.

Lemma total_insert f qs i q q' :
  qs !! i = Some q -> total f (<[i := q']> qs) = total f qs - f q + f q'.
Proof.
  revert i. induction qs as [|p qs IH]; intros [|i] Hi; [done|done| |].
  - injection Hi as ->. unfold total. cbn. lia.
  - specialize (IH i Hi). change (<[S i := q']> (p :: qs)) with (p :: <[i := q']> qs).
    unfold total in *. cbn. lia.
Qed.

Lemma total_nonneg f qs : (forall q, q ∈ qs -> 0 <= f q) -> 0 <= total f qs.
Proof.
  induction qs as [|p qs IH]; intros Hf; unfold total; cbn; [lia|].
  pose proof (Hf p ltac:(by left)). assert (0 <= total f qs) by (apply IH; intros; apply Hf; by right).
  unfold total in *. lia.
Qed.

Lemma total_at_least f qs i q :
  (forall p, p ∈ qs -> 0 <= f p) -> qs !! i = Some q -> f q <= total f qs.
Proof.
  intros Hf Hi. assert (Hz : total f (<[i := []]> qs) - f [] = total f qs - f q)
    by (rewrite (total_insert f qs i q []) by done; lia).
  revert i Hi Hz. induction qs as [|p qs IH]; intros [|i] Hi _; [done|done| |].
  - injection Hi as ->. assert (0 <= total f qs) by (apply total_nonneg; intros; apply Hf; by right).
    unfold total in *. cbn. lia.
  - assert (f q <= total f qs).
    { eapply IH; [intros; apply Hf; by right|exact Hi|].
      rewrite (total_insert f qs i q []) by done. lia. }
    pose proof (Hf p ltac:(by left)). unfold total in *. cbn. lia.
Qed.

Lemma total_empty f m : f [] = 0 -> total f (replicate m []) = 0.
Proof. intros Hf. induction m as [|m IH]; [done|]. unfold total in *. cbn. lia. Qed.

End Totals.

(** ** The store and its queues *)

Section Refinement.
Context {K V E : Type} `{Countable K}.
Context (ranged : gmap K (atomicLocalEntry V) -> list (K * atomicLocalEntry V)) (hash : K -> Z).
Context (cfg : AtomicLocalConfig K V E) (B : Z) (HB : 1 <= B).

Implicit Types (s : AtomicLocalStore K V E) (sh : atomicLocalShard K V) (q : list (held K V))
  (qs : list (list (held K V))) (op : storeOp K V).

#[local] Abbreviation s0 := (NewAtomicLocalStore cfg).

Record store_ok (n : Z) s qs : Prop := {
  st_cfg : al_cfg s = cfg;
  st_max : al_maxPerShard s = al_maxPerShard s0;
  st_maxBytes : al_bytesPerShard s = al_bytesPerShard s0;
  st_length : length (al_shards s) = length (al_shards s0);
  st_queues : length qs = length (al_shards s);
  st_shards : forall i sh q, al_shards s !! i = Some sh -> qs !! i = Some q ->
    shard_ok n B (total len qs - len q) (total usage qs - usage q) sh (al_stats s) q
}.

(** The number of shards is a power of two, so that the mask is a remainder. *)
Lemma shardsLoop_spec fuel p c :
  0 <= p <= 62 -> c <= 2 ^ 62 -> 62 < p + Z.of_nat fuel ->
  exists p', 0 <= p' <= 62 /\ shardsLoop fuel (2 ^ p) c = 2 ^ p' /\ c <= 2 ^ p'.
Proof using Type.
  revert p. induction fuel as [|fuel IH]; intros p Hp Hc Hf; [lia|]. cbn [shardsLoop].
  destruct (Z.ltb_spec (2 ^ p) c) as [Hlt|Hge]; [|by exists p].
  assert (p < 62) by (apply (Z.pow_lt_mono_r_iff 2); lia).
  assert (Hs : wrapi64 (Z.shiftl (2 ^ p) 1) = 2 ^ (p + 1)).
  { rewrite Z.shiftl_mul_pow2, <-Z.pow_add_r by lia. apply wrapi64_small.
    assert (2 ^ (p + 1) <= 2 ^ 62) by (apply Z.pow_le_mono_r; lia). pose proof (Z.pow_pos_nonneg 2 (p + 1)). lia. }
  rewrite Hs. apply IH; lia.
Qed.

Lemma shard_count : ac_Shards cfg <= 2 ^ 62 -> exists p, 0 <= p <= 62 /\ len (al_shards s0) = 2 ^ p.
Proof using Type.
  intros Hc. unfold NewAtomicLocalStore, len. cbn [al_shards]. rewrite length_replicate.
  change (shardsLoop 64 1) with (shardsLoop 64 (2 ^ 0)).
  destruct (shardsLoop_spec 64 0 (if ac_Shards cfg <=? 0 then 64 else ac_Shards cfg)) as (p & Hp & -> & _);
    [lia|case_match; lia|lia|]. exists p. split; [done|]. pose proof (Z.pow_pos_nonneg 2 p). lia.
Qed.

Lemma shardIndex_lt s key :
  ac_Shards cfg <= 2 ^ 62 -> length (al_shards s) = length (al_shards s0) ->
  (shardIndex hash s key < length (al_shards s))%nat.
Proof using Type.
  intros Hc Hlen. destruct (shard_count Hc) as (p & Hp & Heq). unfold shardIndex, len in *.
  rewrite Hlen, Heq, Z.sub_1_r, <-Z.ones_equiv, Z.land_ones by lia.
  pose proof (Z.mod_pos_bound (hash key) (2 ^ p)). lia.
Qed.

Lemma shardIndex_same s key :
  length (al_shards s) = length (al_shards s0) -> shardIndex hash s key = shardIndex hash s0 key.
Proof using Type. unfold shardIndex, len. by intros ->. Qed.

(** A critical section that changes one shard. *)
Lemma put_ok n n' s qs i sh q w q' :
  n <= n' -> store_ok n s qs -> al_shards s !! i = Some sh -> qs !! i = Some q ->
  shard_ok n' B (total len qs - len q) (total usage qs - usage q) w.1 w.2 q' ->
  store_ok n' (put s i w) (<[i := q']> qs).
Proof using Type.
  intros Hnn Hok Hsh Hq Hw. pose proof (so_count _ _ _ _ _ _ _ Hw). pose proof (so_total _ _ _ _ _ _ _ Hw).
  pose proof (so_few _ _ _ _ _ _ _ Hw). pose proof (so_small _ _ _ _ _ _ _ Hw).
  assert (Hsizes : forall p, p ∈ <[i := q']> qs -> 0 <= usage p).
  { intros p (j & Hj)%list_elem_of_lookup. apply list_lookup_insert_Some in Hj as [(<- & <- & _)|[Hne Hj]].
    - eapply usage_nonneg, so_sizes, Hw.
    - assert (is_Some (al_shards s !! j)) as [sh' Hsh'].
      { apply lookup_lt_is_Some. rewrite <-(st_queues _ _ _ Hok). by eapply lookup_lt_Some. }
      eapply usage_nonneg, so_sizes, (st_shards _ _ _ Hok j); done. }
  destruct Hok. constructor; cbn; rewrite ?length_insert; try done.
  intros j shj qj Hshj Hqj.
  pose proof (total_at_least len _ _ _ (fun p _ => len_nonneg p) Hqj).
  pose proof (total_at_least usage _ _ _ Hsizes Hqj).
  rewrite (total_insert len qs i q q'), (total_insert usage qs i q q') in * by done.
  apply list_lookup_insert_Some in Hshj as [(<- & <- & Hlt)|[Hne Hshj]].
  - rewrite list_lookup_insert_eq in Hqj by lia. injection Hqj as <-.
    eapply shard_ok_other; [|exact Hw|..]; lia.
  - rewrite list_lookup_insert_ne in Hqj by done.
    eapply shard_ok_other; [exact Hnn|by apply (st_shards0 j)|..]; lia.
Qed.

Lemma put_same s i sh st : al_shards s !! i = Some sh -> put s i (sh, st) = withStats s st.
Proof using Type. intros Hi. unfold put, withStats. cbn. by rewrite list_insert_id. Qed.

Lemma shard_ok_usage n a b sh st st' q :
  ls_Entries st' = ls_Entries st -> ls_Bytes st' = ls_Bytes st ->
  shard_ok n B a b sh st q -> shard_ok n B a b sh st' q.
Proof using Type. intros ?? []. constructor; try done; lia. Qed.

Lemma store_ok_later n n' s qs : 0 <= n <= n' -> store_ok n s qs -> store_ok n' s qs.
Proof using HB.
  intros Hn []. constructor; try done. intros i sh q Hsh Hq. specialize (st_shards0 i sh q Hsh Hq).
  destruct st_shards0. constructor; try done; nia.
Qed.

Definition op_size op : Z :=
  match op with OpSet value _ _ => sizeOf cfg value | _ => 0 end.

Lemma sizeOf_nonneg value : 0 <= sizeOf cfg value.
Proof using Type. unfold sizeOf. repeat case_match; bool_to_prop; lia. Qed.

Section Step.
Context (n : Z) (s : AtomicLocalStore K V E) (qs : list (list (held K V))).
Context (Hc : ac_Shards cfg <= 2 ^ 62) (Hn : 0 <= n) (Hsmall : (n + 1) * B < 2 ^ 63).
Context (Hok : store_ok n s qs).

#[local] Lemma n_fits : n * B < 2 ^ 63.
Proof using HB Hn Hsmall. nia. Qed.

Lemma own_shard key :
  exists sh q, al_shards s !! shardIndex hash s key = Some sh
    /\ qs !! shardIndex hash s key = Some q
    /\ (forall f, onQueue (shardIndex hash s0) key qs f = <[shardIndex hash s key := f q]> qs)
    /\ qs !!! shardIndex hash s0 key = q
    /\ shard_ok n B (total len qs - len q) (total usage qs - usage q) sh (al_stats s) q.
Proof using Hc Hok.
  pose proof (shardIndex_lt s key Hc (st_length _ _ _ Hok)) as Hlt.
  destruct (lookup_lt_is_Some_2 _ _ Hlt) as [sh Hsh]. rewrite <-(st_queues _ _ _ Hok) in Hlt.
  destruct (lookup_lt_is_Some_2 _ _ Hlt) as [q Hq]. unfold onQueue.
  rewrite <-(shardIndex_same s key (st_length _ _ _ Hok)), (list_lookup_total_correct _ _ _ Hq).
  exists sh, q. split_and!; [done..|]. by apply (st_shards _ _ _ Hok (shardIndex hash s key)).
Qed.

Lemma Get_ok key now now' :
  let r := Get hash s key now now' in
  let q := qs !!! shardIndex hash s0 key in
  if negb (validKey (ac_StoreConfig cfg) key) then r = (s, Ok None)
  else r.2 = Ok (queueGet q key now now').2
       /\ store_ok n r.1 (onQueue (shardIndex hash s0) key qs (fun q => (queueGet q key now now').1)).
Proof using All.
  cbn zeta. unfold Get. rewrite (st_cfg _ _ _ Hok).
  destruct (negb (validKey _ key)); [done|].
  destruct (own_shard key) as (sh & q & Hsh & Hq & -> & -> & Hi).
  rewrite Hsh. unfold queueGet. rewrite (shard_ok_held _ _ _ _ _ _ _ key Hi).
  assert (Hput : forall w q', shard_ok n B (total len qs - len q) (total usage qs - usage q) w.1 w.2 q' ->
    store_ok n (put s (shardIndex hash s key) w) (<[shardIndex hash s key := q']> qs))
    by (intros; by eapply (put_ok n)).
  destruct (sh_items sh !! key) as [e|] eqn:He; cbn [fmap option_fmap option_map].
  - change (hd_expiresAt (toHeld key e)) with (en_expiresAt e).
    destruct (expiredAt now (en_expiresAt e)); cbn [fst snd]; (split; [done|]).
    + apply Hput. eapply shard_ok_usage; [| |by apply (expire_ok n B _ _ Hn HB n_fits)]; done.
    + rewrite <-(put_same s _ sh) by done. apply Hput. by eapply shard_ok_usage; [| |exact Hi].
  - split; [done|]. cbn [fst]. rewrite <-(put_same s _ sh) by done. apply Hput.
    by eapply shard_ok_usage; [| |exact Hi].
Qed.

Lemma storeStep_ok op :
  op_size op <= B ->
  let step := storeStep ranged hash s op in
  let qstep := queueStep cfg (al_maxPerShard s0) (al_bytesPerShard s0) (shardIndex hash s0) qs op in
  step.2 = qstep.2 /\ store_ok (n + 1) step.1 qstep.1.
Proof using All.
  intros Hsize. assert (Hlater : forall s qs, store_ok n s qs -> store_ok (n + 1) s qs)
    by (intros; eapply store_ok_later; [|done]; lia).
  cbn zeta. destruct op as [key now now'|value ttl now|key]; cbn [storeStep queueStep].
  - pose proof (Get_ok key now now') as Hget. cbn zeta in Hget. destruct (negb (validKey _ key)).
    + rewrite Hget. cbn. auto.
    + destruct (Get hash s key now now') as [s' r]. cbn [fst snd] in *. destruct Hget as [-> ?]. auto.
  - unfold SetWithTTL. rewrite (st_cfg _ _ _ Hok).
    destruct (validateValue _ value) as [u|err]; [|cbn; auto].
    destruct (keyOf _ value) as [key|err]; [|cbn; auto]. rewrite (st_maxBytes _ _ _ Hok).
    destruct (_ && _); [cbn; auto|]. destruct (own_shard key) as (sh & q & Hsh & Hq & -> & _ & Hi).
    rewrite Hsh. cbn [fst snd]. split; [done|]. eapply (put_ok n); [lia|done..|].
    pose proof (sizeOf_nonneg value). cbn [op_size] in Hsize.
    pose proof (set_ok ranged (n + 1) B (total len qs - len q) (total usage qs - usage q)
      ltac:(lia) HB Hsmall s sh (al_stats s) q key value (expiryOf cfg ttl now) (sizeOf cfg value)) as Hset.
    rewrite (st_max _ _ _ Hok), (st_maxBytes _ _ _ Hok), (st_cfg _ _ _ Hok) in Hset.
    apply Hset; [lia| |lia]. by replace (n + 1 - 1) with n by lia.
  - unfold Delete. rewrite (st_cfg _ _ _ Hok). destruct (negb (validKey _ key)); [cbn; auto|].
    destruct (own_shard key) as (sh & q & Hsh & Hq & -> & _ & Hi). rewrite Hsh. cbn [fst snd].
    split; [done|]. apply Hlater. eapply (put_ok n); [lia|done..|].
    apply delete_ok; [done|done|exact n_fits|done].
Qed.

End Step.

Lemma NewAtomicLocalStore_ok : store_ok 0 s0 (replicate (length (al_shards s0)) []).
Proof using Type.
  constructor; try done; [by rewrite length_replicate|].
  intros i sh q Hsh [-> _]%lookup_replicate. rewrite !total_empty by done.
  unfold NewAtomicLocalStore in Hsh. cbn [al_shards] in Hsh. apply lookup_replicate in Hsh as [-> _].
  constructor; cbn; try done; try lia; constructor.
Qed.

Lemma runOps_ok ops n s qs :
  ac_Shards cfg <= 2 ^ 62 -> 0 <= n -> (n + len ops) * B < 2 ^ 63 ->
  Forall (fun op => op_size op <= B) ops -> store_ok n s qs ->
  let r := runOps (storeStep ranged hash) s ops in
  let r' := runOps (queueStep cfg (al_maxPerShard s0) (al_bytesPerShard s0) (shardIndex hash s0)) qs ops in
  r.2 = r'.2 /\ store_ok (n + len ops) r.1 r'.1.
Proof using HB.
  intros Hc. cbn zeta. revert n s qs. induction ops as [|op ops IH]; intros n s qs Hn Hsmall Hsz Hok.
  { cbn. split; [done|]. change (len []) with 0. by rewrite Z.add_0_r. }
  apply Forall_cons in Hsz as [Hop Hsz]. rewrite len_cons in *. pose proof (len_nonneg ops).
  destruct (storeStep_ok n s qs Hc Hn ltac:(nia) Hok op Hop) as [Ho Hok']. cbn [runOps].
  destruct (storeStep ranged hash s op) as [s1 o]. destruct (queueStep _ _ _ _ qs op) as [qs1 o'].
  cbn [fst snd] in *. subst o'. replace (n + (1 + len ops)) with (n + 1 + len ops) in * by lia.
  destruct (IH (n + 1) s1 qs1 ltac:(lia) Hsmall Hsz Hok') as [Ho Hrun].
  destruct (runOps _ s1 ops), (runOps _ qs1 ops). cbn [fst snd] in *. by subst.
Qed.

(** A store after any calls of a client. *)
Definition reached (ops : list (storeOp K V)) s : Prop :=
  s = (runOps (storeStep ranged hash) s0 ops).1.

Context (Hshards : ac_Shards cfg <= 2 ^ 62).

Lemma reached_ok ops s :
  (len ops * B < 2 ^ 63) -> Forall (fun op => op_size op <= B) ops -> reached ops s ->
  store_ok (len ops) s
    (runOps (queueStep cfg (al_maxPerShard s0) (al_bytesPerShard s0) (shardIndex hash s0))
       (replicate (length (al_shards s0)) []) ops).1.
Proof using HB Hshards.
  intros Hsmall Hsz ->. destruct (runOps_ok ops 0 s0 _ Hshards ltac:(lia) Hsmall Hsz NewAtomicLocalStore_ok) as [_ Hok].
  exact Hok.
Qed.

Lemma store_ok_live n s qs : store_ok n s qs -> live <$> al_shards s = qs.
Proof using Type.
  intros Hok. apply list_eq. intros i. rewrite list_lookup_fmap.
  destruct (al_shards s !! i) as [sh|] eqn:Hsh.
  - destruct (lookup_lt_is_Some_2 qs i) as [q Hq].
    { rewrite (st_queues _ _ _ Hok). by eapply lookup_lt_Some. }
    cbn. rewrite Hq. f_equal. by apply (st_shards _ _ _ Hok i sh q Hsh Hq).
  - cbn. symmetry. apply lookup_ge_None. rewrite (st_queues _ _ _ Hok). by apply lookup_ge_None.
Qed.

Lemma shard_ok_size_items n a b sh st q :
  shard_ok n B a b sh st q -> Z.of_nat (size (sh_items sh)) = len q.
Proof using Type.
  intros Hok. unfold len. f_equal. rewrite <-size_dom, <-(length_fmap hd_key q).
  rewrite <-(size_list_to_set (C := gset K)) by (by eapply shard_ok_keys). f_equal.
  apply leibniz_equiv. intros k. rewrite elem_of_dom, elem_of_list_to_set.
  pose proof (shard_ok_held _ _ _ _ _ _ _ k Hok) as Hh.
  destruct (sh_items sh !! k) as [e|]; cbn in Hh.
  - split; [|by eexists]. intros _. destruct (decide (k ∈ hd_key <$> q)) as [|Hn]; [done|].
    apply holding_None in Hn. congruence.
  - apply holding_None in Hh. split; [by intros []|done].
Qed.

Lemma trim_last maxE maxB q h :
  fits maxE maxB [h] = true -> exists q', trim maxE maxB (q ++ [h]) = q' ++ [h].
Proof using Type.
  intros Hf. induction q as [|h' q IH]; cbn [app trim].
  - rewrite Hf. by exists [].
  - destruct (fits maxE maxB (h' :: q ++ [h])); [by exists (h' :: q)|exact IH].
Qed.

(** Queues stay within the limits. *)
Definition good maxE maxB q : Prop := fits maxE maxB q = true /\ Forall (fun h => 0 <= hd_size h) q.

Lemma empty_good maxE maxB : good maxE maxB [].
Proof using Type. split; [apply fits_nil|constructor]. Qed.

Lemma fits_spec maxE maxB q :
  fits maxE maxB q = true <-> (0 < maxE -> len q <= maxE) /\ (0 < maxB -> usage q <= maxB).
Proof using Type.
  unfold fits. destruct (Z.ltb_spec 0 maxE), (Z.ltb_spec maxE (len q)), (Z.ltb_spec 0 maxB), (Z.ltb_spec maxB (usage q));
    cbn; split; try done; try lia; intros [??]; exfalso; lia.
Qed.

Lemma without_good maxE maxB key q : good maxE maxB q -> good maxE maxB (without key q).
Proof using Type.
  intros [Hf Hs]. assert (Hle : len (without key q) <= len q /\ usage (without key q) <= usage q).
  { clear Hf. unfold without. induction Hs as [|h q Hh Hs IH]; [done|]. rewrite filter_cons.
    unfold usage in *. case_decide; rewrite ?len_cons; cbn [foldr]; lia. }
  split.
  - rewrite fits_spec in *. lia.
  - apply Forall_forall. intros h [_ Hh]%list_elem_of_filter. by apply (proj1 (Forall_forall _ _) Hs).
Qed.

Lemma trim_good maxE maxB q : Forall (fun h => 0 <= hd_size h) q -> good maxE maxB (trim maxE maxB q).
Proof using Type.
  intros Hs. split; [apply trim_fits|]. induction Hs as [|h q Hh Hs IH]; cbn [trim].
  - by case_match.
  - case_match; [by constructor|done].
Qed.

Lemma queueStep_good maxE maxB indexOf qs op :
  Forall (good maxE maxB) qs -> Forall (good maxE maxB) (queueStep cfg maxE maxB indexOf qs op).1.
Proof using Type.
  intros Hqs. assert (Hon : forall key f, (forall q, good maxE maxB q -> good maxE maxB (f q)) ->
    Forall (good maxE maxB) (onQueue indexOf key qs f)).
  { intros key f Hf. unfold onQueue. destruct (qs !! indexOf key) as [q|] eqn:Hq.
    - apply Forall_insert; [done|]. rewrite (list_lookup_total_correct _ _ _ Hq). apply Hf.
      by eapply Forall_lookup_1 in Hq.
    - rewrite list_insert_ge; [done|]. by apply lookup_ge_None. }
  destruct op as [key now now'|value ttl now|key]; cbn [queueStep].
  - case_match; [done|]. apply Hon. intros q Hq. unfold queueGet.
    repeat case_match; cbn; try done. by apply without_good.
  - destruct (validateValue _ _); [|done]. destruct (keyOf _ _) as [key|]; [|done]. case_match; [done|].
    apply Hon. intros q Hq. unfold queueSet. case_match; [done|]. apply trim_good.
    apply Forall_app. split; [exact (proj2 (without_good _ _ key q Hq))|]. apply Forall_singleton, sizeOf_nonneg.
  - case_match; [done|]. apply Hon. intros q. apply without_good.
Qed.

Lemma run_good maxE maxB indexOf ops qs :
  Forall (good maxE maxB) qs -> Forall (good maxE maxB) (runOps (queueStep cfg maxE maxB indexOf) qs ops).1.
Proof using Type.
  revert qs. induction ops as [|op ops IH]; intros qs Hqs; [done|]. cbn [runOps].
  pose proof (queueStep_good maxE maxB indexOf qs op Hqs) as H1. destruct (queueStep _ _ _ _ qs op) as [qs1 o].
  specialize (IH qs1 H1). by destruct (runOps _ qs1 ops).
Qed.

(** An entry that fits its shard survives the eviction that its write causes. *)
Lemma queueSet_holds maxE maxB q key value expiresAt size :
  NoDup (hd_key <$> queueSet cfg maxE maxB q key value expiresAt size) ->
  (forall h, holding key q = Some h -> isStale (ac_StoreConfig cfg) (hd_value h) value = false) ->
  fits maxE maxB [mkHeld key value expiresAt size] = true ->
  holding key (queueSet cfg maxE maxB q key value expiresAt size) = Some (mkHeld key value expiresAt size).
Proof using Type.
  unfold queueSet. intros Hnd Hfresh Hfits.
  replace (match holding key q with Some h => _ | None => false end) with false in *
    by (destruct (holding key q); [by rewrite Hfresh|done]).
  apply holding_spec; [done|]. split; [|done].
  destruct (trim_last _ _ (without key q) _ Hfits) as [q' ->]. apply elem_of_app. right. by left.
Qed.

Lemma fits_alone (value : V) (key : K) (expiresAt : Z) :
  (0 <? ac_MaxBytes cfg) && (al_bytesPerShard s0 <? sizeOf cfg value) = false ->
  fits (al_maxPerShard s0) (al_bytesPerShard s0) [mkHeld key value expiresAt (sizeOf cfg value)] = true.
Proof using Type.
  intros Hbig. apply fits_spec. unfold usage, len. cbn -[NewAtomicLocalStore sizeOf].
  split; [lia|]. intros Hpos. destruct (Z.ltb_spec 0 (ac_MaxBytes cfg)) as [Hm|Hm].
  - cbn [andb] in Hbig. bool_to_prop. lia.
  - unfold NewAtomicLocalStore in Hpos. cbn [al_bytesPerShard] in Hpos.
    rewrite (proj2 (Z.ltb_ge _ _)) in Hpos by lia. lia.
Qed.

Lemma keyOf_valid (c : StoreConfig K V E) value key : keyOf c value = Ok key -> validKey c key = true.
Proof using Type.
  unfold keyOf, validKey. destruct (sc_KeyOf c); [|done]. destruct (sc_ValidateKey c) as [v|]; [|done].
  destruct (v _) eqn:Hv; cbn; [|done]. by intros [= <-].
Qed.

Lemma set_get n s qs value ttl now key s' now1 now2 :
  0 <= n -> (n + 2) * B < 2 ^ 63 -> sizeOf cfg value <= B -> store_ok n s qs ->
  SetWithTTL ranged hash s value ttl now = (s', Ok tt) ->
  keyOf (ac_StoreConfig cfg) value = Ok key ->
  (forall sh e, al_shards s !! shardIndex hash s key = Some sh -> sh_items sh !! key = Some e ->
     isStale (ac_StoreConfig cfg) (en_value e) value = false) ->
  expiredAt now1 (expiryOf cfg ttl now) = false ->
  (Get hash s' key now1 now2).2 = Ok (Some value).
Proof using HB Hshards.
  intros Hn Hsmall Hsize Hok Hset Hkey Hfresh Hlive.
  destruct (storeStep_ok n s qs Hshards Hn ltac:(nia) Hok (OpSet value ttl now) Hsize) as [Hout Hok'].
  destruct (own_shard n s qs Hshards Hok key) as (sh & q & Hsh & Hq & Hon & _ & Hi).
  cbn [storeStep queueStep] in Hok', Hout. rewrite Hset in Hok', Hout. rewrite Hkey in Hok', Hout.
  destruct (validateValue _ value); [|done]. cbn [fst snd] in *.
  destruct ((0 <? ac_MaxBytes cfg) && (al_bytesPerShard s0 <? sizeOf cfg value)) eqn:Hbig; [done|].
  cbn [fst snd] in *. rewrite Hon in Hok'.
  pose proof (Get_ok (n + 1) s' _ Hshards ltac:(lia) ltac:(nia) Hok' key now1 now2) as Hget. cbn zeta in Hget.
  rewrite (keyOf_valid _ _ _ Hkey) in Hget. cbn [negb] in Hget. destruct Hget as [-> _].
  destruct (own_shard (n + 1) s' _ Hshards Hok' key) as (sh' & q' & _ & Hq' & _ & -> & Hi').
  rewrite (shardIndex_same s' key), <-(shardIndex_same s key) in Hq' by apply (st_length _ _ _ Hok) || apply (st_length _ _ _ Hok').
  rewrite list_lookup_insert_eq in Hq' by exact (lookup_lt_Some _ _ _ Hq). apply (inj Some) in Hq'. rewrite <-Hq' in Hi' |- *.
  unfold queueGet. rewrite queueSet_holds; [|by eapply shard_ok_keys| |by apply fits_alone].
  - cbn. by rewrite Hlive.
  - intros h. rewrite (shard_ok_held _ _ _ _ _ _ _ key Hi). destruct (sh_items sh !! key) as [e|] eqn:He; [|done].
    intros [= <-]. by apply (Hfresh sh e).
Qed.

End Refinement.

(** ** Properties *)

(** C32. The sharded clock cache is, call by call, a queue per shard: every [Get]
    returns what the queue of the key's shard holds (and nothing that has
    expired), every [Set] is refused exactly when the value or the key is
    invalid or larger than a shard, ignored when the held value is newer, and
    otherwise moves the key to the end of its queue and drops entries from the
    front, oldest write first, until the limits hold.  The records of superseded
    writes, the hand, the compaction and the generations are not observable. *)
Theorem AtomicLocalStore_refines_queues {K V E} `{Countable K}
    (ranged : gmap K (atomicLocalEntry V) -> list (K * atomicLocalEntry V)) (hash : K -> Z)
    (cfg : AtomicLocalConfig K V E) (B : Z) (ops : list (storeOp K V)) :
  1 <= B -> ac_Shards cfg <= 2 ^ 62 -> len ops * B < 2 ^ 63 ->
  Forall (fun op => op_size cfg op <= B) ops ->
  let s0 := NewAtomicLocalStore cfg in
  let run := runOps (storeStep ranged hash) s0 ops in
  let queues := runOps (queueStep cfg (al_maxPerShard s0) (al_bytesPerShard s0) (shardIndex hash s0))
                  (replicate (length (al_shards s0)) []) ops in
  run.2 = queues.2 /\ live <$> al_shards run.1 = queues.1.
Proof.
  intros HB Hc Hsmall Hsz. cbn zeta.
  destruct (runOps_ok ranged hash cfg B HB ops 0 _ _ Hc ltac:(lia) Hsmall Hsz (NewAtomicLocalStore_ok cfg B))
    as [Hout Hok].
  split; [exact Hout|]. exact (store_ok_live _ _ _ _ _ Hok).
Qed.

(** The cache is bounded and keeps what it was just given: after any calls, no
    shard holds more entries or bytes than its share of the limits, the
    counters of [Stats] are the numbers of entries and bytes held, and a value
    whose write was accepted and not stale is what the next [Get] returns until
    it expires, however full the shard was. *)
Theorem AtomicLocalStore_bounded {K V E} `{Countable K}
    (ranged : gmap K (atomicLocalEntry V) -> list (K * atomicLocalEntry V)) (hash : K -> Z)
    (cfg : AtomicLocalConfig K V E) (B : Z) (ops : list (storeOp K V)) s :
  1 <= B -> ac_Shards cfg <= 2 ^ 62 -> (len ops + 2) * B < 2 ^ 63 ->
  Forall (fun op => op_size cfg op <= B) ops -> reached ranged hash cfg ops s ->
  (forall i sh, al_shards s !! i = Some sh ->
     (0 < al_maxPerShard s -> Z.of_nat (size (sh_items sh)) <= al_maxPerShard s)
     /\ (0 < al_bytesPerShard s -> usage (live sh) <= al_bytesPerShard s)
     /\ Z.of_nat (size (sh_items sh)) = len (live sh))
  /\ ls_Entries (Stats s) = total len (live <$> al_shards s)
  /\ ls_Bytes (Stats s) = total usage (live <$> al_shards s)
  /\ (forall value ttl now key s' now1 now2,
        SetWithTTL ranged hash s value ttl now = (s', Ok tt) -> sizeOf cfg value <= B ->
        keyOf (ac_StoreConfig cfg) value = Ok key ->
        (forall sh e, al_shards s !! shardIndex hash s key = Some sh -> sh_items sh !! key = Some e ->
           isStale (ac_StoreConfig cfg) (en_value e) value = false) ->
        expiredAt now1 (expiryOf cfg ttl now) = false ->
        (Get hash s' key now1 now2).2 = Ok (Some value)).
Proof.
  intros HB Hc Hsmall Hsz Hs. pose proof (len_nonneg ops).
  pose proof (reached_ok ranged hash cfg B HB Hc ops s ltac:(nia) Hsz Hs) as Hok.
  pose proof (run_good cfg (al_maxPerShard (NewAtomicLocalStore cfg)) (al_bytesPerShard (NewAtomicLocalStore cfg))
    (shardIndex hash (NewAtomicLocalStore cfg)) ops
    (replicate (length (al_shards (NewAtomicLocalStore cfg))) [])) as Hgood.
  rewrite <-(store_ok_live _ _ _ _ _ Hok), <-(st_max _ _ _ _ _ Hok), <-(st_maxBytes _ _ _ _ _ Hok) in Hgood.
  specialize (Hgood (Forall_replicate _ _ _ (empty_good _ _))).
  pose proof (store_ok_live _ _ _ _ _ Hok) as Hlive.
  assert (Hshard : forall i sh, al_shards s !! i = Some sh ->
    shard_ok (len ops) B (total len (live <$> al_shards s) - len (live sh))
      (total usage (live <$> al_shards s) - usage (live sh)) sh (al_stats s) (live sh)).
  { intros i sh Hsh. rewrite Hlive. apply (st_shards _ _ _ _ _ Hok i); [done|].
    by rewrite <-Hlive, list_lookup_fmap, Hsh. }
  destruct (shard_count cfg Hc) as (p & Hp & Hcount). pose proof (Z.pow_pos_nonneg 2 p).
  destruct (lookup_lt_is_Some_2 (al_shards s) 0) as [sh0 Hsh0].
  { rewrite (st_length _ _ _ _ _ Hok). unfold len in Hcount. lia. }
  split_and!.
  - intros i sh Hsh. pose proof (shard_ok_size_items _ _ _ _ _ _ _ (Hshard i sh Hsh)) as Hsize.
    assert (Hf : good (al_maxPerShard s) (al_bytesPerShard s) (live sh)).
    { apply (Forall_lookup_1 _ _ i (live sh) Hgood).
      by rewrite list_lookup_fmap, Hsh. }
    destruct Hf as [Hf _]. apply fits_spec in Hf as [He Hb]. rewrite Hsize. split_and!; [exact He|exact Hb|reflexivity].
  - pose proof (so_count _ _ _ _ _ _ _ (Hshard _ _ Hsh0)). unfold Stats. lia.
  - pose proof (so_total _ _ _ _ _ _ _ (Hshard _ _ Hsh0)). unfold Stats. lia.
  - intros value ttl now key s' now1 now2 Hset Hv Hkey Hfresh Hexp.
    by eapply (set_get ranged hash cfg B HB Hc (len ops) s).
Qed.

(** ** A store that runs *)

(** Values are pairs of a key and a version; one shard holds two of them. *)
Definition sampleConfig : AtomicLocalConfig Z (Z * Z) unit :=
  mkAtomicLocalConfig
    (mkStoreConfig (Some fst) (Some (VersionStale (Some snd))) (Some (fun key => 0 <? key)) None)
    1 2 0 100 (Some (fun _ => 8)).

Definition sampleOps : list (storeOp Z (Z * Z)) :=
  [OpSet (1, 1) 0 0; OpSet (2, 1) 0 0; OpSet (1, 2) 0 1; OpSet (3, 1) 0 2; OpGet 2 3 3;
   OpGet 1 3 3; OpSet (1, 1) 0 4; OpGet 1 5 5; OpDelete 3; OpGet 1 200 200].

Lemma AtomicLocalStore_refines_queues_witness :
  let run := runOps (storeStep map_to_list (fun key => key)) (NewAtomicLocalStore sampleConfig) sampleOps in
  run.2 = [Done (Ok tt); Done (Ok tt); Done (Ok tt); Done (Ok tt); Got (Ok None);
           Got (Ok (Some (1, 2))); Done (Ok tt); Got (Ok (Some (1, 2))); Done (Ok tt); Got (Ok None)]
  /\ live <$> al_shards run.1 = [[]].
Proof.
  destruct (AtomicLocalStore_refines_queues map_to_list (fun key => key) sampleConfig 8 sampleOps) as [Ho Hl].
  - lia.
  - cbn. lia.
  - vm_compute. reflexivity.
  - by repeat constructor.
  - cbn zeta. rewrite Ho, Hl. split; vm_compute; reflexivity.
Defined.

Lemma AtomicLocalStore_bounded_witness :
  let s := (runOps (storeStep map_to_list (fun key => key)) (NewAtomicLocalStore sampleConfig)
              (take 4 sampleOps)).1 in
  (forall sh, al_shards s !! 0%nat = Some sh -> Z.of_nat (size (sh_items sh)) <= 2)
  /\ (Get (fun key => key) (SetWithTTL map_to_list (fun key => key) s (5, 1) 0 9).1 5 10 10).2 = Ok (Some (5, 1)).
Proof.
  cbn zeta.
  destruct (AtomicLocalStore_bounded map_to_list (fun key => key) sampleConfig 8 (take 4 sampleOps) _
    ltac:(lia) ltac:(cbn; lia) ltac:(vm_compute; reflexivity) ltac:(by repeat constructor) eq_refl)
    as (Hbound & _ & _ & Hset).
  split.
  - intros sh Hsh. apply (Hbound _ _ Hsh). vm_compute. reflexivity.
  - eapply Hset.
    + apply surjective_pairing.
    + vm_compute. discriminate.
    + reflexivity.
    + intros sh e Hsh He. vm_compute in Hsh. injection Hsh as <-. vm_compute in He. discriminate He.
    + reflexivity.
Defined.

(** ** Where the records accumulate *)

Record one_key (m : nat) (s : AtomicLocalStore Z (Z * Z) unit) : Prop := {
  ok_limits : al_cfg s = sampleConfig /\ al_maxPerShard s = 2 /\ al_bytesPerShard s = 0;
  ok_shard : exists items order generation e,
    al_shards s = [mkShard items order 0 1 8 generation]
    /\ items !! 1 = Some e /\ en_value e = (1, 1) /\ en_size e = 8
    /\ size items = 1%nat /\ length order = m
}.

Lemma one_key_update m s :
  one_key m s ->
  one_key (S m) (storeStep map_to_list (fun key => key) s (OpSet (1, 1) 0 0)).1.
Proof.
  intros [(Hcfg & Hmax & Hbytes) (items & order & g & e & Hsh & He & Hv & Hz & Hsize & Hlen)].
  assert (Hi : shardIndex (fun key => key) s 1 = 0%nat) by (unfold shardIndex; rewrite Hsh; reflexivity).
  cbn [storeStep]. unfold SetWithTTL. rewrite Hcfg, Hbytes. cbn -[setLocked shardIndex].
  rewrite Hi, Hsh. cbn [lookup list_lookup fst snd]. unfold setLocked. cbn [sh_items]. rewrite He, Hcfg, Hv.
  cbn -[evictLocked lookup insert wrapi64 wrapu]. unfold evictLocked, evictFuel. cbn [evictLoop fst snd].
  unfold overLimit. rewrite Hmax, Hbytes, Hz. cbn -[wrapi64 wrapu lookup insert].
  split; [by cbn; rewrite ?Hcfg, ?Hmax, ?Hbytes|].
  cbn [al_shards put]. rewrite Hsh. eexists _, _, _, _.
  split_and!; [reflexivity|apply lookup_insert_eq|done..| |].
  - by rewrite map_size_insert_Some.
  - rewrite length_app, Hlen. cbn. lia.
Qed.

(** Writes that replace an entry and evict nothing add a record each and move no
    hand, so the compaction never happens: a store with one key keeps a record
    of every write it ever accepted. *)
Theorem updates_accumulate_records m :
  (0 < m)%nat ->
  exists sh,
    al_shards (runOps (storeStep map_to_list (fun key => key)) (NewAtomicLocalStore sampleConfig)
                 (replicate m (OpSet (1, 1) 0 0))).1 = [sh]
    /\ size (sh_items sh) = 1%nat /\ length (sh_order sh) = m.
Proof.
  destruct m as [|m]; [lia|]. intros _. cbn [replicate runOps].
  assert (H1 : one_key 1 (storeStep map_to_list (fun key => key) (NewAtomicLocalStore sampleConfig) (OpSet (1, 1) 0 0)).1).
  { split; [done|]. by eexists _, _, _, _. }
  destruct (storeStep _ _ (NewAtomicLocalStore sampleConfig) _) as [s o]. cbn [fst] in H1.
  assert (Hm : one_key (S m) (runOps (storeStep map_to_list (fun key => key)) s (replicate m (OpSet (1, 1) 0 0))).1).
  { replace (S m) with (m + 1)%nat by lia. revert s H1. generalize 1%nat. clear o.
    induction m as [|m IH]; intros k s Hk; [exact Hk|]. cbn [replicate runOps].
    apply one_key_update in Hk. destruct (storeStep _ _ s _) as [s1 o1]. cbn [fst] in Hk.
    specialize (IH _ _ Hk). destruct (runOps _ s1 _). cbn [fst] in *. by rewrite Nat.add_succ_r in IH. }
  destruct (runOps _ s _) as [s' os]. cbn [fst] in *.
  destruct Hm as [_ (items & order & g & e & -> & _ & _ & _ & Hsize & Hlen)].
  by eexists.
Qed.
