(* ===== verification/ReadThrough.v ===== *)
(** * Read-through loading

    Models [src/cache/read_through.go]: a local store in front of an optional
    second store and an authoritative loader, with concurrent misses of a key
    coalesced into one load.

    The methods run as interleavings: a thread is the point at which a call
    stands, and a step is one critical section, one call of the local store, or
    one answer of the second store or of the loader.  These two are outside the
    process: what they answer is an argument of the step.

    [Store] and [LossyStore] are the interface of a local store and what its
    clients rely on: it may forget anything at any time, and never shows
    anything but the last value it accepted.  The clock cache of [ClockCache]
    implements it. *)

From stdpp Require Import base list gmap.
From Stdlib Require Import ZArith Lia.
From S2P Require Import Prelude ClockCache.

#[local] Open Scope Z_scope.

(** ** The interface of a local store *)

(** The readings of the clock during a call. *)
Record readings := mkReadings {
  rd_now : Z;
  rd_now' : Z
}.

Class Store (S K V E : Type) := {
  store_Get : S -> K -> readings -> S * result (cacheError E) (option V);
  store_SetWithTTL : S -> V -> Z -> readings -> S * result (cacheError E) unit;
  store_Delete : S -> K -> S * result (cacheError E) unit
}.

(** [b] shows what [a] shows, or nothing. *)
Definition shrinks {K V} (a b : K -> option V) (k : K) : Prop := b k = a k \/ b k = None.

Class LossyStore {S K V E : Type} (cfg : StoreConfig K V E) `{Store S K V E} := {
  configured : S -> Prop;
  held : S -> K -> option V;
  held_Get : forall s k t s' r, configured s -> store_Get s k t = (s', r) ->
    configured s'
    /\ (forall k', shrinks (held s) (held s') k')
    /\ (forall v, r = Ok (Some v) -> held s k = Some v /\ held s' k = Some v)
    /\ (rd_now t <= rd_now' t -> r = Ok None -> held s' k = None)
    /\ exists o, r = Ok o;
  held_SetWithTTL : forall s v ttl t s' r, configured s -> store_SetWithTTL s v ttl t = (s', r) ->
    configured s'
    /\ match r with
       | Err _ => s' = s
       | Ok _ => exists k, keyOf cfg v = Ok k /\ validateValue cfg v = Ok tt
           /\ (forall k', k' <> k -> shrinks (held s) (held s') k')
           /\ ((exists old, held s k = Some old /\ isStale cfg old v = true /\ held s' k = Some old)
               \/ (forall old, held s k = Some old -> isStale cfg old v = false)
                  /\ (held s' k = Some v \/ held s' k = None))
       end;
  held_Delete : forall s k s' r, configured s -> store_Delete s k = (s', r) ->
    configured s' /\ forall k', shrinks (held s) (held s') k'
}.

(** ** The clock cache is such a store *)

Section ClockStore.
Context {K V E : Type} `{Countable K}.
Context (ranged : gmap K (atomicLocalEntry V) -> list (K * atomicLocalEntry V)) (hash : K -> Z).
Context (cfg : StoreConfig K V E).

Implicit Types (s : AtomicLocalStore K V E) (sh : atomicLocalShard K V) (st : AtomicLocalStats).

Definition shows s (k : K) : option V :=
  if validKey cfg k then
    sh ← al_shards s !! shardIndex hash s k; en_value <$> sh_items sh !! k
  else None.

Lemma deleteLocked_items sh st k : sh_items (deleteLocked (sh, st) k).1.1 = delete k (sh_items sh).
Proof using Type.
  cbn. destruct (sh_items sh !! k) eqn:Hk; cbn; [done|]. by rewrite delete_id.
Qed.

Lemma refill_items sh : sh_items (refill ranged sh) = sh_items sh.
Proof using Type. unfold refill. by case_match. Qed.

(** Eviction only forgets. *)
Lemma evictLoop_items fuel s w : sh_items (evictLoop ranged fuel s w).1 ⊆ sh_items w.1.
Proof using Type.
  revert w. induction fuel as [|fuel IH]; intros [sh st]; [done|]. cbn [evictLoop fst snd].
  case_match; [|done]. case_match; cbn [fst]; [|by rewrite refill_items]. cbn [advance sh_items].
  rewrite refill_items. destruct (sh_items sh !! _) eqn:He.
  - case_match.
    + etrans; [apply IH|]. cbn. by rewrite refill_items.
    + destruct (deleteLocked _ _) as [w' d] eqn:Hd. etrans; [apply IH|].
      assert (Hw : sh_items w'.1 ⊆ sh_items sh).
      { change w' with (w', d).1. rewrite <-Hd, deleteLocked_items. cbn. rewrite refill_items. apply delete_subseteq. }
      by case_match.
  - etrans; [apply IH|]. cbn. by rewrite refill_items.
Qed.

Lemma evictLocked_items s w : sh_items (evictLocked ranged s w).1 ⊆ sh_items w.1.
Proof using Type.
  unfold evictLocked. cbn [fst]. etrans; [|apply (evictLoop_items (evictFuel w.1) s w)].
  unfold compact. by case_match.
Qed.

Lemma shows_put s i sh w k :
  al_shards s !! i = Some sh ->
  shows (put s i w) k = if decide (shardIndex hash s k = i)
                        then (if validKey cfg k then en_value <$> sh_items w.1 !! k else None)
                        else shows s k.
Proof using Type.
  intros Hi. unfold shows, shardIndex. cbn [put al_shards]. rewrite len_insert.
  fold (shardIndex hash s k). destruct (validKey cfg k); [|by case_decide]. case_decide as Hk.
  - by rewrite Hk, list_lookup_insert_eq by (by eapply lookup_lt_Some).
  - by rewrite list_lookup_insert_ne.
Qed.

Lemma shows_put_shrinks s i sh w k :
  al_shards s !! i = Some sh ->
  (forall e, sh_items w.1 !! k = Some e -> sh_items sh !! k = Some e) ->
  shrinks (shows s) (shows (put s i w)) k.
Proof using Type.
  intros Hi Hsub. unfold shrinks. rewrite (shows_put s i sh w k Hi). case_decide as Hk; [|by left].
  unfold shows. rewrite Hk, Hi. destruct (validKey cfg k); [|by left]. cbn.
  destruct (sh_items w.1 !! k) as [e|] eqn:He; [left|by right]. by rewrite (Hsub e eq_refl).
Qed.

Lemma shows_stats s st k : shows (withStats s st) k = shows s k.
Proof using Type. done. Qed.

Lemma shows_Get s k t s' r :
  ac_StoreConfig (al_cfg s) = cfg -> Get hash s k (rd_now t) (rd_now' t) = (s', r) ->
  ac_StoreConfig (al_cfg s') = cfg
  /\ (forall k', shrinks (shows s) (shows s') k')
  /\ (forall v, r = Ok (Some v) -> shows s k = Some v /\ shows s' k = Some v)
  /\ (rd_now t <= rd_now' t -> r = Ok None -> shows s' k = None)
  /\ exists o, r = Ok o.
Proof using Type.
  intros Hcfg. unfold Get. rewrite Hcfg. destruct (validKey cfg k) eqn:Hv; cbn [negb].
  2: { intros [= <- <-]. split_and!; try done; [by left|intros; unfold shows; by rewrite Hv|by eexists]. }
  destruct (al_shards s !! shardIndex hash s k) as [sh|] eqn:Hsh.
  2: { intros [= <- <-]. split_and!; try done; [by left|intros; unfold shows; by rewrite Hv, Hsh|by eexists]. }
  assert (Hshow : shows s k = en_value <$> sh_items sh !! k) by (unfold shows; by rewrite Hv, Hsh).
  destruct (sh_items sh !! k) as [e|] eqn:He.
  2: { intros [= <- <-]. split_and!; try done; [by left|by eexists]. }
  destruct (expiredAt (rd_now t) (en_expiresAt e)) eqn:Hx.
  2: { intros [= <- <-]. split_and!; try done; [by left|by intros v [= <-]|by eexists]. }
  intros [= <- <-]. unfold expire. cbn [fst]. rewrite He, Z.eqb_refl. cbn [andb]. split_and!; try done.
  - intros k'. apply shows_put_shrinks with sh; [done|]. cbn [fst]. intros e' He'.
    case_match; [|exact He']. rewrite deleteLocked_items in He'. by apply lookup_delete_Some in He' as [_ He'].
  - intros Hle _. rewrite (shows_put _ _ sh) by exact Hsh. rewrite decide_True, Hv by done. cbn [fst].
    replace (expiredAt (rd_now' t) (en_expiresAt e)) with true.
    + by rewrite deleteLocked_items, lookup_delete_eq.
    + unfold expiredAt in *. bool_to_prop. symmetry. apply andb_true_iff. split; [by apply Z.ltb_lt|apply Z.leb_le; lia].
  - by eexists.
Qed.

Lemma shows_SetWithTTL s v ttl t s' r :
  ac_StoreConfig (al_cfg s) = cfg -> SetWithTTL ranged hash s v ttl (rd_now t) = (s', r) ->
  ac_StoreConfig (al_cfg s') = cfg
  /\ match r with
     | Err _ => s' = s
     | Ok _ => exists k, keyOf cfg v = Ok k /\ validateValue cfg v = Ok tt
         /\ (forall k', k' <> k -> shrinks (shows s) (shows s') k')
         /\ ((exists old, shows s k = Some old /\ isStale cfg old v = true /\ shows s' k = Some old)
             \/ (forall old, shows s k = Some old -> isStale cfg old v = false)
                /\ (shows s' k = Some v \/ shows s' k = None))
     end.
Proof using Type.
  intros Hcfg. unfold SetWithTTL. rewrite Hcfg.
  destruct (validateValue cfg v) as [[]|] eqn:Hval; [|by intros [= <- <-]].
  destruct (keyOf cfg v) as [k|] eqn:Hkey; [|by intros [= <- <-]].
  destruct (_ && _); [by intros [= <- <-]|].
  pose proof (keyOf_valid cfg v k Hkey) as Hv.
  destruct (al_shards s !! shardIndex hash s k) as [sh|] eqn:Hsh.
  2: { intros [= <- <-]. split; [done|]. exists k. split_and!; try done; [by left|right].
       unfold shows. rewrite Hv, Hsh. cbn. split; [done|by right]. }
  assert (Hshow : shows s k = en_value <$> sh_items sh !! k) by (unfold shows; by rewrite Hv, Hsh).
  unfold setLocked. rewrite Hcfg. set (size := sizeOf (al_cfg s) v). set (x := expiryOf _ _ _).
  destruct (match sh_items sh !! k with Some o => isStale cfg (en_value o) v | None => false end) eqn:Hst;
    intros [= <- <-]; (split; [done|]); exists k; (split; [done|]); (split; [done|]).
  - split; [intros k' _; by apply shows_put_shrinks with sh|]. left.
    destruct (sh_items sh !! k) as [o|] eqn:Ho; [|done]. exists (en_value o). split_and!; [by rewrite Hshow|done|].
    rewrite (shows_put _ _ sh) by exact Hsh. rewrite decide_True, Hv by done. cbn [fst]. by rewrite Ho.
  - match goal with |- context [evictLocked ranged s ?w] => set (new := w) end.
    pose proof (evictLocked_items s new) as Hsub.
    assert (Hnew : exists g, sh_items new.1 = <[k := mkEntry v x size g]> (sh_items sh))
      by (subst new; destruct (sh_items sh !! k); by eexists).
    destruct Hnew as [g Hnew]. rewrite Hnew in Hsub. split.
    + intros k' Hne. apply shows_put_shrinks with sh; [done|]. intros e He.
      apply (lookup_weaken _ _ _ _ He) in Hsub. by rewrite lookup_insert_ne in Hsub.
    + right. split.
      * intros old. rewrite Hshow. destruct (sh_items sh !! k); [|done]. by intros [= <-].
      * rewrite (shows_put _ _ sh) by exact Hsh. rewrite decide_True, Hv by done.
        destruct (sh_items (evictLocked ranged s new).1 !! k) as [e|] eqn:He; [left|by right].
        apply (lookup_weaken _ _ _ _ He) in Hsub. rewrite lookup_insert_eq in Hsub. by injection Hsub as <-.
Qed.

Lemma shows_Delete s k s' r :
  ac_StoreConfig (al_cfg s) = cfg -> Delete hash s k = (s', r) ->
  ac_StoreConfig (al_cfg s') = cfg /\ forall k', shrinks (shows s) (shows s') k'.
Proof using Type.
  intros Hcfg. unfold Delete. case_match; [intros [= <- _]; split; [done|by left]|].
  destruct (al_shards s !! shardIndex hash s k) as [sh|] eqn:Hsh; [|intros [= <- _]; split; [done|by left]].
  intros [= <- _]. split; [done|]. intros k'. apply shows_put_shrinks with sh; [done|]. intros e.
  pose proof (deleteLocked_items sh (al_stats s) k) as Hd. cbn in Hd |- *. rewrite Hd.
  by intros [_ ?]%lookup_delete_Some.
Qed.

End ClockStore.

Definition ClockStore {K V E} `{Countable K}
    (ranged : gmap K (atomicLocalEntry V) -> list (K * atomicLocalEntry V)) (hash : K -> Z)
    : Store (AtomicLocalStore K V E) K V E := {|
  store_Get s k t := Get hash s k (rd_now t) (rd_now' t);
  store_SetWithTTL s v ttl t := SetWithTTL ranged hash s v ttl (rd_now t);
  store_Delete s k := Delete hash s k
|}.

(** The interface, discharged by the clock cache. *)
Definition ClockStore_lossy {K V E} `{Countable K}
    (ranged : gmap K (atomicLocalEntry V) -> list (K * atomicLocalEntry V)) (hash : K -> Z)
    (cfg : StoreConfig K V E)
    : @LossyStore (AtomicLocalStore K V E) K V E cfg (ClockStore ranged hash) :=
  @Build_LossyStore _ _ _ _ cfg (ClockStore ranged hash)
    (fun s => ac_StoreConfig (al_cfg s) = cfg) (shows hash cfg)
    (shows_Get hash cfg) (shows_SetWithTTL ranged hash cfg) (shows_Delete hash cfg).

(** ** The store *)

Record ReadThroughOptions := mkReadThroughOptions {
  ro_LocalTTL : Z;
  ro_MaxWaitersPerKey : Z;
  ro_IgnoreRemoteError : bool
}.

Record ReadThroughStats := mkReadThroughStats {
  rs_Loads : Z;
  rs_Coalesced : Z;
  rs_LoadErrors : Z;
  rs_RemoteError : Z
}.

Definition count_load (st : ReadThroughStats) : ReadThroughStats :=
  mkReadThroughStats (u64! (rs_Loads st + 1)) (rs_Coalesced st) (rs_LoadErrors st) (rs_RemoteError st).
Definition count_coalesced (st : ReadThroughStats) : ReadThroughStats :=
  mkReadThroughStats (rs_Loads st) (u64! (rs_Coalesced st + 1)) (rs_LoadErrors st) (rs_RemoteError st).
Definition count_loadError (st : ReadThroughStats) : ReadThroughStats :=
  mkReadThroughStats (rs_Loads st) (rs_Coalesced st) (u64! (rs_LoadErrors st + 1)) (rs_RemoteError st).
Definition count_remoteError (st : ReadThroughStats) : ReadThroughStats :=
  mkReadThroughStats (rs_Loads st) (rs_Coalesced st) (rs_LoadErrors st) (u64! (rs_RemoteError st + 1)).

(** [ca_done] is the channel that is closed when the load is over. *)
Record readThroughCall (V E : Type) := mkCall {
  ca_done : bool;
  ca_out : result (cacheError E) (option V);
  ca_waiters : Z
}.

Arguments mkCall {V E}.
Arguments ca_done {V E}.
Arguments ca_out {V E}.
Arguments ca_waiters {V E}.

(** Calls are shared by the goroutines that wait for them: [rt_calls] has their
    places in the heap [rt_heap]. *)
Record ReadThroughStore (S K V E : Type) `{Countable K} := mkReadThroughStore {
  rt_cfg : StoreConfig K V E;
  rt_local : option S;
  rt_remote : bool;
  rt_loader : bool;
  rt_opts : ReadThroughOptions;
  rt_calls : gmap K nat;
  rt_heap : list (readThroughCall V E);
  rt_stats : ReadThroughStats
}.

Arguments mkReadThroughStore {S K V E _ _}.
Arguments rt_cfg {S K V E _ _}.
Arguments rt_local {S K V E _ _}.
Arguments rt_remote {S K V E _ _}.
Arguments rt_loader {S K V E _ _}.
Arguments rt_opts {S K V E _ _}.
Arguments rt_calls {S K V E _ _}.
Arguments rt_heap {S K V E _ _}.
Arguments rt_stats {S K V E _ _}.

(** What the world outside answers at a step: the clock, the second store, the
    loader ([None]: it panicked), and the error of the caller's context if the
    step is the one at which a waiter gives up. *)
Record answers (V E : Type) := mkAnswers {
  an_time : readings;
  an_remoteGet : result E (option V);
  an_remoteSet : option E;
  an_remoteDelete : option E;
  an_loader : option (result E (option V));
  an_cancelled : option E
}.

Arguments mkAnswers {V E}.
Arguments an_time {V E}.
Arguments an_remoteGet {V E}.
Arguments an_remoteSet {V E}.
Arguments an_remoteDelete {V E}.
Arguments an_loader {V E}.
Arguments an_cancelled {V E}.

(** Where a call of the store stands.  The points between [RRemoteGet] and
    [RFinish] are those of the goroutine that loads, which carries its call. *)
Inductive rtPc (K V E : Type) : Type :=
| RGet (key : K)
| RJoin (key : K)
| RWait (key : K) (id : nat)
| RRemoteGet (key : K) (id : nat)
| RKeep (key : K) (id : nat) (value : V)
| RLoad (key : K) (id : nat)
| RRemoteSet (key : K) (id : nat) (value : V)
| RSetLocal (key : K) (id : nat) (value : V)
| RFinish (key : K) (id : nat) (out : result (cacheError E) (option V))
| RGot (key : K) (out : result (cacheError E) (option V))
| RPanicked
| RSet (value : V)
| RSetL (value : V)
| RDone (out : result (cacheError E) unit)
| RDelete (key : K)
| RDeleteL (key : K) (joined : list (cacheError E))
| RDeleted (joined : list (cacheError E)).

Arguments RGet {K V E}.
Arguments RJoin {K V E}.
Arguments RWait {K V E}.
Arguments RRemoteGet {K V E}.
Arguments RKeep {K V E}.
Arguments RLoad {K V E}.
Arguments RRemoteSet {K V E}.
Arguments RSetLocal {K V E}.
Arguments RFinish {K V E}.
Arguments RGot {K V E}.
Arguments RPanicked {K V E}.
Arguments RSet {K V E}.
Arguments RSetL {K V E}.
Arguments RDone {K V E}.
Arguments RDelete {K V E}.
Arguments RDeleteL {K V E}.
Arguments RDeleted {K V E}.

Section ReadThrough.
Context {S K V E : Type} `{Countable K} `{!Store S K V E}.

Implicit Types (w : ReadThroughStore S K V E) (pc : rtPc K V E) (a : answers V E).

Definition NewReadThroughStore (local : option S) (remote loader : bool)
    (cfg : StoreConfig K V E) (opts : ReadThroughOptions) : ReadThroughStore S K V E :=
  mkReadThroughStore cfg local remote loader
    (mkReadThroughOptions (ro_LocalTTL opts)
       (if ro_MaxWaitersPerKey opts <=? 0 then 256 else ro_MaxWaitersPerKey opts)
       (ro_IgnoreRemoteError opts))
    ∅ [] (mkReadThroughStats 0 0 0 0).

Definition withLocal w (local : option S) : ReadThroughStore S K V E :=
  mkReadThroughStore (rt_cfg w) local (rt_remote w) (rt_loader w) (rt_opts w) (rt_calls w)
    (rt_heap w) (rt_stats w).

Definition withCalls w (calls : gmap K nat) (heap : list (readThroughCall V E))
    (stats : ReadThroughStats) : ReadThroughStore S K V E :=
  mkReadThroughStore (rt_cfg w) (rt_local w) (rt_remote w) (rt_loader w) (rt_opts w) calls heap stats.

Definition withCounters w (stats : ReadThroughStats) : ReadThroughStore S K V E :=
  withCalls w (rt_calls w) (rt_heap w) stats.

(** The local stores of the package expire, so [setLocal] sets a TTL. *)
Definition setLocal w (value : V) (t : readings)
    : ReadThroughStore S K V E * result (cacheError E) unit :=
  match rt_local w with
  | None => (w, Ok tt)
  | Some local =>
      let '(local', r) := store_SetWithTTL local value (ro_LocalTTL (rt_opts w)) t in
      (withLocal w (Some local'), r)
  end.

(** [Get] up to [load]. *)
Definition getLocal w (key : K) (t : readings) : ReadThroughStore S K V E * rtPc K V E :=
  if negb (validKey (rt_cfg w) key) then (w, RGot key (Ok None))
  else
    match rt_local w with
    | None => (w, RJoin key)
    | Some local =>
        let '(local', r) := store_Get local key t in
        (withLocal w (Some local'),
         match r with
         | Ok None => RJoin key
         | _ => RGot key r
         end)
    end.

(** The critical section of [load]. *)
Definition joinLoad w (key : K) : ReadThroughStore S K V E * rtPc K V E :=
  match rt_calls w !! key with
  | Some id =>
      match rt_heap w !! id with
      | Some call =>
          if ro_MaxWaitersPerKey (rt_opts w) <=? ca_waiters call
          then (w, RGot key (Err ErrLoadWaitersExceeded))
          else
            (withCalls w (rt_calls w)
               (<[id := mkCall (ca_done call) (ca_out call) (ca_waiters call + 1)]> (rt_heap w))
               (count_coalesced (rt_stats w)), RWait key id)
      | None => (w, RWait key id)
      end
  | None =>
      let id := length (rt_heap w) in
      (withCalls w (<[key := id]> (rt_calls w)) (rt_heap w ++ [mkCall false (Ok None) 0]) (rt_stats w),
       RRemoteGet key id)
  end.

(** [select] on the call and the context: [an_cancelled] says that the second
    case was taken. *)
Definition waitCall w (key : K) (id : nat) a : option (rtPc K V E) :=
  match an_cancelled a with
  | Some e => Some (RGot key (Err (ErrBackend e)))
  | None =>
      match rt_heap w !! id with
      | Some call => if ca_done call then Some (RGot key (ca_out call)) else None
      | None => None
      end
  end.

(** [loadOne] consults the second store. *)
Definition remoteGet w (key : K) (id : nat) a : ReadThroughStore S K V E * rtPc K V E :=
  if rt_remote w then
    match an_remoteGet a with
    | Err e =>
        (withCounters w (count_remoteError (rt_stats w)),
         if negb (ro_IgnoreRemoteError (rt_opts w)) then RFinish key id (Err (ErrBackend e)) else RLoad key id)
    | Ok (Some value) => (w, RKeep key id value)
    | Ok None => (w, RLoad key id)
    end
  else (w, RLoad key id).

Definition loadValue w (key : K) (id : nat) a : ReadThroughStore S K V E * rtPc K V E :=
  if rt_loader w then
    (withCounters w (count_load (rt_stats w)),
     match an_loader a with
     | None => RPanicked
     | Some (Err e) => RFinish key id (Err (ErrBackend e))
     | Some (Ok None) => RFinish key id (Ok None)
     | Some (Ok (Some value)) => RRemoteSet key id value
     end)
  else (w, RFinish key id (Ok None)).

(** [remote.Set], whose error may be ignored. *)
Definition remoteSetFails w a : option E :=
  if rt_remote w
  then (if ro_IgnoreRemoteError (rt_opts w) then None else an_remoteSet a)
  else None.

(** The second critical section of [load]. *)
Definition finishLoad w (key : K) (id : nat) (out : result (cacheError E) (option V))
    : ReadThroughStore S K V E :=
  withCalls w (delete key (rt_calls w))
    (match rt_heap w !! id with
     | Some call => <[id := mkCall true out (ca_waiters call)]> (rt_heap w)
     | None => rt_heap w
     end)
    (if is_ok out then rt_stats w else count_loadError (rt_stats w)).

Definition setStart w (value : V) a : rtPc K V E :=
  match validateValue (rt_cfg w) value with
  | Err e => RDone (Err e)
  | Ok _ =>
      match keyOf (rt_cfg w) value with
      | Err e => RDone (Err e)
      | Ok _ =>
          match remoteSetFails w a with
          | Some e => RDone (Err (ErrBackend e))
          | None => RSetL value
          end
      end
  end.

Definition deleteStart w (key : K) a : rtPc K V E :=
  if negb (validKey (rt_cfg w) key) then RDeleted []
  else RDeleteL key
         (if rt_remote w
          then match an_remoteDelete a with Some e => [ErrBackend e] | None => [] end
          else []).

(** A step of one goroutine; [None] when it has to wait. *)
Definition rtStep w pc a : option (ReadThroughStore S K V E * rtPc K V E) :=
  match pc with
  | RGet key => Some (getLocal w key (an_time a))
  | RJoin key => Some (joinLoad w key)
  | RWait key id => pair w <$> waitCall w key id a
  | RRemoteGet key id => Some (remoteGet w key id a)
  | RKeep key id value =>
      Some ((setLocal w value (an_time a)).1, RFinish key id (Ok (Some value)))
  | RLoad key id => Some (loadValue w key id a)
  | RRemoteSet key id value =>
      Some (w, match remoteSetFails w a with
               | Some e => RFinish key id (Err (ErrBackend e))
               | None => RSetLocal key id value
               end)
  | RSetLocal key id value =>
      let '(w', r) := setLocal w value (an_time a) in
      Some (w', RFinish key id match r with Ok _ => Ok (Some value) | Err e => Err e end)
  | RFinish key id out => Some (finishLoad w key id out, RGot key out)
  | RSet value => Some (w, setStart w value a)
  | RSetL value => let '(w', r) := setLocal w value (an_time a) in Some (w', RDone r)
  | RDelete key => Some (w, deleteStart w key a)
  | RDeleteL key joined =>
      Some match rt_local w with
           | None => (w, RDeleted joined)
           | Some local =>
               let '(local', r) := store_Delete local key in
               (withLocal w (Some local'),
                RDeleted (joined ++ match r with Ok _ => [] | Err e => [e] end))
           end
  | RGot _ _ | RPanicked | RDone _ | RDeleted _ => None
  end.

Definition ReadThroughStore_Stats w : ReadThroughStats := rt_stats w.

(** ** Goroutines *)

(** A schedule starts calls and lets goroutines take steps. *)
Inductive rtEvent : Type :=
| Call (pc : rtPc K V E)
| StepOf (i : nat) (a : answers V E).

(** The points at which the methods start. *)
Definition starts pc : bool :=
  match pc with RGet _ | RSet _ | RDelete _ => true | _ => false end.

Definition rtExec (st : ReadThroughStore S K V E * list (rtPc K V E)) (e : rtEvent)
    : ReadThroughStore S K V E * list (rtPc K V E) :=
  match e with
  | Call pc => if starts pc then (st.1, st.2 ++ [pc]) else st
  | StepOf i a =>
      match st.2 !! i with
      | Some pc =>
          match rtStep st.1 pc a with
          | Some (w', pc') => (w', <[i := pc']> st.2)
          | None => st
          end
      | None => st
      end
  end.

Definition rtRun (w : ReadThroughStore S K V E) (es : list rtEvent)
    : ReadThroughStore S K V E * list (rtPc K V E) :=
  foldl rtExec (w, []) es.

End ReadThrough.

Arguments rtEvent K V E : clear implicits.

(** ** Loads are coalesced *)

Section Flight.
Context {S K V E : Type} `{Countable K} `{!Store S K V E}.

Implicit Types (w : ReadThroughStore S K V E) (pc : rtPc K V E) (pool : list (rtPc K V E)) (a : answers V E).

(** The key and the call of a goroutine that loads. *)
Definition leads pc : option (K * nat) :=
  match pc with
  | RRemoteGet key id | RKeep key id _ | RLoad key id | RRemoteSet key id _
  | RSetLocal key id _ | RFinish key id _ => Some (key, id)
  | _ => None
  end.

Definition leader pool (i : nat) (key : K) (id : nat) : Prop :=
  exists pc, pool !! i = Some pc /\ leads pc = Some (key, id).

Record flight_ok w pool : Prop := {
  fo_max : 0 < ro_MaxWaitersPerKey (rt_opts w);
  fo_leader : forall i key id, leader pool i key id ->
    rt_calls w !! key = Some id /\ exists c, rt_heap w !! id = Some c /\ ca_done c = false;
  fo_calls : forall key id, rt_calls w !! key = Some id -> exists i, leader pool i key id;
  fo_unique : forall i j key key' id, leader pool i key id -> leader pool j key' id -> i = j;
  fo_wait : forall i key id, pool !! i = Some (RWait key id) ->
    exists c, rt_heap w !! id = Some c
      /\ if ca_done c then exists j, pool !! j = Some (RGot key (ca_out c)) else exists j, leader pool j key id;
  fo_heap : forall id c, rt_heap w !! id = Some c ->
    0 <= ca_waiters c <= ro_MaxWaitersPerKey (rt_opts w)
    /\ if ca_done c then exists j key, pool !! j = Some (RGot key (ca_out c))
       else exists j key, leader pool j key id
}.

Definition same_calls w w' : Prop :=
  rt_calls w' = rt_calls w /\ rt_heap w' = rt_heap w /\ rt_opts w' = rt_opts w.

Lemma leader_insert pool i pc pc' j key id :
  pool !! i = Some pc -> leads pc' = leads pc ->
  leader (<[i := pc']> pool) j key id <-> leader pool j key id.
Proof using Type.
  intros Hi Hl. unfold leader. destruct (decide (i = j)) as [<-|Hne].
  - rewrite list_lookup_insert_eq by (by eapply lookup_lt_Some). split.
    + intros (p & [= <-] & Hp). exists pc. by rewrite <-Hl.
    + intros (p & Hp & Hlead). exists pc'. split; [done|]. rewrite Hi in Hp. injection Hp as <-. by rewrite Hl.
  - by rewrite list_lookup_insert_ne.
Qed.

(** Steps that leave the calls alone. *)
Lemma flight_same w w' pool i pc pc' :
  flight_ok w pool -> pool !! i = Some pc -> same_calls w w' -> leads pc' = leads pc ->
  (forall key out, pc <> RGot key out) -> (forall key id, pc' <> RWait key id) ->
  flight_ok w' (<[i := pc']> pool).
Proof using Type.
  intros [] Hi (Hc & Hh & Ho) Hl Hgot Hwait.
  assert (Hlead : forall j key id, leader (<[i := pc']> pool) j key id <-> leader pool j key id)
    by (intros; by eapply leader_insert).
  constructor; rewrite ?Hc, ?Hh, ?Ho; try done.
  - intros j key id. rewrite Hlead. apply fo_leader0.
  - intros key id [j Hj]%fo_calls0. exists j. by apply Hlead.
  - intros j j' key key' id. rewrite !Hlead. apply fo_unique0.
  - intros j key0 id. rewrite list_lookup_insert_Some. intros [(_ & Hw & _)|[_ Hw]]; [by destruct (Hwait key0 id)|].
    destruct (fo_wait0 _ _ _ Hw) as (c & Hc' & Hd). exists c. split; [done|]. destruct (ca_done c), Hd as [j' Hj']; exists j'.
    + rewrite list_lookup_insert_ne; [done|]. intros <-. rewrite Hi in Hj'. injection Hj' as ->. by destruct (Hgot key0 (ca_out c)).
    + by apply Hlead.
  - intros id c Hid. destruct (fo_heap0 id c Hid) as [Hb Hd]. split; [done|]. destruct (ca_done c).
    + destruct Hd as (j & key1 & Hj). exists j, key1. rewrite list_lookup_insert_ne; [done|]. intros <-.
      rewrite Hi in Hj. injection Hj as ->. by destruct (Hgot key1 (ca_out c)).
    + destruct Hd as (j & key & Hj). exists j, key. by apply Hlead.
Qed.

Lemma flight_join_new w pool i key :
  flight_ok w pool -> pool !! i = Some (RJoin key) -> rt_calls w !! key = None ->
  flight_ok (withCalls w (<[key := length (rt_heap w)]> (rt_calls w))
               (rt_heap w ++ [mkCall false (Ok None) 0]) (rt_stats w))
    (<[i := RRemoteGet key (length (rt_heap w))]> pool).
Proof using Type.
  intros [] Hi Hnone. set (id0 := length (rt_heap w)).
  assert (Hlt : (i < length pool)%nat) by (by eapply lookup_lt_Some).
  assert (Hlead : forall j k id, leader (<[i := RRemoteGet key id0]> pool) j k id <->
    (j = i /\ k = key /\ id = id0) \/ (j <> i /\ leader pool j k id)).
  { intros j k id. unfold leader. destruct (decide (j = i)) as [->|Hne].
    - rewrite list_lookup_insert_eq by done. split; [intros (p & [= <-] & [= <- <-]); auto|].
      intros [(_ & -> & ->)|[[] _]]; [by eexists|done].
    - rewrite list_lookup_insert_ne by done. naive_solver. }
  assert (Hold : forall j k id, leader pool j k id -> (id < id0)%nat /\ j <> i).
  { intros j k id Hj. split.
    - destruct (fo_leader0 _ _ _ Hj) as (_ & c & Hc & _). by eapply lookup_lt_Some.
    - intros ->. destruct Hj as (p & Hp & Hlp). rewrite Hi in Hp. by injection Hp as <-. }
  constructor; cbn [withCalls rt_calls rt_heap rt_opts]; [done|..].
  - intros j k id [(-> & -> & ->)|[Hne Hj]]%Hlead.
    + rewrite lookup_insert_eq. split; [done|]. eexists. by rewrite list_lookup_middle.
    + destruct (fo_leader0 _ _ _ Hj) as (Hcall & c & Hc & Hd). split.
      * rewrite lookup_insert_ne; [done|]. intros <-. congruence.
      * exists c. by rewrite (lookup_app_l_Some _ _ _ _ Hc).
  - intros k id. rewrite lookup_insert_Some. intros [[<- <-]|[Hne Hc]].
    + exists i. apply Hlead. auto.
    + destruct (fo_calls0 _ _ Hc) as [j Hj]. exists j. apply Hlead. right. split; [|done]. by eapply Hold.
  - intros j j' k k' id [(-> & -> & ->)|[Hne Hj]]%Hlead [(-> & -> & Hid)|[Hne' Hj']]%Hlead; try done.
    + apply Hold in Hj' as [? _]. lia.
    + subst. apply Hold in Hj as [? _]. lia.
    + by eapply fo_unique0.
  - intros j key0 id. rewrite list_lookup_insert_Some. intros [(_ & ? & _)|[_ Hw]]; [done|].
    destruct (fo_wait0 _ _ _ Hw) as (c & Hc & Hd). exists c. rewrite (lookup_app_l_Some _ _ _ _ Hc). split; [done|].
    destruct (ca_done c), Hd as [j' Hj']; exists j'.
    + rewrite list_lookup_insert_ne; [done|]. intros <-. congruence.
    + apply Hlead. right. split; [by eapply Hold|done].
  - intros id c Hid. apply lookup_app_Some in Hid as [Hid|[Hge Hid]].
    + destruct (fo_heap0 _ _ Hid) as [Hb Hd]. split; [done|]. destruct (ca_done c).
      * destruct Hd as (j & key1 & Hj). exists j, key1. rewrite list_lookup_insert_ne; [done|]. intros <-. congruence.
      * destruct Hd as (j & k & Hj). exists j, k. apply Hlead. right. split; [by eapply Hold|done].
    + apply list_lookup_singleton_Some in Hid as [Hz <-]. cbn. split; [lia|]. exists i, key. apply Hlead.
      left. split_and!; [done|done|]. subst id0. lia.
Qed.

Lemma flight_join_wait w pool i key id c :
  flight_ok w pool -> pool !! i = Some (RJoin key) -> rt_heap w !! id = Some c ->
  ca_done c = false -> (exists j, leader pool j key id) -> ca_waiters c < ro_MaxWaitersPerKey (rt_opts w) ->
  flight_ok (withCalls w (rt_calls w) (<[id := mkCall (ca_done c) (ca_out c) (ca_waiters c + 1)]> (rt_heap w))
               (count_coalesced (rt_stats w)))
    (<[i := RWait key id]> pool).
Proof using Type.
  intros [] Hi Hc Hnd Hled Hlt.
  assert (Hlead : forall j k id', leader (<[i := RWait key id]> pool) j k id' <-> leader pool j k id')
    by (intros; by eapply leader_insert).
  assert (Hin : forall id' c0, rt_heap w !! id' = Some c0 -> exists c1,
    <[id := mkCall (ca_done c) (ca_out c) (ca_waiters c + 1)]> (rt_heap w) !! id' = Some c1
    /\ ca_done c1 = ca_done c0 /\ ca_out c1 = ca_out c0).
  { intros id' c0 Hs. destruct (decide (id = id')) as [<-|Hne].
    - rewrite list_lookup_insert_eq by (by eapply lookup_lt_Some). eexists. split; [done|]. cbn. by simplify_eq.
    - exists c0. by rewrite list_lookup_insert_ne. }
  constructor; cbn [withCalls rt_calls rt_heap rt_opts]; [done|..].
  - intros j k id' Hj%Hlead. destruct (fo_leader0 _ _ _ Hj) as (Hcall & c' & Hc' & Hd). split; [done|].
    destruct (decide (id = id')) as [<-|Hne].
    + rewrite list_lookup_insert_eq by (by eapply lookup_lt_Some). eexists. split; [done|]. cbn. congruence.
    + exists c'. by rewrite list_lookup_insert_ne.
  - intros k id' [j Hj]%fo_calls0. exists j. by apply Hlead.
  - intros j j' k k' id'. rewrite !Hlead. apply fo_unique0.
  - intros j key0 id'. rewrite list_lookup_insert_Some. intros [(_ & [= <- <-] & _)|[_ Hw]].
    + destruct (Hin id c Hc) as (c1 & Hc1 & Hd1 & _). exists c1. split; [done|]. rewrite Hd1, Hnd.
      destruct Hled as [j' Hj']. exists j'. by apply Hlead.
    + destruct (fo_wait0 _ _ _ Hw) as (c0 & Hc0 & Hd). destruct (Hin id' c0 Hc0) as (c1 & Hc1 & Hd1 & Ho1). exists c1.
      split; [done|]. rewrite Hd1, Ho1. destruct (ca_done c0), Hd as [j' Hj']; exists j'; [|by apply Hlead].
      rewrite list_lookup_insert_ne; [done|]. intros <-. congruence.
  - intros id' c' Hid. assert (Hold : exists c0, rt_heap w !! id' = Some c0 /\ ca_done c' = ca_done c0
      /\ ca_out c' = ca_out c0 /\ 0 <= ca_waiters c' <= ro_MaxWaitersPerKey (rt_opts w)).
    { apply list_lookup_insert_Some in Hid as [(<- & <- & _)|[Hne Hid]].
      - exists c. split_and!; [done..| |]; cbn; destruct (fo_heap0 _ _ Hc); lia.
      - exists c'. destruct (fo_heap0 _ _ Hid). split_and!; try done; lia. }
    destruct Hold as (c0 & Hc0 & -> & -> & Hb). split; [done|]. destruct (fo_heap0 _ _ Hc0) as [_ Hd].
    destruct (ca_done c0).
    + destruct Hd as (j & key1 & Hj). exists j, key1. rewrite list_lookup_insert_ne; [done|]. intros <-. congruence.
    + destruct Hd as (j & k & Hj). exists j, k. by apply Hlead.
Qed.

Lemma flight_finish w pool i key id out :
  flight_ok w pool -> pool !! i = Some (RFinish key id out) ->
  flight_ok (finishLoad w key id out) (<[i := RGot key out]> pool).
Proof using Type.
  intros [] Hi. assert (Hown : leader pool i key id) by (by eexists).
  destruct (fo_leader0 _ _ _ Hown) as (Hcall & c & Hc & Hd).
  assert (Hlen : (i < length pool)%nat) by (by eapply lookup_lt_Some).
  assert (Hlead : forall j k id', leader (<[i := RGot key out]> pool) j k id' <-> j <> i /\ leader pool j k id').
  { intros j k id'. unfold leader. destruct (decide (j = i)) as [->|Hne].
    - rewrite list_lookup_insert_eq by done. split; [by intros (p & [= <-] & ?)|naive_solver].
    - rewrite list_lookup_insert_ne by done. naive_solver. }
  assert (Hother : forall j k id', leader pool j k id' -> j <> i -> id' <> id /\ k <> key).
  { intros j k id' Hj Hne. split.
    - intros ->. by apply Hne, (fo_unique0 _ _ _ _ _ Hj Hown).
    - intros ->. destruct (fo_leader0 _ _ _ Hj) as [Hk _]. rewrite Hcall in Hk. injection Hk as <-.
      by apply Hne, (fo_unique0 _ _ _ _ _ Hj Hown). }
  unfold finishLoad. rewrite Hc. constructor; cbn [withCalls rt_calls rt_heap rt_opts]; [done|..].
  - intros j k id' [Hne Hj]%Hlead. destruct (Hother _ _ _ Hj Hne) as [Hid Hk].
    destruct (fo_leader0 _ _ _ Hj) as (Hcall' & c' & Hc' & Hd'). split; [by rewrite lookup_delete_ne|].
    exists c'. by rewrite list_lookup_insert_ne.
  - intros k id' [Hk Hcall']%lookup_delete_Some. destruct (fo_calls0 _ _ Hcall') as [j Hj]. exists j.
    apply Hlead. split; [|done]. intros ->. destruct Hj as (p & Hp & Hl). rewrite Hi in Hp.
    injection Hp as <-. cbn in Hl. congruence.
  - intros j j' k k' id' [_ Hj]%Hlead [_ Hj']%Hlead. by eapply fo_unique0.
  - intros j key0 id'. rewrite list_lookup_insert_Some. intros [(_ & ? & _)|[_ Hw]]; [done|].
    destruct (fo_wait0 _ _ _ Hw) as (c0 & Hc0 & Hd0). destruct (decide (id = id')) as [<-|Hne].
    + rewrite list_lookup_insert_eq by (by eapply lookup_lt_Some). eexists. split; [done|]. cbn. exists i.
      assert (c0 = c) as -> by congruence. rewrite Hd in Hd0. destruct Hd0 as [j' Hj'].
      assert (j' = i) as -> by (by eapply fo_unique0). destruct Hj' as (p & Hp & Hl). rewrite Hi in Hp.
      injection Hp as <-. cbn in Hl. injection Hl as <-. by apply list_lookup_insert_eq.
    + exists c0. rewrite list_lookup_insert_ne by done. split; [done|]. destruct (ca_done c0), Hd0 as [j' Hj']; exists j'.
      * rewrite list_lookup_insert_ne; [done|]. intros <-. congruence.
      * apply Hlead. split; [|done]. intros ->. by destruct Hj' as (p & Hp & Hl); simplify_eq/=.
  - intros id' c' [(<- & <- & _)|[Hne Hid]]%list_lookup_insert_Some.
    + cbn. split; [by destruct (fo_heap0 _ _ Hc)|]. exists i, key. by rewrite list_lookup_insert_eq.
    + destruct (fo_heap0 _ _ Hid) as [Hb Hd']. split; [done|]. destruct (ca_done c').
      * destruct Hd' as (j & key1 & Hj). exists j, key1. rewrite list_lookup_insert_ne; [done|]. intros <-. congruence.
      * destruct Hd' as (j & k & Hj). exists j, k. apply Hlead. split; [|done]. intros ->.
        destruct Hj as (p & Hp & Hl). rewrite Hi in Hp. injection Hp as <-. cbn in Hl. congruence.
Qed.

Lemma setLocal_same w v t : same_calls w (setLocal w v t).1.
Proof using Type. unfold setLocal. destruct (rt_local w); [|done]. by destruct (store_SetWithTTL _ _ _ _). Qed.

(** A step starts or joins a load, ends one, or leaves the calls alone. *)
Lemma rtStep_cases w pc a w' pc' :
  (forall key id, pc = RLoad key id -> an_loader a <> None) -> rtStep w pc a = Some (w', pc') ->
  (exists key, pc = RJoin key /\ (w', pc') = joinLoad w key)
  \/ (exists key id out, pc = RFinish key id out /\ w' = finishLoad w key id out /\ pc' = RGot key out)
  \/ (same_calls w w' /\ leads pc' = leads pc /\ (forall key out, pc <> RGot key out)
      /\ (forall key id, pc' <> RWait key id)).
Proof using Type.
  intros Hload Hstep.
  destruct pc as [key|key|key id|key id|key id v|key id|key id v|key id v|key id out|key out| |v|v|out|key|key es|es];
    cbn [rtStep] in Hstep; try done;
    [| left; injection Hstep as Hstep; by exists key
     | | | | | | | right; left; injection Hstep as <- <-; by exists key, id, out | ..]; right; right.
  - unfold getLocal in Hstep. destruct (negb _); [by injection Hstep as <- <-|].
    destruct (rt_local w); [|by injection Hstep as <- <-].
    destruct (store_Get _ _ _) as [l' r]. injection Hstep as <- <-. by destruct r as [[]|].
  - unfold waitCall in Hstep. destruct (an_cancelled a); [by injection Hstep as <- <-|].
    destruct (rt_heap w !! id) as [c|]; [|done]. destruct (ca_done c); [|done]. by injection Hstep as <- <-.
  - unfold remoteGet in Hstep. destruct (rt_remote w); [|by injection Hstep as <- <-].
    destruct (an_remoteGet a) as [[v|]|e]; injection Hstep as <- <-; [done..|]. by destruct (negb _).
  - injection Hstep as <- <-. split; [apply setLocal_same|done].
  - unfold loadValue in Hstep. destruct (rt_loader w); injection Hstep as <- <-; [|done].
    specialize (Hload key id eq_refl). by destruct (an_loader a) as [[[v|]|e]|].
  - injection Hstep as <- <-. by destruct (remoteSetFails w a).
  - pose proof (setLocal_same w v (an_time a)) as Hs. destruct (setLocal w v _) as [w1 r]. by injection Hstep as <- <-.
  - injection Hstep as <- <-. unfold setStart. repeat case_match; done.
  - pose proof (setLocal_same w v (an_time a)) as Hs. destruct (setLocal w v _) as [w1 r]. by injection Hstep as <- <-.
  - injection Hstep as <- <-. unfold deleteStart. by case_match.
  - destruct (rt_local w); [|by injection Hstep as <- <-].
    destruct (store_Delete _ _) as [l' r]. by injection Hstep as <- <-.
Qed.

Lemma flight_join w pool i key :
  flight_ok w pool -> pool !! i = Some (RJoin key) ->
  flight_ok (joinLoad w key).1 (<[i := (joinLoad w key).2]> pool).
Proof using Type.
  intros Hok Hi. unfold joinLoad. destruct (rt_calls w !! key) as [id|] eqn:Hcall; [|by apply flight_join_new].
  destruct (fo_calls _ _ Hok _ _ Hcall) as [j Hj]. destruct (fo_leader _ _ Hok _ _ _ Hj) as (_ & c & Hc & Hd).
  rewrite Hc. destruct (Z.leb_spec (ro_MaxWaitersPerKey (rt_opts w)) (ca_waiters c)).
  - by eapply flight_same.
  - eapply flight_join_wait; [done..|by exists j|done].
Qed.

Lemma rtStep_flight w pool i pc a w' pc' :
  flight_ok w pool -> pool !! i = Some pc -> (forall key id, pc = RLoad key id -> an_loader a <> None) ->
  rtStep w pc a = Some (w', pc') -> flight_ok w' (<[i := pc']> pool).
Proof using Type.
  intros Hok Hi Hload Hstep.
  destruct (rtStep_cases _ _ _ _ _ Hload Hstep) as [(key & -> & Hj)|[(key & id & out & -> & -> & ->)|(? & ? & ? & ?)]].
  - pose proof (flight_join w pool i key Hok Hi) as Hf. by rewrite <-Hj in Hf.
  - by apply flight_finish.
  - by eapply flight_same.
Qed.

(** No loader panics. *)
Definition sound_event (e : rtEvent K V E) : Prop :=
  match e with Call _ => True | StepOf _ a => an_loader a <> None end.

Lemma leader_app pool pc i key id :
  leads pc = None -> leader (pool ++ [pc]) i key id <-> leader pool i key id.
Proof using Type.
  intros Hl. unfold leader. split.
  - intros (p & [Hp|[Hge Hp]]%lookup_app_Some & Hlp); [by exists p|].
    apply list_lookup_singleton_Some in Hp as [_ <-]. congruence.
  - intros (p & Hp & Hlp). exists p. split; [|done]. by apply lookup_app_l_Some.
Qed.

Lemma flight_begin w pool pc :
  flight_ok w pool -> leads pc = None -> (forall key id, pc <> RWait key id) -> flight_ok w (pool ++ [pc]).
Proof using Type.
  intros [] Hl Hwait. constructor; try done.
  - intros i key id. rewrite leader_app by done. apply fo_leader0.
  - intros key id [i Hi]%fo_calls0. exists i. by apply leader_app.
  - intros i j key key' id. rewrite !leader_app by done. apply fo_unique0.
  - intros i key id [Hw|[_ Hw]]%lookup_app_Some.
    { destruct (fo_wait0 _ _ _ Hw) as (c & Hc & Hd). exists c. split; [done|].
      destruct (ca_done c), Hd as [j' Hj']; exists j'; [by apply lookup_app_l_Some|by apply leader_app]. }
    apply list_lookup_singleton_Some in Hw as [_ Hw]. by destruct (Hwait key id).
  - intros id c Hc. destruct (fo_heap0 _ _ Hc) as [Hb Hd]. split; [done|]. destruct (ca_done c).
    + destruct Hd as (j & key1 & Hj). exists j, key1. by apply lookup_app_l_Some.
    + destruct Hd as (j & key & Hj). exists j, key. by apply leader_app.
Qed.

Lemma rtExec_flight st e : flight_ok st.1 st.2 -> sound_event e -> flight_ok (rtExec st e).1 (rtExec st e).2.
Proof using Type.
  destruct st as [w pool]. intros Hok He. destruct e as [pc|i a]; cbn [rtExec fst snd].
  - destruct (starts pc) eqn:Hs; [|done]. by apply flight_begin; [|destruct pc..].
  - destruct (pool !! i) as [pc|] eqn:Hi; [|done]. destruct (rtStep w pc a) as [[w' pc']|] eqn:Hstep; [|done].
    eapply rtStep_flight; [done|done|by intros ?? _|done].
Qed.

Lemma rtRun_flight w es :
  0 < ro_MaxWaitersPerKey (rt_opts w) -> rt_calls w = ∅ -> rt_heap w = [] -> Forall sound_event es ->
  flight_ok (rtRun w es).1 (rtRun w es).2.
Proof using Type.
  intros Hmax Hc Hh Hes. unfold rtRun.
  assert (Hst : flight_ok (w, @nil (rtPc K V E)).1 (w, @nil (rtPc K V E)).2).
  { cbn [fst snd]. constructor; rewrite ?Hc, ?Hh; try done; try set_solver.
    - intros i key id (pc & Hp & _). done.
    - intros i j key key' id (pc & Hp & _). done. }
  revert Hst. generalize (w, @nil (rtPc K V E)). induction Hes as [|e es He Hes IH]; intros st Hst; [done|].
  cbn [foldl]. apply IH. by apply rtExec_flight.
Qed.

End Flight.

(** ** What is cached stays good and never gets older *)

Section Values.
Context {S K V E : Type} `{Countable K} `{!Store S K V E}.
Context (cfg : StoreConfig K V E) `{!LossyStore cfg}.
Context (good : K -> V -> Prop) (good_key : forall k v, good k v -> keyOf cfg v = Ok k).

Implicit Types (w : ReadThroughStore S K V E) (pc : rtPc K V E) (pool : list (rtPc K V E)) (a : answers V E).

Definition shown w (k : K) : option V :=
  match rt_local w with Some local => held local k | None => None end.

Record local_ok w : Prop := {
  lo_cfg : rt_cfg w = cfg;
  lo_configured : forall local, rt_local w = Some local -> configured local;
  lo_good : forall k v, shown w k = Some v -> good k v
}.

(** Between two states a key is forgotten, kept, or replaced by a value that is
    not stale. *)
Definition evolves (before after : K -> option V) : Prop :=
  forall k, shrinks before after k
    \/ exists v, after k = Some v /\ forall old, before k = Some old -> isStale cfg old v = false.

Lemma evolves_refl f : evolves f f.
Proof using Type. intros k. left. by left. Qed.

Lemma shrinks_evolves f g : (forall k, shrinks f g k) -> evolves f g.
Proof using Type. intros Hs k. left. apply Hs. Qed.

Lemma local_ok_shrinks w local local' :
  local_ok w -> rt_local w = Some local -> configured local' ->
  (forall k, shrinks (held local) (held local') k) ->
  local_ok (withLocal w (Some local')) /\ evolves (shown w) (shown (withLocal w (Some local'))).
Proof using Type.
  intros [] Hl Hconf Hs.
  assert (Hsh : forall k, shrinks (shown w) (shown (withLocal w (Some local'))) k)
    by (intros k; unfold shown, shrinks; cbn; rewrite Hl; apply Hs).
  split; [|by apply shrinks_evolves]. constructor; [done|by intros ? [= <-]|].
  intros k v Hv. destruct (Hsh k) as [Heq|Heq]; rewrite Heq in Hv; [by apply lo_good0|done].
Qed.

Lemma setLocal_ok w v t :
  local_ok w -> (forall k, keyOf cfg v = Ok k -> validateValue cfg v = Ok tt -> good k v) ->
  local_ok (setLocal w v t).1 /\ evolves (shown w) (shown (setLocal w v t).1).
Proof using Type.
  intros Hok Hv. unfold setLocal. destruct (rt_local w) as [local|] eqn:Hl.
  2: { split; [done|apply evolves_refl]. }
  destruct (store_SetWithTTL local v (ro_LocalTTL (rt_opts w)) t) as [local' r] eqn:Hset. cbn [fst].
  pose proof (lo_configured _ Hok local Hl) as Hconf.
  destruct (held_SetWithTTL (cfg := cfg) _ _ _ _ _ _ Hconf Hset) as [Hconf' Hr].
  destruct r as [u|e].
  2: { subst local'. apply (local_ok_shrinks w local); [done..|]. intros k. by left. }
  destruct Hr as (k & Hk & Hval & Hothers & Hown). destruct Hok.
  assert (Hcase : forall k', shrinks (held local) (held local') k'
    \/ held local' k' = Some v /\ k' = k /\ forall old, held local k' = Some old -> isStale cfg old v = false).
  { intros k'. destruct (decide (k' = k)) as [->|Hne]; [|by left; apply Hothers].
    destruct Hown as [(old & Ho & _ & Ho')|[Hfresh [Hnew|Hgone]]].
    - left. left. congruence.
    - right. done.
    - left. by right. }
  assert (Hshown : shown w = held local) by (unfold shown; by rewrite Hl).
  split.
  - constructor; [done|by intros ? [= <-]|]. cbn. intros k' v' Hv'. unfold shown in Hv'. cbn in Hv'.
    destruct (Hcase k') as [[Heq|Heq]|(Heq & -> & _)]; rewrite Heq in Hv'.
    + apply lo_good0. by rewrite Hshown.
    + done.
    + injection Hv' as <-. by apply Hv.
  - intros k'. rewrite Hshown. unfold shown at 1 2. cbn.
    destruct (Hcase k') as [?|(? & -> & ?)]; [by left|right; by exists v].
Qed.

(** What goroutines carry is good too. *)
Definition out_good (key : K) (out : result (cacheError E) (option V)) : Prop :=
  forall v, out = Ok (Some v) -> good key v.

Definition pc_good pc : Prop :=
  match pc with
  | RKeep key _ v | RRemoteSet key _ v | RSetLocal key _ v => good key v
  | RFinish key _ out | RGot key out => out_good key out
  | RSet v | RSetL v => forall k, keyOf cfg v = Ok k -> validateValue cfg v = Ok tt -> good k v
  | _ => True
  end.

(** The second store and the loader answer with good values. *)
Definition sound_answer pc a : Prop :=
  match pc with
  | RRemoteGet key _ => forall v, an_remoteGet a = Ok (Some v) -> good key v
  | RLoad key _ => an_loader a <> None /\ forall v, an_loader a = Some (Ok (Some v)) -> good key v
  | _ => True
  end.

Lemma rtStep_local w pc a w' pc' :
  local_ok w -> pc_good pc -> sound_answer pc a ->
  (forall key id c, pc = RWait key id -> rt_heap w !! id = Some c -> ca_done c = true -> out_good key (ca_out c)) ->
  rtStep w pc a = Some (w', pc') ->
  local_ok w' /\ evolves (shown w) (shown w') /\ pc_good pc'.
Proof using good_key.
  intros Hok Hpc Ha Hwait Hstep.
  assert (Hidle : forall w1, shown w1 = shown w -> rt_cfg w1 = rt_cfg w -> rt_local w1 = rt_local w ->
    local_ok w1 /\ evolves (shown w) (shown w1)).
  { intros w1 Hs Hc Hl. rewrite Hs. split; [|apply evolves_refl]. destruct Hok.
    constructor; [congruence|by rewrite Hl|by rewrite Hs]. }
  assert (Hset : forall v t, (forall k, keyOf cfg v = Ok k -> validateValue cfg v = Ok tt -> good k v) ->
    local_ok (setLocal w v t).1 /\ evolves (shown w) (shown (setLocal w v t).1)) by (intros; by apply setLocal_ok).
  assert (Hkeyed : forall key v, good key v -> forall k, keyOf cfg v = Ok k -> validateValue cfg v = Ok tt -> good k v).
  { intros key v Hg k Hk _. rewrite (good_key _ _ Hg) in Hk. by injection Hk as <-. }
  destruct pc as [key|key|key id|key id|key id v|key id|key id v|key id v|key id out|key out| |v|v|out|key|key es|es];
    cbn [rtStep pc_good sound_answer] in *; try done.
  - unfold getLocal in Hstep. destruct (negb _).
    { injection Hstep as <- <-. destruct (Hidle w); [done..|]. split_and!; [done..|]. by intros v. }
    destruct (rt_local w) as [local|] eqn:Hl; [|injection Hstep as <- <-; by destruct (Hidle w)].
    destruct (store_Get local key (an_time a)) as [local' r] eqn:Hget. injection Hstep as <- <-.
    destruct (held_Get (cfg := cfg) _ _ _ _ _ (lo_configured _ Hok _ Hl) Hget) as (Hconf & Hsh & Hv & _ & _).
    destruct (local_ok_shrinks w local local' Hok Hl Hconf Hsh) as [Hok' Hev]. split_and!; [done..|].
    destruct r as [[v|]|e]; cbn; [|done|by intros ?].
    intros v' [= <-]. apply (lo_good _ Hok). unfold shown. rewrite Hl. by apply Hv.
  - unfold joinLoad in Hstep. destruct (rt_calls w !! key) as [id|].
    + destruct (rt_heap w !! id) as [c|]; [|injection Hstep as <- <-; by destruct (Hidle w)].
      destruct (_ <=? _); injection Hstep as <- <-;
        (edestruct Hidle as [??]; [| | |split_and!; [done..|]]; [done..|]); by try intros ?.
    + injection Hstep as <- <-. edestruct Hidle as [??]; [| | |split_and!; [done..|]]; done.
  - unfold waitCall in Hstep. destruct (Hidle w) as [??]; [done..|]. destruct (an_cancelled a).
    + injection Hstep as <- <-. split_and!; [done..|]. by intros ?.
    + destruct (rt_heap w !! id) as [c|] eqn:Hc; [|done]. destruct (ca_done c) eqn:Hd; [|done].
      injection Hstep as <- <-. split_and!; [done..|]. by eapply Hwait.
  - unfold remoteGet in Hstep. destruct (Hidle w) as [??]; [done..|].
    destruct (rt_remote w); [|injection Hstep as <- <-; done].
    destruct (an_remoteGet a) as [[v|]|e].
    + injection Hstep as <- <-. split_and!; [done..|]. by apply Ha.
    + by injection Hstep as <- <-.
    + injection Hstep as <- <-. edestruct Hidle as [??]; [| | |split_and!; [done..|]]; [done..|].
      destruct (negb _); cbn; [by intros ?|done].
  - injection Hstep as <- <-. destruct (Hset v (an_time a)) as [??]; [by apply (Hkeyed key)|].
    split_and!; [done..|]. by intros v' [= <-].
  - unfold loadValue in Hstep. destruct (rt_loader w).
    + injection Hstep as <- <-. edestruct Hidle as [??]; [| | |split_and!; [done..|]]; [done..|].
      destruct Ha as [Hpanic Ha]. destruct (an_loader a) as [[[v|]|e]|]; cbn; [by apply Ha|by intros ?|by intros ?|done].
    + injection Hstep as <- <-. destruct (Hidle w) as [??]; [done..|]. split_and!; [done..|]. by intros ?.
  - injection Hstep as <- <-. destruct (Hidle w) as [??]; [done..|]. split_and!; [done..|].
    destruct (remoteSetFails w a); cbn; [by intros ?|done].
  - destruct (Hset v (an_time a)) as [Hok' Hev]; [by apply (Hkeyed key)|].
    destruct (setLocal w v (an_time a)) as [w1 r]. injection Hstep as <- <-. split_and!; [done..|].
    destruct r; cbn; [by intros v' [= <-]|by intros ?].
  - injection Hstep as <- <-. edestruct Hidle as [??]; [| | |split_and!; [done..|]]; done.
  - injection Hstep as <- <-. destruct (Hidle w) as [??]; [done..|]. split_and!; [done..|].
    unfold setStart. repeat case_match; done.
  - destruct (Hset v (an_time a)) as [Hok' Hev]; [done|]. destruct (setLocal w v (an_time a)) as [w1 r].
    by injection Hstep as <- <-.
  - injection Hstep as <- <-. destruct (Hidle w) as [??]; [done..|]. split_and!; [done..|].
    unfold deleteStart. by case_match.
  - destruct (rt_local w) as [local|] eqn:Hl; [|injection Hstep as <- <-; by destruct (Hidle w)].
    destruct (store_Delete local key) as [local' r] eqn:Hdel. injection Hstep as <- <-.
    destruct (held_Delete (cfg := cfg) _ _ _ _ (lo_configured _ Hok _ Hl) Hdel) as (Hconf & Hsh).
    by destruct (local_ok_shrinks w local local' Hok Hl Hconf Hsh).
Qed.

(** A goroutine that waits for a call waits for a load of its own key. *)
Definition waits_ok w pool : Prop :=
  forall i key id c, pool !! i = Some (RWait key id) -> rt_heap w !! id = Some c ->
    (ca_done c = true -> out_good key (ca_out c)) /\ forall j k, leader pool j k id -> k = key.

Lemma waits_same w w' pool i pc pc' :
  waits_ok w pool -> pool !! i = Some pc -> rt_heap w' = rt_heap w -> leads pc' = leads pc ->
  (forall key id, pc' <> RWait key id) -> waits_ok w' (<[i := pc']> pool).
Proof using Type.
  intros Hok Hi Hh Hl Hw j key id c Hj Hc. rewrite Hh in Hc.
  apply list_lookup_insert_Some in Hj as [(_ & Hp & _)|[Hne Hj]]; [by destruct (Hw key id)|].
  destruct (Hok _ _ _ _ Hj Hc) as [Hd Hlead]. split; [done|].
  intros j' k Hj'. apply (Hlead j'). by rewrite <-(leader_insert pool i pc pc' j' k id Hi Hl).
Qed.

Lemma waits_join w pool i key :
  flight_ok w pool -> waits_ok w pool -> pool !! i = Some (RJoin key) ->
  waits_ok (joinLoad w key).1 (<[i := (joinLoad w key).2]> pool).
Proof using Type.
  intros Hf Hok Hi. unfold joinLoad. destruct (rt_calls w !! key) as [id|] eqn:Hcall.
  - destruct (fo_calls _ _ Hf _ _ Hcall) as [j0 Hj0]. destruct (fo_leader _ _ Hf _ _ _ Hj0) as (_ & c0 & Hc0 & Hd0).
    rewrite Hc0. case_match; [by eapply waits_same with (pc := RJoin key)|]. intros j key' id' c Hj Hc. cbn [fst snd withCalls rt_heap] in *.
    assert (Hlead : forall j' k, leader (<[i := RWait key id]> pool) j' k id' -> leader pool j' k id')
      by (intros j' k; by rewrite (leader_insert pool i (RJoin key))).
    assert (Hold : exists c', rt_heap w !! id' = Some c' /\ ca_done c = ca_done c' /\ ca_out c = ca_out c').
    { apply list_lookup_insert_Some in Hc as [(<- & <- & _)|[_ Hc]]; by eexists. }
    destruct Hold as (c' & Hc' & -> & ->).
    apply list_lookup_insert_Some in Hj as [(_ & [= <- <-] & _)|[Hne Hj]].
    + split; [congruence|]. intros j' k Hj'%Hlead. pose proof (fo_unique _ _ Hf _ _ _ _ _ Hj' Hj0) as ->.
      destruct Hj' as (p & Hp & Hl), Hj0 as (p' & Hp' & Hl'). congruence.
    + destruct (Hok _ _ _ _ Hj Hc') as [Hd Hk]. split; [done|]. intros j' k Hj'. by apply (Hk j'), Hlead.
  - intros j key' id' c Hj Hc. cbn [fst snd withCalls rt_heap] in *.
    apply list_lookup_insert_Some in Hj as [(_ & ? & _)|[Hne Hj]]; [done|].
    destruct (fo_wait _ _ Hf _ _ _ Hj) as (c' & Hc' & _). rewrite (lookup_app_l_Some _ _ _ _ Hc') in Hc.
    injection Hc as <-. destruct (Hok _ _ _ _ Hj Hc') as [Hd Hk]. split; [done|].
    intros j' k (p & [(<- & <- & _)|[Hne' Hp]]%list_lookup_insert_Some & Hl).
    + cbn in Hl. injection Hl as <- <-. apply lookup_lt_Some in Hc'. lia.
    + apply (Hk j'). by exists p.
Qed.

Lemma waits_finish w pool i key id out :
  waits_ok w pool -> pool !! i = Some (RFinish key id out) -> out_good key out ->
  waits_ok (finishLoad w key id out) (<[i := RGot key out]> pool).
Proof using Type.
  intros Hok Hi Hout j key' id' c Hj Hc.
  apply list_lookup_insert_Some in Hj as [(_ & ? & _)|[Hne Hj]]; [done|].
  assert (Hlead : forall j' k, leader (<[i := RGot key out]> pool) j' k id' -> leader pool j' k id').
  { intros j' k (p & [(<- & <- & _)|[_ Hp]]%list_lookup_insert_Some & Hl); [done|by exists p]. }
  unfold finishLoad in Hc. cbn [withCalls rt_heap] in Hc. destruct (rt_heap w !! id) as [c0|] eqn:Hc0.
  - apply list_lookup_insert_Some in Hc as [(<- & <- & _)|[_ Hc]].
    + destruct (Hok _ _ _ _ Hj Hc0) as [_ Hk]. assert (key = key') as -> by (apply (Hk i); by eexists).
      split; [done|]. intros j' k Hj'. by apply (Hk j'), Hlead.
    + destruct (Hok _ _ _ _ Hj Hc) as [Hd Hk]. split; [done|]. intros j' k Hj'. by apply (Hk j'), Hlead.
  - destruct (Hok _ _ _ _ Hj Hc) as [Hd Hk]. split; [done|]. intros j' k Hj'. by apply (Hk j'), Hlead.
Qed.

Record rt_ok w pool : Prop := {
  ro_flight : flight_ok w pool;
  ro_local : local_ok w;
  ro_pcs : Forall pc_good pool;
  ro_waits : waits_ok w pool
}.

Lemma rtStep_ok w pool i pc a w' pc' :
  rt_ok w pool -> pool !! i = Some pc -> sound_answer pc a -> rtStep w pc a = Some (w', pc') ->
  rt_ok w' (<[i := pc']> pool) /\ evolves (shown w) (shown w').
Proof using good_key.
  intros [Hf Hl Hpcs Hw] Hi Ha Hstep.
  assert (Hload : forall key id, pc = RLoad key id -> an_loader a <> None) by (intros ?? ->; by apply Ha).
  assert (Hpc : pc_good pc) by (by eapply Forall_lookup_1 in Hi).
  destruct (rtStep_local w pc a w' pc' Hl Hpc Ha) as (Hl' & Hev & Hpc'); [|done|].
  { intros key id c -> Hc Hd. by eapply Hw. }
  split; [|done]. constructor; [by eapply rtStep_flight|done|by apply Forall_insert|].
  destruct (rtStep_cases _ _ _ _ _ Hload Hstep) as [(key & -> & Hj)|[(key & id & out & -> & -> & ->)|([_ [Hh _]] & ? & _ & ?)]].
  - pose proof (waits_join w pool i key Hf Hw Hi) as Hf'. by rewrite <-Hj in Hf'.
  - by apply waits_finish.
  - by eapply waits_same.
Qed.

(** A goroutine that is about to call the store, or is done with it. *)
Lemma rt_ok_idle w w' pool i pc pc' :
  rt_ok w pool -> pool !! i = Some pc -> same_calls w w' -> local_ok w' ->
  leads pc' = leads pc -> (forall key out, pc <> RGot key out) -> (forall key id, pc' <> RWait key id) ->
  pc_good pc' -> rt_ok w' (<[i := pc']> pool).
Proof using Type.
  intros [Hf Hl Hpcs Hw] Hi Hsame Hl' Hlead Hgot Hwait Hgood. constructor.
  - by eapply flight_same.
  - done.
  - by apply Forall_insert.
  - eapply waits_same; [done|done|by destruct Hsame as (_ & ? & _)|done..].
Qed.

End Values.

(** ** Properties *)

Definition fresh_store {S K V E} `{Countable K} (w : ReadThroughStore S K V E) : Prop :=
  exists local remote loader cfg opts, w = NewReadThroughStore local remote loader cfg opts.

(** C33. Concurrent misses of a key are coalesced: as long as no loader panics,
    whatever the interleaving of calls, at most one goroutine loads a key at a time;
    a goroutine that waits for a load waits for one of its own key that is under way
    or whose outcome a goroutine has returned for that key, in which case it gets
    the same outcome; never more than [MaxWaitersPerKey] wait for one load; and no
    call is left behind when nobody loads.  [load_panic_blocks_key] is about loaders
    that panic. *)
Theorem ReadThroughStore_single_flight {S K V E} `{Countable K} `{!Store S K V E}
    (w0 : ReadThroughStore S K V E) (es : list (rtEvent K V E)) :
  fresh_store w0 -> Forall sound_event es ->
  let w := (rtRun w0 es).1 in
  let pool := (rtRun w0 es).2 in
  (forall i j key id id', leader pool i key id -> leader pool j key id' -> i = j)
  /\ (forall i key id, pool !! i = Some (RWait key id) ->
        exists c, rt_heap w !! id = Some c /\ ca_waiters c <= ro_MaxWaitersPerKey (rt_opts w)
          /\ if ca_done c
             then (exists j, pool !! j = Some (RGot key (ca_out c)))
                  /\ forall a, an_cancelled a = None ->
                       rtStep w (RWait key id) a = Some (w, RGot key (ca_out c))
             else exists j, leader pool j key id)
  /\ (forall key, is_Some (rt_calls w !! key) <-> exists i id, leader pool i key id).
Proof.
  intros (local & remote & loader & cfg & opts & ->) Hes w pool.
  assert (Hok : flight_ok w pool).
  { apply rtRun_flight; [|done..]. cbn. case_match; bool_to_prop; lia. }
  split_and!.
  - intros i j key id id' Hi Hj. destruct (fo_leader _ _ Hok _ _ _ Hi) as [Hc _].
    destruct (fo_leader _ _ Hok _ _ _ Hj) as [Hc' _]. rewrite Hc in Hc'. injection Hc' as <-.
    by eapply (fo_unique _ _ Hok).
  - intros i key id Hi. destruct (fo_wait _ _ Hok _ _ _ Hi) as (c & Hc & Hd). exists c.
    destruct (fo_heap _ _ Hok _ _ Hc) as [Hb _]. split_and!; [done|lia|].
    destruct (ca_done c) eqn:Hdone; [|done]. split; [done|].
    intros a Ha. cbn. unfold waitCall. by rewrite Ha, Hc, Hdone.
  - intros key. split.
    + intros [id Hid]. destruct (fo_calls _ _ Hok _ _ Hid) as [i Hi]. by exists i, id.
    + intros (i & id & Hi). destruct (fo_leader _ _ Hok _ _ _ Hi) as [Hc _]. by eexists.
Qed.

(** ** A store that runs *)

#[local] Instance sampleStore : Store (AtomicLocalStore Z (Z * Z) unit) Z (Z * Z) unit :=
  ClockStore map_to_list (fun key => key).

Definition sampleReadThrough : ReadThroughStore (AtomicLocalStore Z (Z * Z) unit) Z (Z * Z) unit :=
  NewReadThroughStore (Some (NewAtomicLocalStore sampleConfig)) true true
    (ac_StoreConfig sampleConfig) (mkReadThroughOptions 50 1 true).

(** The second store fails, the loader has version 7. *)
Definition sampleAnswer : answers (Z * Z) unit :=
  mkAnswers (mkReadings 10 10) (Err tt) (Some tt) None (Some (Ok (Some (1, 7)))) None.

(** Three readers miss; the second one waits for the load of the first, the
    third one is refused. *)
Definition sampleReads : list (rtEvent Z (Z * Z) unit) :=
  [Call (RGet 1); Call (RGet 1); Call (RGet 1)]
  ++ map (fun i => StepOf i sampleAnswer) [0; 0; 1; 1; 2; 2; 0; 0; 0; 0; 0; 1]%nat.

Lemma ReadThroughStore_single_flight_witness :
  (rtRun sampleReadThrough (take 9 sampleReads)).2
    = [RRemoteGet 1 0; RWait 1 0; RGot 1 (Err ErrLoadWaitersExceeded)]
  /\ (exists j, leader (rtRun sampleReadThrough (take 9 sampleReads)).2 j 1 0)
  /\ (rtRun sampleReadThrough sampleReads).2
     = [RGot 1 (Ok (Some (1, 7))); RGot 1 (Ok (Some (1, 7))); RGot 1 (Err ErrLoadWaitersExceeded)].
Proof.
  split; [vm_compute; reflexivity|]. split; [|vm_compute; reflexivity].
  destruct (ReadThroughStore_single_flight sampleReadThrough (take 9 sampleReads)) as (_ & Hwait & _).
  - by repeat eexists.
  - by repeat constructor.
  - destruct (Hwait 1%nat 1 0%nat) as (c & Hc & _ & Hd); [vm_compute; reflexivity|].
    vm_compute in Hc. injection Hc as <-. exact Hd.
Defined.

(** ** Where a panic blocks a key *)

(** [load] removes the call after [loadOne] returned, not with a deferred
    function: when the loader panics (and the panic is recovered further up),
    the call stays, and those that wait for it, then and later, wait until
    their context ends. *)
Theorem load_panic_blocks_key :
  let panics := mkAnswers (mkReadings 10 10) (Err tt) None None None None in
  let es := [Call (RGet 1); Call (RGet 1)]
            ++ map (fun i => StepOf i panics) [0; 0; 1; 1; 0; 0]%nat in
  let w := (rtRun sampleReadThrough es).1 in
  (rtRun sampleReadThrough es).2 = [RPanicked; RWait 1 0]
  /\ rt_calls w !! 1 = Some 0%nat
  /\ forall a, an_cancelled a = None -> rtStep w (RWait 1 0) a = None.
Proof.
  cbn zeta. split; [vm_compute; reflexivity|]. split; [vm_compute; reflexivity|].
  intros a Ha. cbn [rtStep]. unfold waitCall. rewrite Ha. vm_compute. reflexivity.
Qed.
