(* ===== verification/SnapshotCache.v ===== *)
(** * The cache of remote snapshots

    Models [src/entity/remote_snapshot.go] and [src/entity/remote_snapshot_codec.go]:
    envelopes of immutable snapshots, the cache that serves them in front of a
    second store and an authoritative loader, updates by full snapshots and
    deltas, and goroutines that wait for a version.

    The cache is built on the read-through store of [ReadThrough]; its theorems
    are proved for any local store that keeps the promises of [LossyStore] and
    hold for the clock cache of [ClockCache], which the code uses.  Goroutines
    are interleaved at their critical sections and store calls, as in
    [ReadThrough]. *)

From stdpp Require Import base list gmap.
From Stdlib Require Import ZArith Lia.
From Stdlib Require Strings.Byte.
From S2P Require Import Prelude Wire EntityId RemoteProto ClockCache ReadThrough.

#[local] Open Scope Z_scope.

(** ** Envelopes *)

Inductive RemoteReadConsistency :=
| RemoteReadMonotonic
| RemoteReadCached
| RemoteReadLinearizable.

(** Frozen payloads are immutable; copying one is the identity. *)
Abbreviation FrozenRemoteSnapshotPayload := (list Byte.byte).

Definition AppendTo (p : FrozenRemoteSnapshotPayload) (dst : list Byte.byte) : list Byte.byte := dst ++ p.

Record RemoteSnapshotEnvelope := mkEnvelope {
  ev_Key : RemoteSnapshotKey;
  ev_StateVersion : Z;
  ev_BaseVersion : Z;
  ev_MarkerEpoch : Z;
  ev_RouteEpoch : Z;
  ev_Schema : Z;
  ev_Codec : Z;
  ev_Checksum : Z;
  ev_Full : bool;
  ev_PublishedAt : Z;
  ev_ExpiresAt : Z;
  ev_Payload : FrozenRemoteSnapshotPayload
}.

(** What is wrong with an envelope; [Outside] is an error of the second store, of
    the loader or of a context. *)
Inductive snapshotFault :=
| InvalidEnvelope
| ChecksumMismatch
| DeltaMissingBase
| Outside (code : Z).

Definition RemoteSnapshotEnvelope_Valid (reg : Registry) (s : RemoteSnapshotEnvelope) : option snapshotFault :=
  if negb (RemoteSnapshotKey_Valid reg (ev_Key s)) || (ev_StateVersion s =? 0) || (ev_MarkerEpoch s =? 0)
     || (ev_RouteEpoch s =? 0) || (ev_Schema s =? 0) || (len (ev_Payload s) =? 0)
  then Some InvalidEnvelope
  else if negb (ev_Checksum s =? RemoteSnapshotChecksum (ev_Payload s)) then Some ChecksumMismatch
  else if negb (ev_Full s) && (ev_BaseVersion s =? 0) then Some DeltaMissingBase
  else None.

Definition Expired (s : RemoteSnapshotEnvelope) (now : Z) : bool :=
  (0 <? ev_ExpiresAt s) && (ev_ExpiresAt s <=? now).

(** The errors the cache returns. *)
Inductive snapshotError :=
| ErrRemoteSnapshotGap
| ErrRemoteSnapshotEpochMismatch
| ErrRemoteSnapshotSchemaMismatch
| ErrRemoteSnapshotStale
| ErrSnapshotConflict
| ErrRemoteOverloaded
| ErrUpdateChecksum
| ErrRemoteSnapshotDecoderMissing
| ErrApply (code : Z)
| ErrContext (e : snapshotFault)
| ErrCache (e : cacheError snapshotFault).

(** ** Registered decoders and deltas *)

Section Registered.
Context {F : Type}.

Inductive registerError := InvalidRegistration | ErrRemoteSnapshotDecoderDuplicate.

(** The two registrations of the codec differ in the map they fill; a nil
    function is [None]. *)
Definition registerSchema (values : gmap Z F) (schema : Z) (f : option F) : result registerError (gmap Z F) :=
  match f with
  | Some f =>
      if schema =? 0 then Err InvalidRegistration
      else match values !! schema with
           | Some _ => Err ErrRemoteSnapshotDecoderDuplicate
           | None => Ok (<[schema := f]> values)
           end
  | None => Err InvalidRegistration
  end.

End Registered.

Abbreviation RemoteSnapshotDeltaFunc := (list Byte.byte -> list Byte.byte -> result Z (list Byte.byte)).

Definition RegisterRemoteSnapshotDelta (deltas : gmap Z RemoteSnapshotDeltaFunc) schema apply :=
  registerSchema deltas schema apply.

Definition RegisterRemoteSnapshotDecoder {A} (values : gmap Z (list Byte.byte -> result Z A)) schema decode :=
  registerSchema values schema decode.

Definition applyRemoteSnapshotDelta (deltas : gmap Z RemoteSnapshotDeltaFunc) (schema : Z)
    (base delta : list Byte.byte) : result snapshotError (list Byte.byte) :=
  match deltas !! schema with
  | None => Err ErrRemoteSnapshotDecoderMissing
  | Some apply =>
      match apply base delta with
      | Ok data => Ok data
      | Err code => Err (ErrApply code)
      end
  end.

Definition DecodeRemoteSnapshot {A} (values : gmap Z (list Byte.byte -> result Z A))
    (snapshot : RemoteSnapshotEnvelope) : result snapshotError A :=
  match values !! ev_Schema snapshot with
  | None => Err ErrRemoteSnapshotDecoderMissing
  | Some decode =>
      match decode (ev_Payload snapshot) with
      | Ok value => Ok value
      | Err code => Err (ErrApply code)
      end
  end.

(** ** The cache *)

Record RemoteSnapshotCacheConfig := mkCacheConfig {
  cc_Shards : Z;
  cc_MaxEntries : Z;
  cc_MaxBytes : Z;
  cc_TTL : Z;
  cc_MaxWaiters : Z
}.

(** The channel of a waiter is a number; [sc_closed] has the closed ones. *)
Record remoteVersionWaiter := mkWaiter {
  wa_min : Z;
  wa_done : nat
}.

Record RemoteSnapshotCache (S : Type) := mkSnapshotCache {
  sc_layered : ReadThroughStore S RemoteSnapshotKey RemoteSnapshotEnvelope snapshotFault;
  sc_waiters : gmap RemoteSnapshotKey (list remoteVersionWaiter);
  sc_waiterCount : Z;
  sc_maxWaiters : Z;
  sc_loader : bool;
  sc_publishMu : gset Z;
  sc_closed : list nat;
  sc_channels : nat
}.

Arguments mkSnapshotCache {S}.
Arguments sc_layered {S}.
Arguments sc_waiters {S}.
Arguments sc_waiterCount {S}.
Arguments sc_maxWaiters {S}.
Arguments sc_loader {S}.
Arguments sc_publishMu {S}.
Arguments sc_closed {S}.
Arguments sc_channels {S}.

Definition snapshotStale (old next : RemoteSnapshotEnvelope) : bool :=
  if negb (ev_MarkerEpoch old =? ev_MarkerEpoch next) || negb (ev_RouteEpoch old =? ev_RouteEpoch next)
  then (ev_MarkerEpoch next <? ev_MarkerEpoch old) || (ev_RouteEpoch next <? ev_RouteEpoch old)
  else ev_StateVersion next <? ev_StateVersion old.

Definition storeCfg (reg : Registry)
    : StoreConfig RemoteSnapshotKey RemoteSnapshotEnvelope snapshotFault :=
  mkStoreConfig (Some ev_Key) (Some snapshotStale) (Some (RemoteSnapshotKey_Valid reg))
    (Some (RemoteSnapshotEnvelope_Valid reg)).

Definition NewRemoteSnapshotCache (reg : Registry) (cfg : RemoteSnapshotCacheConfig) (l2 loader : bool)
    : RemoteSnapshotCache (AtomicLocalStore RemoteSnapshotKey RemoteSnapshotEnvelope snapshotFault) :=
  let local := NewAtomicLocalStore
    (mkAtomicLocalConfig (storeCfg reg) (cc_Shards cfg) (cc_MaxEntries cfg) (cc_MaxBytes cfg) (cc_TTL cfg)
       (Some (fun value => len (ev_Payload value) + 96))) in
  mkSnapshotCache
    (NewReadThroughStore (Some local) l2 loader (storeCfg reg)
       (mkReadThroughOptions (cc_TTL cfg) (cc_MaxWaiters cfg) true))
    ∅ 0 (cc_MaxWaiters cfg) loader ∅ [] 0.

Definition remoteSnapshotPublishShard (key : RemoteSnapshotKey) : Z :=
  let h := Z.lxor (Z.lxor (u64! (rk_EntityID key)) (u64! (Z.shiftl (u64! (rk_Tenant key)) 32)))
             (u64! (Z.shiftl (u64! (rk_Kind key)) 48)) in
  let h := Z.lxor h (Z.lxor (u64! (rk_Scope key * 0x9e3779b185ebca87)) (u64! (rk_Policy key * 0xc2b2ae3d27d4eb4f))) in
  Z.land h 63.

(** What [Publish] does when it has returned: nothing, or the rest of
    [LoadAuthoritative]. *)
Inductive continuation :=
| Return
| ThenStored (key : RemoteSnapshotKey).

Abbreviation layeredPc := (rtPc RemoteSnapshotKey RemoteSnapshotEnvelope snapshotFault).

(** Where a call of the cache stands. *)
Inductive snapshotPc :=
| SPublish (snapshot : RemoteSnapshotEnvelope) (next : continuation)
| SCheck (snapshot : RemoteSnapshotEnvelope) (next : continuation)
| SSet (snapshot : RemoteSnapshotEnvelope) (pc : layeredPc) (next : continuation)
| SNotify (snapshot : RemoteSnapshotEnvelope) (next : continuation)
| SUnlock (snapshot : RemoteSnapshotEnvelope) (out : result snapshotError unit) (next : continuation)
| SUpdate (update : RemoteSnapshotRecord)
| SRead (consistency : RemoteReadConsistency) (minVersion : Z) (pc : layeredPc)
| SLoad (key : RemoteSnapshotKey) (minVersion : Z)
| SStored (key : RemoteSnapshotKey)
| SDelete (pc : layeredPc)
| SWait (key : RemoteSnapshotKey) (minVersion : Z)
| SRegister (key : RemoteSnapshotKey) (minVersion : Z)
| SRecheck (key : RemoteSnapshotKey) (minVersion : Z) (done : nat)
| SWake (key : RemoteSnapshotKey) (minVersion : Z) (done : nat) (version : Z)
| SBlocked (key : RemoteSnapshotKey) (minVersion : Z) (done : nat)
| SRemove (key : RemoteSnapshotKey) (done : nat) (e : snapshotFault)
| SPanicked
| SLoaded (key : RemoteSnapshotKey) (out : result snapshotError (option RemoteSnapshotEnvelope))
| SReturned (out : result snapshotError unit).

Section Cache.
Context {S : Type} `{!Store S RemoteSnapshotKey RemoteSnapshotEnvelope snapshotFault}.
Context (deltas : gmap Z RemoteSnapshotDeltaFunc).

Implicit Types (c : RemoteSnapshotCache S) (t : readings)
  (snapshot : RemoteSnapshotEnvelope) (key : RemoteSnapshotKey)
  (a : answers RemoteSnapshotEnvelope snapshotFault).

Definition withLayered c layered : RemoteSnapshotCache S :=
  mkSnapshotCache layered (sc_waiters c) (sc_waiterCount c) (sc_maxWaiters c) (sc_loader c)
    (sc_publishMu c) (sc_closed c) (sc_channels c).

Definition withMutexes c publishMu : RemoteSnapshotCache S :=
  mkSnapshotCache (sc_layered c) (sc_waiters c) (sc_waiterCount c) (sc_maxWaiters c) (sc_loader c)
    publishMu (sc_closed c) (sc_channels c).

Definition withWaiters c waiters waiterCount closed channels : RemoteSnapshotCache S :=
  mkSnapshotCache (sc_layered c) waiters waiterCount (sc_maxWaiters c) (sc_loader c)
    (sc_publishMu c) closed channels.

(** [c.local.Get]; the local store is the one of the read-through store. *)
Definition localGet c key t
    : RemoteSnapshotCache S * result (cacheError snapshotFault) (option RemoteSnapshotEnvelope) :=
  match rt_local (sc_layered c) with
  | None => (c, Ok None)
  | Some local =>
      let '(local', r) := store_Get local key t in
      (withLayered c (withLocal (sc_layered c) (Some local')), r)
  end.

(** An empty list is removed from the map. *)
Definition storeWaiters key (ws : list remoteVersionWaiter)
    (m : gmap RemoteSnapshotKey (list remoteVersionWaiter)) : gmap RemoteSnapshotKey (list remoteVersionWaiter) :=
  match ws with [] => delete key m | _ => <[key := ws]> m end.

Definition waitersOf c key : list remoteVersionWaiter := default [] (sc_waiters c !! key).

Definition notify c key (version : Z) : RemoteSnapshotCache S :=
  let waiters := waitersOf c key in
  let woken := filter (fun w => wa_min w <= version) waiters in
  let remaining := filter (fun w => ~ wa_min w <= version) waiters in
  withWaiters c (storeWaiters key remaining (sc_waiters c)) (sc_waiterCount c - len woken)
    (sc_closed c ++ map wa_done woken) (sc_channels c).

(** The first waiter with the channel is cut out. *)
Fixpoint cutWaiter (done : nat) (ws : list remoteVersionWaiter) : list remoteVersionWaiter :=
  match ws with
  | [] => []
  | w :: ws' => if decide (wa_done w = done) then ws' else w :: cutWaiter done ws'
  end.

Definition removeWaiter c key (done : nat) : RemoteSnapshotCache S :=
  let waiters := waitersOf c key in
  let found := existsb (fun w => bool_decide (wa_done w = done)) waiters in
  withWaiters c (storeWaiters key (cutWaiter done waiters) (sc_waiters c))
    (if found then sc_waiterCount c - 1 else sc_waiterCount c) (sc_closed c) (sc_channels c).

Definition withChecksum snapshot : RemoteSnapshotEnvelope :=
  mkEnvelope (ev_Key snapshot) (ev_StateVersion snapshot) (ev_BaseVersion snapshot) (ev_MarkerEpoch snapshot)
    (ev_RouteEpoch snapshot) (ev_Schema snapshot) (ev_Codec snapshot)
    (RemoteSnapshotChecksum (ev_Payload snapshot)) (ev_Full snapshot) (ev_PublishedAt snapshot)
    (ev_ExpiresAt snapshot) (ev_Payload snapshot).

(** [Publish] up to [layered.Set], under the mutex of the key. *)
Definition publishCheck c snapshot (next : continuation) t : RemoteSnapshotCache S * snapshotPc :=
  let '(c', r) := localGet c (ev_Key snapshot) t in
  (c', match r with
       | Err e => SUnlock snapshot (Err (ErrCache e)) next
       | Ok (Some current) =>
           if (ev_MarkerEpoch current =? ev_MarkerEpoch snapshot)
              && (ev_RouteEpoch current =? ev_RouteEpoch snapshot)
              && (ev_StateVersion current =? ev_StateVersion snapshot)
           then if negb (ev_Schema current =? ev_Schema snapshot) || negb (ev_Codec current =? ev_Codec snapshot)
                   || negb (ev_Checksum current =? ev_Checksum snapshot)
                then SUnlock snapshot (Err ErrSnapshotConflict) next
                else SUnlock snapshot (Ok tt) next
           else SSet snapshot (RSet snapshot) next
       | Ok None => SSet snapshot (RSet snapshot) next
       end).

(** The envelope that [ApplyUpdate] publishes. *)
Definition updateEnvelope (update : RemoteSnapshotRecord) (payload : list Byte.byte) (now : Z)
    : RemoteSnapshotEnvelope :=
  mkEnvelope (rs_Key update) (rs_StateVersion update) (rs_BaseVersion update) (rs_MarkerEpoch update)
    (rs_RouteEpoch update) (rs_Schema update) (rs_Codec update) 0 (rs_Full update) now 0 payload.

Definition applyUpdate c (update : RemoteSnapshotRecord) t : RemoteSnapshotCache S * snapshotPc :=
  if negb (rs_Checksum update =? 0) && negb (RemoteSnapshotChecksum (rs_Data update) =? rs_Checksum update)
  then (c, SReturned (Err ErrUpdateChecksum))
  else if rs_Full update
  then (c, SPublish (updateEnvelope update (rs_Data update) (rd_now t)) Return)
  else
    let '(c', r) := localGet c (rs_Key update) t in
    (c', match r with
         | Err e => SReturned (Err (ErrCache e))
         | Ok None => SReturned (Err ErrRemoteSnapshotGap)
         | Ok (Some current) =>
             if negb (ev_StateVersion current =? rs_BaseVersion update)
             then SReturned (Err ErrRemoteSnapshotGap)
             else if negb (ev_MarkerEpoch current =? rs_MarkerEpoch update)
                     || negb (ev_RouteEpoch current =? rs_RouteEpoch update)
             then SReturned (Err ErrRemoteSnapshotEpochMismatch)
             else if negb (ev_Schema current =? rs_Schema update) || negb (ev_Codec current =? rs_Codec update)
             then SReturned (Err ErrRemoteSnapshotSchemaMismatch)
             else match applyRemoteSnapshotDelta deltas (rs_Schema update) (ev_Payload current) (rs_Data update) with
                  | Err e => SReturned (Err e)
                  | Ok data => SPublish (updateEnvelope update data (rd_now' t)) Return
                  end
         end).

(** What [Get] makes of the answer of the read-through store. *)
Definition readOutcome (consistency : RemoteReadConsistency) (minVersion : Z)
    (out : result (cacheError snapshotFault) (option RemoteSnapshotEnvelope))
    : result snapshotError (option RemoteSnapshotEnvelope) :=
  match out with
  | Err e => Err (ErrCache e)
  | Ok None => Ok None
  | Ok (Some snapshot) =>
      match consistency with
      | RemoteReadCached => Ok (Some snapshot)
      | _ => if minVersion <=? ev_StateVersion snapshot then Ok (Some snapshot) else Err ErrRemoteSnapshotStale
      end
  end.

(** [LoadAuthoritative] up to [Publish]. *)
Definition loadAuthoritative c key (minVersion : Z) a : snapshotPc :=
  if negb (sc_loader c) then SLoaded key (Ok None)
  else match an_loader a with
       | None => SPanicked
       | Some (Err e) => SLoaded key (Err (ErrContext e))
       | Some (Ok None) => SLoaded key (Ok None)
       | Some (Ok (Some snapshot)) =>
           if ev_StateVersion snapshot <? minVersion then SLoaded key (Err ErrRemoteSnapshotStale)
           else SPublish snapshot (ThenStored key)
       end.

(** The version of a local hit that is recent enough. *)
Definition recentEnough (minVersion : Z)
    (r : result (cacheError snapshotFault) (option RemoteSnapshotEnvelope)) : option Z :=
  match r with
  | Ok (Some snapshot) => if minVersion <=? ev_StateVersion snapshot then Some (ev_StateVersion snapshot) else None
  | _ => None
  end.

Definition waitForVersion c key (minVersion : Z) t : RemoteSnapshotCache S * snapshotPc :=
  if minVersion =? 0 then (c, SReturned (Ok tt))
  else
    let '(c', r) := localGet c key t in
    (c', match recentEnough minVersion r with
         | Some _ => SReturned (Ok tt)
         | None => SRegister key minVersion
         end).

Definition registerWaiter c key (minVersion : Z) : RemoteSnapshotCache S * snapshotPc :=
  if (0 <? sc_maxWaiters c) && (sc_maxWaiters c <=? sc_waiterCount c)
  then (c, SReturned (Err ErrRemoteOverloaded))
  else
    let done := sc_channels c in
    (withWaiters c (<[key := waitersOf c key ++ [mkWaiter minVersion done]]> (sc_waiters c))
       (sc_waiterCount c + 1) (sc_closed c) (done + 1)%nat,
     SRecheck key minVersion done).

(** A step inside the read-through store. *)
Definition inLayered c (pc : layeredPc) a (wrap : layeredPc -> snapshotPc)
    : option (RemoteSnapshotCache S * snapshotPc) :=
  match rtStep (sc_layered c) pc a with
  | Some (layered, pc') => Some (withLayered c layered, wrap pc')
  | None => None
  end.

(** A step of one goroutine; [None] when it has to wait or has returned. *)
Definition snapshotStep c (pc : snapshotPc) a : option (RemoteSnapshotCache S * snapshotPc) :=
  let t := an_time a in
  match pc with
  | SPublish snapshot next =>
      let shard := remoteSnapshotPublishShard (ev_Key snapshot) in
      if bool_decide (shard ∈ sc_publishMu c) then None
      else Some (withMutexes c ({[shard]} ∪ sc_publishMu c), SCheck (withChecksum snapshot) next)
  | SCheck snapshot next => Some (publishCheck c snapshot next t)
  | SSet snapshot (RDone r) next =>
      Some (c, match r with
               | Ok _ => SNotify snapshot next
               | Err e => SUnlock snapshot (Err (ErrCache e)) next
               end)
  | SSet snapshot pc next => inLayered c pc a (fun p : layeredPc => SSet snapshot p next)
  | SNotify snapshot next =>
      Some (notify c (ev_Key snapshot) (ev_StateVersion snapshot), SUnlock snapshot (Ok tt) next)
  | SUnlock snapshot out next =>
      Some (withMutexes c (sc_publishMu c ∖ {[remoteSnapshotPublishShard (ev_Key snapshot)]}),
            match next, out with
            | Return, _ => SReturned out
            | ThenStored key, Err e => SLoaded key (Err e)
            | ThenStored key, Ok _ => SStored key
            end)
  | SUpdate update => Some (applyUpdate c update t)
  | SRead consistency minVersion pc => inLayered c pc a (SRead consistency minVersion)
  | SLoad key minVersion => Some (c, loadAuthoritative c key minVersion a)
  | SStored key =>
      let '(c', r) := localGet c key t in
      Some (c', SLoaded key match r with Ok o => Ok o | Err e => Err (ErrCache e) end)
  | SDelete pc => inLayered c pc a SDelete
  | SWait key minVersion => Some (waitForVersion c key minVersion t)
  | SRegister key minVersion => Some (registerWaiter c key minVersion)
  | SRecheck key minVersion done =>
      let '(c', r) := localGet c key t in
      Some (c', match recentEnough minVersion r with
                | Some version => SWake key minVersion done version
                | None => SBlocked key minVersion done
                end)
  | SWake key minVersion done version => Some (notify c key version, SBlocked key minVersion done)
  | SBlocked key minVersion done =>
      match an_cancelled a with
      | Some e => Some (c, SRemove key done e)
      | None => if bool_decide (done ∈ sc_closed c) then Some (c, SReturned (Ok tt)) else None
      end
  | SRemove key done e => Some (removeWaiter c key done, SReturned (Err (ErrContext e)))
  | SPanicked | SLoaded _ _ | SReturned _ => None
  end.

(** ** Goroutines *)

Inductive snapshotCall :=
| CallPublish (snapshot : RemoteSnapshotEnvelope)
| CallApplyUpdate (update : RemoteSnapshotRecord)
| CallGet (key : RemoteSnapshotKey) (consistency : RemoteReadConsistency) (minVersion : Z)
| CallLoadAuthoritative (key : RemoteSnapshotKey) (minVersion : Z)
| CallDelete (key : RemoteSnapshotKey)
| CallWaitForVersion (key : RemoteSnapshotKey) (minVersion : Z).

Definition startPc (call : snapshotCall) : snapshotPc :=
  match call with
  | CallPublish snapshot => SPublish snapshot Return
  | CallApplyUpdate update => SUpdate update
  | CallGet key consistency minVersion => SRead consistency minVersion (RGet key)
  | CallLoadAuthoritative key minVersion => SLoad key minVersion
  | CallDelete key => SDelete (RDelete key)
  | CallWaitForVersion key minVersion => SWait key minVersion
  end.

Inductive snapshotEvent :=
| Begin (call : snapshotCall)
| Proceed (i : nat) (a : answers RemoteSnapshotEnvelope snapshotFault).

Definition snapshotExec (st : RemoteSnapshotCache S * list snapshotPc) (e : snapshotEvent)
    : RemoteSnapshotCache S * list snapshotPc :=
  match e with
  | Begin call => (st.1, st.2 ++ [startPc call])
  | Proceed i a =>
      match st.2 !! i with
      | Some pc =>
          match snapshotStep st.1 pc a with
          | Some (c', pc') => (c', <[i := pc']> st.2)
          | None => st
          end
      | None => st
      end
  end.

Definition snapshotRun c (es : list snapshotEvent) : RemoteSnapshotCache S * list snapshotPc :=
  foldl snapshotExec (c, []) es.

End Cache.

(** A read of the local store: it may forget, nothing else changes. *)
Lemma localGet_spec {S} `{!Store S RemoteSnapshotKey RemoteSnapshotEnvelope snapshotFault}
    (reg : Registry) `{!LossyStore (storeCfg reg)} (c : RemoteSnapshotCache S) key t c' r :
  (forall local, rt_local (sc_layered c) = Some local -> configured (cfg := storeCfg reg) local) ->
  localGet c key t = (c', r) ->
  (exists local, c' = withLayered c (withLocal (sc_layered c) local)
     /\ forall l, local = Some l -> configured (cfg := storeCfg reg) l)
  /\ (forall k, shrinks (shown (storeCfg reg) (sc_layered c)) (shown (storeCfg reg) (sc_layered c')) k)
  /\ (forall e, r = Ok (Some e) -> shown (storeCfg reg) (sc_layered c) key = Some e
                                  /\ shown (storeCfg reg) (sc_layered c') key = Some e)
  /\ (rd_now t <= rd_now' t -> r = Ok None -> shown (storeCfg reg) (sc_layered c') key = None)
  /\ exists o, r = Ok o.
Proof.
  intros Hconf. unfold localGet, shrinks, shown. destruct (rt_local (sc_layered c)) as [local|] eqn:Hl.
  - destruct (store_Get local key t) as [local' r'] eqn:Hget. intros [= <- <-].
    destruct (held_Get (cfg := storeCfg reg) _ _ _ _ _ (Hconf _ eq_refl) Hget) as (Hconf' & Hsh & Hv & Hnone & Ho).
    split_and!; [|done..]. exists (Some local'). split; [done|]. by intros l [= <-].
  - intros [= <- <-]. rewrite Hl. split_and!; [|by left|done|done|by eexists].
    exists None. split; [|done]. destruct c as [[]]. cbn in *. by subst.
Qed.

(** ** The cache tells the truth and does not go back *)

Section Truth.
Context {S : Type} `{!Store S RemoteSnapshotKey RemoteSnapshotEnvelope snapshotFault}.
Context (reg : Registry) `{!LossyStore (storeCfg reg)} (deltas : gmap Z RemoteSnapshotDeltaFunc).

(** The history of the authority: schema, codec and payload of each version of a
    key, per marker and route epoch. *)
Context (truth : RemoteSnapshotKey -> Z -> Z -> Z -> option (Z * Z * list Byte.byte)).

Implicit Types (c : RemoteSnapshotCache S) (pool : list snapshotPc) (e snapshot : RemoteSnapshotEnvelope)
  (key : RemoteSnapshotKey) (a : answers RemoteSnapshotEnvelope snapshotFault).

Definition says_truth e : Prop :=
  truth (ev_Key e) (ev_MarkerEpoch e) (ev_RouteEpoch e) (ev_StateVersion e)
  = Some (ev_Schema e, ev_Codec e, ev_Payload e).

(** A snapshot of the key that is valid and true. *)
Definition genuine key e : Prop :=
  ev_Key e = key /\ RemoteSnapshotEnvelope_Valid reg e = None /\ says_truth e.

(** A full update carries the payload of its version; a delta turns the payload
    of its base into the one of its version. *)
Definition update_true (u : RemoteSnapshotRecord) : Prop :=
  let at_ version := truth (rs_Key u) (rs_MarkerEpoch u) (rs_RouteEpoch u) version in
  if rs_Full u then at_ (rs_StateVersion u) = Some (rs_Schema u, rs_Codec u, rs_Data u)
  else forall base data, at_ (rs_BaseVersion u) = Some (rs_Schema u, rs_Codec u, base) ->
    applyRemoteSnapshotDelta deltas (rs_Schema u) base (rs_Data u) = Ok data ->
    at_ (rs_StateVersion u) = Some (rs_Schema u, rs_Codec u, data).

Definition call_true (call : snapshotCall) : Prop :=
  match call with
  | CallPublish snapshot => says_truth snapshot
  | CallApplyUpdate update => update_true update
  | _ => True
  end.

(** The part of a goroutine that runs in the read-through store. *)
Definition layeredOf (pc : snapshotPc) : layeredPc :=
  match pc with
  | SSet _ p _ | SRead _ _ p | SDelete p => p
  | _ => RPanicked
  end.

Definition answer_true (pc : snapshotPc) a : Prop :=
  sound_answer genuine (layeredOf pc) a
  /\ match pc with
     | SLoad _ _ => forall snapshot, an_loader a = Some (Ok (Some snapshot)) -> says_truth snapshot
     | _ => True
     end.

Definition event_true (st : RemoteSnapshotCache S * list snapshotPc) (ev : snapshotEvent) : Prop :=
  match ev with
  | Begin call => call_true call
  | Proceed i a => forall pc, st.2 !! i = Some pc -> answer_true pc a
  end.

(** Every input along a run is true. *)
Fixpoint run_true (st : RemoteSnapshotCache S * list snapshotPc) (es : list snapshotEvent) : Prop :=
  match es with
  | [] => True
  | ev :: es' => event_true st ev /\ run_true (snapshotExec deltas st ev) es'
  end.

Definition snapshotPc_true (pc : snapshotPc) : Prop :=
  match pc with
  | SPublish s _ | SCheck s _ | SSet s _ _ => says_truth s
  | SUpdate u => update_true u
  | SLoaded key (Ok (Some e)) => genuine key e
  | _ => True
  end.

Record cache_ok c pool : Prop := {
  co_layered : rt_ok (storeCfg reg) genuine (sc_layered c) (layeredOf <$> pool);
  co_pcs : Forall snapshotPc_true pool
}.

Lemma genuine_key key e : genuine key e -> keyOf (storeCfg reg) e = Ok key.
Proof using Type.
  intros (<- & Hv & _). unfold RemoteSnapshotEnvelope_Valid in Hv. unfold keyOf. cbn.
  destruct (RemoteSnapshotKey_Valid reg (ev_Key e)); [done|by cbn in Hv].
Qed.

Lemma validated snapshot key :
  says_truth snapshot -> keyOf (storeCfg reg) snapshot = Ok key ->
  validateValue (storeCfg reg) snapshot = Ok tt -> genuine key snapshot.
Proof using Type.
  intros Ht Hk Hv. split_and!; [| |done].
  - unfold keyOf in Hk. cbn in Hk. destruct (RemoteSnapshotKey_Valid reg _); [|done]. by injection Hk.
  - unfold validateValue in Hv. cbn in Hv. by destruct (RemoteSnapshotEnvelope_Valid reg snapshot).
Qed.

Lemma localGet_ok c key t c' r :
  local_ok (storeCfg reg) genuine (sc_layered c) -> localGet c key t = (c', r) ->
  (exists layered, c' = withLayered c layered /\ same_calls (sc_layered c) layered)
  /\ local_ok (storeCfg reg) genuine (sc_layered c')
  /\ (forall k, shrinks (shown (storeCfg reg) (sc_layered c)) (shown (storeCfg reg) (sc_layered c')) k)
  /\ (forall e, r = Ok (Some e) -> genuine key e).
Proof using Type.
  intros Hok Hget. destruct (localGet_spec reg _ _ _ _ _ (lo_configured _ _ _ Hok) Hget)
    as ((local & -> & Hconf) & Hsh & Hv & _).
  split_and!; [by eexists| |done|].
  - constructor; [apply (lo_cfg _ _ _ Hok)|done|]. intros k v Hk. apply (lo_good _ _ _ Hok).
    destruct (Hsh k) as [Heq|Heq]; rewrite Heq in Hk; done.
  - intros e He. apply (lo_good _ _ _ Hok). by apply Hv.
Qed.

(** Steps outside the read-through store. *)
Lemma outside_ok c c' pool i pc pc' :
  cache_ok c pool -> pool !! i = Some pc -> same_calls (sc_layered c) (sc_layered c') ->
  local_ok (storeCfg reg) genuine (sc_layered c') ->
  leads (layeredOf pc) = None -> (forall key out, layeredOf pc <> RGot key out) ->
  leads (layeredOf pc') = None -> (forall key id, layeredOf pc' <> RWait key id) ->
  pc_good (storeCfg reg) genuine (layeredOf pc') -> snapshotPc_true pc' ->
  cache_ok c' (<[i := pc']> pool).
Proof using Type.
  intros [Hrt Hpcs] Hi Hsame Hl Hlead Hgot Hlead' Hwait Hgood Htrue. constructor.
  - rewrite list_fmap_insert. eapply rt_ok_idle; [done| |done|done|by rewrite Hlead', Hlead|done..].
    by rewrite list_lookup_fmap, Hi.
  - by apply Forall_insert.
Qed.

Lemma inside_ok c pool i pc p a c' pc' wrap :
  cache_ok c pool -> pool !! i = Some pc -> layeredOf pc = p -> sound_answer genuine p a ->
  (forall q, layeredOf (wrap q) = q /\ snapshotPc_true (wrap q)) ->
  inLayered c p a wrap = Some (c', pc') ->
  cache_ok c' (<[i := pc']> pool)
  /\ evolves (storeCfg reg) (shown (storeCfg reg) (sc_layered c)) (shown (storeCfg reg) (sc_layered c')).
Proof using Type.
  intros [Hrt Hpcs] Hi Hp Ha Hwrap. unfold inLayered.
  destruct (rtStep (sc_layered c) p a) as [[layered q]|] eqn:Hstep; [|done]. intros [= <- <-].
  destruct (rtStep_ok (storeCfg reg) genuine genuine_key (sc_layered c) (layeredOf <$> pool) i p a layered q)
    as [Hrt' Hev]; [done|by rewrite list_lookup_fmap, Hi, <-Hp|done|done|].
  split; [|done]. constructor; [|by apply Forall_insert; [|apply Hwrap]].
  rewrite list_fmap_insert. by rewrite (proj1 (Hwrap q)).
Qed.

Abbreviation shownBy c := (shown (storeCfg reg) (sc_layered c)).

(** A step that does nothing to the stores, and one that reads the local store:
    the goroutine is not inside the read-through store, before and after. *)
Definition outside (pc : snapshotPc) : Prop :=
  leads (layeredOf pc) = None /\ forall key out, layeredOf pc <> RGot key out.

Definition enters (pc : snapshotPc) : Prop :=
  leads (layeredOf pc) = None /\ (forall key id, layeredOf pc <> RWait key id)
  /\ pc_good (storeCfg reg) genuine (layeredOf pc) /\ snapshotPc_true pc.

Lemma quiet_ok c c' pool i pc pc' :
  cache_ok c pool -> pool !! i = Some pc -> outside pc -> enters pc' -> sc_layered c' = sc_layered c ->
  cache_ok c' (<[i := pc']> pool) /\ evolves (storeCfg reg) (shownBy c) (shownBy c').
Proof using Type.
  intros Hok Hi [??] (? & ? & ? & ?) Hs. rewrite Hs. split; [|apply evolves_refl].
  pose proof (ro_local _ _ _ _ (co_layered _ _ Hok)). by eapply (outside_ok c); [| |rewrite Hs|rewrite Hs|..].
Qed.

Lemma get_ok c c' pool i pc pc' key t r :
  cache_ok c pool -> pool !! i = Some pc -> outside pc -> enters pc' -> localGet c key t = (c', r) ->
  cache_ok c' (<[i := pc']> pool) /\ evolves (storeCfg reg) (shownBy c) (shownBy c').
Proof using Type.
  intros Hok Hi [??] (? & ? & ? & ?) Hg. pose proof (ro_local _ _ _ _ (co_layered _ _ Hok)) as Hl.
  destruct (localGet_ok _ _ _ _ _ Hl Hg) as ((l & -> & Hsame) & Hl' & Hsh & _).
  split; [|by apply shrinks_evolves]. by eapply outside_ok.
Qed.

(** A delta is applied to the snapshot it was made against. *)
Lemma applyUpdate_enters c u t :
  local_ok (storeCfg reg) genuine (sc_layered c) -> update_true u -> rs_Full u = false ->
  enters (applyUpdate deltas c u t).2.
Proof using Type.
  intros Hl Hu Hfull. unfold applyUpdate. rewrite Hfull. case_match; [done|].
  destruct (localGet c (rs_Key u) t) as [c1 r] eqn:Hg. cbn [snd].
  destruct (localGet_ok _ _ _ _ _ Hl Hg) as (_ & _ & _ & Hhit).
  destruct r as [[current|]|e]; [|done|done].
  destruct (Hhit _ eq_refl) as (Hkey & _ & Htrue).
  repeat case_match; try done. bool_to_prop. unfold update_true in Hu. rewrite Hfull in Hu.
  split_and!; try done. unfold says_truth in *. cbn. eapply Hu; [|done]. rewrite <-Hkey. congruence.
Qed.

Lemma snapshotStep_ok c pool i pc a c' pc' :
  cache_ok c pool -> pool !! i = Some pc -> answer_true pc a ->
  snapshotStep deltas c pc a = Some (c', pc') ->
  cache_ok c' (<[i := pc']> pool) /\ evolves (storeCfg reg) (shownBy c) (shownBy c').
Proof using Type.
  intros Hok Hi [Ha Hload] Hstep. pose proof (ro_local _ _ _ _ (co_layered _ _ Hok)) as Hl.
  assert (Hpc : snapshotPc_true pc) by (by eapply Forall_lookup_1 in Hi; [|apply (co_pcs _ _ Hok)]).
  pose proof (fun c1 pc1 => quiet_ok c c1 pool i pc pc1 Hok Hi) as Hquiet.
  pose proof (fun c1 pc1 key r => get_ok c c1 pool i pc pc1 key (an_time a) r Hok Hi) as Hget.
  destruct pc as [s next|s next|s p next|s next|s out next|u|cons min p|key min|key|p|key min|key min
    |key min ch|key min ch ver|key min ch|key ch e| |key out|out]; cbn [snapshotStep] in Hstep; try done.
  - case_bool_decide; [done|]. injection Hstep as <- <-. by apply Hquiet.
  - unfold publishCheck in Hstep. destruct (localGet c (ev_Key s) (an_time a)) as [c1 r] eqn:Hg.
    injection Hstep as <- <-. eapply Hget; [done| |exact Hg].
    repeat case_match; split_and!; try done; cbn; intros; by apply validated.
  - destruct p; try (eapply inside_ok; [done|done| |exact Ha| |exact Hstep]; [done|by intros q]).
    injection Hstep as <- <-. apply Hquiet; [done| |done]. by case_match.
  - injection Hstep as <- <-. by apply Hquiet.
  - injection Hstep as <- <-. apply Hquiet; [done| |done]. by destruct next, out.
  - pose proof (fun Hfull => applyUpdate_enters c u (an_time a) Hl Hpc Hfull) as Hent.
    unfold applyUpdate in *. case_match eqn:Hsum; [injection Hstep as <- <-; by apply Hquiet|].
    destruct (rs_Full u) eqn:Hfull.
    + injection Hstep as <- <-. apply Hquiet; [done| |done]. split_and!; try done. cbn in Hpc |- *.
      unfold update_true in Hpc. by rewrite Hfull in Hpc.
    + specialize (Hent eq_refl). destruct (localGet c (rs_Key u) (an_time a)) as [c1 r] eqn:Hg.
      injection Hstep as <- <-. by eapply Hget.
  - eapply inside_ok; [done|done| |exact Ha| |exact Hstep]; [done|by intros q].
  - injection Hstep as <- <-. apply Hquiet; [done| |done]. unfold loadAuthoritative. cbn in Hload.
    destruct (negb (sc_loader c)); [done|]. destruct (an_loader a) as [[[snapshot|]|]|]; try done.
    destruct (ev_StateVersion snapshot <? min); split_and!; try done. by apply Hload.
  - destruct (localGet c key (an_time a)) as [c1 r] eqn:Hg. injection Hstep as <- <-.
    destruct (localGet_ok _ _ _ _ _ Hl Hg) as (_ & _ & _ & Hhit).
    eapply Hget; [done| |exact Hg]. split_and!; try done. cbn. destruct r as [[e|]|]; [|done|done]. by apply Hhit.
  - eapply inside_ok; [done|done| |exact Ha| |exact Hstep]; [done|by intros q].
  - unfold waitForVersion in Hstep. case_match; [injection Hstep as <- <-; by apply Hquiet|].
    destruct (localGet c key (an_time a)) as [c1 r] eqn:Hg. injection Hstep as <- <-.
    eapply Hget; [done| |exact Hg]. by case_match.
  - unfold registerWaiter in Hstep. case_match; injection Hstep as <- <-; by apply Hquiet.
  - destruct (localGet c key (an_time a)) as [c1 r] eqn:Hg. injection Hstep as <- <-.
    eapply Hget; [done| |exact Hg]. by case_match.
  - injection Hstep as <- <-. by apply Hquiet.
  - destruct (an_cancelled a); [injection Hstep as <- <-; by apply Hquiet|].
    case_bool_decide; [|done]. injection Hstep as <- <-. by apply Hquiet.
  - injection Hstep as <- <-. by apply Hquiet.
Qed.

Lemma layeredOf_start call : leads (layeredOf (startPc call)) = None
  /\ (forall key id, layeredOf (startPc call) <> RWait key id)
  /\ pc_good (storeCfg reg) genuine (layeredOf (startPc call)).
Proof using Type. by destruct call. Qed.

Lemma begin_ok c pool call :
  cache_ok c pool -> call_true call -> cache_ok c (pool ++ [startPc call]).
Proof using Type.
  intros [[Hf Hl Hpcs Hw] Htrue] Hcall. destruct (layeredOf_start call) as (Hlead & Hwait & Hgood).
  constructor.
  - rewrite fmap_app. change (layeredOf <$> [startPc call]) with [layeredOf (startPc call)]. constructor.
    + exact (flight_begin _ _ _ Hf Hlead Hwait).
    + done.
    + apply Forall_app. split; [done|]. by apply Forall_singleton.
    + intros i key id c0 [Hi|[_ Hi]]%lookup_app_Some Hc.
      * destruct (Hw _ _ _ _ Hi Hc) as [Hd Hk]. split; [done|]. intros j k Hj. apply (Hk j).
        by rewrite leader_app in Hj.
      * apply list_lookup_singleton_Some in Hi as [_ Hi]. by destruct (Hwait key id).
  - apply Forall_app. split; [done|]. apply Forall_singleton. by destruct call.
Qed.

Lemma snapshotExec_ok st ev :
  cache_ok st.1 st.2 -> event_true st ev ->
  let st' := snapshotExec deltas st ev in
  cache_ok st'.1 st'.2 /\ evolves (storeCfg reg) (shownBy st.1) (shownBy st'.1).
Proof using Type.
  destruct st as [c pool]. intros Hok Hev. destruct ev as [call|i a]; cbn [snapshotExec fst snd] in *.
  - split; [by apply begin_ok|apply evolves_refl].
  - destruct (pool !! i) as [pc|] eqn:Hi; [|split; [done|apply evolves_refl]].
    destruct (snapshotStep deltas c pc a) as [[c' pc']|] eqn:Hstep; [|split; [done|apply evolves_refl]].
    cbn [fst snd]. eapply snapshotStep_ok; [done|done|by apply Hev|done].
Qed.

Lemma snapshotRun_ok c es :
  cache_ok c [] -> run_true (c, []) es ->
  cache_ok (snapshotRun deltas c es).1 (snapshotRun deltas c es).2.
Proof using Type.
  intros Hok. assert (Hst : cache_ok (c, @nil snapshotPc).1 (c, @nil snapshotPc).2) by done. clear Hok.
  unfold snapshotRun. revert Hst. generalize (c, @nil snapshotPc).
  induction es as [|ev es IH]; intros st Hok; [done|].
  intros [Hev Hes]. cbn [foldl]. apply IH; [|done]. by apply snapshotExec_ok.
Qed.

(** Inputs of a run in which neither the second store nor the loader answers
    with a value. *)
Lemma run_true_silent st es :
  Forall (fun ev => match ev with
                    | Begin call => call_true call
                    | Proceed _ a => an_remoteGet a = Ok None /\ an_loader a = Some (Ok None)
                    end) es -> run_true st es.
Proof using Type.
  intros Hes. revert st. induction Hes as [|ev es Hev Hes IH]; intros st; [done|]. split; [|apply IH].
  destruct ev as [call|i a]; [done|]. destruct Hev as [Hr Hl]. intros pc _. split.
  - destruct (layeredOf pc); cbn; rewrite ?Hr, ?Hl; done.
  - destruct pc; cbn; rewrite ?Hl; done.
Qed.

End Truth.

(** ** Waiters are woken *)

Section Waiters.
Context {S : Type} `{!Store S RemoteSnapshotKey RemoteSnapshotEnvelope snapshotFault}.
Context (reg : Registry) `{!LossyStore (storeCfg reg)} (deltas : gmap Z RemoteSnapshotDeltaFunc).

Implicit Types (c : RemoteSnapshotCache S) (pool : list snapshotPc) (e s : RemoteSnapshotEnvelope)
  (key : RemoteSnapshotKey) (a : answers RemoteSnapshotEnvelope snapshotFault) (pc : snapshotPc)
  (ws : list remoteVersionWaiter).

Abbreviation shownBy c := (shown (storeCfg reg) (sc_layered c)).

(** The channel of a goroutine that waits, and what it waits for. *)
Definition channelOf pc : option nat :=
  match pc with
  | SRecheck _ _ ch | SWake _ _ ch _ | SBlocked _ _ ch | SRemove _ ch _ => Some ch
  | _ => None
  end.

Definition waitingFor pc : option (RemoteSnapshotKey * remoteVersionWaiter) :=
  match pc with
  | SRecheck key min ch | SWake key min ch _ | SBlocked key min ch => Some (key, mkWaiter min ch)
  | _ => None
  end.

(** A publisher that has written a snapshot and has yet to notify. *)
Definition will_notify pc key (min : Z) : Prop :=
  match pc with
  | SSet s (RDone (Ok _)) _ | SNotify s _ => ev_Key s = key /\ min <= ev_StateVersion s
  | _ => False
  end.

(** What the goroutines of the calls can be doing in the read-through store when
    there is neither a second store nor a loader. *)
Definition in_place pc : Prop :=
  match pc with
  | SSet s p _ => p = RSet s \/ p = RSetL s \/ exists r, p = RDone r
  | SRead _ _ p =>
      match p with
      | RGet _ | RJoin _ | RWait _ _ | RRemoteGet _ _ | RLoad _ _ | RFinish _ _ _ | RGot _ _ => True
      | _ => False
      end
  | SDelete p =>
      match p with RDelete _ | RDeleteL _ _ | RDeleted _ => True | _ => False end
  | SWake _ min _ version => min <= version
  | _ => True
  end.

Definition registered c key w : Prop := w ∈ waitersOf c key.

Record waiters_ok c : Prop := {
  rg_nodup : forall key, NoDup (wa_done <$> waitersOf c key);
  rg_apart : forall key key' w w', registered c key w -> registered c key' w' -> wa_done w = wa_done w' -> key = key';
  rg_open : forall key w, registered c key w -> wa_done w ∉ sc_closed c;
  rg_once : NoDup (sc_closed c);
  rg_known : forall key w, registered c key w -> (wa_done w < sc_channels c)%nat;
  rg_closed : forall ch, ch ∈ sc_closed c -> (ch < sc_channels c)%nat;
  rg_count : exists W : gset nat, (forall ch, ch ∈ W <-> exists key w, registered c key w /\ wa_done w = ch)
    /\ sc_waiterCount c = Z.of_nat (size W);
  rg_bound : 0 < sc_maxWaiters c -> sc_waiterCount c <= sc_maxWaiters c
}.

Record waiting_ok c pool : Prop := {
  wo_waiters : waiters_ok c;
  wo_configured : forall local, rt_local (sc_layered c) = Some local -> configured (cfg := storeCfg reg) local;
  wo_alone : rt_remote (sc_layered c) = false /\ rt_loader (sc_layered c) = false /\ sc_loader c = false;
  wo_pcs : Forall in_place pool;
  wo_channels : forall i pc ch, pool !! i = Some pc -> channelOf pc = Some ch -> (ch < sc_channels c)%nat;
  wo_unique : forall i j pc pc' ch, pool !! i = Some pc -> pool !! j = Some pc' ->
    channelOf pc = Some ch -> channelOf pc' = Some ch -> i = j;
  wo_registered : forall i pc key w, pool !! i = Some pc -> waitingFor pc = Some (key, w) ->
    wa_done w ∈ sc_closed c \/ registered c key w;
  wo_blocked : forall i key min ch e, pool !! i = Some (SBlocked key min ch) -> ch ∉ sc_closed c ->
    shownBy c key = Some e -> min <= ev_StateVersion e ->
    exists j pc, pool !! j = Some pc /\ will_notify pc key min
}.

(** *** The list of waiters of a key *)

Lemma waitersOf_store c key ws count closed channels key' :
  waitersOf (withWaiters c (storeWaiters key ws (sc_waiters c)) count closed channels) key'
  = if decide (key' = key) then ws else waitersOf c key'.
Proof using Type.
  unfold waitersOf, withWaiters, storeWaiters. cbn. destruct ws; case_decide as Hk.
  - subst. by rewrite lookup_delete_eq.
  - by rewrite lookup_delete_ne.
  - subst. by rewrite lookup_insert_eq.
  - by rewrite lookup_insert_ne.
Qed.

Lemma cutWaiter_sublist ch ws : cutWaiter ch ws `sublist_of` ws.
Proof using Type.
  induction ws as [|w ws IH]; cbn; [done|]. case_decide; [by apply sublist_cons|by apply sublist_skip].
Qed.

Lemma elem_of_cutWaiter ch ws w :
  NoDup (wa_done <$> ws) -> w ∈ cutWaiter ch ws <-> w ∈ ws /\ wa_done w <> ch.
Proof using Type.
  induction ws as [|w' ws IH]; csimpl; [set_solver|]. intros [Hw' Hnd]%NoDup_cons. case_decide as Hd.
  - split.
    + intros Hin. split; [by right|]. intros Heq. apply Hw'. rewrite Hd, <-Heq. by apply list_elem_of_fmap_2.
    + intros [Hin Hne]. apply elem_of_cons in Hin as [->|Hin]; done.
  - rewrite !elem_of_cons, IH by done. naive_solver.
Qed.

Lemma NoDup_sublist_dones ws ws' :
  ws' `sublist_of` ws -> NoDup (wa_done <$> ws) -> NoDup (wa_done <$> ws').
Proof using Type. intros Hs Hnd. eapply sublist_NoDup; [done|]. by apply fmap_sublist. Qed.

(** Cutting waiters out of the list of a key, closing the channels of some. *)
Lemma cut_ok c key ws count woken :
  waiters_ok c -> ws `sublist_of` waitersOf c key ->
  NoDup woken -> (forall ch, ch ∈ woken -> exists w, w ∈ waitersOf c key /\ wa_done w = ch) ->
  (forall w, w ∈ ws -> wa_done w ∉ woken) ->
  count = sc_waiterCount c - (len (waitersOf c key) - len ws) ->
  waiters_ok (withWaiters c (storeWaiters key ws (sc_waiters c)) count (sc_closed c ++ woken) (sc_channels c)).
Proof using Type.
  intros [] Hsub Hnd Hwoken Hkept ->. set (c' := withWaiters _ _ _ _ _).
  assert (Hof : forall k, waitersOf c' k = if decide (k = key) then ws else waitersOf c k)
    by (intros; apply waitersOf_store).
  assert (Hreg : forall k w, registered c' k w -> registered c k w).
  { intros k w. unfold registered. rewrite Hof. case_decide; [|done]. subst. intros Hw. by eapply elem_of_sublist. }
  assert (Hsize : (length ws <= length (waitersOf c key))%nat) by (by apply sublist_length).
  constructor.
  - intros k. rewrite Hof. case_decide; [|done]. by eapply NoDup_sublist_dones.
  - intros k k' w w' Hw Hw'. by apply rg_apart0; apply Hreg.
  - intros k w Hw. cbn. rewrite not_elem_of_app. split; [by eapply rg_open0, Hreg|].
    intros Hin. destruct (Hwoken _ Hin) as (w' & Hw' & Hd).
    assert (k = key) as -> by (eapply rg_apart0; [by apply Hreg|exact Hw'|done]).
    unfold registered in Hw. rewrite Hof, decide_True in Hw by done. by apply (Hkept w).
  - cbn. apply NoDup_app. split_and!; [done| |done]. intros ch Hch Hin.
    destruct (Hwoken _ Hin) as (w & Hw & <-). by eapply rg_open0.
  - intros k w Hw. by eapply rg_known0, Hreg.
  - cbn. intros ch [?|Hin]%elem_of_app; [by apply rg_closed0|]. destruct (Hwoken _ Hin) as (w & Hw & <-).
    by eapply rg_known0.
  - destruct rg_count0 as (W & HW & Hcount). set (gone := list_to_set (wa_done <$> waitersOf c key) : gset nat).
    set (left := list_to_set (wa_done <$> ws) : gset nat). exists ((W ∖ gone) ∪ left). split.
    + intros ch. rewrite elem_of_union, elem_of_difference, HW. subst gone left.
      rewrite !elem_of_list_to_set, !list_elem_of_fmap. split.
      * intros [[(k & w & Hw & <-) Hn]|(w & -> & Hw)].
        -- exists k, w. split; [|done]. unfold registered. rewrite Hof. case_decide; [|done]. subst. naive_solver.
        -- exists key, w. split; [|done]. unfold registered. by rewrite Hof, decide_True.
      * intros (k & w & Hw & <-). unfold registered in Hw. rewrite Hof in Hw. case_decide as Hk.
        -- right. by exists w.
        -- left. split; [by exists k, w|]. intros (w' & Hd & Hw'). apply Hk. by eapply rg_apart0.
    + cbn. rewrite Hcount. assert (Hg : gone ⊆ W).
      { intros ch. subst gone. rewrite elem_of_list_to_set, list_elem_of_fmap. intros (w & -> & Hw). apply HW. by exists key, w. }
      assert (Hl : left ⊆ gone).
      { intros ch. subst gone left. rewrite !elem_of_list_to_set, !list_elem_of_fmap. intros (w & -> & Hw).
        exists w. split; [done|]. by eapply elem_of_sublist. }
      rewrite size_union by set_solver. rewrite size_difference by done.
      pose proof (subseteq_size _ _ Hg). subst gone left. rewrite !size_list_to_set, !length_fmap in *; [unfold len; lia|..]; try done;
        by eapply NoDup_sublist_dones.
  - cbn. intros Hmax. specialize (rg_bound0 Hmax). unfold len. lia.
Qed.

Lemma len_filter_split {A} (P Q : A -> Prop) `{!forall x, Decision (P x)} `{!forall x, Decision (Q x)} (l : list A) :
  (forall x, Q x <-> ~ P x) -> len l = len (filter P l) + len (filter Q l).
Proof using Type.
  intros HQ. induction l as [|x l IH]; [done|]. rewrite !filter_cons, len_cons, IH.
  destruct (decide (P x)), (decide (Q x)); rewrite ?len_cons; try lia; exfalso; specialize (HQ x); tauto.
Qed.

Lemma filter_sublist_of {A} (P : A -> Prop) `{!forall x, Decision (P x)} (l : list A) : filter P l `sublist_of` l.
Proof using Type.
  induction l as [|x l IH]; [done|]. rewrite filter_cons. case_decide; by constructor.
Qed.

Lemma notify_registered c key version k w :
  registered (notify c key version) k w <-> registered c k w /\ (k = key -> ~ wa_min w <= version).
Proof using Type.
  unfold registered, notify. rewrite waitersOf_store. case_decide as Hk.
  - subst. rewrite list_elem_of_filter. naive_solver.
  - naive_solver.
Qed.

Lemma notify_closed c key version w :
  registered c key w -> wa_min w <= version -> wa_done w ∈ sc_closed (notify c key version).
Proof using Type.
  intros Hw Hle. cbn. apply elem_of_app. right. apply (list_elem_of_fmap_2 wa_done).
  by apply list_elem_of_filter.
Qed.

Lemma notify_ok c key version : waiters_ok c -> waiters_ok (notify c key version).
Proof using Type.
  intros Hok. pose proof (rg_nodup _ Hok key) as Hnd. unfold notify. apply cut_ok; [done|apply filter_sublist_of|..].
  - eapply NoDup_sublist_dones; [apply filter_sublist_of|done].
  - intros ch (w & -> & [_ Hw]%list_elem_of_filter)%list_elem_of_fmap_1. by exists w.
  - intros w [Hn Hw]%list_elem_of_filter (w' & Hd & [Hle Hw']%list_elem_of_filter)%list_elem_of_fmap_1.
    apply list_elem_of_lookup in Hw as [i Hi]. apply list_elem_of_lookup in Hw' as [j Hj].
    assert (i = j) as ->.
    { eapply NoDup_lookup; [exact Hnd| |]; rewrite list_lookup_fmap; [by rewrite Hi|by rewrite Hj; cbn; rewrite Hd]. }
    rewrite Hi in Hj. injection Hj as <-. done.
  - rewrite (len_filter_split (fun w => wa_min w <= version) (fun w => ~ wa_min w <= version) (waitersOf c key)) by done. lia.
Qed.

Lemma len_cutWaiter ch ws :
  len (cutWaiter ch ws) = if existsb (fun w => bool_decide (wa_done w = ch)) ws then len ws - 1 else len ws.
Proof using Type.
  induction ws as [|w ws IH]; [done|]. cbn [cutWaiter existsb]. rewrite len_cons.
  destruct (decide (wa_done w = ch)) as [Hd|Hd].
  - rewrite bool_decide_true by done. cbn [orb]. lia.
  - rewrite bool_decide_false by done. cbn [orb]. rewrite len_cons, IH. case_match; lia.
Qed.

Lemma removeWaiter_registered c key ch k w :
  waiters_ok c -> registered (removeWaiter c key ch) k w <-> registered c k w /\ (k = key -> wa_done w <> ch).
Proof using Type.
  intros Hok. unfold registered, removeWaiter. rewrite waitersOf_store. case_decide as Hk.
  - subst. rewrite elem_of_cutWaiter by apply (rg_nodup _ Hok). naive_solver.
  - naive_solver.
Qed.

Lemma removeWaiter_ok c key ch : waiters_ok c -> waiters_ok (removeWaiter c key ch).
Proof using Type.
  intros Hok. unfold removeWaiter. rewrite <-(app_nil_r (sc_closed c)).
  apply cut_ok; [done|apply cutWaiter_sublist|constructor|set_solver|set_solver|].
  rewrite len_cutWaiter. case_match; lia.
Qed.

Lemma register_waiter_ok c key min :
  waiters_ok c -> (0 < sc_maxWaiters c -> sc_waiterCount c < sc_maxWaiters c) ->
  let c' := withWaiters c (<[key := waitersOf c key ++ [mkWaiter min (sc_channels c)]]> (sc_waiters c))
              (sc_waiterCount c + 1) (sc_closed c) (sc_channels c + 1)%nat in
  waiters_ok c' /\ forall k w, registered c' k w <->
    registered c k w \/ (k = key /\ w = mkWaiter min (sc_channels c)).
Proof using Type.
  intros [] Hroom c'.
  assert (Hof : forall k, waitersOf c' k = if decide (k = key) then waitersOf c key ++ [mkWaiter min (sc_channels c)]
    else waitersOf c k).
  { intros k. unfold waitersOf, c', withWaiters. cbn. case_decide as Hk; [subst; by rewrite lookup_insert_eq|by rewrite lookup_insert_ne]. }
  assert (Hreg : forall k w, registered c' k w <-> registered c k w \/ (k = key /\ w = mkWaiter min (sc_channels c))).
  { intros k w. unfold registered. rewrite Hof. case_decide as Hk; [|naive_solver].
    subst. rewrite elem_of_app, list_elem_of_singleton. naive_solver. }
  assert (Hfresh : forall k w, registered c k w -> wa_done w <> sc_channels c)
    by (intros k w Hw; specialize (rg_known0 k w Hw); lia).
  split; [|exact Hreg]. constructor.
  - intros k. rewrite Hof. case_decide; [|done]. rewrite fmap_app. apply NoDup_app. split_and!; [done| |apply NoDup_singleton].
    intros ch (w & -> & Hw)%list_elem_of_fmap_1 Hin%list_elem_of_singleton. by apply (Hfresh key w).
  - intros k k' w w'. rewrite !Hreg. intros [Hw|[-> ->]] [Hw'|[-> ->]] Hd; [by eapply rg_apart0| | |done].
    + by destruct (Hfresh k w).
    + by destruct (Hfresh k' w').
  - intros k w. rewrite Hreg. intros [Hw|[-> ->]]; [by eapply rg_open0|]. cbn. intros Hin%rg_closed0. lia.
  - done.
  - intros k w. rewrite Hreg. cbn. intros [Hw%rg_known0|[-> ->]]; cbn; lia.
  - cbn. intros ch Hch%rg_closed0. lia.
  - destruct rg_count0 as (W & HW & Hc). exists ({[sc_channels c]} ∪ W). split.
    + intros ch. rewrite elem_of_union, elem_of_singleton, HW. split.
      * intros [->|(k & w & Hw & <-)]; [exists key, (mkWaiter min (sc_channels c))|exists k, w]; rewrite Hreg; auto.
      * intros (k & w & [Hw|[-> ->]]%Hreg & <-); [right; by exists k, w|by left].
    + cbn. rewrite Hc, size_union, size_singleton; [lia|].
      intros ch ->%elem_of_singleton (k & w & Hw & Hd)%HW. by apply (Hfresh k w).
  - cbn. intros Hmax. specialize (Hroom Hmax). lia.
Qed.

(** *** Steps *)

(** What a step of goroutine [i] from [pc] to [pc'] must keep for the others. *)
Record keeps c c' pool (i : nat) pc pc' : Prop := {
  kp_waiters : waiters_ok c';
  kp_configured : forall local, rt_local (sc_layered c') = Some local -> configured (cfg := storeCfg reg) local;
  kp_alone : rt_remote (sc_layered c') = false /\ rt_loader (sc_layered c') = false /\ sc_loader c' = false;
  kp_place : in_place pc';
  kp_channels : (sc_channels c <= sc_channels c')%nat;
  kp_closed : forall ch, ch ∈ sc_closed c -> ch ∈ sc_closed c';
  kp_others : forall j pcj key w, j <> i -> pool !! j = Some pcj -> waitingFor pcj = Some (key, w) ->
    registered c key w -> wa_done w ∈ sc_closed c' \/ registered c' key w;
  kp_own : forall key w, waitingFor pc' = Some (key, w) -> wa_done w ∈ sc_closed c' \/ registered c' key w;
  kp_channel : forall ch, channelOf pc' = Some ch ->
    (ch < sc_channels c')%nat /\ (channelOf pc = Some ch \/ (sc_channels c <= ch)%nat);
  kp_wakes : forall j key min ch e, j <> i -> pool !! j = Some (SBlocked key min ch) -> ch ∉ sc_closed c' ->
    shownBy c' key = Some e -> min <= ev_StateVersion e ->
    will_notify pc' key min
    \/ (shownBy c key = Some e /\ (will_notify pc key min -> will_notify pc' key min));
  kp_blocks : forall key min ch e, pc' = SBlocked key min ch -> ch ∉ sc_closed c' ->
    shownBy c' key = Some e -> ~ min <= ev_StateVersion e
}.

Lemma keeps_ok c c' pool i pc pc' :
  waiting_ok c pool -> pool !! i = Some pc -> keeps c c' pool i pc pc' -> waiting_ok c' (<[i := pc']> pool).
Proof using Type.
  intros [] Hi []. assert (Hlt : (i < length pool)%nat) by (by eapply lookup_lt_Some).
  constructor; try done.
  - by apply Forall_insert.
  - intros j pcj ch [(<- & <- & _)|[Hne Hj]]%list_lookup_insert_Some Hch; [by apply kp_channel0|].
    specialize (wo_channels0 _ _ _ Hj Hch). lia.
  - intros j j' p p' ch [(<- & <- & _)|[Hne Hj]]%list_lookup_insert_Some [(<- & <- & _)|[Hne' Hj']]%list_lookup_insert_Some Hch Hch'.
    + done.
    + destruct (kp_channel0 _ Hch) as [_ [Hold|Hnew]]; [by eapply wo_unique0|].
      specialize (wo_channels0 _ _ _ Hj' Hch'). lia.
    + destruct (kp_channel0 _ Hch') as [_ [Hold|Hnew]]; [by eapply wo_unique0|].
      specialize (wo_channels0 _ _ _ Hj Hch). lia.
    + by eapply wo_unique0.
  - intros j pcj key w [(<- & <- & _)|[Hne Hj]]%list_lookup_insert_Some Hw; [by apply kp_own0|].
    destruct (wo_registered0 _ _ _ _ Hj Hw) as [Hc|Hr]; [left; by apply kp_closed0|].
    by eapply kp_others0.
  - intros j key min ch e [(<- & Hp & _)|[Hne Hj]]%list_lookup_insert_Some Hopen Hshow Hle.
    + by destruct (kp_blocks0 _ _ _ _ Hp Hopen Hshow).
    + destruct (kp_wakes0 j key min ch e) as [Hw|[Hold Hkeep]]; [done..| |].
      * exists i, pc'. by rewrite list_lookup_insert_eq.
      * destruct (wo_blocked0 j key min ch e Hj) as (j' & p & Hp & Hw); [|done..|].
        { intros Hc. by apply Hopen, kp_closed0. }
        destruct (decide (i = j')) as [<-|Hne'].
        -- exists i, pc'. rewrite list_lookup_insert_eq by done. split; [done|]. apply Hkeep.
           rewrite Hi in Hp. by injection Hp as <-.
        -- exists j', p. by rewrite list_lookup_insert_ne.
Qed.

(** Steps that leave the waiters alone: the local store forgets or takes what
    this goroutine is about to announce. *)
Record calm c c' : Prop := {
  cm_waiters : sc_waiters c' = sc_waiters c;
  cm_count : sc_waiterCount c' = sc_waiterCount c;
  cm_max : sc_maxWaiters c' = sc_maxWaiters c;
  cm_closed : sc_closed c' = sc_closed c;
  cm_channels : sc_channels c' = sc_channels c;
  cm_loader : sc_loader c' = sc_loader c;
  cm_remotes : rt_remote (sc_layered c') = rt_remote (sc_layered c) /\ rt_loader (sc_layered c') = rt_loader (sc_layered c);
  cm_configured : forall local, rt_local (sc_layered c') = Some local -> configured (cfg := storeCfg reg) local
}.

Lemma calm_registered c c' key w : calm c c' -> registered c' key w <-> registered c key w.
Proof using Type. intros []. unfold registered, waitersOf. by rewrite cm_waiters0. Qed.

Lemma calm_waiters c c' : calm c c' -> waiters_ok c -> waiters_ok c'.
Proof using Type.
  intros Hcalm []. pose proof (fun k w => calm_registered c c' k w Hcalm) as Hreg. destruct Hcalm.
  assert (Hof : forall k, waitersOf c' k = waitersOf c k) by (intros; unfold waitersOf; by rewrite cm_waiters0).
  constructor; rewrite ?cm_closed0, ?cm_channels0, ?cm_count0, ?cm_max0; try done.
  - intros k. by rewrite Hof.
  - intros k k' w w'. rewrite !Hreg. apply rg_apart0.
  - intros k w. rewrite Hreg. apply rg_open0.
  - intros k w. rewrite Hreg. apply rg_known0.
  - destruct rg_count0 as (W & HW & Hc). exists W. split; [|done]. intros ch. rewrite HW.
    split; intros (k & w & Hw & Hd); exists k, w; (split; [|done]); by apply Hreg.
Qed.

Lemma calm_ok c c' pool i pc pc' :
  waiting_ok c pool -> pool !! i = Some pc -> calm c c' -> in_place pc' ->
  (forall ch, channelOf pc' = Some ch -> channelOf pc = Some ch) ->
  (forall kw, waitingFor pc' = Some kw -> waitingFor pc = Some kw) ->
  (forall key e, shownBy c' key = Some e ->
     shownBy c key = Some e \/ forall min, min <= ev_StateVersion e -> will_notify pc' key min) ->
  (forall key min, will_notify pc key min -> will_notify pc' key min) ->
  (forall key min ch e, pc' = SBlocked key min ch -> shownBy c' key = Some e -> ~ min <= ev_StateVersion e) ->
  waiting_ok c' (<[i := pc']> pool).
Proof using Type.
  intros Hok Hi Hcalm Hplace Hch Hwait Hshow Hwill Hblock. eapply keeps_ok; [done|done|].
  pose proof (fun k w => calm_registered c c' k w Hcalm) as Hreg.
  pose proof (calm_waiters _ _ Hcalm (wo_waiters _ _ Hok)). destruct Hok, Hcalm.
  constructor; rewrite ?cm_closed0, ?cm_channels0; try done.
  - destruct cm_remotes0 as [-> ->]. by rewrite cm_loader0.
  - intros j pcj key w _ Hj Hw Hr. right. by apply Hreg.
  - intros key w Hw. rewrite Hreg. eapply wo_registered0; [exact Hi|]. by apply Hwait.
  - intros ch Hc. specialize (Hch _ Hc). split; [|by left]. by eapply wo_channels0.
  - intros j key min ch e _ _ _ Hs Hle. destruct (Hshow _ _ Hs) as [Hold|Hnew]; [right|left]; auto.
  - intros key min ch e Hp _ Hs. by eapply Hblock.
Qed.

Lemma calm_refl c pool : waiting_ok c pool -> calm c c.
Proof using Type. intros []. by constructor. Qed.

Lemma calm_layered c w :
  rt_remote w = rt_remote (sc_layered c) -> rt_loader w = rt_loader (sc_layered c) ->
  (forall local, rt_local w = Some local -> configured (cfg := storeCfg reg) local) ->
  calm c (withLayered c w).
Proof using Type. by constructor. Qed.

Lemma localGet_calm c pool key t c' r :
  waiting_ok c pool -> localGet c key t = (c', r) ->
  calm c c' /\ (forall k e, shownBy c' k = Some e -> shownBy c k = Some e)
  /\ (rd_now t <= rd_now' t -> forall e, shownBy c' key = Some e -> r = Ok (Some e)).
Proof using Type.
  intros Hok Hget. destruct (localGet_spec reg _ _ _ _ _ (wo_configured _ _ Hok) Hget)
    as ((local & -> & Hconf) & Hsh & Hv & Hnone & o & ->).
  split_and!.
  - by apply calm_layered.
  - intros k e Hk. destruct (Hsh k) as [Heq|Heq]; by rewrite Heq in Hk.
  - intros Ht e He. destruct o as [e'|]; [|by rewrite Hnone in He].
    destruct (Hv e' eq_refl) as [_ Hv']. congruence.
Qed.

(** Calls of the read-through store other than [Set] only forget. *)
Lemma forgets c pool pc p a c' pc' wrap :
  waiting_ok c pool -> in_place pc ->
  ((exists cons min, pc = SRead cons min p /\ wrap = SRead cons min) \/ (pc = SDelete p /\ wrap = SDelete)) ->
  inLayered c p a wrap = Some (c', pc') ->
  calm c c' /\ in_place pc' /\ (forall k e, shownBy c' k = Some e -> shownBy c k = Some e)
  /\ exists p', pc' = wrap p'.
Proof using Type.
  intros Hok Hplace Hcase. unfold inLayered.
  destruct (rtStep (sc_layered c) p a) as [[w p']|] eqn:Hstep; [|done]. intros [= <- <-].
  destruct (wo_alone _ _ Hok) as (Hremote & Hloader & _). pose proof (wo_configured _ _ Hok) as Hconf.
  assert (Hsame : rt_local w = rt_local (sc_layered c) -> rt_remote w = rt_remote (sc_layered c) ->
    rt_loader w = rt_loader (sc_layered c) ->
    calm c (withLayered c w) /\ forall k e, shownBy (withLayered c w) k = Some e -> shownBy c k = Some e).
  { intros Hl ??. split; [apply calm_layered; [done|done|by rewrite Hl]|]. unfold shown. cbn. by rewrite Hl. }
  assert (Hless : forall local local', rt_local (sc_layered c) = Some local -> w = withLocal (sc_layered c) (Some local') ->
    configured (cfg := storeCfg reg) local' -> (forall k, shrinks (held local) (held (LossyStore := LossyStore0) local') k) ->
    calm c (withLayered c w) /\ forall k e, shownBy (withLayered c w) k = Some e -> shownBy c k = Some e).
  { intros local local' Hl -> Hc Hsh. split; [apply calm_layered; [done|done|by intros l [= <-]]|].
    unfold shown. cbn. rewrite Hl. intros k e Hk. destruct (Hsh k) as [Heq|Heq]; by rewrite Heq in Hk. }
  assert (Hgoal : (calm c (withLayered c w) /\ forall k e, shownBy (withLayered c w) k = Some e -> shownBy c k = Some e)
    /\ in_place (wrap p')).
  2: { destruct Hgoal as [[??] ?]. split_and!; try done. by eexists. }
  destruct Hcase as [(cons & min & -> & ->)|[-> ->]]; destruct p; try done; cbn [rtStep] in Hstep.
  - unfold getLocal in Hstep. destruct (negb _); [injection Hstep as <- <-; split; [by apply Hsame|done]|].
    destruct (rt_local (sc_layered c)) as [local|] eqn:Hl; [|injection Hstep as <- <-; split; [by apply Hsame|done]].
    destruct (store_Get local key (an_time a)) as [local' r] eqn:Hget. injection Hstep as <- <-.
    destruct (held_Get (cfg := storeCfg reg) _ _ _ _ _ (Hconf _ eq_refl) Hget) as (Hc & Hsh & _).
    split; [by eapply Hless|]. by destruct r as [[]|].
  - unfold joinLoad in Hstep. destruct (rt_calls _ !! key); [|injection Hstep as <- <-; split; [by apply Hsame|done]].
    repeat case_match; injection Hstep as <- <-; (split; [by apply Hsame|done]).
  - unfold waitCall in Hstep. repeat case_match; try done; injection Hstep as <- <-; (split; [by apply Hsame|done]).
  - unfold remoteGet in Hstep. rewrite Hremote in Hstep. injection Hstep as <- <-. split; [by apply Hsame|done].
  - unfold loadValue in Hstep. rewrite Hloader in Hstep. injection Hstep as <- <-. split; [by apply Hsame|done].
  - injection Hstep as <- <-. split; [by apply Hsame|done].
  - injection Hstep as <- <-. split; [by apply Hsame|]. unfold deleteStart. by case_match.
  - destruct (rt_local (sc_layered c)) as [local|] eqn:Hl; [|injection Hstep as <- <-; split; [by apply Hsame|done]].
    destruct (store_Delete local key) as [local' r] eqn:Hdel. injection Hstep as <- <-.
    destruct (held_Delete (cfg := storeCfg reg) _ _ _ _ (Hconf _ eq_refl) Hdel) as (Hc & Hsh).
    split; [by eapply Hless|done].
Qed.

(** [layered.Set]: the key shows what it showed, nothing, or the snapshot that is
    about to be announced. *)
Lemma writes c pool s a next c' pc' :
  waiting_ok c pool -> inLayered c (RSetL s) a (fun p => SSet s p next) = Some (c', pc') ->
  calm c c' /\ (exists r, pc' = SSet s (RDone r) next)
  /\ forall k e, shownBy c' k = Some e -> shownBy c k = Some e \/ forall min, min <= ev_StateVersion e -> will_notify pc' k min.
Proof using Type.
  intros Hok. unfold inLayered. cbn [rtStep]. unfold setLocal.
  destruct (rt_local (sc_layered c)) as [local|] eqn:Hl.
  2: { intros [= <- <-]. split_and!; [|by eexists|by left].
       apply calm_layered; [done|done|]. by rewrite Hl. }
  destruct (store_SetWithTTL local s _ _) as [local' r] eqn:Hset. intros [= <- <-].
  destruct (held_SetWithTTL (cfg := storeCfg reg) _ _ _ _ _ _ (wo_configured _ _ Hok _ Hl) Hset) as [Hconf Hr].
  split_and!; [apply calm_layered; [done|done|by intros l [= <-]]|by eexists|].
  unfold shown. cbn. rewrite Hl. destruct r as [u|err]; [|subst local'; by left].
  destruct Hr as (k0 & Hk0 & _ & Hothers & Hown). intros k e He. destruct (decide (k = k0)) as [->|Hne].
  - assert (Hkey : ev_Key s = k0).
    { unfold keyOf in Hk0. cbn in Hk0. destruct (RemoteSnapshotKey_Valid reg (ev_Key s)); [|done]. by injection Hk0. }
    destruct Hown as [(old & Ho & _ & Ho')|[_ [Hnew|Hgone]]]; [left; congruence| |congruence].
    right. rewrite Hnew in He. injection He as <-. done.
  - left. destruct (Hothers k Hne) as [Heq|Heq]; congruence.
Qed.

Lemma notify_keeps c pool i pc pc' key version :
  waiting_ok c pool -> pool !! i = Some pc -> in_place pc' ->
  (forall ch, channelOf pc' = Some ch -> channelOf pc = Some ch) ->
  (forall kw, waitingFor pc' = Some kw -> waitingFor pc = Some kw) ->
  (forall k min, will_notify pc k min -> k = key /\ min <= version) ->
  (forall k min ch, pc' = SBlocked k min ch -> k = key /\ min <= version) ->
  keeps c (notify c key version) pool i pc pc'.
Proof using Type.
  intros Hok Hi Hplace Hch Hwait Hwill Hblock. pose proof (notify_ok c key version (wo_waiters _ _ Hok)).
  assert (Hclosed : forall ch, ch ∈ sc_closed c -> ch ∈ sc_closed (notify c key version))
    by (intros ch Hc; cbn; apply elem_of_app; by left).
  assert (Hreg : forall k w, registered c k w ->
    wa_done w ∈ sc_closed (notify c key version) \/ registered (notify c key version) k w).
  { intros k w Hw. rewrite notify_registered. destruct (decide (k = key /\ wa_min w <= version)) as [[-> Hle]|Hn].
    - left. by apply notify_closed.
    - right. split; [done|]. naive_solver. }
  assert (Hwoken : forall j k min ch, pool !! j = Some (SBlocked k min ch) -> k = key -> min <= version ->
    ch ∈ sc_closed (notify c key version)).
  { intros j k min ch Hj -> Hle. destruct (wo_registered _ _ Hok j _ key (mkWaiter min ch) Hj eq_refl) as [?|Hr];
      [by apply Hclosed|]. by apply (notify_closed c key version (mkWaiter min ch)). }
  destruct Hok. constructor; try done.
  - intros j pcj k w _ _ _ Hw. by apply Hreg.
  - intros k w Hw%Hwait. destruct (wo_registered0 _ _ _ _ Hi Hw); [left; by apply Hclosed|by apply Hreg].
  - intros ch Hc%Hch. split; [|by left]. by eapply wo_channels0.
  - intros j k min ch e _ Hj Hopen Hs Hle. right. split; [done|]. intros [-> Hv]%Hwill.
    by destruct Hopen; eapply Hwoken.
  - intros k min ch e Hp Hopen. destruct (Hblock _ _ _ Hp) as [-> Hle]. destruct Hopen. subst pc'.
    specialize (Hwait _ eq_refl). destruct (wo_registered0 _ _ _ _ Hi Hwait) as [?|Hr]; [by apply Hclosed|].
    by apply (notify_closed c key version (mkWaiter min ch)).
Qed.

Lemma register_keeps c pool i key min :
  waiting_ok c pool -> pool !! i = Some (SRegister key min) ->
  waiting_ok (registerWaiter c key min).1 (<[i := (registerWaiter c key min).2]> pool).
Proof using Type.
  intros Hok Hi. unfold registerWaiter. case_match eqn:Hfull.
  { eapply calm_ok; [done|done|by eapply calm_refl|done..| |done|done]. intros. by left. }
  destruct (register_waiter_ok c key min (wo_waiters _ _ Hok)) as [Hr Hreg].
  { intros Hmax. apply andb_false_iff in Hfull as [Hf|Hf]; bool_to_prop; lia. }
  cbn [fst snd]. eapply keeps_ok; [done|done|]. destruct Hok. constructor; try done.
  - cbn. lia.
  - intros j pcj k w _ Hj Hw Hreg'. right. apply Hreg. by left.
  - intros k w [= <- <-]. right. apply Hreg. by right.
  - cbn. intros ch [= <-]. split; [lia|right; lia].
  - intros j k m ch e _ Hj Hopen Hs Hle. right. by split.
Qed.

Lemma remove_keeps c pool i key ch err :
  waiting_ok c pool -> pool !! i = Some (SRemove key ch err) ->
  keeps c (removeWaiter c key ch) pool i (SRemove key ch err) (SReturned (Err (ErrContext err))).
Proof using Type.
  intros Hok Hi. pose proof (removeWaiter_ok c key ch (wo_waiters _ _ Hok)).
  pose proof (fun k w => removeWaiter_registered c key ch k w (wo_waiters _ _ Hok)) as Hreg.
  destruct Hok. constructor; try done.
  - intros j pcj k w Hne Hj Hw Hr. right. apply Hreg. split; [done|]. intros -> Hd.
    apply Hne. eapply wo_unique0; [exact Hj|exact Hi| |done]. destruct pcj; try done; injection Hw as _ <-; by rewrite <-Hd.
  - intros j k m ch' e _ Hj Hopen Hs Hle. right. by split.
Qed.

(** The stores are left alone, or the local one is read. *)
Lemma quiet_waiting c c' pool i pc pc' :
  waiting_ok c pool -> pool !! i = Some pc -> calm c c' -> in_place pc' -> channelOf pc' = None ->
  waitingFor pc' = None -> (forall k e, shownBy c' k = Some e -> shownBy c k = Some e) ->
  (forall k m, will_notify pc k m -> will_notify pc' k m) -> waiting_ok c' (<[i := pc']> pool).
Proof using Type.
  intros Hok Hi Hcalm ? Hch Hw Hs ?. eapply calm_ok; [done|done|done|done| | | |done|].
  - by rewrite Hch.
  - by rewrite Hw.
  - intros k e He. left. by apply Hs.
  - intros k m ch e ->. done.
Qed.

Lemma get_waiting c c' pool i pc pc' key t r :
  waiting_ok c pool -> pool !! i = Some pc -> localGet c key t = (c', r) -> in_place pc' -> channelOf pc' = None ->
  waitingFor pc' = None -> (forall k m, ~ will_notify pc k m) -> waiting_ok c' (<[i := pc']> pool).
Proof using Type.
  intros Hok Hi Hg ??? Hn. destruct (localGet_calm _ _ _ _ _ _ Hok Hg) as (? & ? & _).
  eapply quiet_waiting; try done. intros k m Hw. by destruct (Hn k m).
Qed.

(** The second look at the local store, after the waiter was registered. *)
Lemma recheck_waiting c c' pool i key min ch t r :
  waiting_ok c pool -> pool !! i = Some (SRecheck key min ch) -> rd_now t <= rd_now' t ->
  localGet c key t = (c', r) ->
  waiting_ok c' (<[i := match recentEnough min r with
                        | Some version => SWake key min ch version
                        | None => SBlocked key min ch
                        end]> pool).
Proof using Type.
  intros Hok Hi Ht Hg. destruct (localGet_calm _ _ _ _ _ _ Hok Hg) as (Hcalm & Hs & Hr).
  eapply calm_ok; [done|done|done| | | | |done|].
  - unfold recentEnough. repeat case_match; try done. bool_to_prop. cbn. simplify_eq. lia.
  - by case_match.
  - by case_match.
  - intros k e He. left. by apply Hs.
  - intros k m ch' e. unfold recentEnough. intros Hp He. specialize (Hr Ht e).
    destruct r as [[e'|]|err']; [|injection Hp as <- <- <-; by specialize (Hr He)..].
    destruct (Z.leb_spec min (ev_StateVersion e')); [done|]. injection Hp as <- <- <-.
    specialize (Hr He). injection Hr as <-. lia.
Qed.

Lemma snapshotStep_waiting c pool i pc a c' pc' :
  waiting_ok c pool -> pool !! i = Some pc -> rd_now (an_time a) <= rd_now' (an_time a) ->
  snapshotStep deltas c pc a = Some (c', pc') -> waiting_ok c' (<[i := pc']> pool).
Proof using Type.
  intros Hok Hi Ht Hstep. pose proof (Forall_lookup_1 _ _ _ _ (wo_pcs _ _ Hok) Hi) as Hplace.
  pose proof (calm_refl c pool Hok) as Hrefl.
  pose proof (fun c1 pc1 => quiet_waiting c c1 pool i pc pc1 Hok Hi) as Hquiet.
  pose proof (fun key c1 r pc1 => get_waiting c c1 pool i pc pc1 key (an_time a) r Hok Hi) as Hget.
  destruct pc as [s next|s next|s p next|s next|s out next|u|cons min p|key min|key|p|key min|key min
    |key min ch|key min ch ver|key min ch|key ch err| |key out|out]; cbn [snapshotStep] in Hstep; try done.
  - case_bool_decide; [done|]. injection Hstep as <- <-. apply Hquiet; try done. by destruct Hrefl.
  - unfold publishCheck in Hstep. destruct (localGet c (ev_Key s) (an_time a)) as [c1 r] eqn:Hg.
    injection Hstep as <- <-. eapply Hget; [exact Hg|..]; repeat case_match; try done; cbn; first [by left|by intros ?? []].
  - destruct Hplace as [->|[->|[r ->]]].
    + unfold inLayered in Hstep. cbn [rtStep] in Hstep. injection Hstep as <- <-.
      apply Hquiet; try done; [by apply calm_layered; try done; apply (wo_configured _ _ Hok)|].
      unfold setStart. repeat case_match; cbn; eauto.
    + destruct (writes _ _ _ _ _ _ _ Hok Hstep) as (Hcalm & [r ->] & Hshow).
      eapply calm_ok; [done|done|done| | |done|done| |]; try done. cbn. eauto.
    + injection Hstep as <- <-. destruct r; apply Hquiet; try done.
  - injection Hstep as <- <-. eapply keeps_ok; [done|done|]. apply notify_keeps; try done. by intros k m [<- ?].
  - injection Hstep as <- <-. apply Hquiet; try done; [by destruct Hrefl|by destruct next, out..].
  - unfold applyUpdate in Hstep. case_match; [injection Hstep as <- <-; by apply Hquiet|].
    destruct (rs_Full u); [injection Hstep as <- <-; by apply Hquiet|].
    destruct (localGet c (rs_Key u) (an_time a)) as [c1 r] eqn:Hg. injection Hstep as <- <-.
    eapply Hget; [exact Hg|..]; repeat case_match; try done; by intros ?? [].
  - destruct (forgets _ _ _ _ _ _ _ _ Hok Hplace ltac:(left; by eexists _, _) Hstep) as (? & ? & ? & p' & ->).
    by apply Hquiet.
  - injection Hstep as <- <-. unfold loadAuthoritative. destruct (wo_alone _ _ Hok) as (_ & _ & ->). by apply Hquiet.
  - destruct (localGet c key (an_time a)) as [c1 r] eqn:Hg. injection Hstep as <- <-. eapply Hget; [exact Hg|done..|by intros ?? []].
  - destruct (forgets _ _ _ _ _ _ _ _ Hok Hplace ltac:(by right) Hstep) as (? & ? & ? & p' & ->).
    by apply Hquiet.
  - unfold waitForVersion in Hstep. case_match; [injection Hstep as <- <-; by apply Hquiet|].
    destruct (localGet c key (an_time a)) as [c1 r] eqn:Hg. injection Hstep as <- <-.
    eapply Hget; [exact Hg|..]; repeat case_match; try done; by intros ?? [].
  - injection Hstep as Hstep. pose proof (register_keeps c pool i key min Hok Hi) as Hk. by rewrite Hstep in Hk.
  - destruct (localGet c key (an_time a)) as [c1 r] eqn:Hg. injection Hstep as <- <-.
    by eapply recheck_waiting.
  - injection Hstep as <- <-. eapply keeps_ok; [done|done|]. apply notify_keeps; try done. by intros k m ch' [= <- <- <-].
  - destruct (an_cancelled a).
    + injection Hstep as <- <-. eapply calm_ok; [done|done|done|done..| |done|done]. by left.
    + case_bool_decide; [|done]. injection Hstep as <- <-. by apply Hquiet.
  - injection Hstep as <- <-. eapply keeps_ok; [done|done|]. by apply remove_keeps.
Qed.

Lemma begin_waiting c pool call : waiting_ok c pool -> waiting_ok c (pool ++ [startPc call]).
Proof using Type.
  intros []. assert (Hstart : in_place (startPc call) /\ channelOf (startPc call) = None /\ waitingFor (startPc call) = None
    /\ forall key min ch, startPc call <> SBlocked key min ch) by (by destruct call).
  destruct Hstart as (Hplace & Hch & Hw & Hb).
  assert (Hin : forall i pc, (pool ++ [startPc call]) !! i = Some pc -> pool !! i = Some pc \/ pc = startPc call).
  { intros i pc [?|[_ Hi]]%lookup_app_Some; [by left|right]. by apply list_lookup_singleton_Some in Hi as [_ ->]. }
  constructor; try done.
  - apply Forall_app. split; [done|]. by apply Forall_singleton.
  - intros i pc ch [Hi| ->]%Hin Hc; [by eapply wo_channels0|congruence].
  - intros i j pc pc' ch Hi Hj Hc Hc'. destruct (Hin _ _ Hi) as [Hi'| ->]; [|congruence].
    destruct (Hin _ _ Hj) as [Hj'| ->]; [by eapply wo_unique0|congruence].
  - intros i pc key w [Hi| ->]%Hin Hc; [by eapply wo_registered0|congruence].
  - intros i key min ch e [Hi|Hp]%Hin Ho Hs Hle; [|by destruct (Hb key min ch)].
    destruct (wo_blocked0 _ _ _ _ _ Hi Ho Hs Hle) as (j & pc & Hj & Hn). exists j, pc. split; [|done].
    by apply lookup_app_l_Some.
Qed.

(** The clock does not go back within a call. *)
Definition event_timely (ev : snapshotEvent) : Prop :=
  match ev with Begin _ => True | Proceed _ a => rd_now (an_time a) <= rd_now' (an_time a) end.

Lemma snapshotRun_waiting c es :
  waiting_ok c [] -> Forall event_timely es ->
  waiting_ok (snapshotRun deltas c es).1 (snapshotRun deltas c es).2.
Proof using Type.
  intros Hok Hes. assert (Hst : waiting_ok (c, @nil snapshotPc).1 (c, @nil snapshotPc).2) by done. clear Hok.
  unfold snapshotRun. revert Hst. generalize (c, @nil snapshotPc).
  induction Hes as [|ev es Hev Hes IH]; intros [c1 pool] Hok; [done|]. cbn [foldl]. apply IH.
  destruct ev as [call|i a]; cbn [snapshotExec fst snd] in *; [by apply begin_waiting|].
  destruct (pool !! i) as [pc|] eqn:Hi; [|done].
  destruct (snapshotStep deltas c1 pc a) as [[c' pc']|] eqn:Hstep; [|done]. by eapply snapshotStep_waiting.
Qed.

End Waiters.

Lemma snapshotStale_refl e : snapshotStale e e = false.
Proof. unfold snapshotStale. rewrite !Z.eqb_refl. cbn. apply Z.ltb_irrefl. Qed.

(** ** Properties *)

Section Concrete.
Context (reg : Registry) (deltas : gmap Z RemoteSnapshotDeltaFunc).
Context (ranged : gmap RemoteSnapshotKey (atomicLocalEntry RemoteSnapshotEnvelope)
                  -> list (RemoteSnapshotKey * atomicLocalEntry RemoteSnapshotEnvelope))
        (hash : RemoteSnapshotKey -> Z).

#[local] Instance localStore
    : Store (AtomicLocalStore RemoteSnapshotKey RemoteSnapshotEnvelope snapshotFault)
        RemoteSnapshotKey RemoteSnapshotEnvelope snapshotFault := ClockStore ranged hash.
#[local] Instance localStore_lossy : LossyStore (storeCfg reg) := ClockStore_lossy ranged hash (storeCfg reg).

Abbreviation snapshotCache :=
  (RemoteSnapshotCache (AtomicLocalStore RemoteSnapshotKey RemoteSnapshotEnvelope snapshotFault)).

(** The snapshot of a key in the local store. *)
Definition cached (c : snapshotCache) (key : RemoteSnapshotKey) : option RemoteSnapshotEnvelope :=
  match rt_local (sc_layered c) with
  | Some local => shows hash (storeCfg reg) local key
  | None => None
  end.

(** A cache that was just made and the calls made of it since. *)
Definition runCache (cfg : RemoteSnapshotCacheConfig) (l2 loader : bool) (es : list snapshotEvent)
    : snapshotCache * list snapshotPc :=
  snapshotRun deltas (NewRemoteSnapshotCache reg cfg l2 loader) es.

Lemma new_cached cfg l2 loader key : cached (NewRemoteSnapshotCache reg cfg l2 loader) key = None.
Proof using Type.
  unfold cached, shows. cbn [NewRemoteSnapshotCache sc_layered NewReadThroughStore rt_local].
  destruct (validKey _ key); [|done].
  destruct (al_shards _ !! _) as [sh|] eqn:Hsh; [|done]. unfold NewAtomicLocalStore in Hsh. cbn [al_shards] in Hsh.
  by apply lookup_replicate in Hsh as [-> _].
Qed.

Lemma new_cache_ok truth cfg l2 loader : cache_ok reg deltas truth (NewRemoteSnapshotCache reg cfg l2 loader) [].
Proof using Type.
  constructor; [|done]. constructor; [| |done|done].
  - apply (rtRun_flight _ []); [|done..]. cbn. case_match; bool_to_prop; lia.
  - constructor; [done|by intros local [= <-]|]. intros k v Hv. pose proof (new_cached cfg l2 loader k) as Hn.
    change (cached (NewRemoteSnapshotCache reg cfg l2 loader) k = Some v) in Hv. congruence.
Qed.

Lemma maxWaiters_step (c c' : snapshotCache) pc a pc' :
  snapshotStep deltas c pc a = Some (c', pc') -> sc_maxWaiters c' = sc_maxWaiters c.
Proof using Type.
  assert (Hget : forall key t, sc_maxWaiters (localGet c key t).1 = sc_maxWaiters c).
  { intros key t. unfold localGet. case_match; [|done]. by destruct (store_Get _ _ _). }
  assert (Hin : forall p wrap, inLayered c p a wrap = Some (c', pc') -> sc_maxWaiters c' = sc_maxWaiters c).
  { intros p wrap. unfold inLayered. case_match; [|done]. case_match. by intros [= <- _]. }
  destruct pc; cbn [snapshotStep]; try done; try (by intros [= <- _]); try (apply Hin).
  - case_match; [done|]. by intros [= <- _].
  - unfold publishCheck. specialize (Hget (ev_Key snapshot) (an_time a)). destruct (localGet _ _ _). by intros [= <- _].
  - destruct pc; try apply Hin. by intros [= <- _].
  - unfold applyUpdate. specialize (Hget (rs_Key update) (an_time a)). destruct (localGet _ _ _).
    repeat (case_match; [by intros [= <- _]|]). by intros [= <- _].
  - specialize (Hget key (an_time a)). destruct (localGet _ _ _). by intros [= <- _].
  - unfold waitForVersion. specialize (Hget key (an_time a)). destruct (localGet _ _ _).
    case_match; by intros [= <- _].
  - unfold registerWaiter. case_match; by intros [= <- _].
  - specialize (Hget key (an_time a)). destruct (localGet _ _ _). by intros [= <- _].
  - repeat case_match; try done; by intros [= <- _].
Qed.

Lemma maxWaiters_fixed cfg l2 loader es : sc_maxWaiters (runCache cfg l2 loader es).1 = cc_MaxWaiters cfg.
Proof using Type.
  unfold runCache, snapshotRun. change (cc_MaxWaiters cfg) with
    (sc_maxWaiters (NewRemoteSnapshotCache reg cfg l2 loader, @nil snapshotPc).1).
  generalize (NewRemoteSnapshotCache reg cfg l2 loader, @nil snapshotPc).
  induction es as [|ev es IH]; intros st; [done|]. cbn [foldl]. rewrite IH.
  destruct ev as [call|i a]; [done|]. cbn [snapshotExec]. case_match; [|done].
  destruct (snapshotStep _ _ _ _) as [[c' pc']|] eqn:Hstep; [|done]. by eapply maxWaiters_step.
Qed.

Lemma new_waiting_ok cfg : waiting_ok reg (NewRemoteSnapshotCache reg cfg false false) [].
Proof using Type.
  constructor; try done.
  - constructor; try done.
    + intros key. constructor.
    + intros key key' w w' Hw. by apply not_elem_of_nil in Hw.
    + intros key w Hw. by apply not_elem_of_nil in Hw.
    + constructor.
    + intros key w Hw. by apply not_elem_of_nil in Hw.
    + intros ch Hch. by apply not_elem_of_nil in Hch.
    + exists ∅. split; [|done]. intros ch. split; [set_solver|]. intros (key & w & Hw & _). by apply not_elem_of_nil in Hw.
    + cbn. lia.
  - by intros local [= <-].
Qed.

(** C10. The snapshot cache tells the truth: if the snapshots that are published,
    the updates that arrive (in any order, repeated, or with gaps) and the
    answers of the second store and of the loader are those of a history of
    versions, then under every interleaving of calls the cache holds and returns
    only valid snapshots of the requested key with the payload of their version,
    deltas included; a read ([Get]) that asks for a version gets one at least as
    recent; and no step replaces a cached snapshot by an older one.  For
    [LoadAuthoritative] the version is not promised
    ([authoritative_load_below_min]). *)
Theorem RemoteSnapshotCache_truthful truth cfg l2 loader es :
  run_true reg deltas truth (NewRemoteSnapshotCache reg cfg l2 loader, []) es ->
  let st := runCache cfg l2 loader es in
  (forall key e, cached st.1 key = Some e -> genuine reg truth key e)
  /\ (forall i consistency minVersion key out e,
        st.2 !! i = Some (SRead consistency minVersion (RGot key out)) ->
        readOutcome consistency minVersion out = Ok (Some e) ->
        genuine reg truth key e /\ (consistency <> RemoteReadCached -> minVersion <= ev_StateVersion e))
  /\ (forall i key e, st.2 !! i = Some (SLoaded key (Ok (Some e))) -> genuine reg truth key e)
  /\ (forall ev key old new, event_true reg deltas truth st ev ->
        cached st.1 key = Some old -> cached (snapshotExec deltas st ev).1 key = Some new ->
        snapshotStale old new = false).
Proof using Type.
  intros Htrue st. pose proof (snapshotRun_ok reg deltas truth _ es (new_cache_ok truth cfg l2 loader) Htrue) as Hok.
  assert (Hst : snapshotRun deltas (NewRemoteSnapshotCache reg cfg l2 loader) es = st) by done. rewrite Hst in Hok.
  destruct (co_layered _ _ _ _ _ Hok) as [_ Hl Hpcs _]. split_and!.
  - intros key e He. by apply (lo_good _ _ _ Hl).
  - intros i cons min key out e Hi Hout.
    assert (Hg : out_good (genuine reg truth) key out).
    { by apply (Forall_lookup_1 _ _ i (RGot key out) Hpcs); rewrite list_lookup_fmap, Hi. }
    unfold readOutcome in Hout. destruct out as [[e'|]|]; [|done|done]. specialize (Hg e' eq_refl).
    destruct cons; try (destruct (Z.leb_spec min (ev_StateVersion e')); [|done]); injection Hout as <-; done.
  - intros i key e Hi. exact (Forall_lookup_1 _ _ _ _ (co_pcs _ _ _ _ _ Hok) Hi).
  - intros ev key old new Hev Hold Hnew. destruct (snapshotExec_ok reg deltas truth st ev Hok Hev) as [_ Hevolves].
    destruct (Hevolves key) as [[Heq|Heq]|(v & Hv & Hstale)].
    + assert (new = old) as -> by (unfold cached in *; unfold shown in Heq; cbn in Heq; congruence). apply snapshotStale_refl.
    + unfold cached in *. unfold shown in Heq. cbn in Heq. congruence.
    + assert (new = v) as -> by (unfold cached in *; unfold shown in Hv; cbn in Hv; congruence). exact (Hstale old Hold).
Qed.

(** C11. Nobody waits for a version that is there: in a cache without second store
    and loader, which is filled by publications and updates only, with a clock
    that does not go back within a call, under every interleaving, the number of waiters is
    the number of registered channels and stays within [MaxWaiters], no channel
    is closed twice, and a goroutine that is blocked in [WaitForVersion] is
    registered, and the version it asked for is not in the cache unless the
    goroutine that wrote it is about to notify; then the notification closes its
    channel, and once it is closed the call returns. *)
Theorem RemoteSnapshotCache_no_lost_wakeup cfg es :
  Forall event_timely es ->
  let st := runCache cfg false false es in
  (exists W : gset nat,
     (forall ch, ch ∈ W <-> exists key w, w ∈ waitersOf st.1 key /\ wa_done w = ch)
     /\ sc_waiterCount st.1 = Z.of_nat (size W)
     /\ (0 < cc_MaxWaiters cfg -> sc_waiterCount st.1 <= cc_MaxWaiters cfg))
  /\ NoDup (sc_closed st.1)
  /\ (forall i key min ch, st.2 !! i = Some (SBlocked key min ch) ->
        (if bool_decide (ch ∈ sc_closed st.1)
         then forall a, an_cancelled a = None ->
                snapshotStep deltas st.1 (SBlocked key min ch) a = Some (st.1, SReturned (Ok tt))
         else mkWaiter min ch ∈ waitersOf st.1 key
              /\ (forall e, cached st.1 key = Some e -> min <= ev_StateVersion e ->
                    exists j pc, st.2 !! j = Some pc /\ will_notify pc key min)
              /\ forall version, min <= version -> ch ∈ sc_closed (notify st.1 key version))).
Proof using Type.
  intros Hes st. pose proof (snapshotRun_waiting reg deltas _ es (new_waiting_ok cfg) Hes) as Hok.
  assert (Hst : snapshotRun deltas (NewRemoteSnapshotCache reg cfg false false) es = st) by done. rewrite Hst in Hok.
  assert (Hmax : sc_maxWaiters st.1 = cc_MaxWaiters cfg) by (subst st; apply maxWaiters_fixed).
  destruct Hok. destruct wo_waiters0. split_and!; [|done|].
  - destruct rg_count0 as (W & HW & Hc). exists W. split_and!; [done|done|]. by rewrite <-Hmax.
  - intros i key min ch Hi. case_bool_decide as Hch.
    + intros a Ha. cbn. rewrite Ha. by rewrite bool_decide_true.
    + destruct (wo_registered0 i _ key (mkWaiter min ch) Hi eq_refl) as [?|Hr]; [done|]. split_and!; [done| |].
      * intros e He Hle. by eapply wo_blocked0.
      * intros version Hle. by apply (notify_closed st.1 key version (mkWaiter min ch)).
Qed.

End Concrete.

(** ** A cache that runs *)

Definition sampleKey : RemoteSnapshotKey := mkSnapshotKey 0 5149 7 1 0.

(** Version [v] is the first [v] of three bytes; a delta is what to append. *)
Definition sampleTruth (key : RemoteSnapshotKey) (marker route version : Z) : option (Z * Z * list Byte.byte) :=
  if (1 <=? version) && (version <=? 3)
  then Some (1, 0, take (Z.to_nat version) [Byte.x0a; Byte.x0b; Byte.x0c]) else None.

Definition sampleDeltas : gmap Z RemoteSnapshotDeltaFunc := {[1 := fun base delta => Ok (base ++ delta)]}.

Definition sampleCacheConfig : RemoteSnapshotCacheConfig := mkCacheConfig 1 4 0 0 2.

Definition silent : answers RemoteSnapshotEnvelope snapshotFault :=
  mkAnswers (mkReadings 10 10) (Ok None) None None (Some (Ok None)) None.

(** Eight steps take a full or a delta update to its end. *)
Definition sampleEvents : list snapshotEvent :=
  [Begin (CallApplyUpdate (mkSnapshotRecord sampleKey 0 1 1 1 1 0 true [Byte.x0a] 0))]
  ++ replicate 8 (Proceed 0 silent)
  ++ [Begin (CallWaitForVersion sampleKey 2)] ++ replicate 3 (Proceed 1 silent)
  ++ [Begin (CallApplyUpdate (mkSnapshotRecord sampleKey 1 2 1 1 1 0 false [Byte.x0b] 0))]
  ++ replicate 8 (Proceed 2 silent) ++ [Proceed 1 silent]
  ++ [Begin (CallGet sampleKey RemoteReadMonotonic 2); Proceed 3 silent].

Definition runSample (l2 loader : bool) (es : list snapshotEvent) :=
  runCache sample_registry sampleDeltas map_to_list (fun _ => 0) sampleCacheConfig l2 loader es.

Lemma RemoteSnapshotCache_truthful_witness :
  exists out e,
    (runSample false false sampleEvents).2 !! 3%nat = Some (SRead RemoteReadMonotonic 2 (RGot sampleKey out))
    /\ readOutcome RemoteReadMonotonic 2 out = Ok (Some e)
    /\ genuine sample_registry sampleTruth sampleKey e /\ ev_Payload e = [Byte.x0a; Byte.x0b].
Proof.
  destruct (RemoteSnapshotCache_truthful sample_registry sampleDeltas map_to_list (fun _ => 0) sampleTruth
    sampleCacheConfig false false sampleEvents) as (_ & Hread & _).
  - apply run_true_silent. repeat (constructor; [try done|]); [|constructor].
    intros base data Hbase. vm_compute in Hbase. injection Hbase as <-. vm_compute. by intros [= <-].
  - eexists _, _. split; [vm_compute; reflexivity|]. split; [vm_compute; reflexivity|].
    split; [|reflexivity]. eapply (Hread 3%nat); vm_compute; reflexivity.
Defined.

Abbreviation sampleCache es :=
  (runCache sample_registry sampleDeltas map_to_list (fun _ => 0) sampleCacheConfig false false es).

Lemma sample_blocked : (sampleCache (take 13 sampleEvents)).2 !! 1%nat = Some (SBlocked sampleKey 2 0).
Proof. vm_compute. reflexivity. Qed.

Lemma sample_open : bool_decide (0%nat ∈ sc_closed (sampleCache (take 13 sampleEvents)).1) = false.
Proof. vm_compute. reflexivity. Qed.

Lemma sample_woken : (sampleCache sampleEvents).2 !! 1%nat = Some (SReturned (Ok tt)).
Proof. vm_compute. reflexivity. Qed.

Lemma RemoteSnapshotCache_no_lost_wakeup_witness :
  (sampleCache (take 13 sampleEvents)).2 !! 1%nat = Some (SBlocked sampleKey 2 0)
  /\ mkWaiter 2 0 ∈ waitersOf (sampleCache (take 13 sampleEvents)).1 sampleKey
  /\ (sampleCache sampleEvents).2 !! 1%nat = Some (SReturned (Ok tt)).
Proof.
  split; [exact sample_blocked|]. split; [|exact sample_woken].
  destruct (RemoteSnapshotCache_no_lost_wakeup sample_registry sampleDeltas map_to_list (fun _ => 0)
    sampleCacheConfig (take 13 sampleEvents) ltac:(by repeat constructor)) as (_ & _ & Hblocked).
  specialize (Hblocked 1%nat sampleKey 2 0%nat sample_blocked). rewrite sample_open in Hblocked.
  exact (proj1 Hblocked).
Defined.

(** ** Where waiters are not served *)

Definition sampleEnvelope (marker version : Z) : RemoteSnapshotEnvelope :=
  withChecksum (mkEnvelope sampleKey version 0 marker 1 1 0 0 true 0 0 [Byte.x0a]).

Definition loads (e : RemoteSnapshotEnvelope) : answers RemoteSnapshotEnvelope snapshotFault :=
  mkAnswers (mkReadings 10 10) (Ok None) None None (Some (Ok (Some e))) None.

(** A read that misses brings the awaited version into the cache without waking
    anybody, and the publication of that version, which then finds it there,
    returns without waking anybody either: the waiter stays blocked although the
    cache holds its version and every call has returned. *)
Theorem loaded_version_wakes_nobody :
  let st := runSample false true
    ([Begin (CallWaitForVersion sampleKey 5)] ++ replicate 3 (Proceed 0 silent)
     ++ [Begin (CallGet sampleKey RemoteReadCached 0)] ++ replicate 7 (Proceed 1 (loads (sampleEnvelope 1 5)))
     ++ [Begin (CallPublish (sampleEnvelope 1 5))] ++ replicate 3 (Proceed 2 silent)) in
  st.2 = [SBlocked sampleKey 5 0; SRead RemoteReadCached 0 (RGot sampleKey (Ok (Some (sampleEnvelope 1 5))));
          SReturned (Ok tt)]
  /\ cached sample_registry (fun _ => 0) st.1 sampleKey = Some (sampleEnvelope 1 5)
  /\ snapshotStep (S := AtomicLocalStore _ _ _) (Store0 := ClockStore map_to_list (fun _ => 0)) sampleDeltas st.1
       (SBlocked sampleKey 5 0) silent = None.
Proof. cbn zeta. split_and!; vm_compute; reflexivity. Qed.

(** [Publish] notifies with the version it was given even when the store ignored
    the snapshot as one of an older epoch: a waiter for version 8 is told that it
    is there while the cache holds version 3. *)
Theorem stale_publication_wakes :
  let st := runSample false false
    ([Begin (CallPublish (sampleEnvelope 2 3))] ++ replicate 7 (Proceed 0 silent)
     ++ [Begin (CallWaitForVersion sampleKey 8)] ++ replicate 3 (Proceed 1 silent)
     ++ [Begin (CallPublish (sampleEnvelope 1 10))] ++ replicate 7 (Proceed 2 silent) ++ [Proceed 1 silent]) in
  st.2 = [SReturned (Ok tt); SReturned (Ok tt); SReturned (Ok tt)]
  /\ cached sample_registry (fun _ => 0) st.1 sampleKey = Some (sampleEnvelope 2 3).
Proof. cbn zeta. split_and!; vm_compute; reflexivity. Qed.

(** [LoadAuthoritative] compares the version the loader answered with the one that
    is asked for, and then returns what the cache holds: when the cache has a
    snapshot of a newer epoch, that one is returned although its version, 3, is
    below the 8 that were asked for. *)
Theorem authoritative_load_below_min :
  let st := runSample false true
    ([Begin (CallPublish (sampleEnvelope 2 3))] ++ replicate 7 (Proceed 0 silent)
     ++ [Begin (CallLoadAuthoritative sampleKey 8)] ++ replicate 9 (Proceed 1 (loads (sampleEnvelope 1 10)))) in
  st.2 = [SReturned (Ok tt); SLoaded sampleKey (Ok (Some (sampleEnvelope 2 3)))]
  /\ ev_StateVersion (sampleEnvelope 2 3) = 3.
Proof. cbn zeta. split_and!; vm_compute; reflexivity. Qed.
