(* ===== verification/WorkerQueue.v ===== *)
(** * Workers on a multi-producer single-consumer ring

    Models [src/misc/mpsc_queue.go] and [src/worker/worker.go]: the lock-free
    bounded ring, the goroutine that drains it, and the calls [TryCast], [Cast]
    and [Close] that race with it.

    A step is one atomic operation, one access to the value of a slot, one
    operation of the notification channel, or one run of the handler; a run is
    any interleaving of the worker with any number of callers.  Sequence numbers
    are kept at 64 bits and compared as signed differences, as in the code.
    [w_order] is history: the tasks in the order their slots were reserved. *)

From stdpp Require Import base list.
From Stdlib Require Import ZArith Lia.
From S2P Require Import Prelude.

#[local] Open Scope Z_scope.

(** ** The ring *)

Record mpscSlot (T : Type) := mkSlot {
  slot_seq : Z;
  slot_val : T
}.
Arguments mkSlot {T}.
Arguments slot_seq {T}.
Arguments slot_val {T}.

Record MPSCQueue (T : Type) := mkQueue {
  q_buf : list (mpscSlot T);
  q_mask : Z;
  q_head : Z;
  q_tail : Z
}.
Arguments mkQueue {T}.
Arguments q_buf {T}.
Arguments q_mask {T}.
Arguments q_head {T}.
Arguments q_tail {T}.

Definition nextPow2 (n : Z) : Z :=
  if n <=? 0 then 1 else
  let n := n - 1 in
  let n := Z.lor n (Z.shiftr n 1) in
  let n := Z.lor n (Z.shiftr n 2) in
  let n := Z.lor n (Z.shiftr n 4) in
  let n := Z.lor n (Z.shiftr n 8) in
  let n := Z.lor n (Z.shiftr n 16) in
  let n := Z.lor n (Z.shiftr n 32) in
  wrapi64 (n + 1).

Definition NewMPSCQueue {T} (zero : T) (capacity : Z) : MPSCQueue T :=
  let cap2 := nextPow2 capacity in
  let cap2 := if cap2 <? 16 then 16 else cap2 in
  mkQueue ((fun i => mkSlot (Z.of_nat i) zero) <$> seq 0 (Z.to_nat cap2)) (u64! (cap2 - 1)) 0 0.

Definition slotAt {T} (q : MPSCQueue T) (n : Z) : option (mpscSlot T) :=
  q_buf q !! Z.to_nat (Z.land n (q_mask q)).

Definition setSlot {T} (q : MPSCQueue T) (n : Z) (f : mpscSlot T -> mpscSlot T) : MPSCQueue T :=
  mkQueue (alter f (Z.to_nat (Z.land n (q_mask q))) (q_buf q)) (q_mask q) (q_head q) (q_tail q).

Definition storeSeq {T} (n : Z) (s : mpscSlot T) : mpscSlot T := mkSlot n (slot_val s).
Definition storeVal {T} (v : T) (s : mpscSlot T) : mpscSlot T := mkSlot (slot_seq s) v.

(** [int64(seq) - int64(n)] *)
Definition seqDiff (a b : Z) : Z := wrapi64 (wrapi64 a - wrapi64 b).

(** The two loads of [Len] are separate: the indices it sees are arguments. *)
Definition MPSCQueue_Len (head tail : Z) : Z :=
  let n := seqDiff head tail in
  if n <? 0 then 0 else n.

Definition MPSCQueue_Cap {T} (q : MPSCQueue T) : Z := wrapi64 (u64! (q_mask q + 1)).

(** ** The worker and its callers *)

Record Worker (T : Type) := mkWorker {
  w_queue : MPSCQueue T;
  w_closed : bool;
  w_notify : bool;
  w_handled : list T;
  w_released : list T;
  w_order : list T
}.
Arguments mkWorker {T}.
Arguments w_queue {T}.
Arguments w_closed {T}.
Arguments w_notify {T}.
Arguments w_handled {T}.
Arguments w_released {T}.
Arguments w_order {T}.

(** Where a call stands.  The second argument of the first five says who called
    [TryCast]: its client, or [Cast] on its given attempt. *)
Inductive castPc (T : Type) : Type :=
| KLoadClosed (task : T) (spin : option Z)
| KLoadHead (task : T) (spin : option Z)
| KLoadSeq (task : T) (spin : option Z) (head : Z)
| KCas (task : T) (spin : option Z) (head : Z)
| KRetry (task : T) (spin : Z)
| KWrite (task : T) (head : Z)
| KPublish (task : T) (head : Z)
| KNotify (task : T) (head : Z)
| KAccepted (task : T) (head : Z)
| KRejected (task : T)
| KDropped (task : T)
| KCloseStore
| KCloseNotify
| KCloseDone.
Arguments KLoadClosed {T}.
Arguments KLoadHead {T}.
Arguments KLoadSeq {T}.
Arguments KCas {T}.
Arguments KRetry {T}.
Arguments KWrite {T}.
Arguments KPublish {T}.
Arguments KNotify {T}.
Arguments KAccepted {T}.
Arguments KRejected {T}.
Arguments KDropped {T}.
Arguments KCloseStore {T}.
Arguments KCloseNotify {T}.
Arguments KCloseDone {T}.

(** Where the goroutine of the worker stands.  [drain] tells the loop that runs
    after the worker was seen closed from the one before. *)
Inductive loopPc (T : Type) : Type :=
| WLoadTail (drain : bool)
| WLoadSeq (drain : bool) (tail : Z)
| WAdvance (drain : bool) (tail : Z)
| WRead (drain : bool) (tail : Z)
| WClear (drain : bool) (tail : Z) (val : T)
| WRelease (drain : bool) (tail : Z) (val : T)
| WHandle (drain : bool) (task : T)
| WCheck
| WRecv
| WExit.
Arguments WLoadTail {T}.
Arguments WLoadSeq {T}.
Arguments WAdvance {T}.
Arguments WRead {T}.
Arguments WClear {T}.
Arguments WRelease {T}.
Arguments WHandle {T}.
Arguments WCheck {T}.
Arguments WRecv {T}.
Arguments WExit {T}.

Section worker.
Context {T : Type} (zero : T).
Implicit Types (w : Worker T) (pc : castPc T) (wp : loopPc T) (pool : list (castPc T)).

Definition NewWorker (queueCap : Z) : Worker T :=
  mkWorker (NewMPSCQueue zero queueCap) false false [] [] [].

Definition withQueue w (q : MPSCQueue T) : Worker T :=
  mkWorker q (w_closed w) (w_notify w) (w_handled w) (w_released w) (w_order w).

Definition setHead (q : MPSCQueue T) (n : Z) : MPSCQueue T := mkQueue (q_buf q) (q_mask q) n (q_tail q).
Definition setTail (q : MPSCQueue T) (n : Z) : MPSCQueue T := mkQueue (q_buf q) (q_mask q) (q_head q) n.

(** A successful compare-and-swap of the head: the slot is reserved. *)
Definition reserve w (task : T) (head : Z) : Worker T :=
  mkWorker (setHead (w_queue w) (u64! (head + 1))) (w_closed w) (w_notify w)
    (w_handled w) (w_released w) (w_order w ++ [task]).

(** The send that does not block on a channel of capacity one. *)
Definition notify w : Worker T :=
  mkWorker (w_queue w) (w_closed w) true (w_handled w) (w_released w) (w_order w).

Definition release w (task : T) : Worker T :=
  mkWorker (w_queue w) (w_closed w) (w_notify w) (w_handled w) (w_released w ++ [task]) (w_order w).

Definition storeClosed w : Worker T :=
  mkWorker (w_queue w) true (w_notify w) (w_handled w) (w_released w) (w_order w).

(** [TryCast] returned false to its caller. *)
Definition refused (task : T) (spin : option Z) : castPc T :=
  match spin with Some n => KRetry task n | None => KRejected task end.

(** What the comparison of a slot's sequence number leads to in [Push]. *)
Definition pushDecide (task : T) (spin : option Z) (head seq : Z) : castPc T :=
  let diff := seqDiff seq head in
  if diff =? 0 then KCas task spin head
  else if diff <? 0 then refused task spin
  else KLoadHead task spin.

(** The body of the loop of [Cast], after an attempt that failed. *)
Definition castRetry w (task : T) (spin : Z) : Worker T * castPc T :=
  if w_closed w then (release w task, KDropped task) else
  let spin := spin + 1 in
  if spin <? 64 then (w, KLoadClosed task (Some spin))
  else if 1024 <? spin then (release w task, KDropped task)
  else (w, KLoadClosed task (Some spin)).

Definition castStep w pc : option (Worker T * castPc T) :=
  match pc with
  | KLoadClosed task spin =>
      Some (w, if w_closed w then refused task spin else KLoadHead task spin)
  | KLoadHead task spin => Some (w, KLoadSeq task spin (q_head (w_queue w)))
  | KLoadSeq task spin head =>
      slot ← slotAt (w_queue w) head; Some (w, pushDecide task spin head (slot_seq slot))
  | KCas task spin head =>
      if q_head (w_queue w) =? head
      then Some (reserve w task head, KWrite task head)
      else Some (w, KLoadHead task spin)
  | KRetry task spin => Some (castRetry w task spin)
  | KWrite task head =>
      Some (withQueue w (setSlot (w_queue w) head (storeVal task)), KPublish task head)
  | KPublish task head =>
      Some (withQueue w (setSlot (w_queue w) head (storeSeq (u64! (head + 1)))), KNotify task head)
  | KNotify task head => Some (notify w, KAccepted task head)
  | KCloseStore => Some (storeClosed w, KCloseNotify)
  | KCloseNotify => Some (notify w, KCloseDone)
  | KAccepted _ _ | KRejected _ | KDropped _ | KCloseDone => None
  end.

(** [safeHandle]: the handler runs and the task is released, whether the handler
    returns or panics. *)
Definition safeHandle w (task : T) : Worker T :=
  mkWorker (w_queue w) (w_closed w) (w_notify w) (w_handled w ++ [task])
    (w_released w ++ [task]) (w_order w).

(** What the comparison of the slot's sequence number leads to in [Pop], and in
    the loop around it when the queue looks empty. *)
Definition popDecide (drain : bool) (tail seq : Z) : loopPc T :=
  if seqDiff seq (u64! (tail + 1)) =? 0 then WAdvance drain tail
  else if drain then WExit else WCheck.

Definition loopStep w wp : option (Worker T * loopPc T) :=
  match wp with
  | WLoadTail drain => Some (w, WLoadSeq drain (q_tail (w_queue w)))
  | WLoadSeq drain tail =>
      slot ← slotAt (w_queue w) tail; Some (w, popDecide drain tail (slot_seq slot))
  | WAdvance drain tail =>
      Some (withQueue w (setTail (w_queue w) (u64! (tail + 1))), WRead drain tail)
  | WRead drain tail => slot ← slotAt (w_queue w) tail; Some (w, WClear drain tail (slot_val slot))
  | WClear drain tail val =>
      Some (withQueue w (setSlot (w_queue w) tail (storeVal zero)), WRelease drain tail val)
  | WRelease drain tail val =>
      Some (withQueue w (setSlot (w_queue w) tail (storeSeq (u64! (tail + q_mask (w_queue w) + 1)))),
            WHandle drain val)
  | WHandle drain task => Some (safeHandle w task, WLoadTail drain)
  | WCheck => Some (w, if w_closed w then WLoadTail true else WRecv)
  | WRecv =>
      if w_notify w
      then Some (mkWorker (w_queue w) (w_closed w) false (w_handled w) (w_released w) (w_order w),
                 WLoadTail false)
      else None
  | WExit => None
  end.

(** ** Runs *)

Inductive wkEvent : Type :=
| EvCall (pc : castPc T)
| EvCaller (i : nat)
| EvWorker.

Record wkState := mkState {
  st_worker : Worker T;
  st_loop : loopPc T;
  st_pool : list (castPc T)
}.

(** The points at which the exported calls start. *)
Definition starts pc : bool :=
  match pc with
  | KLoadClosed _ None | KCloseStore => true
  | KLoadClosed _ (Some n) => n =? 0
  | _ => false
  end.

Definition wkExec (s : wkState) (e : wkEvent) : option wkState :=
  match e with
  | EvCall pc => if starts pc then Some (mkState (st_worker s) (st_loop s) (st_pool s ++ [pc])) else None
  | EvCaller i =>
      pc ← st_pool s !! i;
      '(w, pc') ← castStep (st_worker s) pc;
      Some (mkState w (st_loop s) (<[i := pc']> (st_pool s)))
  | EvWorker =>
      '(w, wp) ← loopStep (st_worker s) (st_loop s);
      Some (mkState w wp (st_pool s))
  end.

Fixpoint wkRun (s : wkState) (es : list wkEvent) : option wkState :=
  match es with
  | [] => Some s
  | e :: es => s' ← wkExec s e; wkRun s' es
  end.

Definition initial (queueCap : Z) : wkState := mkState (NewWorker queueCap) (WLoadTail false) [].

End worker.
Arguments wkState : clear implicits.
Arguments wkEvent : clear implicits.

(** ** Powers of two by smearing bits *)

(** [y] has bit [i] exactly when [x] has one of the [n] bits from [i] on. *)
Definition smeared (n x y : Z) : Prop :=
  forall i, 0 <= i -> Z.testbit y i = true <-> exists j, 0 <= j < n /\ Z.testbit x (i + j) = true.

Lemma smeared_step n x y : 0 < n -> smeared n x y -> smeared (2 * n) x (Z.lor y (Z.shiftr y n)).
Proof.
  intros Hn Hs i Hi. rewrite Z.lor_spec, Z.shiftr_spec, orb_true_iff by lia.
  rewrite (Hs i) by lia. rewrite (Hs (i + n)) by lia. split.
  - intros [(j & ? & ?)|(j & ? & Hj)]; [exists j; split; [lia|done]|].
    exists (n + j). split; [lia|]. by rewrite Z.add_assoc.
  - intros (j & ? & Hj). destruct (decide (j < n)); [left; exists j; split; [lia|done]|].
    right. exists (j - n). split; [lia|]. by replace (i + n + (j - n)) with (i + j) by lia.
Qed.

Lemma smeared_all x y : 0 < x < 2 ^ 63 -> 0 <= y -> smeared 64 x y -> y = 2 ^ (Z.log2 x + 1) - 1.
Proof.
  intros Hx Hy Hs. rewrite Z.sub_1_r, <-Z.ones_equiv.
  assert (Hl : 0 <= Z.log2 x < 63) by (split; [apply Z.log2_nonneg | apply Z.log2_lt_pow2; lia]).
  apply Z.bits_inj'. intros i Hi. apply eq_true_iff_eq. rewrite (Hs i Hi), Z.ones_spec_iff by lia. split.
  - intros (j & ? & Hj). destruct (decide (i + j <= Z.log2 x)); [lia|].
    by rewrite Z.bits_above_log2 in Hj by lia.
  - intros ?. exists (Z.log2 x - i). split; [lia|].
    replace (i + (Z.log2 x - i)) with (Z.log2 x) by lia. apply Z.bit_log2. lia.
Qed.

(** One [n |= n >> k] of the code. *)
Ltac smear_once :=
  match goal with Hs : smeared ?n ?x ?y, H0 : 0 <= ?y |- _ =>
    let Hs' := fresh in let H0' := fresh in let z := fresh "z" in
    let m := eval vm_compute in (2 * n) in
    pose proof (smeared_step n x y eq_refl Hs : smeared m x (Z.lor y (Z.shiftr y n))) as Hs';
    assert (0 <= Z.lor y (Z.shiftr y n)) as H0'
      by (apply Z.lor_nonneg; split; [exact H0 | apply Z.shiftr_nonneg; exact H0]);
    clear Hs H0; revert Hs' H0'; generalize (Z.lor y (Z.shiftr y n)); intros z Hs H0
  end.

Lemma nextPow2_exact n :
  0 < n <= 2 ^ 62 ->
  exists k, 0 <= k <= 62 /\ nextPow2 n = 2 ^ k /\ n <= 2 ^ k /\ forall j, 0 <= j -> n <= 2 ^ j -> k <= j.
Proof.
  intros Hn. unfold nextPow2. destruct (Z.leb_spec n 0); [lia|]. set (x := n - 1). cbv zeta.
  assert (Hs : smeared 1 x x).
  { intros i Hi. split; [intros ?; exists 0; rewrite Z.add_0_r; split; [lia|done] |].
    intros (j & ? & Hj). by replace j with 0 in Hj by lia; rewrite Z.add_0_r in Hj. }
  assert (H0 : 0 <= x) by lia.
  smear_once. smear_once. smear_once. smear_once. smear_once. smear_once.
  destruct (decide (x = 0)) as [Hx|Hx].
  - replace z4 with 0. 2:{ symmetry. apply Z.bits_inj'. intros i Hi. rewrite Z.bits_0. apply not_true_is_false.
      rewrite (Hs i Hi), Hx. intros (j & _ & Hj). by rewrite Z.bits_0 in Hj. }
    exists 0. rewrite wrapi64_small by lia. change (2 ^ 0) with 1. repeat split; intros; lia.
  - assert (z4 = 2 ^ (Z.log2 x + 1) - 1) as -> by (apply smeared_all; [lia|done|done]).
    assert (Hlt : x < 2 ^ 62) by lia. apply Z.log2_lt_pow2 in Hlt; [|lia].
    pose proof (Z.log2_nonneg x). pose proof (Z.log2_spec x ltac:(lia)) as [Hlo Hhi].
    exists (Z.log2 x + 1). split; [lia|].
    assert (2 ^ (Z.log2 x + 1) <= 2 ^ 62) by (apply Z.pow_le_mono_r; lia).
    rewrite wrapi64_small by lia. rewrite <-Z.add_1_r in Hhi. repeat split; [lia..|].
    intros j Hj Hnj. destruct (decide (Z.log2 x + 1 <= j)); [done|].
    assert (2 ^ j <= 2 ^ Z.log2 x) by (apply Z.pow_le_mono_r; lia). lia.
Qed.

(** The capacity of a new ring: a power of two, at least 16, not below what was
    asked for; a request above 2^62 overflows and gets 16. *)
Lemma NewMPSCQueue_capacity {T} (zero : T) capacity :
  capacity <= 2 ^ 62 ->
  exists k, 4 <= k <= 62 /\ q_mask (NewMPSCQueue zero capacity) = 2 ^ k - 1
    /\ len (q_buf (NewMPSCQueue zero capacity)) = 2 ^ k /\ capacity <= 2 ^ k
    /\ forall j, 4 <= j -> capacity <= 2 ^ j -> k <= j.
Proof.
  intros Hc. unfold NewMPSCQueue. cbv zeta. cbn [q_mask q_buf].
  assert (exists k, 0 <= k <= 62 /\ nextPow2 capacity = 2 ^ k /\ capacity <= 2 ^ k
    /\ forall j, 0 <= j -> capacity <= 2 ^ j -> k <= j) as (k & Hk & -> & Hle & Hmin).
  { destruct (decide (0 < capacity)); [by apply nextPow2_exact|].
    exists 0. unfold nextPow2. destruct (Z.leb_spec capacity 0); [|lia]. change (2 ^ 0) with 1. repeat split; intros; lia. }
  set (m := Z.max 4 k). assert (Hm : (if 2 ^ k <? 16 then 16 else 2 ^ k) = 2 ^ m).
  { unfold m. destruct (Z.ltb_spec (2 ^ k) 16) as [Hlt|Hge].
    - destruct (decide (k < 4)); [by rewrite Z.max_l by lia|].
      assert (2 ^ 4 <= 2 ^ k) by (apply Z.pow_le_mono_r; lia). lia.
    - destruct (decide (4 <= k)); [by rewrite Z.max_r by lia|].
      assert (2 ^ k < 2 ^ 4) by (apply Z.pow_lt_mono_r; lia). lia. }
  rewrite Hm. exists m.
  assert (2 ^ 4 <= 2 ^ m <= 2 ^ 62) by (split; apply Z.pow_le_mono_r; lia).
  assert (2 ^ k <= 2 ^ m) by (apply Z.pow_le_mono_r; lia).
  split; [lia|]. split; [apply wrapu_small; unfold in_u; lia|].
  split; [unfold len; rewrite length_fmap, length_seq; lia|]. split; [lia|].
  intros j Hj Hcj. unfold m. specialize (Hmin j ltac:(lia) Hcj). lia.
Qed.

Lemma NewMPSCQueue_overflow {T} (zero : T) : q_mask (NewMPSCQueue zero (2 ^ 62 + 1)) = 15.
Proof. vm_compute. reflexivity. Qed.

(** ** The invariant of the ring *)

Section ring.
Context {T : Type} (zero : T) (k : Z).
Hypothesis Hk : 4 <= k <= 62.
Implicit Types (w : Worker T) (pc : castPc T) (wp : loopPc T) (pool : list (castPc T)) (s : wkState T).

#[local] Abbreviation N := (2 ^ k).

Lemma capacity_bounds : 16 <= N <= 2 ^ 62.
Proof using Hk. change 16 with (2 ^ 4). split; apply Z.pow_le_mono_r; lia. Qed.

(** The place of a ticket in the buffer, and the ring's shape. *)
Definition place (n : Z) : nat := Z.to_nat (n mod N).

Definition shaped (q : MPSCQueue T) : Prop := q_mask q = N - 1 /\ len (q_buf q) = N.

Definition seqAt w (n : Z) : option Z := slot_seq <$> q_buf (w_queue w) !! place n.
Definition valAt w (n : Z) : option T := slot_val <$> q_buf (w_queue w) !! place n.

Lemma place_land n : 0 <= n -> Z.to_nat (Z.land n (N - 1)) = place n.
Proof using Hk. intros ?. unfold place. rewrite Z.sub_1_r, <-Z.ones_equiv, Z.land_ones by lia. done. Qed.

Lemma place_inj r i j : 0 <= r -> r <= i < r + N -> r <= j < r + N -> place i = place j -> i = j.
Proof using Hk.
  intros Hr Hi Hj Hp. pose proof capacity_bounds. unfold place in Hp.
  pose proof (Z.mod_pos_bound i N ltac:(lia)). pose proof (Z.mod_pos_bound j N ltac:(lia)).
  assert (Hm : i mod N = j mod N) by lia. clear Hp.
  rewrite (Z.div_mod i N), (Z.div_mod j N), Hm by lia.
  rewrite (Z.div_mod i N), Hm in Hi by lia. rewrite (Z.div_mod j N) in Hj by lia.
  assert (i `div` N = j `div` N) by nia. congruence.
Qed.

(** The tickets released by the worker: their slots are free for the next lap. *)
Definition freed w wp : Z :=
  match wp with
  | WRead _ t | WClear _ t _ | WRelease _ t _ => t
  | _ => q_tail (w_queue w)
  end.

(** The tasks handled. *)
Definition finished w wp : Z :=
  match wp with WHandle _ _ => q_tail (w_queue w) - 1 | _ => freed w wp end.

(** The ticket a caller holds between reserving its slot and publishing it. *)
Definition writes pc : option (T * Z) :=
  match pc with KWrite task h | KPublish task h => Some (task, h) | _ => None end.

Definition writing pool (i : Z) : Prop :=
  exists j pc task, pool !! j = Some pc /\ writes pc = Some (task, i).

Definition nth_task w (i : Z) : option T := w_order w !! Z.to_nat i.

Definition caller_ok w wp pc : Prop :=
  match pc with
  | KLoadSeq _ _ h => 0 <= h <= q_head (w_queue w)
  | KCas _ _ h => 0 <= h <= q_head (w_queue w) /\ h < freed w wp + N
  | KNotify task h | KAccepted task h => 0 <= h < q_head (w_queue w) /\ nth_task w h = Some task
  | _ => True
  end.

Definition loop_ok w wp : Prop :=
  match wp with
  | WLoadSeq _ t => t = q_tail (w_queue w)
  | WAdvance _ t =>
      t = q_tail (w_queue w) /\ t < q_head (w_queue w)
      /\ seqAt w t = Some (t + 1) /\ valAt w t = nth_task w t
  | WRead _ t =>
      q_tail (w_queue w) = t + 1 /\ seqAt w t = Some (t + 1) /\ valAt w t = nth_task w t
  | WClear _ t v | WRelease _ t v =>
      q_tail (w_queue w) = t + 1 /\ seqAt w t = Some (t + 1) /\ nth_task w t = Some v
  | WHandle _ v => 0 < q_tail (w_queue w) /\ nth_task w (q_tail (w_queue w) - 1) = Some v
  | _ => True
  end.

Record ring_ok w wp pool : Prop := {
  ro_shape : shaped (w_queue w);
  ro_range : 0 <= freed w wp <= q_tail (w_queue w) /\ q_tail (w_queue w) <= q_head (w_queue w) <= freed w wp + N;
  ro_order : q_head (w_queue w) = len (w_order w);
  ro_free : forall i, q_head (w_queue w) <= i < freed w wp + N -> seqAt w i = Some i;
  ro_busy : forall i, freed w wp <= i < q_head (w_queue w) ->
    (seqAt w i = Some i /\ writing pool i)
    \/ (seqAt w i = Some (i + 1) /\ (i < q_tail (w_queue w) \/ valAt w i = nth_task w i));
  ro_writer : forall j pc task i, pool !! j = Some pc -> writes pc = Some (task, i) ->
    freed w wp <= i < q_head (w_queue w) /\ seqAt w i = Some i /\ nth_task w i = Some task
    /\ (pc = KPublish task i -> valAt w i = Some task);
  ro_unique : forall j j' pc pc' task task' i, pool !! j = Some pc -> pool !! j' = Some pc' ->
    writes pc = Some (task, i) -> writes pc' = Some (task', i) -> j = j';
  ro_callers : forall j pc, pool !! j = Some pc -> caller_ok w wp pc;
  ro_loop : loop_ok w wp
}.

(** *** Reading and writing slots *)

Lemma slotAt_place w n : shaped (w_queue w) -> 0 <= n -> slotAt (w_queue w) n = q_buf (w_queue w) !! place n.
Proof using Hk. intros [Hm _] ?. unfold slotAt. by rewrite Hm, place_land. Qed.

Lemma slot_exists w n : shaped (w_queue w) -> exists slot, q_buf (w_queue w) !! place n = Some slot.
Proof using Hk.
  intros [_ Hl]. apply lookup_lt_is_Some. pose proof capacity_bounds. unfold place.
  pose proof (Z.mod_pos_bound n N ltac:(lia)). unfold len in Hl. lia.
Qed.

Definition poke w (n : Z) (f : mpscSlot T -> mpscSlot T) : Worker T :=
  withQueue w (setSlot (w_queue w) n f).

Lemma poke_shaped w n f : shaped (w_queue w) -> shaped (w_queue (poke w n f)).
Proof using Type.
  intros [Hm Hl]. split; [done|]. cbn. unfold len in *. by rewrite length_alter.
Qed.

Lemma poke_same w n f : shaped (w_queue w) -> 0 <= n ->
  q_buf (w_queue (poke w n f)) !! place n = f <$> q_buf (w_queue w) !! place n.
Proof using Hk. intros [Hm _] ?. cbn. rewrite Hm, place_land by done. apply list_lookup_alter_eq. Qed.

Lemma poke_other w n f i : shaped (w_queue w) -> 0 <= n -> place n <> place i ->
  q_buf (w_queue (poke w n f)) !! place i = q_buf (w_queue w) !! place i.
Proof using Hk. intros [Hm _] ??. cbn. rewrite Hm, place_land by done. by apply list_lookup_alter_ne. Qed.

Lemma seqAt_poke w n f i : shaped (w_queue w) -> 0 <= n ->
  seqAt (poke w n f) i =
  if decide (place n = place i) then (slot_seq ∘ f) <$> q_buf (w_queue w) !! place n else seqAt w i.
Proof using Hk.
  intros ??. unfold seqAt. case_decide as Hp.
  - rewrite <-Hp, poke_same by done. by destruct (_ !! _).
  - by rewrite poke_other.
Qed.

Lemma valAt_poke w n f i : shaped (w_queue w) -> 0 <= n ->
  valAt (poke w n f) i =
  if decide (place n = place i) then (slot_val ∘ f) <$> q_buf (w_queue w) !! place n else valAt w i.
Proof using Hk.
  intros ??. unfold valAt. case_decide as Hp.
  - rewrite <-Hp, poke_same by done. by destruct (_ !! _).
  - by rewrite poke_other.
Qed.

(** Storing a value leaves the sequence numbers, storing a number leaves the values. *)
Lemma seqAt_storeVal w n v i : shaped (w_queue w) -> 0 <= n -> seqAt (poke w n (storeVal v)) i = seqAt w i.
Proof using Hk.
  intros ??. rewrite seqAt_poke by done. case_decide as Hp; [|done].
  unfold seqAt. rewrite <-Hp. by destruct (_ !! _).
Qed.

Lemma valAt_storeSeq w n m i : shaped (w_queue w) -> 0 <= n -> valAt (poke w n (storeSeq m)) i = valAt w i.
Proof using Hk.
  intros ??. rewrite valAt_poke by done. case_decide as Hp; [|done].
  unfold valAt. rewrite <-Hp. by destruct (_ !! _).
Qed.

Lemma seqAt_stored w n m : shaped (w_queue w) -> 0 <= n -> seqAt (poke w n (storeSeq m)) n = Some m.
Proof using Hk.
  intros Hs ?. rewrite seqAt_poke, decide_True by done.
  by destruct (slot_exists w n Hs) as [? ->].
Qed.

Lemma valAt_stored w n v : shaped (w_queue w) -> 0 <= n -> valAt (poke w n (storeVal v)) n = Some v.
Proof using Hk.
  intros Hs ?. rewrite valAt_poke, decide_True by done.
  by destruct (slot_exists w n Hs) as [? ->].
Qed.

Lemma seqAt_kept w n m i r : shaped (w_queue w) -> 0 <= r ->
  r <= n < r + N -> r <= i < r + N -> i <> n -> seqAt (poke w n (storeSeq m)) i = seqAt w i.
Proof using Hk.
  intros ?????. rewrite seqAt_poke by (done || lia). case_decide as Hp; [|done].
  apply (place_inj r) in Hp; [congruence|done..].
Qed.

Lemma valAt_kept w n v i r : shaped (w_queue w) -> 0 <= r ->
  r <= n < r + N -> r <= i < r + N -> i <> n -> valAt (poke w n (storeVal v)) i = valAt w i.
Proof using Hk.
  intros ?????. rewrite valAt_poke by (done || lia). case_decide as Hp; [|done].
  apply (place_inj r) in Hp; [congruence|done..].
Qed.

(** A sequence number that matches a ticket on the ring is the one of its own
    lap: [h] is inside the window, or a whole lap ahead of it. *)
Lemma seqAt_window w wp pool h :
  ring_ok w wp pool -> 0 <= h <= q_head (w_queue w) ->
  exists q, seqAt w h = Some q /\ 0 <= q <= q_head (w_queue w) + N
    /\ (q = h -> h < freed w wp + N)
    /\ (q < h -> h = freed w wp + N /\ h = q_head (w_queue w)).
Proof using Hk.
  intros [Hs Hr Ho Hf Hb _ _ _ _] Hh. pose proof capacity_bounds.
  set (r := freed w wp) in *.
  set (i := r + (h - r) mod N).
  pose proof (Z.mod_pos_bound (h - r) N ltac:(lia)).
  assert (Hp : place i = place h).
  { unfold place, i. f_equal. rewrite Z.add_mod_idemp_r by lia. f_equal. lia. }
  assert (Hq : exists q, seqAt w i = Some q /\ (q = i \/ q = i + 1)).
  { destruct (decide (i < q_head (w_queue w))).
    - destruct (Hb i ltac:(lia)) as [[Hq _]|[Hq _]]; eauto.
    - exists i. split; [apply Hf; lia|by left]. }
  destruct Hq as (q & Hq & Hqi). exists q.
  assert (Hd : exists d, h = i + d * N).
  { exists ((h - r) `div` N). unfold i. pose proof (Z.div_mod (h - r) N ltac:(lia)). lia. }
  destruct Hd as [d Hd].
  split; [unfold seqAt in *; by rewrite <-Hp|]. split; [lia|].
  destruct (decide (0 < d)).
  - pose proof (Z.mul_nonneg_nonneg (d - 1) N ltac:(lia) ltac:(lia)). lia.
  - pose proof (Z.mul_nonneg_nonneg (- d) N ltac:(lia) ltac:(lia)). lia.
Qed.

Lemma seqDiff_small a b : 0 <= a < 2 ^ 63 -> 0 <= b < 2 ^ 63 -> seqDiff a b = a - b.
Proof using Type. intros ??. unfold seqDiff. by rewrite (wrapi64_small a), (wrapi64_small b), wrapi64_small by lia. Qed.

(** *** Steps that leave the ring alone *)

Lemma ring_quiet w w' wp pool j pc pc' :
  ring_ok w wp pool -> pool !! j = Some pc -> writes pc = None -> writes pc' = None ->
  w_queue w' = w_queue w -> w_order w' = w_order w -> caller_ok w wp pc' ->
  ring_ok w' wp (<[j := pc']> pool).
Proof using Type.
  intros [Hs Hr Ho Hf Hb Hw Hu Hc Hl] Hj Hn Hn' Hq Hor Hpc'.
  assert (Hlook : forall i p task n, <[j := pc']> pool !! i = Some p -> writes p = Some (task, n) ->
    pool !! i = Some p).
  { intros i p task n Hi Hp. apply list_lookup_insert_Some in Hi as [(-> & <- & _)|[_ Hi]]; [congruence|done]. }
  assert (Hfr : forall p, freed w' p = freed w p) by (intros p; unfold freed; by rewrite Hq).
  assert (Hcal : forall p, caller_ok w' wp p <-> caller_ok w wp p).
  { intros p. unfold caller_ok, nth_task. rewrite Hq, Hor, Hfr. done. }
  split; unfold loop_ok, seqAt, valAt, nth_task in *; rewrite ?Hq, ?Hor, ?Hfr; try done.
  - intros i Hi. destruct (Hb i Hi) as [[H1 (i' & p & task & Hp & Hwr)]|H2]; [left|by right].
    split; [done|]. exists i', p, task. split; [|done].
    rewrite list_lookup_insert_ne; [done|]. intros <-. congruence.
  - intros i p task n Hi Hp. by apply (Hw i p task n); [eapply Hlook|].
  - intros i i' p p' task task' n Hi Hi' Hp Hp'.
    by apply (Hu i i' p p' task task' n); [eapply Hlook|eapply Hlook|..].
  - intros i p Hi. apply Hcal.
    apply list_lookup_insert_Some in Hi as [(-> & <- & _)|[_ Hi]]; [done|eauto].
Qed.

Lemma ring_spawn w wp pool pc :
  ring_ok w wp pool -> writes pc = None -> caller_ok w wp pc -> ring_ok w wp (pool ++ [pc]).
Proof using Type.
  intros [Hs Hr Ho Hf Hb Hw Hu Hc Hl] Hn Hpc.
  assert (Hlook : forall i p, (pool ++ [pc]) !! i = Some p -> pool !! i = Some p \/ p = pc).
  { intros i p [Hi|[_ Hi]]%lookup_app_Some; [by left|right].
    apply list_lookup_singleton_Some in Hi as [_ ->]. done. }
  assert (Hlook' : forall i p task n, (pool ++ [pc]) !! i = Some p -> writes p = Some (task, n) ->
    pool !! i = Some p).
  { intros i p task n Hi Hp. destruct (Hlook _ _ Hi) as [| ->]; [done|congruence]. }
  split; try done.
  - intros i Hi. destruct (Hb i Hi) as [[H1 (i' & p & task & Hp & Hwr)]|H2]; [left|by right].
    split; [done|]. exists i', p, task. split; [|done]. by apply lookup_app_l_Some.
  - intros i p task n Hi Hp. by apply (Hw i p task n); [eapply Hlook'|].
  - intros i i' p p' task task' n Hi Hi' Hp Hp'.
    by apply (Hu i i' p p' task task' n); [eapply Hlook'|eapply Hlook'|..].
  - intros i p Hi. destruct (Hlook _ _ Hi) as [| ->]; eauto.
Qed.

Lemma ring_loop_quiet w w' wp wp' pool :
  ring_ok w wp pool -> w_queue w' = w_queue w -> w_order w' = w_order w ->
  freed w wp' = freed w wp -> loop_ok w wp' -> ring_ok w' wp' pool.
Proof using Type.
  intros [Hs Hr Ho Hf Hb Hw Hu Hc Hl] Hq Hor Hfr Hlo.
  assert (Hfr' : freed w' wp' = freed w wp) by (rewrite <-Hfr; unfold freed; by rewrite Hq).
  split; unfold loop_ok, seqAt, valAt, nth_task in *; rewrite ?Hq, ?Hor, ?Hfr'; try done.
  intros j pc Hj. specialize (Hc j pc Hj). unfold caller_ok, nth_task in *. by rewrite Hq, Hor, Hfr'.
Qed.

(** *** Steps of the callers on the ring *)

Lemma nth_task_snoc w task h i :
  nth_task w i <> None -> nth_task (reserve w task h) i = nth_task w i.
Proof using Type.
  intros Hi. unfold nth_task in *. cbn. apply lookup_app_l.
  apply lookup_lt_is_Some. by apply not_eq_None_Some.
Qed.

Lemma nth_task_Some w i : 0 <= i < len (w_order w) -> nth_task w i <> None.
Proof using Type. intros Hi. unfold nth_task. apply not_eq_None_Some, lookup_lt_is_Some. unfold len in Hi. lia. Qed.

Lemma ring_reserve w wp pool j task spin head :
  ring_ok w wp pool -> pool !! j = Some (KCas task spin head) -> q_head (w_queue w) = head ->
  head + 1 < 2 ^ 63 -> ring_ok (reserve w task head) wp (<[j := KWrite task head]> pool).
Proof using Hk.
  intros [Hs Hr Ho Hf Hb Hw Hu Hc Hl] Hj <- Hbig. set (h := q_head (w_queue w)) in *.
  pose proof (Hc _ _ Hj) as [_ Hwin].
  assert (Hh : u64! (h + 1) = h + 1) by (apply wrapu_small; unfold in_u; lia).
  assert (Hfr : freed (reserve w task h) wp = freed w wp) by done.
  assert (Hlt : (j < length pool)%nat) by eauto using lookup_lt_Some.
  assert (Hold : forall i, 0 <= i < h -> nth_task (reserve w task h) i = nth_task w i).
  { intros i Hi. apply nth_task_snoc, nth_task_Some. lia. }
  assert (Hlook : forall i p tk n, <[j := KWrite task h]> pool !! i = Some p -> writes p = Some (tk, n) ->
    (i = j /\ p = KWrite task h /\ tk = task /\ n = h) \/ pool !! i = Some p).
  { intros i p tk n Hi Hp. apply list_lookup_insert_Some in Hi as [(-> & <- & _)|[_ Hi]]; [left|by right].
    cbn in Hp. by simplify_eq. }
  split; rewrite ?Hfr; cbn [reserve w_queue w_order setHead q_head q_tail q_mask]; rewrite ?Hh; try done.
  - lia.
  - rewrite len_app, len_cons, len_nil. lia.
  - intros i Hi. apply Hf. lia.
  - intros i Hi. destruct (decide (i = h)) as [->|Hne].
    + left. split; [apply Hf; lia|]. exists j, (KWrite task h), task.
      by rewrite list_lookup_insert_eq.
    + destruct (Hb i ltac:(lia)) as [[H1 (i' & p & tk & Hp & Hwr)]|[H1 H2]]; [left|right].
      * split; [done|]. exists i', p, tk. split; [|done].
        rewrite list_lookup_insert_ne; [done|]. intros <-. rewrite Hj in Hp. by simplify_eq.
      * split; [done|]. rewrite Hold by lia. done.
  - intros i p tk n Hi Hp. destruct (Hlook i p tk n Hi Hp) as [(-> & -> & -> & ->)|Hi'].
    + split; [lia|]. split; [apply Hf; lia|]. split; [|done]. unfold nth_task. cbn.
      replace (Z.to_nat h) with (length (w_order w)) by (unfold len in Ho; lia). by rewrite lookup_app_r, Nat.sub_diag.
    + destruct (Hw i p tk n Hi' Hp) as (H1 & H2 & H3 & H4). rewrite Hold by lia.
      split; [lia|]. done.
  - intros i i' p p' tk tk' n Hi Hi' Hp Hp'.
    destruct (Hlook i p tk n Hi Hp) as [(-> & _ & _ & En)|Hi1];
    destruct (Hlook i' p' tk' n Hi' Hp') as [(-> & _ & _ & En')|Hi2]; try done.
    + destruct (Hw _ _ _ _ Hi2 Hp') as (H1 & _). lia.
    + destruct (Hw _ _ _ _ Hi1 Hp) as (H1 & _). lia.
    + by apply (Hu i i' p p' tk tk' n).
  - intros i p Hi. apply list_lookup_insert_Some in Hi as [(-> & <- & _)|[_ Hi]]; [done|].
    specialize (Hc i p Hi). unfold caller_ok in *. cbn [reserve w_queue setHead q_head]. rewrite Hh, Hfr.
    destruct p; try done; try lia; (split; [lia|]; rewrite Hold by lia; tauto).
  - unfold loop_ok in *. cbn [reserve w_queue setHead q_head q_tail]. rewrite Hh.
    destruct wp; try done; cbn [freed] in *.
    + destruct Hl as (-> & ? & ? & ?). rewrite Hold by lia. repeat split; [lia|done..].
    + destruct Hl as (? & ? & ?). rewrite Hold by lia. done.
    + destruct Hl as (? & ? & ?). rewrite Hold by lia. done.
    + destruct Hl as (? & ? & ?). rewrite Hold by lia. done.
    + destruct Hl as (? & ?). rewrite Hold by lia. done.
Qed.

Lemma ring_write w wp pool j task head :
  ring_ok w wp pool -> pool !! j = Some (KWrite task head) ->
  ring_ok (poke w head (storeVal task)) wp (<[j := KPublish task head]> pool).
Proof using Hk.
  intros [Hs Hr Ho Hf Hb Hw Hu Hc Hl] Hj.
  destruct (Hw j _ task head Hj eq_refl) as (Hrange & Hseq & Hth & _).
  assert (Hlt : (j < length pool)%nat) by eauto using lookup_lt_Some.
  assert (Hsv : forall i, seqAt (poke w head (storeVal task)) i = seqAt w i).
  { intros i. apply seqAt_storeVal; [done|lia]. }
  assert (Hval : forall i, freed w wp <= i < freed w wp + N -> i <> head ->
    valAt (poke w head (storeVal task)) i = valAt w i).
  { intros i Hi Hne. apply (valAt_kept w head task i (freed w wp)); [done|lia..]. }
  assert (Hlook : forall i p tk n, <[j := KPublish task head]> pool !! i = Some p -> writes p = Some (tk, n) ->
    exists p0, pool !! i = Some p0 /\ writes p0 = Some (tk, n)
      /\ (n = head /\ tk = task \/ n <> head /\ p0 = p)).
  { intros i p tk n Hi Hp. apply list_lookup_insert_Some in Hi as [(-> & <- & _)|[Hne Hi]].
    - cbn in Hp. simplify_eq. exists (KWrite tk n). eauto.
    - exists p. split; [done|]. split; [done|]. right. split; [|done]. intros ->.
      apply Hne. by apply (Hu j i (KWrite task head) p task tk head). }
  assert (Hfr : freed (poke w head (storeVal task)) wp = freed w wp) by done.
  split; rewrite ?Hfr; cbn [poke withQueue w_queue w_order setSlot q_head q_tail q_mask]; try done.
  - by apply poke_shaped.
  - intros i Hi. rewrite Hsv. by apply Hf.
  - intros i Hi. rewrite Hsv. destruct (Hb i Hi) as [[H1 (i' & p & tk & Hp & Hwr)]|[H1 H2]]; [left|right].
    + split; [done|]. destruct (decide (i' = j)) as [->|Hne].
      * exists j, (KPublish task head), tk. rewrite list_lookup_insert_eq by done. split; [done|].
        rewrite Hj in Hp. by simplify_eq.
      * exists i', p, tk. by rewrite list_lookup_insert_ne.
    + split; [done|]. destruct H2 as [H2|H2]; [by left|right].
      rewrite Hval; [done|lia|]. intros ->. rewrite Hseq in H1. simplify_eq. lia.
  - intros i p tk n Hi Hp. destruct (Hlook i p tk n Hi Hp) as (p0 & Hp0 & Hwr & Hcase).
    destruct (Hw i p0 tk n Hp0 Hwr) as (H1 & H2 & H3 & H4). rewrite Hsv.
    split; [done|]. split; [done|]. split; [done|]. intros ->.
    destruct Hcase as [[-> ->]|[Hne ->]]; [apply valAt_stored; [done|lia]|].
    rewrite Hval; [by apply H4|lia|done].
  - intros i i' p p' tk tk' n Hi Hi' Hp Hp'.
    destruct (Hlook i p tk n Hi Hp) as (p0 & Hp0 & Hwr & _).
    destruct (Hlook i' p' tk' n Hi' Hp') as (p1 & Hp1 & Hwr1 & _).
    by apply (Hu i i' p0 p1 tk tk' n).
  - intros i p Hi. apply list_lookup_insert_Some in Hi as [(-> & <- & _)|[_ Hi]]; [done|].
    apply (Hc i p Hi).
  - unfold loop_ok in *. destruct wp; try done; cbn [freed] in *; rewrite ?Hsv; try done.
    + destruct Hl as (? & ? & H1 & ?). repeat split; try done.
      rewrite Hval; [done|lia|]. intros E. rewrite E, Hseq in H1. apply (inj Some) in H1. lia.
    + destruct Hl as (? & H1 & ?). repeat split; try done.
      rewrite Hval; [done|lia|]. intros E. rewrite E, Hseq in H1. apply (inj Some) in H1. lia.
Qed.

Lemma ring_publish w wp pool j task head :
  ring_ok w wp pool -> pool !! j = Some (KPublish task head) -> head + 1 < 2 ^ 63 ->
  ring_ok (poke w head (storeSeq (u64! (head + 1)))) wp (<[j := KNotify task head]> pool).
Proof using Hk.
  intros [Hs Hr Ho Hf Hb Hw Hu Hc Hl] Hj Hbig.
  destruct (Hw j _ task head Hj eq_refl) as (Hrange & Hseq & Hth & Hv). specialize (Hv eq_refl).
  rewrite (wrapu_small 64) by (unfold in_u; lia). set (w' := poke w head (storeSeq (head + 1))).
  assert (Hlt : (j < length pool)%nat) by eauto using lookup_lt_Some.
  assert (Hfr : freed w' wp = freed w wp) by done.
  assert (Hval : forall i, valAt w' i = valAt w i) by (intros i; apply valAt_storeSeq; [done|lia]).
  assert (Hsq : seqAt w' head = Some (head + 1)) by (apply seqAt_stored; [done|lia]).
  assert (Hse : forall i, freed w wp <= i < freed w wp + N -> i <> head -> seqAt w' i = seqAt w i).
  { intros i Hi Hne. apply (seqAt_kept w head (head + 1) i (freed w wp)); [done|lia..]. }
  assert (Hlook : forall i p tk n, <[j := KNotify task head]> pool !! i = Some p -> writes p = Some (tk, n) ->
    pool !! i = Some p /\ n <> head).
  { intros i p tk n Hi Hp. apply list_lookup_insert_Some in Hi as [(-> & <- & _)|[Hne Hi]]; [done|].
    split; [done|]. intros ->. apply Hne. by apply (Hu j i (KPublish task head) p task tk head). }
  split; rewrite ?Hfr; cbn [w' poke withQueue w_queue w_order setSlot q_head q_tail q_mask]; fold w'; try done.
  - by apply poke_shaped.
  - intros i Hi. rewrite Hse; [by apply Hf|lia..].
  - intros i Hi. rewrite Hval. destruct (decide (i = head)) as [->|Hne].
    + right. split; [done|]. right. by rewrite Hv.
    + rewrite Hse by lia. destruct (Hb i Hi) as [[H1 (i' & p & tk & Hp & Hwr)]|H2]; [left|by right].
      split; [done|]. exists i', p, tk. split; [|done]. rewrite list_lookup_insert_ne; [done|].
      intros <-. rewrite Hj in Hp. simplify_eq. cbn in Hwr. congruence.
  - intros i p tk n Hi Hp. destruct (Hlook i p tk n Hi Hp) as [Hi' Hne].
    destruct (Hw i p tk n Hi' Hp) as (H1 & H2 & H3 & H4). rewrite Hval, Hse by lia. done.
  - intros i i' p p' tk tk' n Hi Hi' Hp Hp'.
    destruct (Hlook i p tk n Hi Hp) as [Hi1 _]. destruct (Hlook i' p' tk' n Hi' Hp') as [Hi2 _].
    by apply (Hu i i' p p' tk tk' n).
  - intros i p Hi. apply list_lookup_insert_Some in Hi as [(-> & <- & _)|[_ Hi]]; [|apply (Hc i p Hi)].
    cbn [caller_ok]. split; [|done]. cbn. lia.
  - assert (Hset : forall t, seqAt w t = Some (t + 1) -> freed w wp <= t < freed w wp + N ->
      seqAt w' t = Some (t + 1)).
    { intros t H1 Ht. rewrite Hse; [done|done|]. intros ->. rewrite Hseq in H1. apply (inj Some) in H1. lia. }
    unfold loop_ok in *. destruct wp; try done; cbn [freed] in *; rewrite ?Hval;
      intuition (auto; apply Hset; [done|lia]).
Qed.

(** *** Steps of the worker on the ring *)

Lemma ring_advance w drain tail pool :
  ring_ok w (WAdvance drain tail) pool -> tail + 1 < 2 ^ 63 ->
  ring_ok (withQueue w (setTail (w_queue w) (u64! (tail + 1)))) (WRead drain tail) pool.
Proof using Hk.
  intros [Hs Hr Ho Hf Hb Hw Hu Hc Hl] Hbig. destruct Hl as (Ht & Hlt & Hse & Hva). cbn [freed] in *.
  rewrite (wrapu_small 64) by (unfold in_u; lia). subst tail.
  split; cbn [freed withQueue w_queue w_order setTail q_head q_tail]; try done; try lia.
  intros i Hi. destruct (Hb i Hi) as [?|[? [?|?]]]; [by left|right; split; [done|left; lia]|].
  right. split; [done|]. by right.
Qed.

Lemma ring_clear w drain tail v pool :
  ring_ok w (WClear drain tail v) pool ->
  ring_ok (poke w tail (storeVal zero)) (WRelease drain tail v) pool.
Proof using Hk.
  intros [Hs Hr Ho Hf Hb Hw Hu Hc Hl]. destruct Hl as (Ht & Hse & Hva). cbn [freed] in *.
  set (w' := poke w tail (storeVal zero)).
  assert (Hsv : forall i, seqAt w' i = seqAt w i) by (intros i; apply seqAt_storeVal; [done|lia]).
  assert (Hval : forall i, tail <= i < tail + N -> i <> tail -> valAt w' i = valAt w i).
  { intros i Hi Hne. apply (valAt_kept w tail zero i tail); [done|lia..]. }
  split; cbn [freed w' poke withQueue w_queue w_order setSlot q_head q_tail]; fold w'; try done.
  - by apply poke_shaped.
  - intros i Hi. rewrite Hsv. by apply Hf.
  - intros i Hi. rewrite Hsv. destruct (Hb i Hi) as [?|[? [?|?]]]; [by left|right..].
    + split; [done|]. by left.
    + split; [done|]. destruct (decide (i = tail)) as [->|Hne]; [left; lia|right].
      by rewrite Hval by lia.
  - intros j p tk n Hj Hp. destruct (Hw j p tk n Hj Hp) as (H1 & H2 & H3 & H4). rewrite Hsv.
    split; [done|]. split; [done|]. split; [done|]. intros E. rewrite Hval; [by apply H4|lia|].
    intros ->. rewrite Hse in H2. apply (inj Some) in H2. lia.
  - cbn [loop_ok]. rewrite Hsv. done.
Qed.

Lemma ring_release w drain tail v pool :
  ring_ok w (WRelease drain tail v) pool -> tail + N < 2 ^ 63 ->
  ring_ok (poke w tail (storeSeq (u64! (tail + q_mask (w_queue w) + 1)))) (WHandle drain v) pool.
Proof using Hk.
  intros [Hs Hr Ho Hf Hb Hw Hu Hc Hl] Hbig. destruct Hl as (Ht & Hse & Hva). cbn [freed] in *.
  pose proof capacity_bounds. destruct (Hs) as [Hmask _]. rewrite Hmask.
  replace (tail + (N - 1) + 1) with (tail + N) by lia.
  rewrite (wrapu_small 64) by (unfold in_u; lia). set (w' := poke w tail (storeSeq (tail + N))).
  assert (Hval : forall i, valAt w' i = valAt w i) by (intros i; apply valAt_storeSeq; [done|lia]).
  assert (Hnew : seqAt w' (tail + N) = Some (tail + N)).
  { transitivity (seqAt w' tail); [|apply seqAt_stored; [done|lia]]. unfold seqAt, place.
    replace ((tail + N) mod N) with (tail mod N); [done|].
    rewrite <-(Z.mul_1_l N) at 2. by rewrite Z.mod_add by lia. }
  assert (Hkeep : forall i, tail < i < tail + N -> seqAt w' i = seqAt w i).
  { intros i Hi. apply (seqAt_kept w tail (tail + N) i tail); [done|lia..]. }
  assert (Htl : q_tail (w_queue w') = tail + 1) by done.
  split; cbn [freed]; rewrite ?Htl; cbn [w' poke withQueue w_queue w_order setSlot q_head q_tail]; fold w'; try done.
  - by apply poke_shaped.
  - lia.
  - intros i Hi. destruct (decide (i = tail + N)) as [->|Hne]; [done|].
    rewrite Hkeep by lia. apply Hf. lia.
  - intros i Hi. rewrite Hval, Hkeep by lia. destruct (Hb i ltac:(lia)) as [?|[? [?|?]]]; [by left|lia|right].
    split; [done|]. by right.
  - intros j p tk n Hj Hp. destruct (Hw j p tk n Hj Hp) as (H1 & H2 & H3 & H4).
    assert (n <> tail) by (intros ->; rewrite Hse in H2; apply (inj Some) in H2; lia).
    rewrite Hval, Hkeep by lia. split; [lia|]. done.
  - intros j p Hj. specialize (Hc j p Hj). unfold caller_ok in *. cbn [freed] in *.
    rewrite Htl. destruct p; try done. cbn. lia.
  - cbn [loop_ok]. rewrite Htl. split; [lia|]. by replace (tail + 1 - 1) with tail by lia.
Qed.

Lemma ring_caller w wp pool j pc w' pc' :
  ring_ok w wp pool -> pool !! j = Some pc -> castStep w pc = Some (w', pc') ->
  q_head (w_queue w) + N < 2 ^ 63 -> ring_ok w' wp (<[j := pc']> pool).
Proof using Hk.
  intros Hok Hj Hstep Hbig. pose proof capacity_bounds. pose proof (ro_range _ _ _ Hok) as Hr.
  destruct pc as [task spin|task spin|task spin h|task spin h|task spin|task h|task h|task h|task h|task|task| | |];
    cbn [castStep] in Hstep; try done.
  - simplify_eq. eapply ring_quiet; [done|done|done|..]; destruct (w_closed w'), spin; done.
  - simplify_eq. eapply ring_quiet; [done..|]. cbn. lia.
  - pose proof (ro_callers _ _ _ Hok _ _ Hj) as Hh. cbn in Hh.
    destruct (seqAt_window _ _ _ _ Hok Hh) as (q & Hq & Hqr & Heq & _).
    rewrite slotAt_place in Hstep by (apply Hok || lia). unfold seqAt in Hq.
    destruct (_ !! place h) as [slot|]; [|done]. cbn in Hq. simplify_eq. cbn in Hstep. simplify_eq.
    unfold pushDecide. rewrite seqDiff_small by lia. eapply ring_quiet; [done|done|done|..];
      (destruct (Z.eqb_spec (slot_seq slot - h) 0); [|destruct (Z.ltb_spec (slot_seq slot - h) 0)];
       [|destruct spin|]; try done). cbn. split; [done|]. apply Heq. lia.
  - destruct (Z.eqb_spec (q_head (w_queue w)) h) as [<-|]; simplify_eq.
    + eapply ring_reserve; [done|done|done|lia].
    + by eapply ring_quiet.
  - unfold castRetry in Hstep. eapply ring_quiet; [done|done|done|..];
      (destruct (w_closed w); [|destruct (spin + 1 <? 64); [|destruct (1024 <? spin + 1)]]; by simplify_eq).
  - simplify_eq. by apply ring_write.
  - simplify_eq. pose proof (ro_writer _ _ _ Hok j _ task h Hj eq_refl) as [? _].
    apply ring_publish; [done|done|lia].
  - simplify_eq. eapply ring_quiet; [done|done|done..|]. apply (ro_callers _ _ _ Hok _ _ Hj).
  - simplify_eq. by eapply ring_quiet.
  - simplify_eq. by eapply ring_quiet.
Qed.

Lemma ring_worker w wp pool w' wp' :
  ring_ok w wp pool -> loopStep zero w wp = Some (w', wp') ->
  q_head (w_queue w) + N < 2 ^ 63 -> ring_ok w' wp' pool.
Proof using Hk.
  intros Hok Hstep Hbig. pose proof capacity_bounds.
  pose proof (ro_range _ _ _ Hok) as Hr. pose proof (ro_loop _ _ _ Hok) as Hl.
  destruct wp as [d|d t|d t|d t|d t v|d t v|d v| | |]; cbn [loopStep] in Hstep; cbn [loop_ok freed] in Hl, Hr; try done.
  - simplify_eq. by eapply ring_loop_quiet.
  - subst t. destruct (seqAt_window w _ pool (q_tail (w_queue w)) Hok ltac:(lia)) as (q & Hq & Hqr & _).
    rewrite slotAt_place in Hstep by (apply Hok || lia). unfold seqAt in Hq.
    destruct (_ !! place (q_tail (w_queue w))) as [slot|] eqn:Hslot; [|done]. cbn in Hq. simplify_eq.
    cbn in Hstep. simplify_eq. unfold popDecide.
    rewrite (wrapu_small 64), seqDiff_small by (unfold in_u; lia).
    destruct (Z.eqb_spec (slot_seq slot - (q_tail (w_queue w') + 1)) 0) as [E|_].
    2:{ eapply ring_loop_quiet; [done|done|done|..]; by destruct d. }
    assert (Hsq : seqAt w' (q_tail (w_queue w')) = Some (q_tail (w_queue w') + 1)).
    { unfold seqAt. rewrite Hslot. cbn. f_equal. lia. }
    eapply ring_loop_quiet; [done..|]. cbn. split; [done|].
    destruct (decide (q_tail (w_queue w') < q_head (w_queue w'))) as [Hlt|Hge].
    + split; [done|]. split; [done|].
      destruct (ro_busy _ _ _ Hok (q_tail (w_queue w')) ltac:(cbn [freed]; lia)) as [[H1 _]|[_ [H1|H1]]]; [|lia|done].
      rewrite Hsq in H1. apply (inj Some) in H1. lia.
    + pose proof (ro_free _ _ _ Hok (q_tail (w_queue w')) ltac:(cbn [freed]; lia)) as H1.
      rewrite Hsq in H1. apply (inj Some) in H1. lia.
  - destruct Hl as (-> & ? & _). simplify_eq. apply ring_advance; [done|lia].
  - destruct Hl as (Ht & Hsq & Hv). rewrite slotAt_place in Hstep by (apply Hok || lia).
    unfold seqAt in Hsq. unfold valAt in Hv.
    destruct (_ !! place t) as [slot|] eqn:Hslot; [|done]. cbn in Hstep, Hv, Hsq. simplify_eq.
    eapply ring_loop_quiet; [done..|]. cbn. unfold seqAt. rewrite Hslot. cbn. by rewrite Hsq.
  - simplify_eq. by apply ring_clear.
  - simplify_eq. apply ring_release; [done|]. lia.
  - simplify_eq. by eapply ring_loop_quiet.
  - simplify_eq. eapply ring_loop_quiet; [done|done|done|..]; by destruct (w_closed w').
  - destruct (w_notify w); [|done]. simplify_eq. by eapply ring_loop_quiet.
Qed.

(** ** What the worker has done, and who will wake it *)

Definition dropped pc : option T := match pc with KDropped task => Some task | _ => None end.

Definition notifies pc : bool := match pc with KNotify _ _ => true | _ => false end.

(** The worker found the ring empty and has not looked again. *)
Definition idle wp : bool := match wp with WCheck | WRecv => true | _ => false end.

Definition drains wp : bool :=
  match wp with
  | WLoadTail d | WLoadSeq d _ | WAdvance d _ | WRead d _ | WClear d _ _ | WRelease d _ _ | WHandle d _ => d
  | WExit => true
  | _ => false
  end.

Record wk_ok w wp pool : Prop := {
  wk_ring : ring_ok w wp pool;
  wk_handled : w_handled w = take (Z.to_nat (finished w wp)) (w_order w);
  wk_released : w_released w ≡ₚ w_handled w ++ omap dropped pool;
  wk_drain : drains wp = true -> w_closed w = true;
  wk_wake : idle wp = true -> w_notify w = false ->
    seqAt w (q_tail (w_queue w)) = Some (q_tail (w_queue w) + 1) ->
    exists j pc, pool !! j = Some pc /\ notifies pc = true;
  wk_shut : wp = WRecv -> w_notify w = false -> w_closed w = true ->
    exists j, pool !! j = Some KCloseNotify
}.

Ltac frame_rest :=
  split; [first [by left | by right]|]; split; [first [by left | by right]|];
  first [by left | right; eexists; by split].

(** What a step of a caller does to the rest of the worker. *)
Lemma castStep_frame w pc w' pc' :
  castStep w pc = Some (w', pc') -> shaped (w_queue w) -> (forall task h, writes pc = Some (task, h) -> 0 <= h) ->
  q_tail (w_queue w') = q_tail (w_queue w)
  /\ w_handled w' = w_handled w
  /\ (exists more, w_order w' = w_order w ++ more)
  /\ (w_closed w = true -> w_closed w' = true)
  /\ (w_notify w' = false -> w_notify w = false /\ notifies pc = false /\ pc <> KCloseNotify)
  /\ ((w_closed w' = w_closed w) \/ pc' = KCloseNotify)
  /\ ((forall i, seqAt w' i = seqAt w i) \/ notifies pc' = true)
  /\ ((w_released w' = w_released w /\ dropped pc' = None) \/
      exists task, w_released w' = w_released w ++ [task] /\ dropped pc' = Some task).
Proof using Hk.
  intros Hstep Hs Hh.
  assert (Hnil : exists more, w_order w = w_order w ++ more) by (exists []; by rewrite app_nil_r).
  destruct pc as [task spin|task spin|task spin h|task spin h|task spin|task h|task h|task h|task h|task|task| | |];
    cbn [castStep] in Hstep; try done.
  - simplify_eq. do 5 (split; [by eauto|]). split; [by left|]. split; [by left|]. left.
    by destruct (w_closed w'), spin.
  - simplify_eq. do 5 (split; [by eauto|]). frame_rest.
  - destruct (slotAt _ _); [|done]. cbn in Hstep. simplify_eq. do 5 (split; [by eauto|]).
    split; [by left|]. split; [by left|]. left. split; [done|]. unfold pushDecide.
    destruct (_ =? 0); [done|]. destruct (_ <? 0); [|done]. by destruct spin.
  - destruct (_ =? _); simplify_eq; cbn; do 5 (split; [by eauto|]); frame_rest.
  - unfold castRetry in Hstep. destruct (w_closed w) eqn:Hc; [|destruct (spin + 1 <? 64); [|destruct (1024 <? spin + 1)]];
      simplify_eq; cbn; do 5 (split; [by eauto|]); frame_rest.
  - simplify_eq. cbn [w_queue withQueue setSlot q_tail w_handled w_order w_closed w_notify w_released].
    do 5 (split; [by eauto|]). split; [by left|]. split; [left; intros i|by left].
    apply (seqAt_storeVal w h task i Hs). by apply (Hh task).
  - simplify_eq. cbn. do 5 (split; [by eauto|]). frame_rest.
  - simplify_eq. cbn. do 5 (split; [by eauto|]). frame_rest.
  - simplify_eq. cbn. do 5 (split; [by eauto|]). frame_rest.
  - simplify_eq. cbn. do 5 (split; [by eauto|]). frame_rest.
Qed.

Lemma omap_insert_new {B} (f : castPc T -> option B) pool j pc pc' :
  pool !! j = Some pc -> f pc = None ->
  omap f (<[j := pc']> pool) ≡ₚ omap f pool ++ option_list (f pc').
Proof using Type.
  intros Hj Hd. rewrite insert_take_drop by eauto using lookup_lt_Some.
  rewrite <-(take_drop_middle pool j pc Hj) at 3. rewrite !omap_app. cbn. rewrite Hd.
  destruct (f pc'); cbn; [|by rewrite app_nil_r].
  rewrite <-app_assoc. f_equiv. apply Permutation_cons_append.
Qed.

Lemma omap_insert_same {B} (f : castPc T -> option B) pool j pc pc' :
  pool !! j = Some pc -> f pc' = f pc -> omap f (<[j := pc']> pool) = omap f pool.
Proof using Type.
  intros Hj Hd. rewrite insert_take_drop by eauto using lookup_lt_Some.
  rewrite <-(take_drop_middle pool j pc Hj) at 3. rewrite !omap_app. cbn. by rewrite Hd.
Qed.

Lemma wk_caller w wp pool j pc w' pc' :
  wk_ok w wp pool -> pool !! j = Some pc -> castStep w pc = Some (w', pc') ->
  q_head (w_queue w) + N < 2 ^ 63 -> wk_ok w' wp (<[j := pc']> pool).
Proof using Hk.
  intros [Hring Hha Hre Hdr Hwk Hsh] Hj Hstep Hbig.
  pose proof (ring_caller _ _ _ _ _ _ _ Hring Hj Hstep Hbig) as Hring'.
  pose proof (ro_range _ _ _ Hring) as Hr.
  destruct (castStep_frame w pc w' pc' Hstep (ro_shape _ _ _ Hring)) as (Ht & Hh & (more & Hm) & Hc & Hn & Hcl & Hse & Hrel).
  { intros task h Hwr. destruct (ro_writer _ _ _ Hring _ _ _ _ Hj Hwr) as [? _]. lia. }
  assert (Hlt : (j < length pool)%nat) by eauto using lookup_lt_Some.
  assert (Hfin : finished w' wp = finished w wp) by (unfold finished, freed; by rewrite Ht).
  assert (Hd0 : dropped pc = None) by (by destruct pc).
  split; [done|..].
  - rewrite Hh, Hfin, Hha, Hm, take_app_le; [done|].
    pose proof (ro_order _ _ _ Hring) as Ho. unfold len in Ho.
    assert (finished w wp <= q_head (w_queue w)); [|lia].
    unfold finished. destruct wp; cbn [freed] in *; lia.
  - rewrite (omap_insert_new dropped pool j pc pc') by done. rewrite Hh.
    destruct Hrel as [[-> ->]|(task & -> & ->)]; cbn; [by rewrite app_nil_r|].
    by rewrite Hre, <-app_assoc.
  - intros Hdw. by apply Hc, Hdr.
  - intros Hid Hnt. destruct (Hn Hnt) as (Hn1 & Hn2 & _). rewrite Ht.
    destruct Hse as [Hse|Hnot]; [rewrite Hse|].
    + intros Hq. destruct (Hwk Hid Hn1 Hq) as (i & p & Hi & Hp). exists i, p. split; [|done].
      rewrite list_lookup_insert_ne; [done|]. intros <-. congruence.
    + intros _. exists j, pc'. by rewrite list_lookup_insert_eq.
  - intros -> Hnt Hcw. destruct (Hn Hnt) as (Hn1 & _ & Hn3).
    destruct Hcl as [Hcl| ->]; [|exists j; by rewrite list_lookup_insert_eq].
    rewrite Hcl in Hcw. destruct (Hsh eq_refl Hn1 Hcw) as (i & Hi). exists i.
    rewrite list_lookup_insert_ne; [done|]. intros <-. congruence.
Qed.

Lemma take_finish w wp n v :
  w_handled w = take (Z.to_nat (finished w wp)) (w_order w) -> 0 <= finished w wp ->
  n = finished w wp + 1 -> nth_task w (finished w wp) = Some v ->
  w_handled w ++ [v] = take (Z.to_nat n) (w_order w).
Proof using Type.
  intros -> ? -> Hv. unfold nth_task in Hv. rewrite Z2Nat.inj_add by lia.
  change (Z.to_nat 1) with 1%nat. rewrite Nat.add_1_r. by rewrite (take_S_r _ _ v).
Qed.

Lemma wk_worker w wp pool w' wp' :
  wk_ok w wp pool -> loopStep zero w wp = Some (w', wp') ->
  q_head (w_queue w) + N < 2 ^ 63 -> wk_ok w' wp' pool.
Proof using Hk.
  intros [Hring Hha Hre Hdr Hwk Hsh] Hstep Hbig.
  pose proof (ring_worker _ _ _ _ _ Hring Hstep Hbig) as Hring'. pose proof capacity_bounds.
  pose proof (ro_range _ _ _ Hring) as Hr. pose proof (ro_loop _ _ _ Hring) as Hl.
  destruct wp as [d|d t|d t|d t|d t v|d t v|d v| | |]; cbn [loopStep] in Hstep;
    cbn [loop_ok freed finished drains idle] in *; try done.
  - simplify_eq. by split.
  - subst t. destruct (seqAt_window w _ pool (q_tail (w_queue w)) Hring ltac:(lia)) as (q & Hq & Hqr & _).
    rewrite slotAt_place in Hstep by (apply Hring || lia). pose proof Hq as Hq'. unfold seqAt in Hq'.
    destruct (_ !! place (q_tail (w_queue w))) as [slot|] eqn:Hslot; [|done]. cbn in Hq', Hstep. simplify_eq.
    unfold popDecide in *. rewrite (wrapu_small 64), seqDiff_small in * by (unfold in_u; lia).
    destruct (Z.eqb_spec (slot_seq slot - (q_tail (w_queue w') + 1)) 0) as [E|E]; [by split|].
    destruct d; [by split|]. split; try done. intros _ _ Hq2. rewrite Hq in Hq2. apply (inj Some) in Hq2. lia.
  - destruct Hl as (-> & ? & _). simplify_eq. by split.
  - destruct Hl as (Ht & Hsq & Hv). destruct (slotAt _ _); [|done]. cbn in Hstep. simplify_eq. by split.
  - simplify_eq. by split.
  - destruct Hl as (Ht & _). simplify_eq. split; try done. cbn. rewrite Ht.
    by replace (t + 1 - 1) with t by lia.
  - destruct Hl as (Ht & Hv). simplify_eq. split; try done; cbn.
    + apply (take_finish w (WHandle d v)); [done|cbn; lia|cbn; lia|done].
    + rewrite Hre, <-!app_assoc. f_equiv. apply Permutation_app_comm.
  - simplify_eq. destruct (w_closed w') eqn:Hc; [by split|]. split; try done. intros; congruence.
  - destruct (w_notify w); [|done]. simplify_eq. by split.
Qed.

(** ** Runs *)

Definition st_ok s : Prop := wk_ok (st_worker s) (st_loop s) (st_pool s).

Lemma initial_st_ok queueCap :
  q_mask (NewMPSCQueue zero queueCap) = N - 1 -> len (q_buf (NewMPSCQueue zero queueCap)) = N ->
  st_ok (initial zero queueCap).
Proof using Hk.
  intros Hm Hl. pose proof capacity_bounds.
  assert (Hfree : forall i, 0 <= i < 0 + N -> seqAt (NewWorker zero queueCap) i = Some i).
  { intros i Hi. unfold seqAt, place. rewrite Z.mod_small by lia. unfold NewWorker, NewMPSCQueue, len in *.
    cbn [w_queue q_buf] in *. rewrite length_fmap, length_seq in Hl.
    rewrite list_lookup_fmap, lookup_seq_lt by lia. cbn. f_equal. lia. }
  split; cbn [initial st_worker st_loop st_pool]; try done.
  split; try done; cbn [NewWorker w_queue]; cbn.
  - lia.
  - intros i Hi. cbn in Hi. lia.
Qed.

Lemma wkExec_ok s e s' :
  st_ok s -> wkExec zero s e = Some s' -> q_head (w_queue (st_worker s)) + N < 2 ^ 63 -> st_ok s'.
Proof using Hk.
  intros Hok He Hbig. destruct s as [w wp pool], e as [pc|i|]; cbn in He.
  - destruct (starts pc) eqn:Hst; [|done]. simplify_eq.
    assert (Hn : writes pc = None /\ dropped pc = None) by (destruct pc; done).
    assert (Hcal : caller_ok w wp pc) by (destruct pc; done).
    destruct Hok as [Hring Hha Hre Hdr Hwk Hsh]. cbn [st_worker st_loop st_pool] in *.
    split; cbn [st_worker st_loop st_pool]; try done.
    + apply ring_spawn; [done|apply Hn|done].
    + rewrite omap_app. cbn. destruct Hn as [_ ->]. by rewrite app_nil_r.
    + intros H1 H2 H3. destruct (Hwk H1 H2 H3) as (j & p & Hj & Hp). exists j, p.
      split; [|done]. by apply lookup_app_l_Some.
    + intros H1 H2 H3. destruct (Hsh H1 H2 H3) as (j & Hj). exists j. by apply lookup_app_l_Some.
  - destruct (pool !! i) as [pc|] eqn:Hi; [|done]. cbn in He.
    destruct (castStep w pc) as [[w' pc']|] eqn:Hstep; [|done]. cbn in He. simplify_eq.
    by eapply wk_caller.
  - destruct (loopStep zero w wp) as [[w' wp']|] eqn:Hstep; [|done]. cbn in He. simplify_eq.
    by eapply wk_worker.
Qed.

Lemma castStep_head w pc w' pc' :
  castStep w pc = Some (w', pc') -> 0 <= q_head (w_queue w) < 2 ^ 63 ->
  q_head (w_queue w') <= q_head (w_queue w) + 1 /\ exists more, w_order w' = w_order w ++ more.
Proof using Type.
  intros Hstep Hr.
  assert (Hid : exists more, w_order w = w_order w ++ more) by (exists []; by rewrite app_nil_r).
  destruct pc; cbn in Hstep; try done; simplify_eq; cbn; try (split; [lia|done]).
  - destruct (slotAt _ _); [|done]. cbn in Hstep. simplify_eq. split; [lia|done].
  - destruct (Z.eqb_spec (q_head (w_queue w)) head); simplify_eq; cbn; [|split; [lia|done]].
    rewrite wrapu_small by (unfold in_u; lia). split; [lia|by eexists].
  - unfold castRetry in Hstep. repeat case_match; simplify_eq; cbn; (split; [lia|done]).
Qed.

Lemma loopStep_head w wp w' wp' :
  loopStep zero w wp = Some (w', wp') ->
  q_head (w_queue w') = q_head (w_queue w) /\ w_order w' = w_order w /\ w_closed w' = w_closed w.
Proof using Type.
  intros Hstep. destruct wp; cbn in Hstep; try done; simplify_eq; try done.
  - destruct (slotAt _ _); [|done]. cbn in Hstep. by simplify_eq.
  - destruct (slotAt _ _); [|done]. cbn in Hstep. by simplify_eq.
  - destruct (w_notify w); [|done]. by simplify_eq.
Qed.

Lemma wkExec_head s e s' :
  st_ok s -> wkExec zero s e = Some s' -> q_head (w_queue (st_worker s)) + N < 2 ^ 63 ->
  q_head (w_queue (st_worker s')) <= q_head (w_queue (st_worker s)) + 1
  /\ exists more, w_order (st_worker s') = w_order (st_worker s) ++ more.
Proof using Hk.
  intros Hok He Hbig. pose proof capacity_bounds. pose proof (ro_range _ _ _ (wk_ring _ _ _ Hok)) as Hr.
  destruct s as [w wp pool], e as [pc|i|]; cbn in He, Hr, Hbig |- *.
  - destruct (starts pc); [|done]. simplify_eq. cbn. split; [lia|]. exists []. by rewrite app_nil_r.
  - destruct (pool !! i) as [pc|] eqn:Hi; [|done]. cbn in He.
    destruct (castStep w pc) as [[w' pc']|] eqn:Hstep; [|done]. cbn in He. simplify_eq. cbn.
    eapply castStep_head; [done|lia].
  - destruct (loopStep zero w wp) as [[w' wp']|] eqn:Hstep; [|done]. cbn in He. simplify_eq. cbn.
    destruct (loopStep_head _ _ _ _ Hstep) as (-> & -> & _). split; [lia|]. exists []. by rewrite app_nil_r.
Qed.

Lemma wkRun_ok es s s' :
  st_ok s -> wkRun zero s es = Some s' -> q_head (w_queue (st_worker s)) + len es + N < 2 ^ 63 ->
  st_ok s' /\ q_head (w_queue (st_worker s')) <= q_head (w_queue (st_worker s)) + len es
  /\ exists more, w_order (st_worker s') = w_order (st_worker s) ++ more.
Proof using Hk.
  revert s. induction es as [|e es IH]; intros s Hok Hrun Hbig; cbn in Hrun.
  - simplify_eq. split; [done|]. split; [rewrite len_nil; lia|]. exists []. by rewrite app_nil_r.
  - destruct (wkExec zero s e) as [s1|] eqn:He; [|done]. cbn in Hrun. rewrite len_cons in Hbig |- *.
    pose proof (len_nonneg es).
    pose proof (wkExec_ok s e s1 Hok He ltac:(lia)) as Hok1.
    destruct (wkExec_head s e s1 Hok He ltac:(lia)) as [Hh (m1 & Hm1)].
    destruct (IH s1 Hok1 Hrun ltac:(lia)) as (Hok' & Hh' & (m2 & Hm2)).
    split; [done|]. split; [lia|]. exists (m1 ++ m2). by rewrite Hm2, Hm1, app_assoc.
Qed.

(** The task of a call past the reservation of its slot. *)
Definition reserved pc : option T :=
  match pc with
  | KWrite task _ | KPublish task _ | KNotify task _ | KAccepted task _ => Some task
  | _ => None
  end.

Lemma castStep_reserved w pc w' pc' :
  castStep w pc = Some (w', pc') ->
  (w_order w' = w_order w /\ reserved pc' = reserved pc)
  \/ (exists task, w_order w' = w_order w ++ [task] /\ reserved pc = None /\ reserved pc' = Some task).
Proof using Type.
  intros Hstep. destruct pc as [task spin|task spin|task spin h|task spin h| | | | | | | | | |];
    cbn in Hstep; try done; simplify_eq; try (by left).
  - left. split; [done|]. by destruct (w_closed w'), spin.
  - destruct (slotAt _ _); [|done]. cbn in Hstep. simplify_eq. left. split; [done|].
    unfold pushDecide. destruct (_ =? 0); [done|]. destruct (_ <? 0); [|done]. by destruct spin.
  - destruct (_ =? _); simplify_eq; [right; by exists task|by left].
  - unfold castRetry in Hstep. repeat case_match; simplify_eq; by left.
Qed.

Lemma wkExec_reserved s e s' :
  w_order (st_worker s) ≡ₚ omap reserved (st_pool s) -> wkExec zero s e = Some s' ->
  w_order (st_worker s') ≡ₚ omap reserved (st_pool s').
Proof using Type.
  intros Hs He. destruct s as [w wp pool], e as [pc|i|]; cbn in He, Hs.
  - destruct (starts pc) eqn:Hst; [|done]. simplify_eq. cbn. rewrite omap_app, Hs.
    replace (omap reserved [pc]) with (@nil T) by (by destruct pc). by rewrite app_nil_r.
  - destruct (pool !! i) as [pc|] eqn:Hi; [|done]. cbn in He.
    destruct (castStep w pc) as [[w' pc']|] eqn:Hstep; [|done]. cbn in He. simplify_eq. cbn.
    destruct (castStep_reserved _ _ _ _ Hstep) as [[-> Hr]|(task & -> & Hr & Hr')].
    + by rewrite (omap_insert_same reserved pool i pc pc').
    + by rewrite (omap_insert_new reserved pool i pc pc'), Hr', Hs.
  - destruct (loopStep zero w wp) as [[w' wp']|] eqn:Hstep; [|done]. cbn in He. simplify_eq. cbn.
    by destruct (loopStep_head _ _ _ _ Hstep) as (_ & -> & _).
Qed.

Lemma wkRun_reserved es s s' :
  w_order (st_worker s) ≡ₚ omap reserved (st_pool s) -> wkRun zero s es = Some s' ->
  w_order (st_worker s') ≡ₚ omap reserved (st_pool s').
Proof using Type.
  revert s. induction es as [|e es IH]; intros s Hs Hrun; cbn in Hrun; [by simplify_eq|].
  destruct (wkExec zero s e) as [s1|] eqn:He; [|done]. cbn in Hrun.
  by apply (IH s1); [eapply wkExec_reserved|].
Qed.

(** ** Draining *)

(** A caller between the reservation of its slot and the end of its call, or
    between the two halves of [Close]. *)
Definition in_flight pc : bool :=
  match pc with KWrite _ _ | KPublish _ _ | KNotify _ _ | KCloseNotify => true | _ => false end.

Definition quiescent pool : Prop := forall j pc, pool !! j = Some pc -> in_flight pc = false.

Lemma quiescent_writing pool i : quiescent pool -> writing pool i -> False.
Proof using Type. intros Hq (j & pc & task & Hj & Hw). specialize (Hq j pc Hj). by destruct pc. Qed.

(** Steps the worker can still take on its own. *)
Definition slack w (drain : bool) : Z :=
  if drain then 2 else if w_notify w then 11 else 5.

Definition fuelOf w wp : Z :=
  let n := 7 * (q_head (w_queue w) - q_tail (w_queue w)) in
  match wp with
  | WLoadTail d => n + slack w d
  | WLoadSeq d _ => n + slack w d - 1
  | WAdvance d _ => n + slack w d - 2
  | WRead d _ => n + slack w d + 4
  | WClear d _ _ => n + slack w d + 3
  | WRelease d _ _ => n + slack w d + 2
  | WHandle d _ => n + slack w d + 1
  | WCheck => n + slack w false - 2
  | WRecv => n + (if w_notify w then 6 else 0)
  | WExit => n
  end.

Lemma fuelOf_nonneg w wp pool : ring_ok w wp pool -> 0 <= fuelOf w wp.
Proof using Hk.
  intros Hok. pose proof (ro_range _ _ _ Hok). pose proof (ro_loop _ _ _ Hok) as Hl.
  unfold fuelOf, slack. destruct wp; cbn [loop_ok] in Hl; repeat case_match; lia.
Qed.

Lemma fuelOf_step w wp pool w' wp' :
  ring_ok w wp pool -> loopStep zero w wp = Some (w', wp') -> q_head (w_queue w) + N < 2 ^ 63 ->
  fuelOf w' wp' < fuelOf w wp.
Proof using Hk.
  intros Hok Hstep Hbig. pose proof capacity_bounds. pose proof (ro_range _ _ _ Hok) as Hr.
  pose proof (ro_loop _ _ _ Hok) as Hl. unfold fuelOf, slack.
  destruct wp as [d|d t|d t|d t|d t v|d t v|d v| | |]; cbn [loopStep] in Hstep;
    cbn [loop_ok freed] in *; try done.
  - simplify_eq. destruct d; [lia|]. case_match; lia.
  - destruct (slotAt _ _); [|done]. cbn in Hstep. simplify_eq. unfold popDecide.
    destruct (_ =? _); destruct d; try (case_match; lia); lia.
  - destruct Hl as (-> & ? & _). simplify_eq. cbn. rewrite wrapu_small by (unfold in_u; lia).
    destruct d; [lia|]. case_match; lia.
  - destruct (slotAt _ _); [|done]. cbn in Hstep. simplify_eq. destruct d; [lia|]. case_match; lia.
  - simplify_eq. cbn. destruct d; [lia|]. case_match; lia.
  - simplify_eq. cbn. destruct d; [lia|]. case_match; lia.
  - simplify_eq. cbn. destruct d; [lia|]. case_match; lia.
  - simplify_eq. destruct (w_closed w'); case_match; lia.
  - destruct (w_notify w); [|done]. simplify_eq. cbn. lia.
Qed.

Lemma loopStep_stuck w wp pool :
  ring_ok w wp pool -> loopStep zero w wp = None -> (wp = WRecv /\ w_notify w = false) \/ wp = WExit.
Proof using Hk.
  intros Hok Hstep. pose proof (ro_shape _ _ _ Hok) as Hs. pose proof (ro_loop _ _ _ Hok) as Hl.
  pose proof (ro_range _ _ _ Hok) as Hr.
  destruct wp as [d|d t|d t|d t|d t v|d t v|d v| | |]; cbn [loopStep] in Hstep;
    cbn [loop_ok freed] in *; try done.
  - rewrite slotAt_place in Hstep by (done || lia). by destruct (slot_exists w t Hs) as [? E]; rewrite E in Hstep.
  - rewrite slotAt_place in Hstep by (done || lia). by destruct (slot_exists w t Hs) as [? E]; rewrite E in Hstep.
  - left. by destruct (w_notify w).
  - by right.
Qed.

(** The ring is empty when the worker finds it empty and no caller is in flight. *)
Lemma empty_ring w wp pool :
  ring_ok w wp pool -> (forall i, ~ writing pool i) -> freed w wp = q_tail (w_queue w) ->
  seqAt w (q_tail (w_queue w)) <> Some (q_tail (w_queue w) + 1) ->
  q_tail (w_queue w) = q_head (w_queue w).
Proof using Hk.
  intros Hok Hq Hfr Hse. pose proof (ro_range _ _ _ Hok) as Hr.
  destruct (decide (q_tail (w_queue w) < q_head (w_queue w))); [|lia].
  destruct (ro_busy _ _ _ Hok (q_tail (w_queue w)) ltac:(lia)) as [[_ Hw]|[Hs _]]; [|done].
  by destruct (Hq _ Hw).
Qed.

Lemma exits_empty w wp pool w' wp' :
  ring_ok w wp pool -> (forall i, ~ writing pool i) -> loopStep zero w wp = Some (w', wp') ->
  q_head (w_queue w) + N < 2 ^ 63 -> wp' = WExit -> q_tail (w_queue w') = q_head (w_queue w').
Proof using Hk.
  intros Hok Hq Hstep Hbig ->. pose proof capacity_bounds. pose proof (ro_range _ _ _ Hok) as Hr.
  pose proof (ro_loop _ _ _ Hok) as Hl.
  destruct wp as [d|d t|d t|d t|d t v|d t v|d v| | |]; cbn [loopStep] in Hstep;
    cbn [loop_ok freed] in *; try done.
  - subst t. rewrite slotAt_place in Hstep by (apply Hok || lia).
    destruct (_ !! place (q_tail (w_queue w))) as [slot|] eqn:Hslot; [|done]. cbn in Hstep.
    destruct (seqAt_window w _ pool (q_tail (w_queue w)) Hok ltac:(lia)) as (q & Hsq & Hqr & _).
    pose proof Hsq as Hsq'. unfold seqAt in Hsq. rewrite Hslot in Hsq. cbn in Hsq. simplify_eq.
    unfold popDecide in *. rewrite (wrapu_small 64), seqDiff_small in * by (unfold in_u; lia).
    destruct (Z.eqb_spec (slot_seq slot - (q_tail (w_queue w') + 1)) 0); [done|].
    eapply empty_ring; [done|done|done|]. rewrite Hsq'. intros E. apply (inj Some) in E. lia.
  - destruct (slotAt _ _); [|done]. by cbn in Hstep.
  - destruct (w_closed w); by simplify_eq.
  - destruct (w_notify w); by simplify_eq.
Qed.

Lemma drain_from m w wp pool :
  fuelOf w wp <= Z.of_nat m -> wk_ok w wp pool -> quiescent pool -> q_head (w_queue w) + N < 2 ^ 63 ->
  (wp = WExit -> q_tail (w_queue w) = q_head (w_queue w)) ->
  exists n w' wp', (n <= m)%nat
    /\ wkRun zero (mkState w wp pool) (replicate n EvWorker) = Some (mkState w' wp' pool)
    /\ loopStep zero w' wp' = None /\ wk_ok w' wp' pool
    /\ (wp' = WExit -> q_tail (w_queue w') = q_head (w_queue w'))
    /\ q_head (w_queue w') = q_head (w_queue w) /\ w_order w' = w_order w /\ w_closed w' = w_closed w.
Proof using Hk.
  revert w wp. induction m as [|m IH]; intros w wp Hf Hok Hq Hbig Hex;
    (destruct (loopStep zero w wp) as [[w1 wp1]|] eqn:Hstep; [|exists 0%nat, w, wp; split; [lia|done]]).
  - pose proof (fuelOf_step _ _ _ _ _ (wk_ring _ _ _ Hok) Hstep Hbig).
    pose proof (wk_worker _ _ _ _ _ Hok Hstep Hbig) as Hok1.
    pose proof (fuelOf_nonneg _ _ _ (wk_ring _ _ _ Hok1)). lia.
  - pose proof (fuelOf_step _ _ _ _ _ (wk_ring _ _ _ Hok) Hstep Hbig).
    destruct (loopStep_head _ _ _ _ Hstep) as (Hh & Ho & Hc).
    destruct (IH w1 wp1) as (n & w' & wp' & Hn & Hrun & Hst & Hok' & Hex' & Hh' & Ho' & Hc').
    + lia.
    + by eapply wk_worker.
    + done.
    + lia.
    + intros E. eapply exits_empty; [apply Hok|intros i Hwr; exact (quiescent_writing _ _ Hq Hwr)|done..].
    + exists (S n), w', wp'. split; [lia|]. split; [cbn; by rewrite Hstep|].
      do 3 (split; [done|]). split; [lia|]. split; congruence.
Qed.

Lemma drained w wp pool :
  wk_ok w wp pool -> quiescent pool -> loopStep zero w wp = None ->
  (wp = WExit -> q_tail (w_queue w) = q_head (w_queue w)) ->
  w_handled w = w_order w /\ (if w_closed w then wp = WExit else wp = WRecv /\ w_notify w = false).
Proof using Hk.
  intros Hok Hq Hst Hex. pose proof (wk_ring _ _ _ Hok) as Hring. pose proof (ro_order _ _ _ Hring) as Ho.
  assert (Hall : finished w wp = q_head (w_queue w) -> w_handled w = w_order w).
  { intros E. rewrite (wk_handled _ _ _ Hok), E, Ho, to_nat_len. apply firstn_all. }
  destruct (loopStep_stuck _ _ _ Hring Hst) as [[-> Hn]| ->].
  - assert (Ht : q_tail (w_queue w) = q_head (w_queue w)).
    { eapply empty_ring; [done|intros i Hwr; exact (quiescent_writing _ _ Hq Hwr)|done|]. intros Hse.
      destruct (wk_wake _ _ _ Hok eq_refl Hn Hse) as (j & pc & Hj & Hp). specialize (Hq j pc Hj). by destruct pc. }
    split; [by apply Hall|]. destruct (w_closed w) eqn:Hc; [|done].
    destruct (wk_shut _ _ _ Hok eq_refl Hn Hc) as (j & Hj). by specialize (Hq _ _ Hj).
  - split; [by apply Hall, Hex|]. by rewrite (wk_drain _ _ _ Hok eq_refl).
Qed.

(** ** Closing *)

(** A call that was let in by the check of [closed] and has not returned. *)
Definition letIn pc : bool :=
  match pc with
  | KLoadHead _ _ | KLoadSeq _ _ _ | KCas _ _ _ | KWrite _ _ | KPublish _ _ | KNotify _ _ => true
  | _ => false
  end.

Record closing s : Prop := {
  cl_ok : st_ok s;
  cl_closed : w_closed (st_worker s) = true;
  cl_calls : Forall (fun pc => letIn pc = false) (st_pool s);
  cl_exit : st_loop s = WExit -> q_tail (w_queue (st_worker s)) = q_head (w_queue (st_worker s))
}.

Lemma closing_writing pool i : Forall (fun pc => letIn pc = false) pool -> ~ writing pool i.
Proof using Type.
  intros Hc (j & pc & task & Hj & Hw). pose proof (proj1 (Forall_lookup _ _) Hc j pc Hj) as Ha. by destruct pc.
Qed.

(** Once it is closed with no call let in, no call is let in any more and the ring
    is not touched by callers. *)
Lemma castStep_closed w pc w' pc' :
  castStep w pc = Some (w', pc') -> letIn pc = false -> w_closed w = true ->
  letIn pc' = false /\ w_queue w' = w_queue w /\ w_closed w' = true /\ w_order w' = w_order w.
Proof using Type.
  intros Hstep Ha Hc. destruct pc as [task spin| | | | task spin| | | | | | | | |]; cbn in Hstep; try done.
  - rewrite Hc in Hstep. simplify_eq. by destruct spin.
  - unfold castRetry in Hstep. rewrite Hc in Hstep. by simplify_eq.
  - by simplify_eq.
  - by simplify_eq.
Qed.

Lemma wkExec_closing s e s' :
  closing s -> wkExec zero s e = Some s' -> q_head (w_queue (st_worker s)) + N < 2 ^ 63 ->
  closing s' /\ q_head (w_queue (st_worker s')) = q_head (w_queue (st_worker s)).
Proof using Hk.
  intros [Hok Hc Hca Hx] He Hbig. pose proof (wkExec_ok s e s' Hok He Hbig) as Hok'.
  destruct s as [w wp pool], e as [pc|i|]; cbn in He; cbn [st_worker st_loop st_pool] in *.
  - destruct (starts pc) eqn:Hst; [|done]. injection He as <-. split; [|done]. split; cbn; [done|done| |done].
    apply Forall_app. split; [done|]. apply Forall_singleton. by destruct pc.
  - destruct (pool !! i) as [pc|] eqn:Hi; [|done]. cbn in He.
    destruct (castStep w pc) as [[w' pc']|] eqn:Hstep; [|done]. cbn in He. injection He as <-.
    destruct (castStep_closed _ _ _ _ Hstep (proj1 (Forall_lookup _ _) Hca i pc Hi) Hc) as (Ha & Hq & Hc' & _).
    split; [|cbn; by rewrite Hq]. split; cbn; [done|done|by apply Forall_insert|]. by rewrite Hq.
  - destruct (loopStep zero w wp) as [[w' wp']|] eqn:Hstep; [|done]. cbn in He. injection He as <-.
    destruct (loopStep_head _ _ _ _ Hstep) as (Hh & _ & Hc'). split; [|done]. split; cbn; [done|congruence|done|].
    intros E. eapply exits_empty; [apply Hok|intros i; by apply closing_writing|done..].
Qed.

Lemma wkRun_closing es s s' :
  closing s -> wkRun zero s es = Some s' -> q_head (w_queue (st_worker s)) + N < 2 ^ 63 -> closing s'.
Proof using Hk.
  revert s. induction es as [|e es IH]; intros s Hcl Hrun Hbig; cbn in Hrun; [by simplify_eq|].
  destruct (wkExec zero s e) as [s1|] eqn:He; [|done]. cbn in Hrun.
  destruct (wkExec_closing s e s1 Hcl He Hbig) as [Hcl1 Hh]. apply (IH s1); [done|done|by rewrite Hh].
Qed.

(** ** Accesses to the values of the slots *)

(** The slot whose value the next step of a caller, or of the worker, touches. *)
Definition callerTouches pc : option nat :=
  match pc with KWrite _ h => Some (place h) | _ => None end.

Definition workerTouches wp : option nat :=
  match wp with WRead _ t | WClear _ t _ => Some (place t) | _ => None end.

Lemma ring_race_free w wp pool :
  ring_ok w wp pool ->
  (forall i j p q l, pool !! i = Some p -> pool !! j = Some q ->
    callerTouches p = Some l -> callerTouches q = Some l -> i = j)
  /\ (forall i p l, pool !! i = Some p -> callerTouches p = Some l -> workerTouches wp <> Some l).
Proof using Hk.
  intros Hok. pose proof (ro_range _ _ _ Hok) as Hr. split.
  - intros i j p q l Hi Hj Hp Hq. destruct p as [| | | | |tk h| | | | | | | |]; try done.
    destruct q as [| | | | |tk' h'| | | | | | | |]; try done. cbn in Hp, Hq. simplify_eq.
    destruct (ro_writer _ _ _ Hok i _ tk h Hi eq_refl) as (H1 & _).
    destruct (ro_writer _ _ _ Hok j _ tk' h' Hj eq_refl) as (H2 & _).
    assert (h' = h) as -> by (apply (place_inj (freed w wp)); [lia..|congruence]).
    by eapply (ro_unique _ _ _ Hok).
  - intros i p l Hi Hp Hw. destruct p as [| | | | |tk h| | | | | | | |]; try done. cbn in Hp. simplify_eq.
    destruct (ro_writer _ _ _ Hok i _ tk h Hi eq_refl) as (H1 & H2 & _).
    pose proof (ro_loop _ _ _ Hok) as Hl. pose proof capacity_bounds.
    destruct wp as [d|d t|d t|d t|d t v|d t v|d v| | |]; try done; cbn [workerTouches loop_ok freed] in *;
      apply (inj Some) in Hw; assert (t = h) as -> by (apply (place_inj t); [lia..|done]);
      destruct Hl as (_ & H3 & _); rewrite H2 in H3; apply (inj Some) in H3; lia.
Qed.

(** [Push] answers that the ring is full only when every slot is taken. *)
Lemma refused_full w wp pool j task spin h slot :
  ring_ok w wp pool -> pool !! j = Some (KLoadSeq task spin h) -> q_head (w_queue w) + N < 2 ^ 63 ->
  slotAt (w_queue w) h = Some slot -> pushDecide task spin h (slot_seq slot) = refused task spin ->
  q_head (w_queue w) = freed w wp + N.
Proof using Hk.
  intros Hok Hj Hbig Hslot Hd. pose proof capacity_bounds. pose proof (ro_range _ _ _ Hok) as Hr.
  pose proof (ro_callers _ _ _ Hok _ _ Hj) as Hh. cbn in Hh.
  destruct (seqAt_window _ _ _ _ Hok Hh) as (q & Hq & Hqr & _ & Hlt).
  rewrite slotAt_place in Hslot by (apply Hok || lia). unfold seqAt in Hq. rewrite Hslot in Hq.
  cbn in Hq. simplify_eq. unfold pushDecide in Hd. rewrite seqDiff_small in Hd by lia.
  destruct (Z.eqb_spec (slot_seq slot - h) 0); [by destruct spin|].
  destruct (Z.ltb_spec (slot_seq slot - h) 0); [|by destruct spin]. lia.
Qed.

End ring.

(** ** The worker, from its creation *)

Lemma reachable_ok {T} (zero : T) queueCap es s :
  queueCap <= 2 ^ 62 -> len es < 2 ^ 62 -> wkRun zero (initial zero queueCap) es = Some s ->
  exists k, 4 <= k <= 62 /\ st_ok k s /\ q_mask (w_queue (st_worker s)) = 2 ^ k - 1
    /\ q_mask (NewMPSCQueue zero queueCap) = 2 ^ k - 1
    /\ q_head (w_queue (st_worker s)) + 2 ^ k < 2 ^ 63.
Proof.
  intros Hc He Hrun. destruct (NewMPSCQueue_capacity zero queueCap Hc) as (k & Hk & Hm & Hl & _).
  pose proof (capacity_bounds k Hk). exists k.
  destruct (wkRun_ok zero k Hk es _ s (initial_st_ok zero k Hk queueCap Hm Hl) Hrun) as (Hok & Hh & _).
  { cbn. lia. }
  cbn in Hh. split; [done|]. split; [done|]. split; [apply Hok|]. split; [done|]. lia.
Qed.

(** If the loop of the worker has exited in a run, then at some moment after the
    worker was closed and before that it had no call that was let in. *)
Definition orderly {T} (zero : T) (queueCap : Z) (es : list (wkEvent T)) (s : wkState T) : Prop :=
  st_loop s = WExit -> exists es1 es2 s1, es = es1 ++ es2 /\ wkRun zero (initial zero queueCap) es1 = Some s1
    /\ st_loop s1 <> WExit /\ w_closed (st_worker s1) = true
    /\ Forall (fun pc => letIn pc = false) (st_pool s1).

Lemma wkRun_app {T} (zero : T) es es' s :
  wkRun zero s (es ++ es') = (s' ← wkRun zero s es; wkRun zero s' es').
Proof.
  revert s. induction es as [|e es IH]; intros s; [done|]. cbn. destruct (wkExec zero s e) as [s1|]; [|done]. apply IH.
Qed.

Lemma orderly_exit {T} (zero : T) queueCap es s :
  queueCap <= 2 ^ 62 -> len es < 2 ^ 62 -> wkRun zero (initial zero queueCap) es = Some s ->
  orderly zero queueCap es s ->
  st_loop s = WExit -> q_tail (w_queue (st_worker s)) = q_head (w_queue (st_worker s)).
Proof.
  intros Hc He Hrun Hor Hx. destruct (Hor Hx) as (es1 & es2 & s1 & -> & Hrun1 & Hnx & Hcl & Hca).
  rewrite len_app in He. pose proof (len_nonneg es1). pose proof (len_nonneg es2).
  destruct (reachable_ok zero queueCap es1 s1 Hc ltac:(lia) Hrun1) as (k & Hk & Hok & _ & _ & Hbig).
  rewrite wkRun_app, Hrun1 in Hrun. cbn in Hrun.
  refine (cl_exit k s (wkRun_closing zero k Hk es2 s1 s _ Hrun Hbig) Hx). by split.
Qed.

(** C16. A worker handles the tasks its callers were given a slot for, each once and
    in the order of their slots, whatever the interleaving of the callers with
    each other, with [Close] and with the worker.  At every moment what was
    handled is a prefix of that order, at most one task more than the capacity of
    the ring is waiting, a call that returned true holds its place in the order,
    and later calls come behind it; every task released was handled or given up
    by [Cast], once.  The loop exits only when the worker was closed, and when it
    is at rest with no call between reserving a slot and returning, it has handled
    all of them; for a loop that has exited this needs a moment after [Close] at
    which no call was let in ([orderly]; [close_loses_accepted_tasks] shows what
    is lost otherwise). *)
Theorem Worker_exactly_once {T : Type} (zero : T) queueCap es es' s s' :
  queueCap <= 2 ^ 62 -> len (es ++ es') < 2 ^ 62 ->
  wkRun zero (initial zero queueCap) es = Some s -> wkRun zero s es' = Some s' ->
  (exists waiting, w_order (st_worker s) = w_handled (st_worker s) ++ waiting
     /\ len waiting <= MPSCQueue_Cap (NewMPSCQueue zero queueCap) + 1)
  /\ w_order (st_worker s) ≡ₚ omap reserved (st_pool s)
  /\ w_released (st_worker s) ≡ₚ w_handled (st_worker s) ++ omap dropped (st_pool s)
  /\ (forall i task n, st_pool s !! i = Some (KAccepted task n) ->
        w_order (st_worker s) !! Z.to_nat n = Some task)
  /\ (exists later, w_order (st_worker s') = w_order (st_worker s) ++ later)
  /\ (st_loop s = WExit -> w_closed (st_worker s) = true)
  /\ (quiescent (st_pool s) -> loopStep zero (st_worker s) (st_loop s) = None -> orderly zero queueCap es s ->
      w_handled (st_worker s) = w_order (st_worker s)).
Proof.
  intros Hc He Hrun Hrun'. rewrite len_app in He. pose proof (len_nonneg es'). pose proof (len_nonneg es).
  destruct (reachable_ok zero queueCap es s Hc ltac:(lia) Hrun) as (k & Hk & Hok & Hm & Hm0 & Hbig).
  pose proof (capacity_bounds k Hk). pose proof (wk_ring _ _ _ _ Hok) as Hring.
  pose proof (ro_order _ _ _ _ Hring) as Ho. pose proof (ro_range _ _ _ _ Hring) as Hr.
  assert (Hfin : freed (st_worker s) (st_loop s) - 1 <= finished (st_worker s) (st_loop s)
    <= q_head (w_queue (st_worker s))).
  { unfold finished. destruct (st_loop s); cbn [freed] in *; lia. }
  split; [|split; [|split; [apply Hok|split; [|split; [|split]]]]].
  - exists (drop (Z.to_nat (finished (st_worker s) (st_loop s))) (w_order (st_worker s))).
    rewrite (wk_handled _ _ _ _ Hok) at 1. rewrite take_drop. split; [done|].
    unfold MPSCQueue_Cap. rewrite Hm0, len_drop. replace (2 ^ k - 1 + 1) with (2 ^ k) by lia.
    rewrite wrapu_small, wrapi64_small by (unfold in_u; lia). lia.
  - by apply (wkRun_reserved zero es (initial zero queueCap)).
  - intros i task n Hi. apply (ro_callers _ _ _ _ Hring _ _ Hi).
  - apply (wkRun_ok zero k Hk es' s s' Hok Hrun'). 
    destruct (NewMPSCQueue_capacity zero queueCap Hc) as (k' & Hk' & Hm' & Hl' & _).
    rewrite Hm' in Hm0. assert (k' = k) as -> by (apply (Z.pow_inj_r 2); lia).
    destruct (wkRun_ok zero k Hk es _ s (initial_st_ok zero k Hk queueCap Hm' Hl') Hrun) as (_ & Hh & _);
      [cbn; lia|]. cbn in Hh. lia.
  - intros Hx. apply (wk_drain _ _ _ _ Hok). by rewrite Hx.
  - intros Hq Hst Hor. destruct s as [w wp pool].
    apply (drained zero k Hk w wp pool Hok Hq Hst), (orderly_exit zero queueCap es _ Hc ltac:(lia) Hrun Hor).
Qed.

(** C17. A worker is never left asleep over work.  From any state of a run in
    which no call is between reserving a slot and notifying the worker, the
    worker on its own, within a bounded number of steps, has handled every task
    accepted; it then waits on its channel, or has exited if it was closed.  A
    loop that has exited already has handled every task if [orderly] holds. *)
Theorem Worker_drains {T : Type} (zero : T) queueCap es s :
  queueCap <= 2 ^ 62 -> len es < 2 ^ 62 -> wkRun zero (initial zero queueCap) es = Some s ->
  quiescent (st_pool s) -> orderly zero queueCap es s ->
  exists n s', Z.of_nat n <= 7 * (len (w_order (st_worker s)) - len (w_handled (st_worker s))) + 17
    /\ wkRun zero s (replicate n EvWorker) = Some s'
    /\ w_handled (st_worker s') = w_order (st_worker s)
    /\ (if w_closed (st_worker s) then st_loop s' = WExit
        else st_loop s' = WRecv /\ w_notify (st_worker s') = false).
Proof.
  intros Hc He Hrun Hq Hx.
  destruct (reachable_ok zero queueCap es s Hc He Hrun) as (k & Hk & Hok & Hm & _ & Hbig).
  pose proof (capacity_bounds k Hk). pose proof (wk_ring _ _ _ _ Hok) as Hring.
  pose proof (ro_order _ _ _ _ Hring) as Ho. pose proof (ro_range _ _ _ _ Hring) as Hr.
  pose proof (fuelOf_nonneg k Hk _ _ _ Hring) as Hf.
  destruct (drain_from zero k Hk (Z.to_nat (fuelOf (st_worker s) (st_loop s))) (st_worker s) (st_loop s) (st_pool s))
    as (n & w' & wp' & Hn & Hrun' & Hst & Hok' & Hex & Hh & Ho' & Hc'); [lia|done|done|done|by apply (orderly_exit zero queueCap es)|].
  exists n, (mkState w' wp' (st_pool s)). split.
  - assert (len (w_handled (st_worker s)) <= q_tail (w_queue (st_worker s))).
    { rewrite (wk_handled _ _ _ _ Hok). unfold len. rewrite length_take.
      unfold finished. destruct (st_loop s); cbn [freed] in *; lia. }
    assert (fuelOf (st_worker s) (st_loop s) <= 7 * (q_head (w_queue (st_worker s)) - q_tail (w_queue (st_worker s))) + 15); [|lia].
    unfold fuelOf, slack. destruct (st_loop s); repeat case_match; lia.
  - destruct s as [w wp pool]. split; [done|]. cbn [st_worker st_loop].
    destruct (drained zero k Hk _ _ _ Hok' Hq Hst Hex) as [Hall Hend].
    cbn [st_worker] in Ho', Hc'. rewrite <-Ho', <-Hc'. done.
Qed.

(** The values of the slots are only touched by one party at a time: in no
    state of a run are two callers about to write the same slot, nor a caller
    and the worker about to touch the same slot.  A call is refused for a full
    ring only when, at the moment it looks, the tickets given out are a whole
    ring ahead of the slots the worker gave back. *)
Theorem MPSCQueue_race_free {T : Type} (zero : T) queueCap es s :
  queueCap <= 2 ^ 62 -> len es < 2 ^ 62 -> wkRun zero (initial zero queueCap) es = Some s ->
  exists k, q_mask (NewMPSCQueue zero queueCap) = 2 ^ k - 1
  /\ (forall i j p q l, st_pool s !! i = Some p -> st_pool s !! j = Some q ->
        callerTouches k p = Some l -> callerTouches k q = Some l -> i = j)
  /\ (forall i p l, st_pool s !! i = Some p -> callerTouches k p = Some l -> workerTouches k (st_loop s) <> Some l)
  /\ (forall i task spin h slot, st_pool s !! i = Some (KLoadSeq task spin h) ->
        slotAt (w_queue (st_worker s)) h = Some slot ->
        pushDecide task spin h (slot_seq slot) = refused task spin ->
        q_head (w_queue (st_worker s)) = freed (st_worker s) (st_loop s) + 2 ^ k).
Proof.
  intros Hc He Hrun.
  destruct (reachable_ok zero queueCap es s Hc He Hrun) as (k & Hk & Hok & Hm & Hm0 & Hbig).
  exists k. split; [done|]. destruct (ring_race_free k Hk _ _ _ (wk_ring _ _ _ _ Hok)) as [H1 H2].
  split; [done|]. split; [done|]. intros i task spin h slot Hi Hs Hd.
  by eapply (refused_full k Hk); [apply Hok|..].
Qed.

(** ** Closing under load *)

Lemma exited_forever {T} (zero : T) es s s' :
  st_loop s = WExit -> wkRun zero s es = Some s' ->
  st_loop s' = WExit /\ w_handled (st_worker s') = w_handled (st_worker s).
Proof.
  revert s. induction es as [|e es IH]; intros s Hx Hrun; cbn in Hrun; [by simplify_eq|].
  destruct (wkExec zero s e) as [s1|] eqn:He; [|done]. cbn in Hrun.
  assert (st_loop s1 = WExit /\ w_handled (st_worker s1) = w_handled (st_worker s)) as [Hx1 <-]; [|by apply IH].
  destruct s as [w wp pool], e as [pc|i|]; cbn in He, Hx |- *; subst.
  - destruct (starts pc); by simplify_eq.
  - destruct (pool !! i) as [pc|]; [|done]. cbn in He.
    destruct (castStep w pc) as [[w' pc']|] eqn:Hstep; [|done]. cbn in He. simplify_eq. cbn. split; [done|].
    destruct pc; cbn in Hstep; try done; simplify_eq; try done.
    + destruct (slotAt _ _); [|done]. cbn in Hstep. by simplify_eq.
    + destruct (_ =? _); by simplify_eq.
    + unfold castRetry in Hstep. repeat case_match; by simplify_eq.
  - done.
Qed.

(** A caller passes the check of [closed]; the worker is closed, drains and
    exits; the caller then enqueues its task. *)
Definition lateCaller : list (wkEvent Z) :=
  [EvCall (KLoadClosed 7 None); EvCaller 0; EvCall KCloseStore; EvCaller 1; EvCaller 1]
  ++ replicate 5 EvWorker ++ replicate 6 (EvCaller 0).

(** A caller has a slot and has not filled it; another caller fills the next
    slot and returns; then the worker is closed. *)
Definition slowCaller : list (wkEvent Z) :=
  [EvCall (KLoadClosed 7 None)] ++ replicate 4 (EvCaller 0) ++ [EvCall (KLoadClosed 8 None)]
  ++ replicate 7 (EvCaller 1) ++ [EvCall KCloseStore; EvCaller 2; EvCaller 2] ++ replicate 5 EvWorker.

Definition lateEnd : wkState Z := default (initial 0 1) (wkRun 0 (initial 0 1) lateCaller).
Definition slowEnd : wkState Z := default (initial 0 1) (wkRun 0 (initial 0 1) slowCaller).

(** [TryCast] can answer true for a task that is then neither handled nor
    released: when [Close] falls between its check and its enqueue, and when it
    returned before [Close] but a caller with an earlier slot had not published
    yet. *)
Theorem close_loses_accepted_tasks :
  (wkRun 0 (initial 0 1) lateCaller = Some lateEnd /\ st_pool lateEnd !! 0%nat = Some (KAccepted 7 0)
   /\ forall es s', wkRun 0 lateEnd es = Some s' -> 7 ∉ w_handled (st_worker s'))
  /\ (wkRun 0 (initial 0 1) slowCaller = Some slowEnd /\ st_pool slowEnd !! 1%nat = Some (KAccepted 8 1)
      /\ forall es s', wkRun 0 slowEnd es = Some s' -> 8 ∉ w_handled (st_worker s')).
Proof.
  assert (Hlate : st_loop lateEnd = WExit /\ w_handled (st_worker lateEnd) = []) by (vm_compute; done).
  assert (Hslow : st_loop slowEnd = WExit /\ w_handled (st_worker slowEnd) = []) by (vm_compute; done).
  split; (split; [vm_compute; reflexivity|split; [vm_compute; reflexivity|]]); intros es s' Hrun.
  - destruct (exited_forever 0 es lateEnd s' (proj1 Hlate) Hrun) as [_ ->]. rewrite (proj2 Hlate). apply not_elem_of_nil.
  - destruct (exited_forever 0 es slowEnd s' (proj1 Hslow) Hrun) as [_ ->]. rewrite (proj2 Hslow). apply not_elem_of_nil.
Qed.

(** ** Examples *)

(** Two callers interleave, the worker handles the first task, and a second
    call of [TryCast] follows. *)
Definition twoCallers : list (wkEvent Z) :=
  [EvCall (KLoadClosed 7 None); EvCall (KLoadClosed 8 (Some 0)); EvCaller 0; EvCaller 1; EvCaller 0; EvCaller 1]
  ++ [EvCaller 1; EvCaller 1; EvCaller 0; EvCaller 0] ++ replicate 4 (EvCaller 0)
  ++ replicate 3 (EvCaller 1) ++ replicate 9 EvWorker ++ replicate 2 (EvCaller 0).

Definition twoCallersEnd : wkState Z := default (initial 0 1) (wkRun 0 (initial 0 1) twoCallers).

Lemma twoCallers_runs : wkRun 0 (initial 0 1) twoCallers = Some twoCallersEnd.
Proof. vm_compute. reflexivity. Qed.

(** The worker is closed after both calls returned, handles the other task and exits. *)
Definition closedAfter : list (wkEvent Z) := twoCallers ++ [EvCall KCloseStore; EvCaller 2; EvCaller 2].
Definition closedExit : list (wkEvent Z) := closedAfter ++ replicate 10 EvWorker.
Definition closedAfterEnd : wkState Z := default (initial 0 1) (wkRun 0 (initial 0 1) closedAfter).
Definition closedExitEnd : wkState Z := default (initial 0 1) (wkRun 0 (initial 0 1) closedExit).

Lemma all_calls (P : castPc Z -> bool) (l : list (castPc Z)) :
  forallb (fun pc => negb (P pc)) l = true -> Forall (fun pc => P pc = false) l.
Proof. intros H. apply List.Forall_forall. intros pc Hin. by apply negb_true_iff, (proj1 (List.forallb_forall _ _) H). Qed.

Lemma sample_quiescent (l : list (castPc Z)) :
  forallb (fun pc => negb (in_flight pc)) l = true -> quiescent l.
Proof. intros H j pc Hj. exact (proj1 (Forall_lookup _ _) (all_calls in_flight l H) j pc Hj). Qed.

Lemma closedExit_orderly : orderly 0 1 closedExit closedExitEnd.
Proof.
  intros _. exists closedAfter, (replicate 10 EvWorker), closedAfterEnd. split; [reflexivity|].
  split; [vm_compute; reflexivity|]. split; [vm_compute; discriminate|]. split; [vm_compute; reflexivity|].
  apply all_calls. vm_compute. reflexivity.
Qed.

Lemma Worker_exactly_once_witness :
  w_handled (st_worker closedExitEnd) = w_order (st_worker closedExitEnd)
  /\ w_order (st_worker closedExitEnd) = [8; 7] /\ st_loop closedExitEnd = WExit
  /\ w_closed (st_worker closedExitEnd) = true.
Proof.
  destruct (Worker_exactly_once 0 1 closedExit [] closedExitEnd closedExitEnd) as (_ & _ & _ & _ & _ & Hx & Hall).
  - by_evaluation.
  - by_evaluation.
  - vm_compute. reflexivity.
  - reflexivity.
  - split; [apply Hall|].
    + apply sample_quiescent. vm_compute. reflexivity.
    + vm_compute. reflexivity.
    + exact closedExit_orderly.
    + split; [vm_compute; reflexivity|]. split; [vm_compute; reflexivity|]. apply Hx. vm_compute. reflexivity.
Defined.

Lemma Worker_drains_witness :
  w_handled (st_worker twoCallersEnd) = [8] /\
  exists n s', wkRun 0 twoCallersEnd (replicate n EvWorker) = Some s' /\ w_handled (st_worker s') = [8; 7].
Proof.
  split; [vm_compute; reflexivity|].
  destruct (Worker_drains 0 1 twoCallers twoCallersEnd) as (n & s' & _ & Hrun & Hh & _).
  - by_evaluation.
  - by_evaluation.
  - exact twoCallers_runs.
  - apply sample_quiescent. vm_compute. reflexivity.
  - intros Hx. vm_compute in Hx. discriminate Hx.
  - exists n, s'. split; [exact Hrun|]. rewrite Hh. vm_compute. reflexivity.
Defined.

Lemma MPSCQueue_race_free_witness : exists k, q_mask (NewMPSCQueue 0 1) = 2 ^ k - 1.
Proof.
  destruct (MPSCQueue_race_free 0 1 twoCallers twoCallersEnd) as (k & Hk & _);
    [by_evaluation|by_evaluation|exact twoCallers_runs|]. exists k. exact Hk.
Defined.
