(* ===== verification/WorkerPool.v ===== *)
(** * Worker pools

    Models [src/worker/pool.go] and [src/misc/hash.go]: workers chosen by a hash
    of the key, so that the tasks of a key run one after another.

    The workers are those of [WorkerQueue]: a step of a dispatching goroutine
    inside [TryCast] is a step of the worker it chose, so the run of a pool is
    an interleaving of runs of its workers. *)

From stdpp Require Import base list.
From Stdlib Require Import ZArith Lia.
From S2P Require Import Prelude WorkerQueue.

#[local] Open Scope Z_scope.

(** ** Data *)

(** The finaliser of a 64-bit mix. *)
Definition Hash64 (x : Z) : Z :=
  let x := u64! (Z.lxor x (Z.shiftr x 30) * 0xbf58476d1ce4e5b9) in
  let x := u64! (Z.lxor x (Z.shiftr x 27) * 0x94d049bb133111eb) in
  Z.lxor x (Z.shiftr x 31).

Record PoolConfig := mkPoolConfig {
  cfg_WorkerNum : Z;
  cfg_QueueCap : Z
}.

Inductive poolError : Type :=
| ErrWorkerClosed
| ErrWorkerQueueFull
| ErrContext.

Record Pool (T : Type) := mkPool {
  p_workers : list (wkState T);
  p_workerNum : Z;
  p_queueCap : Z;
  p_started : bool;
  p_stopped : bool;
  p_stopDone : bool
}.
Arguments mkPool {T}.
Arguments p_workers {T}.
Arguments p_workerNum {T}.
Arguments p_queueCap {T}.
Arguments p_started {T}.
Arguments p_stopped {T}.
Arguments p_stopDone {T}.

(** Where a call stands.  [PCasting] and [PClosing] name the worker and the call
    of that worker they are in; [release] tells [Dispatch] from [TryDispatch]. *)
Inductive poolPc (T : Type) : Type :=
| PStart
| PDispatch (release : bool) (key : Z) (task : T)
| PCasting (release : bool) (key : Z) (task : T) (i j : nat)
| PSent (key : Z) (task : T) (i j : nat)
| PFailed (task : T) (err : poolError) (released : bool)
| PStop
| PClose (i : nat)
| PClosing (i j : nat)
| PWait
| PWaiter
| PReturned (err : option poolError).
Arguments PStart {T}.
Arguments PDispatch {T}.
Arguments PCasting {T}.
Arguments PSent {T}.
Arguments PFailed {T}.
Arguments PStop {T}.
Arguments PClose {T}.
Arguments PClosing {T}.
Arguments PWait {T}.
Arguments PWaiter {T}.
Arguments PReturned {T}.

Record PoolStats := mkPoolStats {
  ps_WorkerNum : Z;
  ps_QueueCap : Z;
  ps_QueueLen : Z;
  ps_Started : bool;
  ps_Stopped : bool
}.

(** ** Operations *)

Section pool.
Context {T : Type} (zero : T).
Implicit Types (p : Pool T) (pc : poolPc T) (ts : list (poolPc T)) (ws : wkState T).

Definition NewPool (cfg : PoolConfig) : Pool T :=
  let num := if cfg_WorkerNum cfg <=? 0 then 1 else cfg_WorkerNum cfg in
  let cap := if cfg_QueueCap cfg <=? 0 then 1024 else cfg_QueueCap cfg in
  mkPool [] num cap false false false.

Definition Pool_Start p : Pool T :=
  if p_started p then p else
  mkPool (replicate (Z.to_nat (p_workerNum p)) (initial zero (p_queueCap p)))
    (p_workerNum p) (p_queueCap p) true false false.

Definition withWorkers p (ws : list (wkState T)) : Pool T :=
  mkPool ws (p_workerNum p) (p_queueCap p) (p_started p) (p_stopped p) (p_stopDone p).

Definition workerIndex (workerNum key : Z) : Z := Hash64 (u64! key) mod workerNum.

Definition pickWorker p (key : Z) : result poolError nat :=
  if negb (p_started p) || p_stopped p || (len (p_workers p) =? 0) || (p_workerNum p <=? 0)
  then Err ErrWorkerClosed else
  let idx := workerIndex (p_workerNum p) key in
  if len (p_workers p) <=? idx then Err ErrWorkerClosed else Ok (Z.to_nat idx).

(** A worker's own step, inside the pool. *)
Definition onWorker p (i : nat) (e : wkEvent T) : option (Pool T) :=
  ws ← p_workers p !! i; ws' ← wkExec zero ws e; Some (withWorkers p (<[i := ws']> (p_workers p))).

(** The number the next call of a worker gets. *)
Definition nextCall p (i : nat) : nat :=
  match p_workers p !! i with Some ws => length (st_pool ws) | None => 0%nat end.

Definition callOf p (i j : nat) : option (castPc T) := ws ← p_workers p !! i; st_pool ws !! j.

(** How a call of [TryCast] that stands at [c] continues in the dispatcher. *)
Definition dispatchEnds release key task i j (c : castPc T) : poolPc T :=
  match c with
  | KAccepted _ _ => PSent key task i j
  | KRejected _ => PFailed task ErrWorkerQueueFull release
  | _ => PCasting release key task i j
  end.

(** [expired] tells the waits whether the context was seen done. *)
Definition poolStep p pc (expired : bool) : option (Pool T * poolPc T * list (poolPc T)) :=
  match pc with
  | PStart => Some (Pool_Start p, PReturned None, [])
  | PDispatch release key task =>
      match pickWorker p key with
      | Err e => Some (p, PFailed task e release, [])
      | Ok i =>
          p' ← onWorker p i (EvCall (KLoadClosed task None));
          Some (p', PCasting release key task i (nextCall p i), [])
      end
  | PCasting release key task i j =>
      p' ← onWorker p i (EvCaller j);
      c ← callOf p' i j;
      Some (p', dispatchEnds release key task i j c, [])
  | PStop =>
      if negb (p_started p) then Some (p, PReturned None, [])
      else if p_stopped p then Some (p, PWait, [])
      else Some (mkPool (p_workers p) (p_workerNum p) (p_queueCap p) (p_started p) true false, PClose 0, [])
  | PClose i =>
      if decide (i < length (p_workers p))%nat then
        p' ← onWorker p i (EvCall KCloseStore); Some (p', PClosing i (nextCall p i), [])
      else Some (p, PWait, [PWaiter])
  | PClosing i j =>
      p' ← onWorker p i (EvCaller j);
      c ← callOf p' i j;
      Some (p', match c with KCloseDone => PClose (S i) | _ => PClosing i j end, [])
  | PWaiter =>
      if forallb (fun ws => match st_loop ws with WExit => true | _ => false end) (p_workers p)
      then Some (mkPool (p_workers p) (p_workerNum p) (p_queueCap p) (p_started p) (p_stopped p) true,
                 PReturned None, [])
      else None
  | PWait =>
      if expired then Some (p, PReturned (Some ErrContext), [])
      else if p_stopDone p then Some (p, PReturned None, []) else None
  | PSent _ _ _ _ | PFailed _ _ _ | PReturned _ => None
  end.

(** The lengths [Stats] adds up are those its workers answered. *)
Definition Pool_Stats p (lengths : list Z) : PoolStats :=
  mkPoolStats (p_workerNum p) (p_queueCap p) (foldr Z.add 0 lengths) (p_started p) (p_stopped p).

(** ** Runs *)

Inductive poolEvent : Type :=
| PoolCall (pc : poolPc T)
| PoolThread (n : nat) (expired : bool)
| PoolWorker (i : nat).

Definition poolStarts pc : bool :=
  match pc with PStart | PDispatch _ _ _ | PStop => true | _ => false end.

Definition poolExec (st : Pool T * list (poolPc T)) (e : poolEvent) : option (Pool T * list (poolPc T)) :=
  let '(p, ts) := st in
  match e with
  | PoolCall pc => if poolStarts pc then Some (p, ts ++ [pc]) else None
  | PoolThread n expired =>
      pc ← ts !! n;
      '(p', pc', new) ← poolStep p pc expired;
      Some (p', <[n := pc']> ts ++ new)
  | PoolWorker i => p' ← onWorker p i EvWorker; Some (p', ts)
  end.

Fixpoint poolRun (st : Pool T * list (poolPc T)) (es : list poolEvent) : option (Pool T * list (poolPc T)) :=
  match es with
  | [] => Some st
  | e :: es => st' ← poolExec st e; poolRun st' es
  end.

End pool.
Arguments poolEvent : clear implicits.

(** ** How a worker's calls evolve *)

Section calls.
Context {T : Type} (zero : T).
Implicit Types (ws : wkState T) (c : castPc T).

Definition carries c : option T :=
  match c with
  | KLoadClosed t _ | KLoadHead t _ | KLoadSeq t _ _ | KCas t _ _ | KRetry t _ | KWrite t _ | KPublish t _
  | KNotify t _ | KAccepted t _ | KRejected t | KDropped t => Some t
  | _ => None
  end.

Definition ticket c : option Z :=
  match c with KWrite _ h | KPublish _ h | KNotify _ h | KAccepted _ h => Some h | _ => None end.

(** Calls keep their task and their ticket; a ticket is as late as the worker's
    order was long when it was not yet held; the order grows at its end. *)
Record evolves ws ws' : Prop := {
  ev_keeps : forall j c, st_pool ws !! j = Some c ->
    exists c', st_pool ws' !! j = Some c' /\ carries c' = carries c
      /\ (forall n, ticket c = Some n -> ticket c' = Some n)
      /\ (forall t n, c = KAccepted t n -> c' = c);
  ev_later : forall j c' n, st_pool ws' !! j = Some c' -> ticket c' = Some n ->
    (exists c, st_pool ws !! j = Some c /\ ticket c = Some n) \/ len (w_order (st_worker ws)) <= n;
  ev_order : exists more, w_order (st_worker ws') = w_order (st_worker ws) ++ more
}.

#[export] Instance evolves_preorder : PreOrder evolves.
Proof.
  split.
  - intros ws. split; [by eauto 10|by eauto|]. exists []. by rewrite app_nil_r.
  - intros a b c [K1 L1 [m1 O1]] [K2 L2 [m2 O2]]. split.
    + intros j x Hx. destruct (K1 j x Hx) as (y & Hy & Cy & Ty & Ay).
      destruct (K2 j y Hy) as (z & Hz & Cz & Tz & Az). exists z. split; [done|]. split; [congruence|].
      split; [by eauto|]. intros t n ->. rewrite (Ay t n eq_refl) in Az. by eapply Az.
    + intros j z n Hz Tz. destruct (L2 j z n Hz Tz) as [(y & Hy & Ty)|Hn]; [by eapply L1|right].
      rewrite O1, len_app in Hn. pose proof (len_nonneg m1). lia.
    + exists (m1 ++ m2). by rewrite O2, O1, app_assoc.
Qed.

Lemma evolves_calls ws ws' : evolves ws ws' -> (length (st_pool ws) <= length (st_pool ws'))%nat.
Proof.
  intros [K _ _]. destruct (decide (length (st_pool ws) <= length (st_pool ws'))%nat); [done|].
  destruct (lookup_lt_is_Some_2 (st_pool ws) (length (st_pool ws'))) as [c Hc]; [lia|].
  destruct (K _ _ Hc) as (c' & Hc' & _). apply lookup_lt_Some in Hc'. lia.
Qed.

Lemma castStep_carries w c w' c' : castStep w c = Some (w', c') -> carries c' = carries c.
Proof.
  intros Hstep. destruct c as [task spin|task spin|task spin h|task spin h|task spin|task h|task h|task h|task h|task|task| | |];
    cbn in Hstep; try done; simplify_eq; try done.
  - by destruct (w_closed w'), spin.
  - destruct (slotAt _ _); [|done]. cbn in Hstep. simplify_eq. unfold pushDecide.
    destruct (_ =? 0); [done|]. destruct (_ <? 0); [|done]. by destruct spin.
  - destruct (_ =? _); by simplify_eq.
  - unfold castRetry in Hstep. repeat case_match; by simplify_eq.
Qed.

Lemma castStep_ticket w c w' c' :
  castStep w c = Some (w', c') ->
  ticket c' = ticket c \/ (ticket c = None /\ ticket c' = Some (q_head (w_queue w))).
Proof.
  intros Hstep. destruct c as [task spin|task spin|task spin h|task spin h|task spin|task h|task h|task h|task h|task|task| | |];
    cbn in Hstep; try done; simplify_eq; try (by left).
  - left. by destruct (w_closed w'), spin.
  - destruct (slotAt _ _); [|done]. cbn in Hstep. simplify_eq. left. unfold pushDecide.
    destruct (_ =? 0); [done|]. destruct (_ <? 0); [|done]. by destruct spin.
  - destruct (Z.eqb_spec (q_head (w_queue w)) h); simplify_eq; [by right|by left].
  - unfold castRetry in Hstep. repeat case_match; simplify_eq; by left.
Qed.

Lemma wkExec_evolves ws e ws' :
  q_head (w_queue (st_worker ws)) = len (w_order (st_worker ws)) ->
  wkExec zero ws e = Some ws' -> evolves ws ws'.
Proof.
  intros Ho He. destruct ws as [w wp pool], e as [c|j|]; cbn in He, Ho.
  - destruct (starts c) eqn:Hst; [|done]. simplify_eq. split; cbn.
    + intros j x Hx. exists x. split; [by apply lookup_app_l_Some|]. by eauto.
    + intros j x n [Hx|[_ Hx]]%lookup_app_Some Hn; [by eauto|].
      apply list_lookup_singleton_Some in Hx as [_ <-]. by destruct c.
    + exists []. by rewrite app_nil_r.
  - destruct (pool !! j) as [c|] eqn:Hj; [|done]. cbn in He.
    destruct (castStep w c) as [[w' c']|] eqn:Hstep; [|done]. cbn in He. simplify_eq.
    pose proof (castStep_carries _ _ _ _ Hstep) as Hca.
    pose proof (castStep_ticket _ _ _ _ Hstep) as Hti. split; cbn.
    + intros j' x Hx. destruct (decide (j' = j)) as [->|Hne].
      * rewrite Hj in Hx. simplify_eq. exists c'. rewrite list_lookup_insert_eq by eauto using lookup_lt_Some.
        split; [done|]. split; [done|]. split; [intros n Hn; destruct Hti as [|[]]; congruence|].
        by intros t n ->.
      * exists x. rewrite list_lookup_insert_ne by done. by eauto.
    + intros j' x n Hx Hn. apply list_lookup_insert_Some in Hx as [(-> & <- & _)|[_ Hx]]; [|by eauto].
      destruct Hti as [E|[_ E]]; rewrite E in Hn; [by eauto|]. simplify_eq. right. lia.
    + destruct (castStep_reserved _ _ _ _ Hstep) as [[-> _]|(task & -> & _)]; [exists []; by rewrite app_nil_r|by eexists].
  - destruct (loopStep zero w wp) as [[w' wp']|] eqn:Hstep; [|done]. cbn in He. simplify_eq.
    destruct (loopStep_head zero _ _ _ _ Hstep) as (_ & Hor & _). split; cbn; [by eauto 10|by eauto|].
    exists []. by rewrite Hor, app_nil_r.
Qed.

End calls.

(** ** The pool's invariant *)

Section invariant.
Context {T : Type} (zero : T) (cfg : PoolConfig).
Hypothesis Hcap : cfg_QueueCap cfg <= 2 ^ 62.
Implicit Types (p : Pool T) (pc : poolPc T) (ts : list (poolPc T)) (ws : wkState T).

#[local] Abbreviation num := (p_workerNum (@NewPool T cfg)).
#[local] Abbreviation cap := (p_queueCap (@NewPool T cfg)).

Lemma cap_bound : cap <= 2 ^ 62.
Proof using Hcap. unfold NewPool. cbn. destruct (_ <=? _); lia. Qed.

Lemma num_pos : 0 < num.
Proof using Type. unfold NewPool. cbn. destruct (Z.leb_spec (cfg_WorkerNum cfg) 0); lia. Qed.

(** A worker as some run of at most [b] steps leaves it. *)
Definition reached (b : Z) ws : Prop := exists es, len es <= b /\ wkRun zero (initial zero cap) es = Some ws.

Definition call_ok p pc : Prop :=
  match pc with
  | PCasting _ key task i j =>
      i = Z.to_nat (workerIndex num key) /\ exists c, callOf p i j = Some c /\ carries c = Some task
  | PSent key task i j =>
      i = Z.to_nat (workerIndex num key) /\ exists n, callOf p i j = Some (KAccepted task n)
  | _ => True
  end.

Record pool_ok (b : Z) p ts : Prop := {
  po_config : p_workerNum p = num /\ p_queueCap p = cap;
  po_started : if p_started p then len (p_workers p) = num else p_workers p = [];
  po_reached : forall i ws, p_workers p !! i = Some ws -> reached b ws;
  po_calls : forall n pc, ts !! n = Some pc -> call_ok p pc;
  po_done : p_stopDone p = true -> forall i ws, p_workers p !! i = Some ws -> st_loop ws = WExit
}.

(** What a goroutine of the pool is about: the key and the task. *)
Definition about pc : option (Z * T) :=
  match pc with
  | PDispatch _ key task | PCasting _ key task _ _ | PSent key task _ _ => Some (key, task)
  | _ => None
  end.

Definition callRef pc : option (nat * nat) :=
  match pc with PCasting _ _ _ i j | PSent _ _ i j => Some (i, j) | _ => None end.

(** [pc'] continues [pc], which stood there when the pool was [p]. *)
Definition follows p pc pc' : Prop :=
  (forall x, about pc' = Some x -> about pc = Some x)
  /\ (forall key task i j, pc = PSent key task i j -> pc' = pc)
  /\ (forall i j, callRef pc' = Some (i, j) ->
        callRef pc = Some (i, j) \/ forall ws, p_workers p !! i = Some ws -> (length (st_pool ws) <= j)%nat).

Definition workers_evolve p p' : Prop :=
  forall i ws, p_workers p !! i = Some ws -> exists ws', p_workers p' !! i = Some ws' /\ evolves ws ws'.

Definition pool_evolves (st st' : Pool T * list (poolPc T)) : Prop :=
  workers_evolve st.1 st'.1
  /\ forall n pc, st.2 !! n = Some pc -> exists pc', st'.2 !! n = Some pc' /\ follows st.1 pc pc'.

Lemma workers_evolve_refl p : workers_evolve p p.
Proof using Type. intros i ws Hi. exists ws. by split. Qed.

Lemma follows_refl p pc : follows p pc pc.
Proof using Type. split; [done|]. split; [done|]. by left. Qed.

Lemma pool_evolves_trans a b c : pool_evolves a b -> pool_evolves b c -> pool_evolves a c.
Proof using Type.
  intros [W1 F1] [W2 F2]. split.
  - intros i ws Hi. destruct (W1 i ws Hi) as (ws1 & H1 & E1). destruct (W2 i ws1 H1) as (ws2 & H2 & E2).
    exists ws2. split; [done|]. by etrans.
  - intros n pc Hn. destruct (F1 n pc Hn) as (pc1 & H1 & A1 & S1 & C1).
    destruct (F2 n pc1 H1) as (pc2 & H2 & A2 & S2 & C2). exists pc2. split; [done|].
    split; [by auto|]. split.
    + intros key task i j ->. rewrite (S1 _ _ _ _ eq_refl) in S2. by eapply S2.
    + intros i j Hc. destruct (C2 i j Hc) as [Hc1|Hnew]; [by apply C1|right].
      intros ws Hi. destruct (W1 i ws Hi) as (ws1 & Hi1 & E1). pose proof (evolves_calls _ _ E1).
      specialize (Hnew ws1 Hi1). lia.
Qed.

Lemma reached_st_ok b ws :
  b < 2 ^ 62 -> reached b ws -> exists k, 4 <= k <= 62 /\ st_ok k ws.
Proof using Hcap.
  intros Hb (es & He & Hrun). destruct (reachable_ok zero cap es ws cap_bound ltac:(lia) Hrun) as (k & Hk & Hok & _).
  by exists k.
Qed.

Lemma reached_order b ws :
  b < 2 ^ 62 -> reached b ws -> q_head (w_queue (st_worker ws)) = len (w_order (st_worker ws)).
Proof using Hcap. intros Hb Hr. destruct (reached_st_ok b ws Hb Hr) as (k & _ & Hok). apply Hok. Qed.

Lemma reached_step b ws e ws' : reached b ws -> wkExec zero ws e = Some ws' -> reached (b + 1) ws'.
Proof using Type.
  intros (es & He & Hrun) Hx. exists (es ++ [e]). split; [rewrite len_app, len_cons, len_nil; lia|].
  rewrite wkRun_app, Hrun. cbn. by rewrite Hx.
Qed.

Lemma reached_mono b b' ws : reached b ws -> b <= b' -> reached b' ws.
Proof using Type. intros (es & He & Hrun) Hb. exists es. split; [lia|done]. Qed.

(** One step of one worker. *)
Lemma onWorker_ok b p ts i e p' :
  pool_ok b p ts -> b < 2 ^ 62 -> onWorker zero p i e = Some p' ->
  pool_ok (b + 1) p' ts /\ workers_evolve p p'
  /\ (exists ws ws', p_workers p !! i = Some ws /\ wkExec zero ws e = Some ws'
        /\ p' = withWorkers p (<[i := ws']> (p_workers p))).
Proof using Hcap.
  intros [Hcf Hst Hre Hca Hdo] Hb Hon. unfold onWorker in Hon.
  destruct (p_workers p !! i) as [ws|] eqn:Hi; [|done]. cbn in Hon.
  destruct (wkExec zero ws e) as [ws'|] eqn:Hx; [|done]. cbn in Hon. simplify_eq.
  pose proof (wkExec_evolves zero ws e ws' (reached_order b ws Hb (Hre _ _ Hi)) Hx) as Hev.
  assert (Hlt : (i < length (p_workers p))%nat) by eauto using lookup_lt_Some.
  assert (Hw : workers_evolve p (withWorkers p (<[i := ws']> (p_workers p)))).
  { intros n x Hn. cbn. destruct (decide (n = i)) as [->|Hne].
    - rewrite Hi in Hn. simplify_eq. exists ws'. by rewrite list_lookup_insert_eq.
    - exists x. by rewrite list_lookup_insert_ne. }
  split; [|split; [done|by exists ws, ws']]. split; cbn.
  - done.
  - rewrite len_insert. destruct (p_started p); [done|]. by rewrite Hst in Hi.
  - intros n x Hn. apply list_lookup_insert_Some in Hn as [(-> & <- & _)|[_ Hn]].
    + eapply reached_step; [by eapply Hre|done].
    + eapply reached_mono; [by eauto|lia].
  - intros n pc Hn. specialize (Hca n pc Hn).
    assert (Hcall : forall a j c, callOf p a j = Some c ->
      exists c', callOf (withWorkers p (<[i := ws']> (p_workers p))) a j = Some c' /\ carries c' = carries c
        /\ (forall t m, c = KAccepted t m -> c' = c)).
    { intros a j c Hc. unfold callOf in *. destruct (p_workers p !! a) as [x|] eqn:Ha; [|done]. cbn in Hc.
      destruct (Hw a x Ha) as (x' & Hx' & Hev'). rewrite Hx'. cbn.
      destruct (ev_keeps _ _ Hev' j c Hc) as (c' & ? & ? & _ & ?). by exists c'. }
    destruct pc; cbn in *; try done.
    + destruct Hca as [-> (c & Hc & Hcar)]. split; [done|]. destruct (Hcall _ _ _ Hc) as (c' & ? & ? & _).
      exists c'. split; [done|congruence].
    + destruct Hca as [-> (m & Hc)]. split; [done|]. destruct (Hcall _ _ _ Hc) as (c' & ? & ? & He').
      exists m. by rewrite (He' _ _ eq_refl) in *.
  - intros Hd n x Hn. apply list_lookup_insert_Some in Hn as [(-> & <- & _)|[_ Hn]]; [|by eapply Hdo].
    apply (exited_forever zero [e] ws ws'); [by eapply Hdo|]. cbn. by rewrite Hx.
Qed.

Lemma pool_ok_mono b b' p ts : pool_ok b p ts -> b <= b' -> pool_ok b' p ts.
Proof using Type. intros [? ? Hre ? ?] Hb. split; try done. intros i ws Hi. eapply reached_mono; [by eauto|done]. Qed.

Lemma pickWorker_index p key i :
  p_workerNum p = num -> pickWorker p key = Ok i ->
  p_started p = true /\ p_stopped p = false /\ i = Z.to_nat (workerIndex num key).
Proof using Type.
  intros Hn Hp. unfold pickWorker in Hp. rewrite Hn in Hp.
  destruct (p_started p), (p_stopped p); cbn in Hp; try done.
  destruct (_ || _); [done|]. destruct (_ <=? _); [done|]. by simplify_eq.
Qed.

(** A thread that moves on while the workers evolve. *)
Lemma pool_thread b p ts p' n pc pc' new :
  pool_ok b p' ts -> workers_evolve p p' -> ts !! n = Some pc ->
  call_ok p' pc' -> follows p pc pc' -> (forall x, x ∈ new -> about x = None /\ callRef x = None) ->
  pool_ok b p' (<[n := pc']> ts ++ new) /\ pool_evolves (p, ts) (p', <[n := pc']> ts ++ new).
Proof using Type.
  intros [Hcf Hst Hre Hca Hdo] Hw Hn Hok Hfo Hnew. split.
  - split; try done. intros m x [Hm|[_ Hm]]%lookup_app_Some.
    + apply list_lookup_insert_Some in Hm as [(-> & <- & _)|[_ Hm]]; [done|by eauto].
    + apply list_elem_of_lookup_2 in Hm. destruct (Hnew x Hm). by destruct x.
  - split; [done|]. cbn. intros m x Hm. destruct (decide (m = n)) as [->|Hne].
    + rewrite Hn in Hm. simplify_eq. exists pc'. split; [|done]. apply lookup_app_l_Some.
      apply list_lookup_insert_eq. by eapply lookup_lt_Some.
    + exists x. split; [|apply follows_refl]. apply lookup_app_l_Some. by rewrite list_lookup_insert_ne.
Qed.

Lemma nextCall_last p i ws c ws' :
  p_workers p !! i = Some ws -> wkExec zero ws (EvCall c) = Some ws' ->
  callOf (withWorkers p (<[i := ws']> (p_workers p))) i (nextCall p i) = Some c
  /\ forall x, p_workers p !! i = Some x -> (length (st_pool x) <= nextCall p i)%nat.
Proof using Type.
  intros Hi Hx. unfold nextCall, callOf. cbn. rewrite list_lookup_insert_eq by eauto using lookup_lt_Some.
  rewrite Hi. cbn in Hx. destruct (starts c); [|done]. simplify_eq. cbn. split; [|by intros ? [= <-]].
  by rewrite lookup_app_r, Nat.sub_diag by done.
Qed.

(** A change of the pool's flags. *)
Lemma pool_flags b p p' ts :
  pool_ok b p ts -> p_workers p' = p_workers p -> p_workerNum p' = p_workerNum p ->
  p_queueCap p' = p_queueCap p -> p_started p' = p_started p ->
  (p_stopDone p' = true -> forall i ws, p_workers p !! i = Some ws -> st_loop ws = WExit) ->
  pool_ok b p' ts /\ workers_evolve p p'.
Proof using Type.
  intros [Hcf Hst Hre Hca _] Hw Hn Hq Hs Hdo. split.
  - split; rewrite ?Hw, ?Hn, ?Hq, ?Hs; try done.
    intros n pc Hpc. specialize (Hca n pc Hpc). unfold call_ok, callOf in *. by rewrite Hw.
  - intros i ws Hi. rewrite Hw. by exists ws.
Qed.

Lemma pool_start b p ts :
  pool_ok b p ts -> 0 <= b -> pool_ok b (Pool_Start zero p) ts /\ workers_evolve p (Pool_Start zero p).
Proof using Type.
  intros Hok Hb. unfold Pool_Start. destruct (p_started p) eqn:Hs; [split; [done|apply workers_evolve_refl]|].
  destruct Hok as [[Hn Hq] Hst Hre Hca _]. rewrite Hs in Hst. pose proof num_pos. rewrite Hn, Hq. split.
  - split; cbn [p_workers p_workerNum p_queueCap p_started]; try done.
    + unfold len. rewrite length_replicate. lia.
    + intros i ws Hi. apply lookup_replicate in Hi as [-> _]. exists []. by rewrite len_nil.
    + intros n pc Hpc. specialize (Hca n pc Hpc). unfold call_ok, callOf in *. rewrite Hst in Hca.
      destruct pc; try done; by destruct Hca as [_ (? & ? & _)] || by destruct Hca as [_ (? & ?)].
  - intros i ws Hi. by rewrite Hst in Hi.
Qed.

Ltac close_thread := eapply pool_thread; [eassumption|eassumption|eassumption|..].

Lemma poolStep_ok b p ts n pc expired p' pc' new :
  pool_ok b p ts -> 0 <= b < 2 ^ 62 -> ts !! n = Some pc -> poolStep zero p pc expired = Some (p', pc', new) ->
  pool_ok (b + 1) p' (<[n := pc']> ts ++ new) /\ pool_evolves (p, ts) (p', <[n := pc']> ts ++ new).
Proof using Hcap.
  intros Hok Hb Hn Hstep. pose proof (po_calls _ _ _ Hok _ _ Hn) as Hc.
  pose proof (pool_ok_mono _ (b + 1) _ _ Hok ltac:(lia)) as Hok'. pose proof (workers_evolve_refl p) as Hrefl.
  assert (Hnil : forall x : poolPc T, x ∈ [] -> about x = None /\ callRef x = None)
    by (intros x Hx; by apply not_elem_of_nil in Hx).
  assert (Hend : forall y : poolPc T, about y = None -> callRef y = None -> about pc = None -> follows p pc y).
  { intros y Hy Hy' Hp. split; [congruence|]. split; [by intros ???? ->|congruence]. }
  destruct pc as [|rel key task|rel key task i j|key task i j|task err rel| |i|i j| | |err]; cbn in Hstep; try done.
  - simplify_eq. destruct (pool_start (b + 1) p ts Hok' ltac:(lia)) as [H1 H2]. close_thread; [done|by apply Hend|done].
  - destruct (pickWorker p key) as [i|e] eqn:Hpick.
    + destruct (onWorker zero p i (EvCall (KLoadClosed task None))) as [q|] eqn:Hon; [|done]. cbn in Hstep. simplify_eq.
      destruct (onWorker_ok b p ts i _ p' Hok ltac:(lia) Hon) as (H1 & H2 & (ws & ws' & Hi & Hx & ->)).
      destruct (pickWorker_index p key i (proj1 (po_config _ _ _ Hok)) Hpick) as (_ & _ & Hidx).
      destruct (nextCall_last p i ws _ ws' Hi Hx) as [Hcall Hlast]. close_thread.
      * split; [done|]. by eexists.
      * split; [by intros ??|]. split; [done|]. intros a j [= <- <-]. by right.
      * done.
    + simplify_eq. close_thread; [done| |done]. split; [done|]. by split.
  - destruct (onWorker zero p i (EvCaller j)) as [q|] eqn:Hon; [|done]. cbn in Hstep.
    destruct (callOf q i j) as [c|] eqn:Hcj; [|done]. cbn in Hstep. simplify_eq.
    destruct (onWorker_ok b p ts i _ p' Hok ltac:(lia) Hon) as (H1 & H2 & _).
    pose proof (po_calls _ _ _ H1 _ _ Hn) as (Hi & c' & Hc' & Hcar). rewrite Hcj in Hc'. simplify_eq.
    close_thread; [| |done].
    + destruct c'; cbn in Hcar |- *; (split; [done|]) || done; by eauto || (simplify_eq; by eauto).
    + split; [by destruct c'|]. split; [done|]. intros a a' E. left. by destruct c'.
  - destruct (p_started p) eqn:Hs; cbn in Hstep; [|simplify_eq; close_thread; [done|by apply Hend|done]].
    destruct (p_stopped p); simplify_eq; [close_thread; [done|by apply Hend|done]|].
    destruct (pool_flags (b + 1) p (mkPool (p_workers p) (p_workerNum p) (p_queueCap p) true true false) ts) as [H1 H2];
      [done..|]. close_thread; [done|by apply Hend|done].
  - case_decide.
    + destruct (onWorker zero p i (EvCall KCloseStore)) as [q|] eqn:Hon; [|done]. cbn in Hstep. simplify_eq.
      destruct (onWorker_ok b p ts i _ p' Hok ltac:(lia) Hon) as (H1 & H2 & _). close_thread; [done|by apply Hend|done].
    + simplify_eq. close_thread; [done|by apply Hend|]. intros x ->%list_elem_of_singleton. done.
  - destruct (onWorker zero p i (EvCaller j)) as [q|] eqn:Hon; [|done]. cbn in Hstep.
    destruct (callOf q i j) as [c|] eqn:Hcj; [|done]. cbn in Hstep. simplify_eq.
    destruct (onWorker_ok b p ts i _ p' Hok ltac:(lia) Hon) as (H1 & H2 & _).
    close_thread; [by destruct c|by apply Hend; destruct c|done].
  - destruct expired; [simplify_eq; close_thread; [done|by apply Hend|done]|].
    destruct (p_stopDone p); [|done]. simplify_eq. close_thread; [done|by apply Hend|done].
  - destruct (forallb _ _) eqn:Hall; [|done]. simplify_eq.
    destruct (pool_flags (b + 1) p (mkPool (p_workers p) (p_workerNum p) (p_queueCap p) (p_started p) (p_stopped p) true) ts)
      as [H1 H2]; [done..| |close_thread; [done|by apply Hend|done]].
    intros _ i ws Hi. rewrite forallb_forall in Hall.
    specialize (Hall ws (proj1 (list_elem_of_In _ _) (list_elem_of_lookup_2 _ _ _ Hi))). by destruct (st_loop ws).
Qed.

Lemma poolExec_ok b p ts e p' ts' :
  pool_ok b p ts -> 0 <= b < 2 ^ 62 -> poolExec zero (p, ts) e = Some (p', ts') ->
  pool_ok (b + 1) p' ts' /\ pool_evolves (p, ts) (p', ts').
Proof using Hcap.
  intros Hok Hb He. pose proof (pool_ok_mono _ (b + 1) _ _ Hok ltac:(lia)) as Hok'.
  destruct e as [pc|n expired|i]; cbn in He.
  - destruct (poolStarts pc) eqn:Hst; [|done]. simplify_eq. split.
    + destruct Hok' as [? ? ? Hca ?]. split; try done. intros n x [Hn|[_ Hn]]%lookup_app_Some; [by eauto|].
      apply list_lookup_singleton_Some in Hn as [_ <-]. by destruct pc.
    + split; [apply workers_evolve_refl|]. cbn. intros n x Hn. exists x.
      split; [by apply lookup_app_l_Some|apply follows_refl].
  - destruct (ts !! n) as [pc|] eqn:Hn; [|done]. cbn in He.
    destruct (poolStep zero p pc expired) as [[[q pc'] new]|] eqn:Hstep; [|done]. cbn in He. simplify_eq.
    by eapply poolStep_ok.
  - destruct (onWorker zero p i EvWorker) as [q|] eqn:Hon; [|done]. cbn in He. simplify_eq.
    destruct (onWorker_ok b p ts' i _ p' Hok ltac:(lia) Hon) as (H1 & H2 & _). split; [done|].
    split; [done|]. cbn. intros n x Hn. exists x. split; [done|apply follows_refl].
Qed.

Lemma poolRun_ok es b p ts p' ts' :
  pool_ok b p ts -> 0 <= b -> b + len es < 2 ^ 62 -> poolRun zero (p, ts) es = Some (p', ts') ->
  pool_ok (b + len es) p' ts' /\ pool_evolves (p, ts) (p', ts').
Proof using Hcap.
  revert b p ts. induction es as [|e es IH]; intros b p ts Hok Hb Hlen Hrun; cbn [poolRun] in Hrun.
  - simplify_eq. rewrite len_nil, Z.add_0_r. split; [done|]. split; [apply workers_evolve_refl|].
    intros n pc Hn. exists pc. split; [done|apply follows_refl].
  - destruct (poolExec zero (p, ts) e) as [[p1 ts1]|] eqn:He; [|done]. cbn in Hrun.
    rewrite len_cons in Hlen |- *. pose proof (len_nonneg es).
    destruct (poolExec_ok b p ts e p1 ts1 Hok ltac:(lia) He) as [Hok1 Hev1].
    destruct (IH (b + 1) p1 ts1 Hok1 ltac:(lia) ltac:(lia) Hrun) as [Hok2 Hev2].
    split; [by replace (b + (1 + len es)) with (b + 1 + len es) by lia|]. by eapply pool_evolves_trans.
Qed.

Lemma NewPool_ok : pool_ok 0 (NewPool cfg) [].
Proof using Type. split; try done; intros i x Hi; by rewrite lookup_nil in Hi. Qed.

(** What a sent task's call looks like in its worker. *)
Lemma sent_place b p ts n key task i j :
  pool_ok b p ts -> b < 2 ^ 62 -> ts !! n = Some (PSent key task i j) ->
  i = Z.to_nat (workerIndex num key)
  /\ exists ws m k, p_workers p !! i = Some ws /\ st_pool ws !! j = Some (KAccepted task m)
       /\ 0 <= m < len (w_order (st_worker ws)) /\ w_order (st_worker ws) !! Z.to_nat m = Some task
       /\ st_ok k ws.
Proof using Hcap.
  intros Hok Hb Hn. destruct (po_calls _ _ _ Hok _ _ Hn) as [-> (m & Hc)]. split; [done|].
  unfold callOf in Hc. destruct (p_workers p !! _) as [ws|] eqn:Hi; [|done]. cbn in Hc.
  destruct (reached_st_ok b ws Hb (po_reached _ _ _ Hok _ _ Hi)) as (k & Hk & Hst).
  exists ws, m, k. split; [done|]. split; [done|].
  pose proof (ro_callers _ _ _ _ (wk_ring _ _ _ _ Hst) _ _ Hc) as [Hr Ht].
  rewrite (ro_order _ _ _ _ (wk_ring _ _ _ _ Hst)) in Hr. done.
Qed.

End invariant.

(** C18. Tasks of one key run one after another, in the order they were
    dispatched.  If the dispatch of a task had returned while the dispatch of
    another task with the same key had not begun, and the second is accepted
    too, then both went to the same worker, the first stands before the second
    in the order of that worker, and the worker handles its tasks in that
    order; this holds through any interleaving of dispatches, of the workers,
    and of starting and stopping the pool. *)
Theorem Pool_same_key_in_order {T : Type} (zero : T) cfg es es' p ts p' ts' a b key A B i j i' j' release key' B' :
  cfg_QueueCap cfg <= 2 ^ 62 -> len es + len es' < 2 ^ 62 ->
  poolRun zero (NewPool cfg, []) es = Some (p, ts) -> poolRun zero (p, ts) es' = Some (p', ts') ->
  ts !! a = Some (PSent key A i j) -> ts !! b = Some (PDispatch release key B) ->
  ts' !! b = Some (PSent key' B' i' j') ->
  i' = i /\ key' = key /\ B' = B
  /\ exists ws m n waiting, p_workers p' !! i = Some ws
       /\ w_order (st_worker ws) !! Z.to_nat m = Some A /\ w_order (st_worker ws) !! Z.to_nat n = Some B
       /\ 0 <= m < n /\ w_order (st_worker ws) = w_handled (st_worker ws) ++ waiting.
Proof.
  intros Hcap Hlen Hrun Hrun' Ha Hb Hb'. pose proof (len_nonneg es). pose proof (len_nonneg es').
  destruct (poolRun_ok zero cfg Hcap es 0 _ _ p ts (NewPool_ok zero cfg) ltac:(lia) ltac:(lia) Hrun) as [Hok _].
  destruct (poolRun_ok zero cfg Hcap es' _ p ts p' ts' Hok ltac:(lia) ltac:(lia) Hrun') as [Hok' [Hw Hf]].
  destruct (Hf a _ Ha) as (x & Hx & _ & Hsame & _). rewrite (Hsame _ _ _ _ eq_refl) in Hx. clear Hsame x.
  destruct (Hf b _ Hb) as (y & Hy & Hab & _ & Href). cbn in Hy. rewrite Hb' in Hy. simplify_eq.
  specialize (Hab _ eq_refl) as [= <- <-].
  destruct (sent_place zero cfg Hcap _ p ts a key A i j Hok ltac:(lia) Ha) as (Hi & ws & m & k & Hws & Hj & Hm & _).
  destruct (sent_place zero cfg Hcap _ p' ts' b key B i' j' Hok' ltac:(lia) Hb')
    as (Hi' & ws' & n & k' & Hws' & Hj' & Hn & HB & Hst').
  assert (Ei : i' = i) by congruence. clear Hi Hi'. subst i'. split; [done|]. split; [done|]. split; [done|].
  destruct (Hw i ws Hws) as (ws2 & Hws2 & Hev). cbn in Hws2. rewrite Hws' in Hws2. simplify_eq.
  destruct (ev_keeps _ _ Hev j _ Hj) as (c & Hcj & _ & _ & Hacc). rewrite (Hacc _ _ eq_refl) in Hcj.
  pose proof (ro_callers _ _ _ _ (wk_ring _ _ _ _ Hst') _ _ Hcj) as [_ HA].
  exists ws2, m, n, (drop (Z.to_nat (finished (st_worker ws2) (st_loop ws2))) (w_order (st_worker ws2))).
  split; [done|]. split; [done|]. split; [done|]. split.
  - destruct (Href i j' eq_refl) as [|Hnew]; [done|]. specialize (Hnew ws Hws).
    destruct (ev_later _ _ Hev j' _ n Hj' eq_refl) as [(c' & Hc' & _)|Hle]; [|lia].
    apply lookup_lt_Some in Hc'. lia.
  - rewrite (wk_handled _ _ _ _ Hst') at 1. by rewrite take_drop.
Qed.

(** [Stop] answers without an error only once every worker has exited. *)
Theorem Pool_Stop_waits {T : Type} (zero : T) cfg es p ts p' n new :
  cfg_QueueCap cfg <= 2 ^ 62 -> len es < 2 ^ 62 -> poolRun zero (NewPool cfg, []) es = Some (p, ts) ->
  ts !! n = Some PWait -> poolStep zero p PWait false = Some (p', PReturned None, new) ->
  forall i ws, p_workers p !! i = Some ws -> st_loop ws = WExit.
Proof.
  intros Hcap Hlen Hrun Hn Hstep.
  destruct (poolRun_ok zero cfg Hcap es 0 _ _ p ts (NewPool_ok zero cfg) ltac:(lia) ltac:(lia) Hrun) as [Hok _].
  apply (po_done _ _ _ _ _ Hok). cbn in Hstep. by destruct (p_stopDone p).
Qed.

(** ** Examples *)

(** Two workers; a task of key 5 is dispatched, then another one of the same key. *)
Definition firstDispatch : list (poolEvent Z) :=
  [PoolCall PStart; PoolThread 0 false; PoolCall (PDispatch true 5 70)] ++ replicate 8 (PoolThread 1 false)
  ++ [PoolCall (PDispatch false 5 80)].
Definition secondDispatch : list (poolEvent Z) := replicate 8 (PoolThread 2 false) ++ replicate 7 (PoolWorker 0).

Definition sampleConfig : PoolConfig := mkPoolConfig 2 0.
Definition afterFirst := default (NewPool sampleConfig, []) (poolRun 0 (NewPool sampleConfig, []) firstDispatch).
Definition afterSecond := default (NewPool sampleConfig, []) (poolRun 0 afterFirst secondDispatch).

Lemma afterFirst_runs : poolRun 0 (NewPool sampleConfig, []) firstDispatch = Some (afterFirst.1, afterFirst.2).
Proof. vm_compute. reflexivity. Qed.

Lemma afterSecond_runs :
  poolRun 0 (afterFirst.1, afterFirst.2) secondDispatch = Some (afterSecond.1, afterSecond.2).
Proof. vm_compute. reflexivity. Qed.

Lemma afterFirst_sent :
  afterFirst.2 !! 1%nat = Some (PSent 5 70 0 0) /\ afterFirst.2 !! 2%nat = Some (PDispatch false 5 80)
  /\ afterSecond.2 !! 2%nat = Some (PSent 5 80 0 1).
Proof. vm_compute. repeat split; reflexivity. Qed.

Lemma Pool_same_key_in_order_witness :
  exists ws m n, p_workers afterSecond.1 !! 0%nat = Some ws
    /\ w_order (st_worker ws) !! Z.to_nat m = Some 70 /\ w_order (st_worker ws) !! Z.to_nat n = Some 80 /\ 0 <= m < n.
Proof.
  destruct (Pool_same_key_in_order 0 sampleConfig firstDispatch secondDispatch
    _ _ _ _ 1 2 5 70 80 0 0 0 1 false 5 80 ltac:(by_evaluation) ltac:(by_evaluation)
    afterFirst_runs afterSecond_runs (proj1 afterFirst_sent) (proj1 (proj2 afterFirst_sent))
    (proj2 (proj2 afterFirst_sent))) as (_ & _ & _ & ws & m & n & w & H1 & H2 & H3 & H4 & _).
  exists ws, m, n. exact (conj H1 (conj H2 (conj H3 H4))).
Defined.
