(* ===== verification/Splice.v ===== *)
(** * Splitting a broadcast

    Models the last part of [src/nest/dispatcher.go]: [ForEachSpliceBatch] and
    the buckets it fills.  The entities of a broadcast are split into batches of
    at most 32 that share their entity group and their worker; groups below 8
    have a place of their own, the others are found through an index. *)

From stdpp Require Import base list gmap.
From Stdlib Require Import ZArith Lia.
From S2P Require Import Prelude EntityId LockOrder WorkerPool.

#[local] Open Scope Z_scope.

Definition MaxBroadcastIdNum : Z := 32.
Definition spliceDenseGroupLimit : Z := 8.

(** The batches being filled for one group, one per worker: the identifiers and
    their positions in the broadcast. *)
Record groupSlots := mkSlots {
  gs_slots : list (list Z);
  gs_idxSlots : list (list Z)
}.

(** Dense groups start without slots. *)
Record spliceGroupBuckets := mkBuckets {
  sb_dense : list (option groupSlots);
  sb_sparse : list (Z * groupSlots);
  sb_sparseIndex : gmap Z nat
}.

(** The two kinds of place a group's slots are at. *)
Inductive slotsRef := DenseRef (group : nat) | SparseRef (idx : nat).

Record spliceBatch := mkBatch {
  bt_group : Z;
  bt_ids : list Z;
  bt_origIndices : list Z
}.

Definition hashKey (key : Z) : Z := Hash64 (u64! key).

Section Splice.
Context (reg : Registry) (groupFunc : option (Z -> Z)) (workerNum : Z).

Definition emptySlots : groupSlots :=
  mkSlots (replicate (Z.to_nat workerNum) []) (replicate (Z.to_nat workerNum) []).

Definition emptyBuckets : spliceGroupBuckets :=
  mkBuckets (replicate (Z.to_nat spliceDenseGroupLimit) None) [] ∅.

Definition isDense (group : Z) : bool := (0 <=? group) && (group <? spliceDenseGroupLimit).

Definition getGroupSlots (b : spliceGroupBuckets) (group : Z) : spliceGroupBuckets * slotsRef :=
  if isDense group then
    let g := Z.to_nat group in
    match sb_dense b !! g with
    | Some (Some _) => (b, DenseRef g)
    | _ => (mkBuckets (<[g := Some emptySlots]> (sb_dense b)) (sb_sparse b) (sb_sparseIndex b), DenseRef g)
    end
  else
    match sb_sparseIndex b !! group with
    | Some idx => (b, SparseRef idx)
    | None =>
        let idx := length (sb_sparse b) in
        (mkBuckets (sb_dense b) (sb_sparse b ++ [(group, emptySlots)]) (<[group := idx]> (sb_sparseIndex b)),
         SparseRef idx)
    end.

Definition derefSlots (b : spliceGroupBuckets) (r : slotsRef) : groupSlots :=
  match r with
  | DenseRef g => default emptySlots (default None (sb_dense b !! g))
  | SparseRef idx => match sb_sparse b !! idx with Some (_, s) => s | None => emptySlots end
  end.

Definition storeSlots (b : spliceGroupBuckets) (r : slotsRef) (s : groupSlots) : spliceGroupBuckets :=
  match r with
  | DenseRef g => mkBuckets (<[g := Some s]> (sb_dense b)) (sb_sparse b) (sb_sparseIndex b)
  | SparseRef idx => mkBuckets (sb_dense b) (alter (fun x => (x.1, s)) idx (sb_sparse b)) (sb_sparseIndex b)
  end.

Definition spliceSlot (id : Z) : nat := Z.to_nat (hashKey id mod workerNum).

(** One turn of the loop over the identifiers. *)
Definition spliceTurn (st : spliceGroupBuckets * list spliceBatch) (x : Z * Z)
    : spliceGroupBuckets * list spliceBatch :=
  let '(b, out) := st in
  let '(origIdx, id) := x in
  let group := GetEntityGroup reg groupFunc id in
  let '(b, r) := getGroupSlots b group in
  let s := derefSlots b r in
  let slot := spliceSlot id in
  let batch := default [] (gs_slots s !! slot) ++ [id] in
  let idxBatch := default [] (gs_idxSlots s !! slot) ++ [origIdx] in
  if len batch =? MaxBroadcastIdNum then
    (storeSlots b r (mkSlots (<[slot := []]> (gs_slots s)) (<[slot := []]> (gs_idxSlots s))),
     out ++ [mkBatch group batch idxBatch])
  else
    (storeSlots b r (mkSlots (<[slot := batch]> (gs_slots s)) (<[slot := idxBatch]> (gs_idxSlots s))), out).

Definition flushGroupSlots (group : Z) (s : groupSlots) : list spliceBatch :=
  omap (fun x : list Z * list Z => if len x.1 =? 0 then None else Some (mkBatch group x.1 x.2))
    (zip (gs_slots s) (gs_idxSlots s)).

Definition flushDense (b : spliceGroupBuckets) (group : nat) : list spliceBatch :=
  match sb_dense b !! group with
  | Some (Some s) => flushGroupSlots (Z.of_nat group) s
  | _ => []
  end.

Definition enumerate (ids : list Z) : list (Z * Z) := zip (Z.of_nat <$> seq 0 (length ids)) ids.

(** The calls of [emit], in their order. *)
Definition ForEachSpliceBatch (ids : list Z) : list spliceBatch :=
  let '(b, out) := foldl spliceTurn (emptyBuckets, []) (enumerate ids) in
  out ++ (seq 0 (Z.to_nat spliceDenseGroupLimit) ≫= flushDense b)
      ++ (sb_sparse b ≫= fun x => flushGroupSlots x.1 x.2).

(** ** What is in the buckets *)

Definition slotContent (s : groupSlots) (slot : nat) : list (Z * Z) :=
  zip (default [] (gs_idxSlots s !! slot)) (default [] (gs_slots s !! slot)).

Definition slotsOf (b : spliceGroupBuckets) (group : Z) : groupSlots :=
  if isDense group then derefSlots b (DenseRef (Z.to_nat group))
  else match sb_sparseIndex b !! group with Some idx => derefSlots b (SparseRef idx) | None => emptySlots end.

Definition pendingOf (b : spliceGroupBuckets) (group : Z) (slot : nat) : list (Z * Z) :=
  slotContent (slotsOf b group) slot.

Definition belongs (group : Z) (slot : nat) (x : Z * Z) : Prop :=
  GetEntityGroup reg groupFunc x.2 = group /\ spliceSlot x.2 = slot.

#[local] Instance belongs_dec group slot x : Decision (belongs group slot x).
Proof. unfold belongs. apply _. Defined.

Definition batchContent (t : spliceBatch) : list (Z * Z) := zip (bt_origIndices t) (bt_ids t).

(** The batches of a group and a slot, joined. *)
Definition emittedOf (out : list spliceBatch) (group : Z) (slot : nat) : list (Z * Z) :=
  filter (belongs group slot) (out ≫= batchContent).

Record slots_ok (group : Z) (s : groupSlots) : Prop := {
  sl_len : length (gs_slots s) = Z.to_nat workerNum /\ length (gs_idxSlots s) = Z.to_nat workerNum;
  sl_same : forall slot l k, gs_slots s !! slot = Some l -> gs_idxSlots s !! slot = Some k ->
    length l = length k /\ len l < MaxBroadcastIdNum;
  sl_belongs : forall slot x, x ∈ slotContent s slot -> belongs group slot x
}.

Record buckets_ok (b : spliceGroupBuckets) : Prop := {
  bk_dense : length (sb_dense b) = Z.to_nat spliceDenseGroupLimit;
  bk_slots : forall group, slots_ok group (slotsOf b group);
  bk_index : forall group idx, sb_sparseIndex b !! group = Some idx ->
    isDense group = false /\ exists s, sb_sparse b !! idx = Some (group, s);
  bk_sparse : forall idx group s, sb_sparse b !! idx = Some (group, s) -> sb_sparseIndex b !! group = Some idx
}.

Record batch_ok (t : spliceBatch) : Prop := {
  bo_len : 1 <= len (bt_ids t) <= MaxBroadcastIdNum;
  bo_same : length (bt_ids t) = length (bt_origIndices t);
  bo_belongs : exists slot, (slot < Z.to_nat workerNum)%nat /\ Forall (belongs (bt_group t) slot) (batchContent t)
}.


(** ** Joining lists of lists of which one matters *)

Lemma bind_none {A B} (f : A -> list B) (l : list A) : (forall j y, l !! j = Some y -> f y = []) -> l ≫= f = [].
Proof using Type.
  induction l as [|y l IH]; intros Hf; [done|]. rewrite bind_cons, (Hf 0%nat y eq_refl).
  apply IH. intros j z Hz. by apply (Hf (S j)).
Qed.

Lemma bind_one {A B} (f : A -> list B) (l : list A) i x :
  l !! i = Some x -> (forall j y, l !! j = Some y -> j <> i -> f y = []) -> l ≫= f = f x.
Proof using Type.
  revert i. induction l as [|y l IH]; intros [|i] Hi Hf; cbn in Hi; simplify_eq.
  - rewrite bind_cons, bind_none, app_nil_r; [done|]. intros j z Hz. by apply (Hf (S j)).
  - rewrite bind_cons, (Hf 0%nat y eq_refl) by done. apply (IH i Hi). intros j z Hz Hne. apply (Hf (S j)); [done|lia].
Qed.

Lemma filter_bind {A B} (P : B -> Prop) `{!forall x, Decision (P x)} (f : A -> list B) (l : list A) :
  filter P (l ≫= f) = l ≫= (fun x => filter P (f x)).
Proof using Type. induction l as [|x l IH]; [done|]. by rewrite !bind_cons, filter_app, IH. Qed.

Lemma filter_all {A} (P : A -> Prop) `{!forall x, Decision (P x)} (l : list A) : (forall x, x ∈ l -> P x) -> filter P l = l.
Proof using Type.
  induction l as [|x l IH]; intros HP; [done|]. rewrite filter_cons_True by (apply HP; by left).
  f_equal. apply IH. intros y Hy. apply HP. by right.
Qed.

Lemma filter_no {A} (P : A -> Prop) `{!forall x, Decision (P x)} (l : list A) : (forall x, x ∈ l -> ~ P x) -> filter P l = [].
Proof using Type.
  induction l as [|x l IH]; intros HP; [done|]. rewrite filter_cons_False by (apply HP; by left).
  apply IH. intros y Hy. apply HP. by right.
Qed.

(** ** Buckets *)

Definition ref_of (b : spliceGroupBuckets) (group : Z) (r : slotsRef) : Prop :=
  match r with
  | DenseRef n => isDense group = true /\ n = Z.to_nat group
  | SparseRef idx => isDense group = false /\ sb_sparseIndex b !! group = Some idx
  end.

Hypothesis Hnum : 0 < workerNum.

Lemma emptySlots_ok group : slots_ok group emptySlots.
Proof using Type.
  split; cbn.
  - by rewrite length_replicate.
  - intros slot l k [-> _]%lookup_replicate [-> _]%lookup_replicate. done.
  - intros slot x. unfold slotContent. cbn.
    destruct (replicate (Z.to_nat workerNum) [] !! slot) eqn:E; cbn; [|by intros ?%not_elem_of_nil].
    apply lookup_replicate in E as [-> _]. by intros ?%not_elem_of_nil.
Qed.

Lemma emptySlots_content slot : slotContent emptySlots slot = [].
Proof using Type.
  unfold slotContent. cbn. destruct (replicate (Z.to_nat workerNum) [] !! slot) eqn:E; [|done].
  by apply lookup_replicate in E as [-> _].
Qed.

Lemma slotsOf_ref b group r : ref_of b group r -> slotsOf b group = derefSlots b r.
Proof using Type. unfold slotsOf. destruct r as [n|idx]; cbn; intros [-> H]; [by rewrite H|by rewrite H]. Qed.

Lemma dense_lt group : isDense group = true -> (Z.to_nat group < Z.to_nat spliceDenseGroupLimit)%nat.
Proof using Type. unfold isDense, spliceDenseGroupLimit. bool_to_prop. lia. Qed.

Lemma dense_inj a c : isDense a = true -> isDense c = true -> Z.to_nat a = Z.to_nat c -> a = c.
Proof using Type. unfold isDense. bool_to_prop. lia. Qed.

Lemma emptyBuckets_ok : buckets_ok emptyBuckets.
Proof using Type.
  split; cbn.
  - by rewrite length_replicate.
  - intros group. replace (slotsOf emptyBuckets group) with emptySlots; [apply emptySlots_ok|].
    unfold slotsOf. destruct (isDense group); [|done]. cbn [derefSlots sb_dense emptyBuckets].
    destruct (replicate _ None !! _) eqn:E; [|done]. by apply lookup_replicate in E as [-> _].
  - intros group idx. by rewrite lookup_empty.
  - done.
Qed.

Lemma getGroupSlots_ok b group b' r :
  buckets_ok b -> getGroupSlots b group = (b', r) ->
  buckets_ok b' /\ ref_of b' group r /\ forall g, slotsOf b' g = slotsOf b g.
Proof using Type.
  intros Hok Hg. unfold getGroupSlots in Hg. destruct (isDense group) eqn:Hd.
  - destruct (sb_dense b !! Z.to_nat group) as [[s|]|] eqn:Hs; simplify_eq; [by split|..].
    + assert (Hsame : forall g, slotsOf (mkBuckets (<[Z.to_nat group := Some emptySlots]> (sb_dense b)) (sb_sparse b)
        (sb_sparseIndex b)) g = slotsOf b g).
      { intros g. unfold slotsOf. destruct (isDense g) eqn:Hdg; [|done]. cbn [derefSlots sb_dense].
        destruct (decide (Z.to_nat g = Z.to_nat group)) as [E|Hne].
        - rewrite E, Hs, list_lookup_insert_eq by eauto using lookup_lt_Some. done.
        - by rewrite list_lookup_insert_ne by congruence. }
      destruct Hok as [Hl Hsl Hi Hsp]. split; [|by split]. split; cbn; try done.
      * by rewrite length_insert.
      * intros g. rewrite Hsame. apply Hsl.
    + apply lookup_ge_None in Hs. pose proof (dense_lt group Hd). rewrite (bk_dense _ Hok) in Hs. lia.
  - destruct (sb_sparseIndex b !! group) as [idx|] eqn:Hx; simplify_eq; [by split|].
    assert (Hsame : forall g, slotsOf (mkBuckets (sb_dense b) (sb_sparse b ++ [(group, emptySlots)])
      (<[group := length (sb_sparse b)]> (sb_sparseIndex b))) g = slotsOf b g).
    { intros g. unfold slotsOf. destruct (isDense g) eqn:Hdg; [done|]. cbn [derefSlots sb_sparse sb_sparseIndex].
      destruct (decide (g = group)) as [->|Hne].
      - by rewrite lookup_insert_eq, Hx, lookup_app_r, Nat.sub_diag by done.
      - rewrite lookup_insert_ne by done. destruct (sb_sparseIndex b !! g) as [idx|] eqn:E; [|done].
        destruct (bk_index _ Hok g idx E) as (_ & s & Hs). rewrite lookup_app_l by eauto using lookup_lt_Some. done. }
    destruct Hok as [Hl Hsl Hi Hsp].
    split; [|split; [split; [done|cbn; by rewrite lookup_insert_eq]|done]]. split; cbn; try done.
    + intros g. rewrite Hsame. apply Hsl.
    + intros g idx [[-> <-]|[Hne E]]%lookup_insert_Some.
      * split; [done|]. exists emptySlots. by rewrite lookup_app_r, Nat.sub_diag.
      * destruct (Hi g idx E) as (Hdg & s & Hs). split; [done|]. exists s. by apply lookup_app_l_Some.
    + intros idx g s [Hs|[Hge Hs]]%lookup_app_Some.
      * rewrite lookup_insert_ne; [by eapply Hsp|]. intros <-. rewrite (Hsp _ _ _ Hs) in Hx. done.
      * apply list_lookup_singleton_Some in Hs as [E [= <- <-]]. rewrite lookup_insert_eq. f_equal. lia.
Qed.

Lemma storeSlots_ok b group r s :
  buckets_ok b -> ref_of b group r -> slots_ok group s ->
  buckets_ok (storeSlots b r s) /\ slotsOf (storeSlots b r s) group = s
  /\ forall g, g <> group -> slotsOf (storeSlots b r s) g = slotsOf b g.
Proof using Type.
  intros [Hl Hsl Hi Hsp] Hr Hs.
  assert (Hgroup : slotsOf (storeSlots b r s) group = s).
  { destruct r as [n|idx]; destruct Hr as [Hd Hr]; unfold slotsOf; rewrite Hd; cbn.
    - rewrite Hr, list_lookup_insert_eq; [done|]. rewrite Hl. by apply dense_lt.
    - rewrite Hr. destruct (Hi group idx Hr) as (_ & s' & Hs'). by rewrite list_lookup_alter_eq, Hs'. }
  assert (Hother : forall g, g <> group -> slotsOf (storeSlots b r s) g = slotsOf b g).
  { intros g Hne. destruct r as [n|idx]; destruct Hr as [Hd Hr]; unfold slotsOf; destruct (isDense g) eqn:Hdg; cbn; try done.
    - rewrite list_lookup_insert_ne; [done|]. intros E. apply Hne, (dense_inj _ _ Hdg Hd). lia.
    - destruct (sb_sparseIndex b !! g) as [idx'|] eqn:E; [|done]. rewrite list_lookup_alter_ne; [done|].
      intros <-. destruct (Hi g idx E) as (_ & s1 & H1), (Hi group idx Hr) as (_ & s2 & H2). congruence. }
  split; [|done]. split.
  - destruct r; cbn; [by rewrite length_insert|done].
  - intros g. destruct (decide (g = group)) as [->|Hne]; [by rewrite Hgroup|]. rewrite Hother by done. apply Hsl.
  - intros g idx E. destruct r as [n|i]; cbn in *; [by apply Hi|]. destruct (Hi g idx E) as (Hdg & s' & Hs').
    split; [done|]. destruct (decide (i = idx)) as [->|Hne].
    + exists s. rewrite list_lookup_alter_eq, Hs'. done.
    + exists s'. by rewrite list_lookup_alter_ne.
  - intros idx g s' E. destruct r as [n|i]; cbn in *; [by eapply Hsp|]. destruct (decide (i = idx)) as [->|Hne].
    + rewrite list_lookup_alter_eq in E. destruct (sb_sparse b !! idx) as [[g' s1]|] eqn:Hx; [|done].
      cbn in E. simplify_eq. by eapply Hsp.
    + rewrite list_lookup_alter_ne in E by done. by eapply Hsp.
Qed.

(** ** One turn *)

Lemma spliceSlot_lt id : (spliceSlot id < Z.to_nat workerNum)%nat.
Proof using Hnum. unfold spliceSlot. pose proof (Z.mod_pos_bound (hashKey id) workerNum Hnum). lia. Qed.

Lemma slot_lists group s slot :
  slots_ok group s -> (slot < Z.to_nat workerNum)%nat ->
  exists l k, gs_slots s !! slot = Some l /\ gs_idxSlots s !! slot = Some k /\ length l = length k
    /\ len l < MaxBroadcastIdNum /\ slotContent s slot = zip k l.
Proof using Hnum.
  intros [[Hl Hk] Hs _] Hlt.
  destruct (lookup_lt_is_Some_2 (gs_slots s) slot) as [l El]; [lia|].
  destruct (lookup_lt_is_Some_2 (gs_idxSlots s) slot) as [k Ek]; [lia|].
  destruct (Hs slot l k El Ek) as [H1 H2]. exists l, k. unfold slotContent. by rewrite El, Ek.
Qed.

Lemma slotContent_set s slot l k j :
  (slot < length (gs_slots s))%nat -> (slot < length (gs_idxSlots s))%nat ->
  slotContent (mkSlots (<[slot := l]> (gs_slots s)) (<[slot := k]> (gs_idxSlots s))) j =
  if decide (j = slot) then zip k l else slotContent s j.
Proof using Hnum.
  intros H1 H2. unfold slotContent. cbn. case_decide as E.
  - rewrite E, !list_lookup_insert_eq by done. done.
  - by rewrite !list_lookup_insert_ne by done.
Qed.

Lemma set_slots_ok group s slot l k :
  slots_ok group s -> (slot < Z.to_nat workerNum)%nat -> length l = length k -> len l < MaxBroadcastIdNum ->
  (forall x, x ∈ zip k l -> belongs group slot x) ->
  slots_ok group (mkSlots (<[slot := l]> (gs_slots s)) (<[slot := k]> (gs_idxSlots s))).
Proof using Hnum.
  intros [[Hl Hk] Hs Hb] Hlt Hlen Hmax Hz. split.
  - cbn. by rewrite !length_insert.
  - cbn. intros j l' k' Hj Hj'. apply list_lookup_insert_Some in Hj as [(-> & <- & _)|[Hne Hj]].
    + rewrite list_lookup_insert_eq in Hj' by lia. by simplify_eq.
    + rewrite list_lookup_insert_ne in Hj' by done. by eapply Hs.
  - intros j x. rewrite slotContent_set by lia. case_decide as E; [rewrite E; apply Hz|apply Hb].
Qed.

(** All that was taken is emitted or in a bucket, in order. *)
Record splice_ok (b : spliceGroupBuckets) (out : list spliceBatch) (taken : list (Z * Z)) : Prop := {
  so_buckets : buckets_ok b;
  so_batches : Forall batch_ok out;
  so_exact : forall group slot, (slot < Z.to_nat workerNum)%nat ->
    emittedOf out group slot ++ pendingOf b group slot = filter (belongs group slot) taken
}.

Lemma emitted_snoc out t group slot :
  emittedOf (out ++ [t]) group slot = emittedOf out group slot ++ filter (belongs group slot) (batchContent t).
Proof using Hnum. unfold emittedOf. rewrite bind_app, filter_app. f_equal. cbn. by rewrite app_nil_r. Qed.

Lemma zip_snoc {A B} (k : list A) (l : list B) x y :
  length k = length l -> zip (k ++ [x]) (l ++ [y]) = zip k l ++ [(x, y)].
Proof using Hnum. intros H. by rewrite zip_with_app. Qed.

Lemma spliceTurn_ok b out taken x :
  splice_ok b out taken ->
  let st := spliceTurn (b, out) x in splice_ok st.1 st.2 (taken ++ [x]).
Proof using Hnum.
  intros [Hb Ho He]. destruct x as [i id]. cbn [spliceTurn].
  set (group := GetEntityGroup reg groupFunc id). set (slot := spliceSlot id).
  destruct (getGroupSlots b group) as [b1 r] eqn:Hg.
  destruct (getGroupSlots_ok b group b1 r Hb Hg) as (Hb1 & Hr & Hsame).
  assert (Hlt : (slot < Z.to_nat workerNum)%nat) by apply spliceSlot_lt.
  pose proof (bk_slots _ Hb1 group) as Hs. rewrite (slotsOf_ref b1 group r Hr) in Hs.
  set (s := derefSlots b1 r) in *.
  destruct (slot_lists group s slot Hs Hlt) as (l & k & El & Ek & Hlen & Hmax & Hcont).
  rewrite El, Ek. cbn [default from_option]. unfold Datatypes.id.
  assert (Hpend : pendingOf b group slot = zip k l).
  { unfold pendingOf. by rewrite <-Hsame, (slotsOf_ref b1 group r Hr). }
  assert (Hx : belongs group slot (i, id)) by done.
  assert (Hnew : forall x, x ∈ zip (k ++ [i]) (l ++ [id]) -> belongs group slot x).
  { intros x. rewrite zip_snoc by done. rewrite elem_of_app, list_elem_of_singleton. intros [Hin| ->]; [|done].
    apply (sl_belongs _ _ Hs). by rewrite Hcont. }
  assert (Hstep : forall s' out', slots_ok group s' -> Forall batch_ok out' ->
    (forall j, (j < Z.to_nat workerNum)%nat -> j <> slot -> slotContent s' j = slotContent s j) ->
    (forall g j, (g, j) <> (group, slot) -> emittedOf out' g j = emittedOf out g j) ->
    emittedOf out' group slot ++ slotContent s' slot = emittedOf out group slot ++ zip k l ++ [(i, id)] ->
    splice_ok (storeSlots b1 r s') out' (taken ++ [(i, id)])).
  { intros s' out' Hs' Ho' Hoth Hem Hnow.
    destruct (storeSlots_ok b1 group r s' Hb1 Hr Hs') as (Hb2 & Hg2 & Hoth2). split; [done|done|].
    intros g j Hj. rewrite filter_app. unfold pendingOf. destruct (decide (g = group /\ j = slot)) as [[-> ->]|Hne].
    - rewrite Hg2, Hnow, filter_cons_True, filter_nil by done. by rewrite <-(He group slot Hlt), Hpend, app_assoc.
    - rewrite Hem by naive_solver. rewrite filter_cons_False, filter_nil, app_nil_r by (intros [? ?]; naive_solver).
      rewrite <-(He g j Hj). f_equal. unfold pendingOf. destruct (decide (g = group)) as [->|Hng].
      + rewrite Hg2, <-Hsame, (slotsOf_ref b1 group r Hr). apply Hoth; [done|naive_solver].
      + by rewrite Hoth2, Hsame. }
  destruct Hs as [[Hl Hk] Hs1 Hs2]. destruct (Z.eqb_spec (len (l ++ [id])) MaxBroadcastIdNum) as [Hfull|Hpart]; cbn [fst snd].
  - apply Hstep.
    + apply set_slots_ok; [by split|done|done|done|]. intros x Hx'. by apply not_elem_of_nil in Hx'.
    + apply Forall_app. split; [done|]. apply Forall_singleton. split; cbn.
      * rewrite len_app, len_cons, len_nil in *. pose proof (len_nonneg l). lia.
      * by rewrite !length_app, Hlen.
      * exists slot. split; [done|]. apply Forall_forall, Hnew.
    + intros j Hj Hne. rewrite slotContent_set by lia. by rewrite decide_False.
    + intros g j Hne. rewrite emitted_snoc, filter_no, app_nil_r; [done|]. intros x Hin [E1 E2].
      destruct (Hnew x Hin) as [E3 E4]. cbn in *. congruence.
    + rewrite slotContent_set by lia. rewrite decide_True by done. cbn [zip_with]. rewrite app_nil_r, emitted_snoc.
      f_equal. unfold batchContent. cbn [bt_ids bt_origIndices]. rewrite (filter_all _ _ Hnew). by apply zip_snoc.
  - apply Hstep.
    + apply set_slots_ok; [by split|done|by rewrite !length_app, Hlen| |done].
      rewrite len_app, len_cons, len_nil in *. unfold MaxBroadcastIdNum in *. lia.
    + done.
    + intros j Hj Hne. rewrite slotContent_set by lia. by rewrite decide_False.
    + done.
    + rewrite slotContent_set by lia. rewrite decide_True by done. by rewrite zip_snoc.
Qed.

(** ** Flushing *)

Lemma flush_content group s :
  slots_ok group s -> flushGroupSlots group s ≫= batchContent = seq 0 (Z.to_nat workerNum) ≫= slotContent s.
Proof using Hnum.
  intros [[Hl Hk] Hs _]. unfold flushGroupSlots, slotContent.
  revert Hl Hk Hs. generalize (Z.to_nat workerNum). generalize (gs_idxSlots s), (gs_slots s). clear s.
  intros ks ls n. revert ks n. induction ls as [|l ls IH]; intros [|k ks] [|n] Hl Hk Hs; cbn in Hl, Hk; try done.
  specialize (IH ks n ltac:(congruence) ltac:(congruence) (fun slot => Hs (S slot))).
  rewrite <-cons_seq, bind_cons. cbn [zip_with omap]. rewrite <-fmap_S_seq, list_fmap_bind. unfold compose. cbn.
  destruct (Z.eqb_spec (len l) 0) as [E|E]; [|cbn; f_equal; exact IH]. destruct l; [|done].
  destruct (Hs 0%nat [] k eq_refl eq_refl) as [Hlen _]. destruct k; [exact IH|done].
Qed.

Lemma flush_filter group s g slot :
  slots_ok group s -> (slot < Z.to_nat workerNum)%nat ->
  filter (belongs g slot) (flushGroupSlots group s ≫= batchContent) = if decide (g = group) then slotContent s slot else [].
Proof using Hnum.
  intros Hs Hlt. rewrite flush_content, filter_bind by done. destruct (decide (g = group)) as [->|Hne].
  - rewrite (bind_one _ _ slot slot).
    + apply filter_all. intros x. apply (sl_belongs _ _ Hs).
    + by apply lookup_seq.
    + intros j y [-> _]%lookup_seq Hne. apply filter_no. intros x Hx [_ E].
      destruct (sl_belongs _ _ Hs _ _ Hx) as [_ E']. cbn in *. congruence.
  - apply bind_none. intros j y _. apply filter_no. intros x Hx [E _].
    destruct (sl_belongs _ _ Hs _ _ Hx) as [E' _]. congruence.
Qed.

Lemma flush_batches group s : slots_ok group s -> Forall batch_ok (flushGroupSlots group s).
Proof using Hnum.
  intros Hs. apply Forall_forall. intros t Ht. unfold flushGroupSlots in Ht.
  apply list_elem_of_omap in Ht as ([l k] & Hin & Ht). cbn in Ht. apply list_elem_of_lookup in Hin as [slot Hin].
  apply lookup_zip_with_Some in Hin as (l' & k' & [= <- <-] & El & Ek). destruct Hs as [[Hl Hk] Hs1 Hs2].
  destruct (Hs1 slot l k El Ek) as [Hlen Hmax]. destruct (Z.eqb_spec (len l) 0) as [|Hne]; [done|]. simplify_eq.
  pose proof (len_nonneg l). split; cbn; [lia|done|]. exists slot. split; [apply lookup_lt_Some in El; lia|].
  apply Forall_forall. intros x Hx. apply Hs2. unfold slotContent. by rewrite El, Ek.
Qed.

Lemma filter_bind_bind {A B C} (P : C -> Prop) `{!forall x, Decision (P x)} (f : A -> list B) (h : B -> list C) l :
  filter P ((l ≫= f) ≫= h) = l ≫= (fun x => filter P (f x ≫= h)).
Proof using Type. induction l as [|x l IH]; [done|]. by rewrite !bind_cons, bind_app, filter_app, IH. Qed.

Lemma dense_slots b n s :
  buckets_ok b -> sb_dense b !! n = Some (Some s) -> slots_ok (Z.of_nat n) s /\ isDense (Z.of_nat n) = true.
Proof using Type.
  intros Hok Hn. assert (Hlt : (n < Z.to_nat spliceDenseGroupLimit)%nat)
    by (rewrite <-(bk_dense _ Hok); by eapply lookup_lt_Some).
  assert (Hd : isDense (Z.of_nat n) = true) by (unfold isDense, spliceDenseGroupLimit in *; bool_to_prop; lia).
  split; [|done]. pose proof (bk_slots _ Hok (Z.of_nat n)) as Hs. unfold slotsOf in Hs. rewrite Hd in Hs.
  cbn in Hs. by rewrite Nat2Z.id, Hn in Hs.
Qed.

Lemma sparse_slots b idx group s :
  buckets_ok b -> sb_sparse b !! idx = Some (group, s) ->
  slots_ok group s /\ isDense group = false /\ slotsOf b group = s.
Proof using Type.
  intros Hok Hi. pose proof (bk_sparse _ Hok _ _ _ Hi) as Hx. destruct (bk_index _ Hok _ _ Hx) as [Hd _].
  assert (Hs : slotsOf b group = s) by (unfold slotsOf; rewrite Hd, Hx; cbn; by rewrite Hi).
  split; [rewrite <-Hs; apply (bk_slots _ Hok)|done].
Qed.

Lemma dense_flush b g slot :
  buckets_ok b -> (slot < Z.to_nat workerNum)%nat ->
  filter (belongs g slot) ((seq 0 (Z.to_nat spliceDenseGroupLimit) ≫= flushDense b) ≫= batchContent)
  = if isDense g then pendingOf b g slot else [].
Proof using Hnum.
  intros Hok Hlt. rewrite filter_bind_bind. unfold flushDense.
  assert (Hno : forall n, Z.of_nat n <> g -> filter (belongs g slot)
    (match sb_dense b !! n with Some (Some s) => flushGroupSlots (Z.of_nat n) s | _ => [] end ≫= batchContent) = []).
  { intros n Hne. destruct (sb_dense b !! n) as [[s|]|] eqn:Hn; [|done..].
    destruct (dense_slots b n s Hok Hn) as [Hs _]. rewrite flush_filter by done. by rewrite decide_False. }
  destruct (isDense g) eqn:Hd.
  - assert (Hg : 0 <= g) by (unfold isDense in Hd; bool_to_prop; lia).
    rewrite (bind_one _ _ (Z.to_nat g) (Z.to_nat g)).
    + unfold pendingOf, slotsOf. rewrite Hd. cbn [derefSlots].
      destruct (sb_dense b !! Z.to_nat g) as [[s|]|] eqn:Hn; cbn [default from_option Datatypes.id]; [|by rewrite emptySlots_content..].
      destruct (dense_slots b _ s Hok Hn) as [Hs _]. rewrite flush_filter by done. by rewrite decide_True by lia.
    + apply lookup_seq. split; [done|]. by apply dense_lt.
    + intros j y [-> _]%lookup_seq Hne. apply Hno. lia.
  - apply bind_none. intros j y Hy. destruct (decide (Z.of_nat y = g)) as [<-|Hne]; [|by apply Hno].
    destruct (sb_dense b !! y) as [[s|]|] eqn:Hn; [|done..].
    destruct (dense_slots b _ s Hok Hn) as [_ Hd']. congruence.
Qed.

Lemma sparse_flush b g slot :
  buckets_ok b -> (slot < Z.to_nat workerNum)%nat ->
  filter (belongs g slot) ((sb_sparse b ≫= fun x => flushGroupSlots x.1 x.2) ≫= batchContent)
  = if isDense g then [] else pendingOf b g slot.
Proof using Hnum.
  intros Hok Hlt. rewrite filter_bind_bind.
  assert (Hno : forall idx x, sb_sparse b !! idx = Some x -> x.1 <> g ->
    filter (belongs g slot) (flushGroupSlots x.1 x.2 ≫= batchContent) = []).
  { intros idx [gr s] Hi Hne. destruct (sparse_slots b idx gr s Hok Hi) as [Hs _]. rewrite flush_filter by done.
    by rewrite decide_False by (cbn in *; congruence). }
  destruct (isDense g) eqn:Hd.
  - apply bind_none. intros idx [gr s] Hi. eapply Hno; [done|]. cbn. intros ->.
    destruct (sparse_slots b idx g s Hok Hi) as (_ & Hd' & _). congruence.
  - unfold pendingOf. destruct (sb_sparseIndex b !! g) as [idx|] eqn:Hx.
    + destruct (bk_index _ Hok g idx Hx) as (_ & s & Hi). rewrite (bind_one _ _ idx (g, s)); [|done|].
      * destruct (sparse_slots b idx g s Hok Hi) as (Hs & _ & ->). cbn. rewrite flush_filter by done.
        by rewrite decide_True.
      * intros j [gr s'] Hj Hne. eapply Hno; [done|]. cbn. intros ->.
        rewrite (bk_sparse _ Hok _ _ _ Hj) in Hx. congruence.
    + unfold slotsOf. rewrite Hd, Hx, emptySlots_content. apply bind_none. intros j [gr s] Hj. eapply Hno; [done|].
      cbn. intros ->. rewrite (bk_sparse _ Hok _ _ _ Hj) in Hx. congruence.
Qed.

Lemma foldl_splice_ok xs b out taken :
  splice_ok b out taken ->
  let st := foldl spliceTurn (b, out) xs in splice_ok st.1 st.2 (taken ++ xs).
Proof using Hnum.
  revert b out taken. induction xs as [|x xs IH]; intros b out taken Hok; cbn [foldl]; [by rewrite app_nil_r|].
  pose proof (spliceTurn_ok b out taken x Hok) as Hok'. destruct (spliceTurn (b, out) x) as [b' out'].
  replace (taken ++ x :: xs) with ((taken ++ [x]) ++ xs) by (by rewrite <-app_assoc). by apply IH.
Qed.

Lemma count_filter (P : Z * Z -> Prop) `{!forall x, Decision (P x)} x (l : list (Z * Z)) :
  P x -> count_occ (fun a b => decide (a = b)) l x = count_occ (fun a b => decide (a = b)) (filter P l) x.
Proof using Type.
  intros Hx. induction l as [|y l IH]; [done|]. cbn [count_occ]. destruct (decide (y = x)) as [->|Hne].
  - rewrite filter_cons_True by done. cbn [count_occ]. by rewrite decide_True, IH by done.
  - rewrite filter_cons. case_decide; cbn [count_occ]; [by rewrite decide_False by done|done].
Qed.

Lemma ForEachSpliceBatch_parts ids :
  exists b out, splice_ok b out (enumerate ids)
    /\ ForEachSpliceBatch ids = out ++ (seq 0 (Z.to_nat spliceDenseGroupLimit) ≫= flushDense b)
         ++ (sb_sparse b ≫= fun x => flushGroupSlots x.1 x.2).
Proof using Hnum.
  unfold ForEachSpliceBatch.
  assert (H0 : splice_ok emptyBuckets [] []).
  { split; [apply emptyBuckets_ok|done|]. intros g slot Hlt. cbn. unfold pendingOf.
    unfold slotsOf. destruct (isDense g); [|by rewrite emptySlots_content]. cbn [derefSlots sb_dense emptyBuckets].
    destruct (replicate _ None !! _) eqn:E; cbn; [apply lookup_replicate in E as [-> _]|]; by rewrite emptySlots_content. }
  pose proof (foldl_splice_ok (enumerate ids) _ _ _ H0) as Hok.
  destruct (foldl spliceTurn (emptyBuckets, []) (enumerate ids)) as [b out]. by exists b, out.
Qed.

Lemma ForEachSpliceBatch_joined ids g slot :
  (slot < Z.to_nat workerNum)%nat ->
  filter (belongs g slot) (ForEachSpliceBatch ids ≫= batchContent) = filter (belongs g slot) (enumerate ids).
Proof using Hnum.
  intros Hlt. destruct (ForEachSpliceBatch_parts ids) as (b & out & [Hb _ He] & ->).
  rewrite !bind_app, !filter_app, dense_flush, sparse_flush by done. rewrite <-(He g slot Hlt). unfold emittedOf.
  f_equal. destruct (isDense g); [by rewrite app_nil_r|done].
Qed.

Lemma ForEachSpliceBatch_batches ids : Forall batch_ok (ForEachSpliceBatch ids).
Proof using Hnum.
  destruct (ForEachSpliceBatch_parts ids) as (b & out & [Hb Ho _] & ->).
  apply Forall_app. split; [done|]. apply Forall_app. split; apply Forall_forall; intros t Ht.
  - apply list_elem_of_bind in Ht as (n & Ht & _). unfold flushDense in Ht.
    destruct (sb_dense b !! n) as [[s|]|] eqn:Hn; [|by apply not_elem_of_nil in Ht..].
    destruct (dense_slots b n s Hb Hn) as [Hs _]. exact (proj1 (Forall_forall _ _) (flush_batches _ _ Hs) t Ht).
  - apply list_elem_of_bind in Ht as ([gr s] & Ht & Hin). apply list_elem_of_lookup in Hin as [idx Hi].
    destruct (sparse_slots b idx gr s Hb Hi) as [Hs _]. exact (proj1 (Forall_forall _ _) (flush_batches _ _ Hs) t Ht).
Qed.

End Splice.

(** C24. A broadcast is split exactly.  Every batch has between 1 and 32
    identifiers, each with its position in the broadcast, all of the group the
    batch is emitted for and of one worker; the batches together hold every
    identifier of the broadcast exactly once; and the batches of a group and a
    worker, joined, are its identifiers in the order of the broadcast. *)
Theorem ForEachSpliceBatch_exact reg groupFunc workerNum ids :
  0 < workerNum ->
  let out := ForEachSpliceBatch reg groupFunc workerNum ids in
  Forall (fun t => 1 <= len (bt_ids t) <= MaxBroadcastIdNum /\ length (bt_ids t) = length (bt_origIndices t)
    /\ exists slot, Forall (fun id => GetEntityGroup reg groupFunc id = bt_group t
         /\ hashKey id mod workerNum = slot) (bt_ids t)) out
  /\ (out ≫= batchContent) ≡ₚ enumerate ids
  /\ (forall group slot, filter (belongs reg groupFunc workerNum group slot) (out ≫= batchContent)
        = filter (belongs reg groupFunc workerNum group slot) (enumerate ids)).
Proof.
  intros Hnum out. pose proof (fun id => Z.mod_pos_bound (hashKey id) workerNum Hnum) as Hmod.
  assert (Hall : forall group slot, filter (belongs reg groupFunc workerNum group slot) (out ≫= batchContent)
    = filter (belongs reg groupFunc workerNum group slot) (enumerate ids)).
  { intros g slot. destruct (decide (slot < Z.to_nat workerNum)%nat) as [Hlt|Hge]; [by apply ForEachSpliceBatch_joined|].
    rewrite !filter_no; [done|..]; intros x _ [_ E]; unfold spliceSlot in E; specialize (Hmod x.2); lia. }
  split; [|split; [|done]].
  - eapply Forall_impl; [by apply (ForEachSpliceBatch_batches reg groupFunc workerNum Hnum ids)|].
    intros t [Hlen Hsame (slot & Hlt & Hb)]. split; [done|]. split; [done|]. exists (Z.of_nat slot).
    apply Forall_lookup. intros j id Hj.
    destruct (lookup_lt_is_Some_2 (bt_origIndices t) j) as [i Hi];
      [rewrite <-Hsame; by eapply lookup_lt_Some|].
    destruct (proj1 (Forall_lookup _ _) Hb j (i, id)) as [E1 E2].
    { unfold batchContent. apply lookup_zip_with_Some. by exists i, id. }
    cbn in E1, E2. split; [done|]. unfold spliceSlot in E2. specialize (Hmod id). lia.
  - apply (Permutation_count_occ (fun a b => decide (a = b))). intros x.
    set (P := belongs reg groupFunc workerNum (GetEntityGroup reg groupFunc x.2) (spliceSlot workerNum x.2)).
    assert (Hx : P x) by (by split).
    rewrite (count_filter P x (out ≫= batchContent) Hx), (count_filter P x (enumerate ids) Hx). f_equal. apply Hall.
Qed.

Lemma ForEachSpliceBatch_exact_witness :
  (ForEachSpliceBatch ResetEntityRegistry (Some (fun c => c)) 2 [5; 6; 5 * 2 ^ 40] ≫= batchContent)
    ≡ₚ enumerate [5; 6; 5 * 2 ^ 40].
Proof.
  refine (proj1 (proj2 (ForEachSpliceBatch_exact ResetEntityRegistry (Some (fun c => c)) 2 [5; 6; 5 * 2 ^ 40] _))).
  reflexivity.
Defined.


(** The batches of a small broadcast over three workers. *)
Example ForEachSpliceBatch_sample :
  (fun t => (bt_group t, bt_ids t, bt_origIndices t))
    <$> ForEachSpliceBatch ResetEntityRegistry (Some (fun _ => 3)) 3 [5; 6; 7; 8; 9] =
  [(3, [5; 9], [0; 4]); (3, [6; 7; 8], [1; 2; 3])].
Proof. vm_compute. reflexivity. Qed.
