(* ===== verification/Dispatcher.v ===== *)
(** * The dispatcher

    Models [src/nest/dispatcher.go] up to the splitting of broadcasts (which is
    in [Splice]): admission of messages, the queue of delayed messages and the
    goroutine that empties it, fencing and stopping.

    A step is one critical section, one operation on a channel, or one call of a
    worker pool, whose answer is an argument: pools are modelled in [WorkerPool].
    Clock readings are arguments too.  [d_sent], [d_released] and [d_answers] are
    history: what was handed to a pool, what was recycled, and what was sent to
    callers that wait for an answer. *)

From stdpp Require Import base list gmap.
From Stdlib Require Import ZArith Lia.
From S2P Require Import Prelude Heap WorkerPool.

#[local] Open Scope Z_scope.

(** ** Messages *)

Inductive MsgType : Type :=
| MsgTypeSingle
| MsgTypeMulti
| MsgTypeMultiGroup
| MsgTypeBroadcast
| MsgTypeGroupTransition.

(** The fields of a message that decide its way. *)
Record Msg := mkMsg {
  ms_Tid : Z;
  ms_Tids : list Z;
  ms_GroupTIds : list (list Z);
  ms_Type : MsgType;
  ms_Cost : bool;
  ms_HasRemote : bool;
  ms_RetChan : bool
}.

Definition Msg_Key (m : Msg) : Z :=
  if negb (ms_Tid m =? 0) then ms_Tid m
  else match ms_Tids m with
  | t :: _ => t
  | [] => match ms_GroupTIds m with (t :: _) :: _ => t | _ => 0 end
  end.

(** ** The heap of delayed messages *)

(** [dm_ptr] is the identity of the allocated record: records are numbered in the
    order in which they are queued. *)
Record delayedMsg := mkDelayed {
  dm_due : Z;
  dm_seq : Z;
  dm_msg : Msg;
  dm_idx : Z;
  dm_ptr : nat
}.

Abbreviation delayedMsgHeap := (list delayedMsg).

Definition setIdx (i : Z) (x : delayedMsg) : delayedMsg :=
  mkDelayed (dm_due x) (dm_seq x) (dm_msg x) i (dm_ptr x).

(** The numbers are unsigned 64-bit. *)
Definition delayedLess (a b : delayedMsg) : bool :=
  if dm_due a =? dm_due b then u64! (dm_seq a) <? u64! (dm_seq b) else dm_due a <? dm_due b.

Definition delayed_Less (h : delayedMsgHeap) (i j : nat) : bool :=
  match h !! i, h !! j with Some a, Some b => delayedLess a b | _, _ => false end.

Definition delayed_Swap (h : delayedMsgHeap) (i j : nat) : delayedMsgHeap :=
  match h !! i, h !! j with
  | Some a, Some b => <[i := setIdx (Z.of_nat i) b]> (<[j := setIdx (Z.of_nat j) a]> h)
  | _, _ => h
  end.

#[export] Instance delayedMsgHeap_interface : HeapInterface delayedMsgHeap := {
  hLen h := length h;
  hLess := delayed_Less;
  hSwap := delayed_Swap
}.

Definition delayed_Push (h : delayedMsgHeap) (x : delayedMsg) : delayedMsgHeap :=
  h ++ [setIdx (len h) x].

Definition delayed_Pop (h : delayedMsgHeap) : delayedMsgHeap := take (length h - 1) h.

(** ** The dispatcher *)

Inductive dispatchError : Type :=
| ErrFence (code : Z)
| ErrNestStopped
| ErrDelayTooLong
| ErrQueueFull
| ErrPool (err : poolError)
| ErrContextDone.

Inductive poolName : Type := MainPool | HeartbeatPool | CostPool.

Record Dispatcher := mkDispatcher {
  d_MsgCap : Z;
  d_DelayedMsgCap : Z;
  d_MaxDelay : Z;
  d_workerNum : Z;
  d_hbWorkerNum : Z;
  d_pools : bool;
  d_delayed : gmap nat Msg;
  d_delayedHeap : delayedMsgHeap;
  d_notify : bool;
  d_delayStop : bool;
  d_stopClosed : bool;
  d_doneClosed : bool;
  d_delaySeq : Z;
  d_stopped : bool;
  d_fenceErr : option Z;
  d_allocated : nat;
  d_sent : list (poolName * Msg);
  d_released : list Msg;
  d_answers : list (Msg * dispatchError)
}.

Definition NewDispatcher (workerNum hbWorkerNum msgCap : Z) : Dispatcher :=
  let msgCap := if msgCap <=? 0 then 10000 else msgCap in
  mkDispatcher msgCap msgCap (24 * 3600 * 10 ^ 9) (if workerNum <=? 0 then 1 else workerNum) hbWorkerNum
    false ∅ [] false false false false 0 false None 0 [] [] [].

Definition withLimits d (capacity maxDelay : Z) : Dispatcher :=
  mkDispatcher (d_MsgCap d) capacity maxDelay (d_workerNum d) (d_hbWorkerNum d) (d_pools d) (d_delayed d)
    (d_delayedHeap d) (d_notify d) (d_delayStop d) (d_stopClosed d) (d_doneClosed d) (d_delaySeq d) (d_stopped d)
    (d_fenceErr d) (d_allocated d) (d_sent d) (d_released d) (d_answers d).

Definition ConfigureDelayedAdmission d (capacity maxDelay : Z) : Dispatcher :=
  withLimits d (if 0 <? capacity then capacity else d_DelayedMsgCap d)
    (if 0 <? maxDelay then maxDelay else d_MaxDelay d).

Definition OnInit d : Dispatcher :=
  mkDispatcher (d_MsgCap d) (d_DelayedMsgCap d) (d_MaxDelay d) (d_workerNum d) (d_hbWorkerNum d) true ∅ []
    false true false false (d_delaySeq d) false None (d_allocated d) (d_sent d) (d_released d) (d_answers d).

Definition withQueue d (delayed : gmap nat Msg) (h : delayedMsgHeap) : Dispatcher :=
  mkDispatcher (d_MsgCap d) (d_DelayedMsgCap d) (d_MaxDelay d) (d_workerNum d) (d_hbWorkerNum d) (d_pools d) delayed
    h (d_notify d) (d_delayStop d) (d_stopClosed d) (d_doneClosed d) (d_delaySeq d) (d_stopped d)
    (d_fenceErr d) (d_allocated d) (d_sent d) (d_released d) (d_answers d).

Definition withNotify d (token : bool) : Dispatcher :=
  mkDispatcher (d_MsgCap d) (d_DelayedMsgCap d) (d_MaxDelay d) (d_workerNum d) (d_hbWorkerNum d) (d_pools d) (d_delayed d)
    (d_delayedHeap d) token (d_delayStop d) (d_stopClosed d) (d_doneClosed d) (d_delaySeq d) (d_stopped d)
    (d_fenceErr d) (d_allocated d) (d_sent d) (d_released d) (d_answers d).

Definition withStop d (delayStop stopClosed doneClosed stopped : bool) : Dispatcher :=
  mkDispatcher (d_MsgCap d) (d_DelayedMsgCap d) (d_MaxDelay d) (d_workerNum d) (d_hbWorkerNum d) (d_pools d) (d_delayed d)
    (d_delayedHeap d) (d_notify d) delayStop stopClosed doneClosed (d_delaySeq d) stopped
    (d_fenceErr d) (d_allocated d) (d_sent d) (d_released d) (d_answers d).

Definition withHistory d (sent : list (poolName * Msg)) (released : list Msg) (answers : list (Msg * dispatchError))
    : Dispatcher :=
  mkDispatcher (d_MsgCap d) (d_DelayedMsgCap d) (d_MaxDelay d) (d_workerNum d) (d_hbWorkerNum d) (d_pools d) (d_delayed d)
    (d_delayedHeap d) (d_notify d) (d_delayStop d) (d_stopClosed d) (d_doneClosed d) (d_delaySeq d) (d_stopped d)
    (d_fenceErr d) (d_allocated d) sent released answers.

(** [recycleMsg], or the last [OnRelease]. *)
Definition recycle d (m : Msg) : Dispatcher :=
  withHistory d (d_sent d) (d_released d ++ [m]) (d_answers d).

Definition Fence d (err : Z) : Dispatcher :=
  match d_fenceErr d with
  | Some _ => d
  | None =>
      mkDispatcher (d_MsgCap d) (d_DelayedMsgCap d) (d_MaxDelay d) (d_workerNum d) (d_hbWorkerNum d) (d_pools d) (d_delayed d)
        (d_delayedHeap d) (d_notify d) (d_delayStop d) (d_stopClosed d) (d_doneClosed d) (d_delaySeq d) (d_stopped d)
        (Some err) (d_allocated d) (d_sent d) (d_released d) (d_answers d)
  end.

(** ** Admission *)

(** Why a message is not admitted. *)
Definition closedTo d : option dispatchError :=
  match d_fenceErr d with
  | Some code => Some (ErrFence code)
  | None => if d_stopped d then Some ErrNestStopped else None
  end.

Definition selectPool d (m : Msg) : poolName :=
  if ms_Cost m || ms_HasRemote m then CostPool
  else match ms_Type m with
  | MsgTypeBroadcast => if 0 <? d_hbWorkerNum d then HeartbeatPool else MainPool
  | _ => MainPool
  end.

(** [answer]: what the pool's [TryDispatch] returned. *)
Definition dispatchTo d (m : Msg) (answer : option poolError) : Dispatcher * option dispatchError :=
  if negb (d_pools d) then (recycle d m, Some ErrNestStopped) else
  match answer with
  | Some e => (recycle d m, Some (ErrPool e))
  | None => (withHistory d (d_sent d ++ [(selectPool d m, m)]) (d_released d) (d_answers d), None)
  end.

(** What [sendMsg] and [delaySendMsg] do with an error. *)
Definition reportTo d (report : bool) (m : Msg) (err : option dispatchError) : Dispatcher :=
  match err with
  | Some e => if report && ms_RetChan m then withHistory d (d_sent d) (d_released d) (d_answers d ++ [(m, e)]) else d
  | None => d
  end.

Definition enqueueDelayed d (now delay : Z) (m : Msg) : Dispatcher :=
  let seq := u64! (d_delaySeq d + 1) in
  let dm := mkDelayed (now + delay) seq m 0 (d_allocated d) in
  mkDispatcher (d_MsgCap d) (d_DelayedMsgCap d) (d_MaxDelay d) (d_workerNum d) (d_hbWorkerNum d) (d_pools d)
    (<[d_allocated d := m]> (d_delayed d)) (heapPush (delayed_Push (d_delayedHeap d) dm))
    (d_notify d) (d_delayStop d) (d_stopClosed d) (d_doneClosed d) seq (d_stopped d)
    (d_fenceErr d) (S (d_allocated d)) (d_sent d) (d_released d) (d_answers d).

(** The critical section of [TryDelaySendMsg]. *)
Definition admitDelayed d (now delay : Z) (m : Msg) : Dispatcher * option dispatchError :=
  match closedTo d with
  | Some e => (recycle d m, Some e)
  | None =>
      if (0 <? d_DelayedMsgCap d) && (d_DelayedMsgCap d <=? Z.of_nat (size (d_delayed d)))
      then (recycle d m, Some ErrQueueFull)
      else (enqueueDelayed d now delay m, None)
  end.

(** The outcome of [nextDelayedWait]. *)
Inductive nextDelayed : Type :=
| NextStopped
| NextEmpty
| NextAt (due : Z)
| NextDue (dm : delayedMsg).

Definition nextDelayedWait d (now : Z) : Dispatcher * nextDelayed :=
  if d_stopped d then (d, NextStopped) else
  match d_delayedHeap d with
  | [] => (d, NextEmpty)
  | next :: _ =>
      if now <? dm_due next then (d, NextAt (dm_due next)) else
      let h := heapPop (d_delayedHeap d) in
      match last h with
      | Some dm => (withQueue d (delete (dm_ptr dm) (d_delayed d)) (delayed_Pop h), NextDue (setIdx (-1) dm))
      | None => (d, NextEmpty)
      end
  end.

(** ** Goroutines *)

(** [report] tells [sendMsg] and [delaySendMsg] from the calls that return the
    error; [loop] marks the goroutine of the delay queue.  [DAbandoned] is the return
    of [OnDestroyWithContext] when its context ended before the delay loop did. *)
Inductive dispatchPc : Type :=
| DSend (loop report : bool) (m : Msg)
| DDispatch (loop report : bool) (m : Msg)
| DDelay (report : bool) (delay : Z) (m : Msg)
| DNotify
| DReturned (err : option dispatchError)
| LNext
| LIdle
| LTimer (due : Z)
| LClosing
| LDone
| DDestroy
| DClose (held : gmap nat Msg)
| DWait (held : gmap nat Msg)
| DRecycle (held : gmap nat Msg)
| DAbandoned (held : gmap nat Msg)
| DStopPools
| DFence (err : Z).

(** The case a [select] of the delay loop takes. *)
Inductive selectCase : Type := CaseNotify | CaseTimer | CaseStop.

(** What a step is told from outside: the clock, the pool's answer, the case of a
    [select], and whether the context is done. *)
Record world := mkWorld {
  wd_now : Z;
  wd_pool : option poolError;
  wd_case : selectCase;
  wd_expired : bool
}.

Definition afterSend (loop : bool) (err : option dispatchError) : dispatchPc :=
  if loop then LNext else DReturned err.

Definition dispatchStep d (pc : dispatchPc) (w : world) : option (Dispatcher * dispatchPc) :=
  match pc with
  | DSend loop report m =>
      match closedTo d with
      | Some e => Some (reportTo (recycle d m) report m (Some e), afterSend loop (Some e))
      | None => Some (d, DDispatch loop report m)
      end
  | DDispatch loop report m =>
      let '(d', err) := dispatchTo d m (wd_pool w) in Some (reportTo d' report m err, afterSend loop err)
  | DDelay report delay m =>
      if delay <=? 0 then Some (d, DSend false report m)
      else if (0 <? d_MaxDelay d) && (d_MaxDelay d <? delay) then
        Some (reportTo (recycle d m) report m (Some ErrDelayTooLong), DReturned (Some ErrDelayTooLong))
      else
        let '(d', err) := admitDelayed d (wd_now w) delay m in
        Some (reportTo d' report m err, match err with None => DNotify | Some _ => DReturned err end)
  | DNotify => Some (withNotify d true, DReturned None)
  | DFence err => Some (Fence d err, DReturned None)
  | LNext =>
      let '(d', next) := nextDelayedWait d (wd_now w) in
      Some (d', match next with
                | NextStopped => LClosing
                | NextEmpty => LIdle
                | NextAt due => LTimer due
                | NextDue dm => DSend true true (dm_msg dm)
                end)
  | LIdle =>
      match wd_case w with
      | CaseNotify => if d_notify d then Some (withNotify d false, LNext) else None
      | CaseTimer => None
      | CaseStop => if d_stopClosed d then Some (d, LClosing) else None
      end
  | LTimer due =>
      match wd_case w with
      | CaseNotify => if d_notify d then Some (withNotify d false, LNext) else None
      | CaseTimer => if due <=? wd_now w then Some (d, LNext) else None
      | CaseStop => if d_stopClosed d then Some (d, LClosing) else None
      end
  | LClosing => Some (withStop d (d_delayStop d) (d_stopClosed d) true (d_stopped d), LDone)
  | DDestroy =>
      Some (withStop (withQueue d ∅ []) false (d_stopClosed d) (d_doneClosed d) true,
            if d_delayStop d then DClose (d_delayed d) else DWait (d_delayed d))
  | DClose held => Some (withStop d (d_delayStop d) true (d_doneClosed d) (d_stopped d), DWait held)
  | DWait held =>
      if wd_expired w then Some (d, DAbandoned held)
      else if d_doneClosed d then Some (d, DRecycle held) else None
  | DRecycle held =>
      Some (withHistory d (d_sent d) (d_released d ++ (map_to_list held).*2) (d_answers d), DStopPools)
  | DStopPools => Some (d, DReturned (if wd_expired w then Some ErrContextDone else None))
  | DReturned _ | DAbandoned _ | LDone => None
  end.

(** ** Runs *)

Inductive dispatchEvent : Type :=
| DvCall (pc : dispatchPc)
| DvStep (n : nat) (w : world).

Definition dispatchStarts (pc : dispatchPc) : bool :=
  match pc with DSend false _ _ | DDelay _ _ _ | DDestroy | DFence _ => true | _ => false end.

Definition dispatchExec (st : Dispatcher * list dispatchPc) (e : dispatchEvent)
    : option (Dispatcher * list dispatchPc) :=
  let '(d, ts) := st in
  match e with
  | DvCall pc => if dispatchStarts pc then Some (d, ts ++ [pc]) else None
  | DvStep n w => pc ← ts !! n; '(d', pc') ← dispatchStep d pc w; Some (d', <[n := pc']> ts)
  end.

Fixpoint dispatchRun (st : Dispatcher * list dispatchPc) (es : list dispatchEvent)
    : option (Dispatcher * list dispatchPc) :=
  match es with
  | [] => Some st
  | e :: es => st' ← dispatchExec st e; dispatchRun st' es
  end.

(** The dispatcher after [OnInit], with the goroutine of the delay queue. *)
Definition dispatchInit (d : Dispatcher) : Dispatcher * list dispatchPc := (OnInit d, [LNext]).

(** ** The heap *)

(** A record without its position. *)
Definition core (x : delayedMsg) : delayedMsg := setIdx 0 x.

Definition delayedKey (x : delayedMsg) : Z := dm_due x * 2 ^ 64 + u64! (dm_seq x).

Lemma delayedLess_key a b : delayedLess a b = (delayedKey a <? delayedKey b).
Proof.
  unfold delayedLess, delayedKey.
  pose proof (wrapu_range 64 (dm_seq a) ltac:(lia)) as Ha. pose proof (wrapu_range 64 (dm_seq b) ltac:(lia)) as Hb.
  unfold in_u in *. destruct (Z.eqb_spec (dm_due a) (dm_due b)) as [E|E].
  - rewrite E. apply eq_true_iff_eq. rewrite !Z.ltb_lt. lia.
  - apply eq_true_iff_eq. rewrite !Z.ltb_lt. nia.
Qed.

#[export] Instance delayedMsgHeap_laws : HeapLaws delayedMsgHeap delayedMsg.
Proof.
  refine {| hview h := core <$> h; hkey _ x := delayedKey x |}.
  - intros h. cbn. by rewrite length_fmap.
  - intros h i j a b Ha Hb. cbn. unfold delayed_Less. rewrite list_lookup_fmap in Ha, Hb.
    destruct (h !! i) as [a'|], (h !! j) as [b'|]; try done. cbn in Ha, Hb. simplify_eq.
    rewrite delayedLess_key. done.
  - intros h i j a b Ha Hb. cbn. unfold delayed_Swap. rewrite list_lookup_fmap in Ha, Hb.
    destruct (h !! i) as [a'|], (h !! j) as [b'|]; try done. cbn in Ha, Hb. simplify_eq.
    by rewrite !list_fmap_insert.
  - done.
Defined.

Definition ordered (h : delayedMsgHeap) : Prop := heap_below (length h) (keyAt h).

Lemma keyAt_lookup (h : delayedMsgHeap) i x : h !! i = Some x -> keyAt h i = delayedKey x.
Proof. intros Hi. unfold keyAt. cbn. by rewrite list_lookup_fmap, Hi. Qed.

Lemma keyAt_ext (h h' : delayedMsgHeap) i : (core <$> h) !! i = (core <$> h') !! i -> keyAt h i = keyAt h' i.
Proof. intros E. unfold keyAt. cbn. by rewrite E. Qed.

Lemma ordered_min h x y : ordered (x :: h) -> y ∈ h -> delayedKey x <= delayedKey y.
Proof.
  intros Ho Hy. apply list_elem_of_lookup in Hy as [i Hi].
  pose proof (heap_min _ _ (S i) Ho) as Hm. rewrite (keyAt_lookup _ 0 x), (keyAt_lookup _ (S i) y) in Hm by done.
  apply Hm. cbn. apply lookup_lt_Some in Hi. lia.
Qed.

Lemma push_spec h x :
  ordered h -> let h' := heapPush (delayed_Push h x) in
  ordered h' /\ core <$> h' ≡ₚ (core <$> h) ++ [core x].
Proof.
  intros Ho. cbn zeta. set (h1 := delayed_Push h x).
  assert (Hl : hLen h1 = S (length h)) by (cbn; unfold h1, delayed_Push; rewrite length_app; cbn; lia).
  destruct (heapPush_ok h1) as [Hs Hb].
  - lia.
  - rewrite Hl. replace (S (length h) - 1)%nat with (length h) by lia. intros p c Hpc Hc.
    rewrite (keyAt_ext h1 h p), (keyAt_ext h1 h c); [by apply Ho|..]; unfold h1, delayed_Push;
      rewrite fmap_app, lookup_app_l; try done; rewrite length_fmap; unfold child in Hpc; lia.
  - pose proof (shuffled_Len _ _ _ Hs) as Hlen. split.
    + unfold ordered. cbn [hLen delayedMsgHeap_interface] in Hlen. rewrite Hlen. exact Hb.
    + pose proof (shuffled_perm _ _ _ Hs) as Hp. cbn [hview delayedMsgHeap_laws] in Hp. rewrite Hp. unfold h1, delayed_Push. by rewrite fmap_app.
Qed.

Lemma pop_spec x h :
  ordered (x :: h) ->
  exists dm, last (heapPop (x :: h)) = Some dm /\ core dm = core x
    /\ ordered (delayed_Pop (heapPop (x :: h)))
    /\ core <$> x :: h ≡ₚ core dm :: (core <$> delayed_Pop (heapPop (x :: h))).
Proof.
  intros Ho. destruct (decide (h = [])) as [->|Hne].
  { exists (setIdx 0 x). split; [done|]. split; [done|]. split; [|done]. intros p c _ Hc. cbn in Hc. lia. }
  set (h0 := (x :: h) : delayedMsgHeap).
  assert (Hr : shuffled (hLen h0) h0 (heapPop h0) /\ heap_below (hLen h0 - 1) (keyAt (heapPop h0))
    /\ hview (heapPop h0) !! (hLen h0 - 1)%nat = hview h0 !! 0%nat).
  { assert (1 < hLen h0)%nat by (cbn; destruct h; [done|cbn; lia]).
    rewrite heapPop_Remove by done. apply heapRemove_ok; [lia|done]. }
  destruct Hr as (Hs & Hb & Hl). pose proof (shuffled_Len _ _ _ Hs) as Hlen.
  pose proof (shuffled_perm _ _ _ Hs) as Hp. cbn [hview delayedMsgHeap_laws] in Hp, Hl.
  cbn [hLen delayedMsgHeap_interface] in Hlen, Hl, Hb. set (h' := heapPop h0) in *.
  replace (length h0 - 1)%nat with (length h) in * by (cbn; lia). rewrite !list_lookup_fmap in Hl.
  destruct (h' !! length h) as [dm|] eqn:Hd; [|done]. cbn [h0 lookup list_lookup fmap option_fmap option_map] in Hl.
  apply (inj Some) in Hl.
  assert (Hlen' : length h' = S (length h)) by (rewrite Hlen; done).
  assert (Happ : h' = delayed_Pop h' ++ [dm]).
  { unfold delayed_Pop. rewrite Hlen'. cbn [Nat.sub]. rewrite Nat.sub_0_r.
    transitivity (take (length h) h' ++ dm :: drop (S (length h)) h');
      [symmetry; by apply take_drop_middle|by rewrite drop_ge by lia]. }
  exists dm. split; [rewrite last_lookup; change (h' !! pred (length h') = Some dm); by rewrite Hlen'|]. split; [done|]. split.
  - unfold ordered. intros p c Hpc Hc.
    assert (Hlp : length (delayed_Pop h') = length h) by (unfold delayed_Pop; rewrite length_take; lia).
    rewrite (keyAt_ext _ h' p), (keyAt_ext _ h' c).
    + apply Hb; [done|]. lia.
    + unfold delayed_Pop. by rewrite !list_lookup_fmap, lookup_take_lt by lia.
    + unfold delayed_Pop. unfold child in Hpc. by rewrite !list_lookup_fmap, lookup_take_lt by lia.
  - rewrite <-Hp. rewrite Happ at 1. rewrite fmap_app. cbn. by rewrite Permutation_app_comm.
Qed.

(** ** Where every message is *)

(** The messages a goroutine holds. *)
Definition held_by (pc : dispatchPc) : list Msg :=
  match pc with
  | DSend _ _ m | DDispatch _ _ m | DDelay _ _ m => [m]
  | DClose held | DWait held | DRecycle held | DAbandoned held => (map_to_list held).*2
  | _ => []
  end.

(** The messages handed to a pool, recycled, or waiting for their time. *)
Definition stock d : list Msg := (d_sent d).*2 ++ d_released d ++ (map_to_list (d_delayed d)).*2.

(** The delay queue: the heap is ordered and holds exactly the recorded messages. *)
Record queue_ok d : Prop := {
  qo_link : (fun x => (dm_ptr x, dm_msg x)) <$> d_delayedHeap d ≡ₚ map_to_list (d_delayed d);
  qo_fresh : forall p, (d_allocated d <= p)%nat -> d_delayed d !! p = None;
  qo_order : ordered (d_delayedHeap d);
  qo_cap : 0 < d_DelayedMsgCap d -> Z.of_nat (size (d_delayed d)) <= d_DelayedMsgCap d;
  qo_stopped : d_stopped d = true -> d_delayed d = ∅ /\ d_delayedHeap d = [];
  qo_count : d_delaySeq d = u64! (Z.of_nat (d_allocated d));
  qo_seq : Forall (fun x => dm_seq x = u64! (Z.of_nat (dm_ptr x) + 1) /\ (dm_ptr x < d_allocated d)%nat) (d_delayedHeap d)
}.

Lemma seqs_core (P : Z -> nat -> Prop) (h : delayedMsgHeap) :
  Forall (fun x => P (dm_seq x) (dm_ptr x)) h <-> Forall (fun x => P (dm_seq x) (dm_ptr x)) (core <$> h).
Proof. rewrite Forall_fmap. done. Qed.

Lemma core_pairs (h : delayedMsgHeap) :
  (fun x => (dm_ptr x, dm_msg x)) <$> h = (fun x => (dm_ptr x, dm_msg x)) <$> (core <$> h).
Proof. rewrite <-list_fmap_compose. done. Qed.

Lemma enqueue_ok d now delay m :
  queue_ok d -> d_stopped d = false -> (0 < d_DelayedMsgCap d -> Z.of_nat (size (d_delayed d)) < d_DelayedMsgCap d) ->
  queue_ok (enqueueDelayed d now delay m)
  /\ stock (enqueueDelayed d now delay m) ≡ₚ stock d ++ [m].
Proof.
  intros [Hl Hf Ho Hc Hs Hn Hq] Hst Hroom.
  set (dm := mkDelayed (now + delay) (u64! (d_delaySeq d + 1)) m 0 (d_allocated d)).
  destruct (push_spec (d_delayedHeap d) dm Ho) as [Ho' Hp].
  assert (Hnew : d_delayed d !! d_allocated d = None) by (apply Hf; lia).
  assert (Hmap : map_to_list (<[d_allocated d := m]> (d_delayed d)) ≡ₚ (d_allocated d, m) :: map_to_list (d_delayed d))
    by (by apply map_to_list_insert).
  split.
  - split; unfold enqueueDelayed; cbn [d_delayedHeap d_delayed d_allocated d_DelayedMsgCap d_stopped]; fold dm.
    + rewrite core_pairs, Hp, fmap_app, Hmap, <-Hl, <-core_pairs. symmetry. apply Permutation_cons_append.
    + intros p Hp'. rewrite lookup_insert_ne by lia. apply Hf. lia.
    + exact Ho'.
    + intros Hcap. rewrite map_size_insert_None by done. specialize (Hroom Hcap). lia.
    + congruence.
    + cbn [d_delaySeq]. rewrite Hn. unfold wrapu. rewrite Zplus_mod_idemp_l. f_equal. lia.
    + apply (proj2 (seqs_core (fun q p => q = u64! (Z.of_nat p + 1) /\ (p < S (d_allocated d))%nat) _)). rewrite Hp.
      apply Forall_app. split; [apply (proj1 (seqs_core (fun q p => q = u64! (Z.of_nat p + 1) /\ (p < S (d_allocated d))%nat) _))|].
      * eapply Forall_impl; [exact Hq|]. cbn. intros x [? ?]. split; [done|lia].
      * apply Forall_singleton. cbn. split; [|lia]. rewrite Hn. unfold wrapu. by rewrite Zplus_mod_idemp_l.
  - unfold stock, enqueueDelayed. cbn [d_sent d_released d_delayed]. rewrite Hmap. cbn.
    rewrite <-!app_assoc. do 2 f_equiv. apply Permutation_cons_append.
Qed.

Lemma next_ok d now d' next :
  queue_ok d -> nextDelayedWait d now = (d', next) ->
  queue_ok d'
  /\ match next with
     | NextStopped => d' = d /\ d_stopped d = true
     | NextEmpty => d' = d /\ d_stopped d = false /\ d_delayedHeap d = []
     | NextAt due => d' = d /\ d_stopped d = false /\ now < due
         /\ exists x h, d_delayedHeap d = x :: h /\ dm_due x = due
     | NextDue dm => d' = withQueue d (d_delayed d') (d_delayedHeap d') /\ d_stopped d = false
         /\ dm_due dm <= now /\ stock d ≡ₚ stock d' ++ [dm_msg dm]
         /\ core <$> d_delayedHeap d ≡ₚ core dm :: (core <$> d_delayedHeap d')
         /\ forall x, x ∈ d_delayedHeap d' -> delayedKey dm <= delayedKey x
     end.
Proof.
  intros Hok Hn. unfold nextDelayedWait in Hn. destruct (d_stopped d) eqn:Hst; [by simplify_eq|].
  destruct (d_delayedHeap d) as [|x h] eqn:Hh; [by simplify_eq|].
  destruct (Z.ltb_spec now (dm_due x)) as [Hlt|Hge].
  { simplify_eq. split; [done|]. split; [done|]. split; [done|]. split; [done|]. by exists x, h. }
  pose proof (qo_order _ Hok) as Ho. rewrite Hh in Ho.
  destruct (pop_spec x h Ho) as (dm & Hlast & Hcore & Ho' & Hp). rewrite Hlast in Hn. injection Hn as <- <-.
  set (h' := delayed_Pop (heapPop (x :: h))) in *.
  assert (Hpm : (fun y => (dm_ptr y, dm_msg y)) <$> x :: h ≡ₚ
    (dm_ptr dm, dm_msg dm) :: ((fun y => (dm_ptr y, dm_msg y)) <$> h')) by (rewrite core_pairs, Hp, (core_pairs h'); done).
  destruct Hok as [Hl Hf _ Hc Hs Hnum Hq]. rewrite Hh, Hpm in Hl.
  assert (Hin : d_delayed d !! dm_ptr dm = Some (dm_msg dm)).
  { apply elem_of_map_to_list. rewrite <-Hl. by left. }
  assert (Hdel : map_to_list (d_delayed d) ≡ₚ (dm_ptr dm, dm_msg dm) :: map_to_list (delete (dm_ptr dm) (d_delayed d)))
    by (symmetry; by apply map_to_list_delete).
  assert (Hrest : (fun y => (dm_ptr y, dm_msg y)) <$> h' ≡ₚ map_to_list (delete (dm_ptr dm) (d_delayed d)))
    by (rewrite Hdel in Hl; by apply Permutation_cons_inv in Hl).
  assert (Hkey : delayedKey (setIdx (-1) dm) = delayedKey x)
    by (change (delayedKey (core dm) = delayedKey (core x)); by rewrite Hcore).
  assert (Hdue : dm_due dm = dm_due x) by (change (dm_due (core dm) = dm_due (core x)); by rewrite Hcore).
  split.
  - split; cbn [withQueue d_delayedHeap d_delayed d_allocated d_DelayedMsgCap d_stopped]; [done| |done| |congruence|done|].
    + intros p Hp'. rewrite lookup_delete_ne; [by apply Hf|]. intros <-. rewrite Hf in Hin by done. done.
    + intros Hcap. specialize (Hc Hcap). rewrite map_size_delete_Some by (by eexists). lia.
    + rewrite Hh in Hq. apply (proj1 (seqs_core (fun q p => q = u64! (Z.of_nat p + 1) /\ (p < d_allocated d)%nat) _)) in Hq.
      rewrite Hp in Hq. apply Forall_cons in Hq as [_ Hq].
      by apply (proj2 (seqs_core (fun q p => q = u64! (Z.of_nat p + 1) /\ (p < d_allocated d)%nat) _)) in Hq.
  - split; [done|]. split; [done|]. split; [cbn; lia|]. split; [|split].
    + unfold stock. cbn [withQueue d_sent d_released d_delayed setIdx dm_msg]. rewrite Hdel. cbn.
      rewrite <-!app_assoc. do 2 f_equiv. apply Permutation_cons_append.
    + exact Hp.
    + intros y Hy. cbn in Hy. assert (Hyc : core y ∈ core <$> x :: h)
        by (rewrite Hp; right; by apply list_elem_of_fmap_2).
      apply list_elem_of_fmap_1 in Hyc as (z & Hz & Hzin).
      assert (delayedKey y = delayedKey z) as ->
        by (change (delayedKey (core y) = delayedKey (core z)); by rewrite Hz).
      rewrite Hkey.
      apply elem_of_cons in Hzin as [->|Hzin]; [lia|]. by apply (ordered_min h).
Qed.

(** ** The goroutines *)

Definition is_loop (pc : dispatchPc) : bool :=
  match pc with
  | DSend loop _ _ | DDispatch loop _ _ => loop
  | LNext | LIdle | LTimer _ | LClosing | LDone => true
  | _ => false
  end.

(** The delay loop has seen, or will see, that it must end. *)
Definition loop_ends (pc : dispatchPc) : bool := match pc with LClosing | LDone => true | _ => false end.

Definition closes (pc : dispatchPc) : bool := match pc with DClose _ => true | _ => false end.
Definition notifies (pc : dispatchPc) : bool := match pc with DNotify => true | _ => false end.

(** Some goroutine is at a point of the given kind. *)
Definition someone (P : dispatchPc -> bool) (ts : list dispatchPc) : Prop :=
  exists n pc, ts !! n = Some pc /\ P pc = true.

(** What the delay loop sleeps over is what is first in the heap. *)
Definition sleeps_over (pc : dispatchPc) (h : delayedMsgHeap) : Prop :=
  match pc with
  | LIdle => h = []
  | LTimer due => h = [] \/ exists x h', h = x :: h' /\ dm_due x = due
  | _ => True
  end.

Record disp_ok d (ts : list dispatchPc) : Prop := {
  dk_queue : queue_ok d;
  dk_loop : exists pc, ts !! 0%nat = Some pc /\ is_loop pc = true
    /\ (d_doneClosed d = true <-> pc = LDone)
    /\ (loop_ends pc = true -> d_stopped d = true)
    /\ (d_notify d = false -> sleeps_over pc (d_delayedHeap d) \/ someone notifies ts);
  dk_one : forall n pc, ts !! n = Some pc -> is_loop pc = true -> n = 0%nat;
  dk_stop : d_delayStop d = negb (d_stopped d) /\ (d_stopClosed d = true -> d_stopped d = true)
    /\ (d_stopped d = true -> d_stopClosed d = true \/ someone closes ts)
    /\ (someone closes ts -> d_stopped d = true)
}.

Lemma bind_insert (f : dispatchPc -> list Msg) ts n pc pc' :
  ts !! n = Some pc ->
  exists rest, ts ≫= f ≡ₚ f pc ++ rest /\ <[n := pc']> ts ≫= f ≡ₚ f pc' ++ rest.
Proof.
  intros Hn. exists ((take n ts ≫= f) ++ (drop (S n) ts ≫= f)). split.
  - rewrite <-(take_drop_middle ts n pc Hn) at 1. rewrite bind_app, bind_cons.
    rewrite !app_assoc. f_equiv. apply Permutation_app_comm.
  - rewrite insert_take_drop by eauto using lookup_lt_Some. rewrite bind_app, bind_cons.
    rewrite !app_assoc. f_equiv. apply Permutation_app_comm.
Qed.

(** *** One step keeps every message *)

Lemma reportTo_stock d report m err : stock (reportTo d report m err) = stock d.
Proof. unfold reportTo. destruct err; [|done]. by destruct (report && ms_RetChan m). Qed.

Lemma recycle_stock d m : stock (recycle d m) ≡ₚ stock d ++ [m].
Proof.
  unfold stock, recycle. cbn. rewrite <-!app_assoc. do 2 f_equiv. cbn. apply Permutation_cons_append.
Qed.

Lemma dispatchTo_stock d m answer : stock (dispatchTo d m answer).1 ≡ₚ stock d ++ [m].
Proof.
  unfold dispatchTo. destruct (d_pools d); cbn; [|apply recycle_stock].
  destruct answer; cbn; [apply recycle_stock|]. unfold stock. cbn. rewrite fmap_app. cbn.
  rewrite <-!app_assoc. f_equiv. cbn. rewrite Permutation_cons_append, <-app_assoc. done.
Qed.

Lemma admit_room d :
  (0 <? d_DelayedMsgCap d) && (d_DelayedMsgCap d <=? Z.of_nat (size (d_delayed d))) = false ->
  0 < d_DelayedMsgCap d -> Z.of_nat (size (d_delayed d)) < d_DelayedMsgCap d.
Proof. bool_to_prop. lia. Qed.

Lemma admit_stock d now delay m :
  queue_ok d -> stock (admitDelayed d now delay m).1 ≡ₚ stock d ++ [m].
Proof.
  intros Hok. unfold admitDelayed, closedTo. destruct (d_fenceErr d); [apply recycle_stock|].
  destruct (d_stopped d) eqn:Hst; [apply recycle_stock|].
  destruct (_ && _) eqn:Hroom; [apply recycle_stock|]. by apply enqueue_ok, admit_room.
Qed.

Lemma dispatchStep_stock d pc w d' pc' :
  queue_ok d -> dispatchStep d pc w = Some (d', pc') ->
  stock d ++ held_by pc ≡ₚ stock d' ++ held_by pc'.
Proof.
  intros Hok Hstep.
  destruct pc as [loop rep m|loop rep m|rep delay m| |err| | |due| | | |held|held|held|held| |err]; cbn [dispatchStep] in Hstep; try done.
  - destruct (closedTo d) as [e|]; simplify_eq; [|done]. rewrite reportTo_stock, recycle_stock.
    destruct loop; cbn; by rewrite app_nil_r.
  - destruct (dispatchTo d m (wd_pool w)) as [d1 err] eqn:E. simplify_eq. rewrite reportTo_stock.
    pose proof (dispatchTo_stock d m (wd_pool w)) as Hs. rewrite E in Hs. cbn in Hs. rewrite Hs.
    destruct loop; cbn; by rewrite app_nil_r.
  - destruct (delay <=? 0); [by simplify_eq|]. destruct (_ && _).
    + simplify_eq. rewrite reportTo_stock, recycle_stock. cbn. by rewrite app_nil_r.
    + destruct (admitDelayed d (wd_now w) delay m) as [d1 err] eqn:E. simplify_eq. rewrite reportTo_stock.
      pose proof (admit_stock d (wd_now w) delay m Hok) as Hs. rewrite E in Hs. cbn in Hs. rewrite Hs.
      destruct err; cbn; by rewrite app_nil_r.
  - by simplify_eq.
  - destruct (nextDelayedWait d (wd_now w)) as [d1 next] eqn:E. simplify_eq.
    destruct (next_ok _ _ _ _ Hok E) as [_ Hnext]. destruct next; cbn; rewrite ?app_nil_r; try (by destruct Hnext as [-> _]).
    apply Hnext.
  - destruct (wd_case w); [destruct (d_notify d)|done|destruct (d_stopClosed d)]; by simplify_eq.
  - destruct (wd_case w); [destruct (d_notify d)|destruct (due <=? wd_now w)|destruct (d_stopClosed d)]; by simplify_eq.
  - by simplify_eq.
  - simplify_eq. unfold stock. cbn. rewrite map_to_list_empty. cbn. rewrite !app_nil_r, <-app_assoc.
    by destruct (d_delayStop d).
  - by simplify_eq.
  - destruct (wd_expired w); [by simplify_eq|]. destruct (d_doneClosed d); by simplify_eq.
  - simplify_eq. unfold stock. cbn. rewrite app_nil_r, <-!app_assoc. do 2 f_equiv. apply Permutation_app_comm.
  - by simplify_eq.
  - simplify_eq. unfold Fence. by destruct (d_fenceErr d).
Qed.

Lemma queue_flags d d' :
  queue_ok d -> d_delayed d' = d_delayed d -> d_delayedHeap d' = d_delayedHeap d -> d_allocated d' = d_allocated d ->
  d_DelayedMsgCap d' = d_DelayedMsgCap d -> d_stopped d' = d_stopped d -> d_delaySeq d' = d_delaySeq d -> queue_ok d'.
Proof. intros [? ? ? ? ? ? ?] E1 E2 E3 E4 E5 E6. split; rewrite ?E1, ?E2, ?E3, ?E4, ?E5, ?E6; done. Qed.

(** The fields that matter here, apart from the queue. *)
Definition flags d : bool * bool * bool * bool * bool :=
  (d_notify d, d_delayStop d, d_stopClosed d, d_doneClosed d, d_stopped d).

Definition quiet d d' : Prop :=
  flags d' = flags d /\ d_delayed d' = d_delayed d /\ d_delayedHeap d' = d_delayedHeap d
  /\ d_allocated d' = d_allocated d /\ d_DelayedMsgCap d' = d_DelayedMsgCap d /\ d_delaySeq d' = d_delaySeq d.

Lemma quiet_queue d d' : quiet d d' -> queue_ok d -> queue_ok d'.
Proof. intros (Hf & ? & ? & ? & ? & ?) Hok. injection Hf as _ _ _ _ ?. by apply (queue_flags d). Qed.

Lemma quiet_flags d d' :
  quiet d d' -> d_notify d' = d_notify d /\ d_delayStop d' = d_delayStop d /\ d_stopClosed d' = d_stopClosed d
    /\ d_doneClosed d' = d_doneClosed d /\ d_stopped d' = d_stopped d.
Proof. intros [Hf _]. by injection Hf. Qed.

Lemma quiet_report d report m err : quiet d (reportTo d report m err).
Proof. unfold reportTo. destruct err; [|done]. by destruct (report && ms_RetChan m). Qed.

Lemma quiet_trans a b c : quiet a b -> quiet b c -> quiet a c.
Proof. intros (? & ? & ? & ? & ? & ?) (? & ? & ? & ? & ? & ?). split_and!; congruence. Qed.

Lemma quiet_dispatchTo d m answer : quiet d (dispatchTo d m answer).1.
Proof. unfold dispatchTo. destruct (d_pools d); [|done]. by destruct answer. Qed.

(** What the calls that are not the delay loop can do. *)
Inductive call_effect d d' (pc pc' : dispatchPc) : Prop :=
| CallQuiet : quiet d d' -> closes pc = false -> notifies pc = false -> closes pc' = false -> call_effect d d' pc pc'
| CallQueued now delay m : closes pc = false -> notifies pc = false -> d_stopped d = false ->
    (0 < d_DelayedMsgCap d -> Z.of_nat (size (d_delayed d)) < d_DelayedMsgCap d) ->
    d' = enqueueDelayed d now delay m -> pc' = DNotify -> call_effect d d' pc pc'
| CallNotify : pc = DNotify -> d' = withNotify d true -> pc' = DReturned None -> call_effect d d' pc pc'
| CallDestroy : pc = DDestroy -> d' = withStop (withQueue d ∅ []) false (d_stopClosed d) (d_doneClosed d) true ->
    (closes pc' = d_delayStop d) -> call_effect d d' pc pc'
| CallClose : closes pc = true -> d' = withStop d (d_delayStop d) true (d_doneClosed d) (d_stopped d) ->
    closes pc' = false -> call_effect d d' pc pc'.

Lemma call_step d pc w d' pc' :
  dispatchStep d pc w = Some (d', pc') -> is_loop pc = false -> is_loop pc' = false /\ call_effect d d' pc pc'.
Proof.
  intros Hstep Hl.
  destruct pc as [loop rep m|loop rep m|rep delay m| |err| | |due| | | |held|held|held|held| |err];
    cbn [dispatchStep is_loop] in Hstep, Hl; try done; subst.
  - destruct (closedTo d) as [e|]; simplify_eq; (split; [done|]); apply CallQuiet; try done.
    eapply quiet_trans; [|apply quiet_report]. done.
  - destruct (dispatchTo d m (wd_pool w)) as [d1 err] eqn:E. simplify_eq. split; [done|]. apply CallQuiet; try done.
    eapply quiet_trans; [|apply quiet_report]. pose proof (quiet_dispatchTo d m (wd_pool w)) as H. by rewrite E in H.
  - destruct (delay <=? 0); [simplify_eq; split; [done|]; by apply CallQuiet|]. destruct (_ && _).
    + simplify_eq. split; [done|]. apply CallQuiet; try done. eapply quiet_trans; [|apply quiet_report]. done.
    + destruct (admitDelayed d (wd_now w) delay m) as [d1 err] eqn:E. simplify_eq.
      split; [by destruct err|]. unfold admitDelayed in E. destruct (closedTo d) as [e|] eqn:Hc.
      { simplify_eq. apply CallQuiet; try done. eapply quiet_trans; [|apply quiet_report]. done. }
      destruct (_ && _) eqn:Hroom; simplify_eq.
      { apply CallQuiet; try done. eapply quiet_trans; [|apply quiet_report]. done. }
      eapply CallQueued; try done; [|by apply admit_room]. unfold closedTo in Hc.
      destruct (d_fenceErr d); [done|]. by destruct (d_stopped d).
  - simplify_eq. split; [done|]. by apply CallNotify.
  - simplify_eq. split; [by destruct (d_delayStop d)|]. apply CallDestroy; try done. by destruct (d_delayStop d).
  - simplify_eq. split; [done|]. by apply CallClose.
  - destruct (wd_expired w); [|destruct (d_doneClosed d)]; simplify_eq; (split; [done|]; by apply CallQuiet).
  - simplify_eq. split; [done|]. by apply CallQuiet.
  - simplify_eq. split; [done|]. by apply CallQuiet.
  - simplify_eq. split; [done|]. apply CallQuiet; try done. unfold Fence. by destruct (d_fenceErr d).
Qed.

(** The goals about the end of the loop. *)
Ltac loop_frame Hdone :=
  split_and!; try done;
  try (let H := fresh in split; [intros H; apply Hdone in H; done | done]).

(** What a step of the delay loop can do. *)
Lemma loop_step d pc w d' pc' :
  queue_ok d -> dispatchStep d pc w = Some (d', pc') -> is_loop pc = true ->
  (d_stopClosed d = true -> d_stopped d = true) ->
  (loop_ends pc = true -> d_stopped d = true) -> (d_doneClosed d = true <-> pc = LDone) ->
  is_loop pc' = true /\ queue_ok d'
  /\ d_delayStop d' = d_delayStop d /\ d_stopClosed d' = d_stopClosed d /\ d_stopped d' = d_stopped d
  /\ (d_doneClosed d' = true <-> pc' = LDone) /\ (loop_ends pc' = true -> d_stopped d' = true)
  /\ sleeps_over pc' (d_delayedHeap d').
Proof.
  intros Hq Hstep Hl Hsc Hends Hdone.
  destruct pc as [loop rep m|loop rep m|rep delay m| |err| | |due| | | |held|held|held|held| |err];
    cbn [dispatchStep is_loop] in Hstep, Hl; try done; subst.
  - destruct (closedTo d) as [e|]; simplify_eq.
    + assert (Hqu : quiet d (reportTo (recycle d m) rep m (Some e)))
        by (eapply quiet_trans; [|apply quiet_report]; done).
      split; [done|]. split; [by eapply quiet_queue|]. destruct (quiet_flags _ _ Hqu) as (_ & -> & -> & -> & ->).
      loop_frame Hdone.
    + split; [done|]. split; [done|]. loop_frame Hdone.
  - destruct (dispatchTo d m (wd_pool w)) as [d1 err] eqn:E. simplify_eq.
    assert (Hqu : quiet d (reportTo d1 rep m err)).
    { eapply quiet_trans; [|apply quiet_report]. pose proof (quiet_dispatchTo d m (wd_pool w)) as H. by rewrite E in H. }
    split; [done|]. split; [by eapply quiet_queue|]. destruct (quiet_flags _ _ Hqu) as (_ & -> & -> & -> & ->).
    loop_frame Hdone.
  - destruct (nextDelayedWait d (wd_now w)) as [d1 next] eqn:E. simplify_eq.
    destruct (next_ok _ _ _ _ Hq E) as [Hq' Hnext]. split; [by destruct next|]. split; [done|].
    destruct next as [| |due|dm].
    + destruct Hnext as [-> Hst]. loop_frame Hdone.
    + destruct Hnext as (-> & Hst & Hh). loop_frame Hdone.
    + destruct Hnext as (-> & Hst & _ & Hx). loop_frame Hdone. by right.
    + destruct Hnext as (-> & _). cbn. loop_frame Hdone.
  - destruct (wd_case w); [destruct (d_notify d)|done|destruct (d_stopClosed d) eqn:Hs]; simplify_eq;
      (split; [done|]; split; [by eapply queue_flags; [exact Hq|..]|]; loop_frame Hdone; auto).
  - destruct (wd_case w); [destruct (d_notify d)|destruct (due <=? wd_now w)|destruct (d_stopClosed d) eqn:Hs]; simplify_eq;
      (split; [done|]; split; [by eapply queue_flags; [exact Hq|..]|]; loop_frame Hdone; auto).
  - simplify_eq. split; [done|]. split; [by eapply queue_flags; [exact Hq|..]|]. by split_and!.
Qed.

(** *** The invariant is kept *)

Lemma someone_insert P (ts : list dispatchPc) n pc pc' :
  ts !! n = Some pc -> someone P ts -> P pc = false \/ P pc' = true -> someone P (<[n := pc']> ts).
Proof.
  intros Hn (m & x & Hm & Hx) HP. destruct (decide (m = n)) as [->|Hne].
  - rewrite Hn in Hm. simplify_eq. destruct HP as [|HP]; [congruence|]. exists n, pc'.
    by rewrite list_lookup_insert_eq by eauto using lookup_lt_Some.
  - exists m, x. by rewrite list_lookup_insert_ne.
Qed.

Lemma someone_here P (ts : list dispatchPc) n pc pc' : ts !! n = Some pc -> P pc' = true -> someone P (<[n := pc']> ts).
Proof. intros Hn HP. exists n, pc'. by rewrite list_lookup_insert_eq by eauto using lookup_lt_Some. Qed.

Lemma someone_was P (ts : list dispatchPc) n pc pc' :
  ts !! n = Some pc -> someone P (<[n := pc']> ts) -> P pc' = false \/ P pc = true -> someone P ts.
Proof.
  intros Hn (m & x & Hm & Hx) HP. apply list_lookup_insert_Some in Hm as [(-> & <- & _)|[_ Hm]]; [|by exists m, x].
  destruct HP as [|HP]; [congruence|]. by exists m, pc.
Qed.

Lemma one_insert (ts : list dispatchPc) n pc pc' :
  (forall m x, ts !! m = Some x -> is_loop x = true -> m = 0%nat) -> ts !! n = Some pc -> is_loop pc' = is_loop pc ->
  forall m x, <[n := pc']> ts !! m = Some x -> is_loop x = true -> m = 0%nat.
Proof.
  intros H1 Hn Hl m x Hm Hx. apply list_lookup_insert_Some in Hm as [(-> & <- & _)|[_ Hm]]; [|by eapply H1].
  apply (H1 m pc); [done|congruence].
Qed.

Lemma call_ok_step d ts n pc pc' d' :
  disp_ok d ts -> ts !! n = Some pc -> is_loop pc = false -> is_loop pc' = false -> call_effect d d' pc pc' ->
  disp_ok d' (<[n := pc']> ts).
Proof.
  intros [Hq (pc0 & H0 & Hl0 & Hdone & Hends & Hsleep) Hone (Hs1 & Hs2 & Hs3 & Hs4)] Hn Hl Hl' He.
  assert (Hne : n <> 0%nat) by (intros ->; congruence).
  assert (H0' : <[n := pc']> ts !! 0%nat = Some pc0) by (by rewrite list_lookup_insert_ne).
  assert (Hone' := one_insert ts n pc pc' Hone Hn ltac:(congruence)).
  destruct He as [Hqu Hc Hno Hc'|now delay m Hc Hno Hst Hroom -> -> | -> -> -> | -> -> Hcl | Hc -> Hc'].
  - destruct (quiet_flags _ _ Hqu) as (En & Ed & Es & Edo & Est). pose proof Hqu as (_ & _ & Eh & _).
    split; [by eapply quiet_queue| |done|].
    + exists pc0. rewrite Edo, Est, En, Eh. split_and!; try done. intros Hf.
      destruct (Hsleep Hf) as [|Hsome]; [by left|right]. eapply someone_insert; [done|done|by left].
    + rewrite Ed, Es, Est. split_and!; try done.
      * intros Hst. destruct (Hs3 Hst) as [|Hsome]; [by left|right]. eapply someone_insert; [done|done|by left].
      * intros Hsome. apply Hs4. eapply someone_was; [done|done|by left].
  - destruct (enqueue_ok d now delay m Hq Hst Hroom) as [Hq' _]. split; [done| |done|].
    + exists pc0. split_and!; try done. intros _. right. by eapply someone_here.
    + split_and!; try done; cbn; [congruence|]. intros Hsome. apply Hs4. eapply someone_was; [done|done|by left].
  - split; [by eapply queue_flags; [exact Hq|..]| |done|].
    + exists pc0. by split_and!.
    + cbn. split_and!; try done.
      * intros Hst. destruct (Hs3 Hst) as [|Hsome]; [by left|right]. eapply someone_insert; [done|done|by left].
      * intros Hsome. apply Hs4. eapply someone_was; [done|done|by left].
  - split; [| |done|].
    + destruct Hq as [Hlk Hf Ho Hca Hst Hnum Hseq]. split; cbn.
      * by rewrite map_to_list_empty.
      * done.
      * intros p c _ Hlt. cbn in Hlt. lia.
      * rewrite map_size_empty. lia.
      * done.
      * done.
      * constructor.
    + exists pc0. split_and!; try done. cbn. intros _. left. destruct pc0; cbn; try done. by left.
    + cbn. split_and!; try done. intros _. destruct (d_stopped d) eqn:Hst.
      * destruct (Hs3 eq_refl) as [|Hsome]; [by left|right]. eapply someone_insert; [done|done|by left].
      * right. eapply someone_here; [done|]. by rewrite Hcl, Hs1.
  - assert (Hst : d_stopped d = true) by (apply Hs4; by exists n, pc).
    split; [by eapply queue_flags; [exact Hq|..]| |done|].
    + exists pc0. split_and!; try done. cbn. intros Hf. destruct (Hsleep Hf) as [|Hsome]; [by left|right].
      eapply someone_insert; [done|done|]. left. by destruct pc.
    + cbn. split_and!; try done. by left.
Qed.

Lemma loop_ok_step d ts n pc w pc' d' :
  disp_ok d ts -> ts !! n = Some pc -> is_loop pc = true -> dispatchStep d pc w = Some (d', pc') ->
  disp_ok d' (<[n := pc']> ts).
Proof.
  intros [Hq (pc0 & H0 & Hl0 & Hdone & Hends & Hsleep) Hone (Hs1 & Hs2 & Hs3 & Hs4)] Hn Hl Hstep.
  assert (n = 0%nat) as -> by (by eapply Hone). rewrite H0 in Hn. simplify_eq.
  destruct (loop_step d pc w d' pc' Hq Hstep Hl Hs2 Hends Hdone) as (Hl' & Hq' & Ed & Es & Est & Hdone' & Hends' & Hsl).
  assert (Hcl : closes pc = false /\ closes pc' = false) by (by destruct pc, pc').
  split; [done| | |].
  - exists pc'. rewrite list_lookup_insert_eq by eauto using lookup_lt_Some. split_and!; try done. by left.
  - eapply one_insert; [done|done|congruence].
  - rewrite Ed, Es, Est. split_and!; try done.
    + intros Hst. destruct (Hs3 Hst) as [|Hsome]; [by left|right]. eapply someone_insert; [done|done|left; apply Hcl].
    + intros Hsome. apply Hs4. eapply someone_was; [done|done|left; apply Hcl].
Qed.

Lemma dispatchExec_ok d ts e d' ts' :
  disp_ok d ts -> dispatchExec (d, ts) e = Some (d', ts') -> disp_ok d' ts'.
Proof.
  intros Hok He. destruct e as [pc|n w]; cbn [dispatchExec] in He.
  - destruct (dispatchStarts pc) eqn:Hst; [|done]. simplify_eq.
    assert (Hno : is_loop pc = false /\ closes pc = false) by (destruct pc as [[]| | | | | | | | | | | | | | | |]; done).
    destruct Hok as [Hq (pc0 & H0 & Hl0 & Hdone & Hends & Hsleep) Hone (Hs1 & Hs2 & Hs3 & Hs4)].
    assert (Happ : forall P, someone P ts -> someone P (ts ++ [pc])).
    { intros P (m & x & Hm & Hx). exists m, x. split; [by apply lookup_app_l_Some|done]. }
    split; [done| | |].
    + exists pc0. split; [by apply lookup_app_l_Some|]. split_and!; try done.
      intros Hf. destruct (Hsleep Hf); [by left|right; by apply Happ].
    + intros m x [Hm|[_ Hm]]%lookup_app_Some Hx; [by eapply Hone|].
      apply list_lookup_singleton_Some in Hm as [_ <-]. destruct Hno. congruence.
    + split_and!; try done; [intros Hst'; destruct (Hs3 Hst'); [by left|right; by apply Happ]|].
      intros (m & x & [Hm|[_ Hm]]%lookup_app_Some & Hx); [apply Hs4; by exists m, x|].
      apply list_lookup_singleton_Some in Hm as [_ <-]. destruct Hno. congruence.
  - destruct (ts !! n) as [pc|] eqn:Hn; [|done]. cbn [mbind option_bind] in He.
    destruct (dispatchStep d pc w) as [[d1 pc']|] eqn:Hstep; [|done]. cbn in He. simplify_eq.
    destruct (is_loop pc) eqn:Hl; [by eapply loop_ok_step|].
    destruct (call_step _ _ _ _ _ Hstep Hl) as [Hl' He]. by eapply call_ok_step.
Qed.

(** ** The dispatcher, from its initialisation *)

(** The messages handed over by the calls of a run. *)
Definition handed (es : list dispatchEvent) : list Msg :=
  es ≫= fun e => match e with DvCall pc => held_by pc | DvStep _ _ => [] end.

Lemma dispatchInit_ok d : d_delaySeq d = u64! (Z.of_nat (d_allocated d)) -> disp_ok (OnInit d) [LNext].
Proof.
  intros Hseq. split.
  - split; cbn.
    + by rewrite map_to_list_empty.
    + done.
    + intros p c _ Hlt. cbn in Hlt. lia.
    + rewrite map_size_empty. lia.
    + done.
    + done.
    + constructor.
  - exists LNext. split_and!; try done. intros _. by left.
  - intros n pc Hn _. by apply list_lookup_singleton_Some in Hn as [-> _].
  - split_and!; try done. intros (n & pc & Hn & Hc). by apply list_lookup_singleton_Some in Hn as [_ <-].
Qed.

Lemma dispatchExec_kept d ts e d' ts' ms :
  disp_ok d ts -> ms ≡ₚ stock d ++ (ts ≫= held_by) -> dispatchExec (d, ts) e = Some (d', ts') ->
  ms ++ handed [e] ≡ₚ stock d' ++ (ts' ≫= held_by).
Proof.
  intros Hok Hms He. destruct e as [pc|n w]; cbn [dispatchExec] in He.
  - destruct (dispatchStarts pc); [|done]. simplify_eq. rewrite Hms, bind_app, <-app_assoc. done.
  - destruct (ts !! n) as [pc|] eqn:Hn; [|done]. cbn [mbind option_bind] in He.
    destruct (dispatchStep d pc w) as [[d1 pc']|] eqn:Hstep; [|done]. cbn in He. simplify_eq.
    unfold handed. cbn. rewrite app_nil_r, Hms. destruct (bind_insert held_by ts n pc pc' Hn) as (rest & -> & ->).
    rewrite !app_assoc. f_equiv. by eapply dispatchStep_stock; [apply Hok|].
Qed.

Lemma dispatchRun_inv es d ts d' ts' ms :
  disp_ok d ts -> ms ≡ₚ stock d ++ (ts ≫= held_by) -> dispatchRun (d, ts) es = Some (d', ts') ->
  disp_ok d' ts' /\ ms ++ handed es ≡ₚ stock d' ++ (ts' ≫= held_by).
Proof.
  revert d ts ms. induction es as [|e es IH]; intros d ts ms Hok Hms Hrun; cbn [dispatchRun] in Hrun.
  - simplify_eq. split; [done|]. unfold handed. cbn. by rewrite app_nil_r.
  - destruct (dispatchExec (d, ts) e) as [[d1 ts1]|] eqn:He; [|done]. cbn in Hrun.
    destruct (IH d1 ts1 (ms ++ handed [e])) as [Hok' Hms']; [by eapply dispatchExec_ok|by eapply dispatchExec_kept|done|].
    split; [done|]. rewrite <-Hms', <-app_assoc. f_equiv. unfold handed. cbn. by rewrite app_nil_r.
Qed.

(** Every step queues at most one message. *)
Lemma dispatchExec_allocates d ts e d' ts' :
  disp_ok d ts -> dispatchExec (d, ts) e = Some (d', ts') -> (d_allocated d' <= S (d_allocated d))%nat.
Proof.
  intros Hok He. destruct e as [pc|n w]; cbn [dispatchExec] in He.
  { destruct (dispatchStarts pc); [|done]. simplify_eq. lia. }
  destruct (ts !! n) as [pc|] eqn:Hn; [|done]. cbn [mbind option_bind] in He.
  destruct (dispatchStep d pc w) as [[d1 pc']|] eqn:Hstep; [|done]. cbn in He. simplify_eq.
  destruct (is_loop pc) eqn:Hl.
  - destruct pc as [loop rep m|loop rep m|rep delay m| |err| | |due| | | |held|held|held|held| |err];
      cbn [dispatchStep is_loop] in Hstep, Hl; try done; subst.
    + destruct (closedTo d); simplify_eq; [|lia]. pose proof (quiet_report (recycle d m) rep m (Some d0)) as (_ & _ & _ & -> & _).
      cbn. lia.
    + pose proof (quiet_dispatchTo d m (wd_pool w)) as (_ & _ & _ & Ha & _).
      destruct (dispatchTo d m (wd_pool w)) as [d1 err]. simplify_eq.
      pose proof (quiet_report d1 rep m err) as (_ & _ & _ & -> & _). cbn in Ha. lia.
    + destruct (nextDelayedWait d (wd_now w)) as [d1 next] eqn:E. simplify_eq.
      destruct (next_ok _ _ _ _ (dk_queue _ _ Hok) E) as [_ Hnext].
      destruct next; destruct Hnext as [-> _]; cbn; lia.
    + destruct (wd_case w); [destruct (d_notify d)|done|destruct (d_stopClosed d)]; simplify_eq; cbn; lia.
    + destruct (wd_case w); [destruct (d_notify d)|destruct (due <=? wd_now w)|destruct (d_stopClosed d)]; simplify_eq; cbn; lia.
    + simplify_eq. cbn. lia.
  - destruct (call_step _ _ _ _ _ Hstep Hl) as [_ Heff].
    destruct Heff as [(_ & _ & _ & -> & _) _ _ _|now delay m _ _ _ _ -> _|_ -> _|_ -> _|_ -> _]; cbn; lia.
Qed.

Lemma dispatchRun_allocates es d ts d' ts' :
  disp_ok d ts -> dispatchRun (d, ts) es = Some (d', ts') -> (d_allocated d' <= d_allocated d + length es)%nat.
Proof.
  revert d ts. induction es as [|e es IH]; intros d ts Hok Hrun; cbn [dispatchRun] in Hrun; [simplify_eq; cbn; lia|].
  destruct (dispatchExec (d, ts) e) as [[d1 ts1]|] eqn:He; [|done]. cbn in Hrun.
  pose proof (dispatchExec_allocates _ _ _ _ _ Hok He).
  specialize (IH d1 ts1 (dispatchExec_ok _ _ _ _ _ Hok He) Hrun). cbn. lia.
Qed.

(** Records have different numbers. *)
Lemma queue_ptrs d : queue_ok d -> NoDup (dm_ptr <$> d_delayedHeap d).
Proof.
  intros Hq. assert (E : dm_ptr <$> d_delayedHeap d = ((fun x => (dm_ptr x, dm_msg x)) <$> d_delayedHeap d).*1)
    by (by rewrite <-list_fmap_compose). rewrite E, (qo_link _ Hq). apply NoDup_fst_map_to_list.
Qed.

(** The order of the keys is the order of the times and of the arrivals. *)
Lemma key_arrival a b n :
  Z.of_nat n < 2 ^ 64 -> delayedKey a <= delayedKey b -> dm_ptr a <> dm_ptr b ->
  dm_seq a = u64! (Z.of_nat (dm_ptr a) + 1) /\ (dm_ptr a < n)%nat ->
  dm_seq b = u64! (Z.of_nat (dm_ptr b) + 1) /\ (dm_ptr b < n)%nat ->
  dm_due a < dm_due b \/ (dm_due a = dm_due b /\ (dm_ptr a < dm_ptr b)%nat).
Proof.
  intros Hn Hk Hne [Ha Hla] [Hb Hlb]. unfold delayedKey in Hk.
  assert (Hsmall : forall p, (p < n)%nat -> u64! (Z.of_nat p + 1) = Z.of_nat p + 1)
    by (intros p Hp; apply wrapu_small; unfold in_u; lia).
  rewrite Hsmall in Ha, Hb by done. rewrite Ha, Hb in Hk. rewrite !wrapu_small in Hk by (unfold in_u; lia). nia.
Qed.

Definition configured (workerNum hbWorkerNum msgCap capacity maxDelay : Z) : Dispatcher :=
  ConfigureDelayedAdmission (NewDispatcher workerNum hbWorkerNum msgCap) capacity maxDelay.

(** The dispatcher never loses or duplicates a message: whatever the
    interleaving of sends, delayed sends, the delay loop, fencing and stopping,
    every message handed over is in exactly one place: accepted by a pool,
    recycled, in the delay queue, or held by one goroutine. *)
Theorem Dispatcher_keeps_messages workerNum hbWorkerNum msgCap capacity maxDelay es d ts :
  dispatchRun (dispatchInit (configured workerNum hbWorkerNum msgCap capacity maxDelay)) es = Some (d, ts) ->
  handed es ≡ₚ (d_sent d).*2 ++ d_released d ++ (map_to_list (d_delayed d)).*2 ++ (ts ≫= held_by).
Proof.
  intros Hrun. set (d0 := configured workerNum hbWorkerNum msgCap capacity maxDelay) in *.
  destruct (dispatchRun_inv es _ _ d ts [] (dispatchInit_ok d0 eq_refl)) as [_ H]; [|done|].
  - unfold stock. cbn. by rewrite map_to_list_empty.
  - cbn [app] in H. rewrite H. unfold stock. by rewrite <-!app_assoc.
Qed.

(** C25. Delayed messages wait as long as they must and no longer.  At every
    moment of a run the delay queue is within its capacity; the delay loop takes
    a message only once it is due, and takes the first one by due time and, for
    equal times, the one that was queued first; while the loop sleeps and nobody is about
    to wake it, the queue is empty or the loop's timer is set for the first
    message; and once the dispatcher was stopped, a sleeping loop can end. *)
Theorem Dispatcher_delay_queue workerNum hbWorkerNum msgCap capacity maxDelay es d ts :
  dispatchRun (dispatchInit (configured workerNum hbWorkerNum msgCap capacity maxDelay)) es = Some (d, ts) ->
  len es < 2 ^ 64 ->
  (0 < d_DelayedMsgCap d -> Z.of_nat (size (d_delayed d)) <= d_DelayedMsgCap d)
  /\ (forall now d' dm, nextDelayedWait d now = (d', NextDue dm) ->
        dm_due dm <= now /\ forall x, x ∈ d_delayedHeap d' ->
          dm_due dm < dm_due x \/ (dm_due dm = dm_due x /\ (dm_ptr dm < dm_ptr x)%nat))
  /\ (d_notify d = false -> (forall n, ts !! n <> Some DNotify) ->
        (ts !! 0%nat = Some LIdle -> d_delayed d = ∅)
        /\ (forall due, ts !! 0%nat = Some (LTimer due) ->
              d_delayed d = ∅ \/ exists x h, d_delayedHeap d = x :: h /\ dm_due x = due
                /\ forall y, y ∈ h -> due <= dm_due y))
  /\ (d_stopped d = true -> (forall n held, ts !! n <> Some (DClose held)) ->
        forall pc w, ts !! 0%nat = Some pc -> pc = LIdle \/ (exists due, pc = LTimer due) -> wd_case w = CaseStop ->
          dispatchStep d pc w = Some (d, LClosing)).
Proof.
  intros Hrun Hlen. set (d0 := configured workerNum hbWorkerNum msgCap capacity maxDelay) in *.
  destruct (dispatchRun_inv es _ _ d ts [] (dispatchInit_ok d0 eq_refl)) as [[Hq Hl Hone Hstop] _]; [|done|].
  { unfold stock. cbn. by rewrite map_to_list_empty. }
  pose proof (dispatchRun_allocates es _ _ d ts (dispatchInit_ok d0 eq_refl) Hrun) as Hall.
  assert (Hkey : forall a b, delayedKey a <= delayedKey b ->
    dm_due a <= dm_due b).
  { intros a b Hab. unfold delayedKey in Hab.
    pose proof (wrapu_range 64 (dm_seq a) ltac:(lia)). pose proof (wrapu_range 64 (dm_seq b) ltac:(lia)).
    unfold in_u in *. nia. }
  assert (Hempty : d_delayedHeap d = [] -> d_delayed d = ∅).
  { intros Hh. pose proof (qo_link _ Hq) as Hp. rewrite Hh in Hp. cbn in Hp.
    apply map_to_list_empty_iff. symmetry. by apply Permutation_nil_l. }
  split; [apply Hq|]. split; [|split].
  - intros now d' dm Hn. destruct (next_ok _ _ _ _ Hq Hn) as [Hq' (_ & _ & Hdue & _ & Hperm & Hmin)].
    split; [done|]. intros x Hx.
    pose proof (queue_ptrs _ Hq) as Hnd. pose proof (qo_seq _ Hq) as Hs.
    assert (E : forall h : delayedMsgHeap, dm_ptr <$> h = dm_ptr <$> (core <$> h)) by (intros; by rewrite <-list_fmap_compose).
    rewrite E, Hperm in Hnd. cbn in Hnd. apply NoDup_cons in Hnd as [Hnew _]. rewrite <-E in Hnew.
    apply (proj1 (seqs_core (fun q p => q = u64! (Z.of_nat p + 1) /\ (p < d_allocated d)%nat) _)) in Hs. rewrite Hperm in Hs.
    apply Forall_cons in Hs as [Hs1 Hs2]. rewrite Forall_forall in Hs2.
    specialize (Hs2 (core x) ltac:(by apply list_elem_of_fmap_2)).
    apply (key_arrival dm x (d_allocated d)); [|by apply Hmin| |exact Hs1|exact Hs2].
    + unfold len in Hlen. cbn in Hall. lia.
    + intros Ep. apply Hnew. cbn. rewrite Ep. by apply list_elem_of_fmap_2.
  - intros Hno Hnob. destruct Hl as (pc & H0 & _ & _ & _ & Hsleep).
    destruct (Hsleep Hno) as [Hs|(n & x & Hn & Hx)]; [|destruct x; try done; by destruct (Hnob n)].
    split; [intros E|intros due E]; rewrite E in H0; simplify_eq; cbn in Hs; [by apply Hempty|].
    destruct Hs as [Hs|(x & h & Hh & Hx)]; [left; by apply Hempty|right]. exists x, h. split; [done|]. split; [done|].
    intros y Hy. pose proof (qo_order _ Hq) as Ho. rewrite Hh in Ho.
    pose proof (Hkey _ _ (ordered_min h x y Ho Hy)). lia.
  - intros Hst Hnoc pc w H0 Hpc Hw. destruct Hstop as (_ & _ & Hs & _).
    destruct (Hs Hst) as [Hcl|(n & x & Hn & Hx)]; [|destruct x; try done; by destruct (Hnoc n held)].
    destruct Hpc as [->|[due ->]]; cbn; rewrite Hw, Hcl; done.
Qed.

(** ** Stopping under a deadline *)

Definition sampleMsg : Msg := mkMsg 7 [] [] MsgTypeSingle false false false.
Definition at_time (now : Z) (c : selectCase) (expired : bool) : world := mkWorld now None c expired.

Definition sampleDispatcher : Dispatcher := configured 2 0 0 0 0.

(** A message is delayed; the dispatcher is stopped and the context ends before
    the delay loop does; it is stopped again, with time. *)
Definition hastyStop : list dispatchEvent :=
  [DvCall (DDelay false 100 sampleMsg); DvStep 1 (at_time 5 CaseNotify false); DvCall DDestroy;
   DvStep 2 (at_time 6 CaseStop false); DvStep 2 (at_time 6 CaseStop false); DvStep 2 (at_time 6 CaseStop true);
   DvStep 0 (at_time 7 CaseStop false); DvStep 0 (at_time 7 CaseStop false);
   DvCall DDestroy; DvStep 3 (at_time 8 CaseStop false); DvStep 3 (at_time 8 CaseStop false);
   DvStep 3 (at_time 8 CaseStop false); DvStep 3 (at_time 8 CaseStop false)].

(** The delayed messages are taken out of the dispatcher before the wait for the
    delay loop: when the context ends first they are recycled neither then nor by
    a later stop. *)
Theorem hasty_stop_loses_delayed :
  match dispatchRun (dispatchInit sampleDispatcher) hastyStop with
  | Some (d, ts) => d_sent d = [] /\ d_released d = [] /\ d_delayed d = ∅
      /\ ts !! 3%nat = Some (DReturned None) /\ ts !! 2%nat = Some (DAbandoned {[0%nat := sampleMsg]})
  | None => False
  end.
Proof. vm_compute. done. Qed.

(** ** Examples *)

(** A delayed message is sent when its time has come; a second one is queued. *)
Definition sampleRun : list dispatchEvent :=
  [DvStep 0 (at_time 0 CaseNotify false); DvCall (DDelay true 100 sampleMsg); DvStep 1 (at_time 5 CaseNotify false);
   DvStep 1 (at_time 5 CaseNotify false); DvStep 0 (at_time 6 CaseNotify false); DvStep 0 (at_time 6 CaseNotify false);
   DvStep 0 (at_time 105 CaseTimer false); DvStep 0 (at_time 105 CaseTimer false); DvStep 0 (at_time 105 CaseTimer false);
   DvStep 0 (at_time 105 CaseTimer false); DvCall (DDelay true 50 sampleMsg); DvStep 2 (at_time 110 CaseNotify false)].

Definition sampleEnd := default (dispatchInit sampleDispatcher) (dispatchRun (dispatchInit sampleDispatcher) sampleRun).

Lemma sampleRun_runs : dispatchRun (dispatchInit sampleDispatcher) sampleRun = Some (sampleEnd.1, sampleEnd.2).
Proof. vm_compute. reflexivity. Qed.

Lemma Dispatcher_keeps_messages_witness :
  handed sampleRun ≡ₚ (d_sent sampleEnd.1).*2 ++ d_released sampleEnd.1 ++ (map_to_list (d_delayed sampleEnd.1)).*2
    ++ (sampleEnd.2 ≫= held_by).
Proof. exact (Dispatcher_keeps_messages 2 0 0 0 0 sampleRun sampleEnd.1 sampleEnd.2 sampleRun_runs). Defined.

(** Two messages for the same moment: the one queued first is taken first. *)
Definition twoDelayed : list dispatchEvent :=
  [DvCall (DDelay true 100 sampleMsg); DvStep 1 (at_time 5 CaseNotify false); DvCall (DDelay true 95 sampleMsg);
   DvStep 2 (at_time 10 CaseNotify false)].

Definition twoEnd := default (dispatchInit sampleDispatcher) (dispatchRun (dispatchInit sampleDispatcher) twoDelayed).

Lemma Dispatcher_delay_queue_witness :
  match nextDelayedWait twoEnd.1 105 with
  | (d', NextDue dm) => (dm_due dm, dm_ptr dm) = (105, 0%nat) /\ dm_ptr <$> d_delayedHeap d' = [1%nat]
      /\ forall x, x ∈ d_delayedHeap d' -> dm_due dm < dm_due x \/ (dm_due dm = dm_due x /\ (dm_ptr dm < dm_ptr x)%nat)
  | _ => False
  end.
Proof.
  assert (Hrun : dispatchRun (dispatchInit (configured 2 0 0 0 0)) twoDelayed = Some (twoEnd.1, twoEnd.2))
    by (vm_compute; reflexivity).
  pose proof (proj1 (proj2 (Dispatcher_delay_queue 2 0 0 0 0 twoDelayed twoEnd.1 twoEnd.2 Hrun ltac:(vm_compute; reflexivity)))) as H.
  specialize (H 105 (nextDelayedWait twoEnd.1 105).1).
  destruct (nextDelayedWait twoEnd.1 105) as [d' next] eqn:E. destruct next as [| |due|dm]; try (vm_compute in E; discriminate E).
  pose proof (H dm eq_refl) as [_ Ha]. vm_compute in E. injection E as <- <-. split; [reflexivity|]. split; [reflexivity|].
  exact Ha.
Defined.

Example sampleRun_sent :
  (d_sent sampleEnd.1, size (d_delayed sampleEnd.1), sampleEnd.2 !! 0%nat) = ([(MainPool, sampleMsg)], 1%nat, Some LNext).
Proof. vm_compute. reflexivity. Qed.
