(* ===== verification/RefHMap.v ===== *)
(** * Structs as linked Redis hashes

    Models [src/cache/ref_hmap.go]: a store that keeps a nested Go struct as one
    Redis hash per struct, the fields of which are scalars in text form and
    references to the hashes of nested structs; and [PatchStructPath], which sets
    one field of a struct in memory.

    Go types are descriptions: [structs] gives the fields of a struct type by its
    name, so that types may be recursive.  Values of Go are trees.  Redis is a map
    of hashes; commands may fail, and what they then leave behind is an argument.
    Expiry of keys is not modelled.  Text is ASCII.  Outside this file's code are:
    the zero value of a type ([zero], as [reflect.New] makes it), floating-point
    text, types with their own text form, and conversions of [reflect]. *)

From stdpp Require Import base list gmap strings.
From Stdlib Require Import ZArith Lia Ascii.
From Stdlib Require DecimalString DecimalZ.
From S2P Require Import Prelude ClockCache.

#[local] Open Scope Z_scope.

(** ** Go types and values *)

Inductive scalarKind : Type :=
| KString
| KBool
| KInt (bits : Z)
| KUint (bits : Z)
| KFloat (bits : Z)
| KBytes
| KText (type : string).

Inductive goType : Type :=
| TScalar (k : scalarKind)
| TPointer (t : goType)
| TStruct (name : string)
| TOther.

Record structField := mkStructField {
  sf_Name : string;
  sf_exported : bool;
  sf_redisdao : string;
  sf_json : string;
  sf_Type : goType
}.

(** [F]: floating-point numbers; [X]: values with their own text form. *)
Inductive goValue (F X : Type) : Type :=
| VString (s : string)
| VBool (b : bool)
| VInt (n : Z)
| VUint (n : Z)
| VFloat (f : F)
| VBytes (s : string)
| VText (x : X)
| VNil
| VRef (v : goValue F X)
| VStruct (fields : list (goValue F X)).
Arguments VString {F X}.
Arguments VBool {F X}.
Arguments VInt {F X}.
Arguments VUint {F X}.
Arguments VFloat {F X}.
Arguments VBytes {F X}.
Arguments VText {F X}.
Arguments VNil {F X}.
Arguments VRef {F X}.
Arguments VStruct {F X}.

Inductive refError (E : Type) : Type :=
| RefStore (e : cacheError E)
| RefCycle
| RefMaxDepth
| RefUnsupported
| RefParse
| RefRedis
| RefPanic.
Arguments RefStore {E}.
Arguments RefCycle {E}.
Arguments RefMaxDepth {E}.
Arguments RefUnsupported {E}.
Arguments RefParse {E}.
Arguments RefRedis {E}.
Arguments RefPanic {E}.

(** ** Text *)

Definition isUpper (c : ascii) : bool := (65 <=? Z.of_nat (nat_of_ascii c)) && (Z.of_nat (nat_of_ascii c) <=? 90).
Definition toLower (c : ascii) : ascii := ascii_of_nat (nat_of_ascii c + 32).
Definition isSpace (c : ascii) : bool :=
  (Z.of_nat (nat_of_ascii c) =? 32) || ((9 <=? Z.of_nat (nat_of_ascii c)) && (Z.of_nat (nat_of_ascii c) <=? 13)).

Fixpoint refHMapSnakeFrom (first : bool) (s : string) : string :=
  match s with
  | EmptyString => EmptyString
  | String c s =>
      if isUpper c then
        if first then String (toLower c) (refHMapSnakeFrom false s)
        else String "_" (String (toLower c) (refHMapSnakeFrom false s))
      else String c (refHMapSnakeFrom false s)
  end.

Definition refHMapSnake : string -> string := refHMapSnakeFrom true.

Fixpoint split (sep : ascii) (s : string) : list string :=
  match s with
  | EmptyString => [EmptyString]
  | String c s =>
      if Ascii.eqb c sep then EmptyString :: split sep s
      else match split sep s with
           | part :: parts => String c part :: parts
           | [] => [String c EmptyString]
           end
  end.

Fixpoint join (sep : string) (parts : list string) : string :=
  match parts with
  | [] => EmptyString
  | [part] => part
  | part :: parts => part +:+ sep +:+ join sep parts
  end.

Fixpoint trimLeft (cut : ascii -> bool) (s : string) : string :=
  match s with
  | String c s' => if cut c then trimLeft cut s' else s
  | EmptyString => s
  end.

Fixpoint trimRight (cut : ascii -> bool) (s : string) : string :=
  match s with
  | EmptyString => s
  | String c s' =>
      match trimRight cut s' with
      | EmptyString => if cut c then EmptyString else String c EmptyString
      | rest => String c rest
      end
  end.

Definition trimSpace (s : string) : string := trimRight isSpace (trimLeft isSpace s).

(** [strconv.FormatInt] and [FormatUint] in base ten. *)
Definition formatInt (n : Z) : string := DecimalString.NilZero.string_of_int (Z.to_int n).

(** [strconv.ParseInt] and [ParseUint]: a sign is not accepted by the latter. *)
Definition parseInt (bits : Z) (raw : string) : option Z :=
  let digits := match raw with String "+" rest => rest | _ => raw end in
  match DecimalString.NilZero.int_of_string digits with
  | Some d =>
      let n := Z.of_int d in
      if (- 2 ^ (bits - 1) <=? n) && (n <? 2 ^ (bits - 1)) then Some n else None
  | None => None
  end.

Definition parseUint (bits : Z) (raw : string) : option Z :=
  match DecimalString.NilZero.uint_of_string raw with
  | Some d => let n := Z.of_uint d in if n <? 2 ^ bits then Some n else None
  | None => None
  end.

Definition formatBool (b : bool) : string := if b then "true" else "false".

Definition parseBool (raw : string) : option bool :=
  if bool_decide (raw ∈ ["1"; "t"; "T"; "TRUE"; "true"; "True"]) then Some true
  else if bool_decide (raw ∈ ["0"; "f"; "F"; "FALSE"; "false"; "False"]) then Some false
  else None.

(** ** Plans *)

Inductive refHMapNode : Type :=
| mkNode (typ key : string) (fields : list refHMapField)
with refHMapField : Type :=
| mkField (index : nat) (goName name : string) (ptr : bool) (kind : refHMapFieldKind)
with refHMapFieldKind : Type :=
| refHMapScalarField (scalar : scalarKind) (fieldTyp : goType)
| refHMapStructField (child : refHMapNode).

Definition nd_typ (n : refHMapNode) : string := match n with mkNode typ _ _ => typ end.
Definition nd_key (n : refHMapNode) : string := match n with mkNode _ key _ => key end.
Definition nd_fields (n : refHMapNode) : list refHMapField := match n with mkNode _ _ fields => fields end.
Definition rf_index (f : refHMapField) : nat := match f with mkField i _ _ _ _ => i end.
Definition rf_goName (f : refHMapField) : string := match f with mkField _ g _ _ _ => g end.
Definition rf_name (f : refHMapField) : string := match f with mkField _ _ n _ _ => n end.
Definition rf_ptr (f : refHMapField) : bool := match f with mkField _ _ _ p _ => p end.
Definition rf_kind (f : refHMapField) : refHMapFieldKind := match f with mkField _ _ _ _ k => k end.

Fixpoint collectKeys (n : refHMapNode) : list string :=
  match n with
  | mkNode _ key fields =>
      key :: (fix go fs := match fs with
              | [] => []
              | mkField _ _ _ _ (refHMapStructField child) :: fs => collectKeys child ++ go fs
              | _ :: fs => go fs
              end) fields
  end.

Fixpoint findField (fields : list refHMapField) (name : string) : option refHMapField :=
  match fields with
  | [] => None
  | f :: fs => if String.eqb (rf_name f) name || String.eqb (rf_goName f) name then Some f else findField fs name
  end.

Fixpoint refHMapDeref (t : goType) : goType := match t with TPointer t => refHMapDeref t | _ => t end.

Definition isPointer (t : goType) : bool := match t with TPointer _ => true | _ => false end.

Definition refHMapFieldName (f : structField) : option string :=
  let tagName (tag : string) := default EmptyString (head (split "," tag)) in
  let fromJSON :=
    if negb (String.eqb (sf_json f) "") then
      if String.eqb (tagName (sf_json f)) "-" then None
      else if negb (String.eqb (tagName (sf_json f)) "") then Some (tagName (sf_json f))
      else Some (refHMapSnake (sf_Name f))
    else Some (refHMapSnake (sf_Name f)) in
  if negb (String.eqb (sf_redisdao f) "") then
    if String.eqb (sf_redisdao f) "-" then None
    else if negb (String.eqb (tagName (sf_redisdao f)) "") then Some (tagName (sf_redisdao f))
    else fromJSON
  else fromJSON.

(** Redis: hashes by key. *)
Abbreviation redisDB := (gmap string (gmap string string)).

Section RefHMap.
Context {E K F X : Type}.
Context (structs : gmap string (list structField)).
Implicit Types (v x : goValue F X) (n : refHMapNode) (f : refHMapField).

(** What a field of a struct becomes in a plan, given the plans of nested
    structs. *)
Definition planField (child : string -> string -> result (refError E) refHMapNode) (i : nat) (sf : structField)
    : result (refError E) (option refHMapField) :=
  if negb (sf_exported sf) then Ok None else
  match refHMapFieldName sf with
  | None => Ok None
  | Some name =>
      match refHMapDeref (sf_Type sf), sf_Type sf with
      | TScalar k, t => Ok (Some (mkField i (sf_Name sf) name (isPointer t) (refHMapScalarField k t)))
      | _, TStruct typ =>
          c ← child typ name; Ok (Some (mkField i (sf_Name sf) name false (refHMapStructField c)))
      | _, TPointer (TStruct typ) =>
          c ← child typ name; Ok (Some (mkField i (sf_Name sf) name true (refHMapStructField c)))
      | _, _ => Err RefUnsupported
      end
  end.

Fixpoint planFields (child : string -> string -> result (refError E) refHMapNode) (i : nat) (sfs : list structField)
    : result (refError E) (list refHMapField) :=
  match sfs with
  | [] => Ok []
  | sf :: sfs =>
      field ← planField child i sf;
      rest ← planFields child (S i) sfs;
      Ok (match field with Some g => g :: rest | None => rest end)
  end.

Definition nodeKey (base : string) (path : list string) : string :=
  match path with [] => base +:+ ":root" | _ => base +:+ ":" +:+ join ":" path end.

(** One unit of fuel per level; the depth is tested before the fuel can end. *)
Fixpoint buildRefHMapNode (fuel : nat) (base : string) (maxDepth depth : Z) (stack : list string)
    (typ : string) (path : list string) : result (refError E) refHMapNode :=
  match fuel with
  | O => Err RefMaxDepth
  | S fuel =>
      if maxDepth <? depth then Err RefMaxDepth
      else if bool_decide (typ ∈ stack) then Err RefCycle
      else
        fields ← planFields (fun t name =>
          buildRefHMapNode fuel base maxDepth (depth + 1) (typ :: stack) t (path ++ [name])) 0
          (default [] (structs !! typ));
        Ok (mkNode typ (nodeKey base path) fields)
  end.

(** ** Configuration *)

(** [rc_root]: the struct type of the stored values; [rc_pointer]: whether they
    are pointers to it. *)
Record RefHMapConfig := mkRefConfig {
  rc_Prefix : string;
  rc_Name : string;
  rc_MaxDepth : Z;
  rc_KeyString : K -> string;
  rc_StoreConfig : StoreConfig K (goValue F X) E;
  rc_root : string;
  rc_pointer : bool
}.

Definition plan (cfg : RefHMapConfig) (key : K) : result (refError E) refHMapNode :=
  let maxDepth := if rc_MaxDepth cfg <=? 0 then 8 else rc_MaxDepth cfg in
  let name := trimSpace (rc_Name cfg) in
  let name := if String.eqb name "" then refHMapSnake (rc_root cfg) else name in
  let name := if String.eqb name "" then "value" else name in
  let prefix := trimRight (fun c => Ascii.eqb c ":") (trimSpace (rc_Prefix cfg)) in
  let prefix := if String.eqb prefix "" then "cube:redisdao" else prefix in
  let base := prefix +:+ ":{" +:+ name +:+ ":" +:+ rc_KeyString cfg key +:+ "}" in
  buildRefHMapNode (Z.to_nat maxDepth + 2) base maxDepth 0 [] (rc_root cfg) [].

(** ** Scalars *)

Context (formatFloat : F -> string) (parseFloat : Z -> string -> option F).
Context (marshalText : X -> option string) (unmarshalText : string -> string -> option X).

Definition scalarText v : result (refError E) string :=
  match v with
  | VText x => match marshalText x with Some raw => Ok raw | None => Err RefParse end
  | VString s => Ok s
  | VBool b => Ok (formatBool b)
  | VInt n => Ok (formatInt n)
  | VUint n => Ok (formatInt n)
  | VFloat g => Ok (formatFloat g)
  | VBytes s => Ok s
  | _ => Err RefUnsupported
  end.

Definition encodeRefHMapScalar v : result (refError E) (option string) :=
  match v with
  | VNil => Ok None
  | VRef v => raw ← scalarText v; Ok (Some raw)
  | _ => raw ← scalarText v; Ok (Some raw)
  end.

Definition parseScalar (k : scalarKind) (raw : string) : option (goValue F X) :=
  match k with
  | KText t => VText <$> unmarshalText t raw
  | KString => Some (VString raw)
  | KBool => VBool <$> parseBool raw
  | KInt bits => VInt <$> parseInt bits raw
  | KUint bits => VUint <$> parseUint bits raw
  | KFloat bits => VFloat <$> parseFloat bits raw
  | KBytes => Some (VBytes raw)
  end.

(** What a variable of type [t] becomes. *)
Definition decodeRefHMapScalar (t : goType) (raw : string) : result (refError E) (goValue F X) :=
  match t with
  | TScalar k => match parseScalar k raw with Some v => Ok v | None => Err RefParse end
  | TPointer (TScalar k) => match parseScalar k raw with Some v => Ok (VRef v) | None => Err RefParse end
  | _ => Err RefUnsupported
  end.

(** ** Encoding and decoding *)

Record refHMapWrite := mkWrite {
  wr_key : string;
  wr_values : list (string * string)
}.

Fixpoint refHMapIndirectValue v : result (refError E) (goValue F X) :=
  match v with
  | VRef v => refHMapIndirectValue v
  | VNil => Err RefPanic
  | _ => Ok v
  end.

Fixpoint encodeRefHMapNode n v {struct n} : result (refError E) (list refHMapWrite) :=
  match n with
  | mkNode _ key fields =>
      v ← refHMapIndirectValue v;
      match v with
      | VStruct vs =>
          out ← (fix go fs : result (refError E) (list (string * string) * list refHMapWrite) :=
            match fs with
            | [] => Ok ([], [])
            | mkField i _ name ptr kind :: fs =>
                match vs !! i with
                | None => Err RefPanic
                | Some fv =>
                    match kind with
                    | refHMapScalarField _ _ =>
                        raw ← encodeRefHMapScalar fv;
                        rest ← go fs;
                        Ok (match raw with Some r => (name, r) :: rest.1 | None => rest.1 end, rest.2)
                    | refHMapStructField child =>
                        match ptr, fv with
                        | true, VNil => go fs
                        | _, _ =>
                            childWrites ← encodeRefHMapNode child fv;
                            rest ← go fs;
                            Ok ((name, nd_key child) :: rest.1, childWrites ++ rest.2)
                        end
                    end
                end
            end) fields;
          Ok (out.2 ++ [mkWrite key out.1])
      | _ => Err RefUnsupported
      end
  end.

Context (zero : string -> goValue F X).

Fixpoint decodeRefHMapNode (hashes : string -> gmap string string) n v {struct n} : result (refError E) (goValue F X) :=
  match n, v with
  | mkNode _ key fields, VStruct vs =>
      vs' ← (fix go fs vs : result (refError E) (list (goValue F X)) :=
        match fs with
        | [] => Ok vs
        | mkField i _ name ptr kind :: fs =>
            match vs !! i with
            | None => Err RefPanic
            | Some fv =>
                match hashes key !! name, kind with
                | None, _ => go fs vs
                | Some raw, refHMapScalarField _ t =>
                    x ← decodeRefHMapScalar t raw; go fs (<[i := x]> vs)
                | Some raw, refHMapStructField child =>
                    if String.eqb raw "" then go fs vs
                    else if ptr then
                      let fv := match fv with VRef fv => fv | _ => zero (nd_typ child) end in
                      x ← decodeRefHMapNode hashes child fv; go fs (<[i := VRef x]> vs)
                    else
                      x ← decodeRefHMapNode hashes child fv; go fs (<[i := x]> vs)
                end
            end
        end) fields vs;
      Ok (VStruct vs')
  | _, _ => Err RefPanic
  end.

(** ** Redis *)

Definition HGETALL (db : redisDB) (key : string) : gmap string string := default ∅ (db !! key).

Definition DEL (db : redisDB) (keys : list string) : redisDB := foldl (fun db key => delete key db) db keys.

Definition HSET (db : redisDB) (key : string) (values : list (string * string)) : redisDB :=
  match values with
  | [] => db
  | _ => <[key := foldl (fun h p => <[p.1 := p.2]> h) (HGETALL db key) values]> db
  end.

(** [tonumber] of the script, on integers; the numbers it is given are counts. *)
Definition tonumber (raw : string) : option Z := Z.of_int <$> DecimalString.NilZero.int_of_string raw.

Fixpoint pairUp (l : list string) : list (string * string) :=
  match l with a :: b :: l => (a, b) :: pairUp l | _ => [] end.

(** The script: [ARGV] is the time to live, the number of writes, and for every
    write the number of its key, the number of its pairs and the pairs. *)
Fixpoint scriptWrites (count : nat) (KEYS ARGV : list string) (db : redisDB) : redisDB :=
  match count, ARGV with
  | S count, key_index :: pair_count :: rest =>
      match tonumber key_index, tonumber pair_count with
      | Some i, Some pairs =>
          let values := take (Z.to_nat (pairs * 2)) rest in
          let db := match KEYS !! Z.to_nat (i - 1) with
                    | Some key => HSET db key (pairUp values)
                    | None => db
                    end in
          scriptWrites count KEYS (drop (Z.to_nat (pairs * 2)) rest) db
      | _, _ => db
      end
  | _, _ => db
  end.

Definition refHMapWriteScript (KEYS ARGV : list string) (db : redisDB) : redisDB :=
  match ARGV with
  | _ :: write_count :: rest =>
      match tonumber write_count with
      | Some count => scriptWrites (Z.to_nat count) KEYS rest (DEL db KEYS)
      | None => DEL db KEYS
      end
  | _ => DEL db KEYS
  end.

(** What the commands of a call answer: whether reading, the script, and the
    commands used in its place succeed; and what a failure leaves behind. *)
Record redisAnswers := mkAnswers {
  ra_read : bool;
  ra_registry : bool;
  ra_eval : bool;
  ra_exec : bool;
  ra_left : redisDB
}.

(** ** The store *)

Definition refHMapRegistryField : string := "__keys".

Definition newlineText : string := String (ascii_of_nat 10) EmptyString.

Definition parseRefHMapRegistry (raw : string) : list string :=
  filter (fun key => key <> EmptyString) (trimSpace <$> split (ascii_of_nat 10) raw).

Fixpoint uniqueRefHMapKeys (seen keys : list string) : list string :=
  match keys with
  | [] => []
  | key :: keys =>
      if String.eqb key "" || bool_decide (key ∈ seen) then uniqueRefHMapKeys seen keys
      else key :: uniqueRefHMapKeys (key :: seen) keys
  end.

Definition withRegistry n (writes : list refHMapWrite) : list refHMapWrite :=
  let entry := (refHMapRegistryField, join newlineText (collectKeys n)) in
  (fix go ws := match ws with
   | [] => [mkWrite (nd_key n) [entry]]
   | w :: ws => if String.eqb (wr_key w) (nd_key n) then mkWrite (wr_key w) (wr_values w ++ [entry]) :: ws
                else w :: go ws
   end) writes.

Definition registeredKeys (db : redisDB) n (io : redisAnswers) : result (refError E) (list string) :=
  if negb (ra_registry io) then Err RefRedis else
  match HGETALL db (nd_key n) !! refHMapRegistryField with
  | None => Ok (collectKeys n)
  | Some raw =>
      match parseRefHMapRegistry raw with
      | [] => Ok (collectKeys n)
      | keys => Ok (uniqueRefHMapKeys [] (keys ++ [nd_key n]))
      end
  end.

(** The arguments of the script: the keys, extended by those of the writes that
    are not among them, and the encoded writes. *)
Definition keyNumber (keys : list string) (key : string) : option nat :=
  fst <$> list_find (fun k => k = key) keys.

Fixpoint scriptArgs (keys : list string) (writes : list refHMapWrite) : list string * list string :=
  match writes with
  | [] => (keys, [])
  | w :: ws =>
      let '(keys, idx) := match keyNumber keys (wr_key w) with
                          | Some i => (keys, i)
                          | None => (keys ++ [wr_key w], length keys)
                          end in
      let '(keys, rest) := scriptArgs keys ws in
      (keys, formatInt (Z.of_nat idx + 1) :: formatInt (len (wr_values w))
             :: (wr_values w ≫= fun p => [p.1; p.2]) ++ rest)
  end.

Definition evalWriteHashes (ttl : Z) (db : redisDB) (keys : list string) (writes : list refHMapWrite) (io : redisAnswers)
    : redisDB * result (refError E) unit :=
  let '(keys, args) := scriptArgs keys writes in
  if ra_eval io then
    (refHMapWriteScript keys (formatInt ttl :: formatInt (len writes) :: args) db, Ok tt)
  else if ra_exec io then
    (foldl (fun db w => HSET db (wr_key w) (wr_values w)) (DEL db keys) writes, Ok tt)
  else (ra_left io, Err RefRedis).

Definition writeHashes (ttl : Z) (db : redisDB) n (writes : list refHMapWrite) (io : redisAnswers)
    : redisDB * result (refError E) unit :=
  match registeredKeys db n io with
  | Err e => (db, Err e)
  | Ok deleteKeys =>
      evalWriteHashes ttl db (uniqueRefHMapKeys [] (deleteKeys ++ collectKeys n)) (withRegistry n writes) io
  end.

Definition RefHMap_Get (cfg : RefHMapConfig) (db : redisDB) (key : K) (io : redisAnswers)
    : result (refError E) (option (goValue F X)) :=
  if negb (validKey (rc_StoreConfig cfg) key) then Ok None else
  n ← plan cfg key;
  if negb (ra_read io) then Err RefRedis else
  if bool_decide (HGETALL db (nd_key n) = ∅) then Ok None else
  v ← decodeRefHMapNode (HGETALL db) n (zero (nd_typ n));
  if rc_pointer cfg then Err RefPanic else Ok (Some v).

Definition liftStore {A} (r : result (cacheError E) A) : result (refError E) A :=
  match r with Ok a => Ok a | Err e => Err (RefStore e) end.

(** [ttl] in milliseconds. *)
Definition RefHMap_Set (cfg : RefHMapConfig) (ttl : Z) (db : redisDB) v (io : redisAnswers)
    : redisDB * result (refError E) unit :=
  match (_ ← liftStore (validateValue (rc_StoreConfig cfg) v);
         key ← liftStore (keyOf (rc_StoreConfig cfg) v);
         n ← plan cfg key;
         stale ← match sc_Stale (rc_StoreConfig cfg) with
                 | None => Ok false
                 | Some stale =>
                     old ← RefHMap_Get cfg db key io;
                     Ok (match old with Some old => stale old v | None => false end)
                 end;
         if (stale : bool) then Ok None else
         writes ← encodeRefHMapNode n v; Ok (Some (n, writes))) with
  | Err e => (db, Err e)
  | Ok None => (db, Ok tt)
  | Ok (Some (n, writes)) => writeHashes ttl db n writes io
  end.

Definition RefHMap_Delete (cfg : RefHMapConfig) (db : redisDB) (key : K) (io : redisAnswers)
    : redisDB * result (refError E) unit :=
  if negb (validKey (rc_StoreConfig cfg) key) then (db, Ok tt) else
  match (n ← plan cfg key; registeredKeys db n io) with
  | Err e => (db, Err e)
  | Ok [] => (db, Ok tt)
  | Ok keys => if ra_exec io then (DEL db keys, Ok tt) else (ra_left io, Err RefRedis)
  end.

(** ** Patches *)

(** A value as it is when assigned to a variable of the type, if it can be. *)
Context (assign : goType -> goValue F X -> option (goValue F X)).

Fixpoint patchTarget n (parts : list string) : result (refError E) (string * refHMapField) :=
  match parts with
  | [] => Err RefUnsupported
  | part :: rest =>
      if String.eqb part "" then Err RefUnsupported else
      match findField (nd_fields n) part with
      | None => Err RefUnsupported
      | Some g =>
          match rest, rf_kind g with
          | [], refHMapScalarField _ _ => Ok (nd_key n, g)
          | [], _ => Err RefUnsupported
          | _, refHMapStructField child => patchTarget child rest
          | _, _ => Err RefUnsupported
          end
      end
  end.

Definition encodeRefHMapScalarForType (k : scalarKind) x : result (refError E) string :=
  match x, assign (TScalar k) x with
  | VNil, _ | _, None => Err RefUnsupported
  | _, Some x => raw ← encodeRefHMapScalar x; Ok (default "" raw)
  end.

Definition RefHMap_Patch (cfg : RefHMapConfig) (db : redisDB) (key : K) (path : string) x (io : redisAnswers)
    : redisDB * result (refError E) unit :=
  if negb (validKey (rc_StoreConfig cfg) key) then (db, Ok tt) else
  match (n ← plan cfg key;
         target ← patchTarget n (split "." (trimSpace path));
         match rf_kind target.2 with
         | refHMapScalarField k _ =>
             raw ← encodeRefHMapScalarForType k x; Ok (target.1, rf_name target.2, raw)
         | _ => Err RefUnsupported
         end) with
  | Err e => (db, Err e)
  | Ok (hash, name, raw) =>
      if ra_exec io then (HSET db hash [(name, raw)], Ok tt) else (ra_left io, Err RefRedis)
  end.

Fixpoint findRefHMapStructField (i : nat) (sfs : list structField) (name : string) : option (nat * structField) :=
  match sfs with
  | [] => None
  | sf :: sfs =>
      match sf_exported sf, refHMapFieldName sf with
      | true, Some redisName =>
          if String.eqb (sf_Name sf) name || String.eqb redisName name then Some (i, sf)
          else findRefHMapStructField (S i) sfs name
      | _, _ => findRefHMapStructField (S i) sfs name
      end
  end.

Definition setRefHMapValue (t : goType) x : result (refError E) (goValue F X) :=
  match t, x with
  | TPointer _, VNil => Ok VNil
  | TPointer t, _ => match assign t x with Some y => Ok (VRef y) | None => Err RefUnsupported end
  | _, VNil => Err RefUnsupported
  | _, _ => match assign t x with Some y => Ok y | None => Err RefUnsupported end
  end.

(** The value at the target after the patch; [t] is its type.  What a patch that
    fails leaves behind is not modelled. *)
Fixpoint patchStructParts (t : goType) v (parts : list string) x : result (refError E) (goValue F X) :=
  match parts with
  | [] => Err RefUnsupported
  | part :: rest =>
      if String.eqb part "" then Err RefUnsupported else
      let patch typ v :=
        match v with
        | VStruct vs =>
            match findRefHMapStructField 0 (default [] (structs !! typ)) part with
            | None => Err RefUnsupported
            | Some (i, sf) =>
                match vs !! i with
                | None => Err RefPanic
                | Some fv =>
                    y ← match rest with
                        | [] => setRefHMapValue (sf_Type sf) x
                        | _ => patchStructParts (sf_Type sf) fv rest x
                        end;
                    Ok (VStruct (<[i := y]> vs))
                end
            end
        | _ => Err RefUnsupported
        end in
      match t, v with
      | TStruct typ, v => patch typ v
      | TPointer (TStruct typ), VNil => y ← patch typ (zero typ); Ok (VRef y)
      | TPointer (TStruct typ), VRef v => y ← patch typ v; Ok (VRef y)
      | _, _ => Err RefUnsupported
      end
  end.

Definition PatchStructPath (t : goType) v (path : string) x : result (refError E) (goValue F X) :=
  patchStructParts t v (split "." (trimSpace path)) x.

End RefHMap.
