(* ===== verification/RefHMapProofs.v ===== *)
(** * Structs as linked Redis hashes: what is stored is what is read

    Theorems about [RefHMap]: the text of scalars and of the registry of keys
    reads back; what hashes represent, that [encodeRefHMapNode] writes hashes that
    represent the value and [decodeRefHMapNode] reads the value they represent;
    that the script does what the commands do; that the keys of a plan are apart
    when the names in the struct types are; and with these that [Set], [Get] and
    [Delete] agree. *)

From stdpp Require Import base list gmap strings.
From Stdlib Require Import ZArith Lia Ascii.
From Stdlib Require DecimalString DecimalZ.
From S2P Require Import Prelude ClockCache RefHMap.

#[local] Open Scope Z_scope.

(** ** Text *)

Lemma int_text d :
  exists d', DecimalString.NilZero.int_of_string (DecimalString.NilZero.string_of_int d) = Some d'
    /\ Z.of_int d' = Z.of_int d.
Proof.
  destruct d as [[]|[]];
    first [eexists; split; [apply DecimalString.NilZero.isi; discriminate|reflexivity] | eexists; split; reflexivity].
Qed.

Lemma parse_format n bits : - 2 ^ (bits - 1) <= n < 2 ^ (bits - 1) -> parseInt bits (formatInt n) = Some n.
Proof.
  intros Hn. destruct (int_text (Z.to_int n)) as (d & Hd & Hz). rewrite DecimalZ.of_to in Hz.
  unfold parseInt. change (DecimalString.NilZero.int_of_string (formatInt n) = Some d) in Hd.
  assert (Hplus : match formatInt n with String "+" rest => rest | _ => formatInt n end = formatInt n).
  { destruct (formatInt n) as [|c s]; [done|]. destruct (decide (c = "+"%char)) as [->|Hne].
    { cbn in Hd. by destruct (DecimalString.NilEmpty.uint_of_string s). }
    destruct c as [[] [] [] [] [] [] [] []]; done. }
  rewrite Hplus, Hd, Hz.
  destruct (Z.leb_spec (- 2 ^ (bits - 1)) n), (Z.ltb_spec n (2 ^ (bits - 1))); try done; lia.
Qed.

Lemma parse_format_uint n bits : 0 <= n < 2 ^ bits -> parseUint bits (formatInt n) = Some n.
Proof.
  intros Hn. unfold parseUint, formatInt.
  assert (Hu : exists u, Z.to_int n = Decimal.Pos u /\ Z.of_uint u = n).
  { pose proof (DecimalZ.of_to n) as Hz. destruct n as [|p|p]; [by eexists| |lia]. eexists. split; [done|]. exact Hz. }
  destruct Hu as (u & -> & Hz). cbn [DecimalString.NilZero.string_of_int].
  assert (Hd : exists d, DecimalString.NilZero.uint_of_string (DecimalString.NilZero.string_of_uint u) = Some d
    /\ Z.of_uint d = n).
  { destruct u; [by exists Decimal.zero|..]; (eexists; split; [by apply DecimalString.NilZero.usu|done]). }
  destruct Hd as (d & -> & ->). destruct (Z.ltb_spec n (2 ^ bits)); [done|lia].
Qed.

(** A text without the separator. *)
Fixpoint lacks (sep : ascii) (s : string) : bool :=
  match s with EmptyString => true | String c s => negb (Ascii.eqb c sep) && lacks sep s end.

Lemma split_lacks sep s : lacks sep s = true -> split sep s = [s].
Proof.
  induction s as [|c s IH]; intros H; [done|]. cbn [split lacks] in *. destruct (Ascii.eqb c sep); [done|]. by rewrite IH.
Qed.

Lemma split_app sep s t : lacks sep s = true -> split sep (s +:+ String sep t) = s :: split sep t.
Proof.
  induction s as [|c s IH]; intros H.
  - change (EmptyString +:+ String sep t) with (String sep t). cbn [split]. by rewrite Ascii.eqb_refl.
  - change (String c s +:+ String sep t) with (String c (s +:+ String sep t)). cbn [split lacks] in *.
    destruct (Ascii.eqb c sep); [done|]. by rewrite IH.
Qed.

Lemma split_join sep keys :
  keys <> [] -> forallb (lacks sep) keys = true -> split sep (join (String sep EmptyString) keys) = keys.
Proof.
  induction keys as [|k keys IH]; intros Hne H; [done|]. cbn in H. apply andb_true_iff in H as [Hk Hks].
  destruct keys as [|k' keys]; [by apply split_lacks|].
  change (join (String sep EmptyString) (k :: k' :: keys)) with (k +:+ String sep (join (String sep EmptyString) (k' :: keys))).
  rewrite split_app by done. f_equal. by apply IH.
Qed.

(** Keys that can be listed in the registry. *)
Definition listable (key : string) : bool :=
  lacks (ascii_of_nat 10) key && String.eqb (trimSpace key) key && negb (String.eqb key "").

Lemma registry_roundtrip keys :
  keys <> [] -> forallb listable keys = true -> parseRefHMapRegistry (join newlineText keys) = keys.
Proof.
  intros Hne Hl. unfold parseRefHMapRegistry, newlineText. rewrite split_join; [|done|].
  - clear Hne. induction keys as [|k keys IH]; [done|]. cbn in Hl. apply andb_true_iff in Hl as [Hk Hks].
    unfold listable in Hk. rewrite !andb_true_iff, negb_true_iff, String.eqb_eq, String.eqb_neq in Hk.
    destruct Hk as [[_ Ht] Hn]. cbn [fmap list_fmap]. rewrite Ht, filter_cons_True by done. f_equal. by apply IH.
  - apply forallb_forall. intros k Hk. rewrite forallb_forall in Hl. specialize (Hl k Hk).
    unfold listable in Hl. rewrite !andb_true_iff in Hl. apply Hl.
Qed.

Lemma unique_id seen keys :
  NoDup keys -> (forall k, k ∈ keys -> k <> "" /\ k ∉ seen) -> uniqueRefHMapKeys seen keys = keys.
Proof.
  revert seen. induction keys as [|k keys IH]; intros seen Hd Hk; [done|]. cbn.
  apply NoDup_cons in Hd as [Hnin Hd]. destruct (Hk k) as [Hne Hns]; [by left|].
  rewrite (proj2 (String.eqb_neq k "")), bool_decide_eq_false_2 by done. cbn. f_equal. apply IH; [done|].
  intros k' Hk'. destruct (Hk k') as [Hne' Hns']; [by right|]. split; [done|].
  intros [->|?]%elem_of_cons; done.
Qed.

Lemma unique_elem seen keys k : k ∈ uniqueRefHMapKeys seen keys <-> k ∈ keys /\ k <> "" /\ k ∉ seen.
Proof.
  revert seen. induction keys as [|k' keys IH]; intros seen; cbn.
  - rewrite elem_of_nil. tauto.
  - destruct (String.eqb_spec k' "") as [->|Hne]; cbn.
    + rewrite IH, elem_of_cons. naive_solver.
    + destruct (decide (k' ∈ seen)) as [Hin|Hnin].
      * rewrite bool_decide_eq_true_2 by done. rewrite IH, elem_of_cons. naive_solver.
      * rewrite bool_decide_eq_false_2 by done. rewrite !elem_of_cons, IH, elem_of_cons.
        destruct (decide (k = k')); naive_solver.
Qed.

(** ** What the hashes represent *)

(** Nodes are taken apart child by child. *)
Lemma node_rect_children (P : refHMapNode -> Prop) :
  (forall typ key fields,
    (forall i g name ptr child, mkField i g name ptr (refHMapStructField child) ∈ fields -> P child) ->
    P (mkNode typ key fields)) -> forall n, P n.
Proof.
  intros H. fix IH 1. intros [typ key fields]. apply H.
  induction fields as [|[i' g' name' ptr' [k t|c]] fields IHf]; intros i g name ptr child Hin.
  - exfalso. clear IH. by apply not_elem_of_nil in Hin.
  - apply elem_of_cons in Hin as [Hin|Hin]; [clear IH; discriminate Hin|]. exact (IHf _ _ _ _ _ Hin).
  - apply elem_of_cons in Hin as [Hin|Hin]; [|exact (IHf _ _ _ _ _ Hin)].
    specialize (IH c). clear IHf. by injection Hin as _ _ _ _ ->.
Qed.

(** A condition on every node of a plan. *)
Fixpoint every (P : string -> string -> list refHMapField -> Prop) (n : refHMapNode) : Prop :=
  match n with
  | mkNode typ key fields =>
      P typ key fields
      /\ (fix go fs := match fs with
          | [] => True
          | mkField _ _ _ _ (refHMapStructField child) :: fs => every P child /\ go fs
          | _ :: fs => go fs
          end) fields
  end.

Lemma every_child P typ key fields i g name ptr child :
  every P (mkNode typ key fields) -> mkField i g name ptr (refHMapStructField child) ∈ fields -> every P child.
Proof.
  cbn. intros [_ H] Hin. induction fields as [|[i' g' name' ptr' [k t|c]] fields IH].
  - by apply not_elem_of_nil in Hin.
  - apply elem_of_cons in Hin as [Hin|Hin]; [discriminate Hin|by apply IH].
  - destruct H as [Hc H]. apply elem_of_cons in Hin as [Hin|Hin]; [|by apply IH]. by injection Hin as _ _ _ _ ->.
Qed.

Section Represent.
Context {E F X : Type}.
Context (formatFloat : F -> string) (parseFloat : Z -> string -> option F).
Context (marshalText : X -> option string) (unmarshalText : string -> string -> option X).
Context (zero : string -> goValue F X).
Implicit Types (v x : goValue F X) (n : refHMapNode).

(** The hash has a key, no two fields share their place or their name, and none
    has the name of the registry. *)
Definition separate (typ key : string) (fields : list refHMapField) : Prop :=
  key <> "" /\ NoDup (rf_index <$> fields) /\ NoDup (rf_name <$> fields) /\ refHMapRegistryField ∉ rf_name <$> fields.

(** The zero value of a struct has the zero values of its fields. *)
Definition zeroes (typ key : string) (fields : list refHMapField) : Prop :=
  exists zs, zero typ = VStruct zs
    /\ forall f, f ∈ fields -> exists z, zs !! rf_index f = Some z
         /\ match rf_kind f with
            | refHMapScalarField _ t => isPointer t = true -> z = VNil
            | refHMapStructField child => z = if rf_ptr f then VNil else zero (nd_typ child)
            end.

#[local] Abbreviation decodeScalar := (decodeRefHMapScalar (E := E) parseFloat unmarshalText).
#[local] Abbreviation decodeNode := (decodeRefHMapNode (E := E) parseFloat unmarshalText zero).
#[local] Abbreviation encodeNode := (encodeRefHMapNode (E := E) formatFloat marshalText).

(** Field by field, [v] is what the hashes hold. *)
Fixpoint represents (hashes : string -> gmap string string) n v {struct n} : Prop :=
  match n with
  | mkNode typ key fields =>
      exists vs zs, v = VStruct vs /\ zero typ = VStruct zs /\ length vs = length zs
        /\ (forall i, i ∉ rf_index <$> fields -> vs !! i = zs !! i)
        /\ (fix all fs := match fs with
            | [] => True
            | mkField i _ name ptr kind :: fs =>
                (exists x z, vs !! i = Some x /\ zs !! i = Some z
                   /\ match hashes key !! name, kind with
                      | None, _ => x = z
                      | Some raw, refHMapScalarField _ t => decodeScalar t raw = Ok x
                      | Some raw, refHMapStructField child =>
                          if String.eqb raw "" then x = z
                          else if ptr then exists y, x = VRef y /\ z = VNil /\ represents hashes child y
                          else z = zero (nd_typ child) /\ represents hashes child x
                      end)
                /\ all fs
            end) fields
  end.

(** The part of [represents] about one field. *)
Definition field_rep (hashes : string -> gmap string string) (key : string) (vs zs : list (goValue F X)) (f : refHMapField)
    : Prop :=
  exists x z, vs !! rf_index f = Some x /\ zs !! rf_index f = Some z
    /\ match hashes key !! rf_name f, rf_kind f with
       | None, _ => x = z
       | Some raw, refHMapScalarField _ t => decodeScalar t raw = Ok x
       | Some raw, refHMapStructField child =>
           if String.eqb raw "" then x = z
           else if rf_ptr f then exists y, x = VRef y /\ z = VNil /\ represents hashes child y
           else z = zero (nd_typ child) /\ represents hashes child x
       end.

Lemma represents_fields hashes typ key fields v :
  represents hashes (mkNode typ key fields) v <->
  exists vs zs, v = VStruct vs /\ zero typ = VStruct zs /\ length vs = length zs
    /\ (forall i, i ∉ rf_index <$> fields -> vs !! i = zs !! i)
    /\ forall f, f ∈ fields -> field_rep hashes key vs zs f.
Proof.
  cbn [represents]. split; intros (vs & zs & Hv & Hz & Hl & Ho & Hall); exists vs, zs; split_and!; try done; clear Ho.
  - induction fields as [|[i g name ptr kind] fields IH]; intros f Hf; [by apply not_elem_of_nil in Hf|].
    destruct Hall as [Hh Hall]. apply elem_of_cons in Hf as [->|Hf]; [exact Hh|by apply IH].
  - induction fields as [|[i g name ptr kind] fields IH]; [done|]. split.
    + apply (Hall (mkField i g name ptr kind)). by left.
    + apply IH. intros f Hf. apply Hall. by right.
Qed.

(** The loop over the fields of a node, on the list of its values. *)
Definition decodeFields (hashes : string -> gmap string string) (key : string) :=
  fix go (fs : list refHMapField) (vs : list (goValue F X)) : result (refError E) (list (goValue F X)) :=
    match fs with
    | [] => Ok vs
    | mkField i _ name ptr kind :: fs =>
        match vs !! i with
        | None => Err RefPanic
        | Some fv =>
            match hashes key !! name, kind with
            | None, _ => go fs vs
            | Some raw, refHMapScalarField _ t => x ← decodeScalar t raw; go fs (<[i := x]> vs)
            | Some raw, refHMapStructField child =>
                if String.eqb raw "" then go fs vs
                else if ptr then
                  let fv := match fv with VRef fv => fv | _ => zero (nd_typ child) end in
                  x ← decodeNode hashes child fv; go fs (<[i := VRef x]> vs)
                else
                  x ← decodeNode hashes child fv; go fs (<[i := x]> vs)
            end
        end
    end.

Lemma decodeNode_fields hashes typ key fields vs :
  decodeNode hashes (mkNode typ key fields) (VStruct vs) =
  vs' ← decodeFields hashes key fields vs; Ok (VStruct vs').
Proof. reflexivity. Qed.

Lemma decodeFields_ok hashes key fields vs zs ws :
  NoDup (rf_index <$> fields) ->
  (forall f, f ∈ fields -> field_rep hashes key vs zs f) ->
  (forall i g name ptr child y, mkField i g name ptr (refHMapStructField child) ∈ fields ->
     represents hashes child y -> decodeNode hashes child (zero (nd_typ child)) = Ok y) ->
  length ws = length vs ->
  (forall f, f ∈ fields -> ws !! rf_index f = zs !! rf_index f) ->
  exists ws', decodeFields hashes key fields ws = Ok ws' /\ length ws' = length vs
    /\ forall i, ws' !! i = if decide (i ∈ rf_index <$> fields) then vs !! i else ws !! i.
Proof.
  revert ws. induction fields as [|[i g name ptr kind] fields IH]; intros ws Hd Hrep Hdec Hlen Hz.
  - exists ws. split; [done|]. split; [done|]. intros i. rewrite decide_False; [done|]. apply not_elem_of_nil.
  - cbn [fmap list_fmap] in Hd. apply NoDup_cons in Hd as [Hnin Hd]. cbn [rf_index] in Hnin.
    destruct (Hrep (mkField i g name ptr kind)) as (x & z & Hx & Hzi & Hval); [by left|].
    cbn [rf_index rf_name rf_kind rf_ptr] in *.
    assert (Hws : ws !! i = Some z) by (rewrite <-Hzi; apply (Hz (mkField i g name ptr kind)); by left).
    assert (Hgo : exists ws', decodeFields hashes key fields (<[i := x]> ws) = Ok ws' /\ length ws' = length vs
      /\ forall j, ws' !! j = if decide (j ∈ rf_index <$> fields) then vs !! j else <[i := x]> ws !! j).
    { apply IH; [done|by intros; apply Hrep; right|by intros; eapply Hdec; [by right|]|by rewrite length_insert|].
      intros f Hf. rewrite list_lookup_insert_ne; [apply Hz; by right|]. intros ->. apply Hnin.
      by apply list_elem_of_fmap_2. }
    assert (Hfin : exists ws', decodeFields hashes key fields (<[i := x]> ws) = Ok ws' /\ length ws' = length vs
      /\ forall j, ws' !! j = if decide (j ∈ rf_index <$> mkField i g name ptr kind :: fields) then vs !! j else ws !! j).
    { destruct Hgo as (ws' & H1 & H2 & H3). exists ws'. split; [done|]. split; [done|]. intros j. rewrite H3.
      assert (Hiff : j ∈ rf_index <$> mkField i g name ptr kind :: fields <-> j = i \/ j ∈ rf_index <$> fields)
        by (cbn; by rewrite elem_of_cons).
      destruct (decide (j ∈ rf_index <$> fields)) as [Hj|Hj].
      - rewrite decide_True; [done|]. apply Hiff. by right.
      - destruct (decide (j = i)) as [->|Hne].
        + rewrite list_lookup_insert_eq by (rewrite Hlen; by eapply lookup_lt_Some).
          rewrite decide_True; [done|]. apply Hiff. by left.
        + rewrite list_lookup_insert_ne by done. rewrite decide_False; [done|]. rewrite Hiff. tauto. }
    assert (Hid : x = z -> <[i := x]> ws = ws) by (intros ->; by apply list_insert_id).
    cbn [decodeFields]. rewrite Hws. destruct (hashes key !! name) as [raw|]; [|by rewrite Hid in Hfin].
    destruct kind as [k t|child]; [by rewrite Hval|].
    destruct (String.eqb raw ""); [by rewrite Hid in Hfin|]. destruct ptr.
    + destruct Hval as (y & -> & -> & Hy). cbn zeta. rewrite (Hdec i g name true child y) by (by left || done). exact Hfin.
    + destruct Hval as (-> & Hy). rewrite (Hdec i g name false child x) by (by left || done). exact Hfin.
Qed.

Lemma decode_represents hashes n v :
  every separate n -> represents hashes n v -> decodeNode hashes n (zero (nd_typ n)) = Ok v.
Proof.
  revert v. induction n as [typ key fields IH] using node_rect_children. intros v Hsep Hrep.
  apply represents_fields in Hrep as (vs & zs & -> & Hz & Hlen & Hother & Hall).
  cbn [nd_typ]. rewrite Hz, decodeNode_fields.
  destruct (decodeFields_ok hashes key fields vs zs zs) as (ws' & -> & Hl & Hw); [apply Hsep|done| |done|done|].
  - intros i g name ptr child y Hin Hy. eapply IH; [done| |done]. by eapply every_child.
  - cbn. do 2 f_equal. apply list_eq. intros i. rewrite Hw. case_decide as Hi; [done|]. symmetry. by apply Hother.
Qed.

(** ** Values that can be stored *)

(** A scalar that its text gives back. *)
Definition scalar_fits (k : scalarKind) v : Prop :=
  match k, v with
  | KString, VString _ | KBool, VBool _ | KBytes, VBytes _ => True
  | KInt bits, VInt m => - 2 ^ (bits - 1) <= m < 2 ^ (bits - 1)
  | KUint bits, VUint m => 0 <= m < 2 ^ bits
  | KFloat bits, VFloat g => parseFloat bits (formatFloat g) = Some g
  | KText t, VText x => exists raw, marshalText x = Some raw /\ unmarshalText t raw = Some x
  | _, _ => False
  end.

(** What a variable of the type of a scalar field can hold: pointers to pointers
    are nil. *)
Definition scalar_field_fits (t : goType) v : Prop :=
  match t with
  | TScalar k => scalar_fits k v
  | TPointer (TScalar k) => match v with VNil => True | VRef y => scalar_fits k y | _ => False end
  | TPointer _ => v = VNil
  | _ => False
  end.

Lemma scalar_roundtrip k v :
  scalar_fits k v ->
  exists raw, scalarText (E := E) formatFloat marshalText v = Ok raw /\ parseScalar parseFloat unmarshalText k raw = Some v.
Proof.
  destruct k, v; cbn; try done; intros H.
  - by eexists.
  - eexists. split; [done|]. by destruct b.
  - eexists. split; [done|]. by rewrite parse_format.
  - eexists. split; [done|]. by rewrite parse_format_uint.
  - eexists. split; [done|]. by rewrite H.
  - by eexists.
  - destruct H as (raw & Hm & Hu). rewrite Hm. exists raw. by rewrite Hu.
Qed.

Lemma scalar_field_roundtrip t v :
  scalar_field_fits t v ->
  exists o, encodeRefHMapScalar (E := E) formatFloat marshalText v = Ok o
    /\ match o with
       | Some raw => decodeRefHMapScalar (E := E) parseFloat unmarshalText t raw = Ok v
       | None => v = VNil
       end.
Proof.
  assert (Hs : forall k x, scalar_fits k x -> exists raw,
    encodeRefHMapScalar (E := E) formatFloat marshalText x = Ok (Some raw)
    /\ encodeRefHMapScalar (E := E) formatFloat marshalText (VRef x) = Ok (Some raw)
    /\ parseScalar parseFloat unmarshalText k raw = Some x).
  { intros k x Hx. destruct (scalar_roundtrip k x Hx) as (raw & Ht & Hp). exists raw.
    split; [|split; [by cbn; rewrite Ht|done]]. destruct k, x; try done; cbn [encodeRefHMapScalar]; by rewrite Ht. }
  destruct t as [k|t|typ|]; cbn [scalar_field_fits]; [|destruct t as [k|t|typ|]|..]; intros H;
    try done; try (subst v; by exists None).
  - destruct (Hs k v H) as (raw & -> & _ & Hp). exists (Some raw). split; [done|]. cbn. by rewrite Hp.
  - destruct v as [| | | | | | | |y|]; try done; [by exists None|].
    destruct (Hs k y H) as (raw & _ & -> & Hp). exists (Some raw). split; [done|]. cbn. by rewrite Hp.
Qed.

(** A value of the type of a node: its fields in the plan hold values their texts
    give back; what the other fields hold does not matter. *)
Fixpoint fits n v {struct n} : Prop :=
  match n with
  | mkNode typ key fields =>
      exists vs zs, v = VStruct vs /\ zero typ = VStruct zs /\ length vs = length zs
        /\ (fix all fs := match fs with
            | [] => True
            | mkField i _ _ ptr kind :: fs =>
                (exists x, vs !! i = Some x
                   /\ match kind with
                      | refHMapScalarField _ t => scalar_field_fits t x
                      | refHMapStructField child =>
                          if ptr then match x with VNil => True | VRef y => fits child y | _ => False end
                          else fits child x
                      end)
                /\ all fs
            end) fields
  end.

Definition field_fits (f : refHMapField) v : Prop :=
  match rf_kind f with
  | refHMapScalarField _ t => scalar_field_fits t v
  | refHMapStructField child =>
      if rf_ptr f then match v with VNil => True | VRef y => fits child y | _ => False end else fits child v
  end.

Lemma fits_fields typ key fields v :
  fits (mkNode typ key fields) v ->
  exists vs zs, v = VStruct vs /\ zero typ = VStruct zs /\ length vs = length zs
    /\ forall f, f ∈ fields -> exists x, vs !! rf_index f = Some x /\ field_fits f x.
Proof.
  cbn [fits]. intros (vs & zs & Hv & Hz & Hl & Hall). exists vs, zs. split_and!; try done.
  induction fields as [|[i g name ptr kind] fields IH]; intros f Hf; [by apply not_elem_of_nil in Hf|].
  destruct Hall as [Hh Hall]. apply elem_of_cons in Hf as [->|Hf]; [exact Hh|by apply IH].
Qed.

(** What of a value is stored: the fields of the plan; the others, which are not
    exported or are left out by their tags, are zero when it is read. *)
Fixpoint project n v {struct n} : goValue F X :=
  match n with
  | mkNode typ _ fields =>
      match v, zero typ with
      | VStruct vs, VStruct zs =>
          VStruct ((fix go fs acc :=
            match fs with
            | [] => acc
            | mkField i _ _ ptr kind :: fs =>
                go fs (match vs !! i with
                       | None => acc
                       | Some x =>
                           <[i := match kind with
                                  | refHMapScalarField _ _ => x
                                  | refHMapStructField child =>
                                      if ptr then match x with VRef y => VRef (project child y) | _ => x end
                                      else project child x
                                  end]> acc
                       end)
            end) fields zs)
      | _, _ => v
      end
  end.

Definition projectField (f : refHMapField) v : goValue F X :=
  match rf_kind f with
  | refHMapScalarField _ _ => v
  | refHMapStructField child =>
      if rf_ptr f then match v with VRef y => VRef (project child y) | _ => v end else project child v
  end.

Lemma project_fields typ key fields vs zs :
  zero typ = VStruct zs -> length vs = length zs -> NoDup (rf_index <$> fields) ->
  exists ps, project (mkNode typ key fields) (VStruct vs) = VStruct ps /\ length ps = length zs
    /\ (forall i, i ∉ rf_index <$> fields -> ps !! i = zs !! i)
    /\ forall f x, f ∈ fields -> vs !! rf_index f = Some x -> ps !! rf_index f = Some (projectField f x).
Proof.
  intros Hz Hl. cbn [project]. rewrite Hz. clear Hz. revert zs Hl.
  induction fields as [|[i g name ptr kind] fields IH]; intros zs Hl Hnd.
  { exists zs. split_and!; try done. intros f x Hf. by apply not_elem_of_nil in Hf. }
  cbn [fmap list_fmap rf_index] in Hnd. apply NoDup_cons in Hnd as [Hni Hnd].
  set (acc := match vs !! i with None => zs | Some x => <[i := projectField (mkField i g name ptr kind) x]> zs end).
  assert (Hacc : length acc = length zs) by (unfold acc; destruct (vs !! i); [by rewrite length_insert|done]).
  destruct (IH acc) as (ps & Hps & Hlen & Hout & Hin); [congruence|done|].
  exists ps. split; [|split; [congruence|split]].
  - rewrite <-Hps. unfold acc, projectField. by destruct (vs !! i).
  - intros j Hj. cbn [fmap list_fmap rf_index] in Hj. apply not_elem_of_cons in Hj as [Hne Hj]. rewrite Hout by done.
    unfold acc. destruct (vs !! i); [by rewrite list_lookup_insert_ne|done].
  - intros f x [->|Hf]%elem_of_cons Hx; [|by apply Hin]. cbn [rf_index] in *. rewrite Hout by done. unfold acc.
    rewrite Hx. apply list_lookup_insert_eq. apply lookup_lt_Some in Hx. lia.
Qed.

(** ** What is written *)

Definition encodeFields (vs : list (goValue F X)) :=
  fix go (fs : list refHMapField) : result (refError E) (list (string * string) * list refHMapWrite) :=
    match fs with
    | [] => Ok ([], [])
    | mkField i _ name ptr kind :: fs =>
        match vs !! i with
        | None => Err RefPanic
        | Some fv =>
            match kind with
            | refHMapScalarField _ _ =>
                raw ← encodeRefHMapScalar formatFloat marshalText fv;
                rest ← go fs;
                Ok (match raw with Some r => (name, r) :: rest.1 | None => rest.1 end, rest.2)
            | refHMapStructField child =>
                match ptr, fv with
                | true, VNil => go fs
                | _, _ =>
                    childWrites ← encodeNode child fv;
                    rest ← go fs;
                    Ok ((name, nd_key child) :: rest.1, childWrites ++ rest.2)
                end
            end
        end
    end.

Lemma encodeNode_fields typ key fields vs :
  encodeNode (mkNode typ key fields) (VStruct vs) =
  (out ← encodeFields vs fields; Ok (out.2 ++ [mkWrite key out.1])).
Proof. reflexivity. Qed.

Lemma encodeNode_ref n v : encodeNode n (VRef v) = encodeNode n v.
Proof. by destruct n. Qed.

(** The keys of the nodes below the fields. *)
Fixpoint childKeys (fs : list refHMapField) : list string :=
  match fs with
  | [] => []
  | f :: fs => match rf_kind f with refHMapStructField child => collectKeys child ++ childKeys fs | _ => childKeys fs end
  end.

Lemma collectKeys_fields typ key fields : collectKeys (mkNode typ key fields) = key :: childKeys fields.
Proof.
  cbn [collectKeys]. f_equal. induction fields as [|[i g name ptr [k t|c]] fs IH]; [done|done|]. cbn. by rewrite IH.
Qed.

(** What the hashes hold of the writes, the registry aside. *)
Definition written (hashes : string -> gmap string string) (w : refHMapWrite) : Prop :=
  forall name, name <> refHMapRegistryField -> hashes (wr_key w) !! name = list_to_map (M := gmap string string) (wr_values w) !! name.

(** The entry of one field among the pairs written for its node. *)
Definition entry (f : refHMapField) v (o : option string) : Prop :=
  match rf_kind f with
  | refHMapScalarField _ _ => encodeRefHMapScalar (E := E) formatFloat marshalText v = Ok o
  | refHMapStructField child => o = (match rf_ptr f, v with true, VNil => None | _, _ => Some (nd_key child) end)
  end.

(** The result of writing a node: its own pairs come last. *)
Definition encoded n v (ws : list refHMapWrite) (vals : list (string * string)) : Prop :=
  encodeNode n v = Ok (ws ++ [mkWrite (nd_key n) vals])
  /\ (wr_key <$> ws) ⊆+ childKeys (nd_fields n)
  /\ NoDup vals.*1 /\ (refHMapRegistryField ∉ vals.*1)
  /\ Forall (fun w => NoDup (wr_values w).*1) ws
  /\ forall hashes, Forall (written hashes) ws -> written hashes (mkWrite (nd_key n) vals) -> represents hashes n (project n v).

(** What the pairs and the writes for some fields give for one of them. *)
Definition field_out (vs : list (goValue F X)) (vals : list (string * string)) (ws : list refHMapWrite) (f : refHMapField)
    : Prop :=
  exists x o, vs !! rf_index f = Some x /\ field_fits f x /\ entry f x o
    /\ list_to_map (M := gmap string string) vals !! rf_name f = o
    /\ forall child y, rf_kind f = refHMapStructField child -> x = (if rf_ptr f then VRef y else y) ->
         forall hashes, Forall (written hashes) ws -> represents hashes child (project child y).

Lemma field_out_mono vs vals ws f name o ws' :
  name <> rf_name f -> field_out vs vals ws f ->
  field_out vs (match o with Some r => (name, r) :: vals | None => vals end) (ws' ++ ws) f.
Proof.
  intros Hne (x & o' & Hx & Hf & He & Hl & Hb). exists x, o'. split_and!; try done.
  - destruct o as [r|]; [|done]. cbn. by rewrite lookup_insert_ne.
  - intros child y Hk Hy hashes Hws. apply (Hb child y Hk Hy). by apply Forall_app in Hws as [_ ?].
Qed.

Lemma encoded_keys n v ws vals :
  encoded n v ws vals -> (wr_key <$> ws ++ [mkWrite (nd_key n) vals]) ⊆+ collectKeys n.
Proof.
  intros (_ & Hk & _). destruct n as [typ key fields]. rewrite collectKeys_fields, fmap_app. cbn in *.
  rewrite Permutation_app_comm. by apply submseteq_skip.
Qed.

Lemma encodeFields_ok vs fs :
  NoDup (rf_name <$> fs) ->
  (forall f, f ∈ fs -> exists x, vs !! rf_index f = Some x /\ field_fits f x) ->
  (forall f child y, f ∈ fs -> rf_kind f = refHMapStructField child -> fits child y ->
     exists ws vals, encoded child y ws vals) ->
  exists vals ws, encodeFields vs fs = Ok (vals, ws)
    /\ (wr_key <$> ws) ⊆+ childKeys fs /\ vals.*1 `sublist_of` (rf_name <$> fs)
    /\ Forall (fun w => NoDup (wr_values w).*1) ws
    /\ forall f, f ∈ fs -> field_out vs vals ws f.
Proof.
  induction fs as [|f fs IH]; intros Hd Hfit Hchild.
  { exists [], []. split_and!; try done. intros f Hf. by apply not_elem_of_nil in Hf. }
  cbn [fmap list_fmap] in Hd. apply NoDup_cons in Hd as [Hnin Hd].
  destruct IH as (vals & ws & Henc & Hkeys & Hsub & Hnd & Hout);
    [done|intros g Hg; apply Hfit; by right|intros g c y Hg; apply Hchild; by right|].
  destruct (Hfit f) as (x & Hx & Hfx); [by left|].
  assert (Htail : forall o ws' g, g ∈ fs ->
    field_out vs (match o with Some r => (rf_name f, r) :: vals | None => vals end) (ws' ++ ws) g).
  { intros o ws' g Hg. apply field_out_mono; [|by apply Hout]. intros Heq. apply Hnin. rewrite Heq.
    by apply list_elem_of_fmap_2. }
  assert (Hnone : list_to_map (M := gmap string string) vals !! rf_name f = None).
  { apply not_elem_of_list_to_map_1. intros Hin. apply Hnin. by eapply elem_of_sublist. }
  destruct f as [i g name ptr [k t|child]]; cbn [rf_index rf_name rf_kind rf_ptr childKeys encodeFields] in *.
  - rewrite Hx. destruct (scalar_field_roundtrip t x Hfx) as (o & Ho & _).
    exists (match o with Some r => (name, r) :: vals | None => vals end), ([] ++ ws).
    rewrite Ho. cbn [mbind result_bind]. rewrite Henc. split_and!; try done.
    + destruct o; cbn; [by constructor|by apply sublist_cons].
    + intros f' Hf'. apply elem_of_cons in Hf' as [->|Hf']; [|by apply Htail].
      exists x, o. split_and!; try done. destruct o; cbn; [by rewrite lookup_insert_eq|done].
  - destruct (match ptr, x with true, VNil => true | _, _ => false end) eqn:Hnil.
    + destruct ptr, x; try done. rewrite Hx. exists vals, ([] ++ ws). split_and!; try done.
      * by apply submseteq_inserts_l.
      * by apply sublist_cons.
      * intros f' Hf'. apply elem_of_cons in Hf' as [->|Hf']; [|by apply (Htail None)].
        exists VNil, None. by split_and!.
    + assert (Hy : exists y, x = (if ptr then VRef y else y) /\ fits child y).
      { destruct ptr; [|by exists x]. destruct x; try done. by eexists. }
      destruct Hy as (y & Hxy & Hy).
      destruct (Hchild (mkField i g name ptr (refHMapStructField child)) child y) as (cws & cvals & Henc'); [by left|done|done|].
      pose proof Henc' as (He & _ & Hcd & Hcr & Hcn & Hrep).
      exists ((name, nd_key child) :: vals), ((cws ++ [mkWrite (nd_key child) cvals]) ++ ws).
      assert (Hex : encodeNode child x = Ok (cws ++ [mkWrite (nd_key child) cvals])).
      { rewrite <-He, Hxy. by destruct ptr; [apply encodeNode_ref|]. }
      split_and!.
      * rewrite Hx. destruct ptr, x; try done; rewrite Hex; run_bind; by rewrite Henc.
      * rewrite fmap_app. apply submseteq_app; [|done]. by eapply encoded_keys.
      * by constructor.
      * rewrite !Forall_app. split_and!; try done. by repeat constructor.
      * intros f' Hf'. apply elem_of_cons in Hf' as [->|Hf']; [|by apply (Htail (Some _))].
        exists x, (Some (nd_key child)). split_and!; try done.
        { unfold entry. cbn. by destruct ptr, x. }
        { cbn. by rewrite lookup_insert_eq. }
        { intros child' y' Hk Hxy' hashes Hws. cbn in Hk. injection Hk as <-.
          assert (y' = y) as -> by (cbn in Hxy'; destruct ptr; congruence).
          rewrite !Forall_app in Hws. destruct Hws as [[Hcws Hself] _]. apply Hrep; [done|].
          by apply Forall_cons in Hself as [? _]. }
Qed.

(** What a field's entry says of its value. *)
Lemma field_out_rep hashes f x z o :
  field_fits f x -> entry f x o ->
  match rf_kind f with
  | refHMapScalarField _ t => isPointer t = true -> z = VNil
  | refHMapStructField child => z = if rf_ptr f then VNil else zero (nd_typ child)
  end ->
  (forall child y, rf_kind f = refHMapStructField child -> x = (if rf_ptr f then VRef y else y) ->
     represents hashes child (project child y)) ->
  (forall child, rf_kind f = refHMapStructField child -> nd_key child <> "") ->
  let x' := projectField f x in
  match o, rf_kind f with
  | None, _ => x' = z
  | Some raw, refHMapScalarField _ t => decodeScalar t raw = Ok x'
  | Some raw, refHMapStructField child =>
      if String.eqb raw "" then x' = z
      else if rf_ptr f then exists y, x' = VRef y /\ z = VNil /\ represents hashes child y
      else z = zero (nd_typ child) /\ represents hashes child x'
  end.
Proof.
  unfold field_fits, entry, projectField. cbv zeta. destruct (rf_kind f) as [k t|child]; intros Hfit He Hz Hrep Hkey.
  - destruct (scalar_field_roundtrip t x Hfit) as (o' & Ho & Hdec). rewrite He in Ho. injection Ho as ->.
    destruct o' as [raw|]; [done|]. subst x. destruct t as [k'|t|s|]; [by destruct k'|symmetry; by apply Hz|done..].
  - specialize (Hkey child eq_refl). apply String.eqb_neq in Hkey. destruct (rf_ptr f).
    + destruct x as [| | | | | | | |y|]; try done; subst o; [done|]. rewrite Hkey. exists (project child y). split_and!; try done.
      by apply Hrep.
    + subst o. rewrite Hkey. split; [done|]. by apply Hrep.
Qed.

Lemma encode_ok n v :
  every separate n -> every zeroes n -> fits n v -> exists ws vals, encoded n v ws vals.
Proof.
  revert v. induction n as [typ key fields IH] using node_rect_children. intros v Hsep Hzero Hfit.
  apply fits_fields in Hfit as (vs & zs & -> & Hz & Hlen & Hall).
  destruct (encodeFields_ok vs fields) as (vals & ws & Henc & Hkeys & Hsub & Hnd & Hout); [apply Hsep|done| |].
  { intros [i g name ptr kind] child y Hin Hk Hy. cbn in Hk. subst kind.
    eapply IH; [done|by eapply every_child..|done]. }
  pose proof Hsep as Hall'. destruct Hsep as [(Hkey & Hix & Hnames & Hreg) Hsep], Hzero as [(zs' & Hz' & Hzs) Hzero].
  assert (zs' = zs) as -> by congruence.
  exists ws, vals. cbn [encoded nd_key nd_fields]. split_and!; try done.
  - by rewrite encodeNode_fields, Henc.
  - by eapply sublist_NoDup.
  - intros Hin. apply Hreg. by eapply elem_of_sublist.
  - intros hashes Hws Hown. destruct (project_fields typ key fields vs zs Hz Hlen Hix) as (ps & Hps & Hpl & Hpo & Hpf).
    apply represents_fields. exists ps, zs. split_and!; try done. intros f Hf.
    destruct (Hout f Hf) as (x & o & Hx & Hfx & He & Hl & Hb). destruct (Hzs f Hf) as (z & Hzf & Hzk).
    exists (projectField f x), z. split; [by apply Hpf|]. split; [done|].
    assert (Hname : rf_name f <> refHMapRegistryField).
    { intros Heq. apply Hreg. rewrite <-Heq. by apply list_elem_of_fmap_2. }
    specialize (Hown _ Hname). cbn in Hown. rewrite Hown, Hl. apply field_out_rep; [done..|intros child y Hk Hy; by apply (Hb child y)|].
    intros child Hk. destruct f as [i g name ptr kind]. cbn in Hk. subst kind.
    pose proof (every_child _ _ _ _ _ _ _ _ _ Hall' Hf) as Hc. by destruct child, Hc as [[? _] _].
Qed.

End Represent.

(** ** Redis *)

Lemma tonumber_format m : tonumber (formatInt m) = Some m.
Proof.
  unfold tonumber. destruct (int_text (Z.to_int m)) as (d & Hd & Hz). rewrite DecimalZ.of_to in Hz.
  change (DecimalString.NilZero.int_of_string (formatInt m) = Some d) in Hd. by rewrite Hd, <-Hz.
Qed.

Lemma DEL_lookup (db : redisDB) keys k : DEL db keys !! k = if decide (k ∈ keys) then None else db !! k.
Proof.
  revert db. induction keys as [|k' keys IH]; intros db; cbn [DEL foldl].
  - rewrite decide_False; [done|]. apply not_elem_of_nil.
  - rewrite IH. destruct (decide (k ∈ keys)) as [Hk|Hk]; [rewrite decide_True; [done|]; by right|].
    destruct (decide (k = k')) as [->|Hne].
    + rewrite lookup_delete_eq, decide_True; [done|]. by left.
    + rewrite lookup_delete_ne by done. rewrite decide_False; [done|]. rewrite elem_of_cons. tauto.
Qed.

#[local] Abbreviation hset := (fun (db : redisDB) w => HSET db (wr_key w) (wr_values w)).

Lemma HSET_other (db : redisDB) key values k : k <> key -> HSET db key values !! k = db !! k.
Proof. intros Hne. unfold HSET. destruct values; [done|]. by rewrite lookup_insert_ne. Qed.

Lemma HSETs_other ws (db : redisDB) k : k ∉ wr_key <$> ws -> foldl hset db ws !! k = db !! k.
Proof.
  revert db. induction ws as [|w ws IH]; intros db Hk; [done|]. cbn [fmap list_fmap foldl] in *.
  apply not_elem_of_cons in Hk as [Hne Hk]. rewrite IH by done. by apply HSET_other.
Qed.

Lemma fold_insert (h : gmap string string) values :
  NoDup values.*1 -> foldl (fun h p => <[p.1 := p.2]> h) h values = list_to_map values ∪ h.
Proof.
  revert h. induction values as [|[a b] values IH]; intros h Hd; cbn [foldl list_to_map foldr fmap list_fmap] in *.
  - by rewrite (left_id_L ∅ (∪)).
  - apply NoDup_cons in Hd as [Hnin Hd]. rewrite IH by done. cbn [fst snd].
    rewrite <-insert_union_r by (by apply not_elem_of_list_to_map_1). by rewrite insert_union_l.
Qed.

(** A hash that was absent is what is written to it. *)
Lemma HSETs_written ws (db : redisDB) w :
  NoDup (wr_key <$> ws) -> w ∈ ws -> NoDup (wr_values w).*1 -> db !! wr_key w = None ->
  HGETALL (foldl hset db ws) (wr_key w) = list_to_map (wr_values w).
Proof.
  revert db. induction ws as [|w' ws IH]; intros db Hd Hin Hn Hnone; [by apply not_elem_of_nil in Hin|].
  cbn [fmap list_fmap foldl] in *. apply NoDup_cons in Hd as [Hnin Hd]. apply elem_of_cons in Hin as [<-|Hin].
  - unfold HGETALL. rewrite HSETs_other by done. unfold HSET. destruct (wr_values w) as [|p ps] eqn:Hv.
    + by rewrite Hnone.
    + rewrite lookup_insert_eq. cbn [default]. rewrite fold_insert by done. unfold HGETALL. rewrite Hnone.
      cbn [default]. by rewrite (right_id_L ∅ (∪)).
  - apply IH; try done. rewrite HSET_other; [done|]. intros Heq. apply Hnin. rewrite <-Heq. by apply list_elem_of_fmap_2.
Qed.

(** ** The script *)

Lemma pairUp_values (values : list (string * string)) : pairUp (values ≫= fun p => [p.1; p.2]) = values.
Proof. induction values as [|[a b] values IH]; [done|]. rewrite bind_cons. cbn [app pairUp fst snd]. by rewrite IH. Qed.

Lemma values_length (values : list (string * string)) :
  Z.to_nat (len values * 2) = length (values ≫= fun p => [p.1; p.2]).
Proof.
  assert (H : length (values ≫= fun p => [p.1; p.2]) = (length values * 2)%nat).
  { induction values as [|[a b] values IH]; [done|]. rewrite bind_cons, length_app, IH. cbn. lia. }
  rewrite H. unfold len. lia.
Qed.

Lemma keyNumber_lookup keys key i : keyNumber keys key = Some i -> keys !! i = Some key.
Proof.
  unfold keyNumber. destruct (list_find _ keys) as [[j k]|] eqn:Hf; [|done]. cbn. intros [= ->].
  by apply list_find_Some in Hf as (? & -> & _).
Qed.

Lemma scriptArgs_prefix ws keys : keys `prefix_of` (scriptArgs keys ws).1.
Proof.
  revert keys. induction ws as [|w ws IH]; intros keys; [done|]. cbn [scriptArgs].
  destruct (keyNumber keys (wr_key w)) as [i|].
  - specialize (IH keys). by destruct (scriptArgs keys ws).
  - specialize (IH (keys ++ [wr_key w])). destruct (scriptArgs (keys ++ [wr_key w]) ws) as [keys' args]. cbn in *.
    etrans; [|exact IH]. by apply prefix_app_r.
Qed.

Lemma scriptWrites_args ws keys KEYS (db : redisDB) :
  (scriptArgs keys ws).1 `prefix_of` KEYS ->
  scriptWrites (length ws) KEYS (scriptArgs keys ws).2 db = foldl hset db ws.
Proof.
  revert keys db. induction ws as [|w ws IH]; intros keys db Hpre; [done|]. cbn [scriptArgs] in *.
  destruct (match keyNumber keys (wr_key w) with Some i => (keys, i) | None => (keys ++ [wr_key w], length keys) end)
    as [keys1 idx] eqn:Hidx.
  specialize (IH keys1). pose proof (scriptArgs_prefix ws keys1) as Hp1.
  destruct (scriptArgs keys1 ws) as [keys2 args]. cbn [fst snd length scriptWrites foldl] in *.
  assert (Hkey : KEYS !! idx = Some (wr_key w)).
  { eapply prefix_lookup_Some; [|by etrans]. destruct (keyNumber keys (wr_key w)) as [i|] eqn:Hn; injection Hidx as <- <-.
    - by apply keyNumber_lookup.
    - by rewrite lookup_app_r, Nat.sub_diag by done. }
  rewrite !tonumber_format. cbn zeta. rewrite values_length, take_app_length, drop_app_length, pairUp_values.
  replace (Z.to_nat (Z.of_nat idx + 1 - 1)) with idx by lia. rewrite Hkey. by apply IH.
Qed.

(** The script does what the commands do. *)
Lemma refHMapWriteScript_commands ttl ws keys (db : redisDB) :
  refHMapWriteScript (scriptArgs keys ws).1 (formatInt ttl :: formatInt (len ws) :: (scriptArgs keys ws).2) db
  = foldl hset (DEL db (scriptArgs keys ws).1) ws.
Proof.
  cbn [refHMapWriteScript]. rewrite tonumber_format.
  replace (Z.to_nat (len ws)) with (length ws) by (unfold len; lia). by apply scriptWrites_args.
Qed.

Lemma scriptArgs_known ws keys : (forall w, w ∈ ws -> wr_key w ∈ keys) -> (scriptArgs keys ws).1 = keys.
Proof.
  induction ws as [|w ws IH]; intros Hin; [done|]. cbn [scriptArgs].
  assert (Hk : exists i, keyNumber keys (wr_key w) = Some i).
  { unfold keyNumber. destruct (list_find_elem_of (fun k => k = wr_key w) keys (wr_key w)) as [[i k] ->];
      [apply Hin; by left|done|by exists i]. }
  destruct Hk as [i ->]. destruct (scriptArgs keys ws) as [keys' args] eqn:Hs. cbn. apply IH. intros w' Hw'.
  apply Hin. by right.
Qed.

(** ** The store *)

Lemma withRegistry_last n ws vals :
  nd_key n ∉ wr_key <$> ws ->
  withRegistry n (ws ++ [mkWrite (nd_key n) vals])
  = ws ++ [mkWrite (nd_key n) (vals ++ [(refHMapRegistryField, join newlineText (collectKeys n))])].
Proof.
  unfold withRegistry. induction ws as [|w ws IH]; intros Hnin.
  - cbn. by rewrite String.eqb_refl.
  - cbn [fmap list_fmap] in Hnin. apply not_elem_of_cons in Hnin as [Hne Hnin]. cbn [app].
    rewrite (proj2 (String.eqb_neq _ _)) by done. f_equal. by apply IH.
Qed.

Section Store.
Context {E K F X : Type}.
Context (structs : gmap string (list structField)).
Context (formatFloat : F -> string) (parseFloat : Z -> string -> option F).
Context (marshalText : X -> option string) (unmarshalText : string -> string -> option X).
Context (zero : string -> goValue F X).
Implicit Types (v : goValue F X) (n : refHMapNode) (io : redisAnswers).

#[local] Abbreviation Set_ := (RefHMap_Set (E := E) structs formatFloat parseFloat marshalText unmarshalText zero).
#[local] Abbreviation Get := (RefHMap_Get (E := E) structs parseFloat unmarshalText zero).
#[local] Abbreviation Delete := (RefHMap_Delete (E := E) structs).
#[local] Abbreviation registered := (registeredKeys (E := E)).
#[local] Abbreviation hset := (fun (db : redisDB) w => HSET db (wr_key w) (wr_values w)).
#[local] Abbreviation encodedAs := (encoded (E := E) formatFloat parseFloat marshalText unmarshalText zero).

Lemma evalWriteHashes_ok ttl db keys ws io :
  ra_eval io || ra_exec io = true -> (forall w, w ∈ ws -> wr_key w ∈ keys) ->
  evalWriteHashes (E := E) ttl db keys ws io = (foldl hset (DEL db keys) ws, Ok tt).
Proof.
  intros Hio Hin. pose proof (refHMapWriteScript_commands ttl ws keys db) as Hscript.
  pose proof (scriptArgs_known ws keys Hin) as Hk. unfold evalWriteHashes.
  destruct (scriptArgs keys ws) as [keys' args]. cbn [fst snd] in Hk, Hscript. subst keys'.
  destruct (ra_eval io); [by rewrite <-Hscript|]. by destruct (ra_exec io).
Qed.

Lemma registered_ok db n io : ra_registry io = true -> exists keys, registered db n io = Ok keys.
Proof.
  intros Hio. unfold registeredKeys. rewrite Hio. cbn. destruct (HGETALL db (nd_key n) !! _); [|by eexists].
  destruct (parseRefHMapRegistry s); by eexists.
Qed.

Lemma separate_keys n k : every separate n -> k ∈ collectKeys n -> k <> "".
Proof.
  revert k. induction n as [typ key fields IH] using node_rect_children. intros k Hsep Hk.
  rewrite collectKeys_fields in Hk. apply elem_of_cons in Hk as [->|Hk]; [apply Hsep|].
  assert (Hc : exists i g name ptr child, mkField i g name ptr (refHMapStructField child) ∈ fields /\ k ∈ collectKeys child).
  { clear IH Hsep. induction fields as [|[i g name ptr [sk t|child]] fields IHf]; cbn in Hk.
    - by apply not_elem_of_nil in Hk.
    - destruct (IHf Hk) as (i' & g' & n' & p' & c' & Hin & Hkc). exists i', g', n', p', c'. split; [by right|done].
    - apply elem_of_app in Hk as [Hk|Hk]; [exists i, g, name, ptr, child; split; [by left|done]|].
      destruct (IHf Hk) as (i' & g' & n' & p' & c' & Hin & Hkc). exists i', g', n', p', c'. split; [by right|done]. }
  destruct Hc as (i & g & name & ptr & child & Hin & Hkc). eapply IH; [done| |done]. by eapply every_child.
Qed.

(** The writes of an encoded value: their keys are those of the nodes, the
    root's comes last. *)
Lemma encoded_writes n v ws vals :
  NoDup (collectKeys n) -> encodedAs n v ws vals ->
  (nd_key n ∉ wr_key <$> ws) /\ NoDup (wr_key <$> ws ++ [mkWrite (nd_key n) vals])
  /\ forall k, k ∈ wr_key <$> ws ++ [mkWrite (nd_key n) vals] -> k ∈ collectKeys n.
Proof.
  intros Hnd Henc. pose proof (encoded_keys _ _ _ _ _ _ _ _ _ Henc) as Hkeys.
  assert (Hdup : NoDup (wr_key <$> ws ++ [mkWrite (nd_key n) vals])).
  { apply submseteq_Permutation in Hkeys as [rest Hperm]. rewrite Hperm in Hnd. by apply NoDup_app in Hnd as [? _]. }
  split; [|split; [done|intros k Hk; by eapply elem_of_submseteq]].
  rewrite fmap_app in Hdup. apply NoDup_app in Hdup as (_ & Hdisj & _). intros Hin. apply (Hdisj _ Hin). by left.
Qed.

(** On a database without the keys of the nodes, writing an encoded value and the
    registry makes it hold both. *)
Lemma written_represents n v ws vals reg (db : redisDB) :
  NoDup (collectKeys n) -> encodedAs n v ws vals -> (forall k, k ∈ collectKeys n -> db !! k = None) ->
  let db' := foldl hset db (ws ++ [mkWrite (nd_key n) (vals ++ [(refHMapRegistryField, reg)])]) in
  represents (E := E) parseFloat unmarshalText zero (HGETALL db') n (project zero n v)
  /\ HGETALL db' (nd_key n) !! refHMapRegistryField = Some reg.
Proof.
  intros Hnd Henc Hnone db'. destruct (encoded_writes _ _ _ _ Hnd Henc) as (Hroot & Hdup & Hin).
  destruct Henc as (_ & _ & Hvn & Hvr & Hwn & Hrep).
  set (last := mkWrite (nd_key n) (vals ++ [(refHMapRegistryField, reg)])) in *.
  assert (Hkeys : wr_key <$> ws ++ [last] = wr_key <$> ws ++ [mkWrite (nd_key n) vals]) by by rewrite !fmap_app.
  assert (Hw : forall w, w ∈ ws ++ [last] -> NoDup (wr_values w).*1 -> HGETALL db' (wr_key w) = list_to_map (wr_values w)).
  { intros w Hw Hn. apply HSETs_written; [by rewrite Hkeys|done|done|]. apply Hnone, Hin. rewrite <-Hkeys.
    by apply list_elem_of_fmap_2. }
  assert (Hlast : HGETALL db' (nd_key n) = list_to_map (vals ++ [(refHMapRegistryField, reg)])).
  { apply (Hw last); [apply elem_of_app; right; by left|]. cbn. rewrite fmap_app. cbn. apply NoDup_app.
    split_and!; [done| |apply NoDup_singleton]. by intros x Hx ->%list_elem_of_singleton. }
  rewrite Hlast, list_to_map_app. split.
  - apply Hrep.
    + rewrite Forall_forall in Hwn. apply Forall_forall. intros w Hwin name _. rewrite Hw; [done|apply elem_of_app; by left|].
      by apply Hwn.
    + intros name Hname. cbn [wr_key wr_values]. rewrite Hlast, list_to_map_app, lookup_union_l; [done|]. cbn.
      by rewrite lookup_insert_ne.
  - rewrite lookup_union_r by (by apply not_elem_of_list_to_map_1). cbn. by rewrite lookup_insert_eq.
Qed.

(** What writing an encoded value does to every key. *)
Lemma writeHashes_ok ttl db n v ws vals io keys :
  every separate n -> NoDup (collectKeys n) -> encodedAs n v ws vals ->
  ra_eval io || ra_exec io = true -> registered db n io = Ok keys ->
  exists db', writeHashes (E := E) ttl db n (ws ++ [mkWrite (nd_key n) vals]) io = (db', Ok tt)
    /\ represents (E := E) parseFloat unmarshalText zero (HGETALL db') n (project zero n v)
    /\ HGETALL db' (nd_key n) !! refHMapRegistryField = Some (join newlineText (collectKeys n))
    /\ forall k, k ∉ collectKeys n -> db' !! k = if decide (k ∈ keys /\ k <> "") then None else db !! k.
Proof.
  intros Hsep Hnd Henc Hio Hreg. destruct (encoded_writes _ _ _ _ Hnd Henc) as (Hroot & _ & Hin).
  set (D := uniqueRefHMapKeys [] (keys ++ collectKeys n)).
  assert (Hdel : forall k, k ∈ D <-> (k ∈ keys \/ k ∈ collectKeys n) /\ k <> "").
  { intros k. unfold D. rewrite unique_elem, elem_of_app. pose proof (not_elem_of_nil k). tauto. }
  assert (HinD : forall k, k ∈ collectKeys n -> k ∈ D).
  { intros k Hk. apply Hdel. split; [by right|]. by eapply separate_keys. }
  assert (Hlast : forall vals' w, w ∈ ws ++ [mkWrite (nd_key n) vals'] -> wr_key w ∈ collectKeys n).
  { intros vals' w Hw. apply Hin. apply (list_elem_of_fmap_2 wr_key) in Hw. by rewrite fmap_app in *. }
  unfold writeHashes. rewrite Hreg, withRegistry_last by done. fold D.
  rewrite evalWriteHashes_ok; [|done|intros w Hw; by eapply HinD, Hlast].
  eexists. split; [done|].
  destruct (written_represents n v ws vals (join newlineText (collectKeys n)) (DEL db D)) as [Hrep Hr]; [done|done| |].
  { intros k Hk. by rewrite DEL_lookup, decide_True by (by apply HinD). }
  split; [done|]. split; [done|]. intros k Hk. rewrite HSETs_other.
  - rewrite DEL_lookup. apply decide_ext. rewrite Hdel. tauto.
  - intros (w & -> & Hw)%list_elem_of_fmap_1. by eapply Hk, Hlast.
Qed.

End Store.

(** ** The keys of a plan *)

Lemma every_intro P typ key fields :
  P typ key fields -> (forall f child, f ∈ fields -> rf_kind f = refHMapStructField child -> every P child) ->
  every P (mkNode typ key fields).
Proof.
  intros HP Hc. cbn. split; [done|]. clear HP.
  induction fields as [|[i g name ptr [k t|c]] fields IH]; [done| |].
  - apply IH. intros f child Hf. apply Hc. by right.
  - split; [|apply IH; intros f child Hf; apply Hc; by right].
    apply (Hc (mkField i g name ptr (refHMapStructField c))); [by left|done].
Qed.

(** The names under which the fields of a struct are stored. *)
Definition structNames (sfs : list structField) : list string :=
  omap (fun sf => if sf_exported sf then refHMapFieldName sf else None) sfs.

Definition names_ok (sfs : list structField) : Prop :=
  NoDup (structNames sfs) /\ (refHMapRegistryField ∉ structNames sfs)
  /\ forallb (lacks ":") (structNames sfs) = true.

Lemma nodeKey_inj base p q :
  p <> [] -> q <> [] -> forallb (lacks ":") p = true -> forallb (lacks ":") q = true ->
  nodeKey base p = nodeKey base q -> p = q.
Proof.
  intros Hp Hq Hlp Hlq Heq.
  assert (Hj : join ":" p = join ":" q).
  { destruct p, q; try done. unfold nodeKey in Heq. by apply (inj (String.append base)), (inj (String.append ":")) in Heq. }
  by rewrite <-(split_join ":" p), <-(split_join ":" q), Hj.
Qed.

Section Plan.
Context {E : Type} (structs : gmap string (list structField)).

(** What a planned field says of the field of the struct. *)
Definition field_of (child : string -> string -> result (refError E) refHMapNode) (sf : structField) (f : refHMapField)
    : Prop :=
  match rf_kind f with
  | refHMapScalarField _ t => t = sf_Type sf
  | refHMapStructField c =>
      exists t, child t (rf_name f) = Ok c /\ sf_Type sf = (if rf_ptr f then TPointer (TStruct t) else TStruct t)
  end.

Lemma planField_shape child i sf o :
  planField child i sf = Ok o ->
  (rf_name <$> o) = (if sf_exported sf then refHMapFieldName sf else None)
  /\ forall f, o = Some f -> rf_index f = i /\ field_of child sf f.
Proof.
  unfold planField. destruct (sf_exported sf); cbn [negb]; [|by intros [= <-]].
  destruct (refHMapFieldName sf) as [name|]; [|by intros [= <-]].
  assert (Hsc : forall k ptr t, Ok (Some (mkField i (sf_Name sf) name ptr (refHMapScalarField k t))) = Ok (E := refError E) o ->
    t = sf_Type sf -> (rf_name <$> o) = Some name /\ forall f, o = Some f -> rf_index f = i /\ field_of child sf f).
  { intros k ptr t [= <-] Ht. split; [done|]. by intros f [= <-]. }
  assert (Hst : forall ptr typ, (c ← child typ name; Ok (Some (mkField i (sf_Name sf) name ptr (refHMapStructField c)))) = Ok o ->
    sf_Type sf = (if ptr then TPointer (TStruct typ) else TStruct typ) ->
    (rf_name <$> o) = Some name /\ forall f, o = Some f -> rf_index f = i /\ field_of child sf f).
  { intros ptr typ Ho Ht. destruct (child typ name) as [c|] eqn:Hc; [|done]. injection Ho as <-. split; [done|].
    intros f [= <-]. split; [done|]. by exists typ. }
  destruct (sf_Type sf) as [k|t|typ|] eqn:Ht; cbn [refHMapDeref]; intros Ho; [by eapply Hsc| |by eapply Hst|done].
  destruct (refHMapDeref t); [by eapply Hsc|..]; (destruct t; try done; by eapply Hst).
Qed.

Lemma planFields_shape child i sfs fs :
  planFields child i sfs = Ok fs ->
  rf_name <$> fs = structNames sfs /\ NoDup (rf_index <$> fs)
  /\ forall f, f ∈ fs -> exists sf, (i <= rf_index f)%nat /\ sfs !! (rf_index f - i)%nat = Some sf /\ field_of child sf f.
Proof.
  revert i fs. induction sfs as [|sf sfs IH]; intros i fs; cbn [planFields].
  - intros [= <-]. split_and!; [done|constructor|]. intros f Hf. by apply not_elem_of_nil in Hf.
  - destruct (planField child i sf) as [o|] eqn:Ho; [|done]. run_bind.
    destruct (planFields child (S i) sfs) as [rest|] eqn:Hr; [|done]. run_bind. intros [= <-].
    apply planField_shape in Ho as [Hname Hshape]. destruct (IH _ _ Hr) as (Hn & Hd & Hrest). unfold structNames.
    assert (Htail : forall f, f ∈ rest -> exists sf', (S i <= rf_index f)%nat /\ (sf :: sfs) !! (rf_index f - i)%nat = Some sf'
      /\ field_of child sf' f).
    { intros f Hf. destruct (Hrest f Hf) as (sf' & Hle & Hl & Hfo). exists sf'. split_and!; [lia| |done].
      by replace (rf_index f - i)%nat with (S (rf_index f - S i)) by lia. }
    cbn [omap list_omap]. fold structNames. rewrite <-Hname. destruct o as [g|]; cbn [fmap option_fmap option_map].
    + destruct (Hshape g eq_refl) as [Hi Hc]. split_and!.
      * cbn. f_equal. done.
      * cbn. apply NoDup_cons. split; [|done]. intros (f & Heq & Hf)%list_elem_of_fmap_1.
        destruct (Hrest f Hf) as (_ & Hle & _). lia.
      * intros f [->|Hf]%elem_of_cons; [|destruct (Htail f Hf) as (sf' & Hle & Hsf); exists sf'; split; [lia|done]].
        exists sf. rewrite Hi, Nat.sub_diag. by split_and!.
    + split_and!; [done|done|]. intros f Hf. destruct (Htail f Hf) as (sf' & Hle & Hsf). exists sf'. split; [lia|done].
Qed.

(** The keys below the fields of a node are apart when the keys below each are,
    and lie under its name. *)
Lemma childKeys_apart base path fs :
  NoDup (rf_name <$> fs) -> forallb (lacks ":") (rf_name <$> fs) = true -> forallb (lacks ":") path = true ->
  (forall f c, f ∈ fs -> rf_kind f = refHMapStructField c -> NoDup (collectKeys c)
     /\ forall k, k ∈ collectKeys c -> exists q, forallb (lacks ":") q = true /\ k = nodeKey base (path ++ rf_name f :: q)) ->
  NoDup (childKeys fs)
  /\ forall k, k ∈ childKeys fs -> exists name q,
       name ∈ rf_name <$> fs /\ forallb (lacks ":") q = true /\ k = nodeKey base (path ++ name :: q).
Proof.
  induction fs as [|f fs IH]; intros Hd Hl Hp Hc; [split; [constructor|]; intros k Hk; by apply not_elem_of_nil in Hk|].
  cbn [fmap list_fmap forallb childKeys] in *. apply NoDup_cons in Hd as [Hnin Hd]. apply andb_true_iff in Hl as [Hlf Hl].
  destruct IH as [IHd IHk]; [done|done|done|intros g c Hg; apply Hc; by right|].
  assert (Htail : forall k, k ∈ childKeys fs -> exists name q,
    name ∈ rf_name f :: (rf_name <$> fs) /\ forallb (lacks ":") q = true /\ k = nodeKey base (path ++ name :: q)).
  { intros k Hk. destruct (IHk k Hk) as (name & q & Hn & Hq). exists name, q. split; [by right|done]. }
  destruct (rf_kind f) as [sk t|c] eqn:Hkind; [done|].
  destruct (Hc f c) as [Hcd Hck]; [by left|done|]. split.
  - apply NoDup_app. split_and!; [done| |done]. intros k Hk Hk'. destruct (Hck k Hk) as (q & Hq & ->).
    destruct (IHk _ Hk') as (name & q' & Hn & Hq' & Heq). apply nodeKey_inj in Heq.
    + apply app_inv_head in Heq. injection Heq as Heq _. by rewrite Heq in Hnin.
    + by destruct path.
    + by destruct path.
    + rewrite forallb_app. cbn. by rewrite Hp, Hlf, Hq.
    + rewrite forallb_app. cbn. rewrite Hp, Hq'. rewrite forallb_forall in Hl.
      rewrite (Hl name) by (by apply list_elem_of_In). done.
  - intros k [Hk|Hk]%elem_of_app; [|by apply Htail]. destruct (Hck k Hk) as (q & Hq & ->). exists (rf_name f), q.
    split; [by left|done].
Qed.

(** The zero value of a struct, as [reflect.New] makes it. *)
Definition zero_of {F X} (zero : string -> goValue F X) (typ : string) (sfs : list structField) : Prop :=
  exists zs, zero typ = VStruct zs
    /\ forall i sf, sfs !! i = Some sf -> exists z, zs !! i = Some z
         /\ match sf_Type sf with TPointer _ => z = VNil | TStruct t => z = zero t | _ => True end.

Context {F X : Type} (zero : string -> goValue F X).
Hypothesis Hnames : forall typ sfs, structs !! typ = Some sfs -> names_ok sfs.
Hypothesis Hzero : forall typ, zero_of zero typ (default [] (structs !! typ)).

Lemma planned_zeroes typ key fs child :
  (forall f, f ∈ fs -> exists sf, default [] (structs !! typ) !! rf_index f = Some sf /\ field_of child sf f) ->
  (forall f c t, f ∈ fs -> rf_kind f = refHMapStructField c -> child t (rf_name f) = Ok c -> nd_typ c = t) ->
  zeroes zero typ key fs.
Proof using Hzero.
  intros Hfs Htyp. destruct (Hzero typ) as (zs & Hz & Hzs). exists zs. split; [done|]. intros f Hf.
  destruct (Hfs f Hf) as (sf & Hsf & Hof). destruct (Hzs _ _ Hsf) as (z & Hzi & Hval). exists z. split; [done|].
  unfold field_of in Hof. destruct (rf_kind f) as [k t|c] eqn:Hk.
  - intros Hp. subst t. by destruct (sf_Type sf).
  - destruct Hof as (t & Ht & Hst). rewrite Hst in Hval. destruct (rf_ptr f); [done|]. by rewrite (Htyp f c t).
Qed.

Lemma build_apart fuel base maxDepth depth stack typ path n :
  forallb (lacks ":") path = true -> (path = [] -> "root" ∉ structNames (default [] (structs !! typ))) ->
  buildRefHMapNode (E := E) structs fuel base maxDepth depth stack typ path = Ok n ->
  nd_typ n = typ /\ every separate n /\ every (zeroes zero) n /\ NoDup (collectKeys n)
  /\ forall k, k ∈ collectKeys n -> exists q, forallb (lacks ":") q = true /\ k = nodeKey base (path ++ q).
Proof using Hnames Hzero.
  revert depth stack typ path n. induction fuel as [|fuel IH]; intros depth stack typ path n Hp Hroot; [done|].
  cbn [buildRefHMapNode]. destruct (maxDepth <? depth); [done|]. case_bool_decide; [done|].
  destruct (planFields _ 0 _) as [fs|] eqn:Hfs; [|done]. run_bind. intros [= <-].
  apply planFields_shape in Hfs as (Hn & Hix & Hsh).
  assert (Hok : names_ok (default [] (structs !! typ))).
  { destruct (structs !! typ) eqn:Ht; [by eapply Hnames|]. split_and!; [constructor|apply not_elem_of_nil|done]. }
  destruct Hok as (Hnd & Hreg & Hl). rewrite <-Hn in Hnd, Hreg, Hl, Hroot.
  assert (Hsub : forall f c t, f ∈ fs -> rf_kind f = refHMapStructField c ->
    buildRefHMapNode (E := E) structs fuel base maxDepth (depth + 1) (typ :: stack) t (path ++ [rf_name f]) = Ok c ->
    nd_typ c = t /\ every separate c /\ every (zeroes zero) c /\ NoDup (collectKeys c)
    /\ forall k, k ∈ collectKeys c -> exists q, forallb (lacks ":") q = true /\ k = nodeKey base (path ++ rf_name f :: q)).
  { intros f c t Hf Hk Ht. apply IH in Ht; [| |by destruct path].
    - destruct Ht as (Hty & Hs & Hzz & Hd & Hkeys). split_and!; try done. intros k Hkk.
      destruct (Hkeys k Hkk) as (q & Hq & ->). exists q. by rewrite <-app_assoc.
    - rewrite forallb_app. cbn. rewrite Hp. rewrite forallb_forall in Hl.
      rewrite (Hl (rf_name f)); [done|]. apply list_elem_of_In. by apply list_elem_of_fmap_2. }
  assert (Hbuilt : forall f c, f ∈ fs -> rf_kind f = refHMapStructField c -> exists t,
    buildRefHMapNode (E := E) structs fuel base maxDepth (depth + 1) (typ :: stack) t (path ++ [rf_name f]) = Ok c).
  { intros f c Hf Hk. destruct (Hsh f Hf) as (sf & _ & _ & Hof). unfold field_of in Hof. rewrite Hk in Hof.
    destruct Hof as (t & Ht & _). by exists t. }
  destruct (childKeys_apart base path fs) as [Hcd Hck]; [done|done|done| |].
  { intros f c Hf Hk. destruct (Hbuilt f c Hf Hk) as [t Ht]. by destruct (Hsub f c t Hf Hk Ht) as (_ & _ & _ & ? & ?). }
  rewrite collectKeys_fields. split_and!.
  - done.
  - apply every_intro; [|intros f c Hf Hk; destruct (Hbuilt f c Hf Hk) as [t Ht]; by apply (Hsub f c t)].
    split_and!; try done. destruct path; by destruct base.
  - apply every_intro; [|intros f c Hf Hk; destruct (Hbuilt f c Hf Hk) as [t Ht]; by apply (Hsub f c t)].
    eapply planned_zeroes.
    + intros f Hf. destruct (Hsh f Hf) as (sf & _ & Hsf & Hof). rewrite Nat.sub_0_r in Hsf. by exists sf.
    + intros f c t Hf Hk Ht. by apply (Hsub f c t).
  - apply NoDup_cons. split; [|done]. intros Hin. destruct (Hck _ Hin) as (name & q & Hname & Hq & Heq).
    assert (Hln : forallb (lacks ":") (name :: q) = true).
    { cbn. rewrite Hq. rewrite forallb_forall in Hl. rewrite (Hl name) by (by apply list_elem_of_In). done. }
    destruct path as [|part path].
    + change (nodeKey base []) with (nodeKey base ["root"]) in Heq. apply nodeKey_inj in Heq; try done.
      injection Heq as <- <-. by apply Hroot.
    + apply nodeKey_inj in Heq; try done.
      * rewrite <-(app_nil_r (part :: path)) in Heq at 1. by apply app_inv_head in Heq.
      * by rewrite forallb_app, Hp.
  - intros k [->|Hk]%elem_of_cons; [exists []; by rewrite app_nil_r|].
    destruct (Hck k Hk) as (name & q & Hname & Hq & ->). exists (name :: q). split; [|done]. cbn. rewrite Hq.
    rewrite forallb_forall in Hl. rewrite (Hl name) by (by apply list_elem_of_In). done.
Qed.

End Plan.

(** ** Storing and deleting *)

Section Claims.
Context {E K F X : Type}.
Context (structs : gmap string (list structField)).
Context (formatFloat : F -> string) (parseFloat : Z -> string -> option F).
Context (marshalText : X -> option string) (unmarshalText : string -> string -> option X).
Context (zero : string -> goValue F X).
Implicit Types (v : goValue F X) (n : refHMapNode) (io : redisAnswers) (cfg : @RefHMapConfig E K F X).

#[local] Abbreviation Set_ := (RefHMap_Set (E := E) structs formatFloat parseFloat marshalText unmarshalText zero).
#[local] Abbreviation Get := (RefHMap_Get (E := E) structs parseFloat unmarshalText zero).
#[local] Abbreviation Delete := (RefHMap_Delete (E := E) structs).
#[local] Abbreviation registered := (registeredKeys (E := E)).

(** Struct types a store can keep: within a struct the names are distinct, none
    contains a colon or is that of the registry; and no field of the stored struct
    itself is called [root]. *)
Definition storable (root : string) : Prop :=
  (forall typ sfs, structs !! typ = Some sfs -> names_ok sfs)
  /\ "root" ∉ structNames (default [] (structs !! root)).

(** The value is accepted under the key, and what is stored does not outdate it. *)
Definition accepted cfg (db : redisDB) key v io : Prop :=
  validateValue (rc_StoreConfig cfg) v = Ok tt /\ keyOf (rc_StoreConfig cfg) v = Ok key
  /\ match sc_Stale (rc_StoreConfig cfg) with
     | None => True
     | Some stale => exists old, Get cfg db key io = Ok old /\ forall o, old = Some o -> stale o v = false
     end.

Hypothesis Hzero : forall typ, zero_of zero typ (default [] (structs !! typ)).

Lemma plan_apart cfg key n :
  storable (rc_root cfg) -> plan structs cfg key = Ok n ->
  every separate n /\ every (zeroes zero) n /\ NoDup (collectKeys n).
Proof using Hzero.
  intros [Hnames Hroot] Hplan. unfold plan in Hplan. eapply build_apart in Hplan; [by destruct Hplan as (_ & ? & ? & ? & _)|done..].
Qed.

Lemma Set_stored cfg ttl db v key n io :
  storable (rc_root cfg) -> plan structs cfg key = Ok n ->
  fits formatFloat parseFloat marshalText unmarshalText zero n v -> accepted cfg db key v io ->
  ra_registry io = true -> ra_eval io || ra_exec io = true ->
  exists db' keys, Set_ cfg ttl db v io = (db', Ok tt) /\ registered db n io = Ok keys
    /\ represents (E := E) parseFloat unmarshalText zero (HGETALL db') n (project zero n v)
    /\ HGETALL db' (nd_key n) !! refHMapRegistryField = Some (join newlineText (collectKeys n))
    /\ forall k, k ∉ collectKeys n -> db' !! k = if decide (k ∈ keys /\ k <> "") then None else db !! k.
Proof using Hzero.
  intros Hst Hplan Hfit (Hval & Hkey & Hstale) Hreg Hio. destruct (plan_apart cfg key n Hst Hplan) as (Hsep & Hz & Hnd).
  destruct (encode_ok (E := E) formatFloat parseFloat marshalText unmarshalText zero n v Hsep Hz Hfit) as (ws & vals & Henc).
  destruct (registered_ok (E := E) db n io Hreg) as [keys Hkeys].
  destruct (writeHashes_ok (E := E) formatFloat parseFloat marshalText unmarshalText zero ttl db n v ws vals io keys)
    as (db' & Hw & Hrest); try done.
  exists db', keys. split; [|done]. unfold RefHMap_Set. rewrite Hval, Hkey. cbn [liftStore]. run_bind. rewrite Hplan. run_bind.
  replace (match sc_Stale (rc_StoreConfig cfg) with None => Ok false | Some stale => _ end)
    with (Ok (E := refError E) false).
  - run_bind. destruct Henc as [-> _]. run_bind. done.
  - destruct (sc_Stale (rc_StoreConfig cfg)) as [stale|]; [|done]. destruct Hstale as (old & -> & Hold). run_bind.
    destruct old as [o|]; [|done]. by rewrite (Hold o eq_refl).
Qed.

Lemma Get_represented cfg db key n v io :
  storable (rc_root cfg) -> validKey (rc_StoreConfig cfg) key = true -> plan structs cfg key = Ok n ->
  rc_pointer cfg = false -> ra_read io = true ->
  represents (E := E) parseFloat unmarshalText zero (HGETALL db) n v -> HGETALL db (nd_key n) <> ∅ ->
  Get cfg db key io = Ok (Some v).
Proof using Hzero.
  intros Hst Hk Hplan Hptr Hio Hrep Hne. destruct (plan_apart cfg key n Hst Hplan) as (Hsep & _ & _).
  unfold RefHMap_Get. rewrite Hk, Hplan. cbn [negb]. run_bind. rewrite Hio, bool_decide_eq_false_2 by done. cbn [negb].
  rewrite (decode_represents _ _ _ _ _ _ Hsep Hrep). run_bind. by rewrite Hptr.
Qed.

(** C21. What is stored is what is read: a value of a storable struct type whose
    planned fields hold values their texts give back ([fits]: numbers in the range
    of their types, floats and texts that the library reads back, pointers to
    pointers nil), and that the store accepts (it is valid, has its key and is not
    stale), is written without error if Redis answers and executes the script or the
    commands in its place.  Reading its key then gives every planned field back
    (nested structs, nil pointers, all scalars); fields outside the plan
    (unexported, or left out by their tag) are read as zero ([project]).  Only hashes
    of the plan or listed by the previous registry are touched.  The stored type is
    the struct itself, not a pointer to it. *)
Theorem RefHMap_Set_Get cfg ttl db v key n io io' :
  storable (rc_root cfg) -> plan structs cfg key = Ok n -> rc_pointer cfg = false ->
  fits formatFloat parseFloat marshalText unmarshalText zero n v -> accepted cfg db key v io ->
  ra_registry io = true -> ra_eval io || ra_exec io = true -> ra_read io' = true ->
  exists db' keys, Set_ cfg ttl db v io = (db', Ok tt)
    /\ Get cfg db' key io' = Ok (Some (project zero n v))
    /\ registered db n io = Ok keys
    /\ forall k, k ∉ collectKeys n -> k ∉ keys -> db' !! k = db !! k.
Proof using Hzero.
  intros Hst Hplan Hptr Hfit Hacc Hreg Hio Hread.
  destruct (Set_stored cfg ttl db v key n io) as (db' & keys & Hset & Hkeys & Hrep & Hr & Hframe); try done.
  exists db', keys. split_and!; [done| |done|].
  - destruct Hacc as (_ & Hk & _). eapply Get_represented; try done; [by eapply keyOf_valid|].
    intros He. by rewrite He in Hr.
  - intros k Hk Hkk. rewrite Hframe by done. rewrite decide_False; [done|]. tauto.
Qed.

(** Deleting leaves nothing behind: when the keys of the plan can be listed,
    deleting a key after a value was stored under it removes exactly the hashes of
    the plan, the previous version's hashes that only the old registry listed are
    gone as well, and reading the key finds nothing. *)
Theorem RefHMap_Set_Delete cfg ttl db v key n io io' :
  storable (rc_root cfg) -> plan structs cfg key = Ok n -> forallb listable (collectKeys n) = true ->
  fits formatFloat parseFloat marshalText unmarshalText zero n v -> accepted cfg db key v io ->
  ra_registry io = true -> ra_eval io || ra_exec io = true ->
  ra_registry io' = true -> ra_exec io' = true -> ra_read io' = true ->
  exists db' db'' keys, Set_ cfg ttl db v io = (db', Ok tt) /\ Delete cfg db' key io' = (db'', Ok tt)
    /\ registered db n io = Ok keys
    /\ (forall k, k ∈ collectKeys n \/ (k ∈ keys /\ k <> "") -> db'' !! k = None)
    /\ (forall k, k ∉ collectKeys n -> k ∉ keys -> db'' !! k = db !! k)
    /\ Get cfg db'' key io' = Ok None.
Proof using Hzero.
  intros Hst Hplan Hlist Hfit Hacc Hreg Hio Hreg' Hexec Hread.
  destruct (plan_apart cfg key n Hst Hplan) as (Hsep & _ & Hnd).
  destruct (Set_stored cfg ttl db v key n io) as (db' & keys & Hset & Hkeys & Hrep & Hr & Hframe); try done.
  destruct Hacc as (_ & Hk & _). apply keyOf_valid in Hk.
  assert (Hne : collectKeys n <> []) by (destruct n; by rewrite collectKeys_fields).
  assert (Hroot : nd_key n ∈ collectKeys n) by (destruct n; rewrite collectKeys_fields; by left).
  assert (Hreg2 : exists D, registered db' n io' = Ok D /\ D <> [] /\ forall k, k ∈ D <-> k ∈ collectKeys n).
  { unfold registeredKeys. rewrite Hreg', Hr. cbn [negb]. rewrite registry_roundtrip by done.
    exists (uniqueRefHMapKeys [] (collectKeys n ++ [nd_key n])).
    assert (Hiff : forall k, k ∈ uniqueRefHMapKeys [] (collectKeys n ++ [nd_key n]) <-> k ∈ collectKeys n).
    { intros k. rewrite unique_elem, elem_of_app, list_elem_of_singleton. split; [by intros [[?| ->] _]|].
      intros Hkk. split_and!; [by left|by eapply separate_keys|apply not_elem_of_nil]. }
    split; [by destruct (collectKeys n)|]. split; [|done]. intros Hnil. apply Hiff in Hroot. rewrite Hnil in Hroot.
    by apply not_elem_of_nil in Hroot. }
  destruct Hreg2 as (D & HD & HDne & HDk). exists db', (DEL db' D), keys.
  assert (Hgone : forall k, k ∈ collectKeys n -> DEL db' D !! k = None).
  { intros k Hkk. by rewrite DEL_lookup, decide_True by (by apply HDk). }
  assert (Hkeep : forall k, k ∉ collectKeys n -> DEL db' D !! k = if decide (k ∈ keys /\ k <> "") then None else db !! k).
  { intros k Hkk. rewrite DEL_lookup, decide_False by (by rewrite HDk). by apply Hframe. }
  split_and!; [done| |done| | |].
  - unfold RefHMap_Delete. rewrite Hk, Hplan. cbn [negb]. run_bind. rewrite HD, Hexec. by destruct D.
  - intros k [Hkk|Hkk]; [by apply Hgone|]. destruct (decide (k ∈ collectKeys n)) as [Hin|Hnin]; [by apply Hgone|].
    rewrite Hkeep, decide_True by done. done.
  - intros k Hkk Hnk. rewrite Hkeep by done. rewrite decide_False; [done|]. tauto.
  - unfold RefHMap_Get. rewrite Hk, Hplan. cbn [negb]. run_bind. rewrite Hread. cbn [negb].
    rewrite bool_decide_eq_true_2; [done|]. unfold HGETALL. by rewrite Hgone.
Qed.

End Claims.

(** ** Samples *)

Module Sample.

Definition field (name : string) (t : goType) : structField := mkStructField name true "" "" t.

Definition structs : gmap string (list structField) := list_to_map [
  ("Player", [field "ID" (TScalar (KInt 64)); field "Name" (TScalar KString); field "Home" (TPointer (TStruct "Pos"));
    mkStructField "Cached" true "" "-" (TScalar (KInt 64))]);
  ("Pos", [field "X" (TScalar (KInt 32)); field "Y" (TPointer (TScalar (KUint 8)))]);
  ("Tree", [field "ID" (TScalar (KInt 64)); field "Root" (TStruct "Node")]);
  ("Node", [field "ID" (TScalar (KInt 64))])].

Definition value := goValue unit unit.

Definition zero (typ : string) : value :=
  if String.eqb typ "Player" then VStruct [VInt 0; VString ""; VNil; VInt 0]
  else if String.eqb typ "Pos" then VStruct [VInt 0; VNil]
  else if String.eqb typ "Tree" then VStruct [VInt 0; VStruct [VInt 0]]
  else if String.eqb typ "Node" then VStruct [VInt 0]
  else VStruct [].

Definition formatFloat (_ : unit) : string := "0".
Definition parseFloat (_ : Z) (_ : string) : option unit := None.
Definition marshalText (_ : unit) : option string := None.
Definition unmarshalText (_ _ : string) : option unit := None.

Definition store : StoreConfig Z value unit :=
  mkStoreConfig (Some (fun v => match v with VStruct (VInt i :: _) => i | _ => 0 end)) None None None.

Definition cfg (root : string) : @RefHMapConfig unit Z unit unit :=
  mkRefConfig "" "" 0 formatInt store root false.

Definition fine : redisAnswers := mkAnswers true true true true ∅.
Definition noScript : redisAnswers := mkAnswers true true false true ∅.

Definition alice : value := VStruct [VInt 7; VString "alice"; VRef (VStruct [VInt (-3); VRef (VUint 200)]); VInt 9].
(** What is read back: the field [Cached] is not stored. *)
Definition aliceStored : value :=
  VStruct [VInt 7; VString "alice"; VRef (VStruct [VInt (-3); VRef (VUint 200)]); VInt 0].
Definition homeless : value := VStruct [VInt 8; VString ""; VNil; VInt 0].

Definition SetPlayer := RefHMap_Set (E := unit) (K := Z) structs formatFloat parseFloat marshalText unmarshalText zero.
Definition Get := RefHMap_Get (E := unit) (K := Z) structs parseFloat unmarshalText zero.
Definition Delete := RefHMap_Delete (E := unit) (K := Z) (F := unit) (X := unit) structs.
Definition Patch := RefHMap_Patch (E := unit) (K := Z) structs formatFloat marshalText (fun _ x => Some x).

Example player_set_get :
  let db := (SetPlayer (cfg "Player") 0 ∅ alice noScript).1 in
  HGETALL db "cube:redisdao:{player:7}:home" = {[ "x" := "-3"; "y" := "200" ]}
  /\ Get (cfg "Player") db 7 fine = Ok (Some aliceStored)
  /\ (Delete (cfg "Player") db 7 fine).1 = ∅.
Proof. vm_compute. auto. Qed.

Lemma zero_ok typ : zero_of zero typ (default [] (structs !! typ)).
Proof.
  unfold structs.
  destruct (decide (typ = "Player")) as [->|H1]; [|destruct (decide (typ = "Pos")) as [->|H2];
    [|destruct (decide (typ = "Tree")) as [->|H3]; [|destruct (decide (typ = "Node")) as [->|H4]]]].
  1-4: eexists; (split; [vm_compute; reflexivity|]); intros [|[|[|[|i]]]] sf Hsf; vm_compute in Hsf; try discriminate Hsf;
      injection Hsf as <-; eexists; split; reflexivity || (by vm_compute).
  cbn [list_to_map foldr]. rewrite !lookup_insert_ne by (cbn; congruence). rewrite lookup_empty. exists []. split; [|by intros i sf Hsf].
  unfold zero. by rewrite !(proj2 (String.eqb_neq _ _)).
Qed.

Lemma storable_ok : storable structs "Player".
Proof.
  split; [|apply (bool_decide_unpack _); by vm_compute].
  intros typ sfs H. unfold structs in H. cbn [list_to_map foldr fst snd] in H.
  repeat (apply lookup_insert_Some in H as [[<- <-]|[_ H]];
    [split_and!; [apply (bool_decide_unpack _); by vm_compute..|done]|]).
  by rewrite lookup_empty in H.
Qed.

#[local] Abbreviation good := (fits (X := unit) formatFloat parseFloat marshalText unmarshalText zero).

(** Settles [fits] on a concrete value. *)
Ltac fit_fields :=
  cbn; eexists _, _; split_and!; try reflexivity; try exact I;
  (eexists; split; [reflexivity|]; first [cbn; lia | exact I | fit_fields]).

Lemma alice_fits n : plan structs (cfg "Player") 7 = Ok n -> good n alice.
Proof. intros H. vm_compute in H. injection H as <-. fit_fields. Qed.

Lemma RefHMap_Set_Get_witness :
  exists db' keys, SetPlayer (cfg "Player") 0 ∅ alice fine = (db', Ok tt)
    /\ Get (cfg "Player") db' 7 fine = Ok (Some aliceStored)
    /\ registeredKeys (E := unit) ∅
         (match plan structs (cfg "Player") 7 with Ok n => n | Err _ => mkNode "" "" [] end) fine = Ok keys.
Proof.
  destruct (RefHMap_Set_Get structs formatFloat parseFloat marshalText unmarshalText zero zero_ok (cfg "Player") 0 ∅ alice 7
    (match plan structs (cfg "Player") 7 with Ok n => n | Err _ => mkNode "" "" [] end) fine fine)
    as (db' & keys & H1 & H2 & H3 & _); try reflexivity.
  - exact storable_ok.
  - apply alice_fits. reflexivity.
  - repeat split.
  - exists db', keys. split; [exact H1|]. split; [exact H2|exact H3].
Defined.

Lemma RefHMap_Set_Delete_witness :
  exists db' db'' keys, SetPlayer (cfg "Player") 0 ∅ alice fine = (db', Ok tt)
    /\ Delete (cfg "Player") db' 7 fine = (db'', Ok tt)
    /\ registeredKeys (E := unit) ∅
         (match plan structs (cfg "Player") 7 with Ok n => n | Err _ => mkNode "" "" [] end) fine = Ok keys
    /\ Get (cfg "Player") db'' 7 fine = Ok None.
Proof.
  destruct (RefHMap_Set_Delete structs formatFloat parseFloat marshalText unmarshalText zero zero_ok (cfg "Player") 0 ∅ alice 7
    (match plan structs (cfg "Player") 7 with Ok n => n | Err _ => mkNode "" "" [] end) fine fine)
    as (db' & db'' & keys & H1 & H2 & H3 & _ & _ & H4); try reflexivity.
  - exact storable_ok.
  - apply alice_fits. reflexivity.
  - repeat split.
  - exists db', db'', keys. split; [exact H1|]. split; [exact H2|]. split; [exact H3|exact H4].
Defined.

(** A struct field stored under the name [root] shares its hash with the stored
    value: one overwrites the other, and what is read is not what was stored. *)
Example root_field_collides :
  let tree := VStruct [VInt 1; VStruct [VInt 2]] in
  let out := SetPlayer (cfg "Tree") 0 ∅ tree fine in
  out.2 = Ok tt /\ Get (cfg "Tree") out.1 1 fine = Ok (Some (VStruct [VInt 1; VStruct [VInt 1]])).
Proof. vm_compute. auto. Qed.

(** A patch below a nil pointer is reported as done, and not seen by [Get]:
    nothing refers to the hash it writes.  [PatchStructPath] makes the pointer. *)
Example patch_below_nil_is_lost :
  let db := (SetPlayer (cfg "Player") 0 ∅ homeless fine).1 in
  let out := Patch (cfg "Player") db 8 "home.x" (VInt 5) fine in
  out.2 = Ok tt /\ Get (cfg "Player") out.1 8 fine = Ok (Some homeless)
  /\ PatchStructPath (E := unit) structs zero (fun _ x => Some x) (TStruct "Player") homeless "home.x" (VInt 5)
     = Ok (VStruct [VInt 8; VString ""; VRef (VStruct [VInt 5; VNil]); VInt 0]).
Proof. vm_compute. auto. Qed.

End Sample.
