(* ===== verification/Lifecycle.v ===== *)
(** * Lifecycles: manager groups and hooks

    Models [src/lifecycle]: a group of managers that is initialised, started and
    stopped as one ([manager_group.go]), and the registry of hooks run in the
    phases of a service ([lifecycle.go]).

    Managers and hooks are code of the application.  What they answer is a
    function of the calls made so far, so that they may keep state of their own;
    [ask] makes a call and appends it to the log of calls.  A panic is recovered
    and counts as an error.  A group's operations hold its [opMu] and are one step
    each. *)

From stdpp Require Import base list gmap strings sorting.
From Stdlib Require Import ZArith Lia Sorted.
From S2P Require Import Prelude.

#[local] Open Scope Z_scope.

(** ** Calls to the application *)

Definition appAnswers (C E : Type) := list C -> C -> option E.

Definition ask {C E} (answer : appAnswers C E) (log : list C) (c : C) : list C * option E :=
  (log ++ [c], answer log c).

(** Calls in order, up to the first that fails. *)
Fixpoint askAll {C E} (answer : appAnswers C E) (log : list C) (cs : list C) : list C * option (C * E) :=
  match cs with
  | [] => (log, None)
  | c :: cs =>
      let '(log, o) := ask answer log c in
      match o with Some e => (log, Some (c, e)) | None => askAll answer log cs end
  end.

(** ** Manager groups *)

Inductive managerCall : Type :=
| MgrInit (index : nat)
| MgrStart (index : nat)
| MgrStop (index : nat).

Inductive groupError (E : Type) : Type :=
| ErrManagerGroupState
| ErrManagerNameEmpty
| ErrManagerDuplicate (name : string)
| ErrInitManager (name : string) (e : E)
| ErrStartManager (name : string) (e : E)
| ErrStopManager (name : string) (e : E).
Arguments ErrManagerGroupState {E}.
Arguments ErrManagerNameEmpty {E}.
Arguments ErrManagerDuplicate {E}.
Arguments ErrInitManager {E}.
Arguments ErrStartManager {E}.
Arguments ErrStopManager {E}.

Inductive ManagerGroupState : Type :=
| ManagerGroupNew
| ManagerGroupInitialized
| ManagerGroupStarted
| ManagerGroupStopped.

#[export] Instance ManagerGroupState_eq_dec : EqDecision ManagerGroupState.
Proof. solve_decision. Defined.

(** The managers by name. *)
Record ManagerGroup := mkGroup {
  g_managers : list string;
  g_initialized : nat;
  g_state : ManagerGroupState
}.

Definition setInitialized (g : ManagerGroup) (count : nat) : ManagerGroup :=
  mkGroup (g_managers g) count (g_state g).

Definition setState (g : ManagerGroup) (state : ManagerGroupState) : ManagerGroup :=
  mkGroup (g_managers g) (g_initialized g) state.

Section Group.
Context {E : Type}.
Context (answer : appAnswers managerCall E).
Implicit Types (g : ManagerGroup) (log : list managerCall).

(** [None] is a nil manager. *)
Fixpoint checkNames (seen : list string) (managers : list (option string)) : result (groupError E) (list string) :=
  match managers with
  | [] => Ok []
  | None :: _ => Err ErrManagerNameEmpty
  | Some name :: managers =>
      if String.eqb name "" then Err ErrManagerNameEmpty
      else if bool_decide (name ∈ seen) then Err (ErrManagerDuplicate name)
      else rest ← checkNames (name :: seen) managers; Ok (name :: rest)
  end.

Definition NewManagerGroup (managers : list (option string)) : result (groupError E) ManagerGroup :=
  names ← checkNames [] managers; Ok (mkGroup names 0 ManagerGroupNew).

Definition nameOf g (index : nat) : string := default EmptyString (g_managers g !! index).

(** [count] managers are left to stop. *)
Fixpoint stopManagers g log (count : nat) : list managerCall * list (groupError E) :=
  match count with
  | O => (log, [])
  | S index =>
      let '(log, o) := ask answer log (MgrStop index) in
      let '(log, errs) := stopManagers g log index in
      (log, match o with Some e => ErrStopManager (nameOf g index) e :: errs | None => errs end)
  end.

Definition stopInitialized g log : ManagerGroup * list managerCall * list (groupError E) :=
  let '(log, errs) := stopManagers g log (g_initialized g) in
  (setInitialized g 0, log, errs).

(** [count] managers, from [index] on, are left to initialise. *)
Fixpoint initManagers g log (index count : nat) : ManagerGroup * list managerCall * list (groupError E) :=
  match count with
  | O => (setState g ManagerGroupInitialized, log, [])
  | S count =>
      let '(log, o) := ask answer log (MgrInit index) in
      match o with
      | Some e =>
          let '(g, log, cleanup) := stopInitialized g log in
          (setState g ManagerGroupStopped, log, ErrInitManager (nameOf g index) e :: cleanup)
      | None => initManagers (setInitialized g (S index)) log (S index) count
      end
  end.

Definition Group_Init g log : ManagerGroup * list managerCall * list (groupError E) :=
  if bool_decide (g_state g <> ManagerGroupNew) then (g, log, [ErrManagerGroupState])
  else initManagers g log 0 (length (g_managers g)).

Fixpoint startManagers g log (index count : nat) : ManagerGroup * list managerCall * list (groupError E) :=
  match count with
  | O => (setState g ManagerGroupStarted, log, [])
  | S count =>
      let '(log, o) := ask answer log (MgrStart index) in
      match o with
      | Some e =>
          let '(g, log, cleanup) := stopInitialized g log in
          (setState g ManagerGroupStopped, log, ErrStartManager (nameOf g index) e :: cleanup)
      | None => startManagers g log (S index) count
      end
  end.

Definition Group_Start g log : ManagerGroup * list managerCall * list (groupError E) :=
  if bool_decide (g_state g <> ManagerGroupInitialized) then (g, log, [ErrManagerGroupState])
  else startManagers g log 0 (length (g_managers g)).

Definition Group_Stop g log : ManagerGroup * list managerCall * list (groupError E) :=
  if bool_decide (g_state g = ManagerGroupStopped) then (g, log, [])
  else
    let '(g, log, errs) := stopInitialized g log in
    (setState g ManagerGroupStopped, log, errs).

Inductive groupOp : Type := OpInit | OpStart | OpStop.

Definition groupExec (s : ManagerGroup * list managerCall) (op : groupOp) : ManagerGroup * list managerCall * list (groupError E) :=
  match op with
  | OpInit => Group_Init s.1 s.2
  | OpStart => Group_Start s.1 s.2
  | OpStop => Group_Stop s.1 s.2
  end.

Definition groupRun (s : ManagerGroup * list managerCall) (ops : list groupOp) : ManagerGroup * list managerCall :=
  foldl (fun s op => (groupExec s op).1) s ops.

(** ** What the managers see *)

Definition inits (count : nat) : list managerCall := MgrInit <$> seq 0 count.
Definition starts (count : nat) : list managerCall := MgrStart <$> seq 0 count.
Definition stops (count : nat) : list managerCall := MgrStop <$> reverse (seq 0 count).

#[local] Arguments inits : simpl never.
#[local] Arguments starts : simpl never.
#[local] Arguments stops : simpl never.

(** The first [count] managers were initialised without error. *)
Definition initialised (count : nat) : Prop := forall i, (i < count)%nat -> answer (inits i) (MgrInit i) = None.

(** The calls of a group of [n] managers, by its state.  A group is stopped before
    it was initialised; or after the initialisation of a manager failed, when those
    before it are stopped; or after all were initialised and some asked to start,
    when all are stopped. *)
Definition managersSee (n : nat) (state : ManagerGroupState) (log : list managerCall) : Prop :=
  match state with
  | ManagerGroupNew => log = []
  | ManagerGroupInitialized => log = inits n /\ initialised n
  | ManagerGroupStarted => log = inits n ++ starts n /\ initialised n
  | ManagerGroupStopped =>
      log = []
      \/ (exists k e, (k < n)%nat /\ initialised k /\ answer (inits k) (MgrInit k) = Some e
           /\ log = inits (S k) ++ stops k)
      \/ (exists j, (j <= n)%nat /\ initialised n /\ log = inits n ++ starts j ++ stops n)
  end.

Definition initializedCount (n : nat) (state : ManagerGroupState) : nat :=
  match state with ManagerGroupInitialized | ManagerGroupStarted => n | _ => 0%nat end.

Record group_ok (names : list string) (s : ManagerGroup * list managerCall) : Prop := {
  go_managers : g_managers s.1 = names;
  go_count : g_initialized s.1 = initializedCount (length names) (g_state s.1);
  go_see : managersSee (length names) (g_state s.1) s.2
}.

Lemma inits_S k : inits (S k) = inits k ++ [MgrInit k].
Proof. unfold inits. by rewrite seq_S, fmap_app. Qed.

Lemma starts_S k : starts (S k) = starts k ++ [MgrStart k].
Proof. unfold starts. by rewrite seq_S, fmap_app. Qed.

Lemma stops_S k : stops (S k) = MgrStop k :: stops k.
Proof. unfold stops. by rewrite seq_S, reverse_snoc. Qed.

Lemma stopManagers_log g log count : (stopManagers g log count).1 = log ++ stops count.
Proof.
  revert log. induction count as [|k IH]; intros log; cbn [stopManagers].
  - by rewrite app_nil_r.
  - unfold ask. specialize (IH (log ++ [MgrStop k])). destruct (stopManagers g (log ++ [MgrStop k]) k) as [log' errs].
    cbn [fst] in *. rewrite IH, stops_S, <-app_assoc. done.
Qed.

Lemma stopInitialized_spec g log :
  exists errs, stopInitialized g log = (setInitialized g 0, log ++ stops (g_initialized g), errs).
Proof.
  unfold stopInitialized. pose proof (stopManagers_log g log (g_initialized g)) as H.
  destruct (stopManagers g log (g_initialized g)) as [log' errs]. cbn in H. subst. by eexists.
Qed.

(** From the point where the first [k] managers are initialised. *)
Lemma initManagers_ok g k count names :
  g_managers g = names -> length names = (k + count)%nat -> g_initialized g = k -> initialised k ->
  exists s errs, initManagers g (inits k) k count = (s, errs) /\ group_ok names s
    /\ (errs = [] <-> g_state s.1 = ManagerGroupInitialized)
    /\ (g_state s.1 = ManagerGroupInitialized \/ g_state s.1 = ManagerGroupStopped).
Proof.
  revert g k. induction count as [|count IH]; intros g k Hm Hn Hi Hok; cbn [initManagers].
  - eexists _, _. split; [done|]. split; [|cbn; tauto]. split; [done| |]; cbn.
    + lia.
    + replace (length names) with k by lia. done.
  - unfold ask. destruct (answer (inits k) (MgrInit k)) as [e|] eqn:He.
    + destruct (stopInitialized_spec g (inits k ++ [MgrInit k])) as [errs ->]. eexists _, _. split; [done|].
      split; [|split; [split; cbn; [discriminate|discriminate]|by right]]. split; [done|done|]. cbn. right. left.
      exists k, e. rewrite inits_S, Hi. split; [lia|done].
    + rewrite <-inits_S. apply IH; [done|lia|done|]. intros i Hlt. destruct (decide (i = k)) as [->|Hne]; [done|].
      apply Hok. lia.
Qed.

Lemma startManagers_ok g j count names :
  g_managers g = names -> length names = (j + count)%nat -> g_initialized g = length names -> initialised (length names) ->
  exists s errs, startManagers g (inits (length names) ++ starts j) j count = (s, errs) /\ group_ok names s
    /\ (errs = [] <-> g_state s.1 = ManagerGroupStarted).
Proof.
  revert j. induction count as [|count IH]; intros j Hm Hn Hi Hok; cbn [startManagers].
  - eexists _, _. split; [done|]. split; [|done]. split; [done|done|]. cbn. replace j with (length names) by lia. done.
  - unfold ask. destruct (answer _ (MgrStart j)) as [e|] eqn:He.
    + destruct (stopInitialized_spec g ((inits (length names) ++ starts j) ++ [MgrStart j])) as [errs ->].
      eexists _, _. split; [done|]. split; [|done]. split; [done|done|]. cbn. right. right.
      exists (S j). rewrite starts_S, Hi, <-!app_assoc. split; [lia|done].
    + rewrite <-app_assoc, <-starts_S. apply IH; [done|lia|done|done].
Qed.

Lemma groupExec_ok names s op : group_ok names s -> group_ok names (groupExec s op).1.
Proof.
  destruct s as [g log]. intros [Hm Hc Hs]. cbn in *. destruct op; cbn [groupExec fst snd].
  - unfold Group_Init. case_bool_decide as Hst; [by split|]. rewrite Hst in *. cbn in Hs, Hc. subst log.
    destruct (initManagers_ok g 0 (length (g_managers g)) names) as (s & errs & Heq & Hok & _); [done|by rewrite Hm|done|by intros i ?; lia|].
    change (inits 0) with (@nil managerCall) in Heq. by rewrite Heq.
  - unfold Group_Start. case_bool_decide as Hst; [by split|]. rewrite Hst in *. cbn in Hs, Hc.
    destruct Hs as [-> Hok].
    destruct (startManagers_ok g 0 (length (g_managers g)) names) as (s & errs & Heq & Hok' & _); [done|by rewrite Hm|done|done|].
    change (starts 0) with (@nil managerCall) in Heq. rewrite app_nil_r in Heq. by rewrite Heq.
  - unfold Group_Stop. case_bool_decide as Hst; [by split|]. destruct (stopInitialized_spec g log) as [errs ->]. split; [done|done|].
    cbn [fst snd setState g_state managersSee]. rewrite Hc. destruct (g_state g); cbn in Hs |- *; [| | |done].
    + left. by rewrite Hs.
    + right. right. exists 0%nat. destruct Hs as [-> Hok]. split; [lia|done].
    + right. right. exists (length names). destruct Hs as [-> Hok]. split; [lia|]. split; [done|]. by rewrite <-app_assoc.
Qed.

Lemma groupRun_ok names s ops : group_ok names s -> group_ok names (groupRun s ops).
Proof.
  unfold groupRun. revert s. induction ops as [|op ops IH]; intros s H; [done|]. cbn. by apply IH, groupExec_ok.
Qed.

Lemma groupRun_stopped s ops :
  g_state s.1 = ManagerGroupStopped -> groupRun s ops = s.
Proof.
  unfold groupRun. intros H. induction ops as [|op ops IH]; [done|]. cbn [foldl].
  replace ((groupExec s op).1) with s; [done|]. destruct s as [g log]. cbn in H.
  destruct op; unfold groupExec, Group_Init, Group_Start, Group_Stop; cbn [fst snd]; by rewrite H.
Qed.

Lemma checkNames_ok seen managers names :
  checkNames seen managers = Ok names ->
  managers = Some <$> names /\ NoDup names /\ forall name, name ∈ names -> name <> "" /\ name ∉ seen.
Proof.
  revert seen names. induction managers as [|[name|] managers IH]; intros seen names; cbn [checkNames]; [| |done].
  - intros [= <-]. split; [done|]. split; [constructor|]. intros name Hn. by apply not_elem_of_nil in Hn.
  - destruct (String.eqb_spec name "") as [->|Hne]; [done|]. case_bool_decide as Hs; [done|].
    destruct (checkNames (name :: seen) managers) as [rest|] eqn:Hr; [|done]. run_bind. intros [= <-].
    destruct (IH _ _ Hr) as (-> & Hd & Hin). split; [done|]. split.
    + apply NoDup_cons. split; [|done]. intros Hn. apply (Hin name Hn). by left.
    + intros x [->|Hx]%elem_of_cons; [done|]. destruct (Hin x Hx) as [Hx0 Hx1]. split; [done|]. intros Hs'. apply Hx1. by right.
Qed.

Lemma elem_inits c k : c ∈ inits k <-> exists i, c = MgrInit i /\ (i < k)%nat.
Proof. unfold inits. rewrite list_elem_of_fmap. setoid_rewrite elem_of_seq. naive_solver lia. Qed.

Lemma elem_starts c k : c ∈ starts k <-> exists i, c = MgrStart i /\ (i < k)%nat.
Proof. unfold starts. rewrite list_elem_of_fmap. setoid_rewrite elem_of_seq. naive_solver lia. Qed.

Lemma elem_stops c k : c ∈ stops k <-> exists i, c = MgrStop i /\ (i < k)%nat.
Proof.
  unfold stops. rewrite list_elem_of_fmap. setoid_rewrite elem_of_reverse. setoid_rewrite elem_of_seq. naive_solver lia.
Qed.

Lemma calls_NoDup i j k : NoDup (inits i ++ starts j ++ stops k).
Proof.
  assert (Hinj : forall f : nat -> managerCall, (forall a b, f a = f b -> a = b) -> forall l, NoDup l -> NoDup (f <$> l)).
  { intros f Hf l Hl. apply NoDup_fmap_2_strong; [|done]. intros x y _ _. apply Hf. }
  rewrite !NoDup_app. setoid_rewrite elem_of_app. setoid_rewrite elem_inits. setoid_rewrite elem_starts. setoid_rewrite elem_stops.
  split_and!; [apply Hinj; [by intros a b [=]|apply NoDup_seq]|naive_solver|apply Hinj; [by intros a b [=]|apply NoDup_seq]|naive_solver|].
  apply Hinj; [by intros a b [=]|]. rewrite reverse_Permutation. apply NoDup_seq.
Qed.

(** What the calls of a group are made of. *)
Lemma managersSee_calls n state log :
  managersSee n state log ->
  exists i j k, log = inits i ++ starts j ++ stops k.
Proof.
  destruct state; cbn.
  - intros ->. by exists 0%nat, 0%nat, 0%nat.
  - intros [-> _]. exists n, 0%nat, 0%nat. by rewrite app_nil_r.
  - intros [-> _]. exists n, n, 0%nat. by rewrite app_nil_r.
  - intros [->|[(k & e & _ & _ & _ & ->)|(j & _ & _ & ->)]].
    + by exists 0%nat, 0%nat, 0%nat.
    + by exists (S k), 0%nat, k.
    + by exists n, j, n.
Qed.

Lemma managersSee_stopped n log i :
  managersSee n ManagerGroupStopped log -> (i < n)%nat ->
  MgrStop i ∈ log <-> MgrInit i ∈ log /\ answer (inits i) (MgrInit i) = None.
Proof.
  intros [->|[(k & e & Hk & Hok & He & ->)|(j & Hj & Hok & ->)]] Hi.
  - rewrite !elem_of_nil. tauto.
  - rewrite !elem_of_app, !elem_inits, !elem_stops. split.
    + intros [(i' & [=] & _)|(i' & [= <-] & Hlt)]. split; [left; exists i; split; [done|lia]|]. by apply Hok.
    + intros [[(i' & [= <-] & Hlt)|(i' & [=] & _)] Hnone]. right. exists i. split; [done|].
      destruct (decide (i = k)) as [->|]; [congruence|lia].
  - rewrite !elem_of_app, !elem_inits, !elem_starts, !elem_stops. split.
    + intros _. split; [left; exists i; split; [done|lia]|]. by apply Hok.
    + intros _. right. right. exists i. split; [done|lia].
Qed.

End Group.

(** A group of managers stops exactly what it initialised.  Whatever the
    managers answer and in whatever order the group is initialised, started and
    stopped: the managers are initialised in order until one fails, started in
    order, each at most once, and only after all were initialised; as soon as one
    fails, or when the group is stopped, the managers whose initialisation
    succeeded, and only they, are stopped once, in reverse order; and a stopped
    group makes no further calls. *)
Theorem ManagerGroup_orderly {E : Type} (answer : appAnswers managerCall E) managers g ops ops' :
  NewManagerGroup (E := E) managers = Ok g ->
  let n := length managers in
  let s := groupRun answer (g, []) ops in
  managersSee answer n (g_state s.1) s.2
  /\ (forall i, (i < n)%nat -> g_state s.1 = ManagerGroupStopped ->
        (MgrStop i ∈ s.2 <-> MgrInit i ∈ s.2 /\ answer (inits i) (MgrInit i) = None))
  /\ NoDup s.2
  /\ (g_state s.1 = ManagerGroupStopped -> groupRun answer s ops' = s).
Proof.
  intros Hnew n s. unfold NewManagerGroup in Hnew. destruct (checkNames [] managers) as [names|] eqn:Hnames; [|done].
  injection Hnew as <-. apply checkNames_ok in Hnames as (-> & _).
  assert (Hn : n = length names) by (unfold n; by rewrite length_fmap).
  assert (Hok : group_ok answer names s) by (by apply groupRun_ok).
  destruct Hok as [_ _ Hsee]. rewrite <-Hn in Hsee. split_and!.
  - done.
  - intros i Hi Hst. rewrite Hst in Hsee. by apply (managersSee_stopped _ n).
  - destruct (managersSee_calls _ _ _ _ Hsee) as (i & j & k & ->). apply calls_NoDup.
  - apply groupRun_stopped.
Qed.

(** ** Hooks *)

Record LifecycleHook := mkLifecycleHook {
  h_Name : string;
  h_Phase : string;
  h_Order : Z;
  h_Handler : option nat
}.

Abbreviation hookRegistry := (gmap string (list LifecycleHook)).

Inductive hookError (E : Type) : Type :=
| ErrPhaseRequired
| ErrHandlerRequired
| ErrHook (phase name : string) (e : E).
Arguments ErrPhaseRequired {E}.
Arguments ErrHandlerRequired {E}.
Arguments ErrHook {E}.

Definition sortHooks : list LifecycleHook -> list LifecycleHook := sort_slice (fun a b => h_Order a <? h_Order b).

Fixpoint replaceHook (hook : LifecycleHook) (hooks : list LifecycleHook) : option (list LifecycleHook) :=
  match hooks with
  | [] => None
  | h :: hooks =>
      if String.eqb (h_Name h) (h_Name hook) then Some (hook :: hooks)
      else (fun rest => h :: rest) <$> replaceHook hook hooks
  end.

Definition hooksOf (r : hookRegistry) (phase : string) : list LifecycleHook := default [] (r !! phase).

Definition Registry_Register {E} (r : hookRegistry) (hook : LifecycleHook) : result (hookError E) hookRegistry :=
  if String.eqb (h_Phase hook) "" then Err ErrPhaseRequired
  else match h_Handler hook with
  | None => Err ErrHandlerRequired
  | Some _ =>
      let named := negb (String.eqb (h_Name hook) "") in
      let hook := if named then hook else mkLifecycleHook "anonymous" (h_Phase hook) (h_Order hook) (h_Handler hook) in
      let hooks := hooksOf r (h_Phase hook) in
      let hooks := match (if named then replaceHook hook hooks else None) with
                   | Some hooks => hooks
                   | None => hooks ++ [hook]
                   end in
      Ok (<[h_Phase hook := sortHooks hooks]> r)
  end.

Section Emit.
Context {C E : Type} (answer : appAnswers C E) (call : LifecycleHook -> C).

Fixpoint emitHooks (phase : string) (hooks : list LifecycleHook) (log : list C) : list C * result (hookError E) unit :=
  match hooks with
  | [] => (log, Ok tt)
  | h :: hooks =>
      let '(log, o) := ask answer log (call h) in
      match o with
      | Some e => (log, Err (ErrHook phase (h_Name h) e))
      | None => emitHooks phase hooks log
      end
  end.

(** A call of a hook is a call of its handler with the event of the phase. *)
Definition Registry_Emit (r : hookRegistry) (phase : string) (log : list C) : list C * result (hookError E) unit :=
  emitHooks phase (hooksOf r phase) log.

(** The hooks run are a first part of the list, all of it without an error. *)
Lemma emitHooks_calls phase hooks log log' r :
  emitHooks phase hooks log = (log', r) ->
  exists ran, log' = log ++ (call <$> ran) /\ ran `prefix_of` hooks
    /\ match r with
       | Ok _ => ran = hooks
       | Err e => exists h ran' x, ran = ran' ++ [h] /\ e = ErrHook phase (h_Name h) x
                  /\ answer (log ++ (call <$> ran')) (call h) = Some x
       end.
Proof.
  revert log. induction hooks as [|h hooks IH]; intros log; cbn [emitHooks ask].
  - intros [= <- <-]. exists []. by rewrite app_nil_r.
  - destruct (answer log (call h)) as [e|] eqn:He.
    + intros [= <- <-]. exists [h]. split; [done|]. split; [by exists hooks|]. exists h, [], e. cbn. by rewrite app_nil_r.
    + intros (ran & -> & Hp & Hr)%IH. exists (h :: ran). rewrite fmap_cons, <-app_assoc. split; [done|].
      split; [by apply prefix_cons|]. destruct r as [u|e]; [by rewrite Hr|].
      destruct Hr as (h' & ran' & x & -> & -> & Hx). exists h', (h :: ran'), x. cbn. rewrite <-app_assoc in Hx. done.
Qed.

End Emit.

(** ** What is registered *)

(** The hooks of a phase without the order: a named hook takes the place of the
    hook of its name. *)
Definition putHook (hooks : list LifecycleHook) (hook : LifecycleHook) : list LifecycleHook :=
  if String.eqb (h_Name hook) "" then hooks ++ [mkLifecycleHook "anonymous" (h_Phase hook) (h_Order hook) (h_Handler hook)]
  else default (hooks ++ [hook]) (replaceHook hook hooks).

#[local] Instance hookLess_weak : StrictWeak (fun a b : LifecycleHook => h_Order a <? h_Order b).
Proof. split; intros; bool_to_prop; lia. Qed.

Definition inOrder (hooks : list LifecycleHook) : Prop := StronglySorted (fun a b => (h_Order b <? h_Order a) = false) hooks.

Lemma sortHooks_inOrder hooks : inOrder (sortHooks hooks).
Proof. apply (sort_slice_sorted (fun a b => h_Order a <? h_Order b)). Qed.

Definition phasesInOrder (r : hookRegistry) : Prop := forall phase, inOrder (hooksOf r phase).

Lemma sorted_into (r : hookRegistry) phase hooks :
  let r' := <[phase := sortHooks hooks]> r in
  (phasesInOrder r -> phasesInOrder r') /\ hooksOf r' phase ≡ₚ hooks
  /\ forall other, other <> phase -> hooksOf r' other = hooksOf r other.
Proof.
  intros r'.
  assert (Hown : hooksOf r' phase = sortHooks hooks) by (unfold hooksOf, r'; by rewrite lookup_insert_eq).
  assert (Hother : forall other, other <> phase -> hooksOf r' other = hooksOf r other).
  { intros other Hne. unfold hooksOf, r'. by rewrite lookup_insert_ne. }
  split_and!; [|by rewrite Hown; apply sort_slice_perm|done].
  intros Hall p. destruct (decide (p = phase)) as [->|Hne]; [rewrite Hown; apply sortHooks_inOrder|by rewrite Hother].
Qed.

(** Registering a hook keeps the hooks of every phase in order, changes its own
    phase only, and there puts the hook in. *)
Lemma Registry_Register_spec {E} (r r' : hookRegistry) hook :
  Registry_Register (E := E) r hook = Ok r' ->
  (phasesInOrder r -> phasesInOrder r')
  /\ hooksOf r' (h_Phase hook) ≡ₚ putHook (hooksOf r (h_Phase hook)) hook
  /\ forall phase, phase <> h_Phase hook -> hooksOf r' phase = hooksOf r phase.
Proof.
  unfold Registry_Register, putHook. destruct (String.eqb (h_Phase hook) ""); [done|].
  destruct (h_Handler hook) as [handler|]; [|done].
  destruct (String.eqb (h_Name hook) ""); cbn [negb h_Phase]; intros [= <-]; [apply sorted_into|].
  destruct (replaceHook hook _); apply sorted_into.
Qed.

Definition registerHooks {E} (hooks : list LifecycleHook) : hookRegistry :=
  foldl (fun r h => match Registry_Register (E := E) r h with Ok r => r | Err _ => r end) ∅ hooks.

(** The hooks of a phase run in their order. *)
Theorem Registry_Emit_in_order {C E : Type} (answer : appAnswers C E) (call : LifecycleHook -> C) hooks phase log log' r :
  Registry_Emit answer call (registerHooks (E := E) hooks) phase log = (log', r) ->
  exists ran, log' = log ++ (call <$> ran) /\ inOrder ran /\ ran `prefix_of` hooksOf (registerHooks (E := E) hooks) phase
    /\ (is_ok r = true -> ran = hooksOf (registerHooks (E := E) hooks) phase).
Proof.
  intros (ran & -> & Hp & Hr)%emitHooks_calls. exists ran. split; [done|].
  assert (Hall : phasesInOrder (registerHooks (E := E) hooks)).
  { clear Hp Hr. unfold registerHooks. cut (phasesInOrder (∅ : hookRegistry)); [|intros p; constructor]. generalize (∅ : hookRegistry).
    induction hooks as [|h hooks IH]; intros r0 H0; [done|]. cbn [foldl]. apply IH.
    destruct (Registry_Register (E := E) r0 h) as [r1|] eqn:Hr1; [|done]. by apply (Registry_Register_spec _ _ _ Hr1). }
  split; [|split; [done|]].
  - specialize (Hall phase). destruct Hp as [rest Hrest]. rewrite Hrest in Hall.
    by apply StronglySorted_app_1_l in Hall.
  - by destruct r.
Qed.

(** ** Samples *)

Module LifecycleSample.

Definition third_fails (log : list managerCall) (c : managerCall) : option nat :=
  match c with MgrInit 2 => Some 7%nat | _ => None end.

Example rollback_in_reverse :
  groupRun third_fails (mkGroup ["db"; "cache"; "net"; "game"] 0 ManagerGroupNew, []) [OpInit; OpStart; OpStop]
  = (mkGroup ["db"; "cache"; "net"; "game"] 0 ManagerGroupStopped,
     [MgrInit 0; MgrInit 1; MgrInit 2; MgrStop 1; MgrStop 0]).
Proof. reflexivity. Qed.

Lemma ManagerGroup_orderly_witness :
  let s := groupRun third_fails (mkGroup ["db"; "cache"; "net"; "game"] 0 ManagerGroupNew, []) [OpInit] in
  (MgrStop 1 ∈ s.2 <-> MgrInit 1 ∈ s.2 /\ third_fails (inits 1) (MgrInit 1) = None) /\ NoDup s.2.
Proof.
  destruct (ManagerGroup_orderly third_fails [Some "db"; Some "cache"; Some "net"; Some "game"]
    (mkGroup ["db"; "cache"; "net"; "game"] 0 ManagerGroupNew) [OpInit] [] eq_refl) as (_ & Hs & Hd & _).
  split; [|exact Hd]. apply Hs; [cbn; lia|reflexivity].
Defined.

(** An explicit hook named [anonymous] takes the place of a hook without a name. *)
Example explicit_anonymous_replaces :
  hooksOf (registerHooks (E := unit) [mkLifecycleHook "" "app.init" 1 (Some 1%nat); mkLifecycleHook "anonymous" "app.init" 1 (Some 2%nat)]) "app.init"
  = [mkLifecycleHook "anonymous" "app.init" 1 (Some 2%nat)].
Proof. reflexivity. Qed.

End LifecycleSample.
