(* ===== verification/ConfigData.v ===== *)
(** * Configuration data: tables, snapshots and hot reload

    Models [src/configdata/configdata.go]: keyed tables with secondary indexes,
    the registry of definitions, building and validating a snapshot, and the store
    that publishes snapshots, with reloads, dry runs and rollbacks.

    Outside this file's code are the files and their decoding, the marshalling and
    digest of a snapshot's hash, the application's build and validation functions,
    its reload listeners and lifecycle hooks.  What the latter answer is a function
    of the calls made so far ([Lifecycle.appAnswers]); the state of the files is an
    argument ([W]).  A value of Go's [any] is of type [A]; tables and objects are
    put into it and taken out by [td_wrap] and [td_unwrap].  A store's operations
    hold its lock and are one step each; what lock-free readers can see meanwhile
    is the list of published snapshots.  Times are left out. *)

From stdpp Require Import base list gmap strings.
From Stdlib Require Import ZArith Lia Ascii.
From S2P Require Import Prelude RefHMap Lifecycle.

#[local] Open Scope Z_scope.

(** ** Tables *)

Record IndexDef (R : Type) := mkIndexDef {
  ix_Name : string;
  ix_Key : option (R -> string);
  ix_SkipEmpty : bool
}.
Arguments mkIndexDef {R}.
Arguments ix_Name {R}.
Arguments ix_Key {R}.
Arguments ix_SkipEmpty {R}.

Record Table (K R : Type) `{Countable K} := mkTable {
  tb_name : string;
  tb_rows : list R;
  tb_byKey : gmap K nat;
  tb_indexes : gmap string (gmap string (list nat))
}.
Arguments mkTable {K R _ _}.
Arguments tb_name {K R _ _}.
Arguments tb_rows {K R _ _}.
Arguments tb_byKey {K R _ _}.
Arguments tb_indexes {K R _ _}.

Section Tables.
Context {K R : Type} `{Countable K}.
Implicit Types (t : Table K R) (row : R).

(** The entry of row [i] in the index [idx]. *)
Definition indexRow (i : nat) row (indexes : gmap string (gmap string (list nat))) (idx : IndexDef R)
    : gmap string (gmap string (list nat)) :=
  match ix_Key idx with
  | None => indexes
  | Some key =>
      if String.eqb (ix_Name idx) "" then indexes
      else
        let value := key row in
        if String.eqb value "" && ix_SkipEmpty idx then indexes
        else
          let m := default ∅ (indexes !! ix_Name idx) in
          <[ix_Name idx := <[value := default [] (m !! value) ++ [i]]> m]> indexes
  end.

(** The key a table has twice. *)
Fixpoint newTableRows (key : R -> K) (indexes : list (IndexDef R)) (i : nat) (rows : list R) t
    : result K (Table K R) :=
  match rows with
  | [] => Ok t
  | row :: rows =>
      match tb_byKey t !! key row with
      | Some _ => Err (key row)
      | None =>
          newTableRows key indexes (S i) rows
            (mkTable (tb_name t) (tb_rows t) (<[key row := i]> (tb_byKey t))
              (foldl (indexRow i row) (tb_indexes t) indexes))
      end
  end.

Definition newTable (name : string) (key : R -> K) (indexes : list (IndexDef R)) (rows : list R)
    : result K (Table K R) :=
  newTableRows key indexes 0 rows (mkTable name rows ∅ ∅).

Definition Table_Len t : Z := len (tb_rows t).

Definition Table_Get t (key : K) : option R := i ← tb_byKey t !! key; tb_rows t !! i.

(** A missing key panics. *)
Definition Table_MustGet t (key : K) : option R := Table_Get t key.

Definition Table_Rows t : list R := tb_rows t.

Definition Table_GetByIndex t (indexName value : string) : list R :=
  match tb_indexes t !! indexName with
  | None => []
  | Some idx => omap (fun i => tb_rows t !! i) (default [] (idx !! value))
  end.

End Tables.

(** ** Snapshots *)

Section ConfigData.
Context {A E W : Type}.

Record configSnapshot := mkConfigSnapshot {
  sn_Version : Z;
  sn_Hash : string;
  sn_tables : gmap string A;
  sn_objects : gmap string A;
  sn_custom : gmap string A
}.

Definition newSnapshot (version : Z) : configSnapshot := mkConfigSnapshot version "" ∅ ∅ ∅.

Context (marshal : A -> string) (digest : list string -> string).

Definition hashParts (kind : string) (values : gmap string A) : list string :=
  (fun name => kind +:+ ":" +:+ name +:+ ":" +:+ from_option marshal "" (values !! name))
    <$> sort_slice String.ltb (map_to_list values).*1.

Definition finalize (s : configSnapshot) : configSnapshot :=
  mkConfigSnapshot (sn_Version s)
    (digest (hashParts "table" (sn_tables s) ++ hashParts "object" (sn_objects s) ++ hashParts "custom" (sn_custom s)))
    (sn_tables s) (sn_objects s) (sn_custom s).

(** ** Definitions *)

Inductive configError : Type :=
| ErrNameEmpty (kind : string)
| ErrFileEmpty (kind name : string)
| ErrFuncNil (kind name : string)
| ErrDuplicateKey (table : string)
| ErrLoad (kind name : string) (e : E)
| ErrTypeMismatch (kind name : string)
| ErrValidate (kind name : string) (e : E)
| ErrDuplicateName (name old new : string)
| ErrDirEmpty
| ErrStat (e : E)
| ErrNotDirectory
| ErrContext (e : E)
| ErrListener (phase : string) (id : Z) (e : E)
| ErrEmit (e : hookError E)
| ErrNoPrevious.

Record BuildContext := mkBuildContext {
  bc_Dir : string;
  bc_Snapshot : configSnapshot
}.

(** The interfaces [tableDef], [objectDef] and [customDef]. *)
Record configDef := mkDef {
  cd_name : string;
  cd_load : W -> BuildContext -> result configError A;
  cd_validate : BuildContext -> A -> option configError
}.

Context (readFile : W -> string -> result E string).
(** The raw members [rows], [records] and [data] of a JSON object. *)
Context (unwrapJSON : string -> result E (string * string * string)).

Definition hasPrefix (c : Ascii.ascii) (s : string) : bool :=
  match s with String d _ => Ascii.eqb d c | EmptyString => false end.

Definition readJSON {T} (unmarshal : string -> result E T) (w : W) (path : string) : result E T :=
  raw ← readFile w path;
  let trimmed := trimSpace raw in
  if hasPrefix "["%char trimmed then unmarshal raw
  else if hasPrefix "{"%char trimmed then
    match unmarshal raw with
    | Ok out => Ok out
    | Err _ =>
        wrapped ← unwrapJSON raw;
        match filter (fun candidate => candidate <> "") [wrapped.1.1; wrapped.1.2; wrapped.2] with
        | candidate :: _ => unmarshal candidate
        | [] => unmarshal raw
        end
    end
  else unmarshal raw.

Definition joinPath (dir file : string) : string := dir +:+ "/" +:+ file.

Definition loadFile {T} (unmarshal : string -> result E T) (kind name file : string) (w : W) (ctx : BuildContext)
    : result configError T :=
  match readJSON unmarshal w (joinPath (bc_Dir ctx) file) with
  | Ok x => Ok x
  | Err e => Err (ErrLoad kind name e)
  end.

Record TableDef (K R : Type) `{Countable K} := mkTableDef {
  td_Name : string;
  td_File : string;
  td_Key : option (R -> K);
  td_Indexes : list (IndexDef R);
  td_Validate : option (BuildContext -> R -> option E);
  td_unmarshal : string -> result E (list R);
  td_wrap : Table K R -> A;
  td_unwrap : A -> option (Table K R)
}.

Definition TableDef_load {K R} `{Countable K} (d : TableDef K R) (w : W) (ctx : BuildContext) : result configError (Table K R) :=
  if String.eqb (td_Name _ _ d) "" then Err (ErrNameEmpty "table")
  else if String.eqb (td_File _ _ d) "" then Err (ErrFileEmpty "table" (td_Name _ _ d))
  else match td_Key _ _ d with
  | None => Err (ErrFuncNil "table" (td_Name _ _ d))
  | Some key =>
      rows ← loadFile (td_unmarshal _ _ d) "table" (td_Name _ _ d) (td_File _ _ d) w ctx;
      match newTable (td_Name _ _ d) key (td_Indexes _ _ d) rows with
      | Ok t => Ok t
      | Err _ => Err (ErrDuplicateKey (td_Name _ _ d))
      end
  end.

Definition TableDef_validate {K R} `{Countable K} (d : TableDef K R) (ctx : BuildContext) (raw : A) : option configError :=
  match td_Validate _ _ d with
  | None => None
  | Some check =>
      match td_unwrap _ _ d raw with
      | None => Some (ErrTypeMismatch "table" (td_Name _ _ d))
      | Some t => ErrValidate "table" (td_Name _ _ d) <$> head (omap (check ctx) (tb_rows t))
      end
  end.

Definition tableDef {K R} `{Countable K} (d : TableDef K R) : configDef :=
  mkDef (td_Name _ _ d) (fun w ctx => t ← TableDef_load d w ctx; Ok (td_wrap _ _ d t)) (TableDef_validate d).

Record ObjectDef (V : Type) := mkObjectDef {
  od_Name : string;
  od_File : string;
  od_Validate : option (BuildContext -> V -> option E);
  od_unmarshal : string -> result E V;
  od_wrap : V -> A;
  od_unwrap : A -> option V
}.

Definition checkValue {V} (kind name : string) (validate : option (BuildContext -> V -> option E)) (unwrap : A -> option V)
    (ctx : BuildContext) (raw : A) : option configError :=
  match validate with
  | None => None
  | Some check =>
      match unwrap raw with
      | None => Some (ErrTypeMismatch kind name)
      | Some v => ErrValidate kind name <$> check ctx v
      end
  end.

Definition ObjectDef_load {V} (d : ObjectDef V) (w : W) (ctx : BuildContext) : result configError V :=
  if String.eqb (od_Name _ d) "" then Err (ErrNameEmpty "object")
  else if String.eqb (od_File _ d) "" then Err (ErrFileEmpty "object" (od_Name _ d))
  else loadFile (od_unmarshal _ d) "object" (od_Name _ d) (od_File _ d) w ctx.

Definition objectDef {V} (d : ObjectDef V) : configDef :=
  mkDef (od_Name _ d) (fun w ctx => v ← ObjectDef_load d w ctx; Ok (od_wrap _ d v))
    (checkValue "object" (od_Name _ d) (od_Validate _ d) (od_unwrap _ d)).

Record CustomDef (V : Type) := mkCustomDef {
  cu_Name : string;
  cu_Build : option (W -> BuildContext -> result E V);
  cu_Validate : option (BuildContext -> V -> option E);
  cu_wrap : V -> A;
  cu_unwrap : A -> option V
}.

Definition CustomDef_build {V} (d : CustomDef V) (w : W) (ctx : BuildContext) : result configError V :=
  if String.eqb (cu_Name _ d) "" then Err (ErrNameEmpty "custom")
  else match cu_Build _ d with
  | None => Err (ErrFuncNil "custom" (cu_Name _ d))
  | Some build =>
      match build w ctx with
      | Ok v => Ok v
      | Err e => Err (ErrLoad "custom" (cu_Name _ d) e)
      end
  end.

Definition customDef {V} (d : CustomDef V) : configDef :=
  mkDef (cu_Name _ d) (fun w ctx => v ← CustomDef_build d w ctx; Ok (cu_wrap _ d v))
    (checkValue "custom" (cu_Name _ d) (cu_Validate _ d) (cu_unwrap _ d)).

(** ** Registry *)

Inductive defKind : Type := KindTable | KindObject | KindCustom.

#[export] Instance defKind_eq_dec : EqDecision defKind.
Proof. solve_decision. Defined.

Definition kindName (k : defKind) : string :=
  match k with KindTable => "table" | KindObject => "object" | KindCustom => "custom" end.

Record configRegistry := mkRegistry {
  rg_tables : list configDef;
  rg_objects : list configDef;
  rg_custom : list configDef;
  rg_names : gmap string defKind
}.

Definition NewRegistry : configRegistry := mkRegistry [] [] [] ∅.

(** [RegisterTable], [RegisterObject] and [RegisterCustom]. *)
Definition register (r : configRegistry) (kind : defKind) (def : configDef) : result configError configRegistry :=
  let name := cd_name def in
  if String.eqb name "" then Err (ErrNameEmpty (kindName kind))
  else match rg_names r !! name with
  | Some oldKind =>
      if bool_decide (oldKind = kind) then Ok r
      else Err (ErrDuplicateName name (kindName oldKind) (kindName kind))
  | None =>
      let names := <[name := kind]> (rg_names r) in
      Ok match kind with
         | KindTable => mkRegistry (rg_tables r ++ [def]) (rg_objects r) (rg_custom r) names
         | KindObject => mkRegistry (rg_tables r) (rg_objects r ++ [def]) (rg_custom r) names
         | KindCustom => mkRegistry (rg_tables r) (rg_objects r) (rg_custom r ++ [def]) names
         end
  end.

(** ** Building *)

Definition withTable (name : string) (x : A) (s : configSnapshot) : configSnapshot :=
  mkConfigSnapshot (sn_Version s) (sn_Hash s) (<[name := x]> (sn_tables s)) (sn_objects s) (sn_custom s).
Definition withObject (name : string) (x : A) (s : configSnapshot) : configSnapshot :=
  mkConfigSnapshot (sn_Version s) (sn_Hash s) (sn_tables s) (<[name := x]> (sn_objects s)) (sn_custom s).
Definition withCustom (name : string) (x : A) (s : configSnapshot) : configSnapshot :=
  mkConfigSnapshot (sn_Version s) (sn_Hash s) (sn_tables s) (sn_objects s) (<[name := x]> (sn_custom s)).

(** The context of a call: the error of its [n]-th check, if it is done by then. *)
Definition ctxErrs := nat -> option E.

Fixpoint loadDefs (ctx : ctxErrs) (n : nat) (dir : string) (w : W) (put : string -> A -> configSnapshot -> configSnapshot)
    (defs : list configDef) (s : configSnapshot) : result configError (nat * configSnapshot) :=
  match defs with
  | [] => Ok (n, s)
  | def :: defs =>
      match ctx n with
      | Some e => Err (ErrContext e)
      | None =>
          raw ← cd_load def w (mkBuildContext dir s);
          loadDefs ctx (S n) dir w put defs (put (cd_name def) raw s)
      end
  end.

Fixpoint validateDefs (dir : string) (s : configSnapshot) (values : gmap string A) (defs : list configDef) : option configError :=
  match defs with
  | [] => None
  | def :: defs =>
      match values !! cd_name def with
      | Some x =>
          match cd_validate def (mkBuildContext dir s) x with
          | Some e => Some e
          | None => validateDefs dir s values defs
          end
      | None => validateDefs dir s values defs
      end
  end.

Context (statDir : W -> string -> result E bool).

Definition orElse (a b : option configError) : option configError := match a with Some e => Some e | None => b end.

Definition build (reg : configRegistry) (dir : string) (w : W) (ctx : ctxErrs) (version : Z) : result configError configSnapshot :=
  match ctx 0%nat with
  | Some e => Err (ErrContext e)
  | None =>
      if String.eqb dir "" then Err ErrDirEmpty
      else match statDir w dir with
      | Err e => Err (ErrStat e)
      | Ok false => Err ErrNotDirectory
      | Ok true =>
          t ← loadDefs ctx 1 dir w withTable (rg_tables reg) (newSnapshot version);
          o ← loadDefs ctx t.1 dir w withObject (rg_objects reg) t.2;
          c ← loadDefs ctx o.1 dir w withCustom (rg_custom reg) o.2;
          let s := c.2 in
          match orElse (validateDefs dir s (sn_tables s) (rg_tables reg))
                 (orElse (validateDefs dir s (sn_objects s) (rg_objects reg))
                    (validateDefs dir s (sn_custom s) (rg_custom reg))) with
          | Some e => Err e
          | None => Ok (finalize s)
          end
      end
  end.

(** ** Store *)

Record ReloadEvent := mkReloadEvent {
  ev_Reason : string;
  ev_Old : option configSnapshot;
  ev_New : configSnapshot
}.

(** Calls to listeners, by the number of their entry, and to lifecycle hooks. *)
Inductive reloadCall : Type :=
| CallValidate (id : Z) (event : ReloadEvent)
| CallBeforeApply (id : Z) (event : ReloadEvent)
| CallAfterApply (id : Z) (event : ReloadEvent)
| CallRollback (id : Z) (event : ReloadEvent) (cause : configError)
| CallHook (hook : LifecycleHook) (name reason : string) (snap : configSnapshot).

Record configStore := mkStore {
  cs_registry : configRegistry;
  cs_dir : string;
  cs_lifecycle : option hookRegistry;
  cs_current : option configSnapshot;
  cs_previous : option configSnapshot;
  cs_version : Z;
  cs_listeners : list Z;
  cs_nextID : Z
}.

Definition NewStore (registry : configRegistry) (dir : string) : configStore :=
  mkStore registry dir None None None 0 [] 0.

(** The store, whether it is the default store, the configuration new contexts
    are given, what [Current] was set to so far, and the calls made so far. *)
Record configState := mkState {
  x_store : configStore;
  x_default : bool;
  x_runtime : option configSnapshot;
  x_published : list (option configSnapshot);
  x_log : list reloadCall
}.

Implicit Types (s : configStore) (x : configState).

Definition withCurrent s (snap : option configSnapshot) : configStore :=
  mkStore (cs_registry s) (cs_dir s) (cs_lifecycle s) snap (cs_previous s) (cs_version s) (cs_listeners s) (cs_nextID s).
Definition withPrevious s (snap : option configSnapshot) : configStore :=
  mkStore (cs_registry s) (cs_dir s) (cs_lifecycle s) (cs_current s) snap (cs_version s) (cs_listeners s) (cs_nextID s).
Definition withVersion s (version : Z) : configStore :=
  mkStore (cs_registry s) (cs_dir s) (cs_lifecycle s) (cs_current s) (cs_previous s) version (cs_listeners s) (cs_nextID s).
Definition withListeners s (ids : list Z) (next : Z) : configStore :=
  mkStore (cs_registry s) (cs_dir s) (cs_lifecycle s) (cs_current s) (cs_previous s) (cs_version s) ids next.

Definition withStore x s : configState := mkState s (x_default x) (x_runtime x) (x_published x) (x_log x).
Definition withLog x (log : list reloadCall) : configState :=
  mkState (x_store x) (x_default x) (x_runtime x) (x_published x) log.

Definition SetDir s (dir : string) : configStore :=
  mkStore (cs_registry s) dir (cs_lifecycle s) (cs_current s) (cs_previous s) (cs_version s) (cs_listeners s) (cs_nextID s).

Definition SetLifecycleRegistry s (reg : option hookRegistry) : configStore :=
  mkStore (cs_registry s) (cs_dir s) reg (cs_current s) (cs_previous s) (cs_version s) (cs_listeners s) (cs_nextID s).

(** The number identifies the entry; removing it twice does nothing. *)
Definition AddReloadListener s : configStore * Z :=
  let id := u64! (cs_nextID s + 1) in
  (withListeners s (cs_listeners s ++ [id]) id, id).

Fixpoint removeEntry (id : Z) (ids : list Z) : list Z :=
  match ids with
  | [] => []
  | i :: ids => if i =? id then ids else i :: removeEntry id ids
  end.

Definition removeReloadListener s (id : Z) : configStore :=
  withListeners s (removeEntry id (cs_listeners s)) (cs_nextID s).

Context (answer : appAnswers reloadCall E).

(** [runReloadValidate], [runReloadBeforeApply], [runReloadAfterApply]. *)
Fixpoint runListeners (phase : string) (call : Z -> reloadCall) (ids : list Z) (log : list reloadCall)
    : list reloadCall * option configError :=
  match ids with
  | [] => (log, None)
  | id :: ids =>
      let '(log, o) := ask answer log (call id) in
      match o with
      | Some e => (log, Some (ErrListener phase id e))
      | None => runListeners phase call ids log
      end
  end.

Definition runReloadValidate (ids : list Z) (event : ReloadEvent) :=
  runListeners "validate" (fun id => CallValidate id event) ids.
Definition runReloadBeforeApply (ids : list Z) (event : ReloadEvent) :=
  runListeners "before apply" (fun id => CallBeforeApply id event) ids.
Definition runReloadAfterApply (ids : list Z) (event : ReloadEvent) :=
  runListeners "after apply" (fun id => CallAfterApply id event) ids.

Fixpoint runReloadRollback (ids : list Z) (event : ReloadEvent) (cause : configError) (log : list reloadCall)
    : list reloadCall :=
  match ids with
  | [] => log
  | id :: ids => (ask answer (runReloadRollback ids event cause log) (CallRollback id event cause)).1
  end.

Definition emitConfigReload s (name reason : string) (snap : configSnapshot) (log : list reloadCall)
    : list reloadCall * option configError :=
  match cs_lifecycle s with
  | None => (log, None)
  | Some reg =>
      let '(log, r) := Registry_Emit answer (fun h => CallHook h name reason snap) reg "config.reload" log in
      (log, match r with Ok _ => None | Err e => Some (ErrEmit e) end)
  end.

(** What [ReloadWithReason] and [Rollback] do after [BeforeApply]: publish, tell
    the hooks and the listeners, and take it back if one of them fails. *)
Definition publish x (snap : configSnapshot) : configState :=
  mkState (withCurrent (x_store x) (Some snap)) true (Some snap) (x_published x ++ [Some snap]) (x_log x).

Definition takeBack x (old : option configSnapshot) (event : ReloadEvent) (cause : configError) : configState :=
  mkState (withCurrent (x_store x) old) (x_default x) old (x_published x ++ [old])
    (runReloadRollback (cs_listeners (x_store x)) event cause (x_log x)).

Definition applyReload x (name reason : string) (event : ReloadEvent) : configState * option configError :=
  let old := ev_Old event in
  let x := publish x (ev_New event) in
  let '(log, emitErr) := emitConfigReload (x_store x) name reason (ev_New event) (x_log x) in
  let x := withLog x log in
  match emitErr with
  | Some e => (takeBack x old event e, Some e)
  | None =>
      let '(log, afterErr) := runReloadAfterApply (cs_listeners (x_store x)) event (x_log x) in
      let x := withLog x log in
      match afterErr with
      | Some e => (takeBack x old event e, Some e)
      | None => (x, None)
      end
  end.

Definition beforeReload x (event : ReloadEvent) : configState * option configError :=
  let '(log, validateErr) := runReloadValidate (cs_listeners (x_store x)) event (x_log x) in
  match validateErr with
  | Some e => (withLog x log, Some e)
  | None =>
      let '(log, beforeErr) := runReloadBeforeApply (cs_listeners (x_store x)) event log in
      (withLog x log, beforeErr)
  end.

Definition keepPrevious x (old : option configSnapshot) : configState :=
  match old with
  | Some _ => withStore x (withPrevious (x_store x) old)
  | None => x
  end.

Definition setVersion x (version : Z) : configState := withStore x (withVersion (x_store x) version).

Definition ReloadWithReason x (w : W) (ctx : ctxErrs) (reason : string) : configState * result configError configSnapshot :=
  let s := x_store x in
  let old := cs_current s in
  let oldVersion := cs_version s in
  let nextVersion := u64! (oldVersion + 1) in
  match build (cs_registry s) (cs_dir s) w ctx nextVersion with
  | Err e => (x, Err e)
  | Ok snap =>
      let event := mkReloadEvent reason old snap in
      let '(x, beforeErr) := beforeReload x event in
      match beforeErr with
      | Some e => (x, Err e)
      | None =>
          let '(x, applyErr) := applyReload x "configdata" reason event in
          match applyErr with
          | Some e => (setVersion x oldVersion, Err e)
          | None => (setVersion (keepPrevious x old) nextVersion, Ok snap)
          end
      end
  end.

Definition DryRun x (w : W) (ctx : ctxErrs) (reason : string) : configState * result configError configSnapshot :=
  let s := x_store x in
  match build (cs_registry s) (cs_dir s) w ctx (u64! (cs_version s + 1)) with
  | Err e => (x, Err e)
  | Ok snap =>
      let event := mkReloadEvent reason (cs_current s) snap in
      let '(log, validateErr) := runReloadValidate (cs_listeners s) event (x_log x) in
      (withLog x log, match validateErr with Some e => Err e | None => Ok snap end)
  end.

Definition Store_Rollback x (reason : string) : configState * result configError configSnapshot :=
  let s := x_store x in
  match cs_previous s with
  | None => (x, Err ErrNoPrevious)
  | Some prev =>
      let old := cs_current s in
      let event := mkReloadEvent reason old prev in
      let '(x, beforeErr) := beforeReload x event in
      match beforeErr with
      | Some e => (x, Err e)
      | None =>
          let '(x, applyErr) := applyReload x "configdata.rollback" reason event in
          match applyErr with
          | Some e => (x, Err e)
          | None => (setVersion (keepPrevious x old) (sn_Version prev), Ok prev)
          end
      end
  end.

(** What a handler reads: the configuration its context was given, else the
    current snapshot of the default store. *)
Definition ActiveSnapshot x (bound : option configSnapshot) : option configSnapshot :=
  match bound with
  | Some snap => Some snap
  | None => if x_default x then cs_current (x_store x) else None
  end.

(** ** Runs *)

Inductive configOp : Type :=
| OpReload (w : W) (ctx : ctxErrs) (reason : string)
| OpDryRun (w : W) (ctx : ctxErrs) (reason : string)
| OpRollback (reason : string)
| OpRegister (kind : defKind) (def : configDef)
| OpAddListener
| OpRemoveListener (id : Z)
| OpSetDir (dir : string)
| OpSetLifecycle (reg : option hookRegistry).

Definition onRegistry x (r : result configError configRegistry) : configState :=
  let s := x_store x in
  match r with
  | Ok reg => withStore x (mkStore reg (cs_dir s) (cs_lifecycle s) (cs_current s) (cs_previous s) (cs_version s)
                             (cs_listeners s) (cs_nextID s))
  | Err _ => x
  end.

Definition configExec x (op : configOp) : configState :=
  match op with
  | OpReload w ctx reason => (ReloadWithReason x w ctx reason).1
  | OpDryRun w ctx reason => (DryRun x w ctx reason).1
  | OpRollback reason => (Store_Rollback x reason).1
  | OpRegister kind def => onRegistry x (register (cs_registry (x_store x)) kind def)
  | OpAddListener => withStore x (AddReloadListener (x_store x)).1
  | OpRemoveListener id => withStore x (removeReloadListener (x_store x) id)
  | OpSetDir dir => withStore x (SetDir (x_store x) dir)
  | OpSetLifecycle reg => withStore x (SetLifecycleRegistry (x_store x) reg)
  end.

Definition configRun x (ops : list configOp) : configState := foldl configExec x ops.

Definition initialState (registry : configRegistry) (dir : string) : configState :=
  mkState (NewStore registry dir) false None [None] [].
End ConfigData.

(** ** What a table holds *)

Section TableFacts.
Context {K R : Type} `{Countable K}.
Implicit Types (t : Table K R) (row : R).

(** Whether a row is found in the index [name] under [value]. *)
Definition indexed (name value : string) row (idx : IndexDef R) : bool :=
  match ix_Key idx with
  | None => false
  | Some key =>
      String.eqb (ix_Name idx) name && negb (String.eqb name "") && String.eqb (key row) value
      && negb (String.eqb value "" && ix_SkipEmpty idx)
  end.

Definition lookupIndex (indexes : gmap string (gmap string (list nat))) (name value : string) : list nat :=
  default [] (m ← indexes !! name; m !! value).

Lemma indexRow_lookup i row indexes idx name value :
  lookupIndex (indexRow i row indexes idx) name value
  = lookupIndex indexes name value ++ (if indexed name value row idx then [i] else []).
Proof.
  unfold indexRow, indexed. destruct (ix_Key idx) as [key|]; [|by rewrite app_nil_r].
  destruct (String.eqb_spec (ix_Name idx) "") as [He|Hne].
  { destruct (String.eqb_spec (ix_Name idx) name) as [<-|]; [rewrite He|]; cbn; by rewrite app_nil_r. }
  destruct (String.eqb_spec (ix_Name idx) name) as [<-|Hn]; cbn [andb].
  - rewrite (proj2 (String.eqb_neq _ _) Hne). cbn [andb negb].
    destruct (String.eqb_spec (key row) value) as [<-|Hv]; cbn [andb].
    + destruct (String.eqb (key row) "" && ix_SkipEmpty idx); cbn [negb]; [by rewrite app_nil_r|].
      unfold lookupIndex. rewrite lookup_insert_eq. cbn. rewrite lookup_insert_eq. cbn.
      by destruct (indexes !! ix_Name idx).
    + destruct (String.eqb (key row) "" && ix_SkipEmpty idx); [by rewrite app_nil_r|].
      unfold lookupIndex. rewrite lookup_insert_eq. cbn. rewrite lookup_insert_ne by done. rewrite app_nil_r.
      destruct (indexes !! ix_Name idx); [done|]. cbn. by rewrite lookup_empty.
  - rewrite app_nil_r. destruct (_ && _); [done|]. unfold lookupIndex. by rewrite lookup_insert_ne.
Qed.

Definition rowEntries (indexes : list (IndexDef R)) (name value : string) (i : nat) row : list nat :=
  indexes ≫= fun idx => if indexed name value row idx then [i] else [].

Lemma indexRows_lookup i row idxs indexes name value :
  lookupIndex (foldl (indexRow i row) indexes idxs) name value
  = lookupIndex indexes name value ++ rowEntries idxs name value i row.
Proof.
  revert indexes. induction idxs as [|idx idxs IH]; intros indexes; cbn [foldl].
  - by rewrite app_nil_r.
  - rewrite IH, indexRow_lookup, <-app_assoc. done.
Qed.

Fixpoint entriesFrom (idxs : list (IndexDef R)) (name value : string) (i : nat) (rows : list R) : list nat :=
  match rows with [] => [] | row :: rows => rowEntries idxs name value i row ++ entriesFrom idxs name value (S i) rows end.

Lemma newTableRows_ok key idxs i rows t t' :
  newTableRows key idxs i rows t = Ok t' ->
  tb_rows t' = tb_rows t /\ NoDup (key <$> rows)
  /\ (forall row, row ∈ rows -> tb_byKey t !! key row = None)
  /\ (forall name value, lookupIndex (tb_indexes t') name value
        = lookupIndex (tb_indexes t) name value ++ entriesFrom idxs name value i rows)
  /\ (forall k j, tb_byKey t' !! k = Some j <->
        tb_byKey t !! k = Some j \/ exists row, (i <= j)%nat /\ rows !! (j - i)%nat = Some row /\ key row = k).
Proof.
  revert i t. induction rows as [|row rows IH]; intros i t; cbn [newTableRows].
  - intros [= <-]. split_and!; [done|constructor|by intros row Hr%not_elem_of_nil|by intros; rewrite app_nil_r|].
    intros k j. split; [by left|]. intros [?|(row & _ & Hr & _)]; [done|by rewrite lookup_nil in Hr].
  - destruct (tb_byKey t !! key row) as [|] eqn:Hk; [done|].
    intros (Hr & Hd & Hn & Hix & Hby)%IH. cbn [tb_rows tb_byKey tb_indexes] in *.
    assert (Hnew : key row ∉ key <$> rows).
    { intros (row' & Heq & Hin)%list_elem_of_fmap_1. specialize (Hn row' Hin). by rewrite <-Heq, lookup_insert_eq in Hn. }
    split_and!; [done|by apply NoDup_cons| | |].
    + intros row' [->|Hin]%elem_of_cons; [done|]. specialize (Hn row' Hin).
      destruct (decide (key row' = key row)) as [He|Hne]; [by rewrite He|]. by rewrite lookup_insert_ne in Hn by congruence.
    + intros name value. by rewrite Hix, indexRows_lookup, <-app_assoc.
    + intros k j. rewrite Hby. destruct (decide (k = key row)) as [->|Hne].
      * rewrite lookup_insert_eq, Hk. split.
        -- intros [[= <-]|(row' & Hj & Hrow & Hkr)].
           ++ right. exists row. rewrite Nat.sub_diag. split_and!; [lia|done|done].
           ++ exfalso. apply Hnew. rewrite <-Hkr. apply list_elem_of_fmap_2. by eapply list_elem_of_lookup_2.
        -- intros [?|(row' & Hj & Hrow & Hkr)]; [done|]. left. destruct (j - i)%nat as [|m] eqn:Hji; [f_equal; lia|].
           exfalso. apply Hnew. rewrite <-Hkr. apply list_elem_of_fmap_2. by eapply list_elem_of_lookup_2.
      * rewrite lookup_insert_ne by congruence. split; (intros [?|(row' & Hj & Hrow & Hkr)]; [by left|right]); exists row'.
        -- split; [lia|]. split; [|done]. by replace (j - i)%nat with (S (j - S i)) by lia.
        -- destruct (j - i)%nat as [|m] eqn:Hji; [cbn in Hrow; congruence|]. split; [lia|]. split; [|done].
           by replace (j - S i)%nat with m by lia.
Qed.

Lemma newTableRows_err key idxs i rows t k :
  newTableRows key idxs i rows t = Err k ->
  k ∈ key <$> rows /\ (is_Some (tb_byKey t !! k) \/ ~ NoDup (key <$> rows)).
Proof.
  revert i t. induction rows as [|row rows IH]; intros i t; cbn [newTableRows]; [done|].
  destruct (tb_byKey t !! key row) as [j|] eqn:Hk.
  - intros [= <-]. split; [by left|]. left. by exists j.
  - intros [Hin Hor]%IH. cbn [tb_byKey] in Hor. split; [by right|].
    destruct (decide (k = key row)) as [->|Hne].
    + right. intros [Hn _]%NoDup_cons. done.
    + rewrite lookup_insert_ne in Hor by congruence. destruct Hor as [?|Hd]; [by left|right].
      intros [_ ?]%NoDup_cons. done.
Qed.

Lemma rowEntries_rows (idxs : list (IndexDef R)) name value i row (all : list R) :
  all !! i = Some row ->
  omap (fun j => all !! j) (rowEntries idxs name value i row)
  = idxs ≫= fun idx => if indexed name value row idx then [row] else [].
Proof.
  intros Hi. unfold rowEntries. induction idxs as [|idx idxs IH]; [done|]. rewrite !bind_cons, omap_app, IH.
  f_equal. destruct (indexed name value row idx); [|done]. cbn. by rewrite Hi.
Qed.

Lemma entriesFrom_rows idxs name value pre rows :
  omap (fun j => (pre ++ rows) !! j) (entriesFrom idxs name value (length pre) rows)
  = rows ≫= fun row => idxs ≫= fun idx => if indexed name value row idx then [row] else [].
Proof.
  revert pre. induction rows as [|row rows IH]; intros pre; [done|]. cbn [entriesFrom]. rewrite omap_app, bind_cons.
  f_equal.
  - apply rowEntries_rows. by rewrite lookup_app_r, Nat.sub_diag.
  - specialize (IH (pre ++ [row])). rewrite length_app, Nat.add_comm, <-app_assoc in IH. exact IH.
Qed.

(** A table is its rows.  [newTable] fails exactly when two rows share their
    key; else [Get] finds a row exactly under its key, and a lookup in a secondary
    index gives the rows with that value in the order of the file (once per
    definition of the index, empty values left out where the definition says so). *)
Theorem newTable_exact name (key : R -> K) (idxs : list (IndexDef R)) rows :
  match newTable name key idxs rows with
  | Err k => k ∈ key <$> rows /\ ~ NoDup (key <$> rows)
  | Ok t =>
      NoDup (key <$> rows) /\ Table_Rows t = rows
      /\ (forall k row, Table_Get t k = Some row <-> row ∈ rows /\ key row = k)
      /\ (forall index value, Table_GetByIndex t index value
            = rows ≫= fun row => idxs ≫= fun idx => if indexed index value row idx then [row] else [])
  end.
Proof.
  unfold newTable. destruct (newTableRows key idxs 0 rows _) as [t|k] eqn:Ht.
  - apply newTableRows_ok in Ht as (Hr & Hd & _ & Hix & Hby). cbn [tb_rows tb_byKey tb_indexes] in *.
    split_and!; [done|done| |].
    + intros k row. unfold Table_Get. rewrite bind_Some, Hr. split.
      * intros (i & Hi & Hrow). apply Hby in Hi as [Hi|(row' & _ & Hrow' & Hk)]; [by rewrite lookup_empty in Hi|].
        rewrite Nat.sub_0_r in Hrow'. assert (row' = row) as -> by congruence. split; [by eapply list_elem_of_lookup_2|done].
      * intros [[i Hi]%list_elem_of_lookup Hk]. exists i. split; [|done]. apply Hby. right. exists row.
        rewrite Nat.sub_0_r. split; [lia|done].
    + intros index value. pose proof (entriesFrom_rows idxs index value [] rows) as He. cbn [app length] in He.
      rewrite <-He, <-Hr. specialize (Hix index value). unfold lookupIndex in Hix at 2. rewrite lookup_empty in Hix. cbn in Hix.
      rewrite Hr, <-Hix. unfold Table_GetByIndex, lookupIndex. rewrite Hr.
      by destruct (tb_indexes t !! index).
  - apply newTableRows_err in Ht as [Hin [[j Hj]|Hd]]; [cbn in Hj; by rewrite lookup_empty in Hj|done].
Qed.

End TableFacts.

(** ** Building and publishing *)

Section StoreFacts.
Context {A E W : Type}.
Context (marshal : A -> string) (digest : list string -> string).
Context (statDir : W -> string -> result E bool).
Context (answer : appAnswers (reloadCall (A := A) (E := E)) E).

#[local] Abbreviation Snap := (configSnapshot (A := A)).
#[local] Abbreviation CDef := (configDef (A := A) (E := E) (W := W)).
#[local] Abbreviation CReg := (configRegistry (A := A) (E := E) (W := W)).
#[local] Abbreviation CState := (configState (A := A) (E := E) (W := W)).
#[local] Abbreviation Reload := (ReloadWithReason (W := W) marshal digest statDir answer).
#[local] Abbreviation Call := (reloadCall (A := A) (E := E)).
Implicit Types (snap : Snap) (x : CState) (log : list Call).

(** A snapshot as the validation functions see it. *)
Definition unhashed snap : Snap :=
  mkConfigSnapshot (sn_Version snap) "" (sn_tables snap) (sn_objects snap) (sn_custom snap).

Definition validated (dir : string) snap (values : gmap string A) (defs : list CDef) : Prop :=
  forall def v, def ∈ defs -> values !! cd_name def = Some v -> cd_validate def (mkBuildContext dir (unhashed snap)) v = None.

(** A snapshot that holds a value for every definition of a registry, and no
    other, all of which passed validation. *)
Definition complete (reg : CReg) (dir : string) snap : Prop :=
  dom (sn_tables snap) = list_to_set (C := gset string) (cd_name <$> rg_tables reg)
  /\ dom (sn_objects snap) = list_to_set (C := gset string) (cd_name <$> rg_objects reg)
  /\ dom (sn_custom snap) = list_to_set (C := gset string) (cd_name <$> rg_custom reg)
  /\ validated dir snap (sn_tables snap) (rg_tables reg)
  /\ validated dir snap (sn_objects snap) (rg_objects reg)
  /\ validated dir snap (sn_custom snap) (rg_custom reg).

(** Loading definitions by [put] changes one of the maps only. *)
Lemma loadDefs_ok (view : Snap -> gmap string A) (rest : Snap -> Z * string * gmap string A * gmap string A)
    put ctx n dir (w : W) (defs : list CDef) s n' s' :
  (forall name v s, view (put name v s) = <[name := v]> (view s) /\ rest (put name v s) = rest s) ->
  loadDefs ctx n dir w put defs s = Ok (n', s') ->
  dom (view s') = dom (view s) ∪ list_to_set (C := gset string) (cd_name <$> defs) /\ rest s' = rest s.
Proof.
  intros Hput. revert n s. induction defs as [|def defs IH]; intros n s; cbn [loadDefs].
  - intros [= <- <-]. split; [set_solver|done].
  - destruct (ctx n); [done|]. destruct (cd_load def w _) as [v|]; [|done]. run_bind.
    intros [Hdom Hrest]%IH. destruct (Hput (cd_name def) v s) as [Hv Hr]. rewrite Hv in Hdom. rewrite Hr in Hrest.
    split; [|done]. rewrite Hdom, dom_insert_L. cbn. set_solver.
Qed.

Lemma validateDefs_ok dir s (values : gmap string A) (defs : list CDef) :
  validateDefs dir s values defs = None ->
  forall def v, def ∈ defs -> values !! cd_name def = Some v -> cd_validate def (mkBuildContext dir s) v = None.
Proof.
  induction defs as [|def defs IH]; cbn [validateDefs]; intros Hv d v Hd Hval; [by apply not_elem_of_nil in Hd|].
  apply elem_of_cons in Hd as [->|Hd].
  - rewrite Hval in Hv. by destruct (cd_validate def _ v).
  - apply IH; [|done|done]. destruct (values !! cd_name def) as [y|]; [|done]. by destruct (cd_validate def _ y).
Qed.

Lemma build_complete (reg : CReg) dir w ctx version snap :
  build marshal digest statDir reg dir w ctx version = Ok snap -> complete reg dir snap /\ sn_Version snap = version.
Proof.
  unfold build. destruct (ctx 0%nat); [done|]. destruct (String.eqb dir ""); [done|]. destruct (statDir w dir) as [[]|]; [|done..].
  destruct (loadDefs ctx 1 dir w withTable _ _) as [[n1 s1]|] eqn:H1; [|done]. run_bind. cbn [fst snd].
  destruct (loadDefs ctx n1 dir w withObject _ _) as [[n2 s2]|] eqn:H2; [|done]. run_bind. cbn [fst snd].
  destruct (loadDefs ctx n2 dir w withCustom _ _) as [[n3 s3]|] eqn:H3; [|done]. run_bind. cbn [fst snd].
  destruct (orElse _ _) eqn:Hv; [done|]. intros [= <-].
  apply (loadDefs_ok sn_tables (fun s => (sn_Version s, sn_Hash s, sn_objects s, sn_custom s))) in H1 as [D1 R1]; [|done].
  apply (loadDefs_ok sn_objects (fun s => (sn_Version s, sn_Hash s, sn_tables s, sn_custom s))) in H2 as [D2 R2]; [|done].
  apply (loadDefs_ok sn_custom (fun s => (sn_Version s, sn_Hash s, sn_tables s, sn_objects s))) in H3 as [D3 R3]; [|done].
  cbn in R1. injection R1 as V1 Ha1 O1 C1. injection R2 as V2 Ha2 T2 C2. injection R3 as V3 Ha3 T3 O3.
  assert (Hun : unhashed (finalize marshal digest s3) = s3).
  { unfold unhashed, finalize. cbn. destruct s3 as [ver hash tt oo cc]. cbn in *. by rewrite Ha3, Ha2, Ha1. }
  unfold orElse in Hv. destruct (validateDefs dir s3 (sn_tables s3) _) eqn:E1; [done|].
  destruct (validateDefs dir s3 (sn_objects s3) _) eqn:E2; [done|].
  split; [|cbn; congruence]. unfold complete, validated. rewrite Hun. cbn [finalize sn_tables sn_objects sn_custom].
  split_and!; try (by eapply validateDefs_ok).
  - rewrite T3, T2, D1. cbn. rewrite dom_empty_L. set_solver.
  - rewrite O3, D2, O1. cbn. rewrite dom_empty_L. set_solver.
  - rewrite D3, C2, C1. cbn. rewrite dom_empty_L. set_solver.
Qed.

(** ** Calls *)

Lemma runListeners_calls phase (call : Z -> Call) ids log log' o :
  runListeners answer phase call ids log = (log', o) ->
  exists ran, log' = log ++ (call <$> ran) /\ ran `prefix_of` ids /\ (o = None -> ran = ids)
    /\ (forall e, o = Some e -> ran <> []).
Proof.
  revert log. induction ids as [|id ids IH]; intros log; cbn [runListeners ask].
  - intros [= <- <-]. exists []. rewrite app_nil_r. by split_and!.
  - destruct (answer log (call id)) as [e|].
    + intros [= <- <-]. exists [id]. split_and!; [done|by exists ids|done|done].
    + intros (ran & -> & Hp & Hn & _)%IH. exists (id :: ran). rewrite fmap_cons, <-app_assoc. split_and!; [done| | |done].
      * by apply prefix_cons.
      * intros Ho. by rewrite Hn.
Qed.

Lemma runReloadRollback_calls ids event cause log :
  runReloadRollback answer ids event cause log = log ++ ((fun id => CallRollback id event cause) <$> reverse ids).
Proof.
  induction ids as [|id ids IH]; cbn [runReloadRollback ask fst]; [by rewrite app_nil_r|].
  by rewrite IH, reverse_cons, fmap_app, <-app_assoc.
Qed.

Definition validates (ids : list Z) event : list Call := (fun id => CallValidate id event) <$> ids.
Definition befores (ids : list Z) event : list Call := (fun id => CallBeforeApply id event) <$> ids.
Definition afters (ids : list Z) event : list Call := (fun id => CallAfterApply id event) <$> ids.
Definition rollbacks (ids : list Z) event cause : list Call := (fun id => CallRollback id event cause) <$> reverse ids.
Definition hookCalls (reg : option hookRegistry) (name reason : string) snap : list Call :=
  (fun h => CallHook h name reason snap) <$> from_option (fun r => hooksOf r "config.reload") [] reg.

Lemma fmap_prefix {X Y} (f : X -> Y) (l k : list X) : l `prefix_of` k -> (f <$> l) `prefix_of` (f <$> k).
Proof. intros [m ->]. rewrite fmap_app. by exists (f <$> m). Qed.

Lemma beforeReload_spec x event x' o :
  beforeReload answer x event = (x', o) ->
  let calls := validates (cs_listeners (x_store x)) event ++ befores (cs_listeners (x_store x)) event in
  exists part, x' = withLog x (x_log x ++ part) /\ part `prefix_of` calls /\ (o = None -> part = calls).
Proof.
  unfold beforeReload, runReloadValidate, runReloadBeforeApply.
  destruct (runListeners answer "validate" _ _ _) as [log1 o1] eqn:H1.
  apply runListeners_calls in H1 as (ran1 & -> & Hp1 & Hn1 & _). destruct o1 as [e|].
  - intros [= <- <-]. eexists. split; [done|]. split; [|done]. apply prefix_app_r. by apply fmap_prefix.
  - specialize (Hn1 eq_refl) as ->. destruct (runListeners answer "before apply" _ _ _) as [log2 o2] eqn:H2.
    apply runListeners_calls in H2 as (ran2 & -> & Hp2 & Hn2 & _). intros [= <- <-].
    eexists. rewrite <-app_assoc. split; [done|]. split; [by apply prefix_app, fmap_prefix|].
    intros Ho. by rewrite (Hn2 Ho).
Qed.

Lemma emitConfigReload_calls (s : configStore (A := A) (E := E) (W := W)) name reason snap log log' o :
  emitConfigReload answer s name reason snap log = (log', o) ->
  exists part, log' = log ++ part /\ part `prefix_of` hookCalls (cs_lifecycle s) name reason snap
    /\ (o = None -> part = hookCalls (cs_lifecycle s) name reason snap).
Proof.
  unfold emitConfigReload, hookCalls. destruct (cs_lifecycle s) as [reg|]; cbn [from_option].
  - unfold Registry_Emit. destruct (emitHooks answer _ _ _ log) as [l r] eqn:He.
    apply emitHooks_calls in He as (ran & -> & Hp & Hr). intros [= <- <-]. eexists. split; [done|].
    split; [by apply fmap_prefix|]. destruct r; [intros _; by rewrite Hr|done].
  - intros [= <- <-]. exists []. by rewrite app_nil_r.
Qed.

Lemma applyReload_spec x name reason event x' o :
  applyReload answer x name reason event = (x', o) ->
  let ids := cs_listeners (x_store x) in
  let calls := hookCalls (cs_lifecycle (x_store x)) name reason (ev_New event) ++ afters ids event in
  exists part, part `prefix_of` calls
  /\ match o with
     | None => part = calls /\ x' = withLog (publish x (ev_New event)) (x_log x ++ part)
     | Some e =>
         x' = mkState (withCurrent (x_store x) (ev_Old event)) true (ev_Old event)
                (x_published x ++ [Some (ev_New event); ev_Old event]) (x_log x ++ part ++ rollbacks ids event e)
     end.
Proof.
  unfold applyReload. destruct (emitConfigReload answer _ name reason _ _) as [log1 o1] eqn:H1.
  apply emitConfigReload_calls in H1 as (part1 & -> & Hp1 & Hn1). cbn in Hp1, Hn1. destruct o1 as [e|].
  - intros [= <- <-]. exists part1. split; [by apply prefix_app_r|]. unfold takeBack. cbn.
    rewrite runReloadRollback_calls, <-!app_assoc. done.
  - specialize (Hn1 eq_refl) as ->. unfold runReloadAfterApply. cbn [withLog x_log x_store publish].
    destruct (runListeners answer "after apply" _ _ _) as [log2 o2] eqn:H2.
    apply runListeners_calls in H2 as (ran2 & -> & Hp2 & Hn2 & _). cbn [withCurrent cs_listeners] in Hp2, Hn2.
    rewrite <-app_assoc. destruct o2 as [e|]; intros [= <- <-]; (eexists; split; [by apply prefix_app, fmap_prefix|]).
    + unfold takeBack. cbn. rewrite runReloadRollback_calls, <-!app_assoc. done.
    + by rewrite (Hn2 eq_refl).
Qed.

(** C19. A reload happens or it does not.  If it succeeds, the new snapshot, of
    the next version, is current, in the runtime configuration and was published
    once, the old one is kept as the previous, and every listener was asked to
    validate and prepare, then every hook and listener was told, in order.  If it
    fails, the current and previous snapshots and the version are as before;
    either nothing was published and only validations and preparations were asked
    for, or the snapshot was published and taken back, and after the calls that
    led to the failure every listener was told to roll back, in reverse order. *)
Theorem Reload_transactional x (w : W) ctx reason x' r :
  Reload x w ctx reason = (x', r) ->
  let s := x_store x in
  let s' := x_store x' in
  let ids := cs_listeners s in
  match r with
  | Ok snap =>
      let event := mkReloadEvent reason (cs_current s) snap in
      cs_current s' = Some snap /\ cs_version s' = u64! (cs_version s + 1) /\ sn_Version snap = u64! (cs_version s + 1)
      /\ cs_previous s' = (match cs_current s with Some old => Some old | None => cs_previous s end)
      /\ complete (cs_registry s) (cs_dir s) snap
      /\ x_runtime x' = Some snap /\ x_published x' = x_published x ++ [Some snap]
      /\ x_log x' = x_log x ++ validates ids event ++ befores ids event
           ++ hookCalls (cs_lifecycle s) "configdata" reason snap ++ afters ids event
  | Err e =>
      cs_current s' = cs_current s /\ cs_version s' = cs_version s /\ cs_previous s' = cs_previous s
      /\ ((x_published x' = x_published x /\ x_runtime x' = x_runtime x
           /\ (x_log x' = x_log x \/ exists snap part, x_log x' = x_log x ++ part
                /\ part `prefix_of` (validates ids (mkReloadEvent reason (cs_current s) snap)
                     ++ befores ids (mkReloadEvent reason (cs_current s) snap))))
          \/ exists snap part, let event := mkReloadEvent reason (cs_current s) snap in
               x_published x' = x_published x ++ [Some snap; cs_current s] /\ x_runtime x' = cs_current s
               /\ x_log x' = x_log x ++ validates ids event ++ befores ids event ++ part ++ rollbacks ids event e
               /\ part `prefix_of` (hookCalls (cs_lifecycle s) "configdata" reason snap ++ afters ids event))
  end.
Proof.
  unfold ReloadWithReason. destruct (build _ _ _ _ _ w ctx _) as [snap|e] eqn:Hb.
  2:{ intros [= <- <-]. split_and!; try done. left. split_and!; try done. by left. }
  apply build_complete in Hb as [Hc Hv].
  destruct (beforeReload answer x _) as [x1 o1] eqn:H1. apply beforeReload_spec in H1 as (part1 & -> & Hp1 & Hn1).
  destruct o1 as [e|].
  { intros [= <- <-]. split_and!; try done. left. split_and!; try done. right. by exists snap, part1. }
  rewrite (Hn1 eq_refl) in *. clear Hn1 Hp1.
  destruct (applyReload answer _ _ _ _) as [x2 o2] eqn:H2. apply applyReload_spec in H2 as (part & Hp & H2).
  destruct o2 as [e|].
  - subst x2. intros [= <- <-]. cbn. split_and!; try done. right. exists snap, part. split_and!; [done|done| |done].
    by rewrite <-!app_assoc.
  - destruct H2 as [-> ->]. intros [= <- <-]. cbn in *. rewrite <-!app_assoc.
    destruct (cs_current (x_store x)) eqn:Hcur; cbn; split_and!; done.
Qed.

(** ** Runs *)

(** What a reload builds from the registry and the directory the store has. *)
Definition buildFor x (w : W) (ctx : ctxErrs (E := E)) : result (configError (E := E)) Snap :=
  let s := x_store x in build marshal digest statDir (cs_registry s) (cs_dir s) w ctx (u64! (cs_version s + 1)).

(** [P]: what is known of every snapshot that was ever published. *)
Record config_ok (P : Snap -> Prop) x : Prop := {
  co_last : last (x_published x) = Some (cs_current (x_store x));
  co_complete : forall snap, Some snap ∈ x_published x -> P snap;
  co_previous : forall snap, cs_previous (x_store x) = Some snap -> Some snap ∈ x_published x;
  co_runtime : x_runtime x = cs_current (x_store x);
  co_version : cs_version (x_store x) = match cs_current (x_store x) with Some snap => sn_Version snap | None => 0 end
}.

(** Only the parts of the state an operation changes matter. *)
Lemma config_ok_ext P x x' :
  config_ok P x -> x_published x' = x_published x -> x_runtime x' = x_runtime x ->
  cs_current (x_store x') = cs_current (x_store x) -> cs_previous (x_store x') = cs_previous (x_store x) ->
  cs_version (x_store x') = cs_version (x_store x) -> config_ok P x'.
Proof. intros [H1 H2 H3 H4 H5] Hpub Hr Hc Hp Hv. split; rewrite ?Hpub, ?Hc, ?Hp, ?Hv, ?Hr; done. Qed.

(** Publishing a snapshot, and publishing one and taking it back. *)
Lemma config_ok_published P x x' snap :
  config_ok P x -> P snap ->
  x_published x' = x_published x ++ [Some snap] -> x_runtime x' = Some snap ->
  cs_current (x_store x') = Some snap -> cs_version (x_store x') = sn_Version snap ->
  cs_previous (x_store x') = (match cs_current (x_store x) with Some old => Some old | None => cs_previous (x_store x) end) ->
  config_ok P x'.
Proof.
  intros [H1 H2 H3 H4 H5] Hc Hpub Hrun Hcur Hver Hprev. split.
  - by rewrite Hpub, last_snoc, Hcur.
  - intros s. rewrite Hpub, elem_of_app, list_elem_of_singleton. intros [Hs|[= ->]]; [by apply H2|done].
  - intros s Hs. rewrite Hpub, elem_of_app. left. rewrite Hprev in Hs.
    destruct (cs_current (x_store x)) as [old|]; [|by apply H3]. injection Hs as ->.
    apply last_Some in H1 as [l ->]. apply elem_of_app. right. by left.
  - congruence.
  - by rewrite Hcur.
Qed.

Lemma config_ok_taken_back P x x' snap :
  config_ok P x -> P snap ->
  x_published x' = x_published x ++ [Some snap; cs_current (x_store x)] -> x_runtime x' = cs_current (x_store x) ->
  cs_current (x_store x') = cs_current (x_store x) -> cs_version (x_store x') = cs_version (x_store x) ->
  cs_previous (x_store x') = cs_previous (x_store x) -> config_ok P x'.
Proof.
  intros [H1 H2 H3 H4 H5] Hc Hpub Hrun Hcur Hver Hprev. split.
  - rewrite Hpub, Hcur. change [Some snap; cs_current (x_store x)] with ([Some snap] ++ [cs_current (x_store x)]).
    by rewrite app_assoc, last_snoc.
  - intros s. rewrite Hpub, elem_of_app, !elem_of_cons. intros [Hs|[[= ->]|[Hs|Hs%not_elem_of_nil]]]; [by apply H2|done| |done].
    apply H2. rewrite Hs. apply last_Some in H1 as [l ->]. apply elem_of_app. right. by left.
  - intros s Hs. rewrite Hpub, elem_of_app. left. apply H3. congruence.
  - congruence.
  - by rewrite Hcur, Hver.
Qed.

Lemma Store_Rollback_ok P x reason : config_ok P x -> config_ok P (Store_Rollback (W := W) answer x reason).1.
Proof.
  intros Hok. unfold Store_Rollback. destruct (cs_previous (x_store x)) as [prev|] eqn:Hprev; [|done].
  assert (Hc : P prev) by (by apply (co_complete _ _ Hok), (co_previous _ _ Hok)).
  destruct (beforeReload answer x _) as [x1 o1] eqn:H1. apply beforeReload_spec in H1 as (part1 & -> & _ & _).
  destruct o1 as [e|]; [by eapply config_ok_ext|].
  destruct (applyReload answer _ _ _ _) as [x2 o2] eqn:H2. apply applyReload_spec in H2 as (part & _ & H2).
  destruct o2 as [e|]; cbn in H2.
  - subst x2. by eapply config_ok_taken_back.
  - destruct H2 as [_ ->]. eapply (config_ok_published P x); [done|done|..]; cbn; by destruct (cs_current (x_store x)).
Qed.

Lemma Reload_ok P x (w : W) ctx reason :
  config_ok P x ->
  (forall snap, buildFor x w ctx = Ok snap -> P snap) -> config_ok P (Reload x w ctx reason).1.
Proof.
  intros Hok HP. unfold ReloadWithReason. destruct (build _ _ _ _ _ w ctx _) as [snap|e] eqn:Hb; [|done].
  pose proof (HP snap Hb) as Hex. apply build_complete in Hb as [Hc Hv].
  destruct (beforeReload answer x _) as [x1 o1] eqn:H1. apply beforeReload_spec in H1 as (part1 & -> & _ & _).
  destruct o1 as [e|]; [by eapply config_ok_ext|].
  destruct (applyReload answer _ _ _ _) as [x2 o2] eqn:H2. apply applyReload_spec in H2 as (part & _ & H2).
  destruct o2 as [e|]; cbn in H2.
  - subst x2. by eapply config_ok_taken_back.
  - destruct H2 as [_ ->]. eapply (config_ok_published P x); [done|done|..]; cbn; by destruct (cs_current (x_store x)).
Qed.

Lemma configExec_ok P x op :
  config_ok P x ->
  (forall w ctx reason snap, op = OpReload w ctx reason -> buildFor x w ctx = Ok snap -> P snap) ->
  config_ok P (configExec marshal digest statDir answer x op).
Proof.
  intros Hok HP. destruct op; cbn [configExec]; [by eapply Reload_ok; eauto| |by apply Store_Rollback_ok| |by eapply config_ok_ext..].
  - unfold DryRun. destruct (build _ _ _ _ _ w ctx _) as [snap|e]; [|done].
    destruct (runReloadValidate answer _ _ _) as [log o]. by eapply config_ok_ext.
  - unfold onRegistry. destruct (register _ kind def); [|done]. by eapply config_ok_ext.
Qed.

Lemma config_ok_mono (P Q : Snap -> Prop) x : (forall snap, P snap -> Q snap) -> config_ok P x -> config_ok Q x.
Proof. intros HPQ [H1 H2 H3 H4 H5]. split; auto. Qed.

(** The snapshot was built by a reload of the run, from the registry and the
    directory that the store had at that moment; it holds a value for each of
    those definitions, and they all passed validation. *)
Definition builtBy (x0 : CState) (ops : list (configOp (A := A) (E := E) (W := W))) snap : Prop :=
  exists before w ctx reason after,
    ops = before ++ OpReload w ctx reason :: after
    /\ let x := configRun marshal digest statDir answer x0 before in
       buildFor x w ctx = Ok snap /\ complete (cs_registry (x_store x)) (cs_dir (x_store x)) snap.

Lemma configRun_ok registry dir ops :
  let x0 := initialState registry dir in
  config_ok (builtBy x0 ops) (configRun marshal digest statDir answer x0 ops).
Proof.
  intros x0. induction ops as [|op ops IH] using rev_ind.
  { split; [done| |done|done|done]. intros snap [=]%list_elem_of_singleton. }
  unfold configRun. rewrite foldl_snoc. apply configExec_ok.
  - eapply config_ok_mono; [|exact IH]. intros snap (before & w & ctx & reason & after & -> & H).
    exists before, w, ctx, reason, (after ++ [op]). split; [|done]. by rewrite <-app_assoc.
  - intros w ctx reason snap -> Hb. exists ops, w, ctx, reason, []. split; [done|]. cbv zeta. split; [exact Hb|].
    by apply build_complete in Hb as [Hc _].
Qed.

(** C22. Handlers only ever see complete configurations.  Over every sequence of
    registrations, reloads, dry runs and rollbacks, with whatever answers, every
    snapshot that was ever current was built by one of the reloads from the
    registry and the directory of that moment, has a value for exactly the
    definitions registered then, and each passed validation; the current snapshot
    is the one published last, it is the runtime configuration, and the store's
    version is its version. *)
Theorem ConfigStore_complete registry dir (ops : list configOp) :
  let x0 := initialState registry dir in
  let x := configRun marshal digest statDir answer x0 ops in
  (forall snap, Some snap ∈ x_published x -> builtBy x0 ops snap)
  /\ last (x_published x) = Some (cs_current (x_store x))
  /\ (forall snap, cs_previous (x_store x) = Some snap -> Some snap ∈ x_published x)
  /\ x_runtime x = cs_current (x_store x)
  /\ cs_version (x_store x) = match cs_current (x_store x) with Some snap => sn_Version snap | None => 0 end.
Proof. destruct (configRun_ok registry dir ops) as [H1 H2 H3 H4 H5]. by split_and!. Qed.

End StoreFacts.

(** ** Samples *)

Module ConfigSample.

(** Values and errors are numbers, the state of the files is the content of the
    only table. *)
Definition hero : configDef (A := nat) (E := nat) (W := nat) :=
  mkDef "hero" (fun w _ => Ok w) (fun _ v => if bool_decide (v = 0%nat) then Some ErrNoPrevious else None).

Definition reg : configRegistry (A := nat) (E := nat) (W := nat) := mkRegistry [hero] [] [] {[ "hero" := KindTable ]}.
Definition stat (_ : nat) (_ : string) : result nat bool := Ok true.
Definition digest (parts : list string) : string := join "" parts.
Definition fine : ctxErrs (E := nat) := fun _ => None.
Definition calm : appAnswers (reloadCall (A := nat) (E := nat)) nat := fun _ _ => None.
(** The second listener refuses to prepare. *)
Definition second_refuses : appAnswers (reloadCall (A := nat) (E := nat)) nat :=
  fun _ c => match c with CallBeforeApply 2 _ => Some 1%nat | _ => None end.

Definition run answer := configRun (W := nat) (fun _ => "v") digest stat answer (initialState reg "data").

Lemma Reload_transactional_witness :
  cs_current (x_store (ReloadWithReason (fun _ => "v") digest stat calm (run calm []) 5%nat fine "manual").1)
  = Some (mkConfigSnapshot 1 "table:hero:v" {[ "hero" := 5%nat ]} ∅ ∅).
Proof.
  destruct (ReloadWithReason (fun _ => "v") digest stat calm (run calm []) 5%nat fine "manual") as [x' r] eqn:E.
  pose proof (Reload_transactional (fun _ => "v") digest stat calm (run calm []) 5%nat fine "manual" x' r E) as H.
  assert (Hr : r = Ok (mkConfigSnapshot 1 "table:hero:v" {[ "hero" := 5%nat ]} ∅ ∅)).
  { vm_compute in E. injection E as _ <-. reflexivity. }
  rewrite Hr in H. exact (proj1 H).
Defined.

(** The second reload loads a table that does not pass validation: the first
    snapshot stays current. *)
Lemma ConfigStore_complete_witness :
  let ops := [OpReload 5%nat fine "boot"; OpSetDir "other"; OpReload 0%nat fine "edit"] in
  exists snap, cs_current (x_store (run calm ops)) = Some snap /\ sn_tables snap = {[ "hero" := 5%nat ]}
    /\ builtBy (fun _ => "v") digest stat calm (initialState reg "data") ops snap.
Proof.
  intros ops. exists (mkConfigSnapshot 1 "table:hero:v" {[ "hero" := 5%nat ]} ∅ ∅).
  split; [reflexivity|]. split; [reflexivity|].
  apply (ConfigStore_complete (fun _ => "v") digest stat calm reg "data" ops). right. left.
Defined.

(** After a rollback the next reload gives its snapshot the version of the one
    that was rolled back: two different snapshots of version 2 are published. *)
Example version_reused_after_rollback :
  let x := run calm [OpReload 5%nat fine "boot"; OpReload 6%nat fine "edit"; OpRollback "bad"; OpReload 7%nat fine "fix"] in
  map (option_map (fun snap => (sn_Version snap, sn_tables snap !! "hero"))) (x_published x)
  = [None; Some (1, Some 5%nat); Some (2, Some 6%nat); Some (1, Some 5%nat); Some (2, Some 7%nat)].
Proof. reflexivity. Qed.

(** A listener that prepared for a reload is not told when a later listener
    refuses to. *)
Example prepared_listener_not_told :
  let x := run second_refuses [OpAddListener; OpAddListener; OpReload 5%nat fine "boot"] in
  exists event, x_log x = [CallValidate 1 event; CallValidate 2 event; CallBeforeApply 1 event; CallBeforeApply 2 event]
    /\ cs_current (x_store x) = None.
Proof. eexists. split; reflexivity. Qed.

(** A reload that fails for the first time leaves its store as the default one. *)
Example failed_reload_becomes_default :
  let refuses : appAnswers (reloadCall (A := nat) (E := nat)) nat :=
    fun _ c => match c with CallAfterApply _ _ => Some 1%nat | _ => None end in
  let x := run refuses [OpAddListener; OpReload 5%nat fine "boot"] in
  cs_current (x_store x) = None /\ x_default x = true.
Proof. split; reflexivity. Qed.

End ConfigSample.
