(* ===== verification/RateLimit.v ===== *)
(** * Token buckets

    Models [src/security/ratelimit.go]: a limiter with one bucket of tokens per
    key, refilled by whole intervals, and the removal of idle buckets.  Times are
    nanoseconds since Go's zero time, as 64-bit integers where the code computes
    with durations.  [AllowN] and [GC] read the clock and then take the limiter's
    lock: a call is two steps, its reading and its critical section, so the
    readings reach the buckets in another order than they were made. *)

From stdpp Require Import base list gmap.
From Stdlib Require Import ZArith Lia.
From S2P Require Import Prelude.

#[local] Open Scope Z_scope.

(** The owner and the action. *)
Definition RateLimitKey : Type := Z * Z.

Record RateLimitConfig := mkRateLimitConfig {
  rl_Capacity : Z;
  rl_Refill : Z;
  rl_Interval : Z
}.

Definition Normalize (c : RateLimitConfig) : RateLimitConfig :=
  let capacity := if rl_Capacity c <=? 0 then 20 else rl_Capacity c in
  let refill := if rl_Refill c <=? 0 then capacity else rl_Refill c in
  let interval := if rl_Interval c <=? 0 then 10 ^ 9 else rl_Interval c in
  mkRateLimitConfig capacity refill interval.

Record bucket := mkBucket {
  bk_tokens : Z;
  bk_at : Z
}.

Record RateLimiter := mkRateLimiter {
  rl_cfg : RateLimitConfig;
  rl_bkt : gmap RateLimitKey bucket
}.

Definition NewRateLimiter (cfg : RateLimitConfig) : RateLimiter := mkRateLimiter (Normalize cfg) ∅.

(** [refill], which does not reset a bucket's time into the past. *)
Definition refillBucket (cfg : RateLimitConfig) (b : bucket) (now : Z) : bucket :=
  let at_ := if bk_at b =? 0 then now else bk_at b in
  let elapsed := now - at_ in
  if elapsed <? rl_Interval cfg then mkBucket (bk_tokens b) at_
  else
    let steps := elapsed / rl_Interval cfg in
    let add := wrapi64 (steps * rl_Refill cfg) in
    let tokens := wrapi64 (bk_tokens b + add) in
    let tokens := if rl_Capacity cfg <? tokens then rl_Capacity cfg else tokens in
    mkBucket tokens (at_ + wrapi64 (steps * rl_Interval cfg)).

Definition AllowN (l : RateLimiter) (key : RateLimitKey) (n now : Z) : RateLimiter * bool :=
  if n <=? 0 then (l, true)
  else
    let b := default (mkBucket (rl_Capacity (rl_cfg l)) now) (rl_bkt l !! key) in
    let b := refillBucket (rl_cfg l) b now in
    if bk_tokens b <? n then (mkRateLimiter (rl_cfg l) (<[key := b]> (rl_bkt l)), false)
    else (mkRateLimiter (rl_cfg l) (<[key := mkBucket (bk_tokens b - n) (bk_at b)]> (rl_bkt l)), true).

Definition Allow (l : RateLimiter) (key : RateLimitKey) (now : Z) : RateLimiter * bool := AllowN l key 1 now.

Definition RateLimiter_Size (l : RateLimiter) : Z := Z.of_nat (size (rl_bkt l)).

Definition GC (l : RateLimiter) (idle now : Z) : RateLimiter * Z :=
  if idle <=? 0 then (l, 0)
  else
    let kept := filter (fun p => ~ p.2.(bk_at) < now - idle) (rl_bkt l) in
    (mkRateLimiter (rl_cfg l) kept, Z.of_nat (size (rl_bkt l)) - Z.of_nat (size kept)).

(** ** Runs *)

Inductive rateOp : Type :=
| OpAllowN (key : RateLimitKey) (n now : Z)
| OpGC (idle now : Z).


(** The tokens a call is granted from the bucket of [key]. *)
Definition granted (key : RateLimitKey) (l : RateLimiter) (op : rateOp) : Z :=
  match op with
  | OpAllowN k n now => if bool_decide (k = key) && (AllowN l k n now).2 then Z.max 0 n else 0
  | OpGC _ _ => 0
  end.

Definition rateExec (l : RateLimiter) (op : rateOp) : RateLimiter :=
  match op with
  | OpAllowN key n now => (AllowN l key n now).1
  | OpGC idle now => (GC l idle now).1
  end.

(** A call as two steps: it reads the clock, and later gets the lock and runs its
    critical section with that reading. *)
Inductive rateEvent : Type :=
| EvRead (op : rateOp)
| EvLock (i : nat) (now : Z).

Record rateState := mkRateState {
  rs_limiter : RateLimiter;
  rs_calls : list (option rateOp)   (** calls that wait for the lock *)
}.

Definition waitingOp (s : rateState) (i : nat) : option rateOp := o ← rs_calls s !! i; o.

Definition rateStep (s : rateState) (e : rateEvent) : rateState :=
  match e with
  | EvRead op => mkRateState (rs_limiter s) (rs_calls s ++ [Some op])
  | EvLock i _ =>
      match waitingOp s i with
      | Some op => mkRateState (rateExec (rs_limiter s) op) (<[i := None]> (rs_calls s))
      | None => s
      end
  end.

Definition rateRun (s : rateState) (es : list rateEvent) : rateState := foldl rateStep s es.

(** The tokens the calls of [es] are granted from the bucket of [key]. *)
Fixpoint grantedBy (key : RateLimitKey) (s : rateState) (es : list rateEvent) : Z :=
  match es with
  | [] => 0
  | e :: es =>
      match e with
      | EvLock i _ => match waitingOp s i with Some op => granted key (rs_limiter s) op | None => 0 end
      | EvRead _ => 0
      end + grantedBy key (rateStep s e) es
  end.

Definition newState (cfg : RateLimitConfig) : rateState := mkRateState (NewRateLimiter cfg) [].





(** ** Buckets without overflow *)

Section Bounds.
Context (c : RateLimitConfig) (H D : Z).
Hypothesis HD : 0 <= D.
Hypothesis Hcap : 0 < rl_Capacity c.
Hypothesis Hrefill : 0 < rl_Refill c.
Hypothesis Hint : 0 < rl_Interval c.
Hypothesis HH : H < 2 ^ 63.
Hypothesis Hfit : (H / rl_Interval c + 1) * rl_Refill c + rl_Capacity c < 2 ^ 63.

#[local] Abbreviation Cap := (rl_Capacity c).
#[local] Abbreviation R := (rl_Refill c).
#[local] Abbreviation I := (rl_Interval c).









(** ** Limiters *)

















(** ** Interleavings *)









End Bounds.






(** ** Samples *)

Definition sampleLimit : RateLimitConfig := mkRateLimitConfig 2 1 10.



(** A burst that read the clock long before it got the lock is counted when it gets
    it: between the moments 20 and 21 three calls are granted, two of them with
    readings of 10, more than the capacity and the refill of that time. *)
Example late_lock_burst :
  let s := rateRun (newState sampleLimit)
    [EvRead (OpAllowN (1, 1) 1 10); EvRead (OpAllowN (1, 1) 1 10); EvRead (OpAllowN (1, 1) 1 20)] in
  grantedBy (1, 1) s [EvLock 0 20; EvLock 1 20; EvLock 2 21] = 3.
Proof. reflexivity. Qed.

(** Removing buckets that were idle for a shorter time gives their keys all their
    tokens back. *)
Example hasty_GC_refills :
  grantedBy (1, 1) (newState sampleLimit)
    [EvRead (OpAllowN (1, 1) 2 1); EvLock 0 1; EvRead (OpGC 1 3); EvLock 1 3; EvRead (OpAllowN (1, 1) 2 3); EvLock 2 3;
     EvRead (OpGC 1 5); EvLock 3 5; EvRead (OpAllowN (1, 1) 2 5); EvLock 4 5] = 6.
Proof. reflexivity. Qed.

(** A bucket that was not used for long can be left with a negative number of
    tokens: the product of the intervals and the refill does not fit. *)
Example refill_overflows :
  let cfg := mkRateLimitConfig (2 ^ 40) (2 ^ 40) 1 in
  (AllowN (mkRateLimiter cfg {[ (1, 1) := mkBucket 0 1 ]}) (1, 1) 1 (1 + 2 ^ 23)).2 = false.
Proof. reflexivity. Qed.
