(* ===== verification/Components.v ===== *)
(** * Components of an entity

    Models [ComponentManager] of [src/entity/entity_base.go]: the components of an
    entity are initialised in dependency order ([CompSort]) and destroyed in the
    reverse order; and the containers of factories and data access objects beside
    it.  Components are code of the application: what they answer is a function of
    the calls made so far ([Lifecycle.appAnswers]). *)

From stdpp Require Import base list gmap strings sorting relations.
From Stdlib Require Import ZArith Lia.
From S2P Require Import Prelude TopoSort CompSort Lifecycle.

#[local] Open Scope Z_scope.

(** [C]: components, which are not nil. *)
Record ComponentManager (C : Type) := mkComponents {
  cm_Comps : gmap Z C;
  cm_initOrder : list Z
}.
Arguments mkComponents {C}.
Arguments cm_Comps {C}.
Arguments cm_initOrder {C}.

Inductive componentCall : Type :=
| CompInit (ct : Z) (isCreate : bool)
| CompDestroy (ct : Z) (reason : Z).

Inductive componentError (E : Type) : Type :=
| ErrCyclicComponents
| ErrComponent (ct : Z) (e : E).
Arguments ErrCyclicComponents {E}.
Arguments ErrComponent {E}.

Section Components.
Context {C E : Type}.
Context (answer : appAnswers componentCall E).
Implicit Types (c : ComponentManager C) (log : list componentCall) (types : list Z).

Definition NewComponentManager : ComponentManager C := mkComponents ∅ [].

Definition Components_Set c (compType : Z) (comp : C) : ComponentManager C :=
  mkComponents (<[compType := comp]> (cm_Comps c)) (cm_initOrder c).

Definition Components_Get c (compType : Z) : option C := cm_Comps c !! compType.

Definition sortedComponentTypes (comps : gmap Z C) : list Z := sort_slice Z.ltb (map_to_list comps).*1.

(** The components of the types the entity has, in order, up to the first that
    fails; the order of those that did not. *)
Fixpoint initTypes c (isCreate : bool) types (order : list Z) log
    : list Z * list componentCall * option (componentError E) :=
  match types with
  | [] => (order, log, None)
  | ct :: types =>
      match cm_Comps c !! ct with
      | None => initTypes c isCreate types order log
      | Some _ =>
          let '(log, o) := ask answer log (CompInit ct isCreate) in
          match o with
          | Some e => (order, log, Some (ErrComponent ct e))
          | None => initTypes c isCreate types (order ++ [ct]) log
          end
      end
  end.

(** [sorted]: what [GetTopologicalSortedComponents] returns. *)
Definition InitAll c (sorted : result unit (list Z)) (isCreate : bool) log
    : ComponentManager C * list componentCall * option (componentError E) :=
  match sorted with
  | Err _ => (mkComponents (cm_Comps c) [], log, Some ErrCyclicComponents)
  | Ok [] =>
      let '(order, log, err) := initTypes c isCreate (sortedComponentTypes (cm_Comps c)) [] log in
      (mkComponents (cm_Comps c) order, log, err)
  | Ok sorted =>
      let '(order, log, err) := initTypes c isCreate sorted [] log in
      match err with
      | Some e => (mkComponents (cm_Comps c) order, log, Some e)
      | None =>
          let initialized := order in
          let rest := filter (fun ct => ct ∉ initialized) (sortedComponentTypes (cm_Comps c)) in
          let '(order, log, err) := initTypes c isCreate rest order log in
          (mkComponents (cm_Comps c) order, log, err)
      end
  end.

(** What a component answers to its end is not looked at. *)
Fixpoint destroyTypes c (reason : Z) types (destroyed : list Z) log : list Z * list componentCall :=
  match types with
  | [] => (destroyed, log)
  | ct :: types =>
      match cm_Comps c !! ct with
      | None => destroyTypes c reason types destroyed log
      | Some _ =>
          if bool_decide (ct ∈ destroyed) then destroyTypes c reason types destroyed log
          else destroyTypes c reason types (ct :: destroyed) (ask answer log (CompDestroy ct reason)).1
      end
  end.

Definition Components_DestroyAll c (reason : Z) log : list componentCall :=
  let '(destroyed, log) := destroyTypes c reason (reverse (cm_initOrder c)) [] log in
  (destroyTypes c reason (reverse (sortedComponentTypes (cm_Comps c))) destroyed log).2.

Definition Components_Clear c : ComponentManager C := mkComponents ∅ [].

(** ** Global factories *)

Inductive factoryError : Type := ErrDuplicateFactory | ErrNoFactory (ct : Z).

(** A second factory of a type panics. *)
Definition RegisterComponentFactory {Fac} (factories : gmap Z Fac) (compType : Z) (factory : Fac)
    : result factoryError (gmap Z Fac) :=
  match factories !! compType with
  | Some _ => Err ErrDuplicateFactory
  | None => Ok (<[compType := factory]> factories)
  end.

Definition CreateComponent {Fac X} (factories : gmap Z Fac) (create : Fac -> X) (compType : Z) : result factoryError X :=
  match factories !! compType with
  | None => Err (ErrNoFactory compType)
  | Some factory => Ok (create factory)
  end.

(** ** Orders *)

(** The order in which the components of an entity are initialised. *)
Definition initSequence (comps : gmap Z C) (sorted : list Z) : list Z :=
  let known := filter (fun ct => is_Some (comps !! ct)) sorted in
  known ++ filter (fun ct => ct ∉ known) (sortedComponentTypes comps).

Lemma sortedComponentTypes_perm comps : sortedComponentTypes comps ≡ₚ (map_to_list comps).*1.
Proof. apply sort_slice_perm. Qed.

Lemma sortedComponentTypes_elem comps ct : ct ∈ sortedComponentTypes comps <-> is_Some (comps !! ct).
Proof.
  rewrite sortedComponentTypes_perm, list_elem_of_fmap. split.
  - intros ([k x] & -> & Hx%elem_of_map_to_list). by exists x.
  - intros [x Hx]. exists (ct, x). split; [done|]. by apply elem_of_map_to_list.
Qed.

Lemma sortedComponentTypes_NoDup comps : NoDup (sortedComponentTypes comps).
Proof. rewrite sortedComponentTypes_perm. apply NoDup_fst_map_to_list. Qed.

Lemma initSequence_perm comps sorted : NoDup sorted -> initSequence comps sorted ≡ₚ sortedComponentTypes comps.
Proof.
  intros Hd. unfold initSequence. apply NoDup_Permutation; [|apply sortedComponentTypes_NoDup|].
  - apply NoDup_app. split_and!; [by apply NoDup_filter| |apply NoDup_filter, sortedComponentTypes_NoDup].
    intros x Hx [Hn _]%list_elem_of_filter. done.
  - intros x. set (known := filter (fun ct => is_Some (comps !! ct)) sorted).
    assert (Hk : x ∈ known -> is_Some (comps !! x)) by (unfold known; by intros [Hs _]%list_elem_of_filter).
    rewrite elem_of_app, list_elem_of_filter, sortedComponentTypes_elem. destruct (decide (x ∈ known)); tauto.
Qed.

(** One pass over types is a pass over those the entity has. *)
Lemma initTypes_spec c isCreate types order log order' log' err :
  initTypes c isCreate types order log = (order', log', err) ->
  let known := filter (fun ct => is_Some (cm_Comps c !! ct)) types in
  exists tried, log' = log ++ ((fun ct => CompInit ct isCreate) <$> tried) /\ tried `prefix_of` known
    /\ match err with
       | None => tried = known /\ order' = order ++ known
       | Some _ => exists ran ct, tried = ran ++ [ct] /\ order' = order ++ ran
       end.
Proof.
  revert order log. induction types as [|ct types IH]; intros order log; cbn [initTypes].
  - intros [= <- <- <-]. exists []. cbn. by rewrite !app_nil_r.
  - destruct (cm_Comps c !! ct) as [x|] eqn:Hx.
    + rewrite filter_cons_True by (by rewrite Hx). cbn [ask]. destruct (answer log _) as [e|].
      * intros [= <- <- <-]. exists [ct]. split; [done|]. split; [by exists (filter (fun ct => is_Some (cm_Comps c !! ct)) types)|].
        exists [], ct. by rewrite app_nil_r.
      * intros (tried & -> & Hp & Hr)%IH. exists (ct :: tried). rewrite fmap_cons, <-app_assoc. split; [done|].
        split; [by apply prefix_cons|]. destruct err.
        -- destruct Hr as (ran & ct' & -> & ->). exists (ct :: ran), ct'. by rewrite <-app_assoc.
        -- destruct Hr as [-> ->]. by rewrite <-app_assoc.
    + rewrite filter_cons_False by (rewrite Hx; by intros [? [=]]). apply IH.
Qed.

Lemma filter_whole (P : Z -> Prop) `{!forall x, Decision (P x)} (l : list Z) : (forall x, x ∈ l -> P x) -> filter P l = l.
Proof.
  induction l as [|x l IH]; intros Hl; [done|]. rewrite filter_cons_True by (apply Hl; by left). f_equal. apply IH.
  intros y Hy. apply Hl. by right.
Qed.

Lemma InitAll_spec c sorted isCreate log c' log' err :
  InitAll c (Ok sorted) isCreate log = (c', log', err) ->
  let all := initSequence (cm_Comps c) sorted in
  cm_Comps c' = cm_Comps c
  /\ exists tried, log' = log ++ ((fun ct => CompInit ct isCreate) <$> tried) /\ tried `prefix_of` all
    /\ match err with
       | None => tried = all /\ cm_initOrder c' = all
       | Some _ => exists ct, tried = cm_initOrder c' ++ [ct]
       end.
Proof.
  assert (Htypes : forall P `{!forall x, Decision (P x)}, filter (fun ct => is_Some (cm_Comps c !! ct)) (filter P (sortedComponentTypes (cm_Comps c)))
    = filter P (sortedComponentTypes (cm_Comps c))).
  { intros P ?. apply filter_whole. intros x [_ Hx]%list_elem_of_filter. by apply sortedComponentTypes_elem. }
  unfold InitAll, initSequence. destruct sorted as [|s0 sorted].
  - destruct (initTypes c isCreate _ [] log) as [[order l] e] eqn:H1. intros [= <- <- <-]. split; [done|].
    apply initTypes_spec in H1 as (tried & -> & Hp & Hr). cbn [filter list_filter app].
    rewrite (filter_whole (fun ct => ct ∉ [])) by (intros x _; apply not_elem_of_nil).
    rewrite (filter_whole (fun ct => is_Some _)) in * by (intros x Hx; by apply sortedComponentTypes_elem).
    exists tried. split_and!; [done|done|]. destruct e; [|done]. destruct Hr as (ran & ct & -> & ->). by exists ct.
  - set (known := filter (fun ct => is_Some (cm_Comps c !! ct)) (s0 :: sorted)).
    destruct (initTypes c isCreate (s0 :: sorted) [] log) as [[order l] e] eqn:H1.
    apply initTypes_spec in H1 as (tried & -> & Hp & Hr). fold known in Hp, Hr. destruct e as [e|].
    + intros [= <- <- <-]. split; [done|]. exists tried. split_and!; [done|by apply prefix_app_r|].
      destruct Hr as (ran & ct & -> & ->). by exists ct.
    + destruct Hr as [-> ->]. cbn [app].
      destruct (initTypes c isCreate (filter _ _) known _) as [[order2 l2] e2] eqn:H2. intros [= <- <- <-]. split; [done|].
      apply initTypes_spec in H2 as (tried2 & -> & Hp2 & Hr2). rewrite Htypes in *.
      exists (known ++ tried2). rewrite fmap_app, <-app_assoc. split_and!; [done|by apply prefix_app|].
      destruct e2; [destruct Hr2 as (ran & ct & -> & ->); exists ct; cbn; by rewrite app_assoc|].
      destruct Hr2 as [-> ->]. done.
Qed.

(** ** The end *)

Lemma destroyTypes_spec c reason types destroyed log destroyed' log' :
  destroyTypes c reason types destroyed log = (destroyed', log') ->
  exists ds, log' = log ++ ((fun ct => CompDestroy ct reason) <$> ds) /\ (forall x, x ∈ destroyed' <-> x ∈ ds \/ x ∈ destroyed)
    /\ NoDup ds /\ (forall x, x ∈ ds <-> x ∈ types /\ is_Some (cm_Comps c !! x) /\ x ∉ destroyed)
    /\ (NoDup types -> (forall x, x ∈ types -> is_Some (cm_Comps c !! x) /\ x ∉ destroyed) -> ds = types).
Proof.
  revert destroyed log. induction types as [|ct types IH]; intros destroyed log; cbn [destroyTypes].
  - intros [= <- <-]. exists []. rewrite app_nil_r. split_and!; [done| |constructor| |done].
    + intros x. rewrite elem_of_nil. tauto.
    + intros x. rewrite elem_of_nil. tauto.
  - destruct (cm_Comps c !! ct) as [y|] eqn:Hy.
    + case_bool_decide as Hd.
      * intros (ds & -> & H1 & H2 & H3 & _)%IH. exists ds. split_and!; [done|done|done| |].
        -- intros x. rewrite H3, elem_of_cons. naive_solver.
        -- intros _ Hall. destruct (Hall ct) as [_ Hn]; [by left|done].
      * intros (ds & -> & H1 & H2 & H3 & H4)%IH. exists (ct :: ds). unfold ask. cbn [fst]. rewrite fmap_cons, <-app_assoc. split_and!; [done| | | |].
        -- intros x. rewrite H1, !elem_of_cons. tauto.
        -- apply NoDup_cons. split; [|done]. rewrite H3, elem_of_cons. tauto.
        -- intros x. rewrite !elem_of_cons, H3, elem_of_cons. destruct (decide (x = ct)) as [->|Hne]; [|tauto].
           split; [intros _; split_and!; [by left|by rewrite Hy|done]|by left].
        -- intros [Hn Hd']%NoDup_cons Hall. f_equal. apply H4; [done|]. intros x Hx. destruct (Hall x) as [Hs Hnd]; [by right|].
           split; [done|]. rewrite elem_of_cons. intros [->|?]; done.
    + intros (ds & -> & H1 & H2 & H3 & _)%IH. exists ds. split_and!; [done|done|done| |].
      * intros x. rewrite H3, elem_of_cons. destruct (decide (x = ct)) as [->|Hne]; [|tauto]. rewrite Hy.
        split; [tauto|]. by intros (_ & [? [=]] & _).
      * intros _ Hall. destruct (Hall ct) as [[? Hs] _]; [by left|]. by rewrite Hy in Hs.
Qed.

Lemma DestroyAll_spec c reason log :
  NoDup (cm_initOrder c) -> (forall x, x ∈ cm_initOrder c -> is_Some (cm_Comps c !! x)) ->
  exists rest, Components_DestroyAll c reason log
      = log ++ ((fun ct => CompDestroy ct reason) <$> reverse (cm_initOrder c) ++ rest)
    /\ reverse (cm_initOrder c) ++ rest ≡ₚ sortedComponentTypes (cm_Comps c).
Proof.
  intros Hd Hin. unfold Components_DestroyAll.
  destruct (destroyTypes c reason (reverse (cm_initOrder c)) [] log) as [d1 l1] eqn:H1.
  apply destroyTypes_spec in H1 as (ds1 & -> & E1 & N1 & M1 & F1).
  assert (ds1 = reverse (cm_initOrder c)) as ->.
  { apply F1; [by rewrite reverse_Permutation|]. intros x Hx. rewrite elem_of_reverse in Hx.
    split; [by apply Hin|apply not_elem_of_nil]. }
  destruct (destroyTypes c reason (reverse (sortedComponentTypes _)) d1 _) as [d2 l2] eqn:H2.
  apply destroyTypes_spec in H2 as (ds2 & -> & _ & N2 & M2 & _). exists ds2. cbn [snd].
  split; [by rewrite fmap_app, <-app_assoc|]. apply NoDup_Permutation.
  - apply NoDup_app. split_and!; [done| |done]. intros x Hx (_ & _ & Hn)%M2. apply Hn. apply E1. by left.
  - apply sortedComponentTypes_NoDup.
  - intros x. rewrite elem_of_app, M2, elem_of_reverse, (elem_of_reverse x (sortedComponentTypes _)), sortedComponentTypes_elem, E1.
    rewrite elem_of_reverse. pose proof (not_elem_of_nil x). specialize (Hin x).
    destruct (decide (x ∈ cm_initOrder c)); naive_solver.
Qed.

Lemma filter_split (P : Z -> Prop) `{!forall x, Decision (P x)} (l before after : list Z) x :
  filter P l = before ++ x :: after -> exists b a, l = b ++ x :: a /\ filter P b = before.
Proof.
  revert before. induction l as [|y l IH]; intros before Hf; [by destruct before|].
  destruct (decide (P y)) as [Hy|Hy].
  - rewrite filter_cons_True in Hf by done. destruct before as [|z before].
    + injection Hf as -> _. by exists [], l.
    + injection Hf as -> Hf. destruct (IH _ Hf) as (b & a & -> & <-). exists (z :: b), a. by rewrite filter_cons_True.
  - rewrite filter_cons_False in Hf by done. destruct (IH _ Hf) as (b & a & -> & <-). exists (y :: b), a.
    by rewrite filter_cons_False.
Qed.

Lemma initSequence_ordered (deps : gmap Z (list Z)) (comps : gmap Z C) sorted before ct after d :
  dependency_order deps sorted -> initSequence comps sorted = before ++ ct :: after -> needs deps ct d ->
  is_Some (comps !! d) -> d ∈ before.
Proof.
  intros (Hd & Hin & Hord) Hseq Hneed Hsome. unfold initSequence in Hseq.
  set (known := filter (fun ct => is_Some (comps !! ct)) sorted) in *.
  apply app_eq_inv in Hseq as [(k & Hk & Hrest)|(k & Hb & Hrest)].
  - destruct k as [|y k].
    + rewrite app_nil_r in Hk. cbn in Hrest. exfalso.
      assert (Hct : ct ∈ filter (fun ct => ct ∉ known) (sortedComponentTypes comps)) by (rewrite <-Hrest; by left).
      apply list_elem_of_filter in Hct as [Hn Hs%sortedComponentTypes_elem]. apply Hn. apply list_elem_of_filter. split; [done|].
      apply Hin. left. destruct Hneed as (ds & Hds & _). by exists ds.
    + injection Hrest as <- Hrest. apply filter_split in Hk as (b & a & Hsort & <-). apply list_elem_of_filter.
      split; [done|]. by apply (Hord b ct a).
  - exfalso. assert (Hct : ct ∈ filter (fun ct => ct ∉ known) (sortedComponentTypes comps)).
    { rewrite Hrest. apply elem_of_app. right. by left. }
    apply list_elem_of_filter in Hct as [Hn Hs%sortedComponentTypes_elem]. apply Hn. apply list_elem_of_filter. split; [done|].
    apply Hin. left. destruct Hneed as (ds & Hds & _). by exists ds.
Qed.

(** Reversing an order in which [d] comes before [ct]. *)
Lemma reversed_before (l rest : list Z) b a ct d :
  l = b ++ ct :: a -> d ∈ b -> exists l1 l2 l3, reverse l ++ rest = l1 ++ ct :: l2 ++ d :: l3.
Proof.
  intros -> (b1 & b2 & ->)%list_elem_of_split. exists (reverse a), (reverse b2), (reverse b1 ++ rest).
  rewrite reverse_app, reverse_cons, reverse_app, reverse_cons, <-!app_assoc. done.
Qed.

End Components.

(** C23. Components live within the lives of those they need.  Initialising the
    components of an entity in the order of the registered dependencies calls each
    component once, after every component it needs and the entity has, and, without
    an error, all of them.  Whatever happened, the end of the entity then reaches
    every component exactly once: those that were initialised first, in the reverse
    order, and so each before every component it needs. *)
Theorem Components_nested {C E : Type} (answer : appAnswers componentCall E) (c : ComponentManager C) calls o sorted isCreate reason log
    c' log' err :
  Forall call_ok calls -> mapOrder_ok o -> (compSort_Get (sort_run calls) o).2 = Ok sorted ->
  InitAll answer c (Ok sorted) isCreate log = (c', log', err) ->
  let deps := ct_dependencies (sort_run calls) in
  exists tried ended,
    log' = log ++ ((fun ct => CompInit ct isCreate) <$> tried)
    /\ NoDup tried /\ (forall ct, ct ∈ tried -> is_Some (cm_Comps c !! ct))
    /\ (forall before ct after, tried = before ++ ct :: after ->
          forall d, needs deps ct d -> is_Some (cm_Comps c !! d) -> d ∈ before)
    /\ match err with
       | Some _ => exists ct, tried = cm_initOrder c' ++ [ct]
       | None => cm_initOrder c' = tried /\ tried ≡ₚ sortedComponentTypes (cm_Comps c)
       end
    /\ Components_DestroyAll answer c' reason log' = log' ++ ((fun ct => CompDestroy ct reason) <$> ended)
    /\ ended ≡ₚ sortedComponentTypes (cm_Comps c) /\ (exists rest, ended = reverse (cm_initOrder c') ++ rest)
    /\ (forall ct d, ct ∈ cm_initOrder c' -> d ∈ cm_initOrder c' -> needs deps ct d ->
          exists l1 l2 l3, ended = l1 ++ ct :: l2 ++ d :: l3).
Proof.
  intros Hcalls Ho Hsort Hinit deps.
  destruct (compSort_Get_spec (sort_run calls) o (sort_run_inv calls Hcalls) Ho) as (_ & _ & Hspec).
  rewrite Hsort in Hspec. destruct Hspec as [Hdep _]. fold deps in Hdep.
  apply InitAll_spec in Hinit as (Hcomps & tried & -> & Hpre & Herr).
  pose proof (initSequence_perm (cm_Comps c) sorted (proj1 Hdep)) as Hperm.
  assert (Hnd : NoDup tried).
  { destruct Hpre as [rest Hpre]. pose proof (sortedComponentTypes_NoDup (cm_Comps c)) as H. rewrite <-Hperm, Hpre in H.
    by apply NoDup_app in H as [? _]. }
  assert (Hsome : forall ct, ct ∈ tried -> is_Some (cm_Comps c !! ct)).
  { intros ct Hct. apply sortedComponentTypes_elem. rewrite <-Hperm. destruct Hpre as [rest ->]. apply elem_of_app. by left. }
  assert (Hord : forall before ct after, tried = before ++ ct :: after ->
    forall d, needs deps ct d -> is_Some (cm_Comps c !! d) -> d ∈ before).
  { intros before ct after -> d Hn Hs. destruct Hpre as [rest Hpre]. rewrite <-app_assoc in Hpre. cbn in Hpre.
    by eapply (initSequence_ordered deps). }
  assert (Hsub : exists more, tried = cm_initOrder c' ++ more).
  { destruct err; [destruct Herr as [ct ->]; by eexists|]. destruct Herr as [-> ->]. exists []. by rewrite app_nil_r. }
  destruct Hsub as [more Hmore].
  assert (Hio : forall ct, ct ∈ cm_initOrder c' -> is_Some (cm_Comps c !! ct)).
  { intros ct Hct. apply Hsome. rewrite Hmore. apply elem_of_app. by left. }
  destruct (DestroyAll_spec answer c' reason (log ++ ((fun ct => CompInit ct isCreate) <$> tried))) as (rest & Hend & Hall).
  { rewrite Hmore in Hnd. by apply NoDup_app in Hnd as [? _]. }
  { intros ct Hct. rewrite Hcomps. by apply Hio. }
  rewrite Hcomps in Hall. exists tried, (reverse (cm_initOrder c') ++ rest). split_and!; try done.
  - destruct err; [done|]. destruct Herr as [-> ->]. split; [done|]. by rewrite Hperm.
  - by exists rest.
  - intros ct d Hct Hdd Hn. apply list_elem_of_split in Hct as (b & a & Hb).
    eapply reversed_before; [exact Hb|]. eapply (Hord b ct (a ++ more)); [by rewrite Hmore, Hb, <-app_assoc|done|]. by apply Hio.
Qed.

(** ** Sample *)

Module ComponentSample.

Definition calls : list (sortCall (T := Z)) := [CallRegister 3 [1; 2]; CallRegister 2 [1]].
Definition order : mapOrder (T := Z) := mkOrder id id.
Definition manager : ComponentManager string := mkComponents {[ 2 := "bag"; 3 := "quest"; 7 := "mail" ]} [].
Definition quest_fails : appAnswers componentCall string :=
  fun _ call => match call with CompInit 3 _ => Some "no table" | _ => None end.

Example partial_init_and_end :
  let '(m, log, err) := InitAll quest_fails manager (Ok [1; 2; 3]) true [] in
  log = [CompInit 2 true; CompInit 3 true] /\ cm_initOrder m = [2]
  /\ Components_DestroyAll quest_fails m 9 log
     = [CompInit 2 true; CompInit 3 true; CompDestroy 2 9; CompDestroy 7 9; CompDestroy 3 9].
Proof. vm_compute. auto. Qed.

Lemma Components_nested_witness :
  exists ended, Components_DestroyAll quest_fails (InitAll quest_fails manager (Ok [1; 2; 3]) true []).1.1 9
      (InitAll quest_fails manager (Ok [1; 2; 3]) true []).1.2
    = (InitAll quest_fails manager (Ok [1; 2; 3]) true []).1.2 ++ ((fun ct => CompDestroy ct 9) <$> ended)
  /\ ended ≡ₚ sortedComponentTypes (cm_Comps manager).
Proof.
  destruct (Components_nested quest_fails manager calls order [1; 2; 3] true 9 []
    (InitAll quest_fails manager (Ok [1; 2; 3]) true []).1.1 (InitAll quest_fails manager (Ok [1; 2; 3]) true []).1.2
    (InitAll quest_fails manager (Ok [1; 2; 3]) true []).2)
    as (tried & ended & _ & _ & _ & _ & _ & H1 & H2 & _).
  - repeat constructor.
  - split; intros l; reflexivity.
  - vm_compute. reflexivity.
  - vm_compute. reflexivity.
  - exists ended. split; [exact H1|exact H2].
Defined.

End ComponentSample.
