(* ===== verification/Checkpoint.v ===== *)
(** * The checkpoint service

    Models [src/checkpoint/checkpoint.go]: submitting saves and removals to the
    journal ([Flusher]) and to a snapshot log, and starting, flushing and stopping
    the service.  The snapshot log, the flusher's workers and the storage are
    reached through interfaces: what they answer is an argument
    ([Lifecycle.appAnswers] for the life of the service).  A push that waits for
    room is tried again on the journal as it then is: a call is given the journals
    its tries see. *)

From stdpp Require Import base list gmap strings.
From Stdlib Require Import ZArith Lia.
From S2P Require Import Prelude Persist Flusher Lifecycle.

#[local] Open Scope Z_scope.

(** ** Submission *)

Inductive SnapshotWALMode : Type := SnapshotWALModeAsync | SnapshotWALModeDurable.

#[export] Instance SnapshotWALMode_eq_dec : EqDecision SnapshotWALMode.
Proof. solve_decision. Defined.

(** [ck_hasWAL]: a log is configured; the others: the optional interfaces it has. *)
Record checkpointConfig := mkCheckpointConfig {
  ck_hasWAL : bool;
  ck_Mode : SnapshotWALMode;
  ck_Required : bool;
  ck_durable : bool;
  ck_delete : bool;
  ck_durableDelete : bool;
  ck_SubmitTimeout : Z
}.

Definition freezeSaveItem (item : SaveItem) : SaveItem :=
  let data := match sv_Data item with Some [] | None => None | Some d => Some d end in
  let set mode data patch :=
    mkItem (sv_Db item) (sv_DbScope item) (sv_Collection item) (sv_ID item) (sv_Version item) (sv_Fence item)
      (sv_OwnerSid item) (sv_Shared item) (sv_Mask item) mode data patch (sv_Tracker item) (sv_targets item) in
  if bool_decide (sv_Mode item <> SaveModePatch) || PersistPatch_Empty (sv_Patch item)
  then set (sv_Mode item) data emptyPatch
  else match PersistPatch_Freeze (sv_Patch item) with
  | Some patch => set SaveModePatch data patch
  | None =>
      set SaveModeFull
        (if data_len data =? 0 then match pp_FullData (sv_Patch item) with [] => None | d => Some d end else data)
        emptyPatch
  end.

Definition freezeSaveItems (items : list SaveItem) : list SaveItem := freezeSaveItem <$> items.

(** A try: the journal it finds, whether the context is done, and the time. *)
Record pushTry := mkTry {
  tr_journal : SaveJournal;
  tr_done : bool;
  tr_now : Z
}.

(** The tries of one push; [None] while it still waits.  Without a timeout the
    context is never done. *)
Fixpoint pushJournal (cfg : checkpointConfig) (tries : list pushTry) (items : list SaveItem) : option (SaveJournal * bool) :=
  match tries with
  | [] => None
  | t :: tries =>
      let done := tr_done t && (0 <? ck_SubmitTimeout cfg) in
      match PushWithContext (tr_journal t) items done (tr_now t) with
      | (j, PushTrue) => Some (j, true)
      | (j, PushFalse) => Some (j, false)
      | (_, PushWaits) => pushJournal cfg tries items
      end
  end.

(** What a call leaves behind: its result, the journal of its last try (if it
    tried), what the log accepted, and the trackers. *)
Record submitted := mkSubmitted {
  sb_ok : bool;
  sb_journal : option SaveJournal;
  sb_wal : list SaveItem;
  sb_heap : trackers
}.

Definition durableMode (cfg : checkpointConfig) : bool :=
  ck_hasWAL cfg && bool_decide (ck_Mode cfg = SnapshotWALModeDurable).

(** [walOK]: what the log answers. *)
Definition Checkpoint_Submit (cfg : checkpointConfig) (walOK : bool) (tries : list pushTry) (heap : trackers)
    (items : list SaveItem) : option submitted :=
  let items := freezeSaveItems items in
  match items with
  | [] => Some (mkSubmitted true None [] heap)
  | _ =>
      if durableMode cfg then
        if negb (ck_durable cfg) then Some (mkSubmitted false None [] heap)
        else if negb walOK then Some (mkSubmitted false None [] heap)
        else match pushJournal cfg tries items with
        | None => None
        | Some (j, true) => Some (mkSubmitted true (Some j) items heap)
        | Some (j, false) => Some (mkSubmitted true (Some j) items (rollbackPersistItems heap items))
        end
      else if ck_hasWAL cfg && ck_Required cfg then
        if negb walOK then Some (mkSubmitted false None [] heap)
        else match pushJournal cfg tries items with
        | None => None
        | Some (j, ok) => Some (mkSubmitted ok (Some j) items heap)
        end
      else match pushJournal cfg tries items with
      | None => None
      | Some (j, ok) =>
          Some (mkSubmitted ok (Some j) (if ok && ck_hasWAL cfg && walOK then items else []) heap)
      end
  end.

(** [pushRemoveJournal]: its items are normalised already; doing it again changes
    nothing. *)
Definition pushRemoveJournal (cfg : checkpointConfig) (tries : list pushTry) (items : list SaveItem)
    : option (SaveJournal * bool) :=
  pushJournal cfg tries (normalizeRemoveItems items).

Definition SubmitRemoveItems (cfg : checkpointConfig) (walOK : bool) (tries : list pushTry) (heap : trackers)
    (items : list SaveItem) : option submitted :=
  let items := normalizeRemoveItems items in
  match items with
  | [] => Some (mkSubmitted true None [] heap)
  | _ =>
      if durableMode cfg then
        if negb (ck_durableDelete cfg) then Some (mkSubmitted false None [] heap)
        else if negb walOK then Some (mkSubmitted false None [] heap)
        else match pushRemoveJournal cfg tries items with
        | None => None
        | Some (j, _) => Some (mkSubmitted true (Some j) items heap)
        end
      else if ck_hasWAL cfg && ck_Required cfg then
        if negb (ck_delete cfg && walOK) then Some (mkSubmitted false None [] heap)
        else match pushRemoveJournal cfg tries items with
        | None => None
        | Some (j, ok) => Some (mkSubmitted ok (Some j) items heap)
        end
      else match pushRemoveJournal cfg tries items with
      | None => None
      | Some (j, ok) =>
          Some (mkSubmitted ok (Some j) (if ok && ck_hasWAL cfg && ck_delete cfg && walOK then items else []) heap)
      end
  end.

Definition removeItem (collection : string) (id : Z) : SaveItem :=
  mkItem "" 0 collection id 0 0 0 false 0 SaveModeFull None emptyPatch None [].

Definition SubmitRemove (cfg : checkpointConfig) (walOK : bool) (tries : list pushTry) (heap : trackers)
    (collection : string) (ids : list Z) : option submitted :=
  SubmitRemoveItems cfg walOK tries heap (removeItem collection <$> ids).

(** ** The life of the service *)

Inductive checkpointCall : Type :=
| CkWALStart
| CkWALReplay
| CkWALStop
| CkFlusherStart
| CkFlusherStop
| CkFlushAll
| CkJournalClose
| CkRollbackPending.

Record CheckpointService := mkCheckpoint {
  cp_hasBackend : bool;
  cp_hasWAL : bool;
  cp_running : bool;
  cp_stopped : bool
}.

Inductive checkpointError (E : Type) : Type :=
| ErrCheckpointBackendRequired
| ErrCheckpointStopped
| ErrCheckpointNotRunning
| ErrCheckpointContext (e : E)
| ErrReplayWAL (e : E)
| ErrStopFlusher (e : E)
| ErrFlush (e : E)
| ErrStopWAL (e : E).
Arguments ErrCheckpointBackendRequired {E}.
Arguments ErrCheckpointStopped {E}.
Arguments ErrCheckpointNotRunning {E}.
Arguments ErrCheckpointContext {E}.
Arguments ErrReplayWAL {E}.
Arguments ErrStopFlusher {E}.
Arguments ErrFlush {E}.
Arguments ErrStopWAL {E}.

Section Life.
Context {E : Type}.
Context (answer : appAnswers checkpointCall E).
Implicit Types (c : CheckpointService) (log : list checkpointCall).

Definition setRunning c (running stopped : bool) : CheckpointService := mkCheckpoint (cp_hasBackend c) (cp_hasWAL c) running stopped.

(** A call whose answer is not looked at. *)
Definition tell log (call : checkpointCall) : list checkpointCall := (ask answer log call).1.

Definition Checkpoint_Start c (ctxErr : option E) log : CheckpointService * list checkpointCall * option (checkpointError E) :=
  if negb (cp_hasBackend c) then (c, log, Some ErrCheckpointBackendRequired)
  else if cp_running c then (c, log, None)
  else if cp_stopped c then (c, log, Some ErrCheckpointStopped)
  else match ctxErr with
  | Some e => (c, log, Some (ErrCheckpointContext e))
  | None =>
      let started log := (setRunning c true (cp_stopped c), tell log CkFlusherStart, None) in
      if cp_hasWAL c then
        let log := tell log CkWALStart in
        let '(log, o) := ask answer log CkWALReplay in
        match o with
        | Some e => (c, tell log CkWALStop, Some (ErrReplayWAL e))
        | None => started log
        end
      else started log
  end.

Definition Checkpoint_Stop c log : CheckpointService * list checkpointCall * option (checkpointError E) :=
  if negb (cp_running c) then
    if cp_stopped c then (c, log, None)
    else (setRunning c false true, tell log CkJournalClose, None)
  else
    let c := setRunning c false true in
    let abandon log := let log := tell log CkRollbackPending in if cp_hasWAL c then tell log CkWALStop else log in
    let log := tell log CkJournalClose in
    let '(log, o) := ask answer log CkFlusherStop in
    match o with
    | Some e => (c, abandon log, Some (ErrStopFlusher e))
    | None =>
        let '(log, o) := ask answer log CkFlushAll in
        match o with
        | Some e => (c, abandon log, Some (ErrFlush e))
        | None =>
            if cp_hasWAL c then
              let '(log, o) := ask answer log CkWALStop in
              (c, log, ErrStopWAL <$> o)
            else (c, log, None)
        end
    end.

Definition Checkpoint_Flush c log : CheckpointService * list checkpointCall * option (checkpointError E) :=
  if negb (cp_running c && negb (cp_stopped c)) then (c, log, Some ErrCheckpointNotRunning)
  else let '(log, o) := ask answer log CkFlushAll in (c, log, ErrFlush <$> o).

Definition Checkpoint_Running c : bool := cp_running c && negb (cp_stopped c).

Inductive checkpointOp : Type := OpCkStart (ctxErr : option E) | OpCkStop | OpCkFlush.

Definition checkpointExec (s : CheckpointService * list checkpointCall) (op : checkpointOp)
    : CheckpointService * list checkpointCall * option (checkpointError E) :=
  match op with
  | OpCkStart ctxErr => Checkpoint_Start s.1 ctxErr s.2
  | OpCkStop => Checkpoint_Stop s.1 s.2
  | OpCkFlush => Checkpoint_Flush s.1 s.2
  end.

Definition checkpointRun (s : CheckpointService * list checkpointCall) (ops : list checkpointOp) : CheckpointService * list checkpointCall :=
  foldl (fun s op => (checkpointExec s op).1) s ops.

End Life.

(** ** What a submission does *)











(** ** What the parts of the service see *)

Section LifeFacts.
Context {E : Type}.
Context (answer : appAnswers checkpointCall E) (hasWAL : bool).

Definition ifWAL (calls : list checkpointCall) : list checkpointCall := if hasWAL then calls else [].

(** Starts that failed because the log could not be replayed. *)
Inductive failedStarts : list checkpointCall -> Prop :=
| failed_none : failedStarts []
| failed_more log : failedStarts log -> hasWAL = true -> failedStarts (log ++ [CkWALStart; CkWALReplay; CkWALStop]).

(** A service that runs: the log was replayed before the workers were started. *)
Definition ranAs (log : list checkpointCall) : Prop :=
  exists pre flushes, failedStarts pre /\ log = pre ++ ifWAL [CkWALStart; CkWALReplay] ++ [CkFlusherStart] ++ replicate flushes CkFlushAll
    /\ (hasWAL = true -> answer (pre ++ [CkWALStart]) CkWALReplay = None).

(** The end of a service that ran: the journal is closed and the workers are
    stopped before what is left is flushed; what could not be flushed is rolled
    back; the log is stopped last. *)
Definition endedAs (log : list checkpointCall) (rest : list checkpointCall) : Prop :=
  let l1 := log ++ [CkJournalClose] in
  let l2 := l1 ++ [CkFlusherStop] in
  (exists e, answer l1 CkFlusherStop = Some e /\ rest = [CkJournalClose; CkFlusherStop; CkRollbackPending] ++ ifWAL [CkWALStop])
  \/ (answer l1 CkFlusherStop = None
      /\ ((exists e, answer l2 CkFlushAll = Some e
             /\ rest = [CkJournalClose; CkFlusherStop; CkFlushAll; CkRollbackPending] ++ ifWAL [CkWALStop])
          \/ (answer l2 CkFlushAll = None /\ rest = [CkJournalClose; CkFlusherStop; CkFlushAll] ++ ifWAL [CkWALStop]))).

Definition serviceSees (c : CheckpointService) (log : list checkpointCall) : Prop :=
  match cp_running c, cp_stopped c with
  | false, false => failedStarts log
  | true, false => ranAs log
  | false, true => (exists pre, failedStarts pre /\ log = pre ++ [CkJournalClose])
                   \/ exists ran rest, ranAs ran /\ endedAs ran rest /\ log = ran ++ rest
  | true, true => False
  end.

Lemma Checkpoint_Start_sees c ctxErr log :
  cp_hasWAL c = hasWAL -> serviceSees c log ->
  let r := (Checkpoint_Start answer c ctxErr log).1 in serviceSees r.1 r.2 /\ cp_hasWAL r.1 = hasWAL.
Proof.
  intros Hw Hs. unfold Checkpoint_Start. destruct (cp_hasBackend c); cbn [negb]; [|done].
  destruct (cp_running c) eqn:Hr; [done|]. destruct (cp_stopped c) eqn:Hst; [done|]. destruct ctxErr as [e|]; [done|].
  unfold serviceSees in Hs. rewrite Hr, Hst in Hs. rewrite Hw. destruct hasWAL eqn:Hh.
  - unfold tell, ask. cbn [fst]. destruct (answer (log ++ [CkWALStart]) CkWALReplay) as [e|] eqn:Ha; cbn; (split; [|done]).
    + unfold serviceSees. rewrite Hr, Hst, <-!app_assoc. by apply failed_more.
    + unfold serviceSees. cbn. exists log, 0%nat. split_and!; [done| |done]. unfold ifWAL. rewrite Hh. by rewrite <-!app_assoc.
  - cbn. split; [|done]. unfold serviceSees. cbn. exists log, 0%nat. split_and!; [done| |by rewrite Hh].
    unfold ifWAL. by rewrite Hh.
Qed.

Lemma Checkpoint_Stop_sees c log :
  cp_hasWAL c = hasWAL -> serviceSees c log ->
  let r := (Checkpoint_Stop answer c log).1 in serviceSees r.1 r.2 /\ cp_hasWAL r.1 = hasWAL.
Proof.
  intros Hw Hs. unfold Checkpoint_Stop. unfold serviceSees in Hs.
  destruct (cp_running c) eqn:Hr; cbn [negb]; destruct (cp_stopped c) eqn:Hst; [done| | |].
  - cbn [setRunning cp_hasWAL]. rewrite Hw. unfold tell, ask. cbn [fst].
    assert (Hend : forall rest, endedAs log rest -> serviceSees (setRunning c false true) (log ++ rest)).
    { intros rest He. right. by exists log, rest. }
    assert (Hfin : forall l rest, l = log ++ rest -> endedAs log rest ->
      serviceSees (setRunning c false true) l /\ cp_hasWAL (setRunning c false true) = hasWAL).
    { intros l rest -> He. split; [by apply Hend|done]. }
    destruct (answer _ CkFlusherStop) as [e|] eqn:H1; [|destruct (answer _ CkFlushAll) as [e|] eqn:H2].
    + eapply Hfin; [|by left; exists e]. unfold ifWAL. destruct hasWAL; cbn; by rewrite <-!app_assoc.
    + eapply Hfin; [|right; split; [done|left; by exists e]]. unfold ifWAL. destruct hasWAL; cbn; by rewrite <-!app_assoc.
    + destruct hasWAL eqn:Hh; cbn [fst snd].
      * eapply Hfin; [|right; split; [done|right; split; [done|reflexivity]]]. unfold ifWAL. rewrite Hh. cbn. by rewrite <-!app_assoc.
      * eapply Hfin; [|right; split; [done|right; split; [done|reflexivity]]]. unfold ifWAL. rewrite Hh. cbn. by rewrite <-!app_assoc.
  - cbn. split; [|done]. unfold serviceSees. by rewrite Hr, Hst.
  - cbn. split; [|done]. left. by exists log.
Qed.

Lemma Checkpoint_Flush_sees c log :
  cp_hasWAL c = hasWAL -> serviceSees c log ->
  let r := (Checkpoint_Flush answer c log).1 in serviceSees r.1 r.2 /\ cp_hasWAL r.1 = hasWAL.
Proof.
  intros Hw Hs. unfold Checkpoint_Flush. destruct (cp_running c && negb (cp_stopped c)) eqn:Hr; cbn [negb]; [|done].
  apply andb_true_iff in Hr as [Hr Hst%negb_true_iff]. cbn. split; [|done]. unfold serviceSees in *. rewrite Hr, Hst in *.
  destruct Hs as (pre & k & Hp & -> & Ha). exists pre, (S k). split_and!; [done| |done].
  rewrite replicate_S_end, <-!app_assoc. done.
Qed.

Lemma checkpointRun_sees s ops :
  cp_hasWAL s.1 = hasWAL -> serviceSees s.1 s.2 ->
  serviceSees (checkpointRun answer s ops).1 (checkpointRun answer s ops).2.
Proof.
  unfold checkpointRun. revert s. induction ops as [|op ops IH]; intros [c log] Hw Hs; [done|]. cbn [foldl].
  cbn [fst snd] in Hw, Hs. destruct op; cbn [checkpointExec fst snd].
  - destruct (Checkpoint_Start_sees c ctxErr log Hw Hs). by apply IH.
  - destruct (Checkpoint_Stop_sees c log Hw Hs). by apply IH.
  - destruct (Checkpoint_Flush_sees c log Hw Hs). by apply IH.
Qed.

End LifeFacts.

(** The checkpoint service comes up and goes down in order.  Over every
    sequence of starts, flushes and stops: the flush workers are started once, and
    only after the log was replayed without an error; a failed start leaves the
    service as it was; a stop closes the journal, then stops the workers, then
    flushes what is left, and rolls back what it cannot flush; and a stopped
    service is never started again. *)
Theorem Checkpoint_orderly {E : Type} (answer : appAnswers checkpointCall E) hasBackend hasWAL ops ops' :
  let s := checkpointRun answer (mkCheckpoint hasBackend hasWAL false false, []) ops in
  serviceSees answer hasWAL s.1 s.2
  /\ (cp_stopped s.1 = true -> checkpointRun answer s ops' = s).
Proof.
  intros s. assert (Hs : serviceSees answer hasWAL s.1 s.2).
  { apply checkpointRun_sees; [done|]. constructor. }
  split; [done|]. intros Hst. unfold checkpointRun.
  assert (Hr : cp_running s.1 = false).
  { unfold serviceSees in Hs. rewrite Hst in Hs. by destruct (cp_running s.1). }
  destruct s as [c log]. cbn in Hst, Hr. clear Hs. induction ops' as [|op ops' IH]; [done|]. cbn [foldl].
  replace (checkpointExec answer (c, log) op).1 with (c, log); [done|].
  destruct op; cbn [checkpointExec fst snd].
  - unfold Checkpoint_Start. rewrite Hr, Hst. by destruct (cp_hasBackend c).
  - unfold Checkpoint_Stop. by rewrite Hr, Hst.
  - unfold Checkpoint_Flush. by rewrite Hr.
Qed.

(** ** Samples *)

Module CheckpointSample.

Definition cfg (mode : SnapshotWALMode) : checkpointConfig := mkCheckpointConfig true mode false true true true 0.
Definition item : SaveItem :=
  mkItem "game" 0 "player" 7 3 0 0 false 5 SaveModeFull (Some [Byte.x01]) emptyPatch (Some 0%nat) [].
Definition heap : trackers := {[ 0%nat := newTracker ]}.
Definition closed : SaveJournal := mkJournal [mkEntry [item] 1] true 1.


(** With a required log the refused batch is in the log. *)
Example refused_batch_is_logged :
  Checkpoint_Submit (mkCheckpointConfig true SnapshotWALModeAsync true true true true 0) true [mkTry closed false 2] heap [item]
  = Some (mkSubmitted false (Some closed) [item] heap).
Proof. reflexivity. Qed.

(** Saves are accepted before the service is started and its log replayed. *)
Example submit_before_start :
  let c := mkCheckpoint true true false false in
  cp_running c = false
  /\ Checkpoint_Submit (cfg SnapshotWALModeAsync) false [mkTry (NewJournal 10) false 1] heap [item]
     = Some (mkSubmitted true (Some (mkJournal [mkEntry [item] 1] false 10)) [] heap).
Proof. split; reflexivity. Qed.

(** A save of version zero with empty data turns into a removal when it is frozen. *)
Example frozen_empty_save_is_removal :
  let save := mkItem "game" 0 "player" 7 0 0 0 false 5 SaveModeFull (Some []) emptyPatch (Some 0%nat) [] in
  is_remove save = false /\ is_remove (freezeSaveItem save) = true.
Proof. split; reflexivity. Qed.

End CheckpointSample.
