(* ===== verification/IMap.v ===== *)
(** * Maps with one interface

    The maps of [src/map/] implement one interface, [IMap].  It is a class here;
    what it promises, that the map behaves as a finite map whatever is called,
    is a second class, [MapLaws], with the relation between a map and the finite
    map it stands for.  [IMap_run] is proved against the two classes, and the
    maps discharge them: the list of entries [SmallSafeMap] and the sharded
    [ShardedSafeMap] in this file, the open-addressing [FastMap] in a file of
    its own.

    A call that does not return (a probe that never ends, an index out of range)
    is [None].  The callback of a [Range] does not call the map; the order in
    which Go visits a built-in map is arbitrary and an argument,
    [MapIteration]. *)

From stdpp Require Import base list gmap.
From Stdlib Require Import ZArith Lia.
From Stdlib Require Strings.Byte.
From S2P Require Import Prelude.
#[local] Open Scope Z_scope.

(** ** The interface *)

(** [IMap]: the calls, [None] when they do not return. *)
Class IMap (K V M : Type) := {
  Map_Set : M -> K -> V -> option M;
  Map_Get : M -> K -> option (option V);
  Map_Delete : M -> K -> option (M * bool);
  Map_Len : M -> option Z;
  Map_Clear : M -> option M;
  Map_Range : M -> option (K -> V -> bool) -> option (list (K * V)) }.

(** The entries a loop shows to a callback, which stops it by [false]. *)
Fixpoint visited {K V : Type} (f : K -> V -> bool) (entries : list (K * V)) : list (K * V) :=
  match entries with
  | [] => []
  | (k, v) :: rest => (k, v) :: if f k v then visited f rest else []
  end.

(** The order in which a loop visits a built-in map. *)
Class MapIteration (K V : Type) `{Countable K} := {
  iterate : gmap K V -> list (K * V);
  iterate_perm g : iterate g ≡ₚ map_to_list g }.

Inductive mapCall (K V : Type) : Type :=
| CallSet (key : K) (value : V)
| CallGet (key : K)
| CallDelete (key : K)
| CallLen
| CallClear
| CallRange (f : option (K -> V -> bool)).
Arguments CallSet {K V}. Arguments CallGet {K V}. Arguments CallDelete {K V}.
Arguments CallLen {K V}. Arguments CallClear {K V}. Arguments CallRange {K V}.

Inductive mapAnswer (K V : Type) : Type :=
| AnsDone
| AnsGet (value : option V)
| AnsDelete (found : bool)
| AnsLen (n : Z)
| AnsRange (seen : list (K * V)).
Arguments AnsDone {K V}. Arguments AnsGet {K V}. Arguments AnsDelete {K V}.
Arguments AnsLen {K V}. Arguments AnsRange {K V}.

Definition callMap {K V M} `{IMap K V M} (m : M) (c : mapCall K V) : option (M * mapAnswer K V) :=
  match c with
  | CallSet k v => m' ← Map_Set m k v; Some (m', AnsDone)
  | CallGet k => o ← Map_Get m k; Some (m, AnsGet o)
  | CallDelete k => '(m', b) ← Map_Delete m k; Some (m', AnsDelete b)
  | CallLen => n ← Map_Len (V := V) m; Some (m, AnsLen n)
  | CallClear => m' ← Map_Clear (V := V) m; Some (m', AnsDone)
  | CallRange f => seen ← Map_Range m f; Some (m, AnsRange seen)
  end.

Fixpoint callsMap {K V M} `{IMap K V M} (m : M) (cs : list (mapCall K V)) : option (M * list (mapAnswer K V)) :=
  match cs with
  | [] => Some (m, [])
  | c :: cs =>
      '(m', a) ← callMap m c;
      '(m'', rest) ← callsMap m' cs;
      Some (m'', a :: rest)
  end.

(** ** What the interface promises *)

Section Specification.
Context {K V : Type} `{Countable K}.
Implicit Type g : gmap K V.

(** The finite map after a call. *)
Definition specNext g (c : mapCall K V) : gmap K V :=
  match c with
  | CallSet k v => <[k := v]> g
  | CallDelete k => delete k g
  | CallClear => ∅
  | CallGet _ | CallLen | CallRange _ => g
  end.

(** The answers a finite map can give: a loop shows the entries once each, in
    some order, up to the first the callback refuses. *)
Definition specAnswer g (c : mapCall K V) (a : mapAnswer K V) : Prop :=
  match c, a with
  | CallSet _ _, AnsDone | CallClear, AnsDone => True
  | CallGet k, AnsGet o => o = g !! k
  | CallDelete k, AnsDelete b => b = bool_decide (is_Some (g !! k))
  | CallLen, AnsLen n => n = Z.of_nat (size g)
  | CallRange None, AnsRange seen => seen = []
  | CallRange (Some f), AnsRange seen => exists entries, entries ≡ₚ map_to_list g /\ seen = visited f entries
  | _, _ => False
  end.

Fixpoint specRun g (cs : list (mapCall K V)) (answers : list (mapAnswer K V)) : Prop :=
  match cs, answers with
  | [], [] => True
  | c :: cs, a :: answers => specAnswer g c a /\ specRun (specNext g c) cs answers
  | _, _ => False
  end.
End Specification.

(** What an implementation owes: [stands n m g], [m] stands for [g] after at
    most [n] calls, and every call returns and keeps this, as long as there are
    fewer than [callLimit] calls. *)
Definition callLimit : Z := 2 ^ 50.

Class MapLaws (K V M : Type) `{Countable K} `{!IMap K V M} := {
  stands : Z -> M -> gmap K V -> Prop;
  law_Set n m g k v : stands n m g -> n < callLimit ->
    exists m', Map_Set m k v = Some m' /\ stands (n + 1) m' (<[k := v]> g);
  law_Get n m g k : stands n m g -> Map_Get m k = Some (g !! k);
  law_Delete n m g k : stands n m g -> n <= callLimit ->
    exists m', Map_Delete m k = Some (m', bool_decide (is_Some (g !! k))) /\ stands n m' (delete k g);
  law_Len n m g : stands n m g -> n <= callLimit -> Map_Len (V := V) m = Some (Z.of_nat (size g));
  law_Clear n m g : stands n m g -> exists m', Map_Clear (V := V) m = Some m' /\ stands n m' ∅;
  law_Range n m g f : stands n m g ->
    exists entries, entries ≡ₚ map_to_list g
      /\ Map_Range m f = Some (match f with Some f => visited f entries | None => [] end);
  law_more n n' m g : stands n m g -> n <= n' -> stands n' m g }.

Section Client.
Context {K V M : Type} `{Countable K} `{!IMap K V M} `{!MapLaws K V M}.
Implicit Types (m : M) (g : gmap K V).

Lemma callMap_ok n m g c :
  stands n m g -> n < callLimit ->
  exists m' a, callMap m c = Some (m', a) /\ specAnswer g c a /\ stands (n + 1) m' (specNext g c).
Proof.
  intros Hm Hn. assert (Hup : forall m g, stands n m g -> stands (n + 1) m g)
    by (intros ?? Hs; apply (law_more _ _ _ _ Hs); lia).
  destruct c as [k v | k | k | | | f]; cbn.
  - destruct (law_Set n m g k v Hm Hn) as (m' & -> & Hs). eauto.
  - rewrite (law_Get _ _ _ k Hm). eauto 6.
  - destruct (law_Delete n m g k Hm ltac:(lia)) as (m' & -> & Hs). eauto 6.
  - rewrite (law_Len _ _ _ Hm ltac:(lia)). eauto 6.
  - destruct (law_Clear n m g Hm) as (m' & -> & Hs). eauto 6.
  - destruct (law_Range n m g f Hm) as (entries & Hp & ->). destruct f; cbn; eauto 8.
Qed.

(** Every sequence of calls returns, with answers the finite map gives. *)
Lemma IMap_run cs n m g :
  stands n m g -> n + len cs <= callLimit ->
  exists m' answers, callsMap m cs = Some (m', answers) /\ specRun g cs answers.
Proof.
  revert n m g. induction cs as [|c cs IH]; intros n m g Hm Hn; [by exists m, [] |].
  rewrite len_cons in Hn. pose proof (len_nonneg cs).
  destruct (callMap_ok n m g c Hm ltac:(lia)) as (m1 & a & Hc & Ha & H1).
  destruct (IH (n + 1) m1 (specNext g c) H1 ltac:(lia)) as (m2 & answers & Hcs & Has).
  exists m2, (a :: answers). cbn [callsMap]. rewrite Hc. cbn. rewrite Hcs. done.
Qed.
End Client.

(** ** SmallSafeMap: a list of entries

    Every call holds the mutex from its first to its last step (a [Range] while
    it copies the entries), so the calls follow one another. *)

Section Small.
Context {K V : Type} `{EqDecision K}.

Record SmallSafeMap := mkSmall { sm_entries : list (K * V) }.
Implicit Type m : SmallSafeMap.

(** [NewSmallSafeMap]: the capacity is a hint to the allocator only. *)
Definition NewSmallSafeMap : SmallSafeMap := mkSmall [].

(** The index of the entry of a key. *)
Definition smallFind m (key : K) : option nat := fst <$> list_find (fun e => e.1 = key) (sm_entries m).

Definition SmallSafeMap_Set m (key : K) (value : V) : SmallSafeMap :=
  match smallFind m key with
  | Some i => mkSmall (alter (fun e => (e.1, value)) i (sm_entries m))
  | None => mkSmall (sm_entries m ++ [(key, value)])
  end.

Definition SmallSafeMap_Get m (key : K) : option V :=
  i ← smallFind m key; snd <$> sm_entries m !! i.

(** [Delete]: the last entry takes the place of the one that leaves. *)
Definition SmallSafeMap_Delete m (key : K) : SmallSafeMap * bool :=
  match smallFind m key, last (sm_entries m) with
  | Some i, Some e =>
      (mkSmall (take (length (sm_entries m) - 1) (<[i := e]> (sm_entries m))), true)
  | _, _ => (m, false)
  end.

Definition SmallSafeMap_Len m : Z := len (sm_entries m).

Definition SmallSafeMap_Clear m : SmallSafeMap := mkSmall [].

Definition SmallSafeMap_Range m (f : option (K -> V -> bool)) : list (K * V) :=
  match f with Some f => visited f (sm_entries m) | None => [] end.

(** [RawMap] and [SetRawMap] *)
Definition RawMap `{Countable K} m : gmap K V :=
  foldl (fun ret e => <[e.1 := e.2]> ret) ∅ (SmallSafeMap_Range m (Some (fun _ _ => true))).

Definition SetRawMap `{Countable K} `{!MapIteration K V} m (src : gmap K V) : SmallSafeMap := mkSmall (iterate src).

#[export] Instance SmallSafeMap_IMap : IMap K V SmallSafeMap := {
  Map_Set m k v := Some (SmallSafeMap_Set m k v);
  Map_Get m k := Some (SmallSafeMap_Get m k);
  Map_Delete m k := Some (SmallSafeMap_Delete m k);
  Map_Len m := Some (SmallSafeMap_Len m);
  Map_Clear m := Some (SmallSafeMap_Clear m);
  Map_Range m f := Some (SmallSafeMap_Range m f) }.
End Small.
Arguments SmallSafeMap : clear implicits.

(** ** Hash functions *)

Definition Mix64 (v : Z) : Z :=
  let v := u64! (Z.lxor v (Z.shiftr v 30) * 0xbf58476d1ce4e5b9) in
  let v := u64! (Z.lxor v (Z.shiftr v 27) * 0x94d049bb133111eb) in
  Z.lxor v (Z.shiftr v 31).

Definition HashInteger (key : Z) : Z := Mix64 (u64! key).

Definition HashString (key : list Byte.byte) : Z :=
  Mix64 (foldl (fun h b => u64! (Z.lxor h (Z.of_N (Byte.to_N b)) * 1099511628211)) 14695981039346656037 key).

(** ** ShardedSafeMap: built-in maps by the hash of the key

    A call holds the mutex of the one shard it uses, [Clear] those of all; a
    shard that was never written, or was cleared, is nil. *)

Definition defaultShardCount : Z := 64.

(** [nextPowerOfTwo]: the loop doubles an int, which no longer grows once it has
    overflowed; 64 rounds are all that can change it. *)
Fixpoint doubleUpTo (fuel : nat) (n v : Z) : option Z :=
  match fuel with
  | O => None
  | S fuel => if n <? v then doubleUpTo fuel (wrapi64 (Z.shiftl n 1)) v else Some n
  end.

Definition nextPowerOfTwo (v : Z) : option Z := if v <=? 1 then Some 1 else doubleUpTo 65 1 v.

Definition normalizeShardCount (shardCount : Z) : option Z :=
  nextPowerOfTwo (if shardCount <=? 0 then defaultShardCount else shardCount).

Section Sharded.
Context {K V : Type} `{Countable K} `{!MapIteration K V} (hash : K -> Z).

Record ShardedSafeMap := mkSharded { sd_mask : Z; sd_size : Z; sd_shards : list (option (gmap K V)) }.
Implicit Type m : ShardedSafeMap.

Definition NewShardedSafeMap (shardCount : Z) : option ShardedSafeMap :=
  n ← normalizeShardCount shardCount;
  Some (mkSharded (u64! (n - 1)) 0 (replicate (Z.to_nat n) None)).

(** [ShardIndex], which [shard] uses too *)
Definition ShardIndex m (key : K) : nat := Z.to_nat (Z.land (hash key) (sd_mask m)).

(** The map of a shard, nil being empty; [None] is an index out of range. *)
Definition shardMap m (key : K) : option (gmap K V) := default ∅ <$> sd_shards m !! ShardIndex m key.

Definition withShard m (key : K) (g : option (gmap K V)) (size : Z) : ShardedSafeMap :=
  mkSharded (sd_mask m) size (<[ShardIndex m key := g]> (sd_shards m)).

Definition ShardedSafeMap_Set m (key : K) (value : V) : option ShardedSafeMap :=
  g ← shardMap m key;
  Some (withShard m key (Some (<[key := value]> g))
          (match g !! key with Some _ => sd_size m | None => wrapi64 (sd_size m + 1) end)).

Definition ShardedSafeMap_Get m (key : K) : option (option V) :=
  g ← shardMap m key; Some (g !! key).

Definition LoadOrStore m (key : K) (value : V) : option (ShardedSafeMap * (V * bool)) :=
  g ← shardMap m key;
  match g !! key with
  | Some actual => Some (withShard m key (Some g) (sd_size m), (actual, true))
  | None => Some (withShard m key (Some (<[key := value]> g)) (wrapi64 (sd_size m + 1)), (value, false))
  end.

(** [Compute]: the callback, unless it is nil, sees the old value and says what
    to keep. *)
Definition ShardedSafeMap_Compute m (key : K) (f : option (option V -> option V))
    : option (ShardedSafeMap * option V) :=
  match f with None => Some (m, None) | Some f =>
  g ← shardMap m key;
  match f (g !! key), g !! key with
  | Some next, Some _ => Some (withShard m key (Some (<[key := next]> g)) (sd_size m), Some next)
  | Some next, None => Some (withShard m key (Some (<[key := next]> g)) (wrapi64 (sd_size m + 1)), Some next)
  | None, Some _ => Some (withShard m key (Some (delete key g)) (wrapi64 (sd_size m - 1)), None)
  | None, None => Some (m, None)
  end end.

Definition ShardedSafeMap_Delete m (key : K) : option (ShardedSafeMap * bool) :=
  g ← shardMap m key;
  match g !! key with
  | Some _ => Some (withShard m key (Some (delete key g)) (wrapi64 (sd_size m - 1)), true)
  | None => Some (m, false)
  end.

Definition ShardedSafeMap_Len m : Z := sd_size m.

Definition ShardedSafeMap_Clear m : ShardedSafeMap :=
  mkSharded (sd_mask m) 0 ((fun _ => None) <$> sd_shards m).

(** [Snapshot]: shard by shard, each in the order its map is visited. *)
Definition ShardedSafeMap_Snapshot m : list (K * V) := sd_shards m ≫= (fun g => iterate (default ∅ g)).

Definition ShardedSafeMap_Range m (f : option (K -> V -> bool)) : list (K * V) :=
  match f with Some f => visited f (ShardedSafeMap_Snapshot m) | None => [] end.

#[local] Instance ShardedSafeMap_IMap : IMap K V ShardedSafeMap := {
  Map_Set := ShardedSafeMap_Set;
  Map_Get := ShardedSafeMap_Get;
  Map_Delete := ShardedSafeMap_Delete;
  Map_Len m := Some (ShardedSafeMap_Len m);
  Map_Clear m := Some (ShardedSafeMap_Clear m);
  Map_Range m f := Some (ShardedSafeMap_Range m f) }.
End Sharded.
Arguments ShardedSafeMap K V {_ _}.

(** ** The entries of a finite map in some order *)

Section Entries.
Context {K V : Type} `{Countable K}.
Implicit Types (g : gmap K V) (l : list (K * V)).

Lemma entries_lookup l g k v : l ≡ₚ map_to_list g -> (k, v) ∈ l <-> g !! k = Some v.
Proof. intros Hl. by rewrite Hl, elem_of_map_to_list. Qed.

Lemma entries_insert l g k v :
  l ≡ₚ map_to_list g -> g !! k = None -> (k, v) :: l ≡ₚ map_to_list (<[k := v]> g).
Proof. intros Hl Hk. by rewrite (map_to_list_insert _ _ _ Hk), Hl. Qed.

Lemma entries_delete l g k v :
  (k, v) :: l ≡ₚ map_to_list g -> l ≡ₚ map_to_list (delete k g).
Proof.
  intros Hl. assert (Hk : g !! k = Some v) by (apply (entries_lookup _ _ _ _ Hl); left).
  rewrite <- (map_to_list_delete g k v Hk) in Hl. by apply Permutation.Permutation_cons_inv in Hl.
Qed.

Lemma entries_update l g k v v' :
  (k, v) :: l ≡ₚ map_to_list g -> (k, v') :: l ≡ₚ map_to_list (<[k := v']> g).
Proof.
  intros Hl%entries_delete. rewrite <- insert_delete_eq.
  apply entries_insert; [done | apply lookup_delete_eq].
Qed.

Lemma entries_size l g : l ≡ₚ map_to_list g -> length l = size g.
Proof. intros ->. apply length_map_to_list. Qed.

Lemma entries_NoDup l g : l ≡ₚ map_to_list g -> NoDup l.*1.
Proof. intros ->. apply NoDup_fst_map_to_list. Qed.

Lemma NoDup_keys_entries l : NoDup l.*1 -> l ≡ₚ map_to_list (list_to_map l : gmap K V).
Proof. intros Hl. by rewrite map_to_list_to_map. Qed.
End Entries.

(** ** The list of entries keeps the promise *)

Section SmallLaws.
Context {K V : Type} `{Countable K}.
Implicit Types (m : SmallSafeMap K V) (g : gmap K V).

Lemma smallFind_Some m g k i :
  sm_entries m ≡ₚ map_to_list g -> smallFind m k = Some i ->
  exists v, sm_entries m !! i = Some (k, v) /\ g !! k = Some v.
Proof.
  unfold smallFind. intros Hm Hi. apply fmap_Some in Hi as ((j & k' & v) & Hi & ->).
  apply list_find_Some in Hi as (Hi & Hk & _). cbn in Hk. subst k'. exists v. split; [done|].
  apply (entries_lookup _ _ _ _ Hm). by eapply list_elem_of_lookup_2.
Qed.

Lemma smallFind_None m g k : sm_entries m ≡ₚ map_to_list g -> smallFind m k = None -> g !! k = None.
Proof.
  unfold smallFind. intros Hm Hi. apply fmap_None, list_find_None in Hi.
  destruct (g !! k) as [v|] eqn:Hg; [|done]. apply (entries_lookup _ _ _ _ Hm) in Hg.
  rewrite Forall_forall in Hi. by specialize (Hi _ Hg).
Qed.

(** The last entry in the place of another: the list without the other. *)
Lemma swap_last_perm {A} (l : list A) i x e :
  l !! i = Some x -> last l = Some e -> x :: take (length l - 1) (<[i := e]> l) ≡ₚ l.
Proof.
  intros Hi Hl. destruct l as [|y l _] using rev_ind; [done|]. rewrite last_snoc in Hl. simplify_eq.
  rewrite length_app, Nat.add_sub. destruct (decide (i = length l)) as [-> | Hn].
  - rewrite list_lookup_middle in Hi by done. simplify_eq.
    rewrite insert_app_r_alt by lia. rewrite Nat.sub_diag. cbn. rewrite take_app_length. by rewrite Permutation_app_comm.
  - assert (i < length l)%nat. { apply lookup_lt_Some in Hi. rewrite length_app in Hi. cbn in Hi. lia. }
    rewrite lookup_app_l in Hi by done. rewrite insert_app_l by done.
    rewrite take_app_length' by by rewrite length_insert.
    rewrite insert_take_drop by done. transitivity ((take i l ++ x :: drop (S i) l) ++ [e]).
    + solve_Permutation.
    + by rewrite take_drop_middle.
Qed.

(** Changing the value of an entry in place. *)
Lemma insert_value_perm l g k v v' i :
  l ≡ₚ map_to_list g -> l !! i = Some (k, v) -> <[i := (k, v')]> l ≡ₚ map_to_list (<[k := v']> g).
Proof.
  intros Hl Hi. rewrite insert_take_drop by (by eapply lookup_lt_Some).
  rewrite <- Permutation_middle. apply entries_update with v.
  rewrite Permutation_middle. by rewrite take_drop_middle.
Qed.

#[export] Program Instance SmallSafeMap_laws : MapLaws K V (SmallSafeMap K V) := {|
  stands _ m g := sm_entries m ≡ₚ map_to_list g |}.
Next Obligation.
  intros n m g k v Hm _. eexists. split; [done|]. unfold SmallSafeMap_Set.
  destruct (smallFind m k) as [i|] eqn:Hi; cbn [sm_entries].
  - destruct (smallFind_Some _ _ _ _ Hm Hi) as (v0 & Hl & _).
    replace (alter _ _ _) with (<[i := (k, v)]> (sm_entries m)).
    + by eapply insert_value_perm.
    + apply list_eq. intros j. destruct (decide (i = j)) as [<- |].
      * rewrite list_lookup_insert_eq, list_lookup_alter_eq, Hl by (by eapply lookup_lt_Some). done.
      * by rewrite list_lookup_insert_ne, list_lookup_alter_ne by done.
  - rewrite Permutation_app_comm. apply entries_insert; [done | exact (smallFind_None _ _ _ Hm Hi)].
Qed.
Next Obligation.
  intros n m g k Hm. cbn. f_equal. unfold SmallSafeMap_Get. destruct (smallFind m k) as [i|] eqn:Hi; cbn.
  - destruct (smallFind_Some _ _ _ _ Hm Hi) as (v & -> & ->). done.
  - symmetry. exact (smallFind_None _ _ _ Hm Hi).
Qed.
Next Obligation.
  intros n m g k Hm _. cbn. unfold SmallSafeMap_Delete. destruct (smallFind m k) as [i|] eqn:Hi.
  - destruct (smallFind_Some _ _ _ _ Hm Hi) as (v & Hl & Hg).
    destruct (last (sm_entries m)) as [e|] eqn:He.
    + eexists. split; [rewrite Hg; by rewrite bool_decide_true by eauto |]. cbn.
      apply entries_delete with v. by rewrite (swap_last_perm _ _ _ _ Hl He).
    + apply last_None in He. by rewrite He in Hl.
  - rewrite (smallFind_None _ _ _ Hm Hi). exists m. rewrite delete_id by exact (smallFind_None _ _ _ Hm Hi). done.
Qed.
Next Obligation. intros n m g Hm _. cbn. unfold SmallSafeMap_Len, len. by rewrite (entries_size _ _ Hm). Qed.
Next Obligation. intros n m g Hm. eexists. split; [done|]. cbn. by rewrite map_to_list_empty. Qed.
Next Obligation. intros n m g f Hm. exists (sm_entries m). split; [done|]. by destruct f. Qed.
Next Obligation. done. Qed.
End SmallLaws.

(** ** The shards keep the promise *)

Lemma doubleUpTo_spec fuel i v :
  0 <= i <= 62 -> v <= 2 ^ 62 -> 62 - i < Z.of_nat fuel ->
  exists e, i <= e <= 62 /\ doubleUpTo fuel (2 ^ i) v = Some (2 ^ e) /\ v <= 2 ^ e /\ (e = i \/ 2 ^ (e - 1) < v).
Proof.
  revert i. induction fuel as [|fuel IH]; intros i Hi Hv Hf; [lia|]. cbn [doubleUpTo].
  destruct (Z.ltb_spec (2 ^ i) v) as [Hlt|]; [|exists i; split_and!; auto; lia].
  assert (Hi62 : i < 62) by (apply (Z.pow_lt_mono_r_iff 2); lia).
  rewrite Z.shiftl_mul_pow2 by lia. replace (2 ^ i * 2 ^ 1) with (2 ^ (i + 1)) by (rewrite Z.pow_add_r; lia).
  pose proof (Z.pow_nonneg 2 (i + 1)). pose proof (Z.pow_le_mono_r 2 (i + 1) 62).
  rewrite wrapi64_small by lia. destruct (IH (i + 1)) as (e & He & -> & Hve & Hmin); [lia..|].
  exists e. split_and!; [lia..|done|done|]. right. destruct Hmin as [-> |]; [|done]. by rewrite Z.add_simpl_r.
Qed.

Lemma nextPowerOfTwo_spec v :
  v <= 2 ^ 62 -> exists e, 0 <= e <= 62 /\ nextPowerOfTwo v = Some (2 ^ e) /\ v <= 2 ^ e /\ (e = 0 \/ 2 ^ (e - 1) < v).
Proof.
  intros Hv. unfold nextPowerOfTwo. destruct (Z.leb_spec v 1); [exists 0; split_and!; auto; lia|].
  apply (doubleUpTo_spec 65 0 v); lia.
Qed.

Lemma nextPowerOfTwo_power e : 0 <= e <= 62 -> nextPowerOfTwo (2 ^ e) = Some (2 ^ e).
Proof.
  intros He. destruct (nextPowerOfTwo_spec (2 ^ e)) as (e' & He' & -> & Hle & Hmin).
  { apply Z.pow_le_mono_r; lia. }
  do 2 f_equal. apply Z.pow_le_mono_r_iff in Hle; [|lia..].
  destruct Hmin as [-> | Hlt%Z.pow_lt_mono_r_iff]; lia.
Qed.

(** Above the largest power of two the doubling overflows to zero and the loop
    never ends, however long it runs. *)
Lemma nextPowerOfTwo_diverges fuel : doubleUpTo fuel 1 (2 ^ 62 + 1) = None.
Proof.
  assert (Hz : forall fuel, doubleUpTo fuel 0 (2 ^ 62 + 1) = None) by (intros f; induction f; done).
  do 64 (destruct fuel as [|fuel]; [done | change (doubleUpTo (S fuel) ?n ?v) with
    (if n <? v then doubleUpTo fuel (wrapi64 (Z.shiftl n 1)) v else Some n)]).
  vm_compute wrapi64. apply Hz.
Qed.

Section ShardedLaws.
Context {K V : Type} `{Countable K} `{!MapIteration K V} (hash : K -> Z).
Implicit Types (m : ShardedSafeMap K V) (g : gmap K V).

(** The shards of a map partition a finite map by the index of the keys. *)
Record shardedOK (n : Z) m g : Prop := {
  so_width : exists e, 0 <= e <= 62 /\ sd_mask m = 2 ^ e - 1 /\ len (sd_shards m) = 2 ^ e;
  so_lookup i s k : sd_shards m !! i = Some s ->
    default ∅ s !! k = if decide (ShardIndex hash m k = i) then g !! k else None;
  so_size : sd_size m = Z.of_nat (size g);
  so_calls : Z.of_nat (size g) <= n }.

Lemma ShardIndex_range n m g k : shardedOK n m g -> (ShardIndex hash m k < length (sd_shards m))%nat.
Proof.
  intros [(e & He & Hm & Hl) _ _ _]. unfold ShardIndex, len in *. rewrite Hm.
  replace (2 ^ e - 1) with (Z.ones e) by (rewrite Z.ones_equiv; lia).
  rewrite Z.land_ones by lia. pose proof (Z.mod_pos_bound (hash k) (2 ^ e)). lia.
Qed.

Lemma shardMap_ok n m g k :
  shardedOK n m g -> exists s, shardMap hash m k = Some s /\ s !! k = g !! k.
Proof.
  intros Hm. destruct (lookup_lt_is_Some_2 _ _ (ShardIndex_range _ _ _ k Hm)) as [s Hs].
  exists (default ∅ s). unfold shardMap. rewrite Hs. split; [done|].
  rewrite (so_lookup _ _ _ Hm _ _ _ Hs). by rewrite decide_True.
Qed.

(** A write to the shard of a key: the finite map changes at that key alone. *)
Lemma withShard_ok n n' m g g' k s' size' :
  shardedOK n m g ->
  (forall k', k' <> k -> g' !! k' = g !! k') ->
  (forall s, shardMap hash m k = Some s -> s' !! k = g' !! k /\ forall k', k' <> k -> s' !! k' = s !! k') ->
  size' = Z.of_nat (size g') -> Z.of_nat (size g') <= n' ->
  shardedOK n' (withShard hash m k (Some s') size') g'.
Proof.
  intros Hm Hg Hs Hsz Hn'. pose proof (ShardIndex_range _ _ _ k Hm) as Hr. split; [| |done|done].
  - destruct (so_width _ _ _ Hm) as (e & ? & ? & ?). exists e. cbn. by rewrite len_insert.
  - intros i s k'. change (ShardIndex hash (withShard hash m k (Some s') size') k') with (ShardIndex hash m k').
    cbn. intros Hi. destruct (shardMap_ok _ _ _ k Hm) as (s0 & Hs0 & _). destruct (Hs s0 Hs0) as [Hk Hne].
    pose proof (lookup_lt_is_Some_2 _ _ Hr) as [o Ho]. unfold shardMap in Hs0. rewrite Ho in Hs0.
    cbn in Hs0. injection Hs0 as <-. destruct (decide (i = ShardIndex hash m k)) as [-> |Hi'].
    + rewrite list_lookup_insert_eq in Hi by done. injection Hi as <-. cbn.
      destruct (decide (k' = k)) as [-> |Hk']; [by rewrite decide_True|].
      by rewrite Hne, (so_lookup _ _ _ Hm _ _ _ Ho), Hg by done.
    + rewrite list_lookup_insert_ne in Hi by done. rewrite (so_lookup _ _ _ Hm _ _ _ Hi).
      destruct (decide (k' = k)) as [-> |Hk']; [by rewrite !decide_False by done|]. by rewrite Hg.
Qed.

Lemma withShard_insert n m g k s v size' :
  shardedOK n m g -> shardMap hash m k = Some s -> n < callLimit ->
  size' = match s !! k with Some _ => sd_size m | None => wrapi64 (sd_size m + 1) end ->
  shardedOK (n + 1) (withShard hash m k (Some (<[k := v]> s)) size') (<[k := v]> g).
Proof.
  intros Hm Hs Hn ->. destruct (shardMap_ok _ _ _ k Hm) as (s0 & Hs0 & Hk). assert (s0 = s) as -> by congruence.
  assert (Hsz : Z.of_nat (size (<[k := v]> g)) = match s !! k with Some _ => sd_size m | None => wrapi64 (sd_size m + 1) end).
  { rewrite map_size_insert, Hk, (so_size _ _ _ Hm). pose proof (so_calls _ _ _ Hm). unfold callLimit in Hn.
    destruct (g !! k); [done|]. rewrite wrapi64_small by lia. lia. }
  apply (withShard_ok n _ m g); [done| | |done|].
  - intros k' ?. by rewrite lookup_insert_ne.
  - intros s1 Hs1. assert (s1 = s) as -> by congruence. rewrite !lookup_insert_eq. split; [done|].
    intros k' ?. by rewrite lookup_insert_ne.
  - pose proof (so_calls _ _ _ Hm). rewrite map_size_insert. destruct (g !! k); cbn; lia.
Qed.

Lemma withShard_delete n m g k s :
  shardedOK n m g -> shardMap hash m k = Some s -> is_Some (s !! k) -> n <= callLimit ->
  shardedOK n (withShard hash m k (Some (delete k s)) (wrapi64 (sd_size m - 1))) (delete k g).
Proof.
  intros Hm Hs [v Hv] Hn. destruct (shardMap_ok _ _ _ k Hm) as (s0 & Hs0 & Hk). assert (s0 = s) as -> by congruence.
  rewrite Hv in Hk. symmetry in Hk. pose proof (so_calls _ _ _ Hm). pose proof (so_size _ _ _ Hm).
  pose proof (map_size_delete_Some k g (mk_is_Some _ _ Hk)) as Hd.
  assert (size g <> 0)%nat. { intros E%map_size_empty_inv. by rewrite E in Hk. }
  unfold callLimit in Hn. apply (withShard_ok n _ m g); [done| | | |lia].
  - intros k' ?. by rewrite lookup_delete_ne.
  - intros s1 Hs1. assert (s1 = s) as -> by congruence. rewrite !lookup_delete_eq. split; [done|].
    intros k' ?. by rewrite lookup_delete_ne.
  - rewrite wrapi64_small by lia. lia.
Qed.

Lemma NoDup_shards (idx : K -> nat) (shards : list (option (gmap K V))) o :
  (forall i s k, shards !! i = Some s -> is_Some (default ∅ s !! k) -> idx k = (o + i)%nat) ->
  NoDup (shards ≫= fun s => iterate (default ∅ s)).
Proof.
  revert o. induction shards as [|s shards IH]; intros o Hidx; cbn; [constructor|].
  assert (Hit : forall s k v, (k, v) ∈ iterate (V := V) s <-> s !! k = Some v)
    by (intros; by rewrite iterate_perm, elem_of_map_to_list).
  apply NoDup_app. split_and!.
  - rewrite iterate_perm. apply NoDup_map_to_list.
  - intros [k v] Hk Hin%list_elem_of_bind. destruct Hin as (s' & Hk' & [i Hi]%list_elem_of_lookup).
    apply Hit in Hk, Hk'.
    pose proof (Hidx 0%nat s k eq_refl (mk_is_Some _ _ Hk)). pose proof (Hidx (S i) s' k Hi (mk_is_Some _ _ Hk')). lia.
  - apply (IH (S o)). intros i s' k Hi Hk. rewrite (Hidx (S i) s' k Hi Hk). lia.
Qed.

Lemma Snapshot_perm n m g : shardedOK n m g -> ShardedSafeMap_Snapshot m ≡ₚ map_to_list g.
Proof.
  intros Hm. assert (Hin : forall i s k v, sd_shards m !! i = Some s ->
    (k, v) ∈ iterate (default ∅ s) <-> ShardIndex hash m k = i /\ g !! k = Some v).
  { intros i s k v Hi. rewrite iterate_perm, elem_of_map_to_list, (so_lookup _ _ _ Hm _ _ _ Hi).
    destruct (decide _); naive_solver. }
  apply NoDup_Permutation; [|apply NoDup_map_to_list|].
  - apply (NoDup_shards (ShardIndex hash m) _ 0). intros i s k Hi [v Hk].
    rewrite (so_lookup _ _ _ Hm _ _ _ Hi) in Hk. destruct (decide _) as [<- |]; done.
  - intros [k v]. rewrite elem_of_map_to_list. unfold ShardedSafeMap_Snapshot. rewrite list_elem_of_bind. split.
    + intros (s & Hk & Hs). apply list_elem_of_lookup in Hs as [i Hi]. by apply (proj1 (Hin i s k v Hi) Hk).
    + intros Hk. destruct (lookup_lt_is_Some_2 _ _ (ShardIndex_range _ _ _ k Hm)) as [s Hs].
      exists s. split; [by apply (Hin _ _ _ _ Hs) | by eapply list_elem_of_lookup_2].
Qed.

Lemma Clear_ok n n' m g : shardedOK n m g -> 0 <= n' -> shardedOK n' (ShardedSafeMap_Clear m) ∅.
Proof.
  intros Hm Hn. split; [| |done|done].
  - destruct (so_width _ _ _ Hm) as (e & ? & ? & ?). exists e. cbn. unfold len. by rewrite length_fmap.
  - intros i s k Hi. cbn in Hi. apply list_lookup_fmap_Some in Hi as (? & -> & _). cbn.
    rewrite !lookup_empty. by destruct (decide _).
Qed.

Lemma NewShardedSafeMap_ok shardCount :
  shardCount <= 2 ^ 62 -> exists m, NewShardedSafeMap shardCount = Some m /\ shardedOK 0 m ∅.
Proof.
  intros Hs. unfold NewShardedSafeMap, normalizeShardCount.
  destruct (nextPowerOfTwo_spec (if shardCount <=? 0 then defaultShardCount else shardCount)) as (e & He & -> & _ & _).
  { destruct (shardCount <=? 0); unfold defaultShardCount; lia. }
  cbn. eexists. split; [done|]. assert (1 <= 2 ^ e <= 2 ^ 62).
  { pose proof (Z.pow_le_mono_r 2 e 62). pose proof (Z.pow_pos_nonneg 2 e). lia. }
  split; cbn [sd_mask sd_shards sd_size]; [| |done|done].
  - exists e. rewrite wrapu_small by (unfold in_u; lia). unfold len. rewrite length_replicate. split_and!; lia.
  - intros i s k Hi. apply lookup_replicate in Hi as [-> _]. cbn. rewrite !lookup_empty. by destruct (decide _).
Qed.

Program Definition ShardedSafeMap_laws : MapLaws K V (ShardedSafeMap K V) (IMap0 := ShardedSafeMap_IMap hash) := {|
  stands n m g := shardedOK n m g |}.
Next Obligation.
  intros n m g k v Hm Hn. destruct (shardMap_ok _ _ _ k Hm) as (s & Hs & _). cbn.
  unfold ShardedSafeMap_Set. rewrite Hs. cbn. eexists. split; [done|]. by apply (withShard_insert n m g k s).
Qed.
Next Obligation.
  intros n m g k Hm. destruct (shardMap_ok _ _ _ k Hm) as (s & Hs & Hk). cbn.
  unfold ShardedSafeMap_Get. rewrite Hs. cbn. by rewrite Hk.
Qed.
Next Obligation.
  intros n m g k Hm Hn. destruct (shardMap_ok _ _ _ k Hm) as (s & Hs & Hk). cbn.
  unfold ShardedSafeMap_Delete. rewrite Hs. cbn. rewrite <- Hk. destruct (s !! k) as [v|] eqn:E.
  - eexists. rewrite bool_decide_true by eauto. split; [done|]. apply (withShard_delete n m g k s); eauto.
  - exists m. rewrite delete_id by congruence. done.
Qed.
Next Obligation. intros n m g Hm _. cbn. unfold ShardedSafeMap_Len. by rewrite (so_size _ _ _ Hm). Qed.
Next Obligation.
  intros n m g Hm. eexists. split; [done|]. apply (Clear_ok n n m g); [done|]. pose proof (so_calls _ _ _ Hm). lia.
Qed.
Next Obligation.
  intros n m g f Hm. exists (ShardedSafeMap_Snapshot m). split; [by eapply Snapshot_perm|]. by destruct f.
Qed.
Next Obligation. intros n n' m g [] Hn. split; [done..|lia]. Qed.

(** [LoadOrStore] keeps what is there and stores what is not. *)
Lemma LoadOrStore_ok n m g k v :
  shardedOK n m g -> n < callLimit ->
  exists m', LoadOrStore hash m k v = Some (m', (default v (g !! k), bool_decide (is_Some (g !! k))))
    /\ shardedOK (n + 1) m' (<[k := default v (g !! k)]> g).
Proof.
  intros Hm Hn. destruct (shardMap_ok _ _ _ k Hm) as (s & Hs & Hk). unfold LoadOrStore. rewrite Hs. cbn.
  destruct (s !! k) as [v0|] eqn:E; rewrite <- Hk; cbn; eexists; (split; [done|]).
  - rewrite <- (insert_id s k v0 E). apply (withShard_insert n m g k s); [done..|by rewrite E].
  - apply (withShard_insert n m g k s); [done..|by rewrite E].
Qed.

(** [Compute] replaces the value of a key by what the callback makes of it. *)
Lemma ShardedSafeMap_Compute_ok n m g k f :
  shardedOK n m g -> n < callLimit ->
  exists m', ShardedSafeMap_Compute hash m k (Some f) = Some (m', f (g !! k))
    /\ shardedOK (n + 1) m' (partial_alter f k g).
Proof.
  intros Hm Hn. destruct (shardMap_ok _ _ _ k Hm) as (s & Hs & Hk). unfold ShardedSafeMap_Compute. rewrite Hs. cbn.
  assert (Hup : shardedOK (n + 1) m g) by (destruct Hm; split; [done..|lia]).
  assert (Hpa : partial_alter f k g = match f (g !! k) with Some v => <[k := v]> g | None => delete k g end).
  { apply map_eq. intros k'. destruct (decide (k' = k)) as [-> |Hne].
    - rewrite lookup_partial_alter_eq. destruct (f (g !! k)); by rewrite ?lookup_insert_eq, ?lookup_delete_eq.
    - rewrite lookup_partial_alter_ne by done. destruct (f (g !! k)); by rewrite ?lookup_insert_ne, ?lookup_delete_ne by done. }
  rewrite Hpa, <- Hk. destruct (f (s !! k)) as [v|], (s !! k) as [v0|] eqn:E; eexists; (split; [done|]).
  - apply (withShard_insert n m g k s); [done..|by rewrite E].
  - apply (withShard_insert n m g k s); [done..|by rewrite E].
  - apply (withShard_delete (n + 1) m g k s); [done|done|eauto|lia].
  - by rewrite delete_id by congruence.
Qed.
End ShardedLaws.

(** The thread-safe maps behave as finite maps: for every sequence of [Set],
    [Get], [Delete], [Len], [Clear] and [Range], starting from a new map, every
    call returns, and the answers are those of a finite map: a [Range] shows
    every entry once, in some order, until its callback refuses one.  For the
    sharded map this holds whatever the number of shards that is asked for and
    the hash function are. *)
Theorem SafeMaps_refine {K V : Type} `{Countable K} `{!MapIteration K V} (hash : K -> Z) shardCount
    (cs : list (mapCall K V)) :
  len cs <= callLimit -> shardCount <= 2 ^ 62 ->
  (exists m answers, callsMap NewSmallSafeMap cs = Some (m, answers) /\ specRun ∅ cs answers)
  /\ exists m0 m answers, NewShardedSafeMap shardCount = Some m0
       /\ callsMap (H := ShardedSafeMap_IMap hash) m0 cs = Some (m, answers) /\ specRun ∅ cs answers.
Proof.
  intros Hcs Hsc. split.
  - apply (IMap_run cs 0); [|lia]. cbn. by rewrite map_to_list_empty.
  - destruct (NewShardedSafeMap_ok (V := V) hash shardCount Hsc) as (m0 & Hm0 & Hok).
    destruct (IMap_run (MapLaws0 := ShardedSafeMap_laws hash) cs 0 m0 ∅ Hok ltac:(lia)) as (m & answers & Hr & Hs).
    by exists m0, m, answers.
Qed.

Module SafeMapSample.
#[local] Program Instance ascending : MapIteration Z Z := { iterate := map_to_list }.
Next Obligation. done. Qed.

Definition calls : list (mapCall Z Z) :=
  [CallSet 1 10; CallSet 2 20; CallSet 1 11; CallDelete 2; CallSet (-3) 30; CallGet 1; CallLen;
   CallRange (Some (fun _ _ => true))].

Lemma SafeMaps_refine_witness :
  len calls <= callLimit
  /\ (exists m answers, callsMap NewSmallSafeMap calls = Some (m, answers) /\ specRun ∅ calls answers)
  /\ exists m0 m answers, NewShardedSafeMap 5 = Some m0
       /\ callsMap (H := ShardedSafeMap_IMap HashInteger) m0 calls = Some (m, answers) /\ specRun ∅ calls answers.
Proof. split; [vm_compute; congruence|]. apply (SafeMaps_refine HashInteger 5 calls); vm_compute; congruence. Defined.

Example small_answers :
  snd <$> callsMap NewSmallSafeMap calls
  = Some [AnsDone; AnsDone; AnsDone; AnsDelete true; AnsDone; AnsGet (Some 11); AnsLen 2;
          AnsRange [(1, 11); (-3, 30)]].
Proof. reflexivity. Qed.
End SafeMapSample.
