(* ===== verification/FastMap.v ===== *)
(** * The open-addressing map

    [src/map/fast_map.go]: keys, values and states in three parallel slices
    whose length is a power of two, linear probing from the hash of the key,
    deleted slots that stay as tombstones, and a rehash when too few slots were
    never used.  The maps of this file keep the promise of [IMap]; the argument
    is that every key is reached from its home through slots that are not empty,
    and that there always is an empty slot at which a probe ends. *)

From stdpp Require Import base list gmap.
From Stdlib Require Import ZArith Lia.
From S2P Require Import Prelude IMap.

#[local] Open Scope Z_scope.

Definition slotEmpty : Z := 0.
Definition slotFilled : Z := 1.
Definition slotDeleted : Z := 2.

Definition minFastMapCapacity : Z := 8.
Definition fastMapLoadPercent : Z := 75.
Definition fastMapRehashFactor : Z := 2.

(** [fastMapCapacityForHint]: the loop doubles until the load fits, in at most
    64 rounds. *)
Fixpoint growCapacity (fuel : nat) (capacity capHint : Z) : option Z :=
  match fuel with
  | O => None
  | S fuel =>
      if Z.quot (wrapi64 (capacity * fastMapLoadPercent)) 100 <? capHint
      then growCapacity fuel (wrapi64 (Z.shiftl capacity 1)) capHint
      else Some capacity
  end.

Definition fastMapCapacityForHint (capHint : Z) : option Z :=
  growCapacity 65 minFastMapCapacity (if capHint <? 0 then 0 else capHint).

Section FastMap.
Context {K V : Type} `{EqDecision K} (zeroK : K) (zeroV : V) (hash : K -> Z).

Record FastMap := mkFast {
  fm_keys : list K;
  fm_values : list V;
  fm_states : list Z;
  fm_size : Z;
  fm_used : Z }.
Implicit Type m : FastMap.

(** Fresh slices of a capacity. *)
Definition emptySlots (capacity : Z) : FastMap :=
  let n := Z.to_nat capacity in mkFast (replicate n zeroK) (replicate n zeroV) (replicate n slotEmpty) 0 0.

Definition NewFastMap (capHint : Z) : option FastMap :=
  capacity ← fastMapCapacityForHint capHint; Some (emptySlots capacity).

Definition mask m : Z := u64! (len (fm_states m) - 1).
Definition homeOf m (key : K) : Z := Z.land (hash key) (mask m).
Definition nextIdx m (idx : Z) : Z := Z.land (u64! (idx + 1)) (mask m).

(** [findExisting]: one round of the loop per unit of fuel. *)
Fixpoint probeExisting (fuel : nat) m (key : K) (idx : Z) : option (Z * bool) :=
  match fuel with
  | O => None
  | S fuel =>
      state ← fm_states m !! Z.to_nat idx;
      k ← fm_keys m !! Z.to_nat idx;
      if state =? slotEmpty then Some (0, false)
      else if (state =? slotFilled) && bool_decide (k = key) then Some (idx, true)
      else probeExisting fuel m key (nextIdx m idx)
  end.

Definition findExisting m (key : K) : option (Z * bool) :=
  probeExisting (length (fm_states m)) m key (homeOf m key).

(** [findSlot]: as [findExisting], with the first tombstone that was passed. *)
Fixpoint probeSlot (fuel : nat) m (key : K) (idx firstDeleted : Z) : option (Z * bool) :=
  match fuel with
  | O => None
  | S fuel =>
      state ← fm_states m !! Z.to_nat idx;
      k ← fm_keys m !! Z.to_nat idx;
      if state =? slotEmpty then Some (if 0 <=? firstDeleted then firstDeleted else idx, false)
      else if (state =? slotFilled) && bool_decide (k = key) then Some (idx, true)
      else probeSlot fuel m key (nextIdx m idx)
             (if (state =? slotDeleted) && (firstDeleted <? 0) then idx else firstDeleted)
  end.

Definition findSlot m (key : K) : option (Z * bool) :=
  probeSlot (length (fm_states m)) m key (homeOf m key) (-1).

Definition setNoGrow m (key : K) (value : V) : option FastMap :=
  '(idx, found) ← findSlot m key;
  let i := Z.to_nat idx in
  if (found : bool) then
    Some (mkFast (fm_keys m) (<[i := value]> (fm_values m)) (fm_states m) (fm_size m) (fm_used m))
  else
    state ← fm_states m !! i;
    Some (mkFast (<[i := key]> (fm_keys m)) (<[i := value]> (fm_values m)) (<[i := slotFilled]> (fm_states m))
            (fm_size m + 1) (if state =? slotEmpty then fm_used m + 1 else fm_used m)).

(** The slots of the slices, one after the other. *)
Definition slots m : list (Z * (K * V)) := zip (fm_states m) (zip (fm_keys m) (fm_values m)).

Definition filledEntry (s : Z * (K * V)) : option (K * V) := if s.1 =? slotFilled then Some s.2 else None.

Definition entries m : list (K * V) := omap filledEntry (slots m).

Fixpoint setAll m (l : list (K * V)) : option FastMap :=
  match l with
  | [] => Some m
  | (k, v) :: l => m ← setNoGrow m k v; setAll m l
  end.

Definition rehash m (capacity : Z) : option FastMap :=
  let capacity := if capacity <? minFastMapCapacity then minFastMapCapacity else capacity in
  capacity ← nextPowerOfTwo capacity;
  setAll (emptySlots capacity) (entries m).

Definition ensureWritable m : option FastMap :=
  let n := len (fm_states m) in
  if n =? 0 then rehash m minFastMapCapacity
  else if wrapi64 ((fm_used m + 1) * 100) <=? wrapi64 (n * fastMapLoadPercent) then Some m
  else rehash m (if wrapi64 (fm_size m * 100) <? wrapi64 (n * (fastMapLoadPercent / 2)) then n
                 else wrapi64 (n * fastMapRehashFactor)).

(** [Set]: the body after [ensureWritable] is that of [setNoGrow]. *)
Definition FastMap_Set m (key : K) (value : V) : option FastMap :=
  m ← ensureWritable m; setNoGrow m key value.

Definition FastMap_Get m (key : K) : option (option V) :=
  if len (fm_states m) =? 0 then Some None else
  '(idx, found) ← findExisting m key;
  if (found : bool) then Some <$> fm_values m !! Z.to_nat idx else Some None.

Definition FastMap_Clear m : FastMap := mkFast [] [] [] 0 0.

Definition FastMap_Delete m (key : K) : option (FastMap * bool) :=
  if len (fm_states m) =? 0 then Some (m, false) else
  '(idx, found) ← findExisting m key;
  if (found : bool) then
    let i := Z.to_nat idx in
    let m := mkFast (<[i := zeroK]> (fm_keys m)) (<[i := zeroV]> (fm_values m)) (<[i := slotDeleted]> (fm_states m))
               (fm_size m - 1) (fm_used m) in
    Some (if fm_size m =? 0 then FastMap_Clear m else m, true)
  else Some (m, false).

Definition FastMap_Len m : Z := fm_size m.

Definition FastMap_Cap m : Z := len (fm_states m).

Definition FastMap_Range m (f : option (K -> V -> bool)) : list (K * V) :=
  match f with Some f => visited f (entries m) | None => [] end.

Definition FastMap_IMap : IMap K V FastMap := {|
  Map_Set := FastMap_Set;
  Map_Get := FastMap_Get;
  Map_Delete := FastMap_Delete;
  Map_Len m := Some (FastMap_Len m);
  Map_Clear m := Some (FastMap_Clear m);
  Map_Range m f := Some (FastMap_Range m f) |}.
End FastMap.
Arguments FastMap : clear implicits.

(** ** Probing *)

Section Probing.
Context {K V : Type} `{Countable K} (zeroK : K) (zeroV : V) (hash : K -> Z).
Implicit Type m : FastMap K V.

Abbreviation capOf m := (len (fm_states m)).

(** The three slices have one length, a power of two. *)
Record shaped m : Prop := {
  sh_keys : length (fm_keys m) = length (fm_states m);
  sh_values : length (fm_values m) = length (fm_states m);
  sh_cap : exists e, 3 <= e <= 61 /\ capOf m = 2 ^ e }.

(** The slot a probe for [k] looks at in its round [j]. *)
Definition pathAt m (k : K) (j : Z) : Z := (hash k + j) mod capOf m.

Definition stateIs m (i s : Z) : Prop := fm_states m !! Z.to_nat i = Some s.
Definition keyIs m (i : Z) (k : K) : Prop := fm_keys m !! Z.to_nat i = Some k.
Definition holds m (i : Z) (k : K) : Prop := stateIs m i slotFilled /\ keyIs m i k.
Definition stops m (k : K) (i : Z) : Prop := stateIs m i slotEmpty \/ holds m i k.

#[global] Instance stops_dec m k i : Decision (stops m k i).
Proof. unfold stops, holds, stateIs, keyIs. apply _. Defined.

Lemma cap_bounds m : shaped m -> 8 <= capOf m <= 2 ^ 61.
Proof.
  intros [_ _ (e & He & ->)]. pose proof (Z.pow_le_mono_r 2 3 e). pose proof (Z.pow_le_mono_r 2 e 61). lia.
Qed.

Lemma land_probe_mask m x : shaped m -> Z.land x (mask m) = x mod capOf m.
Proof.
  intros Hm. pose proof (cap_bounds m Hm). destruct (sh_cap _ Hm) as (e & He & Hc). unfold mask.
  rewrite wrapu_small by (unfold in_u; lia). rewrite Hc, <- Z.land_ones by lia. f_equal. rewrite Z.ones_equiv. lia.
Qed.

Lemma path_range m k j : shaped m -> 0 <= pathAt m k j < capOf m.
Proof. intros Hm%cap_bounds. apply Z.mod_pos_bound. lia. Qed.

Lemma homeOf_path m k : shaped m -> homeOf hash m k = pathAt m k 0.
Proof. intros Hm. unfold homeOf, pathAt. by rewrite land_probe_mask, Z.add_0_r. Qed.

Lemma nextIdx_path m k j : shaped m -> nextIdx m (pathAt m k j) = pathAt m k (j + 1).
Proof.
  intros Hm. unfold nextIdx. rewrite land_probe_mask by done. pose proof (path_range m k j Hm). pose proof (cap_bounds m Hm).
  rewrite wrapu_small by (unfold in_u; lia). unfold pathAt. rewrite Z.add_mod_idemp_l by lia. f_equal. lia.
Qed.

Lemma path_onto m k i : shaped m -> 0 <= i < capOf m -> exists j, 0 <= j < capOf m /\ pathAt m k j = i.
Proof.
  intros Hm%cap_bounds Hi. exists ((i - hash k) mod capOf m). split; [apply Z.mod_pos_bound; lia|].
  unfold pathAt. rewrite Z.add_mod_idemp_r by lia. replace (hash k + (i - hash k)) with i by lia. by apply Z.mod_small.
Qed.

Lemma slot_is m i : shaped m -> 0 <= i < capOf m -> exists s k, stateIs m i s /\ keyIs m i k.
Proof.
  intros Hm Hi. unfold stateIs, keyIs, len in *.
  destruct (lookup_lt_is_Some_2 (fm_states m) (Z.to_nat i)) as [s ->]; [lia|].
  destruct (lookup_lt_is_Some_2 (fm_keys m) (Z.to_nat i)) as [k ->]; [rewrite (sh_keys _ Hm); lia|]. eauto.
Qed.

(** The round in which a probe ends. *)
Definition firstStop m (k : K) (d : Z) : Prop :=
  0 <= d < capOf m /\ stops m k (pathAt m k d) /\ forall x, 0 <= x < d -> ~ stops m k (pathAt m k x).

Lemma first_stop m k i : shaped m -> 0 <= i < capOf m -> stateIs m i slotEmpty -> exists d, firstStop m k d.
Proof.
  intros Hm Hi He. destruct (path_onto m k i Hm Hi) as (j & Hj & <-).
  assert (Hleast : forall n : nat, (forall x, 0 <= x < Z.of_nat n -> ~ stops m k (pathAt m k x))
    \/ exists d, 0 <= d < Z.of_nat n /\ stops m k (pathAt m k d) /\ forall x, 0 <= x < d -> ~ stops m k (pathAt m k x)).
  { induction n as [|n [IH | (d & Hd & IH)]]; [left; lia | | right; exists d; split; [lia|done]].
    destruct (decide (stops m k (pathAt m k (Z.of_nat n)))) as [Hs | Hs].
    - right. exists (Z.of_nat n). split; [lia|]. done.
    - left. intros x Hx. destruct (decide (x = Z.of_nat n)) as [-> |]; [done|]. apply IH. lia. }
  destruct (Hleast (length (fm_states m))) as [Hno | (d & Hd)]; [|by exists d].
  exfalso. apply (Hno j); [done|]. by left.
Qed.

Lemma probeExisting_stop m k d fuel j :
  shaped m -> firstStop m k d -> 0 <= j <= d -> d < j + Z.of_nat fuel ->
  (stateIs m (pathAt m k d) slotEmpty /\ probeExisting fuel m k (pathAt m k j) = Some (0, false))
  \/ (holds m (pathAt m k d) k /\ probeExisting fuel m k (pathAt m k j) = Some (pathAt m k d, true)).
Proof.
  intros Hm (Hd & Hs & Hno). revert j. induction fuel as [|fuel IH]; intros j Hj Hf; [lia|]. cbn [probeExisting].
  destruct (slot_is m (pathAt m k j) Hm (path_range m k j Hm)) as (s & k' & Hst & Hkey).
  destruct (decide (j = d)) as [-> | Hne].
  - destruct Hs as [He | [Hf1 Hk]]; [left | right].
    + unfold stateIs, keyIs in *. rewrite He, Hkey. done.
    + unfold holds, stateIs, keyIs in *. rewrite Hf1, Hk. cbn. rewrite bool_decide_true by done. done.
  - pose proof (Hno j ltac:(lia)) as Hn. unfold stops, holds, stateIs, keyIs in Hn, Hst, Hkey.
    rewrite Hst, Hkey. cbn. rewrite Hst, Hkey in Hn.
    destruct (Z.eqb_spec s slotEmpty) as [-> |]; [destruct Hn; by left|].
    rewrite (nextIdx_path m k j Hm).
    assert ((s =? slotFilled) && bool_decide (k' = k) = false) as ->.
    { apply andb_false_iff. destruct (Z.eqb_spec s slotFilled) as [-> |]; [right | by left].
      apply bool_decide_eq_false. intros ->. apply Hn. by right. }
    apply IH; lia.
Qed.

(** A slot a key may be put into: free, and reached through slots in use. *)
Definition freeFor m (k : K) (t : Z) : Prop :=
  (exists f, 0 <= f < capOf m /\ t = pathAt m k f /\ forall x, 0 <= x < f -> ~ stateIs m (pathAt m k x) slotEmpty)
  /\ ~ stateIs m t slotFilled.

Lemma probeSlot_stop m k d fuel j fd :
  shaped m -> firstStop m k d -> 0 <= j <= d -> d < j + Z.of_nat fuel -> (0 <= fd -> freeFor m k fd) ->
  (stateIs m (pathAt m k d) slotEmpty /\ exists t, probeSlot fuel m k (pathAt m k j) fd = Some (t, false) /\ freeFor m k t)
  \/ (holds m (pathAt m k d) k /\ probeSlot fuel m k (pathAt m k j) fd = Some (pathAt m k d, true)).
Proof.
  intros Hm (Hd & Hs & Hno). revert j fd. induction fuel as [|fuel IH]; intros j fd Hj Hf Hfd; [lia|]. cbn [probeSlot].
  destruct (slot_is m (pathAt m k j) Hm (path_range m k j Hm)) as (s & k' & Hst & Hkey).
  assert (Hfree : s <> slotFilled -> freeFor m k (pathAt m k j)).
  { intros Hns. split; [|unfold stateIs in *; congruence]. exists j. split_and!; [lia..|done|].
    intros x Hx He. apply (Hno x); [lia|]. by left. }
  destruct (decide (j = d)) as [-> | Hne].
  - destruct Hs as [He | [Hf1 Hk]]; [left | right].
    + split; [done|]. assert (s = slotEmpty) as -> by (unfold stateIs in *; congruence).
      unfold stateIs, keyIs in Hst, Hkey. rewrite Hst, Hkey. cbn. eexists. split; [done|].
      destruct (Z.leb_spec 0 fd); [auto | by apply Hfree].
    + unfold holds, stateIs, keyIs in *. rewrite Hf1, Hk. cbn. rewrite bool_decide_true by done. done.
  - pose proof (Hno j ltac:(lia)) as Hn. unfold stops, holds, stateIs, keyIs in Hn, Hst, Hkey.
    rewrite Hst, Hkey. cbn. rewrite Hst, Hkey in Hn.
    destruct (Z.eqb_spec s slotEmpty) as [-> |]; [destruct Hn; by left|].
    rewrite (nextIdx_path m k j Hm).
    assert ((s =? slotFilled) && bool_decide (k' = k) = false) as ->.
    { apply andb_false_iff. destruct (Z.eqb_spec s slotFilled) as [-> |]; [right | by left].
      apply bool_decide_eq_false. intros ->. apply Hn. by right. }
    apply IH; [lia..|]. destruct (Z.eqb_spec s slotDeleted) as [-> |]; cbn; [|done].
    destruct (Z.ltb_spec fd 0); [|done]. intros _. by apply Hfree.
Qed.

(** ** The invariant *)

Definition inUse (s : Z) : nat := if s =? slotEmpty then 0%nat else 1%nat.

Record tableOK m : Prop := {
  to_shaped : shaped m;
  to_keys : NoDup (entries m).*1;
  to_size : fm_size m = len (entries m);
  to_used : fm_used m = Z.of_nat (sum_list_with inUse (fm_states m));
  to_path i k : 0 <= i < capOf m -> holds m i k ->
    exists d, 0 <= d < capOf m /\ i = pathAt m k d /\ forall x, 0 <= x < d -> ~ stateIs m (pathAt m k x) slotEmpty }.

Lemma has_empty (states : list Z) :
  (sum_list_with inUse states < length states)%nat -> exists i, states !! i = Some slotEmpty.
Proof.
  induction states as [|s states IH]; cbn; [lia|]. unfold inUse at 1. destruct (Z.eqb_spec s slotEmpty) as [-> |].
  - intros _. by exists 0%nat.
  - intros Hlt. destruct IH as [i Hi]; [lia|]. by exists (S i).
Qed.

Lemma stops_somewhere m k : tableOK m -> fm_used m < capOf m -> exists d, firstStop m k d.
Proof.
  intros Hm Hu. rewrite (to_used _ Hm) in Hu. unfold len in Hu.
  destruct (has_empty (fm_states m)) as [i Hi]; [lia|]. pose proof (lookup_lt_Some _ _ _ Hi).
  apply (first_stop m k (Z.of_nat i)); [apply Hm | unfold len; lia |]. unfold stateIs. by rewrite Nat2Z.id.
Qed.

(** What is known of the slot at an index. *)
Lemma fastSlots_lookup m i s k v :
  slots m !! i = Some (s, (k, v)) <-> fm_states m !! i = Some s /\ fm_keys m !! i = Some k /\ fm_values m !! i = Some v.
Proof. unfold slots. rewrite !lookup_zip_Some. naive_solver. Qed.

Lemma slot_at m i : shaped m -> 0 <= i < capOf m -> exists s k v, slots m !! Z.to_nat i = Some (s, (k, v)).
Proof.
  intros Hm Hi. destruct (slot_is m i Hm Hi) as (s & k & Hs & Hk).
  destruct (lookup_lt_is_Some_2 (fm_values m) (Z.to_nat i)) as [v Hv].
  { rewrite (sh_values _ Hm). unfold len in Hi. lia. }
  exists s, k, v. by apply fastSlots_lookup.
Qed.

Lemma entries_at m i k v : slots m !! i = Some (slotFilled, (k, v)) -> (k, v) ∈ entries m.
Proof. intros Hi. apply list_elem_of_omap. exists (slotFilled, (k, v)). split; [by eapply list_elem_of_lookup_2 | done]. Qed.

Lemma entries_inv m k v : (k, v) ∈ entries m -> exists i, slots m !! i = Some (slotFilled, (k, v)).
Proof.
  intros ([s e] & Hin & He)%list_elem_of_omap. unfold filledEntry in He. cbn in He.
  destruct (Z.eqb_spec s slotFilled) as [-> |]; [|done]. injection He as ->. by apply list_elem_of_lookup in Hin.
Qed.

Lemma omap_insert_perm {A B} (f : A -> option B) (l : list A) i x :
  l !! i = Some x -> exists rest, omap f l ≡ₚ option_list (f x) ++ rest
    /\ forall y, omap f (<[i := y]> l) ≡ₚ option_list (f y) ++ rest.
Proof.
  intros Hi. exists (omap f (take i l) ++ omap f (drop (S i) l)).
  assert (Hone : forall y, omap f (take i l ++ y :: drop (S i) l) ≡ₚ option_list (f y) ++ omap f (take i l) ++ omap f (drop (S i) l)).
  { intros y. rewrite omap_app. cbn. destruct (f y); cbn; [by rewrite <- Permutation_middle | done]. }
  split; [rewrite <- Hone; by rewrite take_drop_middle|]. intros y.
  rewrite insert_take_drop by (by eapply lookup_lt_Some). apply Hone.
Qed.

Lemma omap_key_later {A} (f : A -> option (K * V)) (l : list A) i j x y k v v' :
  NoDup (omap f l).*1 -> (i < j)%nat -> l !! i = Some x -> l !! j = Some y ->
  f x = Some (k, v) -> f y = Some (k, v') -> False.
Proof.
  intros Hnd Hij Hi Hj Hx Hy. rewrite <- (take_drop_middle l i x Hi), omap_app in Hnd. cbn in Hnd. rewrite Hx in Hnd.
  rewrite fmap_app in Hnd. apply NoDup_app in Hnd as (_ & _ & Hnd). apply NoDup_cons in Hnd as [Hnot _].
  apply Hnot, list_elem_of_fmap. exists (k, v'). split; [done|]. apply list_elem_of_omap. exists y. split; [|done].
  apply list_elem_of_lookup. exists (j - S i)%nat. rewrite lookup_drop. by replace (S i + (j - S i))%nat with j by lia.
Qed.

Lemma key_once m i j k v v' :
  NoDup (entries m).*1 -> slots m !! i = Some (slotFilled, (k, v)) -> slots m !! j = Some (slotFilled, (k, v')) -> i = j.
Proof.
  intros Hnd Hi Hj. destruct (lt_eq_lt_dec i j) as [[Hlt | ->] | Hlt]; [exfalso | done | exfalso].
  - by eapply (omap_key_later filledEntry (slots m) i j).
  - by eapply (omap_key_later filledEntry (slots m) j i).
Qed.

Lemma slot_index m i x : shaped m -> slots m !! i = Some x -> 0 <= Z.of_nat i < capOf m.
Proof.
  intros Hm Hi. apply lookup_lt_Some in Hi. unfold slots in Hi.
  rewrite !length_zip_with, (sh_keys _ Hm), (sh_values _ Hm) in Hi. unfold len. lia.
Qed.

(** Where a probe ends: at the slot of the key, or at an empty slot when the key
    is nowhere. *)
Lemma stop_absent m k d v :
  tableOK m -> firstStop m k d -> stateIs m (pathAt m k d) slotEmpty -> (k, v) ∉ entries m.
Proof.
  intros Hm (Hd & _ & Hno) He Hin. apply entries_inv in Hin as [i Hi].
  pose proof (slot_index m i _ (to_shaped _ Hm) Hi) as Hr. apply fastSlots_lookup in Hi as (Hs & Hk & _).
  assert (Hh : holds m (Z.of_nat i) k) by (unfold holds, stateIs, keyIs; by rewrite Nat2Z.id).
  destruct (to_path _ Hm _ _ Hr Hh) as (d0 & Hd0 & Hi & Hne).
  destruct (Z.lt_trichotomy d d0) as [Hlt | [-> | Hlt]].
  - by apply (Hne d); [lia|].
  - rewrite <- Hi in He. destruct Hh as [Hh _]. unfold stateIs in *. rewrite He in Hh. done.
  - apply (Hno d0); [lia|]. right. by rewrite <- Hi.
Qed.

Lemma holds_slot m i k : shaped m -> 0 <= i < capOf m -> holds m i k -> exists v, slots m !! Z.to_nat i = Some (slotFilled, (k, v)).
Proof.
  intros Hm Hi [Hs Hk]. destruct (slot_at m i Hm Hi) as (s & k' & v & Hl). exists v.
  pose proof Hl as (Hs' & Hk' & _)%fastSlots_lookup. unfold stateIs, keyIs in *. by simplify_eq.
Qed.

(** ** Writing a slot *)

Definition putSlot m (i : nat) (s : Z) (k : K) (v : V) (size used : Z) : FastMap K V :=
  mkFast (<[i := k]> (fm_keys m)) (<[i := v]> (fm_values m)) (<[i := s]> (fm_states m)) size used.

Lemma slots_put m i s k v size used : slots (putSlot m i s k v size used) = <[i := (s, (k, v))]> (slots m).
Proof. unfold slots, putSlot. cbn. by rewrite <- !insert_zip_with. Qed.

Lemma putSlot_ok m i s k v size used s0 k0 v0 :
  tableOK m -> slots m !! i = Some (s0, (k0, v0)) -> s <> slotEmpty ->
  let m' := putSlot m i s k v size used in
  NoDup (entries m').*1 -> size = len (entries m') ->
  used = (if s0 =? slotEmpty then fm_used m + 1 else fm_used m) ->
  (s = slotFilled -> exists f, 0 <= f < capOf m /\ Z.of_nat i = pathAt m k f
     /\ forall x, 0 <= x < f -> ~ stateIs m (pathAt m k x) slotEmpty) ->
  tableOK m'.
Proof.
  intros Hm Hi Hs m' Hnd Hsz Hu Hpath. pose proof Hi as (Hst & Hk0 & Hv0)%fastSlots_lookup.
  assert (Hcap : capOf m' = capOf m) by (unfold m'; cbn; apply len_insert).
  assert (Hemp : forall x, stateIs m' x slotEmpty -> stateIs m x slotEmpty).
  { intros x. unfold stateIs, m'. cbn. destruct (decide (i = Z.to_nat x)) as [-> |].
    - rewrite list_lookup_insert_eq by (by eapply lookup_lt_Some). congruence.
    - by rewrite list_lookup_insert_ne. }
  split; [| done | done | |].
  - split; [unfold m'; cbn; rewrite !length_insert; apply Hm.. |]. rewrite Hcap. apply Hm.
  - pose proof (sum_insert inUse (fm_states m) i s0 s Hst) as Hsum. cbn. rewrite Hu, (to_used _ Hm).
    assert (inUse s = 1%nat) as E by (unfold inUse; by destruct (Z.eqb_spec s slotEmpty)). rewrite E in Hsum.
    unfold inUse at 2 in Hsum. destruct (s0 =? slotEmpty); lia.
  - intros j k' Hj [Hsj Hkj]. rewrite Hcap in Hj |- *. unfold pathAt. rewrite Hcap.
    assert (Hgo : exists d, 0 <= d < capOf m /\ j = pathAt m k' d
      /\ forall x, 0 <= x < d -> ~ stateIs m (pathAt m k' x) slotEmpty).
    { unfold stateIs, keyIs, m' in Hsj, Hkj. cbn in Hsj, Hkj. destruct (decide (i = Z.to_nat j)) as [-> |Hne].
      - rewrite list_lookup_insert_eq in Hsj by (by eapply lookup_lt_Some).
        rewrite list_lookup_insert_eq in Hkj by (by eapply lookup_lt_Some). simplify_eq.
        rewrite Z2Nat.id in Hpath by lia. by apply Hpath.
      - rewrite list_lookup_insert_ne in Hsj by done. rewrite list_lookup_insert_ne in Hkj by done. by apply (to_path _ Hm). }
    destruct Hgo as (d & Hd & Hj' & Hne). exists d. split_and!; [lia..|done|]. intros x Hx He%Hemp. by apply (Hne x).
Qed.

(** The slot a probe of [findSlot] and of [findExisting] ends at. *)
Lemma findExisting_cases m k :
  tableOK m -> fm_used m < capOf m ->
  ((forall v, (k, v) ∉ entries m) /\ findExisting hash m k = Some (0, false))
  \/ exists i v, slots m !! i = Some (slotFilled, (k, v)) /\ findExisting hash m k = Some (Z.of_nat i, true).
Proof.
  intros Hm Hu. pose proof (to_shaped _ Hm) as Hsh. destruct (stops_somewhere m k Hm Hu) as [d Hd].
  unfold findExisting. rewrite (homeOf_path m k Hsh).
  assert (0 <= d < capOf m) by apply Hd.
  destruct (probeExisting_stop m k d (length (fm_states m)) 0 Hsh Hd) as [[He ->] | [Hh ->]]; [lia|unfold len in *; lia|left|right].
  - split; [|done]. intros v. by apply (stop_absent m k d).
  - pose proof (path_range m k d Hsh) as Hr. destruct (holds_slot m _ k Hsh Hr Hh) as [v Hv].
    exists (Z.to_nat (pathAt m k d)), v. split; [done|]. by rewrite Z2Nat.id by lia.
Qed.

Lemma findSlot_cases m k :
  tableOK m -> fm_used m < capOf m ->
  ((forall v, (k, v) ∉ entries m) /\ exists t, findSlot hash m k = Some (t, false) /\ freeFor m k t)
  \/ exists i v, slots m !! i = Some (slotFilled, (k, v)) /\ findSlot hash m k = Some (Z.of_nat i, true).
Proof.
  intros Hm Hu. pose proof (to_shaped _ Hm) as Hsh. destruct (stops_somewhere m k Hm Hu) as [d Hd].
  unfold findSlot. rewrite (homeOf_path m k Hsh).
  assert (0 <= d < capOf m) by apply Hd.
  destruct (probeSlot_stop m k d (length (fm_states m)) 0 (-1) Hsh Hd) as [[He Ht] | [Hh ->]];
    [lia|unfold len in *; lia|lia|left|right].
  - split; [|done]. intros v. by apply (stop_absent m k d).
  - pose proof (path_range m k d Hsh) as Hr. destruct (holds_slot m _ k Hsh Hr Hh) as [v Hv].
    exists (Z.to_nat (pathAt m k d)), v. split; [done|]. by rewrite Z2Nat.id by lia.
Qed.

(** ** The operations *)

Lemma setNoGrow_ok m k v g :
  tableOK m -> fm_used m < capOf m -> entries m ≡ₚ map_to_list g ->
  exists m', setNoGrow hash m k v = Some m' /\ tableOK m' /\ entries m' ≡ₚ map_to_list (<[k := v]> g)
    /\ capOf m' = capOf m /\ fm_used m' <= fm_used m + 1.
Proof.
  intros Hm Hu Hg. pose proof (to_shaped _ Hm) as Hsh. unfold setNoGrow.
  destruct (findSlot_cases m k Hm Hu) as [[Habs (t & -> & (f & Hf & -> & Hreach) & Hfree)] | (i & v0 & Hi & ->)]; cbn.
  - pose proof (path_range m k f Hsh) as Hr.
    destruct (slot_at m (pathAt m k f) Hsh Hr) as (s0 & k0 & v0 & Hi). set (i := Z.to_nat (pathAt m k f)) in *.
    pose proof Hi as (Hst & _ & _)%fastSlots_lookup. rewrite Hst. cbn. eexists. split; [done|].
    assert (Hk : g !! k = None).
    { destruct (g !! k) as [v1|] eqn:E; [|done]. apply (entries_lookup _ _ _ _ Hg) in E. by apply Habs in E. }
    destruct (omap_insert_perm filledEntry (slots m) i _ Hi) as (rest & Hold & Hnew).
    assert (He0 : filledEntry (s0, (k0, v0)) = None).
    { unfold filledEntry. cbn. destruct (Z.eqb_spec s0 slotFilled) as [-> |]; [|done]. by destruct Hfree. }
    rewrite He0 in Hold. cbn in Hold.
    change (mkFast _ _ _ _ _) with (putSlot m i slotFilled k v (fm_size m + 1) (if s0 =? slotEmpty then fm_used m + 1 else fm_used m)).
    set (m' := putSlot _ _ _ _ _ _ _). assert (Hents : entries m' ≡ₚ (k, v) :: entries m).
    { unfold entries, m'. rewrite slots_put, Hnew, Hold. done. }
    assert (Hg' : entries m' ≡ₚ map_to_list (<[k := v]> g)) by (rewrite Hents; by apply entries_insert).
    split_and!; [|done|cbn; apply len_insert|cbn; destruct (s0 =? slotEmpty); lia].
    apply (putSlot_ok m i slotFilled k v _ _ s0 k0 v0 Hm Hi); [done | by eapply entries_NoDup | | done |].
    + fold m'. unfold len. rewrite Hents. rewrite (to_size _ Hm). unfold len. cbn. lia.
    + intros _. exists f. split; [done|]. split; [unfold i; lia|done].
  - rewrite Nat2Z.id. eexists. split; [done|].
    pose proof Hi as (Hst & Hk0 & _)%fastSlots_lookup.
    assert (Hput : mkFast (fm_keys m) (<[i := v]> (fm_values m)) (fm_states m) (fm_size m) (fm_used m)
      = putSlot m i slotFilled k v (fm_size m) (fm_used m)).
    { unfold putSlot. by rewrite (list_insert_id _ _ _ Hst), (list_insert_id _ _ _ Hk0). }
    rewrite Hput. set (m' := putSlot _ _ _ _ _ _ _).
    destruct (omap_insert_perm filledEntry (slots m) i _ Hi) as (rest & Hold & Hnew). cbn in Hold.
    assert (Hents : entries m' ≡ₚ (k, v) :: rest) by (unfold entries, m'; by rewrite slots_put, Hnew).
    assert (Hg' : entries m' ≡ₚ map_to_list (<[k := v]> g)).
    { rewrite Hents. apply entries_update with v0. by rewrite <- Hold. }
    split_and!; [|done|cbn; apply len_insert|cbn; lia].
    apply (putSlot_ok m i slotFilled k v _ _ slotFilled k v0 Hm Hi); [done | by eapply entries_NoDup | | done |].
    + fold m'. unfold len. rewrite Hents, (to_size _ Hm). unfold len, entries. by rewrite Hold.
    + intros _. apply (to_path _ Hm); [by eapply slot_index|]. unfold holds, stateIs, keyIs. by rewrite Nat2Z.id.
Qed.

Lemma setAll_ok l m :
  tableOK m -> NoDup (l ++ entries m).*1 -> fm_used m + len l <= capOf m ->
  exists m', setAll hash m l = Some m' /\ tableOK m' /\ entries m' ≡ₚ l ++ entries m
    /\ capOf m' = capOf m /\ fm_used m' <= fm_used m + len l.
Proof.
  revert m. induction l as [|[k v] l IH]; intros m Hm Hnd Hcap.
  { exists m. cbn. rewrite len_nil. split_and!; done || lia. }
  rewrite len_cons in *. pose proof (len_nonneg l). cbn [setAll].
  cbn in Hnd. apply NoDup_cons in Hnd as [Hk Hnd].
  pose proof (NoDup_keys_entries _ (to_keys _ Hm)) as Hg. set (g := list_to_map (entries m)) in *.
  destruct (setNoGrow_ok m k v g Hm ltac:(lia) Hg) as (m1 & -> & Hm1 & He1 & Hc1 & Hu1). cbn.
  assert (Hgk : g !! k = None).
  { destruct (g !! k) as [v1|] eqn:E; [|done]. apply (entries_lookup _ _ _ _ Hg) in E. destruct Hk.
    rewrite fmap_app. apply elem_of_app. right. by apply (list_elem_of_fmap_2 fst _ (k, v1)). }
  rewrite <- (entries_insert _ _ _ _ Hg Hgk) in He1.
  destruct (IH m1 Hm1) as (m2 & Hs2 & Hm2 & He2 & Hc2 & Hu2).
  - rewrite He1, <- Permutation_middle. by constructor.
  - rewrite Hc1. lia.
  - exists m2. split; [done|]. split; [done|]. split; [|lia]. rewrite He2, He1. by rewrite <- Permutation_middle.
Qed.

Lemma fastSlots_empty cap : slots (emptySlots zeroK zeroV cap) = replicate (Z.to_nat cap) (slotEmpty, (zeroK, zeroV)).
Proof. unfold slots, emptySlots. cbn. by rewrite !zip_with_replicate. Qed.

Lemma entries_empty cap : entries (emptySlots zeroK zeroV cap) = [].
Proof. unfold entries. rewrite fastSlots_empty. by induction (Z.to_nat cap). Qed.

Lemma fastEmpty_ok e :
  3 <= e <= 61 ->
  tableOK (emptySlots zeroK zeroV (2 ^ e)) /\ capOf (emptySlots zeroK zeroV (2 ^ e)) = 2 ^ e.
Proof.
  intros He. pose proof (Z.pow_pos_nonneg 2 e).
  assert (Hcap : capOf (emptySlots zeroK zeroV (2 ^ e)) = 2 ^ e).
  { unfold emptySlots, len. cbn. rewrite length_replicate. lia. }
  split; [|done]. split.
  - split; [cbn; by rewrite !length_replicate.. |]. eauto.
  - rewrite entries_empty. constructor.
  - by rewrite entries_empty.
  - cbn. by induction (Z.to_nat (2 ^ e)).
  - intros i k _ [Hs _]. unfold stateIs in Hs. cbn in Hs. by apply lookup_replicate in Hs as [? _].
Qed.

Lemma rehash_ok m e g :
  3 <= e <= 61 -> entries m ≡ₚ map_to_list g -> Z.of_nat (size g) <= 2 ^ e ->
  exists m', rehash zeroK zeroV hash m (2 ^ e) = Some m' /\ tableOK m' /\ entries m' ≡ₚ map_to_list g
    /\ capOf m' = 2 ^ e /\ fm_used m' <= Z.of_nat (size g).
Proof.
  intros He Hg Hsz. unfold rehash. pose proof (Z.pow_le_mono_r 2 3 e).
  destruct (Z.ltb_spec (2 ^ e) minFastMapCapacity) as [Hlt |]; [unfold minFastMapCapacity in Hlt; lia|].
  rewrite (nextPowerOfTwo_power e) by lia. cbn. destruct (fastEmpty_ok e He) as [Hok Hcap].
  pose proof (entries_size _ _ Hg) as Hlen.
  destruct (setAll_ok (entries m) (emptySlots zeroK zeroV (2 ^ e)) Hok) as (m' & -> & Hm' & He' & Hc' & Hu').
  - rewrite entries_empty, app_nil_r. by eapply entries_NoDup.
  - rewrite Hcap. cbn. unfold len. lia.
  - exists m'. rewrite entries_empty, app_nil_r in He'. cbn in Hu'. unfold len in Hu'.
    split_and!; [done|done|by rewrite He'|by rewrite Hc'|lia].
Qed.

Lemma filled_le_used (states : list Z) (kvs : list (K * V)) :
  (length (omap filledEntry (zip states kvs)) <= sum_list_with inUse states)%nat.
Proof.
  revert kvs. induction states as [|s states IH]; intros [|kv kvs]; cbn; [lia..|]. specialize (IH kvs).
  unfold filledEntry at 1, inUse at 1. cbn. destruct (Z.eqb_spec s slotFilled) as [-> |]; cbn; [lia|].
  destruct (s =? slotEmpty); lia.
Qed.

(** ** The map keeps the promise *)

(** The slices are nil, as after [Clear], or a table that is not full. *)
Definition fastOK (n : Z) m (g : gmap K V) : Prop :=
  (m = mkFast [] [] [] 0 0 /\ g = ∅ /\ 0 <= n)
  \/ (tableOK m /\ entries m ≡ₚ map_to_list g /\ fm_used m * 100 <= capOf m * 75
      /\ capOf m <= 2 ^ 53 /\ Z.of_nat (size g) <= n).

Lemma ensureWritable_ok n m g :
  fastOK n m g -> n < callLimit ->
  exists m', ensureWritable zeroK zeroV hash m = Some m' /\ tableOK m' /\ entries m' ≡ₚ map_to_list g
    /\ (fm_used m' + 1) * 100 <= capOf m' * 75 /\ capOf m' <= 2 ^ 53 /\ Z.of_nat (size g) <= n.
Proof.
  intros [(-> & -> & Hn) | (Hm & Hg & Hu & Hc & Hsz)] Hlim; unfold ensureWritable.
  { destruct (rehash_ok (mkFast [] [] [] 0 0) 3 ∅) as (m' & Hr & Hm' & He' & Hc' & Hu'); [lia|by rewrite map_to_list_empty|rewrite map_size_empty; lia|].
    exists m'. split; [exact Hr|]. rewrite map_size_empty in *.
    split_and!; done || lia. }
  pose proof (cap_bounds m (to_shaped _ Hm)). pose proof (to_size _ Hm) as Hs. unfold len in Hs at 1.
  rewrite (entries_size _ _ Hg) in Hs. pose proof (to_used _ Hm). unfold callLimit in Hlim.
  destruct (Z.eqb_spec (capOf m) 0); [lia|]. unfold fastMapLoadPercent, fastMapRehashFactor.
  assert (Hle : fm_size m <= fm_used m).
  { rewrite (to_size _ Hm), (to_used _ Hm). unfold len. apply Nat2Z.inj_le. apply filled_le_used. }
  change (75 / 2) with 37.
  rewrite (wrapi64_small ((fm_used m + 1) * 100)), (wrapi64_small (capOf m * 75)), (wrapi64_small (fm_size m * 100)),
    (wrapi64_small (capOf m * 37)), (wrapi64_small (capOf m * 2)) by lia.
  destruct (Z.leb_spec ((fm_used m + 1) * 100) (capOf m * 75)) as [Hfit | Hfull].
  { exists m. split_and!; done || lia. }
  destruct (sh_cap _ (to_shaped _ Hm)) as (e & He & Hcap). rewrite Hcap in *.
  destruct (Z.ltb_spec (fm_size m * 100) (2 ^ e * 37)) as [Hfew | Hmany].
  - destruct (rehash_ok m e g) as (m' & -> & Hm' & He' & Hc' & Hu'); [lia|done|lia|].
    exists m'. split_and!; done || lia.
  - replace (2 ^ e * 2) with (2 ^ (e + 1)) in * by (rewrite Z.pow_add_r; lia).
    pose proof (Z.pow_add_r 2 e 1). assert (e + 1 <= 53) by (apply (Z.pow_le_mono_r_iff 2); lia).
    destruct (rehash_ok m (e + 1) g) as (m' & -> & Hm' & He' & Hc' & Hu'); [lia|done|rewrite Z.pow_add_r; lia|].
    exists m'. split_and!; done || lia.
Qed.

Lemma FastMap_Set_ok n m g k v :
  fastOK n m g -> n < callLimit ->
  exists m', FastMap_Set zeroK zeroV hash m k v = Some m' /\ fastOK (n + 1) m' (<[k := v]> g).
Proof.
  intros Hm Hn. destruct (ensureWritable_ok n m g Hm Hn) as (m1 & Hw & Hm1 & He1 & Hu1 & Hc1 & Hs1).
  pose proof (cap_bounds m1 (to_shaped _ Hm1)).
  destruct (setNoGrow_ok m1 k v g Hm1 ltac:(lia) He1) as (m2 & Hset & Hm2 & He2 & Hc2 & Hu2).
  exists m2. unfold FastMap_Set. rewrite Hw. split; [done|]. right. rewrite Hc2.
  split_and!; [done..|lia|lia|]. rewrite map_size_insert. destruct (g !! k); cbn; lia.
Qed.

Lemma FastMap_Get_ok n m g k : fastOK n m g -> FastMap_Get hash m k = Some (g !! k).
Proof.
  intros [(-> & -> & _) | (Hm & Hg & Hu & _)]; [done|]. pose proof (cap_bounds m (to_shaped _ Hm)).
  unfold FastMap_Get. destruct (Z.eqb_spec (capOf m) 0); [lia|].
  destruct (findExisting_cases m k Hm ltac:(lia)) as [[Habs ->] | (i & v & Hi & ->)]; cbn.
  - destruct (g !! k) as [v|] eqn:E; [|done]. apply (entries_lookup _ _ _ _ Hg) in E. by apply Habs in E.
  - rewrite Nat2Z.id. pose proof Hi as (_ & _ & ->)%fastSlots_lookup. cbn.
    apply entries_at in Hi. by apply (entries_lookup _ _ _ _ Hg) in Hi as ->.
Qed.

Lemma FastMap_Delete_ok n m g k :
  fastOK n m g -> exists m', FastMap_Delete zeroK zeroV hash m k = Some (m', bool_decide (is_Some (g !! k)))
    /\ fastOK n m' (delete k g).
Proof.
  intros [(-> & -> & Hn) | (Hm & Hg & Hu & Hc & Hsz)].
  { exists (mkFast [] [] [] 0 0). rewrite delete_empty, lookup_empty. split; [done|]. by left. }
  pose proof (cap_bounds m (to_shaped _ Hm)). unfold FastMap_Delete. destruct (Z.eqb_spec (capOf m) 0); [lia|].
  destruct (findExisting_cases m k Hm ltac:(lia)) as [[Habs ->] | (i & v & Hi & ->)]; cbn -[FastMap_Clear].
  - assert (g !! k = None) as E.
    { destruct (g !! k) as [v|] eqn:E; [|done]. apply (entries_lookup _ _ _ _ Hg) in E. by apply Habs in E. }
    exists m. rewrite E, delete_id by done. split; [done|]. right. done.
  - rewrite Nat2Z.id. pose proof (entries_at _ _ _ _ Hi) as Hk%(entries_lookup _ _ _ _ Hg).
    rewrite bool_decide_true by eauto. eexists. split; [done|].
    change (mkFast (<[i := zeroK]> _) _ _ _ _) with (putSlot m i slotDeleted zeroK zeroV (fm_size m - 1) (fm_used m)).
    set (m' := putSlot _ _ _ _ _ _ _).
    destruct (omap_insert_perm filledEntry (slots m) i _ Hi) as (rest & Hold & Hnew). cbn in Hold.
    assert (Hents : entries m' ≡ₚ rest) by (unfold entries, m'; by rewrite slots_put, Hnew).
    assert (Hg' : entries m' ≡ₚ map_to_list (delete k g)).
    { rewrite Hents. apply entries_delete with v. by rewrite <- Hold. }
    assert (Hsize : fm_size m - 1 = len (entries m')).
    { unfold len. rewrite Hents, (to_size _ Hm). unfold len, entries. rewrite Hold. cbn. lia. }
    pose proof (entries_size _ _ Hg') as Hlen. pose proof (map_size_delete_Some k g (mk_is_Some _ _ Hk)).
    destruct (Z.eqb_spec (fm_size m - 1) 0) as [Hz |].
    + left. split; [done|]. split; [apply map_size_empty_inv; unfold len in Hsize; lia | lia].
    + right. split_and!; [| done | unfold m'; cbn; rewrite len_insert; lia | unfold m'; cbn; rewrite len_insert; lia | lia].
      by apply (putSlot_ok m i slotDeleted zeroK zeroV _ _ slotFilled k v Hm Hi); [|eapply entries_NoDup| | |].
Qed.

Lemma growCapacity_spec fuel i capHint :
  3 <= i <= 51 -> capHint <= 2 ^ 50 -> 51 - i < Z.of_nat fuel ->
  exists e, 3 <= e <= 51 /\ growCapacity fuel (2 ^ i) capHint = Some (2 ^ e).
Proof.
  revert i. induction fuel as [|fuel IH]; intros i Hi Hh Hf; [lia|]. cbn [growCapacity].
  pose proof (Z.pow_le_mono_r 2 i 51). pose proof (Z.pow_pos_nonneg 2 i). unfold fastMapLoadPercent.
  rewrite wrapi64_small by lia. rewrite Z.quot_div_nonneg by lia.
  destruct (Z.ltb_spec (2 ^ i * 75 / 100) capHint) as [Hlt |]; [|by exists i].
  destruct (decide (i = 51)) as [-> |]; [exfalso; change (2 ^ 51 * 75 / 100) with (2 ^ 50 + 2 ^ 49) in Hlt; lia|].
  rewrite Z.shiftl_mul_pow2 by lia. replace (2 ^ i * 2 ^ 1) with (2 ^ (i + 1)) by (rewrite Z.pow_add_r; lia).
  pose proof (Z.pow_le_mono_r 2 (i + 1) 51). pose proof (Z.pow_pos_nonneg 2 (i + 1)).
  rewrite wrapi64_small by lia. apply IH; lia.
Qed.

Lemma NewFastMap_ok capHint :
  capHint <= 2 ^ 50 -> exists m, NewFastMap zeroK zeroV capHint = Some m /\ fastOK 0 m ∅.
Proof.
  intros Hh. unfold NewFastMap, fastMapCapacityForHint. change minFastMapCapacity with (2 ^ 3).
  destruct (growCapacity_spec 65 3 (if capHint <? 0 then 0 else capHint)) as (e & He & ->);
    [lia | destruct (capHint <? 0); lia | lia |].
  cbn. eexists. split; [done|]. right. destruct (fastEmpty_ok e) as [Hok Hcap]; [lia|].
  rewrite entries_empty, map_to_list_empty, Hcap, map_size_empty. pose proof (Z.pow_le_mono_r 2 e 51).
  pose proof (Z.pow_pos_nonneg 2 e). split_and!; [done|done|cbn; lia..].
Qed.

Program Definition FastMap_laws
    : MapLaws K V (FastMap K V) (IMap0 := FastMap_IMap zeroK zeroV hash) := {| stands := fastOK |}.
Next Obligation. intros. by apply FastMap_Set_ok. Qed.
Next Obligation. intros n m g k Hm. by apply (FastMap_Get_ok n). Qed.
Next Obligation. intros. by apply FastMap_Delete_ok. Qed.
Next Obligation.
  intros n m g [(-> & -> & _) | (Hm & Hg & _)] _; cbn; unfold FastMap_Len; [done|].
  rewrite (to_size _ Hm). unfold len. by rewrite (entries_size _ _ Hg).
Qed.
Next Obligation.
  intros n m g Hm. eexists. split; [done|]. left. split_and!; [done..|].
  destruct Hm as [(_ & _ & ?) | (_ & _ & _ & _ & ?)]; lia.
Qed.
Next Obligation.
  intros n m g f Hm. exists (entries m). split; [|by destruct f].
  destruct Hm as [(-> & -> & _) | (_ & Hg & _)]; [by rewrite map_to_list_empty | done].
Qed.
Next Obligation.
  intros n n' m g [(-> & -> & ?) | (? & ? & ? & ? & ?)] Hn; [left | right]; split_and!; done || lia.
Qed.
End Probing.

(** C26. The open-addressing map behaves as a finite map: for every hint, hash
    function and sequence of calls, starting from a new map, every call returns
    (in particular every probe ends), and the answers are those of a finite map,
    through deletions, tombstones, rehashes and clearing. *)
Theorem FastMap_refines {K V : Type} `{Countable K} (zeroK : K) (zeroV : V) (hash : K -> Z) capHint
    (cs : list (mapCall K V)) :
  len cs <= callLimit -> capHint <= 2 ^ 50 ->
  exists m0 m answers, NewFastMap zeroK zeroV capHint = Some m0
    /\ callsMap (H := FastMap_IMap zeroK zeroV hash) m0 cs = Some (m, answers) /\ specRun ∅ cs answers.
Proof.
  intros Hcs Hh. destruct (NewFastMap_ok zeroK zeroV hash capHint Hh) as (m0 & Hm0 & Hok).
  destruct (IMap_run (MapLaws0 := FastMap_laws zeroK zeroV hash) cs 0 m0 ∅ Hok ltac:(lia)) as (m & answers & Hr & Hs).
  by exists m0, m, answers.
Qed.

Module FastMapSample.
Definition calls : list (mapCall Z Z) :=
  [CallSet 1 10; CallSet 9 20; CallSet 17 30; CallDelete 9; CallSet 17 31; CallSet 25 40; CallGet 17; CallLen;
   CallRange (Some (fun _ _ => true))].

(** All keys have one home. *)
Definition samehash (key : Z) : Z := key mod 8.

Lemma FastMap_refines_witness :
  len calls <= callLimit /\ 4 <= 2 ^ 50
  /\ exists m0 m answers, NewFastMap 0 0 4 = Some m0
       /\ callsMap (H := FastMap_IMap 0 0 samehash) m0 calls = Some (m, answers) /\ specRun ∅ calls answers.
Proof.
  split; [vm_compute; congruence|]. split; [lia|].
  apply (FastMap_refines 0 0 samehash 4 calls); vm_compute; congruence.
Defined.

(** The tombstone of key 9 is used again by key 25. *)
Example collisions :
  (m0 ← NewFastMap 0 0 4; snd <$> callsMap (H := FastMap_IMap 0 0 samehash) m0 calls)
  = Some [AnsDone; AnsDone; AnsDone; AnsDelete true; AnsDone; AnsDone; AnsGet (Some 31); AnsLen 3;
          AnsRange [(1, 10); (25, 40); (17, 31)]].
Proof. reflexivity. Qed.
End FastMapSample.
