(* ===== verification/Requests.v ===== *)
(** * Requests and their answers

    A request makes a channel with room for one answer and a message that
    carries it ([src/nest/client.go], [src/nest/msg.go]); the message is queued,
    dispatched ([NestDispatch] of [src/nest/nest_dispatch.go]), perhaps queued
    again, and its channel may move to the continuation of a group transition
    and from there to another message ([src/nest/group_transition.go]).  This
    file models the messages and channels of an engine over arbitrary schedules
    of clients, workers and the delay queue, from the admission of a call to the
    return of its caller, and shows that an answer is neither duplicated, which
    would block a worker on a full channel, nor dropped but for the cases listed
    in [lossReason].

    What handlers, locks and transactions do inside a dispatch is the subject of
    [LockOrder], [GroupDispatch] and [Atomicity], and how the dispatcher admits
    messages that of [Dispatcher]; here their outcomes are arguments of the
    steps.  A joined or wrapped error is the list of the errors [errors.Is]
    finds in it, the empty list being nil. *)

From stdpp Require Import base list gmap strings.
From Stdlib Require Import ZArith Lia.
From S2P Require Import Prelude EntityId LockOrder Splice WorkerPool Dispatcher.

#[local] Open Scope Z_scope.

(** ** Errors and answers *)

Inductive nestError : Type :=
| ErrHandlerNotFound
| ErrInvalidMessage
| ErrEntityNotFound
| ErrLockTimeout
| ErrNestTimeout
| ErrNestCanceled
| ErrAsyncInHandler
| ErrSyncInHandler
| ErrEntityLockGroupChanged
| ErrEntityGroupTransitionPending
| ErrEntityGroupTransitionScheduled
| ErrInvalidEntityLockGroup
| ErrGetterNotSet
| ErrNormalize (e : idError)
| ErrDispatcher (e : dispatchError)
| ErrOther (code : Z).

#[export] Instance poolError_eq_dec : EqDecision poolError.
Proof. solve_decision. Defined.
#[export] Instance dispatchError_eq_dec : EqDecision dispatchError.
Proof. solve_decision. Defined.
#[export] Instance idError_eq_dec : EqDecision idError.
Proof. solve_decision. Defined.
#[export] Instance nestError_eq_dec : EqDecision nestError.
Proof. solve_decision. Defined.

Abbreviation errs := (list nestError).

Definition errorsIs (err : errs) (target : nestError) : bool := bool_decide (target ∈ err).

(** What is sent on a channel of type [any]: a result, or an error. *)
Inductive any : Type :=
| AnyValue (v : Z)
| AnyError (err : errs).

Definition admissionError (e : dispatchError) : errs := [ErrDispatcher e].

(** [normalizeAdmissionError] *)
Definition normalizeAdmissionError (err : errs) : errs :=
  if errorsIs err (ErrDispatcher (ErrPool ErrWorkerQueueFull)) then ErrDispatcher ErrQueueFull :: err
  else if errorsIs err (ErrDispatcher (ErrPool ErrWorkerClosed)) then ErrDispatcher ErrNestStopped :: err
  else err.

(** ** Messages *)

(** [rq_cancels]: the context of the message ends with the context of the caller. *)
Record Msg := mkMsg {
  rq_RetChan : option nat;
  rq_Name : string;
  rq_Tid : Z;
  rq_Tids : list Z;
  rq_GroupTIds : list (list Z);
  rq_Params : list Z;
  rq_PendingRequeues : Z;
  rq_Type : MsgType;
  rq_Cost : bool;
  rq_HasRemote : bool;
  rq_cancels : bool;
  rq_SyncWait : Z;
  rq_GroupTransition : option nat
}.

(** [GenMsg]: a cleaned message of the pool. *)
Definition GenMsg (msgType : MsgType) : Msg := mkMsg None "" 0 [] [] [] 0 msgType false false false 0 None.

Definition withRetChan (m : Msg) (c : option nat) : Msg :=
  mkMsg c (rq_Name m) (rq_Tid m) (rq_Tids m) (rq_GroupTIds m) (rq_Params m) (rq_PendingRequeues m) (rq_Type m)
    (rq_Cost m) (rq_HasRemote m) (rq_cancels m) (rq_SyncWait m) (rq_GroupTransition m).

Definition withRequeues (m : Msg) (n : Z) : Msg :=
  mkMsg (rq_RetChan m) (rq_Name m) (rq_Tid m) (rq_Tids m) (rq_GroupTIds m) (rq_Params m) n (rq_Type m)
    (rq_Cost m) (rq_HasRemote m) (rq_cancels m) (rq_SyncWait m) (rq_GroupTransition m).

Definition withRemote (m : Msg) : Msg :=
  mkMsg (rq_RetChan m) (rq_Name m) (rq_Tid m) (rq_Tids m) (rq_GroupTIds m) (rq_Params m) (rq_PendingRequeues m)
    (rq_Type m) true true (rq_cancels m) (rq_SyncWait m) (rq_GroupTransition m).

Definition withTargets (m : Msg) (tid : Z) (tids : list Z) (groups : list (list Z)) : Msg :=
  mkMsg (rq_RetChan m) (rq_Name m) tid tids groups (rq_Params m) (rq_PendingRequeues m) (rq_Type m)
    (rq_Cost m) (rq_HasRemote m) (rq_cancels m) (rq_SyncWait m) (rq_GroupTransition m).

Definition withTransition (m : Msg) (p : nat) : Msg :=
  mkMsg (rq_RetChan m) (rq_Name m) (rq_Tid m) (rq_Tids m) (rq_GroupTIds m) (rq_Params m) (rq_PendingRequeues m)
    (rq_Type m) (rq_Cost m) (rq_HasRemote m) (rq_cancels m) (rq_SyncWait m) (Some p).

(** [sendOptParam] and [resolveSendOptions]: the options are functions, applied
    in order, nil ones skipped. *)
Record sendOptParam := mkSendOpt { so_Delay : Z; so_Cost : bool }.

Inductive SendOpt : Type :=
| SendOptionWithDelay (delay : Z)
| SendOptionIsCost
| SendOptionNil.

Definition resolveSendOptions (opts : list SendOpt) : sendOptParam :=
  foldl (fun ret opt => match opt with
    | SendOptionWithDelay delay => mkSendOpt delay (so_Cost ret)
    | SendOptionIsCost => mkSendOpt (so_Delay ret) true
    | SendOptionNil => ret
    end) (mkSendOpt 0 false) opts.

(** [prepareClientMessage]: [syncWait] is what the captured snapshot has. *)
Definition prepareClientMessage (m : Msg) (name : string) (params : list Z) (wait : bool) (opts : list SendOpt)
    (syncWait : Z) : Msg :=
  mkMsg (rq_RetChan m) name (rq_Tid m) (rq_Tids m) (rq_GroupTIds m) params (rq_PendingRequeues m) (rq_Type m)
    (so_Cost (resolveSendOptions opts)) (rq_HasRemote m) wait (if wait then syncWait else 0) (rq_GroupTransition m).

(** ** Targets *)

Inductive target : Type :=
| TargetOne (id : Z)
| TargetMulti (ids : list Z)
| TargetGroups (groups : list (list Z)).

Section Client.
Context (reg : Registry).

(** [checkRemoteId], [checkRemoteIds] and [checkRemoteGroups] *)
Definition checkRemoteIds (m : Msg) (ids : list Z) : Msg :=
  if existsb (fun id => shouldPrepareRemoteID reg (ResolveEntityID reg id)) ids then withRemote m else m.

Definition checkRemoteGroups (m : Msg) (groups : list (list Z)) : Msg := checkRemoteIds m (concat groups).

Definition validGroups (groups : list (list Z)) : bool :=
  match groups with [] => false | _ => forallb (fun ids => match ids with [] => false | _ => true end) groups end.

Definition normalizeClientID (id : Z) : result errs Z :=
  match NormalizeFullID reg id EntityKindNone with
  | Ok fullID => Ok fullID
  | Err _ => Err [ErrInvalidMessage]
  end.

Fixpoint normalizeClientIDs (ids : list Z) : result errs (list Z) :=
  match ids with
  | [] => Ok []
  | id :: ids => fullID ← normalizeClientID id; rest ← normalizeClientIDs ids; Ok (fullID :: rest)
  end.

Fixpoint normalizeClientGroups (groups : list (list Z)) : result errs (list (list Z)) :=
  match groups with
  | [] => Ok []
  | ids :: groups => fullIDs ← normalizeClientIDs ids; rest ← normalizeClientGroups groups; Ok (fullIDs :: rest)
  end.

(** What a caller brings: its context may have ended, and it may itself run in a
    handler. *)
Record caller := mkCaller { cl_ctxErr : option Z; cl_inHandler : bool; cl_syncWait : Z }.

(** [validateClientDispatch] *)
Definition validateClientDispatch (fenced : option Z) (running : bool) (who : caller) (name : string)
    (nestedError : nestError) : result errs unit :=
  match fenced with
  | Some code => Err (admissionError (ErrFence code))
  | None =>
      _ ← reject_if (negb running) (admissionError ErrNestStopped);
      _ ← reject_if (String.eqb name "") [ErrInvalidMessage];
      match cl_ctxErr who with
      | Some code => Err [ErrNestCanceled; ErrOther code]
      | None => reject_if (cl_inHandler who) [nestedError]
      end
  end.

(** The messages of [Request], [RequestMulti], [RequestMultiGroup] (with a
    channel) and of the [Dispatch] calls, up to their admission. *)
Definition clientMessage (fenced : option Z) (running : bool) (who : caller) (name : string) (t : target)
    (params : list Z) (opts : list SendOpt) (ch : option nat) : result errs Msg :=
  let wait := bool_decide (is_Some ch) in
  let nestedError := if wait then ErrSyncInHandler else ErrAsyncInHandler in
  let prepare m := prepareClientMessage (withRetChan m ch) name params wait opts (cl_syncWait who) in
  match t with
  | TargetOne id =>
      _ ← validateClientDispatch fenced running who name nestedError;
      fullID ← normalizeClientID id;
      Ok (checkRemoteIds (prepare (withTargets (GenMsg MsgTypeSingle) fullID [] [])) [fullID])
  | TargetMulti ids =>
      _ ← reject_if (bool_decide (ids = [])) [ErrInvalidMessage];
      _ ← validateClientDispatch fenced running who name nestedError;
      fullIDs ← normalizeClientIDs ids;
      Ok (checkRemoteIds (prepare (withTargets (GenMsg MsgTypeMulti) 0 fullIDs [])) fullIDs)
  | TargetGroups groups =>
      _ ← reject_if (negb (validGroups groups)) [ErrInvalidMessage];
      _ ← validateClientDispatch fenced running who name nestedError;
      fullGroups ← normalizeClientGroups groups;
      Ok (checkRemoteGroups (prepare (withTargets (GenMsg MsgTypeMultiGroup) 0 [] fullGroups)) fullGroups)
  end.

(** The messages of [DispatchBroadcast], in the order of their admission. *)
Definition broadcastMessages (groupFunc : option (Z -> Z)) (workerNum : Z) (fenced : option Z) (running : bool)
    (who : caller) (name : string) (ids params : list Z) (opts : list SendOpt) : result errs (list Msg) :=
  _ ← reject_if (bool_decide (ids = [])) [ErrInvalidMessage];
  _ ← validateClientDispatch fenced running who name ErrAsyncInHandler;
  fullIDs ← normalizeClientIDs ids;
  Ok ((fun b => checkRemoteIds (prepareClientMessage (withTargets (GenMsg MsgTypeBroadcast) 0 (bt_ids b) [])
                                  name params false opts 0) (bt_ids b))
        <$> ForEachSpliceBatch reg groupFunc workerNum fullIDs).
End Client.

(** ** The engine *)

(** [GroupTransitionContinuation] and [GroupTransitionRequest]; messages share a
    request by its index in the heap. *)
Record continuation := mkContinuation {
  ct_Handler : string;
  ct_Params : list Z;
  ct_RetChan : option nat
}.

Record transitionRequest := mkTransition {
  gt_EntityID : Z;
  gt_Attempts : Z;
  gt_Continuation : option continuation
}.

Definition entityGroupDispatchRequeueMax : Z := 400.
Definition entityGroupTransitionRetryMax : Z := 400.

(** Why a channel is dropped without an answer:
    - the delay queue was thrown away by [OnDestroyWithContext];
    - a worker was closed in front of a task it had accepted;
    - the message of a transition was refused by the dispatcher;
    - the message of a transition was dispatched by a fenced engine;
    - the dispatch of a transition panicked;
    - the continuation of a transition names no handler. *)
Inductive lossReason : Type :=
| LossStopped | LossWorkerClosed | LossRefused | LossFenced | LossPanic | LossNoHandler.

(** [started], [stopped] and [fenceErr] of [NestMgr]. *)
Record lifeState := mkLife { lf_started : bool; lf_stopped : bool; lf_fenceErr : option Z }.

(** The messages in the queues of the workers, in the delay queue and in
    dispatches; the heap of transition requests; what was sent on the channels;
    the channels of requests that were refused at once, and of those that were
    dropped; the callers that wait or returned; and the next channel. *)
Record NestMgr := mkNest {
  ns_life : lifeState;
  ns_queue : list Msg;
  ns_delayed : list Msg;
  ns_running : list Msg;
  ns_transitions : list transitionRequest;
  ns_sent : list (nat * any);
  ns_refused : list nat;
  ns_lost : list (nat * lossReason);
  ns_clients : gmap nat (option (result errs Z));
  ns_next : nat
}.
Implicit Type s : NestMgr.

Definition NewEngine : NestMgr := mkNest (mkLife false false None) [] [] [] [] [] [] [] ∅ 0.

Definition withLife s (l : lifeState) : NestMgr :=
  mkNest l (ns_queue s) (ns_delayed s) (ns_running s) (ns_transitions s) (ns_sent s) (ns_refused s) (ns_lost s)
    (ns_clients s) (ns_next s).
Definition withMessages s (queue delayed running : list Msg) : NestMgr :=
  mkNest (ns_life s) queue delayed running (ns_transitions s) (ns_sent s) (ns_refused s) (ns_lost s)
    (ns_clients s) (ns_next s).
Definition withTransitions s (heap : list transitionRequest) : NestMgr :=
  mkNest (ns_life s) (ns_queue s) (ns_delayed s) (ns_running s) heap (ns_sent s) (ns_refused s) (ns_lost s)
    (ns_clients s) (ns_next s).
Definition withClients s (clients : gmap nat (option (result errs Z))) (next : nat) (refused : list nat) : NestMgr :=
  mkNest (ns_life s) (ns_queue s) (ns_delayed s) (ns_running s) (ns_transitions s) (ns_sent s) refused (ns_lost s)
    clients next.

Definition NestMgr_Fence s (cause : Z) : NestMgr :=
  withLife s (mkLife (lf_started (ns_life s)) (lf_stopped (ns_life s))
                (match lf_fenceErr (ns_life s) with None => Some cause | Some e => Some e end)).

Definition NestMgr_Start s (getterSet : bool) : NestMgr * errs :=
  let l := ns_life s in
  if lf_stopped l then (s, admissionError ErrNestStopped)
  else if lf_started l then (s, [])
  else if negb getterSet then (s, [ErrGetterNotSet])
  else (withLife s (mkLife true false (lf_fenceErr l)), []).

Definition NestMgr_Shutdown s : NestMgr :=
  withLife s (mkLife (lf_started (ns_life s)) true (lf_fenceErr (ns_life s))).

Definition Running s : bool :=
  let l := ns_life s in lf_started l && negb (lf_stopped l) && bool_decide (lf_fenceErr l = None).

(** A channel is used. *)
Definition answer s (c : option nat) (a : any) : NestMgr :=
  match c with
  | None => s
  | Some c => mkNest (ns_life s) (ns_queue s) (ns_delayed s) (ns_running s) (ns_transitions s)
                (ns_sent s ++ [(c, a)]) (ns_refused s) (ns_lost s) (ns_clients s) (ns_next s)
  end.

(** A channel is dropped. *)
Definition lose s (c : option nat) (why : lossReason) : NestMgr :=
  match c with
  | None => s
  | Some c => mkNest (ns_life s) (ns_queue s) (ns_delayed s) (ns_running s) (ns_transitions s)
                (ns_sent s) (ns_refused s) (ns_lost s ++ [(c, why)]) (ns_clients s) (ns_next s)
  end.

(** The channel of the continuation of a request is taken out of it. *)
Definition contChan (r : transitionRequest) : option nat := ct ← gt_Continuation r; ct_RetChan ct.

Definition clearChan (r : transitionRequest) : transitionRequest :=
  mkTransition (gt_EntityID r) (gt_Attempts r)
    ((fun ct => mkContinuation (ct_Handler ct) (ct_Params ct) None) <$> gt_Continuation r).

Definition pointerOf s (p : option nat) : option (nat * transitionRequest) :=
  p ← p; r ← ns_transitions s !! p; Some (p, r).

Definition takeChan s (p : option nat) : NestMgr * option nat :=
  match pointerOf s p with
  | None => (s, None)
  | Some (p, r) => (withTransitions s (<[p := clearChan r]> (ns_transitions s)), contChan r)
  end.

(** A message is dropped: its channel, and the request that nobody else knows. *)
Definition loseRequest s (p : option nat) (why : lossReason) : NestMgr :=
  let '(s, c) := takeChan s p in lose s c why.

Definition loseMsg s (m : Msg) (why : lossReason) : NestMgr :=
  loseRequest (lose s (rq_RetChan m) why) (rq_GroupTransition m) why.

(** [sendMsg] and [delaySendMsg] with the answer of the dispatcher. *)
Definition sendMsg s (m : Msg) (adm : option dispatchError) : NestMgr :=
  match adm with
  | None => withMessages s (ns_queue s ++ [m]) (ns_delayed s) (ns_running s)
  | Some e => loseRequest (answer s (rq_RetChan m) (AnyError (admissionError e))) (rq_GroupTransition m) LossRefused
  end.

Definition delaySendMsg s (m : Msg) (adm : option dispatchError) : NestMgr :=
  match adm with
  | None => withMessages s (ns_queue s) (ns_delayed s ++ [m]) (ns_running s)
  | Some e => loseRequest (answer s (rq_RetChan m) (AnyError (admissionError e))) (rq_GroupTransition m) LossRefused
  end.

(** [NestMgr_admit]: queued at once or after a delay. *)
Definition NestMgr_admit s (m : Msg) (opts : list SendOpt) : NestMgr :=
  if 0 <? so_Delay (resolveSendOptions opts)
  then withMessages s (ns_queue s) (ns_delayed s ++ [m]) (ns_running s)
  else withMessages s (ns_queue s ++ [m]) (ns_delayed s) (ns_running s).

(** ** Waiting for an answer *)

Definition NestSyncTimeout : Z := 5000000000.

Definition waitTimeout (syncTimeout requestTimeout : Z) : Z :=
  let timeout := if 0 <? requestTimeout then requestTimeout else syncTimeout in
  if timeout <=? 0 then NestSyncTimeout else timeout.

Inductive waitEnd : Type := WaitReceived (a : any) | WaitContext (code : Z) | WaitTimer.

Definition waitResult (w : waitEnd) : result errs Z :=
  match w with
  | WaitReceived (AnyError err) => Err err
  | WaitReceived (AnyValue v) => Ok v
  | WaitContext code => Err [ErrNestCanceled; ErrOther code]
  | WaitTimer => Err [ErrNestTimeout]
  end.

(** ** Dispatch *)

(** [requeueNestDispatch]: the copy goes on with the channel. *)
Definition requeueNestDispatch s (m : Msg) (err : errs) (adm : option dispatchError) : NestMgr * Msg * errs :=
  match rq_Type m with
  | MsgTypeGroupTransition => (s, m, err)
  | _ =>
      if entityGroupDispatchRequeueMax <=? rq_PendingRequeues m then (s, m, err)
      else (delaySendMsg s (withRequeues m (rq_PendingRequeues m + 1)) adm, withRetChan m None, [])
  end.

(** [transientDispatchRequeueReason] *)
Definition transient (err : errs) : bool := errorsIs err ErrLockTimeout || errorsIs err ErrEntityLockGroupChanged.

(** The end of [NestDispatch], after the message left the context. *)
Definition finishDispatch s (m : Msg) (ret : any) (err : errs) (adm : option dispatchError) : NestMgr :=
  let err := if errorsIs err ErrEntityGroupTransitionScheduled then [] else err in
  let '(s, m, err) :=
    if errorsIs err ErrEntityGroupTransitionPending then requeueNestDispatch s m err adm else (s, m, err) in
  let '(s, m, err) := if transient err then requeueNestDispatch s m err adm else (s, m, err) in
  answer s (rq_RetChan m) (match err with [] => ret | _ => AnyError err end).

(** What stops a dispatch before its message is routed. *)
Definition dispatchBegin s (m : Msg) (canceled : option Z) : errs :=
  match lf_fenceErr (ns_life s), canceled with
  | Some code, _ => admissionError (ErrFence code)
  | None, Some code => if rq_cancels m then [ErrNestCanceled; ErrOther code] else []
  | None, None => []
  end.

(** ** Group transitions *)

(** [bindGroupTransitionContinuation]: the channel moves from the message that
    is dispatched to the continuation. *)
Definition bindContinuation s (cur : option nat) (handler : string) (params : list Z)
    : result errs (NestMgr * continuation) :=
  match (i ← cur; m ← ns_running s !! i; c ← rq_RetChan m; Some (i, m, c)) with
  | None => Err [ErrInvalidEntityLockGroup]
  | Some (i, m, c) =>
      Ok (withMessages s (ns_queue s) (ns_delayed s) (<[i := withRetChan m None]> (ns_running s)),
          mkContinuation handler params (Some c))
  end.

Definition transitionMsg (id : Z) (p : nat) : Msg :=
  withTransition (withTargets (GenMsg MsgTypeGroupTransition) id [] []) p.

(** [requestEntityLockGroupTransition], called by the handler of the message
    [cur] or from outside; [pre] is the error, if any, of looking the entity up
    and of beginning its transition. *)
Definition requestTransition s (cur : option nat) (id : Z) (pre : errs) (cont : option (string * list Z))
    (adm : option dispatchError) : NestMgr * errs :=
  match pre with
  | _ :: _ => (s, pre)
  | [] =>
      match (match cont with
             | None => Ok (s, None)
             | Some (handler, params) => '(s, ct) ← bindContinuation s cur handler params; Ok (s, Some ct)
             end) with
      | Err e => (s, e)
      | Ok (s, ct) =>
          let p := length (ns_transitions s) in
          let s := withTransitions s (ns_transitions s ++ [mkTransition id 0 ct]) in
          (sendMsg s (transitionMsg id p) adm, [])
      end
  end.

(** [completeGroupTransitionContinuation] *)
Definition completeContinuation s (p : option nat) (err : errs) : NestMgr :=
  match err with [] => s | _ => let '(s, c) := takeChan s p in answer s c (AnyError err) end.

(** [dispatchGroupTransitionContinuation] *)
Definition dispatchContinuation (reg : Registry) s (p : option nat) (adm : option dispatchError) : NestMgr :=
  match pointerOf s p with
  | None => s
  | Some (_, r) =>
      match gt_Continuation r with
      | None => s
      | Some ct =>
          match ct_RetChan ct with
          | None => s
          | Some c =>
              if String.eqb (ct_Handler ct) "" then loseRequest s p LossNoHandler
              else
                let m := withTargets (GenMsg MsgTypeSingle) (gt_EntityID r) [] [] in
                let m := mkMsg (Some c) (ct_Handler ct) (rq_Tid m) (rq_Tids m) (rq_GroupTIds m) (ct_Params ct) 0
                           (rq_Type m) false false true 0 None in
                sendMsg (takeChan s p).1 (checkRemoteIds reg m [gt_EntityID r]) adm
          end
      end
  end.

(** How the body of [groupTransitionDispatch] goes: an error, a lock that is
    busy (perhaps after the deadline), the move, or a panic. *)
Inductive transitionOutcome : Type :=
| TransitionFails (err : nestError)
| TransitionBusy (expired : bool)
| TransitionMoves
| TransitionPanics (err : nestError).

(** [retryGroupTransition] *)
Definition retryTransition s (p : nat) (r : transitionRequest) (expired : bool) (adm : option dispatchError)
    : NestMgr * errs :=
  let r := mkTransition (gt_EntityID r) (gt_Attempts r + 1) (gt_Continuation r) in
  let s := withTransitions s (<[p := r]> (ns_transitions s)) in
  if (entityGroupTransitionRetryMax <=? gt_Attempts r) || expired then (s, [ErrLockTimeout])
  else (delaySendMsg s (transitionMsg (gt_EntityID r) p) adm, [ErrEntityGroupTransitionScheduled]).

(** [groupTransitionDispatch] with its deferred function. *)
Definition groupTransitionDispatch (reg : Registry) s (p : option nat) (out : transitionOutcome)
    (adm : option dispatchError) : NestMgr * errs :=
  match pointerOf s p with
  | None => (s, admissionError ErrNestStopped)
  | Some (q, r) =>
      match out with
      | TransitionFails err => (completeContinuation s p [err], [err])
      | TransitionBusy expired =>
          let '(s, err) := retryTransition s q r expired adm in
          (if errorsIs err ErrEntityGroupTransitionScheduled then s else completeContinuation s p err, err)
      | TransitionMoves => (dispatchContinuation reg s p adm, [])
      | TransitionPanics err => (loseRequest s p LossPanic, [err])
      end
  end.

(** ** Schedules *)

(** What can happen next.  [adm] is the answer of the dispatcher to the message
    that the step sends, if it sends one. *)
Inductive nestEvent : Type :=
| EvStart (getterSet : bool)
| EvFence (cause : Z)
| EvShutdown
| EvStopDelayed
| EvWorkerClosed (k : nat)
| EvRequest (who : caller) (name : string) (t : target) (params : list Z) (opts : list SendOpt)
    (adm : option dispatchError)
| EvDispatch (who : caller) (name : string) (t : target) (params : list Z) (opts : list SendOpt)
    (adm : option dispatchError)
| EvBroadcast (who : caller) (name : string) (ids params : list Z) (opts : list SendOpt)
    (adms : list (option dispatchError))
| EvTake (k : nat)
| EvDue (k : nat) (adm : option dispatchError)
| EvTransition (cur : option nat) (id : Z) (pre : errs) (cont : option (string * list Z)) (adm : option dispatchError)
| EvEnd (i : nat) (canceled : option Z) (ret : any) (err : errs) (adm : option dispatchError)
| EvEndTransition (i : nat) (out : transitionOutcome) (adm : option dispatchError)
| EvReceive (c : nat)
| EvGiveUp (c : nat) (context : option Z).

Section Steps.
Context (reg : Registry) (groupFunc : option (Z -> Z)) (workerNum : Z).

(** [Request] and its kin: a new channel, and a caller that waits or returns. *)
Definition request s (who : caller) name t params opts adm : NestMgr :=
  let c := ns_next s in
  match clientMessage reg (lf_fenceErr (ns_life s)) (Running s) who name t params opts (Some c) with
  | Err e => s
  | Ok m =>
      match adm with
      | Some e =>
          withClients s (<[c := Some (Err (normalizeAdmissionError (admissionError e)))]> (ns_clients s)) (S c)
            (ns_refused s ++ [c])
      | None => NestMgr_admit (withClients s (<[c := None]> (ns_clients s)) (S c) (ns_refused s)) m opts
      end
  end.

Definition dispatch s (who : caller) name t params opts (adm : option dispatchError) : NestMgr :=
  match clientMessage reg (lf_fenceErr (ns_life s)) (Running s) who name t params opts None, adm with
  | Ok m, None => NestMgr_admit s m opts
  | _, _ => s
  end.

(** The batches of a broadcast up to the first that is refused. *)
Fixpoint admitAll s (ms : list Msg) (opts : list SendOpt) (adms : list (option dispatchError)) : NestMgr :=
  match ms, adms with
  | m :: ms, None :: adms => admitAll (NestMgr_admit s m opts) ms opts adms
  | _, _ => s
  end.

Definition broadcast s (who : caller) name ids params opts adms : NestMgr :=
  match broadcastMessages reg groupFunc workerNum (lf_fenceErr (ns_life s)) (Running s) who name ids params opts with
  | Err _ => s
  | Ok ms => admitAll s ms opts adms
  end.

(** A dispatch leaves the worker. *)
Definition endDispatchOf s (i : nat) : NestMgr :=
  withMessages s (ns_queue s) (ns_delayed s) (delete i (ns_running s)).

Definition loseAll s (ms : list Msg) (why : lossReason) : NestMgr := foldl (fun s m => loseMsg s m why) s ms.

Definition isTransition (m : Msg) : bool :=
  match rq_Type m with MsgTypeGroupTransition => true | _ => false end.

Definition nestStep s (e : nestEvent) : option NestMgr :=
  match e with
  | EvStart getterSet => Some (NestMgr_Start s getterSet).1
  | EvFence cause => Some (NestMgr_Fence s cause)
  | EvShutdown => Some (NestMgr_Shutdown s)
  | EvStopDelayed =>
      if lf_stopped (ns_life s)
      then Some (loseAll (withMessages s (ns_queue s) [] (ns_running s)) (ns_delayed s) LossStopped) else None
  | EvWorkerClosed k =>
      if lf_stopped (ns_life s) then
        m ← ns_queue s !! k;
        Some (loseMsg (withMessages s (delete k (ns_queue s)) (ns_delayed s) (ns_running s)) m LossWorkerClosed)
      else None
  | EvRequest who name t params opts adm => Some (request s who name t params opts adm)
  | EvDispatch who name t params opts adm => Some (dispatch s who name t params opts adm)
  | EvBroadcast who name ids params opts adms => Some (broadcast s who name ids params opts adms)
  | EvTake k =>
      m ← ns_queue s !! k;
      Some (withMessages s (delete k (ns_queue s)) (ns_delayed s) (ns_running s ++ [m]))
  | EvDue k adm =>
      m ← ns_delayed s !! k;
      Some (sendMsg (withMessages s (ns_queue s) (delete k (ns_delayed s)) (ns_running s)) m adm)
  | EvTransition cur id pre cont adm => Some (requestTransition s cur id pre cont adm).1
  | EvEnd i canceled ret err adm =>
      m ← ns_running s !! i;
      if isTransition m then None else
      let err := match dispatchBegin s m canceled with [] => err | stop => stop end in
      Some (finishDispatch (endDispatchOf s i) m ret err adm)
  | EvEndTransition i out adm =>
      m ← ns_running s !! i;
      if negb (isTransition m) then None else
      match out with
      | TransitionFails ErrEntityGroupTransitionScheduled => None
      | _ =>
          let s := endDispatchOf s i in
          match dispatchBegin s m None with
          | [] =>
              let '(s, err) := groupTransitionDispatch reg s (rq_GroupTransition m) out adm in
              Some (finishDispatch s m (AnyValue 0) err adm)
          | stop => Some (finishDispatch (loseRequest s (rq_GroupTransition m) LossFenced) m (AnyValue 0) stop adm)
          end
      end
  | EvReceive c =>
      match ns_clients s !! c, list_find (fun x => x.1 = c) (ns_sent s) with
      | Some None, Some (_, (_, a)) =>
          Some (withClients s (<[c := Some (waitResult (WaitReceived a))]> (ns_clients s)) (ns_next s) (ns_refused s))
      | _, _ => None
      end
  | EvGiveUp c context =>
      match ns_clients s !! c with
      | Some None =>
          let why := match context with Some code => WaitContext code | None => WaitTimer end in
          Some (withClients s (<[c := Some (waitResult why)]> (ns_clients s)) (ns_next s) (ns_refused s))
      | _ => None
      end
  end.

Fixpoint nestRun s (es : list nestEvent) : option NestMgr :=
  match es with
  | [] => Some s
  | e :: es => s' ← nestStep s e; nestRun s' es
  end.
End Steps.

(** ** Counting channels *)

Definition occ (c : nat) (o : option nat) : nat := if bool_decide (o = Some c) then 1%nat else 0%nat.

(** A number summed over the messages of the engine. *)
Definition msum (f : Msg -> nat) s : nat :=
  (sum_list_with f (ns_queue s) + sum_list_with f (ns_delayed s) + sum_list_with f (ns_running s))%nat.

Definition chanOf (c : nat) (m : Msg) : nat := occ c (rq_RetChan m).
Definition refersTo (p : nat) (m : Msg) : nat := occ p (rq_GroupTransition m).

(** Channels outside the messages: in continuations, used, refused, dropped. *)
Definition elsewhere s (c : nat) : nat :=
  (sum_list_with (fun r => occ c (contChan r)) (ns_transitions s)
   + sum_list_with (fun x => occ c (Some x.1)) (ns_sent s)
   + sum_list_with (fun x => occ c (Some x)) (ns_refused s)
   + sum_list_with (fun x => occ c (Some x.1)) (ns_lost s))%nat.

Definition total s (c : nat) : nat := (msum (chanOf c) s + elsewhere s c)%nat.

Lemma sum_app {A} (f : A -> nat) l k : sum_list_with f (l ++ k) = (sum_list_with f l + sum_list_with f k)%nat.
Proof. induction l as [|x l IH]; cbn; [done | rewrite IH; lia]. Qed.

Lemma sum_delete {A} (f : A -> nat) l i x :
  l !! i = Some x -> sum_list_with f l = (f x + sum_list_with f (delete i l))%nat.
Proof.
  intros Hi. rewrite <- (take_drop_middle l i x Hi) at 1. rewrite delete_take_drop, !sum_app. cbn. lia.
Qed.

Lemma occ_None c : occ c None = 0%nat.
Proof. done. Qed.

Lemma occ_Some c d : occ c (Some d) = if decide (d = c) then 1%nat else 0%nat.
Proof. unfold occ. destruct (decide (d = c)) as [-> |]; [by rewrite bool_decide_true | rewrite bool_decide_false; congruence]. Qed.

Lemma takeChan_cases s p :
  takeChan s p = (s, None)
  \/ exists q r, p = Some q /\ ns_transitions s !! q = Some r
       /\ takeChan s p = (withTransitions s (<[q := clearChan r]> (ns_transitions s)), contChan r).
Proof.
  unfold takeChan, pointerOf. destruct p as [q|]; [|by left]. cbn. destruct (ns_transitions s !! q) as [r|] eqn:Hr; [|by left].
  right. by exists q, r.
Qed.

Lemma contChan_clear r : contChan (clearChan r) = None.
Proof. unfold contChan, clearChan. cbn. by destruct (gt_Continuation r). Qed.

Section Counting.
Context (c : nat).

Lemma total_answer s o a : total (answer s o a) c = (total s c + occ c o)%nat.
Proof. destruct o; [|cbn; rewrite occ_None; lia]. unfold total, elsewhere, msum. cbn. rewrite sum_app. cbn. lia. Qed.

Lemma total_lose s o why : total (lose s o why) c = (total s c + occ c o)%nat.
Proof. destruct o; [|cbn; rewrite occ_None; lia]. unfold total, elsewhere, msum. cbn. rewrite sum_app. cbn. lia. Qed.

Lemma total_takeChan s p : total s c = (total (takeChan s p).1 c + occ c (takeChan s p).2)%nat.
Proof.
  destruct (takeChan_cases s p) as [-> | (q & r & -> & Hr & ->)]; cbn [fst snd]; [rewrite occ_None; lia|].
  unfold total, elsewhere, msum. cbn [withTransitions ns_queue ns_delayed ns_running ns_transitions ns_sent ns_refused ns_lost].
  pose proof (sum_insert (fun r => occ c (contChan r)) (ns_transitions s) q r (clearChan r) Hr) as Hs.
  cbn beta in Hs. rewrite contChan_clear, occ_None in Hs. lia.
Qed.

Lemma total_loseRequest s p why : total (loseRequest s p why) c = total s c.
Proof.
  unfold loseRequest. pose proof (total_takeChan s p). destruct (takeChan s p) as [s' o]. rewrite total_lose. cbn in *. lia.
Qed.

Lemma total_loseMsg s m why : total (loseMsg s m why) c = (total s c + chanOf c m)%nat.
Proof. unfold loseMsg. by rewrite total_loseRequest, total_lose. Qed.

Lemma total_loseAll ms s why : total (loseAll s ms why) c = (total s c + sum_list_with (chanOf c) ms)%nat.
Proof.
  unfold loseAll. revert s. induction ms as [|m ms IH]; intros s; cbn; [lia|]. rewrite IH, total_loseMsg. lia.
Qed.

Lemma total_messages s q d r :
  total (withMessages s q d r) c
  = (sum_list_with (chanOf c) q + sum_list_with (chanOf c) d + sum_list_with (chanOf c) r + elsewhere s c)%nat.
Proof. done. Qed.

Lemma total_is s :
  total s c = (sum_list_with (chanOf c) (ns_queue s) + sum_list_with (chanOf c) (ns_delayed s)
               + sum_list_with (chanOf c) (ns_running s) + elsewhere s c)%nat.
Proof. done. Qed.

Lemma total_sendMsg s m adm : total (sendMsg s m adm) c = (total s c + chanOf c m)%nat.
Proof.
  unfold sendMsg. destruct adm; [by rewrite total_loseRequest, total_answer|].
  rewrite total_messages, total_is, sum_app. cbn. lia.
Qed.

Lemma total_delaySendMsg s m adm : total (delaySendMsg s m adm) c = (total s c + chanOf c m)%nat.
Proof.
  unfold delaySendMsg. destruct adm; [by rewrite total_loseRequest, total_answer|].
  rewrite total_messages, total_is, sum_app. cbn. lia.
Qed.

Lemma total_admit s m opts : total (NestMgr_admit s m opts) c = (total s c + chanOf c m)%nat.
Proof. unfold NestMgr_admit. destruct (0 <? _); rewrite total_messages, total_is, sum_app; cbn; lia. Qed.

Lemma total_requeue s m err adm s' m' err' :
  requeueNestDispatch s m err adm = (s', m', err') -> (total s' c + chanOf c m' = total s c + chanOf c m)%nat.
Proof.
  unfold requeueNestDispatch. intros H.
  assert (Hgo : (if entityGroupDispatchRequeueMax <=? rq_PendingRequeues m then (s, m, err)
      else (delaySendMsg s (withRequeues m (rq_PendingRequeues m + 1)) adm, withRetChan m None, [])) = (s', m', err')
    -> (total s' c + chanOf c m' = total s c + chanOf c m)%nat).
  { destruct (_ <=? _); intros [= <- <- <-]; [done|]. rewrite total_delaySendMsg. unfold chanOf. cbn. rewrite occ_None. lia. }
  destruct (rq_Type m); try (by apply Hgo). by injection H as <- <- <-.
Qed.

Lemma total_finish s m ret err adm : total (finishDispatch s m ret err adm) c = (total s c + chanOf c m)%nat.
Proof.
  unfold finishDispatch.
  set (err0 := if errorsIs err ErrEntityGroupTransitionScheduled then [] else err). clearbody err0.
  assert (Hstep : forall (b : bool) s1 m1 err1 s2 m2 err2,
    (if b then requeueNestDispatch s1 m1 err1 adm else (s1, m1, err1)) = (s2, m2, err2) ->
    (total s2 c + chanOf c m2 = total s1 c + chanOf c m1)%nat).
  { intros [] s1 m1 err1 s2 m2 err2; [apply total_requeue | by intros [= <- <- <-]]. }
  destruct (if errorsIs err0 ErrEntityGroupTransitionPending then _ else _) as [[s1 m1] err1] eqn:H1.
  destruct (if transient err1 then _ else _) as [[s2 m2] err2] eqn:H2.
  rewrite total_answer. apply Hstep in H1, H2. unfold chanOf in *. lia.
Qed.

Lemma total_running s i m m' :
  ns_running s !! i = Some m ->
  (total (withMessages s (ns_queue s) (ns_delayed s) (<[i := m']> (ns_running s))) c + chanOf c m
   = total s c + chanOf c m')%nat.
Proof. intros Hi. rewrite total_messages, total_is. pose proof (sum_insert (chanOf c) _ _ _ m' Hi). lia. Qed.

Lemma total_bind s cur handler params s' ct :
  bindContinuation s cur handler params = Ok (s', ct) -> total s c = (total s' c + occ c (ct_RetChan ct))%nat.
Proof.
  unfold bindContinuation. destruct cur as [i|]; [|done]. cbn. destruct (ns_running s !! i) as [m|] eqn:Hi; [|done]. cbn.
  destruct (rq_RetChan m) as [c'|] eqn:Hc; [|done]. cbn. intros [= <- <-]. cbn [ct_RetChan].
  pose proof (total_running s i m (withRetChan m None) Hi) as H. unfold chanOf in H. rewrite Hc in H. cbn [rq_RetChan withRetChan] in H.
  rewrite occ_None in H. lia.
Qed.

Lemma total_alloc s r : total (withTransitions s (ns_transitions s ++ [r])) c = (total s c + occ c (contChan r))%nat.
Proof.
  unfold total, elsewhere, msum. cbn [withTransitions ns_queue ns_delayed ns_running ns_transitions ns_sent ns_refused ns_lost].
  rewrite sum_app. cbn [sum_list_with foldr]. lia.
Qed.

Lemma total_requestTransition s cur id pre cont adm :
  total (requestTransition s cur id pre cont adm).1 c = total s c.
Proof.
  unfold requestTransition. destruct pre; [|done].
  assert (Hgo : forall s1 ct, total s c = (total s1 c + occ c (ct ← ct; ct_RetChan ct))%nat ->
    total (sendMsg (withTransitions s1 (ns_transitions s1 ++ [mkTransition id 0 ct])) (transitionMsg id (length (ns_transitions s1))) adm) c
    = total s c).
  { intros s1 ct H. rewrite total_sendMsg, total_alloc. unfold chanOf, contChan. cbn [gt_Continuation rq_RetChan transitionMsg withTransition withTargets GenMsg].
    rewrite occ_None. lia. }
  destruct cont as [[handler params]|]; [|apply Hgo; cbn; rewrite occ_None; lia].
  destruct (bindContinuation s cur handler params) as [[s1 ct]|e] eqn:Hb; run_bind; [|done].
  cbn [fst]. apply Hgo. by apply total_bind in Hb.
Qed.

Lemma total_complete s p err : total (completeContinuation s p err) c = total s c.
Proof.
  unfold completeContinuation. destruct err; [done|]. pose proof (total_takeChan s p). destruct (takeChan s p) as [s' o].
  rewrite total_answer. cbn in *. lia.
Qed.

Lemma chanOf_remote reg m ids : chanOf c (checkRemoteIds reg m ids) = chanOf c m.
Proof. unfold checkRemoteIds. by destruct (existsb _ _). Qed.

Lemma total_dispatchContinuation reg s p adm : total (dispatchContinuation reg s p adm) c = total s c.
Proof.
  unfold dispatchContinuation. pose proof (total_takeChan s p) as Ht. destruct (pointerOf s p) as [[q r]|] eqn:Hp; [|done].
  destruct (gt_Continuation r) as [ct|] eqn:Hct; [|done]. destruct (ct_RetChan ct) as [c'|] eqn:Hc; [|done].
  destruct (String.eqb _ _); [apply total_loseRequest|]. rewrite total_sendMsg, chanOf_remote.
  assert (Hcc : contChan r = Some c') by (unfold contChan; by rewrite Hct).
  unfold takeChan in *. rewrite Hp in *. cbn [fst snd] in *. rewrite Hcc in Ht.
  unfold chanOf. cbn [rq_RetChan]. lia.
Qed.

Lemma total_retry s p r expired adm :
  ns_transitions s !! p = Some r -> total (retryTransition s p r expired adm).1 c = total s c.
Proof.
  intros Hp. unfold retryTransition.
  set (r' := mkTransition (gt_EntityID r) (gt_Attempts r + 1) (gt_Continuation r)).
  assert (Hs : total (withTransitions s (<[p := r']> (ns_transitions s))) c = total s c).
  { unfold total, elsewhere, msum. cbn [withTransitions ns_queue ns_delayed ns_running ns_transitions ns_sent ns_refused ns_lost].
    pose proof (sum_insert (fun r => occ c (contChan r)) (ns_transitions s) p r r' Hp) as H. cbn beta in H.
    change (contChan r') with (contChan r) in H. lia. }
  destruct (_ || _); cbn [fst]; [done|]. rewrite total_delaySendMsg, Hs. unfold chanOf. cbn. rewrite occ_None. lia.
Qed.

Lemma total_groupTransition reg s p out adm : total (groupTransitionDispatch reg s p out adm).1 c = total s c.
Proof.
  unfold groupTransitionDispatch. destruct (pointerOf s p) as [[q r]|] eqn:Hp; [|done].
  assert (Hq : ns_transitions s !! q = Some r).
  { unfold pointerOf in Hp. destruct p as [q'|]; [|done]. cbn in Hp. destruct (ns_transitions s !! q') eqn:E; naive_solver. }
  destruct out as [err | expired | | err].
  - apply total_complete.
  - pose proof (total_retry s q r expired adm Hq) as Hr. destruct (retryTransition s q r expired adm) as [s1 err].
    cbn [fst] in *. destruct (errorsIs _ _); [done|]. by rewrite total_complete.
  - apply total_dispatchContinuation.
  - apply total_loseRequest.
Qed.
End Counting.

(** ** Who refers to a transition *)

(** Messages of a transition, and only they, refer to a request; no message was
    requeued too often. *)
Definition malformed (m : Msg) : nat :=
  if eqb (isTransition m) (bool_decide (is_Some (rq_GroupTransition m)))
     && (0 <=? rq_PendingRequeues m) && (rq_PendingRequeues m <=? entityGroupDispatchRequeueMax)
  then 0%nat else 1%nat.

Lemma malformed_spec m :
  malformed m = 0%nat <->
  (isTransition m = true <-> is_Some (rq_GroupTransition m))
  /\ 0 <= rq_PendingRequeues m <= entityGroupDispatchRequeueMax.
Proof.
  unfold malformed. destruct (bool_decide_reflect (is_Some (rq_GroupTransition m))) as [Hs | Hs];
    destruct (isTransition m); cbn; destruct (Z.leb_spec 0 (rq_PendingRequeues m)); cbn;
    try destruct (Z.leb_spec (rq_PendingRequeues m) entityGroupDispatchRequeueMax); naive_solver lia.
Qed.

(** Every request has at most one message, counting the one in hand, and a
    request that holds a channel has one. *)
Definition refsOK s (x : option nat) : Prop :=
  forall p, (msum (refersTo p) s + occ p x <= 1)%nat
    /\ ((length (ns_transitions s) <= p)%nat -> (msum (refersTo p) s + occ p x = 0)%nat)
    /\ forall r, ns_transitions s !! p = Some r -> contChan r <> None -> (msum (refersTo p) s + occ p x = 1)%nat.

Definition sameMessages s s' : Prop :=
  ns_queue s' = ns_queue s /\ ns_delayed s' = ns_delayed s /\ ns_running s' = ns_running s.

Lemma msum_same f s s' : sameMessages s s' -> msum f s' = msum f s.
Proof. unfold msum. by intros (-> & -> & ->). Qed.

Lemma same_answer s o a : sameMessages s (answer s o a).
Proof. by destruct o. Qed.
Lemma same_lose s o why : sameMessages s (lose s o why).
Proof. by destruct o. Qed.
Lemma same_takeChan s p : sameMessages s (takeChan s p).1.
Proof. by destruct (takeChan_cases s p) as [-> | (q & r & -> & _ & ->)]. Qed.
Lemma same_loseRequest s p why : sameMessages s (loseRequest s p why).
Proof.
  unfold loseRequest. pose proof (same_takeChan s p). destruct (takeChan s p) as [s' o]. by destruct o.
Qed.

Lemma refs_same s s' x :
  sameMessages s s' -> ns_transitions s' = ns_transitions s -> refsOK s x -> refsOK s' x.
Proof. intros Hm Ht H p. rewrite (msum_same _ s s' Hm), Ht. apply H. Qed.

Lemma refs_answer s o a x : refsOK s x -> refsOK (answer s o a) x.
Proof. apply refs_same; [apply same_answer | by destruct o]. Qed.
Lemma refs_lose s o why x : refsOK s x -> refsOK (lose s o why) x.
Proof. apply refs_same; [apply same_lose | by destruct o]. Qed.

(** Taking the channel out of a request frees its message. *)
Lemma refs_takeChan s x : refsOK s x -> refsOK (takeChan s x).1 None.
Proof.
  intros H. destruct (takeChan_cases s x) as [E | (q & r & -> & Hr & ->)].
  - rewrite E. cbn [fst]. intros p. destruct (H p) as (H1 & H2 & H3). rewrite occ_None. split_and!; [lia | |].
    + intros Hp. specialize (H2 Hp). lia.
    + intros r Hr Hc. specialize (H3 r Hr Hc). destruct x as [q|]; [|done].
      rewrite occ_Some in H3. destruct (decide (q = p)) as [-> |]; [|lia].
      apply (f_equal snd) in E. unfold takeChan, pointerOf in E. cbn [mbind option_bind] in E. rewrite Hr in E. by destruct Hc.
  - cbn [fst]. intros p. destruct (H p) as (H1 & H2 & H3). rewrite occ_None.
    rewrite (msum_same _ s (withTransitions s _)) by done. cbn [withTransitions ns_transitions]. rewrite length_insert.
    split_and!; [lia | intros Hp; specialize (H2 Hp); lia |].
    intros r' Hr' Hc. destruct (decide (q = p)) as [-> |Hne].
    + rewrite list_lookup_insert_eq in Hr' by (by eapply lookup_lt_Some). injection Hr' as <-. by rewrite contChan_clear in Hc.
    + rewrite list_lookup_insert_ne in Hr' by done. specialize (H3 r' Hr' Hc). rewrite occ_Some in H3.
      rewrite decide_False in H3 by done. lia.
Qed.

Lemma refs_loseRequest s x why : refsOK s x -> refsOK (loseRequest s x why) None.
Proof.
  intros H%refs_takeChan. unfold loseRequest. destruct (takeChan s x) as [s' o]. by apply refs_lose.
Qed.

(** A message with the reference in hand goes into a queue. *)
Lemma refs_messages s q d r x y :
  (forall p, (sum_list_with (refersTo p) q + sum_list_with (refersTo p) d + sum_list_with (refersTo p) r + occ p y
              = msum (refersTo p) s + occ p x)%nat) ->
  refsOK s x -> refsOK (withMessages s q d r) y.
Proof. intros He H p. pose proof (H p) as Hp. rewrite <- (He p) in Hp. exact Hp. Qed.

Lemma refs_sendMsg s m adm : refsOK s (rq_GroupTransition m) -> refsOK (sendMsg s m adm) None.
Proof.
  intros H. unfold sendMsg. destruct adm; [by apply refs_loseRequest, refs_answer|].
  apply (refs_messages s _ _ _ (rq_GroupTransition m)); [|done]. intros p. unfold msum. rewrite sum_app, occ_None.
  cbn. unfold refersTo at 2. lia.
Qed.

Lemma refs_delaySendMsg s m adm : refsOK s (rq_GroupTransition m) -> refsOK (delaySendMsg s m adm) None.
Proof.
  intros H. unfold delaySendMsg. destruct adm; [by apply refs_loseRequest, refs_answer|].
  apply (refs_messages s _ _ _ (rq_GroupTransition m)); [|done]. intros p. unfold msum. rewrite sum_app, occ_None.
  cbn. unfold refersTo at 3. lia.
Qed.

(** The sums of a property of messages over the queues. *)
Lemma msum_sendMsg f s m adm : (msum f (sendMsg s m adm) <= msum f s + f m)%nat.
Proof.
  unfold sendMsg. destruct adm.
  - rewrite (msum_same f _ _ (same_loseRequest _ _ _)), (msum_same f _ _ (same_answer _ _ _)). lia.
  - unfold msum. cbn. rewrite sum_app. cbn. lia.
Qed.

Lemma msum_delaySendMsg f s m adm : (msum f (delaySendMsg s m adm) <= msum f s + f m)%nat.
Proof.
  unfold delaySendMsg. destruct adm.
  - rewrite (msum_same f _ _ (same_loseRequest _ _ _)), (msum_same f _ _ (same_answer _ _ _)). lia.
  - unfold msum. cbn. rewrite sum_app. cbn. lia.
Qed.

(** ** The invariant *)

Definition coreOK s (x : option nat) : Prop := refsOK s x /\ msum malformed s = 0%nat.

(** Nothing but calls of clients touches the callers; channels are only added to. *)
Definition frame s s' : Prop :=
  ns_clients s' = ns_clients s /\ ns_next s' = ns_next s /\ ns_refused s' = ns_refused s
  /\ exists l, ns_sent s' = ns_sent s ++ l.

Lemma frame_eq s s' :
  ns_clients s' = ns_clients s -> ns_next s' = ns_next s -> ns_refused s' = ns_refused s -> ns_sent s' = ns_sent s ->
  frame s s'.
Proof. intros ??? Hs. split_and!; [done..|]. exists []. by rewrite app_nil_r. Qed.

Lemma frame_refl s : frame s s.
Proof. by apply frame_eq. Qed.

Lemma frame_trans s1 s2 s3 : frame s1 s2 -> frame s2 s3 -> frame s1 s3.
Proof.
  intros (H1 & H2 & H3 & l & Hl) (K1 & K2 & K3 & k & Hk). split_and!; [congruence..|].
  exists (l ++ k). by rewrite Hk, Hl, app_assoc.
Qed.

Lemma frame_messages s q d r : frame s (withMessages s q d r).
Proof. by apply frame_eq. Qed.
Lemma frame_transitions s h : frame s (withTransitions s h).
Proof. by apply frame_eq. Qed.
Lemma frame_answer s o a : frame s (answer s o a).
Proof. destruct o; [|apply frame_refl]. split_and!; [done..|]. by eexists. Qed.
Lemma frame_lose s o why : frame s (lose s o why).
Proof. by destruct o; apply frame_eq. Qed.

Lemma frame_takeChan s p : frame s (takeChan s p).1.
Proof. destruct (takeChan_cases s p) as [-> | (q & r & _ & _ & ->)]; by apply frame_eq. Qed.

Lemma frame_loseRequest s p why : frame s (loseRequest s p why).
Proof.
  unfold loseRequest. pose proof (frame_takeChan s p) as H. destruct (takeChan s p) as [s' o].
  eapply frame_trans; [exact H | apply frame_lose].
Qed.

Lemma frame_loseMsg s m why : frame s (loseMsg s m why).
Proof. eapply frame_trans; [apply frame_lose | apply frame_loseRequest]. Qed.

Lemma frame_loseAll ms s why : frame s (loseAll s ms why).
Proof.
  unfold loseAll. revert s. induction ms as [|m ms IH]; intros s; [apply frame_refl|].
  eapply frame_trans; [apply frame_loseMsg | apply IH].
Qed.

Lemma frame_sendMsg s m adm : frame s (sendMsg s m adm).
Proof.
  unfold sendMsg. destruct adm; [|apply frame_messages].
  eapply frame_trans; [apply frame_answer | apply frame_loseRequest].
Qed.

Lemma frame_delaySendMsg s m adm : frame s (delaySendMsg s m adm).
Proof.
  unfold delaySendMsg. destruct adm; [|apply frame_messages].
  eapply frame_trans; [apply frame_answer | apply frame_loseRequest].
Qed.

Lemma frame_complete s p err : frame s (completeContinuation s p err).
Proof.
  unfold completeContinuation. destruct err; [apply frame_refl|]. pose proof (frame_takeChan s p) as H.
  destruct (takeChan s p) as [s' o]. eapply frame_trans; [exact H | apply frame_answer].
Qed.

Lemma core_sendMsg s m adm : coreOK s (rq_GroupTransition m) -> malformed m = 0%nat -> coreOK (sendMsg s m adm) None.
Proof. intros [H1 H2] Hm. split; [by apply refs_sendMsg|]. pose proof (msum_sendMsg malformed s m adm). lia. Qed.

Lemma core_delaySendMsg s m adm :
  coreOK s (rq_GroupTransition m) -> malformed m = 0%nat -> coreOK (delaySendMsg s m adm) None.
Proof. intros [H1 H2] Hm. split; [by apply refs_delaySendMsg|]. pose proof (msum_delaySendMsg malformed s m adm). lia. Qed.

Lemma core_answer s o a x : coreOK s x -> coreOK (answer s o a) x.
Proof. intros [H1 H2]. split; [by apply refs_answer|]. by rewrite (msum_same _ _ _ (same_answer _ _ _)). Qed.

Lemma core_takeChan s x : coreOK s x -> coreOK (takeChan s x).1 None.
Proof. intros [H1 H2]. split; [by apply refs_takeChan|]. by rewrite (msum_same _ _ _ (same_takeChan _ _)). Qed.

Lemma core_loseRequest s x why : coreOK s x -> coreOK (loseRequest s x why) None.
Proof. intros [H1 H2]. split; [by apply refs_loseRequest|]. by rewrite (msum_same _ _ _ (same_loseRequest _ _ _)). Qed.

Lemma core_loseMsg s m why : coreOK s (rq_GroupTransition m) -> coreOK (loseMsg s m why) None.
Proof.
  intros [H1 H2]. apply core_loseRequest. split; [by apply refs_lose|]. by rewrite (msum_same _ _ _ (same_lose _ _ _)).
Qed.

Lemma core_complete s x err : err <> [] -> coreOK s x -> coreOK (completeContinuation s x err) None.
Proof.
  intros He H%core_takeChan. unfold completeContinuation. destruct err; [done|]. destruct (takeChan s x).
  by apply core_answer.
Qed.

(** A request without a channel, or out of the heap, is forgotten. *)
Lemma core_forget s x : snd (takeChan s x) = None -> coreOK s x -> coreOK s None.
Proof.
  intros Hc [H1 H2]. split; [|done]. intros p. destruct (H1 p) as (Ha & Hb & Hd). rewrite occ_None.
  split_and!; [lia | intros Hp; specialize (Hb Hp); lia |]. intros r Hr Hcc. specialize (Hd r Hr Hcc).
  destruct x as [q|]; [|by rewrite occ_None in Hd]. rewrite occ_Some in Hd. destruct (decide (q = p)) as [-> |]; [|lia].
  unfold takeChan, pointerOf in Hc. cbn [mbind option_bind] in Hc. rewrite Hr in Hc. by destruct Hcc.
Qed.

Lemma requeue_ok s m err adm s' m' err' :
  malformed m = 0%nat -> coreOK s None -> requeueNestDispatch s m err adm = (s', m', err') ->
  coreOK s' None /\ frame s s' /\ malformed m' = 0%nat.
Proof.
  intros Hm Hs H. pose proof (proj1 (malformed_spec m) Hm) as [Hgt Hrq].
  assert (Hgo : isTransition m = false ->
    (if entityGroupDispatchRequeueMax <=? rq_PendingRequeues m then (s, m, err)
      else (delaySendMsg s (withRequeues m (rq_PendingRequeues m + 1)) adm, withRetChan m None, [])) = (s', m', err')
    -> coreOK s' None /\ frame s s' /\ malformed m' = 0%nat).
  { intros Hty. assert (Hnone : rq_GroupTransition m = None).
    { destruct (rq_GroupTransition m) as [p|] eqn:E; [|done]. rewrite (proj2 Hgt) in Hty by eauto. done. }
    destruct (Z.leb_spec entityGroupDispatchRequeueMax (rq_PendingRequeues m)); intros [= <- <- <-].
    - split_and!; [done | apply frame_refl | done].
    - split_and!; [| apply frame_delaySendMsg | done]. apply core_delaySendMsg; [cbn; by rewrite Hnone|].
      apply malformed_spec. cbn. split; [exact Hgt | lia]. }
  unfold requeueNestDispatch in H. unfold isTransition in Hgo. destruct (rq_Type m); try (by apply Hgo).
  injection H as <- <- <-. split_and!; [done | apply frame_refl | done].
Qed.

Lemma finishDispatch_ok s m ret err adm :
  malformed m = 0%nat -> coreOK s None ->
  coreOK (finishDispatch s m ret err adm) None /\ frame s (finishDispatch s m ret err adm).
Proof.
  intros Hm Hs. unfold finishDispatch.
  set (err0 := if errorsIs err ErrEntityGroupTransitionScheduled then [] else err). clearbody err0.
  assert (Hstep : forall (b : bool) s1 m1 err1 s2 m2 err2, malformed m1 = 0%nat -> coreOK s1 None ->
    (if b then requeueNestDispatch s1 m1 err1 adm else (s1, m1, err1)) = (s2, m2, err2) ->
    coreOK s2 None /\ frame s1 s2 /\ malformed m2 = 0%nat).
  { intros [] s1 m1 err1 s2 m2 err2 ??; [by apply requeue_ok |].
    intros [= <- <- <-]. split_and!; [done | apply frame_refl | done]. }
  destruct (if errorsIs err0 ErrEntityGroupTransitionPending then _ else _) as [[s1 m1] err1] eqn:H1.
  destruct (if transient err1 then _ else _) as [[s2 m2] err2] eqn:H2.
  apply Hstep in H1 as (Hs1 & Hf1 & Hm1); [|done..]. apply Hstep in H2 as (Hs2 & Hf2 & Hm2); [|done..].
  split; [by apply core_answer|]. eapply frame_trans; [exact Hf1|]. eapply frame_trans; [exact Hf2 | apply frame_answer].
Qed.

Lemma bindContinuation_ok s cur handler params s' ct :
  bindContinuation s cur handler params = Ok (s', ct) -> coreOK s None ->
  coreOK s' None /\ frame s s' /\ ns_transitions s' = ns_transitions s.
Proof.
  unfold bindContinuation. destruct cur as [i|]; [|done]. cbn. destruct (ns_running s !! i) as [m|] eqn:Hi; [|done]. cbn.
  destruct (rq_RetChan m) as [c'|]; [|done]. cbn. intros [= <- <-] [H1 H2].
  split_and!; [|apply frame_messages|done]. split.
  - apply (refs_messages s _ _ _ None); [|done]. intros p. unfold msum.
    pose proof (sum_insert (refersTo p) _ _ _ (withRetChan m None) Hi) as Hs.
    change (refersTo p (withRetChan m None)) with (refersTo p m) in Hs. lia.
  - pose proof (sum_insert malformed _ _ _ (withRetChan m None) Hi) as Hs.
    change (malformed (withRetChan m None)) with (malformed m) in Hs. unfold msum in *. cbn. lia.
Qed.

(** A new request, with its only reference in hand. *)
Lemma core_alloc s r : coreOK s None -> coreOK (withTransitions s (ns_transitions s ++ [r])) (Some (length (ns_transitions s))).
Proof.
  intros [H1 H2]. split; [|done]. intros p. destruct (H1 p) as (Ha & Hb & Hd). rewrite occ_None in *.
  rewrite (msum_same _ s (withTransitions s _)) by done. cbn [withTransitions ns_transitions]. rewrite length_app, occ_Some. cbn [length].
  destruct (decide (length (ns_transitions s) = p)) as [<- |Hne].
  - split_and!; [lia | lia |]. intros r' _ _. specialize (Hb ltac:(lia)). lia.
  - split_and!; [lia | intros Hp; specialize (Hb ltac:(lia)); lia |]. intros r' Hr' Hc.
    rewrite Nat.add_0_r. rewrite Nat.add_0_r in Hd. apply (Hd r'); [|done]. destruct (decide (p < length (ns_transitions s))%nat).
    + by rewrite lookup_app_l in Hr'.
    + apply lookup_lt_Some in Hr'. rewrite length_app in Hr'. cbn in Hr'. lia.
Qed.

Lemma transitionMsg_ok id p : malformed (transitionMsg id p) = 0%nat.
Proof. apply malformed_spec. cbn. unfold entityGroupDispatchRequeueMax. split; [by split; eauto | lia]. Qed.

Lemma requestTransition_ok s cur id pre cont adm :
  coreOK s None ->
  coreOK (requestTransition s cur id pre cont adm).1 None /\ frame s (requestTransition s cur id pre cont adm).1.
Proof.
  intros Hs. unfold requestTransition. destruct pre; [|split; [done | apply frame_refl]].
  assert (Hgo : forall s1 ct, coreOK s1 None -> frame s s1 ->
    let s2 := sendMsg (withTransitions s1 (ns_transitions s1 ++ [mkTransition id 0 ct]))
                (transitionMsg id (length (ns_transitions s1))) adm in coreOK s2 None /\ frame s s2).
  { intros s1 ct H1 Hf. split.
    - apply core_sendMsg; [by apply core_alloc | apply transitionMsg_ok].
    - eapply frame_trans; [exact Hf|]. eapply frame_trans; [apply frame_transitions | apply frame_sendMsg]. }
  destruct cont as [[handler params]|]; [|apply Hgo; [done | apply frame_refl]].
  destruct (bindContinuation s cur handler params) as [[s1 ct]|e] eqn:Hb; run_bind; [|split; [done | apply frame_refl]].
  destruct (bindContinuation_ok _ _ _ _ _ _ Hb Hs) as (? & ? & _). by apply Hgo.
Qed.

Lemma remote_ok reg m ids : malformed (checkRemoteIds reg m ids) = malformed m
  /\ rq_GroupTransition (checkRemoteIds reg m ids) = rq_GroupTransition m.
Proof. unfold checkRemoteIds. by destruct (existsb _ _). Qed.

Lemma pointerOf_None s x : pointerOf s x = None -> snd (takeChan s x) = None.
Proof. unfold takeChan. by intros ->. Qed.

Lemma dispatchContinuation_ok reg s x adm :
  coreOK s x -> coreOK (dispatchContinuation reg s x adm) None /\ frame s (dispatchContinuation reg s x adm).
Proof.
  intros Hs. unfold dispatchContinuation.
  assert (Hforget : snd (takeChan s x) = None -> coreOK s None /\ frame s s).
  { intros Hc. split; [by apply (core_forget s x) | apply frame_refl]. }
  unfold takeChan in Hforget. destruct (pointerOf s x) as [[q r]|] eqn:Hp; [|by apply Hforget].
  destruct (gt_Continuation r) as [ct|] eqn:Hct; [|apply Hforget; cbn; unfold contChan; by rewrite Hct].
  destruct (ct_RetChan ct) as [c|] eqn:Hc; [|apply Hforget; cbn; unfold contChan; rewrite Hct; exact Hc].
  destruct (String.eqb _ _); [split; [by apply core_loseRequest | apply frame_loseRequest]|].
  split.
  - apply core_sendMsg; rewrite ?(proj1 (remote_ok _ _ _)), ?(proj2 (remote_ok _ _ _)); [by apply core_takeChan | done].
  - eapply frame_trans; [apply frame_takeChan | apply frame_sendMsg].
Qed.

Lemma groupTransition_ok reg s x out adm :
  coreOK s x -> out <> TransitionFails ErrEntityGroupTransitionScheduled ->
  coreOK (groupTransitionDispatch reg s x out adm).1 None /\ frame s (groupTransitionDispatch reg s x out adm).1.
Proof.
  intros Hs Hout. unfold groupTransitionDispatch. destruct (pointerOf s x) as [[q r]|] eqn:Hp.
  2: { split; [apply (core_forget s x); [by apply pointerOf_None | done] | apply frame_refl]. }
  assert (x = Some q /\ ns_transitions s !! q = Some r) as [-> Hq].
  { unfold pointerOf in Hp. destruct x as [q'|]; [|done]. cbn in Hp. destruct (ns_transitions s !! q') eqn:E; naive_solver. }
  destruct out as [err | expired | | err]; cbn [fst].
  - split; [by apply core_complete | apply frame_complete].
  - unfold retryTransition. set (r' := mkTransition (gt_EntityID r) (gt_Attempts r + 1) (gt_Continuation r)).
    set (s1 := withTransitions s (<[q := r']> (ns_transitions s))).
    assert (H1 : coreOK s1 (Some q)).
    { destruct Hs as [Ha Hb]. split; [|done]. intros p. destruct (Ha p) as (K1 & K2 & K3).
      rewrite (msum_same _ s s1) by done. cbn [s1 withTransitions ns_transitions]. rewrite length_insert.
      split_and!; [done..|]. intros r0 Hr0 Hc. destruct (decide (q = p)) as [<- |].
      - rewrite list_lookup_insert_eq in Hr0 by (by eapply lookup_lt_Some). injection Hr0 as <-. by apply (K3 r).
      - rewrite list_lookup_insert_ne in Hr0 by done. by apply (K3 r0). }
    destruct (_ || expired).
    + split; [by apply core_complete | eapply frame_trans; [apply frame_transitions | apply frame_complete]].
    + assert (E : errorsIs [ErrEntityGroupTransitionScheduled] ErrEntityGroupTransitionScheduled = true)
        by (apply bool_decide_true; set_solver). rewrite E. cbn [fst].
      split; [apply core_delaySendMsg; [done | apply transitionMsg_ok]|].
      eapply frame_trans; [apply frame_transitions | apply frame_delaySendMsg].
  - by apply dispatchContinuation_ok.
  - split; [by apply core_loseRequest | apply frame_loseRequest].
Qed.

(** Every channel that was made is in one place, and the callers are those of
    the channels. *)
Record nestOK s : Prop := {
  no_total c : total s c = if decide (c < ns_next s)%nat then 1%nat else 0%nat;
  no_core : coreOK s None;
  no_clients c : is_Some (ns_clients s !! c) <-> (c < ns_next s)%nat;
  no_returned c r : ns_clients s !! c = Some (Some r) ->
    (exists a, (c, a) ∈ ns_sent s /\ r = waitResult (WaitReceived a))
    \/ (exists code, r = waitResult (WaitContext code)) \/ r = waitResult WaitTimer
    \/ c ∈ ns_refused s }.

Lemma NewEngine_ok : nestOK NewEngine.
Proof.
  split; [done | | |].
  - split; [|done]. intros p. cbn. rewrite occ_None. split_and!; [lia|done|done].
  - intros c. cbn. rewrite lookup_empty. split; [by intros [? ?] | lia].
  - intros c r. cbn. by rewrite lookup_empty.
Qed.

Lemma nestOK_frame s s' :
  nestOK s -> frame s s' -> (forall c, total s' c = total s c) -> coreOK s' None -> nestOK s'.
Proof.
  intros [Ht Hc Hcl Hr] (E1 & E2 & E3 & l & E4) Htot Hcore. split; [|done| |].
  - intros c. by rewrite Htot, E2.
  - intros c. by rewrite E1, E2.
  - intros c r. rewrite E1, E3, E4. intros H%Hr. destruct H as [(a & Ha & ->) | H]; [left | by right].
    exists a. split; [|done]. apply elem_of_app. by left.
Qed.

(** A message is taken out of where it is. *)
Lemma take_message s q d r m :
  (forall f, msum f s = (f m + (sum_list_with f q + sum_list_with f d + sum_list_with f r))%nat) -> coreOK s None ->
  coreOK (withMessages s q d r) (rq_GroupTransition m) /\ malformed m = 0%nat
  /\ forall c, total s c = (total (withMessages s q d r) c + chanOf c m)%nat.
Proof.
  intros He [H1 H2]. split_and!.
  - split.
    + apply (refs_messages s _ _ _ None); [|done]. intros p. rewrite He, occ_None. unfold refersTo at 4. lia.
    + pose proof (He malformed). unfold msum in *. cbn. lia.
  - pose proof (He malformed). lia.
  - intros c. unfold total at 1. rewrite He, total_messages. lia.
Qed.

Lemma withRetChan_fields m ch name params wait opts sw :
  let m' := prepareClientMessage (withRetChan m ch) name params wait opts sw in
  rq_RetChan m' = ch /\ rq_GroupTransition m' = rq_GroupTransition m /\ malformed m' = malformed m.
Proof. done. Qed.

Lemma remote_chan reg m ids : rq_RetChan (checkRemoteIds reg m ids) = rq_RetChan m.
Proof. unfold checkRemoteIds. by destruct (existsb _ _). Qed.

Lemma clientMessage_ok reg fenced running who name t params opts ch m :
  clientMessage reg fenced running who name t params opts ch = Ok m ->
  rq_RetChan m = ch /\ rq_GroupTransition m = None /\ malformed m = 0%nat.
Proof.
  unfold clientMessage, checkRemoteGroups. intros H.
  destruct t as [id | ids | groups]; ok_inv;
    rewrite remote_chan, (proj1 (remote_ok _ _ _)), (proj2 (remote_ok _ _ _)); done.
Qed.

Section Preservation.
Context (reg : Registry) (groupFunc : option (Z -> Z)) (workerNum : Z).

Lemma admit_ok s m opts :
  coreOK s None -> rq_GroupTransition m = None -> malformed m = 0%nat ->
  coreOK (NestMgr_admit s m opts) None /\ frame s (NestMgr_admit s m opts).
Proof.
  intros Hs Hg Hm. rewrite <- Hg in Hs. unfold NestMgr_admit. destruct (0 <? _).
  - split; [exact (core_delaySendMsg s m None Hs Hm) | apply frame_messages].
  - split; [exact (core_sendMsg s m None Hs Hm) | apply frame_messages].
Qed.

Lemma clientRequest_ok s who name t params opts adm : nestOK s -> nestOK (request reg s who name t params opts adm).
Proof.
  intros Hs. unfold request. destruct (clientMessage _ _ _ _ _ _ _ _ _) as [m|e] eqn:Hm; [|done].
  apply clientMessage_ok in Hm as (Hc & Hg & Hmal). destruct Hs as [Ht Hcore Hcl Hr]. set (n := ns_next s) in *.
  assert (Hfresh : ns_clients s !! n = None).
  { destruct (ns_clients s !! n) eqn:E; [|done]. assert (n < n)%nat by (apply Hcl; eauto). lia. }
  assert (Hdom : forall (o : option (result errs Z)) c, is_Some (<[n := o]> (ns_clients s) !! c) <-> (c < S n)%nat).
  { intros o c. destruct (decide (n = c)) as [<- |Hne]; [rewrite lookup_insert_eq; split; [lia | eauto]|].
    rewrite lookup_insert_ne, Hcl by done. lia. }
  destruct adm as [e|].
  - split; [| exact Hcore | exact (Hdom _) |].
    + intros c. specialize (Ht c). unfold total, elsewhere, msum in *.
      cbn [withClients ns_queue ns_delayed ns_running ns_transitions ns_sent ns_refused ns_lost ns_next].
      rewrite sum_app. cbn [sum_list_with foldr]. rewrite occ_Some.
      destruct (decide (n = c)), (decide (c < n)%nat), (decide (c < S n)%nat); lia.
    + intros c r. cbn. destruct (decide (n = c)) as [<- |Hne].
      * intros _. right. right. right. apply elem_of_app. right. by left.
      * rewrite lookup_insert_ne by done. intros H%Hr. rewrite elem_of_app. tauto.
  - set (s1 := withClients s (<[n := None]> (ns_clients s)) (S n) (ns_refused s)).
    destruct (admit_ok s1 m opts Hcore Hg Hmal) as [Hcore' (E1 & E2 & E3 & l & E4)].
    split; [| exact Hcore' | |].
    + intros c. rewrite total_admit, E2. specialize (Ht c). change (total s1 c) with (total s c). rewrite Ht. unfold chanOf.
      rewrite Hc, occ_Some. cbn. destruct (decide (n = c)), (decide (c < n)%nat), (decide (c < S n)%nat); lia.
    + intros c. rewrite E1, E2. exact (Hdom _ c).
    + intros c r. rewrite E1, E3, E4. cbn. destruct (decide (n = c)) as [<- |Hne]; [by rewrite lookup_insert_eq|].
      rewrite lookup_insert_ne by done. intros [(a & Ha & ->) | H]%Hr; [left | by right].
      exists a. split; [|done]. apply elem_of_app. by left.
Qed.

Lemma admitAll_ok ms s opts adms :
  Forall (fun m => rq_RetChan m = None /\ rq_GroupTransition m = None /\ malformed m = 0%nat) ms ->
  nestOK s -> nestOK (admitAll s ms opts adms).
Proof.
  intros Hms. revert s adms. induction Hms as [|m ms (Hc & Hg & Hm) _ IH]; intros s adms Hs; [done|].
  destruct adms as [|[e|] adms]; [done..|]. cbn. apply IH.
  destruct (admit_ok s m opts (no_core _ Hs) Hg Hm) as [Hcore Hf].
  apply (nestOK_frame s); [done..| |done]. intros c. rewrite total_admit. unfold chanOf. by rewrite Hc, occ_None, Nat.add_0_r.
Qed.

Lemma broadcast_ok s who name ids params opts adms :
  nestOK s -> nestOK (broadcast reg groupFunc workerNum s who name ids params opts adms).
Proof.
  intros Hs. unfold broadcast, broadcastMessages. destruct (_ ≫= _) as [ms|] eqn:Hms; [|done]. ok_inv.
  apply admitAll_ok; [|done]. apply Forall_fmap, Forall_forall. intros b _. cbn.
  by rewrite remote_chan, (proj1 (remote_ok _ _ _)), (proj2 (remote_ok _ _ _)).
Qed.

Lemma loseMsg_messages s q d r m why :
  loseMsg (withMessages s q d r) m why = withMessages (loseMsg s m why) q d r.
Proof.
  unfold loseMsg, loseRequest, takeChan, pointerOf.
  assert (Hl : forall s o, lose (withMessages s q d r) o why = withMessages (lose s o why) q d r) by (by intros ? []).
  rewrite Hl. cbn [withMessages ns_transitions].
  destruct (rq_GroupTransition m) as [p|]; cbn [mbind option_bind]; [|done].
  destruct (ns_transitions (lose s (rq_RetChan m) why) !! p) as [r0|]; cbn [mbind option_bind]; [|done].
  exact (Hl (withTransitions (lose s (rq_RetChan m) why) _) (contChan r0)).
Qed.

Lemma loseAll_ok ms s q r why :
  coreOK (withMessages s q ms r) None -> coreOK (loseAll (withMessages s q [] r) ms why) None.
Proof.
  revert s. induction ms as [|m ms IH]; intros s Hs; [done|].
  destruct (take_message (withMessages s q (m :: ms) r) q ms r m) as (Hm & _); [|exact Hs|].
  { intros f. unfold msum. cbn. lia. }
  unfold loseAll. cbn [foldl]. rewrite loseMsg_messages. apply IH. rewrite <- loseMsg_messages. by apply core_loseMsg.
Qed.

Lemma life_ok s l : nestOK s -> nestOK (withLife s l).
Proof. intros []. by split. Qed.

Lemma stopDelayed_ok s :
  nestOK s -> nestOK (loseAll (withMessages s (ns_queue s) [] (ns_running s)) (ns_delayed s) LossStopped).
Proof.
  intros Hs. apply (nestOK_frame s); [done| | |].
  - eapply frame_trans; [apply frame_messages | apply frame_loseAll].
  - intros c. rewrite total_loseAll, total_messages, total_is. cbn. lia.
  - apply loseAll_ok. pose proof (no_core _ Hs). by destruct s.
Qed.

Lemma dispatch_ok s who name t params opts adm : nestOK s -> nestOK (dispatch reg s who name t params opts adm).
Proof.
  intros Hs. unfold dispatch. destruct (clientMessage _ _ _ _ _ _ _ _ _) as [m|] eqn:Hm; [|done].
  destruct adm; [done|]. apply clientMessage_ok in Hm as (Hc & Hg & Hmal).
  destruct (admit_ok s m opts (no_core _ Hs) Hg Hmal) as [H1 H2]. apply (nestOK_frame s); [done..| |done].
  intros c. rewrite total_admit. unfold chanOf. by rewrite Hc, occ_None, Nat.add_0_r.
Qed.

Lemma takeQueued_ok s k m :
  nestOK s -> ns_queue s !! k = Some m ->
  nestOK (withMessages s (delete k (ns_queue s)) (ns_delayed s) (ns_running s ++ [m])).
Proof.
  intros Hs Hk. set (s' := withMessages _ _ _ _).
  assert (Hsum : forall f, msum f s' = msum f s).
  { intros f. unfold msum. rewrite (sum_delete f _ _ _ Hk). cbn. rewrite sum_app. cbn. lia. }
  apply (nestOK_frame s); [done | apply frame_messages | |].
  - intros c. unfold total. by rewrite Hsum.
  - destruct (no_core _ Hs) as [H1 H2]. split; [|by rewrite Hsum]. intros p. rewrite Hsum. apply H1.
Qed.

(** What follows a message taken out of [s]: [s1] without it, then [s2]. *)
Lemma handled_ok s s1 s2 m :
  nestOK s -> frame s s1 -> (forall c, total s c = (total s1 c + chanOf c m)%nat) ->
  frame s1 s2 -> (forall c, total s2 c = (total s1 c + chanOf c m)%nat) -> coreOK s2 None -> nestOK s2.
Proof.
  intros Hs Hf1 Ht1 Hf2 Ht2 Hc. apply (nestOK_frame s); [done | by eapply frame_trans | | done].
  intros c. rewrite Ht2. symmetry. apply Ht1.
Qed.

Lemma workerClosed_ok s k m :
  nestOK s -> ns_queue s !! k = Some m ->
  nestOK (loseMsg (withMessages s (delete k (ns_queue s)) (ns_delayed s) (ns_running s)) m LossWorkerClosed).
Proof.
  intros Hs Hk.
  destruct (take_message s (delete k (ns_queue s)) (ns_delayed s) (ns_running s) m) as (H1 & _ & H3); [|apply Hs|].
  { intros f. unfold msum. rewrite (sum_delete f _ _ _ Hk). lia. }
  eapply handled_ok; [exact Hs | apply frame_messages | exact H3 | apply frame_loseMsg | intros c; apply total_loseMsg |].
  by apply core_loseMsg.
Qed.

Lemma due_ok s k m adm :
  nestOK s -> ns_delayed s !! k = Some m ->
  nestOK (sendMsg (withMessages s (ns_queue s) (delete k (ns_delayed s)) (ns_running s)) m adm).
Proof.
  intros Hs Hk.
  destruct (take_message s (ns_queue s) (delete k (ns_delayed s)) (ns_running s) m) as (H1 & H2 & H3); [|apply Hs|].
  { intros f. unfold msum. rewrite (sum_delete f _ _ _ Hk). lia. }
  eapply handled_ok; [exact Hs | apply frame_messages | exact H3 | apply frame_sendMsg | intros c; apply total_sendMsg |].
  by apply core_sendMsg.
Qed.

Lemma leave_ok s i m :
  nestOK s -> ns_running s !! i = Some m ->
  coreOK (endDispatchOf s i) (rq_GroupTransition m) /\ malformed m = 0%nat
  /\ forall c, total s c = (total (endDispatchOf s i) c + chanOf c m)%nat.
Proof.
  intros Hs Hi. apply take_message; [|apply Hs]. intros f. unfold msum. rewrite (sum_delete f _ _ _ Hi). lia.
Qed.

Lemma end_ok s i m ret err adm :
  nestOK s -> ns_running s !! i = Some m -> isTransition m = false ->
  nestOK (finishDispatch (endDispatchOf s i) m ret err adm).
Proof.
  intros Hs Hi Hty. destruct (leave_ok s i m Hs Hi) as (H1 & H2 & H3).
  assert (Hg : rq_GroupTransition m = None).
  { apply malformed_spec in H2 as [H2 _]. destruct (rq_GroupTransition m) eqn:E; [|done].
    rewrite (proj2 H2) in Hty by eauto. done. }
  rewrite Hg in H1. destruct (finishDispatch_ok (endDispatchOf s i) m ret err adm H2 H1) as [H4 H5].
  eapply handled_ok; [exact Hs | apply frame_messages | exact H3 | exact H5 | intros c; apply total_finish | done].
Qed.

Lemma endTransition_ok s i m s1 err adm :
  nestOK s -> ns_running s !! i = Some m ->
  coreOK s1 None -> frame (endDispatchOf s i) s1 -> (forall c, total s1 c = total (endDispatchOf s i) c) ->
  nestOK (finishDispatch s1 m (AnyValue 0) err adm).
Proof.
  intros Hs Hi K1 K2 K3. destruct (leave_ok s i m Hs Hi) as (_ & H2 & H3).
  destruct (finishDispatch_ok s1 m (AnyValue 0) err adm H2 K1) as [K4 K5].
  apply (nestOK_frame s); [done | | | done].
  - eapply frame_trans; [apply frame_messages|]. by eapply frame_trans.
  - intros c. rewrite total_finish, K3. symmetry. apply H3.
Qed.

(** A caller that waits returns. *)
Lemma return_ok s c r :
  nestOK s -> ns_clients s !! c = Some None ->
  (exists a, (c, a) ∈ ns_sent s /\ r = waitResult (WaitReceived a))
    \/ (exists code, r = waitResult (WaitContext code)) \/ r = waitResult WaitTimer ->
  nestOK (withClients s (<[c := Some r]> (ns_clients s)) (ns_next s) (ns_refused s)).
Proof.
  intros [Ht Hcore Hcl Hr] Hc Hwhy. split; [exact Ht | exact Hcore | |].
  - intros d. cbn. rewrite <- Hcl. destruct (decide (c = d)) as [<- |]; [rewrite lookup_insert_eq, Hc; split; eauto|].
    by rewrite lookup_insert_ne.
  - intros d r'. cbn. destruct (decide (c = d)) as [<- |Hne]; [|rewrite lookup_insert_ne by done; apply Hr].
    rewrite lookup_insert_eq. intros [= <-]. tauto.
Qed.

Lemma nestStep_ok s e s' : nestOK s -> nestStep reg groupFunc workerNum s e = Some s' -> nestOK s'.
Proof.
  intros Hs He. destruct e as [getterSet | cause | | | k | who name t params opts adm | who name t params opts adm
    | who name ids params opts adms | k | k adm | cur id pre cont adm | i canceled ret err adm | i out adm | c | c context];
    cbn [nestStep] in He.
  - injection He as <-. unfold NestMgr_Start. repeat case_match; try done. by apply life_ok.
  - injection He as <-. by apply life_ok.
  - injection He as <-. by apply life_ok.
  - case_match; [|done]. injection He as <-. by apply stopDelayed_ok.
  - case_match; [|done]. destruct (ns_queue s !! k) as [m|] eqn:Hk; [|done]. injection He as <-. by apply workerClosed_ok.
  - injection He as <-. by apply clientRequest_ok.
  - injection He as <-. by apply dispatch_ok.
  - injection He as <-. by apply broadcast_ok.
  - destruct (ns_queue s !! k) as [m|] eqn:Hk; [|done]. injection He as <-. by apply takeQueued_ok.
  - destruct (ns_delayed s !! k) as [m|] eqn:Hk; [|done]. injection He as <-. by apply due_ok.
  - injection He as <-. destruct (requestTransition_ok s cur id pre cont adm (no_core _ Hs)) as [H1 H2].
    apply (nestOK_frame s); [done..| |done]. intros c. apply total_requestTransition.
  - destruct (ns_running s !! i) as [m|] eqn:Hi; [|done]. cbn in He. destruct (isTransition m) eqn:Hty; [done|].
    injection He as <-. by apply end_ok.
  - destruct (ns_running s !! i) as [m|] eqn:Hi; [|done]. cbn in He. destruct (isTransition m); [|done]. cbn in He.
    assert (Hout : out <> TransitionFails ErrEntityGroupTransitionScheduled) by (by intros ->).
    assert (He' : match dispatchBegin (endDispatchOf s i) m None with
      | [] => let '(s, err) := groupTransitionDispatch reg (endDispatchOf s i) (rq_GroupTransition m) out adm in
              Some (finishDispatch s m (AnyValue 0) err adm)
      | stop => Some (finishDispatch (loseRequest (endDispatchOf s i) (rq_GroupTransition m) LossFenced) m (AnyValue 0) stop adm)
      end = Some s') by (destruct out as [[] | | |]; done).
    clear He. destruct (leave_ok s i m Hs Hi) as (H1 & _ & _). destruct (dispatchBegin (endDispatchOf s i) m None) as [|stop stops].
    + destruct (groupTransition_ok reg (endDispatchOf s i) (rq_GroupTransition m) out adm H1 Hout) as [K1 K2].
      pose proof (fun c => total_groupTransition c reg (endDispatchOf s i) (rq_GroupTransition m) out adm) as K3.
      destruct (groupTransitionDispatch _ _ _ _ _) as [s1 err]. injection He' as <-. by apply (endTransition_ok s i).
    + injection He' as <-. apply (endTransition_ok s i); [done..| | |].
      * by apply core_loseRequest.
      * apply frame_loseRequest.
      * intros c. apply total_loseRequest.
  - destruct (ns_clients s !! c) as [[|]|] eqn:Hc; [done| |done].
    destruct (list_find _ _) as [[j [c' a]]|] eqn:Hf; [|done]. injection He as <-.
    apply list_find_Some in Hf as (Hj & Hcc & _). cbn in Hcc. subst c'. apply return_ok; [done..|]. left. exists a.
    split; [by eapply list_elem_of_lookup_2 | done].
  - destruct (ns_clients s !! c) as [[|]|] eqn:Hc; [done| |done]. injection He as <-. apply return_ok; [done..|].
    destruct context as [code|]; eauto.
Qed.

Lemma nestRun_ok es s s' : nestOK s -> nestRun reg groupFunc workerNum s es = Some s' -> nestOK s'.
Proof.
  revert s. induction es as [|e es IH]; intros s Hs Hr; cbn in Hr; [by injection Hr as <-|].
  destruct (nestStep _ _ _ _ _) as [s1|] eqn:He; [|done]. apply (IH s1); [by eapply nestStep_ok | done].
Qed.
End Preservation.

(** ** Runs that drop nothing *)

Definition handled (r : transitionRequest) : Prop := forall ct, gt_Continuation r = Some ct -> ct_Handler ct <> ""%string.

Record sound s : Prop := {
  sd_lost : ns_lost s = [];
  sd_fence : lf_fenceErr (ns_life s) = None;
  sd_handled : Forall handled (ns_transitions s) }.

(** The engine is not fenced or stopped with work left, the dispatcher takes the
    messages of transitions, and transitions neither panic nor lack a handler. *)
Definition harmless (e : nestEvent) : Prop :=
  match e with
  | EvStopDelayed | EvWorkerClosed _ | EvFence _ => False
  | EvDue _ adm => adm = None
  | EvTransition _ _ _ cont adm => adm = None /\ forall handler params, cont = Some (handler, params) -> handler <> ""%string
  | EvEndTransition _ out adm =>
      match out with TransitionBusy _ => adm = None | TransitionPanics _ => False | _ => True end
  | _ => True
  end.

Section Harmless.
Context (reg : Registry) (groupFunc : option (Z -> Z)) (workerNum : Z).

Lemma sound_messages s q d r : sound s -> sound (withMessages s q d r).
Proof. intros []. by split. Qed.

Lemma sound_answer s o a : sound s -> sound (answer s o a).
Proof. intros []. by destruct o. Qed.

Lemma sound_takeChan s p : sound s -> sound (takeChan s p).1.
Proof.
  intros Hs. destruct (takeChan_cases s p) as [-> | (q & r & _ & Hr & ->)]; [done|]. destruct Hs as [H1 H2 H3].
  split; [done..|]. cbn. apply Forall_insert; [done|]. rewrite Forall_lookup in H3. specialize (H3 q r Hr).
  intros ct Hct. cbn in Hct. destruct (gt_Continuation r) as [ct0|] eqn:E; [|done]. injection Hct as <-. exact (H3 ct0 E).
Qed.

Lemma sound_sendMsg s m adm : (adm = None \/ rq_GroupTransition m = None) -> sound s -> sound (sendMsg s m adm).
Proof.
  intros Hor Hs. unfold sendMsg. destruct adm; [|by apply sound_messages]. destruct Hor as [? | ->]; [done|].
  by apply sound_answer.
Qed.

Lemma sound_delaySendMsg s m adm : (adm = None \/ rq_GroupTransition m = None) -> sound s -> sound (delaySendMsg s m adm).
Proof.
  intros Hor Hs. unfold delaySendMsg. destruct adm; [|by apply sound_messages]. destruct Hor as [? | ->]; [done|].
  by apply sound_answer.
Qed.

Lemma sound_complete s p err : sound s -> sound (completeContinuation s p err).
Proof.
  intros Hs. unfold completeContinuation. destruct err; [done|]. pose proof (sound_takeChan s p Hs).
  destruct (takeChan s p). by apply sound_answer.
Qed.

Lemma sound_finish s m ret err adm : malformed m = 0%nat -> sound s -> sound (finishDispatch s m ret err adm).
Proof.
  intros Hm Hs. unfold finishDispatch.
  set (err0 := if errorsIs err ErrEntityGroupTransitionScheduled then [] else err). clearbody err0.
  assert (Hstep : forall (b : bool) s1 m1 err1 s2 m2 err2, malformed m1 = 0%nat -> sound s1 ->
    (if b then requeueNestDispatch s1 m1 err1 adm else (s1, m1, err1)) = (s2, m2, err2) -> malformed m2 = 0%nat /\ sound s2).
  { intros b s1 m1 err1 s2 m2 err2 Hm1 Hs1 H. destruct b; [|by injection H as <- <- <-].
    unfold requeueNestDispatch in H. pose proof (proj1 (malformed_spec m1) Hm1) as [Hgt _]. unfold isTransition in Hgt.
    assert (Hno : rq_Type m1 <> MsgTypeGroupTransition -> rq_GroupTransition m1 = None).
    { intros Hty. destruct (rq_GroupTransition m1) as [p|] eqn:E; [|done].
      destruct (rq_Type m1); try (by discriminate (proj2 Hgt ltac:(eauto))). done. }
    destruct (rq_Type m1); try (destruct (_ <=? _); injection H as <- <- <-; (split; [done|]); [done|];
      apply sound_delaySendMsg; [right; apply Hno; discriminate | done]).
    by injection H as <- <- <-. }
  destruct (if errorsIs err0 ErrEntityGroupTransitionPending then _ else _) as [[s1 m1] err1] eqn:H1.
  destruct (if transient err1 then _ else _) as [[s2 m2] err2] eqn:H2.
  apply Hstep in H1 as [Hm1 Hs1]; [|done..]. apply Hstep in H2 as [Hm2 Hs2]; [|done..]. by apply sound_answer.
Qed.

Lemma sound_alloc s r : handled r -> sound s -> sound (withTransitions s (ns_transitions s ++ [r])).
Proof. intros Hr [H1 H2 H3]. split; [done..|]. cbn. apply Forall_app. split; [done|]. by constructor. Qed.

Lemma sound_requestTransition s cur id pre cont adm :
  harmless (EvTransition cur id pre cont adm) -> sound s -> sound (requestTransition s cur id pre cont adm).1.
Proof.
  intros [-> Hname] Hs. unfold requestTransition. destruct pre; [|done].
  destruct cont as [[handler params]|].
  - destruct (bindContinuation s cur handler params) as [[s1 ct]|e] eqn:Hb; run_bind; [|done]. cbn [fst].
    assert (Hs1 : sound s1 /\ ct_Handler ct = handler).
    { unfold bindContinuation in Hb. destruct (_ ≫= _) as [[[i m] c]|]; [|done]. injection Hb as <- <-.
      split; [by apply sound_messages | done]. }
    apply sound_sendMsg; [by left|]. apply sound_alloc; [|apply Hs1]. intros ct' Hct. injection Hct as <-.
    rewrite (proj2 Hs1). by apply (Hname handler params).
  - apply sound_sendMsg; [by left|]. by apply sound_alloc.
Qed.

Lemma sound_groupTransition s x out adm i :
  harmless (EvEndTransition i out adm) -> sound s -> sound (groupTransitionDispatch reg s x out adm).1.
Proof.
  intros Hh Hs. unfold groupTransitionDispatch. destruct (pointerOf s x) as [[q r]|] eqn:Hp; [|done].
  assert (Hq : ns_transitions s !! q = Some r).
  { unfold pointerOf in Hp. destruct x as [q'|]; [|done]. cbn in Hp. destruct (ns_transitions s !! q') eqn:E; naive_solver. }
  pose proof (sd_handled _ Hs) as Hall. rewrite Forall_lookup in Hall. specialize (Hall q r Hq).
  destruct out as [err | expired | | err]; cbn [harmless] in Hh; cbn [fst]; [by apply sound_complete| | |done].
  - subst adm. unfold retryTransition. set (r' := mkTransition (gt_EntityID r) (gt_Attempts r + 1) (gt_Continuation r)).
    assert (H1 : sound (withTransitions s (<[q := r']> (ns_transitions s)))).
    { destruct Hs as [? ? H3]. split; [done..|]. cbn. by apply Forall_insert. }
    destruct (_ || expired); [by apply sound_complete|].
    destruct (errorsIs _ _); cbn [fst]; [|apply sound_complete]; apply sound_delaySendMsg; auto.
  - unfold dispatchContinuation. rewrite Hp. destruct (gt_Continuation r) as [ct|] eqn:Hct; [|done].
    destruct (ct_RetChan ct) as [c|]; [|done]. destruct (String.eqb_spec (ct_Handler ct) "") as [E|_]; [by apply Hall in E|].
    apply sound_sendMsg; [right; by rewrite (proj2 (remote_ok _ _ _))|]. by apply sound_takeChan.
Qed.

Lemma sound_admitAll ms s opts adms : sound s -> sound (admitAll s ms opts adms).
Proof.
  revert s adms. induction ms as [|m ms IH]; intros s adms Hs; [done|]. destruct adms as [|[e|] adms]; [done..|]. cbn.
  apply IH. unfold NestMgr_admit. by destruct (0 <? _); apply sound_messages.
Qed.

Lemma sound_step s e s' :
  nestOK s -> sound s -> harmless e -> nestStep reg groupFunc workerNum s e = Some s' -> sound s'.
Proof.
  intros Hok Hs Hh He. assert (Hcl : forall cl n rf, sound (withClients s cl n rf)) by (intros; by destruct Hs).
  destruct e as [getterSet | cause | | | k | who name t params opts adm | who name t params opts adm
    | who name ids params opts adms | k | k adm | cur id pre cont adm | i canceled ret err adm | i out adm | c | c context];
    cbn [nestStep] in He; cbn [harmless] in Hh; try done.
  - injection He as <-. unfold NestMgr_Start. repeat case_match; try done. destruct Hs. by split.
  - injection He as <-. destruct Hs. by split.
  - injection He as <-. unfold request. destruct (clientMessage _ _ _ _ _ _ _ _ _) as [m|]; [|done].
    destruct adm; [apply Hcl|]. unfold NestMgr_admit. by destruct (0 <? _); apply sound_messages.
  - injection He as <-. unfold dispatch. destruct (clientMessage _ _ _ _ _ _ _ _ _) as [m|]; [|done].
    destruct adm; [done|]. unfold NestMgr_admit. by destruct (0 <? _); apply sound_messages.
  - injection He as <-. unfold broadcast. destruct (broadcastMessages _ _ _ _ _ _ _ _ _ _); [|done]. by apply sound_admitAll.
  - destruct (ns_queue s !! k) as [m|]; [|done]. injection He as <-. by apply sound_messages.
  - destruct (ns_delayed s !! k) as [m|]; [|done]. injection He as <-. apply sound_sendMsg; [by left | by apply sound_messages].
  - injection He as <-. by apply sound_requestTransition.
  - destruct (ns_running s !! i) as [m|] eqn:Hi; [|done]. cbn in He. destruct (isTransition m); [done|]. injection He as <-.
    destruct (leave_ok s i m Hok Hi) as (_ & Hm & _). apply sound_finish; [done | by apply sound_messages].
  - destruct (ns_running s !! i) as [m|] eqn:Hi; [|done]. cbn in He. destruct (isTransition m); [|done]. cbn in He.
    destruct (leave_ok s i m Hok Hi) as (_ & Hm & _).
    assert (Hb : dispatchBegin (endDispatchOf s i) m None = []) by (unfold dispatchBegin; cbn; by rewrite (sd_fence _ Hs)).
    rewrite Hb in He.
    pose proof (sound_groupTransition (endDispatchOf s i) (rq_GroupTransition m) out adm i Hh (sound_messages _ _ _ _ Hs)) as K.
    destruct (groupTransitionDispatch _ _ _ _ _) as [s1 err].
    assert (s' = finishDispatch s1 m (AnyValue 0) err adm) as -> by (destruct out as [[] | | |]; congruence).
    by apply sound_finish.
  - repeat case_match; simplify_eq. apply Hcl.
  - repeat case_match; simplify_eq; apply Hcl.
Qed.

Lemma sound_run es s s' :
  nestOK s -> sound s -> Forall harmless es -> nestRun reg groupFunc workerNum s es = Some s' -> sound s'.
Proof.
  intros Hok Hs Hes. revert s Hok Hs. induction Hes as [|e es He _ IH]; intros s Hok Hs Hr; cbn in Hr; [by injection Hr as <-|].
  destruct (nestStep _ _ _ _ _) as [s1|] eqn:Hstep; [|done].
  apply (IH s1); [by eapply nestStep_ok | by eapply sound_step | done].
Qed.
End Harmless.

(** ** Every request is answered once *)

Definition answersOf s (c : nat) : list any := snd <$> filter (fun x => x.1 = c) (ns_sent s).

Definition live s : list Msg := ns_queue s ++ ns_delayed s ++ ns_running s.

(** A message carries the channel, or refers to a transition whose continuation does. *)
Definition pending s (c : nat) : Prop :=
  (exists m, m ∈ live s /\ rq_RetChan m = Some c)
  \/ exists m p r, m ∈ live s /\ rq_GroupTransition m = Some p /\ ns_transitions s !! p = Some r /\ contChan r = Some c.

Definition quiet s : Prop := live s = [].

Lemma sum_pos {A} (f : A -> nat) l : (0 < sum_list_with f l)%nat <-> exists x, x ∈ l /\ (0 < f x)%nat.
Proof.
  induction l as [|y l IH]; cbn.
  - split; [lia|]. intros (x & Hx & _). by apply elem_of_nil in Hx.
  - setoid_rewrite elem_of_cons. split.
    + intros H. destruct (decide (0 < f y)%nat); [eauto|]. destruct (proj1 IH ltac:(lia)) as (x & ? & ?). eauto.
    + intros (x & [-> | Hx] & Hf); [lia|]. pose proof (proj2 IH (ex_intro _ x (conj Hx Hf))). lia.
Qed.

Lemma occ_pos c o : (0 < occ c o)%nat <-> o = Some c.
Proof. unfold occ. destruct (bool_decide_reflect (o = Some c)); split; done || lia. Qed.

Lemma msum_pos f s : (0 < msum f s)%nat <-> exists m, m ∈ live s /\ (0 < f m)%nat.
Proof.
  assert (msum f s = sum_list_with f (live s)) as -> by (unfold msum, live; rewrite !sum_app; lia). apply sum_pos.
Qed.

Lemma length_answers s c : length (answersOf s c) = sum_list_with (fun x => occ c (Some x.1)) (ns_sent s).
Proof.
  unfold answersOf. rewrite length_fmap. induction (ns_sent s) as [|[d a] l IH]; [done|]. rewrite filter_cons. cbn.
  rewrite occ_Some. cbn. destruct (decide (d = c)); cbn; lia.
Qed.

Lemma elem_answers s c a : (c, a) ∈ ns_sent s -> a ∈ answersOf s c.
Proof.
  intros H. apply list_elem_of_fmap. exists (c, a). split; [done|]. by apply list_elem_of_filter.
Qed.

Lemma refused_pos s c : (0 < sum_list_with (fun x => occ c (Some x)) (ns_refused s))%nat <-> c ∈ ns_refused s.
Proof.
  rewrite sum_pos. setoid_rewrite occ_pos. split; [by intros (x & Hx & [= ->]) | eauto].
Qed.

Lemma lost_pos s c : (0 < sum_list_with (fun x => occ c (Some x.1)) (ns_lost s))%nat <-> c ∈ (ns_lost s).*1.
Proof.
  rewrite sum_pos, list_elem_of_fmap. setoid_rewrite occ_pos. split; [intros (x & Hx & [= <-]); eauto | intros (x & -> & Hx); eauto].
Qed.

Lemma pending_count s c :
  coreOK s None ->
  pending s c <-> (0 < msum (chanOf c) s + sum_list_with (fun r => occ c (contChan r)) (ns_transitions s))%nat.
Proof.
  intros [Hrefs _]. split.
  - intros [(m & Hm & Hc) | (m & p & r & Hm & Hp & Hr & Hc)].
    + assert (0 < msum (chanOf c) s)%nat; [|lia]. apply msum_pos. exists m. split; [done|]. by apply occ_pos.
    + assert (0 < sum_list_with (fun r => occ c (contChan r)) (ns_transitions s))%nat; [|lia].
      apply sum_pos. exists r. split; [by eapply list_elem_of_lookup_2 | by apply occ_pos].
  - intros H. destruct (decide (0 < msum (chanOf c) s)%nat) as [Hpos | Hz].
    + left. apply msum_pos in Hpos as (m & Hm & Hc%occ_pos). eauto.
    + right. assert (0 < sum_list_with (fun r => occ c (contChan r)) (ns_transitions s))%nat as Hpos by lia.
      apply sum_pos in Hpos as (r & Hr & Hc%occ_pos). apply list_elem_of_lookup in Hr as [p Hp].
      destruct (Hrefs p) as (_ & _ & H1). specialize (H1 r Hp ltac:(congruence)). rewrite occ_None in H1.
      assert (0 < msum (refersTo p) s)%nat as (m & Hm & Hg%occ_pos)%msum_pos by lia. eauto 8.
Qed.

(** C3. Every request has at most one answer, and none is forgotten.  For every
    schedule of an engine and every channel made for a request:
    - at most one value is ever sent on the channel, so no worker blocks on it;
    - the channel is in one place: it has its answer, or a message that is queued,
      delayed or dispatched carries it (itself or through the transition it is
      about), or the request was refused when it was made, or the channel was
      dropped for a reason the engine records;
    - what a caller returns with is the answer, a time-out, the end of its
      context, or the refusal;
    - no message is requeued more than 400 times;
    - when nothing is left to do, and the run neither fenced nor stopped the
      engine with delayed work, nor had a transition refused, panicking or
      without a handler, every request that was admitted has exactly one answer. *)
Theorem Requests_answered_once reg groupFunc workerNum es s c :
  nestRun reg groupFunc workerNum NewEngine es = Some s -> (c < ns_next s)%nat ->
  (length (answersOf s c) <= 1)%nat
  /\ (answersOf s c <> [] \/ pending s c \/ c ∈ ns_refused s \/ c ∈ (ns_lost s).*1)
  /\ (answersOf s c <> [] -> (~ pending s c) /\ (c ∉ ns_refused s) /\ (c ∉ (ns_lost s).*1))
  /\ (pending s c -> (c ∉ ns_refused s) /\ (c ∉ (ns_lost s).*1)) /\ (c ∈ ns_refused s -> c ∉ (ns_lost s).*1)
  /\ (forall r, ns_clients s !! c = Some (Some r) ->
       (exists a, answersOf s c = [a] /\ r = waitResult (WaitReceived a))
       \/ (exists code, r = waitResult (WaitContext code)) \/ r = waitResult WaitTimer \/ c ∈ ns_refused s)
  /\ (forall m, m ∈ live s -> rq_PendingRequeues m <= entityGroupDispatchRequeueMax)
  /\ (quiet s -> Forall harmless es -> c ∉ ns_refused s -> exists a, answersOf s c = [a]).
Proof.
  intros Hrun Hc. pose proof (nestRun_ok _ _ _ es _ s NewEngine_ok Hrun) as Hok.
  pose proof (no_total _ Hok c) as Ht. rewrite decide_True in Ht by done. unfold total, elsewhere in Ht.
  rewrite <- length_answers in Ht. pose proof (pending_count s c (no_core _ Hok)) as Hp.
  pose proof (refused_pos s c) as Hr. pose proof (lost_pos s c) as Hl.
  assert (Ha : answersOf s c <> [] <-> (0 < length (answersOf s c))%nat) by (destruct (answersOf s c); cbn; split; done || lia).
  rewrite Ha. split_and!.
  - lia.
  - destruct (decide (0 < length (answersOf s c))%nat); [by left|]. rewrite Hp, <- Hr, <- Hl. lia.
  - rewrite Hp, <- Hr, <- Hl. lia.
  - rewrite Hp, <- Hr, <- Hl. lia.
  - rewrite <- Hr, <- Hl. lia.
  - intros r Hret. destruct (no_returned _ Hok c r Hret) as [(a & Hin & ->) | H]; [left | by right].
    exists a. split; [|done]. apply elem_answers in Hin. destruct (answersOf s c) as [|a' [|]]; cbn in *; [by apply elem_of_nil in Hin| |lia].
    apply list_elem_of_singleton in Hin. by subst.
  - intros m Hm. destruct (no_core _ Hok) as [_ Hmal]. destruct (decide (malformed m = 0%nat)) as [E | E].
    + by apply malformed_spec in E as [_ [_ ?]].
    + assert (0 < msum malformed s)%nat; [|lia]. apply msum_pos. exists m. split; [done | lia].
  - intros Hq Hh Hnr. assert (Hsound : sound s).
    { apply (sound_run reg groupFunc workerNum es NewEngine); [apply NewEngine_ok | by split | done..]. }
    assert (~ pending s c).
    { intros [(m & Hm & _) | (m & _ & _ & Hm & _)]; rewrite Hq in Hm; by apply elem_of_nil in Hm. }
    assert (c ∉ (ns_lost s).*1) by (rewrite (sd_lost _ Hsound); by intros ?%elem_of_nil).
    assert (length (answersOf s c) = 1%nat) by (rewrite Hp in *; rewrite <- Hr in *; rewrite <- Hl in *; lia).
    destruct (answersOf s c) as [|a [|]]; [done | by exists a | done].
Qed.

(** ** Runs *)

Module RequestSample.
Definition who : caller := mkCaller None false 0.
Definition asking : nestEvent := EvRequest who "join" (TargetOne 5149) [] [] None.

(** The handler of the request joins a group and leaves the answer to a
    continuation; the first attempt finds the group locked; the continuation
    meets a pending transition and is requeued; then it answers. *)
Definition joining : list nestEvent :=
  [EvStart true; asking; EvTake 0;
   EvTransition (Some 0%nat) 5149 [] (Some ("joined"%string, [])) None;
   EvEnd 0 None (AnyValue 0) [] None;
   EvTake 0; EvEndTransition 0 (TransitionBusy false) None;
   EvDue 0 None; EvTake 0; EvEndTransition 0 TransitionMoves None;
   EvTake 0; EvEnd 0 None (AnyValue 0) [ErrEntityGroupTransitionPending] None;
   EvDue 0 None; EvTake 0; EvEnd 0 None (AnyValue 42) [] None;
   EvReceive 0].

Definition joined : NestMgr := default NewEngine (nestRun sample_registry None 4 NewEngine joining).

Lemma Requests_answered_once_witness :
  nestRun sample_registry None 4 NewEngine joining = Some joined /\ quiet joined
  /\ ns_clients joined !! 0%nat = Some (Some (Ok 42)) /\ exists a, answersOf joined 0 = [a].
Proof.
  assert (Hrun : nestRun sample_registry None 4 NewEngine joining = Some joined) by (vm_compute; reflexivity).
  split; [exact Hrun|]. split; [vm_compute; reflexivity|]. split; [vm_compute; reflexivity|].
  destruct (Requests_answered_once sample_registry None 4 joining joined 0 Hrun) as (_ & _ & _ & _ & _ & _ & _ & H).
  { vm_compute. lia. }
  apply H; [vm_compute; reflexivity | | by_evaluation].
  repeat constructor; cbn; congruence.
Defined.

(** The message of a transition that the dispatcher refuses is recycled, the
    handler is told that all is well, and nobody answers the caller. *)
Example refused_transition_forgets_caller :
  (fun s => (ns_lost s, answersOf s 0, length (live s), ns_clients s !! 0%nat))
    <$> nestRun sample_registry None 4 NewEngine
      [EvStart true; asking; EvTake 0;
       EvTransition (Some 0%nat) 5149 [] (Some ("joined"%string, [])) (Some (ErrPool ErrWorkerQueueFull));
       EvEnd 0 None (AnyValue 0) [] None]
  = Some ([(0%nat, LossRefused)], [], 0%nat, Some None).
Proof. vm_compute. reflexivity. Qed.

Example refused_transition_reports_success :
  (requestTransition NewEngine None 5149 [] None (Some (ErrPool ErrWorkerQueueFull))).2 = [].
Proof. reflexivity. Qed.

(** A request that waits in the delay queue when the engine stops is recycled
    without an answer. *)
Example stop_forgets_delayed_caller :
  (fun s => (ns_lost s, answersOf s 0, length (live s), ns_clients s !! 0%nat))
    <$> nestRun sample_registry None 4 NewEngine
      [EvStart true; EvRequest who "join" (TargetOne 5149) [] [SendOptionWithDelay 1000] None; EvShutdown; EvStopDelayed]
  = Some ([(0%nat, LossStopped)], [], 0%nat, Some None).
Proof. vm_compute. reflexivity. Qed.

(** A fenced engine answers the request but not the one that waits behind a transition. *)
Example fence_forgets_continuation :
  (fun s => (ns_lost s, answersOf s 0, answersOf s 1))
    <$> nestRun sample_registry None 4 NewEngine
      [EvStart true; asking; asking; EvTake 0;
       EvTransition (Some 0%nat) 5149 [] (Some ("joined"%string, [])) None;
       EvEnd 0 None (AnyValue 0) [] None; EvFence 9;
       EvTake 0; EvEnd 0 None (AnyValue 0) [] None; EvTake 0; EvEndTransition 0 TransitionMoves None]
  = Some ([(0%nat, LossFenced)], [], [AnyError [ErrDispatcher (ErrFence 9)]]).
Proof. vm_compute. reflexivity. Qed.
End RequestSample.
